(* ===== verification/_CoqProject ===== *)
-Q . S2P
Prelude.v
GoStrings.v
GoTime.v
CalErrors.v
GoEncode.v
GoJson.v
Redact.v
CalTypes.v
TimePolicy.v
FreeSlots.v
Scopes.v
NetMail.v
Config.v
Capability.v
Retry.v
Middleware.v
Validation.v
NetUrl.v
Tools.v
ContactsTypes.v
MailTypes.v
MailValidation.v
ImapAdapter.v
MailClient.v
MailMutation.v
MailSearch.v
MailSend.v
SendCache.v
HtmlText.v
MailRead.v
MailReply.v
ContactsValidation.v
ContactsUrl.v
VCard.v
ContactsXml.v
ContactsDav.v
ContactsClient.v
Resources.v
CalendarReads.v
SearchEvents.v
FreeSlotsTool.v
Idempotency.v
ToolResults.v
Recurrence.v
EventInput.v
CalendarTools.v
ContactsTools.v
MailTools.v
Stdio.v
Allowlist.v
CalXml.v
ICal.v
ICalFacts.v
ICalWrite.v
CalDav.v
CalClient.v
CalWrites.v
