(* ===== verification/Prelude.v ===== *)
(** * Verification of icloud-mcp

    The program is an MCP server (src/cmd/icloud-mcp) that gives an agent
    bounded access to the Calendar (CalDAV), Contacts (CardDAV) and Mail (IMAP
    and SMTP) of one iCloud account.  A request is read by the bounded stdio
    transport, decoded by mcp-go, checked and authorized by a tool handler
    (src/internal/mcptools), and served by one of three clients
    (src/internal/icloud, contacts, mail); secrets are redacted on the way out
    (src/internal/security).  The configuration (src/internal/config) decides
    which tools exist and which resources they may touch.

    ** How the code is modelled

    A Go function is a Rocq function with the function's name.  A value and an
    [error] become [result]; nil pointers are [option]; [int] is [Z], wrapped
    by [wrap64] where it can overflow; a string is [string] with its bytes;
    maps are [gmap], and where the iteration order of a Go map can be seen, it
    is the argument [MapOrder].  A function that talks to the outside acts on a
    state [W] in the monad [M W E] of Tools.v (or carries its own log); what it
    talks to is a type class over [W], so that every theorem holds for every
    network, clock and library the class allows.  Panics are values
    ([Panicked], [Panics], [handler_end]).  Code that several goroutines run
    is a step relation, with theorems about every reachable state.
    Definitions are executable; the witnesses run them.

    ** Files

    Foundations: Prelude (this file: results, lists, relations, automation);
    GoStrings, GoTime, GoEncode, GoJson, NetMail, NetUrl (the parts of Go's
    standard library the program uses); Tools (the monad of handlers, logs, and
    the decoding of arguments of mcptools/helpers.go); ToolResults (error
    payloads, bounded results, recovery from panics, audit records: the rest of
    helpers.go, middleware.go, security/audit.go).

    Configuration: Scopes and Config (config/scopes.go, config.go); Capability
    (mcptools/register.go, contacts_register.go, mail_register.go,
    icloud_capabilities.go).

    Security and transport: Redact (security/redact.go); Stdio
    (cmd/icloud-mcp/bounded_stdio.go).

    Calendar: CalTypes, CalErrors (icloud/service.go, errors.go); TimePolicy
    (timepolicy.go); Validation (validation.go, etag.go, location_cache.go);
    Recurrence (recurrence.go); EventInput (eventvalidate.go, the RRULE checks
    of validation.go, the zone checks of ical.go);
    FreeSlots (freeslots.go); Retry (retry.go); Middleware (middleware.go);
    and the tools CalendarReads, SearchEvents, FreeSlotsTool, Resources,
    Idempotency (the files of mcptools of the same names), and
    CalendarTools (create_event.go, update_event.go, delete_event.go,
    get_event.go, list_calendars.go, validate_event.go,
    calendar_capabilities.go).

    Contacts: ContactsTypes, ContactsValidation, ContactsUrl, VCard,
    ContactsXml, ContactsDav, ContactsClient (contacts/service.go, errors.go,
    validation.go, client.go, vcard.go, xml.go, dav.go, discovery.go,
    operations.go); ContactsTools (mcptools/contacts_common.go,
    contacts_read.go, contacts_write.go).

    Mail: MailTypes, MailValidation, ImapAdapter, MailClient, MailMutation,
    MailSearch, MailSend, SendCache, HtmlText, MailRead, MailReply (the files
    of mail and mail/imapadapter); MailTools
    (mcptools/mail_handlers.go).

    PROJECT.json maps every definition to its lines.

    ** How the parts meet

    The three service interfaces are classes ([CalTypes.Service],
    [CT.ContactsService], [MT.MailService]): the tool handlers are proved
    against them.  The Contacts client runs over [DavNet] (one HTTP exchange,
    limiters, semaphore, timers) with the log logic [emits] of Tools.v; the Mail
    client over [MailNet] and, below it, [ImapClient] (go-imap); the retry
    classifier over [Upstream].  Libraries the code calls and we do not have are
    classes too: [VCardLib] (go-vcard), [XMLTokens] (the tokenizer of
    encoding/xml), [MimeReader] (go-message), [HtmlEntities],
    [UnicodeTables], [SortSlice] (sort.Slice, whose order of equal elements is
    open), [RRuleLib] (rrule-go: parser, validator, iterator), [Rand], [JsonLen] and [MessageSize] (sizes of encodings).  Where a
    theorem needs one of their documented properties it is a hypothesis, and
    its witness instantiates the class.

    ** What the theorems show

    - Mutations: a keyed update runs once under any interleaving
      ([mutation_runs_once]); one key submits one message
      ([one_submission_per_key]); mail is shown to the server only for allowed
      recipients and its outcome is reported honestly ([send_outcome],
      [mutations_honest], [definite_failures]); every write to Contacts is
      conditional ([conditional_writes]) and keeps what it was not asked to
      change ([patch_preserves]); the Contacts tools refuse, or authorize and
      call the service once and record it ([contact_mutations_authorized]).
    - Confinement: scopes bound what a search or selection returns
      ([resolveSearchCalendars_in_scope], [searchScopedContacts_in_scope]),
      requests go to validated URLs ([dav_requests], [url_within_confined],
      [discovery_ok]), and only the tools the configuration grants exist
      ([Load_ok], [boot_tools], [RegisterUnified_installs]).
    - Secrets and bounds: no credential reaches the log or the output
      ([Redact_hides_credentials], [log_stream_clean], [stdout_frames_safe]);
      frames are read whole ([frames_read_whole]); results are bounded
      ([tool_results_bounded], [writeSearchEventsJSON_bounded], [Do_bounded],
      [guard_stream]).
    - Answers: free slots are free, complete and found in finite time
      ([free_slots_avoid_events], [FindFreeSlots_sound], [_maximal],
      [_terminates]); searches cover what they say ([search_ok],
      [finish_search_ok], [pages_cover], [search_page_complete]); messages,
      replies and cards are the ones asked for ([get_message_ok], [reply_ok],
      [raw_roundtrip], [FormatEventTime_roundtrip], [htmlToText_total]).
    - Calendar writes: a mutation is refused, or authorized and handed to the
      service once with an event or an update that is valid, and recorded
      ([calendar_mutations_authorized]); an event that passes the validation is
      one iCloud can be given ([validated_event_ok]), and its rule keeps
      reaching instants ([clock_live], [dates_live]); the occurrences shown of a
      series are those of the rule inside the range, with the exceptions and
      overrides applied ([expansion_ok]).  The Mail tools authorize before they
      act ([mail_mutations_authorized]) and accept exactly the documented
      arguments ([mail_inputs_accepted]).

    ** Fuel

    Loops that are not structural take fuel, and the fuel given is proved
    enough: [json_parse_fuel] (twice the length of the text), the loops of
    [Redact.Write], [Stdio.readFrame] and [write_frames] (every turn consumes a
    byte), [dav_loop_fuel] (attempts and redirects), [Do_bounded] (attempts),
    [FindFreeSlots_terminates] (days of the window), [htmlToText_total].
    [Redact] stops after 32 rounds as the code does.

    ** Not modelled

    The CalDAV client (client.go, dav.go, discovery.go, calendars.go,
    webdav_xml.go) and the iCalendar codec (most of ical.go) work on the
    component trees and requests of go-ical and go-webdav; the tools are proved
    against the [Service] interface the client implements.  Tool schemas
    (mcp-go), dialling and TLS (allowlist.go, mail_dial.go, the connection
    level of smtp.go), the executable's wiring (main.go, doctor.go), the health
    endpoint and the test double mock.go are not modelled.
*)
From Stdlib Require Export ZArith Lia Ascii String.
From stdpp Require Export base tactics list strings gmap sorting pretty.

#[global] Open Scope string_scope.
#[global] Open Scope Z_scope.

(** * Fallible computations

    Go functions return a value and an [error]; a non-nil error means the value
    is not used.  [result E A] keeps exactly one of the two. *)
Inductive result (E A : Type) : Type :=
| Ok (a : A)
| Err (e : E).
Arguments Ok {E A} a.
Arguments Err {E A} e.

#[export] Instance result_ret {E} : MRet (result E) := fun A a => Ok a.
#[export] Instance result_bind {E} : MBind (result E) :=
  fun A B f r => match r with Ok a => f a | Err e => Err e end.
#[export] Instance result_fmap {E} : FMap (result E) :=
  fun A B f r => match r with Ok a => Ok (f a) | Err e => Err e end.

#[export] Instance result_eq_dec {E A} `{EqDecision E, EqDecision A} :
  EqDecision (result E A).
Proof. solve_decision. Defined.

Definition is_ok {E A} (r : result E A) : bool :=
  match r with Ok _ => true | Err _ => false end.

(** [err_of r] is Go's [err] component: [None] stands for nil. *)
Definition err_of {E A} (r : result E A) : option E :=
  match r with Ok _ => None | Err e => Some e end.

Declare Scope go_scope.
Delimit Scope go_scope with go.

(** [reject c with e ;; k] is the early return [if c { return ..., e }; k]. *)
Notation "'reject' c 'with' e ';;' k" :=
  (if c then Err e else k)
  (at level 10, c at level 99, e at level 99, k at level 200,
   format "'[v' 'reject'  c  'with'  e  ';;' '/' k ']'") : go_scope.

#[global] Open Scope go_scope.

(** A Go [for range] loop whose body may return early with an error. *)
Fixpoint fold_res {E A S} (f : S → A → result E S) (l : list A) (s : S) : result E S :=
  match l with
  | [] => Ok s
  | a :: l => match f s a with Ok s' => fold_res f l s' | Err e => Err e end
  end.

(** * Automation *)

Create HintDb go discriminated.

(** Case analysis on every [if]/[match] scrutinee of the goal or a hypothesis,
    remembering the equations. *)
Ltac case_go :=
  repeat first
    [ progress simplify_eq/=
    | case_match; simplify_eq/=
    | match goal with H : context [if ?b then _ else _] |- _ => destruct b eqn:?; simplify_eq/= end ].

(** Turn boolean comparisons into propositions [lia] understands. *)
Ltac bool_to_prop :=
  repeat match goal with
  | H : (_ && _)%bool = true |- _ => apply andb_prop in H as [? ?]
  | H : (_ || _)%bool = false |- _ => apply orb_false_iff in H as [? ?]
  | H : negb _ = true |- _ => apply negb_true_iff in H
  | H : negb _ = false |- _ => apply negb_false_iff in H
  | H : (_ <? _)%Z = true |- _ => apply Z.ltb_lt in H
  | H : (_ <? _)%Z = false |- _ => apply Z.ltb_ge in H
  | H : (_ <=? _)%Z = true |- _ => apply Z.leb_le in H
  | H : (_ <=? _)%Z = false |- _ => apply Z.leb_gt in H
  | H : (_ =? _)%Z = true |- _ => apply Z.eqb_eq in H
  | H : (_ =? _)%Z = false |- _ => apply Z.eqb_neq in H
  | H : bool_decide _ = true |- _ => apply bool_decide_eq_true in H
  | H : bool_decide _ = false |- _ => apply bool_decide_eq_false in H
  end.

(** * Generic lemmas *)

Lemma bind_ok {E A B} (r : result E A) (f : A → result E B) b :
  (r ≫= f) = Ok b ↔ ∃ a, r = Ok a ∧ f a = Ok b.
Proof. destruct r; cbn; split; intros H; [eauto|by destruct H as (? & [= ->] & ?)|done|by destruct H as (? & ? & ?)]. Qed.

Lemma bind_err {E A B} (r : result E A) (f : A → result E B) e :
  (r ≫= f) = Err e ↔ r = Err e ∨ ∃ a, r = Ok a ∧ f a = Err e.
Proof. destruct r; cbn; naive_solver. Qed.

(** An early return that was not taken. *)
Lemma reject_ok {E A} (c : bool) (e : E) (k : result E A) a :
  (if c then Err e else k) = Ok a ↔ c = false ∧ k = Ok a.
Proof. destruct c; naive_solver. Qed.

(** Split a successful chain of fallible calls into its steps. *)
Ltac inv_binds H := repeat (apply bind_ok in H as (? & ? & H)).

(** Errors drawn from a known set. *)
Definition errs_in {E A} (P : E → Prop) (r : result E A) : Prop := ∀ e, r = Err e → P e.
Lemma errs_in_ok {E A} (P : E → Prop) (a : A) : errs_in P (Ok a).
Proof. done. Qed.
Lemma errs_in_err {E A} (P : E → Prop) e : P e → errs_in (A:=A) P (Err e).
Proof. by intros ? ? [= <-]. Qed.
Lemma errs_in_bind {E A B} (P : E → Prop) (r : result E A) (f : A → result E B) :
  errs_in P r → (∀ a, r = Ok a → errs_in P (f a)) → errs_in P (r ≫= f).
Proof. intros Hr Hf e [He|(a & Ha & He)]%bind_err; [by apply Hr|by eapply Hf]. Qed.
Lemma errs_in_if {E A} (P : E → Prop) (b : bool) (r1 r2 : result E A) :
  errs_in P r1 → errs_in P r2 → errs_in P (if b then r1 else r2).
Proof. by destruct b. Qed.
Lemma errs_in_fold {E A S} (P : E → Prop) (f : S → A → result E S) l s :
  (∀ s a, a ∈ l → errs_in P (f s a)) → errs_in P (fold_res f l s).
Proof.
  revert s; induction l as [|a l IH]; intros s Hf; simpl; [apply errs_in_ok|].
  pose proof (Hf s a ltac:(left)) as Ha. destruct (f s a) as [s1|e]; [|done].
  apply IH. intros. apply Hf. by right.
Qed.
Lemma errs_in_weaken {E A} (P Q : E → Prop) (r : result E A) :
  (∀ e, P e → Q e) → errs_in P r → errs_in Q r.
Proof. unfold errs_in. eauto. Qed.
#[export] Hint Resolve errs_in_ok errs_in_err errs_in_bind errs_in_if errs_in_fold : go.

Lemma fold_res_app {E A S} (f : S → A → result E S) l1 l2 s :
  fold_res f (l1 ++ l2) s = fold_res f l1 s ≫= fold_res f l2.
Proof. revert s; induction l1 as [|a l1 IH]; intros s; simpl; [done|]. by destruct (f s a). Qed.

(** Invariants of a loop that may fail. *)
Lemma fold_res_inv {E A S} (I : S → Prop) (f : S → A → result E S) l s s' :
  I s → (∀ s a s', a ∈ l → I s → f s a = Ok s' → I s') →
  fold_res f l s = Ok s' → I s'.
Proof.
  revert s; induction l as [|a l IH]; intros s Hs Hstep; simpl.
  { by intros [= <-]. }
  destruct (f s a) as [s1|e] eqn:Hf; [|done]. intros Hfold.
  eapply IH; [|intros; eapply Hstep; [by right|..]; eauto|exact Hfold].
  eapply Hstep; [left|..]; eauto.
Qed.

Lemma forallb_Forall {A} (f : A → bool) l :
  forallb f l = true ↔ Forall (λ a, f a = true) l.
Proof. rewrite List.forallb_forall, List.Forall_forall. done. Qed.

Lemma existsb_false {A} (f : A → bool) l :
  existsb f l = false ↔ Forall (λ a, f a = false) l.
Proof.
  induction l as [|a l IH]; simpl; [done|].
  rewrite orb_false_iff, IH, Forall_cons. done.
Qed.

Lemma StronglySorted_weaken {A} (R R' : relation A) l :
  (∀ a b, a ∈ l → b ∈ l → R a b → R' a b) → StronglySorted R l → StronglySorted R' l.
Proof.
  induction l as [|a l IH]; intros HR; [constructor|]. intros [Hs Ha]%StronglySorted_inv.
  constructor.
  - apply IH; [|done]. intros x y Hx Hy. apply HR; by right.
  - rewrite Forall_forall in Ha |- *. intros b Hb. apply HR; [left|by right|by apply Ha].
Qed.

Lemma elem_of_concat {A} (x : A) (ls : list (list A)) : x ∈ concat ls ↔ ∃ l, x ∈ l ∧ l ∈ ls.
Proof. rewrite list_elem_of_In, in_concat. setoid_rewrite list_elem_of_In. naive_solver. Qed.

(** Size of a list as a Go [int]. *)
Definition zlen {A} (l : list A) : Z := Z.of_nat (length l).

Lemma zlen_nonneg {A} (l : list A) : 0 <= zlen l.
Proof. unfold zlen. lia. Qed.
Lemma zlen_app {A} (l1 l2 : list A) : zlen (l1 ++ l2) = zlen l1 + zlen l2.
Proof. unfold zlen. rewrite length_app. lia. Qed.
Lemma zlen_cons {A} (a : A) l : zlen (a :: l) = 1 + zlen l.
Proof. unfold zlen. simpl. lia. Qed.
#[export] Hint Resolve zlen_nonneg : go.
Create Rewrite HintDb golen.
#[export] Hint Rewrite @zlen_app @zlen_cons : golen.

(** * Stable sorting *)

(** [sort.SliceStable] with a [less] that is a strict weak order: the result is
    the one sorted permutation that keeps the order of equivalent elements. *)
Section StableSort.
Context {A : Type} (less : A → A → bool).

Fixpoint insert_by (a : A) (l : list A) : list A :=
  match l with
  | [] => [a]
  | b :: l' => if less b a then b :: insert_by a l' else a :: l
  end.
Fixpoint stable_sort (l : list A) : list A :=
  match l with [] => [] | a :: l => insert_by a (stable_sort l) end.

Lemma insert_by_Permutation a l : insert_by a l ≡ₚ a :: l.
Proof.
  induction l as [|b l IH]; simpl; [done|]. destruct (less b a); [|done].
  rewrite IH. apply Permutation_swap.
Qed.
Lemma stable_sort_Permutation l : stable_sort l ≡ₚ l.
Proof. induction l as [|a l IH]; simpl; [done|]. by rewrite insert_by_Permutation, IH. Qed.

(** Not [less b a]: [a] may stand before [b]. *)
Definition may_precede (a b : A) : Prop := less b a = false.
Context (less_trans : ∀ a b c, less a b = false → less b c = false → less a c = false)
        (less_asym : ∀ a b, less a b = true → less b a = false).

Lemma insert_by_sorted a l : StronglySorted may_precede l → StronglySorted may_precede (insert_by a l).
Proof.
  induction 1 as [|b l Hs IH Hb]; simpl; [by repeat constructor|].
  destruct (less b a) eqn:E.
  - constructor; [done|]. rewrite Forall_forall in Hb |- *. intros x Hx.
    rewrite (insert_by_Permutation a l) in Hx. apply elem_of_cons in Hx as [->|Hx]; [by apply less_asym|by apply Hb].
  - constructor; [by constructor|]. constructor; [done|]. rewrite Forall_forall in Hb |- *.
    intros x Hx. eapply less_trans; [by apply Hb|done].
Qed.
Lemma stable_sort_sorted l : StronglySorted may_precede (stable_sort l).
Proof. induction l as [|a l IH]; simpl; [constructor|]. by apply insert_by_sorted. Qed.

(** Equivalent elements keep their order. *)
Lemma insert_by_filter (P : A → bool) a l :
  (∀ b, b ∈ l → P a = true → P b = true → less b a = false) →
  List.filter P (insert_by a l) = List.filter P (a :: l).
Proof.
  intros Heq. induction l as [|b l IH]; [done|]. cbn [insert_by].
  destruct (less b a) eqn:E; [|done]. cbn [List.filter] in *. rewrite IH by (intros; apply Heq; [by right|done..]).
  destruct (P b) eqn:Pb, (P a) eqn:Pa; try done.
  rewrite Heq in E; [done|left|done..].
Qed.
Lemma stable_sort_stable (P : A → bool) l :
  (∀ a b, a ∈ l → b ∈ l → P a = true → P b = true → less a b = false) →
  List.filter P (stable_sort l) = List.filter P l.
Proof.
  induction l as [|a l IH]; intros Heq; [done|]. cbn [stable_sort]. rewrite insert_by_filter.
  - cbn [List.filter]. by rewrite IH by (intros; apply Heq; by (right || done)).
  - intros b Hb Pa Pb. rewrite stable_sort_Permutation in Hb. apply Heq; by (left || right || done).
Qed.
End StableSort.

(** * Reachability *)
Section Star.
Context {S : Type} (R : S → S → Prop).

Inductive star : S → S → Prop :=
| star_refl s : star s s
| star_step s1 s2 s3 : star s1 s2 → R s2 s3 → star s1 s3.

(** Rule induction: a predicate of the initial state kept by every step
    holds in every reachable state. *)
Lemma star_invariant (I : S → Prop) s s' :
  I s → (∀ a b, I a → R a b → I b) → star s s' → I s'.
Proof. intros Hs Hstep Hst. induction Hst; eauto. Qed.

Lemma star_trans a b c : star a b → star b c → star a c.
Proof. intros Hab Hbc. induction Hbc; eauto using star. Qed.
End Star.
#[export] Hint Constructors star : go.
