(* ===== verification/GoStrings.v ===== *)
(** The part of Go's [strings], [bytes], [utf8] and [strconv] packages that the
    program uses.  A Go [string] is a [string] (its bytes are the [ascii]
    values), a Go [[]byte] is a [list ascii]; [bytes] and [str] convert between
    the two as [[]byte(s)] and [string(b)] do.  [len] is the byte length. *)
From S2P Require Import Prelude.

Abbreviation bytes := list_ascii_of_string.
Abbreviation str := string_of_list_ascii.

Definition byte_val (c : ascii) : Z := Z.of_N (N_of_ascii c).
Definition byte_of (z : Z) : ascii := ascii_of_N (Z.to_N z).

Definition len (s : string) : Z := zlen (bytes s).

(** * Search on byte slices *)

Definition has_prefix_b (p l : list ascii) : bool := bool_decide (p `prefix_of` l).
Definition has_suffix_b (p l : list ascii) : bool := bool_decide (p `suffix_of` l).
Definition has_prefix (s p : string) : bool := has_prefix_b (bytes p) (bytes s).
Definition has_suffix (s p : string) : bool := has_suffix_b (bytes p) (bytes s).

Definition trim_prefix (s p : string) : string :=
  if has_prefix s p then str (drop (length (bytes p)) (bytes s)) else s.
Definition trim_suffix (s p : string) : string :=
  if has_suffix s p
  then str (take (length (bytes s) - length (bytes p)) (bytes s)) else s.

(** [bytes.IndexByte]: position of the first [c], [None] for Go's [-1]. *)
Fixpoint index_byte (c : ascii) (l : list ascii) : option nat :=
  match l with
  | [] => None
  | x :: l => if decide (x = c) then Some 0%nat else S <$> index_byte c l
  end.

(** [strings.Index] on bytes. *)
Fixpoint index_b (sub l : list ascii) : option nat :=
  if has_prefix_b sub l then Some 0%nat
  else match l with [] => None | _ :: l => S <$> index_b sub l end.

Definition contains_b (l sub : list ascii) : bool :=
  match index_b sub l with Some _ => true | None => false end.
Definition contains (s sub : string) : bool := contains_b (bytes s) (bytes sub).

(** [strings.ContainsAny] for a set of ASCII characters. *)
Definition contains_any (s cs : string) : bool :=
  existsb (λ c, bool_decide (c ∈ bytes cs)) (bytes s).

(** [strings.LastIndexByte]. *)
Definition last_index_byte (c : ascii) (l : list ascii) : option nat :=
  (λ i, (length l - 1 - i)%nat) <$> index_byte c (reverse l).

(** * Split and join *)

(** [strings.Split] with a one-byte separator: never empty. *)
Fixpoint split_b (sep : ascii) (l : list ascii) : list (list ascii) :=
  match l with
  | [] => [[]]
  | x :: l =>
      if decide (x = sep) then [] :: split_b sep l
      else match split_b sep l with
           | [] => [[x]]
           | w :: ws => (x :: w) :: ws
           end
  end.
Definition split (s : string) (sep : ascii) : list string :=
  map str (split_b sep (bytes s)).

(** [strings.Join]. *)
Fixpoint join (l : list string) (sep : string) : string :=
  match l with
  | [] => ""
  | [x] => x
  | x :: l => x ++ sep ++ join l sep
  end.

(** [strings.ReplaceAll] for a non-empty [old]: the scan goes left to right and
    restarts after each match. *)
Fixpoint replace_fuel (fuel : nat) (old new l : list ascii) : list ascii :=
  match fuel with
  | O => l
  | S fuel =>
      match l with
      | [] => []
      | x :: l' =>
          if has_prefix_b old l
          then (new ++ replace_fuel fuel old new (drop (length old) l))%list
          else x :: replace_fuel fuel old new l'
      end
  end.
Definition replace_all_b (old new l : list ascii) : list ascii :=
  replace_fuel (length l) old new l.
Definition replace_all (s old new : string) : string :=
  str (replace_all_b (bytes old) (bytes new) (bytes s)).

(** * Ordering *)

(** The byte order of Go's string comparison, and [sort.Strings]. *)
Fixpoint bytes_leb (l1 l2 : list ascii) : bool :=
  match l1, l2 with
  | [], _ => true
  | _ :: _, [] => false
  | x :: l1, y :: l2 =>
      if byte_val x <? byte_val y then true
      else if byte_val y <? byte_val x then false else bytes_leb l1 l2
  end.
Definition string_le (s t : string) : Prop := bytes_leb (bytes s) (bytes t) = true.
#[export] Instance string_le_dec : RelDecision string_le.
Proof. intros s t. unfold string_le. apply _. Defined.
Definition sort_strings (l : list string) : list string := merge_sort string_le l.

(** [s < t] on strings. *)
Definition string_ltb (s t : string) : bool := negb (bytes_leb (bytes t) (bytes s)).

(** * UTF-8 *)

Definition rune_error : Z := 65533.
Definition utf8_self : Z := 128.

Definition cont_byte (b : Z) : bool := (128 <=? b) && (b <=? 191).

(** [utf8.DecodeRune] repeated over a slice, as [for range] does: each rune
    with the number of bytes it takes; an invalid byte is U+FFFD of width 1. *)
Definition ok2 (b0 b1 : Z) : bool := (194 <=? b0) && (b0 <=? 223) && cont_byte b1.
Definition ok3 (b0 b1 b2 : Z) : bool :=
  (224 <=? b0) && (b0 <=? 239) &&
  ((if b0 =? 224 then 160 else 128) <=? b1) && (b1 <=? (if b0 =? 237 then 159 else 191)) &&
  cont_byte b2.
Definition ok4 (b0 b1 b2 b3 : Z) : bool :=
  (240 <=? b0) && (b0 <=? 244) &&
  ((if b0 =? 240 then 144 else 128) <=? b1) && (b1 <=? (if b0 =? 244 then 143 else 191)) &&
  cont_byte b2 && cont_byte b3.

Fixpoint runes (l : list ascii) : list (Z * nat) :=
  match l with
  | [] => []
  | c0 :: l0 =>
      let b0 := byte_val c0 in
      if b0 <? utf8_self then (b0, 1%nat) :: runes l0 else
      match l0 with
      | c1 :: l1 =>
          let b1 := byte_val c1 in
          if ok2 b0 b1
          then ((b0 - 192) * 64 + (b1 - 128), 2%nat) :: runes l1 else
          match l1 with
          | c2 :: l2 =>
              let b2 := byte_val c2 in
              if ok3 b0 b1 b2
              then ((b0 - 224) * 4096 + (b1 - 128) * 64 + (b2 - 128), 3%nat) :: runes l2 else
              match l2 with
              | c3 :: l3 =>
                  let b3 := byte_val c3 in
                  if ok4 b0 b1 b2 b3
                  then ((b0 - 240) * 262144 + (b1 - 128) * 4096 + (b2 - 128) * 64 + (b3 - 128), 4%nat)
                         :: runes l3
                  else (rune_error, 1%nat) :: runes l0
              | [] => (rune_error, 1%nat) :: runes l0
              end
          | [] => (rune_error, 1%nat) :: runes l0
          end
      | [] => [(rune_error, 1%nat)]
      end
  end.

(** [utf8.AppendRune]. *)
Definition encode_rune (r : Z) : list ascii :=
  if (0 <=? r) && (r <? 128) then [byte_of r]
  else if (0 <=? r) && (r <? 2048) then [byte_of (192 + r / 64); byte_of (128 + r mod 64)]
  else if (r <? 0) || (1114111 <? r) || ((55296 <=? r) && (r <=? 57343))
       then [byte_of 239; byte_of 191; byte_of 189]
  else if r <? 65536
       then [byte_of (224 + r / 4096); byte_of (128 + (r / 64) mod 64); byte_of (128 + r mod 64)]
  else [byte_of (240 + r / 262144); byte_of (128 + (r / 4096) mod 64);
        byte_of (128 + (r / 64) mod 64); byte_of (128 + r mod 64)].

(** [utf8.ValidString]: no U+FFFD of width 1 is produced. *)
Definition valid_utf8 (l : list ascii) : bool :=
  forallb (λ rw, negb ((rw.1 =? rune_error) && (rw.2 =? 1)%nat)) (runes l).

(** [utf8.RuneStart]. *)
Definition rune_start (c : ascii) : bool := negb (cont_byte (byte_val c)).

(** * White space *)

(** The UTF-8 encodings of the code points [unicode.IsSpace] accepts. *)
Definition space_encodings : list (list Z) :=
  [[9]; [10]; [11]; [12]; [13]; [32]; [194; 133]; [194; 160]; [225; 154; 128]] ++
  (map (λ b, [226; 128; b]) [128; 129; 130; 131; 132; 133; 134; 135; 136; 137; 138; 168; 169; 175]) ++
  [[226; 129; 159]; [227; 128; 128]].
Definition spaces : list (list ascii) := map (map byte_of) space_encodings.

Fixpoint strip_one (pats : list (list ascii)) (l : list ascii) : option (list ascii) :=
  match pats with
  | [] => None
  | p :: pats => if has_prefix_b p l then Some (drop (length p) l) else strip_one pats l
  end.
Fixpoint trim_left_fuel (fuel : nat) (pats : list (list ascii)) (l : list ascii) : list ascii :=
  match fuel with
  | O => l
  | S fuel =>
      match strip_one pats l with
      | Some l' => trim_left_fuel fuel pats l'
      | None => l
      end
  end.
Definition trim_left (pats : list (list ascii)) (l : list ascii) : list ascii :=
  trim_left_fuel (length l) pats l.
(** Trimming on the right reads the slice, and every encoding, backwards. *)
Definition trim_both (pats : list (list ascii)) (l : list ascii) : list ascii :=
  reverse (trim_left (map reverse pats) (reverse (trim_left pats l))).

(** [strings.TrimSpace] and [bytes.TrimSpace]. *)
Definition trim_space_b (l : list ascii) : list ascii := trim_both spaces l.
Definition trim_space (s : string) : string := str (trim_space_b (bytes s)).
(** [strings.Trim] with an ASCII cutset. *)
Definition trim (s cutset : string) : string :=
  str (trim_both (map (λ c, [c]) (bytes cutset)) (bytes s)).

(** * Case mapping *)

Definition lower_byte (c : ascii) : ascii :=
  if (65 <=? byte_val c) && (byte_val c <=? 90) then byte_of (byte_val c + 32) else c.
Definition upper_byte (c : ascii) : ascii :=
  if (97 <=? byte_val c) && (byte_val c <=? 122) then byte_of (byte_val c - 32) else c.
Definition is_ascii_b (l : list ascii) : bool := forallb (λ c, byte_val c <? utf8_self) l.

(** The simple case mappings, the simple folding orbits and the printable set
    of [unicode] outside ASCII are the Unicode tables of the Go release; the
    model takes them as given. *)
Class UnicodeTables := {
  unicode_lower : Z → Z;
  unicode_upper : Z → Z;
  unicode_fold : Z → Z → bool;
  unicode_print : Z → bool;
}.

(** Tables that leave every non-ASCII rune alone. *)
Definition ascii_tables : UnicodeTables :=
  {| unicode_lower := λ r, r; unicode_upper := λ r, r; unicode_fold := Z.eqb; unicode_print := λ _, true |}.

Section CaseMapping.
Context `{UnicodeTables}.

Definition rune_lower (r : Z) : Z :=
  if r <? utf8_self then byte_val (lower_byte (byte_of r)) else unicode_lower r.
Definition rune_upper (r : Z) : Z :=
  if r <? utf8_self then byte_val (upper_byte (byte_of r)) else unicode_upper r.

(** [strings.ToLower], [strings.ToUpper]: an all-ASCII string is mapped byte
    by byte, any other one rune by rune. *)
Definition to_lower_b (l : list ascii) : list ascii :=
  if is_ascii_b l then map lower_byte l
  else concat (map (λ rw, encode_rune (rune_lower rw.1)) (runes l)).
Definition to_upper_b (l : list ascii) : list ascii :=
  if is_ascii_b l then map upper_byte l
  else concat (map (λ rw, encode_rune (rune_upper rw.1)) (runes l)).
Definition to_lower (s : string) : string := str (to_lower_b (bytes s)).
Definition to_upper (s : string) : string := str (to_upper_b (bytes s)).
End CaseMapping.

(** [strings.EqualFold] against an ASCII string: the only non-ASCII code points
    whose simple folding orbit meets ASCII are U+017F (s) and U+212A (k). *)
Definition fold_eq (r : Z) (c : ascii) : bool :=
  let lc := lower_byte c in
  ((r <? utf8_self) && bool_decide (lower_byte (byte_of r) = lc))
  || ((r =? 383) && bool_decide (lc = "s"%char))
  || ((r =? 8490) && bool_decide (lc = "k"%char)).
Fixpoint fold_eq_list (rs : list (Z * nat)) (l : list ascii) : bool :=
  match rs, l with
  | [], [] => true
  | (r, _) :: rs, c :: l => fold_eq r c && fold_eq_list rs l
  | _, _ => false
  end.
Definition equal_fold (s t : string) : bool := fold_eq_list (runes (bytes s)) (bytes t).

(** [strings.EqualFold] of any two strings. *)
Definition rune_fold_eq `{UnicodeTables} (r c : Z) : bool :=
  if c <? utf8_self then fold_eq r (byte_of c)
  else if r <? utf8_self then fold_eq c (byte_of r)
  else (r =? c) || unicode_fold r c.
Fixpoint runes_fold_eq `{UnicodeTables} (rs cs : list (Z * nat)) : bool :=
  match rs, cs with
  | [], [] => true
  | (r, _) :: rs, (c, _) :: cs => rune_fold_eq r c && runes_fold_eq rs cs
  | _, _ => false
  end.
Definition equal_fold_runes `{UnicodeTables} (s t : string) : bool :=
  runes_fold_eq (runes (bytes s)) (runes (bytes t)).

(** * Integers in decimal *)

Definition is_digit (c : ascii) : bool := (48 <=? byte_val c) && (byte_val c <=? 57).
Definition digit_val (c : ascii) : Z := byte_val c - 48.

Definition parse_digits (l : list ascii) : option Z :=
  match l with
  | [] => None
  | _ => if forallb is_digit l
         then Some (fold_left (λ n c, n * 10 + digit_val c) l 0) else None
  end.

Definition max_int64 : Z := 9223372036854775807.
Definition min_int64 : Z := -9223372036854775808.

(** [strconv.ParseInt(s, 10, 64)]. *)
Definition parse_int64 (s : string) : option Z :=
  let '(neg, ds) := match bytes s with
                    | "-"%char :: ds => (true, ds)
                    | "+"%char :: ds => (false, ds)
                    | ds => (false, ds)
                    end in
  match parse_digits ds with
  | Some n =>
      let n := if neg : bool then - n else n in
      if (min_int64 <=? n) && (n <=? max_int64) then Some n else None
  | None => None
  end.

(** Two's complement wrap-around of a 64-bit [int]. *)
Definition wrap64 (z : Z) : Z := (z + 9223372036854775808) mod 18446744073709551616 - 9223372036854775808.

Lemma wrap64_id z : min_int64 <= z <= max_int64 → wrap64 z = z.
Proof. unfold min_int64, max_int64, wrap64. intros Hz. rewrite Z.mod_small by lia. lia. Qed.

(** [%d] formatting. *)
Definition fmt_int (z : Z) : string := pretty z.

(** * Quoting *)

Definition hex_digit (z : Z) : ascii := if z <? 10 then byte_of (48 + z) else byte_of (87 + z).
Fixpoint hex_digits (n : nat) (z : Z) : list ascii :=
  match n with O => [] | S n => (hex_digits n (z / 16) ++ [hex_digit (z mod 16)])%list end.

Section Quote.
Context `{UnicodeTables}.

Definition quote_rune (raw : list ascii) (rw : Z * nat) : list ascii :=
  let '(r, w) := rw in
  if (r =? rune_error) && (w =? 1)%nat
  then (bytes "\x" ++ concat (map (λ c, hex_digits 2 (byte_val c)) raw))%list
  else if (r =? 34) || (r =? 92) then [byte_of 92; byte_of r]
  else if (32 <=? r) && (r <? 127) then [byte_of r]
  else if (128 <=? r) && unicode_print r then encode_rune r
  else if r =? 7 then bytes "\a" else if r =? 8 then bytes "\b"
  else if r =? 12 then bytes "\f" else if r =? 10 then bytes "\n"
  else if r =? 13 then bytes "\r" else if r =? 9 then bytes "\t"
  else if r =? 11 then bytes "\v"
  else if (r <? 32) || (r =? 127) then (bytes "\x" ++ hex_digits 2 r)%list
  else if r <? 65536 then (bytes "\u" ++ hex_digits 4 r)%list
  else (bytes "\U" ++ hex_digits 8 r)%list.
Fixpoint quote_runes (rs : list (Z * nat)) (l : list ascii) : list ascii :=
  match rs with
  | [] => []
  | rw :: rs => (quote_rune (take rw.2 l) rw ++ quote_runes rs (drop rw.2 l))%list
  end.
(** [%q] formatting of a string. *)
Definition fmt_quote (s : string) : string :=
  str ([byte_of 34] ++ quote_runes (runes (bytes s)) (bytes s) ++ [byte_of 34])%list.
End Quote.

(** * Lemmas *)

Lemma bytes_str l : bytes (str l) = l.
Proof. apply list_ascii_of_string_of_list_ascii. Qed.
Lemma str_bytes s : str (bytes s) = s.
Proof. apply string_of_list_ascii_of_string. Qed.
#[export] Hint Rewrite bytes_str str_bytes : golen.

Lemma bytes_inj s t : bytes s = bytes t → s = t.
Proof. intros H. by rewrite <-(str_bytes s), <-(str_bytes t), H. Qed.

Lemma bytes_app s t : bytes (s ++ t) = (bytes s ++ bytes t)%list.
Proof. induction s as [|c s IH]; simpl; [done|]. by f_equal. Qed.
Lemma len_app s t : len (s ++ t) = len s + len t.
Proof. unfold len. by rewrite bytes_app, zlen_app. Qed.
Lemma len_nonneg s : 0 <= len s.
Proof. apply zlen_nonneg. Qed.
#[export] Hint Resolve len_nonneg : go.

Lemma byte_val_range c : 0 <= byte_val c < 256.
Proof. unfold byte_val. pose proof (N_ascii_bounded c). lia. Qed.
#[export] Hint Resolve byte_val_range : go.

Lemma byte_val_of z : 0 <= z < 256 → byte_val (byte_of z) = z.
Proof. intros Hz. unfold byte_val, byte_of. rewrite N_ascii_embedding by lia. lia. Qed.

Lemma has_prefix_b_spec p l : has_prefix_b p l = true ↔ ∃ k, l = (p ++ k)%list.
Proof. unfold has_prefix_b. rewrite bool_decide_eq_true. done. Qed.

Lemma has_prefix_spec s p : has_prefix s p = true ↔ ∃ t, s = p ++ t.
Proof.
  unfold has_prefix. rewrite has_prefix_b_spec. split.
  - intros [k Hk]. exists (str k). apply bytes_inj. by rewrite bytes_app, bytes_str.
  - intros [t ->]. exists (bytes t). apply bytes_app.
Qed.

(** [strings.Contains]: the two halves around the first match. *)
Lemma index_b_Some sub l i :
  index_b sub l = Some i → ∃ k1 k2, l = (k1 ++ sub ++ k2)%list ∧ length k1 = i.
Proof.
  revert i; induction l as [|x l IH]; intros i; simpl.
  - destruct (has_prefix_b sub []) eqn:H; [|done]. intros [= <-].
    apply has_prefix_b_spec in H as [k Hk]. exists [], k. by rewrite <-Hk.
  - destruct (has_prefix_b sub (x :: l)) eqn:H.
    + intros [= <-]. apply has_prefix_b_spec in H as [k ->]. by exists [], k.
    + destruct (index_b sub l) as [j|]; [|done]. intros [= <-].
      destruct (IH j eq_refl) as (k1 & k2 & -> & <-). by exists (x :: k1), k2.
Qed.

Lemma index_b_None sub l : index_b sub l = None ↔ ∀ k1 k2, l ≠ (k1 ++ sub ++ k2)%list.
Proof.
  induction l as [|x l IH]; simpl.
  - destruct (has_prefix_b sub []) eqn:H; split; try done.
    + apply has_prefix_b_spec in H as [k Hk]. intros Hn. by destruct (Hn [] k).
    + intros _ k1 k2 Heq. destruct k1; [|done]. simpl in Heq.
      rewrite (proj2 (has_prefix_b_spec sub [])) in H by eauto. done.
  - destruct (has_prefix_b sub (x :: l)) eqn:H.
    + split; [done|]. apply has_prefix_b_spec in H as [k Hk]. intros Hn. by destruct (Hn [] k).
    + rewrite fmap_None, IH. split; intros Hn k1 k2 Heq.
      * destruct k1 as [|y k1]; simpl in Heq.
        { rewrite (proj2 (has_prefix_b_spec sub (x :: l))) in H by eauto. done. }
        simplify_eq. by destruct (Hn k1 k2).
      * subst. by destruct (Hn (x :: k1) k2).
Qed.

Lemma contains_b_spec l sub : contains_b l sub = true ↔ ∃ k1 k2, l = (k1 ++ sub ++ k2)%list.
Proof.
  unfold contains_b. destruct (index_b sub l) as [i|] eqn:H.
  - apply index_b_Some in H as (k1 & k2 & -> & _). naive_solver.
  - split; [done|]. intros (k1 & k2 & Heq). by destruct (proj1 (index_b_None _ _) H k1 k2).
Qed.

Lemma contains_b_false l sub : contains_b l sub = false ↔ ∀ k1 k2, l ≠ (k1 ++ sub ++ k2)%list.
Proof. unfold contains_b. rewrite <-index_b_None. by destruct (index_b sub l). Qed.

Lemma contains_spec s sub : contains s sub = true ↔ ∃ a b, s = a ++ sub ++ b.
Proof.
  unfold contains. rewrite contains_b_spec. split.
  - intros (k1 & k2 & H). exists (str k1), (str k2).
    apply bytes_inj. by rewrite !bytes_app, !bytes_str.
  - intros (a & b & ->). exists (bytes a), (bytes b). by rewrite !bytes_app.
Qed.

Lemma contains_any_false s cs :
  contains_any s cs = false ↔ ∀ c, c ∈ bytes s → c ∉ bytes cs.
Proof.
  unfold contains_any. rewrite existsb_false, Forall_forall.
  setoid_rewrite bool_decide_eq_false. naive_solver.
Qed.

Lemma index_byte_None c l : index_byte c l = None ↔ c ∉ l.
Proof.
  induction l as [|x l IH]; simpl; [split; [intros _ H; inversion H|done]|].
  destruct (decide (x = c)) as [->|].
  - split; [done|]. intros []. left.
  - rewrite fmap_None, IH, not_elem_of_cons. naive_solver.
Qed.

Lemma index_byte_Some c l i :
  index_byte c l = Some i →
  l !! i = Some c ∧ c ∉ take i l ∧ l = (take i l ++ c :: drop (S i) l)%list.
Proof.
  revert i; induction l as [|x l IH]; intros i; simpl; [done|].
  destruct (decide (x = c)) as [->|Hne].
  - intros [= <-]. simpl. split_and!; [done|by apply not_elem_of_nil|by rewrite drop_0].
  - destruct (index_byte c l) as [j|]; [|done]. intros [= <-]. simpl.
    destruct (IH j eq_refl) as (Hj & Hn & Hl). split_and!; [done| |by rewrite <-Hl].
    rewrite not_elem_of_cons. naive_solver.
Qed.

Lemma hex_digits_length n z : length (hex_digits n z) = n.
Proof. revert z. induction n as [|n IH]; intros z; simpl; [done|]. rewrite length_app, IH. simpl. lia. Qed.

(** [strings.Split] never returns an empty slice, and no part holds the
    separator; joining the parts gives the text back. *)
Lemma split_b_nonnil sep l : split_b sep l ≠ [].
Proof. destruct l; simpl; [done|]. case_decide; [done|]. by destruct (split_b sep l). Qed.

Lemma split_b_no_sep sep l w : w ∈ split_b sep l → sep ∉ w.
Proof.
  revert w; induction l as [|x l IH]; intros w; simpl.
  - intros ->%list_elem_of_singleton. apply not_elem_of_nil.
  - case_decide.
    + intros [->|Hw]%elem_of_cons; [apply not_elem_of_nil|eauto].
    + destruct (split_b sep l) as [|v vs] eqn:E; [by apply split_b_nonnil in E|].
      intros [->|Hw]%elem_of_cons.
      * rewrite not_elem_of_cons. split; [done|]. apply IH. left.
      * apply IH. by right.
Qed.

Lemma elem_of_split_b sep l c :
  c ∈ l → c ≠ sep → ∃ w, w ∈ split_b sep l ∧ c ∈ w.
Proof.
  induction l as [|x l IH]; [intros H; inversion H|].
  intros [->|Hc]%elem_of_cons Hne; simpl.
  - case_decide; [done|].
    destruct (split_b sep l) as [|v vs] eqn:E; [by apply split_b_nonnil in E|].
    exists (x :: v). split; left.
  - destruct (IH Hc Hne) as (w & Hw & Hcw). case_decide.
    + exists w. split; [by right|done].
    + destruct (split_b sep l) as [|v vs] eqn:E; [inversion Hw|].
      apply elem_of_cons in Hw as [->|Hw].
      * exists (x :: v). split; [left|by right].
      * exists w. split; [by right|done].
Qed.

(** A text without NUL, CR or LF: what every single-line check establishes. *)
Definition single_line (s : string) : Prop :=
  ∀ c, c ∈ bytes s → c ≠ "013"%char ∧ c ≠ "010"%char ∧ c ≠ "000"%char.

(** The first match: the pattern occurs nowhere before it. *)
Lemma index_b_first sub l i : index_b sub l = Some i → ∀ k1 k2 k3,
  l = (k1 ++ sub ++ k2 ++ k3)%list → (i <= length k1)%nat.
Proof.
  revert i; induction l as [|x l IH]; intros i; simpl.
  - destruct (has_prefix_b sub []) eqn:H; [|done]. intros [= <-] **. lia.
  - destruct (has_prefix_b sub (x :: l)) eqn:H; [intros [= <-] **; lia|].
    destruct (index_b sub l) as [j|]; [|done]. intros [= <-] k1 k2 k3 Heq.
    destruct k1 as [|y k1]; simpl in *.
    + rewrite (proj2 (has_prefix_b_spec sub (x :: l))) in H by (rewrite Heq; eauto). done.
    + injection Heq as -> ->. specialize (IH j eq_refl k1 k2 k3 eq_refl). lia.
Qed.

(** A byte below 128 of an encoding is the rune itself. *)
Lemma encode_rune_low r c : c ∈ encode_rune r → byte_val c < 128 → byte_val c = r.
Proof.
  unfold encode_rune. intros Hc Hlow.
  repeat match type of Hc with context [if ?b then _ else _] => destruct b eqn:? end; bool_to_prop;
    repeat (apply elem_of_cons in Hc as [->|Hc]); try (by apply elem_of_nil in Hc);
    rewrite byte_val_of in * by (Z.div_mod_to_equations; lia); Z.div_mod_to_equations; lia.
Qed.

(** Trimming and splitting only drop bytes. *)
(** An ASCII byte is a rune of its own wherever it stands. *)
Lemma runes_low l c : c ∈ l → byte_val c < 128 → byte_val c ∈ map fst (runes l).
Proof.
  intros Hc Hlow. remember (length l) as n eqn:Hn. revert l Hn Hc.
  induction (lt_wf n) as [n _ IH]; intros l -> Hc.
  assert (Hstep : ∀ l1 l2, l = (l1 ++ l2)%list → l1 ≠ [] → Forall (λ d, 128 <= byte_val d) l1 →
            byte_val c ∈ map fst (runes l2)).
  { intros l1 l2 -> Hne Hall. eapply IH; [|done|].
    - rewrite length_app. destruct l1; simpl; [done|lia].
    - apply elem_of_app in Hc as [Hc|Hc]; [|done]. rewrite Forall_forall in Hall. apply Hall in Hc. lia. }
  destruct l as [|c0 l0]; [by apply elem_of_nil in Hc|]. cbn [runes].
  destruct (byte_val c0 <? utf8_self) eqn:E0; unfold utf8_self in *; bool_to_prop; cbn [map fst].
  { apply elem_of_cons in Hc as [->|Hc]; [left|right]. eapply IH; [|reflexivity|done]. simpl; lia. }
  assert (Herr : byte_val c ∈ map fst ((rune_error, 1%nat) :: runes l0)).
  { right. apply (Hstep [c0]); [done..|]. repeat constructor. lia. }
  destruct l0 as [|c1 l1]; [done|]. destruct (ok2 _ _) eqn:E2.
  { right. apply (Hstep [c0; c1]); [done..|]. unfold ok2, cont_byte in E2. bool_to_prop. repeat constructor; lia. }
  destruct l1 as [|c2 l2]; [done|]. destruct (ok3 _ _ _) eqn:E3.
  { right. apply (Hstep [c0; c1; c2]); [done..|]. unfold ok3, cont_byte in E3. bool_to_prop.
    repeat case_match; repeat constructor; lia. }
  destruct l2 as [|c3 l3]; [done|]. destruct (ok4 _ _ _ _) eqn:E4; [|done].
  right. apply (Hstep [c0; c1; c2; c3]); [done..|]. unfold ok4, cont_byte in E4. bool_to_prop.
  repeat case_match; repeat constructor; lia.
Qed.

Lemma strip_one_suffix pats l l' : strip_one pats l = Some l' → ∃ k, l = (k ++ l')%list.
Proof.
  induction pats as [|p pats IH]; simpl; [done|].
  destruct (has_prefix_b p l) eqn:E; [|done]. intros [= <-].
  apply has_prefix_b_spec in E as [k ->]. exists p. by rewrite drop_app_length.
Qed.
Lemma trim_left_suffix pats l : ∃ k, l = (k ++ trim_left pats l)%list.
Proof.
  unfold trim_left. generalize (length l) at 1. intros n.
  revert l; induction n as [|n IH]; intros l; simpl; [by exists []|].
  destruct (strip_one pats l) as [l'|] eqn:E; [|by exists []].
  apply strip_one_suffix in E as [k ->]. destruct (IH l') as [k' Hk'].
  exists (k ++ k')%list. by rewrite <-app_assoc, <-Hk'.
Qed.
Lemma elem_of_trim_both pats l c : c ∈ trim_both pats l → c ∈ l.
Proof.
  unfold trim_both. rewrite elem_of_reverse. intros Hc.
  destruct (trim_left_suffix (map reverse pats) (reverse (trim_left pats l))) as [k1 Hk1].
  destruct (trim_left_suffix pats l) as [k2 Hk2].
  rewrite Hk2. apply elem_of_app. right. apply elem_of_reverse. rewrite Hk1.
  apply elem_of_app. by right.
Qed.
(** What is left is a slice of the text. *)
Lemma trim_both_infix pats l : ∃ k1 k2, l = (k1 ++ trim_both pats l ++ k2)%list.
Proof.
  unfold trim_both. destruct (trim_left_suffix (map reverse pats) (reverse (trim_left pats l))) as [k2 Hk2].
  destruct (trim_left_suffix pats l) as [k1 Hk1]. exists k1, (reverse k2).
  rewrite <-reverse_app, <-Hk2, reverse_involutive. done.
Qed.
Lemma elem_of_trim_space s c : c ∈ bytes (trim_space s) → c ∈ bytes s.
Proof. unfold trim_space, trim_space_b. rewrite bytes_str. apply elem_of_trim_both. Qed.

Lemma split_b_elem_of sep l w c : w ∈ split_b sep l → c ∈ w → c ∈ l.
Proof.
  revert w; induction l as [|x l IH]; intros w; simpl.
  - intros ->%list_elem_of_singleton. done.
  - case_decide.
    + intros [->|Hw]%elem_of_cons; [by intros ?%elem_of_nil|]. right. by eapply IH.
    + destruct (split_b sep l) as [|v vs] eqn:E; [by apply split_b_nonnil in E|].
      intros [->|Hw]%elem_of_cons.
      * intros [->|Hc]%elem_of_cons; [left|right]. apply (IH v); [left|done].
      * right. apply (IH w); [by right|done].
Qed.
Lemma elem_of_split s sep part c : part ∈ split s sep → c ∈ bytes part → c ∈ bytes s ∧ c ≠ sep.
Proof.
  unfold split. intros (w & -> & Hw)%list_elem_of_fmap. rewrite bytes_str. intros Hc.
  split; [by eapply split_b_elem_of|]. intros ->. by eapply split_b_no_sep.
Qed.
Lemma split_nonnil s sep : split s sep ≠ [].
Proof. unfold split. intros H%fmap_nil_inv. by apply split_b_nonnil in H. Qed.

(** A one-byte needle. *)
Lemma contains_byte_false s c : contains s (str [c]) = false ↔ c ∉ bytes s.
Proof.
  unfold contains. rewrite bytes_str, contains_b_false. split.
  - intros H (l1 & l2 & Hl)%list_elem_of_split. by apply (H l1 l2).
  - intros H k1 k2 Heq. apply H. rewrite Heq. set_solver.
Qed.

(** ** Splitting a join *)

Lemma split_b_app sep w l : sep ∉ w → split_b sep (w ++ sep :: l) = w :: split_b sep l.
Proof.
  induction w as [|x w IH]; simpl; intros Hw.
  - by rewrite decide_True.
  - rewrite not_elem_of_cons in Hw. destruct Hw as [Hx Hw].
    rewrite decide_False by congruence. by rewrite IH.
Qed.
Lemma split_b_sep_app sep h l : split_b sep (h ++ sep :: l) = (split_b sep h ++ split_b sep l)%list.
Proof.
  induction h as [|x h IH]; simpl.
  - by rewrite decide_True.
  - rewrite IH. case_decide; [done|].
    destruct (split_b sep h) as [|w ws] eqn:E; [by apply split_b_nonnil in E|done].
Qed.
Lemma split_b_single sep w : sep ∉ w → split_b sep w = [w].
Proof.
  induction w as [|x w IH]; simpl; intros Hw; [done|].
  rewrite not_elem_of_cons in Hw. destruct Hw as [Hx Hw].
  rewrite decide_False by congruence. by rewrite IH.
Qed.
(** Joining non-empty lists of parts that do not hold the separator, then
    splitting, gives the parts back. *)
Lemma split_join (l : list string) sep :
  l ≠ [] → Forall (λ w, sep ∉ bytes w) l → split (join l (str [sep])) sep = l.
Proof.
  unfold split. intros Hne Hall. induction Hall as [|w l Hw Hall IH]; [done|].
  destruct l as [|w' l].
  - cbn [join]. rewrite split_b_single by done. simpl. by rewrite str_bytes.
  - cbn [join] in *. rewrite !bytes_app, bytes_str. cbn [app].
    rewrite split_b_app by done. cbn [map]. rewrite str_bytes. f_equal. by apply IH.
Qed.
Lemma elem_of_join c (l : list string) sep :
  c ∈ bytes (join l sep) → c ∈ bytes sep ∨ ∃ w, w ∈ l ∧ c ∈ bytes w.
Proof.
  induction l as [|w l IH]; [intros H; inversion H|]. destruct l as [|w' l].
  - intros Hc. right. exists w. split; [left|done].
  - cbn [join]. rewrite !bytes_app, !elem_of_app. intros [Hc|[Hc|Hc]].
    + right. exists w. split; [left|done].
    + by left.
    + destruct (IH Hc) as [?|(v & Hv & ?)]; [by left|]. right. exists v. split; [by right|done].
Qed.

(** ** Texts trimming leaves alone *)

(** Printable ASCII other than the space. *)
Definition graphic (c : ascii) : bool := (33 <=? byte_val c) && (byte_val c <=? 126).
Definition starts_graphic (l : list ascii) : bool :=
  match l with c :: _ => graphic c | [] => false end.
(** Both ends of [l] are graphic. *)
Definition solid (l : list ascii) : bool := starts_graphic l && starts_graphic (reverse l).

Lemma strip_one_graphic pats l :
  Forall (λ p, starts_graphic p = false ∧ p ≠ []) pats → starts_graphic l = true → strip_one pats l = None.
Proof.
  intros Hp Hl. induction Hp as [|p pats [Hp Hne] _ IH]; simpl; [done|].
  destruct (has_prefix_b p l) eqn:E; [|done].
  apply has_prefix_b_spec in E as [k ->]. destruct p; [done|]. simpl in *. congruence.
Qed.
Lemma trim_left_graphic pats l :
  Forall (λ p, starts_graphic p = false ∧ p ≠ []) pats → starts_graphic l = true → trim_left pats l = l.
Proof.
  intros Hp Hl. unfold trim_left. destruct (length l) as [|n]; [done|].
  cbn [trim_left_fuel]. by rewrite strip_one_graphic.
Qed.
Lemma trim_space_solid s : solid (bytes s) = true → trim_space s = s.
Proof.
  unfold solid. intros [Hl Hr]%andb_prop. unfold trim_space, trim_space_b, trim_both.
  rewrite (trim_left_graphic spaces); [|vm_compute; repeat constructor; done|done].
  rewrite trim_left_graphic; [|vm_compute; repeat constructor; done|done].
  by rewrite reverse_involutive, str_bytes.
Qed.
Lemma solid_app l1 l2 l3 : solid l1 = true → solid l3 = true → solid (l1 ++ l2 ++ l3) = true.
Proof.
  unfold solid. intros [H1 _]%andb_prop [_ H3]%andb_prop. apply andb_true_intro. split.
  - by destruct l1.
  - rewrite !reverse_app. by destruct (reverse l3).
Qed.
Lemma solid_join (l : list string) sep :
  l ≠ [] → Forall (λ w, solid (bytes w) = true) l → solid (bytes (join l sep)) = true.
Proof.
  intros Hne Hall. induction Hall as [|w l Hw Hall IH]; [done|]. destruct l as [|w' l]; [done|].
  cbn [join]. rewrite !bytes_app. apply solid_app; [done|]. by apply IH.
Qed.

(** ** The byte order is a total order *)

Lemma byte_val_inj c d : byte_val c = byte_val d → c = d.
Proof.
  unfold byte_val. intros H. apply N2Z.inj in H.
  by rewrite <-(ascii_N_embedding c), H, ascii_N_embedding.
Qed.
Lemma bytes_leb_trans l1 l2 l3 :
  bytes_leb l1 l2 = true → bytes_leb l2 l3 = true → bytes_leb l1 l3 = true.
Proof.
  revert l2 l3; induction l1 as [|x l1 IH]; intros [|y l2] [|z l3]; simpl; try done.
  repeat case_match; try done; bool_to_prop; try lia. intros. by eapply IH.
Qed.
Lemma bytes_leb_antisym l1 l2 : bytes_leb l1 l2 = true → bytes_leb l2 l1 = true → l1 = l2.
Proof.
  revert l2; induction l1 as [|x l1 IH]; intros [|y l2]; simpl; try done.
  repeat case_match; try done; bool_to_prop; try lia. intros. f_equal; [apply byte_val_inj; lia|eauto].
Qed.
Lemma bytes_leb_total l1 l2 : bytes_leb l1 l2 = true ∨ bytes_leb l2 l1 = true.
Proof.
  revert l2; induction l1 as [|x l1 IH]; intros [|y l2]; simpl; try (by left); try (by right).
  repeat case_match; bool_to_prop; try lia; eauto.
Qed.
#[export] Instance string_le_trans : Transitive string_le.
Proof. intros s t u. apply bytes_leb_trans. Qed.
#[export] Instance string_le_antisym : AntiSymm eq string_le.
Proof. intros s t H1 H2. apply bytes_inj. by apply bytes_leb_antisym. Qed.
#[export] Instance string_le_total : Total string_le.
Proof. intros s t. apply bytes_leb_total. Qed.

Lemma sort_strings_Permutation l : sort_strings l ≡ₚ l.
Proof. apply merge_sort_Permutation. Qed.
Lemma elem_of_sort_strings x l : x ∈ sort_strings l ↔ x ∈ l.
Proof. by rewrite sort_strings_Permutation. Qed.
(** Sorting forgets the order of the input. *)
#[export] Instance sort_strings_proper : Proper ((≡ₚ) ==> eq) sort_strings.
Proof.
  intros l1 l2 Hl. apply (StronglySorted_unique string_le).
  - apply StronglySorted_merge_sort; apply _.
  - apply StronglySorted_merge_sort; apply _.
  - by rewrite !sort_strings_Permutation.
Qed.

(** * Orders a [less] closure composes *)

(** A strict weak order, as [sort.SliceStable] needs: asymmetric, and "not
    before" is transitive. *)
Class WeakOrder {A} (less : A → A → bool) : Prop := {
  less_asym a b : less a b = true → less b a = false;
  less_negtrans a b c : less a b = false → less b c = false → less a c = false;
}.

#[export] Instance string_ltb_order : WeakOrder string_ltb.
Proof.
  split; unfold string_ltb.
  - intros a b Hab%negb_true_iff. apply negb_false_iff.
    destruct (bytes_leb_total (bytes a) (bytes b)) as [H|H]; congruence.
  - intros a b c Hab%negb_false_iff Hbc%negb_false_iff. apply negb_false_iff. by eapply bytes_leb_trans.
Qed.
#[export] Instance Zltb_order : WeakOrder Z.ltb.
Proof. split; intros *; rewrite ?Z.ltb_lt, ?Z.ltb_ge; lia. Qed.

(** Compare by a key, then by [rest] when the keys are equal:
    [if f(a) != f(b) { return f(a) < f(b) }; return rest(a, b)]. *)
Definition then_by {A K} `{EqDecision K} (f : A → K) (less : K → K → bool) (rest : A → A → bool)
    (a b : A) : bool :=
  if decide (f a = f b) then rest a b else less (f a) (f b).

(** The keys are totally ordered. *)
Class TotalLess {K} (less : K → K → bool) : Prop :=
  less_total a b : less a b = false → less b a = false → a = b.
#[export] Instance string_ltb_total : TotalLess string_ltb.
Proof.
  intros a b Ha%negb_false_iff Hb%negb_false_iff. apply bytes_inj. by apply bytes_leb_antisym.
Qed.
#[export] Instance Zltb_total : TotalLess Z.ltb.
Proof. intros a b. rewrite !Z.ltb_ge. lia. Qed.

#[export] Instance then_by_order {A K} `{EqDecision K} (f : A → K) less rest :
  WeakOrder less → TotalLess less → WeakOrder rest → WeakOrder (then_by f less rest).
Proof.
  intros Hl Ht Hr. split; unfold then_by.
  - intros a b. repeat case_decide; try congruence; apply less_asym.
  - intros a b c. destruct (decide (f a = f b)) as [E1|E1], (decide (f b = f c)) as [E2|E2],
      (decide (f a = f c)) as [E3|E3]; try congruence.
    + apply less_negtrans.
    + intros H1 H2. destruct E1. apply less_total; congruence.
    + apply less_negtrans.
Qed.
#[export] Instance on_key_order {A K} (f : A → K) less :
  WeakOrder less → WeakOrder (λ a b, less (f a) (f b)).
Proof. intros Hl. split; intros *; [apply less_asym|apply less_negtrans]. Qed.
