(* ===== verification/GoTime.v ===== *)
(** The part of Go's [time] package the program uses.

    An instant is a number of nanoseconds since 1970-01-01T00:00:00Z; [Before],
    [After], [Equal] and [Add] only look at it.  A [*time.Location] is its table
    of zone transitions, seen through [Location.lookup]: the offset in force at
    a Unix second and the period [zstart, zend) during which it stays in force.
    Civil dates are in the proleptic Gregorian calendar. *)
From S2P Require Import Prelude GoStrings.

(** * Durations *)
Definition nanosecond : Z := 1.
Definition second : Z := 1000000000.
Definition minute : Z := 60 * second.
Definition hour : Z := 60 * minute.
Definition day_secs : Z := 86400.

(** [t.Sub(u)] saturates at the bounds of [time.Duration]. *)
Definition time_sub (t u : Z) : Z := Z.max min_int64 (Z.min max_int64 (t - u)).

(** The instant of the zero [time.Time], 0001-01-01T00:00:00Z. *)
Definition zero_time : Z := -62135596800 * second.
Definition is_zero (t : Z) : bool := t =? zero_time.

(** * Civil dates *)
Record civil := Civil { cyear : Z; cmonth : Z; cday : Z }.

(** Days since 1970-01-01 of day [d] of month [m] of year [y]; [m] is
    normalised into the year, [d] may lie outside the month. *)
Definition days_from_civil (y m d : Z) : Z :=
  let y := y + (m - 1) / 12 in
  let m := (m - 1) mod 12 + 1 in
  let y' := if m <=? 2 then y - 1 else y in
  let era := y' / 400 in
  let yoe := y' mod 400 in
  let doy := (153 * (if m <=? 2 then m + 9 else m - 3) + 2) / 5 in
  era * 146097 + (yoe * 365 + yoe / 4 - yoe / 100 + doy) - 719468 + (d - 1).

(** The civil date inside a 400-year era, from the day of the era. *)
Definition civil_of_doe (doe : Z) : civil :=
  let yoe := (doe - doe / 1460 + doe / 36524 - doe / 146096) / 365 in
  let doy := doe - (365 * yoe + yoe / 4 - yoe / 100) in
  let mp := (5 * doy + 2) / 153 in
  let m := if mp <? 10 then mp + 3 else mp - 9 in
  Civil (if m <=? 2 then yoe + 1 else yoe) m (doy - (153 * mp + 2) / 5 + 1).
Definition civil_from_days (z : Z) : civil :=
  let z := z + 719468 in
  let c := civil_of_doe (z mod 146097) in
  Civil (cyear c + 400 * (z / 146097)) (cmonth c) (cday c).

(** [time.Weekday]: Sunday is 0; 1970-01-01 was a Thursday. *)
Definition weekday_of_days (z : Z) : Z := (z + 4) mod 7.

(** * Locations *)
Record zone := Zone { zoffset : Z; zstart : Z; zend : Z }.
Record Location := { loc_name : string; loc_lookup : Z → zone }.

Definition utc_zone : zone := Zone 0 min_int64 max_int64.
Definition UTC : Location := {| loc_name := "UTC"; loc_lookup := λ _, utc_zone |}.
Definition fixed_zone (name : string) (offset : Z) : Location :=
  {| loc_name := name; loc_lookup := λ _, Zone offset min_int64 max_int64 |}.

(** The last step of [time.Date]: [unix] is the wall clock read as UTC. *)
Definition zone_adjust (loc : Location) (unix : Z) : Z :=
  let z := loc_lookup loc unix in
  if zoffset z =? 0 then unix
  else
    let utc := unix - zoffset z in
    if (utc <? zstart z) || (zend z <=? utc)
    then unix - zoffset (loc_lookup loc utc)
    else unix - zoffset z.

(** [time.Date(y, m, d, h, mi, s, 0, loc)]. *)
Definition go_date (y m d h mi s : Z) (loc : Location) : Z :=
  second * zone_adjust loc (days_from_civil y m d * day_secs + h * 3600 + mi * 60 + s).

(** Wall-clock seconds of instant [t] in [loc], as if they were UTC. *)
Definition local_secs (loc : Location) (t : Z) : Z :=
  t / second + zoffset (loc_lookup loc (t / second)).
Definition local_day (loc : Location) (t : Z) : Z := local_secs loc t / day_secs.
(** [t.In(loc).Date()] and [t.In(loc).Weekday()]. *)
Definition local_civil (loc : Location) (t : Z) : civil := civil_from_days (local_day loc t).
Definition local_weekday (loc : Location) (t : Z) : Z := weekday_of_days (local_day loc t).

(** A [time.Time] together with the location it is displayed in. *)
Record gtime := GTime { instant : Z; tzone : Location }.

(** * The calendar round trip *)

Fixpoint check_range (f : Z → bool) (start : Z) (n : positive) : bool :=
  match n with
  | xH => f start
  | xO p => check_range f start p && check_range f (start + Z.pos p) p
  | xI p => f start && check_range f (start + 1) p && check_range f (start + 1 + Z.pos p) p
  end.

Lemma check_range_spec f start n :
  check_range f start n = true → ∀ z, start <= z < start + Z.pos n → f z = true.
Proof.
  revert start; induction n as [p IH|p IH|]; intros start; simpl.
  - intros [[H0 H1]%andb_prop H2]%andb_prop z Hz. rewrite Pos2Z.inj_xI in Hz.
    destruct (decide (z = start)) as [->|]; [done|].
    destruct (decide (z < start + 1 + Z.pos p)); [eapply (IH _ H1)|eapply (IH _ H2)]; lia.
  - intros [H1 H2]%andb_prop z Hz. rewrite Pos2Z.inj_xO in Hz.
    destruct (decide (z < start + Z.pos p)); [eapply (IH _ H1)|eapply (IH _ H2)]; lia.
  - intros H z Hz. by replace z with start by lia.
Qed.

Definition doe_ok (doe : Z) : bool :=
  let c := civil_of_doe doe in
  (days_from_civil (cyear c) (cmonth c) (cday c) =? doe - 719468)
  && (1 <=? cmonth c) && (cmonth c <=? 12) && (1 <=? cday c) && (cday c <=? 31).

Lemma doe_all_ok : check_range doe_ok 0 146097 = true.
Proof. vm_compute. reflexivity. Qed.

Lemma days_from_civil_era y m d k :
  days_from_civil (y + 400 * k) m d = days_from_civil y m d + 146097 * k.
Proof.
  unfold days_from_civil.
  set (mm := (m - 1) mod 12 + 1). set (dy := (m - 1) / 12). cbv zeta.
  set (y1 := if mm <=? 2 then y + dy - 1 else y + dy).
  replace (if mm <=? 2 then y + 400 * k + dy - 1 else y + 400 * k + dy) with (y1 + k * 400)
    by (unfold y1; destruct (mm <=? 2); lia).
  rewrite Z.div_add, Z.mod_add by lia. lia.
Qed.

(** The date of day number [z] names day number [z]. *)
Lemma civil_roundtrip z :
  let c := civil_from_days z in days_from_civil (cyear c) (cmonth c) (cday c) = z.
Proof.
  unfold civil_from_days. cbv zeta.
  pose proof (check_range_spec _ _ _ doe_all_ok ((z + 719468) mod 146097)) as H.
  specialize (H ltac:(pose proof (Z.mod_pos_bound (z + 719468) 146097); lia)).
  unfold doe_ok in H. cbv zeta in H. bool_to_prop.
  cbn [cyear cmonth cday]. rewrite days_from_civil_era.
  pose proof (Z.div_mod (z + 719468) 146097). lia.
Qed.

Lemma days_from_civil_day y m d k : days_from_civil y m (d + k) = days_from_civil y m d + k.
Proof. unfold days_from_civil. lia. Qed.

(** [time.Date] of the date of [t], [k] days later, is local midnight of day
    [local_day loc t + k]. *)
Lemma go_date_local loc t k h mi s :
  go_date (cyear (local_civil loc t)) (cmonth (local_civil loc t)) (cday (local_civil loc t) + k) h mi s loc
  = second * zone_adjust loc ((local_day loc t + k) * day_secs + h * 3600 + mi * 60 + s).
Proof.
  unfold go_date, local_civil. rewrite days_from_civil_day.
  pose proof (civil_roundtrip (local_day loc t)) as H. cbv zeta in H. by rewrite H.
Qed.

Lemma zone_adjust_fixed name off u : 
  min_int64 <= u - off < max_int64 → zone_adjust (fixed_zone name off) u = u - off.
Proof.
  intros Hu. unfold zone_adjust, fixed_zone. cbn [loc_lookup zoffset zstart zend].
  destruct (Z.eqb_spec off 0) as [->|]; [lia|]. by case_match.
Qed.

Lemma zone_adjust_utc u : zone_adjust UTC u = u.
Proof. done. Qed.
