(* ===== verification/CalErrors.v ===== *)
(** Calendar error values (src/internal/icloud/errors.go): the stable codes,
    the typed [Error], its place in a chain of wrapped Go errors, and the
    mapping from HTTP statuses to errors. *)
From S2P Require Import Prelude GoStrings GoTime.

(** The string constants of type [Code]. *)
Inductive Code : Set :=
| CodeValidation | CodeAuthenticationRefused | CodeAuthentication
| CodeForbidden | CodeAuthorization | CodeNotFound
| CodeConflict | CodeConcurrentModification | CodeRateLimited | CodeTimeout
| CodeServerUnavailable | CodeUnavailable | CodePartialFailure
| CodeProtocolError | CodePayloadTooLarge | CodeOutcomeUnknown
| CodeHTTPError | CodeInternal.

#[export] Instance Code_eq_dec : EqDecision Code.
Proof. solve_decision. Defined.

Definition code_string (c : Code) : string :=
  match c with
  | CodeValidation => "validation"
  | CodeAuthenticationRefused => "authentication_refused"
  | CodeAuthentication => "authentication"
  | CodeForbidden => "forbidden"
  | CodeAuthorization => "authorization"
  | CodeNotFound => "not_found"
  | CodeConflict => "conflict"
  | CodeConcurrentModification => "concurrent_modification"
  | CodeRateLimited => "rate_limited"
  | CodeTimeout => "timeout"
  | CodeServerUnavailable => "server_unavailable"
  | CodeUnavailable => "unavailable"
  | CodePartialFailure => "partial_failure"
  | CodeProtocolError => "protocol_error"
  | CodePayloadTooLarge => "payload_too_large"
  | CodeOutcomeUnknown => "outcome_unknown"
  | CodeHTTPError => "http_error"
  | CodeInternal => "internal_error"
  end.

(** [icloud.Error]; [E] is the type of Go errors, tied below. *)
Record ErrorOf (E : Type) := MkError {
  ErrCode : Code;
  Status : Z;
  Message : string;
  Retryable : bool;
  RetryAfter : Z;
  Details : gmap string string;
  Cause : option E;
}.
Arguments MkError {E}. Arguments ErrCode {E}. Arguments Status {E}.
Arguments Message {E}. Arguments Retryable {E}. Arguments RetryAfter {E}.
Arguments Details {E}. Arguments Cause {E}.

(** A Go error: a plain message, a message wrapping another error ([%w]), one
    of the two context errors, or a typed Calendar error. *)
Inductive error : Type :=
| Plain (msg : string)
| Wrapped (msg : string) (inner : error)
| Canceled
| DeadlineExceeded
| Typed (e : ErrorOf error).
Abbreviation Error := (ErrorOf error).

Definition defaultRateLimitRetryAfter : Z := 5 * second.
Definition defaultUnavailableRetryAfter : Z := 2 * second.
Definition maxPublicRetryAfter : Z := 60 * second.

Definition NewError (code : Code) (status : Z) (message : string) (cause : option error) : Error :=
  MkError code status message false 0 ∅ cause.
Definition NewValidationError (message : string) : Error :=
  MkError CodeValidation 0 message false 0 ∅ None.

(** [errors.As]: the first typed error of the chain. *)
Fixpoint AsICloudError (err : error) : option Error :=
  match err with
  | Typed e => Some e
  | Wrapped _ inner => AsICloudError inner
  | _ => None
  end.

(** [errors.Is] against the two context errors: the chain goes through [%w]
    and through the typed error's [Unwrap]. *)
Fixpoint is_context_error (err : error) : bool :=
  match err with
  | Canceled | DeadlineExceeded => true
  | Wrapped _ inner => is_context_error inner
  | Typed (MkError _ _ _ _ _ _ (Some c)) => is_context_error c
  | _ => false
  end.
Fixpoint is_deadline (err : error) : bool :=
  match err with
  | DeadlineExceeded => true
  | Wrapped _ inner => is_deadline inner
  | Typed (MkError _ _ _ _ _ _ (Some c)) => is_deadline c
  | _ => false
  end.

(** [err.Error()]. *)
Fixpoint error_text (err : error) : string :=
  match err with
  | Plain msg => msg
  | Wrapped msg inner => msg ++ error_text inner
  | Canceled => "context canceled"
  | DeadlineExceeded => "context deadline exceeded"
  | Typed (MkError code _ msg _ _ _ (Some c)) => code_string code ++ ": " ++ msg ++ ": " ++ error_text c
  | Typed (MkError code _ msg _ _ _ None) => code_string code ++ ": " ++ msg
  end.

Definition capPublicRetryAfter (d : Z) : Z :=
  if d <=? 0 then 0 else if maxPublicRetryAfter <? d then maxPublicRetryAfter else d.

Definition classifyStatusBare (status : Z) : Error :=
  if status =? 401 then NewError CodeAuthenticationRefused status
    "iCloud authentication refused: check ICLOUD_EMAIL and the app-specific password" None
  else if status =? 403 then NewError CodeForbidden status
    "iCloud refused the request (forbidden): the app-specific password may have been revoked, or the calendar quota (50,000 events) is exceeded" None
  else if status =? 404 then NewError CodeNotFound status
    "iCloud resource not found: the calendar or event no longer exists" None
  else if status =? 409 then MkError CodeConflict status
    "the request conflicts with the current state of the resource" false 0 ∅ None
  else if status =? 412 then MkError CodeConcurrentModification status
    "the event was modified by another client since it was read (ETag mismatch): re-read and retry the update"
    false 0 ∅ None
  else if status =? 423 then MkError CodeConflict status
    "the calendar resource is locked" true 0 ∅ None
  else if status =? 429 then MkError CodeRateLimited status
    "iCloud is rate limiting requests (HTTP 429) after retries: reduce the request rate"
    true defaultRateLimitRetryAfter ∅ None
  else if 500 <=? status then MkError CodeServerUnavailable status
    ("iCloud CalDAV shard is temporarily unavailable (HTTP " ++ fmt_int status ++ ") after retries")
    true defaultUnavailableRetryAfter ∅ None
  else NewError CodeProtocolError status
    ("iCloud returned an unexpected HTTP status (" ++ fmt_int status ++ ")") None.

Definition with_retry_after (e : Error) (d : Z) : Error :=
  MkError (ErrCode e) (Status e) (Message e) (Retryable e) d (Details e) (Cause e).

Definition classifyStatusWithRetryAfter (status retryAfter : Z) : Error :=
  let err := classifyStatusBare status in
  if (0 <? retryAfter) &&
     bool_decide (ErrCode err = CodeRateLimited ∨ ErrCode err = CodeServerUnavailable ∨ ErrCode err = CodeUnavailable)
  then with_retry_after err (capPublicRetryAfter retryAfter)
  else err.

Definition classifyStatus (status : Z) : Error := classifyStatusWithRetryAfter status 0.

Definition outcomeUnknownError (status : Z) : Error :=
  MkError CodeOutcomeUnknown status "the Calendar mutation outcome is unknown" false 0
    {[ "reconciliation" := "Re-read the target event before retrying; do not repeat the mutation blindly." ]}
    None.

Definition with_details (e : Error) (d : gmap string string) : Error :=
  MkError (ErrCode e) (Status e) (Message e) (Retryable e) (RetryAfter e) d (Cause e).

Definition withOutcomeReconciliation (err : error) (uid reconciliation : string) : error :=
  match AsICloudError err with
  | None => err
  | Some typed =>
      if decide (ErrCode typed = CodeOutcomeUnknown) then
        let details := Details typed in
        let details := if decide (uid = "") then details else <["uid" := uid]> details in
        Typed (with_details typed (<["reconciliation" := reconciliation]> details))
      else err
  end.

Definition PublicCode (c : Code) : Code :=
  match c with
  | CodeAuthenticationRefused => CodeAuthentication
  | CodeForbidden => CodeAuthorization
  | CodeServerUnavailable => CodeUnavailable
  | CodeHTTPError => CodeProtocolError
  | c => c
  end.

(** [calendarContextError] (src/internal/icloud/middleware.go). *)
Definition calendarContextError (err : error) : Error :=
  NewError CodeTimeout 0
    (if is_deadline err then "Calendar request timed out" else "Calendar request was canceled")
    (Some err).

(** * Lemmas *)

Lemma capPublicRetryAfter_range d : 0 <= capPublicRetryAfter d <= maxPublicRetryAfter.
Proof. unfold capPublicRetryAfter, maxPublicRetryAfter, second. case_go; bool_to_prop; lia. Qed.

Lemma PublicCode_idem c : PublicCode (PublicCode c) = PublicCode c.
Proof. by destruct c. Qed.

(** A status never maps to [outcome_unknown]: that code is only given to a
    mutation whose request was sent. *)
Lemma classifyStatus_known status d :
  ErrCode (classifyStatusWithRetryAfter status d) ≠ CodeOutcomeUnknown.
Proof.
  unfold classifyStatusWithRetryAfter, classifyStatusBare.
  repeat case_match; simpl in *; simplify_eq; done.
Qed.
