(* ===== verification/GoEncode.v ===== *)
(** The encoders of Go's standard library the program relies on:
    [encoding/base64], [url.QueryEscape] and [url.PathEscape], the string
    literals of [encoding/json], [encoding/hex], the big-endian [uint32] of
    [encoding/binary] and the hash of [crypto/sha256]. *)
From S2P Require Import Prelude GoStrings.

(** * base64 *)

Definition base64_std : list ascii :=
  bytes "ABCDEFGHIJKLMNOPQRSTUVWXYZabcdefghijklmnopqrstuvwxyz0123456789+/".
Definition base64_url : list ascii :=
  bytes "ABCDEFGHIJKLMNOPQRSTUVWXYZabcdefghijklmnopqrstuvwxyz0123456789-_".

(** [padding]: the standard encodings fill the last group with ["="]. *)
Fixpoint base64 (alphabet : list ascii) (padding : bool) (l : list ascii) : list ascii :=
  let digit (z : Z) := nth (Z.to_nat z) alphabet "="%char in
  let pad (n : nat) := if padding then replicate n "="%char else [] in
  match l with
  | [] => []
  | [a] =>
      let v := byte_val a * 65536 in
      (digit (v / 262144) :: digit (v / 4096 mod 64) :: pad 2%nat)
  | [a; b] =>
      let v := byte_val a * 65536 + byte_val b * 256 in
      (digit (v / 262144) :: digit (v / 4096 mod 64) :: digit (v / 64 mod 64) :: pad 1%nat)
  | a :: b :: c :: l =>
      let v := byte_val a * 65536 + byte_val b * 256 + byte_val c in
      digit (v / 262144) :: digit (v / 4096 mod 64) :: digit (v / 64 mod 64) :: digit (v mod 64)
        :: base64 alphabet padding l
  end.
Definition StdEncoding (s : string) : string := str (base64 base64_std true (bytes s)).
Definition RawStdEncoding (s : string) : string := str (base64 base64_std false (bytes s)).
Definition URLEncoding (s : string) : string := str (base64 base64_url true (bytes s)).
Definition RawURLEncoding (s : string) : string := str (base64 base64_url false (bytes s)).

(** * URL escaping *)

Definition is_alnum (c : ascii) : bool :=
  is_digit c || ((65 <=? byte_val c) && (byte_val c <=? 90)) || ((97 <=? byte_val c) && (byte_val c <=? 122)).
Definition unreserved (c : ascii) : bool := is_alnum c || bool_decide (c ∈ bytes "-_.~").
Definition upper_hex (z : Z) : ascii := if z <? 10 then byte_of (48 + z) else byte_of (55 + z).
Definition percent (c : ascii) : list ascii :=
  ["%"%char; upper_hex (byte_val c / 16); upper_hex (byte_val c mod 16)].

Definition QueryEscape (s : string) : string :=
  str (concat (map (λ c, if unreserved c then [c]
                         else if decide (c = " "%char) then ["+"%char] else percent c) (bytes s))).
Definition PathEscape (s : string) : string :=
  str (concat (map (λ c, if unreserved c || bool_decide (c ∈ bytes "$&+=:@") then [c] else percent c) (bytes s))).

(** * JSON strings *)

(** One rune of a JSON string literal as [json.Marshal] writes it, with HTML
    characters escaped; [raw] are the bytes of the rune. *)
Definition json_rune (raw : list ascii) (rw : Z * nat) : list ascii :=
  let '(r, w) := rw in
  if (r =? 34) || (r =? 92) then ("\"%char :: raw)%list
  else if r =? 8 then bytes "\b" else if r =? 12 then bytes "\f"
  else if r =? 10 then bytes "\n" else if r =? 13 then bytes "\r" else if r =? 9 then bytes "\t"
  else if (r <? 32) || (r =? 60) || (r =? 62) || (r =? 38)
       then (bytes "\u00" ++ hex_digits 2 r)%list
  else if (r =? rune_error) && (w =? 1)%nat then bytes "\ufffd"
  else if (r =? 8232) || (r =? 8233) then (bytes "\u" ++ hex_digits 4 r)%list
  else raw.
Fixpoint json_runes (rs : list (Z * nat)) (l : list ascii) : list ascii :=
  match rs with
  | [] => []
  | (r, w) :: rs => (json_rune (take w l) (r, w) ++ json_runes rs (drop w l))%list
  end.
(** The literal between its quotes. *)
Definition json_body (s : string) : string := str (json_runes (runes (bytes s)) (bytes s)).

(** * Bytes and words *)

Definition uint32 (z : Z) : Z := z mod 4294967296.
(** [binary.BigEndian.PutUint32]. *)
Definition be32 (z : Z) : list ascii :=
  [byte_of (z / 16777216 mod 256); byte_of (z / 65536 mod 256); byte_of (z / 256 mod 256); byte_of (z mod 256)].
Definition word_of (l : list ascii) : Z := fold_left (λ w c, w * 256 + byte_val c) l 0.
(** [hex.EncodeToString]. *)
Definition hex_encode (l : list ascii) : string := str (concat (map (λ c, hex_digits 2 (byte_val c)) l)).

(** * SHA-256 *)

Module SHA256.

Definition rotr (n x : Z) : Z := Z.lor (Z.shiftr x n) (uint32 (Z.shiftl x (32 - n))).
Definition xor3 (a b c : Z) : Z := Z.lxor a (Z.lxor b c).
(** The constants: the first 32 bits of the fractional parts of the cube roots
    of the first 64 primes, and of the square roots of the first 8. *)
Definition is_prime (n : Z) : bool := forallb (λ d, negb (n mod d =? 0)) (seqZ 2 (n - 2)).
Definition primes : list Z := List.filter is_prime (seqZ 2 310).
Fixpoint cube_root (bit : nat) (n root : Z) : Z :=
  let next := root + 2 ^ Z.of_nat bit in
  let root := if next * next * next <=? n then next else root in
  match bit with O => root | S bit => cube_root bit n root end.
Definition k_words : list Z := Eval vm_compute in map (λ p, uint32 (cube_root 35 (p * 2 ^ 96) 0)) primes.
Definition initial : list Z := Eval vm_compute in map (λ p, uint32 (Z.sqrt (p * 2 ^ 64))) (take 8 primes).

(** The message schedule, latest word first. *)
Fixpoint schedule (n : nat) (rev : list Z) : list Z :=
  match n with
  | O => reverse rev
  | S n =>
      let at_ (i : nat) := nth (i - 1) rev 0 in
      let s0 := xor3 (rotr 7 (at_ 15%nat)) (rotr 18 (at_ 15%nat)) (Z.shiftr (at_ 15%nat) 3) in
      let s1 := xor3 (rotr 17 (at_ 2%nat)) (rotr 19 (at_ 2%nat)) (Z.shiftr (at_ 2%nat) 10) in
      schedule n (uint32 (at_ 16%nat + s0 + at_ 7%nat + s1) :: rev)
  end.
Definition round (h : list Z) (kw : Z * Z) : list Z :=
  match h with
  | [a; b; c; d; e; f; g; h] =>
      let s1 := xor3 (rotr 6 e) (rotr 11 e) (rotr 25 e) in
      let ch := Z.lxor (Z.land e f) (Z.land (Z.lxor e 0xffffffff) g) in
      let t1 := h + s1 + ch + kw.1 + kw.2 in
      let s0 := xor3 (rotr 2 a) (rotr 13 a) (rotr 22 a) in
      let maj := xor3 (Z.land a b) (Z.land a c) (Z.land b c) in
      [uint32 (t1 + (s0 + maj)); a; b; c; uint32 (d + t1); e; f; g]
  | _ => h
  end.
Fixpoint words (n : nat) (l : list ascii) : list Z :=
  match n with O => [] | S n => word_of (take 4 l) :: words n (drop 4 l) end.
Definition block (h : list Z) (b : list ascii) : list Z :=
  let w := schedule 48 (reverse (words 16 b)) in
  zip_with (λ x y, uint32 (x + y)) h (fold_left round (zip k_words w) h).
Fixpoint blocks (n : nat) (h : list Z) (l : list ascii) : list Z :=
  match n with O => h | S n => blocks n (block h (take 64 l)) (drop 64 l) end.
Definition padded (l : list ascii) : list ascii :=
  let zeros := Z.to_nat ((55 - zlen l) mod 64) in
  let bits := 8 * zlen l in
  (l ++ byte_of 128 :: replicate zeros (byte_of 0) ++ be32 (bits / 4294967296) ++ be32 bits)%list.
End SHA256.

(** [sha256.Sum256]. *)
Definition sum256 (l : list ascii) : list ascii :=
  let p := SHA256.padded l in
  concat (map be32 (SHA256.blocks (length p / 64) SHA256.initial p)).

Example sum256_abc : hex_encode (sum256 (bytes "abc"))
  = "ba7816bf8f01cfea414140de5dae2223b00361a396177a9cb410ff61f20015ad".
Proof. vm_compute. reflexivity. Qed.
Example sum256_two_blocks :
  hex_encode (sum256 (bytes "abcdbcdecdefdefgefghfghighijhijkijkljklmklmnlmnomnopnopq"))
  = "248d6a61d20638b8e5c026930c3e6039a33ce45964ff2167f6ecedd419db06c1".
Proof. vm_compute. reflexivity. Qed.

Example base64_basic : StdEncoding "user@icloud.com:abcd" = "dXNlckBpY2xvdWQuY29tOmFiY2Q=".
Proof. reflexivity. Qed.
Example json_escapes : json_body (str ["a"; "<"; "034"; "010"; "\"; "001"]%char)
  = "a\u003c\" ++ str ["034"%char] ++ "\n\\\u0001".
Proof. reflexivity. Qed.

(** * Laws *)

Lemma word_of_be32 z : 0 <= z < 4294967296 → word_of (be32 z) = z.
Proof.
  intros Hz. unfold word_of, be32. simpl. rewrite !byte_val_of by (apply Z.mod_pos_bound; lia).
  Z.to_euclidean_division_equations. lia.
Qed.
Lemma length_be32 z : length (be32 z) = 4%nat.
Proof. done. Qed.

(** A length-prefixed text can be split off again. *)
Lemma be32_framing (v w : string) (r s : list ascii) :
  len v < 4294967296 → len w < 4294967296 →
  (be32 (len v) ++ bytes v ++ r = be32 (len w) ++ bytes w ++ s)%list → v = w ∧ r = s.
Proof.
  intros Hv Hw Heq. apply app_inj_1 in Heq as [Hlen Heq]; [|done].
  apply (f_equal word_of) in Hlen. pose proof (len_nonneg v). pose proof (len_nonneg w).
  rewrite !word_of_be32 in Hlen by lia.
  apply app_inj_1 in Heq as [Hb Hr]; [|unfold len, zlen in Hlen; lia].
  split; [by apply bytes_inj|done].
Qed.
