(* ===== verification/GoJson.v ===== *)
(** The part of Go's [encoding/json] the tool handlers use: the values of a
    document, the parser, decoding into Go types, and the two printers.

    A [json.RawMessage] taken out of a parsed document is the value it spells. *)
From S2P Require Import Prelude GoStrings GoEncode.

(** Numbers keep their spelling, objects their fields in order. *)
Inductive json :=
| JNull
| JBool (b : bool)
| JNumber (literal : string)
| JString (s : string)
| JArray (l : list json)
| JObject (fields : list (string * json)).

Definition dquote : ascii := "034"%char.
Definition json_space (c : ascii) : bool := bool_decide (c ∈ [" "; "009"; "010"; "013"]%char).
Fixpoint skip_space (l : list ascii) : list ascii :=
  match l with c :: l' => if json_space c then skip_space l' else l | [] => [] end.
(** After white space, [c]. *)
Definition next (c : ascii) (l : list ascii) : option (list ascii) :=
  match skip_space l with
  | d :: r => if bool_decide (d = c) then Some r else None
  | [] => None
  end.
(** The longest prefix of digits, and the rest. *)
Fixpoint span_digits (l : list ascii) : list ascii * list ascii :=
  match l with
  | c :: l' => if is_digit c then let '(ds, r) := span_digits l' in (c :: ds, r) else ([], l)
  | [] => ([], [])
  end.

(** * Strings *)

Definition hex_value (c : ascii) : option Z :=
  let z := byte_val c in
  if (48 <=? z) && (z <=? 57) then Some (z - 48)
  else if (97 <=? z) && (z <=? 102) then Some (z - 87)
  else if (65 <=? z) && (z <=? 70) then Some (z - 55) else None.
Definition hex4 (a b c d : ascii) : option Z :=
  a ← hex_value a; b ← hex_value b; c ← hex_value c; d ← hex_value d;
  Some (((a * 16 + b) * 16 + c) * 16 + d).
Definition escape_byte (c : ascii) : option ascii :=
  if bool_decide (c ∈ [dquote; "\"; "/"]%char) then Some c
  else if bool_decide (c = "b"%char) then Some "008"%char
  else if bool_decide (c = "f"%char) then Some "012"%char
  else if bool_decide (c = "n"%char) then Some "010"%char
  else if bool_decide (c = "r"%char) then Some "013"%char
  else if bool_decide (c = "t"%char) then Some "009"%char else None.

(** A string literal after its opening quote: its bytes and [\u] units, and
    what follows the closing quote. *)
Inductive unit16 := Byte (c : ascii) | Unit (z : Z).
Fixpoint scan_string (l : list ascii) : option (list unit16 * list ascii) :=
  match l with
  | [] => None
  | c :: l1 =>
      if bool_decide (c = dquote) then Some ([], l1)
      else if byte_val c <? 32 then None
      else if bool_decide (c = "\"%char) then
        match l1 with
        | [] => None
        | e :: l2 =>
            if bool_decide (e = "u"%char) then
              match l2 with
              | h1 :: h2 :: h3 :: h4 :: l3 =>
                  z ← hex4 h1 h2 h3 h4; '(us, r) ← scan_string l3; Some (Unit z :: us, r)
              | _ => None
              end
            else c ← escape_byte e; '(us, r) ← scan_string l2; Some (Byte c :: us, r)
        end
      else '(us, r) ← scan_string l1; Some (Byte c :: us, r)
  end.

Definition high_surrogate (z : Z) : bool := (55296 <=? z) && (z <=? 56319).
Definition low_surrogate (z : Z) : bool := (56320 <=? z) && (z <=? 57343).
(** Surrogates that do not pair become U+FFFD. *)
Fixpoint join_units (us : list unit16) : list ascii :=
  match us with
  | [] => []
  | Byte c :: us => c :: join_units us
  | Unit z :: us' =>
      match us' with
      | Unit z2 :: us2 =>
          if high_surrogate z && low_surrogate z2
          then (encode_rune ((z - 55296) * 1024 + (z2 - 56320) + 65536) ++ join_units us2)%list
          else (encode_rune z ++ join_units us')%list
      | _ => (encode_rune z ++ join_units us')%list
      end
  end.
(** [string([]rune(s))]: every invalid byte becomes U+FFFD. *)
Definition to_valid (l : list ascii) : list ascii := concat (map (λ rw, encode_rune rw.1) (runes l)).
Definition unquote (us : list unit16) : string := str (to_valid (join_units us)).

(** * Numbers *)

Definition scan_integer (l : list ascii) : option (list ascii * list ascii) :=
  match l with
  | "0"%char :: r => Some (["0"%char], r)
  | _ => let '(ds, r) := span_digits l in if bool_decide (ds = []) then None else Some (ds, r)
  end.
(** At least one digit. *)
Definition scan_digits (l : list ascii) : option (list ascii * list ascii) :=
  let '(ds, r) := span_digits l in if bool_decide (ds = []) then None else Some (ds, r).
Definition scan_fraction (l : list ascii) : option (list ascii * list ascii) :=
  match l with
  | "."%char :: l => '(ds, r) ← scan_digits l; Some ("."%char :: ds, r)
  | _ => Some ([], l)
  end.
Definition scan_exponent (l : list ascii) : option (list ascii * list ascii) :=
  match l with
  | e :: l1 =>
      if bool_decide (e ∈ ["e"; "E"]%char) then
        match l1 with
        | s :: l2 => if bool_decide (s ∈ ["+"; "-"]%char)
                     then '(ds, r) ← scan_digits l2; Some (e :: s :: ds, r)
                     else '(ds, r) ← scan_digits l1; Some (e :: ds, r)
        | [] => None
        end
      else Some ([], l)
  | [] => Some ([], [])
  end.
Definition scan_number (l : list ascii) : option (string * list ascii) :=
  let '(sign, l) := match l with "-"%char :: l' => (["-"%char], l') | _ => ([], l) end in
  '(i, l) ← scan_integer l;
  '(f, l) ← scan_fraction l;
  '(e, l) ← scan_exponent l;
  Some (str (sign ++ i ++ f ++ e)%list, l).

(** * Documents *)

Definition maxNestingDepth : Z := 10000.
Definition expect (w : string) (v : json) (l : list ascii) : option (json * list ascii) :=
  if has_prefix_b (bytes w) l then Some (v, drop (length (bytes w)) l) else None.

(** Fuel bounds the calls nested; [json_parse] gives enough. *)
Fixpoint parse_value (fuel : nat) (depth : Z) (l : list ascii) : option (json * list ascii) :=
  match fuel with
  | O => None
  | S fuel =>
      match skip_space l with
      | [] => None
      | c :: r =>
          if bool_decide (c = "{"%char) then
            if maxNestingDepth <=? depth then None
            else match next "}" r with
                 | Some r => Some (JObject [], r)
                 | None => '(fs, r) ← parse_fields fuel (depth + 1) r; Some (JObject fs, r)
                 end
          else if bool_decide (c = "["%char) then
            if maxNestingDepth <=? depth then None
            else match next "]" r with
                 | Some r => Some (JArray [], r)
                 | None => '(vs, r) ← parse_items fuel (depth + 1) r; Some (JArray vs, r)
                 end
          else if bool_decide (c = dquote) then '(us, r) ← scan_string r; Some (JString (unquote us), r)
          else if bool_decide (c = "t"%char) then expect "true" (JBool true) (c :: r)
          else if bool_decide (c = "f"%char) then expect "false" (JBool false) (c :: r)
          else if bool_decide (c = "n"%char) then expect "null" JNull (c :: r)
          else '(n, r) ← scan_number (c :: r); Some (JNumber n, r)
      end
  end
with parse_items (fuel : nat) (depth : Z) (l : list ascii) : option (list json * list ascii) :=
  match fuel with
  | O => None
  | S fuel =>
      '(v, r) ← parse_value fuel depth l;
      match next "," r with
      | Some r => '(vs, r) ← parse_items fuel depth r; Some (v :: vs, r)
      | None => r ← next "]" r; Some ([v], r)
      end
  end
with parse_fields (fuel : nat) (depth : Z) (l : list ascii) : option (list (string * json) * list ascii) :=
  match fuel with
  | O => None
  | S fuel =>
      r ← next dquote l;
      '(us, r) ← scan_string r;
      r ← next ":" r;
      '(v, r) ← parse_value fuel depth r;
      match next "," r with
      | Some r => '(fs, r) ← parse_fields fuel depth r; Some ((unquote us, v) :: fs, r)
      | None => r ← next "}" r; Some ([(unquote us, v)], r)
      end
  end.
Definition parse_fuel (l : list ascii) : nat := 2 * length l + 2.
Definition json_parse (l : list ascii) : option json :=
  '(v, r) ← parse_value (parse_fuel l) 0 l;
  if bool_decide (skip_space r = []) then Some v else None.

(** * Decoding *)

(** [json.Unmarshal] of a raw value; [null] leaves the target as it was,
    a repeated key keeps the last value. *)
Definition as_object (v : json) : option (gmap string json) :=
  match v with JObject fs => Some (list_to_map (reverse fs)) | JNull => Some ∅ | _ => None end.
Definition as_array (v : json) : option (list json) :=
  match v with JArray l => Some l | JNull => Some [] | _ => None end.
Definition as_string (v : json) : option string :=
  match v with JString s => Some s | JNull => Some "" | _ => None end.
Definition as_bool (v : json) : option bool :=
  match v with JBool b => Some b | JNull => Some false | _ => None end.
Definition as_int (v : json) : option Z :=
  match v with JNumber n => parse_int64 n | JNull => Some 0 | _ => None end.
(** The first byte of the text of a value. *)
Definition is_object (v : json) : bool := match v with JObject _ => true | _ => false end.
Definition is_array (v : json) : bool := match v with JArray _ => true | _ => false end.

(** Into [any]: a number must fit a [float64], below the midpoint of the
    largest one and the next power of two. *)
Definition float_limit : Z := 2 ^ 1024 - 2 ^ 970.
Definition number_fits (literal : string) : bool :=
  let l := match bytes literal with "-"%char :: l => l | l => l end in
  let '(i, l) := span_digits l in
  let '(f, l) := match l with "."%char :: l => span_digits l | _ => ([], l) end in
  let e := match l with _ :: l => match parse_int64 (str l) with Some e => e | None => max_int64 end | [] => 0 end in
  let e := match l with _ :: "-"%char :: l => if bool_decide (e = max_int64) then min_int64 else e | _ => e end in
  let m := match parse_digits (i ++ f)%list with Some m => m | None => 0 end in
  let e := e - zlen f in
  if m =? 0 then true
  else if 400 <? e then false
  else if 0 <=? e then m * 10 ^ e <? float_limit
  else if e <? - (zlen i + zlen f) then true
  else m <? float_limit * 10 ^ (- e).
Fixpoint numbers_fit (v : json) : bool :=
  match v with
  | JNumber n => number_fits n
  | JArray l => forallb numbers_fit l
  | JObject fs => forallb (λ kv, numbers_fit kv.2) fs
  | _ => true
  end.

(** * Printing *)

Definition json_literal (s : string) : string := str [dquote] ++ json_body s ++ str [dquote].
(** [json.Marshal]. *)
Fixpoint marshal (v : json) : string :=
  match v with
  | JNull => "null"
  | JBool b => if b then "true" else "false"
  | JNumber n => n
  | JString s => json_literal s
  | JArray l => "[" ++ join (map marshal l) "," ++ "]"
  | JObject fs => "{" ++ join (map (λ kv, json_literal kv.1 ++ ":" ++ marshal kv.2) fs) "," ++ "}"
  end.

Definition newline_indent (level : nat) : string := str ("010"%char :: concat (replicate level (bytes "  "))).
(** [json.MarshalIndent(v, empty, two spaces)]. *)
Fixpoint marshal_indent (level : nat) (v : json) : string :=
  let inside := newline_indent (S level) in
  match v with
  | JArray ((_ :: _) as l) => "[" ++ inside ++ join (map (marshal_indent (S level)) l) ("," ++ inside) ++ newline_indent level ++ "]"
  | JObject ((_ :: _) as fs) =>
      "{" ++ inside ++ join (map (λ kv, json_literal kv.1 ++ ": " ++ marshal_indent (S level) kv.2) fs) ("," ++ inside)
        ++ newline_indent level ++ "}"
  | v => marshal v
  end.

(** Struct fields: always written, or left out when empty ([omitempty]). *)
Definition field (name : string) (v : json) : list (string * json) := [(name, v)].
Definition jint (z : Z) : json := JNumber (fmt_int z).
Definition opt_field (name : string) (empty : bool) (v : json) : list (string * json) :=
  if empty then [] else [(name, v)].
Definition text_field (name s : string) : list (string * json) := opt_field name (bool_decide (s = "")) (JString s).
Definition flag_field (name : string) (b : bool) : list (string * json) := opt_field name (negb b) (JBool b).
Definition int_field (name : string) (z : Z) : list (string * json) := opt_field name (z =? 0) (jint z).
Definition list_field {A} (name : string) (f : A → json) (l : list A) : list (string * json) :=
  opt_field name (bool_decide (zlen l = 0)) (JArray (map f l)).

(** * The fuel is enough

    Every parser consumes at least one byte. *)

Lemma skip_space_shrinks l : (length (skip_space l) <= length l)%nat.
Proof. induction l as [|c l IH]; simpl; [lia|]. destruct (json_space c); simpl; lia. Qed.
Lemma next_shrinks c l r : next c l = Some r → (length r < length l)%nat.
Proof.
  unfold next. pose proof (skip_space_shrinks l). destruct (skip_space l) as [|d l']; [done|].
  case_bool_decide; [|done]. intros [= <-]. simpl in *. lia.
Qed.
Lemma span_digits_shrinks l ds r : span_digits l = (ds, r) → length l = (length ds + length r)%nat.
Proof.
  revert ds r. induction l as [|c l IH]; intros ds r; simpl; [by intros [= <- <-]|].
  destruct (is_digit c); [|by intros [= <- <-]].
  destruct (span_digits l) as [ds1 r1] eqn:Hs. intros [= <- <-]. simpl. by rewrite (IH ds1 r1).
Qed.
Lemma scan_string_shrinks l us r : scan_string l = Some (us, r) → (length r < length l)%nat.
Proof.
  remember (length l) as n eqn:Hn. revert l us r Hn.
  induction n as [n IH] using (well_founded_induction lt_wf). intros l us r ->.
  destruct l as [|c l1]; simpl; [done|]. destruct (bool_decide (c = dquote)); [intros [= <- <-]; lia|].
  destruct (byte_val c <? 32); [done|].
  assert (∀ l' us' r', (length l' < S (length l1))%nat → scan_string l' = Some (us', r') → (length r' < length l')%nat)
    as Hrec by (intros; eapply IH; [|done..]; simpl; lia).
  destruct (bool_decide (c = "\"%char)).
  - destruct l1 as [|e l2]; [done|]. destruct (bool_decide (e = "u"%char)).
    + destruct l2 as [|h1 [|h2 [|h3 [|h4 l3]]]]; try done.
      destruct (hex4 h1 h2 h3 h4); [|done]. destruct (scan_string l3) as [[us1 r1]|] eqn:Hs; [|done].
      intros [= <- <-]. apply Hrec in Hs; simpl in *; lia.
    + destruct (escape_byte e); [|done]. destruct (scan_string l2) as [[us1 r1]|] eqn:Hs; [|done].
      intros [= <- <-]. apply Hrec in Hs; simpl in *; lia.
  - destruct (scan_string l1) as [[us1 r1]|] eqn:Hs; [|done]. intros [= <- <-]. apply Hrec in Hs; simpl in *; lia.
Qed.
Lemma scan_digits_shrinks l ds r : scan_digits l = Some (ds, r) → (length r < length l)%nat.
Proof.
  unfold scan_digits. destruct (span_digits l) as [ds1 r1] eqn:Hs. case_bool_decide; [done|]. intros [= <- <-].
  apply span_digits_shrinks in Hs. destruct ds1; [done|simpl in Hs; lia].
Qed.
Lemma scan_integer_shrinks l ds r : scan_integer l = Some (ds, r) → (length r < length l)%nat.
Proof.
  assert (scan_digits l = Some (ds, r) → (length r < length l)%nat) as Hd by apply scan_digits_shrinks.
  unfold scan_integer. destruct l as [|c l]; [done|].
  destruct (decide (c = "0"%char)) as [->|Hc]; [intros [= <- <-]; simpl; lia|].
  intros Hs. apply Hd. unfold scan_digits. revert Hs.
  destruct c as [[] [] [] [] [] [] [] []]; done.
Qed.
Lemma scan_fraction_shrinks l ds r : scan_fraction l = Some (ds, r) → (length r <= length l)%nat.
Proof.
  unfold scan_fraction. destruct l as [|c l]; [by intros [= <- <-]|].
  destruct (decide (c = "."%char)) as [->|Hc].
  - destruct (scan_digits l) as [[ds1 r1]|] eqn:Hs; [|done]. intros [= <- <-].
    apply scan_digits_shrinks in Hs. simpl. lia.
  - intros Hs. assert (Some ([], c :: l) = Some (ds, r)) as [= <- <-]; [|done].
    rewrite <-Hs. destruct c as [[] [] [] [] [] [] [] []]; done.
Qed.
Lemma scan_exponent_shrinks l ds r : scan_exponent l = Some (ds, r) → (length r <= length l)%nat.
Proof.
  unfold scan_exponent. destruct l as [|e l1]; [by intros [= <- <-]|].
  case_bool_decide; [|by intros [= <- <-]]. destruct l1 as [|s l2]; [done|].
  case_bool_decide.
  - destruct (scan_digits l2) as [[ds1 r1]|] eqn:Hs; [|done]. intros [= <- <-].
    apply scan_digits_shrinks in Hs. simpl. lia.
  - destruct (scan_digits (s :: l2)) as [[ds1 r1]|] eqn:Hs; [|done]. intros [= <- <-].
    apply scan_digits_shrinks in Hs. simpl in *. lia.
Qed.
Lemma scan_number_shrinks l n r : scan_number l = Some (n, r) → (length r < length l)%nat.
Proof.
  unfold scan_number.
  set (sl := match l with "-"%char :: l' => (["-"%char], l') | _ => ([], l) end).
  assert (length sl.2 <= length l)%nat as Hsl.
  { unfold sl. destruct l as [|c l]; [done|]. destruct c as [[] [] [] [] [] [] [] []]; simpl; lia. }
  destruct sl as [sign l0]. simpl in Hsl.
  destruct (scan_integer l0) as [[i l1]|] eqn:Hi; [|done]. apply scan_integer_shrinks in Hi. simpl.
  destruct (scan_fraction l1) as [[f l2]|] eqn:Hf; [|done]. apply scan_fraction_shrinks in Hf. simpl.
  destruct (scan_exponent l2) as [[e l3]|] eqn:He; [|done]. apply scan_exponent_shrinks in He. simpl.
  intros [= <- <-]. lia.
Qed.
Lemma expect_shrinks w v c l v' r : w ≠ "" → expect w v (c :: l) = Some (v', r) → (length r < length (c :: l))%nat.
Proof.
  unfold expect. intros Hw. destruct (has_prefix_b _ _); [|done]. intros [= <- <-]. rewrite length_drop.
  destruct w as [|a w]; [done|]. simpl. lia.
Qed.

(** Any of the scanners used consumes. *)
Ltac shrinks :=
  repeat match goal with
  | H : next _ _ = Some _ |- _ => apply next_shrinks in H
  | H : scan_string _ = Some _ |- _ => apply scan_string_shrinks in H
  | H : scan_number _ = Some _ |- _ => apply scan_number_shrinks in H
  | H : expect _ _ _ = Some _ |- _ => apply expect_shrinks in H; [|done]
  | IH : ∀ d l v r, ?f d l = Some (v, r) → _, H : ?f _ _ = Some _ |- _ => apply IH in H
  end.
(** Case analysis on the next computation a parser makes. *)
Ltac parse_step :=
  match goal with
  | |- context [mbind _ ?m] => destruct m as [[]|] eqn:?; simpl; [|done]
  | |- context [mbind _ ?m] => destruct m as [] eqn:?; simpl; [|done]
  | |- context [match next ?c ?l with _ => _ end] => destruct (next c l) as [] eqn:?; simpl
  end.

Lemma parse_shrinks fuel :
  (∀ d l v r, parse_value fuel d l = Some (v, r) → (length r < length l)%nat) ∧
  (∀ d l v r, parse_items fuel d l = Some (v, r) → (length r < length l)%nat) ∧
  (∀ d l v r, parse_fields fuel d l = Some (v, r) → (length r < length l)%nat).
Proof.
  induction fuel as [|fuel (IHv & IHi & IHf)]; [done|]. split_and!; intros d l v r.
  - cbn [parse_value]. pose proof (skip_space_shrinks l) as Hl. destruct (skip_space l) as [|c l1]; [done|].
    simpl in Hl. repeat (case_match; [try done|]); repeat parse_step; intros Hx;
      try (injection Hx as <- <-); shrinks; simpl in *; lia.
  - cbn [parse_items]. repeat parse_step; intros [= <- <-]; shrinks; lia.
  - cbn [parse_fields]. repeat parse_step; intros [= <- <-]; shrinks; lia.
Qed.
(** More fuel changes nothing. *)
Lemma parse_enough n : ∀ fuel fuel', (fuel <= fuel')%nat → (fuel <= n)%nat →
  (∀ d l, (2 * length l + 1 <= fuel)%nat → parse_value fuel' d l = parse_value fuel d l) ∧
  (∀ d l, (2 * length l + 2 <= fuel)%nat → parse_items fuel' d l = parse_items fuel d l) ∧
  (∀ d l, (2 * length l + 1 <= fuel)%nat → parse_fields fuel' d l = parse_fields fuel d l).
Proof.
  induction n as [|n IH]; intros fuel fuel' Hle Hn; [split_and!; intros; lia|].
  destruct fuel as [|fuel]; [split_and!; intros; lia|]. destruct fuel' as [|fuel']; [lia|].
  destruct (IH fuel fuel') as (IHv & IHi & IHf); [lia..|].
  destruct (parse_shrinks fuel) as (Sv & Si & Sf).
  split_and!; intros d l Hl.
  - cbn [parse_value]. pose proof (skip_space_shrinks l) as Hs. destruct (skip_space l) as [|c l1]; [done|].
    simpl in Hs. rewrite IHf, IHi by lia. done.
  - cbn [parse_items]. rewrite IHv by lia. parse_step. parse_step; [|done].
    rewrite IHi; [done|]. shrinks. lia.
  - cbn [parse_fields]. do 3 parse_step. rewrite IHv by (shrinks; lia). parse_step. parse_step; [|done].
    rewrite IHf; [done|]. shrinks. lia.
Qed.
Lemma json_parse_fuel fuel l : (parse_fuel l <= fuel)%nat → parse_value fuel 0 l = parse_value (parse_fuel l) 0 l.
Proof.
  intros Hf. destruct (parse_enough (parse_fuel l) (parse_fuel l) fuel) as (Hv & _ & _); [done..|].
  apply Hv. unfold parse_fuel. lia.
Qed.

(** JSON text with its quotes written as apostrophes. *)
Definition apostrophes (s : string) : list ascii := map (λ c, if bool_decide (c = "'"%char) then dquote else c) (bytes s).
Example json_parse_example :
  json_parse (apostrophes "{'a': [1, -2.5e3, true], 'b\u00e9': null} ")
  = Some (JObject [("a", JArray [JNumber "1"; JNumber "-2.5e3"; JBool true]); ("b" ++ str [byte_of 195; byte_of 169], JNull)]).
Proof. vm_compute. reflexivity. Qed.
Example marshal_indent_example :
  marshal_indent 0 (JObject (text_field "a" "x" ++ int_field "n" 0 ++ list_field "l" JString ["y"])%list)
  = str (apostrophes "{" ++ "010"%char :: apostrophes "  'a': 'x'," ++ "010"%char :: apostrophes "  'l': [" ++
         "010"%char :: apostrophes "    'y'" ++ "010"%char :: apostrophes "  ]" ++ "010"%char :: apostrophes "}")%list.
Proof. vm_compute. reflexivity. Qed.
