(* ===== verification/Redact.v ===== *)
(** Secret redaction (src/internal/security/redact.go): the variants of a
    credential, the replacement of secrets in text, and the line-buffering
    writer of the logs. *)
From S2P Require Import Prelude GoStrings GoEncode.

(** * The forms of a credential *)

Record CredentialPair := MkCredentialPair { Username : string; Password : string }.

Definition addRaw (variants : list string) (value : string) : list string :=
  if decide (value = "") then variants
  else if decide (value ∈ variants) then variants
  else (variants ++ [value])%list.
Definition add_variant (variants : list string) (value : string) : list string :=
  addRaw (addRaw variants value) (json_body value).

Definition encodings (value : string) : list string :=
  [StdEncoding value; RawStdEncoding value; URLEncoding value; RawURLEncoding value].
Definition nul : string := str ["000"%char].
(** The arguments of [add], in the order of the calls. *)
Definition credential_forms (c : CredentialPair) : list string :=
  let u := Username c in
  let p := Password c in
  let basic := u ++ ":" ++ p in
  let plain := nul ++ u ++ nul ++ p in
  let plainWithAuthzID := u ++ nul ++ u ++ nul ++ p in
  ([u; p; QueryEscape u; PathEscape u; QueryEscape p; PathEscape p]
   ++ encodings u ++ encodings p
   ++ basic :: encodings basic ++ plain :: encodings plain
   ++ plainWithAuthzID :: encodings plainWithAuthzID)%list.
(** [seen] is the set of the variants so far. *)
Definition RedactionVariants (credentials : list CredentialPair) : list string :=
  fold_left add_variant (concat (map credential_forms credentials)) [].

(** * The redactor *)

Record Redactor := MkRedactor { secrets : list string }.

Definition crlf : string := str ["010"; "013"]%char.
Definition add_secret (kept : list string) (s : string) : list string :=
  if len s <? 4 then kept
  else if contains_any s crlf then kept
  else if decide (s ∈ kept) then kept
  else (kept ++ [s])%list.
Definition NewRedactor (l : list string) : Redactor :=
  MkRedactor (stable_sort (λ a b, len b <? len a) (fold_left add_secret l [])).

Definition redactToken : string := "[REDACTED]".
Definition redactFallbackToken : string := "***".
Definition replacement (secret : string) : string :=
  if contains redactToken secret then redactFallbackToken else redactToken.

Definition redact_one (out secret : string) : string :=
  if decide (secret = "") then out else replace_all out secret (replacement secret).
(** The rounds of [Redact]. *)
Fixpoint redact_rounds (rounds : nat) (r : Redactor) (out : string) : string :=
  match rounds with
  | O => out
  | S rounds =>
      let out' := fold_left redact_one (secrets r) out in
      if decide (out' = out) then out' else redact_rounds rounds r out'
  end.
Definition Redact (r : Redactor) (s : string) : string := redact_rounds 32 r s.

(** * The writer *)

Definition maxRedactBuf : Z := 64 * 1024.
Definition newline : ascii := "010"%char.
Definition oversizedRedactMarker : string := "[REDACTED: oversized record truncated]" ++ str [newline].

(** The underlying writer, on a state [W]: how many bytes it took, and an
    error. *)
Class Sink (W : Type) := { sink_Write : list ascii → W → W * (Z * option string) }.
Record RedactingWriter (W : Type) := MkWriter { rw_w : W; buf : list ascii; discarding : bool }.
Arguments MkWriter {W}. Arguments rw_w {W}. Arguments buf {W}. Arguments discarding {W}.

Section Writer.
Context {W : Type} `{Sink W} (r : Redactor).

Definition NewRedactingWriter (w : W) : RedactingWriter W := MkWriter w [] false.

Definition writeLocked (rw : RedactingWriter W) (data : list ascii) : RedactingWriter W * option string :=
  let '(w, (n, err)) := sink_Write data (rw_w rw) in
  (MkWriter w (buf rw) (discarding rw),
   match err with
   | Some e => Some e
   | None => if n =? zlen data then None else Some "short write"
   end).

(** Cut after the last newline, or at the end. *)
Definition emit_cut (force : bool) (b : list ascii) : nat :=
  if force then length b
  else match last_index_byte newline b with Some i => S i | None => 0%nat end.
Definition emitLocked (force : bool) (rw : RedactingWriter W) : RedactingWriter W * option string :=
  match buf rw with
  | [] => (rw, None)
  | _ =>
      let cut := emit_cut force (buf rw) in
      if (cut =? 0)%nat then (rw, None)
      else
        let redacted := Redact r (str (take cut (buf rw))) in
        writeLocked (MkWriter (rw_w rw) (drop cut (buf rw)) (discarding rw)) (bytes redacted)
  end.
Definition emitOversizedMarkerLocked (rw : RedactingWriter W) : RedactingWriter W * option string :=
  writeLocked rw (bytes (Redact r oversizedRedactMarker)).

(** The loop of [Write]: every turn consumes at least one byte of [p], so
    [length p + 1] turns are enough. *)
Fixpoint write_loop (fuel : nat) (p : list ascii) (rw : RedactingWriter W) : RedactingWriter W * option string :=
  match fuel with
  | O => (rw, None)
  | S fuel =>
      match p with
      | [] => (rw, None)
      | _ =>
          if discarding rw then
            match index_byte newline p with
            | None => (rw, None)
            | Some i => write_loop fuel (drop (S i) p) (MkWriter (rw_w rw) (buf rw) false)
            end
          else
            match index_byte newline p with
            | Some i =>
                if maxRedactBuf <? zlen (buf rw) + Z.of_nat i + 1 then
                  let '(rw, err) := emitOversizedMarkerLocked (MkWriter (rw_w rw) [] false) in
                  match err with
                  | Some e => (rw, Some e)
                  | None => write_loop fuel (drop (S i) p) rw
                  end
                else
                  let '(rw, err) := emitLocked false (MkWriter (rw_w rw) (buf rw ++ take (S i) p)%list false) in
                  match err with
                  | Some e => (rw, Some e)
                  | None => write_loop fuel (drop (S i) p) rw
                  end
            | None =>
                if maxRedactBuf - zlen (buf rw) <=? zlen p
                then emitOversizedMarkerLocked (MkWriter (rw_w rw) [] true)
                else (MkWriter (rw_w rw) (buf rw ++ p)%list false, None)
            end
      end
  end.
(** [Write]: the number of bytes consumed is [len(p)], or 0 with an error. *)
Definition Write (p : list ascii) (rw : RedactingWriter W) : RedactingWriter W * (Z * option string) :=
  let '(rw, err) := write_loop (S (length p)) p rw in
  (rw, match err with Some e => (0, Some e) | None => (zlen p, None) end).

Definition Flush (rw : RedactingWriter W) : RedactingWriter W * option string :=
  emitLocked true (MkWriter (rw_w rw) (buf rw) false).
End Writer.

(** * Replacement removes secrets *)

(** [w] stands somewhere in [l]. *)
Definition occurs (w l : list ascii) : Prop := ∃ k1 k2, l = (k1 ++ w ++ k2)%list.

Lemma occurs_cons w x l : occurs w (x :: l) ↔ w `prefix_of` (x :: l) ∨ occurs w l.
Proof.
  split.
  - intros ([|y k1] & k2 & Heq); simpl in Heq; [left; by exists k2|]. injection Heq as -> ->. right. by exists k1, k2.
  - intros [[k Hk]|(k1 & k2 & ->)]; [by exists [], k|by exists (x :: k1), k2].
Qed.
Lemma occurs_nil w : occurs w [] → w = [].
Proof. intros (k1 & k2 & Heq). destruct k1; [|done]. by destruct w. Qed.

(** The characters a replacement starts and ends with. *)
Definition border_bytes : list ascii := ["["; "]"; "*"]%char.
(** A secret no replacement can form or cut: it has no bracket and no asterisk
    and does not stand inside the token itself.  Every app-specific password
    ([abcd-efgh-ijkl-mnop]), every address and every base64 encoding longer than
    the word REDACTED is of this kind. *)
Definition inert_bytes (w : list ascii) : Prop :=
  w ≠ [] ∧ (∀ c, c ∈ w → c ∉ border_bytes) ∧ ¬ occurs w (bytes redactToken).
Definition token_text (l : list ascii) : Prop := l = bytes redactToken ∨ l = bytes redactFallbackToken.

Lemma token_borders new : token_text new →
  ∃ a b new1 new2, new = (a :: new1)%list ∧ new = (new2 ++ [b])%list ∧ a ∈ border_bytes ∧ b ∈ border_bytes.
Proof.
  intros [-> | ->].
  - exists "["%char, "]"%char, (bytes "REDACTED]"), (bytes "[REDACTED"). split_and!; try done; set_solver.
  - exists "*"%char, "*"%char, (bytes "**"), (bytes "**"). split_and!; try done; set_solver.
Qed.
Lemma inert_not_token new w : token_text new → inert_bytes w → ¬ occurs w new.
Proof.
  intros [-> | ->] (Hne & Hb & Ht); [done|]. intros (k1 & k2 & Heq). destruct w as [|c w]; [done|].
  apply (Hb c); [left|]. assert (c ∈ bytes redactFallbackToken) as Hc by (rewrite Heq; set_solver).
  assert (c = "*"%char) as -> by (vm_compute in Hc; set_solver). set_solver.
Qed.
Lemma occurs_after_token new w rest :
  token_text new → inert_bytes w → occurs w (new ++ rest) → occurs w rest.
Proof.
  intros Hnew Hw (k1 & k2 & Heq). apply app_eq_inv in Heq as [(k & -> & Heq)|(k & -> & ->)]; [|by exists k, k2].
  destruct (decide (k = [])) as [->|Hk]; [exists [], k2; cbn in *; congruence|]. exfalso.
  apply app_eq_inv in Heq as [(k' & -> & _)|(k' & -> & _)].
  - destruct (token_borders _ Hnew) as (_ & b & _ & new2 & _ & Hb & _ & Hin). destruct Hw as (_ & Hw & _).
    destruct k as [|c k] using rev_ind; [done|]. rewrite app_assoc in Hb. apply app_inj_tail in Hb as [_ ->].
    apply (Hw b); [|done]. set_solver.
  - apply (inert_not_token _ w Hnew Hw). by exists k1, k'.
Qed.

Lemma replace_prefix old new fuel l w :
  token_text new → (∀ c, c ∈ w → c ∉ border_bytes) → w `prefix_of` replace_fuel fuel old new l → w `prefix_of` l.
Proof.
  intros Hnew. revert l w. induction fuel as [|fuel IH]; intros l w Hw; simpl; [done|].
  destruct l as [|x l]; [done|]. destruct (has_prefix_b old (x :: l)).
  - destruct w as [|c w]; [by intros; apply prefix_nil|]. destruct (token_borders _ Hnew) as (a & _ & new1 & _ & -> & _ & Ha & _).
    intros [k Hk]. injection Hk as -> _. exfalso. apply (Hw c); [left|done].
  - destruct w as [|c w]; [by intros; apply prefix_nil|]. intros Hp.
    apply prefix_cons_inv_1 in Hp as Hc. apply prefix_cons_inv_2 in Hp. subst c. apply prefix_cons.
    apply IH; [intros; apply Hw; by right|done].
Qed.

(** Replacing other text creates no new occurrence of an inert secret. *)
Lemma replace_occurs old new fuel l w :
  token_text new → inert_bytes w → occurs w (replace_fuel fuel old new l) → occurs w l.
Proof.
  intros Hnew Hw. revert l. induction fuel as [|fuel IH]; intros l; simpl; [done|].
  destruct l as [|x l]; [done|]. destruct (has_prefix_b old (x :: l)).
  - intros Hocc. apply occurs_after_token in Hocc; [|done..]. apply IH in Hocc.
    destruct Hocc as (k1 & k2 & Heq).
    exists (take (length old) (x :: l) ++ k1)%list, k2. rewrite <-app_assoc, <-Heq. by rewrite take_drop.
  - intros [Hp|Hocc]%occurs_cons; apply occurs_cons; [left|right; by apply IH].
    destruct w as [|c w]; [apply prefix_nil|].
    apply prefix_cons_inv_1 in Hp as Hc. apply prefix_cons_inv_2 in Hp. subst c. apply prefix_cons.
    eapply replace_prefix; [done| |exact Hp]. intros d Hd. apply Hw. by right.
Qed.

Lemma replace_removes old new fuel l :
  token_text new → inert_bytes old → (length l <= fuel)%nat → ¬ occurs old (replace_fuel fuel old new l).
Proof.
  intros Hnew Hold. revert l. induction fuel as [|fuel IH]; intros l Hlen; simpl.
  - destruct l; [|simpl in Hlen; lia]. intros Hocc%occurs_nil. by destruct Hold.
  - destruct l as [|x l]; [intros Hocc%occurs_nil; by destruct Hold|].
    destruct (has_prefix_b old (x :: l)) eqn:Hpre.
    + intros Hocc. apply occurs_after_token in Hocc; [|done..]. revert Hocc. apply IH.
      rewrite length_drop. destruct old; [by destruct Hold|]. simpl in *. lia.
    + intros [Hp|Hocc]%occurs_cons; [|revert Hocc; apply IH; simpl in Hlen; lia].
      assert (has_prefix_b old (x :: l) = true) as Htrue; [|congruence].
      unfold has_prefix_b. apply bool_decide_eq_true. destruct old as [|c old']; [apply prefix_nil|].
      apply prefix_cons_inv_1 in Hp as Hc. apply prefix_cons_inv_2 in Hp. subst c. apply prefix_cons.
      eapply replace_prefix; [done| |exact Hp]. intros d Hd. apply Hold. by right.
Qed.
Lemma replacement_token secret : token_text (bytes (replacement secret)).
Proof. unfold replacement, token_text. destruct (contains redactToken secret); [by right|by left]. Qed.

Lemma redact_one_occurs w secret out :
  inert_bytes w → occurs w (bytes (redact_one out secret)) → occurs w (bytes out).
Proof.
  intros Hw. unfold redact_one. destruct (decide (secret = "")); [done|]. unfold replace_all, replace_all_b.
  rewrite bytes_str. apply replace_occurs; [apply replacement_token|done].
Qed.
Lemma redact_one_removes secret out :
  inert_bytes (bytes secret) → ¬ occurs (bytes secret) (bytes (redact_one out secret)).
Proof.
  intros Hs. unfold redact_one. destruct (decide (secret = "")) as [->|]; [by destruct Hs|].
  unfold replace_all, replace_all_b. rewrite bytes_str. apply replace_removes; [apply replacement_token|done|done].
Qed.
Lemma redact_pass_occurs w l out :
  inert_bytes w → occurs w (bytes (fold_left redact_one l out)) → occurs w (bytes out).
Proof.
  intros Hw. revert out. induction l as [|s l IH]; intros out; simpl; [done|].
  intros Hocc%IH. by eapply redact_one_occurs.
Qed.
Lemma redact_pass_removes secret l out :
  inert_bytes (bytes secret) → secret ∈ l → ¬ occurs (bytes secret) (bytes (fold_left redact_one l out)).
Proof.
  intros Hs. revert out. induction l as [|s l IH]; intros out Hin; simpl; [by apply not_elem_of_nil in Hin|].
  apply elem_of_cons in Hin as [<-|Hin]; [|by apply IH].
  intros Hocc%redact_pass_occurs; [|done]. by apply redact_one_removes in Hocc.
Qed.
Lemma redact_rounds_occurs w rounds r out :
  inert_bytes w → occurs w (bytes (redact_rounds rounds r out)) → occurs w (bytes out).
Proof.
  intros Hw. revert out. induction rounds as [|rounds IH]; intros out; simpl; [done|].
  case_decide as Heq; [by rewrite Heq|]. intros Hocc%IH. by eapply redact_pass_occurs.
Qed.

Lemma redact_rounds_clean n r secret text :
  secret ∈ secrets r → inert_bytes (bytes secret) → ¬ occurs (bytes secret) (bytes (redact_rounds (S n) r text)).
Proof.
  intros Hin Hs. cbn [redact_rounds]. pose proof (redact_pass_removes secret (secrets r) text Hs Hin) as Hno.
  case_decide; [done|]. by intros Hocc%redact_rounds_occurs.
Qed.
Lemma Redact_clean r secret text :
  secret ∈ secrets r → inert_bytes (bytes secret) → ¬ occurs (bytes secret) (bytes (Redact r text)).
Proof. apply redact_rounds_clean. Qed.

(** * Which secrets a redactor knows *)

Definition eligible (s : string) : bool := negb (len s <? 4) && negb (contains_any s crlf).

Lemma add_secret_spec kept s x :
  x ∈ add_secret kept s ↔ x ∈ kept ∨ (x = s ∧ eligible s = true).
Proof.
  unfold add_secret, eligible. destruct (len s <? 4); simpl; [naive_solver|].
  destruct (contains_any s crlf); simpl; [naive_solver|].
  case_decide; [naive_solver|]. rewrite elem_of_app, list_elem_of_singleton. naive_solver.
Qed.
Lemma add_secret_NoDup kept s : NoDup kept → NoDup (add_secret kept s).
Proof.
  unfold add_secret. intros Hnd. repeat case_match; try done. apply NoDup_app.
  split_and!; [done| |apply NoDup_singleton]. by intros x Hx ->%list_elem_of_singleton.
Qed.
Lemma add_secrets_spec l kept x :
  x ∈ fold_left add_secret l kept ↔ x ∈ kept ∨ (x ∈ l ∧ eligible x = true).
Proof.
  revert kept. induction l as [|s l IH]; intros kept; simpl.
  - split; [by left|]. intros [?|[Hx _]]; [done|]. by apply not_elem_of_nil in Hx.
  - rewrite IH, add_secret_spec, elem_of_cons. naive_solver.
Qed.

Lemma NewRedactor_secrets l x : x ∈ secrets (NewRedactor l) ↔ x ∈ l ∧ eligible x = true.
Proof.
  unfold NewRedactor. simpl. rewrite stable_sort_Permutation, add_secrets_spec.
  split; [intros [Hx|?]; [by apply not_elem_of_nil in Hx|done]|by right].
Qed.

Lemma addRaw_spec variants v x : x ∈ addRaw variants v ↔ x ∈ variants ∨ (x = v ∧ v ≠ "").
Proof.
  unfold addRaw. repeat case_decide; [naive_solver..|].
  rewrite elem_of_app, list_elem_of_singleton. naive_solver.
Qed.
Lemma add_variants_spec l variants x :
  x ∈ fold_left add_variant l variants ↔ x ∈ variants ∨ (x ≠ "" ∧ ∃ v, v ∈ l ∧ (x = v ∨ x = json_body v)).
Proof.
  revert variants. induction l as [|v l IH]; intros variants; simpl.
  - split; [by left|]. intros [?|(_ & v & Hv & _)]; [done|]. by apply not_elem_of_nil in Hv.
  - rewrite IH. unfold add_variant. rewrite !addRaw_spec. setoid_rewrite elem_of_cons.
    split; [intros [[[?|[-> ?]]|[-> ?]]|(? & v' & ? & ?)]; naive_solver|].
    intros [?|(Hne & v' & [->|Hin] & [->| ->])]; naive_solver.
Qed.

(** The variants are the credential's forms and their JSON escapings, the empty
    ones left out. *)
Lemma RedactionVariants_spec credentials x :
  x ∈ RedactionVariants credentials ↔
  x ≠ "" ∧ ∃ c v, c ∈ credentials ∧ v ∈ credential_forms c ∧ (x = v ∨ x = json_body v).
Proof.
  unfold RedactionVariants. rewrite add_variants_spec. split.
  - intros [Hx|(Hne & v & Hv & Hx)]; [by apply not_elem_of_nil in Hx|]. split; [done|].
    rewrite list_elem_of_In, List.in_concat in Hv. destruct Hv as (forms & Hforms & Hv).
    apply List.in_map_iff in Hforms as (c & <- & Hc). exists c, v. by rewrite !list_elem_of_In.
  - intros (Hne & c & v & Hc & Hv & Hx). right. split; [done|]. exists v. split; [|done].
    rewrite list_elem_of_In, List.in_concat. exists (credential_forms c).
    rewrite List.in_map_iff, <-list_elem_of_In. split; [|done]. exists c. by rewrite <-list_elem_of_In.
Qed.

(** What a protocol says of a credential: the user name, the password, the pair
    of Basic authentication, and the messages of SASL PLAIN without and with an
    authorization identity. *)
Inductive credential_text (c : CredentialPair) : string → Prop :=
| text_username : credential_text c (Username c)
| text_password : credential_text c (Password c)
| text_basic : credential_text c (Username c ++ ":" ++ Password c)
| text_plain : credential_text c (nul ++ Username c ++ nul ++ Password c)
| text_plain_authzid : credential_text c (Username c ++ nul ++ Username c ++ nul ++ Password c).
(** The forms in which it travels: as it is or in one of the four base64
    alphabets, the user name and the password also escaped for a query or a
    path. *)
Inductive travels (c : CredentialPair) : string → Prop :=
| travels_text t : credential_text c t → travels c t
| travels_base64 t : credential_text c t →
    ∀ enc, enc ∈ [StdEncoding; RawStdEncoding; URLEncoding; RawURLEncoding] → travels c (enc t)
| travels_query t : t = Username c ∨ t = Password c → travels c (QueryEscape t)
| travels_path t : t = Username c ∨ t = Password c → travels c (PathEscape t).
Lemma travels_registered c form : travels c form → form ∈ credential_forms c.
Proof.
  unfold credential_forms, encodings. destruct 1 as [t Ht|t Ht enc Henc|t [-> | ->]|t [-> | ->]]; cbv zeta.
  - destruct Ht; set_solver.
  - repeat (apply elem_of_cons in Henc as [->|Henc]; [destruct Ht; set_solver|]). by apply not_elem_of_nil in Henc.
  - set_solver.
  - set_solver.
  - set_solver.
  - set_solver.
Qed.

(** (C32) The redactor built from the configured credentials lets no form of a
    credential through ([travels]: raw, URL-escaped, Basic and SASL PLAIN, these
    also in the four base64 alphabets), nor the JSON escaping of one, whatever
    the text and whatever the other secrets are: for every form of at least
    four bytes, on one line, without bracket or asterisk, and that is not a part
    of the word REDACTED itself. *)
Theorem Redact_hides_credentials credentials c form secret text :
  c ∈ credentials → travels c form → secret = form ∨ secret = json_body form →
  eligible secret = true → inert_bytes (bytes secret) →
  contains (Redact (NewRedactor (RedactionVariants credentials)) text) secret = false.
Proof.
  intros Hc Hform%travels_registered Hsec Hel Hin. unfold contains. apply contains_b_false.
  assert (secret ∈ secrets (NewRedactor (RedactionVariants credentials))) as Hs.
  { apply NewRedactor_secrets. split; [|done]. apply RedactionVariants_spec.
    split; [intros ->; by destruct Hin|by exists c, form]. }
  intros k1 k2 Heq. apply (Redact_clean _ secret text Hs Hin). by exists k1, k2.
Qed.
(** A secret without the borders of a replacement, checked by running. *)
Lemma inert_by_running s :
  negb (bool_decide (bytes s = [])) && forallb (λ c, negb (bool_decide (c ∈ border_bytes))) (bytes s)
    && negb (contains redactToken s) = true → inert_bytes (bytes s).
Proof.
  intros [[Hne%negb_true_iff%bool_decide_eq_false Hb]%andb_prop Ht%negb_true_iff]%andb_prop. split; [done|]. split.
  - rewrite forallb_forall in Hb. intros c Hc%list_elem_of_In%Hb. by apply negb_true_iff, bool_decide_eq_false in Hc.
  - unfold contains in Ht. intros (k1 & k2 & Heq). by apply (proj1 (contains_b_false _ _) Ht k1 k2).
Qed.
Definition demo_credential : CredentialPair := MkCredentialPair "anna@icloud.com" "abcd-efgh-ijkl-mnop".
Definition demo_basic : string := StdEncoding "anna@icloud.com:abcd-efgh-ijkl-mnop".
Lemma Redact_hides_credentials_witness :
  let text := "login anna@icloud.com sent Basic " ++ demo_basic ++ " and failed" in
  contains text demo_basic = true ∧
  contains (Redact (NewRedactor (RedactionVariants [demo_credential])) text) demo_basic = false ∧
  Redact (NewRedactor (RedactionVariants [demo_credential])) text = "login [REDACTED] sent Basic [REDACTED] and failed".
Proof.
  intros text. split; [vm_compute; reflexivity|]. split; [|vm_compute; reflexivity].
  apply (Redact_hides_credentials [demo_credential] demo_credential demo_basic); [left| |by left|vm_compute; reflexivity|].
  - apply (travels_base64 demo_credential _ (text_basic demo_credential)). left.
  - apply inert_by_running. vm_compute. reflexivity.
Defined.

(** The bounded iteration does leak: a secret that overlaps the
    replacement, such as ["]aaa"], is re-formed by each of the 32 rounds when
    it is followed by enough [a]s, and stays readable in the result. *)
Theorem Redact_rounds_exhausted :
  let text := str ("]"%char :: replicate 99 "a"%char) in
  let r := NewRedactor ["]aaa"] in
  secrets r = ["]aaa"] ∧ contains (Redact r text) "]aaa" = true.
Proof. vm_compute. split; reflexivity. Qed.

(** * The writer, byte by byte *)

(** The underlying writer takes everything. *)
Definition accepts {W} `{Sink W} (append : list ascii → W → W) : Prop :=
  ∀ data w, sink_Write data w = (append data w, (zlen data, None)).

Section Bytewise.
Context {W : Type} `{Sink W} (r : Redactor) (append : list ascii → W → W).

(** What one more byte does: complete lines go out redacted, a line that would
    exceed the buffer is replaced by the marker and skipped. *)
Definition write_byte (rw : RedactingWriter W) (c : ascii) : RedactingWriter W :=
  if discarding rw then
    if decide (c = newline) then MkWriter (rw_w rw) (buf rw) false else rw
  else if decide (c = newline) then
    MkWriter (append (bytes (Redact r (str (buf rw ++ [c])))) (rw_w rw)) [] false
  else if maxRedactBuf <=? zlen (buf rw) + 1
  then MkWriter (append (bytes (Redact r oversizedRedactMarker)) (rw_w rw)) [] true
  else MkWriter (rw_w rw) (buf rw ++ [c]) false.

Definition writer_ok (rw : RedactingWriter W) : Prop :=
  newline ∉ buf rw ∧ zlen (buf rw) < maxRedactBuf.

Lemma write_byte_ok rw c : writer_ok rw → writer_ok (write_byte rw c).
Proof.
  intros [Hnl Hlen]. unfold write_byte, writer_ok. repeat case_match; simpl in *; try done;
    try (split; [by apply not_elem_of_nil|done]).
  bool_to_prop. split; [|rewrite zlen_app; change (zlen [c]) with 1; lia].
  rewrite not_elem_of_app. split; [done|]. by rewrite list_elem_of_singleton.
Qed.
Lemma write_bytes_ok p rw : writer_ok rw → writer_ok (fold_left write_byte p rw).
Proof. revert rw. induction p as [|c p IH]; intros rw Hok; simpl; [done|]. by apply IH, write_byte_ok. Qed.

Lemma write_discarding p rw : discarding rw = true → newline ∉ p → fold_left write_byte p rw = rw.
Proof.
  intros Hd. induction p as [|c p IH]; simpl; [done|]. intros [Hc Hp]%not_elem_of_cons.
  unfold write_byte at 2. rewrite Hd, decide_False by done. by apply IH.
Qed.
Lemma write_plain p w b :
  newline ∉ p → zlen b < maxRedactBuf →
  fold_left write_byte p (MkWriter w b false) =
  if (0 <? zlen p) && (maxRedactBuf - zlen b <=? zlen p)
  then MkWriter (append (bytes (Redact r oversizedRedactMarker)) w) [] true
  else MkWriter w (b ++ p)%list false.
Proof.
  revert b. induction p as [|c p IH]; intros b Hnl Hb; [by rewrite app_nil_r|].
  apply not_elem_of_cons in Hnl as [Hc Hp]. cbn [fold_left].
  unfold write_byte at 2. cbn [discarding buf rw_w]. rewrite decide_False by done.
  pose proof (zlen_nonneg p) as Hpos. rewrite zlen_cons.
  destruct (maxRedactBuf <=? zlen b + 1) eqn:Hfull; bool_to_prop.
  - rewrite write_discarding by done.
    rewrite (proj2 (Z.ltb_lt 0 _)), (proj2 (Z.leb_le _ _)) by lia. done.
  - assert (zlen (b ++ [c]) = zlen b + 1) as Hb' by (rewrite zlen_app; done).
    rewrite IH by (done || lia). rewrite Hb', <-app_assoc. cbn [app].
    rewrite (proj2 (Z.ltb_lt 0 (1 + zlen p))) by lia. rewrite andb_true_l.
    destruct (0 <? zlen p) eqn:E; bool_to_prop.
    + rewrite andb_true_l. replace (maxRedactBuf - (zlen b + 1) <=? zlen p) with (maxRedactBuf - zlen b <=? 1 + zlen p);
        [done|]. apply eq_true_iff_eq. rewrite !Z.leb_le. lia.
    + rewrite andb_false_l. rewrite (proj2 (Z.leb_gt _ _)) by lia. done.
Qed.

Context (Haccept : accepts append).

Lemma writeLocked_accepts rw data :
  writeLocked rw data = (MkWriter (append data (rw_w rw)) (buf rw) (discarding rw), None).
Proof. unfold writeLocked. rewrite Haccept. by rewrite Z.eqb_refl. Qed.

Lemma last_newline b : newline ∉ b → last_index_byte newline (b ++ [newline]) = Some (length b).
Proof.
  intros _. unfold last_index_byte. rewrite reverse_snoc. cbn [index_byte]. rewrite decide_True by done.
  simpl. f_equal. rewrite length_app. simpl. lia.
Qed.
Lemma emit_line w b :
  newline ∉ b →
  emitLocked r false (MkWriter w (b ++ [newline])%list false)
  = (MkWriter (append (bytes (Redact r (str (b ++ [newline])))) w) [] false, None).
Proof.
  intros Hb. unfold emitLocked. cbn [buf]. unfold emit_cut. rewrite last_newline by done.
  destruct (b ++ [newline])%list as [|x l] eqn:E; [by destruct b|]. rewrite <-E. cbn [Nat.eqb].
  assert (length (b ++ [newline]) = S (length b)) as Hl by (rewrite length_app; simpl; lia).
  rewrite take_ge, drop_ge by lia. by rewrite writeLocked_accepts.
Qed.

(** One turn of the loop is the fold over the bytes it consumes. *)
Lemma write_loop_bytewise fuel p rw :
  writer_ok rw → (length p < fuel)%nat → write_loop r fuel p rw = (fold_left write_byte p rw, None).
Proof.
  revert p rw. induction fuel as [|fuel IH]; intros p [w b d] Hok Hlen; [lia|]. cbn [write_loop].
  destruct p as [|c p0]; [done|]. set (p := c :: p0) in *. destruct Hok as [Hnl Hb].
  cbn [discarding buf rw_w] in *.
  destruct (index_byte newline p) as [i|] eqn:Hi.
  - apply index_byte_Some in Hi as (Hlook & Hbefore & Hp).
    assert (length (drop (S i) p) < fuel)%nat as Hfuel by (rewrite length_drop; simpl in *; lia).
    assert (fold_left write_byte p (MkWriter w b d)
            = fold_left write_byte (drop (S i) p) (write_byte (fold_left write_byte (take i p) (MkWriter w b d)) newline)) as ->.
    { rewrite Hp at 1. by rewrite fold_left_app. }
    destruct d.
    + rewrite IH by done. rewrite (write_discarding (take i p)) by done. unfold write_byte at 3.
      cbn [discarding buf rw_w]. by rewrite decide_True by done.
    + assert (zlen (take i p) = Z.of_nat i) as Hti.
      { unfold zlen. apply lookup_lt_Some in Hlook. rewrite length_take. lia. }
      rewrite (write_plain (take i p)) by done. rewrite Hti.
      destruct (maxRedactBuf <? zlen b + Z.of_nat i + 1) eqn:Hover; bool_to_prop.
      * unfold emitOversizedMarkerLocked. rewrite writeLocked_accepts. cbn [buf rw_w discarding].
        rewrite IH by (done || (split; [by apply not_elem_of_nil|done])).
        rewrite (proj2 (Z.ltb_lt 0 _)), (proj2 (Z.leb_le _ _)) by lia. cbn [andb].
        unfold write_byte at 3. cbn [discarding buf rw_w]. by rewrite decide_True by done.
      * replace ((0 <? Z.of_nat i) && (maxRedactBuf - zlen b <=? Z.of_nat i)) with false
          by (symmetry; apply andb_false_iff; right; apply Z.leb_gt; lia).
        rewrite (take_S_r p i newline), app_assoc by done. rewrite emit_line.
        2: { rewrite not_elem_of_app. done. }
        rewrite IH by (done || (split; [by apply not_elem_of_nil|done])).
        unfold write_byte at 3. cbn [discarding buf rw_w]. by rewrite decide_True by done.
  - apply index_byte_None in Hi. destruct d.
    + by rewrite write_discarding.
    + rewrite write_plain by done. assert (0 < zlen p) by (unfold p; rewrite zlen_cons; pose proof (zlen_nonneg p0); lia).
      rewrite (proj2 (Z.ltb_lt 0 _)), andb_true_l by done.
      destruct (_ <=? _); [|done]. unfold emitOversizedMarkerLocked. by rewrite writeLocked_accepts.
Qed.

Lemma Write_bytewise p rw :
  writer_ok rw → Write r p rw = (fold_left write_byte p rw, (zlen p, None)).
Proof. intros Hok. unfold Write. rewrite write_loop_bytewise by (done || lia). done. Qed.
End Bytewise.

Definition write_all {W} `{Sink W} (r : Redactor) (chunks : list (list ascii)) (rw : RedactingWriter W)
    : RedactingWriter W :=
  fold_left (λ rw p, (Write r p rw).1) chunks rw.

(** How a log line is cut into [Write] calls does not matter: with an
    underlying writer that accepts its input, any sequence of writes leaves
    the output and the buffer exactly as one write of the whole text does;
    every call reports its whole input as written; and the buffer stays below
    64 KiB without a line break in it. *)
Theorem Write_chunks {W} `{Sink W} r (append : list ascii → W → W) chunks (rw : RedactingWriter W) :
  accepts append → writer_ok rw →
  write_all r chunks rw = (Write r (concat chunks) rw).1 ∧
  (∀ p, (Write r p rw).2 = (zlen p, None)) ∧
  writer_ok (write_all r chunks rw).
Proof.
  intros Hacc Hok.
  assert (write_all r chunks rw = fold_left (write_byte r append) (concat chunks) rw) as Hall.
  { revert rw Hok. induction chunks as [|p chunks IH]; intros rw Hok; [done|]. unfold write_all. simpl.
    rewrite fold_left_app, (Write_bytewise r append Hacc p rw Hok). apply IH. by apply write_bytes_ok. }
  split_and!.
  - by rewrite Hall, (Write_bytewise r append Hacc).
  - intros p. by rewrite (Write_bytewise r append Hacc).
  - rewrite Hall. by apply write_bytes_ok.
Qed.

(** A writer that collects its output. *)
Definition collect : Sink (list ascii) := {| sink_Write data w := ((w ++ data)%list, (zlen data, None)) |}.
#[local] Existing Instance collect.
Lemma collect_accepts : accepts (λ data w, (w ++ data)%list).
Proof. done. Qed.

Lemma Write_chunks_witness :
  let r := NewRedactor ["abcd-efgh"] in
  let rw := NewRedactingWriter (W:=list ascii) [] in
  let chunks := [bytes "pw abcd-"; (bytes "efgh!" ++ [newline] ++ bytes "next")%list] in
  write_all r chunks rw = (Write r (concat chunks) rw).1 ∧
  rw_w (write_all r chunks rw) = (bytes "pw [REDACTED]!" ++ [newline])%list ∧
  writer_ok (write_all r chunks rw).
Proof.
  intros r rw chunks.
  assert (writer_ok rw) as Hok by (split; [apply not_elem_of_nil|reflexivity]).
  destruct (Write_chunks r (λ data w, (w ++ data)%list) chunks rw collect_accepts Hok) as (Heq & _ & Hok').
  split; [exact Heq|split; [vm_compute; reflexivity|exact Hok']].
Defined.

(** * No secret in the log *)

Lemma prefix_snoc_notin c (old l : list ascii) :
  c ∉ old → old `prefix_of` (l ++ [c])%list ↔ old `prefix_of` l.
Proof.
  intros Hc. split; [|by apply prefix_app_r]. intros [k Hk].
  destruct k as [|x k _] using rev_ind.
  - rewrite app_nil_r in Hk. subst old. rewrite not_elem_of_app, list_elem_of_singleton in Hc. naive_solver.
  - rewrite app_assoc in Hk. apply app_inj_tail in Hk as [-> _]. by exists k.
Qed.

Lemma replace_snoc c old new n1 n2 l :
  c ∉ old → old ≠ [] → (length l <= n1)%nat → (length l < n2)%nat →
  replace_fuel n2 old new (l ++ [c])%list = (replace_fuel n1 old new l ++ [c])%list.
Proof.
  intros Hc Hne.
  assert (has_prefix_b old [c] = false) as Hsingle.
  { apply not_true_iff_false. intros [k Hk]%has_prefix_b_spec.
    destruct old as [|d old]; [done|]. injection Hk as -> _. apply Hc. left. }
  revert n2 l. induction n1 as [|n1 IH]; intros [|n2] l Hn1 Hn2; try lia.
  - destruct l; [|simpl in Hn1; lia]. simpl. rewrite Hsingle. by destruct n2.
  - destruct l as [|x l]; simpl; [rewrite Hsingle; by destruct n2|].
    simpl in Hn1, Hn2.
      assert (has_prefix_b old (x :: l ++ [c]) = has_prefix_b old (x :: l)) as ->.
      { unfold has_prefix_b. apply bool_decide_ext. by apply (prefix_snoc_notin c old (x :: l)). }
      destruct (has_prefix_b old (x :: l)) eqn:Hpre.
      * apply has_prefix_b_spec in Hpre as [k Hk]. rewrite Hk.
        change (x :: l ++ [c])%list with ((x :: l) ++ [c])%list. rewrite Hk, <-app_assoc, !drop_app_length.
        assert (length (x :: l) = length old + length k)%nat as Hl by (by rewrite Hk, length_app).
        destruct old as [|d old]; [done|]. simpl in Hl.
        rewrite IH by lia. by rewrite app_assoc.
      * rewrite IH by lia. done.
Qed.

Lemma redact_one_line c secret l :
  c ∉ bytes secret → redact_one (str (l ++ [c])%list) secret = str (bytes (redact_one (str l) secret) ++ [c])%list.
Proof.
  intros Hc. unfold redact_one. case_decide as He; [by rewrite bytes_str|].
  unfold replace_all, replace_all_b. rewrite !bytes_str. f_equal. apply replace_snoc; [done| |lia|].
  - intros Hn. apply He. by apply bytes_inj.
  - rewrite length_app. simpl. lia.
Qed.
Lemma redact_pass_line c ss l :
  (∀ s, s ∈ ss → c ∉ bytes s) →
  fold_left redact_one ss (str (l ++ [c])%list) = str (bytes (fold_left redact_one ss (str l)) ++ [c])%list.
Proof.
  revert l. induction ss as [|s ss IH]; intros l Hc; simpl; [by rewrite bytes_str|].
  rewrite redact_one_line by (apply Hc; left). rewrite IH by (intros; apply Hc; by right). by rewrite str_bytes.
Qed.
Lemma Redact_line c r l :
  (∀ s, s ∈ secrets r → c ∉ bytes s) → Redact r (str (l ++ [c])%list) = str (bytes (Redact r (str l)) ++ [c])%list.
Proof.
  intros Hc. unfold Redact. generalize 32%nat as n. intros n. revert l.
  induction n as [|n IH]; intros l; cbn [redact_rounds]; [by rewrite bytes_str|].
  rewrite redact_pass_line by done. set (o := fold_left redact_one (secrets r) (str l)).
  destruct (decide (o = str l)) as [Ho|Ho].
  - rewrite decide_True; [done|]. by rewrite Ho, bytes_str.
  - rewrite decide_False.
    + rewrite <-(str_bytes o) at 2. by rewrite <-(IH (bytes o)).
    + intros He. apply Ho. apply (f_equal bytes) in He. rewrite !bytes_str in He.
      apply app_inj_tail in He as [He _]. apply bytes_inj. by rewrite bytes_str.
Qed.

(** The output so far: nothing, or whole lines. *)
Definition whole_lines (l : list ascii) : Prop := l = [] ∨ ∃ l', l = (l' ++ [newline])%list.

Lemma occurs_lines w a b :
  newline ∉ w → w ≠ [] → whole_lines a → occurs w (a ++ b)%list → occurs w a ∨ occurs w b.
Proof.
  intros Hnl Hne [->|[a' ->]]; [by right|]. rewrite <-app_assoc. intros (k1 & k2 & Heq). symmetry in Heq.
  apply app_eq_inv in Heq as [(k & -> & Hk)|(k & -> & Hk)].
  - destruct k as [|x k]; simpl in Hk.
    + destruct w as [|y w]; [done|]. injection Hk as <- _. exfalso. apply Hnl. left.
    + injection Hk as <- Hk. right. by exists k, k2.
  - apply app_eq_inv in Hk as [(k' & -> & Hk')|(k' & -> & Hk')].
    + destruct k' as [|x k']; simpl in Hk'.
      * left. exists k1, [newline]. by rewrite app_nil_r, <-app_assoc.
      * injection Hk' as <- _. exfalso. apply Hnl. apply elem_of_app. right. left.
    + left. exists k1, (k' ++ [newline])%list. by rewrite <-!app_assoc.
Qed.

Lemma eligible_line s : eligible s = true → newline ∉ bytes s.
Proof.
  unfold eligible. intros [_ Hs%negb_true_iff]%andb_prop Hin. rewrite contains_any_false in Hs.
  apply (Hs newline Hin). left.
Qed.

(** One redacted line appended to clean output. *)
Definition clean_output (w out : list ascii) : Prop := whole_lines out ∧ ¬ occurs w out.
Lemma clean_append r secret l out :
  (∀ s, s ∈ secrets r → newline ∉ bytes s) → secret ∈ secrets r → inert_bytes (bytes secret) →
  clean_output (bytes secret) out →
  clean_output (bytes secret) (out ++ bytes (Redact r (str (l ++ [newline])%list))).
Proof.
  intros Hss Hin Hs [Hlines Hno]. split.
  - right. rewrite Redact_line by done. rewrite bytes_str, app_assoc. eauto.
  - intros [Hocc|Hocc]%occurs_lines; [by apply Hno|by apply Redact_clean in Hocc|by apply Hss|by destruct Hs|done].
Qed.

(** (C14) No credential reaches the log: whatever is written, in whatever
    pieces, the output consists of whole lines and does not contain any
    registered secret (of at least four bytes, on one line, without bracket or
    asterisk, and not a part of the word REDACTED itself), not even across line
    boundaries. *)
Theorem log_stream_clean known secret chunks :
  secret ∈ known → eligible secret = true → inert_bytes (bytes secret) →
  let out := rw_w (write_all (NewRedactor known) chunks (NewRedactingWriter [])) in
  whole_lines out ∧ contains (str out) secret = false.
Proof.
  intros Hknown Hel Hin. set (r := NewRedactor known). cbv zeta.
  assert (∀ s, s ∈ secrets r → newline ∉ bytes s) as Hss
    by (intros s [_ Hs]%NewRedactor_secrets; by apply eligible_line).
  assert (secret ∈ secrets r) as Hsec by (by apply NewRedactor_secrets).
  set (append := λ data w : list ascii, (w ++ data)%list).
  assert (∀ p rw, clean_output (bytes secret) (rw_w rw) →
            clean_output (bytes secret) (rw_w (fold_left (write_byte r append) p rw))) as Hfold.
  { induction p as [|c p IH]; intros rw Hc; [done|]. cbn [fold_left]. apply IH.
    unfold write_byte. destruct (discarding rw); [by case_decide|].
    case_decide as Hnl; [subst c; by apply clean_append|].
    destruct (_ <=? _); [|done]. cbn [rw_w]. unfold append.
    change oversizedRedactMarker with (str (bytes "[REDACTED: oversized record truncated]" ++ [newline])%list).
    by apply clean_append. }
  assert (∀ rw, writer_ok rw → clean_output (bytes secret) (rw_w rw) →
            clean_output (bytes secret) (rw_w (write_all r chunks rw))) as Hall.
  { induction chunks as [|p ps IH]; intros rw Hok Hc; [done|]. unfold write_all. cbn [fold_left].
    rewrite (Write_bytewise r append collect_accepts p rw Hok). apply IH; [by apply write_bytes_ok|by apply Hfold]. }
  destruct (Hall (NewRedactingWriter [])) as [Hlines Hno].
  - split; [by apply not_elem_of_nil|done].
  - split; [by left|]. intros Hocc%occurs_nil. by destruct Hin.
  - split; [done|]. unfold contains. rewrite bytes_str. apply contains_b_false. intros k1 k2 Heq.
    apply Hno. by exists k1, k2.
Qed.
Lemma log_stream_clean_witness :
  let out := rw_w (write_all (NewRedactor ["abcd-efgh"]) [bytes "pw abcd-"; (bytes "efgh!" ++ [newline])%list]
                     (NewRedactingWriter [])) in
  out = (bytes "pw [REDACTED]!" ++ [newline])%list ∧ contains (str out) "abcd-efgh" = false.
Proof.
  intros out. split; [vm_compute; reflexivity|].
  apply (log_stream_clean ["abcd-efgh"] "abcd-efgh"); [left|vm_compute; reflexivity|].
  apply inert_by_running. vm_compute. reflexivity.
Defined.
