(* ===== verification/CalTypes.v ===== *)
(** Calendar data (src/internal/icloud/service.go, eventvalidate.go): events,
    calendars, search results, the inputs of a mutation, and the [Service]
    interface between the tool handlers and the client. *)
From S2P Require Import Prelude GoStrings GoTime CalErrors.

Inductive MutationScope : Set := ScopeSeries | ScopeOccurrence.
#[export] Instance MutationScope_eq_dec : EqDecision MutationScope.
Proof. solve_decision. Defined.

Record Calendar := MkCalendar {
  CalPath : string;
  CalName : string;
  CalDescription : string;
  CalColor : string;
}.

(** [icloud.Event].  [StartTime]/[EndTime]/[RecurrenceID] are [time.Time]
    values: instants with the location they display in. *)
Record Event := MkEvent {
  UID : string;
  Path : string;
  EvCalendar : string;
  Title : string;
  EvLocation : string;
  Notes : string;
  StartTime : gtime;
  EndTime : gtime;
  AllDay : bool;
  Recurrence : string;
  Timezone : string;
  EvStatus : string;
  Transp : string;
  URL : string;
  ETag : string;
  RecurrenceID : gtime;
  IsOverride : bool;
  exDates : list gtime;
  hasNominalDuration : bool;
  nominalDurationDays : Z;
  nominalDurationRemainder : Z;
}.

Definition set_calendar (p : string) (e : Event) : Event :=
  MkEvent (UID e) (Path e) p (Title e) (EvLocation e) (Notes e) (StartTime e) (EndTime e)
    (AllDay e) (Recurrence e) (Timezone e) (EvStatus e) (Transp e) (URL e) (ETag e)
    (RecurrenceID e) (IsOverride e) (exDates e) (hasNominalDuration e)
    (nominalDurationDays e) (nominalDurationRemainder e).

Record SearchOptions := MkSearchOptions { ExpandRecurrence : bool }.
Definition DefaultSearchOptions : SearchOptions := {| ExpandRecurrence := true |}.

Record SearchResult := MkSearchResult {
  Events : list Event;
  TruncatedByExpansion : bool;
}.

(** An event with only the fields the availability code reads. *)
Definition bare_event (uid : string) (s e : gtime) (allday : bool) (status transp : string) : Event :=
  MkEvent uid "" "" "" "" "" s e allday "" "" status transp "" ""
    (GTime zero_time UTC) false [] false 0 0.

(** A VALARM as shown to the caller, and as asked for on creation. *)
Record AlarmInfo := MkAlarmInfo { AiAction : string; AiTrigger : string; AiMinutesBefore : Z }.
Record AlarmSpec := MkAlarmSpec { MinutesBefore : Z; AlarmDisable : bool }.

(** One RECURRENCE-ID exception of a series. *)
Record OccurrenceRef := MkOccurrenceRef {
  OrRecurrenceID : gtime;
  OrStartTime : gtime;
  OrEndTime : gtime;
  OrTitle : string;
  OrIsOverride : bool;
}.

Record EventDetail := MkEventDetail {
  DetailEvent : Event;
  DetailAlarms : list AlarmInfo;
  IsRecurring : bool;
  OverrideCount : Z;
  Overrides : list OccurrenceRef;
  OverridesTruncated : bool;
  DetailWarnings : list string;
}.

Record NewEvent := MkNewEvent {
  NewTitle : string; NewLocation : string; NewNotes : string;
  NewStartTime : gtime; NewEndTime : gtime;
  AlarmMinutesBefore : Z;
  NewAllDay : bool;
  NewRecurrence : string;
  NewTimezone : string;
  NewStatus : string;
  NewTransparency : string;
  NewURL : string;
  NewAlarms : list AlarmSpec;
  NewExDates : list gtime;
  ClientUID : string;
}.

(** Pointers are [option]s: [None] leaves the field unchanged. *)
Record EventUpdate := MkEventUpdate {
  UpTitle : option string; UpLocation : option string; UpNotes : option string;
  UpStartTime : option gtime; UpEndTime : option gtime;
  UpStatus : option string;
  UpTransparency : option string;
  UpURL : option string;
  UpScope : MutationScope;
  UpRecurrenceID : option gtime;
  UpIfMatchETag : string;
}.

Record DeleteOptions := MkDeleteOptions {
  DelScope : MutationScope;
  DelRecurrenceID : option gtime;
  DelIfMatchETag : string;
  DryRun : bool;
}.
Record DeleteResult := MkDeleteResult {
  DeletedTitle : string;
  DeletedDryRun : bool;
  DeletedUID : string;
  DeletedScope : string;
  WouldMutate : bool;
}.

(** The interface [icloud.Service]: the handlers call it, the CalDAV client
    and [GuardedService] implement it.  Every call acts on the outside state
    [W]; Go returns a value together with the error. *)
Class Service (W : Type) := {
  ListCalendars : W → W * (list Calendar * option error);
  SearchEvents (calendarPath : string) (start end_ : gtime) (opts : option SearchOptions) :
    W → W * (SearchResult * option error);
  GetEvent (calendarPath uid : string) : W → W * (option EventDetail * option error);
  CreateEvent (calendarPath : string) (ev : NewEvent) : W → W * (string * option error);
  UpdateEvent (calendarPath uid : string) (up : EventUpdate) : W → W * option error;
  DeleteEvent (calendarPath uid : string) (opts : option DeleteOptions) :
    W → W * (DeleteResult * option error);
}.
Definition no_results : SearchResult := MkSearchResult [] false.
Definition no_deletion : DeleteResult := MkDeleteResult "" false "" "" false.
