(* ===== verification/TimePolicy.v ===== *)
(** Dates at the tool boundary (src/internal/icloud/timepolicy.go and the
    parsing half of validation.go): Go's layouts
    ["2006-01-02T15:04:05Z07:00"], ["2006-01-02T15:04:05"] and ["2006-01-02"]
    read and written byte by byte, and the policy built on them. *)
From S2P Require Import Prelude GoStrings GoTime CalErrors.

Definition ResolveLocation (loc : option Location) : Location := default UTC loc.

(** * Formatting *)

(** The [w] low decimal digits of [z]. *)
Fixpoint digits (w : nat) (z : Z) : list ascii :=
  match w with O => [] | S w => (digits w (z / 10) ++ [byte_of (48 + z mod 10)])%list end.
(** [time.appendInt]. *)
Definition append_int (z : Z) (w : nat) : list ascii :=
  let u := Z.abs z in
  ((if z <? 0 then ["-"%char] else []) ++
   (if u <? 10 ^ Z.of_nat w then digits w u else bytes (fmt_int u)))%list.

Definition format_date (c : civil) : list ascii :=
  (append_int (cyear c) 4 ++ ["-"%char] ++ append_int (cmonth c) 2 ++ ["-"%char] ++ append_int (cday c) 2)%list.
(** The clock of [secs], seconds since midnight. *)
Definition format_clock (secs : Z) : list ascii :=
  (append_int (secs / 3600) 2 ++ [":"%char] ++ append_int (secs / 60 mod 60) 2 ++ [":"%char]
   ++ append_int (secs mod 60) 2)%list.
(** ["-07:00"]: Go divides the offset by 60 rounding towards zero. *)
Definition format_offset (off : Z) : list ascii :=
  let zone := Z.quot off 60 in
  ((if zone <? 0 then ["-"%char] else ["+"%char]) ++ append_int (Z.abs zone / 60) 2 ++ [":"%char]
   ++ append_int (Z.abs zone mod 60) 2)%list.
Definition format_wall (loc : Location) (t : Z) : list ascii :=
  (format_date (local_civil loc t) ++ ["T"%char] ++ format_clock (local_secs loc t mod day_secs))%list.
(** The offset in force at an instant. *)
Definition offset_at (loc : Location) (t : Z) : Z := zoffset (loc_lookup loc (t / second)).
(** [t.Format(time.RFC3339)]: ["Z"] for a zero offset. *)
Definition format_rfc3339 (t : gtime) : string :=
  let off := offset_at (tzone t) (instant t) in
  str (format_wall (tzone t) (instant t) ++ (if off =? 0 then ["Z"%char] else format_offset off)).

Definition FormatEventTime (t : gtime) (allDay : bool) (loc : option Location) : string :=
  if is_zero (instant t) then ""
  else if allDay then str (format_date (local_civil UTC (instant t)))
  else
    let loc := ResolveLocation loc in
    str (format_wall loc (instant t) ++ format_offset (offset_at loc (instant t))).

(** * Parsing *)

(** [getnum]: two digits, or one when the layout allows it. *)
Definition getnum (fixed : bool) (l : list ascii) : option (Z * list ascii) :=
  match l with
  | c1 :: l1 =>
      if is_digit c1 then
        match l1 with
        | c2 :: l2 =>
            if is_digit c2 then Some (10 * digit_val c1 + digit_val c2, l2)
            else if fixed then None else Some (digit_val c1, l1)
        | [] => if fixed then None else Some (digit_val c1, [])
        end
      else None
  | [] => None
  end.
Definition expect (c : ascii) (l : list ascii) : option (list ascii) :=
  match l with c' :: l => if decide (c' = c) then Some l else None | [] => None end.
Definition in_range (lo hi z : Z) : option unit := if (lo <=? z) && (z <=? hi) then Some tt else None.

Definition is_leap (y : Z) : bool := (y mod 4 =? 0) && (negb (y mod 100 =? 0) || (y mod 400 =? 0)).
Definition days_in (m y : Z) : Z :=
  if m =? 2 then (if is_leap y then 29 else 28)
  else if (m =? 4) || (m =? 6) || (m =? 9) || (m =? 11) then 30 else 31.

(** ["2006-01-02"]; the day is checked against the month. *)
Definition parse_date (l : list ascii) : option (civil * list ascii) :=
  match l with
  | y1 :: y2 :: y3 :: y4 :: l =>
      y ← parse_digits [y1; y2; y3; y4];
      l ← expect "-" l;
      '(m, l) ← getnum true l;
      in_range 1 12 m;;
      l ← expect "-" l;
      '(d, l) ← getnum true l;
      in_range 1 (days_in m y) d;;
      Some (Civil y m d, l)
  | _ => None
  end.

(** A fraction the layout does not mention may still follow the seconds;
    digits after the ninth are dropped. *)
Fixpoint take_digits (l : list ascii) : list ascii * list ascii :=
  match l with
  | c :: l' => if is_digit c then let '(ds, r) := take_digits l' in (c :: ds, r) else ([], l)
  | [] => ([], [])
  end.
Definition parse_fraction (l : list ascii) : Z * list ascii :=
  match l with
  | c :: l' =>
      if bool_decide (c = "."%char ∨ c = ","%char) then
        match take_digits l' with
        | ([], _) => (0, l)
        | (ds, r) => let ds := take 9 ds in
                     (default 0 (parse_digits ds) * 10 ^ (9 - zlen ds), r)
        end
      else (0, l)
  | [] => (0, [])
  end.

(** ["15:04:05"] with its fraction: seconds since midnight, nanoseconds. *)
Definition parse_clock (l : list ascii) : option (Z * Z * list ascii) :=
  '(h, l) ← getnum false l;
  in_range 0 23 h;;
  l ← expect ":" l;
  '(mi, l) ← getnum true l;
  in_range 0 59 mi;;
  l ← expect ":" l;
  '(s, l) ← getnum true l;
  in_range 0 59 s;;
  let '(ns, l) := parse_fraction l in
  Some (h * 3600 + mi * 60 + s, ns, l).

(** ["Z07:00"], to the end of the input; offsets of 24 hours and of 60 minutes
    pass. *)
Definition parse_zone (l : list ascii) : option Z :=
  match l with
  | ["Z"%char] => Some 0
  | sign :: l =>
      neg ← (if decide (sign = "+"%char) then Some false
             else if decide (sign = "-"%char) then Some true else None);
      '(h, l) ← getnum true l;
      l ← expect ":" l;
      '(m, l) ← getnum true l;
      in_range 0 24 h;;
      in_range 0 60 m;;
      match l with
      | [] => let off := (h * 60 + m) * 60 in Some (if neg : bool then - off else off)
      | _ => None
      end
  | [] => None
  end.

(** Seconds of a wall clock as if it were UTC. *)
Definition wall_secs (c : civil) (clock : Z) : Z := days_from_civil (cyear c) (cmonth c) (cday c) * day_secs + clock.

(** [time.Parse(time.RFC3339, value)]. *)
Definition parse_rfc3339 (value : string) : option gtime :=
  '(c, l) ← parse_date (bytes value);
  l ← expect "T" l;
  '(clock, ns, l) ← parse_clock l;
  off ← parse_zone l;
  Some (GTime (second * (wall_secs c clock - off) + ns) (if off =? 0 then UTC else fixed_zone "" off)).
(** [time.ParseInLocation("2006-01-02T15:04:05", value, loc)]. *)
Definition parse_naive (value : string) (loc : Location) : option gtime :=
  '(c, l) ← parse_date (bytes value);
  l ← expect "T" l;
  '(clock, ns, l) ← parse_clock l;
  match l with
  | [] => Some (GTime (second * zone_adjust loc (wall_secs c clock) + ns) loc)
  | _ => None
  end.
(** [time.ParseInLocation("2006-01-02", value, time.UTC)]. *)
Definition parse_day (value : string) : option gtime :=
  '(c, l) ← parse_date (bytes value);
  match l with [] => Some (GTime (second * wall_secs c 0) UTC) | _ => None end.

Definition ParseDateTime (name value : string) (defaultLoc : option Location) : result error gtime :=
  match parse_rfc3339 value with
  | Some t => Ok t
  | None =>
      let loc := default UTC defaultLoc in
      match parse_naive value loc with
      | Some t => Ok t
      | None => Err (Plain ("invalid " ++ name ++
          ": expected RFC3339 with an explicit offset (e.g. 2026-07-01T14:00:00+02:00, or ...Z for UTC) or a local time with no offset (e.g. 2026-07-01T14:00:00), interpreted as "
          ++ loc_name loc))
      end
  end.

Definition ParseOptionalDateTime (name value : string) (defaultLoc : option Location) : result error gtime :=
  if decide (trim_space value = "") then Ok (GTime zero_time UTC) else ParseDateTime name value defaultLoc.

Definition ParseRecurrenceID (name value : string) (defaultLoc : option Location) : result error gtime :=
  let value := trim_space value in
  if decide (value = "") then Err (Plain ("invalid " ++ name ++ ": empty"))
  else match (if len value =? 10 then parse_day value else None) with
       | Some t => Ok t
       | None => ParseDateTime name value defaultLoc
       end.

(** [NormalizeAllDayBounds]: the dates are read in each time's own location. *)
Definition NormalizeAllDayBounds (start end_ : gtime) : gtime * gtime :=
  let day (t : gtime) := second * (local_day (tzone t) (instant t) * day_secs) in
  let startDay := day start in
  let endDay := day end_ in
  let endDay := if startDay <? endDay then endDay else startDay + 24 * hour in
  (GTime startDay UTC, GTime endDay UTC).

(** [AmbiguousDSTWarning]. *)
Definition AmbiguousDSTWarning (t : gtime) (loc : option Location) : string :=
  match loc with
  | None => ""
  | Some loc =>
      if is_zero (instant t) || bool_decide (loc_name loc = "UTC") then ""
      else
        let wall := str (format_wall loc (instant t)) in
        match parse_naive wall loc with
        | None => "time " ++ wall ++ " may be invalid in " ++ loc_name loc
        | Some again =>
            if negb (instant again =? instant t)
            then "time " ++ wall ++ " may be ambiguous or nonexistent around a DST transition in " ++ loc_name loc
            else ""
        end
  end.

(** * Writing and reading back *)

#[local] Ltac Zify.zify_post_hook ::= Z.to_euclidean_division_equations.

Lemma digit_byte n : 0 <= n < 10 → is_digit (byte_of (48 + n)) = true ∧ digit_val (byte_of (48 + n)) = n.
Proof.
  intros Hn. unfold is_digit, digit_val. rewrite byte_val_of by lia.
  split; [apply andb_true_intro; rewrite !Z.leb_le; lia|lia].
Qed.

Lemma append_two z : 0 <= z < 100 → append_int z 2 = [byte_of (48 + z / 10); byte_of (48 + z mod 10)].
Proof.
  intros Hz. unfold append_int. rewrite (Z.abs_eq z), (proj2 (Z.ltb_ge z 0)) by lia.
  change (10 ^ Z.of_nat 2) with 100. rewrite (proj2 (Z.ltb_lt z _)) by lia. cbn [digits app].
  by rewrite (Z.mod_small (z / 10) 10) by lia.
Qed.
Lemma append_four z : 0 <= z < 10000 →
  append_int z 4 = [byte_of (48 + z / 1000); byte_of (48 + z / 100 mod 10); byte_of (48 + z / 10 mod 10); byte_of (48 + z mod 10)].
Proof.
  intros Hz. unfold append_int. rewrite (Z.abs_eq z), (proj2 (Z.ltb_ge z 0)) by lia.
  change (10 ^ Z.of_nat 4) with 10000. rewrite (proj2 (Z.ltb_lt z _)) by lia. cbn [digits app].
  replace (z / 10 / 10 / 10) with (z / 1000) by lia. replace (z / 10 / 10) with (z / 100) by lia.
  by rewrite (Z.mod_small (z / 1000) 10) by lia.
Qed.

Lemma getnum_append fixed z l : 0 <= z < 100 → getnum fixed (append_int z 2 ++ l) = Some (z, l).
Proof.
  intros Hz. rewrite append_two by done. unfold getnum. simpl.
  destruct (digit_byte (z / 10) ltac:(lia)) as [-> ->], (digit_byte (z mod 10) ltac:(lia)) as [-> ->].
  by replace (10 * (z / 10) + z mod 10) with z by lia.
Qed.

Lemma in_range_true lo hi z : lo <= z <= hi → in_range lo hi z = Some tt.
Proof. intros Hz. unfold in_range. by rewrite (proj2 (Z.leb_le lo z)), (proj2 (Z.leb_le z hi)) by lia. Qed.

Lemma parse_date_format c l :
  0 <= cyear c <= 9999 → 1 <= cmonth c <= 12 → 1 <= cday c <= days_in (cmonth c) (cyear c) →
  parse_date (format_date c ++ l) = Some (c, l).
Proof.
  destruct c as [y m d]; cbn [cyear cmonth cday]. intros Hy Hm Hd.
  assert (d <= 31) by (unfold days_in in Hd; repeat case_match; lia).
  unfold format_date; cbn [cyear cmonth cday]. rewrite append_four by lia. rewrite <-!app_assoc. cbn [app parse_date].
  assert (parse_digits [byte_of (48 + y / 1000); byte_of (48 + y / 100 mod 10); byte_of (48 + y / 10 mod 10);
                        byte_of (48 + y mod 10)] = Some y) as ->.
  { unfold parse_digits. cbn [forallb fold_left].
    destruct (digit_byte (y / 1000) ltac:(lia)) as [-> ->], (digit_byte (y / 100 mod 10) ltac:(lia)) as [-> ->],
      (digit_byte (y / 10 mod 10) ltac:(lia)) as [-> ->], (digit_byte (y mod 10) ltac:(lia)) as [-> ->].
    simpl. f_equal. lia. }
  cbn [mbind option_bind expect]. rewrite decide_True by done. cbn [mbind option_bind].
  rewrite getnum_append by lia. cbn [mbind option_bind].
  rewrite in_range_true by lia. cbn [mbind option_bind expect app].
  rewrite decide_True by done. cbn [mbind option_bind].
  rewrite getnum_append by lia. cbn [mbind option_bind].
  by rewrite in_range_true by lia.
Qed.

Lemma parse_clock_format secs l :
  0 <= secs < day_secs → parse_fraction l = (0, l) →
  parse_clock (format_clock secs ++ l) = Some (secs, 0, l).
Proof.
  intros Hs Hl. unfold day_secs in Hs. unfold format_clock. rewrite <-!app_assoc. unfold parse_clock.
  rewrite getnum_append by lia. cbn [mbind option_bind]. rewrite in_range_true by lia.
  cbn [mbind option_bind expect app]. rewrite decide_True by done. cbn [mbind option_bind].
  rewrite getnum_append by lia. cbn [mbind option_bind]. rewrite in_range_true by lia.
  cbn [mbind option_bind expect app]. rewrite decide_True by done. cbn [mbind option_bind].
  rewrite getnum_append by lia. cbn [mbind option_bind]. rewrite in_range_true by lia.
  cbn [mbind option_bind]. rewrite Hl. do 3 f_equal. lia.
Qed.

Lemma format_offset_head off : ∃ c l, format_offset off = c :: l ∧ (c = "+"%char ∨ c = "-"%char).
Proof. unfold format_offset. destruct (_ <? 0); simpl; eauto. Qed.

Lemma parse_zone_format off :
  off mod 60 = 0 → Z.abs off <= 24 * 3600 → parse_zone (format_offset off) = Some off.
Proof.
  intros Hmod Habs. unfold format_offset.
  assert (Z.quot off 60 = off / 60) as -> by lia.
  destruct (off / 60 <? 0) eqn:Hneg; bool_to_prop; cbn [app parse_zone mbind option_bind].
  - rewrite decide_False, decide_True by done. cbn [mbind option_bind].
    rewrite getnum_append by lia. cbn [mbind option_bind expect app]. rewrite decide_True by done.
    cbn [mbind option_bind]. rewrite <-(app_nil_r (append_int (Z.abs (off / 60) mod 60) 2)), getnum_append by lia.
    cbn [mbind option_bind]. rewrite !in_range_true by lia. cbn [mbind option_bind]. f_equal. lia.
  - rewrite decide_True by done. cbn [mbind option_bind].
    rewrite getnum_append by lia. cbn [mbind option_bind expect app]. rewrite decide_True by done.
    cbn [mbind option_bind]. rewrite <-(app_nil_r (append_int (Z.abs (off / 60) mod 60) 2)), getnum_append by lia.
    cbn [mbind option_bind]. rewrite !in_range_true by lia. cbn [mbind option_bind]. f_equal. lia.
Qed.

Definition doe_day_ok (doe : Z) : bool :=
  let c := civil_of_doe doe in
  (1 <=? cmonth c) && (cmonth c <=? 12) && (1 <=? cday c) && (cday c <=? days_in (cmonth c) (cyear c)).
Lemma doe_day_all_ok : check_range doe_day_ok 0 146097 = true.
Proof. vm_compute. reflexivity. Qed.

Lemma days_in_era m y k : days_in m (y + 400 * k) = days_in m y.
Proof.
  unfold days_in, is_leap.
  replace ((y + 400 * k) mod 4) with (y mod 4) by lia.
  replace ((y + 400 * k) mod 100) with (y mod 100) by lia.
  by replace ((y + 400 * k) mod 400) with (y mod 400) by lia.
Qed.

(** The date of any day is a date the parser accepts. *)
Lemma civil_from_days_valid z :
  let c := civil_from_days z in 1 <= cmonth c <= 12 ∧ 1 <= cday c <= days_in (cmonth c) (cyear c).
Proof.
  unfold civil_from_days. cbv zeta. cbn [cyear cmonth cday]. rewrite days_in_era.
  pose proof (check_range_spec _ _ _ doe_day_all_ok ((z + 719468) mod 146097) ltac:(lia)) as Hok.
  unfold doe_day_ok in Hok. cbv zeta in Hok. bool_to_prop. lia.
Qed.

(** (C39) What the tools print can be given back to them.  A timed event, in
    any zone whose offset is a whole number of minutes (at most 24 hours) and
    any year from 0 to 9999, reads back as the same instant, cut to the second;
    an all-day date reads back, as a recurrence id, as midnight UTC of the
    same day. *)
Theorem FormatEventTime_roundtrip name t loc defaultLoc :
  is_zero (instant t) = false →
  (0 <= cyear (local_civil (ResolveLocation loc) (instant t)) <= 9999 →
   offset_at (ResolveLocation loc) (instant t) mod 60 = 0 →
   Z.abs (offset_at (ResolveLocation loc) (instant t)) <= 24 * 3600 →
   ∃ u, ParseDateTime name (FormatEventTime t false loc) defaultLoc = Ok u ∧
        instant u = instant t - instant t mod second) ∧
  (0 <= cyear (local_civil UTC (instant t)) <= 9999 →
   ParseRecurrenceID name (FormatEventTime t true loc) defaultLoc
   = Ok (GTime (instant t - instant t mod (24 * hour)) UTC)).
Proof.
  intros Hz. unfold FormatEventTime. rewrite Hz. split.
  - set (L := ResolveLocation loc). intros Hy Hmod Habs. unfold ParseDateTime, parse_rfc3339.
    rewrite bytes_str. unfold format_wall. rewrite <-!app_assoc.
    destruct (civil_from_days_valid (local_day L (instant t))) as [Hm Hd].
    rewrite parse_date_format by done. cbn [mbind option_bind expect app]. rewrite decide_True by done.
    cbn [mbind option_bind]. rewrite parse_clock_format.
    2: { unfold day_secs. lia. }
    2: { destruct (format_offset_head (offset_at L (instant t))) as (c & l & -> & [-> | ->]); done. }
    cbn [mbind option_bind]. rewrite parse_zone_format by done. cbn [mbind option_bind].
    eexists. split; [done|]. cbn [instant]. unfold wall_secs, local_civil.
    pose proof (civil_roundtrip (local_day L (instant t))) as Hr. cbv zeta in Hr. rewrite Hr.
    unfold local_day, day_secs, local_secs, offset_at, second. lia.
  - intros Hy. destruct (civil_from_days_valid (local_day UTC (instant t))) as [Hm Hd].
    set (c := local_civil UTC (instant t)) in *. change (civil_from_days _) with c in Hm, Hd.
    assert (cday c <= 31) by (unfold days_in in Hd; repeat case_match; lia).
    unfold ParseRecurrenceID.
    assert (∃ a b d, format_date c = byte_of (48 + cyear c / 1000) :: a ++ [b; d; byte_of (48 + cday c mod 10)]
             ∧ length a = 6%nat)%list as (a & b & d & Hfmt & Hlen).
    { unfold format_date. rewrite append_four, !append_two by lia. cbn [app].
      eexists [_; _; _; _; _; _], _, _. split; reflexivity. }
    assert (∀ n, 0 <= n < 10 → graphic (byte_of (48 + n)) = true) as Hg.
    { intros n Hn. unfold graphic. rewrite byte_val_of by lia. apply andb_true_intro. rewrite !Z.leb_le. lia. }
    rewrite trim_space_solid.
    2: { rewrite bytes_str, Hfmt. unfold solid. cbn [starts_graphic]. rewrite Hg by lia. simpl.
         rewrite reverse_cons, reverse_app. simpl. apply Hg. lia. }
    rewrite decide_False.
    2: { intros He. apply (f_equal bytes) in He. rewrite bytes_str, Hfmt in He. done. }
    rewrite (proj2 (Z.eqb_eq _ 10)).
    2: { unfold len. rewrite bytes_str, Hfmt. unfold zlen. simpl. rewrite length_app, Hlen. done. }
    unfold parse_day. rewrite bytes_str, <-(app_nil_r (format_date c)), parse_date_format by done.
    cbn [mbind option_bind]. do 2 f_equal. unfold wall_secs, c, local_civil.
    pose proof (civil_roundtrip (local_day UTC (instant t))) as Hr. cbv zeta in Hr. rewrite Hr.
    unfold local_day, day_secs, local_secs, second, hour, minute, second. cbn [UTC loc_lookup utc_zone zoffset]. lia.
Qed.

Lemma FormatEventTime_roundtrip_witness :
  let t := GTime (1782907200 * second + 5) UTC in
  let paris := Some (fixed_zone "Europe/Paris" 7200) in
  FormatEventTime t false paris = "2026-07-01T14:00:00+02:00" ∧
  (∃ u, ParseDateTime "start" (FormatEventTime t false paris) None = Ok u ∧
        instant u = instant t - instant t mod second) ∧
  ParseRecurrenceID "recurrence_id" (FormatEventTime t true paris) None
  = Ok (GTime (instant t - instant t mod (24 * hour)) UTC).
Proof.
  intros t paris. split; [vm_compute; reflexivity|].
  assert (is_zero (instant t) = false) as Hz by (vm_compute; reflexivity).
  destruct (FormatEventTime_roundtrip "start" t paris None Hz) as [Htimed _].
  destruct (FormatEventTime_roundtrip "recurrence_id" t paris None Hz) as [_ Hday].
  split.
  - apply Htimed; vm_compute; [split; discriminate|reflexivity|discriminate].
  - apply Hday. vm_compute. split; discriminate.
Defined.
