(* ===== verification/FreeSlots.v ===== *)
(** Free-slot search (src/internal/icloud/freeslots.go): busy intervals from
    events, their union, its complement in a range, the working-hours filter
    and the greedy placement of slots.  Interval bounds are instants: the code
    never reads the location of a bound without converting it first. *)
From S2P Require Import Prelude GoStrings GoTime CalErrors CalTypes TimePolicy.

(** [Interval], half open. *)
Record Interval := Itv { Start : Z; End : Z }.
#[export] Instance Interval_eq_dec : EqDecision Interval.
Proof. solve_decision. Defined.

Record FreeSlotOptions := MkOpts {
  RangeStart : Z;
  RangeEnd : Z;
  Duration : Z;
  OptLocation : option Location;
  WorkingHourStart : Z;
  WorkingHourEnd : Z;
  DaysOfWeek : list Z;
  BufferBefore : Z;
  BufferAfter : Z;
  IncludeAllDayBusy : bool;
  Limit : Z;
}.


(** * Busy intervals *)

Definition isTransparentOrCancelled (e : Event) : bool :=
  equal_fold (EvStatus e) "CANCELLED" || equal_fold (Transp e) "TRANSPARENT".

(** [time.Date(t.Year(), t.Month(), t.Day(), 0, 0, 0, 0, loc)]: the date is
    read in the location of [t]. *)
Definition date_in (t : gtime) (loc : Location) : Z :=
  let c := local_civil (tzone t) (instant t) in
  go_date (cyear c) (cmonth c) (cday c) 0 0 0 loc.

(** One iteration of the loop of [BusyFromEvents]: [None] is [continue]. *)
Definition busy_of_event (includeAllDay : bool) (before after : Z) (loc : Location) (e : Event)
    : option Interval :=
  if isTransparentOrCancelled e then None
  else if AllDay e && negb includeAllDay then None
  else
    let start := if AllDay e then date_in (StartTime e) loc else instant (StartTime e) in
    let end_ := if AllDay e then date_in (EndTime e) loc else instant (EndTime e) in
    let start := start - before in
    let end_ := end_ + after in
    if negb (start <? end_) then None else Some (Itv start end_).

Definition BusyFromEvents (events : list Event) (includeAllDay : bool) (before after : Z)
    (loc : option Location) : list Interval :=
  omap (busy_of_event includeAllDay before after (default UTC loc)) events.

(** * Union of intervals *)

(** The comparison of the [sort.Slice] call, as [<=]. *)
Definition itv_le (a b : Interval) : Prop :=
  Start a < Start b ∨ (Start a = Start b ∧ End a <= End b).
#[export] Instance itv_le_dec : RelDecision itv_le.
Proof. unfold itv_le. intros a b. apply _. Defined.

(** The merge loop: [last] is [out[len(out)-1]], the intervals before it are
    already final. *)
Fixpoint merge_loop (last : Interval) (rest : list Interval) : list Interval :=
  match rest with
  | [] => [last]
  | cur :: rest =>
      if negb (End last <? Start cur) then
        merge_loop (if End last <? End cur then Itv (Start last) (End cur) else last) rest
      else last :: merge_loop cur rest
  end.

Definition MergeIntervals (ins : list Interval) : list Interval :=
  match merge_sort itv_le ins with
  | [] => []
  | first :: rest => merge_loop first rest
  end.

(** * Complement in a range *)
Fixpoint invert_loop (rs re cursor : Z) (busy : list Interval) : list Interval :=
  match busy with
  | [] => if cursor <? re then [Itv cursor re] else []
  | b :: busy =>
      let bs := Start b in
      let be := End b in
      if (be <? rs) || negb (rs <? be) then invert_loop rs re cursor busy
      else if negb (bs <? re) then (if cursor <? re then [Itv cursor re] else [])
      else
        let bs := if bs <? rs then rs else bs in
        let be := if re <? be then re else be in
        let rest := invert_loop rs re (if cursor <? be then be else cursor) busy in
        if cursor <? bs then Itv cursor bs :: rest else rest
  end.
Definition invertBusy (rs re : Z) (busy : list Interval) : list Interval :=
  invert_loop rs re rs busy.

(** * Civil days *)
Definition startOfLocalDay (t : Z) (loc : Location) : Z :=
  let c := local_civil loc t in go_date (cyear c) (cmonth c) (cday c) 0 0 0 loc.
Definition nextLocalCivilDay (day : Z) (loc : Location) : Z :=
  let c := local_civil loc day in go_date (cyear c) (cmonth c) (cday c + 1) 0 0 0 loc.
Definition prevLocalCivilDay (day : Z) (loc : Location) : Z :=
  let c := local_civil loc day in go_date (cyear c) (cmonth c) (cday c - 1) 0 0 0 loc.
Definition localTimeOnDay (day minutes : Z) (loc : Location) : Z :=
  let c := local_civil loc day in
  if 24 * 60 <=? minutes then go_date (cyear c) (cmonth c) (cday c + 1) 0 0 0 loc
  else
    let minutes := if minutes <? 0 then 0 else minutes in
    go_date (cyear c) (cmonth c) (cday c) (minutes / 60) (minutes mod 60) 0 loc.

Definition intersect (a b : Interval) : Interval :=
  Itv (if Start a <? Start b then Start b else Start a)
      (if End b <? End a then End b else End a).

(** * Working hours *)
Definition day_allowed (days : list Z) (wd : Z) : bool :=
  match days with
  | [] => (0 <=? wd) && (wd <=? 6)
  | _ => bool_decide (wd ∈ days)
  end.
Definition use_wh (opts : FreeSlotOptions) : bool :=
  negb (WorkingHourStart opts =? 0) || negb (WorkingHourEnd opts =? 0).
Definition overnight (opts : FreeSlotOptions) : bool :=
  use_wh opts && (WorkingHourEnd opts <=? WorkingHourStart opts).

(** The segment of one civil day, by local midnight [day]. *)
Definition day_segment (opts : FreeSlotOptions) (loc : Location) (day : Z) : Interval :=
  if negb (use_wh opts) then Itv day (nextLocalCivilDay day loc)
  else if negb (overnight opts) then
    Itv (localTimeOnDay day (WorkingHourStart opts) loc) (localTimeOnDay day (WorkingHourEnd opts) loc)
  else
    let next := nextLocalCivilDay day loc in
    Itv (localTimeOnDay day (WorkingHourStart opts) loc) (localTimeOnDay next (WorkingHourEnd opts) loc).

(** The [for !day.After(endLocal)] loop for one free window; [None] when
    [fuel] iterations did not finish it. *)
Fixpoint walk_days (fuel : nat) (opts : FreeSlotOptions) (loc : Location) (win : Interval) (day : Z)
    : option (list Interval) :=
  if End win <? day then Some []
  else
    match fuel with
    | O => None
    | S fuel =>
        let rest := walk_days fuel opts loc win (nextLocalCivilDay day loc) in
        if negb (day_allowed (DaysOfWeek opts) (local_weekday loc day)) then rest
        else
          let inter := intersect win (day_segment opts loc day) in
          if Start inter <? End inter then (λ l, inter :: l) <$> rest else rest
    end.

Definition first_day (opts : FreeSlotOptions) (loc : Location) (win : Interval) : Z :=
  let day := startOfLocalDay (Start win) loc in
  if overnight opts then prevLocalCivilDay day loc else day.

Fixpoint clip_windows (fuel : nat) (free : list Interval) (opts : FreeSlotOptions) (loc : Location)
    : option (list Interval) :=
  match free with
  | [] => Some []
  | win :: free =>
      l1 ← walk_days fuel opts loc win (first_day opts loc win);
      l2 ← clip_windows fuel free opts loc;
      Some (l1 ++ l2)%list
  end.
Definition clipWorkingHours (fuel : nat) (free : list Interval) (opts : FreeSlotOptions) (loc : Location)
    : option (list Interval) :=
  MergeIntervals <$> clip_windows fuel free opts loc.

(** * Placement of slots *)

(** The inner [for] loop over one window with [room] slots left before the
    limit: the slots placed.  Every iteration uses one unit of [room], so the
    recursion is structural. *)
Fixpoint fill_window (room : nat) (cursor wend dur : Z) : list Interval :=
  match room with
  | O => []
  | S room =>
      let slotEnd := cursor + dur in
      if wend <? slotEnd then []
      else Itv cursor slotEnd :: fill_window room slotEnd wend dur
  end.
Fixpoint fill_windows (room : nat) (dur : Z) (wins : list Interval) : list Interval :=
  match wins with
  | [] => []
  | win :: wins =>
      let out := fill_window room (Start win) (End win) dur in
      if (room <=? length out)%nat then out
      else (out ++ fill_windows (room - length out) dur wins)%list
  end.

Definition slot_limit (limit : Z) : Z :=
  let limit := if limit <=? 0 then 50 else limit in
  if 200 <? limit then 200 else limit.

Definition free_windows (fuel : nat) (busy : list Interval) (opts : FreeSlotOptions)
    : option (list Interval) :=
  clipWorkingHours fuel (invertBusy (RangeStart opts) (RangeEnd opts) (MergeIntervals busy))
    opts (ResolveLocation (OptLocation opts)).

Definition FindFreeSlots (fuel : nat) (busy : list Interval) (opts : FreeSlotOptions)
    : option (result Error (list Interval)) :=
  if negb (RangeStart opts <? RangeEnd opts)
  then Some (Err (NewValidationError "free-slot range end must be after start"))
  else if Duration opts <=? 0
  then Some (Err (NewValidationError "duration_minutes must be positive"))
  else if time_sub (RangeEnd opts) (RangeStart opts) <? Duration opts
  then Some (Err (NewValidationError "requested duration is longer than the search range"))
  else if (WorkingHourStart opts <? 0) || (24 * 60 <? WorkingHourStart opts)
          || (WorkingHourEnd opts <? 0) || (24 * 60 <? WorkingHourEnd opts)
  then Some (Err (NewValidationError "working hours must be between 00:00 and 24:00"))
  else if existsb (λ d, (d <? 0) || (6 <? d)) (DaysOfWeek opts)
  then Some (Err (NewValidationError "days of week must be between Sunday and Saturday"))
  else
    wins ← free_windows fuel busy opts;
    Some (Ok (fill_windows (Z.to_nat (slot_limit (Limit opts))) (Duration opts) wins)).

(** * [ParseWorkingHours]: "HH:MM" to minutes *)
Definition ParseWorkingHours `{UnicodeTables} (s : string) : result Error Z :=
  match bytes s with
  | [c0; c1; c2; c3; c4] =>
      if bool_decide (c2 = ":"%char) && is_digit c0 && is_digit c1 && is_digit c3 && is_digit c4 then
        let h := digit_val c0 * 10 + digit_val c1 in
        let m := digit_val c3 * 10 + digit_val c4 in
        reject (24 <? h) || (59 <? m) || ((h =? 24) && negb (m =? 0))
          with NewValidationError ("invalid working hours " ++ fmt_quote s);;
        Ok (h * 60 + m)
      else Err (NewValidationError ("invalid working hours " ++ fmt_quote s ++ ": use HH:MM"))
  | _ => Err (NewValidationError ("invalid working hours " ++ fmt_quote s ++ ": use HH:MM"))
  end.

(** * Points covered by a list of intervals *)

Definition inside (t : Z) (i : Interval) : Prop := Start i <= t < End i.
Definition covered (l : list Interval) (t : Z) : Prop := Exists (inside t) l.
Definition nonempty (i : Interval) : Prop := Start i < End i.
(** Disjoint, in order, and not even adjacent. *)
Definition separated (l : list Interval) : Prop := StronglySorted (λ a b, End a < Start b) l.
Definition by_start (l : list Interval) : Prop := StronglySorted (λ a b, Start a <= Start b) l.

#[export] Instance itv_le_total : Total itv_le.
Proof. intros [s1 e1] [s2 e2]. unfold itv_le; simpl. lia. Qed.
#[export] Instance itv_le_trans : Transitive itv_le.
Proof. intros [s1 e1] [s2 e2] [s3 e3]. unfold itv_le; simpl. lia. Qed.

Lemma covered_app l1 l2 t : covered (l1 ++ l2) t ↔ covered l1 t ∨ covered l2 t.
Proof. apply Exists_app. Qed.
Lemma covered_cons i l t : covered (i :: l) t ↔ inside t i ∨ covered l t.
Proof. apply Exists_cons. Qed.
Lemma covered_nil t : ¬ covered [] t.
Proof. intros H. inversion H. Qed.
Lemma covered_perm l1 l2 t : l1 ≡ₚ l2 → covered l1 t ↔ covered l2 t.
Proof. intros H. unfold covered. rewrite !Exists_exists. by setoid_rewrite H. Qed.
Lemma covered_spec l t : covered l t ↔ ∃ i, i ∈ l ∧ inside t i.
Proof. apply Exists_exists. Qed.

Lemma by_start_sort l : by_start (merge_sort itv_le l).
Proof.
  eapply StronglySorted_weaken; [|apply (StronglySorted_merge_sort itv_le)].
  intros a b _ _. unfold itv_le. lia.
Qed.

(** ** The merge loop *)

Lemma merge_loop_covered last rest t :
  by_start (last :: rest) → covered (merge_loop last rest) t ↔ covered (last :: rest) t.
Proof.
  revert last; induction rest as [|cur rest IH]; intros last Hs; simpl; [done|].
  apply StronglySorted_inv in Hs as [Hs Hlast]. apply Forall_cons in Hlast as [Hlc Hlr].
  pose proof Hs as Hs'. apply StronglySorted_inv in Hs' as [Hrest Hcur].
  destruct (End last <? Start cur) eqn:E1; simpl; bool_to_prop.
  - by rewrite !covered_cons, IH, covered_cons.
  - rewrite IH.
    2: { constructor; [done|]. destruct (End last <? End cur); [|done]. simpl.
         eapply Forall_impl; [exact Hcur|]. simpl. lia. }
    rewrite !covered_cons. unfold inside.
    destruct (End last <? End cur) eqn:E2; bool_to_prop; simpl; intuition lia.
Qed.

Lemma merge_loop_bounds last rest i :
  by_start (last :: rest) → i ∈ merge_loop last rest → Start last <= Start i.
Proof.
  revert last; induction rest as [|cur rest IH]; intros last Hs; simpl.
  { intros ->%list_elem_of_singleton. done. }
  apply StronglySorted_inv in Hs as [Hs Hlast]. apply Forall_cons in Hlast as [Hlc Hlr].
  pose proof Hs as Hs'. apply StronglySorted_inv in Hs' as [Hrest Hcur].
  destruct (End last <? Start cur) eqn:E1; simpl.
  - intros [->|Hi]%elem_of_cons; [done|]. specialize (IH cur Hs Hi). lia.
  - intros Hi. destruct (End last <? End cur).
    + apply (IH (Itv (Start last) (End cur))); [constructor; done|done].
    + apply (IH last); [constructor; done|done].
Qed.

Lemma merge_loop_separated last rest :
  by_start (last :: rest) → Forall nonempty (last :: rest) →
  separated (merge_loop last rest) ∧ Forall nonempty (merge_loop last rest).
Proof.
  revert last; induction rest as [|cur rest IH]; intros last Hs Hne; simpl.
  { split; [repeat constructor|done]. }
  pose proof Hs as Hs0.
  apply StronglySorted_inv in Hs as [Hs Hlast]. apply Forall_cons in Hlast as [Hlc Hlr].
  apply Forall_cons in Hne as [Hl Hne]. pose proof Hne as Hne'.
  apply Forall_cons in Hne' as [Hc Hr].
  pose proof Hs as Hs'. apply StronglySorted_inv in Hs' as [Hrest Hcur].
  destruct (End last <? Start cur) eqn:E1; simpl; bool_to_prop.
  - destruct (IH cur Hs Hne) as [IH1 IH2]. split; [|by constructor].
    constructor; [done|]. apply Forall_forall. intros i Hi.
    pose proof (merge_loop_bounds cur rest i Hs Hi). lia.
  - apply IH.
    + destruct (End last <? End cur); by constructor.
    + constructor; [|done]. unfold nonempty in *. destruct (End last <? End cur) eqn:E2; bool_to_prop; simpl; lia.
Qed.

Lemma MergeIntervals_covered l t : covered (MergeIntervals l) t ↔ covered l t.
Proof.
  unfold MergeIntervals. rewrite <-(covered_perm (merge_sort itv_le l) l t) by apply merge_sort_Permutation.
  pose proof (by_start_sort l). destruct (merge_sort itv_le l); [done|]. by apply merge_loop_covered.
Qed.

Lemma MergeIntervals_separated l :
  Forall nonempty l → separated (MergeIntervals l) ∧ Forall nonempty (MergeIntervals l).
Proof.
  intros Hne. unfold MergeIntervals. pose proof (by_start_sort l) as Hs.
  assert (Forall nonempty (merge_sort itv_le l)) as Hne'.
  { by rewrite (merge_sort_Permutation itv_le l). }
  destruct (merge_sort itv_le l); [split; constructor|]. by apply merge_loop_separated.
Qed.

(** A separated list of non-empty intervals is determined by its points. *)
Lemma separated_head i l t :
  separated (i :: l) → Forall nonempty (i :: l) → covered (i :: l) t → Start i <= t.
Proof.
  intros [_ Hs]%StronglySorted_inv [Hi Hne]%Forall_cons. rewrite covered_cons.
  intros [Ht|Ht]; [unfold inside in Ht; lia|].
  apply covered_spec in Ht as (j & Hj & Ht). unfold inside, nonempty in *.
  rewrite Forall_forall in Hs. specialize (Hs j Hj). lia.
Qed.

Lemma separated_unique l1 l2 :
  separated l1 → Forall nonempty l1 → separated l2 → Forall nonempty l2 →
  (∀ t, covered l1 t ↔ covered l2 t) → l1 = l2.
Proof.
  revert l2; induction l1 as [|[s1 e1] l1 IH]; intros [|[s2 e2] l2] S1 N1 S2 N2 Hc; [done| | |].
  - apply Forall_cons in N2 as [N2 _]. destruct (covered_nil s2). apply Hc, covered_cons.
    left. unfold inside, nonempty in *; simpl in *; lia.
  - apply Forall_cons in N1 as [N1 _]. destruct (covered_nil s1). apply Hc, covered_cons.
    left. unfold inside, nonempty in *; simpl in *; lia.
  - pose proof (separated_head _ _ s1 S2 N2) as H1. pose proof (separated_head _ _ s2 S1 N1) as H2.
    pose proof N1 as [Ne1 N1']%Forall_cons. pose proof N2 as [Ne2 N2']%Forall_cons.
    pose proof S1 as [S1' F1]%StronglySorted_inv. pose proof S2 as [S2' F2]%StronglySorted_inv.
    unfold nonempty in Ne1, Ne2; simpl in *.
    assert (s1 = s2) as ->.
    { apply Z.le_antisymm; [apply H2|apply H1]; apply Hc, covered_cons; left; unfold inside; simpl; lia. }
    assert (∀ e l, Forall (λ b, e < Start b) l → ¬ covered l e) as Hout.
    { intros e l HF (j & Hj & Hin)%covered_spec. rewrite Forall_forall in HF.
      specialize (HF j Hj). unfold inside in Hin. lia. }
    assert (e1 = e2) as ->.
    { apply Z.le_antisymm; apply Z.nlt_ge; intros Hlt.
      - apply (Hout e2 l2 F2).
        assert (covered (Itv s2 e2 :: l2) e2) as Hx by (apply Hc, covered_cons; left; unfold inside; simpl; lia).
        apply covered_cons in Hx as [Hx|Hx]; [unfold inside in Hx; simpl in Hx; lia|done].
      - apply (Hout e1 l1 F1).
        assert (covered (Itv s2 e1 :: l1) e1) as Hx by (apply Hc, covered_cons; left; unfold inside; simpl; lia).
        apply covered_cons in Hx as [Hx|Hx]; [unfold inside in Hx; simpl in Hx; lia|done]. }
    f_equal. apply IH; try done. intros t. specialize (Hc t). rewrite !covered_cons in Hc.
    assert (∀ l, Forall (λ b, e2 < Start b) l → covered l t → ¬ inside t (Itv s2 e2)) as Hd.
    { intros l HF (j & Hj & Hin)%covered_spec Hi. rewrite Forall_forall in HF.
      specialize (HF j Hj). unfold inside in *. simpl in *. lia. }
    pose proof (Hd l1 F1). pose proof (Hd l2 F2). tauto.
Qed.

Lemma separated_gap l a b :
  separated l → a ∈ l → b ∈ l → a = b ∨ End a < Start b ∨ End b < Start a.
Proof.
  intros Hs. induction Hs as [|c l Hs IH Hc]; [by intros ?%elem_of_nil|].
  rewrite Forall_forall in Hc. rewrite !elem_of_cons.
  intros [->|Ha] [->|Hb]; naive_solver.
Qed.

(** ** The complement *)

Lemma invert_loop_covered rs re cursor busy t :
  rs < re → rs <= cursor → separated busy → Forall nonempty busy →
  (cursor = rs ∨ Forall (λ b, cursor < Start b) busy) →
  covered (invert_loop rs re cursor busy) t ↔ cursor <= t < re ∧ ¬ covered busy t.
Proof.
  intros Hre. revert cursor; induction busy as [|b busy IH]; intros cursor Hc Hs Hne Hcur; simpl.
  { destruct (cursor <? re) eqn:E; bool_to_prop.
    - rewrite covered_cons. unfold inside; simpl. pose proof (covered_nil t). intuition lia.
    - pose proof (covered_nil t). intuition lia. }
  apply StronglySorted_inv in Hs as [Hs Hb]. apply Forall_cons in Hne as [Hbne Hne].
  unfold nonempty in Hbne. rewrite (covered_cons b busy).
  assert (cursor = rs ∨ Forall (λ b, cursor < Start b) busy) as Hcur'.
  { destruct Hcur as [|[_ ?]%Forall_cons]; [by left|by right]. }
  destruct ((End b <? rs) || negb (rs <? End b)) eqn:E1.
  { rewrite (IH cursor) by done. unfold inside.
    assert (End b <= rs). { destruct (End b <? rs) eqn:?; bool_to_prop; simpl in *; bool_to_prop; lia. }
    intuition lia. }
  bool_to_prop. simpl in *.
  destruct (Start b <? re) eqn:E2; simpl; bool_to_prop.
  2: { assert (t < re → ¬ covered busy t) as Hlate.
       { intros Ht (j & Hj & Hin)%covered_spec. rewrite Forall_forall in Hb.
         specialize (Hb j Hj). unfold inside in Hin. lia. }
       destruct (cursor <? re) eqn:E3; bool_to_prop.
       - rewrite covered_cons. unfold inside; simpl. pose proof (covered_nil t). intuition lia.
       - pose proof (covered_nil t). intuition lia. }
  set (be := if re <? End b then re else End b).
  assert (be = Z.min re (End b)) as Hbe by (unfold be; destruct (re <? End b) eqn:?; bool_to_prop; lia).
  set (cursor' := if cursor <? be then be else cursor).
  assert (cursor' = Z.max cursor be) as Hc' by (unfold cursor'; destruct (cursor <? be) eqn:?; bool_to_prop; lia).
  assert (covered (invert_loop rs re cursor' busy) t ↔ cursor' <= t < re ∧ ¬ covered busy t) as IH'.
  { apply IH; [lia|done|done|]. right. rewrite Forall_forall in *. intros j Hj.
    specialize (Hb j Hj). destruct Hcur' as [->|Hcur']; [lia|].
    specialize (Hcur' j Hj). lia. }
  set (bs := if Start b <? rs then rs else Start b).
  assert (bs = Z.max rs (Start b)) as Hbs by (unfold bs; destruct (Start b <? rs) eqn:?; bool_to_prop; lia).
  assert (t < Start b → ¬ covered busy t) as Hearly.
  { intros Ht (j & Hj & Hin)%covered_spec. rewrite Forall_forall in Hb.
    specialize (Hb j Hj). unfold inside in Hin. lia. }
  assert (cursor = rs ∨ cursor < Start b) as Hcb.
  { destruct Hcur as [|[? _]%Forall_cons]; [by left|by right]. }
  destruct (cursor <? bs) eqn:E4; bool_to_prop; rewrite ?covered_cons, IH'; unfold inside; simpl;
    (destruct (decide (t < Start b)) as [Ht|Ht]; [specialize (Hearly Ht)|]; intuition lia).
Qed.

Lemma invertBusy_covered rs re busy t :
  rs < re → separated busy → Forall nonempty busy →
  covered (invertBusy rs re busy) t ↔ rs <= t < re ∧ ¬ covered busy t.
Proof. intros. apply invert_loop_covered; try done. by left. Qed.

Lemma invert_loop_nonempty rs re cursor busy :
  Forall nonempty (invert_loop rs re cursor busy).
Proof.
  revert cursor; induction busy as [|b busy IH]; intros cursor; simpl.
  - destruct (cursor <? re) eqn:E; bool_to_prop; repeat constructor. done.
  - destruct (_ || _); [done|]. destruct (negb _).
    + destruct (cursor <? re) eqn:E; bool_to_prop; repeat constructor. done.
    + destruct (cursor <? (if Start b <? rs then rs else Start b)) eqn:E; [|done].
      constructor; [|done]. bool_to_prop. done.
Qed.

(** ** Civil days *)

(** Local midnight of a day number, and the wall clock [m] minutes later. *)
Definition midnight (loc : Location) (d : Z) : Z := second * zone_adjust loc (d * day_secs).
Definition wall (loc : Location) (d m : Z) : Z :=
  second * zone_adjust loc (d * day_secs + (m / 60) * 3600 + (m mod 60) * 60).

Lemma startOfLocalDay_eq t loc : startOfLocalDay t loc = midnight loc (local_day loc t).
Proof.
  unfold startOfLocalDay, midnight. cbv zeta.
  rewrite <-(Z.add_0_r (cday _)), go_date_local. do 2 f_equal. lia.
Qed.
Lemma nextLocalCivilDay_eq t loc : nextLocalCivilDay t loc = midnight loc (local_day loc t + 1).
Proof. unfold nextLocalCivilDay, midnight. cbv zeta. rewrite go_date_local. do 2 f_equal. lia. Qed.
Lemma prevLocalCivilDay_eq t loc : prevLocalCivilDay t loc = midnight loc (local_day loc t - 1).
Proof.
  unfold prevLocalCivilDay, midnight. cbv zeta. unfold Z.sub at 1.
  rewrite go_date_local. do 2 f_equal. unfold day_secs. lia.
Qed.
Lemma localTimeOnDay_eq t m loc :
  0 <= m →
  localTimeOnDay t m loc =
    if 24 * 60 <=? m then midnight loc (local_day loc t + 1) else wall loc (local_day loc t) m.
Proof.
  intros Hm. unfold localTimeOnDay, midnight, wall. cbv zeta.
  destruct (24 * 60 <=? m) eqn:E.
  - rewrite go_date_local. do 2 f_equal. lia.
  - replace (m <? 0) with false by (symmetry; apply Z.ltb_ge; lia).
    rewrite <-(Z.add_0_r (cday _)), go_date_local. do 2 f_equal. lia.
Qed.

(** A location all of whose days begin at local midnight: civil days are
    neither skipped nor merged, and the wall clock of a day stays inside it. *)
Class CivilLocation (loc : Location) : Prop := {
  civil_day t : midnight loc (local_day loc t) <= t < midnight loc (local_day loc t + 1);
  civil_midnight d : local_day loc (midnight loc d) = d;
  civil_wall d m : 0 <= m < 24 * 60 → midnight loc d <= wall loc d m <= midnight loc (d + 1);
}.

Lemma midnight_lt loc `{!CivilLocation loc} d1 d2 : d1 < d2 → midnight loc d1 < midnight loc d2.
Proof.
  intros Hd. assert (∀ n : nat, midnight loc d1 + Z.of_nat n < midnight loc (d1 + 1 + Z.of_nat n)) as Hn.
  { induction n as [|n IHn].
    - rewrite !Z.add_0_r. pose proof (civil_day (midnight loc d1)) as H.
      rewrite civil_midnight in H. lia.
    - pose proof (civil_day (midnight loc (d1 + 1 + Z.of_nat n))) as H.
      rewrite civil_midnight in H.
      replace (d1 + 1 + Z.of_nat (S n)) with (d1 + 1 + Z.of_nat n + 1) by lia. lia. }
  specialize (Hn (Z.to_nat (d2 - d1 - 1))).
  replace (d1 + 1 + Z.of_nat (Z.to_nat (d2 - d1 - 1))) with d2 in Hn by lia. lia.
Qed.
Lemma midnight_le loc `{!CivilLocation loc} d1 d2 : d1 <= d2 → midnight loc d1 <= midnight loc d2.
Proof.
  intros Hd. destruct (decide (d1 = d2)) as [->|]; [lia|].
  pose proof (midnight_lt loc d1 d2). lia.
Qed.
Lemma midnight_le_iff loc `{!CivilLocation loc} d t : midnight loc d <= t ↔ d <= local_day loc t.
Proof.
  pose proof (civil_day t) as H. split; intros Hd.
  - apply Z.nlt_ge. intros Hlt. pose proof (midnight_le loc (local_day loc t + 1) d). lia.
  - pose proof (midnight_le loc d (local_day loc t) Hd). lia.
Qed.
Lemma local_day_mono loc `{!CivilLocation loc} t1 t2 : t1 <= t2 → local_day loc t1 <= local_day loc t2.
Proof. intros H. apply midnight_le_iff; [done|]. pose proof (civil_day t1). lia. Qed.

#[export] Instance civil_utc : CivilLocation UTC.
Proof.
  split; intros *; unfold midnight, wall, local_day, local_secs, day_secs, second in *;
    rewrite ?zone_adjust_utc; cbn [UTC loc_lookup utc_zone zoffset]; Z.to_euclidean_division_equations; lia.
Qed.

(** A zone with one daylight-saving transition: Europe/Paris around
    2026-03-29T01:00:00Z. *)
Definition paris_spring : Z := 1774746000.
Definition Paris2026 : Location := {|
  loc_name := "Europe/Paris";
  loc_lookup u := if u <? paris_spring then Zone 3600 min_int64 paris_spring
                  else Zone 7200 paris_spring max_int64 |}.

Lemma zone_adjust_paris u :
  zone_adjust Paris2026 u = if u <? paris_spring + 7200 then u - 3600 else u - 7200.
Proof.
  unfold zone_adjust, Paris2026, paris_spring, min_int64, max_int64. cbn [loc_lookup].
  destruct (u <? 1774746000) eqn:E1; cbn [zoffset zstart zend]; simpl; bool_to_prop.
  - repeat match goal with |- context [?a <? ?b] => destruct (Z.ltb_spec a b)
      | |- context [?a <=? ?b] => destruct (Z.leb_spec a b) end; cbn; lia.
  - repeat match goal with |- context [?a <? ?b] => destruct (Z.ltb_spec a b)
      | |- context [?a <=? ?b] => destruct (Z.leb_spec a b) end; cbn; lia.
Qed.

#[export] Instance civil_paris : CivilLocation Paris2026.
Proof.
  split; intros *; unfold midnight, wall, local_day, local_secs, day_secs, second in *;
    rewrite ?zone_adjust_paris; unfold Paris2026, paris_spring; cbn [loc_lookup]; try intros Hm;
    repeat (match goal with
      | |- context [?a <? ?b] =>
          lazymatch a with context [_ <? _] => fail | _ => destruct (Z.ltb_spec a b) end
      end; cbn [zoffset]);
    Z.to_euclidean_division_equations; lia.
Qed.

(** ** Working hours *)

Lemma inside_intersect t a b : inside t (intersect a b) ↔ inside t a ∧ inside t b.
Proof.
  unfold inside, intersect; simpl.
  destruct (Start a <? Start b) eqn:E1; destruct (End b <? End a) eqn:E2; bool_to_prop; lia.
Qed.

(** What one iteration adds in front of the segments of the later days. *)
Definition add_segment (opts : FreeSlotOptions) (loc : Location) (win : Interval) (day : Z)
    (rest : list Interval) : list Interval :=
  let inter := intersect win (day_segment opts loc day) in
  if day_allowed (DaysOfWeek opts) (local_weekday loc day) && (Start inter <? End inter)
  then inter :: rest else rest.
Arguments add_segment : simpl never.

Lemma walk_days_S fuel opts loc win day :
  walk_days (S fuel) opts loc win day =
    if End win <? day then Some []
    else add_segment opts loc win day <$> walk_days fuel opts loc win (nextLocalCivilDay day loc).
Proof.
  unfold add_segment. cbn [walk_days]. cbv zeta.
  destruct (End win <? day); [done|].
  destruct (day_allowed _ _); cbn [negb andb]; [destruct (Start _ <? End _)|];
    by destruct (walk_days fuel opts loc win _).
Qed.

Lemma add_segment_covered opts loc win d rest t :
  covered (add_segment opts loc win d rest) t ↔
    (day_allowed (DaysOfWeek opts) (local_weekday loc d) = true ∧ inside t win ∧
     inside t (day_segment opts loc d)) ∨ covered rest t.
Proof.
  unfold add_segment. rewrite <-inside_intersect.
  set (inter := intersect win (day_segment opts loc d)).
  destruct (day_allowed _ _); cbn [andb]; [|intuition done].
  destruct (Start inter <? End inter) eqn:E; bool_to_prop.
  - rewrite covered_cons. tauto.
  - assert (¬ inside t inter) by (unfold inside; lia). tauto.
Qed.


(** Day [d] is one of the selected days and [t] lies in its segment. *)
Definition allowed_on (opts : FreeSlotOptions) (loc : Location) (d t : Z) : Prop :=
  day_allowed (DaysOfWeek opts) (local_weekday loc (midnight loc d)) = true ∧
  inside t (day_segment opts loc (midnight loc d)).
Definition allowed (opts : FreeSlotOptions) (loc : Location) (t : Z) : Prop :=
  ∃ d, allowed_on opts loc d t.

Lemma walk_days_sound fuel opts loc win d l t :
  walk_days fuel opts loc win (midnight loc d) = Some l → covered l t →
  inside t win ∧ allowed opts loc t.
Proof.
  revert d l; induction fuel as [|fuel IH]; intros d l; [simpl|rewrite walk_days_S];
    (destruct (End win <? midnight loc d); [intros [= <-] []%covered_nil|]); [done|].
  rewrite nextLocalCivilDay_eq. intros (l' & Hw & ->)%fmap_Some.
  rewrite add_segment_covered. intros [(Hd & Hin & Hseg)|Hc]; [|by eapply IH].
  split; [done|]. by exists d.
Qed.

Definition hours_ok (opts : FreeSlotOptions) : Prop :=
  0 <= WorkingHourStart opts <= 24 * 60 ∧ 0 <= WorkingHourEnd opts <= 24 * 60.

Section Civil.
Context (loc : Location) `{!CivilLocation loc} (opts : FreeSlotOptions) (Hours : hours_ok opts).

Lemma localTime_range d m :
  0 <= m <= 24 * 60 →
  midnight loc d <= localTimeOnDay (midnight loc d) m loc <= midnight loc (d + 1).
Proof using All.
  intros Hm. rewrite localTimeOnDay_eq, civil_midnight by lia.
  destruct (24 * 60 <=? m) eqn:E; bool_to_prop.
  - pose proof (midnight_le loc d (d + 1)). lia.
  - apply civil_wall. lia.
Qed.

(** The segment of day [d] starts on day [d] and ends at most one day later,
    two when the shift crosses midnight. *)
Lemma segment_range d t :
  inside t (day_segment opts loc (midnight loc d)) →
  midnight loc d <= t ∧ t < midnight loc (d + if overnight opts then 2 else 1).
Proof using All.
  destruct Hours as [Hs He]. unfold inside, day_segment.
  pose proof (localTime_range d _ Hs). pose proof (localTime_range d _ He).
  pose proof (localTime_range (d + 1) _ He).
  rewrite nextLocalCivilDay_eq, civil_midnight.
  destruct (use_wh opts) eqn:E1; simpl.
  2: { replace (overnight opts) with false by (by unfold overnight; rewrite E1). simpl. lia. }
  destruct (overnight opts); simpl; [|lia].
  replace (d + 2) with (d + 1 + 1) by lia. lia.
Qed.

Lemma walk_days_complete fuel win d l j t :
  walk_days fuel opts loc win (midnight loc d) = Some l → d <= j →
  inside t win → allowed_on opts loc j t → covered l t.
Proof using All.
  intros Hw Hdj Hin Hj. pose proof Hj as [Hday Hseg].
  pose proof (segment_range j t Hseg) as [Hj1 _].
  revert d l Hw Hdj; induction fuel as [|fuel IH]; intros d l; [simpl|rewrite walk_days_S];
    intros Hw Hdj; pose proof (midnight_le loc d j Hdj); unfold inside in Hin;
    (destruct (End win <? midnight loc d) eqn:E0; bool_to_prop; [lia|]); [done|].
  rewrite nextLocalCivilDay_eq, civil_midnight in Hw.
  apply fmap_Some in Hw as (l' & Hw & ->). rewrite add_segment_covered.
  destruct (decide (j = d)) as [->|Hne]; [by left|right]. eapply IH; [done|lia].
Qed.

Lemma walk_days_total fuel win d :
  (Z.to_nat (local_day loc (End win) - d + 1) <= fuel)%nat →
  is_Some (walk_days fuel opts loc win (midnight loc d)).
Proof using All.
  revert d; induction fuel as [|fuel IH]; intros d Hf; [simpl|rewrite walk_days_S];
    (destruct (End win <? midnight loc d) eqn:E; [done|]; bool_to_prop);
    apply (midnight_le_iff loc) in E; [lia|].
  rewrite nextLocalCivilDay_eq, civil_midnight, fmap_is_Some. apply IH. lia.
Qed.

Lemma first_day_midnight win :
  first_day opts loc win =
    midnight loc (local_day loc (Start win) - if overnight opts then 1 else 0).
Proof using All.
  unfold first_day. cbv zeta. rewrite (startOfLocalDay_eq (Start win) loc).
  rewrite prevLocalCivilDay_eq, (@civil_midnight loc _).
  destruct (overnight opts); f_equal; lia.
Qed.

Lemma walk_window fuel win l t :
  walk_days fuel opts loc win (first_day opts loc win) = Some l →
  covered l t ↔ inside t win ∧ allowed opts loc t.
Proof using All.
  rewrite first_day_midnight. intros Hw. split; [by eapply walk_days_sound|].
  intros [Hin [j Hj]]. refine (walk_days_complete fuel win _ l j t Hw _ Hin Hj).
  destruct Hj as [_ [_ Hseg]%segment_range].
  pose proof (local_day_mono loc (Start win) t ltac:(unfold inside in Hin; lia)).
  assert (local_day loc t < j + if overnight opts then 2 else 1).
  { apply Z.nle_gt. intros Hle. apply (midnight_le_iff loc) in Hle. lia. }
  destruct (overnight opts); lia.
Qed.

Lemma clip_covered fuel free l t :
  clipWorkingHours fuel free opts loc = Some l →
  covered l t ↔ covered free t ∧ allowed opts loc t.
Proof using All.
  unfold clipWorkingHours. destruct (clip_windows fuel free opts loc) as [l0|] eqn:Hc; [|done].
  intros [= <-]. rewrite MergeIntervals_covered.
  revert l0 Hc; induction free as [|win free IH]; intros l0; simpl.
  { intros [= <-]. pose proof (covered_nil t). tauto. }
  destruct (walk_days _ _ _ _ _) as [l1|] eqn:Hw; [|done]; simpl.
  destruct (clip_windows _ _ _ _) as [l2|]; [|done]; simpl. intros [= <-].
  rewrite covered_app, covered_cons, (walk_window _ _ _ _ Hw), (IH l2 eq_refl). tauto.
Qed.

Lemma clip_total fuel free :
  Forall (λ win, (Z.to_nat (local_day loc (End win) - local_day loc (Start win) + 2) <= fuel)%nat) free →
  is_Some (clipWorkingHours fuel free opts loc).
Proof using All.
  intros HF. unfold clipWorkingHours. rewrite fmap_is_Some.
  induction HF as [|win free Hw HF IH]; simpl; [done|].
  destruct (walk_days_total fuel win (local_day loc (Start win) - if overnight opts then 1 else 0)) as [l1 Hl1].
  { destruct (overnight opts); lia. }
  rewrite first_day_midnight, Hl1. simpl. destruct IH as [l2 ->]. done.
Qed.
End Civil.

Lemma clip_sound fuel opts loc free l t :
  clipWorkingHours fuel free opts loc = Some l → covered l t →
  covered free t ∧ allowed opts loc t.
Proof.
  unfold clipWorkingHours. destruct (clip_windows fuel free opts loc) as [l0|] eqn:Hc; [|done].
  intros [= <-]. rewrite MergeIntervals_covered.
  revert l0 Hc; induction free as [|win free IH]; intros l0; simpl.
  { intros [= <-] []%covered_nil. }
  destruct (walk_days _ _ _ _ _) as [l1|] eqn:Hw; [|done]; simpl.
  destruct (clip_windows _ _ _ _) as [l2|]; [|done]; simpl. intros [= <-].
  rewrite covered_app, covered_cons. intros [H|H].
  - unfold first_day in Hw. cbv zeta in Hw. rewrite (startOfLocalDay_eq (Start win) loc) in Hw.
    rewrite prevLocalCivilDay_eq in Hw.
    destruct (overnight opts); eapply walk_days_sound in Hw; naive_solver.
  - destruct (IH l2 eq_refl H). naive_solver.
Qed.

Lemma walk_days_nonempty fuel opts loc win d l :
  walk_days fuel opts loc win d = Some l → Forall nonempty l.
Proof.
  revert d l; induction fuel as [|fuel IH]; intros d l; [simpl|rewrite walk_days_S];
    (destruct (End win <? d); [intros [= <-]; constructor|]); [done|].
  intros (l' & Hw & ->)%fmap_Some. apply IH in Hw. unfold add_segment.
  destruct (_ && _) eqn:E in |- *; [|done]. constructor; [|done].
  apply andb_prop in E as [_ E]. by apply Z.ltb_lt in E.
Qed.

Lemma clip_separated fuel opts loc free l :
  clipWorkingHours fuel free opts loc = Some l → separated l ∧ Forall nonempty l.
Proof.
  unfold clipWorkingHours. destruct (clip_windows fuel free opts loc) as [l0|] eqn:Hc; [|done].
  intros [= <-]. apply MergeIntervals_separated.
  revert l0 Hc; induction free as [|win free IH]; intros l0; simpl; [intros [= <-]; constructor|].
  destruct (walk_days _ _ _ _ _) as [l1|] eqn:Hw; [|done]; simpl.
  destruct (clip_windows _ _ _ _) as [l2|]; [|done]; simpl. intros [= <-].
  apply Forall_app. split; [by eapply walk_days_nonempty|by apply IH].
Qed.

(** ** Placement *)

Lemma fill_window_length room c w dur : (length (fill_window room c w dur) <= room)%nat.
Proof.
  revert c; induction room as [|room IH]; intros c; simpl; [lia|].
  destruct (w <? c + dur); simpl; [lia|]. specialize (IH (c + dur)). lia.
Qed.

Lemma fill_window_slot room c w dur s :
  0 < dur → s ∈ fill_window room c w dur → End s = Start s + dur ∧ c <= Start s ∧ End s <= w.
Proof.
  intros Hd. revert c; induction room as [|room IH]; intros c; simpl; [by intros ?%elem_of_nil|].
  destruct (w <? c + dur) eqn:E; [by intros ?%elem_of_nil|]. bool_to_prop.
  intros [->|Hs]%elem_of_cons; simpl; [lia|]. apply IH in Hs. lia.
Qed.

Definition in_order (l : list Interval) : Prop := StronglySorted (λ a b, End a <= Start b) l.

Lemma fill_window_order room c w dur : 0 < dur → in_order (fill_window room c w dur).
Proof.
  intros Hd. revert c; induction room as [|room IH]; intros c; simpl; [constructor|].
  destruct (w <? c + dur); constructor; [apply IH|].
  apply Forall_forall. intros s Hs%fill_window_slot; simpl; lia.
Qed.

(** The slots of a window tile it from its start; the loop stops early only
    when less than one duration is left. *)
Lemma fill_window_tiles room c w dur t :
  0 < dur → c <= t < c + zlen (fill_window room c w dur) * dur →
  covered (fill_window room c w dur) t.
Proof.
  intros Hd. revert c; induction room as [|room IH]; intros c; simpl.
  { unfold zlen; simpl. lia. }
  destruct (w <? c + dur) eqn:E; [unfold zlen; simpl; lia|].
  rewrite zlen_cons, covered_cons. intros Ht.
  destruct (decide (t < c + dur)); [left; unfold inside; simpl; lia|right]. apply IH. lia.
Qed.

Lemma fill_window_full room c w dur :
  0 < dur → (length (fill_window room c w dur) < room)%nat →
  w < c + (zlen (fill_window room c w dur) + 1) * dur.
Proof.
  intros Hd. revert c; induction room as [|room IH]; intros c; simpl; [lia|].
  destruct (w <? c + dur) eqn:E; simpl; bool_to_prop; [unfold zlen; simpl; lia|].
  intros Hl. rewrite zlen_cons. specialize (IH (c + dur) ltac:(lia)). lia.
Qed.

Lemma fill_windows_length room dur wins : (length (fill_windows room dur wins) <= room)%nat.
Proof.
  revert room; induction wins as [|win wins IH]; intros room; simpl; [lia|].
  pose proof (fill_window_length room (Start win) (End win) dur).
  case_match; [done|]. rewrite length_app. specialize (IH (room - length (fill_window room (Start win) (End win) dur))%nat). lia.
Qed.

Lemma fill_windows_slot room dur wins s :
  0 < dur → s ∈ fill_windows room dur wins →
  ∃ win, win ∈ wins ∧ End s = Start s + dur ∧ Start win <= Start s ∧ End s <= End win.
Proof.
  intros Hd. revert room; induction wins as [|win wins IH]; intros room; simpl; [by intros ?%elem_of_nil|].
  assert (s ∈ fill_window room (Start win) (End win) dur →
    ∃ w, w ∈ win :: wins ∧ End s = Start s + dur ∧ Start w <= Start s ∧ End s <= End w) as H1.
  { intros Hs%fill_window_slot; [|done]. exists win. split; [left|lia]. }
  case_match; [done|]. intros [Hs|Hs]%elem_of_app; [by apply H1|].
  destruct (IH _ Hs) as (w & Hw & ?). exists w. split; [by right|done].
Qed.

Lemma fill_windows_order room dur wins :
  0 < dur → separated wins → Forall nonempty wins → in_order (fill_windows room dur wins).
Proof.
  intros Hd. revert room; induction wins as [|win wins IH]; intros room Hs Hne; simpl; [constructor|].
  pose proof (fill_window_order room (Start win) (End win) dur Hd) as Ho.
  case_match; [done|].
  apply StronglySorted_inv in Hs as [Hs Hw]. apply Forall_cons in Hne as [_ Hne].
  apply StronglySorted_app_2; [|done|by apply IH].
  intros a b Ha Hb. apply fill_window_slot in Ha; [|done].
  apply fill_windows_slot in Hb as (w & Hw' & Hb); [|done].
  rewrite Forall_forall in Hw. specialize (Hw w Hw'). lia.
Qed.

(** When the limit is not reached every window is tiled up to less than one
    duration from its end. *)
Lemma fill_windows_tiles room dur wins win :
  0 < dur → (length (fill_windows room dur wins) < room)%nat → win ∈ wins →
  ∃ e, End win - dur < e ∧ ∀ t, Start win <= t < e → covered (fill_windows room dur wins) t.
Proof.
  intros Hd. revert room; induction wins as [|w wins IH]; intros room; simpl; [by intros _ ?%elem_of_nil|].
  pose proof (fill_window_length room (Start w) (End w) dur) as Hl.
  destruct (room <=? _)%nat eqn:E; [apply Nat.leb_le in E; lia|apply Nat.leb_gt in E].
  rewrite length_app. intros Hlen [->|Hwin]%elem_of_cons.
  - exists (Start w + zlen (fill_window room (Start w) (End w) dur) * dur).
    split; [pose proof (fill_window_full room (Start w) (End w) dur Hd E); lia|].
    intros t Ht. apply covered_app. left. by apply fill_window_tiles.
  - destruct (IH (room - length (fill_window room (Start w) (End w) dur))%nat) as (e & He & Hcov); [lia|done|].
    exists e. split; [done|]. intros t Ht. apply covered_app. right. by apply Hcov.
Qed.

(** ** The whole search *)

Definition opts_valid (opts : FreeSlotOptions) : Prop :=
  RangeStart opts < RangeEnd opts ∧ 0 < Duration opts ∧
  Duration opts <= time_sub (RangeEnd opts) (RangeStart opts) ∧
  hours_ok opts ∧ Forall (λ d, 0 <= d <= 6) (DaysOfWeek opts).

Lemma FindFreeSlots_valid fuel busy opts :
  opts_valid opts →
  FindFreeSlots fuel busy opts =
    (λ wins, Ok (fill_windows (Z.to_nat (slot_limit (Limit opts))) (Duration opts) wins))
      <$> free_windows fuel busy opts.
Proof.
  intros (Hr & Hd & Hl & [Hs He] & Hw). unfold FindFreeSlots.
  replace (RangeStart opts <? RangeEnd opts) with true by (symmetry; apply Z.ltb_lt; lia).
  replace (Duration opts <=? 0) with false by (symmetry; apply Z.leb_gt; lia).
  replace (time_sub (RangeEnd opts) (RangeStart opts) <? Duration opts) with false
    by (symmetry; apply Z.ltb_ge; lia).
  replace (WorkingHourStart opts <? 0) with false by (symmetry; apply Z.ltb_ge; lia).
  replace (24 * 60 <? WorkingHourStart opts) with false by (symmetry; apply Z.ltb_ge; lia).
  replace (WorkingHourEnd opts <? 0) with false by (symmetry; apply Z.ltb_ge; lia).
  replace (24 * 60 <? WorkingHourEnd opts) with false by (symmetry; apply Z.ltb_ge; lia).
  replace (existsb _ _) with false.
  { simpl. by destruct (free_windows fuel busy opts). }
  symmetry. apply existsb_false. eapply Forall_impl; [exact Hw|]. simpl. intros d ?.
  apply orb_false_iff. split; apply Z.ltb_ge; lia.
Qed.

Lemma FindFreeSlots_invalid fuel busy opts :
  ¬ opts_valid opts →
  ∃ e, FindFreeSlots fuel busy opts = Some (Err e) ∧ ErrCode e = CodeValidation.
Proof.
  intros Hv. unfold FindFreeSlots.
  destruct (RangeStart opts <? RangeEnd opts) eqn:E1; simpl; [|naive_solver].
  destruct (Duration opts <=? 0) eqn:E2; [naive_solver|].
  destruct (time_sub _ _ <? Duration opts) eqn:E3; [naive_solver|].
  destruct (_ || _ || _ || _) eqn:E4; [naive_solver|].
  destruct (existsb _ _) eqn:E5; [naive_solver|].
  destruct Hv. apply existsb_false in E5. bool_to_prop. repeat split; try lia.
  eapply Forall_impl; [exact E5|]. simpl. intros d Hd. bool_to_prop. lia.
Qed.

Lemma FindFreeSlots_Ok fuel busy opts slots :
  FindFreeSlots fuel busy opts = Some (Ok slots) →
  opts_valid opts ∧ ∃ wins, free_windows fuel busy opts = Some wins ∧
    slots = fill_windows (Z.to_nat (slot_limit (Limit opts))) (Duration opts) wins.
Proof.
  intros HF.
  assert (Decision (opts_valid opts)) as Hdec by (unfold opts_valid, hours_ok; apply _).
  destruct (decide (opts_valid opts)) as [Hv|Hv].
  - split; [done|]. rewrite FindFreeSlots_valid in HF by done.
    apply fmap_Some in HF as (wins & Hw & [= ->]). eauto.
  - destruct (FindFreeSlots_invalid fuel busy opts Hv) as (e & He & _). congruence.
Qed.

Lemma slot_limit_range l : 1 <= slot_limit l <= 200.
Proof. unfold slot_limit. destruct (l <=? 0) eqn:?, (200 <? _) eqn:?; bool_to_prop; lia. Qed.

(** * Properties *)

(** Availability of an instant: in the range, in no busy interval, and in the
    working hours of a selected day. *)
Definition available (busy : list Interval) (opts : FreeSlotOptions) (t : Z) : Prop :=
  RangeStart opts <= t < RangeEnd opts ∧ ¬ covered busy t ∧
  allowed opts (ResolveLocation (OptLocation opts)) t.

Lemma FindFreeSlots_facts fuel busy opts slots :
  Forall nonempty busy →
  FindFreeSlots fuel busy opts = Some (Ok slots) →
  in_order slots ∧ zlen slots <= slot_limit (Limit opts) ∧
  ∀ s, s ∈ slots →
    End s = Start s + Duration opts ∧ ∀ t, inside t s → available busy opts t.
Proof.
  intros Hne (Hv & wins & Hw & ->)%FindFreeSlots_Ok. destruct Hv as (Hr & Hd & _).
  pose proof (clip_separated _ _ _ _ _ Hw) as [Hsep Hwne].
  split; [by apply fill_windows_order|]. split.
  { pose proof (fill_windows_length (Z.to_nat (slot_limit (Limit opts))) (Duration opts) wins).
    pose proof (slot_limit_range (Limit opts)). unfold zlen. lia. }
  intros s Hs. destruct (fill_windows_slot _ _ _ _ Hd Hs) as (win & Hwin & Hlen & Hb & He).
  split; [done|]. intros t Ht.
  assert (covered wins t) as Hc.
  { apply covered_spec. exists win. split; [done|]. unfold inside in *. lia. }
  destruct (clip_sound _ _ _ _ _ _ Hw Hc) as [Hfree Hal].
  destruct (MergeIntervals_separated busy Hne) as [Hms Hmn].
  rewrite invertBusy_covered, MergeIntervals_covered in Hfree by done.
  unfold available. tauto.
Qed.

(** (C17) Every slot [FindFreeSlots] returns has exactly the requested length,
    consists of available instants only (inside the range, outside every busy
    interval, inside the working hours of a selected day), the slots are in
    order without overlap, and there are at most [Limit] of them. *)
Theorem FindFreeSlots_sound fuel busy opts slots :
  Forall nonempty busy →
  FindFreeSlots fuel busy opts = Some (Ok slots) →
  in_order slots ∧ zlen slots <= slot_limit (Limit opts) ∧
  ∀ s, s ∈ slots →
    End s = Start s + Duration opts ∧ ∀ t, inside t s → available busy opts t.
Proof. apply FindFreeSlots_facts. Qed.

Definition hm (h m : Z) : Z := 1780444800 * second + h * hour + m * minute. (* 2026-06-03 UTC *)
Definition sample_opts : FreeSlotOptions :=
  MkOpts (hm 8 0) (hm 12 0) (30 * minute) None (9 * 60) (17 * 60) [1; 2; 3; 4; 5] 0 0 true 10.
Definition sample_busy : list Interval := [Itv (hm 10 0) (hm 11 0); Itv (hm 9 30) (hm 10 15)].
Definition sample_slots : list Interval :=
  [Itv (hm 9 0) (hm 9 30); Itv (hm 11 0) (hm 11 30); Itv (hm 11 30) (hm 12 0)].

Lemma FindFreeSlots_sound_witness :
  FindFreeSlots 3 sample_busy sample_opts = Some (Ok sample_slots) ∧
  (in_order sample_slots ∧ zlen sample_slots <= slot_limit 10 ∧
   ∀ s, s ∈ sample_slots →
     End s = Start s + Duration sample_opts ∧ ∀ t, inside t s → available sample_busy sample_opts t).
Proof.
  split; [vm_compute; reflexivity|].
  apply (FindFreeSlots_sound 3 sample_busy sample_opts); [|vm_compute; reflexivity].
  repeat constructor; unfold nonempty; vm_compute; reflexivity.
Defined.

(** (C18) When fewer than [Limit] slots come back the answer is complete: in a
    location whose days begin at local midnight, any stretch of available time
    of the requested length begins inside a returned slot, so no further slot
    could have been placed. *)
Theorem FindFreeSlots_maximal fuel busy opts slots :
  CivilLocation (ResolveLocation (OptLocation opts)) →
  Forall nonempty busy →
  FindFreeSlots fuel busy opts = Some (Ok slots) →
  zlen slots < slot_limit (Limit opts) →
  ∀ a, (∀ t, a <= t < a + Duration opts → available busy opts t) →
  covered slots a.
Proof.
  intros Hloc Hne (Hv & wins & Hw & ->)%FindFreeSlots_Ok Hlim a Ha.
  destruct Hv as (Hr & Hd & _ & Hh & _).
  destruct (MergeIntervals_separated busy Hne) as [Hms Hmn].
  destruct (clip_separated _ _ _ _ _ Hw) as [Hsep Hwne].
  assert (∀ t, a <= t < a + Duration opts → covered wins t) as Hcov.
  { intros t Ht. apply (clip_covered _ _ Hh _ _ _ t Hw).
    rewrite invertBusy_covered, MergeIntervals_covered by done.
    specialize (Ha t Ht). unfold available in Ha. tauto. }
  (* the whole stretch lies in one window *)
  destruct (proj1 (covered_spec _ _) (Hcov a ltac:(lia))) as (win & Hwin & Hin).
  assert (a + Duration opts <= End win) as Hend.
  { apply Z.nlt_ge. intros Hlt. unfold inside in Hin.
    destruct (proj1 (covered_spec _ _) (Hcov (End win) ltac:(lia))) as (w' & Hw' & Hin').
    unfold inside in Hin'.
    destruct (separated_gap wins win w' Hsep Hwin Hw') as [->|[?|?]]; lia. }
  destruct (fill_windows_tiles (Z.to_nat (slot_limit (Limit opts))) (Duration opts) wins win)
    as (e & He & Hc); [done| |done|].
  { pose proof (slot_limit_range (Limit opts)). unfold zlen in Hlim. lia. }
  apply Hc. unfold inside in Hin. lia.
Qed.

Lemma FindFreeSlots_maximal_witness :
  ∃ fuel, FindFreeSlots fuel sample_busy sample_opts = Some (Ok sample_slots) ∧
  ((∀ t, hm 11 10 <= t < hm 11 10 + Duration sample_opts → available sample_busy sample_opts t) →
   covered sample_slots (hm 11 10)).
Proof.
  exists 3%nat. split; [vm_compute; reflexivity|].
  apply (FindFreeSlots_maximal 3 sample_busy sample_opts).
  - apply civil_utc.
  - repeat constructor; unfold nonempty; vm_compute; reflexivity.
  - vm_compute; reflexivity.
  - vm_compute; reflexivity.
Defined.

(** Iterations that are enough for every window of the range. *)
Definition day_fuel (opts : FreeSlotOptions) : nat :=
  let loc := ResolveLocation (OptLocation opts) in
  Z.to_nat (local_day loc (RangeEnd opts) - local_day loc (RangeStart opts) + 2).

(** (C19) The search terminates: in a location whose days begin at local
    midnight, for valid options, the day loop finishes every window within the
    number of civil days of the range plus two, and slots are returned. *)
Theorem FindFreeSlots_terminates fuel busy opts :
  CivilLocation (ResolveLocation (OptLocation opts)) →
  Forall nonempty busy →
  opts_valid opts →
  (day_fuel opts <= fuel)%nat →
  ∃ slots, FindFreeSlots fuel busy opts = Some (Ok slots).
Proof.
  intros Hloc Hne Hv Hf. rewrite FindFreeSlots_valid by done.
  destruct (clip_total (ResolveLocation (OptLocation opts)) opts (proj1 (proj2 (proj2 (proj2 Hv))))
    fuel (invertBusy (RangeStart opts) (RangeEnd opts) (MergeIntervals busy))) as [wins Hw].
  - apply Forall_forall. intros win Hwin.
    pose proof (invert_loop_nonempty (RangeStart opts) (RangeEnd opts) (RangeStart opts) (MergeIntervals busy)) as Hwn.
    rewrite Forall_forall in Hwn. specialize (Hwn win Hwin).
    destruct (MergeIntervals_separated busy Hne) as [Hms Hmn]. destruct Hv as (Hr & _).
    assert (∀ t, inside t win → RangeStart opts <= t < RangeEnd opts) as Hin.
    { intros t Ht. apply (invertBusy_covered _ _ (MergeIntervals busy) t); [done..|].
      apply covered_spec. eauto. }
    unfold inside, nonempty in *. pose proof (Hin (Start win)). pose proof (Hin (End win - 1)).
    pose proof (local_day_mono (ResolveLocation (OptLocation opts)) (RangeStart opts) (Start win)).
    pose proof (local_day_mono (ResolveLocation (OptLocation opts)) (End win) (RangeEnd opts)).
    unfold day_fuel in Hf. cbv zeta in Hf. lia.
  - unfold free_windows. rewrite Hw. simpl. eauto.
Qed.

Definition paris_opts : FreeSlotOptions :=
  MkOpts ((paris_spring - 100000) * second) ((paris_spring + 100000) * second) (45 * minute)
    (Some Paris2026) (22 * 60) (6 * 60) [] 0 0 true 0.

Lemma FindFreeSlots_terminates_witness :
  day_fuel paris_opts = 5%nat ∧ ∃ slots, FindFreeSlots 5 [] paris_opts = Some (Ok slots).
Proof.
  split; [vm_compute; reflexivity|].
  apply (FindFreeSlots_terminates 5 [] paris_opts).
  - apply civil_paris.
  - constructor.
  - unfold opts_valid, hours_ok. repeat split; try constructor; vm_compute; discriminate || reflexivity.
  - vm_compute. reflexivity.
Defined.

(** A zone west of Greenwich whose clocks go from 00:00 to 01:00: the Azores on
    2026-03-29T01:00:00Z. *)
Definition Azores2026 : Location := {|
  loc_name := "Atlantic/Azores";
  loc_lookup u := if u <? paris_spring then Zone (-3600) min_int64 paris_spring
                  else Zone 0 paris_spring max_int64 |}.

Lemma walk_days_stuck opts loc win day :
  nextLocalCivilDay day loc = day → day <= End win →
  ∀ fuel, walk_days fuel opts loc win day = None.
Proof.
  intros Hstuck Hle fuel. induction fuel as [|fuel IH]; [simpl|rewrite walk_days_S];
    replace (End win <? day) with false by (symmetry; apply Z.ltb_ge; lia); [done|].
  by rewrite Hstuck, IH.
Qed.

Definition azores_opts : FreeSlotOptions :=
  MkOpts ((paris_spring - 46800) * second) ((paris_spring + 82800) * second) (30 * minute)
    (Some Azores2026) 0 0 [] 0 0 true 10.

(** The search does not terminate where a day has no local midnight
    because clocks go forward at 00:00 west of Greenwich: for an empty calendar
    and valid options from 2026-03-28T12:00Z to 2026-03-30T00:00Z in
    Atlantic/Azores, [time.Date] resolves the missing midnight to 23:00 of the
    day before, [nextLocalCivilDay] returns its own argument, and no number of
    iterations ends the day loop. *)
Theorem FindFreeSlots_azores_diverges :
  opts_valid azores_opts ∧ ∀ fuel, FindFreeSlots fuel [] azores_opts = None.
Proof.
  assert (opts_valid azores_opts) as Hv.
  { unfold opts_valid, hours_ok. repeat split; try constructor; vm_compute; discriminate || reflexivity. }
  split; [done|]. intros fuel. rewrite FindFreeSlots_valid by done.
  unfold free_windows, clipWorkingHours.
  change (invertBusy _ _ _) with [Itv (RangeStart azores_opts) (RangeEnd azores_opts)].
  assert (walk_days fuel azores_opts Azores2026 (Itv (RangeStart azores_opts) (RangeEnd azores_opts))
    (first_day azores_opts Azores2026 (Itv (RangeStart azores_opts) (RangeEnd azores_opts))) = None) as Hw.
  2: { change (ResolveLocation (OptLocation azores_opts)) with Azores2026.
       cbn [clip_windows]. by rewrite Hw. }
  destruct fuel as [|fuel]; [vm_compute; reflexivity|]. rewrite walk_days_S.
  replace (End _ <? _) with false by (vm_compute; reflexivity).
  rewrite walk_days_stuck; [done|vm_compute; reflexivity|vm_compute; discriminate].
Qed.

(** [MergeIntervals] is a canonical form: on non-empty intervals its
    result covers exactly the instants of the input, is sorted with gaps
    between consecutive intervals, and depends only on the instants covered. *)
Theorem MergeIntervals_canonical l1 l2 :
  Forall nonempty l1 → Forall nonempty l2 →
  (∀ t, covered (MergeIntervals l1) t ↔ covered l1 t) ∧
  separated (MergeIntervals l1) ∧ Forall nonempty (MergeIntervals l1) ∧
  ((∀ t, covered l1 t ↔ covered l2 t) ↔ MergeIntervals l1 = MergeIntervals l2).
Proof.
  intros H1 H2. destruct (MergeIntervals_separated l1 H1), (MergeIntervals_separated l2 H2).
  split; [apply MergeIntervals_covered|]. split_and!; [done..|]. split.
  - intros Heq. apply separated_unique; [done..|]. intros t. by rewrite !MergeIntervals_covered.
  - intros Heq t. by rewrite <-(MergeIntervals_covered l1), <-(MergeIntervals_covered l2), Heq.
Qed.

Lemma MergeIntervals_canonical_witness :
  MergeIntervals [Itv 4 6; Itv 0 2; Itv 2 3] = [Itv 0 3; Itv 4 6] ∧
  ((∀ t, covered [Itv 4 6; Itv 0 2; Itv 2 3] t ↔ covered [Itv 0 3; Itv 5 6; Itv 4 5] t) ↔
   MergeIntervals [Itv 4 6; Itv 0 2; Itv 2 3] = MergeIntervals [Itv 0 3; Itv 5 6; Itv 4 5]).
Proof.
  split; [vm_compute; reflexivity|].
  apply (MergeIntervals_canonical [Itv 4 6; Itv 0 2; Itv 2 3] [Itv 0 3; Itv 5 6; Itv 4 5]);
    repeat constructor; unfold nonempty; simpl; lia.
Defined.
