(* ===== verification/Scopes.v ===== *)
(** Resource scopes and explicit permissions
    (src/internal/config/scopes.go and the permission part of config.go). *)
From S2P Require Import Prelude GoStrings.

(** "\r\n\x00" *)
Definition cr_lf_nul : string := str ["013"; "010"; "000"]%char.

Lemma single_line_spec s : contains_any s cr_lf_nul = false ↔ single_line s.
Proof.
  rewrite contains_any_false. unfold single_line.
  split; intros H c Hc; specialize (H c Hc).
  - repeat split; intros ->; apply H; vm_compute; repeat constructor.
  - unfold cr_lf_nul. rewrite bytes_str, !not_elem_of_cons.
    pose proof (not_elem_of_nil c). tauto.
Qed.

(** * ICLOUD_MCP_PERMISSIONS *)

(** [Permissions]: the zero value is "not configured". *)
Record Permissions := MkPermissions {
  p_configured : bool;
  p_calendarRead : bool; p_calendarWrite : bool; p_calendarDelete : bool;
  p_contactsRead : bool; p_contactsWrite : bool; p_contactsDelete : bool;
  p_mailRead : bool; p_mailMutate : bool; p_mailTrash : bool; p_mailSend : bool; p_mailArchive : bool;
}.
#[export] Instance Permissions_eq_dec : EqDecision Permissions.
Proof. solve_decision. Defined.
Definition no_permissions (configured : bool) : Permissions :=
  MkPermissions configured false false false false false false false false false false false.

Definition permissionsEnvVar : string := "ICLOUD_MCP_PERMISSIONS".

(** The [switch token] of [ParsePermissions]: [None] is the default case. *)
Definition grant (token : string) (p : Permissions) : option Permissions :=
  let '(MkPermissions c cr cw cd kr kw kd mr mm mt ms ma) := p in
  if decide (token = "calendar.read") then Some (MkPermissions c true cw cd kr kw kd mr mm mt ms ma)
  else if decide (token = "calendar.write") then Some (MkPermissions c cr true cd kr kw kd mr mm mt ms ma)
  else if decide (token = "calendar.delete") then Some (MkPermissions c cr cw true kr kw kd mr mm mt ms ma)
  else if decide (token = "contacts.read") then Some (MkPermissions c cr cw cd true kw kd mr mm mt ms ma)
  else if decide (token = "contacts.write") then Some (MkPermissions c cr cw cd kr true kd mr mm mt ms ma)
  else if decide (token = "contacts.delete") then Some (MkPermissions c cr cw cd kr kw true mr mm mt ms ma)
  else if decide (token = "mail.read") then Some (MkPermissions c cr cw cd kr kw kd true mm mt ms ma)
  else if decide (token = "mail.mutate") then Some (MkPermissions c cr cw cd kr kw kd mr true mt ms ma)
  else if decide (token = "mail.trash") then Some (MkPermissions c cr cw cd kr kw kd mr mm true ms ma)
  else if decide (token = "mail.send") then Some (MkPermissions c cr cw cd kr kw kd mr mm mt true ma)
  else if decide (token = "mail.archive") then Some (MkPermissions c cr cw cd kr kw kd mr mm mt ms true)
  else None.

(** One iteration of the token loop: the policy so far and the tokens seen. *)
Definition parse_token (st : Permissions * gset string) (token : string)
    : result string (Permissions * gset string) :=
  let '(p, seen) := st in
  let token := trim_space token in
  if decide (token = "") then Err ("invalid " ++ permissionsEnvVar ++ ": empty capability")
  else if decide (token ∈ seen) then Err ("invalid " ++ permissionsEnvVar ++ ": duplicate capability")
  else match grant token p with
       | Some p => Ok (p, {[token]} ∪ seen)
       | None => Err ("invalid " ++ permissionsEnvVar ++ ": unknown capability")
       end.

Definition ParsePermissions (value : string) : result string Permissions :=
  let value := trim_space value in
  if decide (value = "") then Ok (no_permissions false)
  else match fold_res parse_token (split value ","%char) (no_permissions true, ∅) with
       | Ok (p, _) => Ok p
       | Err e => Err e
       end.

(** [Effective]: the global read-only kill switch. *)
Definition Effective (p : Permissions) (readOnly : bool) : Permissions :=
  if negb (p_configured p) then p
  else if readOnly then
    MkPermissions (p_configured p) (p_calendarRead p) false false
      (p_contactsRead p) false false (p_mailRead p) false false false false
  else p.

Definition LegacyPermissions (readOnly contactsEnabled mailEnabled mailWrite mailSend : bool) : Permissions :=
  MkPermissions false
    true (negb readOnly) (negb readOnly)
    contactsEnabled (contactsEnabled && negb readOnly) (contactsEnabled && negb readOnly)
    mailEnabled (mailEnabled && mailWrite && negb readOnly) (mailEnabled && mailWrite && negb readOnly)
    (mailEnabled && mailSend && negb readOnly) false.

Record CapabilitySet := MkCapabilitySet {
  CalendarRead : bool; CalendarWrite : bool; CalendarDelete : bool;
  ContactsRead : bool; ContactsWrite : bool; ContactsDelete : bool;
  MailRead : bool; MailMutate : bool; MailTrash : bool; MailSend : bool; MailArchive : bool;
}.

Definition Capabilities_of (p : Permissions) (readOnly : bool) : CapabilitySet :=
  let e := Effective p readOnly in
  let w (b : bool) := if readOnly then false else b in
  MkCapabilitySet
    (p_calendarRead e) (w (p_calendarWrite e)) (w (p_calendarDelete e))
    (p_contactsRead e) (w (p_contactsWrite e)) (w (p_contactsDelete e))
    (p_mailRead e) (w (p_mailMutate e)) (w (p_mailTrash e)) (w (p_mailSend e)) (w (p_mailArchive e)).

Definition RequestsCalendar (p : Permissions) : bool :=
  p_calendarRead p || p_calendarWrite p || p_calendarDelete p.
Definition RequestsContacts (p : Permissions) : bool :=
  p_contactsRead p || p_contactsWrite p || p_contactsDelete p.
Definition RequestsMail (p : Permissions) : bool :=
  p_mailRead p || p_mailMutate p || p_mailTrash p || p_mailSend p || p_mailArchive p.
Definition RequestedContactsMutation (p : Permissions) : bool := p_contactsWrite p || p_contactsDelete p.
Definition RequestedMailMutation (p : Permissions) : bool := p_mailMutate p || p_mailTrash p.

Definition requestedDomains (enableContacts enableMail : bool) (p : Permissions) : bool * bool * bool :=
  if p_configured p then (RequestsCalendar p, RequestsContacts p, RequestsMail p)
  else (true, enableContacts, enableMail).

(** * ICLOUD_MCP_RESOURCE_SCOPES *)

Definition ResourceCalendarRead : string := "calendar.read".
Definition ResourceCalendarWrite : string := "calendar.write".
Definition ResourceCalendarDelete : string := "calendar.delete".
Definition ResourceContactsRead : string := "contacts.read".
Definition ResourceContactsWrite : string := "contacts.write".
Definition ResourceContactsDelete : string := "contacts.delete".
Definition ResourceMailRead : string := "mail.read".
Definition ResourceMailMutate : string := "mail.mutate".
Definition ResourceMailArchive : string := "mail.archive".

Definition resourceScopeKeys : list string :=
  [ResourceCalendarRead; ResourceCalendarWrite; ResourceCalendarDelete;
   ResourceContactsRead; ResourceContactsWrite; ResourceContactsDelete;
   ResourceMailRead; ResourceMailMutate; ResourceMailArchive].

Record ResourceScopes := MkScopes {
  s_configured : bool;
  s_values : gmap string (list string);
}.
Definition no_scopes : ResourceScopes := MkScopes false ∅.

Definition scope_error (msg : string) : string := "invalid ICLOUD_MCP_RESOURCE_SCOPES: " ++ msg.

Definition validScopeCalendarPath (value : string) : bool :=
  if bool_decide (value = "") || (1024 <? len value) || negb (has_prefix value "/")
     || contains value "://" || contains_any value cr_lf_nul then false
  else negb (existsb (λ segment, bool_decide (segment = "..")) (split value "/"%char)).

(** One value of an entry: the values so far, in order; [seen] is their set. *)
Definition parse_part (key : string) (values : list string) (part : string)
    : result string (list string) :=
  let part := trim_space part in
  if bool_decide (part = "") || (1024 <? len part) || contains_any part cr_lf_nul
  then Err (scope_error "empty or invalid resource")
  else if has_prefix key "calendar." && negb (validScopeCalendarPath part)
  then Err (scope_error "invalid calendar path")
  else if decide (part ∈ values) then Err (scope_error "duplicate resource")
  else Ok (values ++ [part])%list.

(** One entry of the list. *)
Definition parse_entry (vals : gmap string (list string)) (entry : string)
    : result string (gmap string (list string)) :=
  let entry := trim_space entry in
  reject bool_decide (entry = "") with scope_error "empty entry" ;;
  match index_byte "="%char (bytes entry) with
  | None => Err (scope_error "expected action=value")
  | Some equals =>
      reject (equals =? 0)%nat || (Z.of_nat equals =? len entry - 1)
        with scope_error "expected action=value" ;;
      let key := trim_space (str (take equals (bytes entry))) in
      reject negb (bool_decide (key ∈ resourceScopeKeys)) with scope_error "unknown action" ;;
      reject bool_decide (is_Some (vals !! key)) with scope_error "duplicate action" ;;
      let raw := trim_space (str (drop (S equals) (bytes entry))) in
      if decide (raw = "*") then Ok (<[key := ["*"]]> vals)
      else
        reject contains raw "*" with scope_error "wildcard is valid only as the complete value" ;;
        let parts := split raw ","%char in
        reject (64 <? zlen parts) with scope_error "too many resources" ;;
        values ← fold_res (parse_part key) parts [];
        Ok (<[key := values]> vals)
  end.

Definition ParseResourceScopes (value : string) : result string ResourceScopes :=
  let value := trim_space value in
  if decide (value = "") then Ok no_scopes
  else
    let entries := split value ";"%char in
    reject (64 <? zlen entries) with scope_error "too many entries" ;;
    values ← fold_res parse_entry entries ∅;
    Ok (MkScopes true values).

(** [forAction]: [None] is "no restriction", [Some values] the allowlist. *)
Fixpoint first_scope (vals : gmap string (list string)) (candidates : list string) : option (list string) :=
  match candidates with
  | [] => None
  | candidate :: candidates =>
      if decide (candidate = "") then first_scope vals candidates
      else match vals !! candidate with
           | Some values => if decide (values = ["*"]) then None else Some values
           | None => first_scope vals candidates
           end
  end.
Definition forAction (s : ResourceScopes) (action : string) (fallbacks : list string) : option (list string) :=
  if negb (s_configured s) then None else first_scope (s_values s) (action :: fallbacks).

Definition Calendar_scope (s : ResourceScopes) (action : string) : option (list string) :=
  if decide (action = ResourceCalendarWrite) then forAction s action [ResourceCalendarRead]
  else if decide (action = ResourceCalendarDelete)
       then forAction s action [ResourceCalendarWrite; ResourceCalendarRead]
  else forAction s action [].
Definition Contacts_scope (s : ResourceScopes) (action : string) : option (list string) :=
  if decide (action = ResourceContactsWrite) then forAction s action [ResourceContactsRead]
  else if decide (action = ResourceContactsDelete)
       then forAction s action [ResourceContactsWrite; ResourceContactsRead]
  else forAction s action [].
Definition Mail_scope (s : ResourceScopes) (action : string) : option (list string) :=
  if decide (action = ResourceMailMutate) then forAction s action [ResourceMailRead]
  else if decide (action = ResourceMailArchive)
       then forAction s action [ResourceMailMutate; ResourceMailRead]
  else forAction s action [].

(** * The permission list *)

Definition capability_names : list string :=
  ["calendar.read"; "calendar.write"; "calendar.delete"; "contacts.read"; "contacts.write";
   "contacts.delete"; "mail.read"; "mail.mutate"; "mail.trash"; "mail.send"; "mail.archive"].

(** The capabilities of a policy, by name. *)
Definition capabilities (p : Permissions) : list (string * bool) :=
  [("calendar.read", p_calendarRead p); ("calendar.write", p_calendarWrite p);
   ("calendar.delete", p_calendarDelete p); ("contacts.read", p_contactsRead p);
   ("contacts.write", p_contactsWrite p); ("contacts.delete", p_contactsDelete p);
   ("mail.read", p_mailRead p); ("mail.mutate", p_mailMutate p); ("mail.trash", p_mailTrash p);
   ("mail.send", p_mailSend p); ("mail.archive", p_mailArchive p)].
(** [p] grants exactly the capabilities in [names]. *)
Definition grants_exactly (p : Permissions) (names : list string) : Prop :=
  ∀ name b, (name, b) ∈ capabilities p → b = bool_decide (name ∈ names).


Lemma elem_cons_ne (x y : string) l : x ≠ y → bool_decide (x ∈ y :: l) = bool_decide (x ∈ l).
Proof. intros. apply bool_decide_ext. set_solver. Qed.
Lemma elem_cons_eq (x : string) l : bool_decide (x ∈ x :: l) = true.
Proof. apply bool_decide_eq_true_2. left. Qed.

Lemma grants_exactly_Forall p names :
  grants_exactly p names ↔ Forall (λ nb, nb.2 = bool_decide (nb.1 ∈ names)) (capabilities p).
Proof.
  rewrite Forall_forall. split; [by intros H [n b] ?; apply H|].
  intros H n b Hn. by apply H in Hn.
Qed.

(** One case of the [switch]: the granted capability is the one named. *)
Local Ltac step_grant s :=
  destruct (decide (_ = s)) as [->|?];
  [split; [apply (bool_decide_unpack _); vm_compute; exact I|]; split; [done|];
   apply grants_exactly_Forall; unfold capabilities; repeat (apply List.Forall_cons;
     [cbn; first [by rewrite elem_cons_eq | by rewrite elem_cons_ne by done]|]);
   apply List.Forall_nil|].

Lemma grant_spec token p names :
  grants_exactly p names →
  match grant token p with
  | Some p' => token ∈ capability_names ∧ p_configured p' = p_configured p ∧ grants_exactly p' (token :: names)
  | None => token ∉ capability_names
  end.
Proof.
  rewrite grants_exactly_Forall.
  destruct p as [c cr cw cd kr kw kd mr mm mt ms ma]; unfold capabilities. intros HF.
  repeat (apply Forall_cons in HF as [? HF]). clear HF. cbn [fst snd] in *.
  unfold grant.
  step_grant "calendar.read". step_grant "calendar.write". step_grant "calendar.delete".
  step_grant "contacts.read". step_grant "contacts.write". step_grant "contacts.delete".
  step_grant "mail.read". step_grant "mail.mutate". step_grant "mail.trash".
  step_grant "mail.send". step_grant "mail.archive".
  unfold capability_names. rewrite !not_elem_of_cons. pose proof (not_elem_of_nil token). tauto.
Qed.

Lemma parse_tokens_spec toks p seen p' seen' names :
  grants_exactly p names → (∀ t, t ∈ seen ↔ t ∈ names) →
  fold_res parse_token toks (p, seen) = Ok (p', seen') →
  NoDup (map trim_space toks) ∧ (∀ t, t ∈ map trim_space toks → t ∉ names) ∧
  Forall (λ t, t ∈ capability_names) (map trim_space toks) ∧
  p_configured p' = p_configured p ∧ grants_exactly p' (map trim_space toks ++ names).
Proof.
  revert p seen names; induction toks as [|t toks IH]; intros p seen names Hp Hseen; simpl.
  { intros [= -> ->]. split_and!; [constructor|set_solver|constructor|done|done]. }
  case_decide; [done|]. case_decide; [done|].
  pose proof (grant_spec (trim_space t) p names Hp) as Hg.
  destruct (grant (trim_space t) p) as [p1|]; [|done]. destruct Hg as (Hk & Hc & Hp1).
  intros Hf. eapply IH in Hf as (Hnd & Hdis & Hall & Hconf & Hgr); [|exact Hp1|set_solver].
  split_and!.
  - constructor; [|done]. intros Hin. apply (Hdis _ Hin). left.
  - intros u [->|Hu]%elem_of_cons; [set_solver|]. specialize (Hdis u Hu). set_solver.
  - by constructor.
  - congruence.
  - intros n b Hn. rewrite (Hgr n b Hn). apply bool_decide_ext. set_solver.
Qed.

Lemma grants_exactly_none c : grants_exactly (no_permissions c) [].
Proof. apply grants_exactly_Forall. repeat constructor. Qed.

Lemma parse_tokens_total toks p seen names :
  grants_exactly p names → (∀ t, t ∈ seen ↔ t ∈ names) →
  NoDup (map trim_space toks) → (∀ t, t ∈ map trim_space toks → t ∉ names) →
  Forall (λ t, t ∈ capability_names) (map trim_space toks) →
  ∃ st, fold_res parse_token toks (p, seen) = Ok st.
Proof.
  revert p seen names; induction toks as [|t toks IH]; intros p seen names Hp Hseen Hnd Hdis Hall; simpl in *; [eauto|].
  apply NoDup_cons in Hnd as [Ht Hnd]. apply Forall_cons in Hall as [Hk Hall].
  rewrite decide_False. 2: { intros Heq. rewrite Heq in Hk. revert Hk. vm_compute. set_solver. }
  rewrite decide_False by set_solver.
  pose proof (grant_spec (trim_space t) p names Hp) as Hg.
  destruct (grant (trim_space t) p) as [p1|]; [|done]. destruct Hg as (_ & _ & Hp1).
  eapply IH; [exact Hp1|set_solver|done|set_solver|done].
Qed.

(** The capability tokens the operator wrote. *)
Definition permission_tokens (value : string) : list string :=
  map trim_space (split (trim_space value) ","%char).

(** A non-blank ICLOUD_MCP_PERMISSIONS is accepted exactly when its tokens are
    pairwise distinct known capabilities, and the resulting policy is
    configured and grants exactly the capabilities named, no other. *)
Theorem ParsePermissions_spec value :
  trim_space value ≠ "" →
  (is_ok (ParsePermissions value) = true ↔
     NoDup (permission_tokens value) ∧
     Forall (λ t, t ∈ capability_names) (permission_tokens value)) ∧
  (∀ p, ParsePermissions value = Ok p →
     p_configured p = true ∧ grants_exactly p (permission_tokens value)).
Proof.
  intros Hne. unfold ParsePermissions, permission_tokens. rewrite decide_False by done.
  set (toks := split (trim_space value) ","%char).
  destruct (fold_res parse_token toks (no_permissions true, ∅)) as [[p' seen']|e] eqn:Hf.
  - eapply parse_tokens_spec in Hf as (Hnd & _ & Hall & Hc & Hg); [|apply grants_exactly_none|set_solver].
    rewrite app_nil_r in Hg. split; [by split|]. by intros p [= <-].
  - split; [|done]. split; [done|]. intros [Hnd Hall].
    destruct (parse_tokens_total toks (no_permissions true) ∅ []) as [st Hst];
      [apply grants_exactly_none|set_solver|done|set_solver|done|congruence].
Qed.
Lemma ParsePermissions_spec_witness :
  trim_space " mail.read, mail.send " ≠ "" ∧
  is_ok (ParsePermissions " mail.read, mail.send ") = true ∧
  is_ok (ParsePermissions "mail.read,mail.read") = false ∧
  (∀ p, ParsePermissions " mail.read, mail.send " = Ok p →
     p_configured p = true ∧ grants_exactly p ["mail.read"; "mail.send"]).
Proof.
  split; [by vm_compute|]. split; [by vm_compute|]. split; [by vm_compute|].
  intros p Hp. exact (proj2 (ParsePermissions_spec " mail.read, mail.send " ltac:(by vm_compute)) p Hp).
Defined.

(** * The read-only kill switch *)

(** Under the read-only switch the enforced capability set never holds a
    mutating capability and keeps the reads of the policy; without it, it is
    the policy. *)
Theorem Capabilities_read_only p readOnly :
  let c := Capabilities_of p readOnly in
  CalendarRead c = p_calendarRead p ∧ ContactsRead c = p_contactsRead p ∧ MailRead c = p_mailRead p ∧
  [CalendarWrite c; CalendarDelete c; ContactsWrite c; ContactsDelete c;
   MailMutate c; MailTrash c; MailSend c; MailArchive c] =
  map (λ b, negb readOnly && b)
    [p_calendarWrite p; p_calendarDelete p; p_contactsWrite p; p_contactsDelete p;
     p_mailMutate p; p_mailTrash p; p_mailSend p; p_mailArchive p].
Proof.
  unfold Capabilities_of, Effective.
  destruct p as [c cr cw cd kr kw kd mr mm mt ms ma]; destruct c, readOnly; done.
Qed.

(** * Well-formed resource scopes *)

(** A resource of an entry for [key]. *)
Definition resource_ok (key part : string) : Prop :=
  part ≠ "" ∧ len part <= 1024 ∧ single_line part ∧
  (has_prefix key "calendar." = true →
   has_prefix part "/" = true ∧ contains part "://" = false ∧ ".." ∉ split part "/"%char).
Definition scope_entry_ok (key : string) (values : list string) : Prop :=
  key ∈ resourceScopeKeys ∧
  (values = ["*"] ∨
   values ≠ [] ∧ zlen values <= 64 ∧ NoDup values ∧ Forall (λ v, resource_ok key v ∧ ¬ "*"%char ∈ bytes v) values).
Definition scopes_ok (s : ResourceScopes) : Prop :=
  (s_configured s = false → s_values s = ∅) ∧
  map_Forall scope_entry_ok (s_values s).

Lemma validScopeCalendarPath_ok value :
  validScopeCalendarPath value = true →
  has_prefix value "/" = true ∧ contains value "://" = false ∧ ".." ∉ split value "/"%char.
Proof.
  unfold validScopeCalendarPath. case_match eqn:Hg; [done|]. intros Hs. bool_to_prop.
  split_and!; [done|done|]. intros Hin.
  apply existsb_false in Hs. rewrite Forall_forall in Hs. specialize (Hs _ Hin). by vm_compute in Hs.
Qed.

Lemma parse_part_ok key values part values' :
  parse_part key values part = Ok values' →
  values' = (values ++ [trim_space part])%list ∧ trim_space part ∉ values ∧ resource_ok key (trim_space part).
Proof.
  unfold parse_part. case_match eqn:Hg; [done|]. case_match eqn:Hc; [done|].
  destruct (decide (_ ∈ values)); [done|]. intros [= <-]. bool_to_prop.
  split_and!; [done|done|]. unfold resource_ok. rewrite <- single_line_spec.
  split_and!; try done. intros Hk. rewrite Hk in Hc. simpl in Hc. bool_to_prop.
  by apply validScopeCalendarPath_ok.
Qed.

Lemma parse_parts_ok key (P : string → Prop) parts values values' :
  (∀ part, part ∈ parts → P (trim_space part)) →
  NoDup values → Forall (λ v, resource_ok key v ∧ P v) values →
  fold_res (parse_part key) parts values = Ok values' →
  NoDup values' ∧ Forall (λ v, resource_ok key v ∧ P v) values' ∧
  length values' = (length values + length parts)%nat.
Proof.
  revert values; induction parts as [|part parts IH]; intros values HP Hnd Hall; simpl.
  { intros [= <-]. split_and!; [done|done|lia]. }
  destruct (parse_part key values part) as [v1|] eqn:Hp; [|done].
  apply parse_part_ok in Hp as (-> & Hnin & Hok). intros Hf.
  apply IH in Hf as (? & ? & Hlen); [|set_solver| |].
  - split_and!; [done|done|]. rewrite Hlen, length_app. simpl. lia.
  - apply NoDup_app. split_and!; [done|set_solver|apply NoDup_singleton].
  - apply Forall_app. split; [done|]. constructor; [|done]. split; [done|]. apply HP. left.
Qed.

Lemma parse_entry_ok vals entry vals' :
  map_Forall scope_entry_ok vals → parse_entry vals entry = Ok vals' →
  map_Forall scope_entry_ok vals'.
Proof.
  intros Hvals. unfold parse_entry. case_match; [done|]. case_match eqn:Heq; [|done].
  case_match; [done|]. case_match eqn:Hk; [done|]. case_match; [done|]. bool_to_prop.
  case_decide as Hstar.
  { intros [= <-]. apply map_Forall_insert_2; [|done]. split; [done|by left]. }
  case_match eqn:Hc; [done|]. case_match eqn:Hlen; [done|].
  rewrite bind_ok. intros (values & Hf & [= <-]). bool_to_prop.
  apply map_Forall_insert_2; [|done]. split; [done|]. right.
  apply (parse_parts_ok _ (λ v, ¬ "*"%char ∈ bytes v)) in Hf as (Hnd & Hall & Hl);
    [|intros part Hpart Hin|constructor|constructor].
  - split_and!; [|unfold zlen in *; simpl in Hl; lia|done|done].
    intros ->. simpl in Hl. symmetry in Hl. apply length_zero_iff_nil in Hl. by apply split_nonnil in Hl.
  - apply elem_of_trim_space in Hin. eapply elem_of_split in Hin as [Hin _]; [|exact Hpart].
    apply (contains_byte_false _ "*"%char) in Hc. done.
Qed.

Lemma scopes_ok_parsed value s :
  ParseResourceScopes value = Ok s → scopes_ok s.
Proof.
  unfold ParseResourceScopes. case_decide; [intros [= <-]; split; [done|apply map_Forall_empty]|].
  case_match; [done|]. rewrite bind_ok. intros (vals & Hf & [= <-]). split; [done|].
  eapply (fold_res_inv (map_Forall scope_entry_ok)); [apply map_Forall_empty| |exact Hf].
  intros v e v' _. apply parse_entry_ok.
Qed.

(** Every accepted ICLOUD_MCP_RESOURCE_SCOPES is well formed: its keys are
    known actions, each with either the whole-value wildcard or a non-empty
    list of at most 64 distinct single-line resources of at most 1024 bytes
    that hold no wildcard, and calendar resources are rooted paths with no
    dot-dot segment and no scheme. *)
Theorem ParseResourceScopes_ok value s :
  ParseResourceScopes value = Ok s → scopes_ok s.
Proof. apply scopes_ok_parsed. Qed.
Lemma ParseResourceScopes_ok_witness :
  match ParseResourceScopes "calendar.read=/1/calendars/home/, /1/calendars/work/; mail.read=*" with
  | Ok s => scopes_ok s | Err _ => False
  end.
Proof.
  destruct (ParseResourceScopes _) as [s|e] eqn:Hp.
  - exact (ParseResourceScopes_ok _ s Hp).
  - vm_compute in Hp. discriminate Hp.
Defined.
