(* ===== verification/NetMail.v ===== *)
(** The part of Go's [net/mail] and [net/netip] that decides whether a text is
    a plain address.

    [mail.ParseAddress(value)] returns an empty [Name] and an [Address] equal to
    [value] exactly when [value] is an addr-spec written plainly: a dot-atom,
    [@], and a dot-atom or an IP domain literal.  Every other form the parser
    accepts (display name, angle brackets, quoted local part, comment, group,
    inner space) drops bytes, so its [Address] differs from the text. *)
From S2P Require Import Prelude GoStrings.

(** * Atoms *)

(** [isAtext(r, true)] for an ASCII byte. *)
Definition specials : list ascii :=
  ["("; ")"; "<"; ">"; "["; "]"; ":"; ";"; "@"; "\"; ","; "034"]%char.
Definition atext (c : ascii) : bool :=
  negb (bool_decide (c ∈ specials)) && (33 <=? byte_val c) && (byte_val c <=? 126).

(** [consumeAtom(true, false)], on the whole of [l]. *)
Definition dot_atom (l : list ascii) : bool :=
  match l with [] => false | _ => true end
  && forallb atext l
  && negb (has_prefix_b ["."%char] l) && negb (contains_b l ["."; "."]%char)
  && negb (has_suffix_b ["."%char] l).

(** * IP addresses *)

(** [parseIPv4Fields]: four octets without leading zeros. *)
Definition octet (l : list ascii) : bool :=
  match l with
  | [] => false
  | [c] => is_digit c
  | c :: _ => negb (bool_decide (c = "0"%char)) &&
              match parse_digits l with Some n => n <=? 255 | None => false end
  end.
Definition ipv4 (l : list ascii) : bool :=
  let fields := split_b "."%char l in
  (zlen fields =? 4) && forallb octet fields.

Definition is_hex (c : ascii) : bool :=
  is_digit c || ((97 <=? byte_val c) && (byte_val c <=? 102)) || ((65 <=? byte_val c) && (byte_val c <=? 70)).
Fixpoint hex_run (l : list ascii) : nat :=
  match l with c :: l => if is_hex c then S (hex_run l) else O | [] => O end.

(** The loop of [parseIPv6]: [n] two-byte groups are still free, [ell] tells
    whether the ellipsis was seen; the free groups, the flag and the rest of
    the text at its exit. *)
Fixpoint ipv6_groups (n : nat) (ell : bool) (l : list ascii) : option (nat * bool * list ascii) :=
  match n with
  | O => Some (O, ell, l)
  | S n' =>
      let off := hex_run l in
      if ((off =? 0) || (4 <? off))%nat then None
      else match drop off l with
           | [] => Some (n', ell, [])
           | c :: l' =>
               if decide (c = "."%char) then
                 if negb ell && negb (n =? 2)%nat then None
                 else if (n <? 2)%nat then None
                 else if ipv4 l then Some ((n - 2)%nat, ell, []) else None
               else if decide (c = ":"%char) then
                 match l' with
                 | [] => None
                 | c' :: l'' =>
                     if decide (c' = ":"%char) then
                       if ell then None
                       else match l'' with
                            | [] => Some (n', true, [])
                            | _ => ipv6_groups n' true l''
                            end
                     else ipv6_groups n' ell l'
                 end
               else None
           end
  end.
Definition ipv6_end (r : option (nat * bool * list ascii)) : bool :=
  match r with
  | Some (n, ell, []) => if (n =? 0)%nat then negb ell else ell
  | _ => false
  end.
Definition ipv6 (l : list ascii) : bool :=
  match l with
  | c1 :: c2 :: l' =>
      if decide (c1 = ":"%char ∧ c2 = ":"%char)
      then match l' with [] => true | _ => ipv6_end (ipv6_groups 8 true l') end
      else ipv6_end (ipv6_groups 8 false l)
  | _ => ipv6_end (ipv6_groups 8 false l)
  end.

(** [net.ParseIP(s) != nil]; the first of [.], [:] and [%] selects the family,
    and an address with a zone is rejected. *)
Fixpoint ip_family (l : list ascii) : option ascii :=
  match l with
  | [] => None
  | c :: l => if bool_decide (c ∈ ["."; ":"; "%"]%char) then Some c else ip_family l
  end.
Definition parse_ip (l : list ascii) : bool :=
  match ip_family l with
  | Some c =>
      if decide (c = "."%char) then ipv4 l
      else if decide (c = ":"%char) then negb (bool_decide ("%"%char ∈ l)) && ipv6 l
      else false
  | None => false
  end.

(** * Addresses *)

(** [consumeDomainLiteral]; every text [parse_ip] accepts consists of dtext. *)
Definition domain_literal (l : list ascii) : bool :=
  match l with
  | c :: l =>
      bool_decide (c = "["%char) &&
      match reverse l with
      | c' :: r => bool_decide (c' = "]"%char) && parse_ip (reverse r)
      | [] => false
      end
  | [] => false
  end.

(** [consumeAddrSpec] accepts the whole text and gives it back. *)
Definition plain_address (l : list ascii) : bool :=
  match index_byte "@"%char l with
  | Some i =>
      dot_atom (take i l) && (dot_atom (drop (S i) l) || domain_literal (drop (S i) l))
  | None => false
  end.

Example plain_address_ok : plain_address (bytes "user.name+tag@mail.example.com") = true.
Proof. reflexivity. Qed.
Example plain_address_literal : plain_address (bytes "a@[2001:db8::1.2.3.4]") = true.
Proof. reflexivity. Qed.
Example plain_address_bad :
  map (λ s, plain_address (bytes s))
    ["a"; "a@"; "@b"; "a..b@c"; ".a@c"; "a@b@c"; "a@[1.2.3]"; "a@[::1::]"; "a b@c"; "<a@b>"; "a@b."]
  = repeat false 11.
Proof. reflexivity. Qed.

(** * Case insensitivity *)

Definition all_bytes : list ascii := map ascii_of_nat (seq 0 256).
(** A boolean property of bytes that holds of all 256 holds of every byte. *)
Lemma byte_all (P : ascii → bool) : forallb P all_bytes = true → ∀ c, P c = true.
Proof.
  intros H c. apply forallb_Forall in H. rewrite Forall_forall in H. apply H.
  apply list_elem_of_fmap. exists (nat_of_ascii c). rewrite ascii_nat_embedding.
  split; [done|]. apply elem_of_seq. pose proof (nat_ascii_bounded c). lia.
Qed.
Lemma byte_ext {A} `{EqDecision A} (f g : ascii → A) :
  forallb (λ c, bool_decide (f c = g c)) all_bytes = true → ∀ c, f c = g c.
Proof. intros H c. apply (bool_decide_eq_true (f c = g c)). exact (byte_all _ H c). Qed.
Ltac by_all_bytes :=
  match goal with |- ∀ c, @?f c = @?g c => apply (byte_ext f g); vm_compute; reflexivity end.

Lemma atext_lower : ∀ c, atext (lower_byte c) = atext c.
Proof. by_all_bytes. Qed.
Lemma is_hex_lower : ∀ c, is_hex (lower_byte c) = is_hex c.
Proof. by_all_bytes. Qed.
Lemma is_digit_lower : ∀ c, is_digit (lower_byte c) = is_digit c.
Proof. by_all_bytes. Qed.
Lemma digit_val_lower c : is_digit c = true → lower_byte c = c.
Proof.
  intros Hc. pose proof (byte_all (λ c, negb (is_digit c) || bool_decide (lower_byte c = c)) eq_refl c) as H.
  simpl in H. rewrite Hc in H. by apply bool_decide_eq_true in H.
Qed.
Lemma lower_byte_idemp : ∀ c, lower_byte (lower_byte c) = lower_byte c.
Proof. by_all_bytes. Qed.

(** Bytes that only they are mapped to by [lower_byte]. *)
Definition inert_at (x c : ascii) : bool :=
  Bool.eqb (bool_decide (lower_byte c = x)) (bool_decide (c = x)).
Definition inert (x : ascii) : bool := forallb (inert_at x) all_bytes.
Lemma inert_spec x c : inert x = true → lower_byte c = x ↔ c = x.
Proof.
  intros H. pose proof (byte_all (inert_at x) H c) as Hc. unfold inert_at in Hc.
  apply Bool.eqb_prop in Hc. by rewrite <-(bool_decide_eq_true (lower_byte c = x)), Hc, bool_decide_eq_true.
Qed.
Lemma decide_inert {A} x c (a b : A) : inert x = true →
  (if decide (lower_byte c = x) then a else b) = (if decide (c = x) then a else b).
Proof. intros H. pose proof (inert_spec x c H). by do 2 case_decide; try tauto. Qed.
Lemma bool_decide_inert x c : inert x = true →
  bool_decide (lower_byte c = x) = bool_decide (c = x).
Proof. intros H. apply bool_decide_ext. by apply inert_spec. Qed.

Notation lowers := (map lower_byte).

Lemma has_prefix_b_lower p l : forallb inert p = true → has_prefix_b p (lowers l) = has_prefix_b p l.
Proof.
  intros Hp. apply eq_true_iff_eq. rewrite !has_prefix_b_spec.
  revert l; induction p as [|x p IH]; intros l; [split; eauto|].
  simpl in Hp. apply andb_prop in Hp as [Hx Hp]. specialize (IH Hp).
  destruct l as [|c l]; simpl; [split; intros [k Hk]; done|].
  pose proof (inert_spec x c Hx) as Hc. split; intros [k Hk]; injection Hk as Hk1 Hk2.
  - destruct (proj1 (IH l)) as [k' Hk']; [by exists k|]. exists k'. f_equal; [by apply Hc|done].
  - destruct (proj2 (IH l)) as [k' Hk']; [by exists k|]. exists k'. f_equal; [by apply Hc|done].
Qed.
Lemma index_b_lower p l : forallb inert p = true → index_b p (lowers l) = index_b p l.
Proof.
  intros Hp. induction l as [|c l IH]; simpl; [done|].
  pose proof (has_prefix_b_lower p (c :: l) Hp) as H. simpl in H. by rewrite H, IH.
Qed.
Lemma contains_b_lower p l : forallb inert p = true → contains_b (lowers l) p = contains_b l p.
Proof. intros Hp. unfold contains_b. by rewrite index_b_lower. Qed.
Lemma has_suffix_b_lower x l : inert x = true → has_suffix_b [x] (lowers l) = has_suffix_b [x] l.
Proof.
  intros Hx. apply bool_decide_ext. destruct l as [|c l _] using rev_ind.
  { done. }
  rewrite map_app. cbn [map]. pose proof (inert_spec x c Hx) as Hc.
  split; intros [k Hk]; apply app_inj_tail in Hk as [_ Hk].
  - exists l. f_equal. f_equal. by apply Hc.
  - exists (lowers l). f_equal. f_equal. by apply Hc.
Qed.
Lemma index_byte_lower x l : inert x = true → index_byte x (lowers l) = index_byte x l.
Proof. intros Hx. induction l as [|c l IH]; simpl; [done|]. by rewrite IH, decide_inert. Qed.
Lemma split_b_lower x l : inert x = true → split_b x (lowers l) = map (λ w, lowers w) (split_b x l).
Proof.
  intros Hx. induction l as [|c l IH]; simpl; [done|]. rewrite IH, decide_inert by done.
  case_decide; [done|]. by destruct (split_b x l).
Qed.
Lemma elem_of_lower x l : inert x = true → x ∈ lowers l ↔ x ∈ l.
Proof.
  intros Hx. rewrite list_elem_of_fmap. split.
  - intros (c & Hc & Hin). pose proof (inert_spec x c Hx) as [Hi _]. by rewrite <-(Hi (eq_sym Hc)).
  - intros Hin. exists x. split; [|done]. symmetry. by apply inert_spec.
Qed.

Lemma parse_digits_lower l : parse_digits (lowers l) = parse_digits l.
Proof.
  destruct l as [|c l]; [done|]. unfold parse_digits. cbn [map].
  change (lower_byte c :: lowers l) with (lowers (c :: l)). generalize (c :: l). clear c l. intros l.
  assert (forallb is_digit (lowers l) = forallb is_digit l) as ->.
  { induction l as [|c l IH]; simpl; [done|]. by rewrite is_digit_lower, IH. }
  destruct (forallb is_digit l) eqn:Hd; [|done]. repeat f_equal.
  induction l as [|c l IH]; simpl in *; [done|]. apply andb_prop in Hd as [Hc Hd].
  by rewrite digit_val_lower, IH.
Qed.
Lemma octet_lower l : octet (lowers l) = octet l.
Proof.
  destruct l as [|c [|c' l]]; [done|apply is_digit_lower|]. unfold octet. cbn [map].
  rewrite (bool_decide_inert "0"%char) by reflexivity.
  pose proof (parse_digits_lower (c :: c' :: l)) as H. cbn [map] in H. rewrite H. done.
Qed.
Lemma ipv4_lower l : ipv4 (lowers l) = ipv4 l.
Proof.
  unfold ipv4. rewrite split_b_lower by reflexivity. unfold zlen. rewrite length_map. f_equal.
  induction (split_b "."%char l) as [|w ws IH]; simpl; [done|]. by rewrite octet_lower, IH.
Qed.
Lemma hex_run_lower l : hex_run (lowers l) = hex_run l.
Proof. induction l as [|c l IH]; simpl; [done|]. by rewrite is_hex_lower, IH. Qed.

Lemma ipv6_groups_lower n ell l :
  ipv6_groups n ell (lowers l) = prod_map id lowers <$> ipv6_groups n ell l.
Proof.
  revert ell l; induction n as [|n IH]; intros ell l; [done|]. cbn [ipv6_groups].
  rewrite hex_run_lower. case_match; [done|].
  replace (drop (hex_run l) (lowers l)) with (lowers (drop (hex_run l) l)) by (symmetry; apply skipn_map).
  destruct (drop (hex_run l) l) as [|c l']; [done|]. cbn [map].
  rewrite !decide_inert by reflexivity. case_decide.
  { rewrite ipv4_lower. by repeat case_match. }
  case_decide; [|done]. destruct l' as [|c' l'']; [done|]. cbn [map].
  rewrite decide_inert by reflexivity. case_decide.
  - destruct ell; [done|]. destruct l'' as [|d l3]; [done|]. apply (IH true (d :: l3)).
  - apply (IH ell (c' :: l'')).
Qed.
Lemma ipv6_end_lower r : ipv6_end (prod_map id lowers <$> r) = ipv6_end r.
Proof. destruct r as [[[n ell] [|c l]]|]; done. Qed.
Lemma ipv6_lower l : ipv6 (lowers l) = ipv6 l.
Proof.
  assert (∀ ell l, ipv6_end (ipv6_groups 8 ell (lowers l)) = ipv6_end (ipv6_groups 8 ell l)) as He.
  { intros. by rewrite ipv6_groups_lower, ipv6_end_lower. }
  destruct l as [|c1 [|c2 l']]; [done|apply (He false [c1])|]. unfold ipv6. cbn [map].
  pose proof (inert_spec ":" c1 eq_refl). pose proof (inert_spec ":" c2 eq_refl).
  destruct (decide (c1 = ":"%char ∧ c2 = ":"%char)).
  - rewrite decide_True by tauto. destruct l' as [|d l3]; [done|]. apply (He true (d :: l3)).
  - rewrite decide_False by tauto. apply (He false (c1 :: c2 :: l')).
Qed.
Lemma ip_family_lower l : ip_family (lowers l) = ip_family l.
Proof.
  induction l as [|c l IH]; simpl; [done|]. rewrite IH.
  assert (∀ c, bool_decide (lower_byte c ∈ ["."; ":"; "%"]%char) = bool_decide (c ∈ ["."; ":"; "%"]%char)) as Hf
    by by_all_bytes.
  rewrite Hf. case_match eqn:Hc; [|done]. f_equal. bool_to_prop. revert Hc.
  rewrite !elem_of_cons, elem_of_nil. intros [->|[->|[->|[]]]]; reflexivity.
Qed.
Lemma parse_ip_lower l : parse_ip (lowers l) = parse_ip l.
Proof.
  unfold parse_ip. rewrite ip_family_lower, ipv4_lower, ipv6_lower. case_match; [|done].
  case_decide; [done|]. case_decide; [|done]. f_equal. f_equal. apply bool_decide_ext.
  by apply elem_of_lower.
Qed.

Lemma dot_atom_lower l : dot_atom (lowers l) = dot_atom l.
Proof.
  unfold dot_atom. rewrite has_prefix_b_lower, contains_b_lower, has_suffix_b_lower by reflexivity.
  do 3 f_equal. destruct l as [|c l]; [done|]. simpl. rewrite atext_lower. f_equal.
  induction l as [|d l IH]; simpl; [done|]. by rewrite atext_lower, IH.
Qed.
Lemma domain_literal_lower l : domain_literal (lowers l) = domain_literal l.
Proof.
  destruct l as [|c l]; [done|]. unfold domain_literal. cbn [map].
  rewrite bool_decide_inert by reflexivity. f_equal.
  assert (∀ r, reverse (lowers r) = lowers (reverse r)) as Hr.
  { intros r. symmetry. exact (fmap_reverse lower_byte r). }
  rewrite Hr. destruct (reverse l) as [|d r]; [done|]. cbn [map].
  by rewrite bool_decide_inert, Hr, parse_ip_lower by reflexivity.
Qed.

(** Whether a text is a plain address does not depend on letter case. *)
Lemma plain_address_lower l : plain_address (lowers l) = plain_address l.
Proof.
  unfold plain_address. rewrite index_byte_lower by reflexivity. case_match; [|done].
  replace (take n (lowers l)) with (lowers (take n l)) by (symmetry; apply firstn_map).
  replace (drop (S n) (lowers l)) with (lowers (drop (S n) l)) by (symmetry; apply skipn_map).
  by rewrite !dot_atom_lower, domain_literal_lower.
Qed.

(** * Ends of an address *)

Lemma graphic_lower : ∀ c, graphic (lower_byte c) = graphic c.
Proof. by_all_bytes. Qed.
Lemma solid_lower l : solid (lowers l) = solid l.
Proof.
  unfold solid. rewrite <-(fmap_reverse lower_byte l : lowers (reverse l) = reverse (lowers l)).
  destruct l as [|c l]; [done|]. cbn [map starts_graphic]. rewrite graphic_lower. f_equal.
  destruct (reverse (c :: l)); [done|]. apply graphic_lower.
Qed.
Lemma dot_atom_starts l : dot_atom l = true → starts_graphic l = true ∧ starts_graphic (reverse l) = true.
Proof.
  unfold dot_atom. intros [[[[Hne Hall]%andb_prop _]%andb_prop _]%andb_prop _]%andb_prop.
  rewrite forallb_Forall, Forall_forall in Hall.
  assert (∀ c l', (∀ x, x ∈ c :: l' → x ∈ l) → starts_graphic (c :: l') = true) as Hg.
  { intros c l' Hin. specialize (Hall c (Hin c ltac:(left))). unfold atext in Hall.
    simpl. unfold graphic. by apply andb_prop in Hall as [[_ ->]%andb_prop ->]. }
  split; [destruct l; [done|by apply Hg]|].
  destruct (reverse l) as [|c l'] eqn:E.
  - apply (f_equal reverse) in E. rewrite reverse_involutive in E. by subst.
  - apply Hg. intros x. by rewrite <-E, elem_of_reverse.
Qed.
Lemma plain_address_solid l : plain_address l = true → solid l = true.
Proof.
  unfold plain_address, solid. destruct (index_byte "@" l) as [i|] eqn:Hi; [|done].
  apply index_byte_Some in Hi as (_ & _ & Hl). intros [Ha%dot_atom_starts Hd]%andb_prop.
  destruct Ha as [Ha _]. apply andb_true_intro. split.
  { rewrite Hl. by destruct (take i l). }
  assert (starts_graphic (reverse (drop (S i) l)) = true) as Hr.
  { apply orb_prop in Hd as [Hd|Hd]; [by apply dot_atom_starts in Hd as [_ ?]|].
    unfold domain_literal in Hd. destruct (drop (S i) l) as [|c l']; [done|].
    apply andb_prop in Hd as [_ Hd]. rewrite reverse_cons. destruct (reverse l') as [|c' r]; [done|].
    apply andb_prop in Hd as [Hc _]. by apply bool_decide_eq_true in Hc as ->. }
  rewrite Hl, reverse_app, reverse_cons. by destruct (reverse (drop (S i) l)).
Qed.
