(* ===== verification/Config.v ===== *)
(** Configuration (src/internal/config/config.go): boolean and log-level
    parsing, the SMTP recipient policy, credential files, [Load], [Validate]
    and the effective capabilities.

    The process environment, the file system and the time-zone database are
    the arguments [World] of the operations that read them. *)
From S2P Require Import Prelude GoStrings GoTime NetMail Scopes.

(** * Scalars *)

Definition parseBool `{UnicodeTables} (envVar value : string) : result string bool :=
  let v := to_lower (trim_space value) in
  if bool_decide (v ∈ [""; "0"; "false"]) then Ok false
  else if bool_decide (v ∈ ["1"; "true"]) then Ok true
  else Err ("invalid " ++ envVar ++ ": expected 0, false, 1, or true").

(** [slog.Level] values. *)
Definition LevelDebug : Z := -4.
Definition LevelInfo : Z := 0.
Definition LevelWarn : Z := 4.
Definition LevelError : Z := 8.
Definition parseLogLevel `{UnicodeTables} (v : string) : Z :=
  let v := to_lower (trim_space v) in
  if bool_decide (v ∈ ["debug"; "-4"]) then LevelDebug
  else if bool_decide (v ∈ ["warn"; "warning"; "2"]) then LevelWarn
  else if bool_decide (v ∈ ["error"; "4"]) then LevelError
  else LevelInfo.

Definition isASCII (value : string) : bool := is_ascii_b (bytes value).
Definition asciiLower (value : string) : string := str (map lower_byte (bytes value)).
Definition hasCredentialControl (value : string) : bool := contains_any value cr_lf_nul.

(** [mail.ParseAddress(value)] succeeds with no name and gives [value] back. *)
Definition parsed_plainly (value : string) : bool := plain_address (bytes value).

Definition normalizePlainAddress (value : string) : result string string :=
  reject contains_any value cr_lf_nul with "invalid address" ;;
  let value := trim_space value in
  reject bool_decide (value = "") || negb (isASCII value) with "invalid address" ;;
  reject negb (parsed_plainly value) with "invalid address" ;;
  Ok (asciiLower value).

(** * RecipientPolicy *)

Definition smtpAllowedRecipientsEnvVar : string := "ICLOUD_MCP_SMTP_ALLOWED_RECIPIENTS".

Record RecipientPolicy := MkRecipientPolicy { allowAll : bool; exact : gset string }.
#[export] Instance RecipientPolicy_eq_dec : EqDecision RecipientPolicy.
Proof. solve_decision. Defined.
Definition no_recipients : RecipientPolicy := MkRecipientPolicy false ∅.

Definition parse_recipient (exact : gset string) (part : string) : result string (gset string) :=
  reject contains part "*"
    with "invalid " ++ smtpAllowedRecipientsEnvVar ++ ": wildcard is valid only as the complete value" ;;
  match normalizePlainAddress part with
  | Err _ => Err ("invalid " ++ smtpAllowedRecipientsEnvVar ++ ": expected exact email addresses or literal *")
  | Ok address =>
      if decide (address ∈ exact)
      then Err ("invalid " ++ smtpAllowedRecipientsEnvVar ++ ": duplicate email address")
      else Ok ({[address]} ∪ exact)
  end.

Definition ParseRecipientPolicy (value : string) : result string RecipientPolicy :=
  let value := trim_space value in
  if decide (value = "") then Err (smtpAllowedRecipientsEnvVar ++ " must not be empty")
  else if decide (value = "*") then Ok (MkRecipientPolicy true ∅)
  else
    exact ← fold_res parse_recipient (split value ","%char) ∅;
    Ok (MkRecipientPolicy false exact).

Definition Allows (p : RecipientPolicy) (address : string) : bool :=
  match normalizePlainAddress address with
  | Err _ => false
  | Ok normalized => if allowAll p then true else bool_decide (normalized ∈ exact p)
  end.

Definition policy_Configured (p : RecipientPolicy) : bool :=
  allowAll p || negb (bool_decide (size (exact p) = 0%nat)).

Definition Recipients (p : RecipientPolicy) : list string :=
  if allowAll p then ["*"] else sort_strings (elements (exact p)).

Definition recipientPolicyFromAddresses (addresses : list string) : result string RecipientPolicy :=
  if (length addresses =? 0)%nat then Ok no_recipients
  else ParseRecipientPolicy (join addresses ",").

(** * Config *)

Record Config := MkConfig {
  Email : string;
  Password : string;
  ReadOnly : bool;
  CfgPermissions : Permissions;
  CfgResourceScopes : ResourceScopes;
  EnableContacts : bool;
  EnableMail : bool;
  EnableMailWrite : bool;
  EnableMailSend : bool;
  MailAddress : string;
  MailPassword : string;
  SMTPAllowedRecipients : list string;
  SMTPRecipientPolicy : RecipientPolicy;
  Timeout : Z;
  LogLevel : Z;
  DefaultLocation : Location;
}.

Definition icloudTimeout : Z := 30 * second.
Definition maxCredentialFileBytes : Z := 4096.
Definition minRedactableIdentityBytes : Z := 4.

(** The four fields [Validate] may rewrite. *)
Definition with_email (c : Config) (email : string) : Config :=
  let '(MkConfig _ pw ro p rs ec em ew es ma mp ar rp t l d) := c in
  MkConfig email pw ro p rs ec em ew es ma mp ar rp t l d.
Definition with_mail (c : Config) (address password : string) : Config :=
  let '(MkConfig e pw ro p rs ec em ew es _ _ ar rp t l d) := c in
  MkConfig e pw ro p rs ec em ew es address password ar rp t l d.
Definition with_policy (c : Config) (policy : RecipientPolicy) : Config :=
  let '(MkConfig e pw ro p rs ec em ew es ma mp _ _ t l d) := c in
  MkConfig e pw ro p rs ec em ew es ma mp (Recipients policy) policy t l d.

Definition domains (c : Config) : bool * bool * bool :=
  requestedDomains (EnableContacts c) (EnableMail c) (CfgPermissions c).
Definition requestsCalendar (c : Config) : bool := (domains c).1.1.
Definition requestsContacts (c : Config) : bool := (domains c).1.2.
Definition requestsMail (c : Config) : bool := (domains c).2.

(** ** Validate *)

Definition validate_account (c : Config) : result string Config :=
  if requestsCalendar c || requestsContacts c then
    reject (len (Email c) <? minRedactableIdentityBytes) || hasCredentialControl (Email c)
      with "invalid ICLOUD_EMAIL: must be a valid email address" ;;
    match normalizePlainAddress (Email c) with
    | Err _ => Err "invalid ICLOUD_EMAIL: must be a valid email address"
    | Ok normalizedEmail =>
        reject len normalizedEmail <? minRedactableIdentityBytes
          with "invalid ICLOUD_EMAIL: must be a valid email address" ;;
        let c := with_email c normalizedEmail in
        reject hasCredentialControl (Password c)
          with "invalid ICLOUD_PASSWORD: must not contain CR, LF, or NUL" ;;
        reject len (Password c) <? 8
          with "ICLOUD_PASSWORD must be at least 8 characters: use an app-specific password generated on appleid.apple.com" ;;
        Ok c
    end
  else Ok c.

Definition validate_switches (c : Config) : result string unit :=
  reject EnableMailWrite c && negb (EnableMail c)
    with "ICLOUD_MCP_ENABLE_MAIL_WRITE requires ICLOUD_MCP_ENABLE_MAIL=true" ;;
  reject EnableMailSend c && negb (EnableMail c)
    with "ICLOUD_MCP_ENABLE_MAIL_SEND requires ICLOUD_MCP_ENABLE_MAIL=true" ;;
  let p := CfgPermissions c in
  if p_configured p then
    reject (p_contactsRead p || RequestedContactsMutation p) && negb (EnableContacts c)
      with "ICLOUD_MCP_PERMISSIONS requires ICLOUD_MCP_ENABLE_CONTACTS=true for Contacts capabilities" ;;
    reject (p_mailRead p || RequestedMailMutation p || p_mailSend p || p_mailArchive p) && negb (EnableMail c)
      with "ICLOUD_MCP_PERMISSIONS requires ICLOUD_MCP_ENABLE_MAIL=true for Mail capabilities" ;;
    reject p_mailArchive p && negb (p_mailSend p)
      with "ICLOUD_MCP_PERMISSIONS requires mail.send for mail.archive" ;;
    Ok tt
  else Ok tt.

Definition validate_mail (c : Config) : result string Config :=
  if requestsMail c then
    reject hasCredentialControl (MailAddress c)
      with "invalid ICLOUD_MAIL_ADDRESS: must be a full email address" ;;
    match normalizePlainAddress (MailAddress c) with
    | Err _ => Err "invalid ICLOUD_MAIL_ADDRESS: must be a full email address"
    | Ok normalized =>
        reject len normalized <? minRedactableIdentityBytes
          with "invalid ICLOUD_MAIL_ADDRESS: must be a full email address" ;;
        let c := with_mail c normalized
                   (if decide (MailPassword c = "") then Password c else MailPassword c) in
        reject hasCredentialControl (MailPassword c)
          with "invalid ICLOUD_MAIL_PASSWORD: must not contain CR, LF, or NUL" ;;
        reject len (MailPassword c) <? 8
          with "ICLOUD_MAIL_PASSWORD must be at least 8 characters" ;;
        Ok c
    end
  else Ok c.

Definition requestedSend (c : Config) : bool :=
  if p_configured (CfgPermissions c) then p_mailSend (CfgPermissions c) else EnableMailSend c.

Definition validate_policy (c : Config) : result string Config :=
  policy ← recipientPolicyFromAddresses (SMTPAllowedRecipients c);
  let c := with_policy c policy in
  reject requestedSend c && negb (policy_Configured policy)
    with "ICLOUD_MCP_SMTP_ALLOWED_RECIPIENTS is required when mail send is requested" ;;
  Ok c.

Definition Validate (c : Config) : result string Config :=
  c ← validate_account c;
  validate_switches c;;
  c ← validate_mail c;
  validate_policy c.

(** ** Effective capabilities *)

Definition EffectivePermissions (c : Config) : Permissions :=
  if p_configured (CfgPermissions c) then Effective (CfgPermissions c) (ReadOnly c)
  else LegacyPermissions (ReadOnly c) (EnableContacts c) (EnableMail c) (EnableMailWrite c) (EnableMailSend c).
Definition Config_Capabilities (c : Config) : CapabilitySet :=
  Capabilities_of (EffectivePermissions c) (ReadOnly c).
Definition EffectiveContactsWrite (c : Config) : bool := ContactsWrite (Config_Capabilities c).
Definition EffectiveContactsDelete (c : Config) : bool := ContactsDelete (Config_Capabilities c).
Definition EffectiveMailWrite (c : Config) : bool :=
  MailMutate (Config_Capabilities c) || MailTrash (Config_Capabilities c).
Definition EffectiveMailSend (c : Config) : bool :=
  MailSend (Config_Capabilities c) && policy_Configured (SMTPRecipientPolicy c).

(** * Credentials *)

Inductive OSError := OSNotExist | OSPermission | OSOther.
Record FileInfo := MkFileInfo { fi_regular : bool; fi_perm : Z; fi_size : Z }.
(** An open file: what [Stat] says of it now, its bytes, and the offset at
    which reading it fails, if any. *)
Record OpenFile := MkOpenFile {
  of_stat : result OSError FileInfo;
  of_data : list ascii;
  of_fault : option (Z * OSError);
}.
Class World := {
  getenv : string → string;
  os_stat : string → result OSError FileInfo;
  os_open : string → result OSError OpenFile;
  load_location : string → option Location;
}.

Inductive FileError :=
| errCredentialFileNotRegular
| errCredentialFileTooLarge
| errCredentialFileInsecurePerms
| errOS (e : OSError).

(** [io.ReadAll(io.LimitReader(file, n))]: the reader never asks the file for
    more than [n] bytes. *)
Definition read_limited (file : OpenFile) (n : Z) : result OSError (list ascii) :=
  match of_fault file with
  | Some (offset, e) =>
      if (offset <? n) && (offset <=? zlen (of_data file)) then Err e
      else Ok (take (Z.to_nat n) (of_data file))
  | None => Ok (take (Z.to_nat n) (of_data file))
  end.

Definition checkInfo (info : FileInfo) : result FileError unit :=
  reject negb (fi_regular info) with errCredentialFileNotRegular ;;
  reject negb (Z.land (fi_perm info) 63 =? 0) with errCredentialFileInsecurePerms ;;
  reject maxCredentialFileBytes <? fi_size info with errCredentialFileTooLarge ;;
  Ok tt.

Definition os_result {A} (r : result OSError A) : result FileError A :=
  match r with Ok a => Ok a | Err e => Err (errOS e) end.

Section Boot.
Context `{World, UnicodeTables}.

Definition readCredentialFile (path : string) : result FileError (list ascii) :=
  info ← os_result (os_stat path);
  checkInfo info;;
  file ← os_result (os_open path);
  info ← os_result (of_stat file);
  checkInfo info;;
  data ← os_result (read_limited file (maxCredentialFileBytes + 1));
  reject maxCredentialFileBytes <? zlen data with errCredentialFileTooLarge ;;
  Ok data.

Definition hasDotDotSegment (path : string) : bool :=
  existsb (λ seg, bool_decide (seg = "..")) (split path "/"%char).

Definition fileReadReason (e : FileError) : string :=
  match e with
  | errCredentialFileNotRegular => "not_regular"
  | errCredentialFileTooLarge => "too_large"
  | errCredentialFileInsecurePerms => "insecure_permissions"
  | errOS OSNotExist => "not_found"
  | errOS OSPermission => "permission_denied"
  | errOS OSOther => "unreadable"
  end.

Definition loadCredential (envVar : string) : result string string :=
  let val := getenv envVar in
  if has_prefix val "file://" then
    let path := trim_prefix val "file://" in
    reject bool_decide (path = "") with "reading " ++ envVar ++ ": file:// path is empty" ;;
    reject hasDotDotSegment path with "reading " ++ envVar ++ ": file:// path must not contain '..'" ;;
    match readCredentialFile path with
    | Err e => Err ("reading " ++ envVar ++ " from file:// failed (" ++ fileReadReason e ++ ")")
    | Ok data => Ok (trim_space (str data))
    end
  else Ok val.

Definition loadDefaultLocation (tz : string) : result string Location :=
  if decide (tz = "") then Ok UTC
  else match load_location tz with
       | Some loc => Ok loc
       | None => Err "invalid ICLOUD_MCP_DEFAULT_TZ: must be a valid IANA timezone name"
       end.

(** ** Load *)

Definition env_bool (envVar : string) : result string bool := parseBool envVar (getenv envVar).

Definition load_accounts (domains : bool * bool * bool) : result string (string * string) :=
  let '(calendarRequested, contactsRequested, mailRequested) := domains in
  password ←
    (if calendarRequested || contactsRequested
        || mailRequested && bool_decide (trim_space (getenv "ICLOUD_MAIL_PASSWORD") = "")
     then loadCredential "ICLOUD_PASSWORD" else Ok "");
  email ← (if calendarRequested || contactsRequested then loadCredential "ICLOUD_EMAIL" else Ok "");
  Ok (email, password).

Definition load_mail (mailRequested : bool) (password : string) : result string (string * string) :=
  if mailRequested then
    mailAddress ← loadCredential "ICLOUD_MAIL_ADDRESS";
    if decide (getenv "ICLOUD_MAIL_PASSWORD" = "") then Ok (mailAddress, password)
    else
      mailPassword ← loadCredential "ICLOUD_MAIL_PASSWORD";
      Ok (mailAddress, mailPassword)
  else Ok ("", "").

Definition load_policy : result string RecipientPolicy :=
  if decide (trim_space (getenv smtpAllowedRecipientsEnvVar) = "") then Ok no_recipients
  else ParseRecipientPolicy (getenv smtpAllowedRecipientsEnvVar).

Definition Load : result string Config :=
  readOnly ← env_bool "ICLOUD_MCP_READ_ONLY";
  enableContacts ← env_bool "ICLOUD_MCP_ENABLE_CONTACTS";
  enableMail ← env_bool "ICLOUD_MCP_ENABLE_MAIL";
  enableMailWrite ← env_bool "ICLOUD_MCP_ENABLE_MAIL_WRITE";
  enableMailSend ← env_bool "ICLOUD_MCP_ENABLE_MAIL_SEND";
  permissions ← ParsePermissions (getenv permissionsEnvVar);
  resourceScopes ← ParseResourceScopes (getenv "ICLOUD_MCP_RESOURCE_SCOPES");
  let requested := requestedDomains enableContacts enableMail permissions in
  accounts ← load_accounts requested;
  loc ← loadDefaultLocation (getenv "ICLOUD_MCP_DEFAULT_TZ");
  mail ← load_mail requested.2 accounts.2;
  recipientPolicy ← load_policy;
  Validate
    (MkConfig accounts.1 accounts.2 readOnly permissions resourceScopes
       enableContacts enableMail enableMailWrite enableMailSend mail.1 mail.2
       (Recipients recipientPolicy) recipientPolicy icloudTimeout
       (parseLogLevel (getenv "ICLOUD_MCP_LOG_LEVEL")) loc).
End Boot.

(** * Addresses *)

Lemma elem_of_asciiLower c s : inert c = true → c ∈ bytes (asciiLower s) ↔ c ∈ bytes s.
Proof. intros Hc. unfold asciiLower. rewrite bytes_str. by apply elem_of_lower. Qed.
Lemma contains_any_lower s cs :
  forallb inert (bytes cs) = true → contains_any (asciiLower s) cs = contains_any s cs.
Proof.
  intros Hcs. apply forallb_Forall in Hcs. rewrite Forall_forall in Hcs.
  apply eq_true_iff_eq. rewrite <-!not_false_iff_true, !contains_any_false.
  assert (∀ c, c ∈ bytes cs → c ∈ bytes (asciiLower s) ↔ c ∈ bytes s) as He
    by eauto using elem_of_asciiLower.
  split; intros H H'; apply H; intros c Hc Hc'; by eapply H'; [apply He|].
Qed.
Lemma contains_any_trim s cs : contains_any s cs = false → contains_any (trim_space s) cs = false.
Proof. rewrite !contains_any_false. eauto using elem_of_trim_space. Qed.

Lemma lower_byte_ascii c : byte_val c <? utf8_self = true → byte_val (lower_byte c) <? utf8_self = true.
Proof.
  pose proof (byte_all (λ c, negb (byte_val c <? utf8_self) || (byte_val (lower_byte c) <? utf8_self)) eq_refl c) as H.
  simpl in H. intros Hc. by rewrite Hc in H.
Qed.
Lemma isASCII_lower s : isASCII s = true → isASCII (asciiLower s) = true.
Proof.
  unfold isASCII, is_ascii_b, asciiLower. rewrite bytes_str, !forallb_Forall, Forall_map.
  intros H. eapply Forall_impl; [exact H|]. intros c. apply lower_byte_ascii.
Qed.
Lemma asciiLower_idemp s : asciiLower (asciiLower s) = asciiLower s.
Proof.
  unfold asciiLower. rewrite bytes_str, map_map. f_equal. apply map_ext. apply lower_byte_idemp.
Qed.

(** What [normalizePlainAddress] returns is a fixed point of it. *)
Lemma normalize_spec v n :
  normalizePlainAddress v = Ok n →
  n = asciiLower (trim_space v) ∧ solid (bytes n) = true ∧ contains_any n cr_lf_nul = false ∧
  normalizePlainAddress n = Ok n.
Proof.
  unfold normalizePlainAddress at 1. case_match eqn:Hc; [done|]. case_match eqn:Ha; [done|].
  case_match eqn:Hp; [done|]. intros [= <-]. bool_to_prop. set (s := trim_space v) in *.
  assert (solid (bytes (asciiLower s)) = true) as Hs.
  { unfold asciiLower. rewrite bytes_str, solid_lower. by apply plain_address_solid. }
  assert (contains_any (asciiLower s) cr_lf_nul = false) as Hn.
  { rewrite contains_any_lower by reflexivity. by apply contains_any_trim. }
  split_and!; [done|done|done|]. unfold normalizePlainAddress. rewrite Hn, trim_space_solid by done.
  rewrite isASCII_lower by done. rewrite bool_decide_eq_false_2. 2: { intros He. by rewrite He in Hs. }
  unfold parsed_plainly, asciiLower at 1. rewrite bytes_str, plain_address_lower.
  unfold parsed_plainly in Hp. rewrite Hp. simpl. by rewrite asciiLower_idemp.
Qed.
Lemma normalize_inert v n c : normalizePlainAddress v = Ok n → inert c = true → c ∈ bytes n → c ∈ bytes v.
Proof.
  intros Hn Hc. apply normalize_spec in Hn as (-> & _). rewrite elem_of_asciiLower by done.
  apply elem_of_trim_space.
Qed.

(** * The recipient policy *)

(** An address that can be an entry: a normal form without list syntax. *)
Definition listable (a : string) : Prop :=
  normalizePlainAddress a = Ok a ∧ solid (bytes a) = true ∧ contains a "*" = false ∧ ","%char ∉ bytes a.
Definition policy_ok (p : RecipientPolicy) : Prop :=
  (allowAll p = true → exact p = ∅) ∧ ∀ a, a ∈ exact p → listable a.

Lemma parse_recipient_ok ex part ex' :
  ","%char ∉ bytes part → parse_recipient ex part = Ok ex' →
  ∃ a, normalizePlainAddress part = Ok a ∧ a ∉ ex ∧ ex' = {[a]} ∪ ex ∧ listable a.
Proof.
  intros Hcomma. unfold parse_recipient. case_match eqn:Hs; [done|].
  destruct (normalizePlainAddress part) as [a|] eqn:Ha; [|done].
  destruct (decide (a ∈ ex)); [done|]. intros [= <-]. exists a. split_and!; [done|done|done|].
  pose proof (normalize_spec _ _ Ha) as (_ & Hsol & _ & Hfix).
  split_and!; [done|done| |].
  - apply (contains_byte_false _ "*"%char). apply (contains_byte_false _ "*"%char) in Hs.
    intros Hin. by eapply normalize_inert in Hin.
  - intros Hin. by eapply normalize_inert in Hin.
Qed.
Lemma parse_recipients_ok parts ex ex' :
  Forall (λ w, ","%char ∉ bytes w) parts → (∀ a, a ∈ ex → listable a) →
  fold_res parse_recipient parts ex = Ok ex' →
  (∀ a, a ∈ ex' → listable a) ∧
  ∀ a, a ∈ ex' ↔ a ∈ ex ∨ ∃ part, part ∈ parts ∧ normalizePlainAddress part = Ok a.
Proof.
  revert ex; induction parts as [|part parts IH]; intros ex Hc Hex; simpl.
  { intros [= <-]. split; [done|]. intros a. split; [by left|].
    intros [?|(? & []%elem_of_nil & _)]. done. }
  apply Forall_cons in Hc as [Hp Hc].
  destruct (parse_recipient ex part) as [ex1|] eqn:E; [|done].
  apply parse_recipient_ok in E as (a & Ha & Hnin & -> & Hl); [|done].
  intros Hf. apply IH in Hf as [Hok Hmem]; [|done|].
  2: { intros b [->%elem_of_singleton|Hb]%elem_of_union; [done|by apply Hex]. }
  split; [done|]. intros b. rewrite Hmem, elem_of_union, elem_of_singleton. split.
  - intros [[->|Hb]|(w & Hw & Hn)]; [right; exists part; split; [left|done]|by left|].
    right. exists w. split; [by right|done].
  - intros [Hb|(w & [->|Hw]%elem_of_cons & Hn)]; [by left; right| |right; by exists w].
    left; left. congruence.
Qed.

Lemma split_no_sep s sep : Forall (λ w, sep ∉ bytes w) (split s sep).
Proof. rewrite Forall_forall. intros w Hw Hin. eapply elem_of_split in Hin as [_ ?]; [|exact Hw]. done. Qed.

(** The recipient policy allows exactly the addresses whose normal form is
    the normal form of a listed address; under the whole-value wildcard,
    exactly the syntactically valid ones. *)
Theorem ParseRecipientPolicy_allows value p address :
  ParseRecipientPolicy value = Ok p →
  Allows p address = true ↔
  ∃ a, normalizePlainAddress address = Ok a ∧
       (trim_space value = "*" ∨
        ∃ part, part ∈ split (trim_space value) ","%char ∧ normalizePlainAddress part = Ok a).
Proof.
  unfold ParseRecipientPolicy, Allows. destruct (decide (trim_space value = "")); [done|].
  destruct (decide (trim_space value = "*")) as [Hs|Hs].
  { intros [= <-]. simpl. destruct (normalizePlainAddress address); naive_solver. }
  rewrite bind_ok. intros (ex & Hf & [= <-]). simpl.
  apply parse_recipients_ok in Hf as [_ Hmem]; [|apply split_no_sep|by intros ? []%not_elem_of_empty].
  destruct (normalizePlainAddress address) as [a|]; [|by split; [done|]; intros (? & ? & _)].
  rewrite bool_decide_eq_true, Hmem. split.
  - intros [[]%not_elem_of_empty|Hw]. eauto.
  - intros (b & [= <-] & [?|Hw]); [done|by right].
Qed.
Lemma ParseRecipientPolicy_allows_witness :
  let p := MkRecipientPolicy false (list_to_set ["b@y.org"; "a@x.org"]) in
  ParseRecipientPolicy "A@x.org, b@y.org" = Ok p ∧
  ∃ a, normalizePlainAddress "B@Y.org" = Ok a ∧
    (trim_space "A@x.org, b@y.org" = "*" ∨
     ∃ part, part ∈ split (trim_space "A@x.org, b@y.org") ","%char ∧ normalizePlainAddress part = Ok a).
Proof.
  intros p.
  assert (ParseRecipientPolicy "A@x.org, b@y.org" = Ok p) as H by (vm_compute; reflexivity).
  split; [exact H|]. apply (proj1 (ParseRecipientPolicy_allows _ p "B@Y.org" H)). vm_compute. reflexivity.
Defined.

Lemma ParseRecipientPolicy_ok value p : ParseRecipientPolicy value = Ok p → policy_ok p.
Proof.
  unfold ParseRecipientPolicy. destruct (decide _); [done|].
  destruct (decide _); [intros [= <-]; split; [done|by intros ? []%not_elem_of_empty]|].
  rewrite bind_ok. intros (ex & Hf & [= <-]). split; [done|]. simpl.
  by apply parse_recipients_ok in Hf as [? _]; [|apply split_no_sep|intros ? []%not_elem_of_empty].
Qed.

Lemma parse_recipients_listable l ex :
  NoDup l → Forall listable l → (∀ a, a ∈ l → a ∉ ex) →
  fold_res parse_recipient l ex = Ok (list_to_set l ∪ ex).
Proof.
  revert ex; induction l as [|a l IH]; intros ex Hnd Hl Hdis; simpl.
  { f_equal. by rewrite (left_id_L ∅ (∪)). }
  apply NoDup_cons in Hnd as [Ha Hnd]. apply Forall_cons in Hl as [(Hfix & _ & Hstar & _) Hl].
  unfold parse_recipient at 1. rewrite Hstar, Hfix, decide_False by (apply Hdis; left).
  rewrite IH; [f_equal; set_solver|done|done|].
  intros b Hb. rewrite not_elem_of_union, not_elem_of_singleton.
  split; [congruence|]. apply Hdis. by right.
Qed.

(** The addresses a policy reports parse back to the policy. *)
Lemma Recipients_roundtrip p : policy_ok p → recipientPolicyFromAddresses (Recipients p) = Ok p.
Proof.
  intros [Hall Hok]. unfold Recipients. destruct p as [[] ex]; cbn [allowAll exact] in *.
  { rewrite (Hall eq_refl). by vm_compute. }
  unfold sort_strings. set (l := merge_sort string_le (elements ex)).
  assert (l ≡ₚ elements ex) as Hperm by apply merge_sort_Permutation.
  assert (NoDup l) as Hnd by (rewrite Hperm; apply NoDup_elements).
  assert (Forall listable l) as Hl.
  { rewrite Hperm, Forall_forall. intros a. rewrite elem_of_elements. apply Hok. }
  assert (list_to_set l = ex) as Hset.
  { apply set_eq. intros a. by rewrite elem_of_list_to_set, Hperm, elem_of_elements. }
  unfold recipientPolicyFromAddresses. destruct l as [|a l'] eqn:E; [by rewrite <-Hset|].
  rewrite <-E in *. assert (l ≠ []) as Hne by (by rewrite E).
  replace (length l =? 0)%nat with false by (by rewrite E).
  pose proof (Forall_impl _ _ _ Hl (λ a Ha, proj1 (proj2 Ha))) as Hsol.
  pose proof (solid_join _ "," Hne Hsol) as Hs.
  assert ("*"%char ∉ bytes (join l ",")) as Hstar.
  { intros [Hin|(w & Hw & Hin)]%elem_of_join; [by apply list_elem_of_singleton in Hin|].
    rewrite Forall_forall in Hl. apply Hl in Hw as (_ & _ & Hc & _).
    by apply (contains_byte_false _ "*"%char) in Hc. }
  unfold ParseRecipientPolicy. rewrite trim_space_solid by done.
  rewrite decide_False by (intros He; by rewrite He in Hs).
  rewrite decide_False by (intros He; rewrite He in Hstar; apply Hstar; left).
  assert (split (join l ",") ","%char = l) as ->.
  { apply (split_join l ","%char); [done|]. eapply Forall_impl; [exact Hl|]. by intros b (_ & _ & _ & ?). }
  rewrite parse_recipients_listable by (done || (intros; apply not_elem_of_empty)).
  cbn. by rewrite Hset, (right_id_L ∅ (∪)).
Qed.

(** * Validate *)

Definition valid_identity (address password : string) : Prop :=
  normalizePlainAddress address = Ok address ∧ 4 <= len address ∧
  single_line password ∧ 8 <= len password.

(** A configuration the program may run with. *)
Record config_ok (c : Config) : Prop := {
  ok_account : requestsCalendar c || requestsContacts c = true → valid_identity (Email c) (Password c);
  ok_mail : requestsMail c = true → valid_identity (MailAddress c) (MailPassword c);
  ok_policy : policy_ok (SMTPRecipientPolicy c);
  ok_recipients : SMTPAllowedRecipients c = Recipients (SMTPRecipientPolicy c);
  ok_send : requestedSend c = true → policy_Configured (SMTPRecipientPolicy c) = true;
  ok_switches : validate_switches c = Ok tt;
}.

(** The settings [Validate] never touches. *)
Definition settings (c : Config) :=
  (Password c, ReadOnly c, CfgPermissions c, CfgResourceScopes c,
   (EnableContacts c, EnableMail c, EnableMailWrite c, EnableMailSend c),
   Timeout c, LogLevel c, DefaultLocation c).

Lemma validate_account_ok c c' :
  validate_account c = Ok c' →
  settings c' = settings c ∧ MailPassword c' = MailPassword c ∧ MailAddress c' = MailAddress c ∧
  SMTPAllowedRecipients c' = SMTPAllowedRecipients c ∧
  (requestsCalendar c || requestsContacts c = true → valid_identity (Email c') (Password c')).
Proof.
  unfold validate_account. case_match eqn:Hr; [|intros [= <-]; split_and!; congruence].
  case_match eqn:Hl; [done|]. destruct (normalizePlainAddress (Email c)) as [n|] eqn:Hn; [|done].
  case_match eqn:Hn4; [done|]. case_match eqn:Hp; [done|]. case_match eqn:Hp8; [done|].
  intros [= <-]. destruct c; simpl in *. split_and!; try done. intros _.
  apply normalize_spec in Hn as (_ & _ & _ & Hn). unfold hasCredentialControl in *.
  rewrite single_line_spec in Hp. bool_to_prop. by split_and!.
Qed.
Lemma validate_mail_ok c c' :
  validate_mail c = Ok c' →
  settings c' = settings c ∧ Email c' = Email c ∧
  SMTPAllowedRecipients c' = SMTPAllowedRecipients c ∧
  (requestsMail c = true → valid_identity (MailAddress c') (MailPassword c')).
Proof.
  unfold validate_mail. case_match eqn:Hr; [|intros [= <-]; split_and!; congruence].
  case_match eqn:Hl; [done|]. destruct (normalizePlainAddress (MailAddress c)) as [n|] eqn:Hn; [|done].
  case_match eqn:Hn4; [done|]. destruct (hasCredentialControl (MailPassword _)) eqn:Hp; [done|].
  destruct (len (MailPassword _) <? 8) eqn:Hp8; [done|]. intros [= <-]. destruct c; simpl in *. split_and!; try done. intros _.
  apply normalize_spec in Hn as (_ & _ & _ & Hn). unfold hasCredentialControl in *.
  rewrite single_line_spec in Hp. bool_to_prop. by split_and!.
Qed.
Lemma recipientPolicyFromAddresses_ok l p : recipientPolicyFromAddresses l = Ok p → policy_ok p.
Proof.
  unfold recipientPolicyFromAddresses. case_match; [|apply ParseRecipientPolicy_ok].
  intros [= <-]. split; [done|]. by intros ? []%not_elem_of_empty.
Qed.
Lemma validate_policy_ok c c' :
  validate_policy c = Ok c' →
  settings c' = settings c ∧ Email c' = Email c ∧ MailAddress c' = MailAddress c ∧
  MailPassword c' = MailPassword c ∧ policy_ok (SMTPRecipientPolicy c') ∧
  SMTPAllowedRecipients c' = Recipients (SMTPRecipientPolicy c') ∧
  (requestedSend c = true → policy_Configured (SMTPRecipientPolicy c') = true).
Proof.
  unfold validate_policy. rewrite bind_ok. intros (p & Hp & Hc).
  apply recipientPolicyFromAddresses_ok in Hp.
  destruct (requestedSend _ && _) eqn:Hs in Hc; [done|]. injection Hc as <-.
  destruct c; simpl in *. split_and!; try done. unfold requestedSend in *. simpl in *.
  intros Hreq. rewrite Hreq in Hs. by apply negb_false_iff in Hs.
Qed.

Lemma settings_requests c c' : settings c = settings c' →
  domains c = domains c' ∧ requestedSend c = requestedSend c' ∧ validate_switches c = validate_switches c'.
Proof.
  destruct c, c'. unfold settings, domains, requestedSend, validate_switches. simpl.
  intros [= -> -> -> -> -> -> -> ->]. done.
Qed.

Lemma Validate_ok c c' :
  Validate c = Ok c' → config_ok c' ∧ settings c' = settings c.
Proof.
  unfold Validate. rewrite bind_ok. intros (c1 & H1 & H). cbn in H.
  destruct (validate_switches c1) as [[]|] eqn:Hsw; [|done]. cbn in H.
  apply bind_ok in H as (c2 & H2 & H3).
  apply validate_account_ok in H1 as (Hs1 & _ & _ & _ & Hacc).
  apply validate_mail_ok in H2 as (Hs2 & He2 & _ & Hmail).
  apply validate_policy_ok in H3 as (Hs3 & He3 & Hma & Hmp & Hpol & Hrec & Hsend).
  pose proof (settings_requests _ _ Hs1) as (Hd1 & _ & _).
  pose proof (settings_requests _ _ Hs2) as (Hd2 & _ & Hsw2).
  pose proof (settings_requests _ _ Hs3) as (Hd3 & Hr3 & Hsw3).
  unfold requestsCalendar, requestsContacts, requestsMail in *.
  split; [|congruence]. constructor; unfold requestsCalendar, requestsContacts, requestsMail.
  - rewrite Hd3, Hd2, Hd1, He3, He2. intros Hr. specialize (Hacc Hr).
    assert (Password c' = Password c1) as -> by (unfold settings in *; congruence). done.
  - rewrite Hd3, Hd2, Hma, Hmp. done.
  - done.
  - done.
  - rewrite Hr3. done.
  - congruence.
Qed.

Lemma normalize_len_control a n :
  normalizePlainAddress a = Ok n → hasCredentialControl n = false.
Proof. by intros (_ & _ & ? & _)%normalize_spec. Qed.

Lemma Validate_stable c : config_ok c → Validate c = Ok c.
Proof.
  intros [Hacc Hmail Hpol Hrec Hsend Hsw].
  unfold Validate.
  assert (validate_account c = Ok c) as ->.
  { unfold validate_account. destruct (_ || _); [|done].
    destruct (Hacc eq_refl) as (Hn & Hl & Hp%single_line_spec & Hp8).
    unfold hasCredentialControl, minRedactableIdentityBytes.
    rewrite (normalize_len_control _ _ Hn : contains_any (Email c) cr_lf_nul = false), Hn.
    rewrite (proj2 (Z.ltb_ge _ _) Hl). destruct c; cbn [with_email Password] in *.
    by rewrite Hp, (proj2 (Z.ltb_ge (len Password0) 8) Hp8). }
  cbn. rewrite Hsw. cbn.
  assert (validate_mail c = Ok c) as ->.
  { unfold validate_mail. destruct (requestsMail c); [|done].
    destruct (Hmail eq_refl) as (Hn & Hl & Hp%single_line_spec & Hp8).
    unfold hasCredentialControl, minRedactableIdentityBytes.
    rewrite (normalize_len_control _ _ Hn : contains_any (MailAddress c) cr_lf_nul = false), Hn.
    rewrite (proj2 (Z.ltb_ge _ _) Hl). rewrite decide_False by (intros He; by rewrite He in Hp8).
    destruct c; cbn [with_mail MailPassword] in *.
    by rewrite Hp, (proj2 (Z.ltb_ge (len MailPassword0) 8) Hp8). }
  cbn. unfold validate_policy. rewrite Hrec, Recipients_roundtrip by done. cbn.
  assert (with_policy c (SMTPRecipientPolicy c) = c) as ->.
  { destruct c. simpl in *. by rewrite Hrec. }
  destruct (requestedSend c); [|done]. by rewrite Hsend.
Qed.

(** [Validate] accepts a configuration unchanged exactly when it is
    well formed: each requested domain has a normalised address and a
    single-line password of at least eight bytes, the recipient list is the
    one of its policy, sending has recipients, and every granted capability
    has its domain switched on. *)
Theorem Validate_fixpoint c : Validate c = Ok c ↔ config_ok c.
Proof. split; [by intros [? _]%Validate_ok|apply Validate_stable]. Qed.

(** * Load *)

(** A capability set that respects the switches of the configuration. *)
Record capabilities_ok (c : Config) : Prop := {
  cap_read_only : ReadOnly c = true →
    let k := Config_Capabilities c in
    CalendarWrite k = false ∧ CalendarDelete k = false ∧ ContactsWrite k = false ∧
    ContactsDelete k = false ∧ MailMutate k = false ∧ MailTrash k = false ∧
    MailSend k = false ∧ MailArchive k = false;
  cap_contacts : ContactsRead (Config_Capabilities c) || ContactsWrite (Config_Capabilities c)
    || ContactsDelete (Config_Capabilities c) = true → EnableContacts c = true ∧ requestsContacts c = true;
  cap_mail : MailRead (Config_Capabilities c) || MailMutate (Config_Capabilities c)
    || MailTrash (Config_Capabilities c) || MailSend (Config_Capabilities c)
    || MailArchive (Config_Capabilities c) = true → EnableMail c = true ∧ requestsMail c = true;
  cap_calendar : CalendarRead (Config_Capabilities c) || CalendarWrite (Config_Capabilities c)
    || CalendarDelete (Config_Capabilities c) = true → requestsCalendar c = true;
  cap_archive : MailArchive (Config_Capabilities c) = true → MailSend (Config_Capabilities c) = true;
  cap_send : MailSend (Config_Capabilities c) = true → EffectiveMailSend c = true;
}.

Lemma validate_switches_spec c :
  validate_switches c = Ok tt →
  let p := CfgPermissions c in
  implb (EnableMailWrite c || EnableMailSend c) (EnableMail c) = true ∧
  implb (p_configured p && RequestsContacts p) (EnableContacts c) = true ∧
  implb (p_configured p && RequestsMail p) (EnableMail c) = true ∧
  implb (p_configured p && p_mailArchive p) (p_mailSend p) = true.
Proof.
  unfold validate_switches, RequestsContacts, RequestsMail, RequestedContactsMutation, RequestedMailMutation.
  destruct c as [? ? ro p ? ec em ew es ? ? ? rp ? ? ?]; simpl.
  destruct p as [conf cr cw cd kr kw kd mr mm mt ms ma]; simpl.
  rewrite !orb_assoc. destruct (kr || kw || kd), (mr || mm || mt || ms || ma); simpl.
  all: destruct ec, em, ew, es, conf, ma, ms; done.
Qed.

Lemma config_capabilities_ok c : config_ok c → capabilities_ok c.
Proof.
  intros [_ _ _ _ Hsend (Hsw & Hc & Hm & Ha)%validate_switches_spec].
  destruct c as [? ? ro p ? ec em ew es ? ? ? rp ? ? ?]. unfold requestedSend in Hsend. simpl in *.
  destruct p as [conf cr cw cd kr kw kd mr mm mt ms ma]; simpl in *.
  constructor; unfold EffectiveMailSend, Config_Capabilities, EffectivePermissions, requestsContacts,
    requestsMail, requestsCalendar, domains, requestedDomains, RequestsCalendar, RequestsContacts, RequestsMail,
    Capabilities_of, Effective, LegacyPermissions in *; simpl in *;
  destruct conf, ro; simpl in *; intros Hcap; try (by split_and!); try done.
  all: try (by rewrite Hcap, Hsend).
  all: try (by destruct cr, cw, cd).
  all: try (by destruct kr, kw, kd, ec).
  all: try (by destruct ec, em, ew, es; simpl in *; rewrite ?Hsend).
  all: destruct em, mr, mm, mt, ms, ma; simpl in *; done.
Qed.

(** A process environment for the examples: read-only mail with a password
    file. *)
Definition demo_env (name : string) : string :=
  if decide (name = "ICLOUD_MCP_PERMISSIONS") then "calendar.read,mail.read,mail.send"
  else if decide (name = "ICLOUD_MCP_ENABLE_MAIL") then "TRUE"
  else if decide (name = "ICLOUD_MCP_READ_ONLY") then "1"
  else if decide (name = "ICLOUD_EMAIL") then "User@Example.org"
  else if decide (name = "ICLOUD_MAIL_ADDRESS") then "user@example.org"
  else if decide (name = "ICLOUD_PASSWORD") then "file:///run/secret"
  else if decide (name = "ICLOUD_MCP_SMTP_ALLOWED_RECIPIENTS") then "a@x.org,B@y.org"
  else if decide (name = "ICLOUD_MCP_RESOURCE_SCOPES") then "calendar.read=/1/calendars/home/"
  else "".
Definition secret_info : FileInfo := MkFileInfo true 384 12.
Definition demo_world : World := {|
  getenv := demo_env;
  os_stat path := if decide (path = "/run/secret") then Ok secret_info else Err OSNotExist;
  os_open path := if decide (path = "/run/secret")
                  then Ok (MkOpenFile (Ok secret_info) (bytes "abcd-efgh-ij") None) else Err OSNotExist;
  load_location _ := None;
|}.

Lemma Load_facts `{World, UnicodeTables} c :
  Load = Ok c →
  config_ok c ∧ Validate c = Ok c ∧ capabilities_ok c ∧ scopes_ok (CfgResourceScopes c) ∧
  Timeout c = icloudTimeout.
Proof.
  unfold Load.
  intros Hv. do 11 (apply bind_ok in Hv as (? & ? & Hv)). apply Validate_ok in Hv as [Hok Hset].
  split_and!; [done|by apply Validate_stable|by apply config_capabilities_ok| |].
  - unfold settings in Hset. simplify_eq/=. eapply scopes_ok_parsed.
    by match goal with H : ParseResourceScopes _ = Ok _ |- _ => rewrite H; congruence end.
  - unfold settings in Hset. simplify_eq/=. congruence.
Qed.

(** (C21) Whatever the environment and the files say, a configuration [Load]
    returns is well formed: [Validate] leaves it alone, its resource scopes
    are well formed, and its capability set holds no mutation under the
    read-only switch, nothing of a domain that is not enabled, no archive
    without send and no send without recipients. *)
Theorem Load_ok `{World, UnicodeTables} c :
  Load = Ok c →
  config_ok c ∧ Validate c = Ok c ∧ capabilities_ok c ∧ scopes_ok (CfgResourceScopes c) ∧
  Timeout c = icloudTimeout.
Proof. apply Load_facts. Qed.
Lemma Load_ok_witness :
  match @Load demo_world ascii_tables with
  | Ok c => config_ok c ∧ Validate c = Ok c ∧ capabilities_ok c ∧ scopes_ok (CfgResourceScopes c) ∧
            Timeout c = icloudTimeout
  | Err _ => False
  end.
Proof.
  destruct (@Load demo_world ascii_tables) as [c|e] eqn:Hl.
  - exact (@Load_ok demo_world ascii_tables c Hl).
  - vm_compute in Hl. discriminate Hl.
Defined.

(** * Credential files *)

(** A credential taken from a file comes from a path without a dot-dot
    segment; the file that was opened is regular, closed to group and world,
    and the credential is the trimmed text of at most 4096 bytes that were
    all of it. *)
Theorem loadCredential_safe `{World} envVar v :
  has_prefix (getenv envVar) "file://" = true →
  loadCredential envVar = Ok v →
  let path := trim_prefix (getenv envVar) "file://" in
  ".." ∉ split path "/"%char ∧
  ∃ file info, os_open path = Ok file ∧ of_stat file = Ok info ∧
    fi_regular info = true ∧ Z.land (fi_perm info) 63 = 0 ∧
    zlen (of_data file) <= maxCredentialFileBytes ∧ v = trim_space (str (of_data file)).
Proof.
  intros Hf. unfold loadCredential. rewrite Hf. case_match eqn:He; [done|]. case_match eqn:Hd; [done|].
  destruct (readCredentialFile _) as [data|] eqn:Hr; [|done]. intros [= <-]. cbn.
  split.
  { unfold hasDotDotSegment in Hd. rewrite existsb_false, Forall_forall in Hd.
    intros Hin. apply Hd in Hin. by vm_compute in Hin. }
  unfold readCredentialFile in Hr. inv_binds Hr.
  case_match eqn:Hlen; [done|]. injection Hr as ->. bool_to_prop.
  repeat match goal with H : os_result ?r = Ok _ |- _ => destruct r eqn:?; [|done]; cbn in H; injection H as -> end.
  do 2 eexists. split_and!; [done|done| | | |].
  all: unfold checkInfo in *; repeat case_match; simplify_eq; bool_to_prop; try done.
  all: unfold read_limited, zlen, maxCredentialFileBytes in *.
  all: repeat case_match; simplify_eq; rewrite ?length_take in *; try lia.
  all: by rewrite firstn_all2 by lia.
Qed.
Lemma loadCredential_safe_witness :
  @loadCredential demo_world "ICLOUD_PASSWORD" = Ok "abcd-efgh-ij" ∧
  ∃ file info, @os_open demo_world "/run/secret" = Ok file ∧ of_stat file = Ok info ∧
    fi_regular info = true ∧ Z.land (fi_perm info) 63 = 0 ∧
    zlen (of_data file) <= maxCredentialFileBytes ∧ "abcd-efgh-ij" = trim_space (str (of_data file)).
Proof.
  assert (@loadCredential demo_world "ICLOUD_PASSWORD" = Ok "abcd-efgh-ij") as H by (vm_compute; reflexivity).
  split; [exact H|].
  exact (proj2 (@loadCredential_safe demo_world "ICLOUD_PASSWORD" "abcd-efgh-ij" ltac:(vm_compute; reflexivity) H)).
Defined.

(** * Boot errors *)

(** The complete list of texts a boot error can have: constants of the
    program, built from the names of settings and reason codes only. *)
Definition bool_settings : list string :=
  ["ICLOUD_MCP_READ_ONLY"; "ICLOUD_MCP_ENABLE_CONTACTS"; "ICLOUD_MCP_ENABLE_MAIL";
   "ICLOUD_MCP_ENABLE_MAIL_WRITE"; "ICLOUD_MCP_ENABLE_MAIL_SEND"].
Definition credential_settings : list string :=
  ["ICLOUD_PASSWORD"; "ICLOUD_EMAIL"; "ICLOUD_MAIL_ADDRESS"; "ICLOUD_MAIL_PASSWORD"].
Definition credential_reasons : list string :=
  [": file:// path is empty"; ": file:// path must not contain '..'";
   " from file:// failed (not_regular)"; " from file:// failed (too_large)";
   " from file:// failed (insecure_permissions)"; " from file:// failed (not_found)";
   " from file:// failed (permission_denied)"; " from file:// failed (unreadable)"].
Definition boot_errors : list string := Eval vm_compute in
  (map (λ v, ("invalid " ++ v ++ ": expected 0, false, 1, or true")%string) bool_settings ++
   map (λ m, ("invalid ICLOUD_MCP_PERMISSIONS: " ++ m)%string)
     ["empty capability"; "duplicate capability"; "unknown capability"] ++
   map scope_error
     ["too many entries"; "empty entry"; "expected action=value"; "unknown action"; "duplicate action";
      "wildcard is valid only as the complete value"; "too many resources"; "empty or invalid resource";
      "invalid calendar path"; "duplicate resource"] ++
   flat_map (λ v, map (λ r, ("reading " ++ v ++ r)%string) credential_reasons) credential_settings ++
   ["invalid ICLOUD_MCP_DEFAULT_TZ: must be a valid IANA timezone name";
    "ICLOUD_MCP_SMTP_ALLOWED_RECIPIENTS must not be empty";
    "invalid ICLOUD_MCP_SMTP_ALLOWED_RECIPIENTS: wildcard is valid only as the complete value";
    "invalid ICLOUD_MCP_SMTP_ALLOWED_RECIPIENTS: expected exact email addresses or literal *";
    "invalid ICLOUD_MCP_SMTP_ALLOWED_RECIPIENTS: duplicate email address";
    "invalid ICLOUD_EMAIL: must be a valid email address";
    "invalid ICLOUD_PASSWORD: must not contain CR, LF, or NUL";
    "ICLOUD_PASSWORD must be at least 8 characters: use an app-specific password generated on appleid.apple.com";
    "ICLOUD_MCP_ENABLE_MAIL_WRITE requires ICLOUD_MCP_ENABLE_MAIL=true";
    "ICLOUD_MCP_ENABLE_MAIL_SEND requires ICLOUD_MCP_ENABLE_MAIL=true";
    "ICLOUD_MCP_PERMISSIONS requires ICLOUD_MCP_ENABLE_CONTACTS=true for Contacts capabilities";
    "ICLOUD_MCP_PERMISSIONS requires ICLOUD_MCP_ENABLE_MAIL=true for Mail capabilities";
    "ICLOUD_MCP_PERMISSIONS requires mail.send for mail.archive";
    "invalid ICLOUD_MAIL_ADDRESS: must be a full email address";
    "invalid ICLOUD_MAIL_PASSWORD: must not contain CR, LF, or NUL";
    "ICLOUD_MAIL_PASSWORD must be at least 8 characters";
    "ICLOUD_MCP_SMTP_ALLOWED_RECIPIENTS is required when mail send is requested"])%list.
Definition boot_error (e : string) : Prop := e ∈ boot_errors.

(** The text is one of the list, by evaluation. *)
Ltac boot_text := apply (bool_decide_unpack _); vm_compute; exact I.
(** Walk through a fallible computation to its error texts. *)
Create HintDb boot discriminated.
Ltac boot_walk :=
  repeat first
    [ apply errs_in_ok
    | solve [auto with boot]
    | apply errs_in_bind; [|intros ? ?]
    | apply errs_in_fold; intros ? ? ?
    | apply errs_in_if
    | match goal with
      | |- errs_in _ (match ?r with _ => _ end) => destruct r eqn:?
      | |- errs_in _ (let _ := _ in _) => cbv zeta
      end ];
  try (apply errs_in_err; first
    [ boot_text | match goal with e : FileError |- _ => destruct e as [| | |[]]; boot_text end ]).

Lemma ParsePermissions_errs value : errs_in boot_error (ParsePermissions value).
Proof.
  assert (∀ l st, errs_in boot_error (fold_res parse_token l st)) as Hf.
  { intros l st. apply errs_in_fold. intros [p seen] a _. unfold parse_token. boot_walk. }
  unfold ParsePermissions. cbv zeta. case_decide; [apply errs_in_ok|].
  specialize (Hf (split (trim_space value) ","%char) (no_permissions true, ∅)).
  destruct (fold_res _ _ _) as [[p seen]|e]; [apply errs_in_ok|].
  apply errs_in_err. by apply Hf.
Qed.
Lemma ParseResourceScopes_errs value : errs_in boot_error (ParseResourceScopes value).
Proof. unfold ParseResourceScopes. boot_walk. Qed.
Lemma loadCredential_errs `{World} envVar :
  bool_decide (envVar ∈ credential_settings) = true → errs_in boot_error (loadCredential envVar).
Proof.
  unfold credential_settings. rewrite bool_decide_eq_true, !elem_of_cons, elem_of_nil.
  intros Hv. unfold loadCredential. case_match; [|apply errs_in_ok]. cbv zeta.
  assert (∀ reason, bool_decide (reason ∈ credential_reasons) = true →
                    errs_in (A:=string) boot_error (Err ("reading " ++ envVar ++ reason))) as Hr.
  { intros r. unfold credential_reasons. rewrite bool_decide_eq_true, !elem_of_cons, elem_of_nil.
    intros Hr. apply errs_in_err.
    destruct Hv as [->|[->|[->|[->|[]]]]], Hr as [->|[->|[->|[->|[->|[->|[->|[->|[]]]]]]]]]; boot_text. }
  do 2 (apply errs_in_if; [by apply Hr|]).
  destruct (readCredentialFile _) as [|e]; [apply errs_in_ok|].
  apply (Hr (" from file:// failed (" ++ fileReadReason e ++ ")")). by destruct e as [| | |[]].
Qed.
Lemma env_bool_errs `{World, UnicodeTables} v :
  bool_decide (v ∈ bool_settings) = true → errs_in boot_error (env_bool v).
Proof.
  unfold bool_settings. rewrite bool_decide_eq_true, !elem_of_cons, elem_of_nil.
  intros [->|[->|[->|[->|[->|[]]]]]]; unfold env_bool, parseBool; boot_walk.
Qed.
Lemma ParseRecipientPolicy_errs value : errs_in boot_error (ParseRecipientPolicy value).
Proof. unfold ParseRecipientPolicy. boot_walk. Qed.
#[export] Hint Resolve ParsePermissions_errs ParseResourceScopes_errs ParseRecipientPolicy_errs : boot.
Lemma Validate_errs c : errs_in boot_error (Validate c).
Proof.
  unfold Validate. boot_walk; unfold validate_account, validate_switches, validate_mail, validate_policy; boot_walk.
Qed.
#[export] Hint Resolve Validate_errs : boot.
#[export] Hint Extern 1 (errs_in _ (loadCredential _)) => apply loadCredential_errs; reflexivity : boot.
#[export] Hint Extern 1 (errs_in _ (env_bool _)) => apply env_bool_errs; reflexivity : boot.

(** A boot failure tells nothing of the credentials: the text of an error
    of [Load] is one of a fixed list of constants, whatever the environment
    and the credential files hold. *)
Theorem Load_errors_closed `{World, UnicodeTables} e : Load = Err e → e ∈ boot_errors.
Proof.
  enough (errs_in boot_error Load) as Hl by apply Hl.
  unfold Load, load_accounts, load_mail, load_policy, loadDefaultLocation.
  boot_walk.
Qed.
(** An environment in which no setting is valid. *)
Definition bad_world : World := {|
  getenv v := if decide (v = "ICLOUD_PASSWORD") then "hunter2" else "x@y.z";
  os_stat _ := Err OSOther; os_open _ := Err OSOther; load_location _ := None |}.
Lemma Load_errors_closed_witness :
  ∃ e, @Load bad_world ascii_tables = Err e ∧ e ∈ boot_errors.
Proof.
  assert (@Load bad_world ascii_tables
          = Err "invalid ICLOUD_MCP_READ_ONLY: expected 0, false, 1, or true") as H by reflexivity.
  eexists. split; [exact H|]. exact (@Load_errors_closed bad_world ascii_tables _ H).
Defined.
