(* ===== verification/Capability.v ===== *)
(** The registration plan (src/internal/mcptools/register.go,
    icloud_capabilities.go, contacts_register.go, mail_register.go): which
    tools the server installs, as a function of the effective capabilities. *)
From S2P Require Import Prelude GoStrings Scopes Config.

(** * CapabilityPlan *)

Record CapabilityPlan := MkPlan {
  readOnly : bool;
  calendarRead : bool; calendarWrite : bool; calendarDelete : bool;
  contactsRead : bool; contactsWrite : bool; contactsDelete : bool;
  mailRead : bool; mailMutate : bool; mailTrash : bool; mailSend : bool; mailReply : bool;
}.
#[export] Instance CapabilityPlan_eq_dec : EqDecision CapabilityPlan.
Proof. solve_decision. Defined.

Definition NewCapabilityPlan (readOnly contactsEnabled mailEnabled mailMutations mailSend : bool)
    : CapabilityPlan :=
  {| readOnly := readOnly;
     calendarRead := true;
     calendarWrite := negb readOnly;
     calendarDelete := negb readOnly;
     contactsRead := contactsEnabled;
     contactsWrite := contactsEnabled && negb readOnly;
     contactsDelete := contactsEnabled && negb readOnly;
     mailRead := mailEnabled;
     mailMutate := mailEnabled && mailMutations && negb readOnly;
     mailTrash := mailEnabled && mailMutations && negb readOnly;
     mailSend := mailEnabled && mailSend && negb readOnly;
     mailReply := mailEnabled && mailSend && negb readOnly |}.

(** The [if readOnly] block clears every mutation but [MailArchive], which the
    plan does not use. *)
Definition NewCapabilityPlanFromConfig (readOnly : bool) (set : CapabilitySet) : CapabilityPlan :=
  let w (b : bool) := if readOnly then false else b in
  {| readOnly := readOnly;
     calendarRead := CalendarRead set;
     calendarWrite := w (CalendarWrite set);
     calendarDelete := w (CalendarDelete set);
     contactsRead := ContactsRead set;
     contactsWrite := w (ContactsWrite set);
     contactsDelete := w (ContactsDelete set);
     mailRead := MailRead set;
     mailMutate := w (MailMutate set);
     mailTrash := w (MailTrash set);
     mailSend := w (MailSend set);
     mailReply := MailRead set && w (MailSend set) |}.

Definition CalendarWritesEnabled (p : CapabilityPlan) : bool := calendarWrite p || calendarDelete p.
Definition ContactsEnabled (p : CapabilityPlan) : bool :=
  contactsRead p || contactsWrite p || contactsDelete p.
Definition ContactsWritesEnabled (p : CapabilityPlan) : bool := contactsWrite p || contactsDelete p.
Definition MailEnabled (p : CapabilityPlan) : bool :=
  mailRead p || mailMutate p || mailTrash p || mailSend p.

(** * Names *)

Definition calendarReadToolNames : list string :=
  ["list_calendars"; "search_events"; "get_event"; "find_free_slots"; "validate_event";
   "calendar_capabilities"].
Definition contactsReadToolNames : list string := ["list_address_books"; "search_contacts"; "get_contact"].
Definition mailReadToolNames : list string := ["list_mailboxes"; "search_messages"; "get_message"].

Definition when {A} (b : bool) (l : list A) : list A := if b then l else [].

(** The names [RegisteredTools] appends, before the sort. *)
Definition manifest (p : CapabilityPlan) : list string :=
  (when (calendarRead p) calendarReadToolNames ++
   when (calendarWrite p) ["create_event"; "update_event"] ++
   when (calendarDelete p) ["delete_event"] ++
   when (contactsRead p) contactsReadToolNames ++
   when (contactsWrite p) ["create_contact"; "update_contact"] ++
   when (contactsDelete p) ["delete_contact"] ++
   when (mailRead p) mailReadToolNames ++
   when (mailMutate p) ["set_message_flags"; "move_message"] ++
   when (mailTrash p) ["trash_message"] ++
   when (mailSend p) ["send_message"] ++
   when (mailReply p) ["reply_message"] ++
   ["icloud_capabilities"])%list.
Definition RegisteredTools (p : CapabilityPlan) : list string := sort_strings (manifest p).
Definition ToolCount (p : CapabilityPlan) : Z := zlen (RegisteredTools p).

(** * Registration *)

(** The handlers, by the function that makes them. *)
Inductive handler :=
| listCalendarsHandler | searchEventsHandler | getEventHandler | findFreeSlotsHandler
| validateEventHandler | calendarCapabilitiesHandler
| createEventHandler | updateEventHandler | deleteEventHandler
| listAddressBooksHandler | searchContactsHandler | getContactHandler
| createContactHandler | updateContactHandler | deleteContactHandler
| listMailboxesHandler | searchMessagesHandler | getMessageHandler
| setMessageFlagsHandler | moveMessageHandler | trashMessageHandler
| sendMessageHandler | replyMessageHandler
| icloudCapabilitiesHandler.
#[export] Instance handler_eq_dec : EqDecision handler.
Proof. solve_decision. Defined.

(** The MCP server's tool table; [AddTool] replaces an earlier tool of the
    same name. *)
Abbreviation MCPServer := (gmap string handler).
Definition AddTool (s : MCPServer) (tool : string * handler) : MCPServer := <[tool.1 := tool.2]> s.
Definition AddTools (s : MCPServer) (tools : list (string * handler)) : MCPServer :=
  fold_left AddTool tools s.

(** Which of the dependencies are not nil. *)
Record Deps := MkDeps {
  has_Service : bool; has_ContactsService : bool; has_MailService : bool;
  has_Audit : bool; has_Redactor : bool;
  HealthEnabled : bool; Version : string;
}.

Definition calendarReadTools : list (string * handler) :=
  [("list_calendars", listCalendarsHandler); ("search_events", searchEventsHandler);
   ("get_event", getEventHandler); ("find_free_slots", findFreeSlotsHandler);
   ("validate_event", validateEventHandler); ("calendar_capabilities", calendarCapabilitiesHandler)].

Definition registerCalendar (s : MCPServer) (allowRead allowWrite allowDelete : bool)
    : MCPServer * list string :=
  let s := AddTools s (when allowRead calendarReadTools) in
  let s := AddTools s (when allowWrite
             [("create_event", createEventHandler); ("update_event", updateEventHandler)]) in
  let s := AddTools s (when allowDelete [("delete_event", deleteEventHandler)]) in
  (s, when allowRead calendarReadToolNames ++ when allowWrite ["create_event"; "update_event"] ++
      when allowDelete ["delete_event"])%list.

Definition RegisterContacts (s : MCPServer) (allowRead allowWrite allowDelete : bool)
    : MCPServer * list string :=
  let s := AddTools s (when allowRead
             [("list_address_books", listAddressBooksHandler); ("search_contacts", searchContactsHandler);
              ("get_contact", getContactHandler)]) in
  let s := AddTools s (when allowWrite
             [("create_contact", createContactHandler); ("update_contact", updateContactHandler)]) in
  let s := AddTools s (when allowDelete [("delete_contact", deleteContactHandler)]) in
  (s, when allowRead ["list_address_books"; "search_contacts"; "get_contact"] ++
      when allowWrite ["create_contact"; "update_contact"] ++ when allowDelete ["delete_contact"])%list.

Definition RegisterMail (s : MCPServer) (allowRead allowMutations allowTrash allowSend allowReply : bool)
    : MCPServer * list string :=
  let registrations :=
    (when allowRead [("list_mailboxes", listMailboxesHandler); ("search_messages", searchMessagesHandler);
                     ("get_message", getMessageHandler)] ++
     when allowMutations [("set_message_flags", setMessageFlagsHandler); ("move_message", moveMessageHandler)] ++
     when allowTrash [("trash_message", trashMessageHandler)] ++
     when allowSend [("send_message", sendMessageHandler)] ++
     when allowReply [("reply_message", replyMessageHandler)])%list in
  (AddTools s registrations, map fst registrations).

Inductive panic :=
| panic_service | panic_redactor | panic_contacts | panic_mail | panic_audit
| panic_manifest (got want : list string) | panic_inventory (got want : list string).

(** [RegisterUnified] on a non-nil server: the names it returns and the server,
    or the panic. *)
Definition RegisterUnified (s : MCPServer) (deps : Deps) (plan : CapabilityPlan)
    : result panic (MCPServer * list string) :=
  reject negb (has_Service deps) && (calendarRead plan || CalendarWritesEnabled plan) with panic_service ;;
  reject negb (has_Redactor deps) with panic_redactor ;;
  reject ContactsEnabled plan && negb (has_ContactsService deps) with panic_contacts ;;
  reject MailEnabled plan && negb (has_MailService deps) with panic_mail ;;
  let mutationsEnabled := CalendarWritesEnabled plan || ContactsWritesEnabled plan
                          || mailMutate plan || mailTrash plan || mailSend plan in
  reject mutationsEnabled && negb (has_Audit deps) with panic_audit ;;
  let '(s, calendar) :=
    if calendarRead plan || CalendarWritesEnabled plan
    then registerCalendar s (calendarRead plan) (calendarWrite plan) (calendarDelete plan) else (s, []) in
  let '(s, contacts) :=
    if ContactsEnabled plan
    then RegisterContacts s (contactsRead plan) (contactsWrite plan) (contactsDelete plan) else (s, []) in
  let '(s, mail) :=
    if MailEnabled plan
    then RegisterMail s (mailRead plan) (mailMutate plan) (mailTrash plan) (mailSend plan) (mailReply plan)
    else (s, []) in
  let s := AddTool s ("icloud_capabilities", icloudCapabilitiesHandler) in
  let registered := sort_strings (calendar ++ contacts ++ mail ++ ["icloud_capabilities"])%list in
  let expected := RegisteredTools plan in
  reject negb (bool_decide (registered = expected)) with panic_manifest registered expected ;;
  let actual := sort_strings (elements (dom s)) in
  reject negb (bool_decide (actual = expected)) with panic_inventory actual expected ;;
  Ok (s, actual).

(** * icloud_capabilities *)

Record icloudCapabilitiesResponse := MkCapabilitiesResponse {
  r_version : string; r_readOnly : bool; r_healthcheckActive : bool;
  r_domains : bool * bool * bool;
  r_groups : list bool;
  r_tools : list string; r_toolCount : Z;
}.
Definition icloudCapabilities (deps : Deps) (plan : CapabilityPlan) : icloudCapabilitiesResponse :=
  let tools := RegisteredTools plan in
  {| r_version := if decide (Version deps = "") then "dev" else Version deps;
     r_readOnly := readOnly plan;
     r_healthcheckActive := HealthEnabled deps;
     r_domains := (calendarRead plan || CalendarWritesEnabled plan, ContactsEnabled plan, MailEnabled plan);
     r_groups := [calendarRead plan; calendarWrite plan; calendarDelete plan;
                  contactsRead plan; contactsWrite plan; contactsDelete plan;
                  mailRead plan; mailMutate plan; mailTrash plan; mailSend plan; mailReply plan];
     r_tools := tools; r_toolCount := zlen tools |}.

(** * The installed tools are the manifest *)

(** Every tool the program can install with its handler, under the part of the
    plan it needs. *)
Definition calendar_tools (p : CapabilityPlan) : list (string * handler) :=
  (when (calendarRead p) calendarReadTools ++
   when (calendarWrite p) [("create_event", createEventHandler); ("update_event", updateEventHandler)] ++
   when (calendarDelete p) [("delete_event", deleteEventHandler)])%list.
Definition contacts_tools (p : CapabilityPlan) : list (string * handler) :=
  (when (contactsRead p)
     [("list_address_books", listAddressBooksHandler); ("search_contacts", searchContactsHandler);
      ("get_contact", getContactHandler)] ++
   when (contactsWrite p)
     [("create_contact", createContactHandler); ("update_contact", updateContactHandler)] ++
   when (contactsDelete p) [("delete_contact", deleteContactHandler)])%list.
Definition mail_tools (p : CapabilityPlan) : list (string * handler) :=
  (when (mailRead p)
     [("list_mailboxes", listMailboxesHandler); ("search_messages", searchMessagesHandler);
      ("get_message", getMessageHandler)] ++
   when (mailMutate p)
     [("set_message_flags", setMessageFlagsHandler); ("move_message", moveMessageHandler)] ++
   when (mailTrash p) [("trash_message", trashMessageHandler)] ++
   when (mailSend p) [("send_message", sendMessageHandler)] ++
   when (mailReply p) [("reply_message", replyMessageHandler)])%list.
Definition enabled_tools (p : CapabilityPlan) : list (string * handler) :=
  (calendar_tools p ++ contacts_tools p ++ mail_tools p ++
   [("icloud_capabilities", icloudCapabilitiesHandler)])%list.
Definition everything : CapabilityPlan :=
  MkPlan false true true true true true true true true true true true.

Lemma map_when {A B} (f : A → B) b l : map f (when b l) = when b (map f l).
Proof. by destruct b. Qed.
Lemma elem_of_when {A} (x : A) b l : x ∈ when b l ↔ b = true ∧ x ∈ l.
Proof. destruct b; simpl; [tauto|]. rewrite elem_of_nil. naive_solver. Qed.
Lemma when_sublist {A} b (l : list A) : when b l `sublist_of` l.
Proof. destruct b; [done|]. apply sublist_nil_l. Qed.

Lemma manifest_enabled p : manifest p = map fst (enabled_tools p).
Proof.
  unfold enabled_tools, calendar_tools, contacts_tools, mail_tools, manifest.
  by rewrite !map_app, !map_when, <-!app_assoc.
Qed.
Lemma manifest_NoDup p : NoDup (manifest p).
Proof.
  apply (sublist_NoDup _ (manifest everything)).
  - apply (bool_decide_unpack _). vm_compute. exact I.
  - unfold manifest. repeat (apply sublist_app; [apply when_sublist|]). done.
Qed.

Lemma AddTools_app s l1 l2 : AddTools s (l1 ++ l2) = AddTools (AddTools s l1) l2.
Proof. apply fold_left_app. Qed.
Lemma AddTools_lookup s l name h :
  NoDup (map fst l) →
  AddTools s l !! name = Some h ↔ (name, h) ∈ l ∨ (name ∉ map fst l ∧ s !! name = Some h).
Proof.
  revert s; induction l as [|[n k] l IH]; intros s; simpl.
  { intros _. rewrite elem_of_nil. set_solver. }
  intros [Hn Hnd]%NoDup_cons. change (AddTools _ _) with (AddTools (AddTool s (n, k)) l).
  rewrite (IH _ Hnd), !elem_of_cons. unfold AddTool. cbn [fst snd].
  assert (∀ h, (name, h) ∈ l → name ∈ map fst l) as Hin.
  { intros h' Hh. apply list_elem_of_fmap. by exists (name, h'). }
  destruct (decide (n = name)) as [->|Hne].
  - rewrite lookup_insert_eq. split.
    + intros [Hl|[_ [= ->]]]; [by left; right|by left; left].
    + intros [[[= ->]|Hl]|[[] _]]; [by right|by left|by left].
  - rewrite lookup_insert_ne by done. split.
    + intros [Hl|[H1 H2]]; [by left; right|]. right. split; [|done]. intros [?|?]; [congruence|done].
    + intros [[[= ? ?]|Hl]|[H1 H2]]; [congruence|by left|]. right. split; [|done].
      intros ?. apply H1. by right.
Qed.

(** The dependencies the plan needs are there, and a reply comes with the Mail
    domain. *)
Definition deps_sufficient (deps : Deps) (p : CapabilityPlan) : Prop :=
  has_Redactor deps = true ∧
  (calendarRead p || CalendarWritesEnabled p = true → has_Service deps = true) ∧
  (ContactsEnabled p = true → has_ContactsService deps = true) ∧
  (MailEnabled p = true → has_MailService deps = true) ∧
  (CalendarWritesEnabled p || ContactsWritesEnabled p || mailMutate p || mailTrash p || mailSend p = true →
   has_Audit deps = true).
Definition coherent (p : CapabilityPlan) : Prop := mailReply p = true → mailSend p = true.

(** Skipping a domain registers what calling it with nothing allowed does. *)
Lemma calendar_part s p :
  (if calendarRead p || CalendarWritesEnabled p
   then registerCalendar s (calendarRead p) (calendarWrite p) (calendarDelete p) else (s, []))
  = (AddTools s (calendar_tools p), map fst (calendar_tools p)).
Proof.
  unfold calendar_tools, CalendarWritesEnabled. rewrite !map_app, !map_when, !AddTools_app.
  by destruct (calendarRead p), (calendarWrite p), (calendarDelete p).
Qed.
Lemma contacts_part s p :
  (if ContactsEnabled p
   then RegisterContacts s (contactsRead p) (contactsWrite p) (contactsDelete p) else (s, []))
  = (AddTools s (contacts_tools p), map fst (contacts_tools p)).
Proof.
  unfold contacts_tools, ContactsEnabled. rewrite !map_app, !map_when, !AddTools_app.
  by destruct (contactsRead p), (contactsWrite p), (contactsDelete p).
Qed.
Lemma mail_part s p :
  coherent p →
  (if MailEnabled p
   then RegisterMail s (mailRead p) (mailMutate p) (mailTrash p) (mailSend p) (mailReply p) else (s, []))
  = (AddTools s (mail_tools p), map fst (mail_tools p)).
Proof.
  unfold coherent, mail_tools, MailEnabled, RegisterMail.
  destruct (mailRead p), (mailMutate p), (mailTrash p), (mailSend p), (mailReply p); try done.
  all: intros H; by specialize (H eq_refl).
Qed.

Lemma RegisterUnified_complete deps p :
  coherent p → deps_sufficient deps p →
  ∃ s, RegisterUnified ∅ deps p = Ok (s, RegisteredTools p) ∧
    (∀ name h, s !! name = Some h ↔ (name, h) ∈ enabled_tools p) ∧
    NoDup (RegisteredTools p).
Proof.
  intros Hco (Hred & Hcal & Hcon & Hmail & Haudit).
  exists (AddTools ∅ (enabled_tools p)).
  assert (∀ name h, AddTools ∅ (enabled_tools p) !! name = Some h ↔ (name, h) ∈ enabled_tools p) as Hl.
  { intros name h. rewrite AddTools_lookup by (rewrite <-manifest_enabled; apply manifest_NoDup).
    rewrite lookup_empty. naive_solver. }
  split_and!; [|done|unfold RegisteredTools; rewrite sort_strings_Permutation; apply manifest_NoDup].
  unfold RegisterUnified. rewrite calendar_part, contacts_part, mail_part by done.
  assert (∀ b c : bool, (b = true → c = true) → negb c && b = false ∧ b && negb c = false) as Himp.
  { intros [] []; naive_solver. }
  rewrite (proj1 (Himp _ _ Hcal)), Hred, (proj2 (Himp _ _ Hcon)), (proj2 (Himp _ _ Hmail)),
    (proj2 (Himp _ _ Haudit)). cbv zeta. cbn [negb].
  replace (map fst (calendar_tools p) ++ map fst (contacts_tools p) ++ map fst (mail_tools p)
           ++ ["icloud_capabilities"])%list with (manifest p)
    by (rewrite manifest_enabled; unfold enabled_tools; by rewrite !map_app).
  replace (AddTool _ ("icloud_capabilities", icloudCapabilitiesHandler)) with (AddTools ∅ (enabled_tools p))
    by (unfold enabled_tools; by rewrite !AddTools_app).
  rewrite bool_decide_eq_true_2 by done.
  assert (sort_strings (elements (dom (AddTools ∅ (enabled_tools p)))) = RegisteredTools p) as ->.
  { apply sort_strings_proper, NoDup_Permutation; [apply NoDup_elements|apply manifest_NoDup|].
    intros name. rewrite elem_of_elements, elem_of_dom, manifest_enabled, list_elem_of_fmap. split.
    - intros [h Hh]. apply Hl in Hh. by exists (name, h).
    - intros ([n h] & -> & Hin). exists h. by apply Hl. }
  by rewrite bool_decide_eq_true_2.
Qed.

(** (C23) Registration never panics on a manifest or inventory mismatch: for
    every plan in which a reply comes with sending, with the dependencies the
    plan needs, the fresh server ends with exactly the enabled tools, each
    under its own handler, and the returned names are the sorted manifest. *)
Theorem RegisterUnified_installs deps p :
  coherent p → deps_sufficient deps p →
  ∃ s, RegisterUnified ∅ deps p = Ok (s, RegisteredTools p) ∧
    (∀ name h, s !! name = Some h ↔ (name, h) ∈ enabled_tools p) ∧
    NoDup (RegisteredTools p).
Proof. apply RegisterUnified_complete. Qed.
Definition all_deps : Deps := MkDeps true true true true true false "".
Lemma RegisterUnified_installs_witness :
  let p := NewCapabilityPlan false true true true true in
  ToolCount p = 24 ∧
  ∃ s, RegisterUnified ∅ all_deps p = Ok (s, RegisteredTools p) ∧
    (∀ name h, s !! name = Some h ↔ (name, h) ∈ enabled_tools p) ∧ NoDup (RegisteredTools p).
Proof.
  split; [vm_compute; reflexivity|].
  apply (RegisterUnified_installs all_deps (NewCapabilityPlan false true true true true)); [done|].
  vm_compute. repeat split.
Defined.

(** * Plans *)

Definition mutating_tools : list string :=
  ["create_event"; "update_event"; "delete_event"; "create_contact"; "update_contact"; "delete_contact";
   "set_message_flags"; "move_message"; "trash_message"; "send_message"; "reply_message"].
Definition reading_tools (calendar contacts mail : bool) : list string :=
  (when calendar calendarReadToolNames ++ when contacts contactsReadToolNames ++
   when mail mailReadToolNames ++ ["icloud_capabilities"])%list.

Lemma read_only_manifest set :
  manifest (NewCapabilityPlanFromConfig true set) =
  reading_tools (CalendarRead set) (ContactsRead set) (MailRead set).
Proof.
  unfold manifest, reading_tools. simpl. by rewrite andb_false_r.
Qed.
Lemma reading_not_mutating a b c name : name ∈ reading_tools a b c → name ∉ mutating_tools.
Proof.
  intros Hin. assert (name ∈ reading_tools true true true) as Hall.
  { revert Hin. unfold reading_tools. rewrite !elem_of_app, !elem_of_when. tauto. }
  assert (Forall (λ n, n ∉ mutating_tools) (reading_tools true true true)) as HF
    by (apply (bool_decide_unpack _); vm_compute; exact I).
  rewrite Forall_forall in HF. by apply HF.
Qed.

(** The names of every tool of a domain. *)
Definition calendar_names : list string := map fst (calendar_tools everything).
Definition contacts_names : list string := map fst (contacts_tools everything).
Definition mail_names : list string := map fst (mail_tools everything).
Definition no_tool (s : gmap string handler) (names : list string) : Prop := ∀ name, name ∈ names → s !! name = None.

Lemma tools_named p name h :
  ((name, h) ∈ calendar_tools p → name ∈ calendar_names) ∧ ((name, h) ∈ contacts_tools p → name ∈ contacts_names) ∧
  ((name, h) ∈ mail_tools p → name ∈ mail_names).
Proof.
  assert (∀ (l l' : list (string * handler)), (∀ x, x ∈ l → x ∈ l') → (name, h) ∈ l → name ∈ map fst l') as Hsub.
  { intros l l' Hl Hin%Hl. apply list_elem_of_fmap. by exists (name, h). }
  split_and!; apply Hsub; intros x; unfold calendar_tools, contacts_tools, mail_tools; rewrite !elem_of_app, !elem_of_when; cbn; tauto.
Qed.
(** A tool that is installed belongs to one domain only. *)
Lemma domains_apart name :
  (name ∈ calendar_names → name ∉ contacts_names ∧ name ∉ mail_names) ∧ (name ∈ contacts_names → name ∉ mail_names) ∧
  (name ∈ calendar_names ∨ name ∈ contacts_names ∨ name ∈ mail_names → name ≠ "icloud_capabilities").
Proof.
  assert (Forall (λ n, n ∉ contacts_names ∧ n ∉ mail_names ∧ n ≠ "icloud_capabilities") calendar_names ∧
    Forall (λ n, n ∉ mail_names ∧ n ≠ "icloud_capabilities") contacts_names ∧ Forall (λ n, n ≠ "icloud_capabilities") mail_names)
    as (H1 & H2 & H3) by (apply (bool_decide_unpack _); vm_compute; exact I).
  rewrite !Forall_forall in *. split_and!.
  - intros Hn%H1. tauto.
  - intros Hn%H2. tauto.
  - intros [Hn%H1|[Hn%H2|Hn%H3]]; tauto.
Qed.
Lemma installed_domain (s : gmap string handler) p name : (∀ n h, s !! n = Some h ↔ (n, h) ∈ enabled_tools p) → is_Some (s !! name) →
  (name ∈ calendar_names → calendar_tools p ≠ []) ∧ (name ∈ contacts_names → contacts_tools p ≠ []) ∧
  (name ∈ mail_names → mail_tools p ≠ []).
Proof.
  intros Hl [h Hin%Hl]. destruct (domains_apart name) as (A1 & A2 & A3). destruct (tools_named p name h) as (T1 & T2 & T3).
  unfold enabled_tools in Hin. rewrite !elem_of_app, list_elem_of_singleton in Hin.
  split_and!; intros Hname Hnil; rewrite Hnil in *; rewrite ?elem_of_nil in *;
    destruct Hin as [Hin|[Hin|[Hin|[= Hin _]]]]; try tauto.
Qed.

(** (C22) The server built from any loaded configuration, when the services and
    the audit log its plan needs are there: registration succeeds and lists
    what it installs; under the read-only switch no mutating tool is in the
    server's table; and a domain whose permissions were not requested, or that
    is not enabled, has no tool in it: no Calendar tool without a Calendar
    permission, no Contacts tool unless Contacts is enabled and one of its
    permissions requested, and Mail likewise. *)
Theorem boot_tools `{World, UnicodeTables} c deps :
  Load = Ok c →
  let p := NewCapabilityPlanFromConfig (ReadOnly c) (Config_Capabilities c) in
  deps_sufficient deps p →
  ∃ s, RegisterUnified ∅ deps p = Ok (s, RegisteredTools p) ∧
    (ReadOnly c = true → ∀ name, name ∈ mutating_tools → s !! name = None) ∧
    (requestsCalendar c = false → no_tool s calendar_names) ∧
    (EnableContacts c && requestsContacts c = false → no_tool s contacts_names) ∧
    (EnableMail c && requestsMail c = false → no_tool s mail_names).
Proof.
  intros (Hok & _ & Hcap & _ & _)%Load_facts. cbv zeta. intros Hd.
  set (p := NewCapabilityPlanFromConfig _ _) in *.
  assert (coherent p) as Hco.
  { unfold coherent, p. simpl. by intros [_ ?]%andb_prop. }
  destruct (RegisterUnified_complete deps p Hco Hd) as (s & Hs & Hl & _).
  exists s. split; [done|]. split.
  { intros Hro name Hname. destruct (s !! name) as [h|] eqn:E; [|done]. exfalso.
    apply Hl in E. eapply reading_not_mutating; [|exact Hname].
    rewrite <-(read_only_manifest (Config_Capabilities c)), manifest_enabled, <-Hro.
    apply list_elem_of_fmap. by exists (name, h). }
  assert (∀ name, s !! name ≠ None → is_Some (s !! name)) as Hsome by (intros name; destruct (s !! name); [by eexists|done]).
  pose proof (cap_calendar _ Hcap) as Kc. pose proof (cap_contacts _ Hcap) as Kk. pose proof (cap_mail _ Hcap) as Km.
  split_and!; intros Hoff name Hname; apply dec_stable; intros Hin%Hsome; apply (installed_domain s p name Hl) in Hin as (I1 & I2 & I3).
  - apply I1; [done|]. unfold calendar_tools, p, NewCapabilityPlanFromConfig. cbn [calendarRead calendarWrite calendarDelete]. rewrite Hoff in Kc.
    destruct (CalendarRead _), (CalendarWrite _), (CalendarDelete _); try (by discriminate (Kc eq_refl)). by destruct (ReadOnly c).
  - apply I2; [done|]. unfold contacts_tools, p, NewCapabilityPlanFromConfig. cbn [contactsRead contactsWrite contactsDelete].
    destruct (ContactsRead _), (ContactsWrite _), (ContactsDelete _); try (by destruct (Kk eq_refl) as [E1 E2]; rewrite E1, E2 in Hoff).
    by destruct (ReadOnly c).
  - apply I3; [done|]. unfold mail_tools, p, NewCapabilityPlanFromConfig. cbn [mailRead mailMutate mailTrash mailSend mailReply].
    destruct (MailRead _), (MailMutate _), (MailTrash _), (MailSend _); try (by destruct (Km eq_refl) as [E1 E2]; rewrite E1, E2 in Hoff).
    by destruct (ReadOnly c).
Qed.
Lemma boot_tools_witness :
  match @Load demo_world ascii_tables with
  | Ok c => ∃ s, RegisterUnified ∅ all_deps (NewCapabilityPlanFromConfig (ReadOnly c) (Config_Capabilities c))
                 = Ok (s, RegisteredTools (NewCapabilityPlanFromConfig (ReadOnly c) (Config_Capabilities c))) ∧
      (ReadOnly c = true → ∀ name, name ∈ mutating_tools → s !! name = None) ∧
      (requestsCalendar c = false → no_tool s calendar_names) ∧
      (EnableContacts c && requestsContacts c = false → no_tool s contacts_names) ∧
      (EnableMail c && requestsMail c = false → no_tool s mail_names)
  | Err _ => False
  end.
Proof.
  destruct (@Load demo_world ascii_tables) as [c|e] eqn:Hl.
  - apply (@boot_tools demo_world ascii_tables c all_deps Hl). repeat split.
  - vm_compute in Hl. discriminate Hl.
Defined.

(** Without an explicit permission list, the plan built from the
    configuration is the one the documented domain switches describe. *)
Theorem legacy_plan readOnly contactsEnabled mailEnabled mailWrite mailSend :
  NewCapabilityPlanFromConfig readOnly
    (Capabilities_of (LegacyPermissions readOnly contactsEnabled mailEnabled mailWrite mailSend) readOnly)
  = NewCapabilityPlan readOnly contactsEnabled mailEnabled mailWrite mailSend.
Proof. by destruct readOnly, contactsEnabled, mailEnabled, mailWrite, mailSend. Qed.
