(* ===== verification/Retry.v ===== *)
(** The HTTP retry classifier (src/internal/icloud/retry.go).

    [Do] talks to the wrapped transport, the request context, the clock, the
    random source and timers: these are the arguments [Upstream] on a world
    state [W].  The model records what [Do] does in a log. *)
From S2P Require Import Prelude GoStrings GoTime CalErrors.
From Stdlib Require Import Floats.SpecFloat.

(** * Requests and responses *)

Record Request := MkRequest {
  rq_Method : string;
  rq_Body : option string;
  (** [GetBody], nil or a function that gives the body again. *)
  rq_GetBody : option (result error string);
}.
Record Response := MkResponse {
  StatusCode : Z;
  HeaderRetryAfter : string;
  has_Body : bool;
  resp_data : string;
}.
Definition with_body (req : Request) (body : option string) : Request :=
  MkRequest (rq_Method req) body (rq_GetBody req).
Definition with_NoBody (resp : Response) : Response :=
  MkResponse (StatusCode resp) (HeaderRetryAfter resp) true (resp_data resp).

Class Upstream (W : Type) := {
  ctx_err : W → option error;
  send : Request → W → W * (option Response * option error);
  now : W → Z;
  rand_float64 : W → W * spec_float;
  (** Wait for a timer or the end of the context: [ctx.Err()] in that case. *)
  wait_timer : Z → W → W * option error;
  (** [http.ParseTime]. *)
  ParseTime : string → option Z;
}.

Inductive action :=
| Sent (method : string) (body : option string)
| ClosedBody
| Slept (d : Z).

(** * Delays *)

(** [float64] arithmetic of the jitter. *)
Definition float64_of (d : Z) : spec_float := binary_normalize 53 1024 d 0 false.
Definition float64_mul (x y : spec_float) : spec_float := SFmul 53 1024 x y.
Definition float64_quarter : spec_float := S754_finite false 4503599627370496 (-54).
(** [time.Duration(f)]: truncation towards zero. *)
Definition int_of_float64 (f : spec_float) : Z :=
  match f with
  | S754_finite s m e =>
      let a := if 0 <=? e then Z.pos m * 2 ^ e else Z.pos m / 2 ^ (- e) in
      if s then - a else a
  | _ => 0
  end.

Definition capDelay (d max : Z) : Z := if max <? d then max else d.

Definition isCalendarMutationMethod (method : string) : bool :=
  bool_decide (method = "PUT") || bool_decide (method = "DELETE").

Definition isRetryStatus (status : Z) : bool :=
  (status =? 429) || (status =? 502) || (status =? 503) || (status =? 504).

Section Retry.
Context {W : Type} `{Upstream W}.

(** Value and [ok] of [headerRetryAfter], on a non-nil response. *)
Definition headerRetryAfter (resp : Response) (w : W) : option Z :=
  let ra := HeaderRetryAfter resp in
  if decide (ra = "") then None
  else match parse_int64 ra with
       | Some secs =>
           if secs <=? 0 then Some 0
           else
             let maxDeltaSecs := maxPublicRetryAfter / second in
             let secs := if maxDeltaSecs <? secs then maxDeltaSecs else secs in
             Some (secs * second)
       | None =>
           match ParseTime ra with
           | Some t => let d := time_sub t (now w) in if d <? 0 then Some 0 else Some d
           | None => None
           end
       end.

Definition retryDelay (resp : Response) (attempt : nat) (base max : Z) (w : W) : W * Z :=
  match headerRetryAfter resp w with
  | Some d => (w, capDelay d max)
  | None =>
      let d := capDelay (wrap64 (Z.shiftl base (Z.of_nat attempt))) max in
      let '(w, r) := rand_float64 w in
      let jitter := int_of_float64 (float64_mul (float64_mul r (float64_of d)) float64_quarter) in
      (w, capDelay (wrap64 (d + jitter)) max)
  end.

(** [rewindRequestBody]. *)
Definition rewindRequestBody (req : Request) : result error Request :=
  match rq_GetBody req with
  | None => Ok req
  | Some (Ok body) => Ok (with_body req (Some body))
  | Some (Err err) => Err (Wrapped "rewinding request body for retry: " err)
  end.

(** [sleep]: with no delay only the context is looked at. *)
Definition sleep (d : Z) (w : W) : W * option error :=
  if d <=? 0
  then (w, (λ e, Typed (calendarContextError e)) <$> ctx_err w)
  else let '(w, e) := wait_timer d w in (w, (λ e, Typed (calendarContextError e)) <$> e).

(** The world and the log so far. *)
Abbreviation St := (W * list action)%type.
Abbreviation outcome := (option Response * option error)%type.

Record classifier := MkClassifier { maxTries : Z; baseDelay : Z; maxDelay : Z }.

(** One round of the loop of [Do] after the transport returned without an
    error: stop with an outcome, or go on. *)
Definition on_response (c : classifier) (write : bool) (attempt : nat) (resp : Response) (st : St)
    : St * (outcome + unit) :=
  let '(w, log) := st in
  let resp := if has_Body resp then resp else with_NoBody resp in
  if isRetryStatus (StatusCode resp) then
    if write then
      let log := (log ++ [ClosedBody])%list in
      if StatusCode resp =? 429
      then let delay := default 0 (headerRetryAfter resp w) in
           ((w, log), inl (None, Some (Typed (classifyStatusWithRetryAfter (StatusCode resp) delay))))
      else ((w, log), inl (None, Some (Typed (outcomeUnknownError (StatusCode resp)))))
    else
      let '(w, wait) := retryDelay resp attempt (baseDelay c) (maxDelay c) w in
      let log := (log ++ [ClosedBody])%list in
      if maxTries c <=? Z.of_nat attempt + 1
      then ((w, log), inl (None, Some (Typed (classifyStatusWithRetryAfter (StatusCode resp) wait))))
      else
        let '(w, err) := sleep wait w in
        let log := (log ++ [Slept wait])%list in
        match err with
        | Some err => ((w, log), inl (None, Some err))
        | None => ((w, log), inr tt)
        end
  else ((w, log), inl (Some resp, None)).

Definition on_result (c : classifier) (write : bool) (attempt : nat) (r : outcome) (st : St)
    : St * (outcome + unit) :=
  let '(w, log) := st in
  match r with
  | (resp, Some err) =>
      if write then
        let log := match resp with
                   | Some resp => if has_Body resp then (log ++ [ClosedBody])%list else log
                   | None => log
                   end in
        ((w, log), inl (None, Some (Typed (outcomeUnknownError 0))))
      else if is_context_error err then ((w, log), inl (None, Some (Typed (calendarContextError err))))
      else ((w, log), inl (resp, Some err))
  | (None, None) =>
      if write then ((w, log), inl (None, Some (Typed (outcomeUnknownError 0))))
      else ((w, log), inl (None, Some (Typed
             (NewError CodeProtocolError 0 "Calendar HTTP client returned no response" None))))
  | (Some resp, None) => on_response c write attempt resp (w, log)
  end.

(** One attempt; the transport reads the body of the request it sends. *)
Definition try_once (c : classifier) (attempt : nat) (req : Request) (st : St)
    : St * Request * (outcome + unit) :=
  let '(w, log) := st in
  let write := isCalendarMutationMethod (rq_Method req) in
  match ctx_err w with
  | Some err => ((w, log), req, inl (None, Some (Typed (calendarContextError err))))
  | None =>
      match rewindRequestBody req with
      | Err err => ((w, log), req, inl (None, Some err))
      | Ok req =>
          let '(w, r) := send req w in
          let log := (log ++ [Sent (rq_Method req) (rq_Body req)])%list in
          let '(st, o) := on_result c write attempt r (w, log) in
          (st, with_body req None, o)
      end
  end.

Fixpoint do_loop (fuel : nat) (c : classifier) (attempt : nat) (req : Request) (st : St)
    : option (St * outcome) :=
  match fuel with
  | O => None
  | S fuel =>
      let '(st, req, o) := try_once c attempt req st in
      match o with
      | inl out => Some (st, out)
      | inr _ => do_loop fuel c (S attempt) req st
      end
  end.

Definition Do (fuel : nat) (c : classifier) (req : Request) (w : W) : option (St * outcome) :=
  do_loop fuel c 0 req (w, []).
End Retry.


Definition NewRetryClassifier : classifier := MkClassifier 6 (500 * 1000000) (10 * second).

(** * What one call may do *)

Definition is_sent (a : action) : bool := match a with Sent _ _ => true | _ => false end.
Definition sent_count (log : list action) : Z := zlen (List.filter is_sent log).

(** Every action of a call: the requests carry the method and the full body,
    the pauses respect the cap. *)
Definition action_ok (c : classifier) (req : Request) (a : action) : Prop :=
  match a with
  | Sent m b => m = rq_Method req ∧ ∀ body, rq_GetBody req = Some (Ok body) → b = Some body
  | ClosedBody => True
  | Slept d => d <= maxDelay c ∧ isCalendarMutationMethod (rq_Method req) = false
  end.

Lemma capDelay_le d max : capDelay d max <= max.
Proof. unfold capDelay. case_match; bool_to_prop; lia. Qed.
Lemma sent_count_app l1 l2 : sent_count (l1 ++ l2) = sent_count l1 + sent_count l2.
Proof. unfold sent_count. by rewrite List.filter_app, zlen_app. Qed.
Lemma sent_count_cons a l : sent_count (a :: l) = (if is_sent a then 1 else 0) + sent_count l.
Proof. unfold sent_count. simpl. destruct (is_sent a); [apply zlen_cons|lia]. Qed.
Lemma sent_count_nil : sent_count [] = 0.
Proof. done. Qed.
#[export] Hint Rewrite sent_count_app sent_count_cons sent_count_nil : golen.

Section RetryProofs.
Context {W : Type} `{Upstream W}.

Lemma retryDelay_le resp attempt base max w : (retryDelay resp attempt base max w).2 <= max.
Proof.
  unfold retryDelay. destruct (headerRetryAfter resp w); [apply capDelay_le|].
  destruct (rand_float64 w). apply capDelay_le.
Qed.

(** What an attempt adds to the log, and when another one follows. *)
Lemma on_response_spec c req attempt resp w log st o :
  let write := isCalendarMutationMethod (rq_Method req) in
  on_response c write attempt resp (w, log) = (st, o) →
  ∃ new, st.2 = (log ++ new)%list ∧ sent_count new = 0 ∧ Forall (action_ok c req) new ∧
    (o = inr () → write = false ∧ Z.of_nat attempt + 1 < maxTries c).
Proof.
  cbv zeta. unfold on_response.
  destruct (isRetryStatus _) eqn:Hr; [|intros [= <- <-]; exists []; rewrite app_nil_r; by repeat split].
  destruct (isCalendarMutationMethod _) eqn:Hw.
  { destruct (StatusCode _ =? 429); intros [= <- <-]; exists [ClosedBody]; split_and!; by repeat constructor. }
  pose proof (retryDelay_le (if has_Body resp then resp else with_NoBody resp) attempt (baseDelay c) (maxDelay c) w) as Hd.
  destruct (retryDelay _ _ _ _ _) as [w1 wait]. simpl in Hd.
  destruct (maxTries c <=? Z.of_nat attempt + 1) eqn:Ht.
  { intros [= <- <-]; exists [ClosedBody]; split_and!; by repeat constructor. }
  destruct (sleep wait w1) as [w2 err]. bool_to_prop.
  destruct err; intros [= <- <-]; exists [ClosedBody; Slept wait]; rewrite <-app_assoc;
    split_and!; by repeat constructor.
Qed.

Lemma on_result_spec c req attempt r w log st o :
  let write := isCalendarMutationMethod (rq_Method req) in
  on_result c write attempt r (w, log) = (st, o) →
  ∃ new, st.2 = (log ++ new)%list ∧ sent_count new = 0 ∧ Forall (action_ok c req) new ∧
    (o = inr () → write = false ∧ Z.of_nat attempt + 1 < maxTries c).
Proof.
  cbv zeta. destruct r as [[resp|] [err|]]; cbn [on_result]; [|apply on_response_spec| |].
  all: destruct (isCalendarMutationMethod _) eqn:Hw; try destruct (has_Body resp);
    try destruct (is_context_error err); intros [= <- <-];
    first [by exists [ClosedBody]; split_and!; repeat constructor
          |by exists []; rewrite app_nil_r; split_and!; repeat constructor].
Qed.

Lemma try_once_spec c attempt req w log st req' o :
  try_once c attempt req (w, log) = (st, req', o) →
  rq_Method req' = rq_Method req ∧ rq_GetBody req' = rq_GetBody req ∧
  ∃ new, st.2 = (log ++ new)%list ∧ sent_count new <= 1 ∧ Forall (action_ok c req) new ∧
    (o = inr () → isCalendarMutationMethod (rq_Method req) = false ∧ Z.of_nat attempt + 1 < maxTries c).
Proof.
  unfold try_once. destruct (ctx_err w).
  { intros [= <- <- <-]. split_and!; [done..|]. exists []. rewrite app_nil_r. by split_and!. }
  destruct (rewindRequestBody req) as [req1|] eqn:Hrw.
  2: { intros [= <- <- <-]. split_and!; [done..|]. exists []. rewrite app_nil_r. by split_and!. }
  assert (rq_Method req1 = rq_Method req ∧ rq_GetBody req1 = rq_GetBody req ∧
          ∀ body, rq_GetBody req = Some (Ok body) → rq_Body req1 = Some body) as (Hm & Hg & Hb).
  { unfold rewindRequestBody in Hrw. destruct (rq_GetBody req) as [[b|]|] eqn:E; simplify_eq; simpl; naive_solver. }
  destruct (send req1 w) as [w1 r]. rewrite <-Hm.
  destruct (on_result _ _ _ _ _) as [st1 o1] eqn:Ho. intros [= <- <- <-].
  apply on_result_spec in Ho as (new & Hnew & Hcnt & Hall & Hgo).
  split_and!; [done..|]. exists (Sent (rq_Method req1) (rq_Body req1) :: new). split_and!.
  - by rewrite Hnew, <-app_assoc.
  - rewrite sent_count_cons, Hcnt. simpl. lia.
  - constructor; [by split|]. eapply Forall_impl; [exact Hall|].
    intros [m b| |d]; simpl; rewrite ?Hm, ?Hg; done.
  - done.
Qed.

Lemma do_loop_spec fuel c attempt req w log st out :
  do_loop fuel c attempt req (w, log) = Some (st, out) →
  ∃ new, st.2 = (log ++ new)%list ∧ Forall (action_ok c req) new ∧
    sent_count new <= Z.max 1 (maxTries c - Z.of_nat attempt) ∧
    (isCalendarMutationMethod (rq_Method req) = true → sent_count new <= 1).
Proof.
  revert attempt req w log; induction fuel as [|fuel IH]; intros attempt req w log; [done|]. cbn [do_loop].
  destruct (try_once c attempt req (w, log)) as [[[w1 log1] req1] o] eqn:Ht.
  apply try_once_spec in Ht as (Hm & Hg & new & Hl1 & Hcnt & Hall & Hgo). simpl in Hl1. subst log1.
  destruct o as [out1|[]].
  { intros Heq. injection Heq as <- <-. exists new. split_and!; [done..|lia|lia]. }
  specialize (Hgo eq_refl) as [Hw Hmax]. intros Hl.
  apply IH in Hl as (new' & Hnew' & Hall' & Hcnt' & _).
  exists (new ++ new')%list. split_and!.
  - by rewrite Hnew', app_assoc.
  - apply Forall_app. split; [done|]. eapply Forall_impl; [exact Hall'|].
    intros [m b| |d]; simpl; rewrite ?Hm, ?Hg; done.
  - rewrite sent_count_app. lia.
  - congruence.
Qed.

Lemma do_loop_total fuel c attempt req st :
  maxTries c - Z.of_nat attempt <= Z.of_nat fuel → (0 < fuel)%nat →
  is_Some (do_loop fuel c attempt req st).
Proof.
  revert attempt req st; induction fuel as [|fuel IH]; intros attempt req [w log] Hf Hp; [lia|]. cbn [do_loop].
  destruct (try_once c attempt req (w, log)) as [[st1 req1] o] eqn:Ht.
  apply try_once_spec in Ht as (_ & _ & new & _ & _ & _ & Hgo).
  destruct o as [out|[]]; [eauto|]. specialize (Hgo eq_refl) as [_ Hmax]. apply IH; lia.
Qed.

(** One call of the classifier always ends within its attempt budget.
    It sends at most [maxTries] requests, each with the caller's method and
    the whole body, pauses at most [maxDelay] between them, and for a
    mutation it sends at most one and never pauses. *)
Theorem Do_bounded c req w fuel :
  maxTries c <= Z.of_nat fuel → (0 < fuel)%nat →
  ∃ w' log out, Do fuel c req w = Some ((w', log), out) ∧
    sent_count log <= Z.max 1 (maxTries c) ∧ Forall (action_ok c req) log ∧
    (isCalendarMutationMethod (rq_Method req) = true → sent_count log <= 1).
Proof.
  intros Hf Hp. unfold Do. destruct (do_loop_total fuel c 0 req (w, [])) as [[[w' log] out] Hd]; [lia|done|].
  exists w', log, out. split; [done|].
  apply do_loop_spec in Hd as (new & Hnew & Hall & Hcnt & Hw). simpl in Hnew. subst new.
  split_and!; [lia|done|done].
Qed.

(** ** Mutations *)

(** A reply after which the server may or may not have applied the request. *)
Definition ambiguous (r : option Response * option error) : bool :=
  match r with
  | (_, Some _) | (None, None) => true
  | (Some resp, None) => isRetryStatus (StatusCode resp) && negb (StatusCode resp =? 429)
  end.

(** A mutation that was sent reports [outcome_unknown] exactly when the
    reply is ambiguous (transport error, no reply, 502, 503 or 504), reports
    [rate_limited] on 429, and otherwise hands the reply to the Calendar
    operation untouched. *)
Theorem Do_mutation c req w fuel :
  isCalendarMutationMethod (rq_Method req) = true → (0 < fuel)%nat → ctx_err w = None →
  match rewindRequestBody req with
  | Err e => Do fuel c req w = Some ((w, []), (None, Some e))
  | Ok req1 =>
      let '(w1, r) := send req1 w in
      ∃ log out, Do fuel c req w = Some ((w1, log), out) ∧ sent_count log = 1 ∧
        if ambiguous r then ∃ e, out = (None, Some (Typed e)) ∧ ErrCode e = CodeOutcomeUnknown
        else match r with
             | (Some resp, _) =>
                 if StatusCode resp =? 429
                 then ∃ e, out = (None, Some (Typed e)) ∧ ErrCode e = CodeRateLimited
                 else out = (Some (if has_Body resp then resp else with_NoBody resp), None)
             | _ => False
             end
  end.
Proof.
  intros Hw Hf Hctx. destruct fuel as [|fuel]; [lia|]. unfold Do. cbn [do_loop]. unfold try_once. rewrite Hctx, Hw.
  destruct (rewindRequestBody req) as [req1|e]; [|done].
  destruct (send req1 w) as [w1 [resp err]]. simpl.
  destruct err as [err|]; simpl.
  { destruct resp; (do 2 eexists; split; [reflexivity|]; split; [by repeat case_match|by eexists]). }
  destruct resp as [resp|]; simpl.
  2: { do 2 eexists. split; [reflexivity|]. split; [done|by eexists]. }
  unfold on_response.
  assert (StatusCode (if has_Body resp then resp else with_NoBody resp) = StatusCode resp) as ->
    by (by destruct (has_Body resp)).
  destruct (isRetryStatus (StatusCode resp)) eqn:Hr; simpl.
  - destruct (StatusCode resp =? 429) eqn:H4; simpl; (do 2 eexists; split; [reflexivity|]; split; [done|]).
    + eexists. split; [done|]. apply Z.eqb_eq in H4 as ->.
      unfold classifyStatusWithRetryAfter, classifyStatusBare. simpl. by case_match.
    + by eexists.
  - destruct (StatusCode resp =? 429) eqn:H4; [|by do 2 eexists].
    apply Z.eqb_eq in H4. by rewrite H4 in Hr.
Qed.
End RetryProofs.

(** A server that is unavailable [n] more times, then answers 200. *)
Definition flaky : Upstream nat := {|
  ctx_err _ := None;
  send _ n := match n with
              | O => (O, (Some (MkResponse 200 "" true "ok"), None))
              | S n => (n, (Some (MkResponse 503 "1" true ""), None))
              end;
  now _ := 0;
  rand_float64 n := (n, S754_finite false 4503599627370496 (-53));
  wait_timer _ n := (n, None);
  ParseTime _ := None;
|}.
Definition get_request : Request := MkRequest "REPORT" None (Some (Ok "<xml/>")).
Definition put_request : Request := MkRequest "PUT" (Some "BEGIN") (Some (Ok "BEGIN")).

Example Do_flaky_read :
  @Do _ flaky 6 NewRetryClassifier get_request 1%nat =
  Some ((O, [Sent "REPORT" (Some "<xml/>"); ClosedBody; Slept second; Sent "REPORT" (Some "<xml/>")]),
        (Some (MkResponse 200 "" true "ok"), None)).
Proof. reflexivity. Qed.
Lemma Do_bounded_witness :
  ∃ w' log out, @Do _ flaky 6 NewRetryClassifier get_request 9%nat = Some ((w', log), out) ∧
    sent_count log <= 6 ∧ Forall (action_ok NewRetryClassifier get_request) log ∧
    (isCalendarMutationMethod (rq_Method get_request) = true → sent_count log <= 1).
Proof. apply (@Do_bounded _ flaky NewRetryClassifier get_request 9%nat 6%nat); [cbn; lia|lia]. Defined.
Lemma Do_mutation_witness :
  ∃ log out, @Do _ flaky 1 NewRetryClassifier put_request 3%nat = Some ((2%nat, log), out) ∧
    sent_count log = 1 ∧ ∃ e, out = (None, Some (Typed e)) ∧ ErrCode e = CodeOutcomeUnknown.
Proof.
  exact (@Do_mutation _ flaky NewRetryClassifier put_request 3%nat 1%nat eq_refl ltac:(lia) eq_refl).
Defined.
