(* ===== verification/Middleware.v ===== *)
(** [GuardedService] (src/internal/icloud/middleware.go): the local rate
    limiters, the bounded retry of reads, and the semaphores that bound how
    many Calendar calls run at once. *)
From S2P Require Import Prelude GoStrings GoTime CalErrors CalTypes.

(** * One call *)

Definition maxRateWait : Z := 2 * second.

(** What a guarded call uses of its surroundings, on a world state [W]: the
    request context, the token bucket of golang.org/x/time/rate (a reservation
    is refused or granted after a delay), timers, and the semaphore channel. *)
Class Guards (W : Type) := {
  ctx_err : W → option error;
  Reserve : W → W * option Z;
  Cancel : W → W;
  wait_timer : Z → W → W * option error;
  (** [select] between the channel and the end of the context. *)
  acquire_slot : W → W * option error;
  release_slot : W → W;
}.

Inductive event :=
| Called
| Backoff (d : Z)
| Acquired
| Released.

Section Guarded.
Context {W : Type} `{Guards W}.

Abbreviation St := (W * list event)%type.

Definition context_error (e : error) : error := Typed (calendarContextError e).

Definition waitLimiter (kind : string) (w : W) : W * option error :=
  match ctx_err w with
  | Some e => (w, Some (context_error e))
  | None =>
      let '(w, res) := Reserve w in
      match res with
      | None => (w, Some (Typed (NewError CodeRateLimited 429 (kind ++ " rate limit exceeded") None)))
      | Some delay =>
          match ctx_err w with
          | Some e => (Cancel w, Some (context_error e))
          | None =>
              if maxRateWait <? delay then
                (Cancel w, Some (Typed (MkError CodeRateLimited 429
                   (kind ++ " rate limit exceeded: retry later") true (capPublicRetryAfter delay) ∅ None)))
              else if delay <=? 0 then (w, None)
              else
                let '(w, e) := wait_timer delay w in
                match e with
                | Some e => (Cancel w, Some (context_error e))
                | None => (w, None)
                end
          end
      end
  end.

(** [acquireCalendar]. *)
Definition acquireCalendar (st : St) : St * option error :=
  let '(w, log) := st in
  let '(w, e) := acquire_slot w in
  match e with
  | Some e => ((w, log), Some (context_error e))
  | None => ((w, log ++ [Acquired])%list, None)
  end.
Definition releaseCalendar (st : St) : St :=
  let '(w, log) := st in (release_slot w, log ++ [Released])%list.

(** The call to the wrapped service. *)
Definition call {A} (fn : W → W * (A * option error)) (st : St) : St * (A * option error) :=
  let '(w, log) := st in
  let '(w, r) := fn w in ((w, log ++ [Called])%list, r).

(** [baseDelay * time.Duration(math.Pow(2, float64(attempt)))]. *)
Definition backoff (baseDelay : Z) (attempt : nat) : Z := wrap64 (baseDelay * 2 ^ Z.of_nat attempt).

(** [retry]: [more] is [maxRetries - attempt]; the value is the one the last
    call of [fn] gave. *)
Fixpoint retry {A} (baseDelay : Z) (fn : W → W * (A * option error)) (attempt more : nat) (st : St)
    : St * (A * option error) :=
  let '(st, (a, e)) := call fn st in
  match e with
  | None => (st, (a, None))
  | Some err =>
      if is_context_error err then (st, (a, Some (context_error err)))
      else match AsICloudError err with
           | Some _ => (st, (a, Some err))
           | None =>
               match more with
               | O => (st, (a, Some err))
               | S more =>
                   let '(w, log) := st in
                   let delay := backoff baseDelay attempt in
                   let '(w, e) := wait_timer delay w in
                   let st := (w, log ++ [Backoff delay])%list in
                   match e with
                   | Some e => (st, (a, Some (context_error e)))
                   | None => retry baseDelay fn (S attempt) more st
                   end
               end
           end
  end.

(** The common shape of the guarded methods; [zero] is the value returned
    with an early error. *)
Definition guarded {A} (kind : string) (zero : A) (body : St → St * (A * option error)) (w : W)
    : St * (A * option error) :=
  let '(w, e) := waitLimiter kind w in
  match e with
  | Some e => ((w, []), (zero, Some e))
  | None =>
      let '(st, e) := acquireCalendar (w, []) in
      match e with
      | Some e => (st, (zero, Some e))
      | None => let '(st, r) := body st in (releaseCalendar st, r)
      end
  end.
(** The reads: [retry] around the call of the wrapped service. *)
Definition guarded_read {A} (baseDelay : Z) (maxRetries : nat) (zero : A)
    (fn : W → W * (A * option error)) (w : W) : St * (A * option error) :=
  guarded "read" zero (retry baseDelay fn 0 maxRetries) w.
(** The writes: one call. *)
Definition guarded_write {A} (zero : A) (fn : W → W * (A * option error)) (w : W)
    : St * (A * option error) :=
  guarded "write" zero (call fn) w.

(** * The decorated service *)

(** The settings of [GuardedService]; [inner] is the instance of [Service]. *)
Record GuardedService := NewGuardedService { maxRetries : nat; baseDelay : Z }.
Context `{Service W} (g : GuardedService).

Definition ListCalendars_guarded : W → St * (list Calendar * option error) :=
  guarded_read (baseDelay g) (maxRetries g) [] ListCalendars.
Definition SearchEvents_guarded (calendarPath : string) (start end_ : gtime) (opts : option SearchOptions)
    : W → St * (SearchResult * option error) :=
  guarded_read (baseDelay g) (maxRetries g) no_results (SearchEvents calendarPath start end_ opts).
Definition GetEvent_guarded (calendarPath uid : string) : W → St * (option EventDetail * option error) :=
  guarded_read (baseDelay g) (maxRetries g) None (GetEvent calendarPath uid).
Definition CreateEvent_guarded (calendarPath : string) (ev : NewEvent) : W → St * (string * option error) :=
  guarded_write "" (CreateEvent calendarPath ev).
Definition UpdateEvent_guarded (calendarPath uid : string) (up : EventUpdate) : W → St * (unit * option error) :=
  guarded_write tt (λ w, let '(w, e) := UpdateEvent calendarPath uid up w in (w, (tt, e))).
Definition DeleteEvent_guarded (calendarPath uid : string) (opts : option DeleteOptions)
    : W → St * (DeleteResult * option error) :=
  guarded_write no_deletion (DeleteEvent calendarPath uid opts).
End Guarded.

(** * What a guarded call does *)

Definition calls (log : list event) : Z :=
  zlen (List.filter (λ e, match e with Called => true | _ => false end) log).
(** Calls and pauses only. *)
Definition inner_event (e : event) : Prop :=
  match e with Called | Backoff _ => True | Acquired | Released => False end.

Lemma calls_app l1 l2 : calls (l1 ++ l2) = calls l1 + calls l2.
Proof. unfold calls. by rewrite List.filter_app, zlen_app. Qed.
Lemma calls_nil : calls [] = 0.
Proof. done. Qed.
#[export] Hint Rewrite calls_app calls_nil : golen.

(** An error the HTTP layer already classified, or the end of the context: a
    further attempt is pointless. *)
Definition final_error (e : error) : bool :=
  is_context_error e || bool_decide (is_Some (AsICloudError e)).

Section GuardedProofs.
Context {W : Type} `{Guards W}.

Lemma retry_spec {A} baseDelay (fn : W → W * (A * option error)) attempt more w log st r :
  retry baseDelay fn attempt more (w, log) = (st, r) →
  ∃ new, st.2 = (log ++ new)%list ∧ Forall inner_event new ∧ 1 <= calls new <= 1 + Z.of_nat more.
Proof.
  revert attempt w log; induction more as [|more IH]; intros attempt w log; cbn [retry call];
    destruct (fn w) as [w1 [a [err|]]]; [| |..].
  1: destruct (is_context_error err), (AsICloudError err).
  6: destruct (is_context_error err); [|destruct (AsICloudError err); [|
       destruct (wait_timer (backoff baseDelay attempt) w1) as [w2 [e|]]]].
  9: { intros Hr. apply IH in Hr as (new & Hnew & Hall & Hc).
       exists (Called :: Backoff (backoff baseDelay attempt) :: new). split_and!.
       - by rewrite Hnew, <-!app_assoc.
       - by repeat constructor.
       - change (calls (Called :: Backoff (backoff baseDelay attempt) :: new)) with (calls ([Called] ++ new)).
         rewrite calls_app. change (calls [Called]) with 1. lia.
       - change (calls (Called :: Backoff (backoff baseDelay attempt) :: new)) with (calls ([Called] ++ new)).
         rewrite calls_app. change (calls [Called]) with 1. lia. }
  all: intros Heq; injection Heq as <- <-.
  8: exists [Called; Backoff (backoff baseDelay attempt)].
  1-7,9: exists [Called].
  all: rewrite <-?app_assoc; split_and!; [done|by repeat constructor|unfold calls, zlen; simpl; lia..].
Qed.

(** A retried read stops at the first success or final error: every call but
    the last one failed with an error worth retrying. *)
Lemma retry_first {A} baseDelay (fn : W → W * (A * option error)) attempt more w log :
  (∀ w' a e, fn w = (w', (a, Some e)) → final_error e = true) →
  ∃ st r, retry baseDelay fn attempt more (w, log) = (st, r) ∧ st.2 = (log ++ [Called])%list.
Proof.
  intros Hf. destruct more; cbn [retry call]; destruct (fn w) as [w1 [a [err|]]] eqn:E;
    try (do 2 eexists; split; [reflexivity|done]).
  all: specialize (Hf w1 a err eq_refl); unfold final_error in Hf.
  all: destruct (is_context_error err); [by do 2 eexists|].
  all: destruct (AsICloudError err); [by do 2 eexists|done].
Qed.

(** The slot is taken at most once and given back exactly as often, around
    the calls; with no slot there is no call. *)
Definition bracketed (log used : list event) : Prop :=
  (log = [] ∧ used = []) ∨ (log = Acquired :: used ++ [Released])%list ∧ Forall inner_event used ∧ used ≠ [].

Lemma guarded_log {A} kind (zero : A) body w st r (P : list event → Prop) :
  guarded kind zero body w = (st, r) →
  (∀ w log st r, body (w, log) = (st, r) →
     ∃ new, st.2 = (log ++ new)%list ∧ Forall inner_event new ∧ new ≠ [] ∧ P new) →
  ∃ used, bracketed st.2 used ∧ (used = [] ∨ P used).
Proof.
  unfold guarded. destruct (waitLimiter kind w) as [w1 [e|]].
  { intros Heq _. injection Heq as <- <-. exists []. split; [by left|by left]. }
  cbn [acquireCalendar]. destruct (acquire_slot w1) as [w2 [e|]].
  { intros Heq _. injection Heq as <- <-. exists []. split; [by left|by left]. }
  destruct (body (w2, ([] ++ [Acquired])%list)) as [[w3 log] r1] eqn:Hb.
  intros Heq Hbody. injection Heq as <- <-.
  apply Hbody in Hb as (new & Hnew & Hall & Hne & HP). simpl in Hnew. subst log.
  exists new. split; [right; by split_and!|by right].
Qed.

(** What a call of the decorated service does to the slots: [used] is the
    part of the log between taking and giving back the slot. *)
Definition calls_at_most (n : Z) (log : list event) : Prop :=
  ∃ used, bracketed log used ∧ calls used <= n.

Lemma guarded_write_calls {A} (zero : A) (fn : W → W * (A * option error)) w :
  calls_at_most 1 (guarded_write zero fn w).1.2.
Proof.
  destruct (guarded_write zero fn w) as [st r] eqn:Hg.
  destruct (guarded_log _ _ _ _ _ _ (λ u, calls u <= 1) Hg) as (used & Hb & Hu).
  { intros w1 log st1 r1. cbn [call]. destruct (fn w1) as [w2 r2]. intros Heq. injection Heq as <- <-.
    exists [Called]. by split_and!; repeat constructor. }
  exists used. split; [done|]. destruct Hu as [->|?]; [done|done].
Qed.
Lemma guarded_read_calls {A} baseDelay maxRetries (zero : A) (fn : W → W * (A * option error)) w :
  calls_at_most (Z.of_nat maxRetries + 1) (guarded_read baseDelay maxRetries zero fn w).1.2.
Proof.
  destruct (guarded_read baseDelay maxRetries zero fn w) as [st r] eqn:Hg.
  destruct (guarded_log _ _ _ _ _ _ (λ u, calls u <= Z.of_nat maxRetries + 1) Hg) as (used & Hb & Hu).
  { intros w1 log st1 r1 Hr. apply retry_spec in Hr as (new & Hnew & Hall & Hc).
    exists new. split_and!; [done|done| |lia]. intros ->. rewrite calls_nil in Hc. lia. }
  exists used. split; [done|]. destruct Hu as [->|?]; [rewrite calls_nil; lia|done].
Qed.

(** A mutation through [GuardedService] (create, update, delete) calls
    the Calendar service at most once, whatever the service answers, and a
    read (list, search, get) at most [maxRetries + 1] times; in all of them the
    service is only called while a slot is held, and the slot is given back
    exactly once. *)
Theorem guarded_calls `{Service W} (g : GuardedService) (w : W) :
  (∀ path ev, calls_at_most 1 (CreateEvent_guarded path ev w).1.2) ∧
  (∀ path uid up, calls_at_most 1 (UpdateEvent_guarded path uid up w).1.2) ∧
  (∀ path uid opts, calls_at_most 1 (DeleteEvent_guarded path uid opts w).1.2) ∧
  let n := Z.of_nat (maxRetries g) + 1 in
  calls_at_most n (ListCalendars_guarded g w).1.2 ∧
  (∀ path start end_ opts, calls_at_most n (SearchEvents_guarded g path start end_ opts w).1.2) ∧
  (∀ path uid, calls_at_most n (GetEvent_guarded g path uid w).1.2).
Proof. cbv zeta. repeat split; intros; first [apply guarded_write_calls|apply guarded_read_calls]. Qed.

(** A read whose first call fails with a typed error or because the
    context ended is not repeated. *)
Lemma typed_errors_not_retried {A} baseDelay maxRetries (zero : A) (fn : W → W * (A * option error)) w :
  (∀ w1 w2 a e, fn w1 = (w2, (a, Some e)) → final_error e = true) →
  ∃ used, bracketed (guarded_read baseDelay maxRetries zero fn w).1.2 used ∧ calls used <= 1.
Proof.
  intros Hf. destruct (guarded_read baseDelay maxRetries zero fn w) as [st r] eqn:Hg.
  destruct (guarded_log _ _ _ _ _ _ (λ u, calls u <= 1) Hg) as (used & Hb & Hu).
  { intros w1 log st1 r1 Hr.
    destruct (retry_first baseDelay fn 0 maxRetries w1 log (Hf w1)) as (st2 & r2 & Hr2 & Hl).
    rewrite Hr2 in Hr. injection Hr as <- <-. exists [Called]. by split_and!; repeat constructor. }
  exists used. split; [done|]. destruct Hu as [->|?]; [done|done].
Qed.
End GuardedProofs.

(** * The slots *)

(** The channel of one direction: its capacity, how many tokens it holds, and
    the calls that wait for a slot or hold one.  A call enters by waiting; it
    gives up when its context ends, or takes a slot while the channel is not
    full; the deferred receive gives the slot back. *)
Record channel := MkChannel { capacity : Z; held : Z; waiting : gset positive; running : gset positive }.
Definition make_channel (n : Z) : channel := MkChannel n 0 ∅ ∅.

Inductive slot_step : channel → channel → Prop :=
| step_arrive c p : p ∉ waiting c → p ∉ running c →
    slot_step c (MkChannel (capacity c) (held c) ({[p]} ∪ waiting c) (running c))
| step_acquire c p : p ∈ waiting c → held c < capacity c →
    slot_step c (MkChannel (capacity c) (held c + 1) (waiting c ∖ {[p]}) ({[p]} ∪ running c))
| step_abandon c p : p ∈ waiting c →
    slot_step c (MkChannel (capacity c) (held c) (waiting c ∖ {[p]}) (running c))
| step_release c p : p ∈ running c →
    slot_step c (MkChannel (capacity c) (held c - 1) (waiting c) (running c ∖ {[p]})).

Definition channel_ok (n : Z) (c : channel) : Prop :=
  capacity c = n ∧ held c = Z.of_nat (size (running c)) ∧ held c <= n ∧ waiting c ## running c.

Lemma slot_step_ok n c c' : channel_ok n c → slot_step c c' → channel_ok n c'.
Proof.
  intros (Hcap & Hheld & Hle & Hdis) Hs. destruct Hs as [c p Hw Hr|c p Hw Hlt|c p Hw|c p Hr];
    unfold channel_ok; cbn [capacity held waiting running]; split_and!; try done; try lia; try set_solver.
  - rewrite size_union by set_solver. rewrite size_singleton. lia.
  - rewrite size_difference by set_solver. rewrite size_singleton.
    assert (size (running c) ≠ 0%nat) by (apply size_non_empty_iff; set_solver). lia.
Qed.

(** In every reachable state of the semaphore the calls holding a slot are
    as many as the tokens in the channel and never more than its capacity
    (4 reads, 2 writes); while a call waits, it can take a slot at once or
    some running call will give one back. *)
Theorem slots_bounded n c :
  0 < n → star slot_step (make_channel n) c →
  Z.of_nat (size (running c)) <= n ∧ held c = Z.of_nat (size (running c)) ∧
  (∀ p, p ∈ waiting c →
     (∃ c', slot_step c c' ∧ p ∈ running c') ∨
     (∃ q c', q ∈ running c ∧ slot_step c c' ∧ held c' < n)).
Proof.
  intros Hn Hst.
  assert (channel_ok n c) as (Hcap & Hheld & Hle & Hdis).
  { eapply (star_invariant _ (channel_ok n)); [| |exact Hst].
    - unfold channel_ok, make_channel; simpl. split_and!; [done|done|lia|set_solver].
    - intros a b. apply slot_step_ok. }
  split_and!; [lia|done|]. intros p Hp. destruct (decide (held c < capacity c)) as [Hlt|Hge].
  - left. eexists. split; [by apply (step_acquire c p)|]. simpl. set_solver.
  - right. assert (running c ≠ ∅) as [q Hq]%set_choose_L.
    { intros He. rewrite He, size_empty in Hheld. lia. }
    exists q. eexists. split_and!; [done|by apply (step_release c q)|]. simpl. lia.
Qed.
Lemma slots_bounded_witness :
  ∃ c, star slot_step (make_channel 1) c ∧ waiting c = {[2%positive]} ∧
    Z.of_nat (size (running c)) <= 1 ∧ held c = Z.of_nat (size (running c)).
Proof.
  set (c0 := make_channel 1).
  set (c1 := MkChannel 1 0 ({[1%positive]} ∪ waiting c0) (running c0)).
  set (c2 := MkChannel 1 (0 + 1) (waiting c1 ∖ {[1%positive]}) ({[1%positive]} ∪ running c1)).
  set (c := MkChannel 1 (0 + 1) ({[2%positive]} ∪ waiting c2) (running c2)).
  assert (star slot_step c0 c) as Hc.
  { apply (star_step _ _ c2); [|apply (step_arrive c2 2%positive); set_solver].
    apply (star_step _ _ c1); [|apply (step_acquire c1 1%positive); [set_solver|simpl; lia]].
    apply (star_step _ _ c0); [constructor|]. apply (step_arrive c0 1%positive); set_solver. }
  exists c. split; [exact Hc|]. split; [set_solver|].
  destruct (slots_bounded 1 c ltac:(lia) Hc) as (H1 & H2 & _). exact (conj H1 H2).
Defined.

(** A service that always fails with a transport error, and one that reports a
    typed error. *)
Definition idle : Guards nat := {|
  ctx_err _ := None; Reserve n := (n, Some 0); Cancel n := n; wait_timer _ n := (n, None);
  acquire_slot n := (n, None); release_slot n := n |}.
Example transport_error_retried :
  let fn (n : nat) := (S n, (tt, Some (Plain "connection reset"))) in
  (@guarded_read _ idle unit (500 * 1000000) 2 tt fn 0%nat).1
  = (3%nat, [Acquired; Called; Backoff 500000000; Called; Backoff 1000000000; Called; Released]).
Proof. reflexivity. Qed.
Lemma typed_errors_not_retried_witness :
  let fn (n : nat) := (S n, (tt, Some (Typed (classifyStatus 503)))) in
  ∃ used, bracketed (@guarded_read _ idle unit (500 * 1000000) 2 tt fn 0%nat).1.2 used ∧ calls used <= 1.
Proof.
  intros fn. apply (@typed_errors_not_retried _ idle unit (500 * 1000000) 2 tt fn 0%nat).
  intros w1 w2 a e He. injection He as <- <- <-. reflexivity.
Defined.
