(* ===== verification/Validation.v ===== *)
(** Input validation (src/internal/icloud/validation.go, etag.go), the object
    paths built from validated inputs (client.go) and the cache of object
    locations (location_cache.go). *)
From S2P Require Import Prelude GoStrings GoTime CalErrors Scopes TimePolicy.

Definition MaxUIDLen : Z := 255.
Definition MaxRangeDays : Z := 366.
Definition MaxQueryLen : Z := 200.
Definition MaxResults : Z := 400.
Definition maxETagBytes : Z := 512.

(** * Percent-decoding *)

Definition unhex (c : ascii) : option Z :=
  let v := byte_val c in
  if (48 <=? v) && (v <=? 57) then Some (v - 48)
  else if (97 <=? v) && (v <=? 102) then Some (v - 87)
  else if (65 <=? v) && (v <=? 70) then Some (v - 55)
  else None.

(** [url.PathUnescape]: [None] is an invalid escape. *)
Fixpoint path_unescape (l : list ascii) : option (list ascii) :=
  match l with
  | [] => Some []
  | c :: l =>
      if decide (c = "%"%char) then
        match l with
        | h1 :: h2 :: l =>
            match unhex h1, unhex h2 with
            | Some a, Some b => (λ r, byte_of (16 * a + b) :: r) <$> path_unescape l
            | _, _ => None
            end
        | _ => None
        end
      else (λ r, c :: r) <$> path_unescape l
  end.
Definition PathUnescape (s : string) : option string := str <$> path_unescape (bytes s).

(** * Calendar paths and UIDs *)

Definition nul_lf_cr : string := str ["000"; "010"; "013"]%char.

Definition ValidateCalendarPath (path : string) : result error unit :=
  reject bool_decide (path = "") with Plain "calendar path cannot be empty" ;;
  reject 1024 <? len path with Plain "calendar path is too long (max 1024 UTF-8 bytes)" ;;
  reject negb (has_prefix path "/") with Plain "calendar path must start with '/'" ;;
  reject has_prefix path "//" || contains path "\"
    with Plain "calendar path must be path-absolute (no host or scheme)" ;;
  reject contains_any path "?#" with Plain "calendar path contains invalid characters" ;;
  reject contains_any path nul_lf_cr with Plain "calendar path contains invalid characters" ;;
  reject contains path ".." with Plain "calendar path contains a directory traversal sequence ('..')" ;;
  let decoded := default path (PathUnescape path) in
  reject contains decoded ".." with Plain "calendar path contains a directory traversal sequence ('..')" ;;
  reject has_prefix decoded "//" || contains decoded "\"
    with Plain "calendar path must be path-absolute (no host or scheme)" ;;
  reject contains_any decoded ("?#" ++ nul_lf_cr) with Plain "calendar path contains invalid characters" ;;
  Ok tt.

Definition ValidateUID (uid : string) : result error unit :=
  reject bool_decide (uid = "") with Plain "UID cannot be empty" ;;
  reject MaxUIDLen <? len uid with Plain "UID is too long (max 255 UTF-8 bytes)" ;;
  reject contains uid ".." with Plain "UID contains a directory traversal sequence ('..')" ;;
  reject contains_any uid (nul_lf_cr ++ "/%\") with Plain "UID contains invalid characters" ;;
  reject existsb (λ rw, (rw.1 <? 32) || (rw.1 =? 127)) (runes (bytes uid))
    with Plain "UID contains invalid characters" ;;
  Ok tt.

(** The object path of [CreateEvent] and [findEventByUID]. *)
Definition object_path (calendarPath uid : string) : string :=
  trim_suffix calendarPath "/" ++ "/" ++ uid ++ ".ics".

Definition pathUnderHomeSet (path homeSet : string) : bool :=
  let home := trim_suffix homeSet "/" in
  if decide (home = "") then false
  else
    let p := trim_suffix path "/" in
    if decide (p = home) then true else has_prefix path (home ++ "/").

(** [validateAgentCalendarPath], with the discovered home set. *)
Definition validateAgentCalendarPath (homeSetPath path : string) : result error unit :=
  ValidateCalendarPath path;;
  reject bool_decide (homeSetPath = "") with Plain "calendar home-set not discovered" ;;
  reject negb (pathUnderHomeSet path homeSetPath)
    with Typed (NewValidationError "calendar path is outside the discovered calendar home-set") ;;
  Ok tt.

(** * Entity tags *)

Definition quote_byte : ascii := "034"%char.
Definition etag_byte (b : ascii) : bool :=
  negb ((byte_val b <? 33) || (byte_val b =? 34) || (byte_val b =? 127)).
Definition parseStrongETag (value : string) : result error string :=
  reject maxETagBytes <? len value with Plain "invalid strong entity-tag" ;;
  let value := trim value (str [" "; "009"]%char) in
  match bytes value with
  | first :: rest =>
      match reverse rest with
      | last :: inner =>
          reject negb (bool_decide (first = quote_byte)) || negb (bool_decide (last = quote_byte))
            with Plain "invalid strong entity-tag" ;;
          reject existsb (λ b, negb (etag_byte b)) (reverse inner) with Plain "invalid strong entity-tag" ;;
          Ok value
      | [] => Err (Plain "invalid strong entity-tag")
      end
  | [] => Err (Plain "invalid strong entity-tag")
  end.
Definition ValidateIfMatchETag (etag : string) : result error unit :=
  if decide (etag = "") then Ok tt
  else match parseStrongETag etag with
       | Ok _ => Ok tt
       | Err _ => Err (Typed (NewValidationError
           "etag must be exactly one valid strong quoted entity-tag from get_event or search_events"))
       end.
(** [strongETagFromHeader], on the values of the [ETag] field. *)
Definition strongETagFromHeader (values : list string) : result error string :=
  match values with
  | [] => Ok ""
  | [v] => parseStrongETag v
  | _ => Err (Plain "invalid entity-tag field count")
  end.

(** * Fields and ranges *)

Definition ValidateTextField (name value : string) (max : Z) : result error unit :=
  reject max <? len value
    with Plain (name ++ " too long (max " ++ fmt_int max ++ " UTF-8 bytes, got " ++ fmt_int (len value) ++ ")") ;;
  reject contains_any value (str ["000"%char])
    with Plain (name ++ " contains a forbidden character (NUL)") ;;
  Ok tt.

Definition ValidateRange (start end_ : gtime) : result error unit :=
  reject negb (instant start <? instant end_)
    with Plain ("end date (" ++ format_rfc3339 end_ ++ ") must be after start date (" ++ format_rfc3339 start ++ ")") ;;
  reject MaxRangeDays * 24 * hour <? time_sub (instant end_) (instant start)
    with Plain ("date range exceeds " ++ fmt_int MaxRangeDays ++ " days (maximum allowed)") ;;
  Ok tt.

(** * Object locations *)

Definition maxCachedEventLocations : Z := 1024.
Record eventLocationCache := MkCache { entries : gmap string string; order : list string }.
Definition newEventLocationCache : eventLocationCache := MkCache ∅ [].
Definition eventLocationKey (calendarPath uid : string) : string :=
  trim_suffix calendarPath "/" ++ str ["000"%char] ++ uid.
Definition cache_get (c : eventLocationCache) (calendarPath uid : string) : option string :=
  entries c !! eventLocationKey calendarPath uid.
Definition cache_put (c : eventLocationCache) (calendarPath uid path : string) : eventLocationCache :=
  if decide (path = "") then c
  else if negb (has_prefix path (trim_suffix calendarPath "/" ++ "/")) then c
  else
    let key := eventLocationKey calendarPath uid in
    match entries c !! key with
    | Some _ => MkCache (<[key := path]> (entries c)) (order c)
    | None =>
        let c := if maxCachedEventLocations <=? zlen (order c)
                 then match order c with
                      | oldest :: rest => MkCache (delete oldest (entries c)) rest
                      | [] => c
                      end
                 else c in
        MkCache (<[key := path]> (entries c)) (order c ++ [key])
    end.
(** Drop the first occurrence of [key]. *)
Fixpoint remove_first (key : string) (l : list string) : list string :=
  match l with
  | [] => []
  | x :: l => if decide (x = key) then l else x :: remove_first key l
  end.
Definition cache_evict (c : eventLocationCache) (calendarPath uid : string) : eventLocationCache :=
  let key := eventLocationKey calendarPath uid in
  match entries c !! key with
  | None => c
  | Some _ => MkCache (delete key (entries c)) (remove_first key (order c))
  end.

(** * Safe paths *)

(** The two-dot sequence, found byte by byte. *)
Fixpoint has_dotdot (l : list ascii) : bool :=
  match l with
  | x :: (y :: _) as l' =>
      (bool_decide (x = "."%char) && bool_decide (y = "."%char)) || has_dotdot l'
  | _ => false
  end.
Definition bad_bytes : list ascii := ["\"; "?"; "#"; "000"; "010"; "013"]%char.
Definition safe_bytes (l : list ascii) : bool := forallb (λ c, negb (bool_decide (c ∈ bad_bytes))) l.
(** No authority, no traversal, no byte that changes how a URL is read. *)
Definition safe_path (l : list ascii) : bool :=
  negb (has_prefix_b ["/"; "/"]%char l) && safe_bytes l && negb (has_dotdot l).

Lemma has_dotdot_cons x y l :
  has_dotdot (x :: y :: l) =
  (bool_decide (x = "."%char) && bool_decide (y = "."%char)) || has_dotdot (y :: l).
Proof. done. Qed.
Lemma contains_dotdot l : contains_b l ["."; "."]%char = has_dotdot l.
Proof.
  unfold contains_b. induction l as [|x l IH]; [done|]. cbn [index_b].
  destruct (has_prefix_b ["."; "."]%char (x :: l)) eqn:Hp.
  - apply has_prefix_b_spec in Hp as [k Hk]. by simplify_eq/=.
  - destruct l as [|y l]; [done|]. rewrite has_dotdot_cons.
    destruct (bool_decide (x = "."%char) && bool_decide (y = "."%char)) eqn:E.
    + apply andb_prop in E as [Hx Hy]. bool_to_prop. subst.
      by rewrite (proj2 (has_prefix_b_spec _ ("."%char :: "."%char :: l))) in Hp by (by exists l).
    + rewrite orb_false_l, <-IH. by destruct (index_b _ (y :: l)).
Qed.
Lemma contains_byte_b l c : contains_b l [c] = bool_decide (c ∈ l).
Proof.
  apply eq_true_iff_eq. rewrite contains_b_spec, bool_decide_eq_true. split.
  - intros (k1 & k2 & ->). set_solver.
  - intros (l1 & l2 & Hl)%list_elem_of_split. by exists l1, l2.
Qed.
Lemma safe_bytes_spec l : safe_bytes l = true ↔ ∀ c, c ∈ l → c ∉ bad_bytes.
Proof.
  unfold safe_bytes. rewrite forallb_Forall, Forall_forall.
  setoid_rewrite negb_true_iff. by setoid_rewrite bool_decide_eq_false.
Qed.
Lemma safe_bytes_app l1 l2 : safe_bytes (l1 ++ l2) = safe_bytes l1 && safe_bytes l2.
Proof. apply forallb_app. Qed.

Definition last_is (c : ascii) (l : list ascii) : bool := bool_decide (last l = Some c).
Definition head_is (c : ascii) (l : list ascii) : bool := bool_decide (head l = Some c).
Lemma has_dotdot_app l1 l2 :
  has_dotdot (l1 ++ l2) =
  has_dotdot l1 || has_dotdot l2 || (last_is "."%char l1 && head_is "."%char l2).
Proof.
  induction l1 as [|x l1 IH].
  { unfold last_is. simpl. by rewrite orb_false_r. }
  destruct l1 as [|y l1].
  - cbn [app]. unfold last_is, head_is. simpl. destruct l2 as [|z l2]; simpl; [by rewrite andb_false_r|].
    assert (∀ c : ascii, bool_decide (Some c = Some "."%char) = bool_decide (c = "."%char)) as Hs.
    { intros c. apply bool_decide_ext. split; congruence. }
    rewrite !Hs. by destruct (bool_decide (x = _)), (bool_decide (z = _)), l2; simpl; rewrite ?orb_true_r, ?orb_false_r.
  - cbn [app] in *. rewrite !has_dotdot_cons, IH. unfold last_is. cbn [last].
    by rewrite !orb_assoc.
Qed.

Lemma contains_any_bad path cs :
  contains_any path cs = existsb (λ c, bool_decide (c ∈ bytes cs)) (bytes path).
Proof. done. Qed.

(** The three byte checks of [ValidateCalendarPath] are one. *)
Lemma path_checks s :
  has_prefix s "//" || contains s "\" = false ∧ contains_any s "?#" = false ∧
  contains_any s nul_lf_cr = false ∧ contains s ".." = false ↔ safe_path (bytes s) = true.
Proof.
  unfold safe_path, has_prefix, contains. change (bytes "..") with ["."; "."]%char.
  change (bytes "\") with ["\"%char]. rewrite contains_dotdot, contains_byte_b.
  rewrite !andb_true_iff, !negb_true_iff, orb_false_iff, bool_decide_eq_false, safe_bytes_spec, !contains_any_false.
  unfold nul_lf_cr. rewrite bytes_str. change (bytes "?#") with ["?"; "#"]%char.
  change (bytes "//") with ["/"; "/"]%char.
  assert (∀ c, c ∉ bad_bytes ↔ c ≠ "\"%char ∧ c ∉ ["?"; "#"]%char ∧ c ∉ ["000"; "010"; "013"]%char) as Hbad.
  { intros c. unfold bad_bytes. rewrite !not_elem_of_cons. pose proof (not_elem_of_nil c). tauto. }
  split.
  - intros ((Hp & Hb) & Hq & Hn & Hd). split_and!; [done| |done].
    intros c Hc. apply Hbad. split_and!; [congruence|by apply Hq|by apply Hn].
  - intros ((Hp & Hs) & Hd). split_and!; [done| | | |done].
    + intros Hc. by destruct (proj1 (Hbad _) (Hs _ Hc)) as [? _].
    + intros c Hc. by destruct (proj1 (Hbad _) (Hs _ Hc)) as (_ & ? & _).
    + intros c Hc. by destruct (proj1 (Hbad _) (Hs _ Hc)) as (_ & _ & ?).
Qed.

Definition decoded (l : list ascii) : list ascii := default l (path_unescape l).

Lemma bytes_decoded s : bytes (default s (PathUnescape s)) = decoded (bytes s).
Proof. unfold PathUnescape, decoded. destruct (path_unescape (bytes s)); [apply bytes_str|done]. Qed.

Lemma validated_path s :
  ValidateCalendarPath s = Ok tt ↔
  len s <= 1024 ∧ has_prefix s "/" = true ∧ safe_path (bytes s) = true ∧ safe_path (decoded (bytes s)) = true.
Proof.
  rewrite <-bytes_decoded, <-!path_checks. unfold ValidateCalendarPath. cbv zeta.
  set (d := default s (PathUnescape s)).
  assert (contains_any d ("?#" ++ nul_lf_cr) = false ↔
          contains_any d "?#" = false ∧ contains_any d nul_lf_cr = false) as Hd.
  { rewrite !contains_any_false, bytes_app. setoid_rewrite elem_of_app. naive_solver. }
  rewrite !reject_ok, negb_false_iff, Z.ltb_ge, Hd, !orb_false_iff, bool_decide_eq_false.
  split; [tauto|]. intros (? & Hp & ?). split; [|tauto]. intros ->. by vm_compute in Hp.
Qed.

(** Decoding stops at a separator: an escape cannot cross it. *)
Lemma path_unescape_sep l1 l2 :
  path_unescape (l1 ++ "/"%char :: l2) =
  match path_unescape l1 with
  | Some r1 => (λ r2, r1 ++ "/"%char :: r2)%list <$> path_unescape l2
  | None => None
  end.
Proof.
  remember (length l1) as n eqn:Hn. assert (length l1 <= n)%nat as Hle by lia. clear Hn.
  revert l1 Hle; induction n as [|n IH]; intros l1 Hle.
  { destruct l1; [|simpl in Hle; lia]. reflexivity. }
  destruct l1 as [|c l1]; [reflexivity|]. cbn [app path_unescape]. simpl in Hle.
  destruct (decide (c = "%"%char)) as [->|Hc].
  - destruct l1 as [|h1 [|h2 l1]]; cbn [app]; [by destruct l2| |].
    + by destruct (unhex h1).
    + destruct (unhex h1), (unhex h2); try done. rewrite IH by (simpl in Hle; lia).
      destruct (path_unescape l1); [|done]. by destruct (path_unescape l2).
  - rewrite IH by lia. destruct (path_unescape l1); [|done]. by destruct (path_unescape l2).
Qed.
Lemma path_unescape_plain l : "%"%char ∉ l → path_unescape l = Some l.
Proof.
  induction l as [|c l IH]; [done|]. rewrite not_elem_of_cons. intros [Hc Hl]. cbn [path_unescape].
  rewrite decide_False by congruence. by rewrite IH.
Qed.
Lemma decoded_sep l1 u :
  "%"%char ∉ u → decoded (l1 ++ "/"%char :: u) = (decoded l1 ++ "/"%char :: u)%list.
Proof.
  intros Hu. unfold decoded. rewrite path_unescape_sep, (path_unescape_plain u) by done.
  by destruct (path_unescape l1).
Qed.

(** A directory to which a segment can be appended: empty, or rooted and not
    the root alone. *)
Definition directory (a : list ascii) : Prop := a = [] ∨ ∃ x r, a = "/"%char :: x :: r.

(** The bytes a UID brings into a path. *)
Definition uid_bytes (u : list ascii) : Prop :=
  u ≠ [] ∧ has_dotdot u = false ∧ "%"%char ∉ u ∧ "/"%char ∉ u ∧
  "\"%char ∉ u ∧ "000"%char ∉ u ∧ "010"%char ∉ u ∧ "013"%char ∉ u.
(** ... and what must hold besides for the object path to be safe. *)
Definition uid_in_path (u : list ascii) : bool :=
  negb (bool_decide ("?"%char ∈ u)) && negb (bool_decide ("#"%char ∈ u)) && negb (last_is "."%char u).

Lemma ValidateUID_bytes uid :
  ValidateUID uid = Ok tt →
  uid_bytes (bytes uid) ∧ len uid <= MaxUIDLen ∧
  Forall (λ rw, 32 <= rw.1 ∧ rw.1 ≠ 127) (runes (bytes uid)).
Proof.
  unfold ValidateUID. rewrite !reject_ok, bool_decide_eq_false, Z.ltb_ge, contains_any_false, bytes_app.
  unfold contains. change (bytes "..") with ["."; "."]%char. rewrite contains_dotdot, existsb_false.
  intros (Hne & Hlen & Hdd & Hany & Hr & _). split_and!; [|done|].
  - unfold uid_bytes. split_and!; [intros He; apply Hne; by apply (bytes_inj uid "")|done|..].
    all: intros Hin; apply Hany in Hin; apply Hin; vm_compute; repeat (left || right).
  - eapply Forall_impl; [exact Hr|]. intros rw. cbn. intros Hb. bool_to_prop. lia.
Qed.

Lemma safe_object a u :
  directory a → safe_path a = true → uid_bytes u →
  safe_path (a ++ "/"%char :: u ++ bytes ".ics") = uid_in_path u.
Proof.
  intros Hdir Ha (Hne & Hdd & _ & Hsl & Hbs & Hnul & Hlf & Hcr).
  unfold safe_path in *. bool_to_prop.
  assert (has_prefix_b ["/"; "/"]%char (a ++ "/"%char :: u ++ bytes ".ics") = false) as ->.
  { apply bool_decide_eq_false. intros [k Hk]. destruct Hdir as [->|(x & r & ->)].
    - destruct u as [|c u]; [done|]. simpl in Hk. injection Hk as -> _. apply Hsl. left.
    - simpl in Hk. injection Hk as -> _.
      match goal with H : has_prefix_b _ _ = false |- _ =>
        apply bool_decide_eq_false in H; apply H; by exists r end. }
  assert (safe_bytes (a ++ "/"%char :: u ++ bytes ".ics") =
          negb (bool_decide ("?"%char ∈ u)) && negb (bool_decide ("#"%char ∈ u))) as ->.
  { rewrite safe_bytes_app. change ("/"%char :: u ++ bytes ".ics")%list with (["/"%char] ++ u ++ bytes ".ics")%list.
    rewrite !safe_bytes_app. replace (safe_bytes a) with true by done.
    change (safe_bytes ["/"%char]) with true. change (safe_bytes (bytes ".ics")) with true.
    rewrite andb_true_r, !andb_true_l. apply eq_true_iff_eq.
    rewrite safe_bytes_spec, andb_true_iff, !negb_true_iff, !bool_decide_eq_false. unfold bad_bytes. split.
    - intros H'. split; intros Hin; apply H' in Hin; apply Hin; repeat (left || right).
    - intros [Hq Hh] c Hc. rewrite !not_elem_of_cons. pose proof (not_elem_of_nil c).
      split_and!; try done; congruence. }
  assert (has_dotdot (a ++ "/"%char :: u ++ bytes ".ics") = last_is "."%char u) as ->.
  { rewrite has_dotdot_app. replace (has_dotdot a) with false by done.
    replace (head_is "."%char ("/"%char :: u ++ bytes ".ics")) with false by done.
    rewrite andb_false_r, orb_false_r, orb_false_l.
    destruct u as [|c u]; [done|]. cbn [app]. rewrite has_dotdot_cons. cbn [bool_decide].
    rewrite (bool_decide_eq_false_2 ("/"%char = "."%char)) by done. rewrite andb_false_l, orb_false_l.
    change (c :: u ++ bytes ".ics")%list with ((c :: u) ++ bytes ".ics")%list.
    rewrite has_dotdot_app, Hdd. replace (has_dotdot (bytes ".ics")) with false by done.
    replace (head_is "."%char (bytes ".ics")) with true by done. by rewrite andb_true_r. }
  unfold uid_in_path. by rewrite andb_true_l.
Qed.

Lemma safe_path_prefix a b : safe_path (a ++ b) = true → safe_path a = true.
Proof.
  unfold safe_path. rewrite safe_bytes_app, has_dotdot_app. intros H. bool_to_prop.
  repeat match goal with H : (_ && _)%bool = true |- _ => apply andb_prop in H as [? ?] end.
  apply andb_true_intro. split; [apply andb_true_intro; split|].
  - apply negb_true_iff, bool_decide_eq_false. intros [k Hk].
    match goal with H : has_prefix_b _ _ = false |- _ =>
      apply bool_decide_eq_false in H; apply H; exists (k ++ b)%list end. by rewrite Hk, app_assoc.
  - done.
  - by apply negb_true_iff.
Qed.
Lemma path_unescape_nonnil c l r : path_unescape (c :: l) = Some r → r ≠ [].
Proof.
  cbn [path_unescape]. case_decide.
  - destruct l as [|h1 [|h2 l]]; try done. destruct (unhex h1), (unhex h2); try done.
    by destruct (path_unescape l); intros [= <-].
  - by destruct (path_unescape l); intros [= <-].
Qed.

(** The directory of a validated calendar path. *)
Lemma calendar_directory cal :
  ValidateCalendarPath cal = Ok tt →
  let a := bytes (trim_suffix cal "/") in
  directory a ∧ safe_path a = true ∧ directory (decoded a) ∧ safe_path (decoded a) = true.
Proof.
  intros (_ & Hp & Hs & Hd)%validated_path. cbv zeta.
  assert (∃ b, (b = [] ∧ has_suffix_b ["/"%char] (bytes cal) = false ∨ b = ["/"%char]) ∧
               bytes cal = (bytes (trim_suffix cal "/") ++ b)%list) as (b & Hb & Hcal).
  { unfold trim_suffix, has_suffix. change (bytes "/") with ["/"%char].
    destruct (has_suffix_b ["/"%char] (bytes cal)) eqn:Hsuf;
      [|exists []; rewrite app_nil_r; by split; [left|]].
    unfold has_suffix_b in Hsuf. apply bool_decide_eq_true in Hsuf as [k Hk].
    exists ["/"%char]. split; [by right|]. rewrite bytes_str, Hk, length_app. simpl.
    replace (length k + 1 - 1)%nat with (length k) by lia. by rewrite take_app_length. }
  set (a := bytes (trim_suffix cal "/")) in *. clearbody a.
  assert (safe_path a = true) as Ha by (rewrite Hcal in Hs; by apply safe_path_prefix in Hs).
  assert (directory a) as Hdir.
  { unfold has_prefix in Hp. apply has_prefix_b_spec in Hp as [t Ht]. change (bytes "/") with ["/"%char] in Ht.
    destruct a as [|x [|y r]]; [by left| |right; exists y, r; rewrite Ht in Hcal; by injection Hcal as <-].
    rewrite Ht in Hcal. injection Hcal as <- ->. destruct Hb as [[-> Hn]| ->].
    - by rewrite Ht in Hn.
    - by rewrite Ht in Hs. }
  split_and!; [done|done| |].
  - destruct Hdir as [->|(x & r & ->)]; [by left|]. right. unfold decoded.
    change ("/"%char :: x :: r) with ([] ++ "/"%char :: x :: r)%list. rewrite path_unescape_sep.
    destruct (path_unescape (x :: r)) as [l|] eqn:E; [|by exists x, r].
    apply path_unescape_nonnil in E. destruct l as [|y l]; [done|]. by exists y, l.
  - destruct Hb as [[-> _]| ->]; rewrite Hcal in Hd; [by rewrite app_nil_r in Hd|].
    rewrite decoded_sep in Hd by apply not_elem_of_nil. by apply safe_path_prefix in Hd.
Qed.

(** The object path built from an accepted calendar path and an accepted
    UID is itself an acceptable path (rooted, no authority, no traversal,
    no query or fragment, also after percent-decoding) exactly when the UID
    holds no question mark, no number sign and does not end with a dot, and
    the whole stays within 1024 bytes. *)
Theorem object_path_valid cal uid :
  ValidateCalendarPath cal = Ok tt → ValidateUID uid = Ok tt →
  (ValidateCalendarPath (object_path cal uid) = Ok tt ↔
     uid_in_path (bytes uid) = true ∧ len (object_path cal uid) <= 1024).
Proof.
  intros Hcal (Hu & _ & _)%ValidateUID_bytes.
  pose proof (calendar_directory cal Hcal) as (Hdir & Hsafe & Hddir & Hdsafe).
  rewrite validated_path. unfold object_path.
  set (a := trim_suffix cal "/") in *.
  assert (bytes (a ++ "/" ++ uid ++ ".ics") = bytes a ++ "/"%char :: bytes uid ++ bytes ".ics")%list as Hb
    by (by rewrite !bytes_app).
  rewrite Hb, decoded_sep.
  2: { destruct Hu as (_ & _ & Hpc & _). rewrite elem_of_app. intros [?|Hin]; [done|].
       revert Hin. vm_compute. intros Hin. repeat (apply elem_of_cons in Hin as [?|Hin]; [done|]).
       by apply elem_of_nil in Hin. }
  rewrite !safe_object by done.
  assert (has_prefix (a ++ "/" ++ uid ++ ".ics") "/" = true) as Hp.
  { unfold has_prefix. rewrite Hb, has_prefix_b_spec.
    destruct Hdir as [->|(x & r & ->)]; simpl; eexists; reflexivity. }
  tauto.
Qed.
Lemma object_path_valid_witness :
  ValidateCalendarPath (object_path "/1/calendars/home/" "A1-b@x") = Ok tt ∧
  ValidateCalendarPath (object_path "/1/calendars/home/" "meeting#2") ≠ Ok tt ∧
  ValidateUID "meeting#2" = Ok tt.
Proof.
  split; [|split; [|vm_compute; reflexivity]].
  - apply (proj2 (object_path_valid "/1/calendars/home/" "A1-b@x" ltac:(vm_compute; reflexivity)
                    ltac:(vm_compute; reflexivity))).
    split; [vm_compute; reflexivity|apply Z.leb_le; vm_compute; reflexivity].
  - intros H. apply (proj1 (object_path_valid "/1/calendars/home/" "meeting#2" ltac:(vm_compute; reflexivity)
                    ltac:(vm_compute; reflexivity))) in H as [H _]. vm_compute in H. discriminate H.
Defined.

(** * The home set *)

Definition segments (s : string) : list string := split s "/"%char.

(** A path segment holds no dot-dot when the path does not. *)
Lemma has_dotdot_segment l w : has_dotdot l = false → w ∈ split_b "/"%char l → w ≠ ["."; "."]%char.
Proof.
  intros Hl Hw ->. revert Hw Hl. induction l as [|x l IH]; cbn [split_b].
  { intros H%list_elem_of_singleton. done. }
  intros Hin Hdd.
  assert (has_dotdot l = false) as Hdd'.
  { destruct l as [|y l]; [done|]. rewrite has_dotdot_cons in Hdd. by apply orb_false_iff in Hdd as [_ ?]. }
  case_decide as Hx.
  - apply elem_of_cons in Hin as [Hin|Hin]; [done|]. by apply IH.
  - destruct (split_b "/"%char l) as [|v vs] eqn:E; [by apply split_b_nonnil in E|].
    apply elem_of_cons in Hin as [Hin|Hin]; [|apply IH; [by right|done]].
    injection Hin as <- <-.
    destruct l as [|y l]; [by simpl in E|]. cbn [split_b] in E. case_decide as Hy; [done|].
    destruct (split_b "/"%char l) as [|v' vs'] eqn:E'; [by apply split_b_nonnil in E'|].
    injection E as -> _ _. by rewrite has_dotdot_cons in Hdd.
Qed.
Lemma safe_path_segments s : safe_path (bytes s) = true → ".." ∉ segments s.
Proof.
  unfold safe_path, segments, split. intros H Hin. bool_to_prop.
  apply list_elem_of_fmap in Hin as (w & Hw & Hin).
  match goal with H : has_dotdot _ = false |- _ => eapply has_dotdot_segment in H; [|exact Hin]; apply H end.
  by rewrite <-(bytes_str w), <-Hw.
Qed.

(** A calendar path the client accepts from an agent names the discovered
    home set or something below it: its segments continue those of the home
    set, and none of them climbs, before or after percent-decoding. *)
Theorem agent_path_under_home home path :
  validateAgentCalendarPath home path = Ok tt →
  segments (trim_suffix home "/") `prefix_of` segments path ∧
  ".." ∉ segments path ∧ ".." ∉ segments (default path (PathUnescape path)) ∧
  trim_suffix home "/" ≠ "".
Proof.
  unfold validateAgentCalendarPath. rewrite bind_ok. intros ([] & Hv & Hu).
  rewrite !reject_ok, negb_false_iff in Hu. destruct Hu as (_ & Hu & _).
  apply validated_path in Hv as (_ & _ & Hs & Hd). rewrite <-bytes_decoded in Hd.
  split_and!; [|by apply safe_path_segments..|].
  - unfold pathUnderHomeSet in Hu. case_decide; [done|]. case_decide as Heq.
    + rewrite <-Heq. unfold segments, trim_suffix, has_suffix. change (bytes "/") with ["/"%char].
      destruct (has_suffix_b _ _) eqn:Hsuf; [|done].
      unfold has_suffix_b in Hsuf. apply bool_decide_eq_true in Hsuf as [k Hk].
      unfold split. rewrite bytes_str, Hk, length_app. simpl.
      replace (length k + 1 - 1)%nat with (length k) by lia.
      rewrite take_app_length, split_b_sep_app, map_app. by eexists.
    + unfold has_prefix in Hu. apply has_prefix_b_spec in Hu as [k Hk].
      unfold segments, split. rewrite Hk, bytes_app. change (bytes "/") with ["/"%char].
      rewrite <-app_assoc. cbn [app]. rewrite split_b_sep_app, map_app. by eexists.
  - unfold pathUnderHomeSet in Hu. by case_decide.
Qed.
Lemma agent_path_under_home_witness :
  segments (trim_suffix "/123/calendars/" "/") `prefix_of` segments "/123/calendars/home/" ∧
  validateAgentCalendarPath "/123/calendars/" "/123/calendars-x/" ≠ Ok tt.
Proof.
  split.
  - exact (proj1 (agent_path_under_home "/123/calendars/" "/123/calendars/home/" ltac:(vm_compute; reflexivity))).
  - vm_compute. intros H; discriminate H.
Defined.

(** * The location cache *)

(** Entries and order list the same keys once, within the limit; every cached
    path lies under the calendar of its key. *)
Record cache_ok (c : eventLocationCache) : Prop := {
  cache_nodup : NoDup (order c);
  cache_keys : ∀ k, k ∈ order c ↔ is_Some (entries c !! k);
  cache_size : zlen (order c) <= maxCachedEventLocations;
}.
Inductive cache_step : eventLocationCache → eventLocationCache → Prop :=
| step_put c cal uid path : cache_step c (cache_put c cal uid path)
| step_evict c cal uid : cache_step c (cache_evict c cal uid).

Lemma elem_of_remove_first k x l : NoDup l → x ∈ remove_first k l ↔ x ∈ l ∧ x ≠ k.
Proof.
  induction l as [|y l IH]; simpl; [rewrite elem_of_nil; tauto|]. intros [Hy Hnd]%NoDup_cons.
  case_decide as Hk.
  - subst. rewrite elem_of_cons. split; [|naive_solver]. intros Hx. split; [by right|]. by intros ->.
  - rewrite !elem_of_cons, IH by done. naive_solver.
Qed.
Lemma NoDup_remove_first k l : NoDup l → NoDup (remove_first k l).
Proof.
  induction l as [|y l IH]; simpl; [done|]. intros Hl. pose proof Hl as [Hy Hnd]%NoDup_cons.
  case_decide; [done|]. constructor; [|by apply IH]. rewrite elem_of_remove_first by done. naive_solver.
Qed.
Lemma length_remove_first k l : (length (remove_first k l) <= length l)%nat.
Proof. induction l as [|y l IH]; simpl; [done|]. case_decide; simpl; lia. Qed.

Lemma cache_step_ok c c' : cache_ok c → cache_step c c' → cache_ok c'.
Proof.
  intros Hok Hst. destruct Hst as [c0 cal uid path|c0 cal uid]; destruct Hok as [Hnd Hk Hsz].
  - unfold cache_put. do 2 (case_match; [by constructor|]). cbv zeta.
    set (key := eventLocationKey cal uid) in *. destruct (entries c0 !! key) as [p|] eqn:E.
    { constructor; simpl; [done| |done]. intros k. rewrite Hk. destruct (decide (k = key)) as [->|].
      - rewrite lookup_insert_eq, E. split; by eexists.
      - by rewrite lookup_insert_ne. }
    assert (key ∉ order c0) as Hnew.
    { intros Hin. apply Hk in Hin as [p Hp]. congruence. }
    assert (∀ es o, NoDup o → (∀ k, k ∈ o ↔ is_Some (es !! k)) → key ∉ o → zlen o < maxCachedEventLocations →
              cache_ok (MkCache (<[key:=path]> es) (o ++ [key]))) as Hins.
    { intros es o Hnd' Hk' Hnin Hlt. constructor; simpl.
      - apply NoDup_app. split_and!; [done|set_solver|apply NoDup_singleton].
      - intros k. rewrite elem_of_app, Hk', list_elem_of_singleton. destruct (decide (k = key)) as [->|].
        + rewrite lookup_insert_eq. split; [by eexists|by right].
        + rewrite lookup_insert_ne by done. split; [by intros [?|?]|by left].
      - rewrite zlen_app. unfold zlen in *. simpl. lia. }
    case_match eqn:Hfull; bool_to_prop; simpl; [|by apply Hins].
    destruct (order c0) as [|oldest rest] eqn:Eo; [unfold zlen, maxCachedEventLocations in *; simpl in *; lia|].
    pose proof Hnd as [Hold Hnd']%NoDup_cons. apply Hins; [done| |set_solver|unfold zlen in *; simpl in *; lia].
    cbn [entries order]. intros k. destruct (decide (k = oldest)) as [->|].
    + rewrite lookup_delete_eq. split; [done|by intros []].
    + rewrite lookup_delete_ne by done. rewrite <-Hk. set_solver.
  - unfold cache_evict. cbv zeta. set (key := eventLocationKey cal uid).
    destruct (entries c0 !! key) eqn:E; [|by constructor]. constructor; simpl.
    + by apply NoDup_remove_first.
    + intros k. rewrite elem_of_remove_first, Hk by done. destruct (decide (k = key)) as [->|].
      * rewrite lookup_delete_eq. split; [by intros [_ ?]|by intros []].
      * rewrite lookup_delete_ne by done. tauto.
    + pose proof (length_remove_first key (order c0)). unfold zlen in *. lia.
Qed.

(** Whatever sequence of insertions and evictions the client performs, the
    location cache lists each cached key once and never holds more than 1024
    locations; a location just inserted is found, and inserting one for
    another event never changes a location that is still cached. *)
Theorem location_cache_ok c :
  star cache_step newEventLocationCache c →
  NoDup (order c) ∧ (∀ k, k ∈ order c ↔ is_Some (entries c !! k)) ∧
  zlen (order c) <= maxCachedEventLocations ∧
  ∀ cal uid path, path ≠ "" → has_prefix path (trim_suffix cal "/" ++ "/") = true →
    let c' := cache_put c cal uid path in
    cache_get c' cal uid = Some path ∧
    ∀ k p, k ≠ eventLocationKey cal uid → entries c' !! k = Some p → entries c !! k = Some p.
Proof.
  intros Hst. assert (cache_ok c) as [Hnd Hk Hsz].
  { eapply (star_invariant _ cache_ok); [|intros; by eapply cache_step_ok|exact Hst].
    constructor; simpl; [constructor| |done]. intros k. rewrite lookup_empty, elem_of_nil.
    split; [done|by intros []]. }
  split_and!; [done|done|done|]. intros cal uid path Hne Hp. cbv zeta.
  unfold cache_get, cache_put. rewrite decide_False by done. rewrite Hp. cbn [negb].
  destruct (entries c !! eventLocationKey cal uid) eqn:E; simpl.
  { rewrite lookup_insert_eq. split; [done|]. intros k p Hkne. by rewrite lookup_insert_ne. }
  rewrite lookup_insert_eq. split; [done|]. intros k p Hkne. rewrite lookup_insert_ne by done.
  case_match; [|done]. destruct (order c) as [|oldest rest]; [done|]. simpl.
  by intros [_ ?]%lookup_delete_Some.
Qed.
Lemma location_cache_ok_witness :
  let c := cache_put newEventLocationCache "/c/" "u" "/c/u.ics" in
  star cache_step newEventLocationCache c ∧
  cache_get (cache_put c "/c" "v" "/c/x.ics") "/c" "v" = Some "/c/x.ics" ∧
  zlen (order c) <= maxCachedEventLocations.
Proof.
  intros c. assert (star cache_step newEventLocationCache c) as H
    by (eapply star_step; [constructor|apply step_put]).
  split; [exact H|]. pose proof (location_cache_ok c H) as (_ & _ & H3 & H4).
  split; [exact (proj1 (H4 "/c" "v" "/c/x.ics" ltac:(discriminate) ltac:(vm_compute; reflexivity)))|exact H3].
Defined.

(** * Entity tags *)

(** An accepted entity tag is one quoted strong tag: quotes at both ends,
    no quote, space or control byte between them, at most 512 bytes. *)
Lemma parseStrongETag_ok value tag :
  parseStrongETag value = Ok tag →
  ∃ inner, bytes tag = ([quote_byte] ++ inner ++ [quote_byte])%list ∧
    Forall (λ b, etag_byte b = true) inner ∧ quote_byte ∉ inner ∧ len value <= maxETagBytes.
Proof.
  unfold parseStrongETag. rewrite reject_ok, Z.ltb_ge. cbv zeta. set (v := trim _ _).
  destruct (bytes v) as [|first rest] eqn:Ev; [by intros [_ ?]|].
  destruct (reverse rest) as [|last inner] eqn:Er; [by intros [_ ?]|].
  rewrite !reject_ok, orb_false_iff, !negb_false_iff, !bool_decide_eq_true, existsb_false.
  intros (Hlen & [-> ->] & Hin & [= <-]). exists (reverse inner).
  assert (rest = reverse inner ++ [quote_byte])%list as ->.
  { apply (f_equal reverse) in Er. by rewrite reverse_involutive, reverse_cons in Er. }
  assert (Forall (λ b, etag_byte b = true) (reverse inner)) as HF.
  { eapply Forall_impl; [exact Hin|]. intros b. apply negb_false_iff. }
  split_and!; [by rewrite Ev|done| |done].
  intros Hq. rewrite Forall_forall in HF. by apply HF in Hq.
Qed.
Lemma parseStrongETag_ok_witness :
  ∃ tag inner, parseStrongETag (str (["034"; "a"; "\"; "034"; " "]%char)) = Ok tag ∧
    bytes tag = ([quote_byte] ++ inner ++ [quote_byte])%list ∧ quote_byte ∉ inner.
Proof.
  assert (parseStrongETag (str (["034"; "a"; "\"; "034"; " "]%char))
          = Ok (str (["034"; "a"; "\"; "034"]%char))) as H by (vm_compute; reflexivity).
  destruct (parseStrongETag_ok _ _ H) as (inner & Hb & _ & Hq & _).
  exists (str (["034"; "a"; "\"; "034"]%char)), inner. exact (conj H (conj Hb Hq)).
Defined.
