(* ===== verification/NetUrl.v ===== *)
(** The part of Go's [net/url] the DAV clients use: parsing, escaping, joining
    a reference to a base, and printing. *)
From S2P Require Import Prelude GoStrings GoEncode NetMail Validation.

(** * Escaping *)

Inductive encoding := encodePath | encodeUserPassword | encodeFragment | encodeHost | encodeZone.
#[export] Instance encoding_eq_dec : EqDecision encoding.
Proof. solve_decision. Defined.
Definition host_mode (m : encoding) : bool :=
  match m with encodeHost | encodeZone => true | _ => false end.

Definition host_chars : list ascii := bytes "!$&'()*+,;=:[]<>" ++ ["034"%char].
Definition shouldEscape (m : encoding) (c : ascii) : bool :=
  if is_alnum c then false
  else if host_mode m && bool_decide (c ∈ host_chars) then false
  else if bool_decide (c ∈ bytes "-_.~") then false
  else if bool_decide (c ∈ bytes "$&+,/:;=?@") then
    match m with
    | encodePath => bool_decide (c = "?"%char)
    | encodeUserPassword => bool_decide (c ∈ bytes "@/?:")
    | encodeFragment => false
    | _ => true
    end
  else match m with
       | encodeFragment => negb (bool_decide (c ∈ bytes "!()*"))
       | _ => true
       end.
Definition escape (m : encoding) (l : list ascii) : list ascii :=
  concat (map (λ c, if shouldEscape m c then percent c else [c]) l).

(** [unescape]: [None] is an error. *)
Fixpoint unescape (m : encoding) (l : list ascii) : option (list ascii) :=
  match l with
  | [] => Some []
  | c :: l =>
      if decide (c = "%"%char) then
        match l with
        | h1 :: h2 :: l =>
            match unhex h1, unhex h2 with
            | Some a, Some b =>
                let v := 16 * a + b in
                if bool_decide (m = encodeHost) && (a <? 8) && negb (v =? 37) then None
                else if bool_decide (m = encodeZone) && negb (v =? 37) && negb (v =? 32)
                        && shouldEscape encodeHost (byte_of v) then None
                else (λ r, byte_of v :: r) <$> unescape m l
            | _, _ => None
            end
        | _ => None
        end
      else if host_mode m && (byte_val c <? 128) && shouldEscape m c then None
      else (λ r, c :: r) <$> unescape m l
  end.

(** [validEncoded]. *)
Definition validEncoded (m : encoding) (l : list ascii) : bool :=
  forallb (λ c, bool_decide (c ∈ bytes "!$&'()*+,;=:@[]%") || negb (shouldEscape m c)) l.

(** * URLs *)

Record Userinfo := MkUserinfo { UserName : string; UserPassword : option string }.
Record URL := MkURL {
  Scheme : string; Opaque : string; User : option Userinfo; UrlHost : string;
  UrlPath : string; RawPath : string; OmitHost : bool; ForceQuery : bool; RawQuery : string;
  Fragment : string; RawFragment : string;
}.
#[export] Instance Userinfo_eq_dec : EqDecision Userinfo.
Proof. solve_decision. Defined.
#[export] Instance URL_eq_dec : EqDecision URL.
Proof. solve_decision. Defined.

Definition set_scheme (s : string) (u : URL) : URL :=
  MkURL s (Opaque u) (User u) (UrlHost u) (UrlPath u) (RawPath u) (OmitHost u) (ForceQuery u) (RawQuery u) (Fragment u) (RawFragment u).
Definition set_authority (user : option Userinfo) (host : string) (u : URL) : URL :=
  MkURL (Scheme u) (Opaque u) user host (UrlPath u) (RawPath u) (OmitHost u) (ForceQuery u) (RawQuery u) (Fragment u) (RawFragment u).
Definition set_paths (path raw : string) (u : URL) : URL :=
  MkURL (Scheme u) (Opaque u) (User u) (UrlHost u) path raw (OmitHost u) (ForceQuery u) (RawQuery u) (Fragment u) (RawFragment u).
Definition set_opaque (o : string) (u : URL) : URL :=
  MkURL (Scheme u) o (User u) (UrlHost u) (UrlPath u) (RawPath u) (OmitHost u) (ForceQuery u) (RawQuery u) (Fragment u) (RawFragment u).
Definition set_query (q : string) (u : URL) : URL :=
  MkURL (Scheme u) (Opaque u) (User u) (UrlHost u) (UrlPath u) (RawPath u) (OmitHost u) (ForceQuery u) q (Fragment u) (RawFragment u).
Definition set_fragments (f raw : string) (u : URL) : URL :=
  MkURL (Scheme u) (Opaque u) (User u) (UrlHost u) (UrlPath u) (RawPath u) (OmitHost u) (ForceQuery u) (RawQuery u) f raw.
Definition empty_url (scheme query : string) (force omit : bool) : URL :=
  MkURL scheme "" None "" "" "" omit force query "" "".
(** [&url.URL{Path: name}]. *)
Definition path_url (name : string) : URL := set_paths name "" (empty_url "" "" false false).

(** [escapedPart m raw plain]: [EscapedPath] and [EscapedFragment]. *)
Definition escaped_part (m : encoding) (raw plain : string) : string :=
  if negb (bool_decide (raw = "")) && validEncoded m (bytes raw)
     && bool_decide (unescape m (bytes raw) = Some (bytes plain)) then raw
  else if bool_decide (plain = "*") then "*"
  else str (escape m (bytes plain)).
Definition EscapedPath (u : URL) : string := escaped_part encodePath (RawPath u) (UrlPath u).
Definition EscapedFragment (u : URL) : string :=
  if negb (bool_decide (RawFragment u = "")) && validEncoded encodeFragment (bytes (RawFragment u))
     && bool_decide (unescape encodeFragment (bytes (RawFragment u)) = Some (bytes (Fragment u))) then RawFragment u
  else str (escape encodeFragment (bytes (Fragment u))).

(** [setPath] and [setFragment]: the decoded and the raw form. *)
Definition set_part (m : encoding) (p : string) : option (string * string) :=
  match unescape m (bytes p) with
  | None => None
  | Some l => Some (str l, if bool_decide (escape m l = bytes p) then "" else p)
  end.

(** * Parsing *)

(** [strings.Cut] around the first [c]. *)
Definition cut (s : string) (c : ascii) : string * string * bool :=
  match index_byte c (bytes s) with
  | Some i => (str (take i (bytes s)), str (drop (S i) (bytes s)), true)
  | None => (s, "", false)
  end.

Definition is_letter (c : ascii) : bool := is_alnum c && negb (is_digit c).

(** [getScheme]: [None] is the missing protocol scheme. *)
Fixpoint scheme_len (first : bool) (l : list ascii) : option (option nat) :=
  match l with
  | [] => Some None
  | c :: l =>
      if is_letter c then option_map (option_map S) (scheme_len false l)
      else if is_digit c || bool_decide (c ∈ bytes "+-.") then
        if first then Some None else option_map (option_map S) (scheme_len false l)
      else if decide (c = ":"%char) then if first then None else Some (Some O)
      else Some None
  end.
Definition getScheme (s : string) : option (string * string) :=
  match scheme_len true (bytes s) with
  | None => None
  | Some None => Some ("", s)
  | Some (Some i) => Some (str (take i (bytes s)), str (drop (S i) (bytes s)))
  end.

Definition validOptionalPort (l : list ascii) : bool :=
  match l with [] => true | c :: l => bool_decide (c = ":"%char) && forallb is_digit l end.

(** [netip.ParseAddr] on the inside of the brackets, an IPv4 address refused. *)
Definition ip_literal (l : list ascii) : bool :=
  match ip_family l with
  | Some c =>
      if decide (c = ":"%char) then
        match index_byte "%"%char l with
        | Some i => ipv6 (take i l) && negb (bool_decide (drop (S i) l = []))
        | None => ipv6 l
        end
      else false
  | None => false
  end.

Definition bracketed_host (l : list ascii) : option (list ascii) :=
  match last_index_byte "]"%char l with
  | None => None
  | Some j =>
      let port := drop (S j) l in
      let name := take (j - 1) (drop 1 l) in
      let at_zone := match index_b ["%"; "2"; "5"]%char name with Some z => z | None => length name end in
      if validOptionalPort port then
        h ← unescape encodeHost (take at_zone name);
        z ← unescape encodeZone (drop at_zone name);
        p ← unescape encodeHost port;
        if ip_literal (h ++ z)%list then Some ("["%char :: h ++ z ++ "]"%char :: p)%list else None
      else None
  end.
Definition parseHost (scheme : string) (host : string) : option string :=
  let l := bytes host in
  match last_index_byte "["%char l with
  | Some (S _) => None
  | Some O => str <$> bracketed_host l
  | None =>
      let colon :=
        if bool_decide (scheme ∈ ["postgresql"; "postgres"])
        then last_index_byte ":"%char l else index_byte ":"%char l in
      match colon with
      | Some i => if validOptionalPort (drop i l) then str <$> unescape encodeHost l else None
      | None => str <$> unescape encodeHost l
      end
  end.

(** [validUserinfo]; a multi-byte rune is not allowed. *)
Definition validUserinfo (l : list ascii) : bool :=
  forallb (λ c, is_alnum c || bool_decide (c ∈ bytes "-._:~!$&'()*+,;=%@")) l.
Definition parseUserinfo (userinfo : string) : option Userinfo :=
  if validUserinfo (bytes userinfo) then
    match cut userinfo ":"%char with
    | (_, _, false) => (λ n, MkUserinfo (str n) None) <$> unescape encodeUserPassword (bytes userinfo)
    | (name, password, true) =>
        n ← unescape encodeUserPassword (bytes name);
        p ← unescape encodeUserPassword (bytes password);
        Some (MkUserinfo (str n) (Some (str p)))
    end
  else None.
Definition parseAuthority (scheme authority : string) : option (option Userinfo * string) :=
  match last_index_byte "@"%char (bytes authority) with
  | None => (λ h, (None, h)) <$> parseHost scheme authority
  | Some i =>
      h ← parseHost scheme (str (drop (S i) (bytes authority)));
      u ← parseUserinfo (str (take i (bytes authority)));
      Some (Some u, h)
  end.

Definition control_byte (c : ascii) : bool := (byte_val c <? 32) || (byte_val c =? 127).

Definition setPath (p : string) (u : URL) : option URL :=
  (λ pr, set_paths pr.1 pr.2 u) <$> set_part encodePath p.

(** [parse(rawURL, viaRequest)]. *)
Definition parse_url (viaRequest : bool) (rawURL : string) : option URL :=
  if existsb control_byte (bytes rawURL) then None
  else if bool_decide (rawURL = "") && viaRequest then None
  else if decide (rawURL = "*") then Some (path_url "*")
  else
    '(raw_scheme, rest) ← getScheme rawURL;
    let scheme := str (map lower_byte (bytes raw_scheme)) in
    let force := has_suffix rest "?" && (zlen (List.filter (λ c, bool_decide (c = "?"%char)) (bytes rest)) =? 1) in
    let '(rest, query) := if force then (trim_suffix rest "?", "")
                          else let '(a, b, _) := cut rest "?"%char in (a, b) in
    let u := empty_url scheme query force false in
    if negb (has_prefix rest "/") && negb (bool_decide (scheme = "")) then Some (set_opaque rest u)
    else if negb (has_prefix rest "/") && viaRequest then None
    else if negb (has_prefix rest "/") && contains (cut rest "/"%char).1.1 ":" then None
    else if (negb (bool_decide (scheme = "")) || (negb viaRequest && negb (has_prefix rest "///")))
            && has_prefix rest "//" then
      let authority_rest := trim_prefix rest "//" in
      let i := match index_byte "/"%char (bytes authority_rest) with
               | Some i => i | None => length (bytes authority_rest) end in
      '(user, host) ← parseAuthority scheme (str (take i (bytes authority_rest)));
      setPath (str (drop i (bytes authority_rest))) (set_authority user host u)
    else
      setPath rest (empty_url scheme query force (negb (bool_decide (scheme = "")) && has_prefix rest "/")).
Definition ParseRequestURI (rawURL : string) : option URL := parse_url true rawURL.
Definition Parse (rawURL : string) : option URL :=
  let '(u, frag, _) := cut rawURL "#"%char in
  url ← parse_url false u;
  if decide (frag = "") then Some url
  else (λ fr, set_fragments fr.1 fr.2 url) <$> set_part encodeFragment frag.

(** * Reading and joining *)

Definition host_port (u : URL) : string * string :=
  let l := bytes (UrlHost u) in
  let '(h, p) := match last_index_byte ":"%char l with
                 | Some i => if validOptionalPort (drop i l) then (take i l, drop (S i) l) else (l, [])
                 | None => (l, [])
                 end in
  (if has_prefix_b ["["%char] h && has_suffix_b ["]"%char] h && (2 <=? zlen h)
   then str (take (length h - 2) (drop 1 h)) else str h, str p).
Definition Hostname (u : URL) : string := (host_port u).1.
Definition Port (u : URL) : string := (host_port u).2.

(** The loop of [resolvePath]: [dst] is what follows the leading slash. *)
Fixpoint resolve_elems (elems : list (list ascii)) (started : bool) (dst : list ascii) : list ascii * list ascii :=
  match elems with
  | [] => (dst, [])
  | elem :: rest =>
      let '(started, dst) :=
        if decide (elem = bytes ".") then (true, dst)
        else if decide (elem = bytes "..") then
          match last_index_byte "/"%char dst with
          | None => (false, [])
          | Some i => (started, take i dst)
          end
        else (true, if started then dst ++ "/"%char :: elem else dst ++ elem)%list in
      match rest with
      | [] => (dst, elem)
      | _ => resolve_elems rest started dst
      end
  end.
Definition resolvePath (base ref : string) : string :=
  let full :=
    if decide (ref = "") then base
    else if has_prefix ref "/" then ref
    else str (match last_index_byte "/"%char (bytes base) with
              | Some i => take (S i) (bytes base) | None => [] end) ++ ref in
  if decide (full = "") then ""
  else
    let '(dst, elem) := resolve_elems (split_b "/"%char (bytes full)) false [] in
    let dst := if bool_decide (elem = bytes ".") || bool_decide (elem = bytes "..")
               then (dst ++ ["/"%char])%list else dst in
    str (if has_prefix_b ["/"%char] dst then dst else "/"%char :: dst).

(** [u.setPath(p)], its error ignored. *)
Definition setPath_ignored (p : string) (u : URL) : URL := default u (setPath p u).
Definition ResolveReference (u ref : URL) : URL :=
  let url := if bool_decide (Scheme ref = "") then set_scheme (Scheme u) ref else ref in
  if negb (bool_decide (Scheme ref = "")) || negb (bool_decide (UrlHost ref = "")) || bool_decide (is_Some (User ref))
  then setPath_ignored (resolvePath (EscapedPath ref) "") url
  else if decide (Opaque ref = "") then
    let url :=
      if bool_decide (UrlPath ref = "") && negb (ForceQuery ref) && bool_decide (RawQuery ref = "") then
        let url := set_query (RawQuery u) url in
        if decide (Fragment ref = "") then set_fragments (Fragment u) (RawFragment u) url else url
      else url in
    if bool_decide (UrlPath ref = "") && negb (bool_decide (Opaque u = "")) then
      set_paths "" (RawPath url) (set_authority None "" (set_opaque (Opaque u) url))
    else
      setPath_ignored (resolvePath (EscapedPath u) (EscapedPath ref)) (set_authority (User u) (UrlHost u) url)
  else set_paths "" (RawPath url) (set_authority None "" url).

Definition user_string (u : Userinfo) : string :=
  str (escape encodeUserPassword (bytes (UserName u)))
  ++ match UserPassword u with
     | Some p => ":" ++ str (escape encodeUserPassword (bytes p))
     | None => ""
     end.
Definition url_string (u : URL) : string :=
  let head := if decide (Scheme u = "") then "" else Scheme u ++ ":" in
  let body :=
    if decide (Opaque u = "") then
      let authority :=
        if (negb (bool_decide (Scheme u = "")) || negb (bool_decide (UrlHost u = "")) || bool_decide (is_Some (User u)))
           && negb (OmitHost u && bool_decide (UrlHost u = "") && bool_decide (User u = None))
        then (if negb (bool_decide (UrlHost u = "")) || negb (bool_decide (UrlPath u = "")) || bool_decide (is_Some (User u))
              then "//" else "")
             ++ (match User u with Some ui => user_string ui ++ "@" | None => "" end)
             ++ str (escape encodeHost (bytes (UrlHost u)))
        else "" in
      let path := EscapedPath u in
      authority
      ++ (if negb (bool_decide (path = "")) && negb (has_prefix path "/") && negb (bool_decide (UrlHost u = "")) then "/" else "")
      ++ (if bool_decide (head ++ authority = "") && contains (cut path "/"%char).1.1 ":" then "./" else "")
      ++ path
    else Opaque u in
  head ++ body
  ++ (if ForceQuery u || negb (bool_decide (RawQuery u = "")) then "?" ++ RawQuery u else "")
  ++ (if decide (Fragment u = "") then "" else "#" ++ EscapedFragment u).

(** * Examples *)

Example parse_plain :
  Parse "https://p07-contacts.icloud.com:443/1234/carddavhome/card/" =
  Some (set_paths "/1234/carddavhome/card/" "" (set_authority None "p07-contacts.icloud.com:443" (empty_url "https" "" false false))).
Proof. reflexivity. Qed.
Example parse_escaped :
  (λ u, (UrlPath u, RawPath u, EscapedPath u)) <$> Parse "/a%2Fb/c%20d" = Some ("/a/b/c d", "/a%2Fb/c%20d", "/a%2Fb/c%20d").
Proof. vm_compute. reflexivity. Qed.
Example parse_bad_escape : Parse "/a%zz" = None.
Proof. reflexivity. Qed.
Example parse_literal : (λ u, (Hostname u, Port u)) <$> Parse "http://[::1]:80/" = Some ("::1", "80").
Proof. vm_compute. reflexivity. Qed.
Example parse_two_colons : Parse "http://localhost:80:80/" = None.
Proof. vm_compute. reflexivity. Qed.
Example resolve_relative :
  (b ← Parse "https://h/a/b/c"; r ← Parse "../d/./e"; Some (url_string (ResolveReference b r))) = Some "https://h/a/d/e".
Proof. vm_compute. reflexivity. Qed.
Example resolve_absolute :
  (b ← Parse "https://h/a/b/c"; r ← Parse "//evil.example/x/.."; Some (url_string (ResolveReference b r))) = Some "https://evil.example/".
Proof. vm_compute. reflexivity. Qed.
