(* ===== verification/Tools.v ===== *)
(** What every tool handler is made of (src/internal/mcptools/helpers.go): the
    cancellable computations the handlers run in, the arguments of a tool call
    and their decoding, the bounding of text shown to the caller, and the
    machine-readable error payload. *)
From Stdlib Require Import SpecFloat.
From S2P Require Import Prelude GoStrings GoTime CalErrors.

(** * Handlers

    A handler acts on the outside state [W] (the services, the clock, the
    request context) and returns early with an error.  Effects already done
    stay done when it fails. *)
Definition M (W E A : Type) : Type := W → W * result E A.
#[export] Instance M_ret {W E} : MRet (M W E) := λ A a w, (w, Ok a).
#[export] Instance M_bind {W E} : MBind (M W E) :=
  λ A B f m w, let '(w, r) := m w in match r with Ok a => f a w | Err e => (w, Err e) end.

Definition fail {W E A} (e : E) : M W E A := λ w, (w, Err e).
Definition lift {W E A} (r : result E A) : M W E A := λ w, (w, r).
(** A call that returns a value and a nilable error. *)
Definition try {W E A} (m : W → W * (A * option E)) : M W E A :=
  λ w, let '(w, (a, e)) := m w in (w, match e with None => Ok a | Some e => Err e end).
Definition map_err {W E E' A} (f : E → E') (m : M W E A) : M W E' A :=
  λ w, let '(w, r) := m w in (w, match r with Ok a => Ok a | Err e => Err (f e) end).
(** [if c { return err }]. *)
Definition fail_if {W E} (c : bool) (e : E) : M W E unit := if c then fail e else mret tt.
(** A [for range] loop with early return. *)
Fixpoint foldM {W E A S} (f : S → A → M W E S) (l : list A) (s : S) : M W E S :=
  match l with
  | [] => mret s
  | a :: l => s ← f s a; foldM f l s
  end.

(** The request context: [ctx.Err()] may become non-nil between any two
    looks at it. *)
Class Ctx (W : Type) := { ctx_Err : W → W * option error }.
Definition poll {W} `{Ctx W} : M W error unit :=
  λ w, let '(w, e) := ctx_Err w in (w, match e with None => Ok tt | Some e => Err e end).

(** [yields m P]: every value [m] can return satisfies [P]. *)
Definition yields {W E A} (m : M W E A) (P : A → Prop) : Prop :=
  ∀ w w' a, m w = (w', Ok a) → P a.

Lemma yields_ret {W E A} (a : A) (P : A → Prop) : P a → yields (mret a : M W E A) P.
Proof. intros HP w w' a' [= <- <-]. done. Qed.
Lemma yields_fail {W E A} (e : E) (P : A → Prop) : yields (fail e : M W E A) P.
Proof. by intros w w' a [=]. Qed.
Lemma yields_lift {W E A} (r : result E A) (P : A → Prop) :
  (∀ a, r = Ok a → P a) → yields (lift r : M W E A) P.
Proof. intros HP w w' a [= <- Hr]. by apply HP. Qed.
Lemma yields_bind {W E A B} (m : M W E A) (f : A → M W E B) P Q :
  yields m P → (∀ a, P a → yields (f a) Q) → yields (m ≫= f) Q.
Proof.
  unfold mbind, M_bind. intros Hm Hf w w' b Hb. destruct (m w) as [w1 [a|e]] eqn:Ha; [|done].
  eapply Hf; [by eapply Hm|done].
Qed.
Lemma yields_any {W E A} (m : M W E A) : yields m (λ _, True).
Proof. done. Qed.
Lemma yields_weaken {W E A} (m : M W E A) (P Q : A → Prop) : yields m P → (∀ a, P a → Q a) → yields m Q.
Proof. intros Hm HPQ w w' a Ha. eapply HPQ, Hm, Ha. Qed.
Lemma yields_map_err {W E E' A} (f : E → E') (m : M W E A) P : yields m P → yields (map_err f m) P.
Proof.
  unfold map_err. intros Hm w w' a Ha. destruct (m w) as [w1 [a1|e]] eqn:Hm1; [|done].
  injection Ha as <- <-. by eapply Hm.
Qed.
Lemma yields_fail_if {W E} (c : bool) (e : E) : yields (fail_if c e : M W E unit) (λ _, c = false).
Proof. destruct c; [apply yields_fail|by apply yields_ret]. Qed.
Lemma yields_if {W E A} (c : bool) (m1 m2 : M W E A) P :
  (c = true → yields m1 P) → (c = false → yields m2 P) → yields (if c then m1 else m2) P.
Proof. destruct c; auto. Qed.
(** Loop invariants; [I done s]: the elements done so far and the state. *)
Lemma yields_fold {W E A S} (I : list A → S → Prop) (f : S → A → M W E S) l s :
  I [] s → (∀ seen a s, I seen s → yields (f s a) (I (seen ++ [a])%list)) → yields (foldM f l s) (I l).
Proof.
  intros H0 Hstep.
  assert (∀ l seen s, I seen s → yields (foldM f l s) (I (seen ++ l)%list)) as Hgen.
  { clear l s H0. intros l. induction l as [|a l IH]; intros seen s Hs; simpl.
    - rewrite app_nil_r. by apply yields_ret.
    - eapply yields_bind; [by apply Hstep|]. intros s1 Hs1.
      rewrite (cons_middle a seen l), app_assoc. by apply IH. }
  by apply (Hgen l []).
Qed.
#[export] Hint Resolve yields_any yields_fail yields_fail_if : go.

(** Running a handler forwards. *)
Lemma run_bind {W E A B} (m : M W E A) (f : A → M W E B) w w' b :
  (m ≫= f) w = (w', Ok b) ↔ ∃ w1 a, m w = (w1, Ok a) ∧ f a w1 = (w', Ok b).
Proof.
  unfold mbind, M_bind. destruct (m w) as [w1 [a|e]]; split; intros Hr.
  - by exists w1, a.
  - by destruct Hr as (? & ? & [= <- <-] & ?).
  - done.
  - by destruct Hr as (? & ? & [=] & ?).
Qed.
Lemma run_ret {W E A} (a a' : A) (w w' : W) : (mret a : M W E A) w = (w', Ok a') ↔ w = w' ∧ a = a'.
Proof. unfold mret, M_ret. naive_solver. Qed.
Lemma run_lift {W E A} (r : result E A) a (w w' : W) : lift r w = (w', Ok a) ↔ w = w' ∧ r = Ok a.
Proof. unfold lift. naive_solver. Qed.
Lemma run_try {W E A} (m : W → W * (A * option E)) w w' a :
  try m w = (w', Ok a) ↔ m w = (w', (a, None)).
Proof. unfold try. destruct (m w) as [w1 [a1 [e|]]]; naive_solver. Qed.

(** * What a computation adds to the log *)

Class HasLog (S T : Type) := { the_log : S → list T }.
#[export] Instance log_second {W T} : HasLog (W * list T) T := {| the_log := snd |}.

Section Emits.
Context {S E T : Type} `{HasLog S T}.

Definition emits {A} (m : M S E A) (P : list T → result E A → Prop) : Prop :=
  ∀ st, ∃ l, the_log (m st).1 = (the_log st ++ l)%list ∧ P l (m st).2.

Lemma emits_weaken {A} (m : M S E A) (P Q : list T → result E A → Prop) :
  emits m P → (∀ l r, P l r → Q l r) → emits m Q.
Proof. intros Hm HPQ st. destruct (Hm st) as (l & ? & ?). eauto. Qed.
Lemma emits_ret {A} (a : A) (Q : list T → result E A → Prop) : Q [] (Ok a) → emits (mret a) Q.
Proof. intros HQ st. exists []. split; [by rewrite app_nil_r|exact HQ]. Qed.
Lemma emits_fail {A} e (Q : list T → result E A → Prop) : Q [] (Err e) → emits (fail e) Q.
Proof. intros HQ st. exists []. split; [by rewrite app_nil_r|exact HQ]. Qed.
Lemma emits_lift {A} (r : result E A) (Q : list T → result E A → Prop) : Q [] r → emits (lift r) Q.
Proof. intros HQ st. exists []. split; [by rewrite app_nil_r|exact HQ]. Qed.
Lemma emits_fail_if (c : bool) e (Q : list T → result E unit → Prop) :
  (c = true → Q [] (Err e)) → (c = false → Q [] (Ok tt)) → emits (fail_if c e) Q.
Proof. intros Ht Hf. unfold fail_if. destruct c; [by apply emits_fail, Ht|by apply emits_ret, Hf]. Qed.
Lemma emits_bind {A B} (m : M S E A) (f : A → M S E B) P (Q : list T → result E B → Prop) :
  emits m P → (∀ l e, P l (Err e) → Q l (Err e)) →
  (∀ l a, P l (Ok a) → emits (f a) (λ l' r, Q (l ++ l')%list r)) → emits (m ≫= f) Q.
Proof.
  unfold mbind, M_bind. intros Hm He Hf st. destruct (Hm st) as (l & Hl & HP).
  destruct (m st) as [st1 [a|e]]; cbn [fst snd] in *.
  - destruct (Hf l a HP st1) as (l' & Hl' & HQ). exists (l ++ l')%list. by rewrite Hl', Hl, <-app_assoc.
  - exists l. eauto.
Qed.
(** A silent step: nothing is added, any value may come. *)
Lemma emits_silent {A B} (m : M S E A) (f : A → M S E B) (P : result E A → Prop) Q :
  emits m (λ l r, l = [] ∧ P r) → (∀ e, P (Err e) → Q [] (Err e)) → (∀ a, P (Ok a) → emits (f a) Q) →
  emits (m ≫= f) Q.
Proof.
  intros Hm He Hf. eapply emits_bind; [exact Hm| |].
  - intros l e [-> ?]. by apply He.
  - intros l a [-> ?]. eapply emits_weaken; [by apply Hf|]. done.
Qed.
(** Steps whose logs each satisfy a predicate closed under appending. *)
Lemma emits_all {A B} (m : M S E A) (f : A → M S E B) (P : T → Prop) (Q : A → Prop) (R : result E B → Prop) :
  emits m (λ l r, Forall P l ∧ match r with Ok a => Q a | Err e => R (Err e) end) →
  (∀ a, Q a → emits (f a) (λ l r, Forall P l ∧ R r)) → emits (m ≫= f) (λ l r, Forall P l ∧ R r).
Proof.
  intros Hm Hf. eapply emits_bind; [exact Hm|by intros ? ? [? ?]|]. intros l a [Hl Ha].
  eapply emits_weaken; [by apply Hf|]. intros l' r [? ?]. split; [by apply Forall_app|done].
Qed.
Lemma emits_foldM {A X} (f : X → A → M S E X) (P : T → Prop) (Q : X → Prop) l t :
  Q t → (∀ t a, a ∈ l → Q t → emits (f t a) (λ lg r, Forall P lg ∧ match r with Ok t' => Q t' | Err _ => True end)) →
  emits (foldM f l t) (λ lg r, Forall P lg ∧ match r with Ok t' => Q t' | Err _ => True end).
Proof.
  revert t; induction l as [|a l IH]; intros t Ht Hf; cbn [foldM]; [apply emits_ret; by split|].
  eapply (emits_all _ _ _ Q); [eapply emits_weaken; [apply Hf; [left|done]|]; intros lg [t'|e] [? ?]; done|].
  intros t' Ht'. apply IH; [done|]. intros; apply Hf; [by right|done].
Qed.
End Emits.

(** One step of a handler: the next statement returned a value satisfying
    [P]. *)
Tactic Notation "step" open_constr(P) := eapply (yields_bind _ _ P).
Ltac step_any := eapply (yields_bind _ _ (λ _, True)); [apply yields_any|].

(** * Arguments *)

(** The dynamic types a decoded argument may have: the sized integers are
    converted to [int64], the floats are exact binary values. *)
Inductive arg :=
| ArgString (s : string)
| ArgBool (b : bool)
| ArgInt (z : Z)           (** int, int8, ..., int64 *)
| ArgUint (z : Z)          (** uint, uint8, ..., uint64 *)
| ArgFloat (f : spec_float) (** float64, float32 *)
| ArgNumber (s : string)   (** json.Number *)
| ArgOther.

(** [mcp.CallToolRequest]: mcp-go decodes the arguments; [GetString] gives the
    default for a missing argument, [RequireString] an error. *)
Class ToolRequest (R : Type) := {
  GetArguments : R → gmap string arg;
  GetString : R → string → string → string;
  RequireString : R → string → result error string;
}.

Section Arguments.
Context {R : Type} `{ToolRequest R}.

Definition optionalStringArg (req : R) (name defaultValue : string) : result error string :=
  match GetArguments req !! name with
  | None => Ok defaultValue
  | Some (ArgString text) => Ok text
  | Some _ => Err (Plain (name ++ " must be a string"))
  end.

Definition optionalBoolArg (req : R) (name : string) (defaultValue : bool) : result error bool :=
  match GetArguments req !! name with
  | None => Ok defaultValue
  | Some (ArgBool b) => Ok b
  | Some _ => Err (Plain (name ++ " must be a boolean"))
  end.

(** The value of a float that is an integer: [math.Trunc(f) == f]. *)
Definition integral_float (f : spec_float) : option Z :=
  match f with
  | S754_zero _ => Some 0
  | S754_finite s m e =>
      let z := if 0 <=? e then Z.shiftl (Z.pos m) e else Z.shiftr (Z.pos m) (- e) in
      let exact := (0 <=? e) || (Z.land (Z.pos m) (Z.ones (- e)) =? 0) in
      if exact then Some (if s then - z else z) else None
  | _ => None
  end.

Definition optionalIntArg (req : R) (name : string) (defaultValue : Z) : result error Z :=
  let invalid := Err (Plain (name ++ " must be an integer")) in
  match GetArguments req !! name with
  | None => Ok defaultValue
  | Some (ArgInt z) => Ok z
  | Some (ArgUint z) => if max_int64 <? z then invalid else Ok z
  | Some (ArgFloat f) =>
      match integral_float f with
      | Some z => if (z <? - 2 ^ 53) || (2 ^ 53 <? z) then invalid else Ok z
      | None => invalid
      end
  | Some (ArgNumber s) => match parse_int64 s with Some z => Ok z | None => invalid end
  | Some _ => invalid
  end.
End Arguments.
