(* ===== verification/ContactsTypes.v ===== *)
(** Contacts data, errors and service interface
    (src/internal/contacts/service.go, errors.go). *)
From S2P Require Import Prelude GoStrings GoTime.

Module CT.

Record TypedValue := MkTypedValue { TvType : string; TvValue : string }.
Record StructuredName := MkStructuredName {
  FamilyName : string; GivenName : string; AdditionalName : string;
  HonorificPrefix : string; HonorificSuffix : string;
}.
Record PostalAddress := MkPostalAddress {
  AdrType : string; PostOfficeBox : string; ExtendedAddress : string; StreetAddress : string;
  Locality : string; Region : string; PostalCode : string; Country : string;
}.
#[export] Instance TypedValue_eq_dec : EqDecision TypedValue.
Proof. solve_decision. Defined.
#[export] Instance StructuredName_eq_dec : EqDecision StructuredName.
Proof. solve_decision. Defined.
#[export] Instance PostalAddress_eq_dec : EqDecision PostalAddress.
Proof. solve_decision. Defined.

Record AddressBook := MkAddressBook {
  Identifier : string;
  BookName : string;
  BookDescription : string;
  SupportedVersions : list string;
  WriteVersion : string;
  MaxResourceSize : Z;
}.

Record ContactSummary := MkContactSummary {
  SumAddressBook : string;
  SumUID : string;
  SumETag : string;
  DisplayName : string;
  Organization : string;
  Emails : list TypedValue;
  Phones : list TypedValue;
  IsGroup : bool;
}.

Record Contact := MkContact {
  Summary : ContactSummary;
  Version : string;
  ConName : option StructuredName;
  ConTitle : string;
  Nickname : string;
  Birthday : string;
  Addresses : list PostalAddress;
  URLs : list TypedValue;
  ConNotes : string;
  HasPhoto : bool;
  UnsupportedFields : list string;
}.

Record ContactSearch := MkContactSearch {
  OptAddressBook : string;
  OptQuery : string;
  OptEmail : string;
  OptPhone : string;
  IncludeGroups : bool;
  OptLimit : Z;
}.
Definition set_book (book : string) (o : ContactSearch) : ContactSearch :=
  MkContactSearch book (OptQuery o) (OptEmail o) (OptPhone o) (IncludeGroups o) (OptLimit o).

Record ContactResults := MkContactResults {
  Contacts : list ContactSummary;
  ResTruncated : bool;
  ResScanLimitReached : bool;
}.
Definition no_contacts : ContactResults := MkContactResults [] false false.

Record CreateContactInput := MkCreateContactInput {
  CcAddressBook : string;
  CcDisplayName : string;
  CcName : StructuredName;
  CcOrganization : string;
  CcTitle : string;
  CcNickname : string;
  CcBirthday : string;
  CcNotes : string;
  CcEmails : list TypedValue;
  CcPhones : list TypedValue;
  CcAddresses : list PostalAddress;
  CcURLs : list TypedValue;
  CcClientUID : string;
}.
(** [None] leaves a field unchanged, [Some []] clears a repeated property. *)
Record ContactPatch := MkContactPatch {
  PDisplayName : option string;
  PName : option StructuredName;
  POrganization : option string;
  PTitle : option string;
  PNickname : option string;
  PBirthday : option string;
  PNotes : option string;
  PEmails : option (list TypedValue);
  PPhones : option (list TypedValue);
  PAddresses : option (list PostalAddress);
  PURLs : option (list TypedValue);
}.
Record UpdateContactInput := MkUpdateContactInput {
  UcAddressBook : string; UcUID : string; UcETag : string; Patch : ContactPatch;
}.
Record DeleteContactInput := MkDeleteContactInput {
  DcAddressBook : string; DcUID : string; DcETag : string; DcDryRun : bool;
}.
(** [CreateResult] and [UpdateResult]. *)
Record MutationResult := MkMutationResult {
  MrAddressBook : string; MrUID : string; MrETag : string; ResultIncomplete : bool; MrWarning : string;
}.
Record ContactDeletion := MkContactDeletion {
  CdAddressBook : string; CdUID : string; CdDryRun : bool; WouldDelete : bool;
}.

(** * Errors *)

Inductive Code : Set :=
| CodeValidation | CodeAuthentication | CodeAuthorization | CodeNotFound | CodeConflict
| CodeConcurrentModification | CodeRateLimited | CodeTimeout | CodeUnavailable
| CodePartialFailure | CodeProtocolError | CodePayloadTooLarge | CodeOutcomeUnknown
| CodeInternalError.
#[export] Instance Code_eq_dec : EqDecision Code.
Proof. solve_decision. Defined.

Record Error := MkError {
  ErrCode : Code;
  Status : Z;
  Message : string;
  Retryable : bool;
  RetryAfter : Z;
  Reconciliation : string;
}.
(** A Go error of the Contacts code: a plain one, or a typed one, possibly
    wrapped. *)
Inductive error := Plain (msg : string) | Wrapped (msg : string) (inner : error) | Typed (e : Error).

Definition newError (code : Code) (status : Z) (message : string) : Error :=
  MkError code status message false 0 "".
Definition validationError (message : string) : Error := newError CodeValidation 0 message.
Fixpoint AsError (err : error) : option Error :=
  match err with Typed e => Some e | Wrapped _ inner => AsError inner | Plain _ => None end.

Definition classifyStatus (status : Z) : Error :=
  if status =? 401 then newError CodeAuthentication status "iCloud Contacts authentication was rejected"
  else if status =? 403 then newError CodeAuthorization status "iCloud Contacts denied the operation"
  else if status =? 404 then newError CodeNotFound status "contact resource was not found"
  else if status =? 409 then newError CodeConflict status "the operation conflicts with the current resource state"
  else if status =? 412 then newError CodeConcurrentModification status "the contact changed since it was read"
  else if (status =? 413) || (status =? 507)
       then newError CodePayloadTooLarge status "the contact exceeds the server resource limit"
  else if status =? 429
       then MkError CodeRateLimited status "iCloud Contacts is rate limiting requests" true (5 * second) ""
  else if (status =? 408) || (status =? 504)
       then MkError CodeTimeout status "the Contacts request timed out" true (2 * second) ""
  else if 500 <=? status
       then MkError CodeUnavailable status "iCloud Contacts is temporarily unavailable" true (2 * second) ""
  else newError CodeProtocolError status "iCloud Contacts returned an unexpected HTTP status".

(** * The service *)

(** [contacts.Service], acting on the outside state [W]. *)
Class ContactsService (W : Type) := {
  ListAddressBooks : W → W * (list AddressBook * option error);
  SearchContacts (opts : ContactSearch) : W → W * (ContactResults * option error);
  GetContact (addressBook uid : string) : W → W * (option Contact * option error);
  CreateContact (input : CreateContactInput) : W → W * (MutationResult * option error);
  UpdateContact (input : UpdateContactInput) : W → W * (MutationResult * option error);
  DeleteContact (input : DeleteContactInput) : W → W * (ContactDeletion * option error);
}.
End CT.
