(* ===== verification/MailTypes.v ===== *)
(** Mail data, errors and service interface
    (src/internal/mail/models.go, errors.go). *)
From S2P Require Import Prelude GoStrings GoTime.

Module MT.

Definition MaxMailboxes : Z := 200.
Definition MaxSearchResults : Z := 50.
Definition MaxSearchValue : Z := 512.
Definition DefaultBodyBytes : Z := 100 * 1024.
Definition MaxBodyBytes : Z := 200 * 1024.
Definition MaxRecipients : Z := 50.
Definition MaxSubjectBytes : Z := 998.
Definition MaxSendBodyBytes : Z := 100 * 1024.
Definition MaxMetadataString : Z := 4 * 1024.
Definition MaxEncodedMessage : Z := 256 * 1024.

(** [Delimiter] is empty when the server returned NIL. *)
Record Mailbox := MkMailbox { MbName : string; Delimiter : string; Attributes : list string }.
Record ListMailboxesResult := MkListMailboxesResult { Mailboxes : list Mailbox; MbTruncated : bool }.
Record Address := MkAddress { AdName : string; AdAddress : string }.

Inductive MessageFlag := FlagSeen | FlagFlagged | FlagAnswered.
#[export] Instance MessageFlag_eq_dec : EqDecision MessageFlag.
Proof. solve_decision. Defined.

(** [uint32] fields lie in [0, 2^32), [uint64] ones in [0, 2^64). *)
Record MessageSummary := MkMessageSummary {
  MsMailbox : string;
  MsUIDValidity : Z;
  MsUID : Z;
  MsFlags : list MessageFlag;
  MsFrom : list Address; MsTo : list Address; MsCc : list Address;
  MsSubject : string;
  InternalDate : gtime;
  HeaderDate : option gtime;
  MsSize : Z;
  MessageID : string;
  ModSeq : Z;
}.

Record SearchInput := MkSearchInput {
  SiMailbox : string;
  SiQuery : string; SiFrom : string; SiTo : string; SiSubject : string;
  Since : gtime; Before : gtime;
  UnseenOnly : bool; FlaggedOnly : bool;
  BeforeUID : Z;
  SiUIDValidity : Z;
  SiLimit : Z;
}.
Record MailSearchResult := MkMailSearchResult {
  Messages : list MessageSummary;
  SrUIDValidity : Z;
  NextBeforeUID : Z;
  SrScanLimitReached : bool;
  SrTruncated : bool;
}.
Record GetMessageInput := MkGetMessageInput {
  GmMailbox : string; GmUIDValidity : Z; GmUID : Z; GmMaxBodyBytes : Z; AllowHTMLFallback : bool;
}.
Record Attachment := MkAttachment {
  PartID : string; Filename : string; ContentType : string; AttSize : Z; ContentID : string;
}.
Record Warning := MkWarning { WarnCode : string; WarnMessage : string }.
Record MailMessage := MkMailMessage {
  MmSummary : MessageSummary;
  ReplyTo : list Address;
  InReplyTo : list string;
  References : list string;
  Body : string;
  BodySource : string;
  BodyOmitted : bool;
  BodyUnavailableReason : string;
  Attachments : list Attachment;
  Warnings : list Warning;
}.

Inductive FlagOperation := FlagOperationAdd | FlagOperationRemove | FlagOperationOther (s : string).
#[export] Instance FlagOperation_eq_dec : EqDecision FlagOperation.
Proof. solve_decision. Defined.
Record SetFlagsInput := MkSetFlagsInput {
  SfMailbox : string; SfUIDValidity : Z; SfUID : Z;
  Operation : FlagOperation; SfFlags : list MessageFlag; ExpectedModSeq : Z;
}.
Record SetFlagsResult := MkSetFlagsResult {
  SfrMailbox : string; SfrUIDValidity : Z; SfrUID : Z;
  SfrFlags : list MessageFlag; SfrModSeq : Z;
  ConditionalUpdate : bool; SfrResultIncomplete : bool;
}.
Record MoveInput := MkMoveInput { MvMailbox : string; MvUIDValidity : Z; MvUID : Z; MvDestination : string }.
Record TrashInput := MkTrashInput { TrMailbox : string; TrUIDValidity : Z; TrUID : Z }.
Record MoveResult := MkMoveResult {
  MoMailbox : string; MoUIDValidity : Z; MoUID : Z; MoDestination : string;
  DestinationUIDValidity : Z; DestinationUID : Z; MoMethod : string;
}.
Record SendInput := MkSendInput {
  SendTo : list string; SendCc : list string; SendBcc : list string;
  SendSubject : string; SendBody : string; SendIdempotencyKey : string; ArchiveSent : bool;
  SendInReplyTo : string; SendReferences : list string;
}.
(** [SendNone] is the empty status of a result that was never filled in. *)
Inductive SendStatus := SendNone | SendAccepted | SendRejected | SendOutcomeUnknown.
#[export] Instance SendStatus_eq_dec : EqDecision SendStatus.
Proof. solve_decision. Defined.
Record RecipientStatus := MkRecipientStatus { RsIndex : Z; RsAccepted : bool; RsCategory : string }.
Record SendResult := MkSendResult {
  SendResStatus : SendStatus;
  SendMessageID : string;
  SendRecipients : list RecipientStatus;
  ArchivalStatus : string;
  SentDestination : string;
  ArchivalError : string;
  SentCopyUnavailable : bool;
  SendReconciliation : string;
}.
Record ReplyInput := MkReplyInput {
  RiMailbox : string; RiUIDValidity : Z; RiUID : Z; RiMode : string;
  RiSubject : string; RiBody : string; RiIdempotencyKey : string;
}.

(** * Errors *)

Inductive Code : Set :=
| CodeValidation | CodeAuthentication | CodeAuthorization | CodeNotFound | CodeConflict
| CodeConcurrentModification | CodeRateLimited | CodeTimeout | CodeUnavailable
| CodePartialFailure | CodeProtocolError | CodePayloadTooLarge | CodeOutcomeUnknown
| CodeInternalError.
#[export] Instance Code_eq_dec : EqDecision Code.
Proof. solve_decision. Defined.

Definition code_string (c : Code) : string :=
  match c with
  | CodeValidation => "validation"
  | CodeAuthentication => "authentication"
  | CodeAuthorization => "authorization"
  | CodeNotFound => "not_found"
  | CodeConflict => "conflict"
  | CodeConcurrentModification => "concurrent_modification"
  | CodeRateLimited => "rate_limited"
  | CodeTimeout => "timeout"
  | CodeUnavailable => "unavailable"
  | CodePartialFailure => "partial_failure"
  | CodeProtocolError => "protocol_error"
  | CodePayloadTooLarge => "payload_too_large"
  | CodeOutcomeUnknown => "outcome_unknown"
  | CodeInternalError => "internal_error"
  end.

Record Error := MkError {
  ErrCode : Code;
  Message : string;
  Retryable : bool;
  RetryAfter : Z;
  Reconciliation : string;
}.
Definition newError (code : Code) (message : string) : Error := MkError code message false 0 "".
Definition newRetryableError (code : Code) (message : string) : Error :=
  MkError code message true
    (if decide (code = CodeRateLimited) then 5 * second
     else if decide (code = CodeTimeout ∨ code = CodeUnavailable) then 2 * second else 0) "".
Definition validationError (message : string) : Error := newError CodeValidation message.

(** * The service *)

(** [mail.Service], acting on the outside state [W]. *)
Class MailService (W : Type) := {
  ListMailboxes : W → W * (ListMailboxesResult * option Error);
  SearchMessages (input : SearchInput) : W → W * (MailSearchResult * option Error);
  GetMessage (input : GetMessageInput) : W → W * (MailMessage * option Error);
  SetMessageFlags (input : SetFlagsInput) : W → W * (SetFlagsResult * option Error);
  MoveMessage (input : MoveInput) : W → W * (MoveResult * option Error);
  TrashMessage (input : TrashInput) : W → W * (MoveResult * option Error);
  SendMessage (input : SendInput) : W → W * (SendResult * option Error);
  ReplyMessage (input : ReplyInput) : W → W * (SendResult * option Error);
}.
End MT.
