(* ===== verification/MailValidation.v ===== *)
(** Validation of Mail inputs, the SMTP recipient policy, Message-IDs and the
    fingerprint of a send request (src/internal/mail/validation.go, reply.go,
    send_idempotency.go). *)
From S2P Require Import Prelude GoStrings GoTime GoEncode NetMail Scopes MailTypes.
Import MT.

(** * Recipient policy *)

Record RecipientPolicy := MkPolicy { allowAll : bool; allowed : gset string }.
Definition no_policy : RecipientPolicy := MkPolicy false ∅.

Definition asciiLower (value : string) : string := str (map lower_byte (bytes value)).

(** [mail.ParseAddress] accepts [value] as it is.  Outside ASCII a valid rune
    is an atom character, and none may stand in a domain literal; a letter
    that is not a hexadecimal digit is in the same position. *)
Definition ascii_stand_in (c : ascii) : ascii := if byte_val c <? utf8_self then c else "x"%char.
Definition parsed_plainly (value : string) : bool := plain_address (map ascii_stand_in (bytes value)).

Definition validateAddrSpec (value : string) : result string string :=
  reject bool_decide (value = "") || negb (bool_decide (trim_space value = value))
         || contains_any value cr_lf_nul || negb (valid_utf8 (bytes value)) with "invalid addr-spec" ;;
  reject negb (parsed_plainly value) with "invalid addr-spec" ;;
  reject negb (contains value "@") || (320 <? len value) with "invalid addr-spec" ;;
  Ok value.

Definition policy_item (policy : RecipientPolicy) (item : string) : result string RecipientPolicy :=
  let item := trim_space item in
  reject bool_decide (item = "") || bool_decide (item = "*") with "recipient policy contains an invalid item" ;;
  match validateAddrSpec item with
  | Err _ => Err "recipient policy contains an invalid address"
  | Ok addr =>
      let key := asciiLower addr in
      reject bool_decide (key ∈ allowed policy) with "recipient policy contains a duplicate address" ;;
      Ok (MkPolicy false ({[key]} ∪ allowed policy))
  end.
Definition RecipientPolicyFromExact (recipients : list string) : result string RecipientPolicy :=
  match recipients with
  | [] => Err "recipient policy cannot be empty"
  | _ => if decide (recipients = ["*"]) then Ok (MkPolicy true ∅)
         else fold_res policy_item recipients no_policy
  end.
Definition ParseRecipientPolicy (raw : string) : result string RecipientPolicy :=
  let raw := trim_space raw in
  if decide (raw = "*") then Ok (MkPolicy true ∅)
  else if decide (raw = "") then Err "recipient policy cannot be empty"
  else RecipientPolicyFromExact (map trim_space (split raw ","%char)).

Definition policy_valid (p : RecipientPolicy) : bool := allowAll p || (0 <? Z.of_nat (size (allowed p))).
Definition allows (p : RecipientPolicy) (address : string) : bool :=
  allowAll p || bool_decide (asciiLower address ∈ allowed p).

(** * Inputs *)

(** A control character; runes above ASCII have no control byte. *)
Definition hasDisallowedControl (value : string) (allowTab : bool) : bool :=
  existsb (λ c, (byte_val c =? 127)
                || ((byte_val c <? 32) && (negb (byte_val c =? 9) || negb allowTab))) (bytes value).

Definition validateMailbox (value : string) : result Error unit :=
  reject bool_decide (value = "") with validationError "mailbox cannot be empty" ;;
  reject (MaxMetadataString <? len value) || negb (valid_utf8 (bytes value)) || hasDisallowedControl value true
    with validationError "mailbox contains invalid or excessive data" ;;
  Ok tt.
Definition validateSearchValue (name value : string) : result Error unit :=
  reject (MaxSearchValue <? len value) || negb (valid_utf8 (bytes value)) || hasDisallowedControl value false
    with validationError (name ++ " contains invalid or excessive data") ;;
  Ok tt.
Definition validateIdentity (mailbox : string) (uidValidity uid : Z) : result Error unit :=
  validateMailbox mailbox;;
  reject uidValidity =? 0 with validationError "uid_validity must be non-zero" ;;
  reject uid =? 0 with validationError "uid must be non-zero" ;;
  Ok tt.

(** The flags of the model are the three supported ones, so the test for an
    unsupported flag never fires. *)
Definition flag_seen (seen : list MessageFlag) (flag : MessageFlag) : result Error (list MessageFlag) :=
  reject bool_decide (flag ∈ seen) with validationError "flags contain a duplicate value" ;;
  Ok (seen ++ [flag])%list.
Definition validateFlags (input : SetFlagsInput) : result Error unit :=
  validateIdentity (SfMailbox input) (SfUIDValidity input) (SfUID input);;
  reject negb (bool_decide (Operation input = FlagOperationAdd))
         && negb (bool_decide (Operation input = FlagOperationRemove))
    with validationError "operation must be add or remove" ;;
  reject (zlen (SfFlags input) =? 0) || (3 <? zlen (SfFlags input))
    with validationError "flags must contain one or more supported flags" ;;
  fold_res flag_seen (SfFlags input) [];;
  Ok tt.

Definition search_fields (input : SearchInput) : list (string * string) :=
  [("query", SiQuery input); ("from", SiFrom input); ("to", SiTo input); ("subject", SiSubject input)].
Definition validateSearchInput (input : SearchInput) : result Error unit :=
  validateMailbox (SiMailbox input);;
  fold_res (λ _ f, validateSearchValue f.1 f.2) (search_fields input) tt;;
  reject negb (is_zero (instant (Since input))) && negb (is_zero (instant (Before input)))
         && negb (instant (Since input) <? instant (Before input))
    with validationError "before must be after since" ;;
  reject negb (BeforeUID input =? 0) && (SiUIDValidity input =? 0)
    with validationError "uid_validity is required with before_uid" ;;
  reject (SiLimit input <? 0) || (MaxSearchResults <? SiLimit input)
    with validationError "limit must be between 1 and 50" ;;
  Ok tt.

(** The longest valid prefix of at most [n] bytes. *)
Fixpoint valid_prefix (n : nat) (l : list ascii) : list ascii :=
  if valid_utf8 (take n l) then take n l
  else match n with O => [] | S n => valid_prefix n l end.
Definition truncateUTF8 (value : string) (max : Z) : string :=
  if len value <=? max then value else str (valid_prefix (Z.to_nat max) (bytes value)).

(** * Message-IDs *)

Definition maxReplyReferences : Z := 20.
Definition validMessageID (value : string) : bool :=
  if (len value <? 5) || (MaxSubjectBytes <? len value) || negb (has_prefix value "<")
     || negb (has_suffix value ">") then false
  else
    let inner := str (take (length (bytes value) - 2) (drop 1 (bytes value))) in
    if negb (contains inner "@")
       || contains_any inner ("<> " ++ str ["009"; "013"; "010"; "000"]%char) then false
    else valid_utf8 (bytes value).

Definition check_reference (seen : list string) (reference : string) : result Error (list string) :=
  reject negb (validMessageID reference)
    with validationError "reply references contain an invalid Message-ID" ;;
  reject bool_decide (reference ∈ seen)
    with validationError "reply references contain a duplicate Message-ID" ;;
  Ok (seen ++ [reference])%list.
Definition validateReplyHeaders (inReplyTo : string) (references : list string) : result Error unit :=
  fold_res check_reference references [];;
  reject maxReplyReferences <? zlen references
    with validationError "reply references exceed the 20-entry limit" ;;
  reject negb (bool_decide (inReplyTo = "")) && negb (validMessageID inReplyTo)
    with validationError "in-reply-to contains an invalid Message-ID" ;;
  Ok tt.

Definition add_reference (references : list string) (reference : string) : result Error (list string) :=
  let reference := trim_space reference in
  if bool_decide (reference = "") || bool_decide (reference ∈ references) then Ok references
  else
    reject negb (validMessageID reference)
      with validationError "source message has an invalid References header" ;;
    reject maxReplyReferences <? zlen (references ++ [reference])
      with validationError "source message References exceeds the 20-entry limit" ;;
    Ok (references ++ [reference])%list.
Definition replyReferences (existing : list string) (messageID : string) : result Error (list string) :=
  fold_res add_reference (existing ++ [messageID])%list [].

(** * Send requests *)

Definition maxSendIdempotencyEntries : Z := 128.
Definition maxSendIdempotencyKey : Z := 255.
Definition validateSendIdempotencyKey (key : string) : result Error unit :=
  if decide (key = "") then Ok tt
  else
    reject maxSendIdempotencyKey <? len key with validationError "idempotency_key exceeds its byte limit" ;;
    reject contains_any key cr_lf_nul
      with validationError "idempotency_key must not contain CR, LF, or NUL" ;;
    Ok tt.

(** The bytes hashed for one value: its length, then the value. *)
Definition framed (value : string) : list ascii := (be32 (len value) ++ bytes value)%list.
Definition int32 (z : Z) : Z := (z + 2147483648) mod 4294967296 - 2147483648.
Section Fingerprint.
Context `{UnicodeTables}.

Definition normalized (address : string) : string := to_lower (trim_space address).
Definition framed_group (group : list string) : list ascii :=
  (framed (str (encode_rune (int32 (zlen group)))) ++ concat (map (λ a, framed (normalized a)) group))%list.
Definition fingerprint_bytes (sender : string) (input : SendInput) : list ascii :=
  (framed sender ++ framed_group (SendTo input) ++ framed_group (SendCc input) ++ framed_group (SendBcc input)
   ++ framed (SendSubject input) ++ framed (SendBody input) ++ framed (SendInReplyTo input)
   ++ concat (map framed (SendReferences input)))%list.
Definition sendRequestFingerprint (sender : string) (input : SendInput) : list ascii :=
  sum256 (fingerprint_bytes sender input).
End Fingerprint.

(** * Proofs *)

Lemma framed_inj v w r s :
  len v < 4294967296 → len w < 4294967296 → (framed v ++ r)%list = (framed w ++ s)%list → v = w ∧ r = s.
Proof. unfold framed. rewrite <-!app_assoc. apply be32_framing. Qed.
Lemma framed_nonnil v r : (framed v ++ r)%list ≠ [].
Proof. done. Qed.

Definition short (v : string) : Prop := len v < 4294967296.
Lemma framed_list_inj vs ws : Forall short vs → Forall short ws →
  concat (map framed vs) = concat (map framed ws) → vs = ws.
Proof.
  revert ws; induction vs as [|v vs IH]; intros [|w ws] Hv Hw Heq; [done|by simpl in Heq..|].
  apply Forall_cons in Hv as [Hv Hvs]. apply Forall_cons in Hw as [Hw Hws]. simpl in Heq.
  apply framed_inj in Heq as [-> Heq]; [|done..]. f_equal. by apply IH.
Qed.
Lemma framed_counted_inj (n : nat) vs ws r s : length vs = n → length ws = n →
  Forall short vs → Forall short ws →
  (concat (map framed vs) ++ r)%list = (concat (map framed ws) ++ s)%list → vs = ws ∧ r = s.
Proof.
  revert vs ws; induction n as [|n IH]; intros [|v vs] [|w ws] Hlv Hlw Hv Hw Heq; try done.
  apply Forall_cons in Hv as [Hv Hvs]. apply Forall_cons in Hw as [Hw Hws]. simpl in Heq.
  rewrite <-!app_assoc in Heq. apply framed_inj in Heq as [-> Heq]; [|done..].
  simpl in Hlv, Hlw. apply IH in Heq as [-> ->]; [done|lia|lia|done|done].
Qed.

(** The count is written as a rune; below the surrogates no two are alike. *)
Lemma encode_rune_inj n m : 0 <= n < 55296 → 0 <= m < 55296 → encode_rune n = encode_rune m → n = m.
Proof.
  intros Hn Hm. unfold encode_rune.
  repeat match goal with |- context [if ?b then _ else _] => destruct b eqn:?; bool_to_prop; try lia end.
  all: intros Heq; apply (f_equal (map byte_val)) in Heq; simpl in Heq; try done;
    rewrite !byte_val_of in Heq by (Z.to_euclidean_division_equations; lia);
    injection Heq; intros; Z.to_euclidean_division_equations; lia.
Qed.
Lemma short_rune n : short (str (encode_rune n)).
Proof.
  unfold short, len. rewrite bytes_str. unfold encode_rune.
  repeat match goal with |- context [if ?b then _ else _] => destruct b end; unfold zlen; simpl; lia.
Qed.

(** The part of a request a fingerprint is made of. *)
Record send_content := MkContent {
  c_sender : string; c_to : list string; c_cc : list string; c_bcc : list string;
  c_subject : string; c_body : string; c_inReplyTo : string; c_references : list string;
}.
Section Fingerprints.
Context `{UnicodeTables}.

Definition content_of (sender : string) (i : SendInput) : send_content :=
  MkContent sender (map normalized (SendTo i)) (map normalized (SendCc i)) (map normalized (SendBcc i))
    (SendSubject i) (SendBody i) (SendInReplyTo i) (SendReferences i).
(** Lengths that fit the fields that carry them. *)
Definition group_fits (group : list string) : Prop := zlen group < 55296 ∧ Forall short (map normalized group).
Definition request_fits (sender : string) (i : SendInput) : Prop :=
  short sender ∧ group_fits (SendTo i) ∧ group_fits (SendCc i) ∧ group_fits (SendBcc i) ∧
  short (SendSubject i) ∧ short (SendBody i) ∧ short (SendInReplyTo i) ∧ Forall short (SendReferences i).

Lemma framed_group_inj g h r s : group_fits g → group_fits h →
  (framed_group g ++ r)%list = (framed_group h ++ s)%list → map normalized g = map normalized h ∧ r = s.
Proof.
  intros [Hg Hgs] [Hh Hhs] Heq. unfold framed_group in Heq. rewrite <-!app_assoc in Heq.
  apply framed_inj in Heq as [Hn Heq]; [|apply short_rune..].
  apply (f_equal bytes) in Hn. rewrite !bytes_str in Hn.
  pose proof (zlen_nonneg g). pose proof (zlen_nonneg h).
  assert (∀ z, 0 <= z < 55296 → int32 z = z) as Hid
    by (intros; unfold int32; rewrite Z.mod_small; lia).
  rewrite !Hid in Hn by lia. apply encode_rune_inj in Hn; [|lia..].
  rewrite <-!(map_map normalized framed) in Heq.
  apply (framed_counted_inj (length g)) in Heq; [done|by rewrite length_map| |done..].
  rewrite length_map. unfold zlen in Hn. lia.
Qed.
Lemma fingerprint_bytes_inj s1 i1 s2 i2 : request_fits s1 i1 → request_fits s2 i2 →
  fingerprint_bytes s1 i1 = fingerprint_bytes s2 i2 → content_of s1 i1 = content_of s2 i2.
Proof.
  intros (?&?&?&?&?&?&?&?) (?&?&?&?&?&?&?&?) Heq. unfold fingerprint_bytes in Heq.
  apply framed_inj in Heq as [<- Heq]; [|done..].
  apply framed_group_inj in Heq as [Hto Heq]; [|done..].
  apply framed_group_inj in Heq as [Hcc Heq]; [|done..].
  apply framed_group_inj in Heq as [Hbcc Heq]; [|done..].
  apply framed_inj in Heq as [Hs Heq]; [|done..].
  apply framed_inj in Heq as [Hb Heq]; [|done..].
  apply framed_inj in Heq as [Hr Heq]; [|done..].
  apply framed_list_inj in Heq; [|done..]. unfold content_of. congruence.
Qed.
Lemma fingerprint_bytes_content s1 i1 s2 i2 :
  content_of s1 i1 = content_of s2 i2 → fingerprint_bytes s1 i1 = fingerprint_bytes s2 i2.
Proof.
  intros [= -> Hto Hcc Hbcc Hs Hb Hr Hrefs]. unfold fingerprint_bytes, framed_group.
  assert (∀ g h : list string, map normalized g = map normalized h → zlen g = zlen h) as Hlen.
  { intros g h Heq. apply (f_equal length) in Heq. rewrite !length_map in Heq. unfold zlen. congruence. }
  rewrite <-!(map_map normalized framed), Hto, Hcc, Hbcc, Hs, Hb, Hr, Hrefs.
  by rewrite (Hlen _ _ Hto), (Hlen _ _ Hcc), (Hlen _ _ Hbcc).
Qed.

(** Two send requests whose lengths fit their fields give the same bytes to the
    hash exactly when they have the same sender, the same recipients of each
    kind in the same order up to case and white space, and the same subject,
    body and reply headers: no two such contents are confused by where one
    field ends.  The option [archive_sent] is not among what is hashed. *)
Theorem fingerprint_faithful s1 i1 s2 i2 : request_fits s1 i1 → request_fits s2 i2 →
  fingerprint_bytes s1 i1 = fingerprint_bytes s2 i2 ↔ content_of s1 i1 = content_of s2 i2.
Proof. split; [by apply fingerprint_bytes_inj|apply fingerprint_bytes_content]. Qed.
End Fingerprints.
Definition demo_send (to : list string) (body : string) : SendInput :=
  MkSendInput to [] [] "hi" body "k" false "" [].
#[local] Ltac fits := repeat (split || apply Forall_cons || apply Forall_nil || (vm_compute; reflexivity)).
Lemma fingerprint_faithful_witness :
  let fp := @fingerprint_bytes ascii_tables in
  fp "me@x.org" (demo_send ["A@x.org "] "b") = fp "me@x.org" (demo_send ["a@x.org"] "b") ∧
  fp "me@x.org" (demo_send ["a@x.org"] "b") ≠ fp "me@x.org" (demo_send ["a@x.org"; "b"] "").
Proof.
  split.
  - apply (@fingerprint_faithful ascii_tables); [fits..|reflexivity].
  - intros Heq%(@fingerprint_faithful ascii_tables); [discriminate|fits..].
Defined.

(** ** Validation errors *)

Definition validation_only {A} (r : result Error A) : Prop := errs_in (λ e, ErrCode e = CodeValidation) r.
Lemma validateMailbox_errors m : validation_only (validateMailbox m).
Proof. unfold validation_only, validateMailbox. auto 10 with go. Qed.
Lemma validateIdentity_errors m v u : validation_only (validateIdentity m v u).
Proof. unfold validation_only, validateIdentity. pose proof (validateMailbox_errors m). auto 10 with go. Qed.
Lemma validateFlags_errors i : validation_only (validateFlags i).
Proof.
  unfold validation_only, validateFlags. apply errs_in_bind; [apply validateIdentity_errors|intros _ _].
  apply errs_in_if; [by apply errs_in_err|]. apply errs_in_if; [by apply errs_in_err|].
  apply errs_in_bind; [|auto with go]. apply errs_in_fold. intros. unfold flag_seen. auto with go.
Qed.
