(* ===== verification/ImapAdapter.v ===== *)
(** The IMAP adapter (src/internal/mail/imapadapter): the guarded connection,
    the conversion of what go-imap returns, and one session's operations over
    the go-imap client. *)
From S2P Require Import Prelude GoStrings GoTime.

Module IA.

(** * Data *)

Inductive ErrorKind : Set :=
| ErrorProtocol | ErrorAuthentication | ErrorAuthorization | ErrorNotFound | ErrorConflict
| ErrorRateLimited | ErrorTimeout | ErrorUnavailable | ErrorTooLarge.
#[global] Instance ErrorKind_eq_dec : EqDecision ErrorKind.
Proof. solve_decision. Defined.
Record Error := MkError { Kind : ErrorKind; Ambiguous : bool }.
#[global] Instance Error_eq_dec : EqDecision Error.
Proof. solve_decision. Defined.
Definition failure (k : ErrorKind) : Error := MkError k false.

Record Capabilities := MkCaps { CondStore : bool; Move : bool; UIDPlus : bool; Binary : bool; SpecialUse : bool }.
(** [Delimiter] is the rune, 0 for NIL. *)
Record Mailbox := MkMailbox { Name : string; Delimiter : Z; Attributes : list string }.
Record SelectedMailbox := MkSelected { UIDValidity : Z; UIDNext : Z }.
Record SearchRequest := MkSearchRequest {
  UIDMin : Z; UIDMax : Z; Query : string; From : string; To : string; Subject : string;
  Since : gtime; Before : gtime; UnseenOnly : bool; FlaggedOnly : bool;
}.
Record Address := MkAddress { AdName : string; AdAddress : string }.
Record Envelope := MkEnvelope {
  EnvDate : gtime; EnvSubject : string; EnvFrom : list Address; EnvReplyTo : list Address;
  EnvTo : list Address; EnvCc : list Address; EnvMessageID : string; EnvInReplyTo : list string;
}.
Record BodyPart := MkBodyPart {
  Path : list Z; ContentType : string; Disposition : string; Filename : string; ContentID : string;
  PartSize : Z; InlinePlain : bool; IsAttachment : bool;
}.
Record CuratedHeaders := MkCurated {
  HdMessageID : string; HdInReplyTo : list string; HdReferences : list string; HdReplyTo : list Address;
}.
Definition no_headers : CuratedHeaders := MkCurated "" [] [] [].
Record Message := MkMessage {
  UID : Z; Flags : list string; MsgEnvelope : Envelope; InternalDate : gtime; Size : Z; ModSeq : Z;
  Parts : list BodyPart; Headers : CuratedHeaders;
}.
Record BodyData := MkBodyData { MIMEHeader : list ascii; BodyBytes : list ascii; TooLarge : bool }.
Record CopyData := MkCopyData { CopyUIDValidity : Z; DestinationUID : Z }.
Record AppendData := MkAppendData { AppUIDValidity : Z; AppUID : Z }.

Definition maxMetadataString : Z := 4 * 1024.
Definition maxAddresses : Z := 100.
Definition maxParts : Z := 200.
Definition maxDepth : Z := 20.
Definition maxHeaderBytes : Z := 64 * 1024.
Definition maxWireBodyBytes : Z := 512 * 1024.
Definition maxMailboxResponses : Z := 201.
Definition maxMetadataMessages : Z := 50.
Definition maxSearchWindowUIDs : Z := 5000.

(** * The guarded connection *)

Definition maxSessionBytes : Z := 4 * 1024 * 1024.
Definition maxProtocolLine : Z := 1024 * 1024.
Definition maxProtocolDepth : Z := 24.
Definition maxProtocolLists : Z := 512.
Definition maxQuotedWire : Z := 2 * 4 * 1024 + 2.

Record guardedConn := MkGuard {
  total : Z; line : list ascii; literalRemaining : Z; depth : Z; lists : Z;
  quoted : bool; quotedLength : Z; escaped : bool;
}.
Definition newGuardedConn : guardedConn := MkGuard 0 [] 0 0 0 false 0 false.

(** Size and error of [literalSize]; [None] is [errInboundLimit]. *)
Definition literalSize (l : list ascii) : option Z :=
  match last_index_byte "}"%char l with
  | Some end_ =>
      if (end_ =? 0)%nat || negb (end_ =? length l - 1)%nat then Some 0
      else match last_index_byte "{"%char (take end_ l) with
           | None => Some 0
           | Some start =>
               match parse_int64 (trim_suffix (str (drop (S start) (take end_ l))) "+") with
               | None => Some 0
               | Some size => if size <? 0 then Some 0 else if maxSessionBytes <? size then None else Some size
               end
           end
  | None => Some 0
  end.

(** One protocol byte; the flag is an error. *)
Definition dquote : ascii := "034"%char.
Definition scan_quoted (g : guardedConn) (b : ascii) : guardedConn * bool :=
  let n := quotedLength g + 1 in
  let '(q, e) := if escaped g then (true, false)
                 else if decide (b = "\"%char) then (true, true)
                 else if decide (b = dquote) then (false, false) else (true, false) in
  if maxQuotedWire <? n then (MkGuard (total g) (line g) (literalRemaining g) (depth g) (lists g) true n (escaped g), true)
  else (MkGuard (total g) (line g) (literalRemaining g) (depth g) (lists g) q n e, false).
Definition scan_plain (g : guardedConn) (b : ascii) : guardedConn * bool :=
  if decide (b = dquote)
  then (MkGuard (total g) (line g) (literalRemaining g) (depth g) (lists g) true 0 (escaped g), false)
  else if decide (b = "("%char) then
    let g := MkGuard (total g) (line g) (literalRemaining g) (depth g + 1) (lists g + 1)
               (quoted g) (quotedLength g) (escaped g) in
    (g, (maxProtocolDepth <? depth g) || (maxProtocolLists <? lists g))
  else if decide (b = ")"%char) then
    let g := MkGuard (total g) (line g) (literalRemaining g) (depth g - 1) (lists g)
               (quoted g) (quotedLength g) (escaped g) in
    (g, depth g <? 0)
  else (g, false).
(** The end of a line. *)
Definition crlf : list ascii := ["013"; "010"]%char.
Definition end_line (g : guardedConn) : guardedConn * bool :=
  match literalSize (take (length (line g) - 2) (line g)) with
  | None => (g, true)
  | Some size =>
      (MkGuard (total g) [] size (depth g)
         (if (size =? 0) && (depth g =? 0) then 0 else lists g) false 0 false, false)
  end.
Definition scanProtocolByte (g : guardedConn) (b : ascii) : guardedConn * bool :=
  let g := MkGuard (total g) (line g ++ [b]) (literalRemaining g) (depth g) (lists g)
             (quoted g) (quotedLength g) (escaped g) in
  if maxProtocolLine <? zlen (line g) then (g, true)
  else
    let '(g, err) := if quoted g then scan_quoted g b else scan_plain g b in
    if err : bool then (g, true)
    else if has_suffix_b crlf (line g) then end_line g else (g, false).

(** The loop of [Read] over the bytes the connection delivered: the bytes
    accepted and whether the limit stopped it. *)
Fixpoint read_loop (g : guardedConn) (accepted : Z) (data : list ascii) : guardedConn * (Z * bool) :=
  match data with
  | [] => (g, (accepted, false))
  | b :: data =>
      if maxSessionBytes <=? total g then (g, (accepted, true))
      else
        let g := MkGuard (total g + 1) (line g) (literalRemaining g) (depth g) (lists g)
                   (quoted g) (quotedLength g) (escaped g) in
        if 0 <? literalRemaining g then
          read_loop (MkGuard (total g) (line g) (literalRemaining g - 1) (depth g) (lists g)
                       (quoted g) (quotedLength g) (escaped g)) (accepted + 1) data
        else
          let '(g, err) := scanProtocolByte g b in
          if err : bool then (g, (accepted, true)) else read_loop g (accepted + 1) data
  end.
(** [Read]: [err] is the connection's own error; [None] is [errInboundLimit]. *)
Definition Read {E} (g : guardedConn) (data : list ascii) (err : option E) : guardedConn * (Z * option (option E)) :=
  let '(g, (n, stopped)) := read_loop g 0 data in
  (g, (n, if stopped : bool then Some None else Some <$> err)).

(** * Errors *)

(** What [classify] can tell apart in an error chain: the inbound limit, an
    [imap.Error] by its response code ([no] tells a tagged NO), a network
    timeout, an ended or closed connection. *)
Inductive response_code :=
| RespNone | RespAuthenticationFailed | RespAuthorizationFailed | RespNoPerm | RespPrivacyRequired
| RespNonExistent | RespAlreadyExists | RespInUse | RespLimit | RespUnavailable | RespTooBig | RespOverQuota
| RespOther (s : string).
#[global] Instance response_code_eq_dec : EqDecision response_code.
Proof. solve_decision. Defined.
Inductive client_error :=
| InboundLimit
| ImapError (no : bool) (code : response_code)
| NetTimeout
| Closed
| OtherError.

Definition code_kind (code : response_code) : ErrorKind :=
  match code with
  | RespAuthenticationFailed => ErrorAuthentication
  | RespAuthorizationFailed | RespNoPerm | RespPrivacyRequired => ErrorAuthorization
  | RespNonExistent => ErrorNotFound
  | RespAlreadyExists | RespInUse => ErrorConflict
  | RespLimit => ErrorRateLimited
  | RespUnavailable => ErrorUnavailable
  | RespTooBig | RespOverQuota => ErrorTooLarge
  | _ => ErrorProtocol
  end.
Definition classify (err : client_error) (ambiguous : bool) : Error :=
  match err with
  | InboundLimit => MkError ErrorTooLarge ambiguous
  | ImapError _ code => failure (code_kind code)
  | NetTimeout => MkError ErrorTimeout ambiguous
  | Closed => MkError ErrorUnavailable ambiguous
  | OtherError => MkError ErrorProtocol ambiguous
  end.
Definition loginRejection (err : client_error) : bool :=
  match err with
  | ImapError no code => no && bool_decide (code ∈ [RespNone; RespAuthenticationFailed])
  | _ => false
  end.

Definition boundedString (value : string) : result Error unit :=
  reject maxMetadataString <? len value with failure ErrorTooLarge ;; Ok tt.
Definition bounded_strings (values : list string) : result Error unit :=
  fold_res (λ _ v, boundedString v) values tt.

(** * UID sets *)

(** [imap.NumSet]: [None] is not a plain [UIDSet] (nil, a sequence set or the
    saved-result marker). *)
Definition num_set : Type := option (list (Z * Z)).

Record expansion := MkExpansion { cardinality : Z; previousStop : Z; ex_index : Z }.
Definition check_range (minUID maxUID maxCount : Z) (s : expansion) (r : Z * Z) : result Error expansion :=
  let '(start, stop) := r in
  reject (start =? 0) || (stop =? 0) || (stop <? start) with failure ErrorProtocol ;;
  reject (start <? minUID) || (maxUID <? stop) || ((0 <? ex_index s) && (start <=? previousStop s))
    with failure ErrorProtocol ;;
  let rangeSize := stop - start + 1 in
  reject maxCount - cardinality s <? rangeSize with failure ErrorTooLarge ;;
  Ok (MkExpansion (cardinality s + rangeSize) stop (ex_index s + 1)).
Definition range_uids (r : Z * Z) : list Z := seqZ r.1 (r.2 - r.1 + 1).
Definition expandUIDSet (numSet : num_set) (requestedMin requestedMax maxCount : Z) : result Error (list Z) :=
  match numSet with
  | None => Err (failure ErrorProtocol)
  | Some set =>
      reject (requestedMin =? 0) || (requestedMax <? requestedMin) || (maxCount =? 0) with failure ErrorProtocol ;;
      reject maxCount <? zlen set with failure ErrorTooLarge ;;
      fold_res (check_range requestedMin requestedMax maxCount) set (MkExpansion 0 0 0);;
      Ok (concat (map range_uids set))
  end.

Definition scalarUID (numSet : num_set) : result Error Z :=
  match numSet with
  | Some [(start, stop)] =>
      reject (start =? 0) || (stop =? 0) || negb (start =? stop) with failure ErrorProtocol ;;
      Ok start
  | _ => Err (failure ErrorProtocol)
  end.
(** [nil] sets are [None] with [false]. *)
Definition validatedCopyData (requested uidValidity : Z) (source_nil destination_nil : bool)
    (sourceSet destinationSet : num_set) (required : bool) : result Error CopyData :=
  let ambiguous := MkError ErrorProtocol true in
  if source_nil && destination_nil && (uidValidity =? 0) && negb required then Ok (MkCopyData 0 0)
  else if uidValidity =? 0 then Err ambiguous
  else match scalarUID sourceSet with
       | Err _ => Err ambiguous
       | Ok source =>
           if negb (source =? requested) then Err ambiguous
           else match scalarUID destinationSet with
                | Err _ => Err ambiguous
                | Ok destination => Ok (MkCopyData uidValidity destination)
                end
       end.

(** * Messages *)

(** [imap.Address]: its name and [Addr()]. *)
Definition convert_address (out : list Address) (a : string * string) : result Error (list Address) :=
  let '(name, value) := a in
  if decide (value = "") then Ok out
  else
    boundedString name;;
    boundedString value;;
    Ok (out ++ [MkAddress name value])%list.
Definition convertAddresses (l : list (string * string)) : result Error (list Address) :=
  reject maxAddresses <? zlen l with failure ErrorTooLarge ;;
  fold_res convert_address l [].

Record imap_envelope := MkImapEnvelope {
  ie_Date : gtime; ie_Subject : string; ie_From : list (string * string); ie_ReplyTo : list (string * string);
  ie_To : list (string * string); ie_Cc : list (string * string); ie_Bcc : list (string * string);
  ie_Sender : list (string * string); ie_MessageID : string; ie_InReplyTo : list string;
}.
Definition convertEnvelope (e : imap_envelope) : result Error Envelope :=
  boundedString (ie_Subject e);;
  from ← convertAddresses (ie_From e);
  replyTo ← convertAddresses (ie_ReplyTo e);
  to ← convertAddresses (ie_To e);
  cc ← convertAddresses (ie_Cc e);
  reject maxAddresses <? zlen from + zlen replyTo + zlen to + zlen cc + zlen (ie_Bcc e) + zlen (ie_Sender e)
    with failure ErrorTooLarge ;;
  boundedString (ie_MessageID e);;
  bounded_strings (ie_InReplyTo e);;
  Ok (MkEnvelope (ie_Date e) (ie_Subject e) from replyTo to cc (ie_MessageID e) (ie_InReplyTo e)).

(** [imap.BodyStructure]: the media type and the file name are those the
    library's methods compute; [None] is no disposition. *)
Record single_part := MkSingle {
  sp_type : string; sp_subtype : string; sp_id : string; sp_description : string; sp_encoding : string;
  sp_params : list (string * string); sp_size : Z; sp_disposition : option string;
  sp_mediatype : string; sp_filename : string;
}.
Inductive body_structure :=
| SinglePart (p : single_part)
| MultiPart (mediatype : string) (disposition : option string) (children : list body_structure)
| UnknownPart (disposition : option string).

Section Structure.
Context `{UnicodeTables}.

Definition disposition_of (b : body_structure) : option string :=
  match b with SinglePart p => sp_disposition p | MultiPart _ d _ => d | UnknownPart d => d end.
(** The disposition, lowered and bounded, and whether it excludes the part. *)
Definition part_disposition (b : body_structure) : result Error string :=
  match disposition_of b with
  | None => Ok ""
  | Some d => let d := to_lower d in boundedString d;; Ok d
  end.
Definition single_body (p : single_part) (path : list Z) (disposition : string) (excluded : bool) : result Error BodyPart :=
  bounded_strings [sp_type p; sp_subtype p; sp_id p; sp_filename p; sp_description p; sp_encoding p];;
  bounded_strings (concat (map (λ kv, [kv.1; kv.2]) (sp_params p)));;
  let attachment := excluded || negb (bool_decide (sp_filename p = ""))
                    || bool_decide (sp_mediatype p = "message/rfc822")
                    || bool_decide (sp_mediatype p = "message/global") in
  Ok (MkBodyPart path (sp_mediatype p) disposition (sp_filename p) (sp_id p) (sp_size p)
        (bool_decide (sp_mediatype p = "text/plain") && negb attachment) attachment).
(** The children of a part at [path], the [i]-th one next. *)
Definition walk_children (walk : body_structure → list Z → list BodyPart → result Error (list BodyPart))
    (path : list Z) : Z → list body_structure → list BodyPart → result Error (list BodyPart) :=
  fix go (i : Z) (children : list body_structure) (parts : list BodyPart) :=
    match children with
    | [] => Ok parts
    | child :: children =>
        match walk child (path ++ [i + 1])%list parts with
        | Ok parts => go (i + 1) children parts
        | Err e => Err e
        end
    end.
(** [walk]: [parts] accumulates; the children of a part whose disposition is
    "attachment" are not listed. *)
Fixpoint walk (part : body_structure) (path : list Z) (parts : list BodyPart) : result Error (list BodyPart) :=
  reject (maxParts <=? zlen parts) || (maxDepth <? zlen path) with failure ErrorTooLarge ;;
  disposition ← part_disposition part;
  let excluded := bool_decide (disposition = "attachment") in
  match part with
  | SinglePart p =>
      b ← single_body p path disposition excluded;
      Ok (parts ++ [b])%list
  | MultiPart mediatype _ children =>
      let parts := (parts ++ [MkBodyPart path mediatype disposition "" "" 0 false excluded])%list in
      if excluded then Ok parts
      else
        walk_children walk path 0 children parts
  | UnknownPart _ => Err (failure ErrorProtocol)
  end.
Definition flattenBodyStructure (root : body_structure) : result Error (list BodyPart) :=
  walk root (match root with MultiPart _ _ _ => [] | _ => [1] end) [].
End Structure.

(** What go-message reads out of a header block: [None] where it fails. *)
Record header_source := MkHeaderSource {
  hs_MessageID : option string; hs_InReplyTo : option (list string); hs_References : option (list string);
  hs_ReplyTo : option (list Address);
}.
Definition some_or {A} (e : Error) (o : option A) : result Error A := match o with Some a => Ok a | None => Err e end.
Definition bounded_address (_ : unit) (a : Address) : result Error unit :=
  boundedString (AdName a);; boundedString (AdAddress a).
Definition parseCuratedHeaders (read_header : list ascii → option header_source) (data : list ascii)
    : result Error CuratedHeaders :=
  let protocol := failure ErrorProtocol in
  h ← some_or protocol (read_header data);
  messageID ← some_or protocol (hs_MessageID h);
  inReplyTo ← some_or protocol (hs_InReplyTo h);
  references ← some_or protocol (hs_References h);
  reply ← some_or protocol (hs_ReplyTo h);
  reject maxAddresses <? zlen reply with protocol ;;
  fold_res bounded_address reply tt;;
  bounded_strings ((messageID :: inReplyTo) ++ references);;
  Ok (MkCurated messageID inReplyTo references reply).

(** [imapclient.FetchMessageBuffer]: [None] for a nil envelope or body
    structure. *)
Record fetch_buffer := MkBuffer {
  fb_UID : Z; fb_Envelope : option imap_envelope; fb_BodyStructure : option body_structure;
  fb_InternalDate : gtime; fb_RFC822Size : Z; fb_ModSeq : Z; fb_Flags : list string;
  fb_BodySection : list (list ascii);
}.
Definition convertMessage `{UnicodeTables} (read_header : list ascii → option header_source)
    (buffer : fetch_buffer) (includeHeaders : bool) : result Error Message :=
  match fb_Envelope buffer, fb_BodyStructure buffer with
  | Some env, Some structure =>
      reject fb_UID buffer =? 0 with failure ErrorProtocol ;;
      envelope ← convertEnvelope env;
      parts ← flattenBodyStructure structure;
      headers ← (if includeHeaders
                 then match fb_BodySection buffer with
                      | [data] => reject maxHeaderBytes <? zlen data with failure ErrorTooLarge ;;
                                  parseCuratedHeaders read_header data
                      | _ => Err (failure ErrorTooLarge)
                      end
                 else Ok no_headers);
      Ok (MkMessage (fb_UID buffer) (fb_Flags buffer) envelope (fb_InternalDate buffer) (fb_RFC822Size buffer)
            (fb_ModSeq buffer) parts headers)
  | _, _ => Err (failure ErrorProtocol)
  end.

(** [validateConditionalStore]; a message without envelope. *)
Definition no_envelope : Envelope := MkEnvelope (GTime zero_time UTC) "" [] [] [] [] "" [].
Definition flags_message (uid : Z) (b : fetch_buffer) : Message :=
  MkMessage uid (fb_Flags b) no_envelope (GTime zero_time UTC) 0 (fb_ModSeq b) [] no_headers.
Definition validateConditionalStore (uid : Z) (add : bool) (flags : list string) (expectedModSeq : Z)
    (buffers : list fetch_buffer) : result Error Message :=
  match buffers with
  | [] => Err (failure ErrorConflict)
  | [b] =>
      reject negb (fb_UID b =? uid) with failure ErrorProtocol ;;
      if expectedModSeq <? fb_ModSeq b then Ok (flags_message uid b)
      else
        reject fb_ModSeq b =? 0 with failure ErrorProtocol ;;
        reject existsb (λ flag, negb (eqb add (bool_decide (flag ∈ fb_Flags b)))) flags
          with failure ErrorConflict ;;
        Ok (flags_message uid b)
  | _ => Err (failure ErrorProtocol)
  end.

(** * Sessions *)

(** The go-imap client on one connection, with the context it is bound to. *)
Class ImapClient (W : Type) := {
  cl_bounded : W → bool;
  cl_SetDeadline : W → W * option client_error;
  cl_WaitGreeting : W → W * option client_error;
  cl_Login (username password : string) : W → W * option client_error;
  cl_Caps : W → W * option Capabilities;
  cl_ctx_done : W → W * bool;
  cl_logged_out : W → W * bool;
  cl_Logout : W → W;
  cl_Close : W → W;
  cl_conn_Close : W → W;
  cl_List (special_use : bool) : W → W * (list Mailbox * option client_error);
  cl_Select (mailbox : string) (readOnly condstore : bool) : W → W * (SelectedMailbox + client_error);
  (** the result set, [None] for nil data *)
  cl_UIDSearch (r : SearchRequest) : W → W * (option num_set + client_error);
  (** the messages with the error [Collect] gives for each, and [Close]'s *)
  cl_Fetch (uids : list Z) (headers condstore : bool) : W → W * (list (fetch_buffer + client_error) * option client_error);
  cl_FetchFlags (uid : Z) (condstore : bool) : W → W * (list fetch_buffer + client_error);
  (** UID and the two sections of each buffer, [None] for a nil one *)
  cl_FetchBody (uid : Z) (path : list Z) : W → W * (list (Z * (option (list ascii) * option (list ascii))) + client_error);
  cl_Store (uid : Z) (add silent : bool) (flags : list string) (unchangedSince : option Z)
    : W → W * (list fetch_buffer * option client_error);
  (** [None] is nil data; the flags tell the nil sets *)
  cl_Move (uid : Z) (destination : string) : W → W * (option (Z * (bool * num_set) * (bool * num_set)) + client_error);
  cl_Copy (uid : Z) (destination : string) : W → W * (option (Z * (bool * num_set) * (bool * num_set)) + client_error);
  cl_UIDExpunge (uid : Z) : W → W * option client_error;
  cl_AppendWrite (mailbox : string) (message : list ascii) : W → W * option client_error;
  cl_AppendClose : W → W * option client_error;
  cl_AppendWait : W → W * (option AppendData + client_error);
}.

Record Session := MkSession { caps : Capabilities; authenticated : bool; bounded : bool }.
Definition no_caps : Capabilities := MkCaps false false false false false.

Section Sessions.
Context {W : Type} `{ImapClient W, UnicodeTables} (read_header : list ascii → option header_source).
Abbreviation op A := (W → W * result Error A).

(** [Close], whose [once] makes a second call do nothing. *)
Definition Close (s : Session) (w : W) : W :=
  let '(w, done) := if authenticated s && bounded s then cl_ctx_done w else (w, true) in
  let w := if done : bool then w
           else let '(w, out) := cl_logged_out w in if out : bool then w else cl_Logout w in
  cl_Close w.

Definition local_part (address : string) : string :=
  match last_index_byte "@"%char (bytes address) with
  | Some at_ => if (0 <? at_)%nat then str (take at_ (bytes address)) else address
  | None => address
  end.
(** The local part first; the whole address after a rejection. *)
Definition login (address password : string) (w : W) : W * option client_error :=
  let local := local_part address in
  let '(w, err) := cl_Login local password w in
  match err with
  | Some e => if loginRejection e && negb (bool_decide (local = address)) then cl_Login address password w
              else (w, err)
  | None => (w, None)
  end.
Definition NewSession (address password : string) : op Session := λ w,
  let bounded := cl_bounded w in
  let fresh := MkSession no_caps false bounded in
  let '(w, err) := if bounded then cl_SetDeadline w else (w, None) in
  match err with
  | Some e => (cl_conn_Close w, Err (classify e false))
  | None =>
      let '(w, err) := cl_WaitGreeting w in
      match err with
      | Some e => (Close fresh w, Err (classify e false))
      | None =>
          let '(w, err) := login address password w in
          match err with
          | Some e => (Close fresh w, Err (if loginRejection e then failure ErrorAuthentication else classify e false))
          | None =>
              let '(w, c) := cl_Caps w in
              match c with
              | None => (Close (MkSession no_caps true bounded) w, Err (failure ErrorProtocol))
              | Some c => (w, Ok (MkSession c true bounded))
              end
          end
      end
  end.

Definition SupportsModifiedDetection (_ : Session) : bool := false.
Definition SupportsConditionalStore (s : Session) : bool := CondStore (caps s).

Definition list_item (out : list Mailbox) (item : Mailbox) : result Error (list Mailbox) :=
  reject maxMailboxResponses - 1 <=? zlen out with failure ErrorTooLarge ;;
  boundedString (Name item);;
  bounded_strings (Attributes item);;
  Ok (out ++ [item])%list.
Definition List_ (s : Session) : op (list Mailbox) := λ w,
  let '(w, (items, err)) := cl_List (SpecialUse (caps s)) w in
  (w, out ← fold_res list_item items [];
      match err with Some e => Err (classify e false) | None => Ok out end).

Definition Select (s : Session) (mailbox : string) (readOnly : bool) : op SelectedMailbox := λ w,
  let '(w, r) := cl_Select mailbox readOnly (CondStore (caps s)) w in
  (w, match r with
      | inr e => Err (classify e false)
      | inl data => reject (UIDValidity data =? 0) || (UIDNext data =? 0) with failure ErrorProtocol ;; Ok data
      end).

(** Newest first. *)
Definition descending (l : list Z) : list Z := stable_sort (λ a b, b <? a) l.
Definition Search (r : SearchRequest) : op (list Z) := λ w,
  if (UIDMin r =? 0) || (UIDMax r <? UIDMin r) then (w, Err (failure ErrorProtocol))
  else if maxSearchWindowUIDs <? UIDMax r - UIDMin r + 1 then (w, Err (failure ErrorTooLarge))
  else
    let '(w, res) := cl_UIDSearch r w in
    (w, match res with
        | inr e => Err (classify e false)
        | inl None => Err (failure ErrorProtocol)
        | inl (Some all) =>
            out ← expandUIDSet all (UIDMin r) (UIDMax r) maxSearchWindowUIDs;
            Ok (descending out)
        end).

Definition fetched (expected : list Z) (includeHeaders : bool) (s : list Z * list Message)
    (m : fetch_buffer + client_error) : result Error (list Z * list Message) :=
  let '(seen, out) := s in
  reject zlen expected <=? zlen seen with failure ErrorProtocol ;;
  match m with
  | inr e => Err (classify e false)
  | inl buffer =>
      let uid := fb_UID buffer in
      reject (uid =? 0) || negb (bool_decide (uid ∈ expected)) || bool_decide (uid ∈ seen)
        with failure ErrorProtocol ;;
      converted ← convertMessage read_header buffer includeHeaders;
      Ok ((seen ++ [uid])%list, (out ++ [converted])%list)
  end.
Definition FetchMetadata (s : Session) (uids : list Z) (includeHeaders : bool) : op (list Message) := λ w,
  match uids with
  | [] => (w, Ok [])
  | _ =>
      if maxMetadataMessages <? zlen uids then (w, Err (failure ErrorTooLarge))
      else if bool_decide (0 ∈ uids) || negb (bool_decide (NoDup uids)) then (w, Err (failure ErrorProtocol))
      else
        let '(w, (items, err)) := cl_Fetch uids includeHeaders (CondStore (caps s)) w in
        (w, '(_, out) ← fold_res (fetched uids includeHeaders) items ([], []);
            match err with Some e => Err (classify e false) | None => Ok out end)
  end.

Definition FetchFlags (s : Session) (uid : Z) : op Message := λ w,
  let '(w, r) := cl_FetchFlags uid (CondStore (caps s)) w in
  (w, match r with
      | inr e => Err (classify e false)
      | inl [b] => reject negb (fb_UID b =? uid) with failure ErrorNotFound ;; Ok (flags_message uid b)
      | inl _ => Err (failure ErrorNotFound)
      end).

Definition FetchBodyPart (uid : Z) (path : list Z) : op BodyData := λ w,
  let '(w, r) := cl_FetchBody uid path w in
  (w, match r with
      | inr e => Err (classify e false)
      | inl [(u, (mimeBytes, bodyBytes))] =>
          reject negb (u =? uid) with failure ErrorNotFound ;;
          if (maxHeaderBytes <? zlen (default [] mimeBytes)) || (maxWireBodyBytes <? zlen (default [] bodyBytes))
          then Ok (MkBodyData [] [] true)
          else match mimeBytes, bodyBytes with
               | Some h, Some b => Ok (MkBodyData h b false)
               | _, _ => Err (failure ErrorProtocol)
               end
      | inl _ => Err (failure ErrorNotFound)
      end).

Definition no_error (err : option client_error) : result Error unit :=
  match err with Some e => Err (classify e true) | None => Ok tt end.
Definition StoreDelta (uid : Z) (add : bool) (flags : list string) : op unit := λ w,
  let '(w, (_, err)) := cl_Store uid add true flags None w in (w, no_error err).
Definition ConditionalStoreDelta (s : Session) (uid : Z) (add : bool) (flags : list string) (expectedModSeq : Z)
    : op Message := λ w,
  if negb (CondStore (caps s)) || (expectedModSeq =? 0) then (w, Err (failure ErrorProtocol))
  else
    let '(w, (buffers, err)) := cl_Store uid add false flags (Some expectedModSeq) w in
    (w, no_error err;; validateConditionalStore uid add flags expectedModSeq buffers).
Definition AddDeleted (uid : Z) : op unit := λ w,
  let '(w, (_, err)) := cl_Store uid true true ["\Deleted"] None w in (w, no_error err).
Definition UIDExpunge (s : Session) (uid : Z) : op unit := λ w,
  if negb (UIDPlus (caps s)) then (w, Err (failure ErrorProtocol))
  else let '(w, err) := cl_UIDExpunge uid w in (w, no_error err).

Definition copy_result (uid : Z) (required : bool)
    (r : option (Z * (bool * num_set) * (bool * num_set)) + client_error) : result Error CopyData :=
  match r with
  | inr e => Err (classify e true)
  | inl None => Err (MkError ErrorProtocol true)
  | inl (Some (uidValidity, (snil, source), (dnil, dest))) =>
      validatedCopyData uid uidValidity snil dnil source dest required
  end.
Definition NativeMove (s : Session) (uid : Z) (destination : string) : op CopyData := λ w,
  if negb (Move (caps s)) then (w, Err (failure ErrorProtocol))
  else let '(w, r) := cl_Move uid destination w in (w, copy_result uid false r).
Definition Copy (uid : Z) (destination : string) : op CopyData := λ w,
  let '(w, r) := cl_Copy uid destination w in (w, copy_result uid true r).

Definition AppendSent (mailbox : string) (message : list ascii) : op AppendData := λ w,
  let '(w, err) := cl_AppendWrite mailbox message w in
  match err with
  | Some e => ((cl_AppendClose w).1, Err (classify e true))
  | None =>
      let '(w, err) := cl_AppendClose w in
      match err with
      | Some e => (w, Err (classify e true))
      | None =>
          let '(w, r) := cl_AppendWait w in
          (w, match r with
              | inr e => Err (classify e true)
              | inl None => Err (MkError ErrorProtocol true)
              | inl (Some data) => Ok data
              end)
      end
  end.
End Sessions.
(** * Proofs *)

(** ** The guard *)

(** What holds of the guard as long as no limit was hit. *)
Record guard_ok (g : guardedConn) : Prop := {
  ok_total : 0 <= total g <= maxSessionBytes;
  ok_line : zlen (line g) <= maxProtocolLine;
  ok_literal : 0 <= literalRemaining g <= maxSessionBytes;
  ok_depth : 0 <= depth g <= maxProtocolDepth;
  ok_lists : 0 <= lists g <= maxProtocolLists;
  ok_quoted : 0 <= quotedLength g <= maxQuotedWire;
}.
Lemma literalSize_range l n : literalSize l = Some n → 0 <= n <= maxSessionBytes.
Proof. unfold literalSize. intros. case_go; bool_to_prop; unfold maxSessionBytes in *; lia. Qed.

Lemma scan_ok g b g' : guard_ok g → scanProtocolByte g b = (g', false) → guard_ok g'.
Proof.
  intros [Ht Hl Hlit Hd Hls Hq]. unfold scanProtocolByte. simpl.
  destruct (maxProtocolLine <? _) eqn:Hline; [done|]. bool_to_prop. simpl in Hline.
  set (g1 := MkGuard _ _ _ _ _ _ _ _).
  destruct (if quoted g then scan_quoted g1 b else scan_plain g1 b) as [g2 e] eqn:Hscan.
  destruct e; [done|].
  assert (guard_ok g2 ∧ line g2 = line g1) as [Hok Hline2].
  { unfold scan_quoted, scan_plain in Hscan. subst g1. simpl in *.
    case_go; bool_to_prop; split; try done; split; simpl in *; unfold maxQuotedWire, maxProtocolDepth, maxProtocolLists in *; lia. }
  destruct (has_suffix_b crlf (line g2)); [|by intros [= <-]].
  unfold end_line. destruct (literalSize _) as [size|] eqn:Hsize; [|done]. intros [= <-].
  apply literalSize_range in Hsize. destruct Hok. split; simpl; unfold zlen, maxProtocolLine, maxQuotedWire in *; simpl; try lia.
  destruct (_ && _); unfold maxProtocolLists in *; lia.
Qed.
Lemma scan_total g b : total (scanProtocolByte g b).1 = total g.
Proof. unfold scanProtocolByte, scan_quoted, scan_plain, end_line. repeat (case_match; simplify_eq/=; try done). Qed.
(** Reading [data] from a good state: without a stop all of it is accepted and
    the state stays good; what is accepted never exceeds the session limit. *)
Lemma read_loop_ok g acc data g' n stopped : guard_ok g → read_loop g acc data = (g', (n, stopped)) →
  n - acc <= maxSessionBytes - total g ∧
  (stopped = false → guard_ok g' ∧ n = acc + zlen data ∧ total g' = total g + zlen data).
Proof.
  revert g acc; induction data as [|b data IH]; intros g acc Hg; simpl.
  { intros [= <- <- <-]. destruct Hg. unfold zlen. simpl. split_and!; [lia|]. intros. split_and!; [done|lia..]. }
  destruct (maxSessionBytes <=? total g) eqn:Ht.
  { intros [= <- <- <-]. destruct Hg. bool_to_prop. split; [lia|done]. }
  bool_to_prop. rewrite zlen_cons. destruct Hg as [Ht' ? ? ? ? ?].
  destruct (0 <? literalRemaining g) eqn:Hlit; bool_to_prop.
  - intros Hr. apply IH in Hr as [Hn Hrest]; [|split; simpl; lia]. simpl in *.
    split; [lia|]. intros Hs. destruct (Hrest Hs) as (? & -> & ->). split_and!; [done|lia..].
  - set (g1 := MkGuard _ _ _ _ _ _ _ _). pose proof (scan_total g1 b) as Htot.
    destruct (scanProtocolByte g1 b) as [g2 e] eqn:Hscan. simpl in Htot.
    destruct e; [intros [= <- <- <-]; split; [lia|done]|]. intros Hr.
    apply IH in Hr as [Hn Hrest]; [|eapply scan_ok, Hscan; split; simpl; lia].
    rewrite Htot in *. split; [lia|]. intros Hs. destruct (Hrest Hs) as (? & -> & ->). split_and!; [done|lia..].
Qed.
Lemma read_loop_app g acc d1 d2 :
  read_loop g acc (d1 ++ d2) =
    let '(g1, (n1, stopped)) := read_loop g acc d1 in
    if stopped : bool then (g1, (n1, true)) else read_loop g1 n1 d2.
Proof.
  revert g acc; induction d1 as [|b d1 IH]; intros g acc; simpl; [done|].
  destruct (maxSessionBytes <=? total g); [done|]. destruct (0 <? literalRemaining g); [apply IH|].
  destruct (scanProtocolByte _ b) as [g2 []]; [done|apply IH].
Qed.

Lemma read_loop_acc g acc data :
  read_loop g acc data = let '(g', (n, stopped)) := read_loop g 0 data in (g', (acc + n, stopped)).
Proof.
  revert g acc; induction data as [|b data IH]; intros g acc; simpl; [by rewrite Z.add_0_r|].
  destruct (maxSessionBytes <=? total g); [by rewrite Z.add_0_r|].
  destruct (0 <? literalRemaining g).
  - rewrite (IH _ (acc + 1)), (IH _ (0 + 1)). by destruct (read_loop _ 0 data) as [? [? ?]]; rewrite Z.add_assoc.
  - destruct (scanProtocolByte _ b) as [g2 []]; [by rewrite Z.add_0_r|].
    rewrite (IH _ (acc + 1)), (IH _ (0 + 1)). by destruct (read_loop _ 0 data) as [? [? ?]]; rewrite Z.add_assoc.
Qed.
(** The chunks of a session, one [Read] each, until one is stopped. *)
Fixpoint read_all (g : guardedConn) (chunks : list (list ascii)) : guardedConn * (Z * bool) :=
  match chunks with
  | [] => (g, (0, false))
  | c :: chunks =>
      let '(g, (n, stopped)) := read_loop g 0 c in
      if stopped : bool then (g, (n, true))
      else let '(g, (m, stopped)) := read_all g chunks in (g, (n + m, stopped))
  end.
Lemma read_all_concat g chunks : read_all g chunks = read_loop g 0 (concat chunks).
Proof.
  revert g; induction chunks as [|c chunks IH]; intros g; simpl; [done|].
  rewrite read_loop_app. destruct (read_loop g 0 c) as [g1 [n []]]; [done|].
  by rewrite IH, (read_loop_acc g1 n).
Qed.
Lemma newGuardedConn_ok : guard_ok newGuardedConn.
Proof. split; done. Qed.

(** (C34) A session's bytes pass the guard in the same way however the network
    splits them, at most 4 MiB are let through, and as long as no limit is hit
    the nesting of protocol lists is between 0 and 24, a response opens at
    most 512 lists, and no line and no quoted string is over its limit. *)
Theorem guard_stream chunks g n stopped :
  read_all newGuardedConn chunks = (g, (n, stopped)) →
  read_loop newGuardedConn 0 (concat chunks) = (g, (n, stopped)) ∧ n <= maxSessionBytes ∧
  (stopped = false → guard_ok g ∧ n = zlen (concat chunks) ∧ total g = n).
Proof.
  rewrite read_all_concat. intros Hr. split; [done|].
  apply read_loop_ok in Hr as [Hn Hok]; [|apply newGuardedConn_ok]. simpl in Hn. split; [lia|].
  intros Hs. destruct (Hok Hs) as (? & -> & ->). split_and!; [done|simpl; lia|simpl; lia].
Qed.
Definition demo_chunks : list (list ascii) := map bytes ["* 1 FETCH (BODY {3}"; str crlf ++ "(("; "()"; str crlf].
Lemma guard_stream_witness :
  let '(g, (n, stopped)) := read_all newGuardedConn demo_chunks in
  stopped = false ∧ n = 27 ∧ guard_ok g ∧ read_all newGuardedConn [concat demo_chunks] = (g, (n, stopped)).
Proof.
  destruct (read_all newGuardedConn demo_chunks) as [g [n stopped]] eqn:Hr.
  pose proof (guard_stream _ _ _ _ Hr) as (Heq & _ & Hok). vm_compute in Hr. injection Hr as <- <- <-.
  destruct (Hok eq_refl) as (Hg & _ & _).
  split; [reflexivity|split; [reflexivity|split; [exact Hg|vm_compute; reflexivity]]].
Defined.

(** ** UID sets *)

Lemma seqZ_sorted m n : StronglySorted Z.lt (seqZ m n).
Proof.
  destruct (decide (0 <= n)) as [Hn|]; [|rewrite seqZ_nil by lia; constructor].
  revert n Hn m. refine (natlike_ind _ _ _); [constructor|]. intros n Hn IH m.
  rewrite seqZ_cons by lia. rewrite Z.pred_succ. constructor; [apply IH|].
  apply Forall_forall. intros k Hk%elem_of_seqZ. lia.
Qed.
Definition low_bound (lo : Z) (s : expansion) : Z := if 0 <? ex_index s then previousStop s else lo - 1.
Lemma check_range_ok lo hi mc s r s' : 0 <= ex_index s → lo - 1 <= low_bound lo s →
  check_range lo hi mc s r = Ok s' →
  low_bound lo s < r.1 ∧ r.1 <= r.2 ∧ r.2 <= hi ∧ low_bound lo s' = r.2 ∧ 0 < ex_index s' ∧
  cardinality s' = cardinality s + (r.2 - r.1 + 1) ∧ cardinality s' <= mc.
Proof.
  unfold check_range, low_bound. destruct r as [start stop]. intros Hi Hb. simpl.
  rewrite !reject_ok, !orb_false_iff, andb_false_iff. intros ([[? ?] ?] & [[? ?] Hor] & ? & [= <-]). simpl.
  assert (0 <? ex_index s + 1 = true) as -> by lia. bool_to_prop.
  split_and!; try lia. destruct (0 <? ex_index s) eqn:Hidx; [|lia]. destruct Hor; [done|]. bool_to_prop. lia.
Qed.
Lemma check_ranges_ok lo hi mc set s s' : 0 <= ex_index s → lo - 1 <= low_bound lo s → cardinality s <= mc →
  fold_res (check_range lo hi mc) set s = Ok s' →
  let out := concat (map range_uids set) in
  StronglySorted Z.lt out ∧ Forall (λ u, low_bound lo s < u ∧ u <= hi) out ∧ cardinality s + zlen out <= mc.
Proof.
  cbv zeta. revert s. induction set as [|r set IH]; intros s Hi Hp Hc; simpl.
  { intros _. split_and!; [constructor|constructor|unfold zlen; simpl; lia]. }
  destruct (check_range lo hi mc s r) as [s1|e] eqn:Hs1; [|done]. intros Hf.
  apply check_range_ok in Hs1 as (Hlow & Hle & Hhi & Hb1 & Hi1 & Hc1 & Hmc); [|done..].
  apply IH in Hf as (Hsorted & Hall & Hcard); [|lia..].
  assert (zlen (range_uids r) = r.2 - r.1 + 1) as Hlen by (unfold range_uids, zlen; rewrite length_seqZ; lia).
  rewrite zlen_app, Hlen. rewrite Hb1 in Hall. split_and!; [|apply Forall_app; split|lia].
  - apply StronglySorted_app_2; [|apply seqZ_sorted|done].
    intros x y Hx%elem_of_seqZ Hy. rewrite Forall_forall in Hall. apply Hall in Hy. lia.
  - apply Forall_forall. intros u Hu%elem_of_seqZ. lia.
  - eapply Forall_impl; [exact Hall|]. simpl. lia.
Qed.

(** A UID set the server answered with is expanded only when it is a list
    of disjoint ascending ranges inside the window asked for; the result then
    is strictly ascending, holds exactly the members of the ranges, all in the
    window, and no more than the maximum. *)
Theorem expandUIDSet_ok set lo hi mc out :
  0 < lo → expandUIDSet (Some set) lo hi mc = Ok out →
  StronglySorted Z.lt out ∧ zlen out <= mc ∧
  (∀ u, u ∈ out ↔ ∃ r, r ∈ set ∧ r.1 <= u <= r.2) ∧ (∀ u, u ∈ out → lo <= u <= hi).
Proof.
  intros Hlo. simpl. rewrite !reject_ok. intros (_ & Hlen & [s' [Hf [= <-]]]%bind_ok). bool_to_prop.
  apply check_ranges_ok in Hf as (Hsorted & Hall & Hcard); [|done|done|pose proof (zlen_nonneg set); simpl; lia].
  split_and!; [done|simpl in Hcard; lia| |].
  - intros u. rewrite elem_of_concat. split.
    + intros (l & Hl & (r & -> & Hr)%list_elem_of_fmap). exists r. split; [done|].
      unfold range_uids in Hl. rewrite elem_of_seqZ in Hl. lia.
    + intros (r & Hr & Hu). exists (range_uids r). split; [|by apply list_elem_of_fmap; exists r].
      unfold range_uids. rewrite elem_of_seqZ. lia.
  - intros u Hu. rewrite Forall_forall in Hall. apply Hall in Hu. unfold low_bound in Hu. simpl in Hu. lia.
Qed.
Lemma expandUIDSet_ok_witness :
  expandUIDSet (Some [(3, 4); (7, 7)]) 1 10 5000 = Ok [3; 4; 7] ∧ StronglySorted Z.lt [3; 4; 7] ∧
  expandUIDSet (Some [(7, 7); (3, 4)]) 1 10 5000 = Err (failure ErrorProtocol).
Proof.
  assert (expandUIDSet (Some [(3, 4); (7, 7)]) 1 10 5000 = Ok [3; 4; 7]) as H by reflexivity.
  split; [exact H|split; [|reflexivity]]. exact (proj1 (expandUIDSet_ok _ 1 10 5000 _ eq_refl H)).
Defined.

(** ** What a definite failure means *)

(** The server answered the command with an error of its own. *)
Definition server_refused (err : option client_error) : Prop := ∃ no code, err = Some (ImapError no code).
Definition refused {A} (r : A + client_error) : Prop := ∃ no code, r = inr (ImapError no code).

Lemma classify_definite err : Ambiguous (classify err true) = false → ∃ no code, err = ImapError no code.
Proof. destruct err; simpl; try done. eauto. Qed.
Lemma no_error_definite err e : no_error err = Err e → Ambiguous e = false → server_refused err.
Proof. destruct err as [ce|]; [|done]. intros [= <-] (no & code & ->)%classify_definite. by exists no, code. Qed.
Lemma copy_result_definite uid required r e :
  copy_result uid required r = Err e → Ambiguous e = false → refused r.
Proof.
  unfold copy_result, validatedCopyData.
  destruct r as [[[[v [sn src]] [dn dst]]|]|ce]; intros Hr Ha; case_go; try done.
  destruct (classify_definite _ Ha) as (no & code & ->). by exists no, code.
Qed.

Section Definite.
Context {W : Type} `{ImapClient W}.

(** The answer of a conditional STORE that shows the change in place: one row,
    of the message, whose number has risen, or has not but its flags are as
    asked for. *)
Definition shows_change (uid : Z) (add : bool) (flags : list string) (expectedModSeq : Z) (buffers : list fetch_buffer) : Prop :=
  ∃ b, buffers = [b] ∧ fb_UID b = uid ∧
    (expectedModSeq < fb_ModSeq b ∨
     (fb_ModSeq b ≠ 0 ∧ ∀ flag, flag ∈ flags → add = bool_decide (flag ∈ fb_Flags b))).
Lemma validate_rejected uid add flags expectedModSeq buffers e :
  validateConditionalStore uid add flags expectedModSeq buffers = Err e → ¬ shows_change uid add flags expectedModSeq buffers.
Proof.
  intros He (b & -> & <- & Hb). revert He. unfold validateConditionalStore. rewrite Z.eqb_refl. cbn [negb].
  destruct (Z.ltb_spec expectedModSeq (fb_ModSeq b)); [done|]. destruct Hb as [?|[Hz Hf]]; [lia|].
  destruct (Z.eqb_spec (fb_ModSeq b) 0); [done|]. destruct (existsb _ flags) eqn:Hx; [|done].
  apply existsb_exists in Hx as (flag & Hin & Hx). apply list_elem_of_In in Hin. rewrite <-(Hf flag Hin), eqb_reflx in Hx. done.
Qed.

(** (C35) What it means that the failure of a mutating command is not marked
    ambiguous.  For the unconditional STORE, the Deleted mark, UID EXPUNGE,
    MOVE, COPY and APPEND: either it was never sent, because the session lacks
    the capability, or the server answered it with an error response; so a
    lost connection, a timeout, an oversized or unreadable answer is always
    marked.  For the conditional STORE there is one more case, in which the
    server accepted it: its answer does not show the change in place. *)
Theorem definite_failures s uid add flags destination mailbox message (w : W) :
  (∀ w' e, StoreDelta uid add flags w = (w', Err e) → Ambiguous e = false →
     server_refused (cl_Store uid add true flags None w).2.2) ∧
  (∀ w' e, AddDeleted uid w = (w', Err e) → Ambiguous e = false →
     server_refused (cl_Store uid true true ["\Deleted"] None w).2.2) ∧
  (∀ w' e, UIDExpunge s uid w = (w', Err e) → Ambiguous e = false →
     UIDPlus (caps s) = false ∨ server_refused (cl_UIDExpunge uid w).2) ∧
  (∀ w' e, NativeMove s uid destination w = (w', Err e) → Ambiguous e = false →
     Move (caps s) = false ∨ refused (cl_Move uid destination w).2) ∧
  (∀ w' e, Copy uid destination w = (w', Err e) → Ambiguous e = false → refused (cl_Copy uid destination w).2) ∧
  (∀ w' e, AppendSent mailbox message w = (w', Err e) → Ambiguous e = false →
     server_refused (cl_AppendWrite mailbox message w).2 ∨
     ∃ w1, (cl_AppendWrite mailbox message w) = (w1, None) ∧
       (server_refused (cl_AppendClose w1).2 ∨ refused (cl_AppendWait (cl_AppendClose w1).1).2)) ∧
  (∀ modseq w' e, ConditionalStoreDelta s uid add flags modseq w = (w', Err e) → Ambiguous e = false →
     CondStore (caps s) = false ∨ modseq = 0 ∨ server_refused (cl_Store uid add false flags (Some modseq) w).2.2 ∨
     ((cl_Store uid add false flags (Some modseq) w).2.2 = None ∧
      ¬ shows_change uid add flags modseq (cl_Store uid add false flags (Some modseq) w).2.1)).
Proof.
  split_and!; [..|intros modseq w' e]; try intros w' e.
  - unfold StoreDelta. destruct (cl_Store _ _ _ _ _ w) as [w1 [bs err]]. intros [= <- Hr]. by apply no_error_definite.
  - unfold AddDeleted. destruct (cl_Store _ _ _ _ _ w) as [w1 [bs err]]. intros [= <- Hr]. by apply no_error_definite.
  - unfold UIDExpunge. destruct (UIDPlus _); simpl; [|by left].
    destruct (cl_UIDExpunge _ w) as [w1 err]. intros [= <- Hr] Ha. right. by eapply no_error_definite.
  - unfold NativeMove. destruct (Move _); simpl; [|by left].
    destruct (cl_Move _ _ w) as [w1 r]. intros [= <- Hr] Ha. right. by eapply copy_result_definite.
  - unfold Copy. destruct (cl_Copy _ _ w) as [w1 r]. intros [= <- Hr] Ha. by eapply copy_result_definite.
  - unfold AppendSent. destruct (cl_AppendWrite _ _ w) as [w1 [ce|]].
    { intros [= <- <-] (no & code & ->)%classify_definite. left. by exists no, code. }
    destruct (cl_AppendClose w1) as [w2 [ce|]] eqn:Hc.
    { intros [= <- <-] (no & code & ->)%classify_definite. right. exists w1. split; [done|]. left. rewrite Hc. by exists no, code. }
    destruct (cl_AppendWait w2) as [w3 r] eqn:Hwait. intros [= <- Hr] Ha. right. exists w1. split; [done|]. right.
    rewrite Hc. simpl. rewrite Hwait. destruct r as [[data|]|ce]; [done|by injection Hr as <-|].
    injection Hr as <-. destruct (classify_definite _ Ha) as (no & code & ->). by exists no, code.
  - unfold ConditionalStoreDelta. destruct (CondStore (caps s)); [|by left]. cbn [negb orb].
    destruct (Z.eqb_spec modseq 0); [by right; left|]. destruct (cl_Store _ _ _ _ _ w) as [w1 [bs err]]. cbn.
    intros [= <- Hr] Ha. right. right. destruct err as [ce|].
    + left. injection Hr as <-. destruct (classify_definite _ Ha) as (no & code & ->). by exists no, code.
    + right. split; [done|]. by eapply validate_rejected.
Qed.
End Definite.

(** A client whose every command ends in the error of the state. *)
Definition answer {A} (a : A) (w : option client_error) : option client_error * (A + client_error) :=
  (w, match w with Some e => inr e | None => inl a end).
Definition failing_client (buffers : list fetch_buffer) : ImapClient (option client_error) := {|
  cl_bounded _ := true; cl_SetDeadline w := (w, w); cl_WaitGreeting w := (w, w); cl_Login _ _ w := (w, w);
  cl_Caps w := (w, None); cl_ctx_done w := (w, false); cl_logged_out w := (w, false); cl_Logout w := w;
  cl_Close w := w; cl_conn_Close w := w; cl_List _ w := (w, ([], w)); cl_Select _ _ _ := answer (MkSelected 1 1);
  cl_UIDSearch _ := answer None; cl_Fetch _ _ _ w := (w, ([], w)); cl_FetchFlags _ _ := answer buffers;
  cl_FetchBody _ _ := answer []; cl_Store _ _ _ _ _ w := (w, (buffers, w)); cl_Move _ _ := answer None;
  cl_Copy _ _ := answer None; cl_UIDExpunge _ w := (w, w); cl_AppendWrite _ _ w := (w, w);
  cl_AppendClose w := (w, w); cl_AppendWait := answer None |}.
Definition all_caps : Session := MkSession (MkCaps true true true true true) true true.
Lemma definite_failures_witness :
  let c := failing_client [] in
  (∀ no code, @server_refused (Some (ImapError no code))) ∧
  Ambiguous (classify (ImapError true RespNoPerm) true) = false ∧
  @server_refused (@cl_Store _ c 7 true true ["\Seen"] None (Some (ImapError true RespNoPerm))).2.2.
Proof.
  split; [intros no code; by exists no, code|split; [reflexivity|]].
  exact (proj1 (@definite_failures _ (failing_client []) all_caps 7 true ["\Seen"] "x" "Sent" []
    (Some (ImapError true RespNoPerm))) _ _ eq_refl eq_refl).
Defined.

(** The conditional store is the exception: the server accepted it, the
    returned metadata is unusable, and the failure is not marked ambiguous. *)
Definition bare_buffer (uid modseq : Z) : fetch_buffer :=
  MkBuffer uid None None (GTime zero_time UTC) 0 modseq [] [].
Example conditional_store_unmarked :
  @ConditionalStoreDelta _ (failing_client [bare_buffer 7 0]) all_caps 7 true ["\Seen"] 5 None
  = (None, Err (failure ErrorProtocol)).
Proof. reflexivity. Qed.

(** ** Body structures *)

Section StructureProofs.
Context `{UnicodeTables}.

Lemma body_structure_nested (P : body_structure → Prop) :
  (∀ p, P (SinglePart p)) → (∀ t d children, Forall P children → P (MultiPart t d children)) →
  (∀ d, P (UnknownPart d)) → ∀ b, P b.
Proof.
  intros Hs Hm Hu. fix IH 1. intros [p|t d children|d]; [apply Hs| |apply Hu].
  apply Hm. induction children as [|c children IHc]; constructor; [apply IH|done].
Qed.

(** A part the flattening may list. *)
Record part_ok (b : BodyPart) : Prop := {
  part_depth : zlen (Path b) <= maxDepth;
  part_body : InlinePlain b = true → IsAttachment b = false ∧ ContentType b = "text/plain";
}.
(** The parts a subtree at [path] adds to [parts]. *)
Definition subtree (path : list Z) (parts parts' : list BodyPart) : Prop :=
  ∃ new, parts' = (parts ++ new)%list ∧ NoDup (map Path new) ∧
    Forall (λ b, part_ok b ∧ path `prefix_of` Path b) new ∧ zlen parts' <= maxParts.

Lemma subtree_single path parts b : zlen parts < maxParts → part_ok b → Path b = path →
  subtree path parts (parts ++ [b])%list.
Proof.
  intros Hlen Hb <-. exists [b]. split_and!; [done|simpl; apply NoDup_singleton| |autorewrite with golen; unfold zlen in *; simpl; lia].
  by apply Forall_singleton.
Qed.
Lemma disjoint_children (path : list Z) i j (q q' : list Z) : i ≠ j →
  (path ++ [i])%list `prefix_of` q → (path ++ [j])%list `prefix_of` q' → q ≠ q'.
Proof. intros Hij [k ->] [k' ->]. rewrite <-!app_assoc. intros Heq%app_inv_head. simpl in Heq. congruence. Qed.

Lemma walk_ok b path parts parts' : walk b path parts = Ok parts' → subtree path parts parts'.
Proof.
  revert path parts parts'. induction b as [p|t d children IH|d] using body_structure_nested; intros path parts parts'.
  - simpl. rewrite reject_ok. intros [Hlim [disp [_ [b [Hb [= <-]]]%bind_ok]]%bind_ok].
    apply orb_false_iff in Hlim as [Hl Hd]. bool_to_prop. unfold single_body in Hb.
    inv_binds Hb. injection Hb as <-. apply subtree_single; [lia| |done].
    split; [done|]. simpl. intros [Ht Ha]%andb_prop. split; [by apply negb_true_iff|by apply bool_decide_eq_true in Ht].
  - simpl. rewrite reject_ok. intros [Hlim [disp [_ Hw]]%bind_ok].
    apply orb_false_iff in Hlim as [Hl Hd]. bool_to_prop.
    set (root := MkBodyPart path t disp "" "" 0 false (bool_decide (disp = "attachment"))) in *.
    assert (part_ok root) as Hroot by (split; [exact Hd|done]).
    destruct (bool_decide (disp = "attachment")); [injection Hw as <-; by apply subtree_single|].
    assert (∀ i new, NoDup (map Path (root :: new)) → zlen (parts ++ root :: new) <= maxParts →
      Forall (λ b, part_ok b ∧ path `prefix_of` Path b) (root :: new) →
      Forall (λ b, ∀ j, i < j → ¬ (path ++ [j])%list `prefix_of` Path b) (root :: new) →
      walk_children walk path i children (parts ++ root :: new)%list = Ok parts' → subtree path parts parts') as Hgo.
    2: { eapply (Hgo 0 []); [simpl; apply NoDup_singleton|autorewrite with golen; unfold zlen in *; simpl; lia| | |exact Hw].
         - apply Forall_singleton. split; [done|]. exists []. simpl. by rewrite app_nil_r.
         - apply Forall_singleton. simpl. intros j _ [k Hk]. apply (f_equal length) in Hk. rewrite !length_app in Hk. simpl in Hk. lia. }
    clear Hw. induction children as [|c children IHc]; intros i new Hnd Hlen Hok Hfresh; simpl.
    { intros [= <-]. exists (root :: new). done. }
    apply Forall_cons in IH as [Hc IH].
    destruct (walk c (path ++ [i + 1]) (parts ++ root :: new)) as [parts1|e] eqn:Hwalk; [|done].
    apply Hc in Hwalk as (added & -> & Hnd1 & Hok1 & Hlen1). intros Hrest.
    apply (IHc IH (i + 1) (new ++ added)%list); rewrite ?app_comm_cons, ?map_app; [| | | |by rewrite <-app_assoc in Hrest].
    + apply NoDup_app. split_and!; [done| |done]. intros q (b1 & -> & Hb1)%list_elem_of_fmap (b2 & Heq & Hb2)%list_elem_of_fmap.
      rewrite Forall_forall in Hfresh, Hok1. apply (Hfresh b1 Hb1 (i + 1) ltac:(lia)). rewrite Heq. apply Hok1, Hb2.
    + by rewrite app_assoc.
    + apply Forall_app. split; [done|]. eapply Forall_impl; [exact Hok1|]. intros b [? [k Hk]]. split; [done|].
      rewrite Hk, <-app_assoc. by eexists.
    + apply Forall_app. split; [eapply Forall_impl; [exact Hfresh|]; intros b Hb j Hj; apply Hb; lia|].
      eapply Forall_impl; [exact Hok1|]. intros b [_ Hp] j Hj Hp'. by eapply (disjoint_children path (i + 1) j); [lia|..].
  - simpl. rewrite reject_ok. by intros [_ [? [_ [=]]]%bind_ok].
Qed.

(** A body structure is listed as at most 200 parts, each at its own path
    of at most 20 numbers, and a part offered as the message text is plain text
    and no attachment; a larger or deeper structure is refused. *)
Theorem flatten_ok root parts :
  flattenBodyStructure root = Ok parts →
  zlen parts <= maxParts ∧ NoDup (map Path parts) ∧ Forall part_ok parts.
Proof.
  intros (new & -> & Hnd & Hok & Hlen)%walk_ok. split_and!; [done|done|].
  eapply Forall_impl; [exact Hok|]. by intros b [].
Qed.
End StructureProofs.

Definition demo_part (mediatype : string) (disposition : option string) : body_structure :=
  SinglePart (MkSingle "" "" "" "" "" [] 10 disposition mediatype "").
Definition demo_structure : body_structure :=
  MultiPart "multipart/mixed" None
    [MultiPart "multipart/alternative" None [demo_part "text/plain" None; demo_part "text/html" None];
     demo_part "text/plain" (Some "ATTACHMENT")].
Lemma flatten_ok_witness :
  match @flattenBodyStructure ascii_tables demo_structure with
  | Ok parts => map Path parts = [[]; [1]; [1; 1]; [1; 2]; [2]] ∧
                map InlinePlain parts = [false; false; true; false; false] ∧
                zlen parts <= maxParts ∧ NoDup (map Path parts) ∧ Forall part_ok parts
  | Err _ => False
  end.
Proof.
  destruct (@flattenBodyStructure ascii_tables demo_structure) as [parts|e] eqn:Hf.
  - pose proof (@flatten_ok ascii_tables _ _ Hf) as Hok. vm_compute in Hf. injection Hf as <-.
    split; [reflexivity|split; [reflexivity|exact Hok]].
  - vm_compute in Hf. discriminate Hf.
Defined.
End IA.
