(* ===== verification/MailClient.v ===== *)
(** The Mail client over IMAP (src/internal/mail/service.go, mutation.go):
    rate limits and slots, one fresh session per attempt, the mapping of
    failures to public errors, and the read and mutation operations. *)
From S2P Require Import Prelude GoStrings GoTime GoEncode NetMail MailTypes MailValidation ImapAdapter.
Import MT.

(** * Errors *)

Inductive smtp_error :=
| SmtpReply (code : Z)
| SmtpInboundLimit
| SmtpTooLongLine
| SmtpAuthUnavailable
| SmtpUTF8Unavailable.
(** An error as [errors.As] and [errors.Is] see it: a public [*mail.Error], an
    [*imapadapter.Error], an SMTP failure, a [net.Error], an end of input, or
    anything else. *)
Inductive mail_error :=
| Public (e : Error)
| Imap (e : IA.Error)
| Smtp (e : smtp_error)
| NetError (timeout : bool)
| Eof
| OtherError.

(** * The outside world

    Every call the client makes to the network and to the slots is a command;
    it returns a value, fails or panics. *)

(** What go-message is given to encode: the header fields in the order they
    are set, and the text. *)
Record draft := MkDraft {
  dr_from : string; dr_to : list string; dr_cc : list string; dr_messageID : string; dr_subject : string;
  dr_inReplyTo : list string; dr_references : list string; dr_body : string;
}.
Inductive lane := Reading | Mutating | Sending.
#[export] Instance lane_eq_dec : EqDecision lane.
Proof. solve_decision. Defined.

(** What is looked at and cannot fail: a limiter, a slot (false when the
    context ended first), whether the context ended, and what the session
    says of itself. *)
Inductive query : Type → Type :=
| Allow (l : lane) : query bool
| Acquire (l : lane) : query bool
| CtxErr : query bool
| Capabilities : query IA.Capabilities
| SupportsConditionalStore : query bool.
Inductive cmd : Type → Type :=
| Release (l : lane) : cmd unit
| ImapDial : cmd unit
| ImapLogin : cmd unit
| ImapClose : cmd unit
| ConnClose : cmd unit
| ListBoxes : cmd (list IA.Mailbox)
| SelectBox (mailbox : string) (readOnly : bool) : cmd IA.SelectedMailbox
| Search (r : IA.SearchRequest) : cmd (list Z)
| FetchMetadata (uids : list Z) (headers : bool) : cmd (list IA.Message)
| FetchBodyPart (uid : Z) (path : list Z) : cmd IA.BodyData
| StoreDelta (uid : Z) (add : bool) (flags : list string) : cmd unit
| ConditionalStoreDelta (uid : Z) (add : bool) (flags : list string) (expectedModSeq : Z) : cmd IA.Message
| FetchFlags (uid : Z) : cmd IA.Message
| NativeMove (uid : Z) (destination : string) : cmd IA.CopyData
| AppendSent (mailbox : string) (message : list ascii) : cmd IA.AppendData
| CopyTo (uid : Z) (destination : string) : cmd IA.CopyData
| AddDeleted (uid : Z) : cmd unit
| UIDExpunge (uid : Z) : cmd unit
| SmtpDial : cmd unit
| SmtpStart : cmd unit
| SmtpConnClose : cmd unit
| SmtpAuth : cmd unit
| SmtpMail (from : string) (size : Z) (utf8 : bool) : cmd unit
| SmtpRcpt (address : string) : cmd unit
| SmtpReset : cmd unit
| SmtpDataCommand : cmd unit
| SmtpWrite (message : list ascii) : cmd unit
| SmtpFinish : cmd unit
| SmtpClose : cmd unit
| Nonce : cmd (list ascii)
| Encode (d : draft) : cmd (list ascii).

Inductive reply (A : Type) :=
| Ret (a : A)
| Fail (e : mail_error)
| Panic.
Arguments Ret {A} a.
Arguments Fail {A} e.
Arguments Panic {A}.

Class MailNet (W : Type) := {
  ask : ∀ X, query X → W → W * X;
  exec : ∀ X, cmd X → W → W * reply X;
}.
Arguments ask {W _ X}.
Arguments exec {W _ X}.
Inductive event :=
| Asked {X} (q : query X) (a : X)
| Ev {X} (c : cmd X) (r : reply X).

(** The world, the commands so far with their replies, and the flag
    [phase.dispatched] of the mutation under way. *)
Record env (W : Type) := MkEnv { world : W; log : list event; dispatched : bool }.
Arguments MkEnv {W}.
Arguments world {W}.
Arguments log {W}.
Arguments dispatched {W}.
Definition Net (W A : Type) : Type := env W → env W * reply A.
#[export] Instance Net_ret {W} : MRet (Net W) := λ A a e, (e, Ret a).
#[export] Instance Net_bind {W} : MBind (Net W) := λ A B f m e,
  let '(e, r) := m e in
  match r with Ret a => f a e | Fail err => (e, Fail err) | Panic => (e, Panic) end.
Definition fail {W A} (err : mail_error) : Net W A := λ e, (e, Fail err).
Definition fail_if {W} (c : bool) (err : mail_error) : Net W unit := if c then fail err else mret tt.
Definition of_result {W A} (r : result Error A) : Net W A :=
  match r with Ok a => mret a | Err err => fail (Public err) end.
(** The error as a value. *)
Definition caught {W A} (m : Net W A) : Net W (result mail_error A) := λ e,
  let '(e, r) := m e in
  (e, match r with Ret a => Ret (Ok a) | Fail err => Ret (Err err) | Panic => Panic end).
Definition mark_dispatched {W} (b : bool) : Net W unit := λ e, (MkEnv (world e) (log e) b, Ret tt).
Definition was_dispatched {W} : Net W bool := λ e, (e, Ret (dispatched e)).

Section Client.
Context {W : Type} `{MailNet W}.

Definition call {X} (c : cmd X) : Net W X := λ e,
  let '(w, r) := exec c (world e) in (MkEnv w (log e ++ [Ev c r])%list (dispatched e), r).
Definition query_ {X} (q : query X) : Net W X := λ e,
  let '(w, a) := ask q (world e) in (MkEnv w (log e ++ [Asked q a])%list (dispatched e), Ret a).
(** A cleanup whose error and panic are dropped. *)
Definition cleanup {X} (c : cmd X) : Net W unit := λ e, ((call c e).1, Ret tt).

Definition contextError : Error := newRetryableError CodeTimeout "mail operation deadline reached".

Definition acquire (l : lane) : Net W unit :=
  got ← query_ (Acquire l);
  fail_if (negb got) (Public contextError).

(** * Sessions *)

Definition protocol_panic (ambiguous : bool) : mail_error := Imap (IA.MkError IA.ErrorProtocol ambiguous).
(** [imapAttempt]; [mutation] tells whether there is a phase. *)
Definition imapAttempt {A} (mutation : bool) (operation : Net W A) : Net W A := λ e,
  let '(e, r) := call ImapDial e in
  match r with
  | Fail err => (e, Fail err)
  | Panic => (e, Fail (protocol_panic (mutation && dispatched e)))
  | Ret _ =>
      let '(e, r) := call ImapLogin e in
      match r with
      | Fail err => let '(e, _) := cleanup ConnClose e in (e, Fail err)
      | Panic => let '(e, _) := cleanup ConnClose e in (e, Fail (protocol_panic (mutation && dispatched e)))
      | Ret _ =>
          let '(e, r) := operation e in
          match r with
          | Panic => let '(e, _) := cleanup ConnClose e in (e, Fail (protocol_panic (mutation && dispatched e)))
          | r =>
              let '(e, closed) := call ImapClose e in
              let e := match closed with Panic => (cleanup ConnClose e).1 | _ => e end in
              (e, r)
          end
      end
  end.

Definition retryableRead (err : mail_error) : Net W bool :=
  done ← query_ CtxErr;
  mret (if done : bool then false
        else match err with
             | Imap e => bool_decide (IA.Kind e = IA.ErrorUnavailable)
             | NetError _ | Eof => true
             | _ => false
             end).

Definition kind_error (k : IA.ErrorKind) : Code * string :=
  match k with
  | IA.ErrorAuthentication => (CodeAuthentication, "mail authentication was rejected")
  | IA.ErrorAuthorization => (CodeAuthorization, "mail operation was not authorized")
  | IA.ErrorNotFound => (CodeNotFound, "mail resource was not found")
  | IA.ErrorConflict => (CodeConflict, "mail operation conflicts with current state")
  | IA.ErrorRateLimited => (CodeRateLimited, "mail server rate limit reached")
  | IA.ErrorTimeout => (CodeTimeout, "mail operation deadline reached")
  | IA.ErrorUnavailable => (CodeUnavailable, "mail service is temporarily unavailable")
  | IA.ErrorTooLarge => (CodePayloadTooLarge, "mail protocol data exceeded a safety limit")
  | IA.ErrorProtocol => (CodeProtocolError, "mail server returned an unsafe or unexpected protocol response")
  end.
Definition imap_public (e : IA.Error) (mutation : bool) (reconciliation : string) : Error :=
  if mutation && IA.Ambiguous e
  then MkError CodeOutcomeUnknown "mail mutation outcome is unknown" false 0 reconciliation
  else
    let '(code, message) := kind_error (IA.Kind e) in
    if negb mutation && bool_decide (code ∈ [CodeRateLimited; CodeTimeout; CodeUnavailable])
    then newRetryableError code message else newError code message.
Definition mapIMAPError (err : mail_error) (mutation : bool) (reconciliation : string) : Net W Error :=
  match err with
  | Public e => mret e
  | Imap e => mret (imap_public e mutation reconciliation)
  | _ =>
      done ← query_ CtxErr;
      mret (if done || match err with NetError t => t | _ => false end
            then if mutation then newError CodeTimeout "mail operation deadline reached" else contextError
            else if mutation then newError CodeUnavailable "mail service is temporarily unavailable"
            else newRetryableError CodeUnavailable "mail service is temporarily unavailable")
  end.

Definition readWithSlot {A} (operation : Net W A) : Net W A :=
  acquire Reading;;
  r ← caught (imapAttempt false operation);
  cleanup (Release Reading);;
  match r with Ok a => mret a | Err err => fail err end.

(** [read]: at most two attempts. *)
Definition read_attempt {A} (operation : Net W A) (again : Net W A) (first : bool) : Net W A :=
  allowed ← query_ (Allow Reading);
  fail_if (negb allowed) (Public (newRetryableError CodeRateLimited "local mail read rate limit reached"));;
  r ← caught (readWithSlot operation);
  match r with
  | Ok a => mret a
  | Err err =>
      retry ← (if first then retryableRead err else mret false);
      if retry : bool then again
      else e ← mapIMAPError err false ""; fail (Public e)
  end.
Definition read {A} (operation : Net W A) : Net W A :=
  read_attempt operation
    (read_attempt operation (fail (Public (newError CodeInternalError "mail read failed"))) false) true.

Definition mutate {A} (enabled : bool) (reconciliation : string) (operation : Net W A) : Net W A :=
  fail_if (negb enabled) (Public (newError CodeAuthorization "mail mutation is disabled"));;
  allowed ← query_ (Allow Mutating);
  fail_if (negb allowed) (Public (newRetryableError CodeRateLimited "local mail mutation rate limit reached"));;
  acquire Mutating;;
  mark_dispatched false;;
  r ← caught (imapAttempt true operation);
  match r with
  | Ok a => cleanup (Release Mutating);; mret a
  | Err err =>
      dispatched ← was_dispatched;
      e ← mapIMAPError err dispatched reconciliation;
      cleanup (Release Mutating);;
      fail (Public e)
  end.
End Client.

(** * Reasoning about traces *)

(** What the adapter promises (its [classify] and [validatedCopyData]): session
    commands fail with adapter errors only, and a conflict is never ambiguous;
    dialing and logging in never fail with a public error. *)
Definition session_command {X} (c : cmd X) : bool :=
  match c with
  | ListBoxes | SelectBox _ _ | Search _ | FetchMetadata _ _ | FetchBodyPart _ _ | StoreDelta _ _ _
  | ConditionalStoreDelta _ _ _ _ | FetchFlags _ | NativeMove _ _ | AppendSent _ _ | CopyTo _ _ | AddDeleted _
  | UIDExpunge _ => true
  | _ => false
  end.
Definition adapter_reply {X} (c : cmd X) (r : reply X) : Prop :=
  match r with
  | Fail (Imap e) => session_command c = true → IA.Kind e = IA.ErrorConflict → IA.Ambiguous e = false
  | Fail (Public _) => match c with ImapDial | ImapLogin => False | _ => session_command c = false end
  | Fail _ => session_command c = false
  | _ => True
  end.
Definition adapter_law (W : Type) `{MailNet W} : Prop := ∀ X (c : cmd X) (w : W), adapter_reply c (exec c w).2.

(** Running [m] with the flag at [d] appends a trace [t] to the log; [Q] holds
    of the trace, the flag afterwards and the reply. *)
Definition triple {W A} (d : bool) (m : Net W A) (Q : list event → bool → reply A → Prop) : Prop :=
  ∀ w l, let '(e, r) := m (MkEnv w l d) in ∃ t, log e = (l ++ t)%list ∧ Q t (dispatched e) r.

Section Triples.
Context {W : Type} `{MailNet W}.

Lemma triple_ret {A} d (a : A) (Q : list event → bool → reply A → Prop) : Q [] d (Ret a) → triple (W:=W) d (mret a) Q.
Proof. intros HQ w l. exists []. by rewrite app_nil_r. Qed.
Lemma triple_fail {A} d err (Q : list event → bool → reply A → Prop) : Q [] d (Fail err) → triple (W:=W) d (fail err) Q.
Proof. intros HQ w l. exists []. by rewrite app_nil_r. Qed.
Lemma triple_weaken {A} d (m : Net W A) (P Q : list event → bool → reply A → Prop) :
  triple d m P → (∀ t d' r, P t d' r → Q t d' r) → triple d m Q.
Proof.
  intros Hm HPQ w l. specialize (Hm w l). destruct (m _) as [e r]. destruct Hm as (t & Hlog & HP).
  exists t. split; [done|]. by apply HPQ.
Qed.
Lemma triple_bind {A B} d (m : Net W A) (f : A → Net W B) (P : list event → bool → reply A → Prop)
    (Q : list event → bool → reply B → Prop) :
  triple d m P →
  (∀ t d1 a, P t d1 (Ret a) → triple d1 (f a) (λ t2, Q (t ++ t2)%list)) →
  (∀ t d1 err, P t d1 (Fail err) → Q t d1 (Fail err)) →
  (∀ t d1, P t d1 Panic → Q t d1 Panic) →
  triple d (m ≫= f) Q.
Proof.
  intros Hm Hf He Hp w l. specialize (Hm w l). unfold mbind, Net_bind.
  destruct (m _) as [[w1 l1 d1] [a|err|]]; destruct Hm as (t & Hlog & HP); simpl in *.
  - specialize (Hf t d1 a HP w1 l1). destruct (f a _) as [e2 r2]. destruct Hf as (t2 & Hlog2 & HQ).
    exists (t ++ t2)%list. by rewrite Hlog2, Hlog, app_assoc.
  - exists t. eauto.
  - exists t. eauto.
Qed.
Lemma triple_call {X} d (c : cmd X) (Q : list event → bool → reply X → Prop) :
  (∀ w, Q [Ev c (exec c w).2] d (exec c w).2) → triple (W:=W) d (call c) Q.
Proof.
  intros HQ w l. unfold call. simpl. specialize (HQ w). destruct (exec c w) as [w1 r]. by eexists.
Qed.
Lemma triple_query {X} d (q : query X) (Q : list event → bool → reply X → Prop) :
  (∀ a, Q [Asked q a] d (Ret a)) → triple (W:=W) d (query_ q) Q.
Proof. intros HQ w l. unfold query_. simpl. destruct (ask q w) as [w1 a]. by eexists. Qed.
Lemma triple_cleanup {X} d (c : cmd X) (Q : list event → bool → reply unit → Prop) :
  (∀ r, Q [Ev c r] d (Ret tt)) → triple (W:=W) d (cleanup c) Q.
Proof. intros HQ w l. unfold cleanup, call. simpl. destruct (exec c w) as [w1 r]. simpl. by eexists. Qed.
Lemma triple_mark d b (Q : list event → bool → reply unit → Prop) :
  Q [] b (Ret tt) → triple (W:=W) d (mark_dispatched b) Q.
Proof. intros HQ w l. exists []. by rewrite app_nil_r. Qed.
Lemma triple_was d (Q : list event → bool → reply bool → Prop) :
  Q [] d (Ret d) → triple (W:=W) d was_dispatched Q.
Proof. intros HQ w l. exists []. by rewrite app_nil_r. Qed.
Lemma triple_caught {A} d (m : Net W A) (P : list event → bool → reply A → Prop)
    (Q : list event → bool → reply (result mail_error A) → Prop) :
  triple d m P →
  (∀ t d1 a, P t d1 (Ret a) → Q t d1 (Ret (Ok a))) →
  (∀ t d1 err, P t d1 (Fail err) → Q t d1 (Ret (Err err))) →
  (∀ t d1, P t d1 Panic → Q t d1 Panic) →
  triple d (caught m) Q.
Proof.
  intros Hm Hr Hf Hp w l. specialize (Hm w l). unfold caught.
  destruct (m _) as [e [a|err|]]; destruct Hm as (t & Hlog & HP); exists t; eauto.
Qed.

Lemma triple_assoc {A B C} d (m : Net W A) (g : A → Net W B) (f : B → Net W C) (Q : list event → bool → reply C → Prop) :
  triple d (m ≫= λ a, g a ≫= f) Q → triple d ((m ≫= g) ≫= f) Q.
Proof.
  intros Hm w l. specialize (Hm w l). unfold mbind, Net_bind in *.
  by destruct (m _) as [e [a|err|]].
Qed.

(** One statement followed by the rest. *)
Context {A : Type} (d : bool) (Q : list event → bool → reply A → Prop).
Lemma triple_query_bind {X} (q : query X) f :
  (∀ a, triple d (f a) (λ t, Q (Asked q a :: t))) → triple (W:=W) d (query_ q ≫= f) Q.
Proof.
  intros Hf w l. unfold mbind, Net_bind, query_. simpl. destruct (ask q w) as [w1 a].
  specialize (Hf a w1 (l ++ [Asked q a])%list). destruct (f a _) as [e r]. destruct Hf as (t & -> & HQ).
  exists (Asked q a :: t). by rewrite <-app_assoc.
Qed.
Lemma triple_cleanup_bind {X} (c : cmd X) f :
  (∀ r, triple d (f tt) (λ t, Q (Ev c r :: t))) → triple (W:=W) d (cleanup c ≫= f) Q.
Proof.
  intros Hf w l. unfold mbind, Net_bind, cleanup, call. simpl. destruct (exec c w) as [w1 r]. simpl.
  specialize (Hf r w1 (l ++ [Ev c r])%list). destruct (f tt _) as [e r1]. destruct Hf as (t & -> & HQ).
  exists (Ev c r :: t). by rewrite <-app_assoc.
Qed.
Lemma triple_mark_bind b f : triple b (f tt) Q → triple (W:=W) d (mark_dispatched b ≫= f) Q.
Proof. intros Hf w l. apply Hf. Qed.
Lemma triple_was_bind f : triple d (f d) Q → triple (W:=W) d (was_dispatched ≫= f) Q.
Proof. intros Hf w l. apply Hf. Qed.
Lemma triple_fail_if_bind c err f :
  (c = true → Q [] d (Fail err)) → (c = false → triple d (f tt) Q) → triple (W:=W) d (fail_if c err ≫= f) Q.
Proof. destruct c; intros Ht Hf; [by apply triple_fail, Ht|intros w l; by apply Hf]. Qed.
Lemma triple_of_result_bind {X} (r : result Error X) f :
  (∀ e, r = Err e → Q [] d (Fail (Public e))) → (∀ a, r = Ok a → triple d (f a) Q) →
  triple (W:=W) d (of_result r ≫= f) Q.
Proof. destruct r as [a|e]; intros He Hf; [intros w l; by apply Hf|by apply triple_fail, He]. Qed.
(** What follows a command, for each reply. *)
Definition after {X} (c : cmd X) (r : reply X) (f : X → Net W A) : Prop :=
  match r with
  | Ret a => triple d (f a) (λ t, Q (Ev c r :: t))
  | Fail err => Q [Ev c r] d (Fail err)
  | Panic => Q [Ev c r] d Panic
  end.
Lemma triple_call_bind {X} (c : cmd X) f :
  (∀ w, after c (exec c w).2 f) → triple (W:=W) d (call c ≫= f) Q.
Proof.
  intros Hf w l. specialize (Hf w). unfold mbind, Net_bind, call. simpl. destruct (exec c w) as [w1 r]. simpl in *.
  destruct r as [a|err|]; simpl in Hf; [|by eexists..].
  specialize (Hf w1 (l ++ [Ev c (Ret a)])%list). destruct (f a _) as [e r1]. destruct Hf as (t & -> & HQ).
  exists (Ev c (Ret a) :: t). by rewrite <-app_assoc.
Qed.
Lemma triple_try_bind {X} (c : cmd X) (f : result mail_error X → Net W A) :
  (∀ w, match (exec c w).2 with
        | Ret a => triple d (f (Ok a)) (λ t, Q (Ev c (Ret a) :: t))
        | Fail err => triple d (f (Err err)) (λ t, Q (Ev c (Fail err) :: t))
        | Panic => Q [Ev c Panic] d Panic
        end) → triple (W:=W) d (caught (call c) ≫= f) Q.
Proof.
  intros Hf w l. specialize (Hf w). unfold mbind, Net_bind, caught, call. simpl. destruct (exec c w) as [w1 r]. simpl in *.
  destruct r as [a|err|]; [| |by eexists].
  - specialize (Hf w1 (l ++ [Ev c (Ret a)])%list). destruct (f (Ok a) _) as [e r1]. destruct Hf as (t & -> & HQ).
    exists (Ev c (Ret a) :: t). by rewrite <-app_assoc.
  - specialize (Hf w1 (l ++ [Ev c (Fail err)])%list). destruct (f (Err err) _) as [e r1]. destruct Hf as (t & -> & HQ).
    exists (Ev c (Fail err) :: t). by rewrite <-app_assoc.
Qed.
End Triples.

(** * Honest mutations *)

(** The commands that change a mailbox. *)
Definition mutates {X} (c : cmd X) : bool :=
  match c with
  | StoreDelta _ _ _ | ConditionalStoreDelta _ _ _ _ | NativeMove _ _ | CopyTo _ _ | AddDeleted _ | UIDExpunge _ => true
  | _ => false
  end.
Definition mutating (ev : event) : bool := match ev with Ev c _ => mutates c | Asked _ _ => false end.
Definition muts (t : list event) : list event := List.filter mutating t.
Definition definite (ev : event) : bool := match ev with Ev _ (Fail (Imap e)) => negb (IA.Ambiguous e) | _ => false end.
Definition succeeded (ev : event) : bool := match ev with Ev _ (Ret _) => true | _ => false end.
Definition nonempty {A} (l : list A) : bool := match l with [] => false | _ => true end.

(** A reported failure: the codes that leave the outcome open only after a
    mutating command; any other code only when every mutating command was
    definitely refused. *)
Definition uncertain (e : Error) : Prop := ErrCode e ∈ [CodeOutcomeUnknown; CodePartialFailure].
#[export] Instance uncertain_dec e : Decision (uncertain e).
Proof. unfold uncertain. apply _. Defined.
Definition failure_ok (e : Error) (ms : list event) : Prop :=
  if decide (uncertain e) then ms ≠ [] else Forall (λ ev, definite ev = true) ms.
Definition success_ok (ms : list event) : Prop := ms ≠ [] ∧ Forall (λ ev, succeeded ev = true) ms.

Lemma muts_app t1 t2 : muts (t1 ++ t2) = (muts t1 ++ muts t2)%list.
Proof. apply List.filter_app. Qed.
Lemma failure_ok_nil e : ¬ uncertain e → failure_ok e [].
Proof. intros Hn. unfold failure_ok. rewrite decide_False by done. constructor. Qed.

(** The code of a literal error is none of the uncertain ones. *)
Ltac certain := apply (bool_decide_unpack _); vm_compute; exact I.

Section Honest.
Context {W : Type} `{MailNet W} (law : adapter_law W).
(** The sequences of mutating commands an operation may issue. *)
Context (S : list event → Prop) (S_nil : S []).

(** What an operation run inside [mutate] guarantees. *)
Definition op_ok {A} (t : list event) (d : bool) (r : reply A) : Prop :=
  S (muts t) ∧ d = nonempty (muts t) ∧
  match r with
  | Ret _ => success_ok (muts t)
  | Fail (Public e) => failure_ok e (muts t)
  | Fail (Imap _) => muts t = []
  | Fail _ => False
  | Panic => True
  end.
Definition honest {A} (m : Net W A) : Prop := triple false m op_ok.
(** A computation that changes nothing. *)
Definition quiet_reply {A} (r : reply A) : Prop :=
  match r with Fail (Public e) => ¬ uncertain e | Fail (Imap _) => True | Fail _ => False | _ => True end.
Definition quiet {A} (m : Net W A) : Prop := triple false m (λ t d r, muts t = [] ∧ d = false ∧ quiet_reply r).

Lemma quiet_call {X} (c : cmd X) : session_command c = true → mutates c = false → quiet (call c).
Proof.
  intros Hs Hm. apply triple_call. intros w. pose proof (law _ c w) as Hl. unfold muts. simpl. rewrite Hm.
  split_and!; [done|done|]. unfold adapter_reply in Hl. destruct (exec c w).2 as [a|[]|]; simpl; try done; try congruence.
  destruct c; done.
Qed.
Lemma quiet_query {X} (q : query X) : quiet (query_ q).
Proof. by apply triple_query. Qed.
Lemma quiet_ret {A} (a : A) : quiet (mret a).
Proof. by apply triple_ret. Qed.
Lemma quiet_fail {A} err : match err with Public e => ¬ uncertain e | Imap _ => True | _ => False end →
  quiet (fail (A:=A) err).
Proof. intros Hq. by apply triple_fail. Qed.
Lemma quiet_fail_if (c : bool) err : match err with Public e => ¬ uncertain e | Imap _ => True | _ => False end →
  quiet (fail_if c err).
Proof. intros Hq. destruct c; [by apply quiet_fail|by apply quiet_ret]. Qed.
Lemma quiet_bind {A B} (m : Net W A) (f : A → Net W B) : quiet m → (∀ a, quiet (f a)) → quiet (m ≫= f).
Proof.
  intros Hm Hf. eapply triple_bind; [exact Hm| |done|done].
  intros t d1 a (Ht & -> & _). eapply triple_weaken; [apply Hf|].
  intros t2 d2 r (Ht2 & -> & Hr). by rewrite muts_app, Ht, Ht2.
Qed.
Lemma honest_bind {A B} (m : Net W A) (f : A → Net W B) : quiet m → (∀ a, honest (f a)) → honest (m ≫= f).
Proof.
  intros Hm Hf. eapply triple_bind; [exact Hm| | |].
  - intros t d1 a (Ht & -> & _). eapply triple_weaken; [apply Hf|].
    intros t2 d2 r Hop. unfold op_ok in *. by rewrite muts_app, Ht.
  - intros t d1 err (Ht & -> & Hq). unfold op_ok. rewrite Ht. split_and!; [done|done|].
    destruct err; try done. by apply failure_ok_nil.
  - intros t d1 (Ht & -> & _). unfold op_ok. by rewrite Ht.
Qed.
Lemma honest_fail {A} e : ¬ uncertain e → honest (fail (A:=A) (Public e)).
Proof. intros Hn. apply triple_fail. split_and!; [done|done|]. by apply failure_ok_nil. Qed.

(** ** From the operation to the public result *)

Definition attempt_ok {A} (t : list event) (d : bool) (r : reply A) : Prop :=
  S (muts t) ∧ d = nonempty (muts t) ∧
  match r with
  | Ret _ => success_ok (muts t)
  | Fail (Public e) => failure_ok e (muts t)
  | Fail (Imap e) => muts t ≠ [] → IA.Ambiguous e = true
  | Fail _ => muts t = []
  | Panic => False
  end.
Lemma attempt_same {A} t t' d (r : reply A) : muts t' = muts t → attempt_ok t d r → attempt_ok t' d r.
Proof. unfold attempt_ok. by intros ->. Qed.
Lemma attempt_early {A} t err : muts t = [] → match err with Public e => ¬ uncertain e | _ => True end →
  attempt_ok t false (Fail (A:=A) err).
Proof. intros Ht Hu. unfold attempt_ok. rewrite Ht. split_and!; [done|done|]. destruct err; try done. by apply failure_ok_nil. Qed.
Lemma imapAttempt_ok {A} (op : Net W A) : honest op → triple false (imapAttempt true op) attempt_ok.
Proof.
  intros Hop w l. unfold imapAttempt, call. simpl. pose proof (law _ ImapDial w) as Hdial.
  destruct (exec ImapDial w) as [w1 [[]|err|]]; simpl in *.
  2: { eexists. split; [done|]. apply attempt_early; [done|]. by destruct err. }
  2: { eexists. split; [done|]. by apply attempt_early. }
  pose proof (law _ ImapLogin w1) as Hlogin.
  destruct (exec ImapLogin w1) as [w2 [[]|err|]]; simpl in *.
  2: { unfold call. simpl. destruct (exec ConnClose w2) as [w3 r3]. simpl. rewrite <-!app_assoc. eexists. split; [done|].
       apply attempt_early; [done|]. by destruct err. }
  2: { unfold call. simpl. destruct (exec ConnClose w2) as [w3 r3]. simpl. rewrite <-!app_assoc. eexists. split; [done|]. by apply attempt_early. }
  specialize (Hop w2 ((l ++ [Ev ImapDial (Ret ())]) ++ [Ev ImapLogin (Ret ())])%list).
  destruct (op _) as [e r]. destruct Hop as (t & Hlog & HS & Hd & Hr).
  assert (∀ tail, muts tail = [] → ∀ r : reply A, attempt_ok t (dispatched e) r →
    attempt_ok (Ev ImapDial (Ret ()) :: Ev ImapLogin (Ret ()) :: t ++ tail) (dispatched e) r) as Hsame.
  { intros tail Htail r0. apply attempt_same. unfold muts in *. simpl. by rewrite List.filter_app, Htail, app_nil_r. }
  assert (r ≠ Panic → ∃ t0, log (let '(e, closed) := call ImapClose e in
      match closed with Panic => (cleanup ConnClose e).1 | _ => e end) = (l ++ t0)%list ∧
      attempt_ok t0 (dispatched (let '(e, closed) := call ImapClose e in
      match closed with Panic => (cleanup ConnClose e).1 | _ => e end)) r) as Hclose.
  { intros Hp. unfold cleanup, call. simpl. rewrite Hlog, <-!app_assoc.
    assert (attempt_ok t (dispatched e) r) as Hok.
    { unfold attempt_ok. split_and!; [done|done|]. destruct r as [a|[]|]; naive_solver. }
    destruct (exec ImapClose (world e)) as [w3 [?|?|]]; simpl; [| |destruct (exec ConnClose w3) as [w4 r4]; simpl];
      rewrite <-!app_assoc; simpl; rewrite <-?app_assoc; (eexists; split; [reflexivity|apply Hsame; [reflexivity|exact Hok]]). }
  destruct r as [a|err|].
  - specialize (Hclose ltac:(done)). unfold call in *. by destruct (exec ImapClose (world e)) as [w3 c3].
  - specialize (Hclose ltac:(done)). unfold call in *. by destruct (exec ImapClose (world e)) as [w3 c3].
  - unfold cleanup, call. simpl. destruct (exec ConnClose (world e)) as [w3 r3]. simpl. rewrite Hlog, <-!app_assoc. simpl.
    eexists. split; [done|]. apply Hsame; [done|]. unfold attempt_ok. split_and!; [done|done|].
    simpl. intros Hne. rewrite Hd. by destruct (muts t).
Qed.

(** What a caller of a mutation sees. *)
Definition outcome_ok {A} (t : list event) (r : reply A) : Prop :=
  S (muts t) ∧
  match r with
  | Ret _ => success_ok (muts t)
  | Fail (Public e) => failure_ok e (muts t)
  | _ => False
  end.
Lemma imap_public_certain e rec : ¬ uncertain (imap_public e false rec).
Proof. destruct e as [[] a]; apply (bool_decide_unpack _); vm_compute; exact I. Qed.
Lemma imap_public_unknown e rec : IA.Ambiguous e = true → uncertain (imap_public e true rec).
Proof. unfold uncertain, imap_public. intros ->. left. Qed.

(** The public error [mapIMAPError] chooses. *)
Definition mapped (err : mail_error) (b : bool) (rec : string) (e : Error) : Prop :=
  match err with Public e' => e = e' | Imap i => e = imap_public i b rec | _ => ¬ uncertain e end.
Lemma mapIMAPError_bind {A} d err b rec f (Q : list event → bool → reply A → Prop) :
  (∀ t e, muts t = [] → mapped err b rec e → triple d (f e) (λ t2, Q (t ++ t2)%list)) →
  triple (W:=W) d (mapIMAPError err b rec ≫= f) Q.
Proof.
  intros Hf. unfold mapIMAPError.
  assert (∀ e, mapped err b rec e → triple d (mret e ≫= f) Q) as Hret.
  { intros e He. eapply triple_weaken; [by apply (Hf [] e)|done]. }
  destruct err as [e|i|e|tmo| |]; [by apply Hret|by apply Hret| | | |];
    (apply triple_assoc, triple_query_bind; intros ended; eapply (Hf [Asked CtxErr ended]); [done|];
     destruct b, ended; simpl; try destruct tmo; simpl; certain).
Qed.
(** The rest of [mutate] after the attempt. *)
Definition report {A} (rec : string) (r : result mail_error A) : Net W A :=
  match r with
  | Ok a => cleanup (Release Mutating);; mret a
  | Err err =>
      dispatched ← was_dispatched;
      e ← mapIMAPError err dispatched rec;
      cleanup (Release Mutating);;
      fail (Public e)
  end.
Lemma report_ok {A} rec (r : result mail_error A) t d :
  attempt_ok t d (match r with Ok a => Ret a | Err err => Fail err end) →
  triple d (report rec r) (λ t2 _ r, outcome_ok (t ++ t2) r).
Proof.
  intros (HS & -> & Hr). unfold outcome_ok. destruct r as [a|err]; simpl in *.
  - apply triple_cleanup_bind. intros r. apply triple_ret. by rewrite muts_app, app_nil_r.
  - apply triple_was_bind, mapIMAPError_bind. intros t2 e Ht2 He.
    apply triple_cleanup_bind. intros r. apply triple_fail. rewrite !muts_app, Ht2, app_nil_r. split; [done|].
    destruct err as [e'|i|?|?| |]; simpl in *; subst; [done| |rewrite Hr in *; by apply failure_ok_nil..].
    destruct (muts t) as [|ev ms] eqn:Hms; simpl.
    + apply failure_ok_nil, imap_public_certain.
    + unfold failure_ok. rewrite decide_True; [done|]. apply imap_public_unknown, Hr. done.
Qed.
Lemma mutate_ok {A} d enabled rec (op : Net W A) : honest op →
  triple d (mutate enabled rec op) (λ t _ r, outcome_ok t r).
Proof.
  intros Hop.
  assert (∀ t e, muts t = [] → ¬ uncertain e → outcome_ok t (Fail (A:=A) (Public e))) as Hearly.
  { intros t e Ht He. unfold outcome_ok. rewrite Ht. split; [done|]. by apply failure_ok_nil. }
  unfold mutate. apply triple_fail_if_bind; [intros _; apply Hearly; [done|certain]|intros _].
  apply triple_query_bind. intros allowed.
  apply triple_fail_if_bind; [intros _; apply Hearly; [done|certain]|intros _].
  eapply (triple_bind _ _ _ (λ t d' r, muts t = [] ∧ match r with Ret _ => True | Fail err => err = Public contextError | Panic => False end)).
  { apply triple_query_bind. intros got. destruct got; [by apply triple_ret|by apply triple_fail]. }
  2: { intros t d1 err [Ht ->]. apply Hearly; [done|certain]. }
  2: { by intros t d1 []. }
  intros t d1 [] [Ht _]. apply triple_mark_bind.
  eapply triple_bind; [eapply (triple_caught _ _ _ (λ t d r, match r with
      | Ret r => attempt_ok t d (match r with Ok a => Ret a | Err err => Fail err end) | _ => False end));
      [by apply imapAttempt_ok|done|done|by intros ?? (_ & _ & [])]| |done|done].
  intros t2 d2 r Hr. eapply triple_weaken; [by apply (report_ok rec), Hr|].
  intros t3 d3 r3. unfold outcome_ok. change (Asked ?q ?a :: ?l)%list with ([Asked q a] ++ l)%list.
  by rewrite !muts_app, Ht.
Qed.
End Honest.

(** * The values a computation can return *)

Definition gives {W A} (m : Net W A) (P : A → Prop) : Prop := ∀ e e' a, m e = (e', Ret a) → P a.
Section Gives.
Context {W : Type} `{MailNet W}.

Lemma gives_ret {A} (a : A) (P : A → Prop) : P a → gives (W:=W) (mret a) P.
Proof. by intros HP e e' a' [= _ <-]. Qed.
Lemma gives_fail {A} err (P : A → Prop) : gives (W:=W) (fail err) P.
Proof. by intros e e' a. Qed.
Lemma gives_bind {A B} (m : Net W A) (f : A → Net W B) (P : A → Prop) (Q : B → Prop) :
  gives m P → (∀ a, P a → gives (f a) Q) → gives (m ≫= f) Q.
Proof.
  intros Hm Hf e e' b. unfold mbind, Net_bind. destruct (m e) as [e1 [a|err|]] eqn:He; [|done..].
  by apply Hf, (Hm e e1).
Qed.
Lemma gives_any {A} (m : Net W A) : gives m (λ _, True).
Proof. done. Qed.
Lemma gives_weaken {A} (m : Net W A) (P Q : A → Prop) : gives m P → (∀ a, P a → Q a) → gives m Q.
Proof. intros Hm HPQ e e' a Ha. by eapply HPQ, Hm. Qed.
Lemma gives_call {X} (c : cmd X) (P : X → Prop) : (∀ w a, (exec c w).2 = Ret a → P a) → gives (W:=W) (call c) P.
Proof. intros HP e e' a. unfold call. destruct (exec c (world e)) as [w r] eqn:He. intros [= _ ->]. apply (HP (world e)). by rewrite He. Qed.
Lemma gives_fail_if (c : bool) err : gives (W:=W) (fail_if c err) (λ _, c = false).
Proof. destruct c; [apply gives_fail|by apply gives_ret]. Qed.
Lemma gives_of_result {A} (r : result Error A) : gives (W:=W) (of_result r) (λ a, r = Ok a).
Proof. destruct r; [by apply gives_ret|apply gives_fail]. Qed.
Lemma gives_caught {A} (m : Net W A) (P : A → Prop) :
  gives m P → gives (caught m) (λ r, match r with Ok a => P a | Err _ => True end).
Proof. intros Hm e e' r. unfold caught. destruct (m e) as [e1 [a|err|]] eqn:He; intros [= _ <-]; [by eapply Hm|done]. Qed.
Lemma gives_imapAttempt {A} b (m : Net W A) (P : A → Prop) : gives m P → gives (imapAttempt b m) P.
Proof.
  intros Hm e e' a. unfold imapAttempt.
  destruct (call ImapDial e) as [e1 [?|?|]]; [|done..]. destruct (call ImapLogin e1) as [e2 [?|?|]]; [|done..].
  destruct (m e2) as [e3 [a'|err|]] eqn:He; [|by destruct (call ImapClose e3)|done].
  destruct (call ImapClose e3). intros [= _ <-]. by eapply Hm.
Qed.
Lemma gives_slot {A} (m : Net W A) (P : A → Prop) : gives m P → gives (readWithSlot m) P.
Proof.
  intros Hm. eapply gives_bind; [apply gives_any|intros _ _].
  eapply gives_bind; [apply gives_caught, gives_imapAttempt, Hm|intros r Hr].
  eapply gives_bind; [apply gives_any|intros _ _]. destruct r; [by apply gives_ret|apply gives_fail].
Qed.
Lemma gives_read {A} (m : Net W A) (P : A → Prop) : gives m P → gives (read m) P.
Proof.
  intros Hm.
  assert (∀ again b, gives again P → gives (read_attempt m again b) P) as Hatt.
  { intros again b Hagain. eapply gives_bind; [apply gives_any|intros allowed _].
    eapply gives_bind; [apply gives_any|intros _ _].
    eapply gives_bind; [apply gives_caught, gives_slot, Hm|intros [a|err] Hr; [by apply gives_ret|]].
    eapply gives_bind; [apply gives_any|intros [] _]; [done|].
    eapply gives_bind; [apply gives_any|intros e _; apply gives_fail]. }
  apply Hatt, Hatt, gives_fail.
Qed.
Lemma gives_mutate {A} enabled rec (m : Net W A) (P : A → Prop) : gives m P → gives (mutate enabled rec m) P.
Proof.
  intros Hm. do 4 (eapply gives_bind; [apply gives_any|intros ? _]). 
  eapply gives_bind; [apply gives_any|intros ? _].
  eapply gives_bind; [apply gives_caught, gives_imapAttempt, Hm|intros [v|err] Hr].
  - eapply gives_bind; [apply gives_any|intros ? _]. by apply gives_ret.
  - do 3 (eapply gives_bind; [apply gives_any|intros ? _]). apply gives_fail.
Qed.
End Gives.

(** * The trace behind a returned value *)

(** [m] only adds to the log; [P] holds of what it added and of the value it
    returns. *)
Definition traced {W A} (m : Net W A) (P : list event → A → Prop) : Prop :=
  ∀ e, ∃ t, log (m e).1 = (log e ++ t)%list ∧ ∀ a, (m e).2 = Ret a → P t a.
(** [P] holds of one part of a longer trace. *)
Definition within {A} (P : list event → A → Prop) (t : list event) (a : A) : Prop :=
  ∃ before s after, t = (before ++ s ++ after)%list ∧ P s a.
Section Traced.
Context {W : Type} `{MailNet W}.

Lemma within_ext {A} (P : list event → A → Prop) t1 t t2 a : within P t a → within P (t1 ++ t ++ t2)%list a.
Proof. intros (b & s & c & -> & HP). exists (t1 ++ b)%list, s, (c ++ t2)%list. by rewrite <-!app_assoc. Qed.
Lemma traced_weaken {A} (m : Net W A) (P Q : list event → A → Prop) :
  traced m P → (∀ t a, P t a → Q t a) → traced m Q.
Proof. intros Hm HPQ e. destruct (Hm e) as (t & Hl & HP). exists t. auto. Qed.
Lemma traced_ret {A} (a : A) (P : list event → A → Prop) : P [] a → traced (W:=W) (mret a) P.
Proof. intros HP e. exists []. simpl. rewrite app_nil_r. split; [done|]. by intros a' [= <-]. Qed.
Lemma traced_fail {A} err (P : list event → A → Prop) : traced (W:=W) (fail err) P.
Proof. intros e. exists []. simpl. by rewrite app_nil_r. Qed.
Lemma traced_fail_if (c : bool) err : traced (W:=W) (fail_if c err) (λ t _, t = [] ∧ c = false).
Proof. destruct c; [apply traced_fail|by apply traced_ret]. Qed.
Lemma traced_call {X} (c : cmd X) : traced (W:=W) (call c) (λ t a, t = [Ev c (Ret a)]).
Proof. intros e. unfold call. destruct (exec c (world e)) as [w r]. simpl. eexists. split; [done|]. by intros a ->. Qed.
Lemma traced_query {X} (q : query X) : traced (W:=W) (query_ q) (λ t a, t = [Asked q a]).
Proof. intros e. unfold query_. destruct (ask q (world e)) as [w a]. simpl. eexists. split; [done|]. by intros a' [= <-]. Qed.
Lemma traced_cleanup {X} (c : cmd X) : traced (W:=W) (cleanup c) (λ _ _, True).
Proof. intros e. unfold cleanup. destruct (traced_call c e) as (t & Hl & _). by exists t. Qed.
Lemma traced_bind {A B} (m : Net W A) (f : A → Net W B) (P : list event → A → Prop) (Q : list event → B → Prop) :
  traced m P → (∀ t a, P t a → traced (f a) (λ t2, Q (t ++ t2)%list)) → traced (m ≫= f) Q.
Proof.
  intros Hm Hf e. unfold mbind, Net_bind. destruct (Hm e) as (t & Hl & HP).
  destruct (m e) as [e1 [a|err|]]; simpl in *; [|by exists t..].
  destruct (Hf t a (HP a eq_refl) e1) as (t2 & Hl2 & HQ). exists (t ++ t2)%list. by rewrite Hl2, Hl, app_assoc.
Qed.
Lemma traced_caught {A} (m : Net W A) (P : list event → A → Prop) :
  traced m P → traced (caught m) (λ t r, match r with Ok a => P t a | Err _ => True end).
Proof.
  intros Hm e. unfold caught. destruct (Hm e) as (t & Hl & HP). exists t. destruct (m e) as [e1 [a|err|]]; simpl in *;
    (split; [done|]); [intros r [= <-]; by apply HP|by intros r [= <-]|done].
Qed.
Lemma traced_imapAttempt {A} b (m : Net W A) (P : list event → A → Prop) :
  traced m P → traced (imapAttempt b m) (within P).
Proof.
  intros Hm e. unfold imapAttempt, cleanup. destruct (traced_call ImapDial e) as (t1 & Hl1 & _).
  destruct (call ImapDial e) as [e1 [?|?|]]; simpl in *; [|by exists t1..].
  destruct (traced_call ImapLogin e1) as (t2 & Hl2 & _). destruct (call ImapLogin e1) as [e2 [?|?|]]; simpl in *.
  - destruct (Hm e2) as (t3 & Hl3 & HP). destruct (m e2) as [e3 r]; simpl in *.
    assert (∃ t, log (let '(e, closed) := call ImapClose e3 in
        match closed with Panic => (cleanup ConnClose e).1 | _ => e end) = (log e3 ++ t)%list) as [t4 Hl4].
    { destruct (traced_call ImapClose e3) as (t4 & Hl4 & _). destruct (call ImapClose e3) as [e4 [?|?|]]; simpl in *; [by exists t4..|].
      destruct (traced_call ConnClose e4) as (t5 & Hl5 & _). unfold cleanup. exists (t4 ++ t5)%list.
      simpl. by rewrite Hl5, Hl4, app_assoc. }
    destruct r as [v|er|].
    + exists (t1 ++ t2 ++ t3 ++ t4)%list. destruct (call ImapClose e3) as [e4 closed]; simpl in *.
      rewrite Hl4, Hl3, Hl2, Hl1, !app_assoc. split; [done|]. intros a' [= <-].
      exists (t1 ++ t2)%list, t3, t4. rewrite <-!app_assoc. auto.
    + exists (t1 ++ t2 ++ t3 ++ t4)%list. destruct (call ImapClose e3) as [e4 closed]; simpl in *.
      by rewrite Hl4, Hl3, Hl2, Hl1, !app_assoc.
    + destruct (traced_call ConnClose e3) as (t5 & Hl5 & _). destruct (call ConnClose e3) as [e5 ?]; simpl in *.
      exists (t1 ++ t2 ++ t3 ++ t5)%list. by rewrite Hl5, Hl3, Hl2, Hl1, !app_assoc.
  - destruct (traced_call ConnClose e2) as (t3 & Hl3 & _). destruct (call ConnClose e2) as [e3 ?]; simpl in *.
    exists (t1 ++ t2 ++ t3)%list. by rewrite Hl3, Hl2, Hl1, !app_assoc.
  - destruct (traced_call ConnClose e2) as (t3 & Hl3 & _). destruct (call ConnClose e2) as [e3 ?]; simpl in *.
    exists (t1 ++ t2 ++ t3)%list. by rewrite Hl3, Hl2, Hl1, !app_assoc.
Qed.
Lemma traced_any_bind {A B} (m : Net W A) (f : A → Net W B) (P : list event → B → Prop) :
  traced m (λ _ _, True) → (∀ a, traced (f a) (within P)) → traced (m ≫= f) (within P).
Proof.
  intros Hm Hf. eapply traced_bind; [exact Hm|]. intros t a _. eapply traced_weaken; [apply Hf|].
  intros t2 b Hw. by apply (within_ext P t t2 []) in Hw; rewrite app_nil_r in Hw.
Qed.
Lemma traced_true {A} (m : Net W A) (P : list event → A → Prop) : traced m P → traced m (λ _ _, True).
Proof. intros Hm. by eapply traced_weaken. Qed.
Lemma traced_slot {A} (m : Net W A) (P : list event → A → Prop) : traced m P → traced (readWithSlot m) (within P).
Proof.
  intros Hm. unfold readWithSlot. apply traced_any_bind.
  { unfold acquire. eapply traced_bind; [apply traced_query|]. intros t got _. by eapply traced_weaken; [apply traced_fail_if|]. }
  intros _. eapply traced_bind; [apply traced_caught, traced_imapAttempt, Hm|]. intros t r Hr.
  eapply traced_bind; [apply traced_cleanup|]. intros t2 _ _. destruct r as [a|err]; [|apply traced_fail].
  apply traced_ret. rewrite app_nil_r. by apply (within_ext P [] t t2 a).
Qed.
Lemma traced_read {A} (m : Net W A) (P : list event → A → Prop) : traced m P → traced (read m) (within P).
Proof.
  intros Hm.
  assert (∀ again b, traced again (within P) → traced (read_attempt m again b) (within P)) as Hatt.
  { intros again b Hagain. unfold read_attempt. apply traced_any_bind; [eapply traced_true, traced_query|intros allowed].
    apply traced_any_bind; [eapply traced_true, traced_fail_if|intros _].
    eapply traced_bind; [apply traced_caught, traced_slot, Hm|]. intros t [a|err] Hr; [apply traced_ret; by rewrite app_nil_r|].
    eapply traced_weaken; [apply (traced_any_bind _ _ P)|intros t2 a Hw; by apply (within_ext P t t2 []) in Hw; rewrite app_nil_r in Hw].
    - destruct b; [|by apply traced_ret]. unfold retryableRead. eapply traced_bind; [apply traced_query|]. intros. by apply traced_ret.
    - intros []; [done|]. apply traced_any_bind; [|intros; apply traced_fail]. unfold mapIMAPError.
      destruct err; [by apply traced_ret|by apply traced_ret|..];
        (eapply traced_bind; [apply traced_query|]; intros; by apply traced_ret). }
  apply Hatt, Hatt, traced_fail.
Qed.
End Traced.
