(* ===== verification/MailMutation.v ===== *)
(** Changing a mailbox (src/internal/mail/mutation.go): flags, moves and the
    Trash, each in one session and never sent twice. *)
From S2P Require Import Prelude GoStrings GoTime NetMail MailTypes MailValidation ImapAdapter MailClient.
Import MT.

(** * Flags *)

Definition protocolFlag (flag : MessageFlag) : string :=
  match flag with FlagSeen => "\Seen" | FlagFlagged => "\Flagged" | FlagAnswered => "\Answered" end.
Definition protocolFlags (flags : list MessageFlag) : list string := map protocolFlag flags.

Definition flag_name (flag : MessageFlag) : string :=
  match flag with FlagSeen => "seen" | FlagFlagged => "flagged" | FlagAnswered => "answered" end.
Definition publicFlag `{UnicodeTables} (flag : string) : list MessageFlag :=
  let u := to_upper flag in
  if decide (u = "\SEEN") then [FlagSeen]
  else if decide (u = "\FLAGGED") then [FlagFlagged]
  else if decide (u = "\ANSWERED") then [FlagAnswered] else [].
Definition publicFlags `{UnicodeTables} (l : list string) : list MessageFlag :=
  stable_sort (λ a b, string_ltb (flag_name a) (flag_name b)) (concat (map publicFlag l)).

(** * Mailboxes *)

Definition has_attribute (attribute : string) (m : IA.Mailbox) : bool :=
  existsb (λ a, equal_fold a attribute) (IA.Attributes m).
Definition isSelectable (m : IA.Mailbox) : bool :=
  negb (existsb (λ a, equal_fold a "\Noselect" || equal_fold a "\NonExistent") (IA.Attributes m)).
Definition selectableMailbox (mailboxes : list IA.Mailbox) (name : string) : bool :=
  zlen (List.filter (λ m, bool_decide (IA.Name m = name) && isSelectable m) mailboxes) =? 1.
Definition specialUseDeletionMailbox (mailboxes : list IA.Mailbox) (name : string) : bool :=
  existsb (λ m, bool_decide (IA.Name m = name) && (has_attribute "\Trash" m || has_attribute "\Junk" m)) mailboxes.
Definition trash_mailboxes (mailboxes : list IA.Mailbox) : list string :=
  map IA.Name (List.filter (λ m, isSelectable m && has_attribute "\Trash" m) mailboxes).

(** * Operations *)

Section Operations.
Context {W : Type} `{MailNet W, UnicodeTables}.

Definition flags_reconciliation : string := "Re-read the message flags before deciding whether to retry.".
Definition move_reconciliation : string :=
  "Check both source and destination before deciding whether to move again.".

(** A failed mutating command, as the operation reports it. *)
Definition mutation_failed {A} (err : mail_error) (reconciliation : string) : Net W A :=
  e ← mapIMAPError err true reconciliation; fail (Public e).

Definition select_for_change (mailbox : string) (uidValidity uid : Z) (message : string) : Net W unit :=
  selected ← call (SelectBox mailbox false);
  fail_if (negb (IA.UIDValidity selected =? uidValidity))
    (Public (newError CodeConcurrentModification message));;
  call (FetchFlags uid);;
  mret tt.

Definition conditional_store (input : SetFlagsInput) (flags : list string) : Net W SetFlagsResult :=
  fail_if (ExpectedModSeq input =? 0)
    (Public (validationError "expected_modseq is required when CONDSTORE is available"));;
  supported ← query_ SupportsConditionalStore;
  fail_if (negb supported)
    (Public (newError CodeProtocolError "conditional flag mutation is unavailable because the adapter cannot validate MODIFIED or the returned FETCH state"));;
  mark_dispatched true;;
  r ← caught (call (ConditionalStoreDelta (SfUID input) (bool_decide (Operation input = FlagOperationAdd))
                      flags (ExpectedModSeq input)));
  match r with
  | Ok updated =>
      mret (MkSetFlagsResult (SfMailbox input) (SfUIDValidity input) (SfUID input)
              (publicFlags (IA.Flags updated)) (IA.ModSeq updated) true false)
  | Err err =>
      if match err with Imap e => bool_decide (IA.Kind e = IA.ErrorConflict) | _ => false end
      then fail (Public (newError CodeConcurrentModification
             "mail message changed since the expected MODSEQ; re-read before mutating"))
      else mutation_failed err flags_reconciliation
  end.
Definition plain_store (input : SetFlagsInput) (flags : list string) : Net W SetFlagsResult :=
  mark_dispatched true;;
  r ← caught (call (StoreDelta (SfUID input) (bool_decide (Operation input = FlagOperationAdd)) flags));
  match r with
  | Err err => mutation_failed err flags_reconciliation
  | Ok _ =>
      updated ← caught (call (FetchFlags (SfUID input)));
      mret (match updated with
            | Err _ => MkSetFlagsResult (SfMailbox input) (SfUIDValidity input) (SfUID input) [] 0 false true
            | Ok updated => MkSetFlagsResult (SfMailbox input) (SfUIDValidity input) (SfUID input)
                              (publicFlags (IA.Flags updated)) (IA.ModSeq updated) false false
            end)
  end.
Definition SetMessageFlags (enabled : bool) (input : SetFlagsInput) : Net W SetFlagsResult :=
  of_result (validateFlags input);;
  mutate enabled flags_reconciliation
    (select_for_change (SfMailbox input) (SfUIDValidity input) (SfUID input)
       "mailbox UIDVALIDITY changed; re-read before mutating";;
     caps ← query_ Capabilities;
     let flags := protocolFlags (SfFlags input) in
     if IA.CondStore caps then conditional_store input flags else plain_store input flags).

Definition boundedMailboxList : Net W (list IA.Mailbox) :=
  mailboxes ← call ListBoxes;
  fail_if (MaxMailboxes <? zlen mailboxes) (Imap (IA.failure IA.ErrorTooLarge));;
  mret mailboxes.

Definition outcome_unknown (message reconciliation : string) : mail_error :=
  Public (MkError CodeOutcomeUnknown message false 0 reconciliation).
Definition moveStepError (err : mail_error) (category reconciliation : string) : mail_error :=
  if match err with Imap e => IA.Ambiguous e | _ => false end
  then outcome_unknown ("mail move outcome is unknown after " ++ category) reconciliation
  else Public (MkError CodePartialFailure ("mail move stopped after " ++ category) false 0 reconciliation).

Definition moved (source : string) (uidValidity uid : Z) (destination method : string) (data : IA.CopyData) : MoveResult :=
  MkMoveResult source uidValidity uid destination (IA.CopyUIDValidity data) (IA.DestinationUID data) method.
Definition native_move (source : string) (uidValidity uid : Z) (destination : string) : Net W MoveResult :=
  mark_dispatched true;;
  r ← caught (call (NativeMove uid destination));
  match r with
  | Err err => mutation_failed err move_reconciliation
  | Ok data =>
      fail_if (negb (eqb (IA.CopyUIDValidity data =? 0) (IA.DestinationUID data =? 0)))
        (outcome_unknown "mail move succeeded with unusable COPYUID metadata" move_reconciliation);;
      mret (moved source uidValidity uid destination "move" data)
  end.
(** COPY, then the Deleted mark, then UID EXPUNGE of the source. *)
Definition copy_move (source : string) (uidValidity uid : Z) (destination : string) : Net W MoveResult :=
  mark_dispatched true;;
  r ← caught (call (CopyTo uid destination));
  match r with
  | Err err => mutation_failed err "Check the destination before deciding whether to move again."
  | Ok data =>
      fail_if ((IA.CopyUIDValidity data =? 0) || (IA.DestinationUID data =? 0))
        (outcome_unknown "mail copy succeeded with unusable COPYUID metadata"
           "A destination copy may exist. Check the destination before deciding whether to move again.");;
      r ← caught (call (AddDeleted uid));
      match r with
      | Err err => fail (moveStepError err "copied_not_marked_deleted"
                     "A destination copy may exist while the source remains. Check both mailboxes.")
      | Ok _ =>
          r ← caught (call (UIDExpunge uid));
          match r with
          | Err err => fail (moveStepError err "copied_marked_deleted_not_expunged"
                         "A destination copy exists and the source may remain marked Deleted. Check both mailboxes.")
          | Ok _ => mret (moved source uidValidity uid destination "uidplus_fallback" data)
          end
      end
  end.
Definition moveWithSession (source : string) (uidValidity uid : Z) (destination : string) : Net W MoveResult :=
  select_for_change source uidValidity uid "mailbox UIDVALIDITY changed; re-read before moving";;
  caps ← query_ Capabilities;
  if IA.Move caps then native_move source uidValidity uid destination
  else
    fail_if (negb (IA.UIDPlus caps))
      (Public (newError CodeProtocolError "server supports neither native MOVE nor the safe UIDPLUS fallback"));;
    copy_move source uidValidity uid destination.

Definition MoveMessage (enabled : bool) (input : MoveInput) : Net W MoveResult :=
  of_result (validateIdentity (MvMailbox input) (MvUIDValidity input) (MvUID input));;
  of_result (validateMailbox (MvDestination input));;
  fail_if (bool_decide (MvDestination input = MvMailbox input))
    (Public (validationError "destination must differ from the source mailbox"));;
  mutate enabled move_reconciliation
    (mailboxes ← boundedMailboxList;
     fail_if (specialUseDeletionMailbox mailboxes (MvDestination input))
       (Public (validationError "destination cannot be a SPECIAL-USE Trash or Junk mailbox; use trash_message for intentional deletion"));;
     fail_if (negb (selectableMailbox mailboxes (MvDestination input)))
       (Public (newError CodeNotFound "destination mailbox was not returned as selectable by LIST"));;
     moveWithSession (MvMailbox input) (MvUIDValidity input) (MvUID input) (MvDestination input)).

Definition TrashMessage (enabled : bool) (input : TrashInput) : Net W MoveResult :=
  of_result (validateIdentity (TrMailbox input) (TrUIDValidity input) (TrUID input));;
  mutate enabled move_reconciliation
    (mailboxes ← boundedMailboxList;
     match trash_mailboxes mailboxes with
     | [trash] =>
         fail_if (bool_decide (trash = TrMailbox input))
           (Public (newError CodeConflict "message is already in the Trash mailbox"));;
         moveWithSession (TrMailbox input) (TrUIDValidity input) (TrUID input) trash
     | _ => fail (Public (newError CodeProtocolError "exactly one selectable SPECIAL-USE Trash mailbox is required"))
     end).
End Operations.

(** * Proofs *)

Definition flags_script (input : SetFlagsInput) (ms : list event) : Prop :=
  let add := bool_decide (Operation input = FlagOperationAdd) in
  let flags := protocolFlags (SfFlags input) in
  ms = [] ∨ (∃ r, ms = [Ev (StoreDelta (SfUID input) add flags) r]) ∨
  (∃ r, ms = [Ev (ConditionalStoreDelta (SfUID input) add flags (ExpectedModSeq input)) r]).
(** A COPY whose answer names the copy. *)
Definition usable (d : IA.CopyData) : Prop := IA.CopyUIDValidity d ≠ 0 ∧ IA.DestinationUID d ≠ 0.
Definition move_script (uid : Z) (destination : string) (ms : list event) : Prop :=
  ms = [] ∨ (∃ r, ms = [Ev (NativeMove uid destination) r]) ∨ (∃ r, ms = [Ev (CopyTo uid destination) r]) ∨
  (∃ d r, usable d ∧ ms = [Ev (CopyTo uid destination) (Ret d); Ev (AddDeleted uid) r]) ∨
  (∃ d r, usable d ∧ ms = [Ev (CopyTo uid destination) (Ret d); Ev (AddDeleted uid) (Ret tt); Ev (UIDExpunge uid) r]).

Section Proofs.
Context {W : Type} `{MailNet W, UnicodeTables} (law : adapter_law W).

Lemma quiet_select mailbox v uid message : quiet (W:=W) (select_for_change mailbox v uid message).
Proof.
  apply quiet_bind; [by apply quiet_call|intros sel]. apply quiet_bind; [apply quiet_fail_if; certain|intros _].
  apply quiet_bind; [by apply quiet_call|intros _]. apply quiet_ret.
Qed.
Lemma quiet_list : quiet (W:=W) boundedMailboxList.
Proof.
  apply quiet_bind; [by apply quiet_call|intros ms]. apply quiet_bind; [by apply quiet_fail_if|intros _]. apply quiet_ret.
Qed.

(** A single mutating command that failed. *)
Lemma failed_ok {A X} (S : list event → Prop) (c : cmd X) err rec :
  mutates c = true → session_command c = true → S [Ev c (Fail err)] → adapter_reply c (Fail err) →
  triple (W:=W) true (mutation_failed (A:=A) err rec) (λ t, op_ok S (Ev c (Fail err) :: t)).
Proof.
  intros Hm Hs HS Hl. apply mapIMAPError_bind. intros t e Ht He. apply triple_fail.
  unfold op_ok. rewrite app_nil_r. unfold muts in *. simpl. rewrite Hm, Ht. split_and!; [done|done|].
  unfold adapter_reply in Hl. destruct err as [p|i|?|?| |]; [destruct c; simpl in *; first [done|congruence]| |congruence..].
  simpl in He. subst e. unfold failure_ok. destruct (IA.Ambiguous i) eqn:Ha.
  - rewrite decide_True by by apply imap_public_unknown. done.
  - destruct (decide _) as [|]; [done|]. apply Forall_singleton. simpl. by rewrite Ha.
Qed.
Lemma conditional_store_ok input flags : flags = protocolFlags (SfFlags input) →
  honest (flags_script input) (conditional_store (W:=W) input flags).
Proof.
  intros ->. apply honest_bind; [by left|apply quiet_fail_if; certain|intros _].
  apply honest_bind; [by left|apply quiet_query|intros sup].
  apply honest_bind; [by left|apply quiet_fail_if; certain|intros _].
  apply triple_mark_bind, triple_try_bind. intros w.
  set (c := ConditionalStoreDelta _ _ _ _). pose proof (law _ c w) as Hl. destruct (exec c w).2 as [m|err|].
  - apply triple_ret. split_and!; [right; right; by eexists|done|]. split; [done|by apply Forall_singleton].
  - destruct (match err with Imap e => _ | _ => _ end) eqn:Hc.
    + apply triple_fail. split_and!; [right; right; by eexists|done|]. unfold failure_ok.
      rewrite decide_False by certain. apply Forall_singleton. simpl. destruct err; try done.
      apply bool_decide_eq_true in Hc. by rewrite (Hl eq_refl Hc).
    + apply failed_ok; [done|done|right; right; by eexists|done].
  - split_and!; [right; right; by eexists|done|done].
Qed.
Lemma plain_store_ok input flags : flags = protocolFlags (SfFlags input) →
  honest (flags_script input) (plain_store (W:=W) input flags).
Proof.
  intros ->. apply triple_mark_bind, triple_try_bind. intros w.
  set (c := StoreDelta _ _ _). pose proof (law _ c w) as Hl. destruct (exec c w).2 as [[]|err|].
  - assert (∀ r, op_ok (A:=SetFlagsResult) (flags_script input) [Ev c (Ret tt); Ev (FetchFlags (SfUID input)) r] true Panic ∧
      success_ok (muts [Ev c (Ret tt); Ev (FetchFlags (SfUID input)) r])) as Hok.
    { intros r. split; [split; [right; left; by eexists|done]|]. split; [done|by apply Forall_singleton]. }
    apply triple_try_bind. intros w1.
    destruct (exec (FetchFlags (SfUID input)) w1).2 as [m|err|]; [apply triple_ret|apply triple_ret|by apply Hok];
      (destruct (Hok (Ret m)) as [(HS & Hd & _) Hsucc] || destruct (Hok (Fail err)) as [(HS & Hd & _) Hsucc]); by split.
  - apply failed_ok; [done|done|right; left; by eexists|done].
  - split_and!; [right; left; by eexists|done|done].
Qed.
Lemma native_move_ok source v uid dest : honest (move_script uid dest) (native_move (W:=W) source v uid dest).
Proof.
  apply triple_mark_bind, triple_try_bind. intros w. assert (∀ r, move_script uid dest [Ev (NativeMove uid dest) r]) as HS
    by (intros r; right; left; by eexists).
  set (c := NativeMove _ _). pose proof (law _ c w) as Hl. destruct (exec c w).2 as [m|err|].
  - apply triple_fail_if_bind; intros _; [|apply triple_ret].
    + split_and!; [apply HS|done|]. simpl. unfold failure_ok. by rewrite decide_True by certain.
    + split_and!; [apply HS|done|]. split; [done|by apply Forall_singleton].
  - by apply failed_ok.
  - by split_and!; [apply HS|..].
Qed.
Lemma step_error_uncertain {A} err category rec ms d t : ms = muts t → ms ≠ [] → d = true → 
  (∀ S, S ms → op_ok (A:=A) S t d (Fail (moveStepError err category rec))).
Proof.
  intros -> Hne -> S HS. split_and!; [done|by destruct (muts t)|]. unfold moveStepError.
  destruct (match err with Imap e => _ | _ => _ end); simpl; unfold failure_ok; by rewrite decide_True by certain.
Qed.
Lemma copy_move_ok source v uid dest : honest (move_script uid dest) (copy_move (W:=W) source v uid dest).
Proof.
  apply triple_mark_bind, triple_try_bind. intros w.
  assert (∀ r, move_script uid dest [Ev (CopyTo uid dest) r]) as HS by (intros r; do 2 right; left; by eexists).
  set (c := CopyTo _ _). pose proof (law _ c w) as Hl. destruct (exec c w).2 as [m|err|]; [|by apply failed_ok|by split_and!; [apply HS|..]].
  apply triple_fail_if_bind; intros Hm.
  { split_and!; [apply HS|done|]. simpl. unfold failure_ok. by rewrite decide_True by certain. }
  apply orb_false_iff in Hm as [Hv Hd]. bool_to_prop. assert (usable m) as Hu by done.
  apply triple_try_bind. intros w1.
  assert (∀ r, move_script uid dest [Ev c (Ret m); Ev (AddDeleted uid) r]) as HS2 by (intros r; do 3 right; left; by eexists _, _).
  destruct (exec (AddDeleted uid) w1).2 as [[]|err|];
    [|apply triple_fail; eapply step_error_uncertain; [reflexivity|done|done|apply HS2]|by split_and!; [apply HS2|..]].
  apply triple_try_bind. intros w2.
  assert (∀ r, move_script uid dest [Ev c (Ret m); Ev (AddDeleted uid) (Ret tt); Ev (UIDExpunge uid) r]) as HS3
    by (intros r; do 4 right; by eexists _, _).
  destruct (exec (UIDExpunge uid) w2).2 as [[]|err|];
    [|apply triple_fail; eapply step_error_uncertain; [reflexivity|done|done|apply HS3]|by split_and!; [apply HS3|..]].
  apply triple_ret. split_and!; [apply HS3|done|]. split; [done|]. by repeat constructor.
Qed.
Lemma move_session_ok source v uid dest : honest (move_script uid dest) (moveWithSession (W:=W) source v uid dest).
Proof.
  apply honest_bind; [by left|apply quiet_select|intros _]. apply honest_bind; [by left|apply quiet_query|intros caps].
  destruct (IA.Move caps); [apply native_move_ok|].
  apply honest_bind; [by left|apply quiet_fail_if; certain|intros _]. apply copy_move_ok.
Qed.
Lemma honest_weaken {A} (S S' : list event → Prop) (m : Net W A) : (∀ ms, S ms → S' ms) → honest S m → honest S' m.
Proof. intros HS Hm. eapply triple_weaken; [exact Hm|]. intros t d r (? & ?). split; auto. Qed.
Lemma rejected_ok {A} (S : list event → Prop) e : S [] → ¬ uncertain e → outcome_ok (A:=A) S [] (Fail (Public e)).
Proof. intros HS He. split; [done|]. by apply failure_ok_nil. Qed.
Lemma validation_certain {A} (r : result Error A) e : validation_only r → r = Err e → ¬ uncertain e.
Proof. intros Hv He. unfold uncertain. rewrite (Hv e He). certain. Qed.

Definition trash_script (uid : Z) (ms : list event) : Prop := ∃ destination, move_script uid destination ms.

(** (C4) Changing flags, moving and trashing, against a server and adapter that
    may fail or panic at any point: the mutating commands sent are at most one
    STORE, or one MOVE, or COPY, the Deleted mark and UID EXPUNGE in this
    order, each once and each only after the one before succeeded, the mark
    and the expunge only when the COPY answer named the copy.  Success is
    reported only when at least one was sent and all succeeded.  A failure
    with an open outcome (outcome_unknown, partial_failure) is reported only
    after one was sent; with any other code only when each one sent, if any,
    failed with an adapter error that is not marked ambiguous.  (What that mark
    means is a theorem of ImapAdapter.v: for every command but the conditional
    STORE, whose answer the server may spoil after carrying it out, an error
    without it is a refusal by the server.)  The one assumption is
    [adapter_law]: session commands fail with adapter errors only and mark no
    conflict ambiguous, and connecting and logging in fail with no public
    error. *)
Theorem mutations_honest enabled fi mi ti d :
  triple (W:=W) d (SetMessageFlags enabled fi) (λ t _ r, outcome_ok (flags_script fi) t r) ∧
  triple (W:=W) d (MoveMessage enabled mi) (λ t _ r, outcome_ok (move_script (MvUID mi) (MvDestination mi)) t r) ∧
  triple (W:=W) d (TrashMessage enabled ti) (λ t _ r, outcome_ok (trash_script (TrUID ti)) t r).
Proof.
  assert (trash_script (TrUID ti) []) as Htrash by (exists ""; by left).
  split_and!.
  - apply triple_of_result_bind; [|intros _ _].
    { intros e He. apply rejected_ok; [by left|]. by eapply validation_certain, He; apply validateFlags_errors. }
    apply mutate_ok; [done|by left|]. apply honest_bind; [by left|apply quiet_select|intros _].
    apply honest_bind; [by left|apply quiet_query|intros caps].
    destruct (IA.CondStore caps); [by apply conditional_store_ok|by apply plain_store_ok].
  - apply triple_of_result_bind; [|intros _ _].
    { intros e He. apply rejected_ok; [by left|]. by eapply validation_certain, He; apply validateIdentity_errors. }
    apply triple_of_result_bind; [|intros _ _].
    { intros e He. apply rejected_ok; [by left|]. by eapply validation_certain, He; apply validateMailbox_errors. }
    apply triple_fail_if_bind; intros _; [apply rejected_ok; [by left|certain]|].
    apply mutate_ok; [done|by left|]. apply honest_bind; [by left|apply quiet_list|intros boxes].
    apply honest_bind; [by left|apply quiet_fail_if; certain|intros _].
    apply honest_bind; [by left|apply quiet_fail_if; certain|intros _]. apply move_session_ok.
  - apply triple_of_result_bind; [|intros _ _].
    { intros e He. apply rejected_ok; [done|]. by eapply validation_certain, He; apply validateIdentity_errors. }
    apply mutate_ok; [done|done|]. apply honest_bind; [done|apply quiet_list|intros boxes].
    destruct (trash_mailboxes boxes) as [|trash [|? ?]]; [apply honest_fail; [done|certain]| |apply honest_fail; [done|certain]].
    apply honest_bind; [done|apply quiet_fail_if; certain|intros _].
    eapply honest_weaken, move_session_ok. intros ms Hms. by exists trash.
Qed.
End Proofs.

(** A server without MOVE whose answer to the Deleted mark is lost. *)
Definition demo_message : IA.Message := IA.flags_message 9 (IA.bare_buffer 9 1).
Definition demo_net : MailNet unit := {|
  ask X q w := (w, match q in query X return X with
                   | Allow _ => true | Acquire _ => true | CtxErr => false
                   | Capabilities => IA.MkCaps false false true false true
                   | SupportsConditionalStore => false
                   end);
  exec X c w := (w, match c in cmd X return reply X with
                    | ListBoxes => Ret [IA.MkMailbox "INBOX" 47 []; IA.MkMailbox "Archive" 47 []]
                    | SelectBox _ _ => Ret (IA.MkSelected 7 10)
                    | FetchFlags _ => Ret demo_message
                    | CopyTo _ _ => Ret (IA.MkCopyData 8 3)
                    | AddDeleted _ => Fail (Imap (IA.MkError IA.ErrorTimeout true))
                    | ImapDial | ImapLogin | ImapClose | Release _ => Ret tt
                    | _ => Panic
                    end) |}.
Lemma demo_net_law : @adapter_law unit demo_net.
Proof. intros X c w. by destruct c. Qed.
Lemma mutations_honest_witness :
  let '(e, r) := @MoveMessage unit demo_net true (MkMoveInput "INBOX" 7 9 "Archive") (MkEnv tt [] false) in
  r = Fail (outcome_unknown "mail move outcome is unknown after copied_not_marked_deleted"
              "A destination copy may exist while the source remains. Check both mailboxes.") ∧
  length (muts (log e)) = 2%nat ∧ outcome_ok (move_script 9 "Archive") (log e) r.
Proof.
  pose proof (proj1 (proj2 (@mutations_honest unit demo_net ascii_tables demo_net_law true
    (MkSetFlagsInput "" 0 0 FlagOperationAdd [] 0) (MkMoveInput "INBOX" 7 9 "Archive") (MkTrashInput "" 0 0) false)) tt []) as Hm.
  destruct (@MoveMessage unit demo_net true (MkMoveInput "INBOX" 7 9 "Archive") (MkEnv tt [] false)) as [e r] eqn:Hrun.
  destruct Hm as (t & Hlog & Hok). simpl in Hlog. rewrite <-Hlog in Hok. vm_compute in Hrun. injection Hrun as <- <-.
  split; [reflexivity|split; [reflexivity|exact Hok]].
Defined.
