(* ===== verification/MailSearch.v ===== *)
(** Listing mailboxes and searching messages (src/internal/mail/service.go):
    the windows of UIDs scanned, the newest matches, the byte budget and the
    cursor of the next page. *)
From S2P Require Import Prelude GoStrings GoTime NetMail MailTypes MailValidation ImapAdapter MailClient MailMutation.
Import MT.

Definition MaxUIDsScanned : Z := 50000.
Definition MaxResultBytes : Z := 256 * 1024.
(** [serializedSize]: the length of the JSON encoding. *)
Class Sizes := {
  size_mailboxes : ListMailboxesResult → Z;
  size_search : MailSearchResult → Z;
}.

Definition public_address (a : IA.Address) : Address := MkAddress (IA.AdName a) (IA.AdAddress a).
Definition publicAddresses (l : list IA.Address) : list Address := map public_address l.
Definition summaryFromProtocol `{UnicodeTables} (mailbox : string) (uidValidity : Z) (item : IA.Message) : MessageSummary :=
  let env := IA.MsgEnvelope item in
  MkMessageSummary mailbox uidValidity (IA.UID item) (publicFlags (IA.Flags item))
    (publicAddresses (IA.EnvFrom env)) (publicAddresses (IA.EnvTo env)) (publicAddresses (IA.EnvCc env))
    (IA.EnvSubject env) (IA.InternalDate item)
    (if is_zero (instant (IA.EnvDate env)) then None else Some (IA.EnvDate env))
    (IA.Size item) (IA.EnvMessageID env) (IA.ModSeq item).

Section Search.
Context {W : Type} `{MailNet W, UnicodeTables, Sizes}.

(** * Mailboxes *)

Definition public_mailbox (item : IA.Mailbox) : Mailbox :=
  MkMailbox (IA.Name item) (if IA.Delimiter item =? 0 then "" else str (encode_rune (IA.Delimiter item)))
    (IA.Attributes item).
(** Drop mailboxes from the end until the answer fits. *)
Fixpoint fit_mailboxes (n : nat) (r : ListMailboxesResult) : ListMailboxesResult :=
  if size_mailboxes r <=? MaxResultBytes then r
  else match n with
       | O => r
       | S n => fit_mailboxes n (MkListMailboxesResult (take n (Mailboxes r)) true)
       end.
Definition mailboxes_result (items : list IA.Mailbox) : ListMailboxesResult :=
  let r := MkListMailboxesResult (map public_mailbox (take (Z.to_nat MaxMailboxes) items)) (MaxMailboxes <? zlen items) in
  fit_mailboxes (length (Mailboxes r)) r.
Definition ListMailboxes : Net W ListMailboxesResult :=
  read (items ← call ListBoxes; mret (mailboxes_result items)).

(** * Messages *)

Definition uint32 (z : Z) : Z := z mod 4294967296.
Definition window : Z := 5000.
Record scan := MkScan { high : Z; found : list Z; scanned : Z }.

Definition request_for (input : SearchInput) (low high : Z) : IA.SearchRequest :=
  IA.MkSearchRequest low high (SiQuery input) (SiFrom input) (SiTo input) (SiSubject input)
    (Since input) (Before input) (UnseenOnly input) (FlaggedOnly input).
(** A UID outside the window is a protocol error; a repeated one counts once. *)
Definition add_uid (low high : Z) (found : list Z) (uid : Z) : result mail_error (list Z) :=
  if (uid <? low) || (high <? uid) || (uid =? 0) then Err (Imap (IA.failure IA.ErrorProtocol))
  else if bool_decide (uid ∈ found) then Ok found else Ok (found ++ [uid])%list.
Definition low_end (high scanned : Z) : Z :=
  let width := Z.min window (MaxUIDsScanned - scanned) in
  if width <=? high then high - width + 1 else 1.
Definition of_mail {A} (r : result mail_error A) : Net W A :=
  match r with Ok a => mret a | Err err => fail err end.
Definition scan_window (input : SearchInput) (s : scan) : Net W scan :=
  let low := low_end (high s) (scanned s) in
  uids ← call (Search (request_for input low (high s)));
  found ← of_mail (fold_res (add_uid low (high s)) uids (found s));
  mret (MkScan (if low =? 1 then 0 else low - 1) found (scanned s + (high s - low) + 1)).
(** The loop, newest window first.  Every turn but the last scans a full
    window, so ten turns reach the scan limit. *)
Definition scanning (limit : Z) (s : scan) : bool :=
  (0 <? high s) && (scanned s <? MaxUIDsScanned) && (zlen (found s) <=? limit).
Fixpoint scan_loop (fuel : nat) (limit : Z) (input : SearchInput) (s : scan) : Net W scan :=
  if scanning limit s then
    match fuel with
    | O => mret s
    | S fuel => s ← scan_window input s; scan_loop fuel limit input s
    end
  else mret s.

Definition with_messages (ms : list MessageSummary) (truncated : bool) (r : MailSearchResult) : MailSearchResult :=
  MkMailSearchResult ms (SrUIDValidity r) (NextBeforeUID r) (SrScanLimitReached r) truncated.
Definition with_cursor (uid : Z) (r : MailSearchResult) : MailSearchResult :=
  MkMailSearchResult (Messages r) (SrUIDValidity r) uid (SrScanLimitReached r) (SrTruncated r).
Fixpoint fit_messages (n : nat) (r : MailSearchResult) : MailSearchResult :=
  if size_search r <=? MaxResultBytes then r
  else match n with
       | O => r
       | S n => fit_messages n (with_messages (take n (Messages r)) true r)
       end.
(** The cursor: after a cut the oldest message shown, at the scan limit the
    oldest boundary scanned. *)
Definition next_cursor (s : scan) (cut : bool) (r : MailSearchResult) : MailSearchResult :=
  if cut then
    match last (Messages r) with
    | Some m => with_cursor (MsUID m) r
    | None => if 0 <? high s then with_cursor (high s + 1) r else r
    end
  else if SrScanLimitReached r then with_cursor (high s + 1) r
  else r.
Definition newest_first (ms : list MessageSummary) : list MessageSummary :=
  stable_sort (λ a b, MsUID b <? MsUID a) ms.

Definition search_op (input : SearchInput) (limit : Z) : Net W MailSearchResult :=
  selected ← call (SelectBox (SiMailbox input) true);
  fail_if (negb (BeforeUID input =? 0) && negb (IA.UIDValidity selected =? SiUIDValidity input))
    (Public (newError CodeConcurrentModification "mailbox UIDVALIDITY changed; restart pagination"));;
  let top := uint32 (IA.UIDNext selected - 1) in
  let high0 := if negb (BeforeUID input =? 0) && (BeforeUID input - 1 <? top) then BeforeUID input - 1 else top in
  s ← scan_loop 10 limit input (MkScan high0 [] 0);
  let sorted := IA.descending (found s) in
  let countTruncated := limit <? zlen sorted in
  let uids := if countTruncated then take (Z.to_nat limit) sorted else sorted in
  let limited := (scanned s =? MaxUIDsScanned) && (0 <? high s) in
  messages ← (match uids with
              | [] => mret []
              | _ => metadata ← call (FetchMetadata uids false);
                     mret (newest_first (map (summaryFromProtocol (SiMailbox input) (IA.UIDValidity selected)) metadata))
              end);
  let full := MkMailSearchResult messages (IA.UIDValidity selected) 0 limited countTruncated in
  let fitted := fit_messages (length messages) full in
  let byteTruncated := zlen (Messages fitted) <? zlen messages in
  mret (next_cursor s (countTruncated || byteTruncated) fitted).
Definition SearchMessages (input : SearchInput) : Net W MailSearchResult :=
  of_result (validateSearchInput input);;
  read (search_op input (if SiLimit input =? 0 then 20 else SiLimit input)).

(** * Diagnostics *)

Record ProbeResult := MkProbe { PrMailboxes : Z; PrCondStore : bool; PrMove : bool; PrUIDPlus : bool; PrSpecialUse : bool }.
Fixpoint probe_first (items : list IA.Mailbox) (n : Z) : Net W ProbeResult :=
  match items with
  | [] => mret (MkProbe n false false false false)
  | item :: items =>
      if negb (isSelectable item) then probe_first items n
      else
        r ← caught (call (SelectBox (IA.Name item) true));
        match r with
        | Err _ => probe_first items n
        | Ok _ =>
            caps ← query_ Capabilities;
            mret (MkProbe n (IA.CondStore caps) (IA.Move caps) (IA.UIDPlus caps) (IA.SpecialUse caps))
        end
  end.
Definition Probe : Net W ProbeResult :=
  read (items ← call ListBoxes; probe_first items (zlen items)).
End Search.

(** * Proofs *)

Lemma descending_Permutation l : IA.descending l ≡ₚ l.
Proof. apply stable_sort_Permutation. Qed.
Lemma descending_sorted l : StronglySorted (λ a b, b <= a) (IA.descending l).
Proof.
  eapply StronglySorted_weaken; [|apply stable_sort_sorted].
  - intros a b _ _. unfold may_precede. intros Hl. bool_to_prop. lia.
  - intros a b c Hab Hbc. bool_to_prop. lia.
  - intros a b Hab. bool_to_prop. lia.
Qed.
Lemma descending_strict l : NoDup l → StronglySorted (λ a b, b < a) (IA.descending l).
Proof.
  intros Hnd. pose proof (descending_sorted l) as Hs.
  assert (NoDup (IA.descending l)) as Hd by by rewrite descending_Permutation.
  revert Hs Hd. generalize (IA.descending l). clear. intros l. induction l as [|a l IH]; [constructor|].
  intros [Hs Ha]%StronglySorted_inv [Hn Hd]%NoDup_cons. constructor; [by apply IH|].
  rewrite Forall_forall in Ha |- *. intros b Hb. specialize (Ha b Hb). assert (a ≠ b) by (by intros ->). lia.
Qed.
Lemma elem_of_descending u l : u ∈ IA.descending l ↔ u ∈ l.
Proof. by rewrite descending_Permutation. Qed.

(** A descending prefix holds everything from its last element up. *)
Lemma prefix_complete (l : list Z) n u v : StronglySorted (λ a b, b < a) l →
  last (take n l) = Some v → u ∈ l → v <= u → u ∈ take n l.
Proof.
  intros Hs Hlast Hu Hle. rewrite <-(take_drop n l) in Hu, Hs. apply elem_of_app in Hu as [Hu|Hu]; [done|].
  assert (v ∈ take n l) as Hv by (apply last_Some in Hlast as [l' ->]; set_solver).
  pose proof (StronglySorted_app_1_elem_of _ _ _ _ _ Hs Hv Hu) as Hlt. simpl in Hlt. lia.
Qed.

Section Pages.
Context {W : Type} `{MailNet W, UnicodeTables, Sizes}.
Context (input : SearchInput) (uidNext : Z) (matches : list Z).

(** A server whose answers are those of one mailbox, all of whose matching
    messages still exist. *)
Record truthful : Prop := {
  t_next : 1 <= uidNext < 4294967296;
  t_matches : ∀ u, u ∈ matches → 1 <= u < uidNext;
  t_select : ∀ (w : W) sel, (exec (SelectBox (SiMailbox input) true) w).2 = Ret sel → IA.UIDNext sel = uidNext;
  t_search : ∀ (w : W) lo hi l, (exec (Search (request_for input lo hi)) w).2 = Ret l →
    ∀ u, u ∈ l ↔ u ∈ matches ∧ lo <= u <= hi;
  t_fetch : ∀ (w : W) uids ms, (exec (FetchMetadata uids false) w).2 = Ret ms → map IA.UID ms ≡ₚ uids;
}.
Context (Htrue : truthful).

(** The newest UID of the page. *)
Definition top_uid : Z := if BeforeUID input =? 0 then uidNext - 1 else Z.min (BeforeUID input - 1) (uidNext - 1).
Record scan_ok (s : scan) : Prop := {
  sc_high : 0 <= high s <= top_uid;
  sc_scanned : scanned s = top_uid - high s;
  sc_limit : scanned s <= MaxUIDsScanned;
  sc_nodup : NoDup (found s);
  sc_found : ∀ u, u ∈ found s ↔ u ∈ matches ∧ high s < u <= top_uid;
}.

Lemma add_uids_ok lo hi uids fnd fnd' : NoDup fnd → fold_res (add_uid lo hi) uids fnd = Ok fnd' →
  NoDup fnd' ∧ ∀ u, u ∈ fnd' ↔ u ∈ fnd ∨ u ∈ uids.
Proof.
  revert fnd; induction uids as [|u uids IH]; intros fnd Hnd; simpl; [intros [= <-]; set_solver|].
  unfold add_uid at 1. destruct (_ || _ || _); [done|]. case_bool_decide as Hin; intros Hf.
  - apply IH in Hf as [? Hm]; [|done]. split; [done|]. intros v. rewrite Hm. set_solver.
  - apply IH in Hf as [? Hm]; [split; [done|]; intros v; rewrite Hm; set_solver|].
    apply NoDup_app. split_and!; [done|set_solver|apply NoDup_singleton].
Qed.
Lemma scan_window_ok s : scan_ok s → 0 < high s → scanned s < MaxUIDsScanned →
  gives (W:=W) (scan_window input s) (λ s', scan_ok s' ∧
    (high s' = 0 ∨ scanned s' = scanned s + Z.min window (MaxUIDsScanned - scanned s))).
Proof.
  intros [Hh Hsc Hl Hnd Hf] Hpos Hlt. unfold scan_window.
  set (lo := low_end (high s) (scanned s)).
  assert (1 <= lo <= high s ∧ high s - lo + 1 <= Z.min window (MaxUIDsScanned - scanned s) ∧
    (lo = 1 ∨ high s - lo + 1 = Z.min window (MaxUIDsScanned - scanned s))) as (Hlo & Hw & Hfull).
  { subst lo. unfold low_end, window in *. destruct (_ <=? _) eqn:Hle; bool_to_prop; lia. }
  eapply gives_bind; [apply (gives_call _ (λ l, ∀ u, u ∈ l ↔ u ∈ matches ∧ lo <= u <= high s)); intros w a;
    apply (t_search Htrue)|cbv beta; intros uids Huids].
  eapply (gives_bind _ _ (λ fnd, fold_res (add_uid lo (high s)) uids (found s) = Ok fnd)).
  { destruct (fold_res _ uids _); [by apply gives_ret|apply gives_fail]. }
  intros fnd Hfnd. apply add_uids_ok in Hfnd as [Hnd' Hm]; [|done]. apply gives_ret. simpl.
  assert ((if lo =? 1 then 0 else lo - 1) = lo - 1) as Heq by (destruct (lo =? 1) eqn:?; bool_to_prop; lia).
  rewrite Heq. split; [|lia]. split; simpl; [lia|lia|lia|done|].
  intros u. rewrite Hm, Hf, Huids. split; [intros [[? ?]|[? ?]]; (split; [done|lia])|].
  intros [? ?]. destruct (decide (high s < u)); [left|right]; (split; [done|lia]).
Qed.
(** [n] turns are enough for the windows left. *)
Lemma scan_loop_ok limit n s : scan_ok s → MaxUIDsScanned - scanned s <= window * Z.of_nat n →
  gives (W:=W) (scan_loop n limit input s) (λ s', scan_ok s' ∧ scanning limit s' = false).
Proof.
  revert s; induction n as [|n IH]; intros s Hs Hn.
  - simpl. destruct (scanning limit s) eqn:Hc; apply gives_ret; [|done].
    unfold scanning in Hc. destruct Hs. bool_to_prop. lia.
  - simpl. destruct (scanning limit s) eqn:Hc; [|by apply gives_ret]. unfold scanning in Hc. bool_to_prop.
    eapply gives_bind; [by apply scan_window_ok|intros s' [Hs' Hprog]].
    destruct (decide (high s' = 0)) as [Hz|Hz].
    + assert (scanning limit s' = false) as Hstop by (unfold scanning; by rewrite Hz).
      destruct n; simpl; rewrite Hstop; by apply gives_ret.
    + apply IH; [done|]. destruct Hprog as [?|Hprog]; [done|]. unfold window in *. destruct Hs'. lia.
Qed.

(** What one page shows, and what its cursor means. *)
Definition shown (r : MailSearchResult) : list Z := map MsUID (Messages r).
Record page_ok (limit : Z) (r : MailSearchResult) : Prop := {
  pg_sorted : StronglySorted (λ a b, b < a) (shown r);
  pg_sound : ∀ u, u ∈ shown r → u ∈ matches ∧ u <= top_uid;
  pg_complete : Messages r ≠ [] ∨ SrTruncated r = false →
    ∀ u, u ∈ matches → NextBeforeUID r <= u <= top_uid → u ∈ shown r;
  pg_emptied : Messages r = [] → SrTruncated r = true →
    ∃ m r1, Messages r1 = [m] ∧ MaxResultBytes < size_search r1 ∧
      MsUID m ∈ matches ∧ ∀ u, u ∈ matches → u <= top_uid → u <= MsUID m <= top_uid;
  pg_progress : 0 <= NextBeforeUID r <= top_uid;
  pg_limit : zlen (shown r) <= limit;
}.

(** The budget leaves the page as it was, or shorter and marked; emptied, one
    message alone was too large. *)
Lemma fit_messages_ok n r : length (Messages r) = n →
  let r' := fit_messages n r in
  r' = r ∨ ∃ k, (k < n)%nat ∧ Messages r' = take k (Messages r) ∧ SrTruncated r' = true ∧
    SrScanLimitReached r' = SrScanLimitReached r ∧ NextBeforeUID r' = NextBeforeUID r ∧
    (k = 0%nat → ∃ r1, Messages r1 = take 1 (Messages r) ∧ MaxResultBytes < size_search r1).
Proof.
  revert r; induction n as [|n IH]; intros r Hlen; simpl.
  { left. by destruct (_ <=? _). }
  destruct (size_search r <=? MaxResultBytes) eqn:Hfit; [by left|]. right. bool_to_prop.
  destruct (IH (with_messages (take n (Messages r)) true r)) as [->|(k & Hk & Hms & Ht & Hs & Hnext & Hone)];
    [simpl; rewrite length_take; lia| |].
  - exists n. split_and!; try done; [lia|]. intros ->. exists r. by rewrite take_ge by lia.
  - simpl in Hms. rewrite take_take in Hms. exists k. split_and!; try done; [lia|by rewrite Hms, Nat.min_l by lia|].
    intros Hz. destruct (Hone Hz) as (r1 & Hr1 & Hbig). exists r1. split; [|done].
    simpl in Hr1. rewrite take_take in Hr1. by rewrite Hr1, Nat.min_l by lia.
Qed.

Lemma sorted_uids ms : StronglySorted (λ a b, b <= a) (map MsUID (newest_first ms)).
Proof.
  assert (StronglySorted (λ a b, MsUID b <= MsUID a) (newest_first ms)) as Hs.
  { eapply StronglySorted_weaken; [|apply stable_sort_sorted].
    - intros a b _ _. unfold may_precede. intros Hl. bool_to_prop. lia.
    - intros a b c Hab Hbc. bool_to_prop. lia.
    - intros a b Hab. bool_to_prop. lia. }
  induction Hs as [|m l Hs IH Hall]; simpl; constructor; [done|].
  apply Forall_map. eapply Forall_impl; [exact Hall|done].
Qed.
Lemma summaries_uids mailbox v ms uids : map IA.UID ms ≡ₚ uids → StronglySorted (λ a b, b < a) uids →
  map MsUID (newest_first (map (summaryFromProtocol mailbox v) ms)) = uids.
Proof.
  intros Hperm Hs. apply (StronglySorted_unique_strong (λ a b, b <= a)); [intros; lia|apply sorted_uids| |].
  - eapply StronglySorted_weaken; [|exact Hs]. simpl. lia.
  - rewrite <-Hperm. unfold newest_first. rewrite (Permutation_map MsUID (stable_sort_Permutation _ _)).
    by rewrite map_map.
Qed.
Lemma sorted_take (l : list Z) n : StronglySorted (λ a b, b < a) l → StronglySorted (λ a b, b < a) (take n l).
Proof. intros Hs. rewrite <-(take_drop n l) in Hs. by apply StronglySorted_app_1_l in Hs. Qed.

(** The first of the newest matches is the newest of all. *)
Lemma newest_of_prefix s m ms n : scan_ok s → m :: ms = take n (IA.descending (found s)) →
  m ∈ matches ∧ ∀ u, u ∈ matches → u <= top_uid → u <= m <= top_uid.
Proof.
  intros [Hh Hsc Hl Hnd Hf] Hms. pose proof (descending_strict (found s) Hnd) as Hd.
  destruct (IA.descending (found s)) as [|m' l] eqn:Hl'; [by rewrite take_nil in Hms|].
  assert (m' = m) as -> by (destruct n; [done|by injection Hms]).
  assert (∀ u, u ∈ m :: l ↔ u ∈ matches ∧ high s < u <= top_uid) as Hin by (intros u; by rewrite <-Hl', elem_of_descending).
  destruct (proj1 (Hin m)) as [Hm Hr]; [by left|]. split; [done|]. intros u Hu Hle. split; [|lia].
  destruct (decide (high s < u)) as [Hlt|]; [|lia].
  apply StronglySorted_inv in Hd as [_ Hall]. rewrite Forall_forall in Hall.
  assert (u ∈ m :: l) as [->|Hin']%elem_of_cons by (by apply Hin; split); [done|]. specialize (Hall u Hin'). lia.
Qed.

(** The page put together from a finished scan and the messages fetched. *)
Lemma page_from_scan limit s messages v : 1 <= limit → scan_ok s → scanning limit s = false →
  map MsUID messages = take (Z.to_nat limit) (IA.descending (found s)) →
  let countTruncated := limit <? zlen (IA.descending (found s)) in
  let limited := (scanned s =? MaxUIDsScanned) && (0 <? high s) in
  let full := MkMailSearchResult messages v 0 limited countTruncated in
  let fitted := fit_messages (length messages) full in
  page_ok limit (next_cursor s (countTruncated || (zlen (Messages fitted) <? zlen messages)) fitted).
Proof.
  intros Hlim [Hh Hsc Hl Hnd Hf] Hstop Hms. cbv zeta. set (d := IA.descending (found s)) in *.
  set (limited := (scanned s =? _) && _). set (full := MkMailSearchResult messages v 0 limited _).
  pose proof (fit_messages_ok (length messages) full eq_refl) as Hfit.
  set (fitted := fit_messages _ full) in *. cbv zeta in Hfit.
  assert (∃ k, Messages fitted = take k messages) as [k Hk].
  { destruct Hfit as [->|(k & _ & Hk & _)]; [exists (length messages); by rewrite take_ge|by exists k]. }
  assert (SrScanLimitReached fitted = limited) as Hslr by (destruct Hfit as [->|(? & _ & _ & _ & -> & _)]; done).
  assert (NextBeforeUID fitted = 0) as Hnext by (destruct Hfit as [->|(? & _ & _ & _ & _ & -> & _)]; done).
  assert (StronglySorted (λ a b, b < a) d) as Hd by by apply descending_strict.
  assert (∀ u, u ∈ d ↔ u ∈ matches ∧ high s < u <= top_uid) as Hin by (intros u; unfold d; by rewrite elem_of_descending).
  assert (shown fitted = take (k `min` Z.to_nat limit) d) as Hshown
    by (unfold shown; rewrite Hk, <-firstn_map, Hms, take_take; done).
  assert (length messages = Z.to_nat limit `min` length d)%nat as Hlen
    by (rewrite <-(length_map MsUID), Hms, length_take; done).
  set (cut := _ || _). assert (shown (next_cursor s cut fitted) = shown fitted) as Hsame.
  { unfold next_cursor, shown. destruct cut; [destruct (last _); [done|by destruct (0 <? high s)]|by destruct (SrScanLimitReached _)]. }
  assert (∀ u, u ∈ shown fitted → u ∈ matches ∧ high s < u <= top_uid) as Hsound.
  { intros u Hu. apply Hin. rewrite Hshown in Hu. rewrite <-(take_drop (k `min` Z.to_nat limit) d). set_solver. }
  assert (SrTruncated (next_cursor s cut fitted) = SrTruncated fitted ∧
    Messages (next_cursor s cut fitted) = Messages fitted) as [Htsame Hmsame].
  { unfold next_cursor. destruct cut; [destruct (last _); [done|by destruct (0 <? high s)]|by destruct (SrScanLimitReached _)]. }
  assert (Messages fitted = [] → SrTruncated fitted = true → ∃ m r1, Messages r1 = [m] ∧ MaxResultBytes < size_search r1 ∧
    MsUID m ∈ matches ∧ ∀ u, u ∈ matches → u <= top_uid → u <= MsUID m <= top_uid) as Hemptied.
  { intros Hnil Ht. destruct Hfit as [Hsame'|(j & Hj & Hms' & _ & _ & _ & Hone)].
    - rewrite Hsame' in *. simpl in Hnil, Ht. subst messages. bool_to_prop. simpl in Hlen. unfold zlen in *. lia.
    - assert (j = 0%nat) as Hz. { rewrite Hms' in Hnil. apply (f_equal length) in Hnil. rewrite length_take in Hnil. simpl in *. lia. }
      destruct (Hone Hz) as (r1 & Hr1 & Hbig). simpl in Hr1. destruct messages as [|m ms]; [simpl in Hj; lia|].
      exists m, r1. split; [done|]. split; [done|]. apply (newest_of_prefix s _ (map MsUID ms) (Z.to_nat limit)); [by split|exact Hms]. }
  assert (NextBeforeUID (next_cursor s cut fitted) <= top_uid → 0 <= NextBeforeUID (next_cursor s cut fitted) →
    (Messages fitted ≠ [] ∨ SrTruncated fitted = false → ∀ u, u ∈ matches → NextBeforeUID (next_cursor s cut fitted) <= u <= top_uid → u ∈ shown fitted) →
    page_ok limit (next_cursor s cut fitted)) as Hpage.
  { intros Hle Hge Hcomplete. split; rewrite ?Htsame, ?Hmsame, ?Hsame;
      [|intros u Hu; destruct (Hsound u Hu); split; [done|lia]|done|done|lia|].
    - rewrite Hshown. by apply sorted_take.
    - rewrite Hshown. unfold zlen. rewrite length_take. lia. }
  destruct cut eqn:Hcut.
  - destruct (decide (Messages fitted = [])) as [Hnil|Hne].
    { assert (SrTruncated fitted = true) as Ht.
      { destruct Hfit as [Heq|(? & _ & _ & ? & _)]; [|done]. subst cut. rewrite Heq in Hcut |- *. cbn [full Messages SrTruncated] in *.
        by rewrite Z.ltb_irrefl, orb_false_r in Hcut. }
      destruct (Hemptied Hnil Ht) as (m & _ & _ & _ & Hm & Hnewest).
      assert (high s < top_uid) as Hlow.
      { destruct d as [|u d'] eqn:Hd0; [|destruct (proj1 (Hin u)); [by left|lia]].
        simpl in Hlen. rewrite Nat.min_0_r in Hlen. apply nil_length_inv in Hlen. subst cut messages. simpl in *.
        apply orb_true_iff in Hcut as [Hc|Hc]; bool_to_prop; unfold zlen in *; simpl in *; lia. }
      unfold next_cursor in *. rewrite Hnil in *. simpl in *. destruct (0 <? high s) eqn:Hpos; bool_to_prop; simpl in *;
        apply Hpage; rewrite ?Hnext; try lia; (intros [?|?]; congruence). }
    assert (∃ m, last (Messages fitted) = Some m) as [m Hm].
    { destruct (last _) eqn:Hlast; [by eexists|]. by apply last_None in Hlast. }
    unfold next_cursor in *. rewrite Hm in *. simpl in *.
    assert (last (shown fitted) = Some (MsUID m)) as Hlast by (unfold shown; change (map MsUID) with (fmap (M:=list) MsUID); by rewrite fmap_last, Hm).
    assert (MsUID m ∈ shown fitted) as Hmin by (apply last_Some in Hlast as [l' ->]; set_solver).
    destruct (Hsound _ Hmin). pose proof (t_matches Htrue (MsUID m)).
    apply Hpage; [lia|lia|]. intros _ u Hu Hr. rewrite Hshown in *.
    eapply prefix_complete; [done|done|apply Hin; split; [done|lia]|lia].
  - assert (shown fitted = d) as Hall.
    { subst cut. apply orb_false_iff in Hcut as [Hc1 Hc2]. bool_to_prop. unfold zlen in *. rewrite Hk, length_take in Hc2.
      rewrite Hshown. apply take_ge. lia. }
    rewrite Hall in *.
    assert (next_cursor s false fitted = if limited then with_cursor (high s + 1) fitted else fitted) as Hnc
      by (unfold next_cursor; by rewrite Hslr).
    rewrite Hnc in *. unfold limited in *.
    destruct ((scanned s =? MaxUIDsScanned) && (0 <? high s)) eqn:Hlimited; simpl in *.
    + apply andb_prop in Hlimited as [Hsm Hpos]. bool_to_prop. unfold MaxUIDsScanned in *.
      apply Hpage; [lia|lia|]. intros _ u Hu Hr. apply Hin. split; [done|lia].
    + rewrite Hnext in Hpage. assert (high s = 0) as Hz.
      { subst cut. apply orb_false_iff in Hcut as [Hc1 _]. bool_to_prop.
        assert (length d = length (found s)) as Hdl by (unfold d; by rewrite descending_Permutation).
        assert (zlen (found s) <= limit) by (unfold zlen in *; lia).
        unfold scanning in Hstop. rewrite !andb_false_iff in *. bool_to_prop.
        destruct Hstop as [[Hx|Hx]|Hx], Hlimited as [Hy|Hy]; bool_to_prop; lia. }
      apply Hpage; [lia|done|]. intros _ u Hu Hr. apply Hin. pose proof (t_matches Htrue u Hu). split; [done|lia].
Qed.

Lemma search_op_ok limit : 1 <= limit → 0 <= BeforeUID input →
  gives (W:=W) (search_op input limit) (page_ok limit).
Proof.
  intros Hlim Hb. pose proof (t_next Htrue) as Hnext.
  eapply gives_bind; [apply (gives_call _ (λ sel, IA.UIDNext sel = uidNext)), (t_select Htrue)|cbv beta; intros sel Hsel].
  eapply gives_bind; [apply gives_any|intros _ _]. rewrite Hsel. unfold uint32. rewrite Z.mod_small by lia.
  set (h0 := if _ : bool then _ else _).
  assert (h0 = top_uid ∧ 0 <= top_uid) as [-> Htop].
  { subst h0. unfold top_uid. destruct (BeforeUID input =? 0) eqn:?; simpl; bool_to_prop; [lia|].
    destruct (_ <? _) eqn:?; bool_to_prop; lia. }
  eapply gives_bind; [apply scan_loop_ok; [|unfold window, MaxUIDsScanned; simpl; lia]|intros s [Hs Hstop]].
  { split; simpl; [lia|lia|unfold MaxUIDsScanned; lia|constructor|]. intros u. split; [by intros ?%elem_of_nil|intros [_ ?]; lia]. }
  assert ((if limit <? zlen (IA.descending (found s)) then take (Z.to_nat limit) (IA.descending (found s))
           else IA.descending (found s)) = take (Z.to_nat limit) (IA.descending (found s))) as ->.
  { destruct (_ <? _) eqn:Hc; [done|]. bool_to_prop. rewrite take_ge; [done|unfold zlen in *; lia]. }
  eapply (gives_bind _ _ (λ ms, map MsUID ms = take (Z.to_nat limit) (IA.descending (found s)))).
  { assert (StronglySorted (λ a b, b < a) (take (Z.to_nat limit) (IA.descending (found s)))) as Hsorted
      by apply sorted_take, descending_strict, Hs.
    destruct (take _ _) as [|u us]; [by apply gives_ret|].
    eapply gives_bind; [apply (gives_call _ (λ ms, map IA.UID ms ≡ₚ u :: us)); intros w ms; apply (t_fetch Htrue)|].
    cbv beta. intros ms Hms. apply gives_ret. by apply summaries_uids. }
  cbv beta. intros messages Hms. apply gives_ret. by apply page_from_scan.
Qed.

(** (C30) Against a server that answers for one mailbox truthfully, its matching
    messages still there, a page of search_messages holds matching messages
    only, newest first, at most as many as asked for, and its cursor is below
    where the page started, so following it ends.  A page that shows a message,
    or is not marked truncated, leaves no gap: every match from the returned
    cursor up to where the page starts is on it, so without a cursor it shows
    all that is left.  The one exception is a page that is marked truncated and
    empty: then the newest match, alone in an answer, does not fit 256 KiB. *)
Theorem search_page_complete :
  0 <= BeforeUID input →
  gives (W:=W) (SearchMessages input) (page_ok (if SiLimit input =? 0 then 20 else SiLimit input)).
Proof.
  intros Hb. eapply gives_bind; [apply gives_of_result|intros [] Hv]. apply gives_read, search_op_ok; [|done].
  unfold validateSearchInput in Hv. apply bind_ok in Hv as ([] & _ & Hv). apply bind_ok in Hv as ([] & _ & Hv).
  rewrite !reject_ok in Hv. destruct Hv as (_ & _ & Hl & _). apply orb_false_iff in Hl as [Hl _].
  destruct (SiLimit input =? 0) eqn:?; bool_to_prop; lia.
Qed.
End Pages.

(** A mailbox with the UIDs 3, 5 and 8. *)
Definition box : list Z := [3; 5; 8].
Definition box_message (uid : Z) : IA.Message := IA.flags_message uid (IA.bare_buffer uid 1).
Definition box_net : MailNet unit := {|
  ask X q w := (w, match q in query X return X with
                   | Allow _ => true | Acquire _ => true | CtxErr => false
                   | Capabilities => IA.no_caps
                   | SupportsConditionalStore => false
                   end);
  exec X c w := (w, match c in cmd X return reply X with
                    | SelectBox _ _ => Ret (IA.MkSelected 7 10)
                    | Search r => Ret (List.filter (λ u, (IA.UIDMin r <=? u) && (u <=? IA.UIDMax r)) box)
                    | FetchMetadata uids _ => Ret (map box_message uids)
                    | ImapDial | ImapLogin | ImapClose | Release _ => Ret tt
                    | _ => Panic
                    end) |}.
Definition small_sizes : Sizes := {| size_mailboxes _ := 0; size_search r := 1000 * zlen (Messages r) |}.
Definition box_search (before limit : Z) : SearchInput :=
  MkSearchInput "INBOX" "" "" "" "" (GTime zero_time UTC) (GTime zero_time UTC) false false before 7 limit.
Lemma box_truthful before limit : @truthful unit box_net (box_search before limit) 10 box.
Proof.
  split; [lia|unfold box; set_solver by lia| | |].
  - by intros [] sel [= <-].
  - intros [] lo hi l [= <-] u. change (u ∈ List.filter (λ u, (lo <=? u) && (u <=? hi)) box ↔ u ∈ box ∧ lo <= u <= hi).
    by rewrite !list_elem_of_In, filter_In, andb_true_iff, !Z.leb_le.
  - intros [] uids ms [= <-]. rewrite map_map. simpl. by rewrite map_id.
Qed.
Lemma search_page_complete_witness :
  let run := @SearchMessages unit box_net ascii_tables small_sizes (box_search 0 2) (MkEnv tt [] false) in
  match run.2 with
  | Ret r => shown r = [8; 5] ∧ NextBeforeUID r = 5 ∧ @page_ok small_sizes (box_search 0 2) 10 box 2 r
  | _ => False
  end.
Proof.
  cbv zeta. destruct (@SearchMessages unit box_net ascii_tables small_sizes (box_search 0 2) (MkEnv tt [] false)) as [e res] eqn:Hrun.
  pose proof (@search_page_complete unit box_net ascii_tables small_sizes (box_search 0 2) 10 box (box_truthful 0 2)) as Hall.
  assert (res = (@SearchMessages unit box_net ascii_tables small_sizes (box_search 0 2) (MkEnv tt [] false)).2) as Hres
    by (rewrite Hrun; reflexivity).
  destruct res as [r|err|]; [|vm_compute in Hres; discriminate Hres..].
  assert (@page_ok small_sizes (box_search 0 2) 10 box 2 r) as Hok by (eapply Hall; [simpl; lia|exact Hrun]).
  vm_compute in Hres. injection Hres as ->. split; [reflexivity|split; [reflexivity|exact Hok]].
Defined.

(** A newest match that alone exceeds the answer hides the others: the page is
    empty and has no cursor. *)
Definition big_newest : Sizes :=
  {| size_mailboxes _ := 0;
     size_search r := if bool_decide (8 ∈ map MsUID (Messages r)) then MaxResultBytes + 1 else 1000 |}.
Lemma oversized_newest_hides :
  match (@SearchMessages unit box_net ascii_tables big_newest (box_search 0 20) (MkEnv tt [] false)).2 with
  | Ret r => Messages r = [] ∧ SrTruncated r = true ∧ NextBeforeUID r = 0
  | _ => False
  end.
Proof. vm_compute. auto. Qed.
