(* ===== verification/MailSend.v ===== *)
(** Sending mail (src/internal/mail/smtp.go, archive.go, the constructor of
    service.go): the message, one SMTP submission with its phases, the copy in
    Sent, and the mapping of failures. *)
From S2P Require Import Prelude GoStrings GoTime GoEncode NetMail Scopes MailTypes MailValidation ImapAdapter MailClient MailMutation.
Import MT.

(** * The service *)

Record MailConfig := MkMailConfig {
  cfg_Address : string; cfg_Password : string; cfg_RecipientPolicy : RecipientPolicy;
  cfg_EnableSentCopy : bool; cfg_ArchiveScope : list string;
}.
Record MailClient := MkMailClient { config : MailConfig; mutationEnabled : bool; sendEnabled : bool }.

(** [newService]; the flags tell which dialers and factories are nil. *)
Definition newService (c : MailConfig) (has_imap has_smtp enableMutation enableSend : bool) : result Error MailClient :=
  match validateAddrSpec (cfg_Address c) with
  | Err _ => Err (validationError "mail address must be a plain addr-spec")
  | Ok address =>
      reject len (cfg_Password c) <? 8 with validationError "mail password must be at least 8 characters" ;;
      reject negb has_imap with validationError "an IMAP dialer is required" ;;
      reject enableSend && (negb (policy_valid (cfg_RecipientPolicy c)) || negb has_smtp)
        with validationError "mail send requires an SMTP dialer and recipient policy" ;;
      Ok (MkMailClient (MkMailConfig address (cfg_Password c) (cfg_RecipientPolicy c) (cfg_EnableSentCopy c)
                          (cfg_ArchiveScope c)) enableMutation enableSend)
  end.

(** * Errors *)

Definition definitiveSMTPReply (err : mail_error) : bool :=
  match err with Smtp (SmtpReply code) => (400 <=? code) && (code <=? 599) | _ => false end.
Definition unknown_submission : Error :=
  MkError CodeOutcomeUnknown "message submission outcome is unknown" false 0
    "Check Sent and the recipients before deciding whether to send again.".
Definition class_of (code : Z) : Z := Z.quot code 100.
(** The SMTP reply codes of [mapSMTPError]. *)
Definition reply_error (code : Z) (dataStarted : bool) (message : string) : Error :=
  if class_of code =? 4
  then if dataStarted then newError CodeUnavailable message else newRetryableError CodeUnavailable message
  else if code =? 535 then newError CodeAuthentication "SMTP authentication was rejected"
  else if code =? 552 then newError CodePayloadTooLarge "SMTP server rejected the message size"
  else if class_of code =? 5 then newError CodeAuthorization message
  else newError CodeProtocolError message.

Section Send.
Context {W : Type} `{MailNet W}.

Definition mapSMTPError (err : mail_error) (dataStarted : bool) (message : string) : Net W Error :=
  if dataStarted && negb (definitiveSMTPReply err) then mret unknown_submission
  else match err with
       | Smtp SmtpInboundLimit | Smtp SmtpTooLongLine =>
           mret (newError CodePayloadTooLarge "SMTP response exceeded the inbound limit")
       | Smtp SmtpUTF8Unavailable =>
           mret (newError CodeProtocolError "SMTPUTF8 is required for an internationalized address but was not advertised")
       | Smtp (SmtpReply code) => mret (reply_error code dataStarted message)
       | _ =>
           ended ← query_ CtxErr;
           mret (if (ended : bool) || match err with NetError tmo => tmo | _ => false end then contextError
                 else if dataStarted then newError CodeUnavailable message
                 else newRetryableError CodeUnavailable message)
       end.
Definition mapSMTPAuthError (err : mail_error) : Net W Error :=
  match err with
  | Smtp SmtpInboundLimit | Smtp SmtpTooLongLine =>
      mret (newError CodePayloadTooLarge "SMTP response exceeded the inbound limit")
  | Smtp SmtpAuthUnavailable =>
      mret (newError CodeProtocolError "SMTP PLAIN authentication is unavailable after STARTTLS")
  | Smtp (SmtpReply code) =>
      mret (if class_of code =? 4 then newRetryableError CodeUnavailable "SMTP authentication is temporarily unavailable"
            else if class_of code =? 5 then newError CodeAuthentication "SMTP authentication was rejected"
            else newError CodeProtocolError "SMTP server returned an unexpected authentication response")
  | _ =>
      ended ← query_ CtxErr;
      if ended : bool then mret contextError else mapSMTPError err false "SMTP authentication failed"
  end.

(** * The message *)

Definition group_member (policy : RecipientPolicy) (name : string) (s : list string * gset string) (value : string)
    : result Error (list string * gset string) :=
  match validateAddrSpec value with
  | Err _ => Err (validationError (name ++ " contains an invalid plain addr-spec"))
  | Ok address =>
      let key := asciiLower address in
      reject bool_decide (key ∈ s.2) with validationError "recipient addresses must be unique" ;;
      reject negb (allows policy address)
        with newError CodeAuthorization "recipient is not permitted by the configured allowlist" ;;
      Ok ((s.1 ++ [address])%list, {[key]} ∪ s.2)
  end.
Definition validateRecipientGroup (policy : RecipientPolicy) (name : string) (values : list string)
    (s : list string * gset string) : result Error (list string * gset string) :=
  fold_res (group_member policy name) values s.
Definition validate_recipients (policy : RecipientPolicy) (input : SendInput) : result Error (list string) :=
  s ← validateRecipientGroup policy "to" (SendTo input) ([], ∅);
  s ← validateRecipientGroup policy "cc" (SendCc input) s;
  s ← validateRecipientGroup policy "bcc" (SendBcc input) s;
  reject zlen s.1 =? 0 with validationError "at least one recipient is required" ;;
  reject MaxRecipients <? zlen s.1 with validationError "recipient count exceeds 50" ;;
  Ok s.1.
Definition has_nul (s : string) : bool := bool_decide ("000"%char ∈ bytes s).
Definition validate_content (input : SendInput) : result Error unit :=
  reject (MaxSubjectBytes <? len (SendSubject input)) || negb (valid_utf8 (bytes (SendSubject input)))
         || hasDisallowedControl (SendSubject input) false
    with validationError "subject contains invalid or excessive data" ;;
  reject (MaxSendBodyBytes <? len (SendBody input)) || negb (valid_utf8 (bytes (SendBody input)))
         || has_nul (SendBody input)
    with validationError "body contains invalid or excessive data" ;;
  validateReplyHeaders (SendInReplyTo input) (SendReferences input).

Definition domain_of (address : string) : string :=
  match last_index_byte "@"%char (bytes address) with
  | Some at_ => if (at_ + 1 <? length (bytes address))%nat then str (drop (at_ + 1) (bytes address)) else "localhost"
  | None => "localhost"
  end.
Definition message_id (nonce : list ascii) (address : string) : string := hex_encode nonce ++ "@" ++ domain_of address.
Definition containsNonASCII (value : string) : bool := negb (is_ascii_b (bytes value)).

Record preparedMessage := MkPrepared { p_bytes : list ascii; p_messageID : string; p_recipients : list string; p_smtpUTF8 : bool }.
Definition draft_of (address messageID : string) (input : SendInput) : draft :=
  MkDraft address (SendTo input) (SendCc input) messageID (SendSubject input)
    (if decide (SendInReplyTo input = "") then [] else [trim (SendInReplyTo input) "<>"])
    (map (λ r, trim r "<>") (SendReferences input)) (SendBody input).
Definition buildMessage (c : MailConfig) (input : SendInput) : Net W preparedMessage :=
  recipients ← of_result (validate_recipients (cfg_RecipientPolicy c) input);
  of_result (validate_content input);;
  nonce ← caught (call Nonce);
  match nonce with
  | Err _ => fail (Public (newError CodeInternalError "could not generate a message identifier"))
  | Ok nonce =>
      let messageID := message_id nonce (cfg_Address c) in
      encoded ← caught (call (Encode (draft_of (cfg_Address c) messageID input)));
      match encoded with
      | Err _ => fail (Public (newError CodeInternalError "could not encode the message"))
      | Ok encoded =>
          fail_if (MaxEncodedMessage <? zlen encoded)
            (Public (newError CodePayloadTooLarge "encoded message exceeds 256 KiB"));;
          mret (MkPrepared encoded messageID recipients
                  (containsNonASCII (cfg_Address c) || existsb containsNonASCII recipients))
      end
  end.

(** * The copy in Sent *)

Definition sent_mailboxes (mailboxes : list IA.Mailbox) : list string :=
  map IA.Name (List.filter (λ m, isSelectable m && has_attribute "\Sent" m) mailboxes).
(** [safeCloseIMAPSession]: a panic of the session's Close ends it. *)
Definition safeCloseIMAPSession : Net W unit := λ e,
  let '(e, r) := call ImapClose e in
  match r with Panic => (e, Ret tt) | _ => cleanup ConnClose e end.
(** Status, mailbox and error. *)
Definition archival : Type := (string * string * option mail_error)%type.
Definition append_copy (c : MailConfig) (message : list ascii) : Net W archival :=
  r ← caught (call ListBoxes);
  match r with
  | Err err => mret ("failed", "", Some err)
  | Ok mailboxes =>
      match sent_mailboxes mailboxes with
      | [sent] =>
          if negb (bool_decide (cfg_ArchiveScope c = [])) && negb (bool_decide (sent ∈ cfg_ArchiveScope c))
          then mret ("failed", sent, Some OtherError)
          else
            r ← caught (call (AppendSent sent message));
            mret (match r with
                  | Ok _ => ("stored", sent, None)
                  | Err err => (if match err with Imap e => IA.Ambiguous e | _ => false end then "unknown" else "failed",
                                sent, Some err)
                  end)
      | _ => mret ("failed", "", Some OtherError)
      end
  end.
(** [operation], then the session and the connection closed on every way out. *)
Definition with_session {A} (operation : Net W A) : Net W A := λ e,
  let '(e, r) := operation e in
  let '(e, _) := safeCloseIMAPSession e in (e, r).
Definition archiveSent (c : MailConfig) (message : list ascii) : Net W archival :=
  if negb (cfg_EnableSentCopy c) then mret ("disabled", "", None)
  else
    r ← caught (call ImapDial);
    match r with
    | Err err => mret ("failed", "", Some err)
    | Ok _ =>
        r ← caught (call ImapLogin);
        match r with
        | Err err => cleanup ConnClose;; mret ("failed", "", Some err)
        | Ok _ => with_session (append_copy c message)
        end
    end.

(** * One submission

    [sendOnce] fills its result as it goes and returns it from wherever it
    stops; a panic is recovered with the result filled so far. *)
Record progress := MkProgress { pr_result : SendResult; pr_dialed : bool }.
Inductive flow (A : Type) :=
| Next (a : A)
| Return (err : option mail_error)
| Crash.
#[global] Arguments Next {A} a.
#[global] Arguments Return {A} err.
#[global] Arguments Crash {A}.
Definition SM (A : Type) : Type := env W → progress → env W * progress * flow A.
#[global] Instance SM_ret : MRet SM := λ A a e p, (e, p, Next a).
#[global] Instance SM_bind : MBind SM := λ A B f m e p,
  let '(e, p, r) := m e p in
  match r with Next a => f a e p | Return err => (e, p, Return err) | Crash => (e, p, Crash) end.
(** A step with its error as a value. *)
Definition try {A} (m : Net W A) : SM (result mail_error A) := λ e p,
  let '(e, r) := m e in
  (e, p, match r with Ret a => Next (Ok a) | Fail err => Next (Err err) | Panic => Crash end).
Definition return_ {A} (err : option mail_error) : SM A := λ e p, (e, p, Return err).
Definition update (f : SendResult → SendResult) : SM unit := λ e p,
  (e, MkProgress (f (pr_result p)) (pr_dialed p), Next tt).
Definition mark_dialed : SM unit := λ e p, (e, MkProgress (pr_result p) true, Next tt).
(** [m], with [c] deferred. *)
Definition deferring {A} (c : Net W unit) (m : SM A) : SM A := λ e p,
  let '(e, p, r) := m e p in ((c e).1, p, r).
(** [return result, err] of a mapped error. *)
Definition refused {A} (m : Net W Error) : SM A :=
  r ← try m;
  match r with Ok err => return_ (Some (Public err)) | Err err => return_ (Some err) end.

Definition empty_result : SendResult := MkSendResult SendNone "" [] "" "" "" false "".
Definition with_status (st : SendStatus) (r : SendResult) : SendResult :=
  MkSendResult st (SendMessageID r) (SendRecipients r) (ArchivalStatus r) (SentDestination r) (ArchivalError r)
    (SentCopyUnavailable r) (SendReconciliation r).
Definition unknownSMTPOutcome (r : SendResult) : SendResult :=
  MkSendResult SendOutcomeUnknown (SendMessageID r) (SendRecipients r) (ArchivalStatus r) (SentDestination r)
    (ArchivalError r) (SentCopyUnavailable r) (Reconciliation unknown_submission).
Definition add_recipients (l : list RecipientStatus) (r : SendResult) : SendResult :=
  MkSendResult (SendResStatus r) (SendMessageID r) (SendRecipients r ++ l)%list (ArchivalStatus r) (SentDestination r)
    (ArchivalError r) (SentCopyUnavailable r) (SendReconciliation r).
Definition not_attempted (index count : Z) : list RecipientStatus :=
  map (λ i, MkRecipientStatus i false "not_attempted") (seqZ (index + 1) (count - index - 1)).
(** [s.client.Data], the write and the close of [smtpClientSession.Data]; the
    flag is [phase.started]. *)
Definition Data (message : list ascii) : SM (result mail_error unit) :=
  r ← try (call SmtpDataCommand);
  match r with
  | Err err => mret (Err err)
  | Ok _ =>
      try (mark_dispatched true);;
      r ← try (call (SmtpWrite message));
      match r with Err err => mret (Err err) | Ok _ => try (call SmtpFinish) end
  end.
(** The RCPT commands; [first] is [firstRejection]. *)
Fixpoint rcpt_loop (index count : Z) (recipients : list string) (first : option mail_error) : SM (option mail_error) :=
  match recipients with
  | [] => mret first
  | recipient :: recipients =>
      r ← try (call (SmtpRcpt recipient));
      match r with
      | Ok _ =>
          update (add_recipients [MkRecipientStatus index true ""]);;
          rcpt_loop (index + 1) count recipients first
      | Err err =>
          update (add_recipients [MkRecipientStatus index false "rejected"]);;
          if definitiveSMTPReply err
          then rcpt_loop (index + 1) count recipients (match first with None => Some err | Some _ => first end)
          else
            update (add_recipients (not_attempted index count));;
            try (call SmtpReset);;
            refused (mapSMTPError err false "recipient command failed")
      end
  end.
Definition archived (a : archival) (r : SendResult) : SendResult :=
  let '(status, destination, err) := a in
  let stored := String.eqb status "stored" in
  MkSendResult (SendResStatus r) (SendMessageID r) (SendRecipients r) status destination
    (if stored then ArchivalError r
     else match err with
          | None => ArchivalError r
          | Some (Public e) => code_string (ErrCode e)
          | Some _ => "archive_failed"
          end)
    (if stored then false else SentCopyUnavailable r) (SendReconciliation r).
(** After the server took the message. *)
Definition accepted (c : MailConfig) (input : SendInput) (message : list ascii) : SM unit :=
  update (λ r, MkSendResult SendAccepted (SendMessageID r) (SendRecipients r) (ArchivalStatus r) (SentDestination r)
                 (ArchivalError r) true (SendReconciliation r));;
  if ArchiveSent input
  then
    a ← try (archiveSent c message);
    match a with
    | Ok a => update (archived a);; return_ None
    | Err _ => return_ None
    end
  else if cfg_EnableSentCopy c
  then
    update (λ r, MkSendResult (SendResStatus r) (SendMessageID r) (SendRecipients r) "not_attempted" (SentDestination r)
                   (ArchivalError r) (SentCopyUnavailable r) (SendReconciliation r));;
    return_ None
  else return_ None.
(** [safeCloseSMTPSession]. *)
Definition safeCloseSMTPSession : Net W unit := λ e,
  let '(e, r) := call SmtpClose e in
  match r with Ret _ => (e, Ret tt) | _ => cleanup SmtpConnClose e end.
(** A failed [session.Data]. *)
Definition data_failed (err : mail_error) : SM unit :=
  started ← try was_dispatched;
  match started with
  | Ok true =>
      if definitiveSMTPReply err then refused (mapSMTPError err true "message data was rejected")
      else update unknownSMTPOutcome;; return_ (Some (Public unknown_submission))
  | _ => refused (mapSMTPError err false "DATA command failed")
  end.
(** From AUTH to the end, on an open session. *)
Definition submit (c : MailConfig) (input : SendInput) (p : preparedMessage) : SM unit :=
  r ← try (call SmtpAuth);
  match r with Err err => refused (mapSMTPAuthError err) | Ok _ =>
  r ← try (call (SmtpMail (cfg_Address c) (zlen (p_bytes p)) (p_smtpUTF8 p)));
  match r with Err err => refused (mapSMTPError err false "envelope sender was rejected") | Ok _ =>
  first ← rcpt_loop 0 (zlen (p_recipients p)) (p_recipients p) None;
  match first with
  | Some err =>
      try (call SmtpReset);;
      refused (mapSMTPError err false "one or more recipients were rejected")
  | None =>
      r ← Data (p_bytes p);
      match r with
      | Err err => data_failed err
      | Ok _ => accepted c input (p_bytes p)
      end
  end end end.
Definition connected (c : MailConfig) (input : SendInput) (p : preparedMessage) : SM unit :=
  r ← try (call SmtpDial);
  match r with
  | Err err => refused (mapSMTPError err false "submission connection failed")
  | Ok _ =>
      mark_dialed;;
      r ← try (call SmtpStart);
      match r with
      | Err err =>
          try (call SmtpConnClose);;
          refused (mapSMTPError err false "STARTTLS negotiation failed")
      | Ok _ => deferring safeCloseSMTPSession (submit c input p)
      end
  end.
(** The body of [sendOnce], before its panics are recovered. *)
Definition send_body (s : MailClient) (input : SendInput) : SM unit :=
  let c := config s in
  if negb (sendEnabled s) then return_ (Some (Public (newError CodeAuthorization "mail send is disabled")))
  else if ArchiveSent input && negb (cfg_EnableSentCopy c)
  then return_ (Some (Public (validationError "Sent-copy archival is not enabled")))
  else
    prepared ← try (buildMessage c input);
    match prepared with
    | Err err => update (λ _, with_status SendRejected empty_result);; return_ (Some err)
    | Ok p =>
        allowed ← try (query_ (Allow Sending));
        match allowed with
        | Ok true =>
            got ← try (acquire Sending);
            match got with
            | Err err => return_ (Some err)
            | Ok _ =>
                deferring (cleanup (Release Sending))
                  (update (λ _, MkSendResult SendRejected (p_messageID p) [] "" "" "" false "");;
                   connected c input p)
            end
        | _ => return_ (Some (Public (newRetryableError CodeRateLimited "local mail send rate limit reached")))
        end
    end.
Definition sendOnce (s : MailClient) (input : SendInput) (e : env W) : env W * (SendResult * option mail_error) :=
  let '(e, p, r) := send_body s input (MkEnv (world e) (log e) false) (MkProgress empty_result false) in
  match r with
  | Next _ => (e, (pr_result p, None))
  | Return err => (e, (pr_result p, err))
  | Crash =>
      let e := if pr_dialed p then (cleanup SmtpConnClose e).1 else e in
      if decide (SendResStatus (pr_result p) = SendAccepted) then (e, (pr_result p, None))
      else if dispatched e then (e, (unknownSMTPOutcome (pr_result p), Some (Public unknown_submission)))
      else (e, (with_status SendRejected (pr_result p),
                Some (Public (newError CodeProtocolError "SMTP parser returned an unsafe protocol response"))))
  end.
End Send.

(** * What the server saw *)

Inductive wire_step :=
| RcptStep (address : string)
| DataStep
| WriteStep (message : list ascii)
| FinishStep.
Definition step_of {X} (c : cmd X) : option wire_step :=
  match c with
  | SmtpRcpt a => Some (RcptStep a)
  | SmtpDataCommand => Some DataStep
  | SmtpWrite m => Some (WriteStep m)
  | SmtpFinish => Some FinishStep
  | _ => None
  end.
Definition answer {X} (r : reply X) : reply unit :=
  match r with Ret _ => Ret tt | Fail err => Fail err | Panic => Panic end.
Definition wire_event (ev : event) : option (wire_step * reply unit) :=
  match ev with Ev c r => s ← step_of c; Some (s, answer r) | Asked _ _ => None end.
Definition wire (t : list event) : list (wire_step * reply unit) := omap wire_event t.
(** What became of the message: never handed over, taken by the server,
    refused by it, or unknown. *)
Inductive fate := NotSent | Taken | Refused | Unknown.
Definition body_fate (y : list (wire_step * reply unit)) : fate :=
  match y with
  | [(WriteStep _, Ret _); (FinishStep, Ret _)] => Taken
  | [(WriteStep _, Fail err)] | [(WriteStep _, Ret _); (FinishStep, Fail err)] =>
      if definitiveSMTPReply err then Refused else Unknown
  | _ => Unknown
  end.
Fixpoint fate_of (y : list (wire_step * reply unit)) : fate :=
  match y with
  | [] => NotSent
  | (DataStep, Ret _) :: y => body_fate y
  | _ :: y => fate_of y
  end.
(** The part of the dialogue after the recipients. *)
Inductive data_dialogue : list (wire_step * reply unit) → Prop :=
| data_none : data_dialogue []
| data_command r : data_dialogue [(DataStep, r)]
| data_write m r : zlen m <= MaxEncodedMessage → data_dialogue [(DataStep, Ret tt); (WriteStep m, r)]
| data_finish m r : zlen m <= MaxEncodedMessage →
    data_dialogue [(DataStep, Ret tt); (WriteStep m, Ret tt); (FinishStep, r)].
Definition rcpt_steps (rs : list (string * reply unit)) : list (wire_step * reply unit) :=
  map (λ x, (RcptStep x.1, x.2)) rs.
(** Recipients are named in order; DATA follows only once every one of them
    was accepted. *)
Definition dialogue (recipients : list string) (y : list (wire_step * reply unit)) : Prop :=
  ∃ rs tail, y = (rcpt_steps rs ++ tail)%list ∧ rs.*1 `prefix_of` recipients ∧ data_dialogue tail ∧
    (tail ≠ [] → rs = map (λ a, (a, Ret tt)) recipients).
Definition submitted (policy : RecipientPolicy) (input : SendInput) (y : list (wire_step * reply unit)) : Prop :=
  y = [] ∨ ∃ recipients, validate_recipients policy input = Ok recipients ∧ dialogue recipients y.
(** The status, the error and the fate of the message agree. *)
Definition told (st : SendStatus) (err : option mail_error) (f : fate) : Prop :=
  match st with
  | SendAccepted => err = None ∧ f = Taken
  | SendOutcomeUnknown => err = Some (Public unknown_submission) ∧ f = Unknown
  | SendNone | SendRejected => (∃ e, err = Some (Public e)) ∧ (f = NotSent ∨ f = Refused)
  end.

Lemma wire_app t1 t2 : wire (t1 ++ t2) = (wire t1 ++ wire t2)%list.
Proof. apply omap_app. Qed.
Lemma fate_rcpts rs y : fate_of (rcpt_steps rs ++ y) = fate_of y.
Proof. by induction rs as [|[a []] rs IH]. Qed.

(** Every accepted recipient list is non-empty, within the limit, without a
    repeated address and allowed by the policy. *)
Definition group_ok (policy : RecipientPolicy) (s : list string * gset string) : Prop :=
  Forall (λ a, allows policy a = true) s.1 ∧ NoDup (map asciiLower s.1) ∧ ∀ k, k ∈ s.2 ↔ k ∈ map asciiLower s.1.
Lemma group_member_ok policy name s v s' : group_ok policy s → group_member policy name s v = Ok s' → group_ok policy s'.
Proof.
  intros (Ha & Hn & Hs). unfold group_member. destruct (validateAddrSpec v) as [a|]; [|done].
  case_bool_decide as Hd; [done|]. destruct (allows policy a) eqn:Hallow; [|done]. intros [= <-]. simpl in *.
  split_and!; simpl.
  - apply Forall_app. by split; [|constructor].
  - rewrite map_app. apply NoDup_app. split_and!; [done| |apply NoDup_singleton].
    intros x Hx ->%list_elem_of_singleton. by apply Hd, Hs.
  - intros k. rewrite map_app, elem_of_app, elem_of_union, elem_of_singleton, Hs. simpl. rewrite list_elem_of_singleton. tauto.
Qed.
Lemma validate_recipients_ok policy input recipients : validate_recipients policy input = Ok recipients →
  Forall (λ a, allows policy a = true) recipients ∧ NoDup (map asciiLower recipients) ∧
  1 <= zlen recipients <= MaxRecipients.
Proof.
  unfold validate_recipients, validateRecipientGroup. intros Hv.
  assert (∀ name vs s s', group_ok policy s → fold_res (group_member policy name) vs s = Ok s' → group_ok policy s') as Hgroup.
  { intros name vs s s' Hs. apply fold_res_inv; [done|]. intros s1 v s2 _. apply group_member_ok. }
  assert (group_ok policy ([], ∅)) as H0 by (split_and!; [constructor..|set_solver]).
  unfold mbind, result_bind in Hv.
  destruct (fold_res _ (SendTo input) _) as [s1|] eqn:H1; [|done].
  destruct (fold_res _ (SendCc input) _) as [s2|] eqn:H2; [|done].
  destruct (fold_res _ (SendBcc input) _) as [s3|] eqn:H3; [|done].
  assert (group_ok policy s3) as (Ha & Hn & _) by eauto.
  destruct (Z.eqb_spec (zlen s3.1) 0); [done|]. destruct (Z.ltb_spec MaxRecipients (zlen s3.1)); [done|].
  injection Hv as <-. split_and!; [done..| |done]. pose proof (zlen_nonneg s3.1). lia.
Qed.

(** * Steps the SMTP server does not see *)

(** [m] sends nothing about the message, keeps the flag, and its failures
    satisfy [F]. *)
Definition silent {W A} (F : mail_error → Prop) (m : Net W A) : Prop :=
  ∀ d, triple d m (λ t d' r, wire t = [] ∧ d' = d ∧ match r with Fail err => F err | _ => True end).
Definition is_public (err : mail_error) : Prop := ∃ e, err = Public e.

Section Silent.
Context {W : Type} `{MailNet W} (F : mail_error → Prop).

Lemma silent_ret {A} (a : A) : silent (W:=W) F (mret a).
Proof. intros d. by apply triple_ret. Qed.
Lemma silent_fail {A} err : F err → silent (W:=W) (A:=A) F (fail err).
Proof. intros Hf d. by apply triple_fail. Qed.
Lemma silent_bind {A B} (m : Net W A) (f : A → Net W B) : silent F m → (∀ a, silent F (f a)) → silent F (m ≫= f).
Proof.
  intros Hm Hf d. eapply triple_bind; [apply Hm| |done|done].
  intros t d1 a (Ht & -> & _). eapply triple_weaken; [apply Hf|].
  intros t2 d2 r (Ht2 & -> & Hr). by rewrite wire_app, Ht, Ht2.
Qed.
Lemma silent_query {X} (q : query X) : silent (W:=W) F (query_ q).
Proof. intros d. by apply triple_query. Qed.
Lemma silent_cleanup {X} (c : cmd X) : step_of c = None → silent (W:=W) F (cleanup c).
Proof. intros Hc d. apply triple_cleanup. intros r. unfold wire. simpl. by rewrite Hc. Qed.
Lemma silent_caught {A} (m : Net W A) : silent (λ _, True) m → silent F (caught m).
Proof. intros Hm d. eapply triple_caught; [apply Hm|naive_solver..]. Qed.
Lemma silent_call {X} (c : cmd X) : step_of c = None → silent (W:=W) (λ _, True) (call c).
Proof. intros Hc d. apply triple_call. intros w. unfold wire. simpl. rewrite Hc. by destruct (exec c w).2. Qed.
Lemma silent_fail_if (c : bool) err : F err → silent (W:=W) F (fail_if c err).
Proof. intros Hf. destruct c; [by apply silent_fail|apply silent_ret]. Qed.
Lemma silent_of_result {A} (r : result Error A) : (∀ e, F (Public e)) → silent (W:=W) F (of_result r).
Proof. intros Hf. destruct r; [apply silent_ret|by apply silent_fail]. Qed.
End Silent.
Ltac quietly := repeat first
  [ apply silent_ret | apply silent_query | apply silent_bind; [|intros ?] | apply silent_caught, silent_call; reflexivity
  | apply silent_cleanup; reflexivity | apply silent_call; reflexivity | apply silent_caught
  | apply silent_fail | apply silent_fail_if | apply silent_of_result; [intros ?; by eexists|..]
  | match goal with |- silent _ (match ?x with _ => _ end) => destruct x end
  | by eexists | exact I | done ].

Section SilentParts.
Context {W : Type} `{MailNet W}.

Lemma silent_acquire l : silent (W:=W) is_public (acquire l).
Proof. unfold acquire. quietly. Qed.
Lemma silent_buildMessage c input : silent (W:=W) is_public (buildMessage c input).
Proof. unfold buildMessage. quietly. Qed.
(** [m] does neither fail nor panic. *)
Definition calm {A} (m : Net W A) : Prop := ∀ d, triple d m (λ t d' r, wire t = [] ∧ d' = d ∧ ∃ a, r = Ret a).
Lemma calm_ret {A} (a : A) : calm (mret a).
Proof. intros d. apply triple_ret. eauto. Qed.
Lemma calm_ask {A X} (q : query X) (f : X → Net W A) : (∀ a, calm (f a)) → calm (query_ q ≫= f).
Proof. intros Hf d. apply triple_query_bind. intros a. apply Hf. Qed.
Lemma calm_mapSMTPError err b m : calm (mapSMTPError err b m).
Proof.
  unfold mapSMTPError. destruct (b && _); [apply calm_ret|].
  destruct err as [?|?|[]|?| |]; first [apply calm_ret|apply calm_ask; intros ?; apply calm_ret].
Qed.
Lemma calm_mapSMTPAuthError err : calm (mapSMTPAuthError err).
Proof.
  unfold mapSMTPAuthError.
  destruct err as [?|?|[]|?| |]; first [apply calm_ret|apply calm_ask; intros []; [apply calm_ret|apply calm_mapSMTPError]].
Qed.
Lemma silent_with_session {A} (m : Net W A) : silent (λ _, False) m → silent (λ _, False) (with_session m).
Proof.
  intros Hm d w l. unfold with_session. specialize (Hm d w l). destruct (m _) as [[w1 l1 d1] r].
  destruct Hm as (t & Hl & Ht & Hd & Hr). simpl in *. subst. unfold safeCloseIMAPSession, cleanup, call. simpl.
  destruct (exec ImapClose w1) as [w2 [?|?|]]; simpl; [destruct (exec ConnClose w2) as [w3 r3]..|]; simpl;
    rewrite <-?app_assoc; (eexists; split; [reflexivity|]); rewrite wire_app, Ht; done.
Qed.
Lemma silent_archiveSent c m : silent (W:=W) (λ _, False) (archiveSent c m).
Proof. unfold archiveSent, append_copy. quietly. all: apply silent_with_session; quietly. Qed.
End SilentParts.

(** * Running a submission *)

(** Running [m] with the flag at [d] and the result at [p] shows the server
    [y]; [Q] holds of it, the flag, the result and the way out. *)
Section Runs.
Context {W : Type} `{MailNet W}.
Definition post (A : Type) : Type := list (wire_step * reply unit) → bool → progress → flow A → Prop.
Definition runs {A} (d : bool) (p : progress) (m : SM (W:=W) A) (Q : post A) : Prop :=
  ∀ w l, let '(e, p', r) := m (MkEnv w l d) p in ∃ t, log e = (l ++ t)%list ∧ Q (wire t) (dispatched e) p' r.

Lemma runs_weaken {A} d p (m : SM A) (P Q : post A) :
  runs d p m P → (∀ y d' p' r, P y d' p' r → Q y d' p' r) → runs d p m Q.
Proof.
  intros Hm HPQ w l. specialize (Hm w l). destruct (m _ _) as [[e p'] r]. destruct Hm as (t & Hl & HP). exists t. auto.
Qed.
Lemma runs_next {A} d p (a : A) (Q : post A) : Q [] d p (Next a) → runs d p (mret a) Q.
Proof. intros HQ w l. exists []. by rewrite app_nil_r. Qed.
Lemma runs_return {A} d p err (Q : post A) : Q [] d p (Return err) → runs d p (return_ err) Q.
Proof. intros HQ w l. exists []. by rewrite app_nil_r. Qed.
Lemma runs_update {A} d p f (g : unit → SM A) (Q : post A) :
  runs d (MkProgress (f (pr_result p)) (pr_dialed p)) (g tt) Q → runs d p (update f ≫= g) Q.
Proof. intros Hg w l. apply Hg. Qed.
Lemma runs_dialed {A} d p (g : unit → SM A) (Q : post A) :
  runs d (MkProgress (pr_result p) true) (g tt) Q → runs d p (mark_dialed ≫= g) Q.
Proof. intros Hg w l. apply Hg. Qed.
Lemma runs_mark {A} d p (g : _ → SM A) (Q : post A) :
  runs true p (g (Ok tt)) Q → runs d p (try (mark_dispatched true) ≫= g) Q.
Proof. intros Hg w l. apply Hg. Qed.
Lemma runs_was {A} d p (g : _ → SM A) (Q : post A) : runs d p (g (Ok d)) Q → runs d p (try was_dispatched ≫= g) Q.
Proof. intros Hg w l. apply Hg. Qed.
Lemma runs_bind {A B} d p (m : SM A) (f : A → SM B) (P : post A) (Q : post B) :
  runs d p m P →
  (∀ y d1 p1 r, P y d1 p1 r → match r with
     | Next a => runs d1 p1 (f a) (λ y2, Q (y ++ y2)%list)
     | Return err => Q y d1 p1 (Return err)
     | Crash => Q y d1 p1 Crash
     end) → runs d p (m ≫= f) Q.
Proof.
  intros Hm Hf w l. specialize (Hm w l). unfold mbind, SM_bind.
  destruct (m _ _) as [[[w1 l1 d1] p1] r]. destruct Hm as (t & Hl & HP). specialize (Hf _ _ _ _ HP). simpl in Hl.
  destruct r as [a|err|]; simpl in *; [|by eauto..].
  specialize (Hf w1 l1). destruct (f a _ _) as [[e2 p2] r2]. destruct Hf as (t2 & Hl2 & HQ).
  exists (t ++ t2)%list. by rewrite Hl2, Hl, app_assoc, wire_app.
Qed.
Lemma runs_assoc {A B C} d p (m : SM A) (g : A → SM B) (f : B → SM C) (Q : post C) :
  runs d p (m ≫= λ a, g a ≫= f) Q → runs d p ((m ≫= g) ≫= f) Q.
Proof.
  intros Hm w l. specialize (Hm w l). unfold mbind, SM_bind in *. by destruct (m _ _) as [[e p'] [a|err|]].
Qed.
Lemma runs_silent {A X} F (P : X → Prop) d p (m : Net W X) (f : result mail_error X → SM A) (Q : post A) :
  silent F m → gives m P → Q [] d p Crash → (∀ a, P a → runs d p (f (Ok a)) Q) →
  (∀ err, F err → runs d p (f (Err err)) Q) → runs d p (try m ≫= f) Q.
Proof.
  intros Hm HP Hc Ho He. eapply (runs_bind _ _ _ _ (λ y d' p' r, y = [] ∧ d' = d ∧ p' = p ∧
    match r with Next (Ok a) => P a | Next (Err err) => F err | Return _ => False | _ => True end)).
  - intros w l. unfold try. specialize (Hm d w l). specialize (HP (MkEnv w l d)).
    destruct (m _) as [[w1 l1 d1] r] eqn:Hrun. destruct Hm as (t & Hl & Ht & Hd & Hr). exists t. destruct r; eauto 10.
  - intros y d' p' r (-> & -> & -> & Hr). destruct r as [[a|err]|err|]; [by apply Ho|by apply He|done..].
Qed.
Lemma runs_step {A X} s d p (c : cmd X) (f : result mail_error X → SM A) (Q : post A) :
  step_of c = Some s → Q [(s, Panic)] d p Crash →
  (∀ a, runs d p (f (Ok a)) (λ y, Q ((s, Ret tt) :: y))) →
  (∀ err, runs d p (f (Err err)) (λ y, Q ((s, Fail err) :: y))) →
  runs d p (try (call c) ≫= f) Q.
Proof.
  intros Hs Hc Ho He.
  eapply (runs_bind _ _ _ _ (λ y d' p' r, d' = d ∧ p' = p ∧ match r with
    | Next (Ok _) => y = [(s, Ret tt)] | Next (Err err) => y = [(s, Fail err)]
    | Return _ => False | Crash => y = [(s, Panic)] end)).
  - intros w l. unfold try, call. simpl. destruct (exec c w) as [w1 r]. exists [Ev c r].
    split; [done|]. unfold wire. simpl. rewrite Hs. by destruct r.
  - intros y d' p' r (-> & -> & Hr). destruct r as [[a|err]|err|]; subst; [apply Ho|apply He|done..].
Qed.
Lemma runs_refused {A} d p (m : Net W Error) (Q : post A) :
  calm m → (∀ err, is_public err → Q [] d p (Return (Some err))) → runs d p (refused m) Q.
Proof.
  intros Hm Hq. eapply (runs_bind _ _ _ _ (λ y d' p' r, y = [] ∧ d' = d ∧ p' = p ∧ ∃ a, r = Next (Ok a))).
  - intros w l. unfold try. specialize (Hm d w l). destruct (m _) as [[w1 l1 d1] r].
    destruct Hm as (t & Hl & Ht & Hd & a & ->). exists t. eauto 10.
  - intros y d' p' r (-> & -> & -> & err & ->). apply runs_return, Hq. by eexists.
Qed.
Lemma runs_deferring {A} d p (c : Net W unit) (m : SM A) (Q : post A) :
  silent (λ _, True) c → runs d p m Q → runs d p (deferring c m) Q.
Proof.
  intros Hc Hm w l. unfold deferring. specialize (Hm w l). destruct (m _ _) as [[[w1 l1 d1] p1] r].
  destruct Hm as (t & Hl & HQ). simpl in *. specialize (Hc d1 w1 l1). destruct (c _) as [[w2 l2 d2] r2].
  destruct Hc as (t2 & Hl2 & Ht2 & Hd2 & _). simpl in *. subst d2. exists (t ++ t2)%list.
  by rewrite Hl2, Hl, app_assoc, wire_app, Ht2, app_nil_r.
Qed.
End Runs.

(** * The outcome of a submission *)

Section Outcome.
Context {W : Type} `{MailNet W}.

(** Where a submission may stop: it returns with the truth, or panics with
    enough kept for the recovery to tell it. *)
Definition settled (y : list (wire_step * reply unit)) (started : bool) (p : progress) (r : flow unit) : Prop :=
  match r with
  | Next _ => False
  | Return err => told (SendResStatus (pr_result p)) err (fate_of y)
  | Crash =>
      match SendResStatus (pr_result p) with
      | SendAccepted => fate_of y = Taken
      | SendOutcomeUnknown => False
      | _ => fate_of y = if started then Unknown else NotSent
      end
  end.
Definition good (recipients : list string) : post unit := λ y d p r, dialogue recipients y ∧ settled y d p r.

Lemma dialogue_rcpts recipients rs : rs.*1 `prefix_of` recipients → dialogue recipients (rcpt_steps rs).
Proof. intros Hp. exists rs, []. rewrite app_nil_r. split_and!; [done|done|constructor|done]. Qed.
Lemma dialogue_data recipients tail : data_dialogue tail →
  dialogue recipients (rcpt_steps (map (λ a, (a, Ret tt)) recipients) ++ tail).
Proof.
  intros Ht. eexists _, tail. split_and!; [done| |done|done].
  replace ((map _ recipients).*1) with recipients; [done|]. induction recipients; simpl; f_equal; auto.
Qed.
Lemma good_rejected recipients rs d st err : rs.*1 `prefix_of` recipients → is_public err →
  SendResStatus (pr_result st) = SendRejected → good recipients (rcpt_steps rs) d st (Return (Some err)).
Proof.
  intros Hp [e ->] Hst. split; [by apply dialogue_rcpts|]. simpl. rewrite Hst.
  split; [eauto|]. left. by rewrite <-(app_nil_r (rcpt_steps rs)), fate_rcpts.
Qed.
Lemma good_crashed recipients rs st : rs.*1 `prefix_of` recipients →
  SendResStatus (pr_result st) = SendRejected → good recipients (rcpt_steps rs) false st Crash.
Proof.
  intros Hp Hst. split; [by apply dialogue_rcpts|]. simpl. rewrite Hst.
  by rewrite <-(app_nil_r (rcpt_steps rs)), fate_rcpts.
Qed.

Definition rcpt_post (recipients : list string) (first : option mail_error) : post (option mail_error) := λ y d p r,
  ∃ rs, y = rcpt_steps rs ∧ rs.*1 `prefix_of` recipients ∧ d = false ∧ SendResStatus (pr_result p) = SendRejected ∧
    match r with
    | Next first' => first' = None → first = None ∧ rs = map (λ a, (a, Ret tt)) recipients
    | Return err => ∃ e, err = Some e ∧ is_public e
    | Crash => True
    end.
Lemma rcpt_loop_ok recipients : ∀ index count first p, SendResStatus (pr_result p) = SendRejected →
  runs false p (rcpt_loop (W:=W) index count recipients first) (rcpt_post recipients first).
Proof.
  induction recipients as [|a recipients IH]; intros index count first p Hp; simpl.
  { apply runs_next. exists []. by split_and!. }
  assert (∀ y d p' r (x : reply unit) first', rcpt_post recipients first' y d p' r →
    match r with Next None => x = Ret tt ∧ first' = first | _ => True end →
    rcpt_post (a :: recipients) first ((RcptStep a, x) :: y) d p' r) as Hcons.
  { intros y d p' r x first' (rs & -> & Hpre & -> & Hst & Hr) Hx. exists ((a, x) :: rs).
    split_and!; [done|by apply prefix_cons|done|done|]. destruct r as [first2|err|]; [|done..]. intros ->.
    destruct (Hr eq_refl) as [-> ->]. destruct Hx as [-> <-]. done. }
  assert (∀ x p' r, SendResStatus (pr_result p') = SendRejected →
    match r with Next _ => False | Return err => ∃ e, err = Some e ∧ is_public e | Crash => True end →
    rcpt_post (a :: recipients) first [(RcptStep a, x)] false p' r) as Hlast.
  { intros x p' r Hst Hr. exists [(a, x)]. split_and!; [done| |done|done|by destruct r]. by apply prefix_cons, prefix_nil. }
  apply (runs_step (RcptStep a)); [done|by apply Hlast| |].
  - intros []. apply runs_update. eapply runs_weaken; [by apply IH|].
    intros y d p' r Hr. eapply Hcons; [exact Hr|]. by destruct r as [[]| |].
  - intros err. apply runs_update. destruct (definitiveSMTPReply err).
    + eapply runs_weaken; [by apply IH|]. intros y d p' r Hr. eapply Hcons; [exact Hr|].
      destruct r as [[e|]| |]; [done| |done..]. destruct Hr as (rs & _ & _ & _ & _ & Hr).
      destruct first; by destruct (Hr eq_refl).
    + apply runs_update. eapply (runs_silent (λ _, True) (λ _, True)); [by apply silent_call|apply gives_any|by apply Hlast|..];
        intros; (apply runs_refused; [apply calm_mapSMTPError|]); intros e He; apply Hlast; eauto.
Qed.

Definition rejected_state (p : progress) : Prop := SendResStatus (pr_result p) = SendRejected.
(** After DATA: [pre] is what the server saw before. *)
Section AfterRecipients.
Context (recipients : list string).
Let named : list (wire_step * reply unit) := rcpt_steps (map (λ a, (a, Ret tt)) recipients).
Definition good_after (tail : list (wire_step * reply unit)) : post unit := λ y d p r,
  good recipients (named ++ tail ++ y)%list d p r.
Lemma good_tail tail d p r : data_dialogue tail → settled tail d p r → good_after tail [] d p r.
Proof.
  intros Ht Hs. unfold good_after. rewrite app_nil_r. split; [by apply dialogue_data|].
  unfold settled, named in *. by destruct r; rewrite ?fate_rcpts.
Qed.
Lemma accepted_ok c input p m tail d : data_dialogue tail → fate_of tail = Taken →
  runs d p (accepted (W:=W) c input m) (good_after tail).
Proof.
  intros Ht Hf. unfold accepted. apply runs_update.
  assert (∀ d p r, SendResStatus (pr_result p) = SendAccepted → match r with Next _ => False | Return err => err = None | _ => True end →
    good_after tail [] d p r) as Hend.
  { intros d' p' r Hst Hr. apply good_tail; [done|]. unfold settled. destruct r as [|err|]; [done|subst|]; by rewrite Hst. }
  destruct (ArchiveSent input).
  - eapply (runs_silent (λ _, False) (λ _, True)); [apply silent_archiveSent|apply gives_any|by apply Hend| |done].
    intros [[status dest] err] _. apply runs_update, runs_return. by apply Hend.
  - destruct (cfg_EnableSentCopy c); [apply runs_update|]; apply runs_return; by apply Hend.
Qed.
Lemma data_failed_ok err p tail : rejected_state p → data_dialogue tail →
  fate_of tail = (if definitiveSMTPReply err then Refused else Unknown) →
  runs true p (data_failed err) (good_after tail).
Proof.
  intros Hp Ht Hf. apply runs_was. destruct (definitiveSMTPReply err).
  - apply runs_refused; [apply calm_mapSMTPError|]. intros e [e' ->]. apply good_tail; [done|].
    unfold settled. rewrite Hp. split; [eauto|by right].
  - apply runs_update, runs_return. by apply good_tail.
Qed.
Lemma data_unsent_ok err p r : rejected_state p → r ≠ Ret tt →
  runs false p (data_failed err) (good_after [(DataStep, r)]).
Proof.
  intros Hp Hr. apply runs_was. apply runs_refused; [apply calm_mapSMTPError|]. intros e [e' ->].
  apply good_tail; [constructor|]. simpl. rewrite Hp. split; [eauto|left]. by destruct r as [[]| |].
Qed.
Lemma good_panic tail x (d : bool) p : rejected_state p → data_dialogue (tail ++ [x]) →
  fate_of (tail ++ [x]) = (if d then Unknown else NotSent) → good_after tail [x] d p Crash.
Proof.
  intros Hp Ht Hf. unfold good_after. rewrite <-(app_nil_r (tail ++ [x])) in *.
  replace (named ++ tail ++ [x])%list with (named ++ (tail ++ [x]) ++ [])%list by by rewrite app_nil_r.
  rewrite app_nil_r in Ht, Hf. apply good_tail; [done|]. unfold settled. by rewrite Hp.
Qed.
Lemma good_shift tail x d p (m : SM (W:=W) unit) : runs d p m (good_after (tail ++ [x])) →
  runs d p m (λ y, good_after tail (x :: y)).
Proof. intros Hm. eapply runs_weaken; [exact Hm|]. intros y d' p' r. unfold good_after. by rewrite <-!app_assoc. Qed.
Lemma data_ok c input m p : rejected_state p → zlen m <= MaxEncodedMessage →
  runs false p (Data (W:=W) m ≫= λ r, match r with Err err => data_failed err | Ok _ => accepted c input m end) (good_after []).
Proof.
  intros Hp Hm. unfold Data. apply runs_assoc.
  apply (runs_step DataStep); [done|apply (good_panic []); [done|constructor|done]| |].
  2: { intros err. apply (good_shift []). by apply data_unsent_ok. }
  intros []. apply (good_shift []), runs_assoc, runs_mark, runs_assoc.
  apply (runs_step (WriteStep m)); [done| | |].
  - apply (good_panic [_]); [done|by constructor|done].
  - intros []. apply (good_shift [_]). apply (runs_step FinishStep); [done| | |].
    + apply (good_panic [_; _]); [done|by constructor|done].
    + intros []. apply (good_shift [_; _]). apply accepted_ok; [by constructor|done].
    + intros err. apply (good_shift [_; _]). apply data_failed_ok; [done|by constructor|done].
  - intros err. apply (good_shift [_]). apply data_failed_ok; [done|by constructor|done].
Qed.
End AfterRecipients.

(** Stopped before anything was said about the message. *)
Definition stopped (r : flow unit) : Prop :=
  match r with Next _ => False | Return err => ∃ e, err = Some e ∧ is_public e | Crash => True end.
Lemma good_stopped recipients st r : rejected_state st → stopped r → good recipients [] false st r.
Proof.
  intros Hst Hr. destruct r as [|err|]; [done| |by apply (good_crashed _ []); [apply prefix_nil|]].
  destruct Hr as (e & -> & He). by apply (good_rejected _ []); [apply prefix_nil|..].
Qed.
Lemma submit_ok c input p st : rejected_state st → zlen (p_bytes p) <= MaxEncodedMessage →
  runs false st (submit (W:=W) c input p) (good (p_recipients p)).
Proof.
  intros Hst Hm. unfold submit.
  assert (∀ r, stopped r → good (p_recipients p) [] false st r) as Hstop by (intros; by apply good_stopped).
  eapply (runs_silent (λ _, True) (λ _, True)); [by apply silent_call|apply gives_any|by apply Hstop| |].
  2: { intros err _. apply runs_refused; [apply calm_mapSMTPAuthError|]. intros e He. apply Hstop. by exists e. }
  intros _ _.
  eapply (runs_silent (λ _, True) (λ _, True)); [by apply silent_call|apply gives_any|by apply Hstop| |].
  2: { intros err _. apply runs_refused; [apply calm_mapSMTPError|]. intros e He. apply Hstop. by exists e. }
  intros _ _. eapply runs_bind; [by apply rcpt_loop_ok|]. intros y d p' r (rs & -> & Hpre & -> & Hst' & Hr).
  destruct r as [[err|]|err|].
  - eapply (runs_silent (λ _, True) (λ _, True)); [by apply silent_call|apply gives_any| |..].
    + rewrite app_nil_r. by apply good_crashed.
    + intros _ _. apply runs_refused; [apply calm_mapSMTPError|]. intros e He. rewrite app_nil_r. by apply good_rejected.
    + intros e1 _. apply runs_refused; [apply calm_mapSMTPError|]. intros e He. rewrite app_nil_r. by apply good_rejected.
  - destruct (Hr eq_refl) as [_ ->]. by apply data_ok.
  - destruct Hr as (e & -> & He). by apply good_rejected.
  - by apply good_crashed.
Qed.
Lemma silent_safeCloseSMTPSession : silent (W:=W) (λ _, True) safeCloseSMTPSession.
Proof.
  intros d w l. unfold safeCloseSMTPSession, cleanup, call. simpl.
  destruct (exec SmtpClose w) as [w1 [?|?|]]; simpl; [|destruct (exec SmtpConnClose w1) as [w2 r2]..]; simpl;
    rewrite <-?app_assoc; (eexists; split; [reflexivity|done]).
Qed.
Lemma connected_ok c input p st : rejected_state st → zlen (p_bytes p) <= MaxEncodedMessage →
  runs false st (connected (W:=W) c input p) (good (p_recipients p)).
Proof.
  intros Hst Hm. unfold connected.
  assert (∀ b r, stopped r → good (p_recipients p) [] false (MkProgress (pr_result st) b) r) as Hstop
    by (intros; by apply good_stopped).
  eapply (runs_silent (λ _, True) (λ _, True)); [by apply silent_call|apply gives_any| | |].
  - destruct st as [res b]. by apply (Hstop b).
  - intros _ _. apply runs_dialed.
    eapply (runs_silent (λ _, True) (λ _, True)); [by apply silent_call|apply gives_any|by apply Hstop| |].
    + intros _ _. apply runs_deferring; [apply silent_safeCloseSMTPSession|by apply submit_ok].
    + intros err _. eapply (runs_silent (λ _, True) (λ _, True)); [by apply silent_call|apply gives_any|by apply Hstop|..];
        intros; (apply runs_refused; [apply calm_mapSMTPError|]); intros e He; apply Hstop; by exists e.
  - intros err _. apply runs_refused; [apply calm_mapSMTPError|]. intros e He. destruct st as [res b]. apply (Hstop b). by exists e.
Qed.
Definition prepared_ok (c : MailConfig) (input : SendInput) (p : preparedMessage) : Prop :=
  validate_recipients (cfg_RecipientPolicy c) input = Ok (p_recipients p) ∧ zlen (p_bytes p) <= MaxEncodedMessage.
Lemma buildMessage_gives c input : gives (W:=W) (buildMessage c input) (prepared_ok c input).
Proof.
  unfold buildMessage. eapply gives_bind; [apply gives_of_result|intros recipients Hr].
  eapply gives_bind; [apply gives_any|intros _ _]. eapply gives_bind; [apply gives_any|intros [nonce|] _]; [|apply gives_fail].
  eapply gives_bind; [apply gives_any|intros [encoded|] _]; [|apply gives_fail].
  eapply gives_bind; [apply gives_fail_if|intros [] Hlen]. apply gives_ret. split; [done|]. by apply Z.ltb_ge in Hlen.
Qed.
Lemma send_body_ok s input : runs false (MkProgress empty_result false) (send_body (W:=W) s input)
  (λ y d p r, submitted (cfg_RecipientPolicy (config s)) input y ∧ settled y d p r).
Proof.
  unfold send_body.
  assert (∀ st r, SendResStatus st = SendNone ∨ SendResStatus st = SendRejected →
    stopped r → submitted (cfg_RecipientPolicy (config s)) input [] ∧ settled [] false (MkProgress st false) r) as Hstop.
  { intros st r Hst Hr. split; [by left|]. destruct r as [|err|]; [done| |by destruct Hst as [H1|H1]; simpl; rewrite H1].
    destruct Hr as (e & -> & [e' ->]). destruct Hst as [H1|H1]; simpl; rewrite H1; (split; [by eexists|by left]). }
  destruct (negb (sendEnabled s)); [apply runs_return, Hstop; [by left|eexists; split; [done|by eexists]]|].
  destruct (_ && _); [apply runs_return, Hstop; [by left|eexists; split; [done|by eexists]]|].
  eapply runs_silent; [apply silent_buildMessage|apply buildMessage_gives|by apply Hstop; [left|]| |].
  2: { intros err He. apply runs_update, runs_return, Hstop; [by right|by exists err]. }
  intros p [Hp Hlen].
  eapply (runs_silent (λ _, False) (λ _, True)); [apply silent_query|apply gives_any|by apply Hstop; [left|]| |done].
  intros [] _; [|apply runs_return, Hstop; [by left|eexists; split; [done|by eexists]]].
  eapply runs_silent; [apply silent_acquire|apply gives_any|by apply Hstop; [left|]| |].
  2: { intros err He. apply runs_return, Hstop; [by left|by exists err]. }
  intros _ _. apply runs_deferring; [by apply silent_cleanup|]. apply runs_update.
  eapply runs_weaken; [by apply connected_ok|]. intros y d p' r [Hd Hs]. split; [right; eauto|done].
Qed.

(** (C3) Sending a message, whatever the network does at every call (an
    answer, an error or a panic): nothing is shown to the server unless the
    recipients are valid and allowed; the recipients are named in their order,
    each once; DATA is sent only after every one of them was accepted, with a
    message within the size limit, and never twice. The caller is told
    "accepted", without an error, exactly when the server took the message;
    "outcome unknown" exactly when it may have taken it; and every other
    status comes with a public error and means the server did not take it. *)
Theorem send_outcome s input (e : env W) :
  let '(e', (res, err)) := sendOnce s input e in
  ∃ t, log e' = (log e ++ t)%list ∧
    submitted (cfg_RecipientPolicy (config s)) input (wire t) ∧
    told (SendResStatus res) err (fate_of (wire t)).
Proof.
  unfold sendOnce. pose proof (send_body_ok s input (world e) (log e)) as Hbody.
  destruct (send_body _ _ _ _) as [[[w l d] p] r]. destruct Hbody as (t & Hlog & Hsub & Hset). simpl in *. subst l.
  destruct r as [|err|]; [done|by exists t|].
  set (E := if pr_dialed p then _ else _).
  assert (∃ t', log E = (log e ++ t')%list ∧ wire t' = wire t ∧ dispatched E = d) as (t' & Hl & Hw & Hd).
  { subst E. destruct (pr_dialed p); [|by exists t]. unfold call. simpl. destruct (exec SmtpConnClose w) as [w2 r2]. simpl.
    exists (t ++ [Ev SmtpConnClose r2])%list. rewrite wire_app, !app_assoc. by rewrite app_nil_r. }
  simpl in Hset. destruct (decide _) as [Ha|Ha].
  - exists t'. rewrite Ha in Hset |- *. rewrite Hw. done.
  - assert (fate_of (wire t) = if d then Unknown else NotSent) as Hf by by destruct (SendResStatus (pr_result p)).
    rewrite Hd. destruct d; exists t'; rewrite Hw; simpl; eauto 10.
Qed.
End Outcome.
