(* ===== verification/SendCache.v ===== *)
(** Send idempotency (src/internal/mail/send_idempotency.go and [SendMessage]
    of smtp.go): the cache of claims, and its concurrent callers as a step
    relation. *)
From S2P Require Import Prelude GoStrings GoTime GoEncode NetMail MailTypes MailValidation ImapAdapter MailClient MailSend.
Import MT.

(** * The cache

    An entry is never removed, so a claim is named by its key; [done] is
    closed when [outcome] is filled. *)
Definition outcome : Type := (SendResult * option mail_error)%type.
Record sendClaim := MkClaim { fingerprint : list ascii; finished : option outcome }.
Abbreviation sendIdempotencyCache := (gmap string sendClaim).
Definition newSendIdempotencyCache : sendIdempotencyCache := ∅.

Inductive verdict :=
| Owner
| Wait
| Refuse (err : Error).
Section Cache.
Context `{UnicodeTables}.

(** [claim], up to the wait of a duplicate. *)
Definition claim (sender : string) (input : SendInput) (c : sendIdempotencyCache) : sendIdempotencyCache * verdict :=
  let key := SendIdempotencyKey input in
  let fp := sendRequestFingerprint sender input in
  match c !! key with
  | Some existing =>
      if decide (fingerprint existing = fp) then (c, Wait)
      else (c, Refuse (newError CodeConflict "idempotency_key was already used with different content"))
  | None =>
      if maxSendIdempotencyEntries <=? Z.of_nat (size c)
      then (c, Refuse (newError CodeConflict "idempotency cache is full; use a new process or a different key"))
      else (<[key := MkClaim fp None]> c, Owner)
  end.
Definition complete (key : string) (o : outcome) (c : sendIdempotencyCache) : sendIdempotencyCache :=
  alter (λ cl, MkClaim (fingerprint cl) (Some o)) key c.

(** * Concurrent calls of [SendMessage] *)

Inductive call_state :=
| Started
| Dispatching
| Waiting
| Returned (o : outcome).
Record send_call := MkCall { sc_input : SendInput; sc_state : call_state }.
(** The cache, the calls, and every finished submission of [sendOnce] with its call. *)
Record system := MkSystem { cache : sendIdempotencyCache; calls : gmap nat send_call; submissions : list (nat * outcome) }.
Definition set_call (p : nat) (r : send_call) (st : call_state) (cs : gmap nat send_call) : gmap nat send_call :=
  <[p := MkCall (sc_input r) st]> cs.
Definition answered (err : Error) : outcome := (empty_result, Some (Public err)).
Definition claimed (v : verdict) : call_state :=
  match v with Owner => Dispatching | Wait => Waiting | Refuse err => Returned (answered err) end.

(** [sender] is the configured address; [dispatch] relates a request to the
    outcomes [sendOnce] can give it. *)
Context (sender : string) (dispatch : SendInput → outcome → Prop).
Inductive step : system → system → Prop :=
| step_arrive s p input : calls s !! p = None →
    step s (MkSystem (cache s) (<[p := MkCall input Started]> (calls s)) (submissions s))
| step_invalid s p r e : calls s !! p = Some r → sc_state r = Started →
    validateSendIdempotencyKey (SendIdempotencyKey (sc_input r)) = Err e →
    step s (MkSystem (cache s) (set_call p r (Returned (answered e)) (calls s)) (submissions s))
| step_unkeyed s p r : calls s !! p = Some r → sc_state r = Started → SendIdempotencyKey (sc_input r) = "" →
    step s (MkSystem (cache s) (set_call p r Dispatching (calls s)) (submissions s))
| step_claim s p r c v : calls s !! p = Some r → sc_state r = Started → SendIdempotencyKey (sc_input r) ≠ "" →
    validateSendIdempotencyKey (SendIdempotencyKey (sc_input r)) = Ok tt →
    claim sender (sc_input r) (cache s) = (c, v) →
    step s (MkSystem c (set_call p r (claimed v) (calls s)) (submissions s))
| step_submit s p r o : calls s !! p = Some r → sc_state r = Dispatching → dispatch (sc_input r) o →
    step s (MkSystem (if decide (SendIdempotencyKey (sc_input r) = "") then cache s
                      else complete (SendIdempotencyKey (sc_input r)) o (cache s))
              (set_call p r (Returned o) (calls s)) ((p, o) :: submissions s))
| step_replay s p r cl o : calls s !! p = Some r → sc_state r = Waiting →
    cache s !! SendIdempotencyKey (sc_input r) = Some cl → finished cl = Some o →
    step s (MkSystem (cache s) (set_call p r (Returned o) (calls s)) (submissions s))
| step_cancel s p r : calls s !! p = Some r → sc_state r = Waiting →
    step s (MkSystem (cache s) (set_call p r (Returned (answered contextError)) (calls s)) (submissions s)).
Definition initial : system := MkSystem newSendIdempotencyCache ∅ [].
End Cache.

(** * The invariant *)

Section Invariant.
Context `{UnicodeTables} (sender : string) (dispatch : SendInput → outcome → Prop).
Implicit Types (s : system) (r : send_call).
Definition key_of r : string := SendIdempotencyKey (sc_input r).
Definition print_of r : list ascii := sendRequestFingerprint sender (sc_input r).
Definition same_request r r' : Prop := key_of r = key_of r' ∧ print_of r = print_of r'.
Definition submitted_by s (p : nat) (o : outcome) : Prop := (p, o) ∈ submissions s.
(** [p] submits or has submitted. *)
Definition submits s (p : nat) r : Prop :=
  calls s !! p = Some r ∧ (sc_state r = Dispatching ∨ ∃ o, submitted_by s p o).
Definition refusal (o : outcome) : Prop :=
  ∃ e, o = answered e ∧ ErrCode e ∈ [CodeValidation; CodeConflict; CodeTimeout].
Definition entry_at (c : sendIdempotencyCache) r (f : option outcome) : Prop :=
  c !! key_of r = Some (MkClaim (print_of r) f).

Definition call_ok s p r : Prop :=
  match sc_state r with
  | Started => ∀ o, ¬ submitted_by s p o
  | Dispatching => (∀ o, ¬ submitted_by s p o) ∧ (key_of r ≠ "" → entry_at (cache s) r None)
  | Waiting => (∀ o, ¬ submitted_by s p o) ∧ key_of r ≠ "" ∧ ∃ f, entry_at (cache s) r f
  | Returned o =>
      (∀ o', submitted_by s p o' → o' = o ∧ (key_of r ≠ "" → entry_at (cache s) r (Some o))) ∧
      (submitted_by s p o ∨ refusal o ∨
       (key_of r ≠ "" ∧ ∃ p' r', calls s !! p' = Some r' ∧ submitted_by s p' o ∧ same_request r r'))
  end.
Definition entry_ok s (k : string) (cl : sendClaim) : Prop :=
  ∀ o, finished cl = Some o → ∃ p r, calls s !! p = Some r ∧ submitted_by s p o ∧ key_of r = k ∧ print_of r = fingerprint cl.
Record system_ok s : Prop := {
  ok_size : Z.of_nat (size (cache s)) <= maxSendIdempotencyEntries;
  ok_known : ∀ p o, submitted_by s p o → is_Some (calls s !! p);
  ok_nodup : NoDup (submissions s).*1;
  ok_calls : ∀ p r, calls s !! p = Some r → call_ok s p r;
  ok_entries : ∀ k cl, cache s !! k = Some cl → entry_ok s k cl;
  ok_owner : ∀ p1 r1 p2 r2, submits s p1 r1 → submits s p2 r2 → key_of r1 = key_of r2 → key_of r1 ≠ "" → p1 = p2;
}.

(** A step that gives [p] the state [st] and changes neither the cache nor
    the submissions. *)
Lemma quiet_step s p r st : system_ok s → calls s !! p = None ∨ (∃ r0, calls s !! p = Some r0 ∧ sc_input r0 = sc_input r) →
  (∀ o, ¬ submitted_by s p o) → (st = Dispatching → key_of r = "") →
  call_ok (MkSystem (cache s) (set_call p r st (calls s)) (submissions s)) p (MkCall (sc_input r) st) →
  system_ok (MkSystem (cache s) (set_call p r st (calls s)) (submissions s)).
Proof.
  intros Hok Hp Hnot Hdis Hcall. unfold set_call.
  assert (∀ p' r', calls s !! p' = Some r' → ∃ r'', <[p:=MkCall (sc_input r) st]> (calls s) !! p' = Some r'' ∧ sc_input r'' = sc_input r' ∧
    (p' ≠ p → r'' = r')) as Hkeep.
  { intros p' r' Hr'. destruct (decide (p' = p)) as [->|Hne]; [|rewrite lookup_insert_ne by done; eauto].
    rewrite lookup_insert_eq. eexists. split; [done|]. destruct Hp as [Hp|(r0 & Hp & Hi)]; [congruence|].
    rewrite Hp in Hr'. injection Hr' as <-. by split. }
  constructor; simpl.
  - apply (ok_size s Hok).
  - intros p' o Ho. destruct (ok_known s Hok p' o Ho) as [r' Hr']. destruct (Hkeep _ _ Hr') as (r'' & -> & _). by eexists.
  - apply (ok_nodup s Hok).
  - intros p' r' Hr'. destruct (decide (p' = p)) as [->|Hne].
    + rewrite lookup_insert_eq in Hr'. by injection Hr' as <-.
    + rewrite lookup_insert_ne in Hr' by done. pose proof (ok_calls s Hok _ _ Hr') as Hc.
      unfold call_ok in *. destruct (sc_state r') as [| | |o]; try done.
      destruct Hc as [H1 H2]. split; [done|]. destruct H2 as [H2|[H2|(Hk & p2 & r2 & Hr2 & Hs2 & Hq2 & Hp2)]]; [by left|by right; left|].
      right; right. split; [done|]. destruct (Hkeep _ _ Hr2) as (r3 & Hr3 & Hi & _). exists p2, r3.
      unfold same_request, key_of, print_of in *. by rewrite Hi.
  - intros k cl Hcl o Ho. destruct (ok_entries s Hok k cl Hcl o Ho) as (p' & r' & Hr' & Hs & Hk & Hf).
    destruct (Hkeep _ _ Hr') as (r3 & Hr3 & Hi & _). exists p', r3. unfold key_of, print_of in *. by rewrite Hi.
  - assert (∀ p1 r1, submits (MkSystem (cache s) (<[p:=MkCall (sc_input r) st]> (calls s)) (submissions s)) p1 r1 → key_of r1 ≠ "" →
      submits s p1 r1) as Hback.
    { intros p1 r1 [H1 H2] Hk. simpl in H1. destruct (decide (p1 = p)) as [->|Hne].
      - rewrite lookup_insert_eq in H1. injection H1 as <-. exfalso.
        destruct H2 as [H2|[o Ho]]; [|by eapply Hnot]. simpl in H2. by apply Hk, Hdis.
      - rewrite lookup_insert_ne in H1 by done. by split. }
    intros p1 r1 p2 r2 H1 H2 Heq Hne. apply (ok_owner s Hok p1 r1 p2 r2); [by apply Hback|apply Hback|done|done]; congruence.
Qed.
(** The call [p] at [r] moves on; the cache and the submissions grow. *)
Lemma call_ok_mono s s' p r :
  (∀ o, submitted_by s' p o ↔ submitted_by s p o) →
  (∀ p' o, submitted_by s p' o → submitted_by s' p' o) →
  (∀ p' r' o, calls s !! p' = Some r' → submitted_by s p' o → ∃ r'', calls s' !! p' = Some r'' ∧ sc_input r'' = sc_input r') →
  (key_of r ≠ "" → ∀ f, entry_at (cache s) r f → (∃ f', entry_at (cache s') r f') ∧
     ((∃ o, f = Some o) ∨ sc_state r = Dispatching → entry_at (cache s') r f)) →
  call_ok s p r → call_ok s' p r.
Proof.
  intros Hsub Hgrow Hcalls Hcache Hc. unfold call_ok in *. destruct (sc_state r) as [| | |o] eqn:Hst.
  - intros o Ho. by apply (Hc o), Hsub.
  - destruct Hc as [H1 H2]. split; [intros o Ho; by apply (H1 o), Hsub|]. intros Hk.
    destruct (Hcache Hk None (H2 Hk)) as [_ H3]. auto.
  - destruct Hc as (H1 & Hk & f & Hf). split_and!; [intros o Ho; by apply (H1 o), Hsub|done|]. by destruct (Hcache Hk f Hf).
  - destruct Hc as [H1 H2]. split.
    + intros o' Ho'%Hsub. destruct (H1 o' Ho') as [-> H3]. split; [done|]. intros Hk.
      destruct (Hcache Hk _ (H3 Hk)) as [_ H4]. eauto.
    + destruct H2 as [H2|[H2|(Hk & p' & r' & Hr' & Hs' & Hq & Hp)]]; [left; by apply Hsub|by right; left|].
      right; right. split; [done|]. destruct (Hcalls _ _ _ Hr' Hs') as (r'' & Hr'' & Hi). exists p', r''.
      unfold same_request, key_of, print_of in *. rewrite Hi. auto.
Qed.
Lemma claim_step s p r c v : system_ok s → calls s !! p = Some r → sc_state r = Started → key_of r ≠ "" →
  claim sender (sc_input r) (cache s) = (c, v) →
  system_ok (MkSystem c (set_call p r (claimed v) (calls s)) (submissions s)).
Proof.
  intros Hok Hr Hst Hk Hclaim.
  pose proof (ok_calls s Hok p r Hr) as Hnot. unfold call_ok in Hnot. rewrite Hst in Hnot.
  assert (∀ e, ErrCode e = CodeConflict → system_ok (MkSystem (cache s) (set_call p r (claimed (Refuse e)) (calls s)) (submissions s))) as Hrefuse.
  { intros e He. apply quiet_step; [done|by right; eauto|done|done|]. unfold call_ok. simpl. split.
    - intros o Ho. by destruct (Hnot o).
    - right; left. exists e. split; [done|]. rewrite He. set_solver. }
  unfold claim in Hclaim. fold (key_of r) (print_of r) in Hclaim.
  destruct (cache s !! key_of r) as [cl|] eqn:Hcl.
  { destruct (decide _) as [Hf|]; injection Hclaim as <- <-; [|by apply Hrefuse].
    apply quiet_step; [done|by right; eauto|done|done|]. unfold call_ok. simpl. split_and!; [done|done|].
    exists (finished cl). change (cache s !! key_of r = Some (MkClaim (print_of r) (finished cl))).
    rewrite Hcl, <-Hf. by destruct cl. }
  destruct (Z.leb_spec maxSendIdempotencyEntries (Z.of_nat (size (cache s)))); injection Hclaim as <- <-; [by apply Hrefuse|].
  assert (∀ p' o, submitted_by s p' o → ∃ r', calls s !! p' = Some r' ∧ p' ≠ p) as Hother.
  { intros p' o Ho. destruct (ok_known s Hok _ _ Ho) as [r' Hr']. exists r'. split; [done|]. intros ->. by apply (Hnot o). }
  constructor; simpl.
  - rewrite map_size_insert_None by done. lia.
  - intros p' o Ho. destruct (Hother _ _ Ho) as (r' & Hr' & Hne). unfold set_call. rewrite lookup_insert_ne by done. by eexists.
  - apply (ok_nodup s Hok).
  - intros p' r' Hr'. unfold set_call in Hr'. destruct (decide (p' = p)) as [->|Hne].
    + rewrite lookup_insert_eq in Hr'. injection Hr' as <-. unfold call_ok. simpl. split; [done|]. intros _.
      unfold entry_at. simpl. apply lookup_insert_eq.
    + rewrite lookup_insert_ne in Hr' by done. apply (call_ok_mono s); [done|done| | |by apply (ok_calls s Hok)].
      * intros p2 r2 o Hr2 Ho. destruct (Hother _ _ Ho) as (r3 & Hr3 & Hne2). simpl. unfold set_call.
        rewrite lookup_insert_ne by done. eauto.
      * intros _ f Hf. assert (entry_at (<[key_of r:=MkClaim (print_of r) None]> (cache s)) r' f) as He
          by (unfold entry_at in *; rewrite lookup_insert_ne by congruence; done). eauto.
  - intros k cl Hcl'. destruct (decide (k = key_of r)) as [->|Hne].
    + rewrite lookup_insert_eq in Hcl'. by injection Hcl' as <-.
    + rewrite lookup_insert_ne in Hcl' by done. intros o Ho.
      destruct (ok_entries s Hok _ _ Hcl' o Ho) as (p' & r' & Hr' & Hs & ?). exists p', r'. simpl. unfold set_call.
      destruct (Hother _ _ Hs) as (? & ? & ?). by rewrite lookup_insert_ne.
  - assert (∀ p' r', submits (MkSystem (<[key_of r:=MkClaim (print_of r) None]> (cache s)) (set_call p r Dispatching (calls s)) (submissions s)) p' r' →
      p' ≠ p → submits s p' r') as Hback.
    { intros p' r' [H1 H2] Hne. simpl in H1. unfold set_call in H1. rewrite lookup_insert_ne in H1 by done. by split. }
    assert (∀ p' r', submits s p' r' → key_of r' = key_of r → False) as Hfree.
    { intros p' r' [H1 H2] Heq. pose proof (ok_calls s Hok _ _ H1) as Hc. unfold call_ok in Hc. 
      assert (∃ f, entry_at (cache s) r' f) as [f Hf]; [|unfold entry_at in Hf; congruence].
      destruct H2 as [H2|[o Ho]].
      - rewrite H2 in Hc. destruct Hc as [_ Hc]. eexists. apply Hc. congruence.
      - destruct (sc_state r') as [| | |o']; [by destruct (Hc o)|by destruct (proj1 Hc o)|by destruct (proj1 Hc o)|].
        destruct (proj1 Hc o Ho) as [-> Hc2]. eexists. apply Hc2. congruence. }
    intros p1 r1 p2 r2 H1 H2 Heq Hne.
    assert (∀ r', submits (MkSystem (<[key_of r:=MkClaim (print_of r) None]> (cache s)) (set_call p r Dispatching (calls s)) (submissions s)) p r' →
      key_of r' = key_of r) as Hself.
    { intros r' [H3 _]. simpl in H3. unfold set_call in H3. rewrite lookup_insert_eq in H3. by injection H3 as <-. }
    destruct (decide (p1 = p)) as [->|Hn1], (decide (p2 = p)) as [->|Hn2]; [done| | |].
    + exfalso. apply (Hfree p2 r2); [by apply Hback|]. rewrite <-Heq. by apply Hself.
    + exfalso. apply (Hfree p1 r1); [by apply Hback|]. rewrite Heq. by apply Hself.
    + eapply (ok_owner s Hok p1 r1 p2 r2); eauto.
Qed.
(** The cache after [p] reported [o]. *)
Definition completed_cache s r (o : outcome) : sendIdempotencyCache :=
  if decide (key_of r = "") then cache s else complete (key_of r) o (cache s).
Lemma completed_cache_at s r o r' f : entry_at (cache s) r' f → key_of r' ≠ "" →
  entry_at (completed_cache s r o) r' (if decide (key_of r' = key_of r) then Some o else f).
Proof.
  unfold entry_at, completed_cache, complete. intros Hf Hk. destruct (decide (key_of r = "")) as [He|He].
  { rewrite decide_False by congruence. done. }
  destruct (decide (key_of r' = key_of r)) as [<-|Hne].
  - by rewrite lookup_alter_eq, Hf.
  - by rewrite lookup_alter_ne by congruence.
Qed.
Lemma submit_step s p r o : system_ok s → calls s !! p = Some r → sc_state r = Dispatching →
  system_ok (MkSystem (completed_cache s r o) (set_call p r (Returned o) (calls s)) ((p, o) :: submissions s)).
Proof.
  intros Hok Hr Hst. pose proof (ok_calls s Hok p r Hr) as Hcall. unfold call_ok in Hcall. rewrite Hst in Hcall.
  destruct Hcall as [Hnot Hentry]. set (s' := MkSystem _ _ _).
  assert (∀ p' r', p' ≠ p → calls s' !! p' = Some r' ↔ calls s !! p' = Some r') as Hcalls.
  { intros p' r' Hne. simpl. unfold set_call. by rewrite lookup_insert_ne by done. }
  assert (calls s' !! p = Some (MkCall (sc_input r) (Returned o))) as Hself by apply lookup_insert_eq.
  assert (∀ p' o', submitted_by s' p' o' ↔ (p' = p ∧ o' = o) ∨ submitted_by s p' o') as Hsub.
  { intros p' o'. unfold submitted_by. simpl. rewrite elem_of_cons. naive_solver. }
  assert (∀ p' o', submitted_by s p' o' → p' ≠ p) as Hsub_ne by (intros p' o' Ho ->; by apply (Hnot o')).
  assert (∀ p' r', submits s' p' r' → submits s p' (if decide (p' = p) then r else r') ∧ (p' = p → key_of r' = key_of r)) as Hback.
  { intros p' r' [H1 H2]. destruct (decide (p' = p)) as [->|Hne].
    - rewrite Hself in H1. injection H1 as <-. split; [|done]. split; [done|by left].
    - apply Hcalls in H1; [|done]. split; [|done]. split; [done|]. destruct H2 as [H2|[o' [[? ?]|?]%Hsub]]; [by left|done|right; by eexists]. }
  assert (∀ p' r', submits s p' r' → key_of r' = key_of r → key_of r ≠ "" → p' = p) as Hunique.
  { intros p' r' Hs Heq Hne. apply (ok_owner s Hok p' r' p r); [done|split; [done|by left]|done|congruence]. }
  constructor.
  - simpl. unfold completed_cache. destruct (decide _); [apply (ok_size s Hok)|]. unfold complete.
    rewrite <-(size_dom (D:=gset string)), dom_alter_L, size_dom. apply (ok_size s Hok).
  - intros p' o' [[-> ->]|Ho]%Hsub; [by eexists|]. destruct (ok_known s Hok _ _ Ho) as [r' Hr'].
    exists r'. apply Hcalls; [by eapply Hsub_ne|done].
  - simpl. apply NoDup_cons. split; [|apply (ok_nodup s Hok)]. intros [[p' o'] [Hp Hin]]%list_elem_of_fmap.
    simpl in Hp. subst p'. by apply (Hnot o').
  - intros p' r' Hr'. destruct (decide (p' = p)) as [->|Hne].
    + rewrite Hself in Hr'. injection Hr' as <-. unfold call_ok. cbn [sc_state]. split; [|left; apply Hsub; by left].
      intros o' [[_ ->]|Ho]%Hsub; [|by destruct (Hnot o')]. split; [done|]. intros Hk.
      pose proof (completed_cache_at s r o r None (Hentry Hk) Hk) as He. rewrite decide_True in He by done. exact He.
    + pose proof (proj1 (Hcalls p' r' Hne) Hr') as Hr0. eapply call_ok_mono; [..|by apply (ok_calls s Hok p' r')].
      * intros o'. rewrite Hsub. naive_solver.
      * intros p2 o' Ho. apply Hsub. by right.
      * intros p2 r2 o' Hr2 Ho. destruct (decide (p2 = p)) as [->|Hne2].
        -- rewrite Hr in Hr2. injection Hr2 as <-. eexists. by split.
        -- exists r2. split; [by apply Hcalls|done].
      * intros Hk f Hf. pose proof (completed_cache_at s r o r' f Hf Hk) as He. split; [by eexists|].
        destruct (decide (key_of r' = key_of r)) as [Heq|]; [|done]. intros [[o' ->]|Hd].
        -- exfalso. unfold entry_at in Hf. rewrite Heq in Hk, Hf. unfold entry_at in Hentry. rewrite (Hentry Hk) in Hf. congruence.
        -- exfalso. apply Hne, (Hunique p' r'); [split; [done|by left]|done|congruence].
  - intros k cl Hcl o' Ho. simpl in Hcl. unfold completed_cache in Hcl.
    assert (cache s !! k = Some cl → entry_ok s' k cl) as Hold.
    { intros Hcl0 o2 Ho2. destruct (ok_entries s Hok k cl Hcl0 o2 Ho2) as (p' & r' & Hr' & Hs & ?). exists p', r'.
      split_and!; [apply Hcalls; [by eapply Hsub_ne|done]|apply Hsub; by right|naive_solver..]. }
    destruct (decide (key_of r = "")) as [He|He]; [by apply Hold|].
    unfold complete in Hcl. destruct (decide (k = key_of r)) as [->|Hne]; [|rewrite lookup_alter_ne in Hcl by done; by apply Hold].
    rewrite lookup_alter_eq in Hcl. rewrite (Hentry He) in Hcl. injection Hcl as <-. injection Ho as <-.
    exists p, (MkCall (sc_input r) (Returned o)). split_and!; [done|apply Hsub; by left|done|done].
  - intros p1 r1 p2 r2 H1 H2 Heq Hne. destruct (Hback _ _ H1) as [B1 K1], (Hback _ _ H2) as [B2 K2].
    apply (ok_owner s Hok _ _ _ _ B1 B2); destruct (decide (p1 = p)), (decide (p2 = p)); subst; naive_solver congruence.
Qed.
Lemma sending_step_ok s s' : system_ok s → step sender dispatch s s' → system_ok s'.
Proof.
  intros Hok Hstep. destruct Hstep as [s p input Hp|s p r e Hr Hst Hv|s p r Hr Hst Hk|s p r c v Hr Hst Hk Hv Hc|s p r o Hr Hst Hd
    |s p r cl o Hr Hst Hcl Hf|s p r Hr Hst].
  - assert (∀ o, ¬ submitted_by s p o) by (intros o Ho; by destruct (ok_known s Hok p o Ho); congruence).
    by apply (quiet_step s p (MkCall input Started) Started); [|left|..].
  - pose proof (ok_calls s Hok p r Hr) as Hnot. unfold call_ok in Hnot. rewrite Hst in Hnot.
    apply quiet_step; [done|right; eauto|done|done|]. unfold call_ok. simpl. split; [intros o Ho; by destruct (Hnot o)|].
    right; left. exists e. split; [done|]. unfold validateSendIdempotencyKey in Hv. destruct (decide _); [done|].
    repeat case_match; simplify_eq; set_solver.
  - pose proof (ok_calls s Hok p r Hr) as Hnot. unfold call_ok in Hnot. rewrite Hst in Hnot.
    apply quiet_step; [done|right; eauto|done|done|]. unfold call_ok. simpl. done.
  - by eapply claim_step.
  - by apply submit_step.
  - pose proof (ok_calls s Hok p r Hr) as Hw. unfold call_ok in Hw. rewrite Hst in Hw. destruct Hw as (Hnot & Hk & f & He).
    apply quiet_step; [done|right; eauto|done|done|]. unfold call_ok. simpl. split; [intros o' Ho; by destruct (Hnot o')|].
    right; right. split; [done|]. destruct (ok_entries s Hok _ _ Hcl o Hf) as (p' & r' & Hr' & Hs & Hq & Hp').
    unfold entry_at in He. unfold key_of in He, Hq. rewrite Hcl in He. injection He as ->. simpl in Hp'.
    destruct (decide (p' = p)) as [->|Hne]; [by destruct (Hnot o)|].
    exists p', r'. unfold set_call. rewrite lookup_insert_ne by done. split_and!; [done|done|]. split; [done|]. by rewrite Hp'.
  - pose proof (ok_calls s Hok p r Hr) as Hw. unfold call_ok in Hw. rewrite Hst in Hw. destruct Hw as (Hnot & Hk & f & He).
    apply quiet_step; [done|right; eauto|done|done|]. unfold call_ok. simpl. split; [intros o' Ho; by destruct (Hnot o')|].
    right; left. exists contextError. split; [done|]. set_solver.
Qed.
Lemma cache_reachable_ok s : star (step sender dispatch) initial s → system_ok s.
Proof.
  apply star_invariant; [|apply sending_step_ok]. constructor; simpl.
  - unfold newSendIdempotencyCache, maxSendIdempotencyEntries. rewrite map_size_empty. lia.
  - by intros ?? ?%elem_of_nil.
  - constructor.
  - intros ??. by rewrite lookup_empty.
  - intros ?? Hl. unfold newSendIdempotencyCache in Hl. by rewrite lookup_empty in Hl.
  - intros ???? [H1 _]. unfold initial in H1. simpl in H1. by rewrite lookup_empty in H1.
Qed.

(** (C20) Whatever the interleaving of concurrent [SendMessage] calls, of the
    calls that carry one idempotency key at most one submits the message
    (is submitting it, or has): a key is dispatched once in the life of the
    process; and the cache never holds more than 128 keys. *)
Theorem one_submission_per_key s p1 r1 p2 r2 : star (step sender dispatch) initial s →
  submits s p1 r1 → submits s p2 r2 → key_of r1 = key_of r2 → key_of r1 ≠ "" →
  p1 = p2 ∧ Z.of_nat (size (cache s)) <= 128.
Proof. intros Hs%cache_reachable_ok H1 H2 Heq Hne. split; [by eapply (ok_owner s Hs)|apply (ok_size s Hs)]. Qed.

(** A call that returned was answered in one of three ways: with the
    outcome of its own submission; with a refusal (bad key, key reused with
    other content or cache full, or its context ended while it waited); or
    with exactly the outcome that the one submission of its key had, and then
    the two requests have the same fingerprint. *)
Theorem returned_outcome s p r o : star (step sender dispatch) initial s →
  calls s !! p = Some r → sc_state r = Returned o →
  submitted_by s p o ∨ refusal o ∨
  (key_of r ≠ "" ∧ ∃ p' r', calls s !! p' = Some r' ∧ submitted_by s p' o ∧ same_request r r').
Proof.
  intros Hs%cache_reachable_ok Hr Hst. pose proof (ok_calls s Hs p r Hr) as Hc. unfold call_ok in Hc. rewrite Hst in Hc. apply Hc.
Qed.
End Invariant.

(** * Two concurrent calls with one key *)

Definition twin : SendInput := demo_send ["a@x.org"] "b".
Definition sent : outcome := (with_status SendAccepted empty_result, None).
Definition demo_step : system → system → Prop := @step ascii_tables "me@x.org" (λ _ _, True).
Definition twin_claims : sendIdempotencyCache := {["k" := MkClaim (@sendRequestFingerprint ascii_tables "me@x.org" twin) None]}.
Definition started : send_call := MkCall twin Started.
Definition s1 : system := MkSystem newSendIdempotencyCache (<[0%nat := started]> ∅) [].
Definition s2 : system := MkSystem twin_claims (set_call 0 started Dispatching (calls s1)) [].
Definition s3 : system := MkSystem twin_claims (<[1%nat := started]> (calls s2)) [].
Definition s4 : system := MkSystem twin_claims (set_call 1 started Waiting (calls s3)) [].
Definition s5 : system :=
  MkSystem (complete "k" sent twin_claims) (set_call 0 (MkCall twin Dispatching) (Returned sent) (calls s4)) [(0%nat, sent)].
Definition s6 : system :=
  MkSystem (cache s5) (set_call 1 (MkCall twin Waiting) (Returned sent) (calls s5)) (submissions s5).
Lemma first_claims : @claim ascii_tables "me@x.org" twin newSendIdempotencyCache = (twin_claims, Owner).
Proof. reflexivity. Qed.
Lemma second_waits : @claim ascii_tables "me@x.org" twin twin_claims = (twin_claims, Wait).
Proof.
  unfold claim. change (SendIdempotencyKey twin) with "k". unfold twin_claims. rewrite lookup_singleton_eq.
  cbn [fingerprint]. by rewrite decide_True.
Qed.
Lemma twins_reachable : star demo_step initial s6.
Proof.
  eapply (star_step _ _ s5); [eapply (star_step _ _ s4); [eapply (star_step _ _ s3); [eapply (star_step _ _ s2);
    [eapply (star_step _ _ s1); [eapply (star_step _ _ initial); [apply star_refl|]|]|]|]|]|].
  - exact (@step_arrive ascii_tables _ _ initial 0 twin eq_refl).
  - exact (@step_claim ascii_tables _ _ s1 0 started twin_claims Owner eq_refl eq_refl ltac:(vm_compute; discriminate) eq_refl first_claims).
  - exact (@step_arrive ascii_tables _ _ s2 1 twin eq_refl).
  - exact (@step_claim ascii_tables _ _ s3 1 started twin_claims Wait eq_refl eq_refl ltac:(vm_compute; discriminate) eq_refl second_waits).
  - exact (@step_submit ascii_tables _ _ s4 0 (MkCall twin Dispatching) sent eq_refl eq_refl I).
  - exact (@step_replay ascii_tables _ _ s5 1 (MkCall twin Waiting) _ sent eq_refl eq_refl eq_refl eq_refl).
Qed.
Lemma one_submission_per_key_witness : 0%nat = 0%nat ∧ Z.of_nat (size (cache s6)) <= 128.
Proof.
  apply (@one_submission_per_key ascii_tables "me@x.org" (λ _ _, True) s6 0 (MkCall twin (Returned sent)) 0 (MkCall twin (Returned sent))).
  - apply twins_reachable.
  - split; [reflexivity|right]. exists sent. apply list_elem_of_here.
  - split; [reflexivity|right]. exists sent. apply list_elem_of_here.
  - reflexivity.
  - vm_compute; discriminate.
Defined.
(** The waiting twin got the outcome of the one submission. *)
Lemma returned_outcome_witness : submitted_by s6 1 sent ∨ refusal sent ∨
  ("k" ≠ "" ∧ ∃ p' r', calls s6 !! p' = Some r' ∧ submitted_by s6 p' sent ∧
     @same_request ascii_tables "me@x.org" (MkCall twin (Returned sent)) r').
Proof.
  apply (@returned_outcome ascii_tables "me@x.org" (λ _ _, True) s6 1 (MkCall twin (Returned sent)) sent);
    [apply twins_reachable|reflexivity|reflexivity].
Defined.

(** The fingerprint leaves out whether a copy is to be stored in Sent, although
    docs/mail-compatibility.md says that it binds the options. *)
Lemma archive_not_bound `{UnicodeTables} sender i b :
  sendRequestFingerprint sender
    (MkSendInput (SendTo i) (SendCc i) (SendBcc i) (SendSubject i) (SendBody i) (SendIdempotencyKey i) b
       (SendInReplyTo i) (SendReferences i)) = sendRequestFingerprint sender i.
Proof. reflexivity. Qed.
