(* ===== verification/HtmlText.v ===== *)
(** HTML to text (src/internal/mail/htmltext.go): the bounded scanner that
    turns an HTML body into plain text, and its layout normalisation.  The
    entity table behind [html.UnescapeString] is a parameter. *)
From S2P Require Import Prelude GoStrings MailTypes MailValidation.
Import MT.

Definition maxHTMLNodes : Z := 100000.
Definition maxHTMLDepth : Z := 1000.
Definition maxHTMLTagBytes : Z := 4096.
Definition errMalformedHTML : Error := newError CodeProtocolError "HTML body is malformed".
Class HtmlEntities := { unescape_html : list ascii → list ascii }.

Definition lf : ascii := "010".
Definition cr : ascii := "013".
Definition tab : ascii := "009".
Definition is_quote (c : ascii) : bool := bool_decide (c = "034"%char) || bool_decide (c = "039"%char).

(** * Tags *)

Fixpoint tag_end (quoted : option ascii) (l : list ascii) (index : nat) : option nat :=
  match l with
  | [] => None
  | c :: l =>
      if is_quote c
      then tag_end (match quoted with
                    | None => Some c
                    | Some q => if decide (q = c) then None else quoted
                    end) l (S index)
      else if bool_decide (c = ">"%char) && bool_decide (quoted = None) then Some index
      else tag_end quoted l (S index)
  end.
Definition htmlTagEnd (input : list ascii) (start : nat) : option nat :=
  tag_end None (drop (start + 1) input) (start + 1).
(** [strings.IndexAny] for a set of ASCII characters. *)
Fixpoint index_any (set l : list ascii) : option nat :=
  match l with
  | [] => None
  | c :: l => if bool_decide (c ∈ set) then Some 0%nat else S <$> index_any set l
  end.
Definition htmlTagName (raw : list ascii) : list ascii :=
  let raw := trim_space_b raw in
  let raw := match raw with "/"%char :: rest => rest | _ => raw end in
  match index_any (" "%char :: tab :: cr :: lf :: bytes "/>") raw with
  | None => raw
  | Some n => take n raw
  end.
Definition isHTMLVoid (name : string) : bool :=
  bool_decide (name ∈ ["area"; "base"; "br"; "col"; "embed"; "hr"; "img"; "input"; "link"; "meta"; "param"; "source"; "track"; "wbr"]).
(** The elements whose content is left out, and those that break the line. *)
Definition hidden_element (name : string) : bool := bool_decide (name ∈ ["script"; "style"; "template"; "head"]).
Definition block_element (name : string) : bool :=
  bool_decide (name ∈ ["br"; "p"; "div"; "li"; "tr"; "h1"; "h2"; "h3"; "h4"; "h5"; "h6"; "blockquote"; "pre"; "table"; "ul"; "ol"]).
Definition appendHTMLNewline (out : list ascii) : list ascii :=
  match out with
  | [] => out
  | _ => if has_suffix_b [lf] out then out else (out ++ [lf])%list
  end.

(** * Normalisation *)

Record layout := MkLayout { lay_out : list ascii; lay_space : bool; lay_newlines : Z }.
Definition nonempty_b (l : list ascii) : bool := match l with [] => false | _ => true end.
Definition place (s : layout) (character : Z) : layout :=
  if (character =? 13) || (character =? 9) || (character =? 32) then MkLayout (lay_out s) true (lay_newlines s)
  else if character =? 10
  then MkLayout (if (lay_newlines s <? 2) && nonempty_b (lay_out s) then lay_out s ++ [lf] else lay_out s)%list
         false (if lay_newlines s <? 2 then lay_newlines s + 1 else lay_newlines s)
  else MkLayout ((if lay_space s && nonempty_b (lay_out s) then lay_out s ++ [" "%char] else lay_out s)
                 ++ encode_rune character)%list false 0.
Definition normalizeHTMLText (value : list ascii) : list ascii :=
  trim_space_b (lay_out (foldl place (MkLayout [] false 0) (runes value).*1)).

(** * The scanner *)

Record scanner := MkScanner { sc_index : nat; sc_nodes : Z; sc_depth : Z; sc_out : list ascii }.
Inductive turn :=
| More (s : scanner)
(** The loop is left. *)
| Stop (out : list ascii)
(** Too many nodes: the empty text, truncated. *)
| TooMany
| Malformed.
Section Html.
Context `{UnicodeTables, HtmlEntities}.

Definition hidden_turn (input lower : list ascii) (s : scanner) (end_ : nat) : turn :=
  match index_b (bytes "</" ++ lower) (to_lower_b (drop (end_ + 1) input)) with
  | None => Malformed
  | Some m =>
      match htmlTagEnd input (end_ + 1 + m) with
      | None => Malformed
      | Some close => More (MkScanner (close + 1) (sc_nodes s) (sc_depth s) (sc_out s))
      end
  end.
Definition tag_turn (input : list ascii) (s : scanner) (end_ : nat) : turn :=
  let s := MkScanner (sc_index s) (sc_nodes s + 1) (sc_depth s) (sc_out s) in
  if maxHTMLNodes <? sc_nodes s then TooMany
  else
    let raw := take (end_ - (sc_index s + 1)) (drop (sc_index s + 1) input) in
    let closing := has_prefix_b (bytes "/") raw in
    let selfClosing := has_suffix_b (bytes "/") (trim_space_b raw) in
    let lower := to_lower_b (htmlTagName raw) in
    if maxHTMLTagBytes <? zlen lower then Malformed
    else if hidden_element (str lower) && negb closing && negb selfClosing then hidden_turn input lower s end_
    else
      let out := if block_element (str lower) then appendHTMLNewline (sc_out s) else sc_out s in
      if negb closing && negb selfClosing && negb (isHTMLVoid (str lower))
      then if maxHTMLDepth <? sc_depth s + 1 then Malformed
           else More (MkScanner (end_ + 1) (sc_nodes s) (sc_depth s + 1) out)
      else More (MkScanner (end_ + 1) (sc_nodes s)
                   (if closing && (0 <? sc_depth s) then sc_depth s - 1 else sc_depth s) out).
Definition text_turn (maxBytes : Z) (rest : list ascii) (s : scanner) : turn :=
  let next := match index_byte "<"%char rest with Some n => n | None => length rest end in
  let out := (sc_out s ++ unescape_html (take next rest))%list in
  if maxBytes * 4 <? zlen out then Stop out
  else More (MkScanner (sc_index s + next) (sc_nodes s) (sc_depth s) out).
Definition html_turn (maxBytes : Z) (input : list ascii) (s : scanner) : turn :=
  match drop (sc_index s) input with
  | [] => Stop (sc_out s)
  | (c :: _) as rest =>
      if decide (c = "<"%char)
      then
        if has_prefix_b (bytes "<!--") rest
        then match index_b (bytes "-->") (drop 4 rest) with
             | None => Malformed
             | Some e => More (MkScanner (sc_index s + (4 + e + 3)) (sc_nodes s) (sc_depth s) (sc_out s))
             end
        else match htmlTagEnd input (sc_index s) with
             | None => Malformed
             | Some end_ => tag_turn input s end_
             end
      else text_turn maxBytes rest s
  end.
Fixpoint html_loop (fuel : nat) (maxBytes : Z) (input : list ascii) (s : scanner) : option turn :=
  match fuel with
  | O => None
  | S fuel =>
      match html_turn maxBytes input s with
      | More s => html_loop fuel maxBytes input s
      | t => Some t
      end
  end.
(** Every turn moves forward, so the length of the input bounds the turns. *)
Definition htmlToText (input : string) (maxBytes : Z) : option (result Error (string * bool)) :=
  t ← html_loop (S (length (bytes input))) maxBytes (bytes input) (MkScanner 0 0 0 []);
  match t with
  | Malformed => Some (Err errMalformedHTML)
  | TooMany => Some (Ok ("", true))
  | Stop out =>
      let normalized := str (normalizeHTMLText out) in
      Some (Ok (if maxBytes <? len normalized then (truncateUTF8 normalized maxBytes, true) else (normalized, false)))
  | More _ => None
  end.
End Html.

#[local] Definition no_entities : HtmlEntities := {| unescape_html := λ l, l |}.
Example html_demo :
  @htmlToText ascii_tables no_entities "<p>Hi <b>you</b></p><script>if (a<b) x('</p>')</SCRIPT><br/>a<!-- c -->b" 100
  = Some (Ok (str (bytes "Hi you" ++ lf :: bytes "ab"), false)).
Proof. reflexivity. Qed.

(** * Layout *)

(** No two spaces in a row; [p] tells whether a space came just before. *)
Fixpoint single_spaced (p : bool) (l : list ascii) : bool :=
  match l with
  | [] => true
  | c :: l => if decide (c = " "%char) then negb p && single_spaced true l else single_spaced false l
  end.
Definition ends_spaced (p : bool) (l : list ascii) : bool :=
  match last l with Some c => bool_decide (c = " "%char) | None => p end.
Definition tidy (l : list ascii) : Prop := tab ∉ l ∧ cr ∉ l ∧ single_spaced false l = true.

Lemma single_spaced_weaken l : single_spaced true l = true → single_spaced false l = true.
Proof. destruct l; simpl; [done|]. by destruct (decide _). Qed.
Lemma single_spaced_app p l1 l2 :
  single_spaced p (l1 ++ l2) = single_spaced p l1 && single_spaced (ends_spaced p l1) l2.
Proof.
  revert p; induction l1 as [|c l1 IH]; intros p; [done|].
  assert (∀ q, ends_spaced p (c :: l1) = ends_spaced q l1 ∨ l1 = []) as Hends.
  { intros q. destruct l1 as [|a l1]; [by right|left]. unfold ends_spaced. rewrite last_cons_cons.
    destruct (last (a :: l1)) eqn:Hl; [done|by apply last_None in Hl]. }
  simpl. rewrite !IH. destruct (decide (c = " "%char)) as [->|Hc].
  - destruct (Hends true) as [->| ->]; [by rewrite andb_assoc|]. simpl. by rewrite !andb_true_r.
  - destruct (Hends false) as [->| ->]; [done|]. unfold ends_spaced. simpl. by rewrite bool_decide_false.
Qed.
Lemma tidy_infix k1 l k2 : tidy (k1 ++ l ++ k2) → tidy l.
Proof.
  intros (Ht & Hc & Hs). rewrite !elem_of_app in Ht, Hc. rewrite !single_spaced_app in Hs.
  apply andb_prop in Hs as [_ [Hs _]%andb_prop]. split_and!; [tauto..|].
  destruct (ends_spaced false k1); [by apply single_spaced_weaken|done].
Qed.
Lemma tidy_app l x : tidy l → ends_spaced false l = false → tidy x → tidy (l ++ x).
Proof.
  intros (?&?&?) Hl (?&?&?). unfold tidy. rewrite !elem_of_app, single_spaced_app, Hl. split_and!; [tauto..|].
  by apply andb_true_intro.
Qed.
Lemma tidy_rune r : r ≠ 9 → r ≠ 13 → r ≠ 32 → tidy (encode_rune r) ∧ " "%char ∉ encode_rune r.
Proof.
  intros H9 H13 H32.
  assert (∀ c, byte_val c < 128 → byte_val c ≠ r → c ∉ encode_rune r) as Hnot
    by (intros c Hc Hne Hin; by apply Hne, encode_rune_low).
  assert (" "%char ∉ encode_rune r) as Hsp by (apply Hnot; [reflexivity|intros Heq; apply H32; by rewrite <-Heq]).
  split; [|done]. split_and!.
  - apply Hnot; [reflexivity|]. intros Heq. apply H9. by rewrite <-Heq.
  - apply Hnot; [reflexivity|]. intros Heq. apply H13. by rewrite <-Heq.
  - clear -Hsp. generalize false. induction (encode_rune r) as [|c l IH]; intros p; [done|]. simpl.
    apply not_elem_of_cons in Hsp as [Hc Hl]. rewrite decide_False by done. by apply IH.
Qed.
Lemma ends_spaced_rune p l r : " "%char ∉ encode_rune r → ends_spaced p (l ++ encode_rune r) = false.
Proof.
  intros Hsp. assert (encode_rune r ≠ []) as Hne by (unfold encode_rune; repeat case_match; done).
  destruct (exists_last Hne) as (x & c & Hx). unfold ends_spaced. rewrite Hx, app_assoc, last_snoc.
  apply bool_decide_false. intros ->. apply Hsp. rewrite Hx. apply elem_of_app. right. by apply list_elem_of_singleton.
Qed.
Definition layout_ok (s : layout) : Prop := tidy (lay_out s) ∧ ends_spaced false (lay_out s) = false.
Lemma place_ok s r : layout_ok s → layout_ok (place s r).
Proof.
  intros [Ht He]. unfold place.
  destruct (Z.eqb_spec r 13); [done|]. destruct (Z.eqb_spec r 9); [done|]. destruct (Z.eqb_spec r 32); [done|]. simpl.
  destruct (Z.eqb_spec r 10); simpl.
  - destruct (_ && _); [|done]. split; [apply tidy_app; [done..|by apply (bool_decide_unpack _); vm_compute]|].
    cbn [lay_out]. unfold ends_spaced. by rewrite last_snoc.
  - destruct (tidy_rune r) as [Hr Hsp]; [done..|]. split; [|by apply ends_spaced_rune].
    destruct (_ && _); [|by apply tidy_app].
    rewrite <-app_assoc. apply tidy_app; [done..|]. destruct Hr as (H1 & H2 & H3). split_and!.
    + by intros [|]%elem_of_cons.
    + by intros [|]%elem_of_cons.
    + simpl. destruct (encode_rune r) as [|c l]; [done|]. simpl in *. apply not_elem_of_cons in Hsp as [Hc _].
      by rewrite decide_False in * by done.
Qed.
Lemma normalizeHTMLText_tidy value : tidy (normalizeHTMLText value).
Proof.
  assert (layout_ok (foldl place (MkLayout [] false 0) (runes value).*1)) as [Ht _].
  { assert (layout_ok (MkLayout [] false 0)) as H0 by (split; [split_and!; [by intros ?%elem_of_nil..|done]|done]).
    revert H0. generalize (MkLayout [] false 0). induction (runes value).*1 as [|r l IH]; intros s Hs; [done|].
    by apply IH, place_ok. }
  unfold normalizeHTMLText, trim_space_b. destruct (trim_both_infix spaces (lay_out (foldl place (MkLayout [] false 0) (runes value).*1))) as (k1 & k2 & Heq).
  rewrite Heq in Ht. by eapply tidy_infix.
Qed.

(** * Progress *)

Lemma tag_end_spec quoted l i j : tag_end quoted l i = Some j → ∃ k1 k2, l = (k1 ++ ">"%char :: k2)%list ∧ j = (i + length k1)%nat.
Proof.
  revert quoted i; induction l as [|c l IH]; intros quoted i; simpl; [done|].
  assert (∀ q, tag_end q l (S i) = Some j → ∃ k1 k2, c :: l = (k1 ++ ">"%char :: k2)%list ∧ j = (i + length k1)%nat) as Hnext.
  { intros q (k1 & k2 & -> & ->)%IH. exists (c :: k1), k2. split; [done|]. simpl. lia. }
  destruct (is_quote c); [apply Hnext|]. destruct (_ && _) eqn:Hc; [|apply Hnext].
  intros [= <-]. apply andb_prop in Hc as [->%bool_decide_eq_true _]. exists [], l. simpl. split; [done|lia].
Qed.
Lemma htmlTagEnd_spec input start j : htmlTagEnd input start = Some j →
  (start < j < length input)%nat ∧ ∃ k1 k2, drop (start + 1) input = (k1 ++ ">"%char :: k2)%list ∧ j = (start + 1 + length k1)%nat.
Proof.
  intros (k1 & k2 & Hd & ->)%tag_end_spec. split; [|by exists k1, k2].
  apply (f_equal length) in Hd. rewrite length_drop, length_app in Hd. simpl in Hd. lia.
Qed.
Lemma index_byte_first c l : match l with x :: _ => x ≠ c | [] => False end →
  (0 < match index_byte c l with Some n => n | None => length l end)%nat.
Proof. destruct l as [|x l]; [done|]. intros Hx. simpl. rewrite decide_False by done. destruct (index_byte c l); simpl; lia. Qed.

Section Turns.
Context `{UnicodeTables, HtmlEntities}.

Lemma html_turn_progress maxBytes input s s' : html_turn maxBytes input s = More s' →
  (sc_index s < length input)%nat ∧ (sc_index s < sc_index s')%nat.
Proof.
  unfold html_turn. destruct (drop (sc_index s) input) as [|c rest] eqn:Hd; [done|]. intros Ht.
  assert (sc_index s < length input)%nat as Hlt.
  { apply (f_equal length) in Hd. rewrite length_drop in Hd. simpl in Hd. lia. }
  split; [done|].
  assert (∀ e, htmlTagEnd input (sc_index s) = Some e → tag_turn input s e = More s' → (sc_index s < sc_index s')%nat) as Htag.
  { intros e [[He _] _]%htmlTagEnd_spec. unfold tag_turn, hidden_turn. intros Hm.
    repeat case_match; simplify_eq; simpl; try lia;
      match goal with Hc : htmlTagEnd _ _ = Some _ |- _ => apply htmlTagEnd_spec in Hc as [[Hc _] _] end; lia. }
  destruct (decide (c = "<"%char)) as [->|Hc].
  - destruct (has_prefix_b _ _).
    + destruct (index_b _ _); [|done]. injection Ht as <-. simpl. lia.
    + destruct (htmlTagEnd input (sc_index s)) as [e|]; [by apply (Htag e)|done].
  - unfold text_turn in Ht. destruct (_ <? _); [done|]. injection Ht as <-. cbn [sc_index].
    pose proof (index_byte_first "<"%char (c :: rest) Hc) as Hpos.
    simpl in Hpos. revert Hpos. match goal with |- (0 < ?x)%nat → _ => generalize x end.
    intros n Hn. lia.
Qed.
Lemma html_loop_total fuel maxBytes input s : (length input - sc_index s < fuel)%nat →
  ∃ t, html_loop fuel maxBytes input s = Some t ∧ match t with More _ => False | _ => True end.
Proof.
  revert s; induction fuel as [|fuel IH]; intros s Hf; [lia|]. simpl.
  destruct (html_turn maxBytes input s) as [s'|out| |] eqn:Ht; [|by eexists..].
  apply html_turn_progress in Ht as [H1 H2]. apply IH. lia.
Qed.

Lemma valid_prefix_spec n l : (length (valid_prefix n l) <= n)%nat ∧ ∃ k, l = (valid_prefix n l ++ k)%list.
Proof.
  induction n as [|n IH]; simpl.
  - split; [done|by exists l].
  - destruct (valid_utf8 (take (S n) l)).
    + split; [rewrite length_take; lia|]. exists (drop (S n) l). by rewrite take_drop.
    + destruct IH as [IH1 IH2]. split; [lia|done].
Qed.

Lemma htmlToText_bounds input maxBytes : 0 <= maxBytes →
  match htmlToText input maxBytes with
  | None => False
  | Some (Err e) => e = errMalformedHTML
  | Some (Ok (text, truncated)) =>
      len text <= maxBytes ∧ tidy (bytes text) ∧
      (truncated = false → ∃ out, html_loop (S (length (bytes input))) maxBytes (bytes input) (MkScanner 0 0 0 []) = Some (Stop out)
                                  ∧ bytes text = normalizeHTMLText out)
  end.
Proof.
  intros Hmax. unfold htmlToText.
  destruct (html_loop_total (S (length (bytes input))) maxBytes (bytes input) (MkScanner 0 0 0 [])) as (t & Ht & Hm); [simpl; lia|].
  rewrite Ht. simpl. destruct t as [s|out| |]; [done| | |done].
  2: { split_and!; [done|split_and!; [by intros ?%elem_of_nil..|done]|done]. }
  pose proof (normalizeHTMLText_tidy out) as Htidy.
  destruct (Z.ltb_spec maxBytes (len (str (normalizeHTMLText out)))) as [Hlt|Hle].
  - unfold truncateUTF8. destruct (Z.leb_spec (len (str (normalizeHTMLText out))) maxBytes); [lia|].
    destruct (valid_prefix_spec (Z.to_nat maxBytes) (bytes (str (normalizeHTMLText out)))) as [Hlen [k Hk]].
    rewrite bytes_str in Hlen, Hk. unfold len. rewrite !bytes_str. split_and!; [unfold zlen; lia| |done].
    apply (tidy_infix [] _ k). simpl. by rewrite <-Hk.
  - split_and!; [done|by rewrite bytes_str|]. intros _. exists out. by rewrite bytes_str.
Qed.

(** Converting HTML to text always ends, with the malformed-HTML error or
    a text: one of at most [maxBytes] bytes, without tabs, carriage returns or
    two spaces in a row. The scanner's own loop needs no more turns than the
    input has bytes, and a text not flagged as truncated is the whole
    normalised text. *)
Theorem htmlToText_total input maxBytes : 0 <= maxBytes →
  match htmlToText input maxBytes with
  | None => False
  | Some (Err e) => e = errMalformedHTML
  | Some (Ok (text, truncated)) =>
      len text <= maxBytes ∧ tidy (bytes text) ∧
      (truncated = false → ∃ out, html_loop (S (length (bytes input))) maxBytes (bytes input) (MkScanner 0 0 0 []) = Some (Stop out)
                                  ∧ bytes text = normalizeHTMLText out)
  end.
Proof. apply htmlToText_bounds. Qed.
End Turns.
Lemma htmlToText_total_witness :
  let input := "<p>a  b" in
  match @htmlToText ascii_tables no_entities input 2 with
  | None => False
  | Some (Err e) => e = errMalformedHTML
  | Some (Ok (text, truncated)) =>
      len text <= 2 ∧ tidy (bytes text) ∧
      (truncated = false → ∃ out, @html_loop ascii_tables no_entities (S (length (bytes input))) 2 (bytes input) (MkScanner 0 0 0 []) = Some (Stop out)
                                  ∧ bytes text = normalizeHTMLText out)
  end.
Proof. apply (@htmlToText_total ascii_tables no_entities "<p>a  b" 2). lia. Defined.

(** * Hidden elements *)

Section Hidden.
Context `{UnicodeTables, HtmlEntities}.

(** At the scanner's position an element whose content is left out opens, and
    [raw] is what its tag holds. *)
Record opens_hidden (input : list ascii) (s : scanner) (raw lower : list ascii) : Prop := {
  oh_tag : ∃ rest, drop (sc_index s) input = ("<"%char :: raw ++ ">"%char :: rest)%list ∧
             htmlTagEnd input (sc_index s) = Some (sc_index s + 1 + length raw)%nat;
  oh_name : lower = to_lower_b (htmlTagName raw) ∧ hidden_element (str lower) = true;
  oh_open : has_prefix_b (bytes "/") raw = false ∧ has_suffix_b (bytes "/") (trim_space_b raw) = false;
  oh_markup : has_prefix_b (bytes "!--") raw = false;
}.

Lemma prefix_split (p k2 a b : list ascii) x : x ∉ p → (p ++ k2)%list = (a ++ x :: b)%list → ∃ c, a = (p ++ c)%list.
Proof.
  revert a; induction p as [|y p IH]; intros a Hx Heq; [by exists a|].
  apply not_elem_of_cons in Hx as [Hy Hp]. destruct a as [|z a]; simpl in Heq; [congruence|].
  injection Heq as -> Heq. destruct (IH a Hp Heq) as [c ->]. by exists c.
Qed.
(** What [index_b] finds in the lower-case text, in the text itself. *)
Lemma index_lower (pat l : list ascii) m : pat ≠ [] → index_b pat (map lower_byte l) = Some m →
  ∃ content r, l = (content ++ r)%list ∧ length content = m ∧ (∃ k, map lower_byte r = (pat ++ k)%list) ∧
    contains_b (map lower_byte content) pat = false.
Proof.
  intros Hpat Hm. destruct (index_b_Some _ _ _ Hm) as (k1 & k2 & Heq & Hlen).
  exists (take m l), (drop m l). rewrite <-(take_drop m l) in Heq at 1. rewrite map_app in Heq.
  assert (length (map lower_byte (take m l)) = m) as Hk.
  { apply (f_equal length) in Heq. rewrite !length_app, !length_map, length_drop, length_take in Heq. rewrite length_map, length_take. lia. }
  apply app_inj_1 in Heq as [H1 H2]; [|lia].
  split_and!; [by rewrite take_drop|by rewrite length_map in Hk|by exists k2|].
  apply contains_b_false. intros a b Hc.
  assert (m <= length a)%nat as Hfirst.
  { apply (index_b_first pat (map lower_byte l) m Hm a b (map lower_byte (drop m l))).
    replace (map lower_byte l) with (map lower_byte (take m l) ++ map lower_byte (drop m l))%list by by rewrite <-map_app, take_drop.
    by rewrite Hc, <-!app_assoc. }
  apply (f_equal length) in Hc. rewrite Hk, !length_app in Hc. destruct pat; simpl in *; [done|lia].
Qed.
Lemma is_ascii_drop n l : is_ascii_b l = true → is_ascii_b (drop n l) = true.
Proof.
  unfold is_ascii_b. rewrite !forallb_forall. intros Hl x Hx. apply Hl. rewrite <-(take_drop n l). apply in_or_app. by right.
Qed.
Lemma hidden_turn_skips input lower s e s' : is_ascii_b input = true → ">"%char ∉ (bytes "</" ++ lower)%list →
  hidden_turn input lower s e = More s' →
  ∃ content close rest,
    drop (e + 1) input = (content ++ close ++ rest)%list ∧ drop (sc_index s') input = rest ∧ sc_out s' = sc_out s ∧
    (∃ attributes, map lower_byte close = (bytes "</" ++ lower ++ attributes ++ bytes ">")%list) ∧
    contains_b (map lower_byte content) (bytes "</" ++ lower) = false.
Proof.
  intros Hascii Hgt. unfold hidden_turn, to_lower_b. rewrite (is_ascii_drop (e + 1)) by done.
  destruct (index_b _ _) as [m|] eqn:Hm; [|done]. destruct (htmlTagEnd _ _) as [cl|] eqn:Hcl; [|done]. intros [= <-].
  destruct (index_lower (bytes "</" ++ lower) _ m ltac:(done) Hm) as (content & r & Hr & Hlen & [k Hk] & Hno).
  apply htmlTagEnd_spec in Hcl as (_ & j1 & j2 & Hj & ->).
  assert (∃ x, r = (x :: j1 ++ ">"%char :: j2)%list) as [x ->].
  { replace (e + 1 + m + 1)%nat with (e + 1 + (m + 1))%nat in Hj by lia.
    rewrite <-drop_drop, Hr, <-Hlen, drop_app_add in Hj. destruct r as [|x r]; [by destruct j1|].
    exists x. simpl in Hj. by rewrite drop_0 in Hj; rewrite <-Hj. }
  exists content, (x :: j1 ++ [">"%char])%list, j2.
  assert (drop (e + 1 + m + 1 + length j1 + 1) input = j2) as Hrest.
  { replace (e + 1 + m + 1 + length j1 + 1)%nat with (e + 1 + (m + (1 + length j1 + 1)))%nat by lia.
    rewrite <-drop_drop, Hr, <-Hlen, drop_app_add. simpl. rewrite drop_app_add. done. }
  split_and!; [|exact Hrest|done| |done].
  - rewrite Hr. simpl. by rewrite <-app_assoc.
  - simpl in Hk. injection Hk as Hx Hk. rewrite map_app in Hk. simpl in Hk.
    destruct (prefix_split ("/"%char :: lower) k (map lower_byte j1) (map lower_byte j2) ">"%char) as [attributes Ha].
    + intros Hin. apply Hgt. simpl. by right.
    + symmetry. exact Hk.
    + exists attributes. simpl. by rewrite Hx, map_app, Ha, <-app_assoc.
Qed.

(** In an ASCII body the content of a script, style, template or head
    element never reaches the text: the scanner goes from the opening tag to
    the end of the first closing tag of that name, whatever its case, with
    its output unchanged; what it skips in between holds no such tag. *)
Theorem hidden_skipped maxBytes input s raw lower s' : is_ascii_b input = true →
  opens_hidden input s raw lower → html_turn maxBytes input s = More s' →
  ∃ content close rest,
    drop (sc_index s) input = ("<"%char :: raw ++ [">"%char] ++ content ++ close ++ rest)%list ∧
    drop (sc_index s') input = rest ∧ sc_out s' = sc_out s ∧
    (∃ attributes, map lower_byte close = (bytes "</" ++ lower ++ attributes ++ bytes ">")%list) ∧
    contains_b (map lower_byte content) (bytes "</" ++ lower) = false.
Proof.
  intros Hascii [(rest0 & Hdrop & Hend) [-> Hname] [Hc Hsc] Hmark]. unfold html_turn. rewrite Hdrop.
  destruct (decide _); [|done]. destruct (has_prefix_b (bytes "<!--") _) eqn:Hcomment.
  { exfalso. apply has_prefix_b_spec in Hcomment as [k Hk]. injection Hk as Hk.
    destruct (prefix_split (bytes "!--") k raw rest0 ">"%char) as [c ->].
    - by apply (bool_decide_unpack _).
    - by symmetry.
    - rewrite (proj2 (has_prefix_b_spec (bytes "!--") _)) in Hmark by eauto. done. }
  rewrite Hend. unfold tag_turn. cbn [sc_index sc_nodes sc_depth sc_out]. destruct (_ <? _); [done|].
  assert (take (sc_index s + 1 + length raw - (sc_index s + 1)) (drop (sc_index s + 1) input) = raw) as ->.
  { replace (sc_index s + 1 + length raw - (sc_index s + 1))%nat with (length raw) by lia.
    rewrite <-drop_drop, Hdrop. simpl. rewrite drop_0. apply take_app_length. }
  destruct (_ <? zlen _); [done|]. rewrite Hname, Hc, Hsc. cbn [andb negb]. intros Ht.
  apply hidden_turn_skips in Ht as (content & close & rest & Hr & Hs' & Hout & Hclose & Hno); [|done|].
  - exists content, close, rest. split_and!; [|done..].
    replace (sc_index s + 1 + length raw + 1)%nat with (sc_index s + S (length raw + 1))%nat in Hr by lia.
    rewrite <-drop_drop, Hdrop in Hr. simpl in Hr. rewrite drop_app_add in Hr. simpl in Hr. rewrite drop_0 in Hr. by rewrite Hr.
  - unfold hidden_element in Hname. apply bool_decide_eq_true in Hname.
    set (lower := to_lower_b (htmlTagName raw)) in *. rewrite <-(bytes_str lower).
    repeat (apply elem_of_cons in Hname as [->|Hname]; [by apply (bool_decide_unpack _)|]). by apply elem_of_nil in Hname.
Qed.
End Hidden.
Lemma hidden_skipped_witness :
  ∃ content close rest,
    bytes "<script>a>b</SCRIPT >x" = ("<"%char :: bytes "script" ++ [">"%char] ++ content ++ close ++ rest)%list ∧
    bytes "x" = rest ∧ [] = @nil ascii ∧
    (∃ attributes, map lower_byte close = (bytes "</" ++ bytes "script" ++ attributes ++ bytes ">")%list) ∧
    contains_b (map lower_byte content) (bytes "</" ++ bytes "script") = false.
Proof.
  apply (@hidden_skipped ascii_tables no_entities 100 (bytes "<script>a>b</SCRIPT >x") (MkScanner 0 0 0 []) (bytes "script")
    (bytes "script") (MkScanner 21 1 0 [])); [reflexivity| |reflexivity].
  constructor; [|split; reflexivity..|reflexivity]. exists (bytes "a>b</SCRIPT >x"). split; reflexivity.
Defined.

(** Outside ASCII the closing tag is searched in the lower-case text and the
    position found is used in the original one. The Kelvin sign (U+212A, three
    bytes) is "k" in lower case, so each one moves the end of the script two
    bytes back, and script content reaches the text. *)
Definition kelvin_tables : UnicodeTables :=
  {| unicode_lower := λ r, if r =? 8490 then 107 else r; unicode_upper := λ r, r; unicode_fold := Z.eqb; unicode_print := λ _, true |}.
Definition kelvins (n : nat) : string := str (concat (replicate n (encode_rune 8490))).
Lemma script_leaks :
  @htmlToText kelvin_tables no_entities ("<script>x=" ++ kelvins 8 ++ "; a > secret;</script>shown") 100
  = Some (Ok ("secret;shown", false)).
Proof. reflexivity. Qed.
