(* ===== verification/MailRead.v ===== *)
(** Reading a message (src/internal/mail/read.go): the part shown, its decoding,
    the HTML fallback and the fit to the result limit.  go-message is a
    parameter. *)
From S2P Require Import Prelude GoStrings GoTime NetMail MailTypes MailValidation ImapAdapter MailClient MailMutation MailSearch HtmlText.
Import MT.

Definition MaxWireBodyBytes : Z := 512 * 1024.
Definition MaxHeaderBytes : Z := 64 * 1024.
Definition MaxAttachments : Z := 100.

(** What go-message makes of a part: its media type where the header can be
    parsed, and its decoded body, which may break off. *)
Record entity := MkEntity { media_type : option string; decoded : list ascii; breaks_off : bool }.
Class MimeReader := { read_entity : list ascii → option entity }.
Class MessageSize := { size_message : MailMessage → Z }.

(** * Decoding *)

(** [strings.ToValidUTF8] with U+FFFD: each run of invalid bytes becomes one. *)
Fixpoint valid_runs (in_run : bool) (rs : list (Z * nat)) : list ascii :=
  match rs with
  | [] => []
  | (r, w) :: rs =>
      if (r =? rune_error) && (w =? 1)%nat
      then ((if in_run then [] else encode_rune rune_error) ++ valid_runs true rs)%list
      else (encode_rune r ++ valid_runs false rs)%list
  end.
Definition to_valid_utf8 (l : list ascii) : list ascii := valid_runs false (runes l).
(** [io.ReadAll] of a reader limited to [n] bytes. *)
Definition read_limited (n : Z) (e : entity) : option (list ascii) :=
  if n <=? zlen (decoded e) then Some (take (Z.to_nat n) (decoded e))
  else if breaks_off e then None else Some (decoded e).
Definition crlf : list ascii := [cr; lf].
(** The header with the blank line that ends it. *)
Definition terminated (header : list ascii) : list ascii :=
  if has_suffix_b (crlf ++ crlf) header || has_suffix_b [lf; lf] header then header
  else if has_suffix_b crlf header then (header ++ crlf)%list
  else if has_suffix_b [lf] header then (header ++ [lf])%list
  else (header ++ crlf ++ crlf)%list.

Section Read.
Context `{UnicodeTables, HtmlEntities, MimeReader, MessageSize}.

(** The decoded bytes of a part of the wanted type, at most [limit + 1]. *)
Definition decode_part (wanted : string) (header body : list ascii) (limit : Z) : option (list ascii) :=
  e ← read_entity (terminated header ++ body);
  t ← media_type e;
  if equal_fold t wanted then read_limited (limit + 1) e else None.
Definition oversized_part (header body : list ascii) : bool :=
  (MaxHeaderBytes <? zlen header) || (MaxWireBodyBytes <? zlen body).
(** [None] where it fails; the flag tells that the body is too long. *)
Definition decodePlainBody (header body : list ascii) (maxBytes : Z) : option (string * bool) :=
  if oversized_part header body then Some ("", true)
  else
    d ← decode_part "text/plain" header body maxBytes;
    Some (if maxBytes <? zlen d then ("", true) else (str (to_valid_utf8 d), false)).
Definition decodeHTMLBody (header body : list ascii) : option string :=
  if oversized_part header body then None
  else
    d ← decode_part "text/html" header body MaxWireBodyBytes;
    if MaxWireBodyBytes <? zlen d then None else Some (str (to_valid_utf8 d)).

(** [itoa] on a part number, which is not negative. *)
Definition partID (path : list Z) : string :=
  match path with [] => "root" | _ => join (map fmt_int path) "." end.

(** * The fit to the result limit *)

Definition with_body (body : string) (omitted : bool) (m : MailMessage) : MailMessage :=
  MkMailMessage (MmSummary m) (ReplyTo m) (InReplyTo m) (References m) body (BodySource m) omitted
    (BodyUnavailableReason m) (Attachments m) (Warnings m).
Definition with_source (source : string) (m : MailMessage) : MailMessage :=
  MkMailMessage (MmSummary m) (ReplyTo m) (InReplyTo m) (References m) (Body m) source (BodyOmitted m)
    (BodyUnavailableReason m) (Attachments m) (Warnings m).
Definition with_reason (reason : string) (m : MailMessage) : MailMessage :=
  MkMailMessage (MmSummary m) (ReplyTo m) (InReplyTo m) (References m) (Body m) (BodySource m) (BodyOmitted m)
    reason (Attachments m) (Warnings m).
Definition warn (code message : string) (m : MailMessage) : MailMessage :=
  MkMailMessage (MmSummary m) (ReplyTo m) (InReplyTo m) (References m) (Body m) (BodySource m) (BodyOmitted m)
    (BodyUnavailableReason m) (Attachments m) (Warnings m ++ [MkWarning code message])%list.
Definition too_big (m : MailMessage) : bool := MaxResultBytes <? size_message m.
(** Each turn shortens the body, so its length bounds the turns. *)
Fixpoint shrink (fuel : nat) (m : MailMessage) : MailMessage :=
  if too_big m && (0 <? len (Body m)) then
    match fuel with
    | O => m
    | S fuel =>
        let over := size_message m - MaxResultBytes in
        let cut := len (Body m) - over - 1024 in
        shrink fuel (with_body (truncateUTF8 (Body m) (Z.max cut 0)) (BodyOmitted m) m)
    end
  else m.
Definition fitMessageResult (m : MailMessage) : result mail_error MailMessage :=
  if negb (too_big m) then Ok m
  else
    let m := if decide (Body m = "") then m
             else shrink (length (bytes (Body m)))
                    (warn "body_truncated" "message body was truncated to fit the result limit" m) in
    let m := if too_big m then with_body "" true m else m in
    if too_big m then Err (Public (newError CodePayloadTooLarge "message metadata exceeds the result limit"))
    else Ok m.

(** * The message *)

Record chosen := MkChosen {
  selectedPart : option IA.BodyPart; htmlPart : option IA.BodyPart; attachments : list Attachment;
}.
Definition is_html (p : IA.BodyPart) : bool := bool_decide (IA.ContentType p = "text/html") && negb (IA.IsAttachment p).
Definition first_of (o : option IA.BodyPart) (p : IA.BodyPart) (b : bool) : option IA.BodyPart :=
  match o with Some _ => o | None => if b then Some p else None end.
Definition choose (c : chosen) (p : IA.BodyPart) : result mail_error chosen :=
  let html := first_of (htmlPart c) p (is_html p) in
  let plain := first_of (selectedPart c) p (IA.InlinePlain p) in
  if IA.IsAttachment p then
    reject MaxAttachments <=? zlen (attachments c) with Imap (IA.failure IA.ErrorTooLarge) ;;
    Ok (MkChosen plain html
          (attachments c ++ [MkAttachment (partID (IA.Path p)) (IA.Filename p) (IA.ContentType p) (IA.PartSize p) (IA.ContentID p)])%list)
  else Ok (MkChosen plain html (attachments c)).
Definition or_else {A} (l l' : list A) : list A := match l with [] => l' | _ => l end.
Definition with_messageID (s : MessageSummary) (id : string) : MessageSummary :=
  MkMessageSummary (MsMailbox s) (MsUIDValidity s) (MsUID s) (MsFlags s) (MsFrom s) (MsTo s) (MsCc s) (MsSubject s)
    (MT.InternalDate s) (HeaderDate s) (MsSize s) id (MT.ModSeq s).
Definition message_of (input : GetMessageInput) (item : IA.Message) (attachments : list Attachment) : MailMessage :=
  let summary := summaryFromProtocol (GmMailbox input) (GmUIDValidity input) item in
  let h := IA.Headers item in
  MkMailMessage (if decide (IA.HdMessageID h = "") then summary else with_messageID summary (IA.HdMessageID h))
    (or_else (publicAddresses (IA.HdReplyTo h)) (publicAddresses (IA.EnvReplyTo (IA.MsgEnvelope item))))
    (or_else (IA.HdInReplyTo h) (IA.EnvInReplyTo (IA.MsgEnvelope item)))
    (IA.HdReferences h) "" "" false "" attachments [].
Definition omitted (code message : string) (m : MailMessage) : MailMessage := warn code message (with_body (Body m) true m).

Context {W : Type} `{MailNet W}.
Definition html_body (maxBody : Z) (data : IA.BodyData) (m : MailMessage) : MailMessage :=
  let unavailable code message := omitted code message (with_reason "html_only" m) in
  if IA.TooLarge data then unavailable "html_too_large" "HTML body exceeded the wire-byte limit and was omitted"
  else
    match decodeHTMLBody (IA.MIMEHeader data) (IA.BodyBytes data) with
    | None => unavailable "html_decode_failed" "HTML body could not be safely decoded and was omitted"
    | Some html =>
        match htmlToText html maxBody with
        | Some (Ok (text, truncated)) =>
            let m := with_source "html_fallback" (with_body text (BodyOmitted m) m) in
            if truncated then warn "html_truncated" "HTML text was truncated to max_body_bytes" m else m
        | _ => unavailable "html_malformed" "HTML body was malformed and was omitted"
        end
    end.
Definition plain_body (maxBody : Z) (data : IA.BodyData) (m : MailMessage) : MailMessage :=
  if IA.TooLarge data
  then omitted "body_too_large" "plain-text body exceeded the wire-byte limit and was omitted" m
  else
    match decodePlainBody (IA.MIMEHeader data) (IA.BodyBytes data) maxBody with
    | None => omitted "body_decode_failed" "plain-text body could not be safely decoded and was omitted" m
    | Some (_, true) => omitted "body_too_large" "decoded plain-text body exceeded max_body_bytes and was omitted" m
    | Some (body, false) => with_source "plain_text" (with_body body (BodyOmitted m) m)
    end.
Definition get_op (input : GetMessageInput) (maxBody : Z) : Net W MailMessage :=
  selected ← call (SelectBox (GmMailbox input) true);
  fail_if (negb (IA.UIDValidity selected =? GmUIDValidity input))
    (Public (newError CodeConcurrentModification "mailbox UIDVALIDITY changed; search for the message again"));;
  metadata ← call (FetchMetadata [GmUID input] true);
  match metadata with
  | [item] =>
      fail_if (negb (IA.UID item =? GmUID input)) (Imap (IA.failure IA.ErrorNotFound));;
      c ← of_mail (fold_res choose (IA.Parts item) (MkChosen None None []));
      let m := message_of input item (attachments c) in
      match selectedPart c, htmlPart c with
      | Some part, _ =>
          data ← call (FetchBodyPart (GmUID input) (IA.Path part));
          of_mail (fitMessageResult (plain_body maxBody data m))
      | None, Some part =>
          if AllowHTMLFallback input
          then
            data ← call (FetchBodyPart (GmUID input) (IA.Path part));
            of_mail (fitMessageResult (html_body maxBody data m))
          else of_mail (fitMessageResult (with_reason "html_only" m))
      | None, None => of_mail (fitMessageResult (with_reason "no_plain_text" m))
      end
  | _ => fail (Imap (IA.failure IA.ErrorNotFound))
  end.
Definition GetMessage (input : GetMessageInput) : Net W MailMessage :=
  of_result (validateIdentity (GmMailbox input) (GmUIDValidity input) (GmUID input));;
  let maxBody := if GmMaxBodyBytes input =? 0 then DefaultBodyBytes else GmMaxBodyBytes input in
  fail_if ((maxBody <? 1) || (MaxBodyBytes <? maxBody))
    (Public (validationError "max_body_bytes must be between 1 and 204800"));;
  read (get_op input maxBody).
End Read.

(** * Proofs *)

Lemma truncateUTF8_spec s n : 0 <= n → len (truncateUTF8 s n) <= Z.max n 0 ∧ ∃ k, bytes s = (bytes (truncateUTF8 s n) ++ k)%list.
Proof.
  intros Hn. unfold truncateUTF8. destruct (Z.leb_spec (len s) n); [split; [lia|by exists []; rewrite app_nil_r]|].
  destruct (valid_prefix_spec (Z.to_nat n) (bytes s)) as [Hl [k Hk]]. unfold len. rewrite bytes_str.
  split; [unfold zlen; lia|by exists k].
Qed.
(** [m'] is [m] with its body cut, and a warning or the omission of the body
    that says so. *)
Record cut_of (m m' : MailMessage) : Prop := {
  cut_summary : MmSummary m' = MmSummary m;
  cut_attachments : Attachments m' = Attachments m;
  cut_source : BodySource m' = BodySource m;
  cut_headers : ReplyTo m' = ReplyTo m ∧ InReplyTo m' = InReplyTo m ∧ References m' = References m;
  cut_warnings : ∃ ws, Warnings m' = (Warnings m ++ ws)%list;
  cut_body : ∃ k, bytes (Body m) = (bytes (Body m') ++ k)%list;
  cut_omitted : BodyOmitted m' = BodyOmitted m ∨ (BodyOmitted m' = true ∧ Body m' = "");
}.
Lemma cut_of_refl m : cut_of m m.
Proof. constructor; try done; [by exists []; rewrite app_nil_r..|by left]. Qed.
Lemma cut_of_trans m1 m2 m3 : cut_of m1 m2 → cut_of m2 m3 → cut_of m1 m3.
Proof.
  intros [? ? ? (?&?&?) [w1 Hw1] [k1 Hk1] Ho1] [? ? ? (?&?&?) [w2 Hw2] [k2 Hk2] Ho2]. constructor; try congruence.
  - split_and!; congruence.
  - exists (w1 ++ w2)%list. by rewrite Hw2, Hw1, app_assoc.
  - exists (k2 ++ k1)%list. by rewrite Hk1, Hk2, app_assoc.
  - destruct Ho2 as [Ho2|Ho2]; [|by right]. destruct Ho1 as [Ho1|[Ho1 Hb]]; [left; congruence|].
    right. split; [congruence|]. rewrite Hb in Hk2. by destruct (Body m3).
Qed.

Section Fit.
Context `{UnicodeTables, MessageSize}.

Lemma shrink_ok fuel m : (length (bytes (Body m)) <= fuel)%nat →
  let m' := shrink fuel m in cut_of m m' ∧ (too_big m' = true → Body m' = "") ∧ Warnings m' = Warnings m ∧ BodyOmitted m' = BodyOmitted m.
Proof.
  assert (∀ m, (0 <? len (Body m)) = false → Body m = "") as Hempty.
  { intros m' Hl. apply Z.ltb_ge in Hl. destruct (Body m') as [|a s]; [done|]. unfold len in Hl. simpl in Hl.
    autorewrite with golen in Hl. pose proof (zlen_nonneg (bytes s)). unfold zlen in *. simpl in *. lia. }
  revert m; induction fuel as [|fuel IH]; intros m Hf; simpl.
  - assert (Body m = "") as Hb.
    { apply Hempty. apply Z.ltb_ge. unfold len, zlen. lia. }
    destruct (_ && _); split_and!; try done; apply cut_of_refl.
  - destruct (too_big m) eqn:Hbig; simpl; [|split_and!; [apply cut_of_refl|congruence|done..]].
    destruct (0 <? len (Body m)) eqn:Hl; [|split_and!; [apply cut_of_refl|auto|done..]].
    set (cut := Z.max (len (Body m) - (size_message m - MaxResultBytes) - 1024) 0).
    destruct (truncateUTF8_spec (Body m) cut ltac:(lia)) as [Hlen [k Hk]].
    destruct (IH (with_body (truncateUTF8 (Body m) cut) (BodyOmitted m) m)) as (IH1 & IH2 & IH3 & IH4).
    + simpl. unfold too_big in Hbig. apply Z.ltb_lt in Hbig, Hl. unfold len, zlen in *. lia.
    + split_and!; [|done|by rewrite IH3|by rewrite IH4]. eapply cut_of_trans; [|exact IH1].
      constructor; simpl; try done; [by exists []; rewrite app_nil_r|by exists k|by left].
Qed.

Lemma fitMessageResult_fits m :
  match fitMessageResult m with
  | Ok m' => size_message m' <= MaxResultBytes ∧ cut_of m m' ∧ (size_message m <= MaxResultBytes → m' = m) ∧
      (Warnings m' = Warnings m → Body m' = Body m)
  | Err err =>
      err = Public (newError CodePayloadTooLarge "message metadata exceeds the result limit") ∧
      ∃ m', cut_of m m' ∧ Body m' = "" ∧ MaxResultBytes < size_message m'
  end.
Proof.
  unfold fitMessageResult. destruct (too_big m) eqn:Hbig; simpl.
  2: { unfold too_big in Hbig. apply Z.ltb_ge in Hbig. split_and!; [done|apply cut_of_refl|done..]. }
  set (m1 := if decide (Body m = "") then m else _).
  assert (cut_of m m1 ∧ (too_big m1 = true → Body m1 = "") ∧ (Warnings m1 = Warnings m → Body m1 = Body m)) as (Hcut & Hb & Hw).
  { subst m1. destruct (decide _) as [He|He]; [by split_and!; [apply cut_of_refl| |]|].
    set (mw := warn _ _ m). destruct (shrink_ok (length (bytes (Body m))) mw) as (H1 & H2 & H3 & H4); [done|].
    split_and!; [|done|].
    2: { rewrite H3. simpl. intros Hlen%(f_equal length). rewrite length_app in Hlen. simpl in Hlen. lia. }
    eapply cut_of_trans; [|exact H1].
    constructor; simpl; try done; [by eexists|by exists []; rewrite app_nil_r|by left]. }
  set (m2 := if too_big m1 then _ else _).
  assert (cut_of m m2 ∧ (too_big m2 = true → Body m2 = "") ∧ (Warnings m2 = Warnings m → Body m2 = Body m)) as (Hcut2 & Hb2 & Hw2).
  { subst m2. clearbody m1. destruct (too_big m1) eqn:Hm1; [|split_and!; [exact Hcut|congruence|exact Hw]].
    split_and!; [|done|simpl; intros Hws; by rewrite <-(Hw Hws), Hb]. eapply cut_of_trans; [exact Hcut|].
    constructor; simpl; try done; [by exists []; rewrite app_nil_r|by eexists|by right]. }
  destruct (too_big m2) eqn:Hbig2.
  - split; [done|]. exists m2. split_and!; [done|by apply Hb2|]. unfold too_big in Hbig2. by apply Z.ltb_lt.
  - unfold too_big in *. apply Z.ltb_lt in Hbig. apply Z.ltb_ge in Hbig2. split_and!; [done|done|lia|done].
Qed.

(** Fitting a message to the result limit always ends: a message that fits
    is unchanged; any other keeps everything but its body, which becomes a
    prefix of what it was (or is omitted, flagged as such) with a warning where
    anything is lost, and fits; or it is
    refused as too large, and then it is too large with an empty body as well. *)
Theorem fitMessageResult_ok m :
  match fitMessageResult m with
  | Ok m' => size_message m' <= MaxResultBytes ∧ cut_of m m' ∧ (size_message m <= MaxResultBytes → m' = m) ∧
      (Warnings m' = Warnings m → Body m' = Body m)
  | Err err =>
      err = Public (newError CodePayloadTooLarge "message metadata exceeds the result limit") ∧
      ∃ m', cut_of m m' ∧ Body m' = "" ∧ MaxResultBytes < size_message m'
  end.
Proof. apply fitMessageResult_fits. Qed.
End Fit.

Section GetMessage.
Context `{UnicodeTables, HtmlEntities, MimeReader, MessageSize} {W : Type} `{MailNet W}.

Lemma traced_of_mail {A} (r : result mail_error A) : traced (W:=W) (of_mail r) (λ t a, t = [] ∧ r = Ok a).
Proof. destruct r; [by apply traced_ret|apply traced_fail]. Qed.

(** The parts listed as attachments, and the parts the body may come from. *)
Definition listed (parts : list IA.BodyPart) : list Attachment :=
  map (λ p, MkAttachment (partID (IA.Path p)) (IA.Filename p) (IA.ContentType p) (IA.PartSize p) (IA.ContentID p))
    (List.filter IA.IsAttachment parts).
Definition first_plain (parts : list IA.BodyPart) : option IA.BodyPart := head (List.filter IA.InlinePlain parts).
Definition first_html (parts : list IA.BodyPart) : option IA.BodyPart := head (List.filter is_html parts).

Lemma choose_all parts : ∀ c c', fold_res choose parts c = Ok c' →
  selectedPart c' = match selectedPart c with Some p => Some p | None => first_plain parts end ∧
  htmlPart c' = match htmlPart c with Some p => Some p | None => first_html parts end ∧
  attachments c' = (attachments c ++ listed parts)%list ∧
  (zlen (attachments c) <= MaxAttachments → zlen (attachments c') <= MaxAttachments).
Proof.
  induction parts as [|p parts IH]; intros c c'; cbn [fold_res].
  { intros [= <-]. rewrite app_nil_r. by destruct (selectedPart c), (htmlPart c). }
  destruct (choose c p) as [c1|] eqn:Hc; [|done]. intros (Hs & Hh & Ha & Hn)%IH.
  assert (selectedPart c1 = first_of (selectedPart c) p (IA.InlinePlain p) ∧ htmlPart c1 = first_of (htmlPart c) p (is_html p) ∧
    attachments c1 = (attachments c ++ listed [p])%list ∧ (zlen (attachments c) <= MaxAttachments → zlen (attachments c1) <= MaxAttachments))
    as (Hs1 & Hh1 & Ha1 & Hn1).
  { unfold choose in Hc. unfold listed. cbn [List.filter]. destruct (IA.IsAttachment p); simpl.
    - destruct (Z.leb_spec MaxAttachments (zlen (attachments c))); [done|]. injection Hc as <-. split_and!; try done.
      intros _. simpl. autorewrite with golen. unfold zlen in *. simpl. lia.
    - injection Hc as <-. by rewrite app_nil_r. }
  split_and!; [| | |auto]; rewrite ?Hs, ?Hh, ?Ha, ?Hs1, ?Hh1, ?Ha1;
    unfold first_plain, first_html, listed, first_of; cbn [List.filter];
    [by destruct (selectedPart c), (IA.InlinePlain p)|by destruct (htmlPart c), (is_html p)|].
  rewrite <-app_assoc. f_equal. by destruct (IA.IsAttachment p).
Qed.

(** What a returned body is, where one is shown: the text decoded from the bytes
    that were fetched for the part, or a first part of it with a warning. *)
Definition shown_from (source text : string) (m : MailMessage) : Prop :=
  BodySource m = source ∧ (∃ cut, bytes text = (bytes (Body m) ++ cut)%list) ∧ (Warnings m = [] → Body m = text).
Inductive body_read (input : GetMessageInput) (maxBody : Z) (parts : list IA.BodyPart) : list event → MailMessage → Prop :=
  | body_none fetched m : Body m = "" → body_read input maxBody parts fetched m
  | body_plain p data text m :
      first_plain parts = Some p → IA.TooLarge data = false →
      decodePlainBody (IA.MIMEHeader data) (IA.BodyBytes data) maxBody = Some (text, false) →
      shown_from "plain_text" text m →
      body_read input maxBody parts [Ev (FetchBodyPart (GmUID input) (IA.Path p)) (Ret data)] m
  | body_html p data html text truncated m :
      first_plain parts = None → first_html parts = Some p → AllowHTMLFallback input = true → IA.TooLarge data = false →
      decodeHTMLBody (IA.MIMEHeader data) (IA.BodyBytes data) = Some html →
      htmlToText html maxBody = Some (Ok (text, truncated)) →
      shown_from "html_fallback" text m → (Warnings m = [] → truncated = false) →
      body_read input maxBody parts [Ev (FetchBodyPart (GmUID input) (IA.Path p)) (Ret data)] m.

(** The message was read by these commands of one session: the mailbox was
    selected with the UIDVALIDITY asked for, the one message answered has the
    UID asked for, and everything shown is taken from the answers. *)
Definition message_read (input : GetMessageInput) (maxBody : Z) (t : list event) (m : MailMessage) : Prop :=
  ∃ sel item fetched,
    t = (Ev (SelectBox (GmMailbox input) true) (Ret sel) :: Ev (FetchMetadata [GmUID input] true) (Ret [item]) :: fetched)%list ∧
    IA.UIDValidity sel = GmUIDValidity input ∧ IA.UID item = GmUID input ∧
    (MsMailbox (MmSummary m) = GmMailbox input ∧ MsUIDValidity (MmSummary m) = GmUIDValidity input ∧
     MsUID (MmSummary m) = GmUID input) ∧
    MmSummary m = MmSummary (message_of input item (Attachments m)) ∧
    Attachments m = listed (IA.Parts item) ∧ zlen (Attachments m) <= MaxAttachments ∧
    (BodyOmitted m = true → Body m = "") ∧ size_message m <= MaxResultBytes ∧
    body_read input maxBody (IA.Parts item) fetched m.

(** The message before the fit to the result limit, given what was fetched. *)
Definition unfitted (input : GetMessageInput) (maxBody : Z) (item : IA.Message) (fetched : list event) (m : MailMessage) : Prop :=
  MmSummary m = MmSummary (message_of input item (Attachments m)) ∧ Attachments m = listed (IA.Parts item) ∧
  (BodyOmitted m = true → Body m = "") ∧ body_read input maxBody (IA.Parts item) fetched m.

Lemma shown_cut source text m m' : cut_of m m' → (Warnings m' = Warnings m → Body m' = Body m) →
  shown_from source text m → shown_from source text m' ∧ (Warnings m' = [] → Warnings m = []).
Proof.
  intros Hcut Hw (Hs & [k Hk] & Hall). destruct (cut_body _ _ Hcut) as [k' Hk'], (cut_warnings _ _ Hcut) as [ws Hws].
  assert (Warnings m' = [] → Warnings m = []) as Hnil by (rewrite Hws; by intros [? _]%app_eq_nil).
  split; [|done]. split_and!; [by rewrite (cut_source _ _ Hcut)|exists (k' ++ k)%list; by rewrite Hk, Hk', app_assoc|].
  intros Hn. rewrite Hw; [by apply Hall, Hnil|]. by rewrite Hn, (Hnil Hn).
Qed.
Lemma cut_to_nothing m m' : cut_of m m' → Body m = "" → Body m' = "".
Proof. intros Hcut He. destruct (cut_body _ _ Hcut) as [k Hk]. rewrite He in Hk. apply bytes_inj. by destruct (bytes (Body m')). Qed.
Lemma body_cut input maxBody parts fetched m m' : cut_of m m' → (Warnings m' = Warnings m → Body m' = Body m) →
  body_read input maxBody parts fetched m → body_read input maxBody parts fetched m'.
Proof.
  intros Hcut Hw Hb. destruct Hb as [f m0 He|p data text m0 Hp Hl Hd Hs|p data html text tr m0 Hp Hh Ha Hl Hd Ht Hs Htr].
  - apply body_none. by eapply cut_to_nothing.
  - destruct (shown_cut _ _ _ _ Hcut Hw Hs) as [Hs' _]. by eapply body_plain.
  - destruct (shown_cut _ _ _ _ Hcut Hw Hs) as [Hs' Hnil]. eapply body_html; eauto.
Qed.
Lemma fit_traced input maxBody item fetched m :
  IA.UID item = GmUID input → zlen (listed (IA.Parts item)) <= MaxAttachments → unfitted input maxBody item fetched m →
  traced (W:=W) (of_mail (fitMessageResult m)) (λ t m', t = [] ∧ unfitted input maxBody item fetched m' ∧
    zlen (Attachments m') <= MaxAttachments ∧ size_message m' <= MaxResultBytes).
Proof.
  intros Hu Hn (Hs & Ha & Ho & Hb). eapply traced_weaken; [apply traced_of_mail|]. intros t m' [-> Hm'].
  pose proof (fitMessageResult_fits m) as Hf. rewrite Hm' in Hf. destruct Hf as (Hsize & Hcut & _ & Hw).
  assert (Attachments m' = listed (IA.Parts item)) as Ha' by (by rewrite (cut_attachments _ _ Hcut)).
  split_and!; [done| |by rewrite Ha'|done]. split_and!; [|done| |by eapply body_cut].
  - rewrite (cut_summary _ _ Hcut), Hs, Ha, Ha'. done.
  - destruct (cut_omitted _ _ Hcut) as [->|[_ He]]; [|done]. intros Hom. by eapply cut_to_nothing, Ho.
Qed.

(** The bodies put into a message that had none. *)
Lemma plain_body_read input maxBody item p data :
  first_plain (IA.Parts item) = Some p →
  unfitted input maxBody item [Ev (FetchBodyPart (GmUID input) (IA.Path p)) (Ret data)]
    (plain_body maxBody data (message_of input item (listed (IA.Parts item)))).
Proof.
  intros Hp. unfold plain_body, unfitted. destruct (IA.TooLarge data) eqn:Hl; [by split_and!; [..|by apply body_none]|].
  destruct (decodePlainBody _ _ _) as [[text []]|] eqn:Hd; [by split_and!; [..|by apply body_none]| |by split_and!; [..|by apply body_none]].
  split_and!; [done..|]. eapply body_plain; [done|done|done|]. split_and!; [done|exists []; by rewrite app_nil_r|done].
Qed.
Lemma html_body_read input maxBody item p data :
  first_plain (IA.Parts item) = None → first_html (IA.Parts item) = Some p → AllowHTMLFallback input = true →
  unfitted input maxBody item [Ev (FetchBodyPart (GmUID input) (IA.Path p)) (Ret data)]
    (html_body maxBody data (message_of input item (listed (IA.Parts item)))).
Proof.
  intros Hp Hh Ha. unfold html_body, unfitted. destruct (IA.TooLarge data) eqn:Hl; [by split_and!; [..|by apply body_none]|].
  destruct (decodeHTMLBody _ _) as [html|] eqn:Hd; [|by split_and!; [..|by apply body_none]].
  destruct (htmlToText html maxBody) as [[[text tr]|e]|] eqn:Ht; [|by split_and!; [..|by apply body_none]..].
  destruct tr; (split_and!; [done..|]); (eapply body_html; [done|done|done|done|done|exact Ht| |done]);
    (split_and!; [done|exists []; by rewrite app_nil_r|done]).
Qed.

Lemma get_op_traced input maxBody : traced (W:=W) (get_op input maxBody) (message_read input maxBody).
Proof.
  unfold get_op. eapply traced_bind; [apply traced_call|]. intros t1 sel ->.
  eapply traced_bind; [apply traced_fail_if|]. intros t2 [] [-> Hval%negb_false_iff%Z.eqb_eq].
  eapply traced_bind; [apply traced_call|]. intros t3 metadata ->.
  destruct metadata as [|item [|]]; [apply traced_fail| |apply traced_fail].
  eapply traced_bind; [apply traced_fail_if|]. intros t4 [] [-> Huid%negb_false_iff%Z.eqb_eq].
  eapply traced_bind; [apply traced_of_mail|]. intros t5 c [-> (Hsel & Hhtml & Hatt & Hn)%choose_all].
  cbn [selectedPart htmlPart attachments app] in Hsel, Hhtml, Hatt. specialize (Hn ltac:(vm_compute; discriminate)).
  rewrite Hatt in *.
  assert (∀ fetched m, unfitted input maxBody item fetched m → traced (W:=W) (of_mail (fitMessageResult m))
    (λ t m', message_read input maxBody
       (Ev (SelectBox (GmMailbox input) true) (Ret sel) :: Ev (FetchMetadata [GmUID input] true) (Ret [item]) :: fetched ++ t) m')) as Hfit.
  { intros fetched m Hm. eapply traced_weaken; [by apply (fit_traced input maxBody item fetched m Huid Hn)|].
    intros t m' (-> & (Hs & Ha & Ho & Hb) & Hna & Hsize). rewrite app_nil_r. exists sel, item, fetched. split_and!; try done;
      rewrite Hs; simpl; by destruct (decide _). }
  assert (∀ reason, unfitted input maxBody item [] (with_reason reason (message_of input item (listed (IA.Parts item))))) as Hnone
    by (intros reason; split_and!; [done..|by apply body_none]).
  rewrite Hsel, Hhtml. destruct (first_plain (IA.Parts item)) as [p|] eqn:Hp.
  - eapply traced_bind; [apply traced_call|]. intros t6 data ->. by apply (Hfit [_]), plain_body_read.
  - destruct (first_html (IA.Parts item)) as [p|] eqn:Hh; [|apply (Hfit [] _ (Hnone _))].
    destruct (AllowHTMLFallback input) eqn:Hallow; [|apply (Hfit [] _ (Hnone _))].
    eapply traced_bind; [apply traced_call|]. intros t6 data ->. by apply (Hfit [_]), html_body_read.
Qed.

(** (C31) A message that [GetMessage] returns was read in one session of this
    call, whatever the server answers: the mailbox asked for was selected and
    its UIDVALIDITY is the one asked for, and the server answered the UID asked
    for with exactly one message, of that UID.  The summary is that message's,
    its attachments are exactly the attachment parts, at most 100, and the
    answer fits the result limit.  A body is shown only where the bytes of the
    first plain part, or where there is none and the caller allowed it of the
    first HTML part, were fetched from that message and decode to it: it is
    that text or, with a warning, a first part of it; an omitted body is
    empty. *)
Theorem get_message_ok input e e' m :
  GetMessage input e = (e', Ret m) →
  ∃ t, log e' = (log e ++ t)%list ∧
    within (message_read input (if GmMaxBodyBytes input =? 0 then DefaultBodyBytes else GmMaxBodyBytes input)) t m.
Proof.
  set (maxBody := if _ : bool then _ else _). intros Hrun.
  assert (traced (W:=W) (GetMessage input) (within (message_read input maxBody))) as Hm.
  { unfold GetMessage. apply traced_any_bind.
    { destruct (validateIdentity _ _ _); [by apply traced_ret|apply traced_fail]. }
    intros _. apply traced_any_bind; [eapply traced_true, traced_fail_if|intros _]. apply traced_read, get_op_traced. }
  destruct (Hm e) as (t & Hl & HP). rewrite Hrun in Hl, HP. exists t. auto.
Qed.
End GetMessage.

(** A plain body may outgrow [max_body_bytes]: the limit is checked before
    invalid bytes are replaced, and each replacement takes three bytes. *)
Definition raw_reader : MimeReader := {| read_entity := λ l, Some (MkEntity (Some "text/plain") (drop 2 l) false) |}.
Lemma plain_body_outgrows :
  @decodePlainBody raw_reader (bytes "" ++ [lf; lf])%list [byte_of 255; byte_of 97; byte_of 255] 3
  = Some (str (encode_rune rune_error ++ [byte_of 97] ++ encode_rune rune_error), false).
Proof. reflexivity. Qed.

(** A mailbox with one message, UID 5, of one plain part. *)
Definition plain_part : IA.BodyPart := IA.MkBodyPart [1] "text/plain" "" "" "" 2 true false.
Definition plain_item : IA.Message :=
  IA.MkMessage 5 [] IA.no_envelope (GTime zero_time UTC) 10 1 [plain_part] IA.no_headers.
Definition one_message_net : MailNet unit := {|
  ask X q w := (w, match q in query X return X with
                   | Allow _ => true | Acquire _ => true | CtxErr => false
                   | Capabilities => IA.no_caps
                   | SupportsConditionalStore => false
                   end);
  exec X c w := (w, match c in cmd X return reply X with
                    | SelectBox _ _ => Ret (IA.MkSelected 7 10)
                    | FetchMetadata _ _ => Ret [plain_item]
                    | FetchBodyPart _ _ => Ret (IA.MkBodyData [lf] (bytes "hi") false)
                    | ImapDial | ImapLogin | ImapClose | Release _ => Ret tt
                    | _ => Panic
                    end) |}.
Definition plain_entities : HtmlEntities := {| unescape_html := λ l, l |}.
Definition short_sizes : MessageSize := {| size_message m := 1000 + len (Body m) |}.
Definition get_five : GetMessageInput := MkGetMessageInput "INBOX" 7 5 0 false.
Lemma get_message_ok_witness :
  match @GetMessage ascii_tables plain_entities raw_reader short_sizes unit one_message_net get_five (MkEnv tt [] false) with
  | (e, Ret m) => Body m = "hi" ∧ BodySource m = "plain_text" ∧
      within (@message_read ascii_tables plain_entities raw_reader short_sizes get_five DefaultBodyBytes) (log e) m
  | _ => False
  end.
Proof.
  destruct (@GetMessage ascii_tables plain_entities raw_reader short_sizes unit one_message_net get_five (MkEnv tt [] false))
    as [e r] eqn:Hrun.
  assert (r = (@GetMessage ascii_tables plain_entities raw_reader short_sizes unit one_message_net get_five (MkEnv tt [] false)).2)
    as Hr by (rewrite Hrun; reflexivity).
  destruct r as [m|err|]; [|vm_compute in Hr; discriminate Hr..].
  destruct (@get_message_ok ascii_tables plain_entities raw_reader short_sizes unit one_message_net get_five _ _ _ Hrun) as (t & Hl & Hw).
  simpl in Hl. subst t. vm_compute in Hr. injection Hr as ->. split; [reflexivity|]. split; [reflexivity|exact Hw].
Defined.
