(* ===== verification/MailReply.v ===== *)
(** Replying to a message (src/internal/mail/reply.go): the recipients, the
    subject and the reply headers taken from the source message.  The request
    built is then sent like any other. *)
From S2P Require Import Prelude GoStrings GoTime NetMail MailTypes MailValidation ImapAdapter MailClient MailSearch MailSend HtmlText MailRead.
Import MT.

Section Reply.
Context `{UnicodeTables, HtmlEntities, MimeReader, MessageSize} {W : Type} `{MailNet W}.

Definition reply_mode (input : ReplyInput) : string :=
  let mode := trim_space (RiMode input) in if decide (mode = "") then "sender" else mode.
Definition candidates (mode : string) (source : MailMessage) : list Address :=
  let first := or_else (ReplyTo source) (MsFrom (MmSummary source)) in
  if decide (mode = "reply_all") then (first ++ MsTo (MmSummary source) ++ MsCc (MmSummary source))%list else first.
Definition add_recipient (self : string) (recipients : list string) (candidate : Address) : result Error (list string) :=
  let address := trim_space (AdAddress candidate) in
  if bool_decide (address = "") || equal_fold_runes address self then Ok recipients
  else
    match validateAddrSpec address with
    | Err _ => Err (validationError "source reply recipient is not a plain addr-spec")
    | Ok normalized =>
        if bool_decide (to_lower normalized ∈ map to_lower recipients) then Ok recipients
        else Ok (recipients ++ [normalized])%list
    end.
Definition reply_recipients (self mode : string) (source : MailMessage) : result Error (list string) :=
  recipients ← fold_res (add_recipient self) (candidates mode source) [];
  reject zlen recipients =? 0 with validationError "source message has no valid reply recipient" ;;
  reject MaxRecipients <? zlen recipients with validationError "reply recipient count exceeds 50" ;;
  Ok recipients.
Definition reply_subject (subject : string) : string :=
  truncateUTF8 (if has_prefix (to_lower (trim_space subject)) "re:" then subject else "Re: " ++ subject) MaxSubjectBytes.
(** The request made of a source message. *)
Definition reply_to (self : string) (input : ReplyInput) (source : MailMessage) : result Error SendInput :=
  let id := MessageID (MmSummary source) in
  reject negb (validMessageID id) with validationError "source message has no valid Message-ID for a reply" ;;
  recipients ← reply_recipients self (reply_mode input) source;
  references ← replyReferences (References source) id;
  Ok (MkSendInput recipients [] [] (reply_subject (MsSubject (MmSummary source))) (RiBody input)
        (RiIdempotencyKey input) false id references).
(** [ReplyMessage], up to the call of [SendMessage] with its result. *)
Definition reply_request (c : MailConfig) (input : ReplyInput) : Net W SendInput :=
  let mode := reply_mode input in
  fail_if (negb (bool_decide (mode = "sender")) && negb (bool_decide (mode = "reply_all")))
    (Public (validationError "mode must be sender or reply_all"));;
  fail_if ((MaxSendBodyBytes <? len (RiBody input)) || negb (valid_utf8 (bytes (RiBody input))) || has_nul (RiBody input))
    (Public (validationError "body contains invalid or excessive data"));;
  of_result (validateSendIdempotencyKey (RiIdempotencyKey input));;
  source ← MailRead.GetMessage (MkGetMessageInput (RiMailbox input) (RiUIDValidity input) (RiUID input) 0 false);
  of_result (reply_to (cfg_Address c) input source).
End Reply.

(** * What a reply asks for *)

Section ReplyProofs.
Context `{UnicodeTables}.

Definition references_ok (l : list string) : Prop :=
  Forall (λ r, validMessageID r = true) l ∧ NoDup l ∧ zlen l <= maxReplyReferences.
Lemma add_reference_ok l r l' : references_ok l → add_reference l r = Ok l' →
  references_ok l' ∧ ∃ k, l' = (l ++ k)%list ∧ (trim_space r ≠ "" → trim_space r ∈ l').
Proof.
  intros (Hv & Hn & Hl). unfold add_reference. destruct (bool_decide (trim_space r = "")) eqn:He; simpl.
  { intros [= <-]. apply bool_decide_eq_true in He. split; [done|]. exists []. rewrite app_nil_r. naive_solver. }
  destruct (bool_decide (trim_space r ∈ l)) eqn:Hin; simpl.
  { intros [= <-]. apply bool_decide_eq_true in Hin. split; [done|]. exists []. by rewrite app_nil_r. }
  apply bool_decide_eq_false in Hin. destruct (validMessageID (trim_space r)) eqn:Hr; [|done]. simpl.
  destruct (Z.ltb_spec maxReplyReferences (zlen (l ++ [trim_space r]))); [done|]. intros [= <-].
  split; [|exists [trim_space r]; split; [done|intros _; apply elem_of_app; right; by apply list_elem_of_singleton]].
  split_and!; [|apply NoDup_app; split_and!; [done| |apply NoDup_singleton]|done].
  - apply Forall_app. by split; [|constructor].
  - by intros x Hx ->%list_elem_of_singleton.
Qed.
Lemma add_references_ok rs : ∀ l l', references_ok l → fold_res add_reference rs l = Ok l' →
  references_ok l' ∧ l ⊆ l' ∧ ∀ r, r ∈ rs → trim_space r ≠ "" → trim_space r ∈ l'.
Proof.
  induction rs as [|r rs IH]; intros l l' Hl; simpl.
  { intros [= <-]. split_and!; [done|done|]. by intros r ?%elem_of_nil. }
  destruct (add_reference l r) as [l1|] eqn:Hr; [|done]. intros Hf.
  destruct (add_reference_ok _ _ _ Hl Hr) as (Hl1 & k & -> & Hin). destruct (IH _ _ Hl1 Hf) as (Hl' & Hsub & Hrs).
  split_and!; [done|set_solver|]. intros r' [->|Hr']%elem_of_cons Hne; [by apply Hsub, Hin|by apply Hrs].
Qed.
Lemma check_references_pass refs : ∀ seen, Forall (λ r, validMessageID r = true) refs → NoDup refs →
  (∀ r, r ∈ refs → r ∉ seen) → ∃ seen', fold_res check_reference refs seen = Ok seen'.
Proof.
  induction refs as [|r refs IH]; intros seen Hv Hn Hs; simpl; [by eexists|].
  apply Forall_cons in Hv as [Hr Hv]. apply NoDup_cons in Hn as [Hnr Hn]. unfold check_reference. rewrite Hr. simpl.
  rewrite bool_decide_false by (apply Hs; left). apply IH; [done..|].
  intros r' Hr' [Hin| ->%list_elem_of_singleton]%elem_of_app; [by eapply Hs; [right|]|done].
Qed.
Lemma headers_pass id refs : validMessageID id = true → references_ok refs → validateReplyHeaders id refs = Ok tt.
Proof.
  intros Hid (Hv & Hn & Hl). unfold validateReplyHeaders.
  destruct (check_references_pass refs [] Hv Hn) as [seen ->]; [intros ??; apply not_elem_of_nil|]. simpl.
  destruct (Z.ltb_spec maxReplyReferences (zlen refs)); [lia|]. by rewrite Hid, andb_false_r.
Qed.

(** A recipient of a reply is an address of the source other than our own. *)
Definition from_source (self mode : string) (source : MailMessage) (a : string) : Prop :=
  ∃ c, c ∈ candidates mode source ∧ validateAddrSpec (trim_space (AdAddress c)) = Ok a ∧
       equal_fold_runes (trim_space (AdAddress c)) self = false.
Lemma add_recipients_ok self mode source recipients : fold_res (add_recipient self) (candidates mode source) [] = Ok recipients →
  Forall (from_source self mode source) recipients ∧ NoDup (map to_lower recipients).
Proof.
  apply (fold_res_inv (λ l, Forall (from_source self mode source) l ∧ NoDup (map to_lower l))); [by split; constructor|].
  intros l c l' Hc [Hf Hn]. unfold add_recipient. destruct (_ || _) eqn:Hskip; [by intros [= <-]|].
  apply orb_false_iff in Hskip as [_ Hself]. destruct (validateAddrSpec _) as [a|] eqn:Ha; [|done].
  case_bool_decide as Hdup; intros [= <-]; [done|]. split.
  - apply Forall_app. split; [done|]. constructor; [|done]. exists c. done.
  - rewrite map_app. apply NoDup_app. split_and!; [done| |apply NoDup_singleton].
    by intros x Hx ->%list_elem_of_singleton.
Qed.

(** A reply, when one can be made: goes to between one and fifty addresses
    of the source message, none of them our own, no two equal up to case, and
    to nobody else (no Cc, no Bcc); has a subject within the limit; answers the
    source's Message-ID and names it among at most twenty references; and its
    reply headers pass the validation of the send it becomes. *)
Theorem reply_ok self input source req : reply_to self input source = Ok req →
  Forall (from_source self (reply_mode input) source) (SendTo req) ∧ NoDup (map to_lower (SendTo req)) ∧
  1 <= zlen (SendTo req) <= MaxRecipients ∧ SendCc req = [] ∧ SendBcc req = [] ∧ ArchiveSent req = false ∧
  len (SendSubject req) <= MaxSubjectBytes ∧
  SendInReplyTo req = MessageID (MmSummary source) ∧
  (trim_space (SendInReplyTo req) ≠ "" → trim_space (SendInReplyTo req) ∈ SendReferences req) ∧
  validateReplyHeaders (SendInReplyTo req) (SendReferences req) = Ok tt.
Proof.
  unfold reply_to. destruct (validMessageID _) eqn:Hid; [|done]. simpl.
  intros [recipients [Hrec [refs [Hrefs [= <-]]]%bind_ok]]%bind_ok. simpl.
  unfold reply_recipients in Hrec. apply bind_ok in Hrec as [l [Hl Hrec]].
  destruct (Z.eqb_spec (zlen l) 0); [done|]. destruct (Z.ltb_spec MaxRecipients (zlen l)); [done|]. injection Hrec as <-.
  apply add_recipients_ok in Hl as [Hf Hn].
  apply add_references_ok in Hrefs as (Hok & _ & Hin); [|split_and!; [constructor..|by vm_compute]].
  pose proof (zlen_nonneg l). split_and!; try done; try lia.
  - unfold reply_subject. match goal with |- len (truncateUTF8 ?t _) <= _ =>
      destruct (truncateUTF8_spec t MaxSubjectBytes) as [Hlen _]; [done|exact Hlen] end.
  - intros Hne. apply Hin; [apply elem_of_app; right; by apply list_elem_of_singleton|done].
  - by apply headers_pass.
Qed.
End ReplyProofs.
Definition demo_source : MailMessage :=
  MkMailMessage (MkMessageSummary "INBOX" 1 2 [] [MkAddress "" "a@x.org"] [MkAddress "" "Me@x.org"; MkAddress "" "A@x.org"; MkAddress "" "b@x.org"] []
                   "Hello" (GTime 0 UTC) None 10 "<id@x>" 0) [] [] ["<old@x>"] "" "" false "" [] [].
Definition demo_reply : ReplyInput := MkReplyInput "INBOX" 1 2 "reply_all" "" "Hi" "".
Definition demo_request : SendInput :=
  MkSendInput ["a@x.org"; "b@x.org"] [] [] "Re: Hello" "Hi" "" false "<id@x>" ["<old@x>"; "<id@x>"].
Lemma reply_ok_witness :
  Forall (@from_source ascii_tables "me@x.org" "reply_all" demo_source) ["a@x.org"; "b@x.org"] ∧
  validateReplyHeaders "<id@x>" ["<old@x>"; "<id@x>"] = Ok tt.
Proof.
  destruct (@reply_ok ascii_tables "me@x.org" demo_reply demo_source demo_request) as (Hf & _ & _ & _ & _ & _ & _ & _ & _ & Hh);
    [reflexivity|]. split; [exact Hf|exact Hh].
Defined.
