(* ===== verification/ContactsValidation.v ===== *)
(** Validation of Contacts inputs and entity tags
    (src/internal/contacts/validation.go). *)
From S2P Require Import Prelude GoStrings GoTime TimePolicy NetMail NetUrl MailValidation ContactsTypes.
Import CT.

Definition maxSearchResults : Z := 100.
Definition defaultSearchResults : Z := 50.
Definition maxQueryBytes : Z := 256.
Definition maxEmailBytes : Z := 320.
Definition maxPhoneBytes : Z := 64.
Definition maxDisplayNameBytes : Z := 500.
Definition maxTextBytes : Z := 500.
Definition maxNotesBytes : Z := 4000.
Definition maxURLBytes : Z := 2048.
Definition maxTypeBytes : Z := 64.
Definition maxUIDBytes : Z := 255.
Definition maxEmails : Z := 10.
Definition maxPhones : Z := 10.
Definition maxURLs : Z := 5.
Definition maxAddresses : Z := 5.
Definition maxETagBytes : Z := 512.

(** Go ranges over a map in an unspecified order: the order of each loop is a
    permutation the caller does not choose. *)
Class MapOrder := {
  map_order {A} : list (string * A) → list (string * A);
  map_order_perm {A} (l : list (string * A)) : map_order l ≡ₚ l;
}.
#[refine] Definition declared_order : MapOrder := {| map_order := λ _ l, l |}.
Proof. done. Defined.

(** * Texts *)

Definition disallowed_rune (r : Z) : bool :=
  (r =? 0) || ((r <? 32) && negb (r =? 10) && negb (r =? 9)) || (r =? 127).
Definition validateText (name value : string) (max : Z) (required : bool) : result Error unit :=
  reject negb (valid_utf8 (bytes value)) with validationError (name ++ " must be valid UTF-8") ;;
  reject required && bool_decide (trim_space value = "") with validationError (name ++ " cannot be empty") ;;
  reject max <? len value with validationError (name ++ " exceeds its byte limit") ;;
  reject existsb (λ rw, disallowed_rune rw.1) (runes (bytes value))
    with validationError (name ++ " contains a disallowed control character") ;;
  Ok tt.
Definition cr_lf : string := str ["013"; "010"]%char.
Definition validateSingleLine (name value : string) (max : Z) (required : bool) : result Error unit :=
  validateText name value max required;;
  reject contains_any value cr_lf with validationError (name ++ " must be a single line") ;;
  Ok tt.
Definition validateUID (uid : string) : result Error unit := validateSingleLine "uid" uid maxUIDBytes true.

Definition validTokenRune (r : Z) : bool :=
  ((97 <=? r) && (r <=? 122)) || ((65 <=? r) && (r <=? 90)) || ((48 <=? r) && (r <=? 57)) || (r =? 45) || (r =? 95).
Definition validTypeToken (value : string) : bool := forallb (λ rw, validTokenRune rw.1) (runes (bytes value)).
Definition bad_book_id : Error :=
  validationError "address_book must be an identifier returned by list_address_books".
Definition validateAddressBookID (id : string) : result Error unit :=
  reject negb (len id =? len "book-" + 22) || negb (has_prefix id "book-") with bad_book_id ;;
  reject negb (forallb (λ rw, validTokenRune rw.1) (runes (drop 5 (bytes id)))) with bad_book_id ;;
  Ok tt.

Definition normalizePhone (value : string) : string :=
  str (concat (map (λ rw, if (48 <=? rw.1) && (rw.1 <=? 57) then encode_rune rw.1 else []) (runes (bytes value)))).

(** The options as the loop leaves them: a zero limit becomes the default. *)
Definition with_limit (limit : Z) (o : ContactSearch) : ContactSearch :=
  MkContactSearch (OptAddressBook o) (OptQuery o) (OptEmail o) (OptPhone o) (IncludeGroups o) limit.
Definition validateSearchOptions (opts : ContactSearch) : result Error ContactSearch :=
  (if bool_decide (OptAddressBook opts = "") then Ok tt else validateAddressBookID (OptAddressBook opts));;
  validateText "query" (OptQuery opts) maxQueryBytes false;;
  validateSingleLine "email" (OptEmail opts) maxEmailBytes false;;
  validateSingleLine "phone" (OptPhone opts) maxPhoneBytes false;;
  reject negb (bool_decide (OptPhone opts = "")) && bool_decide (normalizePhone (OptPhone opts) = "")
    with validationError "phone must contain at least one digit" ;;
  let opts := if OptLimit opts =? 0 then with_limit defaultSearchResults opts else opts in
  reject (OptLimit opts <? 1) || (maxSearchResults <? OptLimit opts)
    with validationError "limit must be between 1 and 100" ;;
  Ok opts.

(** * Contact fields *)

Definition each {A} (f : A → result Error unit) (l : list A) : result Error unit := fold_res (λ _ a, f a) l tt.

Definition name_parts (n : StructuredName) : list (string * string) :=
  [("family_name", FamilyName n); ("given_name", GivenName n); ("additional_name", AdditionalName n);
   ("honorific_prefix", HonorificPrefix n); ("honorific_suffix", HonorificSuffix n)].
Definition validateName (name : StructuredName) : result Error unit :=
  each (λ part,
    validateSingleLine part.1 part.2 maxTextBytes false;;
    reject contains part.2 ";" with validationError (part.1 ++ " cannot contain a semicolon") ;;
    Ok tt) (name_parts name).
Definition nameEmpty (name : StructuredName) : bool :=
  forallb (λ part, bool_decide (trim_space part.2 = "")) (name_parts name).

(** [time.Parse("2006-01-02", value)] followed by [Format]: the same text. *)
Definition is_date (value : string) : bool :=
  match parse_date (bytes value) with
  | Some (c, []) => bool_decide (str (format_date c) = value)
  | _ => false
  end.
Definition validateBirthday (value : string) : result Error unit :=
  if decide (value = "") then Ok tt
  else
    reject negb (len value =? len "2006-01-02") with validationError "birthday must use YYYY-MM-DD" ;;
    reject negb (is_date value) with validationError "birthday must use YYYY-MM-DD" ;;
    Ok tt.

Definition validateTypedValues (name : string) (values : list TypedValue) (maxCount maxValue : Z)
    (valueValidator : string → result Error unit) : result Error unit :=
  reject maxCount <? zlen values with validationError (name ++ " exceeds its item limit") ;;
  each (λ v,
    validateSingleLine (name ++ " type") (TvType v) maxTypeBytes false;;
    reject negb (bool_decide (TvType v = "")) && negb (validTypeToken (TvType v))
      with validationError (name ++ " type contains an invalid character") ;;
    validateSingleLine (name ++ " value") (TvValue v) maxValue true;;
    valueValidator (TvValue v)) values.

(** [mail.ParseAddress(value)] gives back [value] as its address. *)
Definition validateEmail (value : string) : result Error unit :=
  reject negb (parsed_plainly value) with validationError "email value must be a plain address" ;;
  Ok tt.
Definition validatePhone (value : string) : result Error unit :=
  reject bool_decide (normalizePhone value = "")
    with validationError "phone value must contain at least one digit" ;;
  Ok tt.
Definition absolute_uri (value : string) : bool :=
  match ParseRequestURI value with Some u => negb (bool_decide (Scheme u = "")) | None => false end.
Definition validateURLValue (value : string) : result Error unit :=
  reject negb (absolute_uri value) with validationError "url value must be an absolute URI" ;;
  Ok tt.

Definition address_parts (a : PostalAddress) : list (string * string) :=
  [("address type", AdrType a); ("post office box", PostOfficeBox a); ("extended address", ExtendedAddress a);
   ("street address", StreetAddress a); ("locality", Locality a); ("region", Region a);
   ("postal code", PostalCode a); ("country", Country a)].
Definition validate_address_part (part : string * string) : result Error unit :=
  let is_type := bool_decide (part.1 = "address type") in
  validateSingleLine part.1 part.2 (if is_type then maxTypeBytes else maxTextBytes) false;;
  if is_type then
    reject negb (bool_decide (part.2 = "")) && negb (validTypeToken part.2)
      with validationError "address type contains an invalid character" ;;
    Ok tt
  else
    reject contains part.2 ";" with validationError (part.1 ++ " cannot contain a semicolon") ;;
    Ok tt.
Definition validateAddresses (values : list PostalAddress) : result Error unit :=
  reject maxAddresses <? zlen values with validationError "addresses exceeds its item limit" ;;
  each (λ a, each validate_address_part (address_parts a)) values.

(** * Entity tags *)

Definition quote_byte : ascii := "034"%char.
(** [parseStrongETag]: [None] is an invalid tag. *)
Definition etag_byte (c : ascii) : bool :=
  negb ((byte_val c <? 33) || bool_decide (c = quote_byte) || (byte_val c =? 127)).
Definition parseStrongETag (value : string) : option string :=
  if maxETagBytes <? len value then None
  else
    let value := trim value (str [" "; "009"]%char) in
    let l := bytes value in
    if (len value <? 2) || negb (has_prefix_b [quote_byte] l) || negb (has_suffix_b [quote_byte] l) then None
    else if forallb etag_byte (take (length l - 2) (drop 1 l)) then Some value else None.
Definition normalizeCallerETag (etag : string) : result Error string :=
  if decide (etag = "") then Ok ""
  else match parseStrongETag etag with
       | Some tag => Ok tag
       | None => Err (validationError "etag must be a specific strong ETag")
       end.
Definition validateServerETag (etag : string) : result Error string :=
  match parseStrongETag etag with
  | Some tag => Ok tag
  | None => Err (newError CodeProtocolError 0 "the contact does not have a usable strong ETag")
  end.
(** One field value, or none; [None] is an invalid header. *)
Definition one_etag (values : list string) : option string :=
  match values with
  | [] => Some ""
  | [v] => parseStrongETag v
  | _ => None
  end.

(** * Whole inputs *)
Section Inputs.
Context `{MapOrder}.

Definition check_emails (l : list TypedValue) : result Error unit :=
  validateTypedValues "emails" l maxEmails maxEmailBytes validateEmail.
Definition check_phones (l : list TypedValue) : result Error unit :=
  validateTypedValues "phones" l maxPhones maxPhoneBytes validatePhone.
Definition check_urls (l : list TypedValue) : result Error unit :=
  validateTypedValues "urls" l maxURLs maxURLBytes validateURLValue.

(** [validateContactFields] on the fields of a create request. *)
Definition validateContactFields (i : CreateContactInput) : result Error unit :=
  validateSingleLine "display_name" (CcDisplayName i) maxDisplayNameBytes false;;
  validateName (CcName i);;
  each (λ f, validateSingleLine f.1 f.2 maxTextBytes false)
    (map_order [("organization", CcOrganization i); ("title", CcTitle i); ("nickname", CcNickname i)]);;
  validateBirthday (CcBirthday i);;
  validateText "notes" (CcNotes i) maxNotesBytes false;;
  check_emails (CcEmails i);;
  check_phones (CcPhones i);;
  validateAddresses (CcAddresses i);;
  check_urls (CcURLs i).

Definition validateCreate (i : CreateContactInput) : result Error unit :=
  validateAddressBookID (CcAddressBook i);;
  validateContactFields i;;
  reject bool_decide (trim_space (CcDisplayName i) = "") && nameEmpty (CcName i)
    with validationError "display_name or one structured name component is required" ;;
  if bool_decide (CcClientUID i = "") then Ok tt
  else match validateUID (CcClientUID i) with
       | Ok _ => Ok tt
       | Err _ => Err (validationError "client_uid is invalid")
       end.

(** A patched field is checked, an absent one is not. *)
Definition when_patched {A} (o : option A) (f : A → result Error unit) : result Error unit :=
  match o with Some a => f a | None => Ok tt end.
Definition patch_empty (p : ContactPatch) : bool :=
  bool_decide (PDisplayName p = None) && bool_decide (PName p = None) && bool_decide (POrganization p = None)
  && bool_decide (PTitle p = None) && bool_decide (PNickname p = None) && bool_decide (PBirthday p = None)
  && bool_decide (PNotes p = None) && bool_decide (PEmails p = None) && bool_decide (PPhones p = None)
  && bool_decide (PAddresses p = None) && bool_decide (PURLs p = None).
Definition validateUpdate (i : UpdateContactInput) : result Error unit :=
  validateAddressBookID (UcAddressBook i);;
  validateUID (UcUID i);;
  normalizeCallerETag (UcETag i);;
  let p := Patch i in
  reject patch_empty p with validationError "at least one contact field must be patched" ;;
  when_patched (PDisplayName p) (λ v, validateSingleLine "display_name" v maxDisplayNameBytes false);;
  when_patched (PName p) validateName;;
  each (λ f, when_patched f.2 (λ v, validateSingleLine f.1 v maxTextBytes false))
    (map_order [("organization", POrganization p); ("title", PTitle p); ("nickname", PNickname p)]);;
  when_patched (PBirthday p) validateBirthday;;
  when_patched (PNotes p) (λ v, validateText "notes" v maxNotesBytes false);;
  when_patched (PEmails p) check_emails;;
  when_patched (PPhones p) check_phones;;
  when_patched (PAddresses p) validateAddresses;;
  when_patched (PURLs p) check_urls.

Definition validateDelete (i : DeleteContactInput) : result Error unit :=
  validateAddressBookID (DcAddressBook i);;
  validateUID (DcUID i);;
  normalizeCallerETag (DcETag i);;
  Ok tt.
End Inputs.

(** * Accepted texts *)

(** A text without control bytes but TAB, and [lf] when allowed. *)
Definition clean_text (lf : bool) (s : string) : Prop :=
  ∀ c, c ∈ bytes s → (byte_val c = 9 ∨ (byte_val c = 10 ∧ lf = true) ∨ 32 <= byte_val c) ∧ byte_val c ≠ 127.

Lemma validateText_ok name v max req : validateText name v max req = Ok tt →
  clean_text true v ∧ len v <= max ∧ (req = true → trim_space v ≠ "").
Proof.
  unfold validateText. intros (_ & H)%reject_ok. apply reject_ok in H as (Hr & H).
  apply reject_ok in H as (Hl & H). apply reject_ok in H as (Hd & _). bool_to_prop. split_and!; [|done|].
  - intros c Hc. destruct (decide (128 <= byte_val c)) as [?|Hlow]; [lia|].
    pose proof (runes_low _ _ Hc ltac:(lia)) as Hin. apply list_elem_of_fmap in Hin as (rw & Heq & Hin).
    apply existsb_false in Hd. rewrite Forall_forall in Hd. specialize (Hd rw Hin).
    unfold disallowed_rune in Hd. rewrite <-Heq in Hd. bool_to_prop. pose proof (byte_val_range c).
    destruct (byte_val c <? 32) eqn:?; [|bool_to_prop; lia].
    destruct (byte_val c =? 10) eqn:?, (byte_val c =? 9) eqn:?; bool_to_prop; simpl in *; try done; lia.
  - intros ->. simpl in Hr. by bool_to_prop.
Qed.

Lemma validateSingleLine_ok name v max req : validateSingleLine name v max req = Ok tt →
  clean_text false v ∧ len v <= max ∧ (req = true → trim_space v ≠ "").
Proof.
  unfold validateSingleLine. intros ([] & (Hc & Hl & Hr)%validateText_ok & H)%bind_ok.
  apply reject_ok in H as (H & _). split_and!; [|done..]. intros c Hin.
  destruct (Hc c Hin) as [[?|[[Heq _]|?]] ?]; auto.
  destruct (proj1 (contains_any_false _ _) H c Hin). unfold cr_lf. rewrite bytes_str.
  assert (c = "010"%char) as -> by (apply byte_val_inj; by rewrite Heq). set_solver.
Qed.

Lemma fold_res_unit {A} (f : A → result Error unit) l s :
  fold_res (λ _ a, f a) l s = Ok tt → Forall (λ a, f a = Ok tt) l.
Proof.
  revert s; induction l as [|a l IH]; intros s; simpl; [done|].
  destruct (f a) as [[]|] eqn:E; [|done]. intros H%IH. by constructor.
Qed.
Lemma each_ok {A} (f : A → result Error unit) l : each f l = Ok tt → Forall (λ a, f a = Ok tt) l.
Proof. apply fold_res_unit. Qed.

Lemma validateUID_ok uid : validateUID uid = Ok tt → clean_text false uid ∧ len uid <= maxUIDBytes ∧ trim_space uid ≠ "".
Proof. intros (? & ? & H)%validateSingleLine_ok. eauto. Qed.

(** * What a create request may hold *)

(** The texts of a request that end on one line of the card. *)
Definition typed_texts (l : list TypedValue) : list string := concat (map (λ v, [TvType v; TvValue v]) l).
Definition component_texts (i : CreateContactInput) : list string :=
  (map snd (name_parts (CcName i))
   ++ concat (map (λ a, map snd (drop 1 (address_parts a))) (CcAddresses i)))%list.
Definition line_texts (i : CreateContactInput) : list string :=
  (CcDisplayName i :: CcOrganization i :: CcTitle i :: CcNickname i
   :: component_texts i ++ map AdrType (CcAddresses i)
   ++ typed_texts (CcEmails i) ++ typed_texts (CcPhones i) ++ typed_texts (CcURLs i))%list.
Fixpoint total_len (l : list string) : Z := match l with [] => 0 | s :: l => len s + total_len l end.

Lemma total_len_app l1 l2 : total_len (l1 ++ l2) = total_len l1 + total_len l2.
Proof. induction l1 as [|s l1 IH]; simpl; [done|]. lia. Qed.
Lemma total_len_le l k : Forall (λ s, len s <= k) l → total_len l <= zlen l * k.
Proof.
  induction 1 as [|s l Hs _ IH]; simpl; [unfold zlen; simpl; lia|]. rewrite zlen_cons. lia.
Qed.
Lemma total_len_concat {A} (f : A → list string) l k :
  Forall (λ a, total_len (f a) <= k) l → total_len (concat (map f l)) <= zlen l * k.
Proof.
  induction 1 as [|a l Ha _ IH]; simpl; [unfold zlen; simpl; lia|]. rewrite total_len_app, zlen_cons. lia.
Qed.

Lemma typed_ok name l mc mv f : 0 <= mv → validateTypedValues name l mc mv f = Ok tt →
  Forall (clean_text false) (typed_texts l) ∧ total_len (typed_texts l) <= mc * (64 + mv).
Proof.
  intros Hmv. unfold validateTypedValues. intros (Hn & H%each_ok)%reject_ok. bool_to_prop.
  assert (Hv : Forall (λ v, (clean_text false (TvType v) ∧ len (TvType v) <= maxTypeBytes) ∧
                            clean_text false (TvValue v) ∧ len (TvValue v) <= mv) l).
  { eapply Forall_impl; [exact H|]. intros v Hv. simpl in Hv.
    apply bind_ok in Hv as ([] & (? & ? & _)%validateSingleLine_ok & Hv). apply reject_ok in Hv as (_ & Hv).
    apply bind_ok in Hv as ([] & (? & ? & _)%validateSingleLine_ok & _). done. }
  unfold typed_texts. split.
  - apply Forall_concat, Forall_map. eapply Forall_impl; [exact Hv|]. intros v [[? ?] [? ?]]. simpl.
    repeat (apply Forall_cons; split; [done|]). by apply Forall_nil.
  - etrans; [apply (total_len_concat _ _ (64 + mv))|].
    + eapply Forall_impl; [exact Hv|]. intros v [[? ?] [? ?]]. unfold maxTypeBytes in *. simpl. lia.
    + apply Z.mul_le_mono_nonneg_r; lia.
Qed.

Lemma no_semicolon s : contains s ";" = false → ";"%char ∉ bytes s.
Proof. apply (contains_byte_false s ";"%char). Qed.

Lemma name_ok n : validateName n = Ok tt →
  Forall (λ s, clean_text false s ∧ len s <= maxTextBytes ∧ ";"%char ∉ bytes s) (map snd (name_parts n)).
Proof.
  unfold validateName. intros H%each_ok. apply Forall_map. eapply Forall_impl; [exact H|]. intros p Hp. simpl in Hp.
  apply bind_ok in Hp as ([] & (? & ? & _)%validateSingleLine_ok & Hp). apply reject_ok in Hp as (?%no_semicolon & _). done.
Qed.

Lemma address_ok a : each validate_address_part (address_parts a) = Ok tt →
  (clean_text false (AdrType a) ∧ len (AdrType a) <= maxTypeBytes) ∧
  Forall (λ s, clean_text false s ∧ len s <= maxTextBytes ∧ ";"%char ∉ bytes s) (map snd (drop 1 (address_parts a))).
Proof.
  intros H%each_ok. unfold address_parts in *. apply Forall_cons in H as [Ht H]. split.
  - unfold validate_address_part in Ht. simpl in Ht.
    apply bind_ok in Ht as ([] & (? & ? & _)%validateSingleLine_ok & _). done.
  - apply Forall_map. cbn [drop]. rewrite !Forall_cons in H.
    assert (Hp : ∀ n v, n ≠ "address type" → validate_address_part (n, v) = Ok tt →
      clean_text false v ∧ len v <= maxTextBytes ∧ ";"%char ∉ bytes v).
    { intros n v Hn Hp. unfold validate_address_part in Hp. rewrite bool_decide_false in Hp by done. cbn [fst snd] in Hp.
      apply bind_ok in Hp as ([] & (? & ? & _)%validateSingleLine_ok & Hp).
      apply reject_ok in Hp as (?%no_semicolon & _). done. }
    destruct H as (? & ? & ? & ? & ? & ? & ? & _).
    repeat (apply Forall_cons; split; [by eapply Hp; [|done]|]). by apply Forall_nil.
Qed.

Lemma addresses_ok l : validateAddresses l = Ok tt →
  Forall (clean_text false) (map AdrType l) ∧
  Forall (λ s, clean_text false s ∧ ";"%char ∉ bytes s) (concat (map (λ a, map snd (drop 1 (address_parts a))) l)) ∧
  total_len (map AdrType l) + total_len (concat (map (λ a, map snd (drop 1 (address_parts a))) l)) <= 17820.
Proof.
  unfold validateAddresses. intros (Hn & H%each_ok)%reject_ok. unfold maxAddresses in Hn. bool_to_prop.
  assert (Ha : Forall (λ a, (clean_text false (AdrType a) ∧ len (AdrType a) <= maxTypeBytes) ∧
    Forall (λ s, clean_text false s ∧ len s <= maxTextBytes ∧ ";"%char ∉ bytes s) (map snd (drop 1 (address_parts a)))) l).
  { eapply Forall_impl; [exact H|]. intros a. apply address_ok. }
  split_and!.
  - apply Forall_map. eapply Forall_impl; [exact Ha|]. by intros a [[? ?] ?].
  - apply Forall_concat, Forall_map. eapply Forall_impl; [exact Ha|]. intros a [_ Hp].
    eapply Forall_impl; [exact Hp|]. by intros s (? & ? & ?).
  - assert (total_len (map AdrType l) <= zlen l * 64).
    { etrans; [apply (total_len_le _ 64)|by unfold zlen; rewrite length_map].
      apply Forall_map. eapply Forall_impl; [exact Ha|]. by intros a [[? ?] ?]. }
    assert (total_len (concat (map (λ a, map snd (drop 1 (address_parts a))) l)) <= zlen l * 3500).
    { apply total_len_concat. eapply Forall_impl; [exact Ha|]. intros a [_ Hp].
      etrans; [apply (total_len_le _ 500)|done]. eapply Forall_impl; [exact Hp|]. by intros s (? & ? & ?). }
    pose proof (zlen_nonneg l). lia.
Qed.

(** A loop over a map accepts whatever its order. *)
Lemma each_iff {A} (f : A → result Error unit) l : each f l = Ok tt ↔ Forall (λ a, f a = Ok tt) l.
Proof.
  split; [apply each_ok|]. unfold each. induction 1 as [|a l Ha _ IH]; simpl; [done|]. by rewrite Ha.
Qed.
Lemma each_map_order `{MapOrder} {A} (f : string * A → result Error unit) l :
  each f (map_order l) = Ok tt ↔ each f l = Ok tt.
Proof. rewrite !each_iff. by rewrite (map_order_perm l). Qed.

Lemma birthday_ok v : validateBirthday v = Ok tt → v = "" ∨ (is_date v = true ∧ len v = 10).
Proof.
  unfold validateBirthday. case_decide; [by left|].
  intros (Hl & (Hd & _)%reject_ok)%reject_ok. right. bool_to_prop. split; [done|].
  by rewrite Hl.
Qed.

Lemma fields_ok `{MapOrder} i : validateContactFields i = Ok tt →
  Forall (clean_text false) (line_texts i) ∧ clean_text true (CcNotes i) ∧
  Forall (λ s, ";"%char ∉ bytes s) (component_texts i) ∧
  (CcBirthday i = "" ∨ is_date (CcBirthday i) = true) ∧
  total_len (line_texts i) + len (CcBirthday i) + len (CcNotes i) <= 42010.
Proof.
  unfold validateContactFields. intros H1.
  apply bind_ok in H1 as ([] & (Hd & Hdl & _)%validateSingleLine_ok & H1).
  apply bind_ok in H1 as ([] & Hn%name_ok & H1).
  apply bind_ok in H1 as ([] & Ho & H1). apply (proj1 (each_map_order _ _)), each_ok in Ho.
  apply bind_ok in H1 as ([] & Hb%birthday_ok & H1).
  apply bind_ok in H1 as ([] & (Hno & Hnol & _)%validateText_ok & H1).
  apply bind_ok in H1 as ([] & (He & Hel)%typed_ok & H1); [|done].
  apply bind_ok in H1 as ([] & (Hp & Hpl)%typed_ok & H1); [|done].
  apply bind_ok in H1 as ([] & (Ha & Has & Hal)%addresses_ok & (Hu & Hul)%typed_ok); [|done].
  rewrite !Forall_cons in Ho. cbn [fst snd] in Ho.
  destruct Ho as ((Ho1 & Hl1 & _)%validateSingleLine_ok & (Ho2 & Hl2 & _)%validateSingleLine_ok & (Ho3 & Hl3 & _)%validateSingleLine_ok & _).
  assert (Hnl : total_len (map snd (name_parts (CcName i))) <= 2500).
  { etrans; [apply (total_len_le _ 500)|done]. eapply Forall_impl; [exact Hn|]. by intros s (? & ? & ?). }
  split_and!.
  - unfold line_texts, component_texts.
    repeat (apply Forall_cons; split; [done|]). rewrite !Forall_app. split_and!; try done.
    + eapply Forall_impl; [exact Hn|]. by intros s (? & ? & ?).
    + eapply Forall_impl; [exact Has|]. by intros s (? & ?).
  - done.
  - unfold component_texts. rewrite Forall_app. split.
    + eapply Forall_impl; [exact Hn|]. by intros s (? & ? & ?).
    + eapply Forall_impl; [exact Has|]. by intros s (? & ?).
  - destruct Hb as [?|[? _]]; auto.
  - assert (len (CcBirthday i) <= 10) by (destruct Hb as [->|[_ ->]]; [done|lia]).
    unfold line_texts, component_texts. cbn [total_len]. rewrite !total_len_app.
    unfold maxDisplayNameBytes, maxTextBytes, maxNotesBytes, maxEmails, maxEmailBytes, maxPhones, maxPhoneBytes, maxURLs, maxURLBytes in *.
    lia.
Qed.

Definition name_or_display (i : CreateContactInput) : Prop :=
  trim_space (CcDisplayName i) ≠ "" ∨ ∃ part, part ∈ name_parts (CcName i) ∧ trim_space part.2 ≠ "".

Lemma nameEmpty_false n : nameEmpty n = false → ∃ part, part ∈ name_parts n ∧ trim_space part.2 ≠ "".
Proof.
  unfold nameEmpty. intros H. destruct (decide (Exists (λ part, trim_space part.2 ≠ "") (name_parts n))) as [He|He].
  - by apply Exists_exists in He.
  - exfalso. apply not_true_iff_false in H. apply H, forallb_Forall.
    apply not_Exists_Forall in He; [|intros ?; apply _]. eapply Forall_impl; [exact He|].
    intros part Hp. simpl in Hp. apply bool_decide_eq_true. by destruct (decide (trim_space part.2 = "")).
Qed.

(** A create request that validation accepts can be written as one card:
    every text that ends on one line is free of control bytes (so no line break
    can add a property), the parts of a name or an address hold no [;], the
    birthday is a calendar date, the contact has a name, and all its texts
    together stay within 42010 bytes, whatever the order in which Go ranges
    over the map of single-line fields. *)
Theorem accepted_contact `{MapOrder} i : validateCreate i = Ok tt →
  Forall (clean_text false) (line_texts i) ∧ clean_text true (CcNotes i) ∧
  Forall (λ s, ";"%char ∉ bytes s) (component_texts i) ∧
  (CcBirthday i = "" ∨ is_date (CcBirthday i) = true) ∧
  total_len (line_texts i) + len (CcBirthday i) + len (CcNotes i) <= 42010 ∧
  name_or_display i ∧
  (CcClientUID i = "" ∨ clean_text false (CcClientUID i) ∧ len (CcClientUID i) <= maxUIDBytes).
Proof.
  unfold validateCreate. intros Hv.
  apply bind_ok in Hv as ([] & _ & Hv). apply bind_ok in Hv as ([] & (? & ? & ? & ? & ?)%fields_ok & Hv).
  apply reject_ok in Hv as (Hname & Hv). split_and!; try done.
  - apply andb_false_iff in Hname as [Hname|Hname]; [left; by bool_to_prop|right; by apply nameEmpty_false].
  - case_bool_decide; [by left|right]. destruct (validateUID (CcClientUID i)) as [[]|] eqn:E; [|done].
    apply validateUID_ok in E. naive_solver.
Qed.

(** The update and delete requests name their contact the same way. *)
Lemma accepted_delete i : validateDelete i = Ok tt →
  clean_text false (DcUID i) ∧ len (DcUID i) <= maxUIDBytes ∧ trim_space (DcUID i) ≠ "" ∧
  (DcETag i = "" ∨ is_Some (parseStrongETag (DcETag i))).
Proof.
  unfold validateDelete. intros Hv. apply bind_ok in Hv as ([] & _ & Hv).
  apply bind_ok in Hv as ([] & (? & ? & ?)%validateUID_ok & Hv). apply bind_ok in Hv as (tag & Ht & _).
  split_and!; try done. unfold normalizeCallerETag in Ht. case_decide; [by left|right].
  destruct (parseStrongETag _); [by eexists|done].
Qed.

(** * Entity tags *)

Lemma trim_left_stable pats l n :
  strip_one pats l = None → trim_left_fuel n pats l = l.
Proof. intros H. destruct n; simpl; [done|]. by rewrite H. Qed.
Lemma trim_quoted l :
  trim_both (map (λ c, [c]) (bytes (str [" "; "009"]%char))) (quote_byte :: l ++ [quote_byte]) = quote_byte :: l ++ [quote_byte].
Proof.
  unfold trim_both. assert (Hl : ∀ pats l', strip_one pats l' = None → trim_left pats l' = l')
    by (intros; by apply trim_left_stable).
  rewrite (Hl _ (quote_byte :: _)) by done.
  rewrite Hl by (rewrite reverse_cons, reverse_app; done). apply reverse_involutive.
Qed.
Lemma quoted_shape l :
  (2 <=? zlen l) = true → has_prefix_b [quote_byte] l = true → has_suffix_b [quote_byte] l = true →
  l = quote_byte :: take (length l - 2) (drop 1 l) ++ [quote_byte].
Proof.
  intros H2 [k ->]%has_prefix_b_spec Hs. unfold has_suffix_b in Hs. apply bool_decide_eq_true in Hs as [k' Hk'].
  destruct k' as [|q k'].
  - simpl in Hk'. simplify_eq.
  - simpl in Hk'. injection Hk' as <- ->. cbn [app drop length]. f_equal. rewrite drop_0, length_app. cbn [length].
    replace (S (length k' + 1) - 2)%nat with (length k') by lia. by rewrite take_app_length.
Qed.

Lemma strong_tag_shape value tag : parseStrongETag value = Some tag →
  (∃ l, bytes tag = (quote_byte :: l ++ [quote_byte])%list ∧
        ∀ c, c ∈ l → 33 <= byte_val c ∧ c ≠ quote_byte ∧ byte_val c ≠ 127) ∧
  len tag <= maxETagBytes ∧ parseStrongETag tag = Some tag.
Proof.
  unfold parseStrongETag at 1. destruct (maxETagBytes <? len value) eqn:Hmax; [done|].
  set (v := trim value _). destruct (_ || _) eqn:Hq; [done|]. destruct (forallb _ _) eqn:Hb; [|done].
  intros [= <-]. bool_to_prop.
  assert (Hshape : bytes v = quote_byte :: take (length (bytes v) - 2) (drop 1 (bytes v)) ++ [quote_byte]).
  { apply quoted_shape; [|done..]. unfold len in *. apply Z.leb_le. lia. }
  assert (Hlen : len v <= maxETagBytes).
  { unfold v, trim, len. rewrite bytes_str. destruct (trim_both_infix (map (λ c, [c]) (bytes (str [" "; "009"]%char))) (bytes value)) as (k1 & k2 & Hv).
    unfold len in Hmax. rewrite Hv, !zlen_app in Hmax. pose proof (zlen_nonneg k1). pose proof (zlen_nonneg k2). lia. }
  split_and!; [|done|].
  - eexists. split; [exact Hshape|]. intros c Hc. apply forallb_Forall in Hb. rewrite Forall_forall in Hb.
    specialize (Hb c Hc). unfold etag_byte in Hb. bool_to_prop. by split_and!.
  - unfold parseStrongETag. rewrite (proj2 (Z.ltb_ge _ _) Hlen).
    assert (Htrim : trim v (str [" "; "009"]%char) = v).
    { apply bytes_inj. unfold trim. rewrite bytes_str. rewrite Hshape at 1. rewrite trim_quoted. by rewrite <-Hshape. }
    rewrite Htrim, (proj2 (Z.ltb_ge (len v) 2) H), H1, H0, Hb. done.
Qed.

(** A strong entity tag that is accepted is a quoted opaque value in the
    printable bytes, ready for an [If-Match] field: no [*], no weak tag, no
    list and no line break; and reading it again gives the same tag. *)
Theorem strong_etag value tag : parseStrongETag value = Some tag →
  (∃ l, bytes tag = (quote_byte :: l ++ [quote_byte])%list ∧
        ∀ c, c ∈ l → 33 <= byte_val c ∧ c ≠ quote_byte ∧ byte_val c ≠ 127) ∧
  len tag <= maxETagBytes ∧ parseStrongETag tag = Some tag.
Proof. apply strong_tag_shape. Qed.

(** * Witnesses *)

Definition book_id : string := "book-AbCdEfGhIjKlMnOpQrStUv".
Definition ada : CreateContactInput :=
  MkCreateContactInput book_id "Ada Lovelace" (MkStructuredName "Lovelace" "Ada" "" "" "") "Analytical; Ltd" "" ""
    "1815-12-10" "first" [MkTypedValue "home" "ada@example.com"] [MkTypedValue "" "+44 20"]
    [MkPostalAddress "home" "" "" "12 St James's Square" "London" "" "" "UK"] [MkTypedValue "" "https://example.com/ada"] "".
Lemma accepted_contact_witness :
  @validateCreate declared_order ada = Ok tt ∧ CcBirthday ada ≠ "" ∧
  Forall (λ s, ";"%char ∉ bytes s) (component_texts ada).
Proof.
  assert (H : @validateCreate declared_order ada = Ok tt) by (vm_compute; reflexivity).
  split_and!; [done|done|]. apply (accepted_contact (H:=declared_order) ada H).
Defined.
Example create_without_a_name :
  @validateCreate declared_order (MkCreateContactInput book_id " " (MkStructuredName "" "" "" "" "") "" "" "" "" "" [] [] [] [] "")
  = Err (validationError "display_name or one structured name component is required").
Proof. vm_compute. reflexivity. Qed.
Definition etag_field : string := str [" "; "034"; "a"; "b"; "034"; "009"]%char.
Lemma strong_etag_witness :
  parseStrongETag etag_field = Some (str ["034"; "a"; "b"; "034"]%char) ∧ len etag_field = 6 ∧
  parseStrongETag (str ["034"; "a"; "b"; "034"]%char) = Some (str ["034"; "a"; "b"; "034"]%char).
Proof.
  split_and!; [vm_compute; reflexivity|reflexivity|].
  by apply (strong_etag etag_field (str ["034"; "a"; "b"; "034"]%char)); vm_compute.
Defined.
