(* ===== verification/ContactsUrl.v ===== *)
(** The URLs of the Contacts client: validation, canonical form, containment in
    an address book, identifiers (src/internal/contacts/client.go, dav.go,
    operations.go). *)
From S2P Require Import Prelude GoStrings GoTime GoEncode NetUrl ContactsTypes ContactsValidation.
Import CT.

(** * Opaque paths *)

Definition isHexByte (c : ascii) : bool :=
  is_digit c || ((97 <=? byte_val c) && (byte_val c <=? 102)) || ((65 <=? byte_val c) && (byte_val c <=? 70)).
Definition upperHexByte (c : ascii) : ascii :=
  if (97 <=? byte_val c) && (byte_val c <=? 122) then byte_of (byte_val c - 32) else c.
Definition hexValue (c : ascii) : Z :=
  if is_digit c then byte_val c - 48 else byte_val (upperHexByte c) - 65 + 10.

(** [decodePercentEscapes]: one pass, and whether it decoded anything. *)
Fixpoint decodePercentEscapes (l : list ascii) : list ascii * bool :=
  match l with
  | [] => ([], false)
  | c :: l' =>
      let plain := let '(r, ch) := decodePercentEscapes l' in (c :: r, ch) in
      if decide (c = "%"%char) then
        match l' with
        | h1 :: h2 :: l'' =>
            if isHexByte h1 && isHexByte h2
            then (byte_of (Z.lor (Z.shiftl (hexValue h1) 4) (hexValue h2)) :: (decodePercentEscapes l'').1, true)
            else plain
        | _ => plain
        end
      else plain
  end.

Definition unsafe_bytes : string := "/\" ++ str ["000"; "013"; "010"]%char.
Definition unsafe_here (l : list ascii) : bool :=
  bool_decide (l = bytes ".") || bool_decide (l = bytes "..") || contains_any (str l) unsafe_bytes.
Fixpoint unsafe_loop (n : nat) (decoded : list ascii) : bool :=
  match n with
  | O => true
  | S n =>
      if unsafe_here decoded then true
      else let '(next, changed) := decodePercentEscapes decoded in
           if changed then unsafe_loop n next else false
  end.
Definition unsafeOpaquePathSegment (segment : list ascii) : bool :=
  unsafe_loop (length segment + 1) segment.

(** The scan of [canonicalOpaquePath]: escapes in upper case. *)
Fixpoint canonical_escapes (l : list ascii) : option (list ascii) :=
  match l with
  | [] => Some []
  | c :: l =>
      if decide (c = "%"%char) then
        match l with
        | h1 :: h2 :: l =>
            if isHexByte h1 && isHexByte h2
            then (λ r, c :: upperHexByte h1 :: upperHexByte h2 :: r) <$> canonical_escapes l else None
        | _ => None
        end
      else if bool_decide (c ∈ ["\"; "000"; "013"; "010"]%char) then None
      else (λ r, c :: r) <$> canonical_escapes l
  end.
Definition canonicalOpaquePath (target : URL) : option string :=
  let escaped := EscapedPath target in
  if bool_decide (escaped = "") || (4096 <? len escaped) || negb (has_prefix escaped "/") || has_prefix escaped "//"
  then None
  else
    canonical ← canonical_escapes (bytes escaped);
    if existsb unsafeOpaquePathSegment (split_b "/"%char canonical) then None else Some (str canonical).
(** The first result when the second is ignored. *)
Definition canonical_path (target : URL) : string := default "" (canonicalOpaquePath target).

(** * Authority *)

Definition protocol_error (message : string) : Error := newError CodeProtocolError 0 message.
Section Client.
Context `{UnicodeTables}.
(** [c.allowHost], nil or a function. *)
Context (allowHost : option (string → bool)).

Definition validateURL (target : URL) : result Error unit :=
  reject negb (bool_decide (Scheme target = "https")) || bool_decide (UrlHost target = "")
         || negb (bool_decide (Opaque target = "")) || bool_decide (is_Some (User target))
         || negb (bool_decide (Fragment target = "")) || negb (bool_decide (RawQuery target = "")) || ForceQuery target
    with protocol_error "Contacts URL failed scheme or authority validation" ;;
  let host := Hostname target in
  reject bool_decide (host = "") || negb (bool_decide (host = to_lower host))
    with protocol_error "Contacts URL host must be lowercase" ;;
  reject negb (bool_decide (Port target = "")) && negb (bool_decide (Port target = "443"))
    with protocol_error "Contacts URL uses a disallowed port" ;;
  reject negb (match allowHost with Some allow => allow host | None => false end)
    with protocol_error "Contacts URL host is outside the domain allowlist" ;;
  reject negb (bool_decide (is_Some (canonicalOpaquePath target)))
    with protocol_error "Contacts URL path is invalid" ;;
  Ok tt.

Definition resolveAndValidate (base : URL) (href : string) : result Error URL :=
  let href := trim_space href in
  reject bool_decide (href = "") with protocol_error "iCloud Contacts returned an empty DAV href" ;;
  match Parse href with
  | None => Err (protocol_error "iCloud Contacts returned an invalid DAV href")
  | Some reference =>
      let resolved := ResolveReference base reference in
      validateURL resolved;;
      Ok resolved
  end.
End Client.

Definition canonicalURL (target : URL) : string :=
  let authority := Hostname target
    ++ (if negb (bool_decide (Port target = "")) && negb (bool_decide (Port target = "443"))
        then ":" ++ Port target else "") in
  "https://" ++ authority ++ canonical_path target.

Definition port_or_443 (u : URL) : string := if decide (Port u = "") then "443" else Port u.
Definition urlWithin (child collection : URL) (allowEqual : bool) : bool :=
  if negb (bool_decide (Scheme child = Scheme collection)) || negb (bool_decide (Hostname child = Hostname collection))
  then false
  else if negb (bool_decide (port_or_443 child = port_or_443 collection)) then false
  else match canonicalOpaquePath collection, canonicalOpaquePath child with
       | Some basePath, Some childPath =>
           let basePath := trim_suffix basePath "/" in
           let childPath := trim_suffix childPath "/" in
           if allowEqual && bool_decide (childPath = basePath) then true
           else negb (bool_decide (basePath = "")) && has_prefix childPath (basePath ++ "/")
       | _, _ => false
       end.

Definition opaqueBookID (target : URL) : string :=
  "book-" ++ str (base64 base64_url false (take 16 (sum256 (bytes (canonicalURL target))))).

(** [childResourceURL]. *)
Definition childResourceURL (collection : URL) (name : string) : URL :=
  let path := trim_suffix (UrlPath collection) "/" ++ "/" in
  let escapedBase := trim_suffix (EscapedPath collection) "/" ++ "/" in
  let base := set_paths path (if decide (escapedBase = path) then "" else escapedBase) collection in
  ResolveReference (set_fragments "" (RawFragment base) (set_query "" base)) (path_url name).

(** * Advertised versions *)

(** Content type and version of an [address-data-type]. *)
Record addressDataType := MkDataType { ContentType : string; DataVersion : string }.
Definition sortedVersions (types : list addressDataType) : list string :=
  let wanted := List.filter (λ t, equal_fold (ContentType t) "text/vcard"
                                  && (bool_decide (DataVersion t = "3.0") || bool_decide (DataVersion t = "4.0"))) types in
  sort_strings (remove_dups (map DataVersion wanted)).

Definition fixed_allow (host : string) : bool := bool_decide (host = "p07-contacts.icloud.com").
Definition contacts_url (path : string) : URL :=
  default (path_url "") (Parse ("https://p07-contacts.icloud.com" ++ path)).
Example url_ok : @validateURL ascii_tables (Some fixed_allow) (contacts_url "/123/carddavhome/card/") = Ok tt.
Proof. vm_compute. reflexivity. Qed.
Example url_double_escape :
  @validateURL ascii_tables (Some fixed_allow) (contacts_url "/123/%252e%252e/x") = Err (protocol_error "Contacts URL path is invalid").
Proof. vm_compute. reflexivity. Qed.
Example url_within :
  urlWithin (contacts_url "/123/carddavhome/card/a.vcf") (contacts_url "/123/carddavhome/card/") false = true.
Proof. vm_compute. reflexivity. Qed.
Example url_child :
  url_string (childResourceURL (contacts_url "/123/card/") "x.vcf") = "https://p07-contacts.icloud.com/123/card/x.vcf".
Proof. vm_compute. reflexivity. Qed.

(** * Repeated decoding *)

Definition decoded_times (n : nat) (l : list ascii) : list ascii := Nat.iter n (λ l, (decodePercentEscapes l).1) l.

Lemma decode_cases l :
  (decodePercentEscapes l = (l, false)) ∨
  ((decodePercentEscapes l).2 = true ∧ length (decodePercentEscapes l).1 < length l)%nat.
Proof.
  remember (length l) as n eqn:Hn. revert l Hn. induction (lt_wf n) as [n _ IH]; intros l ->.
  destruct l as [|c l]; [by left|].
  assert (Hle : ∀ k, (length k < length (c :: l))%nat → (length (decodePercentEscapes k).1 <= length k)%nat).
  { intros k Hk. destruct (IH _ Hk k eq_refl) as [->|[_ ?]]; simpl; lia. }
  assert (Hplain : let r := (c :: (decodePercentEscapes l).1, (decodePercentEscapes l).2) in
    r = (c :: l, false) ∨ (r.2 = true ∧ length r.1 < length (c :: l))%nat).
  { destruct (IH (length l) ltac:(simpl; lia) l eq_refl) as [->|[? ?]]; simpl; [by left|right; split; [done|lia]]. }
  assert (Hform : (let '(r, ch) := decodePercentEscapes l in (c :: r, ch)) = (c :: (decodePercentEscapes l).1, (decodePercentEscapes l).2))
    by by destruct (decodePercentEscapes l).
  cbn [decodePercentEscapes]. rewrite Hform. case_decide; [|done].
  destruct l as [|h1 [|h2 l]]; [done..|]. destruct (isHexByte h1 && isHexByte h2); [|done].
  right. split; [done|]. simpl. specialize (Hle l ltac:(simpl; lia)). lia.
Qed.

Lemma iter_fixed {A} (f : A → A) n a : f a = a → Nat.iter n f a = a.
Proof. intros Hf. induction n as [|n IH]; simpl; [done|]. by rewrite IH. Qed.
Lemma decoded_step n l : decoded_times (S n) l = decoded_times n (decodePercentEscapes l).1.
Proof. unfold decoded_times. by rewrite Nat.iter_succ_r. Qed.

Lemma unsafe_loop_iff n l : (length l < n)%nat →
  unsafe_loop n l = true ↔ ∃ k, unsafe_here (decoded_times k l) = true.
Proof.
  revert l; induction n as [|n IH]; intros l Hn; [lia|]. cbn [unsafe_loop].
  destruct (unsafe_here l) eqn:Hh; [split; [by exists O|done]|].
  destruct (decode_cases l) as [Heq|[Hch Hlt]].
  - rewrite Heq. split; [done|]. intros [k Hk]. unfold decoded_times in Hk.
    rewrite iter_fixed in Hk by (by rewrite Heq). congruence.
  - destruct (decodePercentEscapes l) as [next changed] eqn:Hd. simpl in Hch, Hlt. subst changed.
    rewrite IH by lia. split.
    + intros [k Hk]. exists (S k). by rewrite decoded_step, Hd.
    + intros [[|k] Hk]; [unfold decoded_times in Hk; simpl in Hk; congruence|]. exists k. by rewrite decoded_step, Hd in Hk.
Qed.

(** The loop over at most [len + 1] decodings decides a property of every
    number of decodings. *)
Lemma unsafe_segment_iff l :
  unsafeOpaquePathSegment l = true ↔ ∃ k, unsafe_here (decoded_times k l) = true.
Proof. apply unsafe_loop_iff. lia. Qed.

(** [safe_segment l]: [l] is no dot segment and hides no separator, however
    often a server decodes it. *)
Definition safe_segment (l : list ascii) : Prop := ∀ k, unsafe_here (decoded_times k l) = false.
Lemma unsafe_segment_false l : unsafeOpaquePathSegment l = false → safe_segment l.
Proof.
  intros H k. apply not_true_iff_false. intros Hk.
  assert (unsafeOpaquePathSegment l = true) by (apply unsafe_segment_iff; by exists k). congruence.
Qed.

(** * Containment *)

Lemma canonical_ok u p : canonicalOpaquePath u = Some p →
  Forall safe_segment (split_b "/"%char (bytes p)) ∧ len (EscapedPath u) <= 4096 ∧ has_prefix (EscapedPath u) "/" = true.
Proof.
  unfold canonicalOpaquePath. destruct (_ || _) eqn:Hc; [done|]. bool_to_prop.
  destruct (canonical_escapes _) as [l|] eqn:Hl; [|done]. cbn [mbind option_bind].
  destruct (existsb _ _) eqn:He; [done|]. intros [= <-]. rewrite bytes_str. split_and!; [|lia|done].
  apply existsb_false in He. eapply Forall_impl; [exact He|]. intros s. apply unsafe_segment_false.
Qed.

Lemma bytes_trim_slash s :
  bytes s = bytes (trim_suffix s "/") ∨ bytes s = (bytes (trim_suffix s "/") ++ ["/"%char])%list.
Proof.
  unfold trim_suffix. destruct (has_suffix s "/") eqn:E; [right|by left]. rewrite bytes_str.
  unfold has_suffix, has_suffix_b in E. bool_to_prop. destruct E as [k Hk]. rewrite Hk. simpl.
  rewrite length_app. simpl. by rewrite Nat.add_sub, take_app_length.
Qed.

Lemma split_trim_slash s seg :
  seg ∈ split_b "/"%char (bytes (trim_suffix s "/")) → seg ∈ split_b "/"%char (bytes s).
Proof.
  destruct (bytes_trim_slash s) as [->| ->]; [done|]. rewrite split_b_sep_app. intros ?. apply elem_of_app. by left.
Qed.

(** A resource that [urlWithin] places inside an address book has its
    scheme, host and port, and its path continues the path of the book with
    segments none of which is a dot segment or hides a separator, however
    often a server decodes it: no request can leave the book. *)
Theorem url_within_confined child collection :
  urlWithin child collection false = true →
  Scheme child = Scheme collection ∧ Hostname child = Hostname collection ∧
  port_or_443 child = port_or_443 collection ∧
  ∃ base rest, base = trim_suffix (canonical_path collection) "/" ∧ base ≠ "" ∧
    trim_suffix (canonical_path child) "/" = base ++ "/" ++ rest ∧
    Forall safe_segment (split_b "/"%char (bytes rest)).
Proof.
  unfold urlWithin. destruct (negb (bool_decide (Scheme child = _)) || _) eqn:Hh; [done|].
  destruct (negb (bool_decide (port_or_443 _ = _))) eqn:Hp; [done|].
  destruct (canonicalOpaquePath collection) as [b|] eqn:Hb; [|done].
  destruct (canonicalOpaquePath child) as [p|] eqn:Hc; [|done].
  cbn [andb]. intros [Hne Hpre]%andb_prop. bool_to_prop. split_and!; [done..|].
  apply has_prefix_spec in Hpre as [rest Hrest].
  assert (Hpath : trim_suffix p "/" = trim_suffix b "/" ++ "/" ++ rest).
  { rewrite Hrest. apply bytes_inj. rewrite !bytes_app. by rewrite <-app_assoc. }
  exists (trim_suffix b "/"), rest. unfold canonical_path. rewrite Hb, Hc. cbn [default from_option id].
  split_and!; [done..|].
  apply canonical_ok in Hc as (Hs & _). rewrite Forall_forall in Hs |- *. intros seg Hseg. apply Hs, split_trim_slash.
  rewrite Hpath, !bytes_app. cbn [bytes list_ascii_of_string app]. rewrite split_b_sep_app.
  apply elem_of_app. by right.
Qed.

Lemma url_within_confined_witness :
  ∃ child collection, urlWithin child collection false = true ∧ Hostname child = Hostname collection.
Proof.
  exists (contacts_url "/123/card/a%20b.vcf"), (contacts_url "/123/card/").
  assert (H : urlWithin (contacts_url "/123/card/a%20b.vcf") (contacts_url "/123/card/") false = true)
    by (vm_compute; reflexivity).
  split; [exact H|]. by destruct (url_within_confined _ _ H) as (_ & ? & _).
Defined.
