(* ===== verification/VCard.v ===== *)
(** Contact cards: the raw representation that keeps every property byte for
    byte, decoding, and the patch of a card (src/internal/contacts/vcard.go).

    [github.com/emersion/go-vcard] is the class [VCardLib]. *)
From S2P Require Import Prelude GoStrings GoTime ContactsTypes MailValidation ContactsValidation.
Import CT.

Definition maxCardBytes : Z := 1048576.
Definition maxCardProperties : Z := 10000.
Definition invalidCardError : Error := newError CodeProtocolError 0 "iCloud Contacts returned an invalid vCard".

(** * Properties of a card, as written *)

Record rawProperty := MkRawProperty {
  group : string; name : string; value : string; hasParams : bool; raw : list ascii;
}.
#[export] Instance rawProperty_eq_dec : EqDecision rawProperty.
Proof. solve_decision. Defined.

Definition backslash : ascii := "\"%char.
(** [delimiterOutsideQuotes]: [Ok None] is Go's [-1]. *)
Fixpoint delimiter_from (delimiter : ascii) (quoted : bool) (index : nat) (l : list ascii) : result Error (option nat) :=
  match l with
  | [] => if quoted then Err invalidCardError else Ok None
  | c :: l =>
      if decide (c = backslash) then
        match l with
        | _ :: l' => if quoted then delimiter_from delimiter quoted (S (S index)) l'
                     else delimiter_from delimiter quoted (S index) l
        | [] => delimiter_from delimiter quoted (S index) l
        end
      else if decide (c = quote_byte) then delimiter_from delimiter (negb quoted) (S index) l
      else if bool_decide (c = delimiter) && negb quoted then Ok (Some index)
      else delimiter_from delimiter quoted (S index) l
  end.
Definition delimiterOutsideQuotes (value : list ascii) (delimiter : ascii) : result Error (option nat) :=
  delimiter_from delimiter false 0 value.

(** [splitOutsideQuotes]; [part] is [value[start:index]]. *)
Fixpoint split_quoted (delimiter : ascii) (quoted : bool) (part l : list ascii) : result Error (list (list ascii)) :=
  match l with
  | [] => if quoted then Err invalidCardError else Ok [part]
  | c :: l =>
      if decide (c = backslash) then
        match l with
        | c' :: l' => if quoted then split_quoted delimiter quoted (part ++ [c; c']) l'
                      else split_quoted delimiter quoted (part ++ [c]) l
        | [] => split_quoted delimiter quoted (part ++ [c]) l
        end
      else if decide (c = quote_byte) then split_quoted delimiter (negb quoted) (part ++ [c]) l
      else if bool_decide (c = delimiter) && negb quoted
           then (λ ps, part :: ps) <$> split_quoted delimiter quoted [] l
      else split_quoted delimiter quoted (part ++ [c]) l
  end.
Definition splitOutsideQuotes (value : list ascii) (delimiter : ascii) : result Error (list (list ascii)) :=
  split_quoted delimiter false [] value.

Definition validPhysicalLine (line : list ascii) : bool :=
  forallb (λ c, negb ((byte_val c =? 0) || (byte_val c =? 127) || ((byte_val c <? 32) && negb (byte_val c =? 9)))) line.

Definition valid_parameter_item (item : list ascii) : bool :=
  match item with
  | [] => false
  | c :: _ => if decide (c = quote_byte)
              then (2 <=? zlen item) && has_suffix_b [quote_byte] item
              else negb (bool_decide (quote_byte ∈ item))
  end.
Definition validParameterValue (value : list ascii) : bool :=
  match value with
  | [] => false
  | _ => match splitOutsideQuotes value ","%char with
         | Err _ => false
         | Ok values => forallb valid_parameter_item values
         end
  end.

Definition token_rune (r : Z) : bool :=
  ((65 <=? r) && (r <=? 90)) || ((97 <=? r) && (r <=? 122)) || ((48 <=? r) && (r <=? 57)) || (r =? 45).
Definition validPropertyToken (value : list ascii) : bool :=
  match value with [] => false | _ => forallb (λ rw, token_rune rw.1) (runes value) end.

Definition check_parameter (parameter : list ascii) : result Error unit :=
  match delimiterOutsideQuotes parameter "="%char with
  | Ok (Some (S i)) =>
      let equals := S i in
      reject negb (validPropertyToken (take equals parameter)) || negb (validParameterValue (drop (S equals) parameter))
        with invalidCardError ;;
      Ok tt
  | _ => Err invalidCardError
  end.
(** [group.name]: at most one dot; both are tokens. *)
Definition property_identity (identity : list ascii) : result Error (list ascii * list ascii) :=
  match index_byte "."%char identity with
  | Some dot =>
      reject bool_decide ("."%char ∈ drop (S dot) identity) with invalidCardError ;;
      Ok (take dot identity, drop (S dot) identity)
  | None => Ok ([], identity)
  end.
(** A token is ASCII, where [strings.ToUpper] maps byte by byte. *)
Definition parseRawProperty (logical chunks : list ascii) : result Error rawProperty :=
  match delimiterOutsideQuotes logical ":"%char with
  | Ok (Some (S c)) =>
      let colon := S c in
      match splitOutsideQuotes (take colon logical) ";"%char with
      | Ok ((_ :: _) as identity :: parameters) =>
          '(group, name) ← property_identity identity;
          reject negb (validPropertyToken name) || (negb (bool_decide (group = [])) && negb (validPropertyToken group))
            with invalidCardError ;;
          each check_parameter parameters;;
          Ok (MkRawProperty (str group) (str (map upper_byte name)) (str (drop (S colon) logical))
                            (negb (bool_decide (parameters = []))) chunks)
      | _ => Err invalidCardError
      end
  | _ => Err invalidCardError
  end.

(** * The scan over physical lines *)

Definition lf : ascii := "010"%char.
Definition cr : ascii := "013"%char.
(** The lines that end in a line feed, without it, and what follows the last. *)
Fixpoint split_lines (l : list ascii) : list (list ascii) * list ascii :=
  match l with
  | [] => ([], [])
  | c :: l =>
      let '(ls, rest) := split_lines l in
      if decide (c = lf) then ([] :: ls, rest)
      else match ls with
           | [] => ([], c :: rest)
           | first :: ls => ((c :: first) :: ls, rest)
           end
  end.

Record scan := MkScan { chunks : list ascii; logical : list ascii; properties : list rawProperty }.
Definition flush (s : scan) : result Error scan :=
  match chunks s with
  | [] => Ok s
  | _ =>
      property ← parseRawProperty (logical s) (chunks s);
      let props := (properties s ++ [property])%list in
      reject maxCardProperties + 2 <? zlen props
        with newError CodePayloadTooLarge 0 "one vCard exceeded its property limit" ;;
      Ok (MkScan [] [] props)
  end.
Definition drop_cr (line : list ascii) : list ascii :=
  match reverse line with c :: r => if decide (c = cr) then reverse r else line | [] => line end.
Definition continuation (line : list ascii) : bool :=
  match line with c :: _ => bool_decide (c = " "%char) || bool_decide (c = "009"%char) | [] => false end.
Definition scan_line (s : scan) (physical : list ascii) : result Error scan :=
  let line := drop_cr physical in
  let chunk := (physical ++ [lf])%list in
  reject bool_decide (line = []) || bool_decide (cr ∈ line) || negb (validPhysicalLine line) with invalidCardError ;;
  if continuation line then
    reject bool_decide (chunks s = []) with invalidCardError ;;
    Ok (MkScan (chunks s ++ chunk) (logical s ++ drop 1 line) (properties s))
  else
    s ← flush s;
    Ok (MkScan (chunks s ++ chunk) (logical s ++ line) (properties s)).

Definition is_named (n : string) (p : rawProperty) : bool := bool_decide (name p = n).
Definition named (n : string) (l : list rawProperty) : list rawProperty := List.filter (is_named n) l.

(** [countUnescaped]. *)
Fixpoint count_unescaped (wanted : ascii) (escaped : bool) (l : list ascii) : Z :=
  match l with
  | [] => 0
  | c :: l =>
      if escaped then count_unescaped wanted false l
      else if decide (c = backslash) then count_unescaped wanted true l
      else (if decide (c = wanted) then 1 else 0) + count_unescaped wanted false l
  end.
Definition countUnescaped (value : string) (wanted : ascii) : Z := count_unescaped wanted false (bytes value).

Definition card_fence (word : string) (p : rawProperty) : bool :=
  bool_decide (group p = "") && negb (hasParams p) && bool_decide (name p = word) && equal_fold (value p) "VCARD".
(** [validateRawCard]: every failure is the same error. *)
Definition raw_card_ok (l : list rawProperty) : bool :=
  match l, reverse l with
  | first :: inner, last :: _ =>
      let versions := named "VERSION" l in
      let uids := named "UID" l in
      let formattedNames := named "FN" l in
      let names := named "N" l in
      (5 <=? zlen l) && card_fence "BEGIN" first && card_fence "END" last
      && forallb (λ p, negb (is_named "BEGIN" p) && negb (is_named "END" p)) (take (length inner - 1) inner)
      && match inner, versions, uids with
         | second :: _, [version], [uid] =>
             let v4 := bool_decide (value version = "4.0") in
             is_named "VERSION" second && negb (hasParams version)
             && (bool_decide (value version = "3.0") || v4)
             && negb (bool_decide (formattedNames = []))
             && (v4 || ((zlen formattedNames =? 1) && (zlen names =? 1)))
             && (negb v4 || (zlen names <=? 1))
             && forallb (λ p, bool_decide (group p = "")) (version :: uid :: formattedNames ++ names)
             && negb (bool_decide (trim_space (value uid) = ""))
             && existsb (λ p, negb (bool_decide (trim_space (value p) = ""))) formattedNames
             && forallb (λ p, countUnescaped (value p) ";"%char =? 4) names
         | _, _, _ => false
         end
  | _, _ => false
  end.
Definition validateRawCard (l : list rawProperty) : result Error unit :=
  reject negb (raw_card_ok l) with invalidCardError ;; Ok tt.

(** [rawCard] is its list of properties. *)
Definition parseRawCard (data : list ascii) : result Error (list rawProperty) :=
  reject bool_decide (data = []) with invalidCardError ;;
  let '(lines, rest) := split_lines data in
  s ← fold_res scan_line lines (MkScan [] [] []);
  reject negb (bool_decide (rest = [])) with invalidCardError ;;
  s ← flush s;
  validateRawCard (properties s);;
  Ok (properties s).

(** * Cards *)

(** The exported types of go-vcard: [Params], [*Field] and [Card]. *)
Abbreviation Params := (gmap string (list string)).
Record Field := MkField { FieldValue : string; FieldParams : Params }.
Abbreviation Card := (gmap string (list (option Field))).
Record vName := MkVName { nFamily : string; nGiven : string; nAdditional : string; nPrefix : string; nSuffix : string }.
Record vAddress := MkVAddress {
  aField : Field; aPostOfficeBox : string; aExtended : string; aStreet : string;
  aLocality : string; aRegion : string; aPostalCode : string; aCountry : string;
}.

(** go-vcard. [vcard_decode data] is the card of the first [Decode] on [data]
    and whether a second one gives [io.EOF]; [vcard_encode] is [None] when
    [Encode] fails. *)
Class VCardLib := {
  card_Get : Card → string → option Field;
  card_Value : Card → string → string;
  card_SetValue : Card → string → string → Card;
  card_Add : Card → string → Field → Card;
  card_Name : Card → option vName;
  card_SetName : Card → vName → Card;
  card_Address : Card → option vAddress;
  card_AddAddress : Card → vAddress → Card;
  card_Kind : Card → string;
  params_Get : Params → string → string;
  params_HasType : Params → string → bool;
  params_Types : Params → list string;
  vcard_decode : list ascii → option (Card * bool);
  vcard_encode : Card → option (list ascii);
}.

Section Cards.
Context `{VCardLib} `{UnicodeTables}.

Definition decodeRawCard (data : list ascii) : result Error (Card * string * list rawProperty) :=
  reject maxCardBytes <? zlen data with newError CodePayloadTooLarge 0 "one vCard exceeded its byte limit" ;;
  raw ← parseRawCard data;
  match vcard_decode data with
  | None => Err invalidCardError
  | Some (card, at_eof) =>
      let decodedProperties := foldr (λ kv n, zlen kv.2 + n) 0 (map_to_list card) in
      reject negb (decodedProperties =? zlen raw - 2) with invalidCardError ;;
      reject negb at_eof with invalidCardError ;;
      let version := trim_space (card_Value card "VERSION") in
      reject negb (bool_decide (Some version = value <$> raw !! 1%nat))
             || (negb (bool_decide (version = "3.0")) && negb (bool_decide (version = "4.0")))
        with newError CodeProtocolError 0 "iCloud Contacts returned an unsupported vCard version" ;;
      reject bool_decide (trim_space (card_Value card "UID") = "")
        with newError CodeProtocolError 0 "iCloud Contacts returned a vCard without a UID" ;;
      reject negb (is_ok (validateUID (card_Value card "UID")))
        with newError CodeProtocolError 0 "iCloud Contacts returned an invalid vCard UID" ;;
      Ok (card, version, raw)
  end.
Definition decodeCard (data : list ascii) : result Error (Card * string) :=
  '(card, version, _) ← decodeRawCard data; Ok (card, version).

Definition resource_limit (serverMax : Z) : Z :=
  if (0 <? serverMax) && (serverMax <? maxCardBytes) then serverMax else maxCardBytes.
Definition too_large : Error := newError CodePayloadTooLarge 0 "the encoded contact exceeds its resource limit".
Definition encodeCard (card : Card) (serverMax : Z) : result Error (list ascii) :=
  match vcard_encode card with
  | None => Err (newError CodeInternalError 0 "failed to encode the contact")
  | Some data => reject resource_limit serverMax <? zlen data with too_large ;; Ok data
  end.

(** * Writing model fields into a card *)

Definition setSingle (card : Card) (key value : string) : Card :=
  if decide (value = "") then delete key card else card_SetValue card key value.
Definition setName (card : Card) (n : StructuredName) : Card :=
  card_SetName card (MkVName (FamilyName n) (GivenName n) (AdditionalName n) (HonorificPrefix n) (HonorificSuffix n)).
Definition type_params (t : string) : Params := if decide (t = "") then ∅ else {["TYPE" := [t]]}.
Definition setTypedValues (card : Card) (key : string) (values : list TypedValue) : Card :=
  fold_left (λ card v, card_Add card key (MkField (TvValue v) (type_params (TvType v)))) values (delete key card).
Definition setAddresses (card : Card) (values : list PostalAddress) : Card :=
  fold_left (λ card v, card_AddAddress card
    (MkVAddress (MkField "" (type_params (AdrType v))) (PostOfficeBox v) (ExtendedAddress v) (StreetAddress v)
                (Locality v) (Region v) (PostalCode v) (Country v))) values (delete "ADR" card).

Definition displayFromName (n : StructuredName) : string :=
  join (List.filter (λ s, negb (bool_decide (s = "")))
         (map trim_space [HonorificPrefix n; GivenName n; AdditionalName n; FamilyName n; HonorificSuffix n])) " ".
Definition no_name : StructuredName := MkStructuredName "" "" "" "" "".
Definition structuredNameFromCard (card : Card) : StructuredName :=
  match card_Name card with
  | None => no_name
  | Some n => MkStructuredName (nFamily n) (nGiven n) (nAdditional n) (nPrefix n) (nSuffix n)
  end.

Definition newV3Card (i : CreateContactInput) (uid : string) : Card :=
  let card := card_SetValue ∅ "VERSION" "3.0" in
  let card := card_SetValue card "PRODID" "-//icloud-mcp//Contacts//EN" in
  let card := card_SetValue card "UID" uid in
  let display := if decide (trim_space (CcDisplayName i) = "") then displayFromName (CcName i) else CcDisplayName i in
  let card := card_SetValue card "FN" display in
  let card := setName card (CcName i) in
  let card := setSingle card "ORG" (CcOrganization i) in
  let card := setSingle card "TITLE" (CcTitle i) in
  let card := setSingle card "NICKNAME" (CcNickname i) in
  let card := setSingle card "BDAY" (CcBirthday i) in
  let card := setSingle card "NOTE" (CcNotes i) in
  let card := setTypedValues card "EMAIL" (CcEmails i) in
  let card := setTypedValues card "TEL" (CcPhones i) in
  let card := setAddresses card (CcAddresses i) in
  setTypedValues card "URL" (CcURLs i).

(** [if patch.F != nil { set(card, *patch.F) }]. *)
Definition patch_field {A} (o : option A) (set : Card → A → Card) (card : Card) : Card :=
  match o with Some a => set card a | None => card end.
Definition applyPatch (card : Card) (p : ContactPatch) : result Error Card :=
  let single key := λ card v, setSingle card key v in
  let typed key := λ card v, setTypedValues card key v in
  let card := patch_field (PDisplayName p) (single "FN") card in
  let card := patch_field (PName p) setName card in
  let card := patch_field (POrganization p) (single "ORG") card in
  let card := patch_field (PTitle p) (single "TITLE") card in
  let card := patch_field (PNickname p) (single "NICKNAME") card in
  let card := patch_field (PBirthday p) (single "BDAY") card in
  let card := patch_field (PNotes p) (single "NOTE") card in
  let card := patch_field (PEmails p) (typed "EMAIL") card in
  let card := patch_field (PPhones p) (typed "TEL") card in
  let card := patch_field (PAddresses p) setAddresses card in
  let card := patch_field (PURLs p) (typed "URL") card in
  card ← (if decide (trim_space (card_Value card "FN") = "") then
            let name := structuredNameFromCard card in
            reject nameEmpty name
              with validationError "the updated contact must retain a display name or structured name" ;;
            Ok (card_SetValue card "FN" (displayFromName name))
          else Ok card);
  Ok (match card_Get card "N" with None => setName card no_name | Some _ => card end).

(** * The patch of the written form *)

Definition present {A} (o : option A) (key : string) : list string :=
  match o with Some _ => [key] | None => [] end.
Definition patchedPropertyNames (p : ContactPatch) : list string :=
  (present (PDisplayName p) "FN" ++ present (PName p) "N" ++ present (POrganization p) "ORG"
   ++ present (PTitle p) "TITLE" ++ present (PNickname p) "NICKNAME" ++ present (PBirthday p) "BDAY"
   ++ present (PNotes p) "NOTE" ++ present (PEmails p) "EMAIL" ++ present (PPhones p) "TEL"
   ++ present (PAddresses p) "ADR" ++ present (PURLs p) "URL")%list.

(** The written properties of each name, in order. *)
Definition canonicalProperties (card : Card) (names : list string) : result Error (list rawProperty) :=
  let canonical := card_SetValue ∅ "VERSION" "3.0" in
  let canonical := card_SetValue canonical "UID" "canonical-placeholder" in
  let canonical := card_SetValue canonical "FN" "canonical-placeholder" in
  let canonical := card_SetValue canonical "N" "canonical-placeholder;;;;" in
  let canonical := fold_left (λ c name,
    match card !! name with
    | Some ((_ :: _) as fields) => <[name := fields]> c
    | _ => delete name c
    end) names canonical in
  encoded ← encodeCard canonical 0;
  match decodeRawCard encoded with
  | Err _ => Err (newError CodeInternalError 0 "failed to encode the contact patch")
  | Ok (_, _, parsed) => Ok (List.filter (λ p, bool_decide (name p ∈ names)) parsed)
  end.

(** [emitted] are the selected names already written. *)
Definition write_name (replacements : list rawProperty) (n : string) (emitted : list string) : list rawProperty * list string :=
  if bool_decide (n ∈ emitted) then ([], emitted) else (named n replacements, n :: emitted).
Fixpoint write_rest (replacements : list rawProperty) (names emitted : list string) : list rawProperty * list string :=
  match names with
  | [] => ([], emitted)
  | n :: names =>
      let '(out, emitted) := write_name replacements n emitted in
      let '(out', emitted) := write_rest replacements names emitted in
      ((out ++ out')%list, emitted)
  end.
(** The loop over the properties of the card; what it writes. *)
Fixpoint splice (names : list string) (replacements : list rawProperty) (emitted : list string)
    (l : list rawProperty) : list rawProperty :=
  match l with
  | [] => []
  | property :: l =>
      let '(pending, emitted) :=
        match l with [] => write_rest replacements names emitted | _ => ([], emitted) end in
      if bool_decide (name property ∈ names) then
        let '(out, emitted) := write_name replacements (name property) emitted in
        (pending ++ out ++ splice names replacements emitted l)%list
      else (pending ++ property :: splice names replacements emitted l)%list
  end.
Definition written (l : list rawProperty) : list ascii := concat (map raw l).

Definition encodePatchedCard (props : list rawProperty) (card : Card) (patch : ContactPatch) (serverMax : Z)
    : result Error (list ascii) :=
  patched ← applyPatch card patch;
  let names := patchedPropertyNames patch in
  replacements ← canonicalProperties patched names;
  let output := written (splice names replacements [] props) in
  reject resource_limit serverMax <? zlen output with too_large ;;
  '(_, version, _) ← decodeRawCard output;
  reject negb (bool_decide (version = "3.0")) with validationError "only vCard 3.0 contacts can be updated" ;;
  Ok output.

(** * Reading model fields *)

Definition truncateUTF8 (value : string) (max : Z) : string :=
  if len value <=? max then value else str (valid_prefix (Z.to_nat max) (bytes value)).

Definition firstComponent (value : string) : string :=
  match index_byte ";"%char (bytes value) with Some i => str (take i (bytes value)) | None => value end.
(** [field.Params.Get(PREF)] through [strconv.Atoi]. *)
Definition field_pref (f : Field) : Z :=
  let value := params_Get (FieldParams f) "PREF" in
  if decide (value = "") then (if params_HasType (FieldParams f) "pref" then 1 else 100)
  else match parse_int64 value with Some n => n | None => 100 end.
Definition prefer (best : string * Z) (field : option Field) : string * Z :=
  match field with
  | None => best
  | Some f =>
      if bool_decide (trim_space (FieldValue f) = "") then best
      else if bool_decide (best.1 = "") || (field_pref f <? best.2) then (FieldValue f, field_pref f) else best
  end.
Definition fields_of (card : Card) (key : string) : list (option Field) := default [] (card !! key).
Definition preferredFormattedName (card : Card) : string :=
  (fold_left prefer (fields_of card "FN") ("", 101)).1.

Definition field_type (f : Field) : string :=
  match params_Types (FieldParams f) with t :: _ => truncateUTF8 t maxTypeBytes | [] => "" end.
Definition modeledTypedValues (fields : list (option Field)) (maxCount maxBytes : Z) : list TypedValue :=
  omap (option_map (λ f, MkTypedValue (field_type f) (truncateUTF8 (FieldValue f) maxBytes)))
       (take (Z.to_nat maxCount) fields).
Definition modeled_address (field : option Field) : option PostalAddress :=
  f ← field;
  a ← card_Address {["ADR" := [Some f]]};
  let t s := truncateUTF8 s maxTextBytes in
  Some (MkPostalAddress (field_type f) (t (aPostOfficeBox a)) (t (aExtended a)) (t (aStreet a)) (t (aLocality a))
          (t (aRegion a)) (t (aPostalCode a)) (t (aCountry a))).
Definition modeledAddresses (fields : list (option Field)) : list PostalAddress :=
  omap modeled_address (take (Z.to_nat maxAddresses) fields).

Definition cardIsGroup (card : Card) : bool :=
  bool_decide (card_Kind card = "group")
  || equal_fold (trim_space (card_Value card "X-ADDRESSBOOKSERVER-KIND")) "group".
Definition readableETag (etag : string) : string :=
  match validateServerETag etag with Ok _ => trim_space etag | Err _ => "" end.

Definition cardSummary (card : Card) (addressBook etag : string) : ContactSummary :=
  MkContactSummary addressBook (truncateUTF8 (card_Value card "UID") maxUIDBytes) (readableETag etag)
    (truncateUTF8 (preferredFormattedName card) maxDisplayNameBytes)
    (truncateUTF8 (firstComponent (card_Value card "ORG")) maxTextBytes)
    (modeledTypedValues (fields_of card "EMAIL") maxEmails maxEmailBytes)
    (modeledTypedValues (fields_of card "TEL") maxPhones maxPhoneBytes)
    (cardIsGroup card).
Definition cardDetail (card : Card) (version addressBook etag : string) : Contact :=
  let t s := truncateUTF8 s maxTextBytes in
  let birthday := card_Value card "BDAY" in
  let good := negb (bool_decide (birthday = "")) && is_ok (validateBirthday birthday) in
  MkContact (cardSummary card addressBook etag) version
    ((λ n, MkStructuredName (t (nFamily n)) (t (nGiven n)) (t (nAdditional n)) (t (nPrefix n)) (t (nSuffix n)))
     <$> card_Name card)
    (t (card_Value card "TITLE")) (t (card_Value card "NICKNAME"))
    (if good then birthday else "")
    (modeledAddresses (fields_of card "ADR"))
    (modeledTypedValues (fields_of card "URL") maxURLs maxURLBytes)
    (truncateUTF8 (card_Value card "NOTE") maxNotesBytes)
    (0 <? zlen (fields_of card "PHOTO"))
    (if negb (bool_decide (birthday = "")) && negb good then ["birthday"] else []).

(** The bytes of a random identifier as a version 4 UUID. *)
Definition uuidV4 (random : list ascii) : string :=
  let set i f := alter f i in
  let value := set 8%nat (λ c, byte_of (Z.lor (Z.land (byte_val c) 63) 128))
                 (set 6%nat (λ c, byte_of (Z.lor (Z.land (byte_val c) 15) 64)) random) in
  let part a n := str (concat (map (λ c, hex_digits 2 (byte_val c)) (take n (drop a value)))) in
  part 0%nat 4%nat ++ "-" ++ part 4%nat 2%nat ++ "-" ++ part 6%nat 2%nat ++ "-" ++ part 8%nat 2%nat ++ "-" ++ part 10%nat 6%nat.
Definition normalizeForSort (value : string) : string := to_lower (trim_space value).
End Cards.

(** * The scan splits a card into its properties *)

(** [end_line l] is the physical line [l] as it stands in the card. *)
Definition end_line (l : list ascii) : list ascii := (l ++ [lf])%list.
Definition line_ok (l : list ascii) : Prop := lf ∉ l.

Lemma split_lines_line l k : line_ok l → split_lines (end_line l ++ k) = (l :: (split_lines k).1, (split_lines k).2).
Proof.
  unfold line_ok, end_line. induction l as [|c l IH]; intros Hl; cbn [app split_lines].
  - destruct (split_lines k). by rewrite decide_True.
  - apply not_elem_of_cons in Hl as [Hc Hl]. rewrite IH by done. rewrite decide_False; [done|]. intros ->. done.
Qed.
Lemma split_lines_all ls : Forall line_ok ls → split_lines (concat (map end_line ls)) = (ls, []).
Proof. induction 1 as [|l ls Hl _ IH]; [done|]. cbn [map concat]. by rewrite split_lines_line, IH by done. Qed.
Lemma split_lines_inv l : l = (concat (map end_line (split_lines l).1) ++ (split_lines l).2)%list ∧
  Forall line_ok (split_lines l).1.
Proof.
  induction l as [|c l [IH1 IH2]]; [done|]. cbn [split_lines].
  destruct (split_lines l) as [ls rest]. cbn [fst snd] in *. case_decide as Hc.
  - subst c. cbn [fst snd map concat]. split; [by rewrite IH1 at 1|]. constructor; [by intros ?%elem_of_nil|done].
  - destruct ls as [|first ls]; cbn [fst snd map concat] in *.
    + split; [by rewrite IH1 at 1|done].
    + apply Forall_cons in IH2 as [Hf IH2]. split; [rewrite IH1 at 1; done|].
      constructor; [|done]. unfold line_ok in *. rewrite not_elem_of_cons. split; congruence.
Qed.

Definition plain_line (l : list ascii) : Prop :=
  drop_cr l ≠ [] ∧ cr ∉ drop_cr l ∧ validPhysicalLine (drop_cr l) = true.
Definition head_line (l : list ascii) : Prop := plain_line l ∧ continuation (drop_cr l) = false.
Definition fold_line (l : list ascii) : Prop := plain_line l ∧ continuation (drop_cr l) = true.

(** The text of a logical line, given its head and its continuations. *)
Definition unfolded (h : list ascii) (ts : list (list ascii)) : list ascii :=
  (drop_cr h ++ concat (map (λ t, drop 1 (drop_cr t)) ts))%list.
(** [piece p ls]: the physical lines [ls] are one property, read as [p]. *)
Definition piece (p : rawProperty) (ls : list (list ascii)) : Prop :=
  ∃ h ts, ls = h :: ts ∧ head_line h ∧ Forall fold_line ts ∧
    parseRawProperty (unfolded h ts) (concat (map end_line ls)) = Ok p.

Lemma piece_raw p ls : piece p ls → raw p = concat (map end_line ls).
Proof.
  intros (h & ts & -> & _ & _ & Hp). unfold parseRawProperty in Hp.
  repeat case_match; try done. apply bind_ok in Hp as ([? ?] & _ & Hp). apply reject_ok in Hp as (_ & Hp).
  apply bind_ok in Hp as (? & _ & [= <-]). done.
Qed.
Lemma piece_det p p' ls : piece p ls → piece p' ls → p = p'.
Proof. intros (h & ts & -> & _ & _ & Hp) (h' & ts' & [= <- <-] & _ & _ & Hp'). congruence. Qed.

(** Lines group into pieces in one way. *)
Lemma head_not_fold l : head_line l → fold_line l → False.
Proof. intros [_ H] [_ H']. congruence. Qed.
Lemma fold_span_unique ts ts' k k' :
  Forall fold_line ts → Forall fold_line ts' →
  (∀ l r, k = l :: r → head_line l) → (∀ l r, k' = l :: r → head_line l) →
  (ts ++ k = ts' ++ k')%list → ts = ts' ∧ k = k'.
Proof.
  intros Hts. revert ts'. induction Hts as [|t ts Ht Hts IH]; intros ts' Hts' Hk Hk' Heq.
  - destruct Hts' as [|t' ts' Ht' _]; [done|]. simpl in Heq. destruct (head_not_fold t'); [by eapply Hk|done].
  - destruct Hts' as [|t' ts' Ht' Hts']; simpl in Heq.
    + destruct (head_not_fold t); [by eapply Hk'|done].
    + injection Heq as <- Heq. destruct (IH ts' Hts' Hk Hk' Heq) as [-> ->]. done.
Qed.
Lemma pieces_head ps lss : Forall2 piece ps lss → ∀ l r, concat lss = l :: r → head_line l.
Proof. intros [|p ls ps' lss' (h & ts & -> & Hh & _) _] l r; simpl; [done|]. by intros [= <- _]. Qed.
Lemma pieces_unique ps ps' lss lss' :
  Forall2 piece ps lss → Forall2 piece ps' lss' → concat lss = concat lss' → ps = ps'.
Proof.
  intros Hps. revert ps' lss'. induction Hps as [|p ls ps lss Hp Hps IH]; intros ps' lss' Hps' Heq.
  - destruct Hps' as [|p' ls' ps' lss' (h & ts & -> & _) _]; [done|by simpl in Heq].
  - destruct Hps' as [|p' ls' ps' lss' Hp' Hps'].
    { destruct Hp as (h & ts & -> & _). by simpl in Heq. }
    pose proof (pieces_head _ _ Hps) as Hh. pose proof (pieces_head _ _ Hps') as Hh'.
    destruct Hp as (h & ts & -> & Hhd & Hts & Hp), Hp' as (h' & ts' & -> & _ & Hts' & Hp').
    cbn [concat app] in Heq. injection Heq as <- Heq.
    destruct (fold_span_unique ts ts' _ _ Hts Hts' Hh Hh' Heq) as [<- Heq']. f_equal; [congruence|].
    by eapply IH.
Qed.

(** What the scan has read: whole pieces and one that is still open. *)
Inductive scanned : list (list ascii) → scan → Prop :=
| scanned_start : scanned [] (MkScan [] [] [])
| scanned_open lss props h ts :
    Forall2 piece props lss → head_line h → Forall fold_line ts →
    scanned (concat lss ++ h :: ts) (MkScan (concat (map end_line (h :: ts))) (unfolded h ts) props).

Lemma flush_scanned ls s s' : scanned ls s → flush s = Ok s' →
  chunks s' = [] ∧ logical s' = [] ∧ ∃ lss, ls = concat lss ∧ Forall2 piece (properties s') lss.
Proof.
  intros Hs Hf. destruct Hs as [|lss props h ts Hps Hh Hts]; unfold flush in Hf; cbn [chunks logical properties] in Hf.
  - injection Hf as <-. split_and!; [done..|]. by exists [].
  - destruct (concat (map end_line (h :: ts))) as [|c cs] eqn:Hc.
    { cbn [map concat] in Hc. unfold end_line in Hc at 1. by destruct h. }
    rewrite <-Hc in Hf. apply bind_ok in Hf as (p & Hp & Hf). apply reject_ok in Hf as (_ & [= <-]).
    split_and!; [done..|]. exists (lss ++ [h :: ts])%list. rewrite concat_app. simpl. rewrite app_nil_r. split; [done|].
    apply Forall2_app; [done|]. constructor; [|done]. by exists h, ts.
Qed.

Lemma scan_line_scanned ls s l s' : scanned ls s → scan_line s l = Ok s' → scanned (ls ++ [l]) s'.
Proof.
  intros Hs Hstep. unfold scan_line in Hstep. apply reject_ok in Hstep as (Hl & Hstep).
  assert (Hplain : plain_line l) by (unfold plain_line; bool_to_prop; done).
  destruct (continuation (drop_cr l)) eqn:Hc.
  - apply reject_ok in Hstep as (Hopen & [= <-]). destruct Hs as [|lss props h ts Hps Hh Hts]; [done|].
    rewrite <-app_assoc. cbn [app chunks logical properties].
    assert (Heq : (concat (map end_line (h :: ts)) ++ l ++ [lf])%list = concat (map end_line (h :: ts ++ [l]))).
    { rewrite app_comm_cons, map_app, concat_app. simpl. by rewrite app_nil_r. }
    rewrite Heq. assert (Hu : (unfolded h ts ++ drop 1 (drop_cr l))%list = unfolded h (ts ++ [l])).
    { unfold unfolded. rewrite map_app, concat_app. simpl. by rewrite app_nil_r, <-app_assoc. }
    rewrite Hu. constructor; [done..|]. apply Forall_app. split; [done|]. by constructor.
  - apply bind_ok in Hstep as (s1 & Hf & [= <-]). destruct (flush_scanned _ _ _ Hs Hf) as (Hc1 & Hl1 & lss & -> & Hps).
    rewrite Hc1, Hl1. cbn [app].
    assert (Hu : drop_cr l = unfolded l []) by (unfold unfolded; simpl; by rewrite app_nil_r).
    rewrite Hu. assert (He : (l ++ [lf])%list = concat (map end_line [l])) by (simpl; by rewrite app_nil_r).
    rewrite He. by constructor.
Qed.

Lemma scan_lines_scanned lines s : fold_res scan_line lines (MkScan [] [] []) = Ok s → scanned lines s.
Proof.
  assert (∀ done s0, scanned done s0 → ∀ s, fold_res scan_line lines s0 = Ok s → scanned (done ++ lines)%list s) as Hgen.
  { induction lines as [|l lines IH]; intros ls s0 Hs s'; simpl; [intros [= <-]; by rewrite app_nil_r|].
    destruct (scan_line s0 l) as [s1|] eqn:H1; [|done]. intros H2.
    rewrite cons_middle, app_assoc. eapply IH; [by eapply scan_line_scanned|done]. }
  intros H. by apply (Hgen [] (MkScan [] [] []) scanned_start).
Qed.

(** [decomposes data ps]: [data] is the pieces of [ps], one after the other. *)
Definition decomposes (data : list ascii) (ps : list rawProperty) : Prop :=
  ∃ lss, data = concat (map end_line (concat lss)) ∧ Forall line_ok (concat lss) ∧ Forall2 piece ps lss.

Lemma parseRawCard_pieces data ps : parseRawCard data = Ok ps → decomposes data ps ∧ raw_card_ok ps = true.
Proof.
  unfold parseRawCard. intros (_ & Hp)%reject_ok. pose proof (split_lines_inv data) as [Hdata Hlines].
  destruct (split_lines data) as [lines rest]. cbn [fst snd] in *.
  apply bind_ok in Hp as (s & Hs%scan_lines_scanned & Hp). apply reject_ok in Hp as (Hrest & Hp). bool_to_prop. subst rest.
  apply bind_ok in Hp as (s1 & Hf & Hp). destruct (flush_scanned _ _ _ Hs Hf) as (_ & _ & lss & -> & Hps).
  apply bind_ok in Hp as (? & Hok & [= <-]). rewrite app_nil_r in Hdata. unfold validateRawCard in Hok.
  apply reject_ok in Hok as (Hok & _). bool_to_prop. split; [by exists lss|done].
Qed.
Lemma decomposes_unique data ps ps' : decomposes data ps → decomposes data ps' → ps = ps'.
Proof.
  intros (lss & -> & Hl & Hps) (lss' & Heq & Hl' & Hps').
  eapply pieces_unique; [done..|]. apply (f_equal split_lines) in Heq. rewrite !split_lines_all in Heq by done. congruence.
Qed.
Lemma decomposes_written data ps : decomposes data ps → written ps = data.
Proof.
  intros (lss & -> & _ & Hps). unfold written. induction Hps as [|p ls ps lss Hp _ IH]; [done|].
  cbn [map concat]. by rewrite map_app, concat_app, (piece_raw _ _ Hp), IH.
Qed.

(** [whole p]: the bytes of [p] read back as [p] alone. *)
Definition whole (p : rawProperty) : Prop := ∃ ls, piece p ls ∧ Forall line_ok ls.
Lemma decomposes_whole data ps : decomposes data ps → Forall whole ps.
Proof.
  intros (lss & _ & Hl & Hps). induction Hps as [|p ls ps lss Hp _ IH]; [done|]. cbn [concat] in Hl.
  apply Forall_app in Hl as [Hl1 Hl2]. constructor; [by exists ls|by apply IH].
Qed.
Lemma whole_decomposes ps : Forall whole ps → decomposes (written ps) ps.
Proof.
  induction 1 as [|p ps (ls & Hp & Hl) _ (lss & Hw & Hls & Hps)]; [by exists []|].
  exists (ls :: lss). unfold written in *. cbn [map concat]. rewrite map_app, concat_app, (piece_raw _ _ Hp), Hw.
  split_and!; [done|by apply Forall_app|by constructor].
Qed.

(** A card reads as its pieces, and only so. *)
Lemma parse_written ps ps' : Forall whole ps → parseRawCard (written ps) = Ok ps' → ps' = ps.
Proof. intros Hw [Hd _]%parseRawCard_pieces. eapply decomposes_unique; [done|by apply whole_decomposes]. Qed.

(** * The patch keeps what it does not replace *)

Definition unselected (names : list string) (l : list rawProperty) : list rawProperty :=
  List.filter (λ p, negb (bool_decide (name p ∈ names))) l.

Lemma named_named n m l : named n (named m l) = if decide (n = m) then named n l else [].
Proof.
  unfold named, is_named. induction l as [|p l IH]; simpl; [by case_decide|].
  destruct (bool_decide (name p = m)) eqn:Em; simpl; rewrite IH; case_decide; bool_to_prop; subst; try done.
  - by rewrite bool_decide_false.
  - by rewrite bool_decide_false by congruence.
Qed.
Lemma unselected_named names m l : m ∈ names → unselected names (named m l) = [].
Proof.
  intros Hm. unfold unselected, named, is_named. induction l as [|p l IH]; simpl; [done|].
  destruct (bool_decide (name p = m)) eqn:Em; simpl; [|done]. bool_to_prop. by rewrite bool_decide_true, IH by congruence.
Qed.
Lemma write_name_spec repl m emitted : let '(out, emitted') := write_name repl m emitted in
  (∀ n, named n out = if decide (n ∈ emitted) then [] else if decide (n = m) then named n repl else []) ∧
  (∀ n, n ∈ emitted' ↔ n ∈ emitted ∨ n = m).
Proof.
  unfold write_name. case_bool_decide; split; intros n.
  - repeat case_decide; by subst.
  - naive_solver.
  - rewrite named_named. repeat case_decide; subst; done.
  - rewrite elem_of_cons. naive_solver.
Qed.
Lemma named_app n l1 l2 : named n (l1 ++ l2) = (named n l1 ++ named n l2)%list.
Proof. apply List.filter_app. Qed.
Lemma write_rest_spec repl names emitted : let '(out, emitted') := write_rest repl names emitted in
  (∀ n, named n out = if decide (n ∈ emitted) then [] else if decide (n ∈ names) then named n repl else []) ∧
  (∀ n, n ∈ emitted' ↔ n ∈ emitted ∨ n ∈ names).
Proof.
  revert emitted; induction names as [|m names IH]; intros emitted; cbn [write_rest].
  { split; intros n; [by case_decide|set_solver]. }
  pose proof (write_name_spec repl m emitted) as H1. destruct (write_name repl m emitted) as [out emitted1].
  specialize (IH emitted1). destruct (write_rest repl names emitted1) as [out' emitted2].
  destruct H1 as [H1 H2], IH as [IH1 IH2]. split; intros n.
  - rewrite named_app, H1, IH1. destruct (decide (n ∈ emitted)) as [He|He].
    + rewrite decide_True by (apply H2; by left). done.
    + assert (H2n : n ∈ emitted1 ↔ n = m) by (rewrite H2; naive_solver).
      destruct (decide (n = m)) as [->|Hm]; destruct (decide (_ ∈ emitted1)) as [He1|He1]; try (exfalso; tauto).
      * rewrite app_nil_r, decide_True by left. done.
      * simpl.
        apply decide_ext. rewrite elem_of_cons. naive_solver.
  - rewrite IH2, H2, elem_of_cons. naive_solver.
Qed.

Lemma splice_named names repl emitted l n : n ∈ names → l ≠ [] →
  named n (splice names repl emitted l) = if decide (n ∈ emitted) then [] else named n repl.
Proof.
  intros Hn. revert emitted; induction l as [|p l IH]; intros emitted Hne; [done|]. cbn [splice].
  assert (Hsel : ∀ k, name p ∉ names → named n (p :: k) = named n k).
  { intros k Hp. unfold named at 1. cbn [List.filter]. unfold is_named at 1. rewrite bool_decide_false; [done|congruence]. }
  destruct l as [|p2 l].
  - pose proof (write_rest_spec repl names emitted) as Hr. destruct (write_rest repl names emitted) as [pending emitted1].
    destruct Hr as [Hr1 Hr2].
    pose proof (write_name_spec repl (name p) emitted1) as H1. destruct (write_name repl (name p) emitted1) as [out emitted2].
    destruct H1 as [H1 _]. case_bool_decide; cbn [splice].
    + assert (He : n ∈ emitted1) by (apply Hr2; by right).
      rewrite !named_app, Hr1, H1. destruct (decide (n ∈ emitted1)); [|done]. destruct (decide (n ∈ names)); [|done].
      simpl. by rewrite app_nil_r.
    + rewrite named_app, Hr1, Hsel by done. destruct (decide (n ∈ names)); [|done].
      simpl. by rewrite app_nil_r.
  - pose proof (write_name_spec repl (name p) emitted) as H1. destruct (write_name repl (name p) emitted) as [out emitted2].
    destruct H1 as [H1 H2]. cbn [app]. case_bool_decide.
    + rewrite named_app, H1, IH by done. destruct (decide (n ∈ emitted)) as [He|He].
      * rewrite decide_True by (apply H2; by left). done.
      * destruct (decide (n = name p)) as [->|Hm].
        -- rewrite decide_True by (apply H2; by right). by rewrite app_nil_r.
        -- rewrite decide_False by (rewrite H2; naive_solver). done.
    + rewrite Hsel by done. by apply IH.
Qed.

Lemma write_name_unselected names repl m emitted : m ∈ names → unselected names (write_name repl m emitted).1 = [].
Proof. intros Hm. unfold write_name. case_bool_decide; [done|]. by apply unselected_named. Qed.
Lemma unselected_app names l1 l2 : unselected names (l1 ++ l2) = (unselected names l1 ++ unselected names l2)%list.
Proof. apply List.filter_app. Qed.
Lemma write_rest_unselected names repl ns emitted : ns ⊆ names → unselected names (write_rest repl ns emitted).1 = [].
Proof.
  revert emitted; induction ns as [|m ns IH]; intros emitted Hsub; [done|]. cbn [write_rest].
  pose proof (write_name_unselected names repl m emitted ltac:(set_solver)) as H1.
  destruct (write_name repl m emitted) as [out emitted1]. specialize (IH emitted1 ltac:(set_solver)).
  destruct (write_rest repl ns emitted1) as [out' emitted2]. cbn [fst] in *. by rewrite unselected_app, H1, IH.
Qed.
Lemma splice_unselected names repl emitted l :
  unselected names (splice names repl emitted l) = unselected names l.
Proof.
  revert emitted; induction l as [|p l IH]; intros emitted; [done|]. cbn [splice].
  destruct (match l with [] => write_rest repl names emitted | _ => ([], emitted) end) as [pending emitted1] eqn:Hpend.
  assert (Hp : unselected names pending = []).
  { destruct l; [|by injection Hpend as <- _]. pose proof (write_rest_unselected names repl names emitted ltac:(done)) as H1.
    by rewrite Hpend in H1. }
  case_bool_decide as Hsel.
  - pose proof (write_name_unselected names repl (name p) emitted1 Hsel) as H1.
    destruct (write_name repl (name p) emitted1) as [out emitted2]. cbn [fst] in H1.
    rewrite !unselected_app, Hp, H1, IH. cbn [app unselected List.filter]. by rewrite bool_decide_true.
  - rewrite unselected_app, Hp. cbn [app unselected List.filter]. rewrite bool_decide_false by done. cbn [negb].
    f_equal. apply IH.
Qed.

Lemma whole_filter (f : rawProperty → bool) l : Forall whole l → Forall whole (List.filter f l).
Proof. rewrite !Forall_forall. intros H p Hp%list_elem_of_In%filter_In. apply H, list_elem_of_In, Hp. Qed.
Lemma write_name_whole repl m emitted : Forall whole repl → Forall whole (write_name repl m emitted).1.
Proof. intros H. unfold write_name. case_bool_decide; [constructor|]. by apply whole_filter. Qed.
Lemma write_rest_whole repl ns emitted : Forall whole repl → Forall whole (write_rest repl ns emitted).1.
Proof.
  intros H. revert emitted; induction ns as [|m ns IH]; intros emitted; [constructor|]. cbn [write_rest].
  pose proof (write_name_whole repl m emitted H). destruct (write_name repl m emitted) as [out emitted1].
  specialize (IH emitted1). destruct (write_rest repl ns emitted1). by apply Forall_app.
Qed.
Lemma splice_whole names repl emitted l : Forall whole repl → Forall whole l → Forall whole (splice names repl emitted l).
Proof.
  intros Hr Hl. revert emitted; induction Hl as [|p l Hp Hl IH]; intros emitted; [constructor|]. cbn [splice].
  destruct (match l with [] => write_rest repl names emitted | _ => ([], emitted) end) as [pending emitted1] eqn:Hpend.
  assert (Forall whole pending).
  { destruct l; [|injection Hpend as <- _; constructor]. pose proof (write_rest_whole repl names emitted Hr). by rewrite Hpend in *. }
  case_bool_decide.
  - pose proof (write_name_whole repl (name p) emitted1 Hr). destruct (write_name repl (name p) emitted1).
    rewrite !Forall_app. eauto.
  - apply Forall_app. split; [done|]. by constructor.
Qed.

Section Patch.
Context `{VCardLib}.

Lemma decodeRawCard_parse data card version props :
  decodeRawCard data = Ok (card, version, props) → parseRawCard data = Ok props.
Proof.
  unfold decodeRawCard. intros (_ & Hd)%reject_ok. apply bind_ok in Hd as (raw & Hr & Hd).
  destruct (vcard_decode data) as [[c e]|]; [|done].
  repeat (apply reject_ok in Hd as (_ & Hd)). by injection Hd as <- <- <-.
Qed.
Lemma canonical_whole card names repl : canonicalProperties card names = Ok repl → Forall whole repl.
Proof.
  unfold canonicalProperties. intros Hc. apply bind_ok in Hc as (encoded & _ & Hc).
  destruct (decodeRawCard encoded) as [[[c v] parsed]|] eqn:Hd; [|done]. injection Hc as <-.
  apply decodeRawCard_parse, parseRawCard_pieces in Hd as [Hd _]. by eapply whole_filter, decomposes_whole.
Qed.

(** (C9) Updating a contact replaces the properties the patch names and nothing
    else: in the card it writes, every other property is the same bytes in the
    same order as in the card that was read, the properties of a patched name
    are exactly the newly encoded ones, and the card is within the server's
    limit. *)
Theorem patch_preserves data props card patch serverMax out :
  parseRawCard data = Ok props → encodePatchedCard props card patch serverMax = Ok out →
  ∃ props' patched replacements,
    parseRawCard out = Ok props' ∧ written props' = out ∧ zlen out <= resource_limit serverMax ∧
    unselected (patchedPropertyNames patch) props' = unselected (patchedPropertyNames patch) props ∧
    applyPatch card patch = Ok patched ∧
    canonicalProperties patched (patchedPropertyNames patch) = Ok replacements ∧
    ∀ n, n ∈ patchedPropertyNames patch → named n props' = named n replacements.
Proof.
  intros [Hd Hok]%parseRawCard_pieces Hp. unfold encodePatchedCard in Hp.
  apply bind_ok in Hp as (patched & Hpat & Hp). apply bind_ok in Hp as (repl & Hrepl & Hp).
  apply reject_ok in Hp as (Hlim & Hp). apply bind_ok in Hp as ([[c v] props'] & Hparse%decodeRawCard_parse & Hp).
  apply reject_ok in Hp as (_ & [= <-]). bool_to_prop.
  pose proof (parse_written _ _ (splice_whole (patchedPropertyNames patch) repl [] props (canonical_whole _ _ _ Hrepl)
                (decomposes_whole _ _ Hd)) Hparse) as ->.
  exists (splice (patchedPropertyNames patch) repl [] props), patched, repl. split_and!; try done.
  - apply splice_unselected.
  - intros n Hn. rewrite splice_named; [by case_decide as Hin; [apply elem_of_nil in Hin|]|done|]. by intros ->.
Qed.

(** (C38) The raw representation of a card is the card: its properties written
    one after the other are the bytes that were read, with exactly one [BEGIN],
    one [END], a version and a UID, and no other list of properties spells the
    same bytes. *)
Theorem raw_roundtrip data props : parseRawCard data = Ok props →
  written props = data ∧ raw_card_ok props = true ∧
  ∀ props', Forall whole props' → written props' = data → props' = props.
Proof.
  intros [Hd Hok]%parseRawCard_pieces. split_and!; [by eapply decomposes_written|done|].
  intros props' Hw <-. eapply decomposes_unique; [by apply whole_decomposes|done].
Qed.
End Patch.

(** * A library to run the definitions with

    A card is read as its raw properties without parameters; it is written one
    property per line, the version first. *)
Definition put_field (c : Card) (k : string) (f : Field) : Card := <[k := (default [] (c !! k) ++ [Some f])%list]> c.
Definition first_field (c : Card) (k : string) : option Field :=
  match c !! k with Some (Some f :: _) => Some f | _ => None end.
Definition value_field (v : string) : Field := MkField v ∅.
Definition field_line (k v : string) : list ascii := (bytes k ++ ":"%char :: bytes v ++ [cr; lf])%list.
Definition plain_name (n : vName) : string :=
  join [nFamily n; nGiven n; nAdditional n; nPrefix n; nSuffix n] ";".
Definition plain_lib : VCardLib := {|
  card_Get := first_field;
  card_Value := λ c k, match first_field c k with Some f => FieldValue f | None => "" end;
  card_SetValue := λ c k v, <[k := [Some (value_field v)]]> c;
  card_Add := put_field;
  card_Name := λ _, None;
  card_SetName := λ c n, <["N" := [Some (value_field (plain_name n))]]> c;
  card_Address := λ _, None;
  card_AddAddress := λ c a, put_field c "ADR" (value_field (aStreet a));
  card_Kind := λ _, "";
  params_Get := λ _ _, "";
  params_HasType := λ _ _, false;
  params_Types := λ _, [];
  vcard_decode := λ data,
    match parseRawCard data with
    | Ok ps => Some (fold_left (λ c p, put_field c (name p) (value_field (value p)))
                       (take (length ps - 2) (drop 1 ps)) ∅, true)
    | Err _ => None
    end;
  vcard_encode := λ c,
    let lines k := concat (map (λ f, match f with Some f => field_line k (FieldValue f) | None => [] end) (default [] (c !! k))) in
    Some (field_line "BEGIN" "VCARD" ++ lines "VERSION"
          ++ concat (map (λ kv, lines kv.1) (map_to_list (delete "VERSION" c))) ++ field_line "END" "VCARD")%list;
|}.

Definition ada_card : list ascii :=
  (field_line "BEGIN" "VCARD" ++ field_line "VERSION" "3.0" ++ field_line "UID" "u-1"
   ++ field_line "X-SOCIAL;type=x" "a" ++ bytes "PHOTO:AAAA" ++ [cr; lf] ++ bytes " BBBB" ++ [lf]
   ++ field_line "NOTE" "old" ++ field_line "FN" "Ada" ++ field_line "N" "Lovelace;Ada;;;" ++ field_line "END" "VCARD")%list.
Definition ada_props : list rawProperty := match parseRawCard ada_card with Ok ps => ps | Err _ => [] end.
Definition ada_decoded : Card := match @vcard_decode plain_lib ada_card with Some (c, _) => c | None => ∅ end.
Definition note_patch : ContactPatch :=
  MkContactPatch None None None (Some "Countess") None None (Some "new") None None None None.
Definition patched_card : list ascii :=
  match @encodePatchedCard plain_lib ada_props ada_decoded note_patch 0 with Ok out => out | Err _ => [] end.

Example ada_properties : map name ada_props = ["BEGIN"; "VERSION"; "UID"; "X-SOCIAL"; "PHOTO"; "NOTE"; "FN"; "N"; "END"].
Proof. vm_compute. reflexivity. Qed.
Example ada_patched : patched_card =
  (field_line "BEGIN" "VCARD" ++ field_line "VERSION" "3.0" ++ field_line "UID" "u-1"
   ++ field_line "X-SOCIAL;type=x" "a" ++ bytes "PHOTO:AAAA" ++ [cr; lf] ++ bytes " BBBB" ++ [lf]
   ++ field_line "NOTE" "new" ++ field_line "FN" "Ada" ++ field_line "N" "Lovelace;Ada;;;"
   ++ field_line "TITLE" "Countess" ++ field_line "END" "VCARD")%list.
Proof. vm_compute. reflexivity. Qed.
Example quoted_colon : delimiterOutsideQuotes (bytes "A;x=" ++ quote_byte :: bytes ":" ++ quote_byte :: bytes ":v") ":"%char = Ok (Some 7%nat).
Proof. vm_compute. reflexivity. Qed.

Lemma patch_preserves_witness :
  parseRawCard ada_card = Ok ada_props ∧
  @encodePatchedCard plain_lib ada_props ada_decoded note_patch 0 = Ok patched_card ∧
  ∃ props', parseRawCard patched_card = Ok props' ∧
    unselected ["TITLE"; "NOTE"] props' = unselected ["TITLE"; "NOTE"] ada_props.
Proof.
  assert (H1 : parseRawCard ada_card = Ok ada_props) by (vm_compute; reflexivity).
  assert (H2 : @encodePatchedCard plain_lib ada_props ada_decoded note_patch 0 = Ok patched_card) by (vm_compute; reflexivity).
  split_and!; [exact H1|exact H2|].
  destruct (patch_preserves (H:=plain_lib) _ _ _ _ _ _ H1 H2) as (props' & p & r & Hp & _ & _ & Hu & _).
  exists props'. exact (conj Hp Hu).
Defined.
Lemma raw_roundtrip_witness : parseRawCard ada_card = Ok ada_props ∧ written ada_props = ada_card.
Proof.
  assert (H1 : parseRawCard ada_card = Ok ada_props) by (vm_compute; reflexivity).
  split; [exact H1|]. exact (proj1 (raw_roundtrip _ _ H1)).
Defined.
