(* ===== verification/ContactsXml.v ===== *)
(** DAV multistatus documents of the Contacts client
    (src/internal/contacts/xml.go, dav.go).

    The tokenizer of [encoding/xml] is the class [XMLTokens]; what the code
    does with the tokens, and how [DecodeElement] fills the tagged structs, is
    modelled here. *)
From S2P Require Import Prelude GoStrings GoTime ContactsTypes ContactsValidation ContactsUrl VCard.
Import CT.

(** * Tokens *)

Record xname := MkName { Space : string; Local : string }.
#[export] Instance xname_eq_dec : EqDecision xname.
Proof. solve_decision. Defined.
Inductive token :=
| StartElement (n : xname) (attrs : list (xname * string))
| EndElement (n : xname)
| CharData (text : list ascii)
| OtherToken.
(** The tokens of a document, and whether they end with [io.EOF] rather than
    a syntax error. *)
Class XMLTokens := { xml_tokens : list ascii → list token * bool }.

Definition davNamespace : string := "DAV:".
Definition carddavNamespace : string := "urn:ietf:params:xml:ns:carddav".
Definition maxMultiStatusXMLDepth : Z := 32.
Definition maxMultiStatusXMLTokens : Z := 100000.
Definition maxMultiStatusPropstats : Z := 8192.
Definition maxMultiStatusPropertyCount : Z := 16384.

Definition not_multistatus : Error := protocol_error "Contacts response was not a DAV multistatus document".
Definition malformed_xml : Error := protocol_error "Contacts returned malformed DAV XML".
Definition card_too_large : Error := newError CodePayloadTooLarge 0 "one vCard exceeded its byte limit".
Definition exceeded (what : string) : Error :=
  newError CodePayloadTooLarge 0 ("Contacts DAV XML exceeded its " ++ what ++ " limit").

Definition dav_named (local : string) (n : xname) : bool := bool_decide (n = MkName davNamespace local).

(** * The bounds on the structure *)

Record shape := MkShape {
  sh_depth : Z; sh_tokens : Z; sh_responses : Z; sh_propstats : Z; sh_properties : Z; sh_propDepth : Z;
  rootSeen : bool; rootClosed : bool;
}.
Definition no_shape : shape := MkShape 0 0 0 0 0 0 false false.

(** What one start tag does: [inl] is an early [return]. *)
Definition shape_start (responseLimit : Z) (n : xname) (s : shape) : result Error unit + shape :=
  let depth := sh_depth s + 1 in
  if maxMultiStatusXMLDepth <? depth then inl (Err (exceeded "depth"))
  else if rootClosed s then inl (Err malformed_xml)
  else if negb (rootSeen s) then
    if negb (dav_named "multistatus" n) then inl (Err not_multistatus)
    else inr (MkShape depth (sh_tokens s) (sh_responses s) (sh_propstats s) (sh_properties s) (sh_propDepth s) true (rootClosed s))
  else
    let responses := sh_responses s + (if dav_named "response" n then 1 else 0) in
    if dav_named "response" n && (responseLimit <? responses) then inl (Ok tt)
    else
      let propstats := sh_propstats s + (if dav_named "propstat" n then 1 else 0) in
      if dav_named "propstat" n && (maxMultiStatusPropstats <? propstats) then inl (Err (exceeded "propstat"))
      else
        let inner := negb (sh_propDepth s =? 0) && (depth =? sh_propDepth s + 1) in
        let properties := sh_properties s + (if inner then 1 else 0) in
        if inner && (maxMultiStatusPropertyCount <? properties) then inl (Err (exceeded "property"))
        else
          let propDepth := if dav_named "prop" n && (sh_propDepth s =? 0) then depth else sh_propDepth s in
          inr (MkShape depth (sh_tokens s) responses propstats properties propDepth (rootSeen s) (rootClosed s)).
Definition shape_end (n : xname) (s : shape) : shape :=
  let propDepth := if (sh_propDepth s =? sh_depth s) && dav_named "prop" n then 0 else sh_propDepth s in
  let closed := if (sh_depth s =? 1) && dav_named "multistatus" n then true else rootClosed s in
  MkShape (sh_depth s - 1) (sh_tokens s) (sh_responses s) (sh_propstats s) (sh_properties s) propDepth (rootSeen s) closed.
Definition shape_text (text : list ascii) (s : shape) : result Error unit + shape :=
  if (negb (rootSeen s) || rootClosed s) && negb (bool_decide (trim_space_b text = []))
  then inl (Err malformed_xml) else inr s.
Definition shape_token (responseLimit : Z) (t : token) (s : shape) : result Error unit + shape :=
  let s := MkShape (sh_depth s) (sh_tokens s + 1) (sh_responses s) (sh_propstats s) (sh_properties s) (sh_propDepth s)
                   (rootSeen s) (rootClosed s) in
  if maxMultiStatusXMLTokens <? sh_tokens s then inl (Err (exceeded "token"))
  else match t with
       | StartElement n _ => shape_start responseLimit n s
       | EndElement n => inr (shape_end n s)
       | CharData text => shape_text text s
       | OtherToken => inr s
       end.
Fixpoint shape_loop (responseLimit : Z) (at_eof : bool) (ts : list token) (s : shape) : result Error unit :=
  match ts with
  | [] =>
      reject negb at_eof with malformed_xml ;;
      reject negb (rootSeen s) || negb (rootClosed s) || negb (sh_depth s =? 0) with not_multistatus ;;
      Ok tt
  | t :: ts =>
      match shape_token responseLimit t s with
      | inl r => r
      | inr s => shape_loop responseLimit at_eof ts s
      end
  end.

(** * Decoding elements *)

Inductive node :=
| Elem (n : xname) (attrs : list (xname * string)) (children : list node)
| Text (text : list ascii).

(** The children up to the end of the current element, and the tokens after
    it; [None] when the tokens run out. *)
Fixpoint read_children (fuel : nat) (ts : list token) : option (list node * list token) :=
  match fuel, ts with
  | S fuel, EndElement _ :: ts => Some ([], ts)
  | S fuel, StartElement n attrs :: ts =>
      '(children, ts) ← read_children fuel ts;
      '(siblings, ts) ← read_children fuel ts;
      Some (Elem n attrs children :: siblings, ts)
  | S fuel, CharData text :: ts => '(siblings, ts) ← read_children fuel ts; Some (Text text :: siblings, ts)
  | S fuel, OtherToken :: ts => read_children fuel ts
  | _, _ => None
  end.
(** The direct text of an element. *)
Definition direct_text (children : list node) : string :=
  str (concat (map (λ c, match c with Text t => t | Elem _ _ _ => [] end) children)).
Fixpoint node_tokens (n : node) : list token :=
  match n with
  | Text t => [CharData t]
  | Elem n attrs children => (StartElement n attrs :: concat (map node_tokens children) ++ [EndElement n])%list
  end.

Record hrefProperty := MkHrefs { Hrefs : list string }.
Record resourceType := MkResourceType { IsAddressBook : bool }.
Record limitedAddressData := MkAddressData { AdValue : string; AdPresent : bool }.
Record davProp := MkProp {
  CurrentUserPrincipal : option hrefProperty;
  AddressBookHomeSet : option hrefProperty;
  PropDisplayName : string;
  AddressBookDescription : string;
  ResourceType : option resourceType;
  SupportedAddressData : option (list addressDataType);
  PropMaxResourceSize : string;
  GetETags : list string;
  AddressData : limitedAddressData;
}.
Definition no_prop : davProp := MkProp None None "" "" None None "" [] (MkAddressData "" false).
Record davPropstat := MkPropstat { PsStatus : string; PsProp : davProp }.
Record multiStatusResponse := MkResponse { RsHref : string; Propstats : list davPropstat }.

(** A field tagged with a namespace takes only elements of that namespace. *)
Definition any_ns (local : string) (n : xname) : bool := bool_decide (Local n = local).
Definition carddav (local : string) (n : xname) : bool := bool_decide (n = MkName carddavNamespace local).

Definition hrefs_of (children : list node) : list string :=
  omap (λ c, match c with
             | Elem n _ cs => if any_ns "href" n then Some (direct_text cs) else None
             | Text _ => None
             end) children.
(** A repeated element is decoded into the same struct. *)
Definition more_hrefs (old : option hrefProperty) (children : list node) : option hrefProperty :=
  Some (MkHrefs (match old with Some h => Hrefs h | None => [] end ++ hrefs_of children)%list).
Definition attr_value (local : string) (attrs : list (xname * string)) : string :=
  fold_left (λ v a, if any_ns local a.1 then a.2 else v) attrs "".
Definition data_types (children : list node) : list addressDataType :=
  omap (λ c, match c with
             | Elem n attrs _ => if carddav "address-data-type" n
                                 then Some (MkDataType (attr_value "content-type" attrs) (attr_value "version" attrs)) else None
             | Text _ => None
             end) children.
Definition has_addressbook (children : list node) : bool :=
  existsb (λ c, match c with Elem n _ _ => carddav "addressbook" n | Text _ => false end) children.

(** [limitedAddressData.UnmarshalXML]: the first end tag with the name of the
    element ends the value; if it is not the element's own, the decoder
    refuses the rest. *)
Fixpoint read_address_data (start : xname) (ts : list token) (data : list ascii) : result Error string :=
  match ts with
  | [] => Ok (str data)
  | CharData text :: ts =>
      reject maxCardBytes <? zlen data + zlen text with card_too_large ;;
      read_address_data start ts (data ++ text)%list
  | EndElement n :: ts => if decide (n = start) then Err malformed_xml else read_address_data start ts data
  | _ :: ts => read_address_data start ts data
  end.

Definition set_address_data (v : string) (p : davProp) : davProp :=
  MkProp (CurrentUserPrincipal p) (AddressBookHomeSet p) (PropDisplayName p) (AddressBookDescription p) (ResourceType p)
    (SupportedAddressData p) (PropMaxResourceSize p) (GetETags p) (MkAddressData v true).
Definition prop_child (p : davProp) (c : node) : result Error davProp :=
  match c with
  | Text _ => Ok p
  | Elem n attrs cs =>
      if any_ns "current-user-principal" n then
        Ok (MkProp (more_hrefs (CurrentUserPrincipal p) cs) (AddressBookHomeSet p) (PropDisplayName p)
              (AddressBookDescription p) (ResourceType p) (SupportedAddressData p) (PropMaxResourceSize p) (GetETags p) (AddressData p))
      else if carddav "addressbook-home-set" n then
        Ok (MkProp (CurrentUserPrincipal p) (more_hrefs (AddressBookHomeSet p) cs) (PropDisplayName p)
              (AddressBookDescription p) (ResourceType p) (SupportedAddressData p) (PropMaxResourceSize p) (GetETags p) (AddressData p))
      else if any_ns "displayname" n then
        Ok (MkProp (CurrentUserPrincipal p) (AddressBookHomeSet p) (direct_text cs)
              (AddressBookDescription p) (ResourceType p) (SupportedAddressData p) (PropMaxResourceSize p) (GetETags p) (AddressData p))
      else if carddav "addressbook-description" n then
        Ok (MkProp (CurrentUserPrincipal p) (AddressBookHomeSet p) (PropDisplayName p)
              (direct_text cs) (ResourceType p) (SupportedAddressData p) (PropMaxResourceSize p) (GetETags p) (AddressData p))
      else if any_ns "resourcetype" n then
        let old := match ResourceType p with Some r => IsAddressBook r | None => false end in
        Ok (MkProp (CurrentUserPrincipal p) (AddressBookHomeSet p) (PropDisplayName p)
              (AddressBookDescription p) (Some (MkResourceType (old || has_addressbook cs))) (SupportedAddressData p)
              (PropMaxResourceSize p) (GetETags p) (AddressData p))
      else if carddav "supported-address-data" n then
        Ok (MkProp (CurrentUserPrincipal p) (AddressBookHomeSet p) (PropDisplayName p)
              (AddressBookDescription p) (ResourceType p) (Some (default [] (SupportedAddressData p) ++ data_types cs)%list)
              (PropMaxResourceSize p) (GetETags p) (AddressData p))
      else if carddav "max-resource-size" n then
        Ok (MkProp (CurrentUserPrincipal p) (AddressBookHomeSet p) (PropDisplayName p)
              (AddressBookDescription p) (ResourceType p) (SupportedAddressData p) (direct_text cs) (GetETags p) (AddressData p))
      else if any_ns "getetag" n then
        Ok (MkProp (CurrentUserPrincipal p) (AddressBookHomeSet p) (PropDisplayName p)
              (AddressBookDescription p) (ResourceType p) (SupportedAddressData p) (PropMaxResourceSize p)
              (GetETags p ++ [direct_text cs])%list (AddressData p))
      else if carddav "address-data" n then
        v ← read_address_data n (concat (map node_tokens cs)) [];
        Ok (set_address_data v p)
      else Ok p
  end.
Definition propstat_child (ps : davPropstat) (c : node) : result Error davPropstat :=
  match c with
  | Text _ => Ok ps
  | Elem n _ cs =>
      if any_ns "status" n then Ok (MkPropstat (direct_text cs) (PsProp ps))
      else if any_ns "prop" n then p ← fold_res prop_child cs (PsProp ps); Ok (MkPropstat (PsStatus ps) p)
      else Ok ps
  end.
Definition response_child (r : multiStatusResponse) (c : node) : result Error multiStatusResponse :=
  match c with
  | Text _ => Ok r
  | Elem n _ cs =>
      if any_ns "href" n then Ok (MkResponse (direct_text cs) (Propstats r))
      else if any_ns "propstat" n then
        ps ← fold_res propstat_child cs (MkPropstat "" no_prop);
        Ok (MkResponse (RsHref r) (Propstats r ++ [ps])%list)
      else Ok r
  end.

(** The loop of [decodeMultiStatus]; the flag is the overflow. *)
Fixpoint decode_loop (fuel : nat) (responseLimit : Z) (at_eof inRoot : bool) (responses : list multiStatusResponse)
    (ts : list token) : result Error (list multiStatusResponse * bool) :=
  match fuel with
  | O => Err malformed_xml
  | S fuel =>
      match ts with
      | [] =>
          reject negb at_eof with malformed_xml ;;
          reject negb inRoot with not_multistatus ;;
          Ok (responses, false)
      | StartElement n _ :: ts =>
          if negb inRoot then
            reject negb (dav_named "multistatus" n) with not_multistatus ;;
            decode_loop fuel responseLimit at_eof true responses ts
          else if dav_named "response" n then
            if responseLimit <=? zlen responses then Ok (responses, true)
            else match read_children (S (length ts)) ts with
                 | None => Err malformed_xml
                 | Some (children, ts) =>
                     response ← fold_res response_child children (MkResponse "" []);
                     decode_loop fuel responseLimit at_eof inRoot (responses ++ [response])%list ts
                 end
          else decode_loop fuel responseLimit at_eof inRoot responses ts
      | _ :: ts => decode_loop fuel responseLimit at_eof inRoot responses ts
      end
  end.

Section Documents.
Context `{XMLTokens}.

Definition validateMultiStatusXML (data : list ascii) (responseLimit : Z) : result Error unit :=
  let '(ts, at_eof) := xml_tokens data in shape_loop responseLimit at_eof ts no_shape.
Definition decodeMultiStatus (data : list ascii) (responseLimit : Z) : result Error (list multiStatusResponse * bool) :=
  validateMultiStatusXML data responseLimit;;
  let '(ts, at_eof) := xml_tokens data in
  decode_loop (S (length ts)) responseLimit at_eof false [] ts.

(** [davPreconditions]: the conditions, and whether the body is malformed. *)
Fixpoint precondition_loop (ts : list token) (inError : bool) : list string :=
  match ts with
  | [] => []
  | StartElement n _ :: ts =>
      if decide (Local n = "error") then precondition_loop ts true
      else if inError then Local n :: precondition_loop ts inError else precondition_loop ts inError
  | EndElement n :: ts => precondition_loop ts (if decide (Local n = "error") then false else inError)
  | _ :: ts => precondition_loop ts inError
  end.
Definition davPreconditions (body : list ascii) : list string * bool :=
  if decide (trim_space_b body = []) then ([], false)
  else let '(ts, at_eof) := xml_tokens body in
       if at_eof then (precondition_loop ts false, false) else ([], true).
End Documents.

(** * Statuses and merged properties *)

(** [strings.Fields]. *)
Fixpoint fields_loop (fuel : nat) (word l : list ascii) : list (list ascii) :=
  match fuel with
  | O => []
  | S fuel =>
      match strip_one spaces l with
      | Some l' => match word with [] => fields_loop fuel [] l' | _ => word :: fields_loop fuel [] l' end
      | None => match l with
                | [] => match word with [] => [] | _ => [word] end
                | c :: l => fields_loop fuel (word ++ [c])%list l
                end
      end
  end.
Definition Fields (s : string) : list (list ascii) := fields_loop (S (length (bytes s))) [] (bytes s).

(** The major version [http.ParseHTTPVersion] reads. *)
Definition http_major (l : list ascii) : option Z :=
  match l with
  | [h; t1; t2; p; sl; a; d; b] =>
      if bool_decide ([h; t1; t2; p; sl] = bytes "HTTP/") && is_digit a && bool_decide (d = "."%char) && is_digit b
      then Some (digit_val a) else None
  | _ => None
  end.
Definition statusIsOK (status : string) : bool :=
  if contains_any status cr_lf then false
  else match Fields status with
       | version :: code :: _ =>
           bool_decide (code = bytes "200") && bool_decide (http_major version = Some 1)
       | _ => false
       end.

Definition merge_hrefs (old new : option hrefProperty) : option hrefProperty :=
  match new with
  | None => old
  | Some n => Some (MkHrefs (match old with Some o => Hrefs o | None => [] end ++ Hrefs n)%list)
  end.
Definition prefer_text (new old : string) : string := if decide (new = "") then old else new.
Definition prefer_some {A} (new old : option A) : option A := match new with Some _ => new | None => old end.
Definition merge_prop (m p : davProp) : davProp :=
  MkProp (merge_hrefs (CurrentUserPrincipal m) (CurrentUserPrincipal p))
    (merge_hrefs (AddressBookHomeSet m) (AddressBookHomeSet p))
    (prefer_text (PropDisplayName p) (PropDisplayName m))
    (prefer_text (AddressBookDescription p) (AddressBookDescription m))
    (prefer_some (ResourceType p) (ResourceType m))
    (prefer_some (SupportedAddressData p) (SupportedAddressData m))
    (prefer_text (PropMaxResourceSize p) (PropMaxResourceSize m))
    (GetETags m ++ GetETags p)%list
    (if AdPresent (AddressData p) then AddressData p else AddressData m).
Definition successfulProp (r : multiStatusResponse) : option davProp :=
  match List.filter (λ ps, statusIsOK (PsStatus ps)) (Propstats r) with
  | [] => None
  | good => Some (fold_left (λ m ps, merge_prop m (PsProp ps)) good no_prop)
  end.
(** [strongETagFromResponse]: [None] is an invalid property. *)
Definition strongETagFromResponse (r : multiStatusResponse) : option string :=
  one_etag (concat (map (λ ps, GetETags (PsProp ps)) (List.filter (λ ps, statusIsOK (PsStatus ps)) (Propstats r)))).

Definition properties_hrefs (select : davProp → option hrefProperty) (rows : list multiStatusResponse) : list string :=
  concat (omap (λ r, p ← successfulProp r; Hrefs <$> select p) rows).

Example status_ok : statusIsOK "HTTP/1.1 200 OK" = true.
Proof. vm_compute. reflexivity. Qed.
Example status_404 : statusIsOK "HTTP/1.1 404 Not Found" = false.
Proof. vm_compute. reflexivity. Qed.

(** * Decoding a document *)

(** The fuel of [read_children] covers its tokens: a tree written as tokens
    reads as itself, whatever follows it. *)
Lemma read_children_tokens fuel cs n rest :
  (length (concat (map node_tokens cs)) < fuel)%nat →
  read_children fuel (concat (map node_tokens cs) ++ EndElement n :: rest) = Some (cs, rest).
Proof.
  revert cs n rest. induction (lt_wf fuel) as [fuel _ IH]. intros cs n rest Hlen.
  destruct fuel as [|fuel]; [lia|]. destruct cs as [|[m attrs ch|t] cs]; [done| |].
  - cbn [map concat node_tokens] in Hlen |- *. rewrite <-!app_comm_cons. cbn [read_children].
    rewrite <-!app_assoc. cbn [app]. rewrite !length_app in Hlen. cbn [length] in Hlen. rewrite !length_app in Hlen. cbn [length] in Hlen.
    rewrite (IH fuel) by lia. cbn [mbind option_bind].
    rewrite (IH fuel) by lia. done.
  - cbn [map concat node_tokens app read_children] in Hlen |- *. cbn [length] in Hlen.
    rewrite (IH fuel) by lia. done.
Qed.

Lemma read_children_shorter fuel ts cs rest :
  read_children fuel ts = Some (cs, rest) → (length rest < length ts)%nat.
Proof.
  revert ts cs rest; induction fuel as [|fuel IH]; intros ts cs rest; [done|]. destruct ts as [|t ts]; [done|].
  cbn [read_children]. destruct t as [m attrs|m|t|].
  - destruct (read_children fuel ts) as [[ch ts1]|] eqn:H1; [|done]. cbn [mbind option_bind].
    destruct (read_children fuel ts1) as [[sib ts2]|] eqn:H2; [|done]. intros [= <- <-].
    apply IH in H1, H2. simpl. lia.
  - intros [= <- <-]. simpl. lia.
  - destruct (read_children fuel ts) as [[ch ts1]|] eqn:H1; [|done]. intros [= <- <-]. apply IH in H1. simpl. lia.
  - intros H1%IH. simpl. lia.
Qed.

(** The limit bounds the rows, whatever the document. *)
Lemma decode_loop_bounded fuel limit at_eof inRoot rows ts rows' overflow :
  zlen rows <= Z.max 0 limit → decode_loop fuel limit at_eof inRoot rows ts = Ok (rows', overflow) →
  zlen rows' <= Z.max 0 limit.
Proof.
  revert inRoot rows ts; induction fuel as [|fuel IH]; intros inRoot rows ts Hrows; [done|]. cbn [decode_loop].
  destruct ts as [|[n attrs|n|t|] ts]; [|..]; try by apply IH.
  - intros (_ & H)%reject_ok. apply reject_ok in H as (_ & [= <- _]). done.
  - destruct inRoot; cbn [negb]; [|intros (_ & H)%reject_ok; by eapply IH].
    destruct (dav_named "response" n); [|by apply IH]. destruct (limit <=? zlen rows) eqn:Hl; [by intros [= <- _]|].
    bool_to_prop. destruct (read_children _ ts) as [[cs ts']|]; [|done].
    intros (r & _ & H)%bind_ok. eapply IH; [|exact H]. rewrite zlen_app. unfold zlen in *. simpl. lia.
Qed.

(** A [response] element of the document. *)
Definition response_node (attrs : list (xname * string)) (children : list node) : node :=
  Elem (MkName davNamespace "response") attrs children.
Definition decode_row (rows : list multiStatusResponse) (row : list (xname * string) * list node)
    : result Error (list multiStatusResponse) :=
  r ← fold_res response_child row.2 (MkResponse "" []); Ok (rows ++ [r])%list.
Definition rows_tokens (rows : list (list (xname * string) * list node)) : list token :=
  concat (map (λ row, node_tokens (response_node row.1 row.2)) rows).

Lemma rows_tokens_cons attrs cs rows :
  rows_tokens ((attrs, cs) :: rows) =
  (StartElement (MkName davNamespace "response") attrs :: concat (map node_tokens cs)
   ++ EndElement (MkName davNamespace "response") :: rows_tokens rows)%list.
Proof. unfold rows_tokens. cbn [map concat fst snd response_node node_tokens]. by rewrite <-app_comm_cons, <-app_assoc. Qed.

Lemma decode_loop_rows fuel limit rows0 rows root :
  (length (rows_tokens rows) + 1 < fuel)%nat → 0 <= limit → zlen rows0 <= limit →
  decode_loop fuel limit true true rows0 (rows_tokens rows ++ [EndElement root]) =
  (λ rs, (rs, limit <? zlen rows0 + zlen rows)) <$> fold_res decode_row (take (Z.to_nat (limit - zlen rows0)) rows) rows0.
Proof.
  intros Hf H0 Hr0. revert fuel rows0 Hf Hr0; induction rows as [|[attrs cs] rows IH]; intros fuel rows0 Hf Hr0.
  - destruct fuel as [|[|fuel]]; [simpl in Hf; lia..|]. cbn. rewrite take_nil. cbn.
    assert (Hz : limit <? zlen rows0 + zlen (@nil (list (xname * string) * list node)) = false)
      by (apply Z.ltb_ge; unfold zlen at 2; simpl; lia). by rewrite Hz.
  - destruct fuel as [|fuel]; [lia|]. rewrite rows_tokens_cons in Hf |- *. rewrite zlen_cons.
    cbn [length] in Hf. rewrite !length_app in Hf. cbn [length] in Hf.
    rewrite <-!app_comm_cons. cbn [decode_loop negb].
    change (dav_named "response" (MkName davNamespace "response")) with true. cbn iota.
    destruct (limit <=? zlen rows0) eqn:Hl; bool_to_prop.
    { replace (Z.to_nat (limit - zlen rows0)) with O by lia. cbn. pose proof (zlen_nonneg rows).
      by rewrite (proj2 (Z.ltb_lt limit (zlen rows0 + (1 + zlen rows)))) by lia. }
    rewrite <-!app_assoc. cbn [app]. rewrite read_children_tokens
      by (rewrite length_app; simpl; lia).
    replace (Z.to_nat (limit - zlen rows0)) with (S (Z.to_nat (limit - zlen rows0 - 1))) by lia.
    cbn [take fold_res]. unfold decode_row at 1. cbn [snd].
    destruct (fold_res response_child cs (MkResponse "" [])) as [r|e]; cbn [mbind result_bind]; [|done].
    rewrite IH; [|lia|rewrite zlen_app; change (zlen [r]) with 1; lia].
    rewrite zlen_app. change (zlen [r]) with 1.
    replace (zlen rows0 + 1 + zlen rows) with (zlen rows0 + (1 + zlen rows)) by lia.
    by replace (limit - (zlen rows0 + 1)) with (limit - zlen rows0 - 1) by lia.
Qed.

Section Decode.
Context `{XMLTokens}.

(** A multistatus document that passes the structural bounds decodes to
    the rows it spells, in order, at most the limit of them; the overflow flag
    tells exactly whether the document had more. *)
Theorem decode_document data root_attrs rows limit :
  let root := MkName davNamespace "multistatus" in
  xml_tokens data = (StartElement root root_attrs :: rows_tokens rows ++ [EndElement root], true)%list →
  validateMultiStatusXML data limit = Ok tt → 0 <= limit →
  decodeMultiStatus data limit =
  (λ rs, (rs, limit <? zlen rows)) <$> fold_res decode_row (take (Z.to_nat limit) rows) [].
Proof.
  intros root Hts Hv Hl. unfold decodeMultiStatus. rewrite Hv. cbn [mbind result_bind]. rewrite Hts.
  cbn [decode_loop negb]. change (dav_named "multistatus" root) with true. cbn [negb].
  rewrite decode_loop_rows; [|cbn [length]; rewrite length_app; simpl; lia|done|unfold zlen; simpl; lia].
  change (zlen (@nil multiStatusResponse)) with 0. by rewrite Z.sub_0_r, Z.add_0_l.
Qed.
End Decode.

(** * Witness *)
Definition sample_rows : list (list (xname * string) * list node) :=
  let dav l := MkName davNamespace l in
  let row href := ([], [Elem (dav "href") [] [Text (bytes href)]; Text (bytes " ");
     Elem (dav "propstat") [] [Elem (dav "prop") [] [Elem (dav "getetag") [] [Text (bytes "e1")];
                                                     Elem (MkName carddavNamespace "address-data") [] [Text (bytes "BEGIN"); Text (bytes ":")]];
                               Elem (dav "status") [] [Text (bytes "HTTP/1.1 200 OK")]]]) in
  [row "/a.vcf"; row "/b.vcf"].
Definition sample_xml : XMLTokens :=
  {| xml_tokens := λ _, (StartElement (MkName davNamespace "multistatus") [] :: rows_tokens sample_rows
                           ++ [EndElement (MkName davNamespace "multistatus")], true)%list |}.
Lemma decode_document_witness :
  ∃ rs, @decodeMultiStatus sample_xml [] 1 = Ok (rs, true) ∧ map RsHref rs = ["/a.vcf"] ∧
        map (λ r, AdValue (AddressData (default no_prop (successfulProp r)))) rs = ["BEGIN:"].
Proof.
  eexists. rewrite (decode_document (H:=sample_xml) [] [] sample_rows 1);
    [split; [vm_compute; reflexivity|split; vm_compute; reflexivity]|reflexivity|vm_compute; reflexivity|lia].
Defined.
