(* ===== verification/ContactsDav.v ===== *)
(** CardDAV requests: admission, redirects, retries and the classification of
    their failures (src/internal/contacts/dav.go).

    The transport, the rate limiters, the semaphore, timers and the request
    context are the class [DavNet] on the outside state [W]; the log records
    what [doDAV] does with them. *)
From S2P Require Import Prelude GoStrings GoTime NetUrl ContactsTypes ContactsValidation ContactsUrl VCard ContactsXml Tools.
Import CT.

Definition maxRedirects : Z := 3.
Definition maxReadAttempts : Z := 3.
Definition maxRateWait : Z := 2 * second.
Definition maxErrorBodyBytes : Z := 65536.

Record HttpRequest := MkHttpRequest {
  hq_method : string; hq_url : string; hq_header : list (string * string); hq_body : list ascii;
}.
(** [Header.Values]; the URL and the method of [resp.Request]; the bytes of the
    body and whether reading them ends in an error. *)
Record HttpResponse := MkHttpResponse {
  hp_status : Z; hp_header : string → list string; hp_request : option (option URL * string);
  hp_body : option (list ascii * bool);
}.
Definition header_get (h : string → list string) (key : string) : string :=
  match h key with v :: _ => v | [] => "" end.
Record davResponse := MkDavResponse {
  RespStatus : Z; RespHeader : string → list string; RespBody : list ascii; RespURL : URL;
}.

Class DavNet (W : Type) := {
  (** The response, and whether [Do] returned an error. *)
  http_do : HttpRequest → W → W * (option HttpResponse * bool);
  (** [ctx.Err() != nil]. *)
  ctx_ended : W → W * bool;
  (** [Reserve] on the write or the read limiter: not [OK], or the delay. *)
  limiter_reserve : bool → W → W * option Z;
  reservation_cancel : W → W;
  (** A timer against the end of the context: true when the context won. *)
  dav_timer : Z → W → W * bool;
  (** A slot of the semaphore against the end of the context. *)
  slot_acquire : W → W * bool;
  slot_release : W → W;
  (** [http.ParseTime] followed by [time.Until]. *)
  until_http_time : string → W → option Z;
}.

Inductive action := Acquired | Sent (req : HttpRequest) | ClosedBody | Released | Waited (d : Z).

Definition isRedirect (status : Z) : bool := (status =? 301) || (status =? 302) || (status =? 307) || (status =? 308).
Definition isRetryStatus (status : Z) : bool := (status =? 429) || (status =? 502) || (status =? 503) || (status =? 504).
Definition isAmbiguousMutationStatus (status : Z) : bool :=
  if (status =? 408) || (status =? 504) then true else 500 <=? status.

Definition reconciliation : string :=
  "For create, search for client_uid if one was supplied. For update or delete, re-read the contact by UID before deciding whether to retry.".
Definition mutationOutcomeUnknown (status : Z) : Error :=
  MkError CodeOutcomeUnknown status
    "the contact mutation outcome is unknown; reconcile the contact state before retrying" false 0 reconciliation.
Definition isWrite (method : string) : bool := bool_decide (method = "PUT") || bool_decide (method = "DELETE").

Section Dav.
Context {W : Type} `{DavNet W} `{UnicodeTables} `{XMLTokens}.
Context (allowHost : option (string → bool)) (http_configured : bool).

Abbreviation St := (W * list action)%type.
Definition log (a : action) : M St Error unit := λ st, ((st.1, st.2 ++ [a])%list, Ok tt).
(** A call that only acts on the outside. *)
Definition outside {A} (f : W → W * A) : M St Error A := λ st, let '(w, a) := f st.1 in ((w, st.2), Ok a).

Definition clamp_delay (d max : Z) : Z := Z.min (Z.max d 0) max.
(** [retryAfter]; [attempt] is 1 or 2. *)
Definition retryAfter (header : string → list string) (attempt : Z) (w : W) : Z :=
  let maxDelay := 2 * second in
  let value := trim_space (header_get header "Retry-After") in
  let fallback := Z.min (wrap64 (250000000 * wrap64 (Z.shiftl 1 (attempt - 1)))) maxDelay in
  if decide (value = "") then fallback
  else match parse_int64 value with
       | Some seconds => clamp_delay (wrap64 (seconds * second)) maxDelay
       | None => match until_http_time value w with
                 | Some d => clamp_delay d maxDelay
                 | None => fallback
                 end
       end.

Definition waitAttempt (write : bool) : M St Error unit :=
  let kind := if write then "write" else "read" in
  let exceeded := "Contacts " ++ kind ++ " rate limit exceeded" in
  reservation ← outside (limiter_reserve write);
  match reservation with
  | None => fail (newError CodeRateLimited 429 exceeded)
  | Some delay =>
      if maxRateWait <? delay then
        outside (λ w, (reservation_cancel w, tt));;
        fail (MkError CodeRateLimited 429 exceeded true (Z.min delay (60 * second)) "")
      else if delay <=? 0 then mret tt
      else
        ended ← outside (dav_timer delay);
        if ended : bool then
          outside (λ w, (reservation_cancel w, tt));;
          fail (newError CodeTimeout 0 "the Contacts request timed out while waiting for its rate limit")
        else log (Waited delay)
  end.
Definition acquire : M St Error unit :=
  got ← outside slot_acquire;
  if got : bool then log Acquired
  else fail (newError CodeTimeout 0 "the Contacts request timed out while waiting for network capacity").
Definition release : M St Error unit := outside (λ w, (slot_release w, tt));; log Released.
Definition waitRetry (delay : Z) : M St Error unit :=
  ended ← outside (dav_timer delay);
  if ended : bool then fail (newError CodeTimeout 0 "the Contacts request timed out during retry backoff")
  else log (Waited delay).

(** [defer c.release()]: the slot is given back on every path. *)
Definition with_slot {A} (m : M St Error A) : M St Error A :=
  λ st, let '(st, r) := m st in let '(st, _) := release st in (st, r).
Definition close_body (resp : HttpResponse) : M St Error unit :=
  match hp_body resp with Some _ => log ClosedBody | None => mret tt end.

(** What is read of a body through [io.LimitReader(body, cap+1)]. *)
Definition read_limited (cap : Z) (body : list ascii * bool) : list ascii * bool :=
  if cap <? zlen body.1 then (take (Z.to_nat (cap + 1)) body.1, false) else body.

(** The part of one attempt after the transport returned a response. *)
Definition on_response (method : string) (current : URL) (redirects bodyCap : Z) (selectedBook : option URL)
    (resp : HttpResponse) : M St Error (davResponse + URL) :=
  let write := isWrite method in
  let status := hp_status resp in
  let responseURL := match hp_request resp with Some (Some u, _) => u | _ => current end in
  let moved := match hp_request resp with
               | Some (u, m) => bool_decide (u = None) || negb (bool_decide (url_string responseURL = url_string current))
                                || negb (bool_decide (m = method))
               | None => false
               end in
  if moved then
    close_body resp;;
    fail (if write then mutationOutcomeUnknown 0 else protocol_error "the HTTP doer followed an automatic redirect")
  else
    match validateURL allowHost responseURL with
    | Err e => close_body resp;; fail e
    | Ok _ =>
        if write && (300 <=? status) && (status <? 400) then close_body resp;; fail (mutationOutcomeUnknown status)
        else if isRedirect status then
          let location := header_get (hp_header resp) "Location" in
          close_body resp;;
          fail_if ((maxRedirects <=? redirects) || bool_decide (location = ""))
            (newError CodeProtocolError status "Contacts redirect limit exceeded or Location was missing");;
          nextURL ← lift (resolveAndValidate allowHost responseURL location);
          fail_if (match selectedBook with
                   | Some book => negb (urlWithin nextURL book (bool_decide (method = "REPORT")))
                   | None => false
                   end) (newError CodeProtocolError status "Contacts redirect is outside its selected address book");;
          mret (inr nextURL)
        else if (300 <=? status) && (status <? 400) then
          close_body resp;; fail (newError CodeProtocolError status "Contacts received an unsupported redirect status")
        else if write && isAmbiguousMutationStatus status then close_body resp;; fail (mutationOutcomeUnknown status)
        else
          let readCap := if bodyCap <=? 0 then maxErrorBodyBytes else bodyCap in
          let '(data, readErr) := match hp_body resp with Some b => read_limited readCap b | None => ([], false) end in
          close_body resp;;
          if readErr then
            if write then mret (inl (MkDavResponse status (hp_header resp) [] responseURL))
            else fail (newError CodeUnavailable 0 "failed to read the Contacts response")
          else if readCap <? zlen data then
            if write && (Z.quot status 100 =? 2) then mret (inl (MkDavResponse status (hp_header resp) [] responseURL))
            else fail (newError CodePayloadTooLarge status "the Contacts response exceeded its byte limit")
          else mret (inl (MkDavResponse status (hp_header resp) data responseURL))
    end.

Definition attempt (method : string) (current : URL) (headers : list (string * string)) (body : list ascii)
    (redirects bodyCap : Z) (selectedBook : option URL) : M St Error (davResponse + URL) :=
  let write := isWrite method in
  fail_if (negb (bool_decide (is_Some (Parse (url_string current)))))
    (newError CodeInternalError 0 "failed to build a Contacts request");;
  let req := MkHttpRequest method (url_string current) headers body in
  log (Sent req);;
  '(resp, doErr) ← outside (http_do req);
  if doErr : bool then
    match resp with Some r => close_body r | None => mret tt end;;
    if write then fail (mutationOutcomeUnknown 0)
    else
      ended ← outside ctx_ended;
      if ended : bool then fail (newError CodeTimeout 0 "the Contacts request timed out")
      else fail (MkError CodeUnavailable 0 "iCloud Contacts is temporarily unavailable" true 0 "")
  else match resp with
       | None => fail (if write then mutationOutcomeUnknown 0 else protocol_error "Contacts HTTP doer returned no response")
       | Some resp => on_response method current redirects bodyCap selectedBook resp
       end.

Fixpoint dav_loop (fuel : nat) (method : string) (current : URL) (headers : list (string * string)) (body : list ascii)
    (bodyCap : Z) (selectedBook : option URL) (redirects retries : Z) : M St Error davResponse :=
  match fuel with
  | O => fail (newError CodeInternalError 0 "")
  | S fuel =>
      let write := isWrite method in
      lift (validateURL allowHost current);;
      fail_if (match selectedBook with
               | Some book => negb (urlWithin current book (bool_decide (method = "REPORT")))
               | None => false
               end) (protocol_error "Contacts request is outside its selected address book");;
      waitAttempt write;;
      acquire;;
      outcome ← with_slot (attempt method current headers body redirects bodyCap selectedBook);
      match outcome with
      | inr next => dav_loop fuel method next headers body bodyCap selectedBook (redirects + 1) retries
      | inl result =>
          if negb write && isRetryStatus (RespStatus result) && (retries + 1 <? maxReadAttempts) then
            let retries := retries + 1 in
            delay ← outside (λ w, (w, retryAfter (RespHeader result) retries w));
            waitRetry delay;;
            dav_loop fuel method current headers body bodyCap selectedBook redirects retries
          else mret result
      end
  end.
(** At most three redirects and two retries: six rounds. *)
Definition dav_rounds : nat := 6.
Definition doDAV (method : string) (target : URL) (headers : list (string * string)) (body : list ascii)
    (bodyCap : Z) (selectedBook : option URL) : M St Error davResponse :=
  fail_if (negb http_configured) (newError CodeInternalError 0 "Contacts HTTP doer is not configured");;
  (match selectedBook with Some book => lift (validateURL allowHost book) | None => mret tt end);;
  dav_loop dav_rounds method target headers body bodyCap selectedBook 0 0.

(** [nil] is [None]. *)
Definition classifyDAVError (resp : davResponse) (create : bool) : option Error :=
  let status := RespStatus resp in
  if Z.quot status 100 =? 2 then None
  else if status =? 412 then
    Some (if create then newError CodeConflict status "a contact resource already exists at the create target"
          else newError CodeConcurrentModification status "the contact changed since it was read")
  else
    let '(preconditions, malformed) := davPreconditions (RespBody resp) in
    let known c :=
      if decide (c = "no-uid-conflict") then Some (newError CodeConflict status "the contact UID conflicts with an existing contact")
      else if decide (c = "valid-address-data") then Some (newError CodeValidation status "the server rejected the vCard data")
      else if decide (c = "max-resource-size") then Some (newError CodePayloadTooLarge status "the contact exceeds the server resource limit")
      else None in
    match omap known preconditions with
    | e :: _ => Some e
    | [] =>
        Some (if malformed || negb (bool_decide (preconditions = []))
              then newError CodeProtocolError status "iCloud Contacts returned an unknown DAV precondition"
              else classifyStatus status)
    end.
End Dav.

(** * The log *)

Section EmitsOutside.
Context {W : Type}.
Abbreviation St := (W * list action)%type.
Lemma emits_outside {A} (f : W → W * A) (Q : list action → result Error A → Prop) :
  (∀ a, Q [] (Ok a)) → emits (outside f : M St Error A) Q.
Proof. intros HQ st. unfold outside. destruct (f st.1) as [w a]. exists []. split; [by rewrite app_nil_r|apply HQ]. Qed.
Lemma emits_log a (Q : list action → result Error unit → Prop) : Q [a] (Ok tt) → emits (log a : M St Error unit) Q.
Proof. intros HQ st. exists [a]. split; [done|exact HQ]. Qed.
End EmitsOutside.

(** * Slots and requests *)

(** The slot discipline: a request is sent and its body closed while the slot
    is held, waiting happens without it, and it is given back in the end. *)
Fixpoint slots_ok (held : bool) (l : list action) : bool :=
  match l with
  | [] => negb held
  | Acquired :: l => negb held && slots_ok true l
  | Released :: l => held && slots_ok false l
  | (Sent _ | ClosedBody) :: l => held && slots_ok held l
  | Waited _ :: l => negb held && slots_ok held l
  end.
Definition is_sent (a : action) : bool := match a with Sent _ => true | _ => false end.
Definition sent_count (l : list action) : nat := length (List.filter is_sent l).
Lemma sent_requests_app l1 l2 : sent_count (l1 ++ l2) = (sent_count l1 + sent_count l2)%nat.
Proof. unfold sent_count. by rewrite List.filter_app, length_app. Qed.

Lemma slots_ok_app b l1 l2 : slots_ok b l1 = true → slots_ok false l2 = true → slots_ok b (l1 ++ l2) = true.
Proof.
  revert b; induction l1 as [|a l1 IH]; intros b; simpl; [by destruct b|].
  destruct a; intros [? ?]%andb_prop ?; apply andb_true_intro; eauto.
Qed.
Definition waits (l : list action) : Prop := Forall (λ a, ∃ d, a = Waited d) l.
Lemma waits_ok l : waits l → slots_ok false l = true ∧ sent_count l = 0%nat.
Proof. induction 1 as [|a l [d ->] _ [IH1 IH2]]; [done|]. done. Qed.
Definition closes (l : list action) : Prop := Forall (λ a, a = ClosedBody) l.
Lemma closes_ok l : closes l → slots_ok true (l ++ [Released]) = true ∧ sent_count l = 0%nat.
Proof. induction 1 as [|a l -> _ [IH1 IH2]]; [done|]. done. Qed.
Lemma closes_app l1 l2 : closes l1 → closes l2 → closes (l1 ++ l2).
Proof. unfold closes. rewrite Forall_app. done. Qed.

Section DavProofs.
Context {W : Type} `{DavNet W} `{UnicodeTables} `{XMLTokens}.
Context (allowHost : option (string → bool)) (http_configured : bool).
Abbreviation St := (W * list action)%type.

Lemma emits_close_body (resp : HttpResponse) :
  emits (close_body resp : M St Error unit) (λ l r, closes l ∧ r = Ok tt).
Proof.
  unfold close_body. destruct (hp_body resp); [apply emits_log|apply emits_ret]; (split; [|done]); by repeat constructor.
Qed.
(** [close_body; k]. *)
Lemma emits_close {A} (resp : HttpResponse) (k : M St Error A) (P : result Error A → Prop) :
  emits k (λ l r, closes l ∧ P r) → emits (close_body resp;; k) (λ l r, closes l ∧ P r).
Proof.
  intros Hk. eapply emits_bind; [apply emits_close_body|by intros ? ? [_ [=]]|].
  intros l [] [Hl _]. eapply emits_weaken; [exact Hk|]. intros l' r [? ?]. split; [by apply closes_app|done].
Qed.

(** How a write that was dispatched can fail: its outcome is unknown, or the
    server's answer was a definite rejection too long to read, or the answer
    came from a URL that is no Contacts URL. *)
Definition definite_rejection (e : Error) : Prop :=
  ErrCode e = CodePayloadTooLarge ∧ Z.quot (Status e) 100 ≠ 2 ∧
  ¬ (300 <= Status e < 400) ∧ isAmbiguousMutationStatus (Status e) = false.
Definition write_failure (e : Error) : Prop :=
  (ErrCode e = CodeOutcomeUnknown ∧ Retryable e = false) ∨ definite_rejection e ∨
  ∃ u, validateURL allowHost u = Err e.
(** A value of an attempt: a write never follows a redirect and returns only a
    status that settles it. *)
Definition settled (status : Z) : Prop := ¬ (300 <= status < 400) ∧ isAmbiguousMutationStatus status = false.
Definition attempt_result (method : string) (redirects : Z) (book : option URL) (r : result Error (davResponse + URL)) : Prop :=
  match r with
  | Ok (inr next) =>
      isWrite method = false ∧ redirects < maxRedirects ∧ validateURL allowHost next = Ok tt
  | Ok (inl resp) => isWrite method = true → settled (RespStatus resp)
  | Err e => isWrite method = true → write_failure e
  end.

Lemma on_response_emits method current redirects cap book resp :
  emits (on_response allowHost method current redirects cap book resp : M St Error _)
    (λ l r, closes l ∧ attempt_result method redirects book r).
Proof.
  assert (Hnil : closes []) by constructor.
  unfold on_response. set (u := match hp_request resp with Some (Some u, _) => u | _ => current end).
  destruct (match hp_request resp with Some (u', m) => _ | None => false end).
  { apply emits_close, emits_fail. split; [done|]. intros ->. left. done. }
  destruct (validateURL allowHost u) as [[]|e] eqn:Hu.
  2:{ apply emits_close, emits_fail. split; [done|]. intros _. right. right. eauto. }
  destruct (isWrite method && (300 <=? hp_status resp) && (hp_status resp <? 400)) eqn:Hw3.
  { apply emits_close, emits_fail. split; [done|]. intros _. left. done. }
  assert (Hred : isWrite method = true → ¬ (300 <= hp_status resp < 400)).
  { intros Hw [? ?]. rewrite Hw in Hw3. cbn [andb] in Hw3. apply andb_false_iff in Hw3 as [?|?]; bool_to_prop; lia. }
  destruct (isRedirect (hp_status resp)) eqn:Hir.
  { apply emits_close. assert (Hnw : isWrite method = false).
    { destruct (isWrite method); [|done]. exfalso. apply Hred; [done|]. unfold isRedirect in Hir.
      repeat (apply orb_prop in Hir as [Hir|Hir]); bool_to_prop; lia. }
    eapply (emits_silent _ _ (λ r, r = Ok tt → redirects < maxRedirects)).
    - apply emits_fail_if; [done|]. intros Hc. split; [done|]. intros _. bool_to_prop. lia.
    - intros e _. split; [done|]. simpl. by rewrite Hnw.
    - intros [] Hlt. eapply (emits_silent _ _ (λ r, r = resolveAndValidate allowHost u (header_get (hp_header resp) "Location"))).
      + by apply emits_lift.
      + intros e _. split; [done|]. simpl. by rewrite Hnw.
      + intros next Hnext. eapply (emits_silent _ _ (λ _, True)); [by apply emits_fail_if| |].
        * intros e _. split; [done|]. simpl. by rewrite Hnw.
        * intros [] _. apply emits_ret. split; [done|]. simpl. split_and!; [done|by apply Hlt|].
          unfold resolveAndValidate in Hnext. symmetry in Hnext. apply reject_ok in Hnext as (_ & Hnext).
          destruct (Parse _); [|done]. apply bind_ok in Hnext as ([] & Hv & [= <-]). exact Hv. }
  destruct ((300 <=? hp_status resp) && (hp_status resp <? 400)) eqn:H3.
  { apply emits_close, emits_fail. split; [done|]. intros Hw. exfalso. apply Hred; [done|]. bool_to_prop. lia. }
  destruct (isWrite method && isAmbiguousMutationStatus (hp_status resp)) eqn:Hamb.
  { apply emits_close, emits_fail. split; [done|]. intros _. left. done. }
  assert (Hset : isWrite method = true → settled (hp_status resp)).
  { intros Hw. split; [by apply Hred|]. rewrite Hw in Hamb. exact Hamb. }
  destruct (match hp_body resp with Some b => _ | None => _ end) as [data readErr].
  apply emits_close. destruct readErr.
  { destruct (isWrite method) eqn:Hw; [apply emits_ret|apply emits_fail]; (split; [done|]); simpl; [auto|by rewrite Hw]. }
  destruct (_ <? zlen data) eqn:Hlen; [|apply emits_ret; by split].
  destruct (isWrite method && (Z.quot (hp_status resp) 100 =? 2)) eqn:H2.
  - apply emits_ret. by split.
  - apply emits_fail. split; [done|]. intros Hw. right. left. split; [done|]. rewrite Hw in H2. cbn [andb] in H2. bool_to_prop.
    destruct (Hset Hw). by split_and!.
Qed.

Lemma attempt_emits method current headers body redirects cap book :
  emits (attempt allowHost method current headers body redirects cap book : M St Error _)
    (λ l r, (l = [] ∧ is_ok r = false) ∨
            ∃ cs, l = Sent (MkHttpRequest method (url_string current) headers body) :: cs ∧ closes cs ∧
                  attempt_result method redirects book r).
Proof.
  unfold attempt. set (req := MkHttpRequest _ _ _ _). set (Q := λ l r, _ ∨ _).
  eapply (emits_silent _ _ (λ _, True)); [by apply emits_fail_if|by left|]. intros [] _.
  eapply (emits_bind _ _ (λ l r, l = [Sent req] ∧ r = Ok tt)); [by apply emits_log|by intros ? ? [_ [=]]|].
  intros l [] [-> _].
  assert (Hsuff : ∀ m : M St Error (davResponse + URL), emits m (λ l r, closes l ∧ attempt_result method redirects book r) →
    emits m (λ l' r, Q ([Sent req] ++ l')%list r)).
  { intros m Hm. eapply emits_weaken; [exact Hm|]. intros l r [? ?]. right. by exists l. }
  apply Hsuff. eapply (emits_silent _ _ (λ r, is_ok r = true)); [by apply emits_outside|done|]. intros [resp doErr] _.
  assert (Hnil : closes []) by constructor. destruct doErr.
  - eapply (emits_bind _ _ (λ l r, closes l ∧ r = Ok tt)).
    + destruct resp; [apply emits_close_body|by apply emits_ret].
    + by intros ? ? [_ [=]].
    + intros l [] [Hl _]. eapply (emits_weaken _ (λ l' r, closes l' ∧ attempt_result method redirects book r));
        [|intros l' r [? ?]; split; [by apply closes_app|done]].
      destruct (isWrite method) eqn:Hw; [apply emits_fail; split; [done|]; intros _; by left|].
      eapply (emits_silent _ _ (λ r, is_ok r = true)); [by apply emits_outside|done|]. intros ended _.
      destruct ended; apply emits_fail; (split; [done|]); simpl; by rewrite Hw.
  - destruct resp as [resp|]; [apply on_response_emits|]. apply emits_fail. split; [done|]. intros ->. by left.
Qed.

Lemma with_slot_emits {A} (m : M St Error A) (P : list action → result Error A → Prop) :
  emits m P → emits (with_slot m) (λ l r, ∃ l', l = (l' ++ [Released])%list ∧ P l' r).
Proof.
  intros Hm st. destruct (Hm st) as (l & Hl & HP). unfold with_slot. destruct (m st) as [st1 r]. cbn [fst snd] in *.
  exists (l ++ [Released])%list. unfold release, outside, log, mbind, M_bind. cbn in Hl |- *. split; [by rewrite Hl, <-app_assoc|by exists l].
Qed.
Lemma waitAttempt_emits write : emits (waitAttempt write : M St Error unit) (λ l _, waits l).
Proof.
  assert (Hnil : waits []) by constructor. unfold waitAttempt.
  eapply (emits_silent _ _ (λ r, is_ok r = true)); [by apply emits_outside|done|]. intros [delay|] _; [|by apply emits_fail].
  destruct (maxRateWait <? delay).
  { eapply (emits_silent _ _ (λ r, is_ok r = true)); [by apply emits_outside|done|]. intros _ _. by apply emits_fail. }
  destruct (delay <=? 0); [by apply emits_ret|].
  eapply (emits_silent _ _ (λ r, is_ok r = true)); [by apply emits_outside|done|]. intros [] _.
  - eapply (emits_silent _ _ (λ r, is_ok r = true)); [by apply emits_outside|done|]. intros _ _. by apply emits_fail.
  - apply emits_log. repeat constructor. by eexists.
Qed.
Lemma acquire_emits : emits (acquire : M St Error unit) (λ l r, l = if is_ok r then [Acquired] else []).
Proof.
  unfold acquire. eapply (emits_silent _ _ (λ r, is_ok r = true)); [by apply emits_outside|done|].
  intros [] _; [by apply emits_log|by apply emits_fail].
Qed.
Lemma waitRetry_emits d : emits (waitRetry d : M St Error unit) (λ l _, waits l).
Proof.
  unfold waitRetry. eapply (emits_silent _ _ (λ r, is_ok r = true)); [by apply emits_outside|done|].
  intros [] _; [by apply emits_fail; constructor|]. apply emits_log. repeat constructor. by eexists.
Qed.

(** * The loop *)

Definition confined (method : string) (headers : list (string * string)) (body : list ascii) (book : option URL) (a : action) : Prop :=
  match a with
  | Sent req => hq_method req = method ∧ hq_header req = headers ∧ hq_body req = body ∧ ∃ u, hq_url req = url_string u ∧ validateURL allowHost u = Ok tt ∧
      ∀ b, book = Some b → urlWithin u b (bool_decide (method = "REPORT")) = true
  | _ => True
  end.
Definition rounds (redirects retries : Z) : nat :=
  Z.to_nat (1 + (maxRedirects - redirects) + (maxReadAttempts - 1 - retries)).
Definition loop_ok (method : string) (headers : list (string * string)) (body : list ascii) (book : option URL) (redirects retries : Z) (l : list action)
    (r : result Error davResponse) : Prop :=
  slots_ok false l = true ∧ Forall (confined method headers body book) l ∧
  (sent_count l <= if isWrite method then 1 else rounds redirects retries)%nat ∧
  (isWrite method = true →
     match r with Ok resp => settled (RespStatus resp) | Err e => sent_count l = 0%nat ∨ write_failure e end).

Lemma waits_confined method headers body book l : waits l → Forall (confined method headers body book) l.
Proof. intros Hl. eapply Forall_impl; [exact Hl|]. by intros a [d ->]. Qed.
Lemma closes_confined method headers body book l : closes l → Forall (confined method headers body book) l.
Proof. intros Hl. eapply Forall_impl; [exact Hl|]. by intros a ->. Qed.
Lemma waits_loop_err method headers body book redirects retries l e :
  waits l → loop_ok method headers body book redirects retries l (Err e).
Proof.
  intros Hl. destruct (waits_ok l Hl) as [Hq1 Hq2]. split_and!; [done|by apply waits_confined|lia|by left].
Qed.

(** One round: waiting, then the slot around one attempt. *)
Definition round_log (method : string) (headers : list (string * string)) (body : list ascii) (book : option URL) (l : list action) (n : nat) : Prop :=
  slots_ok false l = true ∧ Forall (confined method headers body book) l ∧ sent_count l = n.
Lemma round_sent method current headers body book ws cs :
  waits ws → closes cs → validateURL allowHost current = Ok tt →
  (∀ b, book = Some b → urlWithin current b (bool_decide (method = "REPORT")) = true) →
  round_log method headers body book
    (ws ++ [Acquired] ++ (Sent (MkHttpRequest method (url_string current) headers body) :: cs) ++ [Released]) 1.
Proof.
  intros Hw Hc Hv Hb. destruct (waits_ok ws Hw) as [Hw1 Hw2], (closes_ok cs Hc) as [Hc1 Hc2]. split_and!.
  - apply slots_ok_app; [done|]. cbn [app slots_ok negb andb]. exact Hc1.
  - rewrite !Forall_app, !Forall_cons. split_and!; [by apply waits_confined|done|done| |by apply closes_confined|done|done].
    split_and!; [done..|]. by exists current.
  - rewrite !sent_requests_app, Hw2. cbn. unfold sent_count in *. cbn. by rewrite Hc2.
Qed.
Lemma round_unsent method headers body book ws : waits ws → round_log method headers body book (ws ++ [Acquired] ++ [] ++ [Released]) 0.
Proof.
  intros Hw. destruct (waits_ok ws Hw) as [Hw1 Hw2]. split_and!.
  - by apply slots_ok_app.
  - rewrite !Forall_app, !Forall_cons. split_and!; [by apply waits_confined|done..].
  - by rewrite !sent_requests_app, Hw2.
Qed.
Lemma round_then method headers body book redirects retries redirects' retries' l1 l2 r :
  round_log method headers body book l1 1 → isWrite method = false → loop_ok method headers body book redirects' retries' l2 r →
  (S (rounds redirects' retries') <= rounds redirects retries)%nat → loop_ok method headers body book redirects retries (l1 ++ l2)%list r.
Proof.
  intros (Hq1 & Hq2 & Hq3) Hw (Hq4 & Hq5 & Hq6 & _) Hr. rewrite Hw in Hq6. split_and!.
  - by apply slots_ok_app.
  - by apply Forall_app.
  - rewrite sent_requests_app, Hw. lia.
  - by rewrite Hw.
Qed.

Lemma round_ends method headers body book redirects retries l n r :
  round_log method headers body book l n → (n <= 1)%nat → (1 <= rounds redirects retries)%nat →
  (isWrite method = true → match r with Ok resp => settled (RespStatus resp) | Err e => n = 0%nat ∨ write_failure e end) →
  loop_ok method headers body book redirects retries l r.
Proof.
  intros (Hq1 & Hq2 & Hq3) Hn Hr Hw. split_and!; [done|done|destruct (isWrite method); lia|].
  intros Hwr. specialize (Hw Hwr). destruct r; [done|]. by rewrite Hq3.
Qed.

Lemma loop_emits fuel method current headers body cap book redirects retries :
  0 <= redirects <= maxRedirects → 0 <= retries <= maxReadAttempts - 1 →
  emits (dav_loop allowHost fuel method current headers body cap book redirects retries : M St Error _)
    (loop_ok method headers body book redirects retries).
Proof.
  unfold maxRedirects, maxReadAttempts.
  revert current redirects retries; induction fuel as [|fuel IH]; intros current redirects retries Hred Hret; cbn [dav_loop].
  { apply emits_fail, waits_loop_err. constructor. }
  assert (Hrd : (1 <= rounds redirects retries)%nat) by (unfold rounds, maxRedirects, maxReadAttempts; lia).
  eapply (emits_silent _ _ (λ r, r = validateURL allowHost current)); [by apply emits_lift|intros; apply waits_loop_err; constructor|].
  intros [] Hv. symmetry in Hv.
  eapply (emits_silent _ _ (λ r, r = Ok tt → ∀ b, book = Some b → urlWithin current b (bool_decide (method = "REPORT")) = true));
    [apply emits_fail_if; [done|]; intros Hc; split; [done|]; intros _ b ->; by apply negb_false_iff|
     intros; apply waits_loop_err; constructor|].
  intros [] Hb. specialize (Hb eq_refl).
  eapply emits_bind; [apply waitAttempt_emits|intros; by apply waits_loop_err|]. intros ws [] Hws.
  eapply emits_bind; [apply acquire_emits| |].
  { intros l e ->. cbn [is_ok]. rewrite app_nil_r. by apply waits_loop_err. }
  intros la [] ->. cbn [is_ok].
  eapply emits_bind; [apply with_slot_emits, attempt_emits| |].
  { intros l e (l' & -> & [[-> _]|(cs & -> & Hcs & Hres)]).
    - eapply round_ends; [by apply round_unsent|lia|done|]. by left.
    - eapply round_ends; [by apply round_sent|lia|done|]. intros Hw. right. by apply Hres. }
  intros l res (l' & -> & [[_ Hres]|(cs & -> & Hcs & Hres)]); [done|].
  assert (Happ : ∀ k, (ws ++ [Acquired] ++ ((Sent (MkHttpRequest method (url_string current) headers body) :: cs) ++ [Released]) ++ k)%list
    = ((ws ++ [Acquired] ++ (Sent (MkHttpRequest method (url_string current) headers body) :: cs) ++ [Released]) ++ k)%list)
    by (intros; by rewrite <-!app_assoc).
  pose proof (round_sent method current headers body book ws cs Hws Hcs Hv Hb) as Hround.
  destruct res as [resp|next].
  - destruct (_ && (retries + 1 <? maxReadAttempts)) eqn:Hc.
    + unfold maxReadAttempts in Hc. bool_to_prop.
      eapply (emits_silent _ _ (λ r, is_ok r = true)); [by apply emits_outside|done|]. intros d _.
      eapply emits_bind; [apply waitRetry_emits| |].
      * intros wl e Hwl. rewrite Happ. destruct (waits_ok wl Hwl) as [Hq1 Hq2], Hround as (Hr1 & Hr2 & Hr3).
        split_and!; [by apply slots_ok_app|apply Forall_app; split; [done|by apply waits_confined]| |intros Hw; congruence].
        rewrite sent_requests_app, Hr3, Hq2. destruct (isWrite method); lia.
      * intros wl [] Hwl. eapply emits_weaken; [apply (IH current redirects (retries + 1)); lia|]. intros l2 r Hl2.
        rewrite Happ. eapply (round_then _ _ _ _ _ _ redirects (retries + 1)); [exact Hround|done| |].
        { destruct (waits_ok wl Hwl) as [Hq1 Hq2], Hl2 as (Hl1 & Hl3 & Hl4 & Hl5).
          split_and!; [by apply slots_ok_app|apply Forall_app; split; [by apply waits_confined|done]| |intros Hw; congruence].
          by rewrite sent_requests_app, Hq2. }
        unfold rounds, maxRedirects, maxReadAttempts. lia.
    + apply emits_ret. rewrite Happ, app_nil_r. by eapply round_ends.
  - destruct Hres as (Hw & Hlt & _). unfold maxRedirects in Hlt.
    eapply emits_weaken; [apply (IH next (redirects + 1) retries); lia|]. intros l2 r Hl2. rewrite Happ.
    eapply (round_then _ _ _ _ _ _ (redirects + 1) retries); [exact Hround|done..|].
    unfold rounds, maxRedirects, maxReadAttempts. lia.
Qed.

Lemma doDAV_emits method target headers body cap book :
  emits (doDAV allowHost http_configured method target headers body cap book : M St Error _)
    (loop_ok method headers body book 0 0).
Proof.
  unfold doDAV. eapply (emits_silent _ _ (λ _, True)); [by apply emits_fail_if|intros; apply waits_loop_err; constructor|].
  intros [] _. eapply (emits_silent _ _ (λ _, True)).
  - destruct book; [by apply emits_lift|by apply emits_ret].
  - intros. apply waits_loop_err. constructor.
  - intros [] _. by apply loop_emits.
Qed.

(** (C24) Every request [doDAV] sends is the one it was asked for and goes
    to a validated URL (https, allowed lowercase host, port 443, a path without
    traversal), inside the selected address book when there is one, whatever
    redirects the server answers.  A write is sent at most once, a read at most
    six times; each request holds a slot, which is always given back; and a
    write that was sent returns either a status that settles it or an error
    that leaves the outcome unknown, a definite rejection, or a refused answer
    URL. *)
Theorem dav_requests method target headers body cap book w :
  let '((w', l), r) := doDAV allowHost http_configured method target headers body cap book (w, []) in
  Forall (confined method headers body book) l ∧ slots_ok false l = true ∧
  (sent_count l <= if isWrite method then 1 else 6)%nat ∧
  (isWrite method = true →
     match r with Ok resp => settled (RespStatus resp) | Err e => sent_count l = 0%nat ∨ write_failure e end).
Proof.
  destruct (doDAV_emits method target headers body cap book (w, [])) as (l & Hl & Hq1 & Hq2 & Hq3 & Hq4).
  destruct (doDAV _ _ _ _ _ _ _ _ _) as [[w' lg] r]. cbn [fst snd app the_log log_second] in *. subst lg.
  split_and!; [done|done| |done]. destruct (isWrite method); [done|]. by vm_compute in Hq3.
Qed.

Lemma bind_ext_emits {A B} (m : M St Error A) (f g : A → M St Error B) P :
  emits m P → (∀ l a, P l (Ok a) → ∀ st, f a st = g a st) → ∀ st, (m ≫= f) st = (m ≫= g) st.
Proof.
  intros Hm Hfg st. destruct (Hm st) as (l & _ & HP). unfold mbind, M_bind.
  destruct (m st) as [st' [a|e]]; [|done]. cbn [snd] in HP. by eapply Hfg.
Qed.

(** Six rounds are enough: more fuel never changes what the loop does. *)
Lemma dav_loop_fuel n m method current headers body cap book redirects retries :
  0 <= redirects <= maxRedirects → 0 <= retries <= maxReadAttempts - 1 →
  (rounds redirects retries <= n)%nat → (rounds redirects retries <= m)%nat →
  ∀ st, dav_loop allowHost n method current headers body cap book redirects retries st =
        dav_loop allowHost m method current headers body cap book redirects retries st.
Proof.
  unfold maxRedirects, maxReadAttempts.
  revert m current redirects retries; induction n as [|n IH]; intros m current redirects retries Hred Hret Hn Hm.
  { unfold rounds, maxRedirects, maxReadAttempts in Hn. lia. }
  destruct m as [|m]; [unfold rounds, maxRedirects, maxReadAttempts in Hm; lia|]. cbn [dav_loop].
  eapply bind_ext_emits; [apply (emits_lift _ (λ _ _, True)); done|]. intros ? ? _.
  eapply bind_ext_emits; [by apply (emits_fail_if _ _ (λ _ _, True))|]. intros ? ? _.
  eapply bind_ext_emits; [apply waitAttempt_emits|]. intros ? ? _.
  eapply bind_ext_emits; [apply acquire_emits|]. intros ? ? _.
  eapply bind_ext_emits; [apply with_slot_emits, attempt_emits|].
  intros lg res (l' & -> & [[_ Hres]|(cs & -> & Hcs & Hres)]); [done|]. destruct res as [resp|next].
  - destruct (_ && (retries + 1 <? maxReadAttempts)) eqn:Hc; [|done]. unfold maxReadAttempts in Hc. bool_to_prop.
    eapply bind_ext_emits; [by apply (emits_outside _ (λ _ _, True))|]. intros ? ? _.
    eapply bind_ext_emits; [apply waitRetry_emits|]. intros ? ? _.
    apply IH; try lia; unfold rounds, maxRedirects, maxReadAttempts in *; lia.
  - destruct Hres as (_ & Hlt & _). unfold maxRedirects in Hlt.
    apply IH; try lia; unfold rounds, maxRedirects, maxReadAttempts in *; lia.
Qed.
End DavProofs.
