(* ===== verification/ContactsClient.v ===== *)
(** The CardDAV client: discovery, search, and the operations on one contact
    (src/internal/contacts/client.go, discovery.go, operations.go).

    A computation acts on the cached discovery, the outside state and the log
    of [doDAV].  A dereference of a nil pointer is the failure [Panicked]. *)
From S2P Require Import Prelude GoStrings GoTime GoEncode NetUrl ContactsTypes ContactsValidation ContactsUrl VCard.
From S2P Require Import ContactsXml Tools ContactsDav.
Import CT.

Definition maxAddressBooks : Z := 100.
Definition maxCardsScanned : Z := 2000.
Definition maxPropfindBytes : Z := 8388608.
Definition maxReportBytes : Z := 33554432.
Definition maxResultBytes : Z := 262144.

Inductive failure := Failed (e : Error) | Panicked.

Record bookRecord := MkBook { public : AddressBook; book_url : URL }.
Record discoveryState := MkDiscovery { books : list bookRecord; byID : gmap string bookRecord; homes : list URL }.
Record addressObject := MkObject {
  ob_url : URL; ob_card : Card; ob_raw : option (list rawProperty); ob_version : string; ob_etag : string;
}.
Record propfindResult := MkPropfind { pf_rows : list multiStatusResponse; pf_url : URL; pf_overflow : bool }.

(** [sort.Slice]: sorted, the order of equal elements left open. *)
Class SortSlice := {
  sort_slice {A} : (A → A → bool) → list A → list A;
  sort_slice_perm {A} (less : A → A → bool) l : sort_slice less l ≡ₚ l;
}.
#[refine] Definition stable_slice : SortSlice := {| sort_slice := λ _ less l, stable_sort less l |}.
Proof. intros. apply stable_sort_Permutation. Defined.

(** [len(json.Marshal(v))], [None] for an error; [mime.ParseMediaType]; the
    values of a card; [rand.Read] of 16 bytes. *)
Class JsonLen (A : Type) := { json_len : A → option Z }.
Class MediaTypes := { parse_media_type : string → option string }.
Class CardValues := { card_Values : Card → string → list string }.
Class Rand (W : Type) := { rand_read : W → W * option (list ascii) }.
Definition resultFits {A} `{JsonLen A} (v : A) : bool :=
  match json_len v with Some n => n <=? maxResultBytes | None => false end.

(** * Queries *)

(** [xml.EscapeText]. *)
Definition in_character_range (r : Z) : bool :=
  (r =? 9) || (r =? 10) || (r =? 13) || ((32 <=? r) && (r <=? 55295)) || ((57344 <=? r) && (r <=? 65533))
  || ((65536 <=? r) && (r <=? 1114111)).
Definition escape_rune (raw : list ascii) (rw : Z * nat) : list ascii :=
  let r := rw.1 in
  if r =? 34 then bytes "&#34;" else if r =? 39 then bytes "&#39;" else if r =? 38 then bytes "&amp;"
  else if r =? 60 then bytes "&lt;" else if r =? 62 then bytes "&gt;" else if r =? 9 then bytes "&#x9;"
  else if r =? 10 then bytes "&#xA;" else if r =? 13 then bytes "&#xD;"
  else if negb (in_character_range r) || ((r =? rune_error) && (rw.2 =? 1)%nat) then encode_rune rune_error
  else raw.
Fixpoint escape_runes (rs : list (Z * nat)) (l : list ascii) : list ascii :=
  match rs with
  | [] => []
  | rw :: rs => escape_rune (take rw.2 l) rw ++ escape_runes rs (drop rw.2 l)
  end.
Definition xmlEscape (s : string) : string := str (escape_runes (runes (bytes s)) (bytes s)).

(** An attribute in double quotes. *)
Definition quoted (s : string) : string := str [quote_byte] ++ s ++ str [quote_byte].
Definition query_open : string :=
  "<?xml version=" ++ quoted "1.0" ++ " encoding=" ++ quoted "UTF-8" ++ "?>"
  ++ "<C:addressbook-query xmlns:D=" ++ quoted "DAV:" ++ " xmlns:C=" ++ quoted carddavNamespace ++ ">"
  ++ "<D:prop><D:getetag/><C:address-data/></D:prop>".
Definition text_match (property value : string) : string :=
  "<C:prop-filter name=" ++ quoted property ++ "><C:text-match collation=" ++ quoted "i;unicode-casemap"
  ++ " match-type=" ++ quoted "contains" ++ ">" ++ xmlEscape value ++ "</C:text-match></C:prop-filter>".
Definition searchQuery (opts : ContactSearch) (limit : Z) : string :=
  let filter :=
    if negb (bool_decide (OptQuery opts = "")) then
      "<C:filter test=" ++ quoted "anyof" ++ ">"
      ++ join (map (λ p, text_match p (OptQuery opts)) ["FN"; "N"; "EMAIL"; "TEL"; "ORG"]) "" ++ "</C:filter>"
    else if negb (bool_decide (OptEmail opts = "")) then
      "<C:filter>" ++ text_match "EMAIL" (OptEmail opts) ++ "</C:filter>"
    else "<C:filter><C:prop-filter name=" ++ quoted "VERSION" ++ "/></C:filter>" in
  query_open ++ filter ++ "<C:limit><C:nresults>" ++ fmt_int limit ++ "</C:nresults></C:limit>" ++ "</C:addressbook-query>".
Definition uidQuery (uid : string) : string :=
  query_open ++ "<C:filter><C:prop-filter name=" ++ quoted "UID" ++ "><C:text-match collation=" ++ quoted "i;unicode-casemap"
  ++ " match-type=" ++ quoted "equals" ++ ">" ++ xmlEscape uid ++ "</C:text-match></C:prop-filter></C:filter>"
  ++ "<C:limit><C:nresults>2</C:nresults></C:limit>" ++ "</C:addressbook-query>".

Definition propfind_open (carddav : bool) : string :=
  "<?xml version=" ++ quoted "1.0" ++ " encoding=" ++ quoted "UTF-8" ++ "?>" ++ str [lf]
  ++ "<D:propfind xmlns:D=" ++ quoted "DAV:" ++ (if carddav then " xmlns:C=" ++ quoted carddavNamespace else "") ++ "><D:prop>".
Definition principalPropfind : string := propfind_open false ++ "<D:current-user-principal/></D:prop></D:propfind>".
Definition homeSetPropfind : string := propfind_open true ++ "<C:addressbook-home-set/></D:prop></D:propfind>".
Definition addressBooksPropfind : string :=
  propfind_open true ++ "<D:resourcetype/><D:displayname/><C:addressbook-description/><C:supported-address-data/><C:max-resource-size/></D:prop></D:propfind>".

Section Client.
Context {W : Type} `{DavNet W} `{Rand W} `{UnicodeTables} `{XMLTokens} `{VCardLib} `{CardValues} `{MediaTypes}
        `{SortSlice} `{MapOrder}.
Context `{JsonLen (list AddressBook)} `{JsonLen Contact} `{JsonLen ContactResults}.
Context (allowHost : option (string → bool)) (http_configured : bool) (baseURL : string).

(** The client's cache, the outside and the log. *)
Abbreviation CS := (option discoveryState * (W * list action))%type.
Abbreviation C := (M CS failure).
Definition err {A} (e : Error) : C A := fail (Failed e).
Definition check (r : result Error unit) : C unit := lift (match r with Ok u => Ok u | Err e => Err (Failed e) end).
Definition of_result {A} (r : result Error A) : C A := lift (match r with Ok a => Ok a | Err e => Err (Failed e) end).
Definition dav (method : string) (target : URL) (headers : list (string * string)) (body : list ascii) (cap : Z)
    (book : option URL) : C davResponse :=
  λ st, let '(w, r) := doDAV allowHost http_configured method target headers body cap book st.2 in
        ((st.1, w), match r with Ok a => Ok a | Err e => Err (Failed e) end).
(** [return nil, err] where [err] may itself be nil. *)
Definition nil_or_error {A} (e : option Error) : C (option A) :=
  match e with Some e => err e | None => mret None end.
(** A field of a pointer that may be nil. *)
Definition deref {A} (p : option A) : C A := match p with Some a => mret a | None => fail Panicked end.

(** * Discovery *)

Definition propfind (target : URL) (depth body : string) (rowLimit : Z) : C (option propfindResult) :=
  response ← dav "PROPFIND" target
    [("Content-Type", "application/xml; charset=" ++ quoted "utf-8"); ("Depth", depth)] (bytes body) maxPropfindBytes None;
  if negb (RespStatus response =? 207) then nil_or_error (classifyDAVError response false)
  else
    '(rows, overflow) ← of_result (decodeMultiStatus (RespBody response) rowLimit);
    mret (Some (MkPropfind rows (RespURL response) overflow)).

Definition add_home (base : URL) (acc : list URL * list string) (href : string) : C (list URL * list string) :=
  home ← of_result (resolveAndValidate allowHost base href);
  let key := canonicalURL home in
  if bool_decide (key ∈ acc.2) then err (protocol_error "Contacts discovery returned a duplicate home set")
  else mret ((acc.1 ++ [home])%list, key :: acc.2).

Definition write_version (prop : davProp) (versions : list string) : string :=
  match SupportedAddressData prop with
  | None => "3.0"
  | Some types => if bool_decide (types = []) || bool_decide ("3.0" ∈ versions) then "3.0" else ""
  end.
(** The books found so far and the keys of their collections. *)
Abbreviation found := (list bookRecord * gmap string bookRecord * list string)%type.
Definition add_book (home responseURL : URL) (acc : found) (row : multiStatusResponse) : C found :=
  let '(books, byID, seen) := acc in
  match successfulProp row with
  | None => mret acc
  | Some prop =>
      if negb (match ResourceType prop with Some r => IsAddressBook r | None => false end) then mret acc
      else
        collection ← of_result (resolveAndValidate allowHost responseURL (RsHref row));
        if negb (urlWithin collection home true) then
          err (protocol_error "Contacts discovery returned an address book outside its home set")
        else
          let key := canonicalURL collection in
          if bool_decide (key ∈ seen) then err (protocol_error "Contacts discovery returned a duplicate address book")
          else if maxAddressBooks <=? zlen books then
            err (newError CodePayloadTooLarge 0 "Contacts discovery exceeded the address-book limit")
          else
            let versions := match SupportedAddressData prop with Some types => sortedVersions types | None => [] end in
            maxSize ← (if decide (PropMaxResourceSize prop = "") then mret 0
                       else match parse_int64 (trim_space (PropMaxResourceSize prop)) with
                            | Some n => if n <? 0 then err (protocol_error "Contacts returned an invalid maximum resource size") else mret n
                            | None => err (protocol_error "Contacts returned an invalid maximum resource size")
                            end);
            let id := opaqueBookID collection in
            if bool_decide (is_Some (byID !! id)) then err (protocol_error "Contacts address-book identifier collision")
            else
              let record := MkBook (MkAddressBook id (truncateUTF8 (PropDisplayName prop) maxDisplayNameBytes)
                                      (truncateUTF8 (AddressBookDescription prop) maxNotesBytes) versions
                                      (write_version prop versions) maxSize) collection in
              mret ((books ++ [record])%list, <[id := record]> byID, key :: seen)
  end.
Definition scan_home (acc : found) (home : URL) : C found :=
  let '(books, _, _) := acc in
  let remaining := maxAddressBooks - zlen books in
  response ← propfind home "1" addressBooksPropfind (remaining + 2);
  response ← deref response;
  acc ← foldM (add_book home (pf_url response)) (pf_rows response) acc;
  if pf_overflow response then err (newError CodePayloadTooLarge 0 "Contacts discovery exceeded the address-book limit")
  else mret acc.
Definition book_less (a b : bookRecord) : bool :=
  let left := to_lower (BookName (public a)) in
  let right := to_lower (BookName (public b)) in
  if negb (bool_decide (left = right)) then string_ltb left right
  else string_ltb (Identifier (public a)) (Identifier (public b)).

Definition runDiscovery : C discoveryState :=
  entry ← (match Parse baseURL with
           | Some u => if bool_decide (UrlPath u = "") && bool_decide (UrlHost u = "")
                       then err (newError CodeValidation 0 "Contacts base URL is invalid")
                       else mret (if decide (UrlPath u = "") then set_paths "/" (RawPath u) u else u)
           | None => err (newError CodeValidation 0 "Contacts base URL is invalid")
           end);
  check (validateURL allowHost entry);;
  principalResponse ← propfind entry "0" principalPropfind 4;
  principalResponse ← deref principalResponse;
  if pf_overflow principalResponse then
    err (protocol_error "Contacts discovery returned too many principal responses")
  else
    match properties_hrefs CurrentUserPrincipal (pf_rows principalResponse) with
    | [href] =>
        principal ← of_result (resolveAndValidate allowHost (pf_url principalResponse) href);
        homeResponse ← propfind principal "0" homeSetPropfind 4;
        homeResponse ← deref homeResponse;
        if pf_overflow homeResponse then err (protocol_error "Contacts discovery returned too many home-set responses")
        else
          let homeHrefs := properties_hrefs AddressBookHomeSet (pf_rows homeResponse) in
          if bool_decide (homeHrefs = []) then
            err (newError CodeNotFound 404 "Contacts discovery returned no address-book home set")
          else if maxAddressBooks <? zlen homeHrefs then
            err (newError CodePayloadTooLarge 0 "Contacts discovery returned too many home sets")
          else
            '(homes, _) ← foldM (add_home (pf_url homeResponse)) homeHrefs ([], []);
            '(books, byID, _) ← foldM scan_home homes ([], ∅, []);
            mret (MkDiscovery (sort_slice book_less books) byID homes)
    | _ => err (protocol_error "Contacts discovery did not return exactly one current-user-principal")
    end.
(** [discover], run by one caller: only a complete success is kept. *)
Definition discover : C discoveryState :=
  λ st, match st.1 with
        | Some s => (st, Ok s)
        | None => let '(st, r) := runDiscovery st in
                  match r with Ok s => ((Some s, st.2), Ok s) | Err e => (st, Err e) end
        end.

Definition ListAddressBooks : C (list AddressBook) :=
  s ← discover;
  let l := map public (books s) in
  if resultFits l then mret l else err (newError CodePayloadTooLarge 0 "address-book metadata exceeds the result limit").
Definition book (id : string) : C bookRecord :=
  check (validateAddressBookID id);;
  s ← discover;
  match byID s !! id with
  | Some record => mret record
  | None => err (validationError "address_book is not a discovered address book identifier")
  end.

(** * Reports *)

Definition report_row (book : bookRecord) (response : davResponse) (acc : list addressObject) (row : multiStatusResponse)
    : result Error (list addressObject) :=
  match successfulProp row with
  | None => Ok acc
  | Some prop =>
      if negb (AdPresent (AddressData prop)) || bool_decide (trim_space (AdValue (AddressData prop)) = "") then Ok acc
      else
        resourceURL ← resolveAndValidate allowHost (RespURL response) (RsHref row);
        reject negb (urlWithin resourceURL (book_url book) false)
          with protocol_error "Contacts REPORT returned a resource outside its address book" ;;
        '(card, version) ← decodeCard (bytes (AdValue (AddressData prop)));
        match strongETagFromResponse row with
        | None => Err (newError CodeProtocolError (RespStatus response) "Contacts REPORT response has an invalid ETag")
        | Some etag => Ok (acc ++ [MkObject resourceURL card None version etag])%list
        end
  end.
(** The objects, the overflow and the bytes used.  A status that is not 207
    but a success gives no objects and no error. *)
Definition report (book : bookRecord) (body : string) (rowLimit byteCap : Z) : C (list addressObject * bool * Z) :=
  response ← dav "REPORT" (book_url book)
    [("Content-Type", "application/xml; charset=" ++ quoted "utf-8"); ("Depth", "1")] (bytes body) byteCap (Some (book_url book));
  if negb (RespStatus response =? 207) then
    match classifyDAVError response false with
    | Some e => err e
    | None => mret ([], false, zlen (RespBody response))
    end
  else
    '(rows, overflow) ← of_result (decodeMultiStatus (RespBody response) rowLimit);
    objects ← of_result (fold_res (report_row book response) rows []);
    mret (objects, overflow, zlen (RespBody response)).

(** * Search *)

Definition any_contains (needle : string) (f : string → string) (values : list string) : bool :=
  existsb (λ v, contains (f v) needle) values.
Definition contactMatches (card : Card) (opts : ContactSearch) : bool :=
  let values := card_Values card in
  (IncludeGroups opts || negb (cardIsGroup card))
  && (bool_decide (OptQuery opts = "")
      || any_contains (to_lower (OptQuery opts)) to_lower
           (values "FN" ++ values "N" ++ [card_Value card "ORG"] ++ values "EMAIL" ++ values "TEL"))
  && (bool_decide (OptEmail opts = "") || any_contains (to_lower (OptEmail opts)) to_lower (values "EMAIL"))
  && (bool_decide (OptPhone opts = "") || any_contains (normalizePhone (OptPhone opts)) normalizePhone (values "TEL")).

Record search := MkSearch { remainingCards : Z; remainingBytes : Z; matches : list ContactSummary; scanLimit : bool }.
Definition matching (opts : ContactSearch) (b : bookRecord) (objects : list addressObject) : list ContactSummary :=
  map (λ o, cardSummary (ob_card o) (Identifier (public b)) (ob_etag o))
      (List.filter (λ o, contactMatches (ob_card o) opts) objects).
(** The loop over the books still to search. *)
Fixpoint search_books (opts : ContactSearch) (l : list bookRecord) (s : search) : C search :=
  match l with
  | [] => mret s
  | b :: l =>
      if (remainingCards s =? 0) || (remainingBytes s =? 0)
      then mret (MkSearch (remainingCards s) (remainingBytes s) (matches s) true)
      else
        let requestLimit := remainingCards s + 1 in
        '(objects, overflow, used) ← report b (searchQuery opts requestLimit) requestLimit (remainingBytes s);
        let complete := Z.min (zlen objects) (remainingCards s) in
        let found := matching opts b (take (Z.to_nat complete) objects) in
        let cards := remainingCards s - complete in
        let s' limit := MkSearch cards (remainingBytes s - used) (matches s ++ found)%list limit in
        if overflow || (complete <? zlen objects) || ((cards =? 0) && negb (bool_decide (l = [])))
        then mret (s' true)
        else search_books opts l (s' (scanLimit s))
  end.
Definition summary_less (a b : ContactSummary) : bool :=
  let left := normalizeForSort (DisplayName a) in
  let right := normalizeForSort (DisplayName b) in
  if negb (bool_decide (left = right)) then string_ltb left right
  else if negb (bool_decide (SumUID a = SumUID b)) then string_ltb (SumUID a) (SumUID b)
  else string_ltb (SumAddressBook a) (SumAddressBook b).
(** The longest prefix that fits; the flag tells that one did not. *)
Fixpoint fit_contacts (scan truncated : bool) (kept rest : list ContactSummary) : ContactResults :=
  match rest with
  | [] => MkContactResults kept truncated scan
  | c :: rest =>
      if resultFits (MkContactResults (kept ++ [c]) truncated scan)
      then fit_contacts scan truncated (kept ++ [c]) rest
      else MkContactResults kept true scan
  end.
Definition SearchContacts (opts : ContactSearch) : C ContactResults :=
  opts ← of_result (validateSearchOptions opts);
  selected ← (if bool_decide (OptAddressBook opts = "") then s ← discover; mret (books s)
              else b ← book (OptAddressBook opts); mret [b]);
  s ← search_books opts selected (MkSearch maxCardsScanned maxReportBytes [] false);
  let sorted := sort_slice summary_less (matches s) in
  let truncated := OptLimit opts <? zlen sorted in
  mret (fit_contacts (scanLimit s) truncated [] (take (Z.to_nat (OptLimit opts)) sorted)).

(** * One contact *)

Definition acceptableVCardContentType (mediaType : string) : bool :=
  bool_decide (to_lower (trim_space mediaType) ∈ ["text/vcard"; "text/x-vcard"; "text/directory"; "text/plain"]).
(** [nil] with a nil error is not possible here: a success decodes or fails. *)
Definition getObject (b : bookRecord) (target : URL) (expectedUID : string) : C addressObject :=
  if negb (urlWithin target (book_url b) false) then err (protocol_error "contact resource is outside its address book")
  else
    response ← dav "GET" target [("Accept", "text/vcard")] [] maxCardBytes (Some (book_url b));
    match (if Z.quot (RespStatus response) 100 =? 2 then None else classifyDAVError response false) with
    | Some e => err e
    | None =>
        if negb (urlWithin (RespURL response) (book_url b) false) then
          err (protocol_error "contact GET resolved outside its address book")
        else
          match parse_media_type (header_get (RespHeader response) "Content-Type") with
          | Some mediaType =>
              if negb (acceptableVCardContentType mediaType) then
                err (protocol_error "contact GET returned an invalid Content-Type")
              else
                '(card, version, raw) ← of_result (decodeRawCard (RespBody response));
                if negb (bool_decide (card_Value card "UID" = expectedUID)) then
                  err (protocol_error "contact GET returned a different UID")
                else
                  match one_etag (RespHeader response "ETag") with
                  | None => err (newError CodeProtocolError (RespStatus response) "contact GET returned an invalid ETag")
                  | Some etag => mret (MkObject (RespURL response) card (Some raw) version etag)
                  end
          | None => err (protocol_error "contact GET returned an invalid Content-Type")
          end
    end.
Definition findByUID (b : bookRecord) (uid : string) : C addressObject :=
  '(objects, overflow, _) ← report b (uidQuery uid) 3 maxReportBytes;
  if overflow || (1 <? zlen objects) then err (protocol_error "UID lookup returned more than one contact")
  else match objects with
       | [] => err (newError CodeNotFound 404 "contact UID was not found in the address book")
       | object :: _ =>
           if negb (bool_decide (card_Value (ob_card object) "UID" = uid)) then
             err (protocol_error "UID lookup returned a different contact")
           else getObject b (ob_url object) uid
       end.

Definition GetContact (addressBook uid : string) : C Contact :=
  check (validateUID uid);;
  b ← book addressBook;
  object ← findByUID b uid;
  let detail := cardDetail (ob_card object) (ob_version object) addressBook (ob_etag object) in
  if resultFits detail then mret detail else err (newError CodePayloadTooLarge 0 "contact detail exceeds the result limit").

Definition random_uuid : C string :=
  λ st, let '(w, r) := rand_read st.2.1 in
        ((st.1, (w, st.2.2)),
         match r with Some b => Ok (uuidV4 b)
                    | None => Err (Failed (newError CodeInternalError 0 "failed to generate a contact identifier")) end).
(** [if m fails, use the fallback]. *)
Definition recover {A B} (m : C A) (ok : A → B) (fallback : B) : C B :=
  λ st, let '(st, r) := m st in
        (st, match r with Ok a => Ok (ok a) | Err (Failed _) => Ok fallback | Err Panicked => Err Panicked end).

Definition no_result (addressBook uid etag : string) : MutationResult := MkMutationResult addressBook uid etag false "".
Definition incomplete (addressBook uid warning : string) : MutationResult := MkMutationResult addressBook uid "" true warning.

Definition success (response : davResponse) (create : bool) : C unit :=
  match classifyDAVError response create with Some e => err e | None => mret tt end.

Definition CreateContact (i : CreateContactInput) : C MutationResult :=
  check (validateCreate i);;
  b ← book (CcAddressBook i);
  if negb (bool_decide (WriteVersion (public b) = "3.0")) then
    err (validationError "the address book does not advertise vCard 3.0 writes")
  else
    uid ← (if decide (CcClientUID i = "") then random_uuid else mret (CcClientUID i));
    resourceID ← random_uuid;
    let target := childResourceURL (book_url b) (resourceID ++ ".vcf") in
    check (validateURL allowHost target);;
    encoded ← of_result (encodeCard (newV3Card i uid) (MaxResourceSize (public b)));
    response ← dav "PUT" target [("Content-Type", "text/vcard; charset=utf-8"); ("If-None-Match", "*")] encoded
                 maxErrorBodyBytes (Some (book_url b));
    success response true;;
    let location := header_get (RespHeader response) "Location" in
    let created :=
      if decide (location = "") then Some target
      else match resolveAndValidate allowHost (RespURL response) location with
           | Ok u => if urlWithin u (book_url b) false then Some u else None
           | Err _ => None
           end in
    match created with
    | None => mret (incomplete (CcAddressBook i) uid "contact was created, but its normalized resource location was invalid")
    | Some createdURL =>
        recover (getObject b createdURL uid)
          (λ o, no_result (CcAddressBook i) uid (readableETag (ob_etag o)))
          (incomplete (CcAddressBook i) uid "contact was created, but normalized metadata could not be read")
    end.

(** The validated tag of the caller, or the server's. *)
Definition caller_etag (etag : string) : string := match normalizeCallerETag etag with Ok t => t | Err _ => "" end.
Definition if_match (callerETag serverETag : string) : string := if decide (callerETag = "") then serverETag else callerETag.

Definition UpdateContact (i : UpdateContactInput) : C MutationResult :=
  check (validateUpdate i);;
  let callerETag := caller_etag (UcETag i) in
  b ← book (UcAddressBook i);
  object ← findByUID b (UcUID i);
  serverETag ← of_result (validateServerETag (ob_etag object));
  if negb (bool_decide (ob_version object = "3.0")) then err (validationError "vCard 4.0 contacts are read-only")
  else if cardIsGroup (ob_card object) then err (validationError "contact groups are read-only")
  else
    encoded ← of_result (match ob_raw object with
                         | Some raw => encodePatchedCard raw (ob_card object) (Patch i) (MaxResourceSize (public b))
                         | None => Err (newError CodeInternalError 0 "the contact raw representation is unavailable")
                         end);
    response ← dav "PUT" (ob_url object)
                 [("Content-Type", "text/vcard; charset=utf-8"); ("If-Match", if_match callerETag serverETag)] encoded
                 maxErrorBodyBytes (Some (book_url b));
    success response false;;
    recover (getObject b (ob_url object) (UcUID i))
      (λ o, no_result (UcAddressBook i) (UcUID i) (readableETag (ob_etag o)))
      (incomplete (UcAddressBook i) (UcUID i) "contact was updated, but normalized metadata could not be read").

Definition DeleteContact (i : DeleteContactInput) : C ContactDeletion :=
  check (validateDelete i);;
  let callerETag := caller_etag (DcETag i) in
  b ← book (DcAddressBook i);
  object ← findByUID b (DcUID i);
  if bool_decide (ob_version object = "4.0") || cardIsGroup (ob_card object) then
    err (validationError "this contact object is read-only")
  else
    serverETag ← of_result (validateServerETag (ob_etag object));
    if DcDryRun i then
      if negb (bool_decide (callerETag = "")) && negb (bool_decide (callerETag = serverETag)) then
        err (newError CodeConcurrentModification 412 "the contact changed since it was read")
      else mret (MkContactDeletion (DcAddressBook i) (DcUID i) true true)
    else
      response ← dav "DELETE" (ob_url object) [("If-Match", if_match callerETag serverETag)] []
                   maxErrorBodyBytes (Some (book_url b));
      success response false;;
      mret (MkContactDeletion (DcAddressBook i) (DcUID i) false true).
End Client.

(** * What the operations send *)
#[export] Instance client_log {W D} : HasLog (D * (W * list action)) action := {| the_log := λ st, st.2.2 |}.

Definition is_write_action (a : action) : bool := match a with Sent req => isWrite (hq_method req) | _ => false end.
Definition writes (l : list action) : nat := length (List.filter is_write_action l).
Lemma writes_app l1 l2 : writes (l1 ++ l2) = (writes l1 + writes l2)%nat.
Proof. unfold writes. by rewrite List.filter_app, length_app. Qed.

Section ClientProofs.
Context {W : Type} `{DavNet W} `{Rand W} `{UnicodeTables} `{XMLTokens} `{VCardLib} `{CardValues} `{MediaTypes}
        `{SortSlice} `{MapOrder}.
Context `{JsonLen (list AddressBook)} `{JsonLen Contact} `{JsonLen ContactResults}.
Context (allowHost : option (string → bool)) (http_configured : bool) (baseURL : string).
Abbreviation CS := (option discoveryState * (W * list action))%type.
Abbreviation C := (M CS failure).

(** A request to a validated URL; a write also satisfies [P]. *)
Definition request_ok (P : HttpRequest → Prop) (a : action) : Prop :=
  match a with
  | Sent req => (∃ u, hq_url req = url_string u ∧ validateURL allowHost u = Ok tt) ∧
                (isWrite (hq_method req) = true → P req)
  | _ => True
  end.
Definition read_only : action → Prop := request_ok (λ _, False).
Lemma read_only_writes l : Forall read_only l → writes l = 0%nat.
Proof.
  induction 1 as [|a l Ha _ IH]; [done|]. destruct a; [exact IH| |exact IH|exact IH|exact IH].
  destruct Ha as [_ Ha]. unfold writes in *. cbn [List.filter is_write_action].
  destruct (isWrite (hq_method req)); [by destruct Ha|exact IH].
Qed.
Lemma read_only_ok P l : Forall read_only l → Forall (request_ok P) l.
Proof. intros Hl. eapply Forall_impl; [exact Hl|]. intros [ | | | | ]; try done. intros [? ?]. split; [done|]. naive_solver. Qed.

(** [reads m Q]: [m] only reads, and gives values of [Q]. *)
Definition reads {A} (m : C A) (Q : A → Prop) : Prop :=
  emits m (λ l r, Forall read_only l ∧ ∀ a, r = Ok a → Q a).
Lemma reads_bind {A B} (m : C A) (f : A → C B) Q R : reads m Q → (∀ a, Q a → reads (f a) R) → reads (m ≫= f) R.
Proof.
  intros Hm Hf. eapply emits_bind; [exact Hm|by intros ? ? [? _]|]. intros l a [Hl Ha].
  eapply emits_weaken; [by apply Hf, Ha|]. intros l' r [? ?]. split; [by apply Forall_app|done].
Qed.
Lemma reads_any {A} (m : C A) Q : reads m Q → reads m (λ _, True).
Proof. intros Hm. eapply emits_weaken; [exact Hm|]. intros ? ? [? _]. by split. Qed.
Lemma reads_ret {A} (a : A) (Q : A → Prop) : Q a → reads (mret a) Q.
Proof. intros. apply emits_ret. split; [constructor|]. by intros ? [= <-]. Qed.
Lemma reads_fail {A} e (Q : A → Prop) : reads (fail e) Q.
Proof. apply emits_fail. by split. Qed.
Lemma reads_of_result {A} (r : result Error A) (Q : A → Prop) : (∀ a, r = Ok a → Q a) → reads (of_result r) Q.
Proof. intros HQ. apply emits_lift. split; [constructor|]. destruct r; intros ? [= <-]. by apply HQ. Qed.
Lemma reads_check (r : result Error unit) : reads (check r) (λ _, r = Ok tt).
Proof. apply emits_lift. split; [constructor|]. by destruct r as [[]|]. Qed.
Lemma reads_foldM {A T} (f : T → A → C T) l t :
  (∀ t a, reads (f t a) (λ _, True)) → reads (foldM f l t) (λ _, True).
Proof.
  intros Hf. revert t; induction l as [|a l IH]; intros t; cbn [foldM]; [by apply reads_ret|].
  eapply reads_bind; [apply Hf|]. auto.
Qed.
Lemma reads_if {A} (c : bool) (m1 m2 : C A) Q : (c = true → reads m1 Q) → (c = false → reads m2 Q) → reads (if c then m1 else m2) Q.
Proof. destruct c; auto. Qed.
Hint Resolve reads_fail reads_check : core.

Lemma dav_emits method target headers body cap book :
  emits (dav allowHost http_configured method target headers body cap book : C davResponse)
    (λ l r, Forall (confined allowHost method headers body book) l ∧
            (sent_count l <= if isWrite method then 1 else 6)%nat).
Proof.
  intros [d [w lg]]. unfold dav. cbn [fst snd].
  assert (Hd : emits (doDAV allowHost http_configured method target headers body cap book : M (W * list action) Error davResponse)
                 (loop_ok allowHost method headers body book 0 0)) by apply doDAV_emits.
  destruct (Hd (w, lg)) as (l & Hl & _ & Hq2 & Hq3 & _).
  destruct (doDAV _ _ _ _ _ _ _ _ _) as [[w' lg'] r]. exists l. cbn in *. split; [done|]. split; [done|].
  by destruct (isWrite method).
Qed.

Lemma dav_reads method target headers body cap book :
  isWrite method = false → reads (dav allowHost http_configured method target headers body cap book) (λ _, True).
Proof.
  intros Hm. eapply emits_weaken; [apply dav_emits|]. intros l r [Hl _]. split; [|done].
  eapply Forall_impl; [exact Hl|]. intros [ |req| | | ] Ha; try done. destruct Ha as (Hq & _ & _ & u & ? & ? & _).
  split; [by exists u|]. by rewrite Hq, Hm.
Qed.

(** [writes_once m P]: [m] sends at most one write, which satisfies [P]. *)
Definition writes_once {A} (m : C A) (P : HttpRequest → Prop) : Prop :=
  emits m (λ l _, Forall (request_ok P) l ∧ (writes l <= 1)%nat).
Lemma reads_then {A B} (m : C A) (f : A → C B) Q P :
  reads m Q → (∀ a, Q a → writes_once (f a) P) → writes_once (m ≫= f) P.
Proof.
  intros Hm Hf. eapply emits_bind; [exact Hm| |].
  - intros l e [Hl _]. split; [by apply read_only_ok|]. rewrite (read_only_writes l Hl). lia.
  - intros l a [Hl Ha]. eapply emits_weaken; [by apply Hf, Ha|]. intros l' r [? ?]. split.
    + apply Forall_app. split; [by apply read_only_ok|done].
    + by rewrite writes_app, (read_only_writes l Hl).
Qed.
Lemma writes_then {A B} (m : C A) (f : A → C B) P :
  writes_once m P → (∀ a, reads (f a) (λ _, True)) → writes_once (m ≫= f) P.
Proof.
  intros Hm Hf. eapply emits_bind; [exact Hm|done|]. intros l a [Hl Hw].
  eapply emits_weaken; [apply Hf|]. intros l' r [Hl' _]. split.
  - apply Forall_app. split; [done|by apply read_only_ok].
  - rewrite writes_app, (read_only_writes l' Hl'). lia.
Qed.
Lemma reads_once {A} (m : C A) Q P : reads m Q → writes_once m P.
Proof.
  intros Hm. eapply emits_weaken; [exact Hm|]. intros l r [Hl _]. split; [by apply read_only_ok|].
  rewrite (read_only_writes l Hl). lia.
Qed.
Lemma writes_once_if {A} (c : bool) (m1 m2 : C A) P :
  (c = true → writes_once m1 P) → (c = false → writes_once m2 P) → writes_once (if c then m1 else m2) P.
Proof. destruct c; auto. Qed.
Lemma dav_writes method target headers body cap book (P : HttpRequest → Prop) :
  isWrite method = true → (∀ req, hq_method req = method → hq_header req = headers → hq_body req = body →
    (∀ b, book = Some b → ∃ u, hq_url req = url_string u ∧ urlWithin u b false = true) → P req) →
  writes_once (dav allowHost http_configured method target headers body cap book) P.
Proof.
  intros Hm HP. eapply emits_weaken; [apply dav_emits|]. intros l r [Hl Hc]. rewrite Hm in Hc. split.
  - eapply Forall_impl; [exact Hl|]. intros [ |req| | | ] Ha; try done. destruct Ha as (Hq & Hh & Hb & u & Hu & Hv & Hin).
    split; [by exists u|]. intros _. apply HP; [done..|]. intros b ->. exists u. split; [done|].
    specialize (Hin b eq_refl). rewrite bool_decide_false in Hin; [done|]. intros ->. by vm_compute in Hm.
  - etrans; [|exact Hc]. unfold writes, sent_count. clear. induction l as [|a l IH]; [done|]. cbn [List.filter].
    destruct a; cbn [is_write_action is_sent]; try exact IH. destruct (isWrite _); simpl; lia.
Qed.

(** ** Reading operations *)

Lemma nil_or_error_reads {A} (e : option Error) : reads (nil_or_error e : C (option A)) (λ _, True).
Proof. destruct e; [apply reads_fail|by apply reads_ret]. Qed.
Lemma deref_reads {A} (p : option A) : reads (deref p : C A) (λ _, True).
Proof. destruct p; [by apply reads_ret|apply reads_fail]. Qed.

Lemma propfind_reads target depth body limit :
  reads (propfind allowHost http_configured target depth body limit) (λ _, True).
Proof.
  unfold propfind. eapply reads_bind; [by apply dav_reads|]. intros response _.
  apply reads_if; intros _; [apply nil_or_error_reads|].
  eapply reads_bind; [by apply (reads_of_result _ (λ _, True))|]. intros [rows overflow] _. by apply reads_ret.
Qed.
Lemma add_home_reads base acc href : reads (add_home allowHost base acc href : C _) (λ _, True).
Proof.
  unfold add_home. eapply reads_bind; [by apply (reads_of_result _ (λ _, True))|]. intros home _.
  apply reads_if; intros _; [apply reads_fail|by apply reads_ret].
Qed.
Lemma add_book_reads home url acc row : reads (add_book allowHost home url acc row : C _) (λ _, True).
Proof.
  unfold add_book. destruct acc as [[bs ids] seen]. destruct (successfulProp row) as [prop|]; [|by apply reads_ret].
  apply reads_if; intros _; [by apply reads_ret|].
  eapply reads_bind; [by apply (reads_of_result _ (λ _, True))|]. intros collection _.
  apply reads_if; intros _; [apply reads_fail|]. apply reads_if; intros _; [apply reads_fail|].
  apply reads_if; intros _; [apply reads_fail|]. eapply (reads_bind _ _ (λ _, True)).
  - case_decide; [by apply reads_ret|]. destruct (parse_int64 _); [|apply reads_fail].
    apply reads_if; intros _; [apply reads_fail|by apply reads_ret].
  - intros n _. apply reads_if; intros _; [apply reads_fail|by apply reads_ret].
Qed.
Lemma scan_home_reads acc home : reads (scan_home allowHost http_configured acc home) (λ _, True).
Proof.
  unfold scan_home. destruct acc as [[bs ids] seen]. eapply reads_bind; [apply propfind_reads|]. intros response _.
  eapply reads_bind; [apply deref_reads|]. intros r _.
  eapply reads_bind; [apply reads_foldM; intros; apply add_book_reads|]. intros acc _.
  apply reads_if; intros _; [apply reads_fail|by apply reads_ret].
Qed.
Lemma runDiscovery_reads : reads (runDiscovery allowHost http_configured baseURL) (λ _, True).
Proof.
  unfold runDiscovery. eapply (reads_bind _ _ (λ _, True)).
  { destruct (Parse baseURL); [|apply reads_fail]. apply reads_if; intros _; [apply reads_fail|by apply reads_ret]. }
  intros entry _. eapply reads_bind; [apply reads_check|]. intros _ _.
  eapply reads_bind; [apply propfind_reads|]. intros response _.
  eapply reads_bind; [apply deref_reads|]. intros principals _. apply reads_if; intros _; [apply reads_fail|].
  destruct (properties_hrefs _ _) as [|href [|]]; [apply reads_fail| |apply reads_fail].
  eapply reads_bind; [by apply (reads_of_result _ (λ _, True))|]. intros principal _.
  eapply reads_bind; [apply propfind_reads|]. intros response' _.
  eapply reads_bind; [apply deref_reads|]. intros homes _. apply reads_if; intros _; [apply reads_fail|].
  apply reads_if; intros _; [apply reads_fail|]. apply reads_if; intros _; [apply reads_fail|].
  eapply reads_bind; [apply reads_foldM; intros; apply add_home_reads|]. intros [hs ks] _.
  eapply reads_bind; [apply reads_foldM; intros; apply scan_home_reads|]. intros [[bs ids] seen] _. by apply reads_ret.
Qed.
Lemma discover_reads : reads (discover allowHost http_configured baseURL) (λ _, True).
Proof.
  intros [[s|] st]; unfold discover; cbn [fst].
  - exists []. rewrite app_nil_r. by repeat split.
  - destruct (runDiscovery_reads (None, st)) as (l & Hl & Hr & _).
    destruct (runDiscovery _ _ _ _) as [st' [s|e]]; exists l; cbn in *; by repeat split.
Qed.
Lemma book_reads id : reads (book allowHost http_configured baseURL id) (λ _, True).
Proof.
  unfold book. eapply reads_bind; [apply reads_check|]. intros _ _. eapply reads_bind; [apply discover_reads|].
  intros s _. destruct (byID s !! id); [by apply reads_ret|apply reads_fail].
Qed.
Lemma report_reads b body limit cap : reads (report allowHost http_configured b body limit cap) (λ _, True).
Proof.
  unfold report. eapply reads_bind; [by apply dav_reads|]. intros response _. apply reads_if; intros _.
  - destruct (classifyDAVError response false); [apply reads_fail|by apply reads_ret].
  - eapply reads_bind; [by apply (reads_of_result _ (λ _, True))|]. intros [rows overflow] _.
    eapply reads_bind; [by apply (reads_of_result _ (λ _, True))|]. intros objects _. by apply reads_ret.
Qed.
Lemma getObject_reads b target uid : reads (getObject allowHost http_configured b target uid) (λ _, True).
Proof.
  unfold getObject. apply reads_if; intros _; [apply reads_fail|].
  eapply reads_bind; [by apply dav_reads|]. intros response _.
  case_match; [apply reads_fail|]. apply reads_if; intros _; [apply reads_fail|].
  destruct (parse_media_type _); [|apply reads_fail]. apply reads_if; intros _; [apply reads_fail|].
  eapply reads_bind; [by apply (reads_of_result _ (λ _, True))|]. intros [[card version] raw] _.
  apply reads_if; intros _; [apply reads_fail|]. destruct (one_etag _); [by apply reads_ret|apply reads_fail].
Qed.
Lemma findByUID_reads b uid : reads (findByUID allowHost http_configured b uid) (λ _, True).
Proof.
  unfold findByUID. eapply reads_bind; [apply report_reads|]. intros [[objects overflow] used] _.
  apply reads_if; intros _; [apply reads_fail|]. destruct objects as [|o objects]; [apply reads_fail|].
  apply reads_if; intros _; [apply reads_fail|]. apply getObject_reads.
Qed.
Lemma success_reads response create : reads (success response create : C unit) (λ _, True).
Proof. unfold success. destruct (classifyDAVError _ _); [apply reads_fail|by apply reads_ret]. Qed.
Lemma recover_reads {A B} (m : C A) (ok : A → B) b Q : reads m Q → reads (recover m ok b) (λ _, True).
Proof.
  intros Hm st. destruct (Hm st) as (l & Hl & Hr & _). unfold recover. destruct (m st) as [st' r].
  exists l. repeat split; done.
Qed.
Lemma random_uuid_reads : reads (random_uuid : C string) (λ _, True).
Proof.
  intros [d [w lg]]. unfold random_uuid. cbn [fst snd]. destruct (rand_read w) as [w' [b|]]; exists [];
    cbn; rewrite app_nil_r; by repeat split.
Qed.

(** ** Writing operations *)

Definition header_has (req : HttpRequest) (k v : string) : Prop := (k, v) ∈ hq_header req.
Definition strong_tag (tag : string) : Prop := parseStrongETag tag = Some tag.
(** The address book discovered under an identifier. *)
Definition book_of (id : string) (b : bookRecord) : Prop :=
  ∃ st st', book allowHost http_configured baseURL id st = (st', Ok b).
Lemma book_found id : reads (book allowHost http_configured baseURL id) (book_of id).
Proof.
  intros st. destruct (book_reads id st) as (l & Hl & Hr & _). exists l. split; [done|]. split; [done|].
  intros b Hb. exists st. destruct (book _ _ _ _ st) as [st' r]. cbn in Hb. subst r. by exists st'.
Qed.
(** A write inside the address book the caller named, under its
    precondition. *)
Definition inside_book (id : string) (req : HttpRequest) : Prop :=
  ∃ b u, book_of id b ∧ hq_url req = url_string u ∧ urlWithin u (book_url b) false = true.
Definition create_write (id : string) (req : HttpRequest) : Prop :=
  hq_method req = "PUT" ∧ header_has req "If-None-Match" "*" ∧ inside_book id req.
(** The tag of the caller when there is one. *)
Definition matched_write (method id callerETag : string) (req : HttpRequest) : Prop :=
  hq_method req = method ∧ inside_book id req ∧
  ∃ tag, header_has req "If-Match" tag ∧ strong_tag tag ∧ (callerETag ≠ "" → tag = callerETag).

Lemma server_tag_strong e tag : validateServerETag e = Ok tag → strong_tag tag.
Proof.
  unfold validateServerETag. destruct (parseStrongETag e) as [t|] eqn:Ht; [|done]. intros [= <-].
  by destruct (strong_tag_shape _ _ Ht) as (_ & _ & ?).
Qed.
Lemma if_match_strong etag server :
  strong_tag server → strong_tag (if_match (caller_etag etag) server).
Proof.
  intros Hs. unfold if_match. case_decide as Hc; [done|]. unfold caller_etag, normalizeCallerETag in *.
  case_decide; [done|]. destruct (parseStrongETag etag) as [t|] eqn:Ht; [|done].
  by destruct (strong_tag_shape _ _ Ht) as (_ & _ & ?).
Qed.
Lemma if_match_caller caller server : caller ≠ "" → if_match caller server = caller.
Proof. intros. unfold if_match. by case_decide. Qed.

Abbreviation create := (CreateContact allowHost http_configured baseURL).
Abbreviation update := (UpdateContact allowHost http_configured baseURL).
Abbreviation remove := (DeleteContact allowHost http_configured baseURL).

Lemma create_writes i : writes_once (create i) (create_write (CcAddressBook i)).
Proof.
  unfold CreateContact. eapply reads_then; [apply reads_check|]. intros _ _.
  eapply reads_then; [apply book_found|]. intros b Hbook. apply writes_once_if; intros _; [by apply (reads_once _ (λ _, True)), reads_fail|].
  eapply (reads_then _ _ (λ _, True)); [case_decide; [apply random_uuid_reads|by apply reads_ret]|]. intros uid _.
  eapply reads_then; [apply random_uuid_reads|]. intros id _.
  eapply reads_then; [apply reads_check|]. intros _ _.
  eapply (reads_then _ _ (λ _, True)); [by apply reads_of_result|]. intros encoded _.
  eapply writes_then.
  - apply dav_writes; [done|]. intros req Hm Hh Hb Hin. destruct (Hin _ eq_refl) as (u & ? & ?). split_and!; [done| |by exists b, u].
    unfold header_has. rewrite Hh. right. left.
  - intros response. eapply reads_bind; [apply success_reads|]. intros _ _.
    case_match; [|by apply reads_ret]. eapply recover_reads, getObject_reads.
Qed.
Lemma update_writes i : writes_once (update i) (matched_write "PUT" (UcAddressBook i) (caller_etag (UcETag i))).
Proof.
  unfold UpdateContact. eapply reads_then; [apply reads_check|]. intros _ _.
  eapply reads_then; [apply book_found|]. intros b Hbook. eapply reads_then; [apply findByUID_reads|]. intros object _.
  eapply reads_then; [apply reads_of_result; intros tag Ht; exact Ht|]. intros tag Ht%server_tag_strong.
  apply writes_once_if; intros _; [by apply (reads_once _ (λ _, True)), reads_fail|].
  apply writes_once_if; intros _; [by apply (reads_once _ (λ _, True)), reads_fail|].
  eapply (reads_then _ _ (λ _, True)); [by apply reads_of_result|]. intros encoded _.
  eapply writes_then.
  - apply dav_writes; [done|]. intros req Hm Hh Hb Hin. destruct (Hin _ eq_refl) as (u & ? & ?). split_and!; [done|by exists b, u|].
    eexists. split_and!; [unfold header_has; rewrite Hh; right; left|by apply if_match_strong|apply if_match_caller].
  - intros response. eapply reads_bind; [apply success_reads|]. intros _ _. eapply recover_reads, getObject_reads.
Qed.
Lemma delete_writes i : writes_once (remove i) (matched_write "DELETE" (DcAddressBook i) (caller_etag (DcETag i))).
Proof.
  unfold DeleteContact. eapply reads_then; [apply reads_check|]. intros _ _.
  eapply reads_then; [apply book_found|]. intros b Hbook. eapply reads_then; [apply findByUID_reads|]. intros object _.
  apply writes_once_if; intros _; [by apply (reads_once _ (λ _, True)), reads_fail|].
  eapply reads_then; [apply reads_of_result; intros tag Ht; exact Ht|]. intros tag Ht%server_tag_strong.
  apply writes_once_if; intros _.
  - apply writes_once_if; intros _; [by apply (reads_once _ (λ _, True)), reads_fail|by eapply (reads_once _ (λ _, True)), reads_ret].
  - eapply writes_then.
    + apply dav_writes; [done|]. intros req Hm Hh Hb Hin. destruct (Hin _ eq_refl) as (u & ? & ?). split_and!; [done|by exists b, u|].
      eexists. split_and!; [unfold header_has; rewrite Hh; left|by apply if_match_strong|apply if_match_caller].
    + intros response. eapply reads_bind; [apply success_reads|]. intros _ _. by apply reads_ret.
Qed.
Lemma dry_run_reads i : DcDryRun i = true → reads (remove i) (λ _, True).
Proof.
  intros Hd. unfold DeleteContact. rewrite Hd. eapply reads_bind; [apply reads_check|]. intros _ _.
  eapply reads_bind; [apply book_reads|]. intros b _. eapply reads_bind; [apply findByUID_reads|]. intros object _.
  apply reads_if; intros _; [apply reads_fail|].
  eapply (reads_bind _ _ (λ _, True)); [by apply reads_of_result|]. intros tag _.
  apply reads_if; intros _; [apply reads_fail|by apply reads_ret].
Qed.

Lemma get_contact_reads id uid : reads (GetContact allowHost http_configured baseURL id uid) (λ _, True).
Proof.
  unfold GetContact. eapply reads_bind; [apply reads_check|]. intros _ _.
  eapply reads_bind; [apply book_reads|]. intros b _. eapply reads_bind; [apply findByUID_reads|]. intros o _.
  apply reads_if; intros _; [by apply reads_ret|apply reads_fail].
Qed.
Lemma list_books_reads : reads (ListAddressBooks allowHost http_configured baseURL) (λ _, True).
Proof.
  unfold ListAddressBooks. eapply reads_bind; [apply discover_reads|]. intros s _. cbv zeta.
  destruct (resultFits _); [by apply reads_ret|apply reads_fail].
Qed.
Lemma search_books_reads opts l s : reads (search_books allowHost http_configured opts l s) (λ _, True).
Proof.
  revert s; induction l as [|b l IH]; intros s; cbn [search_books]; [by apply reads_ret|].
  apply reads_if; intros _; [by apply reads_ret|]. cbv zeta. eapply reads_bind; [apply report_reads|]. intros [[objects overflow] used] _.
  apply reads_if; intros _; [by apply reads_ret|apply IH].
Qed.
Lemma search_contacts_reads opts : reads (SearchContacts allowHost http_configured baseURL opts) (λ _, True).
Proof.
  unfold SearchContacts. eapply (reads_bind _ _ (λ _, True)); [by apply reads_of_result|]. intros opts' _.
  eapply (reads_bind _ _ (λ _, True)).
  - apply reads_if; intros _; (eapply reads_bind; [first [apply discover_reads|apply book_reads]|]; intros ? _; by apply reads_ret).
  - intros selected _. eapply reads_bind; [apply search_books_reads|]. intros s _. by apply reads_ret.
Qed.


(** * Discovery *)

Definition book_ok (homes : list URL) (r : bookRecord) : Prop :=
  validateURL allowHost (book_url r) = Ok tt ∧ Identifier (public r) = opaqueBookID (book_url r) ∧
  (∃ home, home ∈ homes ∧ urlWithin (book_url r) home true = true) ∧ 0 <= MaxResourceSize (public r).
Definition book_ids (l : list bookRecord) : list string := map (λ r, Identifier (public r)) l.
Definition found_ok (homes : list URL) (acc : list bookRecord * gmap string bookRecord * list string) : Prop :=
  let '(bs, ids, _) := acc in
  Forall (book_ok homes) bs ∧ NoDup (book_ids bs) ∧ zlen bs <= maxAddressBooks ∧
  ∀ id r, ids !! id = Some r ↔ r ∈ bs ∧ Identifier (public r) = id.

Lemma add_book_ok homes home url acc row : home ∈ homes → found_ok homes acc →
  yields (add_book allowHost home url acc row : C _) (found_ok homes).
Proof.
  intros Hhome Hacc. unfold add_book. destruct acc as [[bs ids] seen].
  destruct (successfulProp row) as [prop|]; [|by apply yields_ret].
  apply yields_if; intros _; [by apply yields_ret|].
  eapply (yields_bind _ _ (λ u, validateURL allowHost u = Ok tt)).
  { apply yields_lift. intros u Hu. destruct (resolveAndValidate _ _ _) as [u'|] eqn:Hr; [|done]. injection Hu as <-.
    unfold resolveAndValidate in Hr. apply reject_ok in Hr as (_ & Hr). destruct (Parse _); [|done].
    by apply bind_ok in Hr as ([] & Hv & [= <-]). }
  intros u Hu. destruct (urlWithin u home true) eqn:Hin; cbn [negb]; [|apply yields_fail].
  apply yields_if; intros _; [apply yields_fail|]. apply yields_if; intros Hmax; [apply yields_fail|].
  eapply (yields_bind _ _ (λ n, 0 <= n)).
  { case_decide; [by apply yields_ret|]. destruct (parse_int64 _) as [n|]; [|apply yields_fail].
    apply yields_if; intros Hn; [apply yields_fail|]. apply yields_ret. by bool_to_prop. }
  intros n Hn. apply yields_if; intros Hid; [apply yields_fail|]. apply yields_ret. bool_to_prop.
  destruct Hacc as (Hbs & Hnd & Hlen & Hids). unfold found_ok.
  set (r := MkBook _ u). assert (Hnone : ids !! opaqueBookID u = None) by by apply eq_None_not_Some.
  assert (Hfresh : opaqueBookID u ∉ book_ids bs).
  { intros (r' & Heq & Hr')%list_elem_of_fmap. rewrite (proj2 (Hids (opaqueBookID u) r')) in Hnone by (split; [done|congruence]). done. }
  split_and!.
  - apply Forall_app. split; [done|]. repeat constructor; try done. by exists home.
  - unfold book_ids in *. rewrite map_app. apply NoDup_app. split_and!; [done| |apply NoDup_singleton].
    intros id Hid' ->%list_elem_of_singleton. done.
  - rewrite zlen_app. change (zlen [r]) with 1. lia.
  - intros id r'. rewrite lookup_insert_Some, elem_of_app, list_elem_of_singleton, Hids. split.
    + intros [[<- <-]|[_ [? ?]]]; [by split; [right|]|by split; [left|]].
    + intros [[Hr'| ->] Hid']; [right|by left]. split; [|done]. intros <-. apply Hfresh.
      apply list_elem_of_fmap. by exists r'.
Qed.
Lemma scan_home_ok homes acc home : home ∈ homes → found_ok homes acc →
  yields (scan_home allowHost http_configured acc home : C _) (found_ok homes).
Proof.
  intros Hhome Hacc. unfold scan_home. destruct acc as [[bs ids] seen].
  step_any. intros response _. step_any. intros res _.
  eapply (yields_bind _ _ (found_ok homes)).
  - apply (yields_fold (λ _, found_ok homes)); [done|]. intros _ row acc' Hacc'. by apply add_book_ok.
  - intros acc' Hacc'. apply yields_if; intros _; [apply yields_fail|by apply yields_ret].
Qed.

(** (C36) A discovery that completes gives at most 100 address books, each at a
    validated URL inside one of the home sets the server named, with the
    identifier derived from that URL; the identifiers are distinct, and looking
    one up gives its book. *)
Theorem discovery_ok st st' s :
  runDiscovery allowHost http_configured baseURL st = (st', Ok s) →
  Forall (book_ok (homes s)) (books s) ∧ NoDup (book_ids (books s)) ∧ zlen (books s) <= maxAddressBooks ∧
  ∀ id r, byID s !! id = Some r ↔ r ∈ books s ∧ Identifier (public r) = id.
Proof.
  revert st st' s. change (yields (runDiscovery allowHost http_configured baseURL) (λ s,
    Forall (book_ok (homes s)) (books s) ∧ NoDup (book_ids (books s)) ∧ zlen (books s) <= maxAddressBooks ∧
    ∀ id r, byID s !! id = Some r ↔ r ∈ books s ∧ Identifier (public r) = id)).
  unfold runDiscovery. step_any. intros entry _. step_any. intros _ _. step_any. intros response _. step_any. intros res _.
  apply yields_if; intros _; [apply yields_fail|].
  destruct (properties_hrefs _ _) as [|href [|]]; [apply yields_fail| |apply yields_fail].
  step_any. intros principal _. step_any. intros response' _. step_any. intros res' _.
  apply yields_if; intros _; [apply yields_fail|]. apply yields_if; intros _; [apply yields_fail|].
  apply yields_if; intros _; [apply yields_fail|]. step_any. intros [hs ks] _.
  eapply (yields_bind _ _ (found_ok hs)).
  - assert (H0' : found_ok hs ([], ∅, [])) by (split_and!; [done|constructor|done|intros; rewrite lookup_empty; split; [done|by intros [?%elem_of_nil _]]]).
    assert (Hgen : ∀ l acc, l ⊆ hs → found_ok hs acc → yields (foldM (scan_home allowHost http_configured) l acc : C _) (found_ok hs)).
    { induction l as [|h l IH]; intros acc Hsub Hacc; cbn [foldM]; [by apply yields_ret|].
      eapply yields_bind; [apply scan_home_ok; [|exact Hacc]; set_solver|]. intros acc' Hacc'. apply IH; [set_solver|done]. }
    by apply Hgen.
  - intros [[bs ids] seen] (Hbs & Hnd & Hlen & Hids). apply yields_ret. cbn [books byID homes].
    assert (Hperm : sort_slice book_less bs ≡ₚ bs) by apply sort_slice_perm. split_and!.
    + by rewrite Hperm.
    + unfold book_ids. by rewrite Hperm.
    + unfold zlen. by rewrite Hperm.
    + intros id r. by rewrite Hids, Hperm.
Qed.

(** A PROPFIND answered by a success other than 207 gives a nil result and a nil
    error: the caller's next field access panics. *)
Lemma propfind_success_nil target depth body limit st st' response :
  dav allowHost http_configured "PROPFIND" target
    [("Content-Type", "application/xml; charset=" ++ quoted "utf-8"); ("Depth", depth)] (bytes body) maxPropfindBytes None st
  = (st', Ok response) →
  Z.quot (RespStatus response) 100 = 2 → RespStatus response ≠ 207 →
  (propfind allowHost http_configured target depth body limit ≫= deref) st = (st', Err Panicked).
Proof.
  intros Hd Hq2 Hq7. unfold propfind, mbind, M_bind. rewrite Hd.
  rewrite (proj2 (Z.eqb_neq (RespStatus response) 207) Hq7). cbn [negb].
  unfold classifyDAVError. by rewrite Hq2.
Qed.
(** A REPORT answered that way gives no objects and no error. *)
Lemma report_success_empty b query limit cap st st' response :
  dav allowHost http_configured "REPORT" (book_url b)
    [("Content-Type", "application/xml; charset=" ++ quoted "utf-8"); ("Depth", "1")] (bytes query) cap (Some (book_url b)) st
  = (st', Ok response) →
  Z.quot (RespStatus response) 100 = 2 → RespStatus response ≠ 207 →
  report allowHost http_configured b query limit cap st = (st', Ok ([], false, zlen (RespBody response))).
Proof.
  intros Hd Hq2 Hq7. unfold report, mbind, M_bind. rewrite Hd.
  rewrite (proj2 (Z.eqb_neq (RespStatus response) 207) Hq7). cbn [negb].
  unfold classifyDAVError. by rewrite Hq2.
Qed.

(** * Search *)

Lemma run_of_result {A} (r : result Error A) (st st' : CS) a : of_result r st = (st', Ok a) ↔ st = st' ∧ r = Ok a.
Proof. unfold of_result, lift. destruct r; naive_solver. Qed.

(** Between two states of the run the server answered a REPORT of the book with
    a multistatus document whose rows, cut off at the limit when [overflow],
    hold these objects; or with another success status, which the client takes
    for no objects. *)
Definition reported (opts : ContactSearch) (st : CS) (b : bookRecord) (objects : list addressObject) (overflow : bool)
    (st' : CS) : Prop :=
  ∃ limit cap response,
    dav allowHost http_configured "REPORT" (book_url b)
      [("Content-Type", "application/xml; charset=" ++ quoted "utf-8"); ("Depth", "1")] (bytes (searchQuery opts limit)) cap
      (Some (book_url b)) st = (st', Ok response) ∧
    ((RespStatus response = 207 ∧ ∃ rows, decodeMultiStatus (RespBody response) limit = Ok (rows, overflow) ∧
        fold_res (report_row allowHost b response) rows [] = Ok objects) ∨
     (RespStatus response ≠ 207 ∧ Z.quot (RespStatus response) 100 = 2 ∧ objects = [] ∧ overflow = false)).
Lemma report_answered opts b limit cap st st' objects overflow used :
  report allowHost http_configured b (searchQuery opts limit) limit cap st = (st', Ok (objects, overflow, used)) →
  reported opts st b objects overflow st'.
Proof.
  unfold report. intros (st1 & response & Hd & Hrun)%run_bind. exists limit, cap, response.
  destruct (Z.eqb_spec (RespStatus response) 207) as [E7|E7]; cbn [negb] in Hrun.
  - apply run_bind in Hrun as (st2 & [rows o] & (-> & Hrows)%run_of_result & Hrun).
    apply run_bind in Hrun as (st3 & objs & (-> & Hobjs)%run_of_result & Hrun). apply run_ret in Hrun as (-> & [= -> -> _]).
    split; [exact Hd|]. left. split; [done|]. by exists rows.
  - unfold classifyDAVError in Hrun.
    destruct (Z.eqb_spec (Z.quot (RespStatus response) 100) 2) as [E2|E2].
    + apply run_ret in Hrun as (-> & [= <- <- _]). split; [exact Hd|]. by right.
    + repeat case_match; simplify_eq/=.
Qed.
Abbreviation considered := (bookRecord * list addressObject)%type.
Definition all_matching (opts : ContactSearch) (seen : list considered) : list ContactSummary :=
  concat (map (λ bo, matching opts bo.1 bo.2) seen).
(** The objects of a book that were looked at: a prefix of the report, all of
    a complete one when no scan limit was reached. *)
Definition looked_at (opts : ContactSearch) (limited : bool) (st : CS) (bo : considered) (st' : CS) : Prop :=
  ∃ objects overflow, reported opts st bo.1 objects overflow st' ∧ bo.2 `prefix_of` objects ∧
    (limited = false → bo.2 = objects ∧ overflow = false).
(** The books looked at one after the other, from one state of the run to
    another. *)
Inductive all_looked_at (opts : ContactSearch) (limited : bool) : CS → list considered → CS → Prop :=
  | looked_at_none st : all_looked_at opts limited st [] st
  | looked_at_next st st1 st2 bo seen :
      looked_at opts limited st bo st1 → all_looked_at opts limited st1 seen st2 →
      all_looked_at opts limited st (bo :: seen) st2.
#[local] Hint Constructors all_looked_at : core.
Definition card_count (seen : list considered) : Z := foldr (λ bo n, zlen bo.2 + n) 0 seen.

Lemma search_books_ok opts l s st st' s' :
  0 <= remainingCards s → scanLimit s = false →
  search_books allowHost http_configured opts l s st = (st', Ok s') →
  ∃ seen, map fst seen `prefix_of` l ∧ all_looked_at opts (scanLimit s') st seen st' ∧
    matches s' = (matches s ++ all_matching opts seen)%list ∧
    card_count seen + remainingCards s' = remainingCards s ∧ 0 <= remainingCards s' ∧
    (scanLimit s' = false → map fst seen = l).
Proof.
  revert s st; induction l as [|b l IH]; intros s st Hc Hs; cbn [search_books].
  { intros (-> & <-)%run_ret. exists []. rewrite Hs. split_and!; try done. by rewrite app_nil_r. }
  destruct (_ || _) eqn:Hz.
  { intros (-> & <-)%run_ret. exists []. cbn. split_and!; try done. by eexists. by rewrite app_nil_r. }
  intros (st1 & [[objects overflow] used] & Hrep & Hrun)%run_bind.
  set (complete := Z.min (zlen objects) (remainingCards s)) in Hrun.
  set (objs := take (Z.to_nat complete) objects) in Hrun.
  assert (Hlen : zlen objs = complete).
  { unfold objs, zlen. rewrite length_take. unfold complete, zlen in *. lia. }
  apply report_answered in Hrep.
  assert (Hpre : objs `prefix_of` objects) by apply prefix_take.
  destruct (_ || _) eqn:Hstop in Hrun.
  - apply run_ret in Hrun as (-> & <-). exists [(b, objs)]. cbn [remainingCards scanLimit matches map fst card_count foldr snd].
    split_and!; try done.
    + by exists l.
    + econstructor; [|done]. by exists objects, overflow.
    + unfold all_matching. cbn. by rewrite app_nil_r.
    + lia.
    + unfold complete. lia.
  - apply orb_false_iff in Hstop as [Hstop _]. apply orb_false_iff in Hstop as [Hov Hall]. bool_to_prop.
    assert (Hobjs : objs = objects).
    { unfold objs. apply take_ge. unfold complete, zlen in *. lia. }
    apply IH in Hrun as (seen & Hp & Hla & Hm & Hcnt & Hrem & Hfull); [|cbn [remainingCards]; unfold complete; lia|exact Hs].
    cbn [remainingCards matches] in *. exists ((b, objs) :: seen). cbn [map fst card_count foldr snd]. split_and!.
    + by apply prefix_cons.
    + econstructor; [|exact Hla]. by exists objects, overflow.
    + rewrite Hm. unfold all_matching. cbn. by rewrite app_assoc.
    + unfold card_count in Hcnt. lia.
    + done.
    + intros Hf. by rewrite Hfull.
Qed.

Lemma fit_contacts_ok scan tr kept rest :
  let r := fit_contacts scan tr kept rest in
  ∃ more, Contacts r = (kept ++ more)%list ∧ more `prefix_of` rest ∧ ResScanLimitReached r = scan ∧
    (ResTruncated r = false → tr = false ∧ more = rest).
Proof.
  revert kept; induction rest as [|c rest IH]; intros kept; cbn [fit_contacts].
  - exists []. cbn. by rewrite app_nil_r.
  - destruct (resultFits _).
    + destruct (IH (kept ++ [c])%list) as (more & Hm & Hp & Hsc & Ht). exists (c :: more).
      split_and!; [by rewrite Hm, <-app_assoc|by apply prefix_cons|done|]. intros Hf. destruct (Ht Hf) as [? ->]. done.
    + exists []. cbn. rewrite app_nil_r. split_and!; [done|by eexists|done|done].
Qed.

(** (C25) A search is honest about what it covers.  The books it selects are the
    one asked for, or those of a discovery run first; each one it looks at is
    asked for in turn by a REPORT of this run, whose rows were all read or
    stopped at the limit (a success status other than 207 is taken for an empty
    book).  Its contacts are a prefix, no longer than the limit, of an ordering
    of all the matching cards it looked at; at most 2000 cards are looked at.
    When no truncation is reported they are all the matches, and when no scan
    limit is reported every selected book was asked for, no REPORT was cut at
    its limit, and every card it gave was looked at. *)
Theorem search_ok opts st st' res :
  SearchContacts allowHost http_configured baseURL opts st = (st', Ok res) →
  ∃ opts' selected seen sorted st1,
    validateSearchOptions opts = Ok opts' ∧
    map fst seen `prefix_of` selected ∧ all_looked_at opts' (ResScanLimitReached res) st1 seen st' ∧
    sorted ≡ₚ all_matching opts' seen ∧ card_count seen <= maxCardsScanned ∧
    Contacts res `prefix_of` sorted ∧ zlen (Contacts res) <= OptLimit opts' ∧
    (ResTruncated res = false → Contacts res = sorted) ∧
    (ResScanLimitReached res = false → map fst seen = selected) ∧
    (OptAddressBook opts' = "" →
       ∃ s, discover allowHost http_configured baseURL st = (st1, Ok s) ∧ selected = books s) ∧
    (OptAddressBook opts' ≠ "" →
       ∃ b, book allowHost http_configured baseURL (OptAddressBook opts') st = (st1, Ok b) ∧ selected = [b]).
Proof.
  unfold SearchContacts. intros (st0 & opts' & (-> & Hopts)%run_of_result & Hrun)%run_bind.
  apply run_bind in Hrun as (st1 & selected & Hsel & Hrun). apply run_bind in Hrun as (st2 & s & Hs & Hrun).
  apply run_ret in Hrun as (-> & <-).
  destruct (search_books_ok opts' selected (MkSearch maxCardsScanned maxReportBytes [] false) st1 st' s
              ltac:(cbn; unfold maxCardsScanned; lia) eq_refl Hs) as (seen & Hp & Hla & Hm & Hcnt & Hrem & Hfull). cbn [remainingCards matches] in *.
  set (sorted := sort_slice summary_less (matches s)).
  assert (Hlim : 1 <= OptLimit opts').
  { unfold validateSearchOptions in Hopts. repeat (apply bind_ok in Hopts as (? & _ & Hopts)).
    apply reject_ok in Hopts as (_ & Hopts). apply reject_ok in Hopts as (Hl & [= <-]). bool_to_prop. lia. }
  destruct (fit_contacts_ok (scanLimit s) (OptLimit opts' <? zlen sorted) [] (take (Z.to_nat (OptLimit opts')) sorted))
    as (more & Hmore & Hpre & Hscan & Htr). cbn [app] in Hmore.
  exists opts', selected, seen, sorted, st1. rewrite Hscan, Hmore. split_and!; try done.
  - unfold sorted. by rewrite sort_slice_perm, Hm.
  - lia.
  - etrans; [exact Hpre|]. apply prefix_take.
  - apply prefix_length in Hpre. rewrite length_take in Hpre. unfold zlen. lia.
  - intros Hf. destruct (Htr Hf) as [Hle ->]. bool_to_prop. apply take_ge. unfold zlen in Hle. lia.
  - intros He. rewrite bool_decide_true in Hsel by done. apply run_bind in Hsel as (st3 & d & Hd & Hret).
    apply run_ret in Hret as (-> & <-). eauto.
  - intros He. rewrite bool_decide_false in Hsel by done. apply run_bind in Hsel as (st3 & d & Hd & Hret).
    apply run_ret in Hret as (-> & <-). eauto.
Qed.
End ClientProofs.

(** * A server to run the client against

    The outside is the queue of the answers still to come; the requests are
    answered at once, without limiter, clock or cancellation. *)
Definition answer (status : Z) (body : list ascii) : HttpResponse :=
  MkHttpResponse status (λ k, if decide (k = "Content-Type") then ["text/vcard"]
                              else if decide (k = "ETag") then [str ["034"; "e"; "034"]%char] else []) None (Some (body, false)).
Definition queue_net : DavNet (list HttpResponse) := {|
  http_do := λ _ w, match w with r :: w => (w, (Some r, false)) | [] => ([], (None, true)) end;
  ctx_ended := λ w, (w, false);
  limiter_reserve := λ _ w, (w, Some 0);
  reservation_cancel := λ w, w;
  dav_timer := λ _ w, (w, false);
  slot_acquire := λ w, (w, true);
  slot_release := λ w, w;
  until_http_time := λ _ _, None;
|}.
Definition fixed_rand : Rand (list HttpResponse) := {| rand_read := λ w, (w, Some (repeat "A"%char 16)) |}.
Definition plain_values : CardValues :=
  {| card_Values := λ c k, omap (option_map FieldValue) (default [] (c !! k)) |}.
Definition plain_media : MediaTypes := {| parse_media_type := λ v, Some v |}.
Definition small_json {A} : JsonLen A := {| json_len := λ _, Some 10 |}.

Definition dav_elem (local : string) (children : list node) : node := Elem (MkName davNamespace local) [] children.
Definition card_elem (local : string) (children : list node) : node := Elem (MkName carddavNamespace local) [] children.
Definition text (s : string) : node := Text (bytes s).
Definition ok_row (href : string) (props : list node) : list (xname * string) * list node :=
  ([], [dav_elem "href" [text href];
        dav_elem "propstat" [dav_elem "prop" props; dav_elem "status" [text "HTTP/1.1 200 OK"]]]).
Definition document (rows : list (list (xname * string) * list node)) : list token * bool :=
  (StartElement (MkName davNamespace "multistatus") [] :: rows_tokens rows ++ [EndElement (MkName davNamespace "multistatus")], true)%list.
Definition named_documents : XMLTokens := {| xml_tokens := λ body,
  if decide (body = bytes "principal") then
    document [ok_row "/" [dav_elem "current-user-principal" [dav_elem "href" [text "/1/"]]]]
  else if decide (body = bytes "homes") then
    document [ok_row "/1/" [card_elem "addressbook-home-set" [dav_elem "href" [text "/1/card/"]]]]
  else if decide (body = bytes "books") then
    document [ok_row "/1/card/a/" [dav_elem "resourcetype" [card_elem "addressbook" []]; dav_elem "displayname" [text "Main"]]]
  else if decide (body = bytes "report") then
    document [ok_row "/1/card/a/u.vcf" [dav_elem "getetag" [text (str ["034"; "e"; "034"]%char)];
                                        card_elem "address-data" [Text ada_card]]]
  else ([], false) |}.
Definition answers (bodies : list (Z * string)) : list HttpResponse := map (λ a, answer a.1 (bytes a.2)) bodies.
Definition discovery_answers : list (Z * string) := [(207, "principal"); (207, "homes"); (207, "books")].

Section Runs.
#[local] Existing Instances queue_net fixed_rand ascii_tables named_documents plain_lib plain_values plain_media stable_slice
  declared_order small_json.
Abbreviation base := "https://p07-contacts.icloud.com".
Definition run_search (w : list HttpResponse) : (option discoveryState * (list HttpResponse * list action)) * result failure ContactResults :=
  SearchContacts (Some fixed_allow) true base (MkContactSearch "" "ada" "" "" false 0) (None, (w, [])).
Definition full_answers : list HttpResponse := answers (discovery_answers ++ [(207, "report")]).
Definition run_discovery (w : list HttpResponse) : (option discoveryState * (list HttpResponse * list action)) * result failure discoveryState :=
  discover (Some fixed_allow) true base (None, (w, [])).

Example search_run : match (run_search full_answers).2 with
  | Ok r => map DisplayName (Contacts r) = ["Ada"] ∧ ResScanLimitReached r = false
  | Err _ => False
  end.
Proof. vm_compute. split; reflexivity. Qed.

(** A server that answers a REPORT with 200 instead of 207 looks like an
    address book without contacts. *)
Example report_200_is_empty :
  (run_search (answers (discovery_answers ++ [(200, "report")]))).2 = Ok no_contacts.
Proof. vm_compute. reflexivity. Qed.

(** A server that answers a PROPFIND with 200 makes discovery dereference a nil
    pointer. *)
Example propfind_200_panics : (run_discovery (answers [(200, "principal")])).2 = Err Panicked.
Proof. vm_compute. reflexivity. Qed.

Definition found_ada : ContactResults := match (run_search full_answers).2 with Ok r => r | Err _ => no_contacts end.
Lemma search_ok_witness :
  run_search full_answers = ((run_search full_answers).1, Ok found_ada) ∧ zlen (Contacts found_ada) = 1 ∧
  ∃ seen sorted, card_count seen <= maxCardsScanned ∧ sorted ≡ₚ all_matching (MkContactSearch "" "ada" "" "" false 50) seen ∧
    Contacts found_ada `prefix_of` sorted.
Proof.
  assert (H : run_search full_answers = ((run_search full_answers).1, Ok found_ada)) by (vm_compute; reflexivity).
  split_and!; [exact H|vm_compute; reflexivity|].
  destruct (search_ok _ _ _ _ _ _ _ H) as (o & sel & seen & sorted & st1 & Ho & _ & _ & Hs & Hc & Hp & _).
  exists seen, sorted. split_and!; [exact Hc| |exact Hp].
  assert (o = MkContactSearch "" "ada" "" "" false 50) as -> by (vm_compute in Ho; congruence). exact Hs.
Defined.
Definition discovery_run : (option discoveryState * (list HttpResponse * list action)) * result failure discoveryState :=
  runDiscovery (Some fixed_allow) true base (None, (answers discovery_answers, [])).
Definition discovered : discoveryState := match discovery_run.2 with Ok s => s | Err _ => MkDiscovery [] ∅ [] end.
Lemma discovery_ok_witness :
  discovery_run = (discovery_run.1, Ok discovered) ∧ map (λ r, BookName (public r)) (books discovered) = ["Main"] ∧
  Forall (book_ok (Some fixed_allow) (homes discovered)) (books discovered).
Proof.
  assert (H : discovery_run = (discovery_run.1, Ok discovered)).
  { assert (Hok : is_ok discovery_run.2 = true) by (vm_compute; reflexivity). revert Hok. unfold discovered.
    by destruct discovery_run as [st' [s|e]]. }
  split_and!; [exact H|vm_compute; reflexivity|]. 
  destruct (discovery_ok (Some fixed_allow) true base (None, (answers discovery_answers, [])) discovery_run.1 discovered H) as (Hb & _).
  exact Hb.
Defined.
End Runs.
