(* ===== verification/Resources.v ===== *)
(** Resource scopes at work (src/internal/mcptools/resources.go and the
    calendar selection of search_events.go and find_free_slots.go): which
    calendars, address books and mailboxes a handler may touch. *)
From S2P Require Import Prelude GoStrings GoTime CalErrors CalTypes Scopes Validation Tools ContactsTypes MailTypes.

Definition scopeContains (values : list string) (candidate : string) : bool :=
  existsb (λ value, bool_decide (value = candidate)) values.

Lemma scopeContains_spec values c : scopeContains values c = true ↔ c ∈ values.
Proof.
  unfold scopeContains. rewrite List.existsb_exists. setoid_rewrite bool_decide_eq_true.
  setoid_rewrite <-list_elem_of_In. naive_solver.
Qed.

(** [None]: the action is not restricted. *)
Definition in_scope (scope : option (list string)) (x : string) : bool :=
  match scope with None => true | Some values => scopeContains values x end.
Lemma in_scope_spec scope x : in_scope scope x = true ↔ ∀ values, scope = Some values → x ∈ values.
Proof. destruct scope as [values|]; simpl; [rewrite scopeContains_spec|]; naive_solver. Qed.

(** * Calendars *)

Definition authorizeCalendar (scopes : ResourceScopes) (action path : string) : result error unit :=
  if in_scope (Calendar_scope scopes action) path then Ok tt
  else Err (Typed (NewError CodeAuthorization 0 "calendar is outside the configured resource scope" None)).
Definition authorizeCalendarRead (scopes : ResourceScopes) (path : string) : result error unit :=
  authorizeCalendar scopes ResourceCalendarRead path.
Definition authorizeCalendarWrite (scopes : ResourceScopes) (path : string) : result error unit :=
  authorizeCalendar scopes ResourceCalendarWrite path.
Definition authorizeCalendarDelete (scopes : ResourceScopes) (path : string) : result error unit :=
  authorizeCalendar scopes ResourceCalendarDelete path.

Definition filterCalendars (calendars : list Calendar) (scopes : ResourceScopes) (action : string) : list Calendar :=
  match Calendar_scope scopes action with
  | None => calendars
  | Some values => List.filter (λ calendar, scopeContains values (CalPath calendar)) calendars
  end.
Definition filterCalendarReads (calendars : list Calendar) (scopes : ResourceScopes) : list Calendar :=
  filterCalendars calendars scopes ResourceCalendarRead.
Definition calendarReadScope (scopes : ResourceScopes) : option (list string) :=
  Calendar_scope scopes ResourceCalendarRead.

(** * Selecting the calendars of one call *)

Definition maxExplicitSearchCalendars : Z := 10.
Definition maxExplicitFreeSlotCalendars : Z := 10.

Section Selection.
Context {W R : Type} `{Ctx W, Service W, ToolRequest R}.

Definition typed_fail {A} (code : Code) (msg : string) : M W error A := fail (Typed (NewError code 0 msg None)).
Definition service_calendars : M W error (list Calendar) := try ListCalendars.

(** The [add] closure; [paths] doubles as the set [seen]. *)
Definition add_path (max : Z) (paths : list string) (p : string) : M W error (list string) :=
  poll;;
  let p := trim_space p in
  if decide (p = "") then mret paths
  else
    lift (ValidateCalendarPath p);;
    if decide (p ∈ paths) then mret paths
    else if max <=? zlen paths
    then fail (Plain ("calendar selection must contain at most " ++ fmt_int max ++ " unique paths"))
    else mret (paths ++ [p])%list.

(** The selected paths must all be in the scope. *)
Definition select_in_scope (scope : option (list string)) (paths : list string) : M W error (list string) :=
  match scope with
  | None => mret paths
  | Some values =>
      let filtered := List.filter (scopeContains values) paths in
      if decide (zlen filtered ≠ zlen paths)
      then typed_fail CodeAuthorization "calendar selection is outside the configured resource scope"
      else mret filtered
  end.

Definition resolveSearchCalendars (scopes : ResourceScopes) (req : R) : M W error (list string) :=
  paths ← add_path maxExplicitSearchCalendars [] (GetString req "calendar" "");
  let multi := GetString req "calendars" "" in
  paths ← (if decide (multi = "") then mret paths
           else foldM (add_path maxExplicitSearchCalendars) (split multi ","%char) paths);
  let scope := calendarReadScope scopes in
  if 0 <? zlen paths then select_in_scope scope paths
  else
    cals ← service_calendars;
    paths ← foldM (λ paths c, poll;;
                     if in_scope scope (CalPath c) then mret (paths ++ [CalPath c])%list else mret paths)
                  cals paths;
    if bool_decide (is_Some scope) && (zlen paths =? 0)
    then typed_fail CodeAuthorization "no calendars are within the configured resource scope"
    else mret paths.

Definition has_arg (req : R) (name : string) : bool := bool_decide (is_Some (GetArguments req !! name)).

(** The paths named by the arguments. *)
Definition free_slot_selection (req : R) : M W error (list string) :=
  paths ← (if has_arg req "calendars"
           then foldM (add_path maxExplicitFreeSlotCalendars) (split (GetString req "calendars" "") ","%char) []
           else mret []);
  if has_arg req "calendar" then add_path maxExplicitFreeSlotCalendars paths (GetString req "calendar" "")
  else mret paths.

Definition resolveCalendarPaths (scopes : ResourceScopes) (req : R) : M W error (list string) :=
  paths ← free_slot_selection req;
  let scope := calendarReadScope scopes in
  if has_arg req "calendars" || has_arg req "calendar" then
    if zlen paths =? 0
    then fail (Plain "calendar selection must contain at least one non-empty path")
    else select_in_scope scope paths
  else
    poll;;
    cals ← service_calendars;
    paths ← foldM (λ paths c, poll;;
                     if decide (CalPath c = "") then mret paths else mret (paths ++ [CalPath c])%list)
                  cals paths;
    if zlen paths =? 0 then fail (Plain "no calendars are available for free-slot search")
    else mret paths.
End Selection.

(** * Contacts *)

Module Contacts.
Import CT.

Section Books.
Context {W : Type} `{ContactsService W}.

(** One configured value of the scope: an identifier, or a unique name. *)
Definition allow_value (books : list AddressBook) (allowed : gset string) (value : string)
    : result error (gset string) :=
  if existsb (λ book, bool_decide (Identifier book = value)) books then Ok ({[value]} ∪ allowed)
  else
    let byName := map Identifier (List.filter (λ book, bool_decide (BookName book = value)) books) in
    match byName with
    | [] => Err (Plain "configured address book scope does not match a discovered address book")
    | [id] => Ok ({[id]} ∪ allowed)
    | _ => Err (Plain "configured address book scope is ambiguous")
    end.

(** [None]: not restricted. *)
Definition allowedContactBooks (scopes : ResourceScopes) (action : string)
    : M W error (option (gset string)) :=
  match Contacts_scope scopes action with
  | None => mret None
  | Some values =>
      books ← try ListAddressBooks;
      allowed ← lift (fold_res (allow_value books) values ∅);
      mret (Some allowed)
  end.

Definition contactScopeAllows (scopes : ResourceScopes) (action addressBook : string) : M W error bool :=
  allowed ← allowedContactBooks scopes action;
  mret (match allowed with None => true | Some allowed => bool_decide (addressBook ∈ allowed) end).

Definition authorizeContactBook (scopes : ResourceScopes) (action addressBook : string) : M W error unit :=
  allowed ← contactScopeAllows scopes action addressBook;
  if allowed : bool then mret tt
  else fail (Typed (MkError CodeAuthorization 0 "address book is outside the configured resource scope" false 0 "")).

Definition filterAddressBooks (scopes : ResourceScopes) (books : list AddressBook) : M W error (list AddressBook) :=
  allowed ← allowedContactBooks scopes ResourceContactsRead;
  mret (match allowed with
        | None => books
        | Some allowed => List.filter (λ book, bool_decide (Identifier book ∈ allowed)) books
        end).

Definition filterContactsByBook (contacts : list ContactSummary) (addressBook : string) : list ContactSummary :=
  List.filter (λ contact, bool_decide (SumAddressBook contact = addressBook)) contacts.

Context `{UnicodeTables}.

(** By lower-cased name, then UID, then address book. *)
Definition summary_less : ContactSummary → ContactSummary → bool :=
  then_by (λ c, to_lower (DisplayName c)) string_ltb
    (then_by SumUID string_ltb (λ a b, string_ltb (SumAddressBook a) (SumAddressBook b))).
Definition sortContactSummaries (r : ContactResults) : ContactResults :=
  MkContactResults (stable_sort summary_less (Contacts r)) (ResTruncated r) (ResScanLimitReached r).

(** The loop over the allowed books. *)
Definition search_book (opts : ContactSearch) (combined : ContactResults) (id : string) : M W error ContactResults :=
  part ← try (SearchContacts (set_book id opts));
  mret (MkContactResults (Contacts combined ++ filterContactsByBook (Contacts part) id)%list
          (ResTruncated combined || ResTruncated part)
          (ResScanLimitReached combined || ResScanLimitReached part)).

Definition cut_results (limit : Z) (r : ContactResults) : ContactResults :=
  if (0 <? limit) && (limit <? zlen (Contacts r))
  then MkContactResults (take (Z.to_nat limit) (Contacts r)) true (ResScanLimitReached r)
  else r.

Definition searchScopedContacts (scopes : ResourceScopes) (opts : ContactSearch) : M W error ContactResults :=
  if decide (OptAddressBook opts ≠ "") then
    authorizeContactBook scopes ResourceContactsRead (OptAddressBook opts);;
    r ← try (SearchContacts opts);
    mret (MkContactResults (filterContactsByBook (Contacts r) (OptAddressBook opts))
            (ResTruncated r) (ResScanLimitReached r))
  else
    allowed ← allowedContactBooks scopes ResourceContactsRead;
    match allowed with
    | None => try (SearchContacts opts)
    | Some allowed =>
        combined ← foldM (search_book opts) (sort_strings (elements allowed)) no_contacts;
        mret (cut_results (OptLimit opts) (sortContactSummaries combined))
    end.
End Books.
End Contacts.

(** * Mailboxes *)

Module Mail.
Import MT.

Definition authorizeMailbox (scopes : ResourceScopes) (action mailbox : string) : result Error unit :=
  if in_scope (Mail_scope scopes action) mailbox then Ok tt
  else Err (newError CodeAuthorization "mailbox is outside the configured resource scope").

(** The loop over the further actions: [None] once one is unrestricted. *)
Fixpoint union_scopes (scopes : ResourceScopes) (actions : list string) (allowed : gset string)
    : option (gset string) :=
  match actions with
  | [] => Some allowed
  | action :: actions =>
      match Mail_scope scopes action with
      | None => None
      | Some values => union_scopes scopes actions (list_to_set values ∪ allowed)
      end
  end.

Definition filterMailboxes (mailboxes : list Mailbox) (scopes : ResourceScopes) : list Mailbox :=
  match Mail_scope scopes ResourceMailRead with
  | None => mailboxes
  | Some readValues =>
      match union_scopes scopes [ResourceMailMutate; ResourceMailArchive] (list_to_set readValues) with
      | None => mailboxes
      | Some allowed => List.filter (λ mailbox, bool_decide (MbName mailbox ∈ allowed)) mailboxes
      end
  end.

Definition has_attribute (name : string) (mailbox : Mailbox) : bool :=
  existsb (λ attribute, equal_fold attribute name) (Attributes mailbox).
Definition selectable (mailbox : Mailbox) : bool :=
  negb (existsb (λ attribute, equal_fold attribute "\Noselect" || equal_fold attribute "\NonExistent")
          (Attributes mailbox)).

Definition uniqueTrashMailbox (mailboxes : list Mailbox) : result Error string :=
  let trash := map MbName (List.filter (λ m, selectable m && has_attribute "\Trash" m) mailboxes) in
  match trash with
  | [name] => Ok name
  | _ => Err (newError CodeProtocolError "exactly one selectable SPECIAL-USE Trash mailbox is required")
  end.
End Mail.

(** * Filtering agrees with authorization *)

Lemma authorizeCalendar_ok scopes action path :
  is_ok (authorizeCalendar scopes action path) = in_scope (Calendar_scope scopes action) path.
Proof. unfold authorizeCalendar. by destruct (in_scope _ _). Qed.
Lemma authorizeMailbox_ok scopes action mailbox :
  is_ok (Mail.authorizeMailbox scopes action mailbox) = in_scope (Mail_scope scopes action) mailbox.
Proof. unfold Mail.authorizeMailbox. by destruct (in_scope _ _). Qed.

Lemma filter_true {A} (f : A → bool) l : (∀ a, a ∈ l → f a = true) → List.filter f l = l.
Proof.
  induction l as [|a l IH]; intros Hf; simpl; [done|].
  rewrite Hf by left. f_equal. apply IH. intros. apply Hf. by right.
Qed.
Lemma filter_ext_bool {A} (f g : A → bool) l : (∀ a, f a = g a) → List.filter f l = List.filter g l.
Proof. intros Hfg. induction l as [|a l IH]; simpl; [done|]. by rewrite Hfg, IH. Qed.
Lemma elem_of_filter_bool {A} (f : A → bool) l a : a ∈ List.filter f l ↔ a ∈ l ∧ f a = true.
Proof. rewrite !list_elem_of_In. apply List.filter_In. Qed.
#[export] Hint Rewrite @elem_of_filter_bool : go.

(** Some action of the list admits the mailbox. *)
Definition any_scope (scopes : ResourceScopes) (actions : list string) (name : string) : bool :=
  existsb (λ action, in_scope (Mail_scope scopes action) name) actions.

Lemma union_scopes_spec scopes actions allowed name :
  match Mail.union_scopes scopes actions allowed with
  | None => any_scope scopes actions name = true
  | Some allowed' => bool_decide (name ∈ allowed') = bool_decide (name ∈ allowed) || any_scope scopes actions name
  end.
Proof.
  revert allowed. induction actions as [|action actions IH]; intros allowed; simpl.
  { by rewrite orb_false_r. }
  destruct (Mail_scope scopes action) as [values|] eqn:Hs; [|done].
  specialize (IH (list_to_set values ∪ allowed)).
  destruct (Mail.union_scopes scopes actions _) as [allowed'|]; [|by rewrite IH, orb_true_r].
  rewrite IH, orb_assoc. f_equal. simpl.
  apply eq_true_iff_eq. rewrite orb_true_iff, !bool_decide_eq_true, elem_of_union, elem_of_list_to_set, scopeContains_spec.
  tauto.
Qed.

Lemma filterCalendars_authorized scopes action calendars :
  filterCalendars calendars scopes action
  = List.filter (λ c, is_ok (authorizeCalendar scopes action (CalPath c))) calendars.
Proof.
  unfold filterCalendars.
  rewrite (filter_ext_bool (λ c, is_ok _) (λ c, in_scope (Calendar_scope scopes action) (CalPath c)))
    by (intros; apply authorizeCalendar_ok).
  destruct (Calendar_scope scopes action); [done|]. symmetry. by apply filter_true.
Qed.

(** Listings show exactly what may be acted on: [filterCalendars] keeps
    the calendars the action is authorized for, and [filterMailboxes] the
    mailboxes that reading, mutating or archiving is authorized for, in the
    order the server gave them. *)
Theorem filters_authorized scopes :
  (∀ action calendars, filterCalendars calendars scopes action
     = List.filter (λ c, is_ok (authorizeCalendar scopes action (CalPath c))) calendars) ∧
  (∀ mailboxes, Mail.filterMailboxes mailboxes scopes
     = List.filter (λ m, existsb (λ action, is_ok (Mail.authorizeMailbox scopes action (MT.MbName m)))
                         [ResourceMailRead; ResourceMailMutate; ResourceMailArchive]) mailboxes).
Proof.
  split.
  - intros action calendars. apply filterCalendars_authorized.
  - intros mailboxes. transitivity (List.filter
      (λ m, any_scope scopes [ResourceMailRead; ResourceMailMutate; ResourceMailArchive] (MT.MbName m)) mailboxes).
    2: { apply filter_ext_bool. intros m. unfold any_scope. cbn [existsb]. by rewrite !authorizeMailbox_ok. }
    unfold Mail.filterMailboxes, any_scope. cbn [existsb].
    destruct (Mail_scope scopes ResourceMailRead) as [values|].
    2: { symmetry. by apply filter_true. }
    pose proof (union_scopes_spec scopes [ResourceMailMutate; ResourceMailArchive] (list_to_set values)) as Hu.
    unfold any_scope in Hu. cbn [existsb] in Hu.
    destruct (Mail.union_scopes _ _ _) as [allowed|].
    + apply filter_ext_bool. intros m. rewrite Hu. f_equal. simpl.
      apply eq_true_iff_eq. by rewrite bool_decide_eq_true, elem_of_list_to_set, scopeContains_spec.
    + symmetry. apply filter_true. intros m _. rewrite Hu. apply orb_true_r.
Qed.

(** * What a calendar selection is *)

(** The first occurrence of each element, in order. *)
Definition add_new (acc : list string) (x : string) : list string :=
  if decide (x = "") then acc else if decide (x ∈ acc) then acc else (acc ++ [x])%list.
Definition selection (parts : list string) : list string :=
  fold_left (λ acc p, add_new acc (trim_space p)) parts [].

(** Duplicate-free, well-formed paths, at most [max] of them. *)
Definition good_paths (max : Z) (paths : list string) : Prop :=
  NoDup paths ∧ zlen paths <= max ∧ ∀ p, p ∈ paths → ValidateCalendarPath p = Ok tt.

Section SelectionProofs.
Context {W R : Type} `{Ctx W, Service W, ToolRequest R}.

Lemma yields_add_path max paths p :
  0 <= max → good_paths max paths →
  yields (add_path (W:=W) max paths p) (λ out, out = add_new paths (trim_space p) ∧ good_paths max out).
Proof.
  intros Hmax Hg. unfold add_path, add_new. step_any. intros _ _. cbv zeta.
  destruct (decide (trim_space p = "")); [by apply yields_ret|].
  step (λ _, ValidateCalendarPath (trim_space p) = Ok tt).
  { apply yields_lift. by intros []. }
  intros _ Hv. destruct (decide (trim_space p ∈ paths)) as [|Hnew]; [by apply yields_ret|].
  apply yields_if; [intros _; apply yields_fail|]. intros Hlt%Z.leb_gt. apply yields_ret.
  split; [done|]. destruct Hg as (Hnd & Hlen & Hval). split_and!.
  - apply NoDup_app. split_and!; [done| |apply NoDup_singleton]. intros q Hq ->%list_elem_of_singleton. done.
  - rewrite zlen_app. change (zlen [trim_space p]) with 1. lia.
  - intros q [Hq| ->%list_elem_of_singleton]%elem_of_app; [by apply Hval|done].
Qed.

Lemma yields_add_paths max parts paths :
  0 <= max → good_paths max paths →
  yields (foldM (add_path (W:=W) max) parts paths)
    (λ out, out = fold_left (λ acc p, add_new acc (trim_space p)) parts paths ∧ good_paths max out).
Proof.
  intros Hmax Hg. eapply yields_weaken; [apply (yields_fold (λ seen out,
    out = fold_left (λ acc p, add_new acc (trim_space p)) seen paths ∧ good_paths max out))|done].
  - done.
  - intros seen p out [-> Hout]. rewrite fold_left_app. by apply yields_add_path.
Qed.

Lemma good_nil max : 0 <= max → good_paths max [].
Proof. intros. split_and!; [apply NoDup_nil_2|done|by intros p Hp%not_elem_of_nil]. Qed.

Lemma yields_select scope paths :
  yields (select_in_scope (W:=W) scope paths) (λ out, out = paths ∧ ∀ p, p ∈ paths → in_scope scope p = true).
Proof.
  unfold select_in_scope. destruct scope as [values|]; [|by apply yields_ret].
  destruct (decide _) as [|Hlen]; [apply yields_fail|]. apply yields_ret.
  assert (List.filter (scopeContains values) paths = paths) as Hf.
  { apply dec_stable in Hlen. unfold zlen in Hlen.
    clear -Hlen. assert (length (List.filter (scopeContains values) paths) = length paths) as Hl by lia. clear Hlen.
    induction paths as [|p paths IH]; simpl in *; [done|].
    pose proof (List.filter_length_le (scopeContains values) paths).
    destruct (scopeContains values p); simpl in *; [f_equal; apply IH; lia|lia]. }
  split; [done|]. intros p Hp. rewrite <-Hf in Hp. by apply elem_of_filter_bool in Hp as [_ Hp].
Qed.

(** The discovered calendars that satisfy [keep], in order. *)
Lemma yields_discovered (keep : Calendar → bool) (cals : list Calendar) :
  yields (foldM (λ paths c, poll;; if keep c then mret (paths ++ [CalPath c])%list else mret paths) cals []
          : M W error _)
    (λ out, out = map CalPath (List.filter keep cals)).
Proof.
  apply (yields_fold (λ seen out, out = map CalPath (List.filter keep seen))); [done|].
  intros seen c out ->. step_any. intros _ _. rewrite List.filter_app, List.map_app. simpl.
  destruct (keep c); apply yields_ret; simpl; by rewrite ?app_nil_r.
Qed.

(** The parts [search_events] reads its selection from. *)
Definition search_parts (req : R) : list string :=
  GetString req "calendar" "" ::
  (if decide (GetString req "calendars" "" = "") then [] else split (GetString req "calendars" "") ","%char).

(** From one world to another by looks at the context alone. *)
Definition looked : W → W → Prop := star (λ w1 w2, w2 = (ctx_Err w1).1).
Definition looks {A} (m : M W error A) : Prop := ∀ w, looked w (m w).1.
Lemma looks_pure {A} (m : M W error A) : (∀ w, (m w).1 = w) → looks m.
Proof. intros Hm w. rewrite Hm. constructor. Qed.
Lemma looks_poll : looks poll.
Proof. intros w. eapply star_step; [constructor|]. unfold poll. by destruct (ctx_Err w). Qed.
Lemma looks_bind {A B} (m : M W error A) (f : A → M W error B) : looks m → (∀ a, looks (f a)) → looks (m ≫= f).
Proof.
  intros Hm Hf w. specialize (Hm w). unfold mbind, M_bind. destruct (m w) as [w1 [a|e]]; [|done].
  simpl in Hm. eapply star_trans; [exact Hm|apply Hf].
Qed.
Lemma looks_fold {A S} (f : S → A → M W error S) l : (∀ s a, looks (f s a)) → ∀ s, looks (foldM f l s).
Proof.
  intros Hf. induction l as [|a l IH]; intros s; cbn [foldM]; [by apply looks_pure|].
  apply looks_bind; [apply Hf|exact IH].
Qed.
Lemma looks_add_path max paths p : looks (add_path (W:=W) max paths p).
Proof.
  unfold add_path. apply looks_bind; [apply looks_poll|intros _]. cbv zeta.
  destruct (decide _); [by apply looks_pure|]. apply looks_bind.
  { apply looks_pure. intros w. unfold lift. by destruct (ValidateCalendarPath _). }
  intros _. destruct (decide _); [by apply looks_pure|]. destruct (_ <=? _); by apply looks_pure.
Qed.
Lemma looks_select scope paths : looks (select_in_scope (W:=W) scope paths).
Proof. unfold select_in_scope. destruct scope; [destruct (decide _)|]; by apply looks_pure. Qed.

(** The selection of the arguments. *)
Definition selected_paths (req : R) : M W error (list string) :=
  paths ← add_path maxExplicitSearchCalendars [] (GetString req "calendar" "");
  (if decide (GetString req "calendars" "" = "") then mret paths
   else foldM (add_path maxExplicitSearchCalendars) (split (GetString req "calendars" "") ","%char) paths).
Lemma yields_selected (req : R) :
  yields (selected_paths req) (λ out, out = selection (search_parts req) ∧ good_paths maxExplicitSearchCalendars out).
Proof.
  unfold selected_paths.
  step (λ out, out = add_new [] (trim_space (GetString req "calendar" "")) ∧ good_paths maxExplicitSearchCalendars out).
  { apply yields_add_path; [done|by apply good_nil]. }
  intros paths1 [Hp1 Hg1]. unfold selection, search_parts. cbn [fold_left]. rewrite <-Hp1.
  destruct (decide _); [by apply yields_ret|by apply yields_add_paths].
Qed.
Lemma looks_selected (req : R) : looks (selected_paths req).
Proof.
  unfold selected_paths. apply looks_bind; [apply looks_add_path|]. intros paths.
  destruct (decide _); [by apply looks_pure|]. apply looks_fold. apply looks_add_path.
Qed.
Lemma run_looks {A} (m : M W error A) w w' a : looks m → m w = (w', Ok a) → looked w w'.
Proof. intros Hm Hrun. specialize (Hm w). by rewrite Hrun in Hm. Qed.

(** The calendars one listing gives, restricted to the scope. *)
Lemma discovered_run scopes cals w w' (paths : list string) :
  foldM (λ paths c, poll;; if in_scope (calendarReadScope scopes) (CalPath c) then mret (paths ++ [CalPath c])%list else mret paths)
    cals [] w = (w', Ok paths) →
  looked w w' ∧ paths = map CalPath (filterCalendarReads cals scopes).
Proof.
  intros Hrun. split.
  - eapply run_looks, Hrun. apply looks_fold. intros s c. apply looks_bind; [apply looks_poll|intros _].
    destruct (in_scope _ _); by apply looks_pure.
  - apply (yields_discovered (λ c, in_scope (calendarReadScope scopes) (CalPath c))) in Hrun as ->.
    unfold filterCalendarReads, filterCalendars, calendarReadScope.
    destruct (Calendar_scope scopes ResourceCalendarRead); [done|]. by rewrite filter_true.
Qed.

(** (C33) A calendar search never leaves the configured scope: every path
    [resolveSearchCalendars] returns is authorized for reading.  With an
    explicit selection the result is that selection, trimmed, without empty or
    repeated entries, in order, at most ten well-formed paths, and nothing is
    listed; otherwise the calendars are listed exactly once, and the result is
    what that listing returned, in its order, restricted to the scope. *)
Theorem resolveSearchCalendars_in_scope scopes (req : R) w w' paths :
  resolveSearchCalendars (W:=W) scopes req w = (w', Ok paths) →
  (∀ p, p ∈ paths → authorizeCalendarRead scopes p = Ok tt) ∧
  (selection (search_parts req) ≠ [] →
     paths = selection (search_parts req) ∧ good_paths maxExplicitSearchCalendars paths ∧ looked w w') ∧
  (selection (search_parts req) = [] →
     ∃ w0 w1 cals, looked w w0 ∧ ListCalendars w0 = (w1, (cals, None)) ∧ looked w1 w' ∧
       paths = map CalPath (filterCalendarReads cals scopes)).
Proof.
  intros Hrun. unfold resolveSearchCalendars in Hrun.
  apply run_bind in Hrun as (wa & paths1 & Hone & Hrun). cbv zeta in Hrun.
  apply run_bind in Hrun as (wb & paths2 & Htwo & Hrun).
  assert (selected_paths req w = (wb, Ok paths2)) as Hsel.
  { unfold selected_paths. apply run_bind. by exists wa, paths1. }
  clear Hone Htwo. destruct (yields_selected req _ _ _ Hsel) as [Hp Hg]. apply run_looks in Hsel; [|apply looks_selected].
  rewrite <-Hp. destruct (0 <? zlen paths2) eqn:Hlen.
  - destruct (yields_select _ _ _ _ _ Hrun) as [-> Hin]. split_and!; [|intros _; split_and!; [done|done|]|intros ->; done].
    + intros p Hpin. apply Hin in Hpin. unfold calendarReadScope in Hpin. unfold authorizeCalendarRead, authorizeCalendar. by rewrite Hpin.
    + eapply star_trans; [exact Hsel|]. eapply run_looks, Hrun. apply looks_select.
  - assert (paths2 = []) as Hnil by (destruct paths2; [done|]; rewrite zlen_cons in Hlen;
      pose proof (zlen_nonneg paths2); bool_to_prop; lia).
    rewrite Hnil in *. apply run_bind in Hrun as (wc & cals & Hlist & Hrun). apply run_try in Hlist.
    apply run_bind in Hrun as (wd & out & [Hlook ->]%discovered_run & Hrun).
    destruct (_ && _); [done|]. apply run_ret in Hrun as [<- <-].
    split_and!; [|done|intros _; by exists wb, wc, cals].
    intros p Hpin. apply list_elem_of_In, List.in_map_iff in Hpin as (c & <- & Hc%list_elem_of_In).
    unfold filterCalendarReads in Hc. rewrite filterCalendars_authorized in Hc.
    apply elem_of_filter_bool in Hc as [_ Hc]. unfold authorizeCalendarRead.
    by destruct (authorizeCalendar _ _ _) as [[]|].
Qed.
(** The parts [find_free_slots] reads its selection from. *)
Definition free_slot_parts (req : R) : list string :=
  ((if has_arg req "calendars" then split (GetString req "calendars" "") ","%char else []) ++
   (if has_arg req "calendar" then [GetString req "calendar" ""] else []))%list.

Lemma yields_free_slot_selection (req : R) :
  yields (free_slot_selection (W:=W) req)
    (λ out, out = selection (free_slot_parts req) ∧ good_paths maxExplicitFreeSlotCalendars out).
Proof.
  unfold free_slot_selection, free_slot_parts, selection.
  step (λ out, out = fold_left (λ acc p, add_new acc (trim_space p))
                (if has_arg req "calendars" then split (GetString req "calendars" "") ","%char else []) []
              ∧ good_paths maxExplicitFreeSlotCalendars out).
  { apply yields_if; intros ->; [|apply yields_ret; split; [done|by apply good_nil]].
    apply yields_add_paths; [done|by apply good_nil]. }
  intros out [Hout Hg]. rewrite fold_left_app, <-Hout. apply yields_if; intros ->.
  - by apply yields_add_path.
  - by apply yields_ret.
Qed.

(** The calendars of [find_free_slots].  An explicit selection is the
    selection asked for, trimmed, without empty or repeated entries, not empty,
    at most ten well-formed paths, all authorized for reading.  Without one the
    configured scope is not looked at at all: the calendars read are the ones
    an unrestricted server reads. *)
Theorem resolveCalendarPaths_scope scopes (req : R) :
  (has_arg req "calendars" || has_arg req "calendar" = true →
   yields (resolveCalendarPaths (W:=W) scopes req) (λ paths,
     paths = selection (free_slot_parts req) ∧ paths ≠ [] ∧ good_paths maxExplicitFreeSlotCalendars paths ∧
     ∀ p, p ∈ paths → authorizeCalendarRead scopes p = Ok tt)) ∧
  (has_arg req "calendars" || has_arg req "calendar" = false →
   ∀ w : W, resolveCalendarPaths scopes req w = resolveCalendarPaths no_scopes req w).
Proof.
  split.
  - intros Harg. unfold resolveCalendarPaths.
    eapply yields_bind; [apply yields_free_slot_selection|]. intros paths [Hp Hg]. cbv zeta. rewrite Harg.
    apply yields_if; [intros _; apply yields_fail|]. intros Hlen.
    eapply yields_weaken; [apply yields_select|]. intros out [-> Hin]. split_and!; [done| |done|].
    + intros ->. done.
    + intros p Hpin. apply Hin in Hpin. unfold authorizeCalendarRead, authorizeCalendar.
      unfold calendarReadScope in Hpin. by rewrite Hpin.
  - intros Harg w. unfold resolveCalendarPaths. by rewrite !Harg.
Qed.
End SelectionProofs.

(** * The address books of a scope *)

Section ContactProofs.
Import CT Contacts.
Context {W : Type} `{ContactsService W, UnicodeTables}.

(** A configured value names a book: by its identifier, or by a name no other
    book has. *)
Definition names_book (books : list AddressBook) (value id : string) : Prop :=
  (id = value ∧ value ∈ map Identifier books) ∨
  (value ∉ map Identifier books ∧
   map Identifier (List.filter (λ book, bool_decide (BookName book = value)) books) = [id]).
Definition granted (books : list AddressBook) (values : list string) (id : string) : Prop :=
  ∃ value, value ∈ values ∧ names_book books value id.

Lemma identifier_known books value :
  existsb (λ book, bool_decide (Identifier book = value)) books = true ↔ value ∈ map Identifier books.
Proof.
  rewrite List.existsb_exists, list_elem_of_In, List.in_map_iff. setoid_rewrite bool_decide_eq_true.
  split; intros (b & ? & ?); by exists b.
Qed.

Lemma allow_value_spec books allowed value allowed' :
  allow_value books allowed value = Ok allowed' →
  ∀ id, id ∈ allowed' ↔ id ∈ allowed ∨ names_book books value id.
Proof.
  unfold allow_value, names_book. destruct (existsb _ _) eqn:Hknown.
  - apply identifier_known in Hknown. intros Heq id. injection Heq as <-. set_solver.
  - assert (value ∉ map Identifier books) as Hno by (rewrite <-identifier_known, Hknown; done).
    destruct (map Identifier (List.filter _ books)) as [|id0 [|]]; intros Heq id; [done| |done].
    injection Heq as <-. rewrite elem_of_union, elem_of_singleton. naive_solver.
Qed.

Lemma allow_values_spec books values allowed allowed' :
  fold_res (allow_value books) values allowed = Ok allowed' →
  ∀ id, id ∈ allowed' ↔ id ∈ allowed ∨ granted books values id.
Proof.
  revert allowed. unfold granted. induction values as [|value values IH]; intros allowed; simpl.
  { intros [= <-] id. split; [by left|]. intros [?|(? & Hin & _)]; [done|]. by apply not_elem_of_nil in Hin. }
  destruct (allow_value books allowed value) as [s|] eqn:Hv; [|done]. intros Hf id.
  rewrite (IH s Hf id), (allow_value_spec _ _ _ _ Hv id). setoid_rewrite elem_of_cons. naive_solver.
Qed.

Lemma allowedContactBooks_spec scopes action w w' allowed :
  allowedContactBooks scopes action w = (w', Ok allowed) →
  match Contacts_scope scopes action, allowed with
  | None, None => w' = w
  | Some values, Some allowed =>
      ∃ books, ListAddressBooks w = (w', (books, None)) ∧ ∀ id, id ∈ allowed ↔ granted books values id
  | _, _ => False
  end.
Proof.
  unfold allowedContactBooks. destruct (Contacts_scope scopes action) as [values|].
  2: { by intros [-> <-]%run_ret. }
  intros (w1 & books & Hb%run_try & Hr)%run_bind.
  apply run_bind in Hr as (w2 & s & [-> Hs]%run_lift & [-> <-]%run_ret).
  exists books. split; [done|]. intros id. rewrite (allow_values_spec _ _ _ _ Hs id). set_solver.
Qed.

Lemma elem_of_book_contacts l book c : c ∈ filterContactsByBook l book ↔ c ∈ l ∧ SumAddressBook c = book.
Proof. unfold filterContactsByBook. by rewrite elem_of_filter_bool, bool_decide_eq_true. Qed.

(** The loop over the books collects contacts of those books only. *)
Lemma search_books_from opts ids w w' r :
  foldM (search_book opts) ids no_contacts w = (w', Ok r) →
  ∀ c, c ∈ Contacts r → SumAddressBook c ∈ ids.
Proof.
  intros Hrun. revert w w' r Hrun.
  apply (yields_fold (λ ids r, ∀ c, c ∈ Contacts r → SumAddressBook c ∈ ids)).
  { by intros c Hc%not_elem_of_nil. }
  intros seen id r Hr. unfold search_book. step_any. intros part _. apply yields_ret. simpl.
  intros c [Hc|[_ <-]%elem_of_book_contacts]%elem_of_app; apply elem_of_app; [by left; apply Hr|right; left].
Qed.

Lemma summary_order : WeakOrder summary_less.
Proof. apply _. Qed.

Definition sorted_summaries (l : list ContactSummary) : Prop := StronglySorted (may_precede summary_less) l.
Lemma cut_sorted limit r : sorted_summaries (Contacts r) → sorted_summaries (Contacts (cut_results limit r)).
Proof.
  unfold cut_results. destruct (_ && _); [|done]. simpl. unfold sorted_summaries. intros Hs.
  rewrite <-(take_drop (Z.to_nat limit) (Contacts r)) in Hs. by apply StronglySorted_app in Hs as (_ & Hs & _).
Qed.
Lemma elem_of_cut limit r c : c ∈ Contacts (cut_results limit r) → c ∈ Contacts r.
Proof.
  unfold cut_results. destruct (_ && _); [|done]. simpl. intros Hc.
  rewrite <-(take_drop (Z.to_nat limit) (Contacts r)). apply elem_of_app. by left.
Qed.
Lemma cut_limit limit r : 0 < limit → zlen (Contacts (cut_results limit r)) <= limit.
Proof.
  intros Hl. unfold cut_results. destruct (_ && _) eqn:E; simpl.
  - unfold zlen. rewrite length_take. lia.
  - apply andb_false_iff in E as [E|E]; bool_to_prop; lia.
Qed.

(** A contact search under a scope only returns contacts of address
    books the scope names (by identifier or by a unique name, among the books
    the server lists at that moment); with a requested book only contacts of
    that book; and a search over several books comes back sorted and within
    the requested limit. *)
Theorem searchScopedContacts_in_scope scopes opts w w' r :
  searchScopedContacts scopes opts w = (w', Ok r) →
  (∀ values, Contacts_scope scopes ResourceContactsRead = Some values →
     ∃ books w1, ListAddressBooks w = (w1, (books, None)) ∧
       (∀ c, c ∈ Contacts r → granted books values (SumAddressBook c)) ∧
       (OptAddressBook opts = "" →
          sorted_summaries (Contacts r) ∧ (0 < OptLimit opts → zlen (Contacts r) <= OptLimit opts))) ∧
  (OptAddressBook opts ≠ "" → ∀ c, c ∈ Contacts r → SumAddressBook c = OptAddressBook opts).
Proof.
  unfold searchScopedContacts. destruct (decide (OptAddressBook opts ≠ "")) as [Hbook|Hbook].
  - intros (w1 & [] & Hauth & Hr)%run_bind. apply run_bind in Hr as (w2 & part & _ & [_ <-]%run_ret). simpl.
    assert (∀ c, c ∈ filterContactsByBook (Contacts part) (OptAddressBook opts) →
            SumAddressBook c = OptAddressBook opts) as Hc by (by intros c [_ Hc]%elem_of_book_contacts).
    split; [|done]. intros values Hscope.
    unfold authorizeContactBook in Hauth. apply run_bind in Hauth as (w3 & ok & Hauth & Hok).
    destruct ok; [|done]. unfold contactScopeAllows in Hauth.
    apply run_bind in Hauth as (w4 & allowed & Hallowed & [_ Hin]%run_ret).
    apply allowedContactBooks_spec in Hallowed. rewrite Hscope in Hallowed.
    destruct allowed as [allowed|]; [|done]. destruct Hallowed as (books & Hbooks & Hspec).
    apply bool_decide_eq_true in Hin. exists books, w4. split_and!; [done| |done].
    intros c ->%Hc. by apply Hspec.
  - intros (w1 & allowed & Hallowed & Hr)%run_bind. apply dec_stable in Hbook.
    split; [|done]. intros values Hscope.
    apply allowedContactBooks_spec in Hallowed. rewrite Hscope in Hallowed.
    destruct allowed as [allowed|]; [|done]. destruct Hallowed as (books & Hbooks & Hspec).
    apply run_bind in Hr as (w2 & combined & Hfold & [_ <-]%run_ret).
    exists books, w1. split_and!; [done| |].
    + intros c Hc%elem_of_cut. simpl in Hc. rewrite stable_sort_Permutation in Hc.
      apply Hspec. pose proof (search_books_from _ _ _ _ _ Hfold c Hc) as Hid.
      by rewrite elem_of_sort_strings, elem_of_elements in Hid.
    + intros _. split; [|apply cut_limit]. apply cut_sorted.
      apply stable_sort_sorted; [intros a b c; apply (less_negtrans (less:=summary_less))
                                |intros a b; apply (less_asym (less:=summary_less))].
Qed.
End ContactProofs.

(** * A small server *)

(** Two calendars, a live context, and requests that are argument maps. *)
Definition demo_service : Service unit := {|
  ListCalendars w := (w, ([MkCalendar "/1/work/" "Work" "" ""; MkCalendar "/1/home/" "Home" "" ""], None));
  SearchEvents _ _ _ _ w := (w, (no_results, None)); GetEvent _ _ w := (w, (None, None));
  CreateEvent _ _ w := (w, ("", None)); UpdateEvent _ _ _ w := (w, None);
  DeleteEvent _ _ _ w := (w, (no_deletion, None)) |}.
Definition demo_ctx : Ctx unit := {| ctx_Err w := (w, None) |}.
Definition demo_string (args : gmap string arg) (name : string) : option string :=
  match args !! name with Some (ArgString s) => Some s | _ => None end.
Definition demo_request : ToolRequest (gmap string arg) := {|
  GetArguments req := req;
  GetString req name d := default d (demo_string req name);
  RequireString req name := match demo_string req name with
                            | Some s => Ok s | None => Err (Plain "required argument is missing") end |}.
#[local] Existing Instances demo_service demo_ctx demo_request.

(** Reading is restricted to one calendar. *)
Definition work_only : ResourceScopes := MkScopes true {[ResourceCalendarRead := ["/1/work/"]]}.

Definition search_args : gmap string arg := {["calendar" := ArgString "/1/work/"; "calendars" := ArgString " ,/1/work/"]}.
Lemma resolveSearchCalendars_in_scope_witness :
  resolveSearchCalendars work_only search_args tt = (tt, Ok ["/1/work/"]) ∧
  authorizeCalendarRead work_only "/1/work/" = Ok tt.
Proof.
  assert (resolveSearchCalendars work_only search_args tt = (tt, Ok ["/1/work/"])) as Hrun
    by (vm_compute; reflexivity).
  split; [exact Hrun|].
  apply (resolveSearchCalendars_in_scope work_only search_args tt tt _ Hrun). apply list_elem_of_singleton. reflexivity.
Defined.

(** An explicit selection, and the calendar outside the scope that is read
    without one. *)
Lemma resolveCalendarPaths_scope_witness :
  (resolveCalendarPaths work_only search_args tt = (tt, Ok ["/1/work/"]) ∧
   authorizeCalendarRead work_only "/1/work/" = Ok tt) ∧
  resolveCalendarPaths work_only (∅ : gmap string arg) tt = (tt, Ok ["/1/work/"; "/1/home/"]) ∧
  authorizeCalendarRead work_only "/1/home/" ≠ Ok tt ∧
  resolveSearchCalendars work_only (∅ : gmap string arg) tt = (tt, Ok ["/1/work/"]).
Proof.
  split; [|split; [|split; [vm_compute; discriminate|vm_compute; reflexivity]]].
  - assert (resolveCalendarPaths work_only search_args tt = (tt, Ok ["/1/work/"])) as Hrun
      by (vm_compute; reflexivity).
    split; [exact Hrun|].
    assert (has_arg search_args "calendars" || has_arg search_args "calendar" = true) as Harg
      by (vm_compute; reflexivity).
    apply (proj1 (resolveCalendarPaths_scope work_only search_args) Harg tt tt _ Hrun).
    apply list_elem_of_singleton. reflexivity.
  - rewrite (proj2 (resolveCalendarPaths_scope work_only ∅)); vm_compute; reflexivity.
Defined.

(** Two address books; the search ignores its options, so the filter has work
    to do. *)
Definition demo_summary (book uid name : string) : CT.ContactSummary :=
  CT.MkContactSummary book uid "" name "" [] [] false.
Definition demo_contacts : CT.ContactsService unit := {|
  CT.ListAddressBooks w :=
    (w, ([CT.MkAddressBook "ab1" "Team" "" [] "" 0; CT.MkAddressBook "ab2" "Private" "" [] "" 0], None));
  CT.SearchContacts _ w :=
    (w, (CT.MkContactResults
           [demo_summary "ab2" "u3" "Ann"; demo_summary "ab1" "u1" "zoe"; demo_summary "ab1" "u2" "Bob"] false false, None));
  CT.GetContact _ _ w := (w, (None, None));
  CT.CreateContact _ w := (w, (CT.MkMutationResult "" "" "" false "", None));
  CT.UpdateContact _ w := (w, (CT.MkMutationResult "" "" "" false "", None));
  CT.DeleteContact _ w := (w, (CT.MkContactDeletion "" "" false false, None)) |}.
#[local] Existing Instances demo_contacts ascii_tables.

Definition team_only : ResourceScopes := MkScopes true {[ResourceContactsRead := ["Team"]]}.
Definition everything : CT.ContactSearch := CT.MkContactSearch "" "" "" "" false 1.
Lemma searchScopedContacts_in_scope_witness :
  let r := CT.MkContactResults [demo_summary "ab1" "u2" "Bob"] true false in
  Contacts.searchScopedContacts team_only everything tt = (tt, Ok r) ∧
  ∃ books w1, CT.ListAddressBooks tt = (w1, (books, None)) ∧
    ∀ c, c ∈ CT.Contacts r → granted books ["Team"] (CT.SumAddressBook c).
Proof.
  intros r.
  assert (Contacts.searchScopedContacts team_only everything tt = (tt, Ok r)) as Hrun by (vm_compute; reflexivity).
  split; [exact Hrun|].
  assert (Contacts_scope team_only ResourceContactsRead = Some ["Team"]) as Hscope by (vm_compute; reflexivity).
  destruct (proj1 (searchScopedContacts_in_scope team_only everything tt tt r Hrun) _ Hscope)
    as (books & w1 & Hbooks & Hc & _).
  exists books, w1. exact (conj Hbooks Hc).
Defined.
