(* ===== verification/CalendarReads.v ===== *)
(** [parallelCalendarReads] (src/internal/mcptools/calendar_reads.go): a
    bounded pool of workers that reads each selected calendar once. *)
From S2P Require Import Prelude.

Definition calendarReadConcurrency : nat := 4.

Section Pool.
(** [T] is the value with its error; [answer p v]: a read of path [p] may
    return [v]. *)
Context {T : Type} (answer : string → T → Prop).

(** The pool while it runs: the paths, the index the sender offers next, the
    index each busy worker is reading, and the slots filled so far.  A worker
    writes only the slot of the index it received. *)
Record pool := MkPool {
  paths : list string;
  next : nat;
  busy : gmap nat nat;
  results : gmap nat T;
}.
Definition workers (ps : list string) : nat := Nat.min calendarReadConcurrency (length ps).
Definition start_pool (ps : list string) : pool := MkPool ps 0 ∅ ∅.

Inductive pool_step : pool → pool → Prop :=
| pool_receive c worker :
    (worker < workers (paths c))%nat → busy c !! worker = None → (next c < length (paths c))%nat →
    pool_step c (MkPool (paths c) (S (next c)) (<[worker := next c]> (busy c)) (results c))
| pool_answer c worker index p v :
    busy c !! worker = Some index → paths c !! index = Some p → answer p v →
    pool_step c (MkPool (paths c) (next c) (delete worker (busy c)) (<[index := v]> (results c))).

(** [close(jobs)] has been received by every worker: [wait.Wait()] returns. *)
Definition pool_done (c : pool) : Prop := next c = length (paths c) ∧ busy c = ∅.

(** The slice [parallelCalendarReads] returns. *)
Definition pool_results (c : pool) : list (option T) :=
  map (λ i, results c !! i) (seq 0 (length (paths c))).

(** * Invariant *)

Record pool_ok (ps : list string) (c : pool) : Prop := {
  ok_paths : paths c = ps;
  ok_next : (next c <= length ps)%nat;
  ok_workers : ∀ w i, busy c !! w = Some i → (w < workers ps)%nat ∧ (i < next c)%nat ∧ results c !! i = None;
  ok_distinct : ∀ w w' i, busy c !! w = Some i → busy c !! w' = Some i → w = w';
  (** Each index handed out is being read, or has its answer. *)
  ok_handed : ∀ i, (i < next c)%nat →
    (∃ w, busy c !! w = Some i) ∨ (∃ p v, results c !! i = Some v ∧ ps !! i = Some p ∧ answer p v);
  ok_unread : ∀ i, (next c <= i)%nat → results c !! i = None;
}.

Lemma start_pool_ok ps : pool_ok ps (start_pool ps).
Proof.
  split; simpl; [done|lia|..].
  - intros w i Hw. by rewrite lookup_empty in Hw.
  - intros w w' i Hw. by rewrite lookup_empty in Hw.
  - intros i Hi. lia.
  - intros i _. apply lookup_empty.
Qed.

Lemma pool_step_ok ps c c' : pool_ok ps c → pool_step c c' → pool_ok ps c'.
Proof.
  intros [Hp Hn Hw Hd Hh Hu] Hs. destruct Hs as [c worker Hlt Hidle Hnext|c worker index p v Hbusy Hpath Hans];
    split; simpl; try done; rewrite ?Hp in *.
  - lia.
  - intros w i [[<- <-]|[Hne Hwi]]%lookup_insert_Some; [split_and!; [done|lia|apply Hu; lia]|].
    destruct (Hw w i Hwi) as (? & ? & ?). split_and!; [done|lia|done].
  - intros w w' i [[<- <-]|[Hne Hwi]]%lookup_insert_Some [[<- Hi]|[Hne' Hwi']]%lookup_insert_Some;
      [done| | |by eapply Hd].
    + apply Hw in Hwi' as (_ & Hlt' & _). lia.
    + subst i. apply Hw in Hwi as (_ & Hlt' & _). lia.
  - intros i Hi. destruct (decide (i = next c)) as [->|Hne].
    + left. exists worker. apply lookup_insert_eq.
    + destruct (Hh i ltac:(lia)) as [[w Hwi]|Hr]; [left; exists w|by right].
      rewrite lookup_insert_ne; [done|]. intros ->. congruence.
  - intros i Hi. apply Hu. lia.
  - intros w i [Hne Hwi]%lookup_delete_Some. destruct (Hw w i Hwi) as (? & ? & ?). split_and!; [done|done|].
    rewrite lookup_insert_ne; [done|]. intros ->. by apply Hne, (Hd worker w i).
  - intros w w' i [_ Hwi]%lookup_delete_Some [_ Hwi']%lookup_delete_Some. by eapply Hd.
  - intros i Hi. destruct (decide (i = index)) as [->|Hne].
    + right. exists p, v. rewrite lookup_insert_eq. by split_and!.
    + destruct (Hh i Hi) as [[w Hwi]|(p' & v' & Hr & ? & ?)].
      * left. exists w. apply lookup_delete_Some. split; [|done]. intros <-. congruence.
      * right. exists p', v'. by rewrite lookup_insert_ne.
  - intros i Hi. apply Hw in Hbusy as (_ & Hlt & _). rewrite lookup_insert_ne by lia. by apply Hu.
Qed.

(** The pool after [n] steps. *)
Inductive pool_run (ps : list string) : nat → pool → Prop :=
  | run_start : pool_run ps 0 (start_pool ps)
  | run_step n c c' : pool_run ps n c → pool_step c c' → pool_run ps (S n) c'.

Lemma run_ok ps n c : pool_run ps n c → pool_ok ps c.
Proof. induction 1; [apply start_pool_ok|by eapply pool_step_ok]. Qed.

(** What is left to do: two steps for each index not handed out, one for each
    index being read. *)
Definition remaining (c : pool) : nat := 2 * (length (paths c) - next c) + size (busy c).
Lemma pool_step_decreases c c' : pool_step c c' → remaining c = S (remaining c').
Proof.
  intros Hs. destruct Hs as [c worker Hlt Hidle Hnext|c worker index p v Hbusy Hpath Hans]; unfold remaining; simpl.
  - rewrite map_size_insert_None by done. lia.
  - rewrite map_size_delete, Hbusy by done. assert (size (busy c) ≠ 0%nat); [|lia].
    intros Hz%map_size_empty_inv. by rewrite Hz, lookup_empty in Hbusy.
Qed.

Lemma run_remaining ps n c : pool_run ps n c → (n + remaining c)%nat = (2 * length ps)%nat.
Proof.
  induction 1 as [|n c c' _ IH Hs%pool_step_decreases]; [|lia].
  unfold remaining, start_pool. simpl. rewrite map_size_empty. lia.
Qed.
Lemma done_remaining ps c : pool_ok ps c → pool_done c ↔ remaining c = 0%nat.
Proof.
  intros Hok. pose proof (ok_next ps c Hok). unfold pool_done, remaining. rewrite (ok_paths ps c Hok). split.
  - intros [-> ->]. rewrite map_size_empty. lia.
  - intros Hz. split; [lia|]. apply map_size_empty_inv. lia.
Qed.

Lemma busy_bounded ps c : pool_ok ps c → (size (busy c) <= workers ps)%nat.
Proof.
  intros Hok. rewrite <-(size_dom (D:=gset nat)).
  assert (dom (D:=gset nat) (busy c) ⊆ set_seq 0 (workers ps)) as Hsub.
  { intros w [i Hi]%elem_of_dom. apply elem_of_set_seq. apply (ok_workers ps c Hok) in Hi. lia. }
  apply subseteq_size in Hsub. etransitivity; [exact Hsub|].
  rewrite <-list_to_set_seq, size_list_to_set by apply NoDup_seq. by rewrite length_seq.
Qed.

Lemma pool_progress ps c :
  (∀ p, p ∈ ps → ∃ v, answer p v) → pool_ok ps c → pool_done c ∨ ∃ c', pool_step c c'.
Proof.
  intros Hans Hok. destruct (decide (busy c = ∅)) as [Hb|Hb].
  - destruct (decide (next c = length (paths c))) as [|Hn]; [by left|right].
    pose proof (ok_next ps c Hok). pose proof (ok_paths ps c Hok) as Hp.
    eexists. apply (pool_receive c 0); [|by rewrite Hb|rewrite Hp in *; lia].
    unfold workers, calendarReadConcurrency. rewrite Hp in *. lia.
  - right. apply map_choose in Hb as (w & i & Hw). destruct (ok_workers ps c Hok w i Hw) as (_ & Hi & _).
    pose proof (ok_next ps c Hok). destruct (lookup_lt_is_Some_2 ps i ltac:(lia)) as [p Hp].
    destruct (Hans p) as [v Hv]; [by eapply list_elem_of_lookup_2|].
    eexists. by apply (pool_answer c w i p v); [|rewrite (ok_paths ps c Hok)|].
Qed.

(** (C29) The pool behind a multi-calendar request, in every interleaving: at any
    moment at most four calendars (and never more than were selected) are being
    read; it stops after exactly two steps for each path, the hand-out and the
    answer, neither earlier nor later; as long as every read of a selected path
    returns some answer, it is not stuck before that; and when it stops, the
    slice holds for each path, at its own index, an answer to a read of that
    path. *)
Theorem parallel_reads_correct ps n c :
  pool_run ps n c →
  (size (busy c) <= calendarReadConcurrency)%nat ∧ (size (busy c) <= length ps)%nat ∧
  (n <= 2 * length ps)%nat ∧ (pool_done c ↔ n = (2 * length ps)%nat) ∧ (pool_done c → ∀ c', ¬ pool_step c c') ∧
  ((∀ p, p ∈ ps → ∃ v, answer p v) → pool_done c ∨ ∃ c', pool_step c c') ∧
  (pool_done c → Forall2 (λ p r, ∃ v, r = Some v ∧ answer p v) ps (pool_results c)).
Proof.
  intros Hrun. pose proof (run_remaining ps n c Hrun) as Hrem. pose proof (run_ok ps n c Hrun) as Hst.
  pose proof (busy_bounded ps c Hst) as Hb. unfold workers in Hb. pose proof (done_remaining ps c Hst) as Hd.
  split_and!; [lia|lia|lia|rewrite Hd; lia| |intros Hans; by apply (pool_progress ps)|].
  { intros Hz%Hd c' Hs%pool_step_decreases. lia. }
  intros [Hn Hbusy]. rewrite (ok_paths ps c Hst) in Hn.
  apply Forall2_same_length_lookup_2.
  { unfold pool_results. by rewrite List.length_map, length_seq, (ok_paths ps c Hst). }
  intros i p r Hp Hr. unfold pool_results in Hr. rewrite list_lookup_fmap_Some in Hr.
  destruct Hr as (j & -> & [Hj ?]%lookup_seq). simpl in Hj. subst j.
  apply lookup_lt_Some in Hp as Hlt. destruct (ok_handed ps c Hst i ltac:(lia)) as [[w Hw]|(p' & v & Hv & Hp' & Ha)].
  - by rewrite Hbusy, lookup_empty in Hw.
  - exists v. simplify_eq. done.
Qed.
End Pool.

(** Two paths, read at the same time by two workers and answered in the other
    order; a read answers with the length of its path. *)
Definition length_answer (p : string) (v : nat) : Prop := v = String.length p.
Definition both_busy : pool (T:=nat) := MkPool ["/a/"; "/bb/"] 2 (<[1%nat := 1%nat]> (<[0%nat := 0%nat]> ∅)) ∅.
Definition both_read : pool (T:=nat) :=
  MkPool ["/a/"; "/bb/"] 2 (delete 0%nat (delete 1%nat (busy both_busy)))
    (<[0%nat := 3%nat]> (<[1%nat := 4%nat]> ∅)).
Definition one_read : pool (T:=nat) :=
  MkPool ["/a/"; "/bb/"] 2 (delete 1%nat (busy both_busy)) (<[1%nat := 4%nat]> ∅).
Definition one_busy : pool (T:=nat) := MkPool ["/a/"; "/bb/"] 1 (<[0%nat := 0%nat]> ∅) ∅.
Lemma both_read_reachable : pool_run length_answer ["/a/"; "/bb/"] 4 both_read.
Proof.
  apply (run_step _ _ 3 one_read); [|exact (pool_answer _ one_read 0%nat 0%nat "/a/" 3%nat eq_refl eq_refl eq_refl)].
  apply (run_step _ _ 2 both_busy); [|exact (pool_answer _ both_busy 1%nat 1%nat "/bb/" 4%nat eq_refl eq_refl eq_refl)].
  apply (run_step _ _ 1 one_busy); [|apply (pool_receive _ one_busy 1%nat); vm_compute; [lia|done|lia]].
  apply (run_step _ _ 0 (start_pool ["/a/"; "/bb/"])); [constructor|].
  apply (pool_receive _ (start_pool ["/a/"; "/bb/"]) 0%nat); vm_compute; [lia|done|lia].
Qed.
Lemma parallel_reads_correct_witness :
  pool_results both_read = [Some 3%nat; Some 4%nat] ∧
  Forall2 (λ p r, ∃ v, r = Some v ∧ length_answer p v) ["/a/"; "/bb/"] (pool_results both_read).
Proof.
  split; [vm_compute; reflexivity|].
  apply (parallel_reads_correct length_answer ["/a/"; "/bb/"] 4 both_read).
  - exact both_read_reachable.
  - apply (parallel_reads_correct length_answer ["/a/"; "/bb/"] 4 both_read); [exact both_read_reachable|reflexivity].
Defined.
