(* ===== verification/SearchEvents.v ===== *)
(** The search_events tool (src/internal/mcptools/search_events.go): argument
    checking, the merge of the per-calendar results, order and pages, and the
    byte budget of the answer. *)
From S2P Require Import Prelude GoStrings GoTime CalErrors CalTypes Redact TimePolicy Scopes Validation Tools Resources CalendarReads.

(** What [errResult] is called with: a context label and the error. *)
Abbreviation tool_error := (string * error)%type.
Definition label {W A} (context : string) (m : M W error A) : M W tool_error A := map_err (pair context) m.

Definition MaxMultiSearchMaterialized : Z := 10000.

(** * Arguments *)

Record search_request := MkSearchRequest {
  rq_start : gtime; rq_end : gtime;
  rq_paths : list string;
  rq_multi : bool;
  rq_query : string;
  rq_uid : string;
  rq_status : string;
  rq_includeCancelled : bool;
  rq_busyOnly : bool;
  rq_compact : bool;
  rq_expand : bool;
  rq_allDay : option bool;
  rq_limit : Z;
  rq_offset : Z;
}.

Section Prepare.
Context {W R : Type} `{Ctx W, Service W, ToolRequest R, UnicodeTables}.

(** [limit], from 1 to [max]. *)
Definition limit_arg (req : R) (default max : Z) : result error Z :=
  limit ← optionalIntArg req "limit" default;
  reject (limit <? 1) || (max <? limit) with Plain ("limit must be between 1 and " ++ fmt_int max) ;;
  Ok limit.

(** The checks of the handler, in order, up to the reads. *)
Definition prepare_search (scopes : ResourceScopes) (loc : option Location) (req : R)
    : M W tool_error search_request :=
  startStr ← label "start parameter" (lift (RequireString req "start"));
  endStr ← label "end parameter" (lift (RequireString req "end"));
  start ← label "validation" (lift (ParseDateTime "start" startStr loc));
  end_ ← label "validation" (lift (ParseDateTime "end" endStr loc));
  label "validation" (lift (ValidateRange start end_));;
  paths ← label "calendar parameter" (resolveSearchCalendars scopes req);
  let singleCalendar := negb (bool_decide (GetString req "calendar" "" = ""))
                        || negb (bool_decide (GetString req "calendars" "" = "")) in
  let query := GetString req "query" "" in
  label "query parameter" (lift (ValidateTextField "query" query MaxQueryLen));;
  let uidFilter := GetString req "uid" "" in
  label "validation" (lift (if decide (uidFilter = "") then Ok tt else ValidateUID uidFilter));;
  let statusFilter := to_upper (trim_space (GetString req "status" "")) in
  label "validation" (fail_if (negb (bool_decide (statusFilter ∈ [""; "TENTATIVE"; "CONFIRMED"; "CANCELLED"])))
                        (Plain "status must be TENTATIVE, CONFIRMED, or CANCELLED"));;
  includeCancelled ← label "validation" (lift (optionalBoolArg req "include_cancelled" true));
  busyOnly ← label "validation" (lift (optionalBoolArg req "busy_only" false));
  compact ← label "validation" (lift (optionalBoolArg req "compact" false));
  expandRecurrence ← label "validation" (lift (optionalBoolArg req "expand_recurrence" true));
  allDay ← label "validation" (lift (if has_arg req "all_day"
                                     then Some <$> optionalBoolArg req "all_day" false else Ok None));
  limit ← label "validation" (lift (limit_arg req 100 MaxResults));
  offset ← label "validation" (lift (optionalIntArg req "offset" 0));
  label "validation" (fail_if (offset <? 0) (Plain "offset must be non-negative"));;
  mret (MkSearchRequest start end_ paths ((1 <? zlen paths) || negb singleCalendar) query uidFilter statusFilter
          includeCancelled busyOnly compact expandRecurrence allDay limit offset).
End Prepare.

(** * Filters *)

Section Filters.
Context `{UnicodeTables}.

(** [filterByQuery]. *)
Definition matches_query (q : string) (e : Event) : bool :=
  contains (to_lower (Title e)) q || contains (to_lower (EvLocation e)) q || contains (to_lower (Notes e)) q.
Definition filterByQuery (events : list Event) (query : string) : list Event :=
  List.filter (matches_query (to_lower query)) events.
End Filters.

(** [filterEventsAdvanced]: an event is skipped by the first filter it fails;
    [allDay] is [None] without an all-day filter. *)
Definition keep_event (uid status : string) (allDay : option bool) (includeCancelled busyOnly : bool) (e : Event) : bool :=
  if negb (bool_decide (uid = "")) && negb (bool_decide (UID e = uid)) then false
  else if negb (bool_decide (status = "")) && negb (equal_fold (EvStatus e) status) then false
  else if match allDay with Some wanted => negb (eqb (AllDay e) wanted) | None => false end then false
  else if negb includeCancelled && equal_fold (EvStatus e) "CANCELLED" then false
  else if busyOnly && equal_fold (Transp e) "TRANSPARENT" then false
  else true.
Definition filterEventsAdvanced (events : list Event) (uid status : string) (allDay : option bool)
    (includeCancelled busyOnly : bool) : list Event :=
  List.filter (keep_event uid status allDay includeCancelled busyOnly) events.

(** * Merging the reads *)

Record merged := MkMerged {
  all : list Event;
  truncatedByExpansion : bool;
  warnings : list string;
  partialFailure : bool;
  overflow : bool;
}.
Definition nothing_merged : merged := MkMerged [] false [] false false.

(** The error codes that are never reported as a warning. *)
Definition fatal_code (c : Code) : bool :=
  bool_decide (c ∈ [CodeAuthenticationRefused; CodeForbidden; CodeAuthentication; CodeAuthorization;
                    CodePayloadTooLarge; CodeProtocolError]).
Definition fatal_error (err : error) : bool :=
  match AsICloudError err with Some ie => fatal_code (ErrCode ie) | None => false end.

Section Merge.
Context `{UnicodeTables} (red : Redactor) (rq : search_request).

(** The events of one calendar that pass the filters. *)
Definition batch_of (path : string) (events : list Event) : list Event :=
  let batch := map (set_calendar path) events in
  let batch := if decide (rq_query rq = "") then batch else filterByQuery batch (rq_query rq) in
  filterEventsAdvanced batch (rq_uid rq) (rq_status rq) (rq_allDay rq) (rq_includeCancelled rq) (rq_busyOnly rq).

(** One turn of the loop over [calendarPaths], for index [i]. *)
Definition merge_one (m : merged) (read : Z * string * (SearchResult * option error)) : result tool_error merged :=
  let '(i, path, (res, err)) := read in
  match err with
  | Some err =>
      if fatal_error err || negb (rq_multi rq) then Err ("searching events", err)
      else Ok (MkMerged (all m) (truncatedByExpansion m)
                 (warnings m ++ [Redact red ("calendar[" ++ fmt_int i ++ "] query failed: " ++ error_text err)])%list
                 true (overflow m))
  | None =>
      let batch := batch_of path (Events res) in
      let truncated := truncatedByExpansion m || TruncatedByExpansion res in
      if overflow m then Ok (MkMerged (all m) truncated (warnings m) (partialFailure m) true)
      else if MaxMultiSearchMaterialized <? zlen (all m) + zlen batch
      then Ok (MkMerged (all m) truncated (warnings m) (partialFailure m) true)
      else Ok (MkMerged (all m ++ batch)%list truncated (warnings m) (partialFailure m) false)
  end.

Fixpoint indexed {A} (i : Z) (l : list A) : list (Z * A) :=
  match l with [] => [] | a :: l => (i, a) :: indexed (i + 1) l end.
(** The reads with their index and path. *)
Definition reads_of (results : list (SearchResult * option error)) : list (Z * string * (SearchResult * option error)) :=
  map (λ '(i, (path, res)), (i, path, res)) (indexed 0 (zip (rq_paths rq) results)).
Definition merge_reads (results : list (SearchResult * option error)) : result tool_error merged :=
  fold_res merge_one (reads_of results) nothing_merged.
End Merge.

(** * Order, pages, answer *)

(** Start, then UID, calendar and title. *)
Definition event_less : Event → Event → bool :=
  then_by (λ e, instant (StartTime e)) Z.ltb
    (then_by UID string_ltb (then_by EvCalendar string_ltb (λ a b, string_ltb (Title a) (Title b)))).

Record searchEventDTO := MkDTO {
  d_calendar : string; d_uid : string; d_title : string; d_location : string; d_notes : string;
  d_start : string; d_end : string; d_allDay : bool; d_recurrence : string; d_recurrenceId : string;
  d_isOverride : bool; d_timezone : string; d_status : string; d_transparency : string; d_url : string; d_etag : string;
}.
Record searchEventsResponse := MkResponse {
  Count : Z; Total : Z; Offset : Z; RespLimit : Z; Truncated : bool; RespTruncatedByExpansion : bool;
  MultiCalendarCapped : bool; PartialFailure : bool; RespWarnings : list string; RespEvents : list searchEventDTO;
}.

Definition event_dto (compact : bool) (loc : option Location) (e : Event) : searchEventDTO :=
  MkDTO (EvCalendar e) (UID e) (Title e) (EvLocation e) (if compact then "" else Notes e)
    (FormatEventTime (StartTime e) (AllDay e) loc) (FormatEventTime (EndTime e) (AllDay e) loc)
    (AllDay e) (Recurrence e)
    (if is_zero (instant (RecurrenceID e)) then "" else FormatEventTime (RecurrenceID e) (AllDay e) loc)
    (IsOverride e) (Timezone e) (EvStatus e) (Transp e) (URL e) (ETag e).
Definition eventsToDTO (events : list Event) (compact : bool) (loc : option Location) : list searchEventDTO :=
  map (event_dto compact loc) events.

(** [l[from:to]]. *)
Definition slice {A} (from to : Z) (l : list A) : list A := take (Z.to_nat (to - from)) (drop (Z.to_nat from) l).

(** The events of the page, out of the sorted ones. *)
Definition page_of (rq : search_request) (sorted : list Event) : list Event :=
  let workable := if MaxResults <? zlen sorted then take (Z.to_nat MaxResults) sorted else sorted in
  let pageStart := Z.min (rq_offset rq) (zlen workable) in
  let pageEnd := Z.min (wrap64 (pageStart + rq_limit rq)) (zlen workable) in
  slice pageStart pageEnd workable.

Definition search_response (rq : search_request) (loc : option Location) (m : merged) : searchEventsResponse :=
  let sorted := stable_sort event_less (all m) in
  let total := zlen sorted in
  let page := page_of rq sorted in
  MkResponse (zlen page) total (rq_offset rq) (rq_limit rq) (MaxResults <? total) (truncatedByExpansion m)
    ((MaxResults <? total) && rq_multi rq) (partialFailure m) (warnings m)
    (eventsToDTO page (rq_compact rq) loc).

Section Finish.
Context {W : Type} `{Ctx W, UnicodeTables}.

(** From the reads to the answer. *)
Definition finish_search (red : Redactor) (loc : option Location) (rq : search_request)
    (results : list (SearchResult * option error)) : M W tool_error searchEventsResponse :=
  m ← lift (merge_reads red rq results);
  label "searching events" poll;;
  fail_if (overflow m) ("searching events", Typed (NewError CodePayloadTooLarge 0
    ("multi-calendar search exceeded the " ++ fmt_int MaxMultiSearchMaterialized
     ++ "-event materialization budget; narrow the range or calendar selection") None));;
  fail_if (rq_multi rq && partialFailure m && (zlen (all m) =? 0) && (0 <? zlen (warnings m)))
    ("searching events", Typed (NewError CodePartialFailure 0
       ("all calendars failed: " ++ join (warnings m) "; ") None));;
  mret (search_response rq loc m).
End Finish.

(** * The byte budget *)

Definition maxCalendarResultBytes : Z := 256 * 1024.
(** What a handler returns: a text result, or [errResult] of an error. *)
Inductive tool_result := ToolText (text : string) | ToolError (context : string) (err : error).

Definition with_events (events : list searchEventDTO) (truncated : bool) (r : searchEventsResponse) : searchEventsResponse :=
  MkResponse (zlen events) (Total r) (Offset r) (RespLimit r) truncated (RespTruncatedByExpansion r)
    (MultiCalendarCapped r) (PartialFailure r) (RespWarnings r) events.
Definition with_count (count : Z) (r : searchEventsResponse) : searchEventsResponse :=
  MkResponse count (Total r) (Offset r) (RespLimit r) (Truncated r) (RespTruncatedByExpansion r)
    (MultiCalendarCapped r) (PartialFailure r) (RespWarnings r) (RespEvents r).

Section Encode.
(** [json.Marshal] of a response and of one event. *)
Context (marshal : searchEventsResponse → result error string) (marshal_event : searchEventDTO → result error string).
Context (red : Redactor).

Definition writeCalendarEncoded (encoded : string) : tool_result :=
  let text := Redact red encoded in
  if maxCalendarResultBytes <? len text
  then ToolError "formatting response"
         (Typed (NewError CodePayloadTooLarge 0 "serialized Calendar result exceeded 256 KiB" None))
  else ToolText text.

(** The estimate: how many events fit, by the sum of their sizes. *)
Fixpoint select_events (used : Z) (selected events : list searchEventDTO) : result error (list searchEventDTO) :=
  match events with
  | [] => Ok selected
  | e :: events =>
      encoded ← marshal_event e;
      let addition := len (Redact red encoded) + (if 0 <? zlen selected then 1 else 0) in
      if maxCalendarResultBytes <? used + addition then Ok selected
      else select_events (used + addition) (selected ++ [e])%list events
  end.

(** The last loop drops one event at a time from the end: [n] is the number
    of events left. *)
Fixpoint shrink (n : nat) (r : searchEventsResponse) : tool_result :=
  match marshal r with
  | Err err => ToolError "formatting response" err
  | Ok encoded =>
      if len (Redact red encoded) <=? maxCalendarResultBytes then writeCalendarEncoded encoded
      else match n with
           | O => writeCalendarEncoded encoded
           | S n => shrink n (with_events (take n (RespEvents r)) true r)
           end
  end.

(** [None] is a nil response. *)
Definition writeSearchEventsJSON (resp : option searchEventsResponse) : tool_result :=
  match resp with
  | None => ToolError "formatting response" (Typed (NewError CodeInternal 0 "Calendar search result is missing" None))
  | Some resp =>
      let allEvents := RespEvents resp in
      let probe := with_count (zlen allEvents) (with_events [] true resp) in
      match marshal probe with
      | Err err => ToolError "formatting response" err
      | Ok base =>
          let used := len (Redact red base) in
          if maxCalendarResultBytes <? used then writeCalendarEncoded base
          else match select_events used [] allEvents with
               | Err err => ToolError "formatting response" err
               | Ok selected =>
                   shrink (length selected)
                     (with_events selected (Truncated resp || (zlen selected <? zlen allEvents)) resp)
               end
      end
  end.
End Encode.

(** * Proofs *)

#[export] Instance event_order : WeakOrder event_less.
Proof. unfold event_less. apply _. Qed.
Lemma event_sorted l : StronglySorted (may_precede event_less) (stable_sort event_less l).
Proof.
  apply stable_sort_sorted; [intros a b c; apply (less_negtrans (less:=event_less))
                            |intros a b; apply (less_asym (less:=event_less))].
Qed.

Section MergeProofs.
Context `{UnicodeTables} (red : Redactor) (rq : search_request).

(** The matching events of the reads that succeeded, calendar by calendar. *)
Definition matching (reads : list (Z * string * (SearchResult * option error))) : list Event :=
  concat (map (λ '(_, path, (res, err)),
    match err with None => batch_of rq path (Events res) | Some _ => [] end) reads).
Definition failed (read : Z * string * (SearchResult * option error)) : bool :=
  match read.2.2 with Some _ => true | None => false end.

Record merge_ok (reads : list (Z * string * (SearchResult * option error))) (m : merged) : Prop := {
  mo_all : overflow m = false → all m = matching reads;
  mo_bound : zlen (all m) <= MaxMultiSearchMaterialized;
  mo_overflow : overflow m = true → MaxMultiSearchMaterialized < zlen (matching reads);
  mo_failed : partialFailure m = existsb failed reads;
  mo_warnings : length (warnings m) = length (List.filter failed reads);
  mo_reported : ∀ r err, r ∈ reads → r.2.2 = Some err → rq_multi rq = true ∧ fatal_error err = false;
}.

Lemma merge_ok_nil : merge_ok [] nothing_merged.
Proof. split; try done. by intros r err Hr%not_elem_of_nil. Qed.

Lemma matching_app r1 r2 : matching (r1 ++ r2)%list = (matching r1 ++ matching r2)%list.
Proof. unfold matching. by rewrite List.map_app, List.concat_app. Qed.
Lemma matching_prefix_le r1 r2 : zlen (matching r1) <= zlen (matching (r1 ++ r2)%list).
Proof. rewrite matching_app, zlen_app. pose proof (zlen_nonneg (matching r2)). lia. Qed.

Lemma merge_one_ok reads m read m' :
  merge_ok reads m → merge_one red rq m read = Ok m' → merge_ok (reads ++ [read])%list m'.
Proof.
  intros [Ha Hb Ho Hf Hw Hr] Hm. destruct read as [[i path] [res err]].
  pose proof (matching_prefix_le reads [(i, path, (res, err))]) as Hle.
  unfold merge_one in Hm. destruct err as [err|].
  - destruct (fatal_error err || negb (rq_multi rq)) eqn:Hfatal; [done|]. injection Hm as <-.
    apply orb_false_iff in Hfatal as [Hfatal Hmulti%negb_false_iff].
    split; cbn [all overflow partialFailure warnings].
    + intros Hov. rewrite matching_app, (Ha Hov). unfold matching at 3. simpl. by rewrite app_nil_r.
    + done.
    + intros Hov. specialize (Ho Hov). lia.
    + rewrite existsb_app. simpl. by rewrite orb_true_r.
    + rewrite List.filter_app, !length_app, Hw. simpl. lia.
    + intros r e [Hin| ->%list_elem_of_singleton]%elem_of_app He; [by eapply Hr|]. by injection He as <-.
  - assert (∀ r e, r ∈ (reads ++ [(i, path, (res, None))])%list → r.2.2 = Some e →
              rq_multi rq = true ∧ fatal_error e = false) as Hr'.
    { intros r e [Hin| ->%list_elem_of_singleton]%elem_of_app He; [by eapply Hr|done]. }
    assert (existsb failed (reads ++ [(i, path, (res, None))])%list = existsb failed reads) as Hf'.
    { rewrite existsb_app. simpl. by rewrite orb_false_r. }
    assert (length (List.filter failed (reads ++ [(i, path, (res, None))])%list) = length (List.filter failed reads)) as Hw'.
    { rewrite List.filter_app, length_app. simpl. lia. }
    assert (matching [(i, path, (res, None))] = batch_of rq path (Events res)) as Hone
      by (unfold matching; simpl; by rewrite app_nil_r).
    destruct (overflow m) eqn:Hov.
    + injection Hm as <-. specialize (Ho eq_refl).
      split; cbn [all overflow partialFailure warnings]; try done; try congruence. lia.
    + rewrite (Ha eq_refl) in *. destruct (_ <? _) eqn:Hover; injection Hm as <-; bool_to_prop;
        (split; cbn [all overflow partialFailure warnings]; try done; try congruence).
      * intros _. rewrite matching_app, zlen_app, Hone. lia.
      * intros _. by rewrite matching_app, Hone.
      * rewrite zlen_app. lia.
Qed.

Lemma merge_all_ok reads m' :
  fold_res (merge_one red rq) reads nothing_merged = Ok m' → merge_ok reads m'.
Proof.
  assert (∀ seen m, merge_ok seen m → fold_res (merge_one red rq) reads m = Ok m' → merge_ok (seen ++ reads)%list m') as Hgen.
  { induction reads as [|read reads IH]; intros seen m Hm; cbn [fold_res].
    - intros [= <-]. by rewrite app_nil_r.
    - destruct (merge_one red rq m read) as [m1|e] eqn:H1; [|done]. intros Hrun.
      rewrite (cons_middle read seen reads), app_assoc.
      eapply IH; [by eapply merge_one_ok|done]. }
  by apply (Hgen [] nothing_merged), merge_ok_nil.
Qed.
End MergeProofs.

(** * Pages *)

Definition valid_page (rq : search_request) : Prop :=
  1 <= rq_limit rq <= MaxResults ∧ 0 <= rq_offset rq <= max_int64.

(** The sorted events a request may page through. *)
Definition workable (sorted : list Event) : list Event := take (Z.to_nat MaxResults) sorted.

Lemma page_of_spec rq sorted :
  valid_page rq →
  page_of rq sorted = take (Z.to_nat (rq_limit rq)) (drop (Z.to_nat (rq_offset rq)) (workable sorted)).
Proof.
  intros [Hlim Hoff]. unfold page_of, MaxResults in *.
  assert ((if 400 <? zlen sorted then take (Z.to_nat 400) sorted else sorted) = workable sorted) as ->.
  { unfold workable, MaxResults. destruct (400 <? zlen sorted) eqn:E; [done|]. bool_to_prop.
    unfold zlen in E. by rewrite take_ge by lia. }
  assert (zlen (workable sorted) <= 400) as Hw
    by (unfold workable, zlen, MaxResults; rewrite length_take; lia).
  pose proof (zlen_nonneg (workable sorted)). set (l := workable sorted) in *. clearbody l.
  rewrite wrap64_id by (unfold max_int64, min_int64; lia). unfold slice.
  destruct (decide (zlen l <= rq_offset rq)) as [Hge|Hlt].
  - unfold zlen in *. rewrite !drop_ge by lia. by rewrite !take_nil.
  - rewrite (Z.min_l (rq_offset rq)) by lia.
    destruct (decide (rq_offset rq + rq_limit rq <= zlen l)).
    + rewrite Z.min_l by lia. f_equal. lia.
    + rewrite Z.min_r by lia. unfold zlen in *. rewrite !take_ge; [done|rewrite length_drop; lia..].
Qed.

Definition with_offset (offset : Z) (rq : search_request) : search_request :=
  MkSearchRequest (rq_start rq) (rq_end rq) (rq_paths rq) (rq_multi rq) (rq_query rq) (rq_uid rq) (rq_status rq)
    (rq_includeCancelled rq) (rq_busyOnly rq) (rq_compact rq) (rq_expand rq) (rq_allDay rq) (rq_limit rq) offset.

(** (C26) A search that answers has merged every calendar: its total is the
    number of matching events of the calendars that could be read, its page is
    cut from those events sorted by start, UID, calendar and title; failed
    calendars are counted in the warnings, and happen only in a search of
    several calendars, never for an authentication, authorization, size or
    protocol error; a result beyond 400 events is marked truncated; and one
    page never exceeds the requested limit. *)
Theorem finish_search_ok {W} `{Ctx W, UnicodeTables} red loc rq results (w w' : W) resp :
  valid_page rq → finish_search red loc rq results w = (w', Ok resp) →
  ∃ sorted, sorted ≡ₚ matching rq (reads_of rq results) ∧ StronglySorted (may_precede event_less) sorted ∧
    Total resp = zlen sorted ∧ Total resp <= MaxMultiSearchMaterialized ∧
    RespEvents resp = eventsToDTO (page_of rq sorted) (rq_compact rq) loc ∧
    Count resp = zlen (RespEvents resp) ∧ Count resp <= rq_limit rq ∧
    (Truncated resp = true ↔ MaxResults < Total resp) ∧
    length (RespWarnings resp) = length (List.filter failed (reads_of rq results)) ∧
    (∀ r err, r ∈ reads_of rq results → r.2.2 = Some err → rq_multi rq = true ∧ fatal_error err = false).
Proof.
  intros Hpage. unfold finish_search.
  intros (w1 & m & [-> Hm]%run_lift & Hrun)%run_bind. apply merge_all_ok in Hm.
  apply run_bind in Hrun as (w2 & [] & _ & Hrun). apply run_bind in Hrun as (w3 & [] & Hov & Hrun).
  apply run_bind in Hrun as (w4 & [] & _ & [_ <-]%run_ret).
  assert (overflow m = false) as Hno by (apply yields_fail_if in Hov; done).
  assert (zlen (page_of rq (stable_sort event_less (all m))) <= rq_limit rq) as Hlen.
  { rewrite page_of_spec by done. unfold zlen. rewrite length_take. destruct Hpage. lia. }
  exists (stable_sort event_less (all m)). unfold search_response. cbn [Total RespEvents Count Truncated RespWarnings].
  assert (zlen (stable_sort event_less (all m)) = zlen (all m)) as Hz
    by (unfold zlen; by rewrite stable_sort_Permutation).
  split_and!.
  - rewrite stable_sort_Permutation. by rewrite (mo_all _ _ _ Hm Hno).
  - apply event_sorted.
  - done.
  - rewrite Hz. apply (mo_bound _ _ _ Hm).
  - done.
  - unfold eventsToDTO, zlen. by rewrite List.length_map.
  - done.
  - apply Z.ltb_lt.
  - apply (mo_warnings _ _ _ Hm).
  - apply (mo_reported _ _ _ Hm).
Qed.

(** * The answer fits its budget *)

Section EncodeProofs.
Context (marshal : searchEventsResponse → result error string) (marshal_event : searchEventDTO → result error string).
Context (red : Redactor) (resp : searchEventsResponse).

(** The response with only its first events, marked when some are missing. *)
Definition shortened (r : searchEventsResponse) : Prop :=
  ∃ k truncated, r = with_events (take k (RespEvents resp)) truncated resp ∧
    (truncated = false → take k (RespEvents resp) = RespEvents resp ∧ Truncated resp = false).
Definition fits (r : searchEventsResponse) : Prop :=
  ∃ encoded, marshal r = Ok encoded ∧ len (Redact red encoded) <= maxCalendarResultBytes.

Lemma writeCalendarEncoded_text encoded t :
  writeCalendarEncoded red encoded = ToolText t → t = Redact red encoded ∧ len t <= maxCalendarResultBytes.
Proof. unfold writeCalendarEncoded. destruct (_ <? _) eqn:E; [done|]. intros [= <-]. bool_to_prop. done. Qed.

Lemma shorten_again r n : shortened r → shortened (with_events (take n (RespEvents r)) true r).
Proof.
  intros (k & tr & -> & _). exists (Nat.min n k), true. split; [|done].
  unfold with_events. simpl. by rewrite take_take.
Qed.

Lemma shrink_text n r t :
  shortened r → shrink marshal red n r = ToolText t →
  len t <= maxCalendarResultBytes ∧ ∃ r' encoded, shortened r' ∧ marshal r' = Ok encoded ∧ t = Redact red encoded.
Proof.
  revert r. induction n as [|n IH]; intros r Hr; cbn [shrink]; destruct (marshal r) as [encoded|] eqn:Hm; try done;
    destruct (_ <=? _); try (intros [Ht Hlen]%writeCalendarEncoded_text; split; [done|by exists r, encoded]).
  apply IH. by apply shorten_again.
Qed.

Lemma shrink_fits n r :
  (∀ r, is_ok (marshal r) = true) → shortened r → length (RespEvents r) = n →
  (∀ tr, fits (with_events [] tr resp)) → ∃ t, shrink marshal red n r = ToolText t.
Proof.
  intros Hok. revert r. induction n as [|n IH]; intros r Hr Hlen Hfit; cbn [shrink];
    (destruct (marshal r) as [encoded|] eqn:Hm; [|by specialize (Hok r); rewrite Hm in Hok]);
    destruct (len (Redact red encoded) <=? maxCalendarResultBytes) eqn:Hle.
  1, 3: unfold writeCalendarEncoded; bool_to_prop; rewrite (proj2 (Z.ltb_ge _ _)) by done; eauto.
  - bool_to_prop. destruct Hr as (k & tr & -> & _). simpl in Hlen. apply nil_length_inv in Hlen.
    destruct (Hfit tr) as (e & He & Hsmall). rewrite Hlen in Hm. rewrite Hm in He. injection He as <-. lia.
  - apply IH; [by apply shorten_again| |done]. simpl. rewrite length_take. lia.
Qed.

Lemma select_events_prefix used selected events out :
  select_events marshal_event red used selected events = Ok out →
  ∃ k, out = (selected ++ take k events)%list.
Proof.
  revert used selected. induction events as [|e events IH]; intros used selected; cbn [select_events].
  { intros [= <-]. exists 0%nat. by rewrite app_nil_r. }
  destruct (marshal_event e) as [encoded|]; [|done]. cbn [mbind result_bind].
  destruct (_ <? _). { intros [= <-]. exists 0%nat. by rewrite app_nil_r. }
  intros [k ->]%IH. exists (S k). simpl. by rewrite <-app_assoc.
Qed.
Lemma select_events_total used selected events :
  (∀ e, is_ok (marshal_event e) = true) → ∃ out, select_events marshal_event red used selected events = Ok out.
Proof.
  intros Hok. revert used selected. induction events as [|e events IH]; intros used selected; cbn [select_events]; [eauto|].
  specialize (Hok e). destruct (marshal_event e); [|done]. cbn [mbind result_bind]. destruct (_ <? _); eauto.
Qed.
Lemma selected_shortened k :
  shortened (with_events (take k (RespEvents resp))
    (Truncated resp || (zlen (take k (RespEvents resp)) <? zlen (RespEvents resp))) resp).
Proof.
  eexists k, _. split; [done|]. intros [Htr Hlen]%orb_false_iff. split; [|done]. bool_to_prop.
  unfold zlen in Hlen. rewrite length_take in Hlen. apply take_ge. lia.
Qed.

(** (C28) Whatever the JSON encoder and the redactor do to the sizes, a search
    answer is at most 256 KiB after redaction: it is the encoding of the
    response with some first part of its events, marked truncated when events
    were left out; and when the encoder works and a response without events
    fits, an answer is always produced. *)
Theorem writeSearchEventsJSON_bounded :
  (∀ t, writeSearchEventsJSON marshal marshal_event red (Some resp) = ToolText t →
     len t <= maxCalendarResultBytes ∧
     ∃ r encoded, shortened r ∧ marshal r = Ok encoded ∧ t = Redact red encoded) ∧
  ((∀ r, is_ok (marshal r) = true) → (∀ e, is_ok (marshal_event e) = true) →
   fits (with_count (zlen (RespEvents resp)) (with_events [] true resp)) →
   (∀ tr, fits (with_events [] tr resp)) →
   ∃ t, writeSearchEventsJSON marshal marshal_event red (Some resp) = ToolText t).
Proof.
  unfold writeSearchEventsJSON. split.
  - intros t. destruct (marshal (with_count _ _)) as [base|]; [|done].
    destruct (_ <? _) eqn:Hbig.
    { intros [Ht Hlen]%writeCalendarEncoded_text. subst t. bool_to_prop. lia. }
    destruct (select_events _ _ _ _ _) as [out|] eqn:Hsel; [|done].
    apply select_events_prefix in Hsel as [k ->]. simpl. apply shrink_text, selected_shortened.
  - intros Hok Hev (base & Hbase & Hsmall) Hfit. rewrite Hbase. rewrite (proj2 (Z.ltb_ge _ _)) by done.
    destruct (select_events_total (len (Redact red base)) [] (RespEvents resp) Hev) as [out Hsel]. rewrite Hsel.
    apply select_events_prefix in Hsel as [k ->]. simpl.
    apply shrink_fits; [done|apply selected_shortened|done|done].
Qed.
End EncodeProofs.

(** * Reading page after page

    A reader that asks again at the offset it has reached, counting the events
    each answer gave. *)

Section Paging.
Context `{UnicodeTables} (marshal : searchEventsResponse → result error string)
  (marshal_event : searchEventDTO → result error string).
Context (red : Redactor) (loc : option Location) (rq : search_request) (m : merged).
(** The count and the truncated flag of an answer, as its reader finds them. *)
Context (count_of : string → Z) (truncated_of : string → bool).
Context (Hread : ∀ r encoded, marshal r = Ok encoded →
  count_of (Redact red encoded) = Count r ∧ truncated_of (Redact red encoded) = Truncated r).

Abbreviation sorted := (stable_sort event_less (all m)).
Abbreviation dtos l := (eventsToDTO l (rq_compact rq) loc).
(** The answer at an offset, and answers read on from one offset to another. *)
Definition page_at (offset : Z) : tool_result :=
  writeSearchEventsJSON marshal marshal_event red (Some (search_response (with_offset offset rq) loc m)).
Inductive read_on : Z → list string → Z → Prop :=
  | read_none offset : read_on offset [] offset
  | read_next offset t ts offset' :
      page_at offset = ToolText t → read_on (offset + count_of t) ts offset' → read_on offset (t :: ts) offset'.
Definition encodes (t : string) (r : searchEventsResponse) : Prop :=
  ∃ encoded, marshal r = Ok encoded ∧ t = Redact red encoded.

Lemma write_text resp t :
  writeSearchEventsJSON marshal marshal_event red (Some resp) = ToolText t → ∃ r, shortened resp r ∧ encodes t r.
Proof.
  unfold writeSearchEventsJSON. destruct (marshal (with_count _ _)) as [base|]; [|done].
  destruct (_ <? _) eqn:Hbig; [intros [Ht Hlen]%writeCalendarEncoded_text; subst t; bool_to_prop; lia|].
  destruct (select_events _ _ _ _ _) as [out|] eqn:Hsel; [|done].
  apply select_events_prefix in Hsel as [k ->]. simpl.
  intros (_ & r & e & Hr & He & ->)%(shrink_text _ _ resp); [by exists r; split; [|exists e]|apply selected_shortened].
Qed.

Lemma page_written offset t :
  1 <= rq_limit rq <= MaxResults → 0 <= offset <= zlen (workable sorted) → page_at offset = ToolText t →
  ∃ r (k : nat), encodes t r ∧ count_of t = Z.of_nat k ∧ offset + count_of t <= zlen (workable sorted) ∧
    RespEvents r = dtos (take k (drop (Z.to_nat offset) (workable sorted))) ∧
    (truncated_of t = false → count_of t < rq_limit rq →
       workable sorted = sorted ∧ offset + count_of t = zlen (workable sorted)).
Proof.
  intros Hlim Hoff (r & (n & tr & -> & Htr) & e & He & ->)%write_text.
  destruct (Hread _ _ He) as [Hc Ht]. cbn [with_events Count Truncated RespEvents search_response] in *.
  assert (zlen (workable sorted) <= MaxResults) as Hw by (unfold workable, zlen, MaxResults; rewrite length_take; lia).
  rewrite page_of_spec in * by (split; [done|]; unfold MaxResults, max_int64 in *; simpl; lia). simpl rq_limit in *. simpl rq_offset in *.
  set (rest := drop (Z.to_nat offset) (workable sorted)) in *.
  assert (zlen rest = zlen (workable sorted) - offset) as Hrest by (unfold rest, zlen in *; rewrite length_drop; lia).
  set (lim := Z.to_nat (rq_limit rq)) in *.
  assert (take n (dtos (take lim rest)) = dtos (take (Nat.min n lim) rest)) as Hcut.
  { unfold eventsToDTO. by rewrite firstn_map, take_take. }
  assert (zlen (dtos (take (Nat.min n lim) rest)) = Z.of_nat (Nat.min (Nat.min n lim) (length rest))) as Hz.
  { unfold eventsToDTO, zlen. by rewrite List.length_map, length_take. }
  simpl rq_compact in *. rewrite Hcut in Hc, Htr, He.
  exists (with_events (dtos (take (Nat.min n lim) rest)) tr (search_response (with_offset offset rq) loc m)),
    (Nat.min (Nat.min n lim) (length rest)). split_and!.
  - by exists e.
  - by rewrite Hc, Hz.
  - rewrite Hc, Hz. unfold zlen in *. lia.
  - cbn [with_events RespEvents]. generalize (Nat.min n lim). intros j.
    destruct (Nat.min_spec j (length rest)) as [[? ->]|[? ->]]; [done|]. by rewrite !take_ge by lia.
  - intros Htf Hlt. rewrite Ht in Htf. destruct (Htr Htf) as [Hall Hno]. rewrite Hc, Hz in *.
    apply Z.ltb_ge in Hno. split.
    + unfold workable. apply take_ge. unfold zlen, MaxResults in *. lia.
    + apply (f_equal length) in Hall. unfold eventsToDTO in Hall. rewrite !List.length_map, !length_take in Hall.
      unfold zlen in *. lia.
Qed.

Lemma read_on_covers offset ts offset' :
  1 <= rq_limit rq <= MaxResults → 0 <= offset <= zlen (workable sorted) → read_on offset ts offset' →
  offset <= offset' <= zlen (workable sorted) ∧
  ∃ rs, Forall2 encodes ts rs ∧
    concat (map RespEvents rs) = dtos (take (Z.to_nat (offset' - offset)) (drop (Z.to_nat offset) (workable sorted))) ∧
    (∀ t, last ts = Some t → truncated_of t = false → count_of t < rq_limit rq →
       workable sorted = sorted ∧ offset' = zlen (workable sorted)).
Proof.
  intros Hlim Hoff Hrun. induction Hrun as [offset|offset t ts offset' Hpage Hrun IH].
  { split; [lia|]. exists []. split_and!; [constructor| |done]. by rewrite Z.sub_diag. }
  destruct (page_written offset t Hlim Hoff Hpage) as (r & k & Hr & Hk & Hle & Hev & Hend).
  destruct (IH ltac:(lia)) as (Hb & rs & Hrs & Hcat & Hlast). split; [lia|].
  exists (r :: rs). split_and!; [by constructor| |].
  - cbn [map concat]. rewrite Hev, Hcat. unfold eventsToDTO. rewrite <-List.map_app. f_equal.
    replace (Z.to_nat (offset' - offset)) with (k + Z.to_nat (offset' - (offset + count_of t)))%nat by lia.
    rewrite <-take_take_drop, drop_drop. do 3 f_equal. lia.
  - intros t' Ht'. destruct ts as [|t1 ts]; [|by apply Hlast; rewrite last_cons_cons in Ht'].
    injection Ht' as <-. inversion Hrun; subst. apply Hend.
Qed.

(** (C27) Reading on from where the last answer ended loses nothing and repeats
    nothing, also where the byte budget cuts a page short: for one merged
    result, asking at offset 0 and then at the offset plus the number of events
    each answer says it holds, the answers hold, in order, exactly the first
    events of the sorted result up to the offset reached, within its first 400;
    and once an answer is neither truncated nor full they hold all of it.  The
    reader finds in an answer the count and the truncated flag that were
    encoded. *)
Theorem pages_cover ts offset :
  1 <= rq_limit rq <= MaxResults → read_on 0 ts offset →
  0 <= offset <= MaxResults ∧
  ∃ rs, Forall2 encodes ts rs ∧
    concat (map RespEvents rs) = dtos (take (Z.to_nat offset) (workable sorted)) ∧
    (∀ t, last ts = Some t → truncated_of t = false → count_of t < rq_limit rq →
       concat (map RespEvents rs) = dtos sorted).
Proof.
  intros Hlim Hrun. destruct (read_on_covers 0 ts offset Hlim) as (Hb & rs & Hrs & Hcat & Hlast); [|done|].
  { pose proof (zlen_nonneg (workable sorted)). lia. }
  split. { unfold workable, zlen, MaxResults in *. rewrite length_take in Hb. lia. }
  rewrite Z.sub_0_r in Hcat. exists rs. split_and!; [done|done|].
  intros t Ht Htr Hc. destruct (Hlast t Ht Htr Hc) as [Hw ->]. rewrite Hcat. change (Z.to_nat 0) with 0%nat.
  rewrite drop_0, Hw, take_ge; [done|]. unfold zlen. lia.
Qed.
End Paging.

(** * A small search *)

Definition demo_event (uid : string) (s : Z) : Event :=
  bare_event uid (GTime (s * second) UTC) (GTime ((s + 60) * second) UTC) false "CONFIRMED" "OPAQUE".
(** Two calendars, pages of one event, at offset 1. *)
Definition demo_search : search_request :=
  MkSearchRequest (GTime 0 UTC) (GTime (3600 * second) UTC) ["/1/work/"; "/1/home/"] true "" "" "CONFIRMED"
    true false true true (Some false) 1 1.
Definition demo_reads : list (SearchResult * option error) :=
  [(MkSearchResult [demo_event "b" 120; demo_event "a" 60] false, None); (no_results, Some (Plain "reset"))].

Lemma finish_search_ok_witness :
  let run := @finish_search unit demo_ctx ascii_tables (NewRedactor []) None demo_search demo_reads tt in
  ∃ resp, run = (tt, Ok resp) ∧ Total resp = 2 ∧ map d_uid (RespEvents resp) = ["b"] ∧
    RespWarnings resp = ["calendar[1] query failed: reset"] ∧ Count resp <= rq_limit demo_search.
Proof.
  intros run. destruct run as [w [resp|e]] eqn:Hrun; [|vm_compute in Hrun; discriminate].
  exists resp.
  assert (valid_page demo_search) as Hpage by (split; vm_compute; split; discriminate).
  destruct (@finish_search_ok unit demo_ctx ascii_tables (NewRedactor []) None demo_search demo_reads tt w resp Hpage Hrun)
    as (sorted & _ & _ & _ & _ & _ & _ & Hcount & _).
  split; [destruct w; reflexivity|].
  assert (Ok resp = (@finish_search unit demo_ctx ascii_tables (NewRedactor []) None demo_search demo_reads tt).2) as Heq
    by (fold run; rewrite Hrun; reflexivity).
  vm_compute in Heq. injection Heq as Heq.
  split; [rewrite Heq; reflexivity|]. split; [rewrite Heq; reflexivity|].
  split; [rewrite Heq; reflexivity|exact Hcount].
Defined.

(** An encoder that spells out the number of events, and one response. *)
Definition demo_marshal (r : searchEventsResponse) : result error string :=
  Ok (str (replicate (100000 * length (RespEvents r)) "x"%char)).
Definition demo_response : searchEventsResponse :=
  MkResponse 3 3 0 100 false false false false []
    (eventsToDTO [demo_event "a" 60; demo_event "b" 120; demo_event "c" 180] true None).
Lemma writeSearchEventsJSON_bounded_witness :
  ∃ t, writeSearchEventsJSON demo_marshal (λ _, Ok "x") (NewRedactor []) (Some demo_response) = ToolText t ∧
    len t <= maxCalendarResultBytes.
Proof.
  destruct (writeSearchEventsJSON_bounded demo_marshal (λ _, Ok "x") (NewRedactor []) demo_response) as [Hsafe Hlive].
  destruct Hlive as [t Ht].
  - reflexivity.
  - reflexivity.
  - eexists. split; [reflexivity|]. vm_compute. discriminate.
  - intros tr. eexists. split; [reflexivity|]. vm_compute. discriminate.
  - exists t. split; [exact Ht|]. apply Hsafe. exact Ht.
Defined.

(** An encoder whose text is 200000 characters long for each event, two
    characters longer for each event counted and one for a truncated answer;
    and what a reader finds in it. *)
Definition sized_marshal (r : searchEventsResponse) : result error string :=
  if (Count r <? 0) || (99999 <? Count r) then Err (Plain "count")
  else Ok (str (replicate (Z.to_nat (200000 * zlen (RespEvents r) + 2 * Count r + if Truncated r then 1 else 0)) "x"%char)).
Definition sized_count (t : string) : Z := (len t mod 200000) / 2.
Definition sized_truncated (t : string) : bool := Z.odd (len t).
Lemma sized_read r encoded :
  sized_marshal r = Ok encoded →
  sized_count (Redact (NewRedactor []) encoded) = Count r ∧
  sized_truncated (Redact (NewRedactor []) encoded) = Truncated r.
Proof.
  unfold sized_marshal. destruct (_ || _) eqn:Hc; [done|]. apply orb_false_iff in Hc as [Hc1 Hc2]. bool_to_prop.
  pose proof (zlen_nonneg (RespEvents r)). intros [= <-].
  unfold sized_count, sized_truncated, Redact. cbn [redact_rounds]. change (secrets (NewRedactor [])) with (@nil string).
  cbn [fold_left]. rewrite decide_True by done. unfold len, zlen at 1 3.
  rewrite bytes_str, length_replicate, Z2Nat.id by (destruct (Truncated r); lia). split.
  - rewrite <-(Z.mod_unique _ 200000 (zlen (RespEvents r)) (2 * Count r + if Truncated r then 1 else 0))
      by (destruct (Truncated r); lia).
    symmetry. apply (Z.div_unique _ _ _ (if Truncated r then 1 else 0)); destruct (Truncated r); lia.
  - replace (200000 * zlen (RespEvents r) + 2 * Count r) with (2 * (100000 * zlen (RespEvents r) + Count r)) by lia.
    rewrite Z.add_comm, Z.odd_add_mul_2. by destruct (Truncated r).
Qed.
(** Three events, asked for two at a time; the budget lets one through. *)
Definition pages_search : search_request :=
  MkSearchRequest (GTime 0 UTC) (GTime (3600 * second) UTC) ["/1/work/"] false "" "" "CONFIRMED"
    true false true true None 2 0.
Definition pages_merged : merged :=
  MkMerged [demo_event "b" 120; demo_event "a" 60; demo_event "c" 180] false [] false false.
Abbreviation pages_answer := (page_at sized_marshal (λ _, Ok "x") (NewRedactor []) None pages_search pages_merged).
(** The answer at an offset has this count and this truncated flag. *)
Definition answers_with (offset count : Z) (truncated : bool) : bool :=
  match pages_answer offset with
  | ToolText t => (sized_count t =? count) && eqb (sized_truncated t) truncated
  | ToolError _ _ => false
  end.
Lemma answers_with_text offset count truncated :
  answers_with offset count truncated = true →
  ∃ t, pages_answer offset = ToolText t ∧ sized_count t = count ∧ sized_truncated t = truncated.
Proof.
  unfold answers_with. destruct (pages_answer offset) as [t|]; [|done].
  intros [Hc%Z.eqb_eq Ht%eqb_prop]%andb_prop. by exists t.
Qed.
Lemma pages_cover_witness :
  ∃ ts rs, map sized_count ts = [1; 1; 1] ∧ map sized_truncated ts = [true; true; false] ∧
    Forall2 (encodes sized_marshal (NewRedactor [])) ts rs ∧ map d_uid (concat (map RespEvents rs)) = ["a"; "b"; "c"].
Proof.
  destruct (answers_with_text 0 1 true ltac:(vm_compute; reflexivity)) as (t1 & Ht1 & Hc1 & Htr1).
  destruct (answers_with_text 1 1 true ltac:(vm_compute; reflexivity)) as (t2 & Ht2 & Hc2 & Htr2).
  destruct (answers_with_text 2 1 false ltac:(vm_compute; reflexivity)) as (t3 & Ht3 & Hc3 & Htr3).
  destruct (pages_cover sized_marshal (λ _, Ok "x") (NewRedactor []) None pages_search pages_merged sized_count sized_truncated
    sized_read [t1; t2; t3] 3) as (_ & rs & Hrs & _ & Hall).
  - split; vm_compute; discriminate.
  - apply read_next; [exact Ht1|]. rewrite Hc1. apply read_next; [exact Ht2|]. rewrite Hc2.
    apply read_next; [exact Ht3|]. rewrite Hc3. apply read_none.
  - exists [t1; t2; t3], rs. cbn [map]. rewrite Hc1, Hc2, Hc3, Htr1, Htr2, Htr3.
    split; [reflexivity|]. split; [reflexivity|]. split; [exact Hrs|].
    rewrite (Hall t3 eq_refl Htr3) by (rewrite Hc3; vm_compute; reflexivity). vm_compute. reflexivity.
Defined.
