(* ===== verification/FreeSlotsTool.v ===== *)
(** The find_free_slots tool (src/internal/mcptools/find_free_slots.go):
    argument checking, the buffered query window, and the answer computed from
    the events read. *)
From S2P Require Import Prelude GoStrings GoTime CalErrors CalTypes TimePolicy FreeSlots Scopes Validation Tools Resources CalendarReads SearchEvents.

(** * Arguments *)

Section Weekdays.
Context `{UnicodeTables}.

Definition weekday_names : list (list string) :=
  [["0"; "sun"; "sunday"]; ["1"; "mon"; "monday"]; ["2"; "tue"; "tuesday"]; ["3"; "wed"; "wednesday"];
   ["4"; "thu"; "thursday"]; ["5"; "fri"; "friday"]; ["6"; "sat"; "saturday"]].
Fixpoint weekday_from (i : Z) (names : list (list string)) (part : string) : option Z :=
  match names with
  | [] => None
  | ns :: names => if decide (part ∈ ns) then Some i else weekday_from (i + 1) names part
  end.
Definition parse_weekday (out : list Z) (part : string) : result error (list Z) :=
  let part := trim_space (to_lower part) in
  if decide (part = "") then Ok out
  else match weekday_from 0 weekday_names part with
       | Some d => Ok (out ++ [d])%list
       | None => Err (Plain "invalid day_of_week")
       end.
Definition parseDaysOfWeek (s : string) : result error (list Z) := fold_res parse_weekday (split s ","%char) [].
End Weekdays.

Record free_request := MkFreeRequest {
  fs_paths : list string;
  fs_opts : FreeSlotOptions;
  queryStart : gtime;
  queryEnd : gtime;
}.

Definition shift_time (t : gtime) (d : Z) : gtime := GTime (instant t + d) (tzone t).
Definition year_of (t : gtime) : Z := cyear (local_civil (tzone t) (instant t)).
Definition bad_year (t : gtime) : bool := (year_of t <? 0) || (9999 <? year_of t).

Section Prepare.
Context {W R : Type} `{Ctx W, Service W, ToolRequest R, UnicodeTables}.
(** [time.LoadLocation]. *)
Context (load_location : string → option Location).

Definition duration_arg (req : R) : result error Z :=
  durMin ← optionalIntArg req "duration_minutes" 0;
  reject durMin <=? 0 with Plain "duration_minutes must be positive" ;;
  reject 24 * 60 <? durMin with Plain "duration_minutes must be at most 1440 (24h)" ;;
  Ok durMin.
Definition buffer_args (req : R) : result error (Z * Z) :=
  bufBefore ← optionalIntArg req "buffer_before_minutes" 0;
  bufAfter ← optionalIntArg req "buffer_after_minutes" 0;
  reject (bufBefore <? 0) || (24 * 60 <? bufBefore)
    with Plain "buffer_before_minutes must be between 0 and 1440" ;;
  reject (bufAfter <? 0) || (24 * 60 <? bufAfter)
    with Plain "buffer_after_minutes must be between 0 and 1440" ;;
  Ok (bufBefore, bufAfter).

(** The window that is searched: buffers reach out of the asked range. *)
Definition query_window (start end_ : gtime) (before after : Z) : result error (gtime * gtime) :=
  let qs := shift_time start (- after) in
  let qe := shift_time end_ before in
  reject bad_year qs || bad_year qe with Plain "buffered search range is outside supported date bounds" ;;
  match ValidateRange qs qe with
  | Err e => Err (Wrapped "buffered search range: " e)
  | Ok _ => Ok (qs, qe)
  end.

Definition location_arg (req : R) (loc : option Location) : result error (option Location) :=
  let tz := GetString req "timezone" "" in
  if decide (tz = "") then Ok loc
  else match load_location tz with
       | None => Err (Plain "invalid timezone")
       | Some l => Ok (Some l)
       end.
Definition working_hours_arg (req : R) (name : string) : result error Z :=
  let s := GetString req name "" in
  if decide (s = "") then Ok 0
  else match ParseWorkingHours s with Ok m => Ok m | Err e => Err (Typed e) end.
Definition days_arg (req : R) : result error (list Z) :=
  let dow := GetString req "days_of_week" "" in
  if decide (dow = "") then Ok [] else parseDaysOfWeek dow.

Definition prepare_free_slots (scopes : ResourceScopes) (loc : option Location) (req : R)
    : M W tool_error free_request :=
  startStr ← label "start parameter" (lift (RequireString req "start"));
  endStr ← label "end parameter" (lift (RequireString req "end"));
  start ← label "validation" (lift (ParseDateTime "start" startStr loc));
  end_ ← label "validation" (lift (ParseDateTime "end" endStr loc));
  label "validation" (lift (ValidateRange start end_));;
  durMin ← label "validation" (lift (duration_arg req));
  '(bufBefore, bufAfter) ← label "validation" (lift (buffer_args req));
  let bufferBefore := bufBefore * minute in
  let bufferAfter := bufAfter * minute in
  '(qs, qe) ← label "validation" (lift (query_window start end_ bufferBefore bufferAfter));
  paths ← label "calendars" (resolveCalendarPaths scopes req);
  loc ← label "validation" (lift (location_arg req loc));
  limit ← label "validation" (lift (limit_arg req 50 200));
  includeAllDayBusy ← label "validation" (lift (optionalBoolArg req "include_all_day_busy" true));
  whs ← label "validation" (lift (working_hours_arg req "working_hours_start"));
  whe ← label "validation" (lift (working_hours_arg req "working_hours_end"));
  days ← label "validation" (lift (days_arg req));
  mret (MkFreeRequest paths
    (MkOpts (instant start) (instant end_) (durMin * minute) loc whs whe days bufferBefore bufferAfter
       includeAllDayBusy limit) qs qe).
End Prepare.

(** * From the reads to the answer *)

Record freeSlotsResponse := MkFreeResponse { fr_count : Z; fr_slots : list (string * string) }.

(** Any failed or truncated read ends the request. *)
Definition add_read (events : list Event) (read : SearchResult * option error) : result tool_error (list Event) :=
  match read with
  | (_, Some err) => Err ("searching events", err)
  | (res, None) =>
      if TruncatedByExpansion res
      then Err ("searching events", Typed (NewError CodePartialFailure 0
             "recurrence expansion was truncated; availability cannot be determined" None))
      else Ok (events ++ Events res)%list
  end.

Definition slots_of (fuel : nat) (events : list Event) (opts : FreeSlotOptions) : option (result Error (list Interval)) :=
  FindFreeSlots fuel
    (BusyFromEvents events (IncludeAllDayBusy opts) (BufferBefore opts) (BufferAfter opts) (OptLocation opts)) opts.
Definition format_slot (loc : option Location) (s : Interval) : string * string :=
  (FormatEventTime (GTime (Start s) UTC) false loc, FormatEventTime (GTime (End s) UTC) false loc).

Section Finish.
Context {W : Type} `{Ctx W}.

(** [None]: the day loop of [FindFreeSlots] needs more than [fuel] turns. *)
Definition finish_free_slots (fuel : nat) (rq : free_request) (results : list (SearchResult * option error))
    : M W tool_error (option freeSlotsResponse) :=
  events ← lift (fold_res add_read results []);
  label "searching events" poll;;
  let opts := fs_opts rq in
  match slots_of fuel events opts with
  | None => mret None
  | Some (Err e) => fail ("validation", Typed e)
  | Some (Ok slots) =>
      mret (Some (MkFreeResponse (zlen slots) (map (format_slot (OptLocation opts)) slots)))
  end.
End Finish.

(** * Proofs *)

Lemma yields_label {W A} ctx (m : M W error A) P : yields m P → yields (label ctx m) P.
Proof. apply yields_map_err. Qed.
Lemma yields_label_lift {W A} ctx (r : result error A) (P : A → Prop) :
  (∀ a, r = Ok a → P a) → yields (label ctx (lift r) : M W tool_error A) P.
Proof. intros HP. by apply yields_label, yields_lift. Qed.

(** What the checks of the handler establish. *)
Record free_request_ok (rq : free_request) : Prop := {
  fr_window_start : instant (queryStart rq) = RangeStart (fs_opts rq) - BufferAfter (fs_opts rq);
  fr_window_end : instant (queryEnd rq) = RangeEnd (fs_opts rq) + BufferBefore (fs_opts rq);
  fr_range : RangeStart (fs_opts rq) < RangeEnd (fs_opts rq);
  fr_duration : 0 < Duration (fs_opts rq) <= 24 * hour;
  fr_before : 0 <= BufferBefore (fs_opts rq) <= 24 * hour;
  fr_after : 0 <= BufferAfter (fs_opts rq) <= 24 * hour;
  fr_limit : 1 <= Limit (fs_opts rq) <= 200;
}.

Lemma ValidateRange_ok start end_ : ValidateRange start end_ = Ok tt → instant start < instant end_.
Proof.
  unfold ValidateRange. intros Hv. apply reject_ok in Hv as [Hlt _]. bool_to_prop. done.
Qed.

Section PrepareProofs.
Context {W R : Type} `{Ctx W, Service W, ToolRequest R, UnicodeTables} (load_location : string → option Location).

Lemma prepare_free_slots_ok scopes loc (req : R) :
  yields (prepare_free_slots (W:=W) load_location scopes loc req) free_request_ok.
Proof.
  unfold prepare_free_slots. step_any; intros startStr _. step_any; intros endStr _.
  step_any; intros start _. step_any; intros end_ _.
  step (λ _, instant start < instant end_).
  { apply yields_label_lift. intros []. apply ValidateRange_ok. }
  intros _ Hrange.
  step (λ d, 0 < d <= 1440).
  { apply yields_label_lift. unfold duration_arg. intros d Hd. inv_binds Hd.
    apply reject_ok in Hd as [Hpos [Hmax [= <-]]%reject_ok]. bool_to_prop. lia. }
  intros durMin Hdur.
  step (λ b, 0 <= b.1 <= 1440 ∧ 0 <= b.2 <= 1440).
  { apply yields_label_lift. unfold buffer_args. intros b Hb. inv_binds Hb.
    apply reject_ok in Hb as [H1' [H2' [= <-]]%reject_ok]. bool_to_prop. simpl. lia. }
  intros [bufBefore bufAfter] [Hbefore Hafter]. cbn [fst snd] in *.
  step (λ q, instant q.1 = instant start - bufAfter * minute ∧ instant q.2 = instant end_ + bufBefore * minute).
  { apply yields_label_lift. unfold query_window. intros q Hq. apply reject_ok in Hq as [_ Hq].
    destruct (ValidateRange _ _); [|done]. injection Hq as <-. simpl. lia. }
  intros [qs qe] [Hqs Hqe]. cbn [fst snd] in *.
  step_any; intros paths _. step_any; intros loc' _.
  step (λ limit, 1 <= limit <= 200).
  { apply yields_label_lift. unfold limit_arg. intros l Hl. inv_binds Hl.
    apply reject_ok in Hl as [Hl [= <-]]. bool_to_prop. lia. }
  intros limit Hlimit. do 4 (step_any; intros ? _). apply yields_ret.
  split; cbn [fs_opts queryStart queryEnd RangeStart RangeEnd BufferAfter BufferBefore Duration Limit];
    unfold hour in *; try done; unfold minute, second; lia.
Qed.
End PrepareProofs.

Lemma BusyFromEvents_nonempty events allday before after loc :
  Forall nonempty (BusyFromEvents events allday before after loc).
Proof.
  unfold BusyFromEvents. apply Forall_forall. intros i (e & _ & He)%list_elem_of_omap.
  unfold busy_of_event in He. repeat case_match; simplify_eq; unfold nonempty; simpl; bool_to_prop; done.
Qed.

(** The padded interval of a timed event that counts as busy. *)
Lemma BusyFromEvents_timed events allday before after loc e :
  e ∈ events → AllDay e = false → isTransparentOrCancelled e = false →
  instant (StartTime e) - before < instant (EndTime e) + after →
  Itv (instant (StartTime e) - before) (instant (EndTime e) + after) ∈ BusyFromEvents events allday before after loc.
Proof.
  intros He Hday Hbusy Hlt. unfold BusyFromEvents. apply list_elem_of_omap. exists e. split; [done|].
  unfold busy_of_event. rewrite Hbusy, Hday. cbn [andb]. by rewrite (proj2 (Z.ltb_lt _ _)) by done.
Qed.

Lemma add_reads_events results events out :
  fold_res add_read results events = Ok out →
  (∀ e, e ∈ events → e ∈ out) ∧
  ∀ res err, (res, err) ∈ results → err = None ∧ TruncatedByExpansion res = false ∧ ∀ e, e ∈ Events res → e ∈ out.
Proof.
  revert events. induction results as [|[res err] results IH]; intros events; cbn [fold_res].
  { intros [= <-]. split; [done|]. by intros res err Hin%not_elem_of_nil. }
  unfold add_read at 1. destruct err as [err|]; [done|]. destruct (TruncatedByExpansion res) eqn:Ht; [done|].
  intros [Hkeep Hall]%IH. split.
  - intros e He. apply Hkeep. apply elem_of_app. by left.
  - intros res' err' [[= -> ->]|Hin]%elem_of_cons; [|by apply Hall].
    split_and!; [done|done|]. intros e He. apply Hkeep. apply elem_of_app. by right.
Qed.

(** A read of a calendar is complete when it returns every event of the
    calendar that overlaps the window. *)
Definition complete_read (events_of : string → list Event) (rq : free_request) (path : string)
    (read : SearchResult * option error) : Prop :=
  ∀ e, e ∈ events_of path →
    instant (StartTime e) < instant (queryEnd rq) → instant (queryStart rq) < instant (EndTime e) → e ∈ Events read.1.

(** (C2) A free slot really is free: when find_free_slots answers, and each
    selected calendar returned all its events that overlap the buffered query
    window, no returned slot comes within the requested buffers of a timed
    event of a selected calendar (unless it is cancelled or transparent), not
    even of events outside the window.  This holds for every timed event that,
    widened by the buffers, is not empty: an event of no length counts exactly
    when a buffer is asked for.  Every slot has the requested length and lies
    in the requested range. *)
Theorem free_slots_avoid_events {W R} `{Ctx W, Service W, ToolRequest R, UnicodeTables}
    load_location scopes loc (req : R) (w0 w1 : W) rq events_of fuel results (w w' : W) resp :
  prepare_free_slots load_location scopes loc req w0 = (w1, Ok rq) →
  Forall2 (complete_read events_of rq) (fs_paths rq) results →
  finish_free_slots fuel rq results w = (w', Ok (Some resp)) →
  ∃ slots, fr_slots resp = map (format_slot (OptLocation (fs_opts rq))) slots ∧ fr_count resp = zlen slots ∧
    ∀ s, s ∈ slots →
      End s = Start s + Duration (fs_opts rq) ∧
      RangeStart (fs_opts rq) <= Start s ∧ End s <= RangeEnd (fs_opts rq) ∧
      ∀ path e, path ∈ fs_paths rq → e ∈ events_of path →
        AllDay e = false → isTransparentOrCancelled e = false →
        instant (StartTime e) - BufferBefore (fs_opts rq) < instant (EndTime e) + BufferAfter (fs_opts rq) →
        End s <= instant (StartTime e) - BufferBefore (fs_opts rq) ∨
        instant (EndTime e) + BufferAfter (fs_opts rq) <= Start s.
Proof.
  intros Hprep Hreads Hfin. apply prepare_free_slots_ok in Hprep as [Hws Hwe Hrange Hdur Hbef Haft Hlim].
  unfold finish_free_slots in Hfin. apply run_bind in Hfin as (w2 & events & [_ Hevents]%run_lift & Hfin).
  apply run_bind in Hfin as (w3 & [] & _ & Hfin). set (opts := fs_opts rq) in *.
  destruct (slots_of fuel events opts) as [[slots|e]|] eqn:Hslots; [|done|by apply run_ret in Hfin as [_ ?]].
  apply run_ret in Hfin as [_ [= <-]]. exists slots. cbn [fr_slots fr_count]. split_and!; [done..|].
  apply FindFreeSlots_facts in Hslots as (_ & _ & Hs); [|apply BusyFromEvents_nonempty].
  intros s Hin. destruct (Hs s Hin) as [Hlen Hav]. split; [done|].
  assert (∀ t, Start s <= t < End s → RangeStart opts <= t < RangeEnd opts) as Hr by (intros t Ht; by apply Hav).
  pose proof (Hr (Start s)). pose proof (Hr (End s - 1)). split_and!; [lia|lia|].
  intros path e Hpath He Hday Hbusy Hse.
  destruct (decide (End s <= instant (StartTime e) - BufferBefore opts)) as [|Hn1]; [by left|].
  destruct (decide (instant (EndTime e) + BufferAfter opts <= Start s)) as [|Hn2]; [by right|]. exfalso.
  apply list_elem_of_lookup in Hpath as [i Hi]. destruct (Forall2_lookup_l _ _ _ _ _ Hreads Hi) as ([res err] & Hres & Hcomplete).
  assert (e ∈ events) as Hev.
  { destruct (add_reads_events _ _ _ Hevents) as [_ Hall].
    apply list_elem_of_lookup_2 in Hres. apply Hall in Hres as (_ & _ & Hres). apply Hres.
    apply Hcomplete; [done|rewrite Hwe; fold opts; lia|rewrite Hws; fold opts; lia]. }
  pose proof (BusyFromEvents_timed events (IncludeAllDayBusy opts) (BufferBefore opts) (BufferAfter opts)
    (OptLocation opts) e Hev Hday Hbusy ltac:(lia)) as Hb.
  destruct (Hav (Z.max (Start s) (instant (StartTime e) - BufferBefore opts))) as (_ & Hnot & _).
  { unfold inside. lia. }
  apply Hnot, covered_spec. eexists. split; [exact Hb|]. unfold inside. simpl. lia.
Qed.

(** One hour of the morning is taken, with a quarter of an hour around it. *)
Definition free_args : gmap string arg :=
  {["start" := ArgString "2026-06-03T08:00:00Z"; "end" := ArgString "2026-06-03T12:00:00Z";
    "duration_minutes" := ArgInt 60; "buffer_before_minutes" := ArgInt 15; "buffer_after_minutes" := ArgInt 15;
    "calendar" := ArgString "/1/work/"]}.
Definition meeting : Event :=
  bare_event "m" (GTime (hm 9 30) UTC) (GTime (hm 10 15) UTC) false "CONFIRMED" "OPAQUE".
Definition calendar_events (path : string) : list Event := if decide (path = "/1/work/") then [meeting] else [].
Definition demo_prepare := @prepare_free_slots unit _ demo_ctx demo_service demo_request ascii_tables (λ _, None)
  work_only None free_args tt.
Definition demo_finish (rq : free_request) :=
  @finish_free_slots unit demo_ctx 5 rq [(MkSearchResult [meeting] false, None)] tt.

Lemma free_slots_avoid_events_witness :
  ∃ rq resp, demo_prepare = (tt, Ok rq) ∧ demo_finish rq = (tt, Ok (Some resp)) ∧
    fr_slots resp = [("2026-06-03T08:00:00+00:00", "2026-06-03T09:00:00+00:00");
                     ("2026-06-03T10:30:00+00:00", "2026-06-03T11:30:00+00:00")] ∧
    ∃ slots, fr_slots resp = map (format_slot (OptLocation (fs_opts rq))) slots ∧
      ∀ s, s ∈ slots → End s = Start s + Duration (fs_opts rq).
Proof.
  destruct demo_prepare as [[] [rq|e]] eqn:Hprep; [|vm_compute in Hprep; discriminate].
  assert (Ok rq = demo_prepare.2) as Hrq by (rewrite Hprep; reflexivity).
  vm_compute in Hrq. injection Hrq as Hrq.
  destruct (demo_finish rq) as [[] [[resp|]|e]] eqn:Hfin;
    [|rewrite Hrq in Hfin; vm_compute in Hfin; discriminate..].
  exists rq, resp. split; [reflexivity|]. split; [exact Hfin|]. split.
  - assert (Ok (Some resp) = (demo_finish rq).2) as Hresp by (rewrite Hfin; reflexivity).
    rewrite Hrq in Hresp. vm_compute in Hresp. injection Hresp as ->. reflexivity.
  - destruct (@free_slots_avoid_events unit _ demo_ctx demo_service demo_request ascii_tables (λ _, None)
      work_only None free_args tt tt rq calendar_events 5 [(MkSearchResult [meeting] false, None)] tt tt resp
      Hprep) as (slots & Hfmt & _ & Hs); [|exact Hfin|].
    + rewrite Hrq. constructor; [|constructor]. intros e He _ _. exact He.
    + exists slots. split; [exact Hfmt|]. intros s Hin. exact (proj1 (Hs s Hin)).
Defined.
