(* ===== verification/Idempotency.v ===== *)
(** The process-local idempotency cache (src/internal/mcptools/idempotency.go):
    the locked operations of the store, and the requests that run through it
    concurrently as a step relation. *)
From S2P Require Import Prelude GoStrings GoTime.

Definition idempotencyTTL : Z := 15 * minute.
Definition maxIdempotencyEntries : Z := 1024.
Definition maxIdempotencyPayload : Z := 256 * 1024.
Definition maxIdempotencyKeyBytes : Z := 512.

Definition namespacedIdempotencyKey (tool key : string) : string :=
  if bool_decide (tool = "") || bool_decide (key = "") then "" else tool ++ str ["000"%char] ++ key.

Section Store.
(** [T]: the structured content of a result. *)
Context {T : Type}.

Record idempotencyOutcome := MkOutcome { payload : string; structured : option T; isError : bool }.

(** [expires] is [None] while pending and for outcomes that never expire (the
    zero time). *)
Record idempotencyEntry := MkEntry {
  paramsHash : string;
  outcome : idempotencyOutcome;
  expires : option Z;
  pending : bool;
}.
(** Entries are shared objects: a waiter keeps its entry after the table lost
    it.  [objects] are the entries ever allocated, [entries] the table. *)
Record idempotencyStore := MkStore {
  objects : gmap nat idempotencyEntry;
  entries : gmap string nat;
  fresh : nat;
}.
Definition newIdempotencyStore : idempotencyStore := MkStore ∅ ∅ 0.
Definition zero_outcome : idempotencyOutcome := MkOutcome "" None false.

Definition lookup_entry (s : idempotencyStore) (key : string) : option (nat * idempotencyEntry) :=
  id ← entries s !! key; e ← objects s !! id; Some (id, e).

(** [purgeLocked]. *)
Definition expired (now : Z) (e : idempotencyEntry) : bool :=
  negb (pending e) && match expires e with Some t => t <=? now | None => false end.
Definition kept (now : Z) (s : idempotencyStore) (id : nat) : bool :=
  match objects s !! id with Some e => negb (expired now e) | None => true end.
Definition purgeLocked (now : Z) (s : idempotencyStore) : idempotencyStore :=
  MkStore (objects s) (filter (λ kv, kept now s kv.2 = true) (entries s)) (fresh s).

(** What one turn of the loop of [beginContext] decides while it holds the
    lock; [Wait] continues without it. *)
Inductive verdict :=
| Refused
| Conflict
| Hit (o : idempotencyOutcome)
| Ready
| Wait (id : nat).

Definition begin_locked (now : Z) (key hash : string) (s : idempotencyStore) : idempotencyStore * verdict :=
  let s := purgeLocked now s in
  match lookup_entry s key with
  | Some (id, e) =>
      if negb (bool_decide (paramsHash e = hash)) then (s, Conflict)
      else if pending e then (s, Wait id) else (s, Hit (outcome e))
  | None =>
      if maxIdempotencyEntries <=? Z.of_nat (size (entries s)) then (s, Refused)
      else (MkStore (<[fresh s := MkEntry hash zero_outcome None true]> (objects s))
              (<[key := fresh s]> (entries s)) (S (fresh s)), Ready)
  end.
(** The checks before the loop. *)
Definition unusable (key hash : string) : bool :=
  bool_decide (key = "") || bool_decide (hash = "") || (maxIdempotencyKeyBytes <? len key).

(** A tool result: its content items ([None] is not a text) and the rest. *)
Record tool_output := MkOutput { content : list (option string); out_structured : option T; out_isError : bool }.
Definition unknown_outcome : idempotencyOutcome :=
  MkOutcome (str ["{"; "034"]%char ++ "code" ++ str ["034"; ":"; "034"]%char ++ "outcome_unknown" ++
    str ["034"; ","; "034"]%char ++ "message" ++ str ["034"; ":"; "034"]%char ++
    "The mutation outcome could not be recorded." ++ str ["034"; ","; "034"]%char ++ "reconciliation" ++
    str ["034"; ":"; "034"]%char ++ "Read the resource before using a new idempotency key." ++
    str ["034"; "}"]%char) None true.
(** The outcome [complete] records, and whether it is a definite one. *)
Definition recorded (result : option tool_output) : idempotencyOutcome * bool :=
  match result with
  | Some (MkOutput [Some text] st err) =>
      if negb (bool_decide (text = "")) && (len text <=? maxIdempotencyPayload)
      then (MkOutcome text st err, true) else (unknown_outcome, false)
  | _ => (unknown_outcome, false)
  end.
Definition complete (now : Z) (key hash : string) (result : option tool_output) (retain : bool)
    (s : idempotencyStore) : idempotencyStore :=
  if bool_decide (key = "") || bool_decide (hash = "") then s
  else
    let '(o, valid) := recorded result in
    match lookup_entry s key with
    | Some (id, e) =>
        if negb (pending e) || negb (bool_decide (paramsHash e = hash)) then s
        else MkStore (<[id := MkEntry hash o (if valid && negb retain then Some (now + idempotencyTTL) else None) false]>
                        (objects s)) (entries s) (fresh s)
    | None => s
    end.

(** * Requests *)

(** Where a request is: not begun, waiting for the owner of an entry, running
    the mutation as the owner, or answered. *)
Inductive request_state :=
| Idle
| Waiting (id : nat)
| Running
| Answered (v : verdict).
Record request := MkRequest { r_key : string; r_hash : string; r_state : request_state }.

Record system := MkSystem {
  store : idempotencyStore;
  now : Z;
  requests : gmap nat request;
  (** Every start and end of a mutation, latest first. *)
  history : list (string * option (bool * Z));
}.
Definition with_state (r : request) (st : request_state) : request := MkRequest (r_key r) (r_hash r) st.
Definition verdict_state (v : verdict) : request_state :=
  match v with Ready => Running | Wait id => Waiting id | v => Answered v end.

Inductive step : system → system → Prop :=
| step_tick c d : 0 <= d → step c (MkSystem (store c) (now c + d) (requests c) (history c))
| step_arrive c p key hash : requests c !! p = None →
    step c (MkSystem (store c) (now c) (<[p := MkRequest key hash Idle]> (requests c)) (history c))
(** A key that cannot be used, or a context that ended. *)
| step_refuse c p r : requests c !! p = Some r → (r_state r = Idle ∨ ∃ id, r_state r = Waiting id) →
    step c (MkSystem (store c) (now c) (<[p := with_state r (Answered Refused)]> (requests c)) (history c))
| step_begin c p r s v : requests c !! p = Some r → r_state r = Idle → unusable (r_key r) (r_hash r) = false →
    begin_locked (now c) (r_key r) (r_hash r) (store c) = (s, v) →
    step c (MkSystem s (now c) (<[p := with_state r (verdict_state v)]> (requests c))
              (match v with Ready => (r_key r, None) :: history c | _ => history c end))
(** The owner's entry is no longer pending: its outcome is the answer. *)
| step_wake c p r id e : requests c !! p = Some r → r_state r = Waiting id →
    objects (store c) !! id = Some e → pending e = false →
    step c (MkSystem (store c) (now c) (<[p := with_state r (Answered (Hit (outcome e)))]> (requests c)) (history c))
| step_complete c p r result retain : requests c !! p = Some r → r_state r = Running →
    step c (MkSystem (complete (now c) (r_key r) (r_hash r) result retain (store c)) (now c)
              (<[p := with_state r (Answered Ready)]> (requests c))
              ((r_key r, Some ((recorded result).2 && negb retain, now c)) :: history c)).
Definition initial : system := MkSystem newIdempotencyStore 0 ∅ [].

(** What the history says of a key: never run, running, or last ended at a
    time with a definite (short-lived) outcome or not. *)
Inductive phase := Never | Active | Ended (definite : bool) (at_ : Z).
Fixpoint phase_of (h : list (string * option (bool * Z))) (key : string) : phase :=
  match h with
  | [] => Never
  | (k, ev) :: h =>
      if decide (k = key) then match ev with None => Active | Some (d, t) => Ended d t end
      else phase_of h key
  end.
End Store.
Arguments idempotencyStore : clear implicits.
Arguments idempotencyEntry : clear implicits.
Arguments system : clear implicits.

(** * The store's invariant *)

Section Invariant.
Context {T : Type}.
Implicit Types (c : system T) (s : idempotencyStore T).

Record store_ok s : Prop := {
  so_objects : ∀ key id, entries s !! key = Some id → is_Some (objects s !! id);
  so_fresh : ∀ id e, objects s !! id = Some e → (id < fresh s)%nat;
  so_injective : ∀ k k' id, entries s !! k = Some id → entries s !! k' = Some id → k = k';
  so_size : Z.of_nat (size (entries s)) <= maxIdempotencyEntries;
}.

Lemma purge_entries now s key id :
  entries (purgeLocked now s) !! key = Some id ↔ entries s !! key = Some id ∧ kept now s id = true.
Proof. unfold purgeLocked. cbn [entries]. rewrite map_lookup_filter_Some. naive_solver. Qed.

Lemma purge_ok now s : store_ok s → store_ok (purgeLocked now s).
Proof.
  intros [Ho Hf Hi Hs]. split.
  - intros key id [Hk _]%purge_entries. by apply (Ho key).
  - apply Hf.
  - intros k k' id [Hk _]%purge_entries [Hk' _]%purge_entries. by apply (Hi k k' id).
  - etransitivity; [|exact Hs]. unfold purgeLocked. cbn [entries].
    apply inj_le, map_subseteq_size, map_filter_subseteq.
Qed.

Lemma lookup_entry_Some s key id e :
  lookup_entry s key = Some (id, e) ↔ entries s !! key = Some id ∧ objects s !! id = Some e.
Proof.
  unfold lookup_entry. destruct (entries s !! key) as [id'|]; simpl; [|naive_solver].
  destruct (objects s !! id') eqn:E; simpl; naive_solver.
Qed.
Lemma lookup_entry_None s key : store_ok s → lookup_entry s key = None ↔ entries s !! key = None.
Proof.
  intros Hok. unfold lookup_entry. destruct (entries s !! key) as [id|] eqn:E; simpl; [|done].
  destruct (so_objects s Hok key id E) as [e ->]. done.
Qed.
Lemma lookup_purge now s key id e :
  lookup_entry (purgeLocked now s) key = Some (id, e) ↔
  lookup_entry s key = Some (id, e) ∧ expired now e = false.
Proof.
  rewrite !lookup_entry_Some, purge_entries. unfold kept. change (objects (purgeLocked now s)) with (objects s).
  split.
  - intros [[He Hk] Ho]. rewrite Ho, negb_true_iff in Hk. done.
  - intros [[He Ho] Hx]. rewrite Ho, negb_true_iff. done.
Qed.

Lemma begin_ok now key hash s s' v :
  store_ok s → begin_locked now key hash s = (s', v) → store_ok s'.
Proof.
  intros Hok%(purge_ok now). unfold begin_locked. set (p := purgeLocked now s) in *. clearbody p.
  destruct (lookup_entry p key) as [[id e]|] eqn:Hl.
  { repeat case_match; intros [= <- <-]; done. }
  apply lookup_entry_None in Hl; [|done]. destruct (_ <=? _) eqn:Hsize; intros [= <- <-]; [done|]. bool_to_prop.
  destruct Hok as [Ho Hf Hi Hs].
  assert (∀ k, entries p !! k ≠ Some (fresh p)) as Hnew.
  { intros k Hk. destruct (Ho k _ Hk) as [e He]. apply Hf in He. lia. }
  split; cbn [objects entries fresh].
  - intros k id [[<- <-]|[_ Hk]]%lookup_insert_Some; [by rewrite lookup_insert_eq|].
    destruct (decide (id = fresh p)) as [->|]; [by rewrite lookup_insert_eq|]. rewrite lookup_insert_ne by done. by eapply Ho.
  - intros id e [[<- _]|[_ He]]%lookup_insert_Some; [lia|]. apply Hf in He. lia.
  - intros k k' id [[<- <-]|[? Hk]]%lookup_insert_Some [[<- E]|[? Hk']]%lookup_insert_Some; try done.
    + by destruct (Hnew k').
    + subst id. by destruct (Hnew k).
    + by apply (Hi k k' id).
  - rewrite map_size_insert_None by done. unfold maxIdempotencyEntries in *. lia.
Qed.

Lemma complete_ok now key hash result retain s : store_ok s → store_ok (complete now key hash result retain s).
Proof.
  intros Hok. unfold complete. destruct (_ || _); [done|]. destruct (recorded result) as [o valid].
  destruct (lookup_entry s key) as [[id e]|] eqn:Hl; [|done]. destruct (_ || _); [done|].
  apply lookup_entry_Some in Hl as [He Hobj]. destruct Hok as [Ho Hf Hi Hs].
  split; cbn [objects entries fresh]; [|by intros id' e' [[<- _]|[_ ?]]%lookup_insert_Some; eapply Hf|done|done].
  intros k id' Hk. destruct (decide (id' = id)) as [->|]; [by rewrite lookup_insert_eq|].
  rewrite lookup_insert_ne by done. by eapply Ho.
Qed.

(** * The table against the history *)

(** What the table holds for a key, by what happened to the key. *)
Definition entry_matches (ph : phase) (now : Z) (entry : option (nat * idempotencyEntry T)) : Prop :=
  match ph, entry with
  | Never, None => True
  | Active, Some (_, e) => pending e = true
  | Ended definite t, Some (_, e) =>
      pending e = false ∧ expires e = (if definite then Some (t + idempotencyTTL) else None)
  | Ended definite t, None => definite = true ∧ t + idempotencyTTL <= now
  | _, _ => False
  end.
Definition table_matches c (key : string) : Prop :=
  entry_matches (phase_of (history c) key) (now c) (lookup_entry (store c) key).
Definition running c (p : nat) (r : request) : Prop := requests c !! p = Some r ∧ r_state r = Running.

Record system_ok c : Prop := {
  sy_store : store_ok (store c);
  sy_table : ∀ key, table_matches c key;
  (** The owner of a key: its entry is the pending one, with its parameters. *)
  sy_running : ∀ p r, running c p r →
    unusable (r_key r) (r_hash r) = false ∧
    ∃ id e, lookup_entry (store c) (r_key r) = Some (id, e) ∧ pending e = true ∧ paramsHash e = r_hash r;
  sy_exclusive : ∀ p p' r r', running c p r → running c p' r' → r_key r = r_key r' → p = p';
  sy_active : ∀ p r, running c p r → phase_of (history c) (r_key r) = Active;
}.

Lemma purge_matches ph now s key :
  entry_matches ph now (lookup_entry s key) → entry_matches ph now (lookup_entry (purgeLocked now s) key).
Proof.
  destruct (lookup_entry s key) as [[id e]|] eqn:Hl.
  - destruct (expired now e) eqn:Hx.
    + assert (lookup_entry (purgeLocked now s) key = None) as ->.
      { destruct (lookup_entry (purgeLocked now s) key) as [[id' e']|] eqn:Hp; [|done].
        apply lookup_purge in Hp as [Hp Hx']. congruence. }
      unfold expired in Hx. apply andb_prop in Hx as [Hpend Hexp]. apply negb_true_iff in Hpend.
      destruct ph as [| |definite t]; simpl; [done|congruence|]. intros [_ He]. rewrite He in Hexp.
      destruct definite; [|done]. split; [done|]. by apply Z.leb_le.
    + by rewrite (proj2 (lookup_purge now s key id e)).
  - assert (lookup_entry (purgeLocked now s) key = None) as ->; [|done].
    destruct (lookup_entry (purgeLocked now s) key) as [[id' e']|] eqn:Hp; [|done].
    apply lookup_purge in Hp as [Hp _]. congruence.
Qed.

Lemma begin_cases now key hash s s' v :
  store_ok s → begin_locked now key hash s = (s', v) →
  (v ≠ Ready ∧ s' = purgeLocked now s) ∨
  (v = Ready ∧ lookup_entry (purgeLocked now s) key = None ∧
   (∃ id, lookup_entry s' key = Some (id, MkEntry hash zero_outcome None true)) ∧
   ∀ k, k ≠ key → lookup_entry s' k = lookup_entry (purgeLocked now s) k).
Proof.
  intros Hok%(purge_ok now). unfold begin_locked. set (p := purgeLocked now s) in *. clearbody p.
  destruct (lookup_entry p key) as [[id e]|] eqn:Hl.
  { intros Hb. left. repeat case_match; injection Hb as <- <-; done. }
  destruct (_ <=? _); intros [= <- <-]; [by left|]. right. split; [done|]. split; [done|]. split.
  - exists (fresh p). apply lookup_entry_Some. cbn [entries objects]. by rewrite !lookup_insert_eq.
  - intros k Hk. unfold lookup_entry. cbn [entries objects]. rewrite lookup_insert_ne by done.
    destruct (entries p !! k) as [id|] eqn:He; [|done]. cbn [mbind option_bind].
    destruct (so_objects p Hok k id He) as [e Hobj]. apply (so_fresh p Hok) in Hobj as Hlt.
    by rewrite lookup_insert_ne by lia.
Qed.

Lemma complete_cases now key hash result retain s id e :
  store_ok s → unusable key hash = false →
  lookup_entry s key = Some (id, e) → pending e = true → paramsHash e = hash →
  let s' := complete now key hash result retain s in
  let definite := (recorded result).2 && negb retain in
  (∃ e', lookup_entry s' key = Some (id, e') ∧ pending e' = false ∧ outcome e' = (recorded result).1 ∧
     expires e' = if definite then Some (now + idempotencyTTL) else None) ∧
  ∀ k, k ≠ key → lookup_entry s' k = lookup_entry s k.
Proof.
  intros Hok Hu Hl Hp Hh. unfold unusable in Hu. apply orb_false_iff in Hu as [Hu _]. unfold complete.
  rewrite Hu. destruct (recorded result) as [o valid]. rewrite Hl, Hp, Hh. rewrite bool_decide_eq_true_2 by done.
  cbn [negb orb snd fst]. apply lookup_entry_Some in Hl as [He Ho]. split.
  - eexists. split; [apply lookup_entry_Some; cbn [entries objects]; split; [done|apply lookup_insert_eq]|done].
  - intros k Hk. unfold lookup_entry. cbn [entries objects].
    destruct (entries s !! k) as [id'|] eqn:Hk'; [|done]. cbn [mbind option_bind].
    destruct (decide (id' = id)) as [->|]; [by destruct Hk; apply (so_injective s Hok k key id)|].
    by rewrite lookup_insert_ne.
Qed.

(** Changing a request that is not running to a state that is not running. *)
Lemma running_insert s t rs h p r p' r' :
  running (MkSystem s t (<[p := r]> rs) h) p' r' →
  (p' = p ∧ r' = r ∧ r_state r = Running) ∨ (p' ≠ p ∧ rs !! p' = Some r' ∧ r_state r' = Running).
Proof.
  unfold running. cbn [requests]. intros [[[<- <-]|[Hne Hr]]%lookup_insert_Some Hst]; [by left|right].
  by split_and!.
Qed.

Lemma ok_quiet c p r' :
  r_state r' ≠ Running → (∀ r, requests c !! p = Some r → r_state r ≠ Running) → system_ok c →
  system_ok (MkSystem (store c) (now c) (<[p := r']> (requests c)) (history c)).
Proof.
  intros Hnew Hold [Hs Ht Hr He Ha].
  assert (∀ q r, running (MkSystem (store c) (now c) (<[p := r']> (requests c)) (history c)) q r → running c q r) as Hrun.
  { intros q r [(-> & -> & ?)|(_ & ? & ?)]%running_insert; [done|by split]. }
  split; try done; cbn [store now history]; eauto.
Qed.

Lemma phase_cons (h : list (string * option (bool * Z))) k ev key :
  phase_of ((k, ev) :: h) key
  = if decide (k = key) then match ev with None => Active | Some (d, t) => Ended d t end else phase_of h key.
Proof. done. Qed.

Lemma purge_running now s key id e :
  lookup_entry s key = Some (id, e) → pending e = true → lookup_entry (purgeLocked now s) key = Some (id, e).
Proof. intros Hl Hp. apply lookup_purge. split; [done|]. unfold expired. by rewrite Hp. Qed.

Lemma begin_step_ok c p r s v :
  requests c !! p = Some r → r_state r = Idle → unusable (r_key r) (r_hash r) = false →
  begin_locked (now c) (r_key r) (r_hash r) (store c) = (s, v) → system_ok c →
  system_ok (MkSystem s (now c) (<[p := with_state r (verdict_state v)]> (requests c))
               (match v with Ready => (r_key r, None) :: history c | _ => history c end)).
Proof.
  intros Hp Hidle Hu Hb [Hs Ht Hr He Ha].
  pose proof (begin_ok _ _ _ _ _ _ Hs Hb) as Hs'.
  destruct (begin_cases _ _ _ _ _ _ Hs Hb) as [[Hv ->]|(-> & Hnone & [id Hnew] & Hother)].
  - assert (match v with Ready => (r_key r, None) :: history c | _ => history c end = history c) as ->
      by (destruct v; done).
    assert (∀ q r0, running (MkSystem (purgeLocked (now c) (store c)) (now c)
              (<[p := with_state r (verdict_state v)]> (requests c)) (history c)) q r0 → running c q r0) as Hrun.
    { intros q r0 [(_ & _ & Hst)|(_ & ? & ?)]%running_insert; [|by split]. by destruct v. }
    split; cbn [store now history]; [done| | |eauto|eauto].
    + intros key. apply purge_matches, Ht.
    + intros q r0 Hq%Hrun. destruct (Hr q r0 Hq) as (? & id & e & Hl & Hpend & ?).
      split; [done|]. exists id, e. split; [by apply purge_running|done].
  - assert (∀ q r0, running c q r0 → r_key r0 ≠ r_key r) as Hfree.
    { intros q r0 Hq Heq. destruct (Hr q r0 Hq) as (_ & id0 & e & Hl & Hpend & _). rewrite Heq in Hl.
      apply (purge_running (now c)) in Hl; [|done]. congruence. }
    assert (∀ q r0, running (MkSystem s (now c) (<[p := with_state r Running]> (requests c))
              ((r_key r, None) :: history c)) q r0 →
            (q = p ∧ r0 = with_state r Running) ∨ (q ≠ p ∧ running c q r0)) as Hrun.
    { intros q r0 [(? & ? & _)|(? & ? & ?)]%running_insert; [by left|right; by split]. }
    split; cbn [store now history verdict_state]; [done|..].
    + intros key. unfold table_matches. cbn [store now history]. rewrite phase_cons.
      case_decide as Hk; [subst key; by rewrite Hnew|]. rewrite Hother by done. apply purge_matches, Ht.
    + intros q r0 [[-> ->]|[_ Hq]]%Hrun; [split; [done|]; by eexists _, _|].
      destruct (Hr q r0 Hq) as (? & id0 & e & Hl & Hpend & ?). split; [done|]. exists id0, e.
      rewrite Hother by (by eapply Hfree). split; [by apply purge_running|done].
    + intros q q' r0 r0' [[-> ->]|[_ Hq]]%Hrun [[-> ->]|[_ Hq']]%Hrun Hk; [done|..].
      * by destruct (Hfree q' r0' Hq').
      * by destruct (Hfree q r0 Hq).
      * by eapply He.
    + intros q r0 [[-> ->]|[_ Hq]]%Hrun; rewrite phase_cons; [by rewrite decide_True|].
      rewrite decide_False; [by eapply Ha|]. intros Heq. by apply (Hfree q r0 Hq).
Qed.

Lemma complete_step_ok c p r result retain :
  requests c !! p = Some r → r_state r = Running → system_ok c →
  system_ok (MkSystem (complete (now c) (r_key r) (r_hash r) result retain (store c)) (now c)
    (<[p := with_state r (Answered Ready)]> (requests c))
    ((r_key r, Some ((recorded result).2 && negb retain, now c)) :: history c)).
Proof.
  intros Hp Hst [Hs Ht Hr He Ha]. assert (running c p r) as Hrun by (by split).
  destruct (Hr p r Hrun) as (Hu & id & e & Hl & Hpend & Hhash).
  destruct (complete_cases (now c) (r_key r) (r_hash r) result retain _ id e Hs Hu Hl Hpend Hhash)
    as [(e' & Hl' & Hp' & _ & Hx) Hother].
  assert (∀ q r0, running (MkSystem (complete (now c) (r_key r) (r_hash r) result retain (store c)) (now c)
    (<[p := with_state r (Answered Ready)]> (requests c))
    ((r_key r, Some ((recorded result).2 && negb retain, now c)) :: history c)) q r0 →
    running c q r0 ∧ r_key r0 ≠ r_key r) as Hrun'.
  { intros q r0 [(_ & _ & Hno)|(Hne & Hq & Hq')]%running_insert; [done|]. split; [by split|].
    intros Hk. apply Hne. by eapply He. }
  split; cbn [store now history].
  - by apply complete_ok.
  - intros key. unfold table_matches. cbn [store now history]. rewrite phase_cons.
    case_decide as Hk; [subst key; by rewrite Hl'|]. rewrite Hother by done. apply Ht.
  - intros q r0 [Hq Hk]%Hrun'. destruct (Hr q r0 Hq) as (? & id0 & e0 & Hl0 & ?).
    split; [done|]. exists id0, e0. by rewrite Hother.
  - intros q q' r0 r0' [Hq _]%Hrun' [Hq' _]%Hrun'. by eapply He.
  - intros q r0 [Hq Hk]%Hrun'. rewrite phase_cons, decide_False by done. by eapply Ha.
Qed.

Lemma step_ok c c' : system_ok c → step c c' → system_ok c'.
Proof.
  intros Hok Hstep. destruct Hstep as [c d Hd|c p key hash Hp|c p r Hp Hst|c p r s v Hp Hst Hu Hb
    |c p r id e Hp Hst Ho He|c p r result retain Hp Hst].
  - destruct Hok as [Hs Ht Hr He Ha]. split; try done. intros key. specialize (Ht key).
    unfold table_matches in *. cbn [store now history].
    destruct (phase_of _ key), (lookup_entry _ key) as [[? ?]|]; simpl in *; try done. split; [tauto|lia].
  - apply ok_quiet; [done|congruence|done].
  - apply ok_quiet; [done| |done]. intros r' Hr'. assert (r' = r) as -> by congruence.
    destruct Hst as [->|[id ->]]; done.
  - by apply begin_step_ok.
  - apply ok_quiet; [done| |done]. intros r' Hr'. assert (r' = r) as -> by congruence. by rewrite Hst.
  - by apply complete_step_ok.
Qed.

Lemma initial_ok : system_ok initial.
Proof.
  split; simpl.
  - split; simpl; intros *; rewrite ?lookup_empty; done.
  - intros key. unfold table_matches, lookup_entry. simpl. by rewrite lookup_empty.
  - intros p r [Hp _]. simpl in Hp. by rewrite lookup_empty in Hp.
  - intros p p' r r' [Hp _]. simpl in Hp. by rewrite lookup_empty in Hp.
  - intros p r [Hp _]. simpl in Hp. by rewrite lookup_empty in Hp.
Qed.
Lemma reachable_system_ok c : star step initial c → system_ok c.
Proof. apply (star_invariant step system_ok); [apply initial_ok|]. intros a b. apply step_ok. Qed.

(** (C1) Under one key a mutation runs once.  In every reachable state, however
    many requests with whatever keys and parameters are in flight: two requests
    that are running the mutation have different keys; and a request may start
    running only when its key was never used, or its last run ended with a
    definite outcome at least 15 minutes ago.  So no key is run twice at the
    same time, and a key whose outcome is uncertain is never run again. *)
Theorem mutation_runs_once c :
  star step initial c →
  (∀ p p' r r', running c p r → running c p' r' → r_key r = r_key r' → p = p') ∧
  (∀ key hash s, begin_locked (now c) key hash (store c) = (s, Ready) →
     phase_of (history c) key = Never ∨
     ∃ t, phase_of (history c) key = Ended true t ∧ t + idempotencyTTL <= now c) ∧
  Z.of_nat (size (entries (store c))) <= maxIdempotencyEntries.
Proof.
  intros Hok%reachable_system_ok. split; [apply (sy_exclusive c Hok)|].
  split; [|apply (so_size _ (sy_store c Hok))]. intros key hash s Hb.
  destruct (begin_cases _ _ _ _ _ _ (sy_store c Hok) Hb) as [[? _]|(_ & Hnone & _)]; [done|].
  pose proof (purge_matches _ (now c) _ _ (sy_table c Hok key)) as Hm. rewrite Hnone in Hm.
  destruct (phase_of (history c) key) as [| |definite t]; [by left|done|]. right. exists t.
  destruct Hm as [-> Hm]. done.
Qed.

(** What the owner recorded is what every later request gets.  After the
    owner of a key completes with a result, any request with that key is
    answered with the recorded outcome if its parameters are the same, and with
    a conflict if they are not, for 15 minutes when the result is a definite
    one and for ever when it is retained or could not be recorded. *)
Theorem outcome_replayed c p r result retain later hash :
  star step initial c → running c p r → now c <= later →
  (recorded result).2 && negb retain = false ∨ later < now c + idempotencyTTL →
  let s := complete (now c) (r_key r) (r_hash r) result retain (store c) in
  (begin_locked later (r_key r) hash s).2
  = if decide (hash = r_hash r) then Hit (recorded result).1 else Conflict.
Proof.
  intros Hok%reachable_system_ok Hrun Hlater Hlive. cbv zeta.
  destruct (sy_running c Hok p r Hrun) as (Hu & id & e & Hl & Hpend & Hhash).
  destruct (complete_cases (now c) (r_key r) (r_hash r) result retain _ id e (sy_store c Hok) Hu Hl Hpend Hhash)
    as [(e' & Hl' & Hp' & Ho & Hx) _].
  assert (paramsHash e' = r_hash r) as Hh'.
  { revert Hl'. unfold complete. unfold unusable in Hu. apply orb_false_iff in Hu as [Hu _]. rewrite Hu.
    destruct (recorded result) as [o valid]. rewrite Hl, Hpend, Hhash, bool_decide_eq_true_2 by done.
    cbn [negb orb]. intros [_ Hobj]%lookup_entry_Some. cbn [objects] in Hobj.
    apply lookup_entry_Some in Hl as [He _]. revert Hobj. intros Hobj.
    destruct (decide (id = id)); [|done]. rewrite lookup_insert_eq in Hobj. by injection Hobj as <-. }
  assert (lookup_entry (purgeLocked later (complete (now c) (r_key r) (r_hash r) result retain (store c))) (r_key r)
          = Some (id, e')) as Hl2.
  { apply lookup_purge. split; [done|]. unfold expired. rewrite Hp', Hx. simpl.
    destruct ((recorded result).2 && negb retain) eqn:Hd; [|done]. apply Z.leb_gt. destruct Hlive; [done|lia]. }
  unfold begin_locked. rewrite Hl2, Hh', Hp', Ho.
  case_decide as Hd; [subst hash; by rewrite bool_decide_eq_true_2|]. by rewrite bool_decide_eq_false_2 by congruence.
Qed.
End Invariant.

(** One request that has claimed its key. *)
Definition one_claim : system unit :=
  MkSystem (MkStore (<[0%nat := MkEntry "h" zero_outcome None true]> ∅) (<["k" := 0%nat]> ∅) 1) 0
    (<[1%nat := MkRequest "k" "h" Running]> (<[1%nat := MkRequest "k" "h" Idle]> ∅)) [("k", None)].
Definition one_arrival : system unit :=
  MkSystem newIdempotencyStore 0 (<[1%nat := MkRequest "k" "h" Idle]> ∅) [].
Lemma one_claim_reachable : star step initial one_claim.
Proof.
  apply (star_step _ _ one_arrival).
  - apply (star_step _ _ initial); [constructor|]. exact (step_arrive initial 1 "k" "h" eq_refl).
  - exact (step_begin one_arrival 1 (MkRequest "k" "h" Idle) (store one_claim) Ready eq_refl eq_refl eq_refl eq_refl).
Qed.
Lemma one_claim_running : running one_claim 1 (MkRequest "k" "h" Running).
Proof. split; reflexivity. Qed.

Lemma mutation_runs_once_witness :
  (∀ p r, running one_claim p r → r_key r = "k" → 1%nat = p) ∧
  (begin_locked 0 "k" "h" (store one_claim)).2 = Wait 0.
Proof.
  split; [|vm_compute; reflexivity]. intros p r Hp Hk.
  destruct (mutation_runs_once one_claim one_claim_reachable) as [Hone _].
  exact (Hone 1%nat p _ r one_claim_running Hp (eq_sym Hk)).
Defined.

(** A definite outcome is replayed a minute later, a changed request is
    refused, and after a quarter of an hour the key is free again. *)
Definition done_output : tool_output := MkOutput (T:=unit) [Some "created"] None false.
Lemma outcome_replayed_witness :
  let s := complete (now one_claim) "k" "h" (Some done_output) false (store one_claim) in
  (begin_locked minute "k" "h" s).2 = Hit (MkOutcome "created" None false) ∧
  (begin_locked minute "k" "other" s).2 = Conflict ∧
  (begin_locked idempotencyTTL "k" "h" s).2 = Ready.
Proof.
  intros s. split; [|split].
  - apply (outcome_replayed one_claim 1 (MkRequest "k" "h" Running) (Some done_output) false minute "h"
      one_claim_reachable one_claim_running); [vm_compute; discriminate|right; vm_compute; reflexivity].
  - apply (outcome_replayed one_claim 1 (MkRequest "k" "h" Running) (Some done_output) false minute "other"
      one_claim_reachable one_claim_running); [vm_compute; discriminate|right; vm_compute; reflexivity].
  - vm_compute. reflexivity.
Defined.
