(* ===== verification/ToolResults.v ===== *)
(** What a tool call answers and records: error payloads, bounded and redacted
    text, structured results, recovery from panics
    (src/internal/mcptools/helpers.go, middleware.go), and the audit records of
    mutations (src/internal/security/audit.go). *)
From S2P Require Import Prelude GoStrings GoTime GoEncode GoJson CalErrors Redact TimePolicy Tools ContactsValidation Idempotency.

(** * Text *)

Definition redact (red : option Redactor) (value : string) : string :=
  match red with None => value | Some red => Redact red value end.

Definition truncated_suffix : string := "...[truncated]".
(** The largest index up to [cut] where a rune starts, or 0. *)
Fixpoint rune_cut (l : list ascii) (cut : nat) : nat :=
  match cut with
  | O => O
  | S cut' => match l !! cut with
              | Some c => if rune_start c then cut else rune_cut l cut'
              | None => cut
              end
  end.
Definition boundedUTF8 (value : string) (limit : Z) : string :=
  let value := if valid_utf8 (bytes value) then value else str (to_valid (bytes value)) in
  if limit <=? 0 then ""
  else if len value <=? limit then value
  else
    let cut := limit - len truncated_suffix in
    if cut <=? 0 then str (take (Z.to_nat limit) (bytes truncated_suffix))
    else str (take (rune_cut (bytes value) (Z.to_nat cut)) (bytes value)) ++ truncated_suffix.

(** * Results of a tool call *)

Definition maxCalendarResultBytes : Z := 256 * 1024.
Definition maxErrorMessageBytes : Z := 64 * 1024.
Definition maxErrorDetailBytes : Z := 8 * 1024.
Definition maxErrorDetails : Z := 16.

(** [mcp.CallToolResult], as far as the handlers build it: one text, the
    structured value it spells, and the error flag. *)
Definition CallToolResult : Type := tool_output (T:=json).
Definition ToolResultText (text : string) : CallToolResult := MkOutput [Some text] None false.
Definition ToolResultStructured (value : json) (text : string) : CallToolResult := MkOutput [Some text] (Some value) false.
Definition ToolResultError (text : string) : CallToolResult := MkOutput [Some text] None true.

Record toolErrorPayload := MkPayload {
  PlCode : string;
  PlMessage : string;
  PlRetryable : bool;
  PlRetryAfter : Z;
  PlReconciliation : string;
  PlDetails : gmap string string;
}.
Definition key_order (l : list (string * json)) : list (string * json) :=
  stable_sort (λ a b, string_ltb a.1 b.1) l.
(** A map is written with its keys sorted. *)
Definition payload_json (p : toolErrorPayload) : json :=
  JObject (text_field "code" (PlCode p) ++ field "message" (JString (PlMessage p))
    ++ flag_field "retryable" (PlRetryable p) ++ int_field "retry_after_seconds" (PlRetryAfter p)
    ++ text_field "reconciliation" (PlReconciliation p)
    ++ opt_field "details" (bool_decide (PlDetails p = ∅))
         (JObject (key_order (prod_map id JString <$> map_to_list (PlDetails p)))))%list.

Section Results.
Context `{MapOrder}.

(** At most [maxErrorDetails] entries, in the order of the map. *)
Definition add_detail (red : option Redactor) (details : gmap string string) (kv : string * string) : gmap string string :=
  if maxErrorDetails <=? Z.of_nat (size details) then details
  else <[boundedUTF8 (redact red kv.1) maxErrorDetailBytes := boundedUTF8 (redact red kv.2) maxErrorDetailBytes]> details.
Definition bounded_details (red : option Redactor) (details : gmap string string) : gmap string string :=
  fold_left (add_detail red) (map_order (map_to_list details)) ∅.

(** What the error adds to the message. *)
Definition error_payload (red : option Redactor) (context : string) (err : error) (msg : string) : toolErrorPayload :=
  match AsICloudError err with
  | Some ie =>
      let code := if decide (ErrCode ie = CodeConcurrentModification) then ErrCode ie else PublicCode (ErrCode ie) in
      let details := bounded_details red (Details ie) in
      MkPayload (code_string code) msg (Retryable ie)
        (if 0 <? RetryAfter ie then Z.min (RetryAfter ie / second) 60 else 0)
        (if bool_decide (ErrCode ie = CodeOutcomeUnknown) then default "" (details !! "reconciliation") else "")
        details
  | None =>
      MkPayload (if bool_decide (context = "validation") || bool_decide (context = "validation error")
                 then code_string CodeValidation else "") msg false 0 "" ∅
  end.
Definition errResult (red : option Redactor) (context : string) (err : error) : CallToolResult :=
  let msg := boundedUTF8 (redact red (context ++ ": " ++ error_text err)) maxErrorMessageBytes in
  let p := error_payload red context err msg in
  let b := marshal (payload_json p) in
  if len b <=? maxCalendarResultBytes then ToolResultError b
  else
    let b := marshal (payload_json (MkPayload (PlCode p) (PlMessage p) (PlRetryable p) (PlRetryAfter p) "" ∅)) in
    if maxCalendarResultBytes <? len b
    then ToolResultError "internal error: error response exceeded its byte limit"
    else ToolResultError b.

Definition calendarMutationErrorStatus (err : error) : string :=
  match AsICloudError err with
  | Some typed => if decide (ErrCode typed = CodeOutcomeUnknown) then "outcome_unknown" else "error"
  | None => "error"
  end.

Definition structuredOrText (text : string) : CallToolResult :=
  match json_parse (bytes text) with
  | None | Some JNull => ToolResultText text
  | Some value => if numbers_fit value then ToolResultStructured value text else ToolResultText text
  end.

Definition writeEncoded (red : option Redactor) (too_large : string) (encoded : string) : CallToolResult :=
  let text := redact red encoded in
  if maxCalendarResultBytes <? len text
  then errResult red "formatting response" (Typed (NewError CodePayloadTooLarge 0 too_large None))
  else structuredOrText text.
Definition writeJSON (red : option Redactor) (payload : json) : CallToolResult :=
  writeEncoded red "serialized MCP result exceeded 256 KiB" (marshal_indent 0 payload).
Definition writeCalendarEncoded (red : option Redactor) (encoded : string) : CallToolResult :=
  writeEncoded red "serialized Calendar result exceeded 256 KiB" encoded.
Definition writeCalendarJSON (red : option Redactor) (payload : json) : CallToolResult :=
  writeCalendarEncoded red (marshal_indent 0 payload).

(** A handler returns, or panics with a value printed as [text]. *)
Inductive handler_end := Returns (r : CallToolResult) | Panics (text : string).
Definition RecoverRedactMiddleware (red : option Redactor) (next : handler_end) : CallToolResult :=
  match next with
  | Returns r => r
  | Panics text =>
      match red with
      | None => ToolResultError (marshal (JObject [("code", JString "internal_error"); ("message", JString "internal error")]))
      | Some _ => errResult red "internal error" (Plain text)
      end
  end.
End Results.

(** * Audit *)

Inductive AuditFormat := AuditFormatJSON | AuditFormatText.
Definition ParseAuditFormat `{UnicodeTables} (value : string) : result string AuditFormat :=
  let v := to_lower (trim_space value) in
  if bool_decide (v = "") || bool_decide (v = "json") then Ok AuditFormatJSON
  else if bool_decide (v = "text") then Ok AuditFormatText
  else Err "audit format must be json or text".

Definition label_rune (c : ascii) : bool :=
  let z := byte_val c in ((97 <=? z) && (z <=? 122)) || ((48 <=? z) && (z <=? 57)) || (z =? 95).
Definition auditLabel (value : string) : string :=
  if bool_decide (value = "") || (64 <? len value) then "unknown"
  else if forallb label_rune (bytes value) then value else "unknown".
Definition audit_statuses : list string := ["success"; "error"; "denied"; "dry_run"; "outcome_unknown"].
Definition auditStatus (status : string) : string :=
  if bool_decide (status ∈ audit_statuses) then status else "error".

(** [hmac.New(sha256.New, key)]: blocks of 64 bytes. *)
Definition hmac_pad (z : Z) (key : list ascii) : list ascii :=
  map (λ c, byte_of (Z.lxor (byte_val c) z)) (key ++ replicate (64 - length key) "000"%char)%list.
Definition hmac_sha256 (key msg : list ascii) : list ascii :=
  let key := if 64 <? zlen key then sum256 key else key in
  sum256 (hmac_pad 92 key ++ sum256 (hmac_pad 54 key ++ msg))%list.
Definition resourceToken (auditTokenKey : list ascii) (domain resourceType resource : string) : string :=
  hex_encode (hmac_sha256 auditTokenKey
    (bytes domain ++ "000"%char :: bytes resourceType ++ "000"%char :: bytes resource)%list).

(** What one record carries; [Format] says how it is written. *)
Record audit_record := MkAudit {
  AuTool : string; AuDomain : string; AuResourceType : string; AuToken : string; AuStatus : string;
}.
Definition LogDomainMutation (auditTokenKey : list ascii) (tool domain resourceType resource status : string) : audit_record :=
  let domain := auditLabel domain in
  let resourceType := auditLabel resourceType in
  MkAudit (auditLabel tool) domain resourceType (resourceToken auditTokenKey domain resourceType resource)
    (auditStatus status).
(** The line of the text format. *)
Definition audit_line (timestamp : gtime) (r : audit_record) : string :=
  "timestamp=" ++ format_rfc3339 timestamp ++ " level=INFO msg=audit tool=" ++ AuTool r ++ " domain=" ++ AuDomain r
  ++ " resourceType=" ++ AuResourceType r ++ " resourceToken=" ++ AuToken r ++ " status=" ++ AuStatus r
  ++ str ["010"%char].
Definition logCalendarMutation (auditTokenKey : list ascii) (tool calendarPath uid status : string) : audit_record :=
  LogDomainMutation auditTokenKey tool "calendar" "event" (calendarPath ++ str ["000"%char] ++ uid) status.

(** * Steps of a handler

    A handler runs on the outside state and ends early with a result or a
    panic. *)

(** The audit stream. *)
Class AuditStream (W : Type) := { audit_write : audit_record → W → W }.
(** [return result, nil]. *)
Definition reply {W A} (r : CallToolResult) : M W handler_end A := fail (Returns r).
Definition effect {W} (f : W → W) : M W handler_end unit := λ w, (f w, Ok tt).

(** The idempotency store as a handler sees it ([beginContext] waits inside, so
    [Wait] is not an answer), and the hash of the parameters. *)
Class IdemStore (W : Type) := {
  beginContext (key hash : string) : W → W * verdict (T:=json);
  completeContext (key hash : string) (result : option CallToolResult) (retain : bool) : W → W;
}.
Definition hashIdempotencyParams (v : json) : string := hex_encode (sum256 (bytes (marshal v))).

(** An operation of a world observed through a log, and the event it
    leaves. *)
Definition observe {W T A} (f : W → W * A) (ev : A → T) (w : W * list T) : (W * list T) * A :=
  let '(w1, a) := f w.1 in ((w1, (w.2 ++ [ev a])%list), a).
Lemma emits_reply {W T A} out (Q : list T → result handler_end A → Prop) :
  Q [] (Err (Returns out)) → emits (reply (W:=W * list T) out) Q.
Proof. apply emits_fail. Qed.

(** * What every result and record satisfies *)

(** One text within the limit of a result. *)
Definition one_text (out : CallToolResult) : Prop :=
  ∃ text, content out = [Some text] ∧ len text <= maxCalendarResultBytes.

Lemma errResult_bounded `{MapOrder} red context err :
  one_text (errResult red context err) ∧ out_isError (errResult red context err) = true.
Proof.
  unfold errResult. destruct (len _ <=? maxCalendarResultBytes) eqn:Hl.
  - split; [|done]. eexists. split; [reflexivity|by apply Z.leb_le].
  - destruct (maxCalendarResultBytes <? _) eqn:Hl2; (split; [|done]).
    + by eexists.
    + eexists. split; [reflexivity|by apply Z.ltb_ge].
Qed.
Lemma structuredOrText_text text : content (structuredOrText text) = [Some text] ∧ out_isError (structuredOrText text) = false.
Proof. unfold structuredOrText. destruct (json_parse _) as [v|]; [destruct v; try destruct (numbers_fit _)|]; done. Qed.
Lemma writeEncoded_bounded `{MapOrder} red msg encoded : one_text (writeEncoded red msg encoded).
Proof.
  unfold writeEncoded. destruct (maxCalendarResultBytes <? _) eqn:Hl; [apply errResult_bounded|].
  exists (redact red encoded). split; [apply structuredOrText_text|by apply Z.ltb_ge].
Qed.

(** Every answer built by the shared helpers is a single text of at most
    256 KiB: errors, whatever their message, details and the redactor are,
    and whatever escaping adds to them; documents, after redaction; and the
    answer made from a panic.  Errors are always marked as errors. *)
Theorem tool_results_bounded `{MapOrder} (red : option Redactor) :
  (∀ context err, one_text (errResult red context err) ∧ out_isError (errResult red context err) = true) ∧
  (∀ payload, one_text (writeJSON red payload) ∧ one_text (writeCalendarJSON red payload)) ∧
  (∀ text, one_text (RecoverRedactMiddleware red (Panics text)) ∧
           out_isError (RecoverRedactMiddleware red (Panics text)) = true).
Proof.
  split_and!; [intros; apply errResult_bounded|intros; split; apply writeEncoded_bounded|].
  intros text. destruct red as [red|]; [apply errResult_bounded|]. split; [by eexists|done].
Qed.

(** ** Audit records *)

Definition lower_token (n : Z) (s : string) : Prop := len s <= n ∧ ∀ c, c ∈ bytes s → label_rune c = true.
Lemma auditLabel_token value : lower_token 64 (auditLabel value) ∧ auditLabel value ≠ "".
Proof.
  assert (lower_token 64 "unknown" ∧ "unknown" ≠ "") as Hu.
  { split; [|done]. split; [done|]. intros c Hc. assert (forallb label_rune (bytes "unknown") = true) as Hf by done.
    rewrite forallb_forall in Hf. by apply Hf, list_elem_of_In. }
  unfold auditLabel. destruct (bool_decide (value = "") || _) eqn:Hl; [done|].
  destruct (forallb label_rune (bytes value)) eqn:Hf; [|done].
  apply orb_false_iff in Hl as [Hne Hl]. apply bool_decide_eq_false in Hne. apply Z.ltb_ge in Hl.
  split; [|done]. split; [done|]. intros c Hc. rewrite forallb_forall in Hf. by apply Hf, list_elem_of_In.
Qed.
Lemma hex_digits_label n z : 0 <= z → ∀ c, c ∈ hex_digits n z → label_rune c = true.
Proof.
  revert z. induction n as [|n IH]; intros z Hz c; simpl; [by intros ?%not_elem_of_nil|].
  intros [Hc| ->%list_elem_of_singleton]%elem_of_app; [apply (IH (z / 16)); [by apply Z.div_pos|done]|].
  pose proof (Z.mod_pos_bound z 16 ltac:(lia)) as Hm. set (d := z mod 16) in *. clearbody d.
  assert (d ∈ seqZ 0 16) as Hin by (apply elem_of_seqZ; lia).
  assert (Forall (λ d, label_rune (hex_digit d) = true) (seqZ 0 16)) as Hall by (vm_compute; repeat constructor).
  by apply (proj1 (Forall_forall _ _) Hall).
Qed.
Lemma hex_encode_label l : ∀ c, c ∈ bytes (hex_encode l) → label_rune c = true.
Proof.
  unfold hex_encode. rewrite bytes_str. intros c (x & Hc & Hx)%list_elem_of_In%in_concat.
  apply in_map_iff in Hc as (b & <- & _). apply list_elem_of_In in Hx.
  eapply hex_digits_label; [|exact Hx]. unfold byte_val. lia.
Qed.
Lemma auditStatus_known status : auditStatus status ∈ audit_statuses.
Proof. unfold auditStatus. case_bool_decide; [done|]. right; by left. Qed.

(** Audit records cannot be forged or leak text.  Whatever strings a
    handler passes, the labels of the record are non-empty words of at most 64
    lower-case letters, digits and underscores, the resource appears only as a
    keyed hash in hexadecimal, and the status is one of the five known ones:
    no value can contain a space, an equals sign or a line break. *)
Theorem audit_records_opaque key tool domain resourceType resource status :
  let r := LogDomainMutation key tool domain resourceType resource status in
  (lower_token 64 (AuTool r) ∧ AuTool r ≠ "") ∧ (lower_token 64 (AuDomain r) ∧ AuDomain r ≠ "") ∧
  (lower_token 64 (AuResourceType r) ∧ AuResourceType r ≠ "") ∧
  (∀ c, c ∈ bytes (AuToken r) → label_rune c = true) ∧
  AuStatus r ∈ audit_statuses ∧
  (AuTool r = tool ∨ AuTool r = "unknown") ∧ (AuStatus r = status ∨ AuStatus r = "error").
Proof.
  cbn. split_and!; try apply auditLabel_token; try apply auditStatus_known.
  - apply hex_encode_label.
  - unfold auditLabel. destruct (_ || _); [by right|]. destruct (forallb _ _); [by left|by right].
  - unfold auditStatus. case_bool_decide; [by left|by right].
Qed.
