(* ===== verification/Recurrence.v ===== *)
(** Expansion of recurring events (src/internal/icloud/recurrence.go): the
    proof that a rule cannot trap rrule-go in a long empty scan, the work
    budgets, and the expansion of a series with its exclusions and overrides.

    rrule-go parses a rule and enumerates its occurrences; it is a class. *)
From S2P Require Import Prelude GoStrings GoTime CalErrors CalTypes TimePolicy Validation ContactsValidation Tools.

(** * Rules

    [rrule.ROption], as far as the code reads it. *)
Inductive Frequency := YEARLY | MONTHLY | WEEKLY | DAILY | HOURLY | MINUTELY | SECONDLY.
#[export] Instance Frequency_eq_dec : EqDecision Frequency.
Proof. solve_decision. Defined.
(** [opt.Freq >= rrule.HOURLY]. *)
Definition sub_daily (f : Frequency) : bool :=
  match f with HOURLY | MINUTELY | SECONDLY => true | _ => false end.
(** [rrule.Weekday]: [Day()] counts from Monday, [N()] is the ordinal, 0 for
    none. *)
Record Weekday := MkWeekday { WdDay : Z; WdN : Z }.
#[export] Instance Weekday_eq_dec : EqDecision Weekday.
Proof. solve_decision. Defined.
Record ROption := MkROption {
  Freq : Frequency;
  Dtstart : gtime;
  Interval : Z;
  Wkst : Weekday;
  Count : Z;
  Until : gtime;
  Bysetpos : list Z; Bymonth : list Z; Bymonthday : list Z; Byyearday : list Z; Byweekno : list Z;
  Byweekday : list Weekday;
  Byhour : list Z; Byminute : list Z; Bysecond : list Z; Byeaster : list Z;
}.
Definition set_dtstart (t : gtime) (o : ROption) : ROption :=
  MkROption (Freq o) t (Interval o) (Wkst o) (Count o) (Until o) (Bysetpos o) (Bymonth o) (Bymonthday o)
    (Byyearday o) (Byweekno o) (Byweekday o) (Byhour o) (Byminute o) (Bysecond o) (Byeaster o).
(** The three selectors a default is given to. *)
Definition set_dates (bymonth bymonthday : list Z) (byweekday : list Weekday) (o : ROption) : ROption :=
  MkROption (Freq o) (Dtstart o) (Interval o) (Wkst o) (Count o) (Until o) (Bysetpos o) bymonth bymonthday
    (Byyearday o) (Byweekno o) byweekday (Byhour o) (Byminute o) (Bysecond o) (Byeaster o).

(** rrule-go: the parser, and the iterator of a rule; errors are texts. *)
Class RRuleLib := {
  StrToROption : string → result string ROption;
  Iter : Type;
  NewRRule : ROption → result string Iter;
  iter_next : Iter → option gtime * Iter;
}.

Definition maxOccurrencesPerSeries : Z := 2000.
Definition maxRecurrenceExpansionWork : Z := 100000.
Definition maxRecurrenceSearchWork : Z := 250000.
Definition maxRemoteOverrides : Z := 512.
Definition MaxTitleLen : Z := 500.
Definition MaxLocationLen : Z := 1000.
Definition MaxNotesLen : Z := 4000.
Definition MaxURLLen : Z := 2000.

(** * Calendar arithmetic *)

Definition t_civil (t : gtime) : civil := local_civil (tzone t) (instant t).
(** Monday is 0. *)
Definition t_weekday (t : gtime) : Z := (local_weekday (tzone t) (instant t) + 6) mod 7.
(** Seconds since local midnight, and [Hour], [Minute], [Second]. *)
Definition t_clock (t : gtime) : Z := local_secs (tzone t) (instant t) mod day_secs.
Definition t_hour (t : gtime) : Z := t_clock t / 3600.
Definition t_minute (t : gtime) : Z := t_clock t / 60 mod 60.
Definition t_second (t : gtime) : Z := t_clock t mod 60.
Definition days_of (c : civil) : Z := days_from_civil (cyear c) (cmonth c) (cday c).
Definition t_yearday (t : gtime) : Z := days_of (t_civil t) - days_from_civil (cyear (t_civil t)) 1 1 + 1.
(** [time.Date(y, m, d, 0, 0, 0, 0, loc)]. *)
Definition midnight (y m d : Z) (loc : Location) : gtime := GTime (go_date y m d 0 0 0 loc) loc.
(** [t.AddDate(y, m, d)]. *)
Definition add_date (y m d : Z) (t : gtime) : gtime :=
  let c := t_civil t in
  GTime (go_date (cyear c + y) (cmonth c + m) (cday c + d) 0 0 (t_clock t) (tzone t) + instant t mod second) (tzone t).
Definition before (t u : gtime) : bool := instant t <? instant u.
Definition unix (t : gtime) : Z := instant t / second.

Definition recurrenceWeekStart (date : gtime) (weekStart : Z) : gtime :=
  let c := t_civil date in
  let date := midnight (cyear c) (cmonth c) (cday c) (tzone date) in
  add_date 0 0 (- Z.rem (t_weekday date - weekStart + 7) 7) date.
Definition recurrenceFirstWeekStart (year weekStart : Z) (loc : Location) : gtime :=
  recurrenceWeekStart (midnight year 1 4 loc) weekStart.
Definition recurrenceCalendarDaysBetween (start end_ : gtime) : Z :=
  let utc t := second * (days_of (t_civil t) * day_secs) in
  Z.quot (time_sub (utc end_) (utc start)) (24 * hour).

(** * Selectors *)

(** [sort.SearchInts]: the first index of [lo, hi) whose value is at least
    [target], by bisection. *)
Fixpoint search_from (fuel : nat) (l : list Z) (target : Z) (lo hi : nat) : nat :=
  match fuel with
  | O => lo
  | S fuel =>
      if (lo <? hi)%nat then
        let h := ((lo + hi) / 2)%nat in
        if default 0 (l !! h) <? target then search_from fuel l target (S h) hi
        else search_from fuel l target lo h
      else lo
  end.
Definition SearchInts (l : list Z) (target : Z) : nat := search_from (length l) l target 0 (length l).
Definition intSliceContains (values : list Z) (target : Z) : bool :=
  let index := SearchInts values target in
  (index <? length values)%nat && bool_decide (values !! index = Some target).

(** The first occurrence of each value, in order. *)
Definition unique_values {A} `{EqDecision A} (l : list A) : list A :=
  fold_left (λ acc a, if decide (a ∈ acc) then acc else (acc ++ [a])%list) l [].
Definition sort_ints (l : list Z) : list Z := merge_sort Z.le l.
Definition normal_ints (l : list Z) : list Z := sort_ints (unique_values l).
Definition or_one (n : Z) : Z := if n =? 0 then 1 else n.
Definition recurrenceTimesPerDate (o : ROption) : Z :=
  or_one (zlen (Byhour o)) * or_one (zlen (Byminute o)) * or_one (zlen (Bysecond o)).
(** The normalised rule, and whether its clock selectors are few enough. *)
Definition normalizeRecurrenceSelectorLists (o : ROption) : ROption * bool :=
  let n := MkROption (Freq o) (Dtstart o) (Interval o) (Wkst o) (Count o) (Until o) (normal_ints (Bysetpos o))
             (normal_ints (Bymonth o)) (normal_ints (Bymonthday o)) (normal_ints (Byyearday o))
             (normal_ints (Byweekno o)) (unique_values (Byweekday o)) (normal_ints (Byhour o))
             (normal_ints (Byminute o)) (normal_ints (Bysecond o)) (normal_ints (Byeaster o)) in
  (n, recurrenceTimesPerDate n <=? maxRecurrenceExpansionWork).

Definition hasRecurrenceDateSelectors (o : ROption) : bool :=
  0 <? zlen (Bymonth o) + zlen (Bymonthday o) + zlen (Byyearday o) + zlen (Byweekno o) + zlen (Byweekday o) + zlen (Byeaster o).
Definition recurrenceHasOnlyWeekdayDateSelectors (o : ROption) : bool :=
  negb (zlen (Byweekday o) =? 0)
  && (zlen (Bymonth o) + zlen (Bymonthday o) + zlen (Byyearday o) + zlen (Byweekno o) + zlen (Byeaster o) =? 0).
Definition normalizeRecurrenceDateDefaults (o : ROption) : ROption :=
  if negb (zlen (Byweekno o) + zlen (Byyearday o) + zlen (Bymonthday o) + zlen (Byweekday o) + zlen (Byeaster o) =? 0)
  then o
  else
    let c := t_civil (Dtstart o) in
    match Freq o with
    | YEARLY => set_dates (if zlen (Bymonth o) =? 0 then [cmonth c] else Bymonth o) [cday c] (Byweekday o) o
    | MONTHLY => set_dates (Bymonth o) [cday c] (Byweekday o) o
    | WEEKLY => set_dates (Bymonth o) (Bymonthday o) [MkWeekday (t_weekday (Dtstart o)) 0] o
    | _ => o
    end.

Definition recurrenceTimesPerPeriod (o : ROption) : Z :=
  match Freq o with
  | HOURLY => or_one (zlen (Byminute o)) * or_one (zlen (Bysecond o))
  | MINUTELY => or_one (zlen (Bysecond o))
  | SECONDLY => 1
  | _ => recurrenceTimesPerDate o
  end.
Definition recurrenceBySetPosCanSelect (o : ROption) (candidates : Z) : bool :=
  if candidates <=? 0 then false
  else if zlen (Bysetpos o) =? 0 then true
  else existsb (λ p, ((0 <? p) && (p <=? candidates)) || ((p <? 0) && (wrap64 (- p) <=? candidates))) (Bysetpos o).

(** The ordinals of a weekday from the start and from the end of its month,
    or of its year. *)
Definition recurrenceWeekdayOrdinals (o : ROption) (date : gtime) (daysInMonth daysInYear : Z) : Z * Z :=
  let '(day, lastDay) :=
    if bool_decide (Freq o = YEARLY) && (zlen (Bymonth o) =? 0) then (t_yearday date, daysInYear)
    else (cday (t_civil date), daysInMonth) in
  (Z.quot (day - 1) 7 + 1, - (Z.quot (lastDay - day) 7 + 1)).
Definition recurrenceWeekNumberMatches (date : gtime) (weekStart : Z) (selectors : list Z) : bool :=
  let loc := tzone date in
  let year := cyear (t_civil date) in
  let first := recurrenceFirstWeekStart year weekStart loc in
  let '(weekYear, first) :=
    if before date first then (year - 1, recurrenceFirstWeekStart (year - 1) weekStart loc)
    else
      let next := recurrenceFirstWeekStart (year + 1) weekStart loc in
      if before date next then (year, first) else (year + 1, next) in
  let week := Z.quot (recurrenceCalendarDaysBetween first date) 7 + 1 in
  let weeks := Z.quot (recurrenceCalendarDaysBetween first (recurrenceFirstWeekStart (weekYear + 1) weekStart loc)) 7 in
  intSliceContains selectors week || intSliceContains selectors (week - weeks - 1).
(** Among a list of day selectors: the empty list selects everything. *)
Definition selects (l : list Z) (a b : Z) : bool := (zlen l =? 0) || intSliceContains l a || intSliceContains l b.
Definition recurrenceDateMatches (o : ROption) (date : gtime) : bool :=
  let c := t_civil date in
  let loc := tzone date in
  let daysInMonth := cday (t_civil (midnight (cyear c) (cmonth c + 1) 0 loc)) in
  let daysInYear := if cmonth (t_civil (midnight (cyear c) 2 29 loc)) =? 2 then 366 else 365 in
  let weekday := t_weekday date in
  let plain := List.filter (λ s, WdN s =? 0) (Byweekday o) in
  let ordinal := List.filter (λ s, negb (WdN s =? 0)) (Byweekday o) in
  let '(positive, negative) := recurrenceWeekdayOrdinals o date daysInMonth daysInYear in
  ((zlen (Bymonth o) =? 0) || intSliceContains (Bymonth o) (cmonth c))
  && selects (Bymonthday o) (cday c) (cday c - daysInMonth - 1)
  && selects (Byyearday o) (t_yearday date) (t_yearday date - daysInYear - 1)
  && ((zlen (Byweekno o) =? 0) || recurrenceWeekNumberMatches date (WdDay (Wkst o)) (Byweekno o))
  && ((zlen plain =? 0) || existsb (λ s, WdDay s =? weekday) plain)
  && ((zlen ordinal =? 0)
      || existsb (λ s, (WdDay s =? weekday) && ((WdN s =? positive) || (WdN s =? negative))) ordinal).

(** The longest run of empty periods of a cycle, walked twice round; [None]:
    every period is empty. *)
Fixpoint empty_runs (n : Z) (states : list bool) (maxEmpty empty : Z) : Z :=
  match states with
  | [] => maxEmpty
  | true :: states => empty_runs n states maxEmpty 0
  | false :: states =>
      let empty := empty + 1 in
      empty_runs n states (if (maxEmpty <? empty) && (empty <? n) then empty else maxEmpty) empty
  end.
Definition maximumCyclicEmptyPeriods (states : list bool) : option Z :=
  if existsb id states then Some (empty_runs (zlen states) (states ++ states)%list 0 0) else None.

Fixpoint gcd_loop (fuel : nat) (a b : Z) : Z :=
  match fuel with
  | O => a
  | S fuel => if b =? 0 then a else gcd_loop fuel b (Z.rem a b)
  end.
Definition greatestCommonDivisor (a b : Z) : Z :=
  let g := gcd_loop (S (Z.to_nat (Z.abs b))) a b in if g <? 0 then - g else g.

(** * Running a bounded number of times

    [iterate p f s] runs [f] from [s] at most [p] times, until it stops. *)
Fixpoint iterate {S R} (p : positive) (f : S → S + R) (s : S) : S + R :=
  match p with
  | xH => f s
  | xO p => match iterate p f s with inl s => iterate p f s | inr r => inr r end
  | xI p => match f s with
            | inl s => match iterate p f s with inl s => iterate p f s | inr r => inr r end
            | inr r => inr r
            end
  end.

(** * Safety of the selectors

    The work budgets of the series and of the whole search are part of the
    state. *)

Inductive selector_stop := SelectorsCanceled | SelectorsUnsupported | SelectorsUnreachable | SelectorsExcessive.
#[export] Instance selector_stop_eq_dec : EqDecision selector_stop.
Proof. solve_decision. Defined.
Record budgets := MkBudgets { seriesRemaining : Z; aggregateRemaining : Z }.

(** The clock of a high-frequency rule: its cycle, where it starts, and the
    values its selectors admit; [None] when nothing restricts it. *)
Definition admits (l : list Z) (z : Z) : bool := (zlen l =? 0) || intSliceContains l z.
Definition clock_of (o : ROption) : option (Z * Z * (Z → bool)) :=
  let t := Dtstart o in
  let no l := zlen l =? 0 in
  match Freq o with
  | HOURLY =>
      if no (Byhour o) then None else Some (24, t_hour t, λ z, intSliceContains (Byhour o) z)
  | MINUTELY =>
      if no (Byhour o) && no (Byminute o) then None
      else
        let '(cycle, start) := if no (Byhour o) then (60, t_minute t) else (24 * 60, t_hour t * 60 + t_minute t) in
        Some (cycle, start, λ z,
          let h := if cycle =? 60 then t_hour t else z / 60 in
          admits (Byhour o) h && admits (Byminute o) (z mod 60))
  | SECONDLY =>
      if no (Byhour o) && no (Byminute o) && no (Bysecond o) then None
      else
        let '(cycle, start) :=
          if negb (no (Byhour o)) then (24 * 60 * 60, t_hour t * 3600 + t_minute t * 60 + t_second t)
          else if negb (no (Byminute o)) then (60 * 60, t_minute t * 60 + t_second t)
          else (60, t_second t) in
        Some (cycle, start, λ z,
          let h := if cycle <? 24 * 60 * 60 then t_hour t else z / 3600 in
          let m := if cycle =? 60 then t_minute t else z / 60 mod 60 in
          admits (Byhour o) h && admits (Byminute o) m && admits (Bysecond o) (z mod 60))
  | _ => None
  end.
Definition at_least_one (n : Z) : Z := if n <? 1 then 1 else n.

Definition saturatingWorkMultiply (a b : Z) : Z :=
  if (a <=? 0) || (b <=? 0) then 0
  else if Z.quot maxRecurrenceExpansionWork b <? a then maxRecurrenceExpansionWork + 1
  else a * b.

(** The period walk of a lower-frequency rule: its number of states, where it
    starts and how it advances. *)
Definition period_end (o : ROption) (start : gtime) : gtime :=
  match Freq o with
  | YEARLY => add_date 1 0 0 start
  | MONTHLY => add_date 0 1 0 start
  | WEEKLY => add_date 0 0 7 start
  | _ => add_date 0 0 1 start
  end.
Definition next_period (o : ROption) (interval : Z) (start : gtime) : gtime :=
  match Freq o with
  | YEARLY => add_date interval 0 0 start
  | MONTHLY => add_date 0 interval 0 start
  | WEEKLY => add_date 0 0 (interval * 7) start
  | _ => add_date 0 0 interval start
  end.
Definition cycle_base (o : ROption) : Z :=
  match Freq o with
  | YEARLY => 400
  | MONTHLY => 4800
  | WEEKLY => 20871
  | _ => if recurrenceHasOnlyWeekdayDateSelectors o then 7 else 146097
  end.
Definition first_period (o : ROption) : gtime :=
  let c := t_civil (Dtstart o) in
  let loc := tzone (Dtstart o) in
  match Freq o with
  | YEARLY => midnight (cyear c) 1 1 loc
  | MONTHLY => midnight (cyear c) (cmonth c) 1 loc
  | WEEKLY => recurrenceWeekStart (Dtstart o) (WdDay (Wkst o))
  | _ => midnight (cyear c) (cmonth c) (cday c) loc
  end.
(** The work one period is charged. *)
Definition period_work (o : ROption) (matches timesPerDate : Z) : Z :=
  let candidates := matches * timesPerDate in
  if negb (zlen (Bysetpos o) =? 0)
  then Z.max timesPerDate (Z.max matches (saturatingWorkMultiply (Z.max 1 matches) (zlen (Bysetpos o))))
  else if (0 <? Count o) && (Count o <? candidates) then Count o
  else candidates.
(** A rule whose default date always exists. *)
Definition needs_default_cycle (o : ROption) : bool :=
  let c := t_civil (Dtstart o) in
  (bool_decide (Freq o = YEARLY) && (cmonth c =? 2) && (cday c =? 29))
  || (bool_decide (Freq o = MONTHLY) && (28 <? cday c)).

Section Safety.
Context {W : Type} `{Ctx W}.
Abbreviation St := (W * budgets)%type.
Abbreviation C_ := (M St selector_stop).

(** [select { case <-ctx.Done(): ... default: }]. *)
Definition poll_done : C_ unit := λ st,
  let '(w, e) := ctx_Err st.1 in
  ((w, st.2), match e with None => Ok tt | Some _ => Err SelectorsCanceled end).
Definition consumeRecurrenceWork : C_ unit := λ st,
  let b := st.2 in
  if (seriesRemaining b <=? 0) || (aggregateRemaining b <=? 0) then (st, Err SelectorsExcessive)
  else ((st.1, MkBudgets (seriesRemaining b - 1) (aggregateRemaining b - 1)), Ok tt).
Definition consumeAggregateRecurrenceWork (work aggregate : Z) : option Z :=
  if (work <? 0) || (aggregate <? work) then None else Some (aggregate - work).

(** The states of the clock, in order; polled every 256. *)
Fixpoint clock_states (n : nat) (i : Z) (cycle step value : Z) (matches : Z → bool) : C_ (list bool) :=
  match n with
  | O => mret []
  | S n =>
      (if i mod 256 =? 0 then poll_done else mret tt);;
      consumeRecurrenceWork;;
      rest ← clock_states n (i + 1) cycle step ((value + step) mod cycle) matches;
      mret (matches value :: rest)
  end.
Definition recurrenceClockSelectorSafety (o : ROption) : C_ Z :=
  let interval := at_least_one (Interval o) in
  match clock_of o with
  | None => mret 0
  | Some (cycle, start, matches) =>
      states ← clock_states (Z.to_nat (cycle / greatestCommonDivisor interval cycle)) 0 cycle (interval mod cycle) start matches;
      match maximumCyclicEmptyPeriods states with
      | None => fail SelectorsUnreachable
      | Some maxEmpty => mret maxEmpty
      end
  end.

(** One turn of the loop over the dates of a period: the date, the matches so
    far, and the aggregate budget. *)
Definition date_turn (o : ROption) (end_ : gtime) (s : gtime * Z * Z) : gtime * Z * Z + Z * option Z :=
  let '(date, matches, aggregate) := s in
  if negb (before date end_) then inr (aggregate, Some matches)
  else match consumeAggregateRecurrenceWork 1 aggregate with
       | None => inr (aggregate, None)
       | Some aggregate =>
           inl (add_date 0 0 1 date, if recurrenceDateMatches o date then matches + 1 else matches, aggregate)
       end.
(** The budget bounds the loop: the last case is not reached. *)
Definition recurrenceMatchingDatesInPeriod (o : ROption) (start : gtime) : C_ Z := λ st,
  let b := st.2 in
  match iterate (Z.to_pos (aggregateRemaining b + 1)) (date_turn o (period_end o start)) (start, 0, aggregateRemaining b) with
  | inr (aggregate, Some matches) => ((st.1, MkBudgets (seriesRemaining b) aggregate), Ok matches)
  | inr (aggregate, None) => ((st.1, MkBudgets (seriesRemaining b) aggregate), Err SelectorsExcessive)
  | inl _ => (st, Err SelectorsExcessive)
  end.

(** The states of the periods, in order, and the most work of one. *)
Fixpoint period_states (n : nat) (i : Z) (o : ROption) (interval timesPerDate : Z) (start : gtime) (maxWork : Z)
    : C_ (list bool * Z) :=
  match n with
  | O => mret ([], maxWork)
  | S n =>
      (if i mod 256 =? 0 then poll_done else mret tt);;
      matches ← recurrenceMatchingDatesInPeriod o start;
      let work := period_work o matches timesPerDate in
      fail_if (maxRecurrenceExpansionWork <? work) SelectorsExcessive;;
      '(rest, maxWork) ← period_states n (i + 1) o interval timesPerDate (next_period o interval start) (Z.max maxWork work);
      mret (recurrenceBySetPosCanSelect o (matches * timesPerDate) :: rest, maxWork)
  end.

(** The most empty periods in a row, and the most candidates of a period. *)
Definition checkRecurrenceSelectorSafety (o : ROption) : C_ (Z * Z) :=
  fail_if (negb (zlen (Byeaster o) =? 0)) SelectorsUnsupported;;
  fail_if (existsb (λ s, negb (WdN s =? 0)) (Byweekday o)
           && negb (bool_decide (Freq o = YEARLY)) && negb (bool_decide (Freq o = MONTHLY))) SelectorsUnsupported;;
  let interval := at_least_one (Interval o) in
  fail_if (maxRecurrenceExpansionWork <? interval) SelectorsExcessive;;
  clockMaxEmpty ← recurrenceClockSelectorSafety o;
  if sub_daily (Freq o) then
    fail_if (hasRecurrenceDateSelectors o) SelectorsUnsupported;;
    if recurrenceBySetPosCanSelect o (recurrenceTimesPerPeriod o)
    then mret (clockMaxEmpty, recurrenceTimesPerPeriod o)
    else fail SelectorsUnreachable
  else
    let n := normalizeRecurrenceDateDefaults o in
    if negb (hasRecurrenceDateSelectors o) && negb (needs_default_cycle n) then
      consumeRecurrenceWork;;
      let candidates := recurrenceTimesPerDate n in
      fail_if (negb (recurrenceBySetPosCanSelect n candidates)) SelectorsUnreachable;;
      mret (if bool_decide (Freq n = MONTHLY) && (28 <? cday (t_civil (Dtstart n))) then 1 else 0, candidates)
    else
      let cycle := cycle_base n / greatestCommonDivisor interval (cycle_base n) in
      '(states, maxWork) ← period_states (Z.to_nat cycle) 0 n interval (recurrenceTimesPerDate n) (first_period n) 0;
      match maximumCyclicEmptyPeriods states with
      | None => fail SelectorsUnreachable
      | Some maxEmpty =>
          fail_if (maxRecurrenceExpansionWork <=? maxEmpty) SelectorsExcessive;;
          mret (maxEmpty, maxWork)
      end.
End Safety.

(** * The work estimate *)

Definition durationPeriods (start end_ : gtime) (unit interval : Z) : Z :=
  let span := time_sub (instant end_) (instant start) in
  if span <? 0 then 1
  else
    let units := Z.quot span unit in
    if maxRecurrenceExpansionWork <=? Z.quot units interval then maxRecurrenceExpansionWork + 1
    else Z.quot units interval + 2.
Definition periods_until (o : ROption) (end_ : gtime) (interval : Z) : Z :=
  let s := t_civil (Dtstart o) in
  let e := t_civil end_ in
  match Freq o with
  | SECONDLY => durationPeriods (Dtstart o) end_ second interval
  | MINUTELY => durationPeriods (Dtstart o) end_ minute interval
  | HOURLY => durationPeriods (Dtstart o) end_ hour interval
  | DAILY => durationPeriods (Dtstart o) end_ (24 * hour) interval
  | WEEKLY => durationPeriods (Dtstart o) end_ (7 * 24 * hour) interval
  | MONTHLY => Z.quot ((cyear e - cyear s) * 12 + (cmonth e - cmonth s)) interval + 2
  | YEARLY => Z.quot (cyear e - cyear s) interval + 2
  end.
Definition recurrenceWorkEstimate (o : ROption) (rangeEnd : gtime) (maxEmptyPeriods maxPeriodCandidates : Z) : Z :=
  let candidates := at_least_one maxPeriodCandidates in
  let interval := at_least_one (Interval o) in
  if maxRecurrenceExpansionWork <? interval then maxRecurrenceExpansionWork + 1
  else
    let end_ := if negb (is_zero (instant (Until o))) && before (Until o) rangeEnd then Until o else rangeEnd in
    if negb (before (Dtstart o) end_) then 1
    else
      let periods := at_least_one (periods_until o end_ interval) in
      let perResult := saturatingWorkMultiply (maxEmptyPeriods + 1) candidates in
      let estimate := Z.max (saturatingWorkMultiply periods candidates) perResult in
      if 0 <? Count o then Z.min (saturatingWorkMultiply (Count o) perResult) estimate else estimate.

(** * Expansion *)

Definition eventOverlaps (e : Event) (rangeStart rangeEnd : gtime) : bool :=
  before (StartTime e) rangeEnd && before rangeStart (EndTime e).
Definition recurrenceOccurrenceEnd (master : Event) (start : gtime) : gtime :=
  if hasNominalDuration master
  then let t := add_date 0 0 (nominalDurationDays master) start in
       GTime (instant t + nominalDurationRemainder master) (tzone t)
  else GTime (instant start + time_sub (instant (EndTime master)) (instant (StartTime master))) (tzone start).
Definition validateReadEventFields (e : Event) : result error unit :=
  reject (MaxUIDLen <? len (UID e)) || (MaxTitleLen <? len (Title e)) || (MaxLocationLen <? len (EvLocation e))
         || (MaxNotesLen <? len (Notes e)) || (MaxURLLen <? len (URL e)) || (1024 <? len (Recurrence e))
         || (MaxUIDLen <? len (Timezone e)) || (64 <? len (EvStatus e)) || (64 <? len (Transp e))
         || (maxETagBytes <? len (ETag e)) || (1024 <? len (Path e))
    with Typed (NewError CodePayloadTooLarge 0 "Calendar event field exceeded its byte limit" None) ;;
  Ok tt.

(** The occurrence [occ] of a series, as a row of its own. *)
Definition occurrence (master : Event) (occ : gtime) : Event :=
  MkEvent (UID master) (Path master) (EvCalendar master) (Title master) (EvLocation master) (Notes master)
    occ (recurrenceOccurrenceEnd master occ) (AllDay master) "" (Timezone master) (EvStatus master) (Transp master)
    (URL master) (ETag master) occ false [] (hasNominalDuration master) (nominalDurationDays master)
    (nominalDurationRemainder master).
Definition as_override (e : Event) : Event :=
  MkEvent (UID e) (Path e) (EvCalendar e) (Title e) (EvLocation e) (Notes e) (StartTime e) (EndTime e) (AllDay e) ""
    (Timezone e) (EvStatus e) (Transp e) (URL e) (ETag e) (RecurrenceID e) true (exDates e) (hasNominalDuration e)
    (nominalDurationDays e) (nominalDurationRemainder e).
(** Only the times matter to [eventOverlaps]. *)
Definition occurrence_overlaps (master : Event) (rangeStart rangeEnd occ : gtime) : bool :=
  before occ rangeEnd && before rangeStart (recurrenceOccurrenceEnd master occ).

(** How far before the range an occurrence may start and still reach it. *)
Definition overlap_duration (master : Event) : Z :=
  let duration := Z.max 0 (time_sub (instant (EndTime master)) (instant (StartTime master))) in
  if hasNominalDuration master then
    let elapsed := wrap64 (wrap64 (nominalDurationDays master * (24 * hour)) + nominalDurationRemainder master) in
    let elapsed := if elapsed <=? max_int64 - 24 * hour then elapsed + 24 * hour else elapsed in
    Z.max duration elapsed
  else duration.
Definition effective_max (maxOccurrences : Z) : Z :=
  if (maxOccurrences <=? 0) || (maxOccurrencesPerSeries <? maxOccurrences) then maxOccurrencesPerSeries else maxOccurrences.

Definition too_large (message : string) : error := Typed (NewError CodePayloadTooLarge 0 message None).
Definition bad_rule (message : string) : error := Typed (NewError CodeProtocolError 0 message None).

Section Expansion.
Context {W : Type} `{Ctx W} `{RRuleLib} `{MapOrder} `{UnicodeTables}.

(** The loop over the iterator: the occurrences kept so far (last first), the
    advances made, both budgets. *)
Record walk := MkWalk { wk_iter : Iter; wk_kept : list gtime; wk_advances : Z; wk_budgets : budgets; wk_world : W }.
Definition walk_end : Type := W * budgets * result error (list gtime * bool).
Definition walk_turn (master : Event) (rangeStart rangeEnd lowerBound : gtime) (excluded : gset Z) (max : Z) (k : walk)
    : walk + walk_end :=
  let '(w, e) := ctx_Err (wk_world k) in
  let b := wk_budgets k in
  match e with
  | Some e => inr (w, b, Err (Typed (calendarContextError e)))
  | None =>
      if (maxRecurrenceExpansionWork <=? wk_advances k) || (seriesRemaining b <=? 0) || (aggregateRemaining b <=? 0)
      then inr (w, b, Err (too_large "Calendar recurrence rule exceeded its expansion-work limit"))
      else
        let '(o, it) := iter_next (wk_iter k) in
        let b := MkBudgets (seriesRemaining b - 1) (aggregateRemaining b - 1) in
        let next kept := inl (MkWalk it kept (wk_advances k + 1) b w) in
        match o with
        | None => inr (w, b, Ok (reverse (wk_kept k), false))
        | Some occ =>
            if before rangeEnd occ then inr (w, b, Ok (reverse (wk_kept k), false))
            else if before occ lowerBound then next (wk_kept k)
            else if bool_decide (unix occ ∈ excluded) then next (wk_kept k)
            else if negb (occurrence_overlaps master rangeStart rangeEnd occ) then next (wk_kept k)
            else if zlen (occ :: wk_kept k) =? max + 1 then inr (w, b, Ok (reverse (wk_kept k), true))
            else next (occ :: wk_kept k)
        end
  end.

(** Overrides by the second they replace; the last one wins. *)
Definition override_map (overrides : list Event) : gmap Z Event :=
  fold_left (λ m o, <[unix (RecurrenceID o) := as_override o]> m) overrides ∅.
(** The row of an occurrence: its override when it has one. *)
Definition row_of (master : Event) (overrides : gmap Z Event) (rangeStart rangeEnd occ : gtime) : list Event :=
  if negb (occurrence_overlaps master rangeStart rangeEnd occ) then []
  else match overrides !! unix occ with
       | Some ov => if eventOverlaps ov rangeStart rangeEnd then [ov] else []
       | None => [occurrence master occ]
       end.
(** Overrides whose slot was not met, in the order of the map. *)
Definition moved_overrides (overrides : gmap Z Event) (used : gset Z) (rangeStart rangeEnd : gtime) : list Event :=
  List.filter (λ ov, eventOverlaps ov rangeStart rangeEnd)
    (map (λ kv, kv.2.2) (List.filter (λ kv, negb (bool_decide (kv.2.1 ∈ used)))
       (map_order (map (λ kv, (fmt_int kv.1, kv)) (map_to_list overrides))))).
Definition assemble (master : Event) (overrides : list Event) (rangeStart rangeEnd : gtime) (max : Z)
    (occs : list gtime) (truncated : bool) : list Event * bool :=
  let byID := override_map overrides in
  let used : gset Z := list_to_set (List.filter (λ k, bool_decide (is_Some (byID !! k)))
    (map unix (List.filter (occurrence_overlaps master rangeStart rangeEnd) occs))) in
  let out := (concat (map (row_of master byID rangeStart rangeEnd) occs)
              ++ moved_overrides byID used rangeStart rangeEnd)%list in
  if max <? zlen out then (take (Z.to_nat max) out, true) else (out, truncated).

(** The verdict of the safety check, as an error. *)
Definition stop_error (ctxErr : option error) (s : selector_stop) : error :=
  match s with
  | SelectorsCanceled => Typed (calendarContextError (default Canceled ctxErr))
  | SelectorsUnsupported => bad_rule "Calendar recurrence rule uses an unsupported unsafe selector combination"
  | SelectorsUnreachable => bad_rule "Calendar recurrence rule has unreachable date selectors"
  | SelectorsExcessive => too_large "Calendar recurrence rule requires excessive internal selector work"
  end.
Definition check_safety (o : ROption) : M (W * Z) error (budgets * (Z * Z)) := λ st,
  let '((w, b), r) := checkRecurrenceSelectorSafety o (st.1, MkBudgets maxRecurrenceExpansionWork st.2) in
  match r with
  | Ok v => ((w, aggregateRemaining b), Ok (b, v))
  | Err SelectorsCanceled =>
      let '(w, e) := ctx_Err w in ((w, aggregateRemaining b), Err (stop_error e SelectorsCanceled))
  | Err s => ((w, aggregateRemaining b), Err (stop_error None s))
  end.
Definition walk_rule (it : Iter) (master : Event) (rangeStart rangeEnd : gtime) (max series : Z)
    : M (W * Z) error (list gtime * bool) := λ st,
  let excluded : gset Z := list_to_set (map unix (exDates master)) in
  let lowerBound := GTime (instant rangeStart - overlap_duration master) (tzone rangeStart) in
  match iterate (Z.to_pos (maxRecurrenceExpansionWork + 1))
          (walk_turn master rangeStart rangeEnd lowerBound excluded max)
          (MkWalk it [] 0 (MkBudgets series st.2) st.1) with
  | inr (w, b, r) => ((w, aggregateRemaining b), r)
  | inl k => ((wk_world k, aggregateRemaining (wk_budgets k)),
              Err (too_large "Calendar recurrence rule exceeded its expansion-work limit"))
  end.
Definition poll_expansion : M (W * Z) error unit := λ st,
  let '(w, e) := ctx_Err st.1 in
  ((w, st.2), match e with None => Ok tt | Some e => Err (Typed (calendarContextError e)) end).

(** The state carries the work left to the whole search. *)
Definition expandOccurrencesContext (master : Event) (overrides : list Event) (rangeStart rangeEnd : gtime)
    (maxOccurrences : Z) : M (W * Z) error (list Event * bool) :=
  poll_expansion;;
  let max := effective_max maxOccurrences in
  lift (validateReadEventFields master);;
  fail_if (maxRemoteOverrides <? zlen overrides) (too_large "Calendar event data exceeded its override limit");;
  lift (fold_res (λ _, validateReadEventFields) overrides tt);;
  if bool_decide (Recurrence master = "") then
    mret (if eventOverlaps master rangeStart rangeEnd then [master] else [], false)
  else
    match StrToROption (to_upper (Recurrence master)) with
    | Err _ => fail (bad_rule "Calendar recurrence rule is invalid")
    | Ok parsed =>
        let '(o, few) := normalizeRecurrenceSelectorLists parsed in
        fail_if (negb few) (too_large "Calendar recurrence rule has excessive selector cardinality");;
        let o := set_dtstart (StartTime master) o in
        '(b, (maxEmpty, candidates)) ← check_safety o;
        let estimated := recurrenceWorkEstimate o rangeEnd maxEmpty candidates in
        fail_if ((seriesRemaining b <? estimated) || (aggregateRemaining b <? estimated))
          (too_large "Calendar recurrence rule requires excessive expansion work");;
        match NewRRule o with
        | Err _ => fail (bad_rule "Calendar recurrence rule is invalid")
        | Ok it =>
            '(occs, truncated) ← walk_rule it master rangeStart rangeEnd max (seriesRemaining b);
            mret (assemble master overrides rangeStart rangeEnd max occs truncated)
        end
    end.
(** The budget of one search, for a single series. *)
Definition ExpandOccurrencesContext (master : Event) (overrides : list Event) (rangeStart rangeEnd : gtime)
    (maxOccurrences : Z) : M W error (list Event * bool) := λ w,
  let '((w, _), r) := expandOccurrencesContext master overrides rangeStart rangeEnd maxOccurrences
                        (w, maxRecurrenceSearchWork) in (w, r).
End Expansion.

(** * The loop combinator *)

Lemma iterate_inv {S R} (P : S → Prop) (Q : R → Prop) (f : S → S + R) p s :
  P s → (∀ s, P s → match f s with inl s' => P s' | inr r => Q r end) →
  match iterate p f s with inl s' => P s' | inr r => Q r end.
Proof.
  intros Hs Hf. revert s Hs. induction p as [p IH|p IH|]; intros s Hs; cbn [iterate].
  - pose proof (Hf s Hs) as H1. destruct (f s) as [s1|r]; [|done].
    pose proof (IH s1 H1) as H2. destruct (iterate p f s1) as [s2|r]; [|done]. by apply IH.
  - pose proof (IH s Hs) as H1. destruct (iterate p f s) as [s1|r]; [|done]. by apply IH.
  - by apply Hf.
Qed.
(** A measure that every turn lowers bounds the number of turns. *)
Lemma iterate_measure {S R} (m : S → Z) (f : S → S + R) p s s' :
  (∀ s s', f s = inl s' → m s' + 1 <= m s) → iterate p f s = inl s' → m s' + Z.pos p <= m s.
Proof.
  intros Hf. revert s s'. induction p as [p IH|p IH|]; intros s s'; cbn [iterate].
  - destruct (f s) as [s1|] eqn:H1; [|done]. apply Hf in H1.
    destruct (iterate p f s1) as [s2|] eqn:H2; [|done]. apply IH in H2. intros H3%IH. rewrite Pos2Z.inj_xI. lia.
  - destruct (iterate p f s) as [s2|] eqn:H2; [|done]. apply IH in H2. intros H3%IH. rewrite Pos2Z.inj_xO. lia.
  - intros H1%Hf. lia.
Qed.

(** * Selectors *)

Lemma sorted_lookup l : Sorted Z.le l → ∀ i j v w, (i <= j)%nat → l !! i = Some v → l !! j = Some w → v <= w.
Proof.
  intros Hs%Sorted_StronglySorted; [|intros x y z; lia]. induction Hs as [|a l Hl IH Ha]; intros i j v w Hij Hi Hj; [done|].
  destruct i as [|i], j as [|j]; simplify_eq/=; [done| |lia|by apply (IH i j); [lia|..]].
  rewrite Forall_forall in Ha. by eapply Ha, list_elem_of_lookup_2.
Qed.
Lemma search_from_spec fuel l target lo hi :
  Sorted Z.le l → (hi - lo <= fuel)%nat → (lo <= hi <= length l)%nat →
  (∀ j v, (j < lo)%nat → l !! j = Some v → v < target) → (∀ j v, (hi <= j)%nat → l !! j = Some v → target <= v) →
  let i := search_from fuel l target lo hi in
  (i <= length l)%nat ∧ (∀ j v, (j < i)%nat → l !! j = Some v → v < target) ∧
  (∀ j v, (i <= j)%nat → l !! j = Some v → target <= v).
Proof.
  intros Hs. revert lo hi. induction fuel as [|fuel IH]; intros lo hi Hf Hlh Hlo Hhi; cbn [search_from]; cbv zeta.
  { assert (lo = hi) as -> by lia. split_and!; [lia|done|done]. }
  destruct (Nat.ltb_spec lo hi) as [Hlt|Hge].
  2: { assert (lo = hi) as -> by lia. split_and!; [lia|done|done]. }
  pose proof (Nat.div_mod (lo + hi) 2 ltac:(lia)) as Hd. pose proof (Nat.mod_upper_bound (lo + hi) 2 ltac:(lia)).
  set (h := ((lo + hi) / 2)%nat) in *. assert (lo <= h < hi)%nat by lia.
  destruct (lookup_lt_is_Some_2 l h) as [v Hv]; [lia|]. rewrite Hv. cbn [default from_option id].
  assert (∀ j w, (h <= j)%nat → l !! j = Some w → v <= w) as Hup.
  { intros j w Hj Hw. by eapply (sorted_lookup l Hs h j). }
  assert (∀ j w, (j <= h)%nat → l !! j = Some w → w <= v) as Hdown.
  { intros j w Hj Hw. by eapply (sorted_lookup l Hs j h). }
  destruct (Z.ltb_spec v target) as [Hvt|Hvt].
  - apply IH; [lia|lia| |done]. intros j w Hj Hw. specialize (Hdown j w ltac:(lia) Hw). lia.
  - apply IH; [lia|lia|done|]. intros j w Hj Hw. specialize (Hup j w Hj Hw). lia.
Qed.
(** The binary search is membership, on a sorted list. *)
Lemma intSliceContains_spec l target : Sorted Z.le l → intSliceContains l target = bool_decide (target ∈ l).
Proof.
  intros Hs. unfold intSliceContains, SearchInts.
  destruct (search_from_spec (length l) l target 0 (length l)) as (Hi & Hlt & Hge); [done|lia|lia|lia| |].
  { intros j v Hj Hv. apply lookup_lt_Some in Hv. lia. }
  set (i := search_from _ _ _ _ _) in *. apply eq_true_iff_eq. rewrite andb_true_iff, !bool_decide_eq_true, Nat.ltb_lt. split.
  - intros [_ Hl]. by eapply list_elem_of_lookup_2.
  - intros (j & Hj)%list_elem_of_lookup_1.
    assert (i <= j)%nat as Hij.
    { destruct (decide (j < i)%nat) as [Hlt'|]; [|lia]. pose proof (Hlt j target Hlt' Hj). lia. }
    pose proof (lookup_lt_Some _ _ _ Hj). split; [lia|]. destruct (lookup_lt_is_Some_2 l i) as [v Hv]; [lia|].
    rewrite Hv. f_equal. pose proof (Hge i v ltac:(lia) Hv). 
    pose proof (sorted_lookup l Hs i j v target Hij Hv Hj). lia.
Qed.

(** Removing repeats and sorting keep the values. *)
Lemma unique_values_elem {A} `{EqDecision A} (l : list A) a : a ∈ unique_values l ↔ a ∈ l.
Proof.
  unfold unique_values. assert (∀ l acc, a ∈ fold_left (λ acc a, if decide (a ∈ acc) then acc else (acc ++ [a])%list) l acc
    ↔ a ∈ acc ∨ a ∈ l) as Hgen.
  { clear l. induction l as [|b l IH]; intros acc; simpl; [rewrite elem_of_nil; tauto|]. rewrite IH, elem_of_cons.
    case_decide as Hb; [|rewrite elem_of_app, list_elem_of_singleton; tauto]. split; [tauto|].
    intros [?|[->|?]]; tauto. }
  rewrite Hgen, elem_of_nil. tauto.
Qed.
Lemma normal_ints_spec l : Sorted Z.le (normal_ints l) ∧ ∀ z, z ∈ normal_ints l ↔ z ∈ l.
Proof.
  unfold normal_ints, sort_ints. split; [apply Sorted_merge_sort; intros x y; lia|].
  intros z. rewrite merge_sort_Permutation. apply unique_values_elem.
Qed.
(** The selectors of a rule are sorted. *)
Definition sorted_rule (o : ROption) : Prop :=
  Forall (Sorted Z.le) [Bysetpos o; Bymonth o; Bymonthday o; Byyearday o; Byweekno o; Byhour o; Byminute o; Bysecond o].
Lemma normalized_sorted o : sorted_rule (normalizeRecurrenceSelectorLists o).1.
Proof. repeat constructor; apply normal_ints_spec. Qed.

(** The clock of the greatest common divisor. *)
Lemma gcd_loop_spec fuel a b : 0 <= a → 0 <= b < Z.of_nat fuel → gcd_loop fuel a b = Z.gcd a b.
Proof.
  revert a b. induction fuel as [|fuel IH]; intros a b Ha Hb; [lia|]. cbn [gcd_loop].
  destruct (Z.eqb_spec b 0) as [->|Hne]; [by rewrite Z.gcd_0_r, Z.abs_eq|].
  pose proof (Z.rem_bound_pos a b ltac:(lia) ltac:(lia)). rewrite IH by lia.
  rewrite Z.rem_mod_nonneg by lia. rewrite (Z.gcd_comm b), Z.gcd_mod by lia. apply Z.gcd_comm.
Qed.
Lemma greatestCommonDivisor_spec a b : 0 <= a → 0 <= b → greatestCommonDivisor a b = Z.gcd a b.
Proof.
  intros Ha Hb. unfold greatestCommonDivisor. cbv zeta. rewrite gcd_loop_spec by lia.
  pose proof (Z.gcd_nonneg a b). destruct (Z.ltb_spec (Z.gcd a b) 0); lia.
Qed.

(** * Empty periods *)

(** The run of empty periods that ends a list. *)
Definition tail_run (l : list bool) (e : Z) : Z := fold_left (λ e (b : bool), if b then 0 else e + 1) l e.
Lemma tail_run_app l b e : tail_run (l ++ [b]) e = if b then 0 else tail_run l e + 1.
Proof. unfold tail_run. by rewrite fold_left_app. Qed.
Lemma tail_run_false l j : (length l - Z.to_nat (tail_run l 0) <= j < length l)%nat → l !! j = Some false.
Proof.
  revert j. induction l as [|b l IH] using rev_ind; intros j; [simpl; lia|].
  rewrite tail_run_app, length_app. cbn [length]. intros Hj. destruct b; [lia|].
  assert (0 <= tail_run l 0) as Hpos.
  { clear. induction l as [|b l IH] using rev_ind; [done|]. rewrite tail_run_app. destruct b; lia. }
  destruct (decide (j = length l)) as [->|]; [by rewrite lookup_app_r, Nat.sub_diag by lia|].
  rewrite lookup_app_l by lia. apply IH. lia.
Qed.
Lemma tail_run_ge l e r : 0 <= e → (r <= length l)%nat →
  (∀ j, (length l - r <= j < length l)%nat → l !! j = Some false) → Z.of_nat r <= tail_run l e.
Proof.
  intros He. revert r. induction l as [|b l IH] using rev_ind; intros r Hr Hf; [simpl in *; lia|].
  rewrite tail_run_app. rewrite length_app in *. cbn [length] in *. destruct r as [|r].
  { destruct b; [lia|]. pose proof (IH 0%nat ltac:(lia) ltac:(lia)). lia. }
  pose proof (Hf (length l) ltac:(lia)) as Hb. rewrite lookup_app_r, Nat.sub_diag in Hb by lia. injection Hb as ->.
  assert (Z.of_nat r <= tail_run l e); [|lia]. apply IH; [lia|]. intros j Hj.
  specialize (Hf j ltac:(lia)). by rewrite lookup_app_l in Hf by lia.
Qed.
Lemma empty_runs_ge n l : ∀ M e, 0 <= e →
  (∀ a b, l = (a ++ b)%list → tail_run a e < n) →
  M <= empty_runs n l M e ∧ ∀ a b, l = (a ++ b)%list → a ≠ [] → tail_run a e <= Z.max 0 (empty_runs n l M e).
Proof.
  induction l as [|x l IH]; intros M e He Hshort; cbn [empty_runs].
  { split; [done|]. by intros [|? ?] ? ? ?. }
  assert (∀ M' e', e' = (if x then 0 else e + 1) → M <= M' → (x = false → e' <= M') → 0 <= e' →
    M <= empty_runs n l M' e' ∧ ∀ a b, x :: l = (a ++ b)%list → a ≠ [] → tail_run a e <= Z.max 0 (empty_runs n l M' e')) as Hstep.
  { intros M' e' -> HM Hx He'. destruct (IH M' (if x then 0 else e + 1) He') as [HM' Hall].
    { intros a b ->. apply (Hshort (x :: a) b). done. }
    split; [lia|]. intros [|y a] b Hl Hne; [done|]. injection Hl as -> ->.
    cbn [tail_run fold_left]. fold (tail_run a (if y then 0 else e + 1)).
    destruct a as [|z a]; [|by apply (Hall _ b)]. cbn in *. destruct y; [lia|]. specialize (Hx eq_refl). lia. }
  destruct x; [apply Hstep; [done|lia|done|lia]|].
  pose proof (Hshort [false] l eq_refl) as H1. cbn in H1. apply Hstep; [done| |intros _|lia];
    destruct (Z.ltb_spec M (e + 1)), (Z.ltb_spec (e + 1) n); cbn; lia.
Qed.
Lemma empty_runs_lt n l : ∀ M e, 0 <= M < n → 0 <= empty_runs n l M e < n.
Proof.
  induction l as [|[] l IH]; intros M e HM; cbn [empty_runs]; [done|by apply IH|]. cbv zeta. apply IH.
  destruct (Z.ltb_spec M (e + 1)), (Z.ltb_spec (e + 1) n); cbn; lia.
Qed.
(** The doubled cycle. *)
Lemma doubled_lookup {A} (l : list A) j : (j < 2 * length l)%nat → (l ++ l)%list !! j = l !! (j mod length l)%nat.
Proof.
  intros Hj. destruct (decide (j < length l)%nat).
  - by rewrite lookup_app_l, Nat.mod_small by lia.
  - rewrite lookup_app_r by lia. f_equal. rewrite (Nat.mod_eq j (length l)) by lia.
    assert (j / length l = 1)%nat as ->; [|lia]. symmetry. apply (Nat.div_unique _ _ _ (j - length l)); lia.
Qed.
Lemma tail_run_le l : tail_run l 0 <= Z.of_nat (length l).
Proof. induction l as [|b l IH] using rev_ind; [done|]. rewrite tail_run_app, length_app. cbn [length]. destruct b; lia. Qed.
(** With one period that is not empty, no run of the doubled cycle is as long
    as the cycle. *)
Lemma doubled_short states t a b :
  states !! t = Some true → (states ++ states)%list = (a ++ b)%list → tail_run a 0 < Z.of_nat (length states).
Proof.
  intros Ht Hab. pose proof (lookup_lt_Some _ _ _ Ht) as Hlen. set (n := length states) in *.
  destruct (decide (tail_run a 0 < Z.of_nat n)) as [|Hge]; [done|exfalso].
  assert (length a <= 2 * n)%nat as Ha.
  { apply (f_equal length) in Hab. rewrite !length_app in Hab. lia. }
  pose proof (tail_run_le a) as Hna.
  assert (∀ j, (length a - n <= j < length a)%nat → (states ++ states)%list !! j = Some false) as Hf.
  { intros j Hj. rewrite Hab, lookup_app_l by lia. apply tail_run_false. lia. }
  destruct (decide (length a - n <= t)%nat).
  - specialize (Hf t ltac:(lia)). rewrite lookup_app_l in Hf by lia. congruence.
  - specialize (Hf (t + n)%nat ltac:(lia)). rewrite lookup_app_r in Hf by lia.
    replace (t + n - length states)%nat with t in Hf by lia. congruence.
Qed.
(** From every period a period that is not empty follows within the number
    computed, round and round the cycle; without one, all are empty. *)
Lemma maximumCyclicEmptyPeriods_spec states :
  match maximumCyclicEmptyPeriods states with
  | Some m => 0 <= m < zlen states ∧
      ∀ i, ∃ k, 0 <= Z.of_nat k <= m ∧ states !! ((i + k) mod length states)%nat = Some true
  | None => ∀ j b, states !! j = Some b → b = false
  end.
Proof.
  unfold maximumCyclicEmptyPeriods. destruct (existsb id states) eqn:He.
  2: { intros j b Hj. destruct b; [|done]. assert (existsb id states = true); [|congruence].
       apply existsb_exists. exists true. split; [|done]. by apply list_elem_of_In, (list_elem_of_lookup_2 _ j). }
  apply existsb_exists in He as (b & Hin%list_elem_of_In & Hb). destruct b; [|done].
  apply list_elem_of_lookup_1 in Hin as [t Ht]. pose proof (lookup_lt_Some _ _ _ Ht) as Hlen.
  set (n := length states) in *. change (zlen states) with (Z.of_nat n). set (dbl := (states ++ states)%list).
  assert (length dbl = 2 * n)%nat as Hdl by (unfold dbl; rewrite length_app; fold n; lia).
  assert (∀ a b, dbl = (a ++ b)%list → tail_run a 0 < Z.of_nat n) as Hshort by (intros; by eapply doubled_short).
  destruct (empty_runs_ge (Z.of_nat n) dbl 0 0 ltac:(lia) Hshort) as [_ Hruns].
  pose proof (empty_runs_lt (Z.of_nat n) dbl 0 0 ltac:(lia)) as Hm. set (m := empty_runs _ dbl 0 0) in *. split; [lia|].
  intros i. destruct (decide (Exists (λ k, states !! ((i + k) mod n)%nat = Some true) (seq 0 (S (Z.to_nat m))))) as [Hex|Hno].
  { apply Exists_exists in Hex as (k & Hk%elem_of_seq & Hs). exists k. split; [lia|done]. }
  exfalso. pose proof (Nat.mod_upper_bound i n ltac:(lia)) as Hi0. set (i0 := (i mod n)%nat) in *.
  assert (Z.of_nat (S (Z.to_nat m)) <= tail_run (take (i0 + S (Z.to_nat m)) dbl) 0) as Hge.
  { apply tail_run_ge; [done|rewrite length_take; lia|]. intros j Hj. rewrite length_take in Hj.
    rewrite lookup_take_lt by lia. unfold dbl. rewrite doubled_lookup by (fold n; lia). fold n.
    destruct (states !! (j mod n)%nat) as [[]|] eqn:Hs; [exfalso|done|].
    - apply Hno, Exists_exists. exists (j - i0)%nat. split; [apply elem_of_seq; lia|].
      rewrite <-Hs. f_equal. rewrite <-(Nat.add_mod_idemp_l i) by lia. fold i0. f_equal. lia.
    - apply lookup_ge_None_1 in Hs. pose proof (Nat.mod_upper_bound j n ltac:(lia)). fold n in Hs. lia. }
  pose proof (Hruns (take (i0 + S (Z.to_nat m)) dbl) (drop (i0 + S (Z.to_nat m)) dbl)) as Hle.
  rewrite take_drop in Hle. specialize (Hle eq_refl). assert (take (i0 + S (Z.to_nat m)) dbl ≠ []) as Hne.
  { intros Hn. apply (f_equal length) in Hn. rewrite length_take in Hn. simpl in Hn. lia. }
  specialize (Hle Hne). lia.
Qed.

(** * The clock is reached *)

Section ClockLive.
Context {W : Type} `{Ctx W}.

Lemma clock_states_spec n : ∀ i cycle step value matches,
  0 < cycle → 0 <= value < cycle →
  yields (clock_states (W:=W) n i cycle step value matches)
    (λ l, l = map (λ j, matches ((value + Z.of_nat j * step) mod cycle)) (seq 0 n)).
Proof.
  induction n as [|n IH]; intros i cycle step value matches Hc Hv; cbn [clock_states]; [by apply yields_ret|].
  step_any. intros _ _. step_any. intros _ _.
  eapply yields_bind; [apply IH; [done|by apply Z.mod_pos_bound]|]. intros rest ->. apply yields_ret.
  cbn [seq map]. f_equal; [by rewrite Z.add_0_r, Z.mod_small|].
  rewrite <-seq_shift, map_map. apply map_ext. intros j. f_equal.
  rewrite Z.add_mod_idemp_l by lia. f_equal. lia.
Qed.
(** One state per distinct value of the clock. *)
Lemma clock_period cycle interval start i j :
  0 < cycle → 0 < interval → i mod (cycle / Z.gcd interval cycle) = j mod (cycle / Z.gcd interval cycle) →
  (start + i * interval) mod cycle = (start + j * interval) mod cycle.
Proof.
  intros Hc Hi Hij. set (g := Z.gcd interval cycle) in *.
  assert (0 < g) as Hg. { pose proof (Z.gcd_nonneg interval cycle). assert (g ≠ 0); [|lia]. intros ?%Z.gcd_eq_0_l. lia. }
  destruct (Z.gcd_divide_l interval cycle) as [a Ha]. destruct (Z.gcd_divide_r interval cycle) as [b Hb]. fold g in Ha, Hb.
  assert (cycle / g = b) as Hn by (rewrite Hb; apply Z.div_mul; lia). rewrite Hn in Hij.
  assert (0 < b) by nia.
  rewrite (Z.div_mod i b), (Z.div_mod j b), Hij by lia. set (qi := i / b). set (qj := j / b). set (r := j mod b).
  replace (start + (b * qi + r) * interval) with (start + r * interval + (qi * a) * cycle) by (rewrite Ha, Hb; ring).
  replace (start + (b * qj + r) * interval) with (start + r * interval + (qj * a) * cycle) by (rewrite Ha, Hb; ring).
  by rewrite !Z.mod_add by lia.
Qed.
Lemma clock_of_range o cycle start matches : clock_of o = Some (cycle, start, matches) → 0 < cycle ∧ 0 <= start < cycle.
Proof.
  assert (0 <= t_clock (Dtstart o) < 86400) as Ht by (apply Z.mod_pos_bound; done).
  assert (0 <= t_hour (Dtstart o) < 24 ∧ 0 <= t_minute (Dtstart o) < 60 ∧ 0 <= t_second (Dtstart o) < 60) as (Hh & Hm & Hs).
  { unfold t_hour, t_minute, t_second. set (c := t_clock _) in *. clearbody c.
    split; [|split; by apply Z.mod_pos_bound]. Z.div_mod_to_equations. lia. }
  unfold clock_of. cbv zeta. destruct (Freq o); try done; repeat case_match; intros [= <- <- _]; simplify_eq; lia.
Qed.
End ClockLive.

(** The time of day of the [i]-th period of an hourly, minutely or secondly
    rule, in seconds: the clock of the start, moved on by [i] intervals. *)
Definition clock_unit (f : Frequency) : Z := match f with HOURLY => 3600 | MINUTELY => 60 | _ => 1 end.
Definition period_clock (o : ROption) (i : Z) : Z :=
  (t_clock (Dtstart o) + i * at_least_one (Interval o) * clock_unit (Freq o)) mod 86400.
(** The selectors that restrict such a rule admit a time of day: its hour, for
    a minutely rule also its minute, for a secondly rule also its second; an
    empty list admits everything. *)
Definition in_list (l : list Z) (z : Z) : Prop := l = [] ∨ z ∈ l.
Definition clock_admits (o : ROption) (i : Z) : Prop :=
  let s := period_clock o i in
  match Freq o with
  | HOURLY => in_list (Byhour o) (s / 3600)
  | MINUTELY => in_list (Byhour o) (s / 3600) ∧ in_list (Byminute o) (s / 60 mod 60)
  | SECONDLY => in_list (Byhour o) (s / 3600) ∧ in_list (Byminute o) (s / 60 mod 60) ∧ in_list (Bysecond o) (s mod 60)
  | _ => True
  end.
(** What the walk of the clock meets at its [i]-th period. *)
Definition clock_state (o : ROption) (i : Z) : bool :=
  match clock_of o with
  | None => true
  | Some (cycle, start, matches) => matches ((start + i * at_least_one (Interval o)) mod cycle)
  end.

Lemma admits_spec l z : Sorted Z.le l → admits l z = true ↔ in_list l z.
Proof.
  intros Hl. unfold admits, in_list. rewrite orb_true_iff, Z.eqb_eq, intSliceContains_spec, bool_decide_eq_true by done. apply or_iff_compat_r.
  unfold zlen. destruct l; cbn [length]; split; try done; lia.
Qed.
Lemma admits_nil l z : zlen l = 0 → in_list l z.
Proof. unfold zlen. destruct l; [by left|cbn; lia]. Qed.
Lemma clock_step c k u n : 0 < u → 0 < n → (c + k * u) mod (u * n) / u = (c / u + k) mod n.
Proof.
  intros Hu Hn. rewrite Z.rem_mul_r by lia. rewrite Z.div_add by lia.
  rewrite (Z.mul_comm u), Z.div_add by lia. rewrite Z.div_small; [lia|]. by apply Z.mod_pos_bound.
Qed.
(** The parts of the clock in the cycle the code walks. *)
Lemma clock_hour_parts c k : 0 <= c < 86400 →
  (c / 3600 + k) mod 24 = (c + k * 3600) mod 86400 / 3600.
Proof. intros _. symmetry. by apply (clock_step c k 3600 24). Qed.
Lemma clock_minute_parts c k : 0 <= c < 86400 →
  let s := (c + k * 60) mod 86400 in
  (c / 3600 * 60 + c / 60 mod 60 + k) mod 1440 = s / 60 ∧ (c / 60 mod 60 + k) mod 60 = s / 60 mod 60.
Proof.
  intros Hc. cbv zeta. pose proof (clock_step c k 60 1440 ltac:(done) ltac:(done)) as E. change (60 * 1440) with 86400 in E. rewrite E. split.
  - f_equal. change 3600 with (60 * 60). rewrite <-(Z.div_div c 60 60) by done. pose proof (Z.div_mod (c / 60) 60 ltac:(done)). lia.
  - rewrite Z.add_mod_idemp_l by done. apply Znumtheory.Zmod_div_mod; [done|done|]. by exists 24.
Qed.
Lemma clock_second_parts c k : 0 <= c < 86400 →
  let s := (c + k * 1) mod 86400 in
  (c / 3600 * 3600 + c / 60 mod 60 * 60 + c mod 60 + k) mod 86400 = s ∧
  (c / 60 mod 60 * 60 + c mod 60 + k) mod 3600 = s mod 3600 ∧ (c mod 60 + k) mod 60 = s mod 60.
Proof.
  intros Hc. cbv zeta. rewrite Z.mul_1_r. split_and!.
  - f_equal. change 3600 with (60 * 60). rewrite <-(Z.div_div c 60 60) by done.
    pose proof (Z.div_mod c 60 ltac:(done)). pose proof (Z.div_mod (c / 60) 60 ltac:(done)). lia.
  - rewrite <-(Znumtheory.Zmod_div_mod 3600 86400) by (try done; by exists 24).
    replace (c / 60 mod 60 * 60 + c mod 60) with (c mod 3600) by (change 3600 with (60 * 60); rewrite Z.rem_mul_r by done; lia).
    by rewrite Z.add_mod_idemp_l.
  - rewrite <-(Znumtheory.Zmod_div_mod 60 86400) by (try done; by exists 1440). by rewrite Z.add_mod_idemp_l.
Qed.
Lemma mod_3600 s : s mod 3600 / 60 mod 60 = s / 60 mod 60 ∧ s mod 3600 mod 60 = s mod 60.
Proof.
  split; [|symmetry; apply Znumtheory.Zmod_div_mod; [done|done|]; by exists 60].
  change 3600 with (60 * 60). rewrite Z.rem_mul_r by done. rewrite (Z.mul_comm 60), Z.div_add by done.
  rewrite Z.div_small by (by apply Z.mod_pos_bound). by rewrite Z.add_0_l, Z.mod_mod.
Qed.
Lemma clock_state_admits o i : sorted_rule o → clock_state o i = true ↔ clock_admits o i.
Proof.
  intros Hsorted. unfold sorted_rule in Hsorted. rewrite !Forall_cons in Hsorted. destruct Hsorted as (_ & _ & _ & _ & _ & Sh & Sm & Ss & _).
  unfold clock_state, clock_admits, period_clock, clock_of. cbv zeta. set (k := i * at_least_one (Interval o)).
  assert (0 <= t_clock (Dtstart o) < 86400) as Ht by (apply Z.mod_pos_bound; done).
  unfold t_hour, t_minute, t_second. set (c := t_clock (Dtstart o)) in *. clearbody c k.
  destruct (Freq o); cbn [clock_unit]; try done.
  - destruct (Z.eqb_spec (zlen (Byhour o)) 0) as [Hh|Hh]; [split; [by intros _; apply admits_nil|done]|].
    rewrite clock_hour_parts by done. rewrite <-admits_spec by done. unfold admits. by rewrite (proj2 (Z.eqb_neq _ _) Hh).
  - destruct (clock_minute_parts c k Ht) as [E1 E2].
    destruct (Z.eqb_spec (zlen (Byhour o)) 0) as [Hh|Hh]; [destruct (Z.eqb_spec (zlen (Byminute o)) 0) as [Hm|Hm]|]; cbn [andb].
    + split; [intros _; split; by apply admits_nil|done].
    + change (60 =? 60) with true. cbv iota. rewrite E2, Z.mod_mod by done. rewrite andb_true_iff, !admits_spec by done.
      split; intros [_ ?]; (split; [by apply admits_nil|done]).
    + change (24 * 60 =? 60) with false. cbv iota. change (24 * 60) with 1440. rewrite E1. rewrite andb_true_iff, !admits_spec by done.
      rewrite Z.div_div by done. done.
  - destruct (clock_second_parts c k Ht) as (E1 & E2 & E3). set (s := (c + k * 1) mod 86400) in *.
    destruct (mod_3600 s) as [M1 M2].
    destruct (Z.eqb_spec (zlen (Byhour o)) 0) as [Hh|Hh]; cbn [negb andb].
    + destruct (Z.eqb_spec (zlen (Byminute o)) 0) as [Hm|Hm]; cbn [negb andb].
      * destruct (Z.eqb_spec (zlen (Bysecond o)) 0) as [Hs|Hs]; [split; [intros _; split_and!; by apply admits_nil|done]|].
        change (60 <? 24 * 60 * 60) with true. change (60 =? 60) with true. cbv iota. rewrite E3, Z.mod_mod by done.
        rewrite !andb_true_iff, !admits_spec by done. split; [intros [_ ?]|intros (_ & _ & ?)]; split_and!; try done; by apply admits_nil.
      * change (60 * 60 <? 24 * 60 * 60) with true. change (60 * 60 =? 60) with false. cbv iota. change (60 * 60) with 3600. rewrite E2, M1, M2.
        rewrite !andb_true_iff, !admits_spec by done. split; [intros [[_ ?] ?]|intros (_ & ? & ?)]; split_and!; try done; by apply admits_nil.
    + change (24 * 60 * 60 <? 24 * 60 * 60) with false. change (24 * 60 * 60 =? 60) with false. cbv iota. change (24 * 60 * 60) with 86400.
      rewrite E1. rewrite !andb_true_iff, !admits_spec by done. tauto.
Qed.
Section ClockLive.
Context {W : Type} `{Ctx W}.

(** The list of states, and the value of the clock at any step. *)
Lemma clock_states_periods o cycle start matches st st' l :
  clock_of o = Some (cycle, start, matches) →
  let interval := at_least_one (Interval o) in
  clock_states (W:=W) (Z.to_nat (cycle / greatestCommonDivisor interval cycle)) 0 cycle (interval mod cycle) start matches st
    = (st', Ok l) →
  l ≠ [] ∧ ∀ i, l !! (i mod length l)%nat = Some (clock_state o (Z.of_nat i)).
Proof.
  intros Hc interval Hrun. destruct (clock_of_range _ _ _ _ Hc) as [Hcy Hst].
  assert (0 < interval) as Hi by (unfold interval, at_least_one; destruct (Z.ltb_spec (Interval o) 1); lia).
  apply (clock_states_spec _ 0 cycle (interval mod cycle) start matches Hcy Hst) in Hrun. subst l.
  rewrite length_map, length_seq. rewrite greatestCommonDivisor_spec by lia.
  set (n := cycle / Z.gcd interval cycle).
  assert (0 < n) as Hn.
  { apply Z.div_str_pos. destruct (Z.gcd_divide_r interval cycle) as [b Hb]. pose proof (Z.gcd_nonneg interval cycle).
    assert (0 < b); nia. }
  split; [intros Hnil; apply (f_equal length) in Hnil; rewrite length_map, length_seq in Hnil; simpl in Hnil; lia|].
  intros i. pose proof (Nat.mod_upper_bound i (Z.to_nat n) ltac:(lia)) as Hub.
  rewrite list_lookup_fmap, lookup_seq_lt by lia. cbn [fmap option_fmap option_map]. f_equal.
  unfold clock_state. rewrite Hc. f_equal. fold interval.
  transitivity ((start + (0 + Z.of_nat (i mod Z.to_nat n)%nat) * interval) mod cycle).
  - rewrite <-(Z.add_mod_idemp_r _ (Z.of_nat _ * (interval mod cycle))) by lia.
    rewrite Z.mul_mod_idemp_r, Z.add_mod_idemp_r by lia. f_equal.
  - apply clock_period; [done|done|]. fold n. rewrite Nat2Z.inj_mod, Z2Nat.id by lia. by rewrite Z.add_0_l, Z.mod_mod by lia.
Qed.
Lemma clock_states_err n : ∀ i cycle step value matches st st' e,
  clock_states (W:=W) n i cycle step value matches st = (st', Err e) → e = SelectorsCanceled ∨ e = SelectorsExcessive.
Proof.
  induction n as [|n IH]; intros i cycle step value matches st st' e; cbn [clock_states]; [by intros [=]|].
  unfold mbind, M_bind. destruct (if i mod 256 =? 0 then _ else _) as [st1 [[]|e1]] eqn:H1.
  2: { intros [= _ <-]. destruct (i mod 256 =? 0); [|done]. unfold poll_done in H1.
       destruct (ctx_Err st.1) as [w [e2|]]; [|done]. injection H1 as _ <-. by left. }
  unfold consumeRecurrenceWork at 1. destruct (_ || _); [intros [= _ <-]; by right|].
  destruct (clock_states n _ _ _ _ _ _) as [st2 [l|e2]] eqn:H2; [by intros [=]|]. intros [= _ <-]. by eapply IH.
Qed.

Lemma clock_reached_states (o : ROption) st :
  match recurrenceClockSelectorSafety (W:=W) o st with
  | (_, Ok m) => 0 <= m ∧ ∀ i, 0 <= i → ∃ k, 0 <= k <= m ∧ clock_state o (i + k) = true
  | (_, Err SelectorsUnreachable) => ∀ i, 0 <= i → clock_state o i = false
  | _ => True
  end.
Proof.
  unfold recurrenceClockSelectorSafety. destruct (clock_of o) as [[[cycle start] matches]|] eqn:Hc.
  2: { cbn. split; [done|]. intros i Hi. exists 0. unfold clock_state. by rewrite Hc. }
  unfold mbind at 1, M_bind at 1. cbv zeta.
  destruct (clock_states _ _ _ _ _ _ st) as [st' [l|e]] eqn:Hrun.
  2: { apply clock_states_err in Hrun as [-> | ->]; done. }
  destruct (clock_states_periods _ _ _ _ _ _ _ Hc Hrun) as [Hne Hl].
  pose proof (maximumCyclicEmptyPeriods_spec l) as Hspec. destruct (maximumCyclicEmptyPeriods l) as [m|]; cbn.
  - destruct Hspec as [Hm Hlive]. split; [lia|]. intros i Hi. destruct (Hlive (Z.to_nat i)) as (k & Hk & Hkl).
    exists (Z.of_nat k). split; [done|]. rewrite Hl in Hkl. injection Hkl as Hkl. rewrite <-Hkl. f_equal. lia.
  - intros i Hi. specialize (Hl (Z.to_nat i)). rewrite Z2Nat.id in Hl by done. by eapply Hspec.
Qed.
Lemma clock_reached (o : ROption) st : sorted_rule o →
  match recurrenceClockSelectorSafety (W:=W) o st with
  | (_, Ok m) => 0 <= m ∧ ∀ i, 0 <= i → ∃ k, 0 <= k <= m ∧ clock_admits o (i + k)
  | (_, Err SelectorsUnreachable) => ∀ i, 0 <= i → ¬ clock_admits o i
  | _ => True
  end.
Proof.
  intros Hs. pose proof (clock_reached_states o st) as Hc. destruct (recurrenceClockSelectorSafety o st) as [st' [m|[]]]; try done.
  - destruct Hc as [Hm Hc]. split; [done|]. intros i Hi. destruct (Hc i Hi) as (k & Hk & Ha). exists k. split; [done|]. by apply (clock_state_admits _ _ Hs).
  - intros i Hi Ha%(clock_state_admits _ _ Hs). by rewrite Hc in Ha.
Qed.
(** (C12) The clock of an hourly, minutely or secondly rule never runs long
    without an admitted value.  When [recurrenceClockSelectorSafety] accepts a
    rule with the number [m], then from any period on, however late, one of
    the next [m]+1 has a time of day the selectors admit: its hour is in BYHOUR,
    for a minutely rule its minute in BYMINUTE, for a secondly rule also its
    second in BYSECOND, where the list is not empty; and when it says the
    selectors cannot be reached, no period ever does.  The time of day of a
    period is that of the start moved on by so many intervals, on a clock whose
    offset does not change ([period_clock]).  The lists of selectors are
    sorted, as [normalizeRecurrenceSelectorLists] leaves them. *)
Theorem clock_live (o : ROption) st : sorted_rule o →
  match recurrenceClockSelectorSafety (W:=W) o st with
  | (_, Ok m) => 0 <= m ∧ ∀ i, 0 <= i → ∃ k, 0 <= k <= m ∧ clock_admits o (i + k)
  | (_, Err SelectorsUnreachable) => ∀ i, 0 <= i → ¬ clock_admits o i
  | _ => True
  end.
Proof. apply clock_reached. Qed.
End ClockLive.

(** * Days in UTC, and the Gregorian cycle *)

(** Midnight UTC of a day number. *)
Definition utc_day (d : Z) : gtime := GTime (second * (d * day_secs)) UTC.
Lemma utc_secs d : local_secs UTC (instant (utc_day d)) = d * day_secs.
Proof. unfold local_secs, utc_day. cbn [instant UTC loc_lookup zoffset utc_zone]. rewrite Z.mul_comm, Z.div_mul by done. lia. Qed.
Lemma utc_civil d : t_civil (utc_day d) = civil_from_days d.
Proof. unfold t_civil, local_civil, local_day. cbn [tzone utc_day]. by rewrite utc_secs, Z.div_mul. Qed.
Lemma utc_clock d : t_clock (utc_day d) = 0.
Proof. unfold t_clock. cbn [tzone utc_day]. by rewrite utc_secs, Z.mod_mul. Qed.
Lemma utc_weekday d : t_weekday (utc_day d) = (d + 3) mod 7.
Proof.
  unfold t_weekday, local_weekday, local_day, weekday_of_days. cbn [tzone utc_day]. rewrite utc_secs, Z.div_mul by done.
  Z.div_mod_to_equations. lia.
Qed.
Lemma utc_midnight y m d : midnight y m d UTC = utc_day (days_from_civil y m d).
Proof. unfold midnight, go_date, utc_day. rewrite zone_adjust_utc. do 2 f_equal. lia. Qed.
Lemma utc_add_date y m k d :
  add_date y m k (utc_day d)
  = let c := civil_from_days d in utc_day (days_from_civil (cyear c + y) (cmonth c + m) (cday c + k)).
Proof.
  unfold add_date. rewrite utc_civil, utc_clock. cbn [tzone utc_day]. cbv zeta. unfold go_date. rewrite zone_adjust_utc.
  unfold utc_day. f_equal. cbn [instant]. rewrite (Z.mul_comm second (d * _)), Z.mod_mul by done. lia.
Qed.
Lemma utc_add_days k d : add_date 0 0 k (utc_day d) = utc_day (d + k).
Proof.
  rewrite utc_add_date. cbv zeta. rewrite !Z.add_0_r, days_from_civil_day. f_equal. f_equal. apply civil_roundtrip.
Qed.
Lemma utc_before a b : before (utc_day a) (utc_day b) = (a <? b).
Proof. unfold before, utc_day, second, day_secs. cbn [instant]. apply eq_true_iff_eq. rewrite !Z.ltb_lt. lia. Qed.
Lemma utc_yearday d : t_yearday (utc_day d) = d - days_from_civil (cyear (civil_from_days d)) 1 1 + 1.
Proof. unfold t_yearday, days_of. rewrite utc_civil. by rewrite civil_roundtrip. Qed.
Lemma utc_week_start d ws : recurrenceWeekStart (utc_day d) ws = utc_day (d - Z.rem ((d + 3) mod 7 - ws + 7) 7).
Proof.
  unfold recurrenceWeekStart. rewrite utc_civil. cbn [tzone utc_day]. rewrite utc_midnight, civil_roundtrip.
  by rewrite utc_weekday, utc_add_days.
Qed.
Lemma utc_first_week y ws :
  recurrenceFirstWeekStart y ws UTC
  = let j := days_from_civil y 1 4 in utc_day (j - Z.rem ((j + 3) mod 7 - ws + 7) 7).
Proof. unfold recurrenceFirstWeekStart. by rewrite utc_midnight, utc_week_start. Qed.

(** 400 years are 146097 days, a whole number of weeks. *)
Definition eras (k : Z) : Z := 146097 * k.
Lemma civil_eras d k : civil_from_days (d + eras k) =
  let c := civil_from_days d in Civil (cyear c + 400 * k) (cmonth c) (cday c).
Proof.
  unfold civil_from_days, eras. cbv zeta. replace (d + 146097 * k + 719468) with (d + 719468 + k * 146097) by lia.
  rewrite Z.mod_add, Z.div_add by lia. cbn [cyear cmonth cday]. f_equal. lia.
Qed.
Lemma weekday_eras d k : (d + eras k + 3) mod 7 = (d + 3) mod 7.
Proof. unfold eras. replace (d + 146097 * k + 3) with (d + 3 + 20871 * k * 7) by lia. by rewrite Z.mod_add. Qed.
Lemma first_week_eras y k ws : recurrenceFirstWeekStart (y + 400 * k) ws UTC
  = let j := days_from_civil y 1 4 in utc_day (j - Z.rem ((j + 3) mod 7 - ws + 7) 7 + eras k).
Proof.
  rewrite utc_first_week. cbv zeta. rewrite days_from_civil_era. fold (eras k). rewrite weekday_eras. f_equal. lia.
Qed.
Lemma days_between_eras a b k :
  recurrenceCalendarDaysBetween (utc_day (a + eras k)) (utc_day (b + eras k))
  = recurrenceCalendarDaysBetween (utc_day a) (utc_day b).
Proof.
  unfold recurrenceCalendarDaysBetween, days_of. rewrite !utc_civil, !civil_roundtrip. f_equal. unfold time_sub.
  do 2 f_equal. lia.
Qed.
Lemma week_number_eras d k ws l :
  recurrenceWeekNumberMatches (utc_day (d + eras k)) ws l = recurrenceWeekNumberMatches (utc_day d) ws l.
Proof.
  unfold recurrenceWeekNumberMatches. cbn [tzone utc_day]. rewrite !utc_civil, civil_eras. cbv zeta. cbn [cyear].
  set (y := cyear (civil_from_days d)).
  replace (y + 400 * k - 1) with (y - 1 + 400 * k) by lia. replace (y + 400 * k + 1) with (y + 1 + 400 * k) by lia.
  rewrite !first_week_eras. cbv zeta.
  pose proof (utc_first_week y ws) as H0. pose proof (utc_first_week (y - 1) ws) as H1. pose proof (utc_first_week (y + 1) ws) as H2.
  cbv zeta in H0, H1, H2. set (f := λ y, let j := days_from_civil y 1 4 in j - Z.rem ((j + 3) mod 7 - ws + 7) 7) in *.
  assert (∀ y, recurrenceFirstWeekStart y ws UTC = utc_day (f y)) as Hf by (intros; apply utc_first_week).
  assert (∀ y, recurrenceFirstWeekStart (y + 400 * k) ws UTC = utc_day (f y + eras k)) as Hfe by (intros; apply first_week_eras).
  clear H0 H1 H2. change (days_from_civil y 1 4 - _) with (f y). change (days_from_civil (y - 1) 1 4 - _) with (f (y - 1)).
  change (days_from_civil (y + 1) 1 4 - _) with (f (y + 1)). rewrite !Hf, !utc_before.
  assert ((d + eras k <? f y + eras k) = (d <? f y)) as -> by (apply eq_true_iff_eq; rewrite !Z.ltb_lt; lia).
  assert ((d + eras k <? f (y + 1) + eras k) = (d <? f (y + 1))) as -> by (apply eq_true_iff_eq; rewrite !Z.ltb_lt; lia).
  assert (∀ z z', z' = z + 400 * k → ∀ g,
    (let week := Z.quot (recurrenceCalendarDaysBetween (utc_day (g + eras k)) (utc_day (d + eras k))) 7 + 1 in
     let weeks := Z.quot (recurrenceCalendarDaysBetween (utc_day (g + eras k)) (recurrenceFirstWeekStart (z' + 1) ws UTC)) 7 in
     intSliceContains l week || intSliceContains l (week - weeks - 1))
    = (let week := Z.quot (recurrenceCalendarDaysBetween (utc_day g) (utc_day d)) 7 + 1 in
       let weeks := Z.quot (recurrenceCalendarDaysBetween (utc_day g) (recurrenceFirstWeekStart (z + 1) ws UTC)) 7 in
       intSliceContains l week || intSliceContains l (week - weeks - 1))) as Heq.
  { intros z z' -> g. replace (z + 400 * k + 1) with (z + 1 + 400 * k) by lia. rewrite Hfe, Hf, !days_between_eras. done. }
  destruct (d <? f y); [by apply Heq; lia|]. destruct (d <? f (y + 1)); by apply Heq; lia.
Qed.

(** What the match of a date looks at. *)
Definition date_rule (o : ROption) (month day daysInMonth daysInYear yearday weekday : Z) (weekno : bool) : bool :=
  let plain := List.filter (λ s, WdN s =? 0) (Byweekday o) in
  let ordinal := List.filter (λ s, negb (WdN s =? 0)) (Byweekday o) in
  let '(positive, negative) :=
    let '(day, lastDay) :=
      if bool_decide (Freq o = YEARLY) && (zlen (Bymonth o) =? 0) then (yearday, daysInYear) else (day, daysInMonth) in
    (Z.quot (day - 1) 7 + 1, - (Z.quot (lastDay - day) 7 + 1)) in
  ((zlen (Bymonth o) =? 0) || intSliceContains (Bymonth o) month)
  && selects (Bymonthday o) day (day - daysInMonth - 1)
  && selects (Byyearday o) yearday (yearday - daysInYear - 1)
  && ((zlen (Byweekno o) =? 0) || weekno)
  && ((zlen plain =? 0) || existsb (λ s, WdDay s =? weekday) plain)
  && ((zlen ordinal =? 0)
      || existsb (λ s, (WdDay s =? weekday) && ((WdN s =? positive) || (WdN s =? negative))) ordinal).
Definition month_days (t : gtime) : Z :=
  cday (t_civil (midnight (cyear (t_civil t)) (cmonth (t_civil t) + 1) 0 (tzone t))).
Definition year_days (t : gtime) : Z :=
  if cmonth (t_civil (midnight (cyear (t_civil t)) 2 29 (tzone t))) =? 2 then 366 else 365.
Lemma date_matches_rule o t :
  recurrenceDateMatches o t = date_rule o (cmonth (t_civil t)) (cday (t_civil t)) (month_days t) (year_days t) (t_yearday t)
    (t_weekday t) (recurrenceWeekNumberMatches t (WdDay (Wkst o)) (Byweekno o)).
Proof.
  unfold recurrenceDateMatches, date_rule, recurrenceWeekdayOrdinals, month_days, year_days. cbv zeta.
  destruct (_ && _); reflexivity.
Qed.
Lemma month_days_eq t : month_days t = cday (t_civil (midnight (cyear (t_civil t)) (cmonth (t_civil t) + 1) 0 (tzone t))).
Proof. reflexivity. Qed.
Lemma year_days_eq t :
  year_days t = if cmonth (t_civil (midnight (cyear (t_civil t)) 2 29 (tzone t))) =? 2 then 366 else 365.
Proof. reflexivity. Qed.
Lemma civil_fields y m d : cyear (Civil y m d) = y ∧ cmonth (Civil y m d) = m ∧ cday (Civil y m d) = d.
Proof. done. Qed.
Lemma utc_civil_eras d k : t_civil (utc_day (d + eras k)) =
  Civil (cyear (t_civil (utc_day d)) + 400 * k) (cmonth (t_civil (utc_day d))) (cday (t_civil (utc_day d))).
Proof. by rewrite !utc_civil, civil_eras. Qed.
Lemma utc_tzone d : tzone (utc_day d) = UTC.
Proof. reflexivity. Qed.
Lemma midnight_eras y m x k : midnight (y + 400 * k) m x UTC = utc_day (days_from_civil y m x + eras k).
Proof. by rewrite utc_midnight, days_from_civil_era. Qed.
(** The fields of the date an era later. *)
Lemma civil_fields_eras d k :
  let c := t_civil (utc_day d) in let c' := t_civil (utc_day (d + eras k)) in
  cyear c' = cyear c + 400 * k ∧ cmonth c' = cmonth c ∧ cday c' = cday c.
Proof. cbv zeta. rewrite utc_civil_eras. apply civil_fields. Qed.
Lemma month_days_eras d k : month_days (utc_day (d + eras k)) = month_days (utc_day d).
Proof.
  rewrite !month_days_eq, !utc_tzone. destruct (civil_fields_eras d k) as (-> & -> & _).
  rewrite midnight_eras. destruct (civil_fields_eras (days_from_civil (cyear (t_civil (utc_day d)))
    (cmonth (t_civil (utc_day d)) + 1) 0) k) as (_ & _ & ->). by rewrite <-utc_midnight.
Qed.
Lemma year_days_eras d k : year_days (utc_day (d + eras k)) = year_days (utc_day d).
Proof.
  rewrite !year_days_eq, !utc_tzone. destruct (civil_fields_eras d k) as (-> & _).
  rewrite midnight_eras. destruct (civil_fields_eras (days_from_civil (cyear (t_civil (utc_day d))) 2 29) k) as (_ & -> & _).
  by rewrite <-utc_midnight.
Qed.
Lemma yearday_eras d k : t_yearday (utc_day (d + eras k)) = t_yearday (utc_day d).
Proof. rewrite !utc_yearday, civil_eras. cbv zeta. cbn [cyear]. rewrite days_from_civil_era. fold (eras k).
  lia.
Qed.
(** Whether a date matches depends only on its place in the cycle. *)
Lemma date_matches_eras o d k : recurrenceDateMatches o (utc_day (d + eras k)) = recurrenceDateMatches o (utc_day d).
Proof.
  rewrite !date_matches_rule, week_number_eras, month_days_eras, year_days_eras, yearday_eras, !utc_weekday, weekday_eras.
  by destruct (civil_fields_eras d k) as (_ & -> & ->).
Qed.
Lemma zlen_zero {A} (l : list A) : zlen l <= 0 → l = [].
Proof. destruct l; [done|]. unfold zlen. cbn [length]. lia. Qed.
(** A rule on weekdays alone looks only at the day of the week. *)
Lemma date_matches_weeks o d k :
  recurrenceHasOnlyWeekdayDateSelectors o = true → existsb (λ s, negb (WdN s =? 0)) (Byweekday o) = false →
  recurrenceDateMatches o (utc_day (d + 7 * k)) = recurrenceDateMatches o (utc_day d).
Proof.
  unfold recurrenceHasOnlyWeekdayDateSelectors. intros [_ Hz%Z.eqb_eq]%andb_prop Hord.
  assert (∀ A (l : list A), 0 <= zlen l) as Hpos by (intros; unfold zlen; lia).
  pose proof (Hpos _ (Bymonth o)). pose proof (Hpos _ (Bymonthday o)). pose proof (Hpos _ (Byyearday o)).
  pose proof (Hpos _ (Byweekno o)). pose proof (Hpos _ (Byeaster o)).
  rewrite !date_matches_rule, !utc_weekday. unfold date_rule.
  rewrite (zlen_zero (Bymonth o)), (zlen_zero (Bymonthday o)), (zlen_zero (Byyearday o)), (zlen_zero (Byweekno o)) by lia.
  assert (List.filter (λ s, negb (WdN s =? 0)) (Byweekday o) = []) as Hf.
  { clear -Hord. induction (Byweekday o) as [|s l IH]; [done|]. cbn in *. apply orb_false_elim in Hord as [-> Hl]. by apply IH. }
  rewrite Hf. replace (d + 7 * k + 3) with (d + 3 + k * 7) by lia. rewrite Z.mod_add by lia.
  destruct (_ && _); reflexivity.
Qed.

(** * Periods of a rule in UTC *)

(** The days of [n] days from [s] that satisfy [f]. *)
Fixpoint matches_in (f : Z → bool) (n : nat) (s : Z) : Z :=
  match n with
  | O => 0
  | S n => (if f s then 1 else 0) + matches_in f n (s + 1)
  end.
Lemma matches_in_shift f D : (∀ d, f (d + D) = f d) → ∀ n s, matches_in f n (s + D) = matches_in f n s.
Proof.
  intros Hf n. induction n as [|n IH]; intros s; [done|]. cbn [matches_in]. rewrite Hf.
  replace (s + D + 1) with (s + 1 + D) by lia. by rewrite IH.
Qed.
(** [n] years, months, weeks or days after day [d]. *)
Definition advance (f : Frequency) (d n : Z) : Z :=
  let c := civil_from_days d in
  match f with
  | YEARLY => days_from_civil (cyear c + n) (cmonth c) (cday c)
  | MONTHLY => days_from_civil (cyear c) (cmonth c + n) (cday c)
  | WEEKLY => d + 7 * n
  | _ => d + n
  end.
Definition matching_dates (o : ROption) (s : Z) : Z :=
  matches_in (λ d, recurrenceDateMatches o (utc_day d)) (Z.to_nat (advance (Freq o) s 1 - s)) s.
(** The first day of the [i]-th period, and whether the period has an
    occurrence. *)
Definition first_day (o : ROption) : Z := local_day UTC (instant (first_period o)).
Definition period_day (o : ROption) (i : Z) : Z := advance (Freq o) (first_day o) (i * at_least_one (Interval o)).
Definition day_selects (o : ROption) (s : Z) : bool :=
  recurrenceBySetPosCanSelect o (matching_dates o s * recurrenceTimesPerDate o).
Definition period_selects (o : ROption) (i : Z) : bool := day_selects o (period_day o i).

(** Firsts of months are dates. *)
Definition civil_is (y m : Z) (c : civil) : bool := (cyear c =? y) && (cmonth c =? m) && (cday c =? 1).
Lemma civil_is_true y m c : civil_is y m c = true → c = Civil y m 1.
Proof. destruct c. intros [[Hy%Z.eqb_eq Hm%Z.eqb_eq]%andb_prop Hd%Z.eqb_eq]%andb_prop. simpl in *. congruence. Qed.
Lemma firsts_ok :
  check_range (λ n, civil_is (n / 12) (n mod 12 + 1) (civil_from_days (days_from_civil (n / 12) (n mod 12 + 1) 1))) 0 4800 = true.
Proof. vm_compute. reflexivity. Qed.
Lemma first_ok_spec n :
  0 <= n < 4800 → civil_from_days (days_from_civil (n / 12) (n mod 12 + 1) 1) = Civil (n / 12) (n mod 12 + 1) 1.
Proof. intros Hn. apply civil_is_true. exact (check_range_spec _ _ _ firsts_ok n Hn). Qed.
Lemma days_from_civil_months y k m d : days_from_civil y (m + 12 * k) d = days_from_civil (y + k) m d.
Proof.
  unfold days_from_civil. replace (m + 12 * k - 1) with (m - 1 + k * 12) by lia. rewrite Z.div_add, Z.mod_add by lia.
  replace (y + ((m - 1) / 12 + k)) with (y + k + (m - 1) / 12) by lia. done.
Qed.
Lemma civil_of_month y m : 1 <= m <= 12 → civil_from_days (days_from_civil y m 1) = Civil y m 1.
Proof.
  intros Hm. pose proof (Z.mod_pos_bound y 400 ltac:(lia)) as Hy.
  pose proof (first_ok_spec (12 * (y mod 400) + (m - 1)) ltac:(lia)) as H.
  assert ((12 * (y mod 400) + (m - 1)) / 12 = y mod 400) as Hq.
  { symmetry. apply (Z.div_unique_pos _ _ _ (m - 1)); lia. }
  assert ((12 * (y mod 400) + (m - 1)) mod 12 = m - 1) as Hr.
  { symmetry. apply (Z.mod_unique_pos _ _ (y mod 400)); lia. }
  rewrite Hq, Hr, Z.sub_add in H.
  assert (∃ r q, y = r + 400 * q ∧ y mod 400 = r) as (r & q & -> & Hr0).
  { exists (y mod 400), (y / 400). split; [|done]. pose proof (Z.div_mod y 400). lia. }
  rewrite Hr0 in H. rewrite days_from_civil_era. fold (eras q). rewrite civil_eras, H. done.
Qed.
Lemma civil_of_first y m :
  civil_from_days (days_from_civil y m 1) = Civil (y + (m - 1) / 12) ((m - 1) mod 12 + 1) 1.
Proof.
  pose proof (Z.mod_pos_bound (m - 1) 12 ltac:(lia)). rewrite <-civil_of_month by lia. f_equal.
  rewrite <-days_from_civil_months. f_equal. pose proof (Z.div_mod (m - 1) 12). lia.
Qed.

(** A day from which whole periods can be counted. *)
Definition aligned (f : Frequency) (d : Z) : Prop :=
  match f with YEARLY | MONTHLY => cday (civil_from_days d) = 1 | _ => True end.
Lemma advance_aligned f d n : aligned f d → aligned f (advance f d n).
Proof.
  unfold aligned, advance. destruct f; try done; intros Hd; cbv zeta; rewrite Hd, civil_of_first; done.
Qed.
Lemma doe_ok_month doe : doe_ok doe = true → 1 <= cmonth (civil_of_doe doe) <= 12.
Proof. unfold doe_ok. cbv zeta. intros H. bool_to_prop. lia. Qed.
Lemma civil_month_doe d : cmonth (civil_from_days d) = cmonth (civil_of_doe ((d + 719468) mod 146097)).
Proof. reflexivity. Qed.
Lemma civil_month d : 1 <= cmonth (civil_from_days d) <= 12.
Proof.
  rewrite civil_month_doe. apply doe_ok_month, (check_range_spec _ _ _ doe_all_ok).
  pose proof (Z.mod_pos_bound (d + 719468) 146097 ltac:(lia)). lia.
Qed.
Lemma advance_add f d m n : aligned f d → advance f (advance f d m) n = advance f d (m + n).
Proof.
  unfold aligned, advance. cbv zeta. pose proof (civil_month d). destruct f; intros Hd; try lia; rewrite Hd, civil_of_first;
    cbn [cyear cmonth cday].
  - rewrite (Z.div_small (_ - 1)), (Z.mod_small (_ - 1)) by lia. f_equal; lia.
  - set (c := civil_from_days d) in *. set (x := cmonth c + m - 1).
    replace (x mod 12 + 1 + n) with (cmonth c + (m + n) + 12 * (- (x / 12))).
    + rewrite days_from_civil_months. f_equal. lia.
    + pose proof (Z.div_mod x 12). unfold x in *. lia.
Qed.
(** A whole number of cycles is a whole number of eras. *)
Definition long_cycle (f : Frequency) : Z := match f with YEARLY => 400 | MONTHLY => 4800 | WEEKLY => 20871 | _ => 146097 end.
Lemma advance_eras f d n k : advance f d (n + long_cycle f * k) = advance f d n + eras k.
Proof.
  unfold advance, long_cycle, eras. cbv zeta. destruct f; try lia.
  - rewrite Z.add_assoc. apply days_from_civil_era.
  - replace (cmonth (civil_from_days d) + (n + 4800 * k)) with (cmonth (civil_from_days d) + n + 12 * (400 * k)) by lia.
    rewrite days_from_civil_months. apply days_from_civil_era.
Qed.
Lemma advance_shift f d k n : advance f (d + eras k) n = advance f d n + eras k.
Proof.
  unfold advance. cbv zeta. rewrite civil_eras. cbn [cyear cmonth cday]. cbv zeta. destruct f; try lia; unfold eras.
  - replace (cyear (civil_from_days d) + 400 * k + n) with (cyear (civil_from_days d) + n + 400 * k) by lia.
    apply days_from_civil_era.
  - apply days_from_civil_era.
Qed.
Lemma day_selects_eras o d k : day_selects o (d + eras k) = day_selects o d.
Proof.
  unfold day_selects, matching_dates. rewrite advance_shift, matches_in_shift by (intros; apply date_matches_eras).
  do 3 f_equal. lia.
Qed.

(** The rules the walk of the periods is for. *)
Definition plain_weekdays (o : ROption) : Prop :=
  Freq o ≠ YEARLY → Freq o ≠ MONTHLY → existsb (λ s, negb (WdN s =? 0)) (Byweekday o) = false.
Lemma cycle_base_cases o : sub_daily (Freq o) = false →
  cycle_base o = long_cycle (Freq o) ∨
  Freq o = DAILY ∧ recurrenceHasOnlyWeekdayDateSelectors o = true ∧ cycle_base o = 7.
Proof. unfold cycle_base, long_cycle. destruct (Freq o); try done; try by left. destruct (recurrenceHasOnlyWeekdayDateSelectors o); [right|left]; done. Qed.
(** One cycle of periods, and every period is like one of the cycle. *)
Lemma period_selects_cycle o i j :
  sub_daily (Freq o) = false → plain_weekdays o →
  let n := cycle_base o / Z.gcd (at_least_one (Interval o)) (cycle_base o) in
  i mod n = j mod n → period_selects o i = period_selects o j.
Proof.
  intros Hf Hwd. set (interval := at_least_one (Interval o)). set (B := cycle_base o). cbv zeta.
  assert (0 < interval) as Hi by (unfold interval, at_least_one; destruct (Z.ltb_spec (Interval o) 1); lia).
  assert (0 < B) as HB by (unfold B, cycle_base; destruct (Freq o); try lia; case_match; lia).
  destruct (Z.gcd_divide_l interval B) as [a Ha]. destruct (Z.gcd_divide_r interval B) as [b Hb].
  set (g := Z.gcd interval B) in *.
  assert (0 < g) as Hg. { pose proof (Z.gcd_nonneg interval B). assert (g ≠ 0); [|lia]. intros ?%Z.gcd_eq_0_l. lia. }
  assert (B / g = b) as -> by (rewrite Hb; apply Z.div_mul; lia). intros Hij. assert (0 < b) by nia.
  assert (∀ q, i = j + b * q → period_selects o i = period_selects o j) as Hq.
  2: { apply (Hq (i / b - j / b)). pose proof (Z.div_mod i b). pose proof (Z.div_mod j b). lia. }
  intros q ->. unfold period_selects, period_day. fold interval.
  replace ((j + b * q) * interval) with (j * interval + B * (a * q)).
  2: { assert (b * interval = B * a) as HbB by (rewrite Ha, Hb; ring).
       transitivity (j * interval + q * (b * interval)); [rewrite HbB|]; ring. }
  destruct (cycle_base_cases o Hf) as [HB'|(Hfo & Hw & HB')]; fold B in HB'; rewrite HB';
    [by rewrite advance_eras, day_selects_eras|].
  unfold day_selects, matching_dates. rewrite Hfo. cbn [advance].
  set (d := first_day o + j * interval). replace (first_day o + (j * interval + 7 * (a * q))) with (d + 7 * (a * q)) by lia.
  rewrite matches_in_shift; [do 3 f_equal; lia|]. intros x. apply date_matches_weeks; [done|]. by apply Hwd; rewrite Hfo.
Qed.

(** * The dates are reached *)

(** The walk over the dates of a period in UTC counts the dates that match. *)
Lemma date_loop o s e p aggregate :
  match iterate p (date_turn o (utc_day e)) (utc_day s, 0, aggregate) with
  | inl _ => True
  | inr (_, None) => True
  | inr (_, Some matches) => matches = matches_in (λ d, recurrenceDateMatches o (utc_day d)) (Z.to_nat (e - s)) s
  end.
Proof.
  set (f := λ d, recurrenceDateMatches o (utc_day d)).
  pose (P := λ st : gtime * Z * Z, ∃ d, st.1.1 = utc_day d ∧
    st.1.2 + matches_in f (Z.to_nat (e - d)) d = matches_in f (Z.to_nat (e - s)) s).
  pose (Q := λ r : Z * option Z, match r.2 with Some m => m = matches_in f (Z.to_nat (e - s)) s | None => True end).
  pose proof (iterate_inv P Q (date_turn o (utc_day e)) p (utc_day s, 0, aggregate)) as H.
  destruct (iterate p _ _) as [st|[a [m|]]]; [done| |done]. apply H; [by exists s|].
  clear H a m. intros [[date m] a] (d & Hd & Hm). cbn [fst snd] in Hd, Hm. subst date.
  unfold date_turn. rewrite utc_before. destruct (Z.ltb_spec d e) as [Hlt|Hge]; cbn [negb].
  - destruct (consumeAggregateRecurrenceWork 1 a) as [a'|]; [|done]. exists (d + 1). split; [apply utc_add_days|].
    cbn [fst snd]. rewrite <-Hm. replace (Z.to_nat (e - d)) with (S (Z.to_nat (e - (d + 1)))) by lia. cbn [matches_in].
    fold (f d). destruct (f d); lia.
  - unfold Q. cbn [snd]. rewrite <-Hm. replace (Z.to_nat (e - d)) with 0%nat by lia. cbn [matches_in]. lia.
Qed.
(** The budget bounds the walk: it never runs out of turns. *)
Lemma date_loop_ends o e date aggregate : 0 <= aggregate →
  ∃ r, iterate (Z.to_pos (aggregate + 1)) (date_turn o e) (date, 0, aggregate) = inr r.
Proof.
  intros Ha. destruct (iterate _ _ _) as [st|r] eqn:Hit; [exfalso|by eexists].
  assert (∀ s s', date_turn o e s = inl s' → s'.2 = s.2 - 1 ∧ 1 <= s.2) as Hstep.
  { intros [[d m] a] s'. unfold date_turn, consumeAggregateRecurrenceWork. destruct (negb _); [done|].
    destruct (Z.ltb_spec a 1); [done|]. cbn [orb Z.ltb]. intros [= <-]. cbn [snd]. lia. }
  pose proof (iterate_measure snd (date_turn o e) (Z.to_pos (aggregate + 1)) _ _
    (λ s s' H, ltac:(apply Hstep in H; lia)) Hit) as Hm.
  pose proof (iterate_inv (λ s, 0 <= s.2) (λ _, True) (date_turn o e) (Z.to_pos (aggregate + 1)) (date, 0, aggregate)) as Hp.
  rewrite Hit in Hp. cbn [snd] in *. rewrite Z2Pos.id in Hm by lia. specialize (Hp Ha). cbn in Hp.
  assert (0 <= st.2); [|lia]. apply Hp. intros s Hs. destruct (date_turn o e s) eqn:Hd; [|done]. apply Hstep in Hd. lia.
Qed.

Lemma utc_period_end o d : sub_daily (Freq o) = false → period_end o (utc_day d) = utc_day (advance (Freq o) d 1).
Proof.
  intros Hf. unfold period_end, advance. destruct (Freq o); try done;
    rewrite ?utc_add_days, ?utc_add_date; cbv zeta; rewrite ?Z.add_0_r; try reflexivity; f_equal; lia.
Qed.
Lemma utc_next_period o n d : sub_daily (Freq o) = false → next_period o n (utc_day d) = utc_day (advance (Freq o) d n).
Proof.
  intros Hf. unfold next_period, advance. destruct (Freq o); try done;
    rewrite ?utc_add_days, ?utc_add_date; cbv zeta; rewrite ?Z.add_0_r; try reflexivity; f_equal; lia.
Qed.

Lemma fail_if_err {W E} (c : bool) (e e' : E) (st st' : W) : fail_if c e st = (st', Err e') → e' = e.
Proof. unfold fail_if. destruct c; [by intros [=]|done]. Qed.

Section DateLive.
Context {W : Type} `{Ctx W}.

Lemma matching_dates_spec o s : sub_daily (Freq o) = false →
  yields (recurrenceMatchingDatesInPeriod (W:=W) o (utc_day s)) (λ m, m = matching_dates o s).
Proof.
  intros Hf [w b] st' m. unfold recurrenceMatchingDatesInPeriod. cbn [snd]. cbv zeta. rewrite utc_period_end by done.
  pose proof (date_loop o s (advance (Freq o) s 1) (Z.to_pos (aggregateRemaining b + 1)) (aggregateRemaining b)) as Hl.
  destruct (iterate _ _ _) as [?|[a [x|]]]; intros [=]; subst. done.
Qed.
Lemma period_states_spec n : ∀ i o interval start maxWork,
  sub_daily (Freq o) = false → aligned (Freq o) start →
  yields (period_states (W:=W) n i o interval (recurrenceTimesPerDate o) (utc_day start) maxWork)
    (λ r, r.1 = map (λ j, day_selects o (advance (Freq o) start (Z.of_nat j * interval))) (seq 0 n)).
Proof.
  induction n as [|n IH]; intros i o interval start maxWork Hf Hal; cbn [period_states]; [by apply yields_ret|].
  step_any. intros _ _. eapply yields_bind; [by apply matching_dates_spec|]. intros m ->. cbv zeta.
  step_any. intros _ _. rewrite utc_next_period by done.
  eapply yields_bind; [apply IH; [done|by apply advance_aligned]|]. intros [rest mx] Hrest. cbn [fst] in Hrest. subst rest.
  apply yields_ret. cbn [fst seq map]. f_equal.
  - unfold day_selects. do 3 f_equal. rewrite Z.mul_0_l. unfold advance in *. cbv zeta. unfold aligned in Hal.
    destruct (Freq o); try done; rewrite ?Z.mul_0_r, ?Z.add_0_r; try done; symmetry; apply civil_roundtrip.
  - rewrite <-seq_shift, map_map. apply map_ext. intros j. rewrite advance_add by done. do 2 f_equal. lia.
Qed.
Lemma period_states_err n : ∀ i o interval tpd start maxWork st st' e,
  period_states (W:=W) n i o interval tpd start maxWork st = (st', Err e) → e = SelectorsCanceled ∨ e = SelectorsExcessive.
Proof.
  induction n as [|n IH]; intros i o interval tpd start maxWork st st' e; cbn [period_states]; [by intros [=]|].
  unfold mbind, M_bind. destruct (if i mod 256 =? 0 then _ else _) as [st1 [[]|e1]] eqn:H1.
  2: { intros [= _ <-]. destruct (i mod 256 =? 0); [|done]. unfold poll_done in H1.
       destruct (ctx_Err st.1) as [w [e2|]]; [|done]. injection H1 as _ <-. by left. }
  unfold recurrenceMatchingDatesInPeriod at 1. cbv zeta.
  destruct (iterate _ _ _) as [?|[a [m|]]]; [intros [= _ <-]; by right| |intros [= _ <-]; by right].
  destruct (fail_if _ _ _) as [st3 [[]|e3]] eqn:H3.
  2: { intros [= _ <-]. unfold fail_if in H3. destruct (_ <? _); [|done]. injection H3 as _ <-. by right. }
  destruct (period_states n _ _ _ _ _ _ _) as [st2 [[l mx]|e2]] eqn:H2; [by intros [=]|]. intros [= _ <-]. by eapply IH.
Qed.
End DateLive.

(** What the normalisation of a rule keeps. *)
Lemma defaults_keep o :
  let n := normalizeRecurrenceDateDefaults o in
  Freq n = Freq o ∧ Dtstart n = Dtstart o ∧ Interval n = Interval o ∧ Wkst n = Wkst o ∧
  (Freq o = WEEKLY ∨ Byweekday n = Byweekday o) ∧
  (existsb (λ s, negb (WdN s =? 0)) (Byweekday o) = false → existsb (λ s, negb (WdN s =? 0)) (Byweekday n) = false).
Proof. unfold normalizeRecurrenceDateDefaults. cbv zeta. destruct (negb _); [by auto 10|]. by destruct (Freq o) eqn:?; cbn; auto 10. Qed.
(** The first period of a rule in UTC starts on a day. *)
Lemma utc_first_period o t : Dtstart o = GTime t UTC → sub_daily (Freq o) = false →
  first_period o = utc_day (first_day o) ∧ aligned (Freq o) (first_day o).
Proof.
  intros Hd Hf. assert (∀ d, local_day UTC (instant (utc_day d)) = d) as Hday.
  { intros d. unfold local_day. by rewrite utc_secs, Z.div_mul. }
  assert (∃ d, first_period o = utc_day d ∧ aligned (Freq o) d) as (d & Hfp & Hal).
  2: { unfold first_day. rewrite Hfp, Hday. done. }
  unfold first_period. rewrite Hd. cbn [tzone]. cbv zeta. rewrite !utc_midnight.
  destruct (Freq o); try done; [| | |].
  - eexists. split; [reflexivity|]. cbn [aligned]. by rewrite civil_of_first.
  - eexists. split; [reflexivity|]. cbn [aligned]. by rewrite civil_of_first.
  - unfold recurrenceWeekStart. cbn [tzone]. cbv zeta. rewrite utc_midnight, utc_add_days. eexists. by split.
  - eexists. by split.
Qed.

(** The states of one cycle answer for every period. *)
Lemma cycle_live n : sub_daily (Freq n) = false → plain_weekdays n →
  let cycle := cycle_base n / greatestCommonDivisor (at_least_one (Interval n)) (cycle_base n) in
  match maximumCyclicEmptyPeriods (map (λ j, period_selects n (Z.of_nat j)) (seq 0 (Z.to_nat cycle))) with
  | Some m => 0 <= m ∧ ∀ i, 0 <= i → ∃ k, 0 <= k <= m ∧ period_selects n (i + k) = true
  | None => ∀ i, 0 <= i → period_selects n i = false
  end.
Proof.
  intros Hf Hwd. set (B := cycle_base n). set (I := at_least_one (Interval n)). cbv zeta.
  assert (0 < I) as HI by (unfold I, at_least_one; destruct (Z.ltb_spec (Interval n) 1); lia).
  assert (0 < B) as HB by (unfold B; destruct (cycle_base_cases n Hf) as [-> | (_ & _ & ->)]; [destruct (Freq n)|]; done).
  rewrite greatestCommonDivisor_spec by lia. set (N := B / Z.gcd I B).
  assert (0 < N) as HN.
  { apply Z.div_str_pos. destruct (Z.gcd_divide_r I B) as [b Hb]. pose proof (Z.gcd_nonneg I B). assert (0 < b); nia. }
  set (l := map _ _). assert (length l = Z.to_nat N) as Hlen by (unfold l; by rewrite length_map, length_seq).
  assert (∀ i, l !! (i mod length l)%nat = Some (period_selects n (Z.of_nat i))) as Hl.
  { intros i. pose proof (Nat.mod_upper_bound i (length l) ltac:(lia)). remember (i mod length l)%nat as x eqn:Hx. unfold l.
    rewrite list_lookup_fmap, lookup_seq_lt by lia. cbn [fmap option_fmap option_map]. f_equal.
    apply (period_selects_cycle n _ _ Hf Hwd). fold B I N. rewrite Nat.add_0_l, Hx, Hlen, Nat2Z.inj_mod, Z2Nat.id by lia.
    by rewrite Z.mod_mod by lia. }
  pose proof (maximumCyclicEmptyPeriods_spec l) as Hspec. destruct (maximumCyclicEmptyPeriods l) as [m|].
  - destruct Hspec as [Hm Hlive]. split; [lia|]. intros i Hi. destruct (Hlive (Z.to_nat i)) as (k & Hk & Hkl).
    exists (Z.of_nat k). split; [done|]. rewrite Hl in Hkl. injection Hkl as Hkl. rewrite <-Hkl. f_equal. lia.
  - intros i Hi. specialize (Hl (Z.to_nat i)). rewrite Z2Nat.id in Hl by done. by eapply Hspec.
Qed.

Section DateTheorem.
Context {W : Type} `{Ctx W}.

Lemma dates_reached (o : ROption) (t : Z) st :
  Dtstart o = GTime t UTC → sub_daily (Freq o) = false → hasRecurrenceDateSelectors o = true →
  let n := normalizeRecurrenceDateDefaults o in
  match checkRecurrenceSelectorSafety (W:=W) o st with
  | (_, Ok (m, _)) => 0 <= m ∧ ∀ i, 0 <= i → ∃ k, 0 <= k <= m ∧ period_selects n (i + k) = true
  | (_, Err SelectorsUnreachable) => ∀ i, 0 <= i → period_selects n i = false
  | _ => True
  end.
Proof.
  intros Ht Hf Hsel n. destruct (defaults_keep o) as (HF & HD & HI & _ & _ & Hwd). fold n in HF, HD, HI, Hwd.
  unfold checkRecurrenceSelectorSafety. cbv zeta. fold n. rewrite Hf, Hsel. cbn [negb andb].
  unfold mbind at 1, M_bind at 1. destruct (fail_if (negb (zlen (Byeaster o) =? 0)) _ st) as [st1 [[]|e]] eqn:H1;
    [|by apply fail_if_err in H1 as ->].
  unfold mbind at 1, M_bind at 1. destruct (fail_if _ _ st1) as [st2 [[]|e]] eqn:H2; [|by apply fail_if_err in H2 as ->].
  unfold mbind at 1, M_bind at 1. destruct (fail_if _ _ st2) as [st3 [[]|e]] eqn:H3; [|by apply fail_if_err in H3 as ->].
  assert (plain_weekdays n) as Hpw.
  { apply yields_fail_if in H2. intros HY HM. apply Hwd. rewrite HF in HY, HM.
    rewrite !(bool_decide_eq_false_2 _ HY), !(bool_decide_eq_false_2 _ HM), !andb_true_r in H2. done. }
  unfold recurrenceClockSelectorSafety. assert (clock_of o = None) as -> by (unfold clock_of; by destruct (Freq o)).
  unfold mbind at 1, M_bind at 1, mret at 1, M_ret at 1. unfold mbind at 1, M_bind at 1.
  destruct (utc_first_period n t) as [Hfp Hal]; [by rewrite HD|by rewrite HF|]. rewrite Hfp, <-HI.
  destruct (period_states _ _ _ _ _ _ _ st3) as [st4 [[l mx]|e]] eqn:Hrun.
  2: { apply period_states_err in Hrun as [-> | ->]; done. }
  apply (period_states_spec _ 0 n _ _ 0) in Hrun; [|by rewrite HF|done]. cbn [fst] in Hrun. subst l.
  pose proof (cycle_live n ltac:(by rewrite HF) Hpw) as Hlive. cbv zeta in Hlive. unfold period_selects at 1, period_day in Hlive.
  destruct (maximumCyclicEmptyPeriods _) as [m|]; [|exact Hlive].
  unfold mbind, M_bind. destruct (fail_if _ _ st4) as [st5 [[]|e]] eqn:H5; [exact Hlive|by apply fail_if_err in H5 as ->].
Qed.
(** (C13) The dates of a yearly, monthly, weekly or daily rule with date
    selectors are reached, too: when [checkRecurrenceSelectorSafety] accepts a
    rule whose start is in UTC, with the number [m], then from any period on,
    however late, one of the next [m]+1 periods has dates the selectors admit
    (and a position BYSETPOS can pick); and when the walk over one Gregorian
    cycle says none can be reached, no period ever has one. *)
Theorem dates_live (o : ROption) (t : Z) st :
  Dtstart o = GTime t UTC → sub_daily (Freq o) = false → hasRecurrenceDateSelectors o = true →
  let n := normalizeRecurrenceDateDefaults o in
  match checkRecurrenceSelectorSafety (W:=W) o st with
  | (_, Ok (m, _)) => 0 <= m ∧ ∀ i, 0 <= i → ∃ k, 0 <= k <= m ∧ period_selects n (i + k) = true
  | (_, Err SelectorsUnreachable) => ∀ i, 0 <= i → period_selects n i = false
  | _ => True
  end.
Proof. apply dates_reached. Qed.
End DateTheorem.

(** What accepting a rule promises. *)
Definition rule_live (o : ROption) (m : Z) : Prop :=
  0 <= m ∧
  (sub_daily (Freq o) = true →
     hasRecurrenceDateSelectors o = false ∧ ∀ i, 0 <= i → ∃ k, 0 <= k <= m ∧ clock_admits o (i + k)) ∧
  (sub_daily (Freq o) = false → hasRecurrenceDateSelectors o = true → ∀ t, Dtstart o = GTime t UTC →
     ∀ i, 0 <= i → ∃ k, 0 <= k <= m ∧ period_selects (normalizeRecurrenceDateDefaults o) (i + k) = true).
Lemma yields_safety_range {W} `{Ctx W} o : sorted_rule o →
  yields (checkRecurrenceSelectorSafety (W:=W) o) (λ r, 0 <= r.1 ∧ (sub_daily (Freq o) = true →
    hasRecurrenceDateSelectors o = false ∧ ∀ i, 0 <= i → ∃ k, 0 <= k <= r.1 ∧ clock_admits o (i + k))).
Proof.
  intros Hsorted. unfold checkRecurrenceSelectorSafety. cbv zeta. do 3 (step_any; intros [] _).
  step (λ m, 0 <= m ∧ ∀ i, 0 <= i → ∃ k, 0 <= k <= m ∧ clock_admits o (i + k)).
  { intros st st' m Hm. pose proof (clock_reached o st Hsorted) as Hc. by rewrite Hm in Hc. }
  intros cm [Hcm Hclock]. destruct (sub_daily (Freq o)).
  - eapply yields_bind; [apply yields_fail_if|]. intros [] Hsel.
    destruct (recurrenceBySetPosCanSelect _ _); [apply yields_ret|apply yields_fail]. done.
  - destruct (_ && _).
    + step_any. intros _ _. step_any. intros _ _. apply yields_ret. cbn [fst]. by destruct (_ && _).
    + eapply yields_bind; [apply yields_any|]. intros [l mx] _.
      pose proof (maximumCyclicEmptyPeriods_spec l) as Hspec. destruct (maximumCyclicEmptyPeriods l) as [m|]; [|apply yields_fail].
      step_any. intros _ _. apply yields_ret. cbn [fst]. split; [destruct Hspec; lia|done].
Qed.
Lemma safe_rule_live {W} `{Ctx W} o (st st' : W * budgets) m c : sorted_rule o →
  checkRecurrenceSelectorSafety o st = (st', Ok (m, c)) → rule_live o m.
Proof.
  intros Hsorted Hrun. destruct (yields_safety_range o Hsorted _ _ _ Hrun) as [Hm Hclock]. split; [done|]. split; [done|].
  intros Hf Hsel t Ht. pose proof (dates_reached o t st Ht Hf Hsel) as Hl. cbv zeta in Hl. rewrite Hrun in Hl. apply Hl.
Qed.

(** * Budgets *)

Definition solvent (b : budgets) : Prop := 0 <= seriesRemaining b ∧ 0 <= aggregateRemaining b.
(** [b'] is what is left of [b]. *)
Definition left_of (b b' : budgets) : Prop :=
  solvent b' ∧ seriesRemaining b' <= seriesRemaining b ∧ aggregateRemaining b' <= aggregateRemaining b.
Lemma left_of_refl b : solvent b → left_of b b.
Proof. intros ?. split_and!; [done|lia|lia]. Qed.
Lemma left_of_trans a b c : left_of a b → left_of b c → left_of a c.
Proof. unfold left_of. intros (? & ? & ?) (? & ? & ?). split_and!; [done|lia|lia]. Qed.
#[export] Hint Resolve left_of_refl : go.

(** What the check of a rule does to its state: it looks at the context and
    spends, so every preorder closed under both relates its ends. *)
Section Related.
Context {W : Type} `{Ctx W} (R : relation (W * budgets)) `{!PreOrder R}.
Hypothesis R_poll : ∀ w b, R (w, b) ((ctx_Err w).1, b).
Hypothesis R_spend : ∀ w b b', (solvent b → left_of b b') → R (w, b) (w, b').
Definition related {A} (m : M (W * budgets) selector_stop A) : Prop := ∀ st, R st (m st).1.

Lemma related_ret {A} (a : A) : related (mret a).
Proof. intros st. reflexivity. Qed.
Lemma related_fail {A} s : related (A:=A) (fail s).
Proof. intros st. reflexivity. Qed.
Lemma related_fail_if c s : related (fail_if c s).
Proof. unfold fail_if. destruct c; [apply related_fail|apply related_ret]. Qed.
Lemma related_bind {A B} (m : M (W * budgets) selector_stop A) (f : A → M (W * budgets) selector_stop B) :
  related m → (∀ a, related (f a)) → related (m ≫= f).
Proof.
  intros Hm Hf st. specialize (Hm st). unfold mbind, M_bind. destruct (m st) as [st1 [a|e]]; [|done].
  cbn [fst] in *. etrans; [exact Hm|]. apply (Hf a).
Qed.
Lemma related_poll : related poll_done.
Proof. intros [w b]. unfold poll_done. cbn [fst snd]. pose proof (R_poll w b). by destruct (ctx_Err w). Qed.
Lemma related_consume : related consumeRecurrenceWork.
Proof.
  intros [w b]. unfold consumeRecurrenceWork. cbn [snd fst] in *. destruct (_ || _) eqn:Hc; [reflexivity|].
  apply orb_false_elim in Hc as [?%Z.leb_gt ?%Z.leb_gt]. apply R_spend. intros [? ?]. unfold left_of, solvent. cbn. lia.
Qed.
Lemma related_dates o start : related (recurrenceMatchingDatesInPeriod o start).
Proof.
  intros [w b]. unfold recurrenceMatchingDatesInPeriod. cbn [snd fst] in *. cbv zeta.
  pose proof (iterate_inv (λ s : gtime * Z * Z, 0 <= s.2 <= aggregateRemaining b) (λ r : Z * option Z, 0 <= r.1 <= aggregateRemaining b)
    (date_turn o (period_end o start)) (Z.to_pos (aggregateRemaining b + 1)) (start, 0, aggregateRemaining b)) as H1.
  assert (solvent b → ∀ r, iterate (Z.to_pos (aggregateRemaining b + 1)) (date_turn o (period_end o start)) (start, 0, aggregateRemaining b) = inr r →
    0 <= r.1 <= aggregateRemaining b) as Hr.
  { intros [Hs Ha] r Hr. rewrite Hr in H1. apply H1; [cbn; lia|]. intros [[d m] a] Hda. cbn [snd] in Hda.
    unfold date_turn, consumeAggregateRecurrenceWork. destruct (negb _); [done|].
    destruct (Z.ltb_spec a 1); cbn; lia. }
  clear H1. destruct (iterate _ _ _) as [?|[a [m|]]]; [reflexivity|apply R_spend; intros Hb; specialize (Hr Hb _ eq_refl)..];
    destruct Hb; cbn in Hr; unfold left_of, solvent; cbn; lia.
Qed.
#[local] Hint Resolve related_ret related_fail related_fail_if related_poll related_consume related_dates : core.
Lemma related_clock n : ∀ i cycle step value matches, related (clock_states n i cycle step value matches).
Proof.
  induction n as [|n IH]; intros; cbn [clock_states]; [apply related_ret|].
  apply related_bind; [by destruct (_ =? 0)|intros _]. apply related_bind; [done|intros _]. by apply related_bind.
Qed.
Lemma related_periods n : ∀ i o interval tpd start mx, related (period_states n i o interval tpd start mx).
Proof.
  induction n as [|n IH]; intros; cbn [period_states]; [apply related_ret|].
  apply related_bind; [by destruct (_ =? 0)|intros _]. apply related_bind; [done|intros m].
  apply related_bind; [done|intros _]. apply related_bind; [done|]. by intros [].
Qed.
Lemma related_safety o : related (checkRecurrenceSelectorSafety o).
Proof.
  unfold checkRecurrenceSelectorSafety. cbv zeta. do 3 (apply related_bind; [done|intros _]).
  apply related_bind.
  { unfold recurrenceClockSelectorSafety. destruct (clock_of o) as [[[] ]|]; [|done].
    apply related_bind; [apply related_clock|intros l]. by destruct (maximumCyclicEmptyPeriods l). }
  intros m. destruct (sub_daily _).
  - apply related_bind; [done|intros _]. by destruct (recurrenceBySetPosCanSelect _ _).
  - destruct (_ && _).
    + apply related_bind; [done|intros _]. by apply related_bind.
    + apply related_bind; [apply related_periods|]. intros [l mx]. destruct (maximumCyclicEmptyPeriods l); [|done]. by apply related_bind.
Qed.
End Related.
(** The check never overdraws a budget. *)
Lemma safety_spends {W} `{Ctx W} o (st : W * budgets) :
  solvent st.2 → left_of st.2 (checkRecurrenceSelectorSafety o st).1.2.
Proof.
  pose (R := λ a b : W * budgets, solvent a.2 → left_of a.2 b.2).
  assert (PreOrder R) as HR.
  { split; [intros a Ha; by apply left_of_refl|]. intros a b c Hab Hbc Ha. eapply left_of_trans; [by apply Hab|]. apply Hbc. by apply Hab. }
  apply (related_safety R); unfold R; cbn; auto with go.
Qed.

(** * The walk over the occurrences *)

Section Walk.
Context {W : Type} `{Ctx W} `{RRuleLib}.

(** [iter_run it l it']: the iterator gives the occurrences [l] and becomes
    [it']. *)
Inductive iter_run : Iter → list gtime → Iter → Prop :=
| run_nil it : iter_run it [] it
| run_snoc it l it1 occ it2 : iter_run it l it1 → iter_next it1 = (Some occ, it2) → iter_run it (l ++ [occ]) it2.

Definition lower_bound (master : Event) (rangeStart : gtime) : gtime :=
  GTime (instant rangeStart - overlap_duration master) (tzone rangeStart).
Definition keeps (master : Event) (rangeStart rangeEnd occ : gtime) : bool :=
  negb (before occ (lower_bound master rangeStart)) && negb (bool_decide (unix occ ∈ map unix (exDates master)))
  && occurrence_overlaps master rangeStart rangeEnd occ.
(** What the loop has after the occurrences [seen]. *)
Definition walked (master : Event) (rangeStart rangeEnd : gtime) (max series aggregate : Z) (it0 : Iter)
    (seen : list gtime) (it : Iter) (kept : list gtime) (b : budgets) : Prop :=
  iter_run it0 seen it ∧ seriesRemaining b <= series - zlen seen ∧ aggregateRemaining b <= aggregate - zlen seen ∧
  0 <= aggregateRemaining b ∧ zlen seen <= maxRecurrenceExpansionWork ∧ Forall (λ occ, before rangeEnd occ = false) seen ∧
  kept = List.filter (keeps master rangeStart rangeEnd) seen ∧ zlen kept <= max.
Definition walk_ok (master : Event) (rangeStart rangeEnd : gtime) (max series aggregate : Z) (it0 : Iter)
    (res : W * budgets * result error (list gtime * bool)) : Prop :=
  let '(_, b, r) := res in
  0 <= aggregateRemaining b <= aggregate ∧
  match r with
  | Ok (occs, truncated) => ∃ seen it, walked master rangeStart rangeEnd max series aggregate it0 seen it occs b ∧
      (truncated = false → match (iter_next it).1 with None => True | Some occ => before rangeEnd occ = true end)
  | Err _ => True
  end.
Lemma zlen_snoc {A} (l : list A) a : zlen (l ++ [a]) = zlen l + 1.
Proof. unfold zlen. rewrite length_app. cbn [length]. lia. Qed.
Lemma filter_snoc {A} (f : A → bool) l a : List.filter f (l ++ [a]) = (List.filter f l ++ if f a then [a] else [])%list.
Proof. rewrite List.filter_app. cbn [List.filter]. by destruct (f a). Qed.

Definition walk_inv master rangeStart rangeEnd max series aggregate it0 (k : walk (W:=W)) : Prop :=
  ∃ seen, walked master rangeStart rangeEnd max series aggregate it0 seen (wk_iter k) (reverse (wk_kept k)) (wk_budgets k)
    ∧ wk_advances k = zlen seen.
Lemma walk_turn_ok master rs re max series aggregate it0 (k : walk (W:=W)) :
  0 <= aggregate → walk_inv master rs re max series aggregate it0 k →
  match walk_turn master rs re (lower_bound master rs) (list_to_set (map unix (exDates master))) max k with
  | inl k' => walk_inv master rs re max series aggregate it0 k'
  | inr res => walk_ok master rs re max series aggregate it0 res
  end.
Proof.
  intros Ha (seen & (Hrun & Hs & Hag & Hag0 & Hn & Hre & Hkept & Hmax) & Hadv). unfold walk_turn.
  assert (0 <= zlen seen) as Hz by (unfold zlen; lia).
  destruct (ctx_Err (wk_world k)) as [w [e|]]; [split; [lia|done]|]. cbv zeta.
  destruct (_ || _) eqn:Hfuel; [split; [lia|done]|].
  apply orb_false_elim in Hfuel as [[?%Z.leb_gt ?%Z.leb_gt]%orb_false_elim ?%Z.leb_gt].
  destruct (iter_next (wk_iter k)) as [o it] eqn:Hit. set (b := MkBudgets _ _).
  assert (aggregateRemaining b = aggregateRemaining (wk_budgets k) - 1) as Hb by done.
  assert (seriesRemaining b = seriesRemaining (wk_budgets k) - 1) as Hb' by done.
  destruct o as [occ|]; [|split; [lia|]; exists seen, (wk_iter k); rewrite Hit; split; [split_and!; try done; lia|done]].
  destruct (before re occ) eqn:Hbe.
  { split; [lia|]. exists seen, (wk_iter k). rewrite Hit. split; [|done]. split_and!; try done; lia. }
  set (keep := keeps master rs re occ).
  assert (∀ kept, reverse kept = (reverse (wk_kept k) ++ if keep then [occ] else [])%list → zlen kept <= max →
    walk_inv master rs re max series aggregate it0 (MkWalk it kept (wk_advances k + 1) b w)) as Hnext.
  { intros kept Hkr Hkm. exists (seen ++ [occ])%list. unfold walked. rewrite zlen_snoc. cbn [wk_iter wk_kept wk_budgets wk_advances].
    split; [|lia]. split_and!; [by eapply run_snoc|lia|lia|lia|lia|by apply Forall_app; split; [|constructor]| |].
    - by rewrite filter_snoc, <-Hkept, Hkr.
    - unfold zlen in *. by rewrite length_reverse. }
  assert (∀ kept : list gtime, zlen (reverse kept) = zlen kept) as Hrev by (intros; unfold zlen; by rewrite length_reverse).
  rewrite Hrev in Hmax.
  assert (keep = negb (before occ (lower_bound master rs)) && negb (bool_decide (unix occ ∈ map unix (exDates master)))
    && occurrence_overlaps master rs re occ) as Hkeep by done.
  rewrite (bool_decide_ext (unix occ ∈ list_to_set _) (unix occ ∈ map unix (exDates master))) by apply elem_of_list_to_set.
  destruct (before occ (lower_bound master rs)); [apply Hnext; [rewrite Hkeep; by rewrite app_nil_r|done]|].
  destruct (bool_decide _); [apply Hnext; [rewrite Hkeep; by rewrite app_nil_r|done]|].
  destruct (occurrence_overlaps master rs re occ); cbn [negb]; [|apply Hnext; [rewrite Hkeep; by rewrite app_nil_r|done]].
  destruct (Z.eqb_spec (zlen (occ :: wk_kept k)) (max + 1)) as [Heq|Hneq].
  - split; [lia|]. exists seen, (wk_iter k). split; [|done]. unfold walked. rewrite Hrev. split_and!; try done; lia.
  - apply Hnext; [by rewrite reverse_cons, Hkeep|]. unfold zlen in *. cbn [length] in *. lia.
Qed.
Lemma walk_rule_ok it0 master rs re max series (w : W) aggregate : 0 <= aggregate → 0 <= max →
  match walk_rule it0 master rs re max series (w, aggregate) with
  | ((w', aggregate'), r) => ∃ b, aggregateRemaining b = aggregate' ∧
      walk_ok master rs re max series aggregate it0 (w', b, r)
  end.
Proof.
  intros Ha Hm. unfold walk_rule. cbn [fst snd]. cbv zeta. fold (lower_bound master rs).
  assert (walk_inv master rs re max series aggregate it0 (MkWalk it0 [] 0 (MkBudgets series aggregate) w)) as Hinit.
  { exists []. split; [|done]. unfold walked, zlen. cbn. split_and!; try lia; [apply run_nil|done|constructor|done]. }
  pose proof (iterate_inv (walk_inv master rs re max series aggregate it0) (walk_ok master rs re max series aggregate it0)
    (walk_turn master rs re (lower_bound master rs) (list_to_set (map unix (exDates master))) max)
    (Z.to_pos (maxRecurrenceExpansionWork + 1)) (MkWalk it0 [] 0 (MkBudgets series aggregate) w)) as Hit.
  destruct (iterate _ _ _) as [k|[[w' b] r]].
  - exists (wk_budgets k). split; [done|]. cbn [walk_ok].
    destruct Hit as (seen & (_ & _ & Hk & Hk0 & _) & _); [done|intros; by apply walk_turn_ok|].
    split; [|done]. unfold zlen in Hk. lia.
  - exists b. split; [done|]. apply Hit; [done|]. intros; by apply walk_turn_ok.
Qed.
End Walk.

(** * The lower bound loses nothing *)

(** Offsets of a zone differ by at most a day. *)
Definition narrow_zone (loc : Location) : Prop :=
  ∀ t u, zoffset (loc_lookup loc t) - zoffset (loc_lookup loc u) <= day_secs.
(** A nominal duration fits [time.Duration] with a day to spare. *)
Definition nominal_fits (master : Event) : Prop :=
  let elapsed := nominalDurationDays master * (24 * hour) + nominalDurationRemainder master in
  hasNominalDuration master = true → 0 <= nominalDurationDays master ∧ 0 <= nominalDurationRemainder master ∧
    elapsed <= max_int64 - 24 * hour.
(** The days of the occurrence, when its length is given in days, last together
    at most a day more than twenty-four hours each: the clock is not put back
    by more than a day while it lasts. *)
Definition days_last (master : Event) (occ : gtime) : Prop :=
  hasNominalDuration master = true →
  instant (add_date 0 0 (nominalDurationDays master) occ)
    <= instant occ + nominalDurationDays master * (24 * hour) + 24 * hour.
Lemma add_days_late n t : narrow_zone (tzone t) →
  instant (add_date 0 0 n t) <= instant t + n * (24 * hour) + 24 * hour.
Proof.
  intros Hz. unfold add_date. cbv zeta. unfold t_civil. rewrite !Z.add_0_r, go_date_local. cbn [instant].
  set (loc := tzone t) in *. set (L := local_secs loc (instant t)).
  assert ((local_day loc (instant t) + n) * day_secs + 0 * 3600 + 0 * 60 + t_clock t = L + n * day_secs) as ->.
  { unfold local_day, t_clock. fold loc L. pose proof (Z.div_mod L day_secs ltac:(done)). lia. }
  assert (∀ u, ∃ v, zone_adjust loc u = u - zoffset (loc_lookup loc v)) as Hadj.
  { intros u. unfold zone_adjust. destruct (Z.eqb_spec (zoffset (loc_lookup loc u)) 0) as [H0|]; [exists u; lia|].
    destruct (_ || _); by eexists. }
  destruct (Hadj (L + n * day_secs)) as [v ->]. specialize (Hz (instant t / second) v).
  unfold L, local_secs. pose proof (Z.div_mod (instant t) second ltac:(done)) as Hd.
  unfold day_secs, hour, minute in *. set (q := instant t / second) in *. set (r := instant t mod second) in *.
  set (o1 := zoffset _) in *. set (o2 := zoffset (loc_lookup loc v)) in *. rewrite Hd. unfold second in *. lia.
Qed.
Lemma overlap_duration_nominal master : nominal_fits master → hasNominalDuration master = true →
  nominalDurationDays master * (24 * hour) + nominalDurationRemainder master + 24 * hour <= overlap_duration master.
Proof.
  intros Hf Hn. destruct (Hf Hn) as (Hd & Hr & He). unfold overlap_duration. rewrite Hn. cbv zeta.
  assert (0 <= nominalDurationDays master * (24 * hour) <= max_int64) as Hp by (unfold hour, minute, second, max_int64 in *; lia).
  rewrite (wrap64_id (nominalDurationDays master * (24 * hour))) by (unfold min_int64; lia).
  rewrite wrap64_id by (unfold min_int64, max_int64, hour, minute, second in *; lia).
  destruct (Z.leb_spec (nominalDurationDays master * (24 * hour) + nominalDurationRemainder master) (max_int64 - 24 * hour)); lia.
Qed.
Lemma narrow_zone_days master occ : narrow_zone (tzone occ) → days_last master occ.
Proof. intros Hz _. by apply add_days_late. Qed.
(** An occurrence that starts before the widened window ends before the range
    starts. *)
Lemma lower_bound_ok master rs re occ : days_last master occ → nominal_fits master →
  occurrence_overlaps master rs re occ = true → before occ (lower_bound master rs) = false.
Proof.
  intros Hz Hf [_ Hov%Z.ltb_lt]%andb_prop. apply Z.ltb_ge. unfold lower_bound. cbn [instant].
  unfold recurrenceOccurrenceEnd in Hov. destruct (hasNominalDuration master) eqn:Hn.
  - pose proof (overlap_duration_nominal master Hf Hn). cbv zeta in Hov. cbn [instant] in Hov.
    pose proof (Hz Hn). lia.
  - cbn [instant] in Hov. unfold overlap_duration. rewrite Hn. cbv zeta. lia.
Qed.

(** * Rows *)

Lemma filter_elem {A} (f : A → bool) l a : a ∈ List.filter f l ↔ f a = true ∧ a ∈ l.
Proof. rewrite !list_elem_of_In, filter_In. tauto. Qed.
Lemma map_elem {A B} (f : A → B) l b : b ∈ map f l ↔ ∃ a, b = f a ∧ a ∈ l.
Proof. by rewrite list_elem_of_fmap. Qed.
Lemma concat_elem {A B} (f : A → list B) l b : b ∈ concat (map f l) ↔ ∃ a, a ∈ l ∧ b ∈ f a.
Proof. rewrite list_elem_of_In, in_concat. setoid_rewrite in_map_iff. setoid_rewrite list_elem_of_In. naive_solver. Qed.

Section Rows.
Context `{MapOrder}.

(** The override of a second is the last one given for it. *)
Lemma override_map_source overrides k ov :
  override_map overrides !! k = Some ov → ∃ o, o ∈ overrides ∧ ov = as_override o ∧ unix (RecurrenceID o) = k.
Proof.
  unfold override_map. induction overrides as [|o l IH] using rev_ind; [done|].
  rewrite fold_left_app. cbn [fold_left]. destruct (decide (unix (RecurrenceID o) = k)) as [Hk|Hk].
  - rewrite Hk, lookup_insert_eq. intros [= <-]. exists o. split; [apply elem_of_app; right; by left|done].
  - rewrite lookup_insert_ne by done. intros (o' & Ho & ?)%IH. exists o'. split; [apply elem_of_app; by left|done].
Qed.
Lemma moved_elem byID used rs re ov :
  ov ∈ moved_overrides byID used rs re ↔ eventOverlaps ov rs re = true ∧ ∃ k, k ∉ used ∧ byID !! k = Some ov.
Proof.
  unfold moved_overrides. rewrite filter_elem, map_elem. setoid_rewrite filter_elem. setoid_rewrite map_order_perm.
  setoid_rewrite map_elem. split; (intros [Hov He]; split; [done|]).
  - destruct He as ([s [k ov']] & -> & Hk & ([k' ov''] & [= -> -> ->] & Hin%elem_of_map_to_list)). exists k'. cbn in *.
    split; [|done]. apply negb_true_iff in Hk. by apply bool_decide_eq_false in Hk.
  - destruct He as (k & Hk & Hl). exists (fmt_int k, (k, ov)). split; [done|]. split.
    + apply negb_true_iff. by apply bool_decide_eq_false.
    + exists (k, ov). split; [done|]. by apply elem_of_map_to_list.
Qed.

(** The row of a kept occurrence, and of an override. *)
Definition row_source (master : Event) (overrides : list Event) (occs : list gtime) (e : Event) : Prop :=
  (∃ occ, occ ∈ occs ∧ override_map overrides !! unix occ = None ∧ e = occurrence master occ)
  ∨ (∃ o, o ∈ overrides ∧ e = as_override o).
Definition rows_complete (master : Event) (overrides : list Event) (rs re : gtime) (occs : list gtime) (rows : list Event) : Prop :=
  (∀ occ, occ ∈ occs → override_map overrides !! unix occ = None → occurrence master occ ∈ rows) ∧
  (∀ k ov, override_map overrides !! k = Some ov → eventOverlaps ov rs re = true → ov ∈ rows).
Lemma rows_spec master overrides rs re occs :
  Forall (λ occ, occurrence_overlaps master rs re occ = true) occs →
  let byID := override_map overrides in
  let used : gset Z := list_to_set (List.filter (λ k, bool_decide (is_Some (byID !! k)))
    (map unix (List.filter (occurrence_overlaps master rs re) occs))) in
  let out := (concat (map (row_of master byID rs re) occs) ++ moved_overrides byID used rs re)%list in
  (∀ e, e ∈ out → eventOverlaps e rs re = true ∧ row_source master overrides occs e) ∧
  rows_complete master overrides rs re occs out.
Proof.
  intros Hocc byID used out. rewrite Forall_forall in Hocc.
  assert (∀ occ e, occ ∈ occs → e ∈ row_of master byID rs re occ → eventOverlaps e rs re = true ∧ row_source master overrides occs e) as Hrow.
  { intros occ e Hin. unfold row_of. rewrite (Hocc occ Hin). cbn [negb]. destruct (byID !! unix occ) as [ov|] eqn:Hb.
    - destruct (eventOverlaps ov rs re) eqn:Ho; [|by intros ?%elem_of_nil]. intros ->%list_elem_of_singleton. split; [done|].
      right. apply override_map_source in Hb as (o & ? & -> & _). by exists o.
    - intros ->%list_elem_of_singleton. split; [by apply Hocc|]. left. by exists occ. }
  split; [|split].
  - intros e [He|He]%elem_of_app.
    + apply concat_elem in He as (occ & Hin & He). by apply (Hrow occ).
    + apply moved_elem in He as (Hov & k & _ & Hk). split; [done|]. right.
      apply override_map_source in Hk as (o & ? & -> & _). by exists o.
  - intros occ Hin Hb. apply elem_of_app. left. apply concat_elem. exists occ. split; [done|]. unfold row_of. fold byID in Hb.
    rewrite (Hocc occ Hin), Hb. by apply list_elem_of_singleton.
  - intros k ov Hk Hov. apply elem_of_app. destruct (decide (k ∈ used)) as [Hu|Hu].
    + left. apply elem_of_list_to_set, filter_elem in Hu as [_ Hu]. apply map_elem in Hu as (occ & -> & [_ Hin]%filter_elem).
      apply concat_elem. exists occ. split; [done|]. unfold row_of. fold byID in Hk. rewrite (Hocc occ Hin), Hk, Hov.
      by apply list_elem_of_singleton.
    + right. apply moved_elem. split; [done|]. by exists k.
Qed.
Lemma assemble_ok master overrides rs re max occs truncated :
  0 <= max → Forall (λ occ, occurrence_overlaps master rs re occ = true) occs →
  let '(rows, cut) := assemble master overrides rs re max occs truncated in
  zlen rows <= max ∧ (∀ e, e ∈ rows → eventOverlaps e rs re = true ∧ row_source master overrides occs e) ∧
  (cut = false → truncated = false ∧ rows_complete master overrides rs re occs rows).
Proof.
  intros Hm Hocc. destruct (rows_spec master overrides rs re occs Hocc) as [Hall Hcomp]. unfold assemble. cbv zeta in *.
  set (out := (_ ++ _)%list) in *. destruct (Z.ltb_spec max (zlen out)) as [Hlt|Hge].
  - split_and!; [unfold zlen; rewrite length_take; lia| |done].
    intros e He. apply Hall. rewrite <-(take_drop (Z.to_nat max) out). apply elem_of_app. by left.
  - split_and!; [done|done|]. intros ->. by split.
Qed.
End Rows.

(** * The expansion *)

Section ExpansionTheorem.
Context {W : Type} `{Ctx W} `{RRuleLib} `{MapOrder} `{UnicodeTables}.

(** The rule the iterator runs. *)
Definition rule_of (master : Event) (it : Iter) : Prop :=
  ∃ parsed, StrToROption (to_upper (Recurrence master)) = Ok parsed ∧
    NewRRule (set_dtstart (StartTime master) (normalizeRecurrenceSelectorLists parsed).1) = Ok it.
(** An occurrence the master keeps and the range meets. *)
Definition selected (master : Event) (rs re occ : gtime) : Prop :=
  unix occ ∉ map unix (exDates master) ∧ occurrence_overlaps master rs re occ = true.
Definition expansion_post (master : Event) (overrides : list Event) (rs re : gtime) (max aggregate aggregate' : Z)
    (rows : list Event) (truncated : bool) : Prop :=
  zlen rows <= max ∧
  ∃ it seen it', rule_of master it ∧ iter_run it seen it' ∧
    zlen seen <= maxRecurrenceExpansionWork ∧ zlen seen <= aggregate - aggregate' ∧
    (∀ e, e ∈ rows → eventOverlaps e rs re = true ∧
      ((∃ occ, occ ∈ seen ∧ selected master rs re occ ∧ override_map overrides !! unix occ = None ∧ e = occurrence master occ)
       ∨ ∃ o, o ∈ overrides ∧ e = as_override o)) ∧
    (truncated = false →
      match (iter_next it').1 with None => True | Some occ => before re occ = true end ∧
      (nominal_fits master → ∀ occ, occ ∈ seen → days_last master occ → selected master rs re occ →
         override_map overrides !! unix occ = None → occurrence master occ ∈ rows) ∧
      (∀ k ov, override_map overrides !! k = Some ov → eventOverlaps ov rs re = true → ov ∈ rows)).

Lemma check_safety_budget o (w : W) aggregate : 0 <= aggregate →
  match check_safety o (w, aggregate) with
  | ((_, aggregate'), r) => 0 <= aggregate' <= aggregate ∧
      match r with Ok (b, _) => aggregateRemaining b = aggregate' | Err _ => True end
  end.
Proof.
  intros Ha. unfold check_safety. cbn [fst snd].
  pose proof (safety_spends o (w, MkBudgets maxRecurrenceExpansionWork aggregate)) as Hs.
  destruct Hs as ((Hs1 & Hs2) & Hs3 & Hs4); [by split|]. cbn [snd] in *.
  destruct (checkRecurrenceSelectorSafety _ _) as [[w1 b] [v|[]]]; cbn [fst snd aggregateRemaining] in *; try done.
  destruct (ctx_Err w1). done.
Qed.
Lemma rule_walk_ok master overrides rs re max it series (w : W) aggregate : 0 <= aggregate → 0 <= max → rule_of master it →
  match walk_rule it master rs re max series (w, aggregate) with
  | ((_, aggregate'), Ok (occs, truncated)) =>
      let '(rows, cut) := assemble master overrides rs re max occs truncated in
      0 <= aggregate' <= aggregate ∧ expansion_post master overrides rs re max aggregate aggregate' rows cut
  | ((_, aggregate'), Err _) => 0 <= aggregate' <= aggregate
  end.
Proof.
  intros Ha Hm Hit. pose proof (walk_rule_ok it master rs re max series w aggregate Ha Hm) as Hw.
  destruct (walk_rule it master rs re max series (w, aggregate)) as [[w' a'] [[occs tr]|e]].
  2: { destruct Hw as (b & <- & [? _]). done. }
  destruct Hw as (b & <- & Hb & seen & it' & (Hrun & _ & Hag & _ & Hn & _ & -> & Hlen) & Hend).
  set (occs := List.filter (keeps master rs re) seen).
  assert (Forall (λ occ, occurrence_overlaps master rs re occ = true) occs) as Hocc.
  { apply Forall_forall. intros occ [[_ ?]%andb_prop _]%filter_elem. done. }
  pose proof (assemble_ok master overrides rs re max occs tr Hm Hocc) as Has.
  destruct (assemble master overrides rs re max occs tr) as [rows cut]. destruct Has as (Hr & Hsrc & Hcomp).
  split; [done|]. split; [done|]. exists it, seen, it'. split_and!; try done; [lia|..].
  - intros e He. destruct (Hsrc e He) as [Ho [(occ & [Hk Hin]%filter_elem & Hnone & ->)|Hov]]; split; try done; [left|by right].
    exists occ. split_and!; try done. unfold selected. apply andb_prop in Hk as [[_ Hex%negb_true_iff]%andb_prop ?].
    by apply bool_decide_eq_false in Hex.
  - intros ->. destruct (Hcomp eq_refl) as [-> [Hc1 Hc2]]. split_and!; [by apply Hend| |done].
    intros Hf occ Hin Hz [Hex Hov] Hnone. apply Hc1; [|done]. apply filter_elem. split; [|done]. unfold keeps.
    rewrite (lower_bound_ok master rs re occ Hz Hf Hov), Hov, bool_decide_eq_false_2 by done. done.
Qed.
Lemma effective_max_range n : 0 < effective_max n <= maxOccurrencesPerSeries.
Proof. unfold effective_max. destruct (Z.leb_spec n 0), (Z.ltb_spec maxOccurrencesPerSeries n); cbn; unfold maxOccurrencesPerSeries in *; lia. Qed.

Definition expansion_result (master : Event) (overrides : list Event) (rs re : gtime) (max aggregate : Z)
    (res : W * Z * result error (list Event * bool)) : Prop :=
  let '((_, aggregate'), r) := res in
  0 <= aggregate' <= aggregate ∧
  match r with
  | Ok (rows, truncated) => expansion_post master overrides rs re max aggregate aggregate' rows truncated
  | Err _ => True
  end.
(** A check before any work leaves the budget alone. *)
Definition free {A} (m : M (W * Z) error A) : Prop := ∀ st, (m st).1.2 = st.2.
Lemma free_poll : free poll_expansion.
Proof. intros [w a]. unfold poll_expansion. cbn [fst]. by destruct (ctx_Err w). Qed.
Lemma free_lift {A} (r : result error A) : free (lift r).
Proof. by intros [w a]. Qed.
Lemma free_fail_if c e : free (fail_if c e).
Proof. intros [w a]. by destruct c. Qed.
Lemma free_bind {A} (m : M (W * Z) error A) f (w : W) aggregate (P : W * Z * result error (list Event * bool) → Prop) :
  free m → (∀ w' e, P ((w', aggregate), Err e)) → (∀ a w', P (f a (w', aggregate))) → P ((m ≫= f) (w, aggregate)).
Proof.
  intros Hm He Hf. specialize (Hm (w, aggregate)). unfold mbind, M_bind.
  destruct (m (w, aggregate)) as [[w' a'] [a|e]]; cbn in Hm; subst a'; [apply Hf|apply He].
Qed.

(** (C10) The expansion of a recurring event.  Whatever rrule-go's iterator
    does, the work charged to a search never exceeds its budget; when the
    expansion answers, at most 100000 occurrences were asked for and at most the
    number of rows requested (2000 when none is) come back.  Every row overlaps
    the range and is either an override given or an occurrence of the rule that
    is neither excluded nor overridden.  When the answer is not marked
    truncated, the iterator was run until it ended or passed the range; every
    override (the last of those for its second) that overlaps the range is a
    row; and so is every occurrence the iterator gave that overlaps the range,
    is not excluded and has no override, however far before the range it
    starts.  For an event whose length is given in days the last part is
    claimed when that length stays a day below what [time.Duration] holds
    ([nominal_fits]) and, for the occurrence, the clock of its zone is not put
    back by more than a day while it lasts ([days_last], which UTC and every
    zone whose offsets differ by at most a day satisfy). *)
Theorem expansion_ok master overrides rs re maxOccurrences (w : W) aggregate :
  Recurrence master ≠ "" → 0 <= aggregate →
  match expandOccurrencesContext master overrides rs re maxOccurrences (w, aggregate) with
  | ((_, aggregate'), r) => 0 <= aggregate' <= aggregate ∧
      match r with
      | Ok (rows, truncated) =>
          expansion_post master overrides rs re (effective_max maxOccurrences) aggregate aggregate' rows truncated
      | Err _ => True
      end
  end.
Proof.
  intros Hrec Ha. change (expansion_result master overrides rs re (effective_max maxOccurrences) aggregate
    (expandOccurrencesContext master overrides rs re maxOccurrences (w, aggregate))).
  pose proof (effective_max_range maxOccurrences) as Hmax. unfold expandOccurrencesContext. cbv zeta.
  assert (∀ (w : W) e, expansion_result master overrides rs re (effective_max maxOccurrences) aggregate (w, aggregate, Err e)) as Herr
    by (by split; [lia|]).
  apply free_bind; [apply free_poll|done|]. intros _ w1. apply free_bind; [apply free_lift|done|]. intros _ w2.
  apply free_bind; [apply free_fail_if|done|]. intros _ w3. apply free_bind; [apply free_lift|done|]. intros _ w4.
  rewrite bool_decide_eq_false_2 by done. destruct (StrToROption _) as [parsed|] eqn:Hparse; [|apply Herr].
  destruct (normalizeRecurrenceSelectorLists parsed) as [o few] eqn:Ho.
  apply free_bind; [apply free_fail_if|done|]. intros _ w5. unfold mbind at 1, M_bind at 1.
  pose proof (check_safety_budget (set_dtstart (StartTime master) o) w5 aggregate Ha) as Hs.
  destruct (check_safety _ _) as [[w6 a6] [[b [me cand]]|e]]; [|by destruct Hs; split]. destruct Hs as [Ha6 Hb].
  unfold fail_if. destruct (_ || _); [by split|]. unfold mbind at 1, M_bind at 1, mret at 1, M_ret at 1.
  destruct (NewRRule _) as [it|e] eqn:Hit; [|by split].
  assert (rule_of master it) as Hrule by (exists parsed; by rewrite Ho).
  pose proof (rule_walk_ok master overrides rs re (effective_max maxOccurrences) it (seriesRemaining b) w6 a6 ltac:(lia) ltac:(lia) Hrule) as Hw.
  unfold mbind, M_bind. destruct (walk_rule _ _ _ _ _ _ _) as [[w8 a8] [[occs tr]|e]]; [|by split; [lia|]].
  cbn [mret M_ret]. destruct (assemble _ _ _ _ _ _ _) as [rows cut]. destruct Hw as (Ha8 & Hlen & it1 & seen & it2 & Hr1 & Hr2 & Hr3 & Hr4 & Hr5).
  split; [lia|]. split; [done|]. exists it1, seen, it2. split_and!; try done; [lia|apply Hr5..].
Qed.
End ExpansionTheorem.

(** * Witnesses *)

Section Demo.
(** A library whose rules are daily and end after ten days. *)
Definition demo_option : ROption :=
  MkROption DAILY (GTime 0 UTC) 1 (MkWeekday 0 0) 10 (GTime zero_time UTC) [] [] [] [] [] [] [] [] [] [].
#[local] Instance demo_rrule : RRuleLib := {|
  StrToROption s := if bool_decide (s = "FREQ=DAILY;COUNT=10") then Ok demo_option else Err "unsupported";
  Iter := list gtime;
  NewRRule o := Ok (map (λ d, add_date 0 0 (Z.of_nat d) (Dtstart o)) (seq 0 10));
  iter_next l := match l with [] => (None, []) | t :: l => (Some t, l) end;
|}.
#[local] Instance demo_poll : Ctx unit := {| ctx_Err w := (w, None) |}.
#[local] Instance demo_order : MapOrder := declared_order.
#[local] Instance demo_unicode : UnicodeTables :=
  {| unicode_lower c := c; unicode_upper c := c; unicode_fold a b := bool_decide (a = b); unicode_print _ := true |}.
(** Day [d] of 2024, at [h] hours. *)
Definition demo_time (d h : Z) : gtime := GTime (go_date 2024 1 d h 0 0 UTC) UTC.
(** A daily meeting that runs past midnight; the second is cancelled. *)
Definition demo_series : Event :=
  MkEvent "u" "/c/u.ics" "/c/" "Watch" "" "" (demo_time 1 22) (demo_time 2 2) false "FREQ=DAILY;COUNT=10" "" "" "" "" ""
    (GTime zero_time UTC) false [demo_time 2 22] false 0 0.
(** The fourth is moved to the afternoon. *)
Definition demo_moved : Event :=
  MkEvent "u" "/c/u.ics" "/c/" "Watch" "" "" (demo_time 4 14) (demo_time 4 16) false "" "" "" "" "" ""
    (demo_time 4 22) false [] false 0 0.
Definition demo_expansion := expandOccurrencesContext demo_series [demo_moved] (demo_time 2 0) (demo_time 5 0) 50 (tt, maxRecurrenceSearchWork).

Lemma expansion_ok_witness :
  Recurrence demo_series ≠ "" ∧ 0 <= maxRecurrenceSearchWork ∧
  (∃ a rows, demo_expansion = ((tt, a), Ok (rows, false)) ∧
     map StartTime rows = [demo_time 1 22; demo_time 3 22; demo_time 4 14]) ∧
  match demo_expansion with
  | ((_, aggregate'), r) => 0 <= aggregate' <= maxRecurrenceSearchWork ∧
      match r with
      | Ok (rows, truncated) =>
          expansion_post demo_series [demo_moved] (demo_time 2 0) (demo_time 5 0) 50 maxRecurrenceSearchWork aggregate' rows truncated
      | Err _ => True
      end
  end.
Proof.
  split; [done|]. split; [done|]. split.
  - eexists _, _. split; vm_compute; reflexivity.
  - exact (expansion_ok demo_series [demo_moved] (demo_time 2 0) (demo_time 5 0) 50 tt maxRecurrenceSearchWork ltac:(done) ltac:(done)).
Defined.

(** The 29th of every 1200th month from February 2000: the next three turns
    of a century have none. *)
Definition demo_leap : ROption :=
  MkROption MONTHLY (GTime (go_date 2000 2 29 9 0 0 UTC) UTC) 1200 (MkWeekday 0 0) 0 (GTime zero_time UTC) [] [2] [29] [] [] [] [] [] [] [].
Definition demo_state : unit * budgets := (tt, MkBudgets maxRecurrenceExpansionWork maxRecurrenceSearchWork).
Lemma dates_live_witness :
  Dtstart demo_leap = GTime (instant (Dtstart demo_leap)) UTC ∧ sub_daily (Freq demo_leap) = false ∧
  hasRecurrenceDateSelectors demo_leap = true ∧
  (checkRecurrenceSelectorSafety demo_leap demo_state).2 = Ok (3, 1) ∧
  let n := normalizeRecurrenceDateDefaults demo_leap in
  match checkRecurrenceSelectorSafety demo_leap demo_state with
  | (_, Ok (m, _)) => 0 <= m ∧ ∀ i, 0 <= i → ∃ k, 0 <= k <= m ∧ period_selects n (i + k) = true
  | (_, Err SelectorsUnreachable) => ∀ i, 0 <= i → period_selects n i = false
  | _ => True
  end.
Proof.
  split; [reflexivity|]. split; [reflexivity|]. split; [reflexivity|]. split; [vm_compute; reflexivity|].
  apply (dates_live demo_leap (instant (Dtstart demo_leap)) demo_state); reflexivity.
Defined.

(** Every forty-five minutes from nine, in the hours nine and seventeen only:
    twenty periods in a row are outside. *)
Definition demo_clock : ROption :=
  MkROption MINUTELY (GTime (go_date 2024 1 1 9 0 0 UTC) UTC) 45 (MkWeekday 0 0) 0 (GTime zero_time UTC) [] [] [] [] [] [] [9; 17] [] [] [].
Lemma clock_live_witness :
  sorted_rule demo_clock ∧ (recurrenceClockSelectorSafety demo_clock demo_state).2 = Ok 20 ∧
  match recurrenceClockSelectorSafety demo_clock demo_state with
  | (_, Ok m) => 0 <= m ∧ ∀ i, 0 <= i → ∃ k, 0 <= k <= m ∧ clock_admits demo_clock (i + k)
  | (_, Err SelectorsUnreachable) => ∀ i, 0 <= i → ¬ clock_admits demo_clock i
  | _ => True
  end.
Proof.
  assert (sorted_rule demo_clock) as Hs by (repeat (constructor; [repeat constructor; by compute|]); constructor).
  split; [exact Hs|]. split; [vm_compute; reflexivity|]. apply (clock_live demo_clock demo_state Hs).
Defined.
End Demo.
