(* ===== verification/EventInput.v ===== *)
(** Writing events (src/internal/icloud/eventvalidate.go, the RRULE checks of
    validation.go, and the time-zone checks of ical.go): the validation every
    creation goes through before any request, its normalised answer, and the
    rule built from structured recurrence fields. *)
From S2P Require Import Prelude GoStrings GoTime GoJson NetUrl CalErrors CalTypes TimePolicy Validation Tools Recurrence.

Definition MaxAlarms : Z := 5.
Definition maxAlarmMinutes : Z := 40320.
Definition AllowedStatus (s : string) : bool := bool_decide (s ∈ [""; "TENTATIVE"; "CONFIRMED"; "CANCELLED"]).
Definition AllowedTransparency (s : string) : bool := bool_decide (s ∈ [""; "OPAQUE"; "TRANSPARENT"]).

Record StructuredRecurrence := MkStructured {
  SrFrequency : string; SrInterval : Z; SrByDay : list string; SrCount : Z; SrUntil : string;
  SrExceptions : list string;
}.
Record EventInput := MkInput {
  InTitle : string; InLocation : string; InNotes : string;
  InStartTime : gtime; InEndTime : gtime;
  InAllDay : bool;
  InTimezone : string; InStatus : string; InTransparency : string; InURL : string;
  InRecurrence : string;
  InStructured : option StructuredRecurrence;
  InAlarms : list AlarmSpec;
  InAlarmMinutes : Z;
  InClientUID : string; InIdempotencyKey : string;
}.
Record NormalizedEvent := MkNormalized {
  NoTitle : string; NoStart : string; NoEnd : string; NoAllDay : bool; NoTimezone : string; NoLocation : string;
  NoNotes : string; NoStatus : string; NoTransparency : string; NoURL : string; NoRecurrence : string;
  NoAlarmMinutes : list Z; NoUID : string;
}.
Record ValidationResult := MkValidation {
  VrOK : bool; VrErrors : list string; VrWarnings : list string; VrNormalized : option NormalizedEvent;
}.

(** * Stable time zones *)

(** [byDayToken]: the weekday and its place in the month, from the end of the
    month when it is the last. *)
Definition byDayToken (t : gtime) : string :=
  let nth := Z.quot (cday (t_civil t) - 1) 7 + 1 in
  let wd := nth_default "" ["SU"; "MO"; "TU"; "WE"; "TH"; "FR"; "SA"] (Z.to_nat (local_weekday (tzone t) (instant t))) in
  if negb (cmonth (t_civil (add_date 0 0 7 t)) =? cmonth (t_civil t)) then "-1" ++ wd else fmt_int nth ++ wd.

(** The second at which the offset stops being [oldOffset], between two
    seconds. *)
Definition transition_turn (loc : Location) (oldOffset : Z) (s : Z * Z) : Z * Z + Z :=
  let '(low, high) := s in
  if 1 <? high - low then
    let mid := low + Z.quot (high - low) 2 in
    inl (if offset_at loc (second * mid) =? oldOffset then (mid, high) else (low, mid))
  else inr high.
Definition findTimezoneTransition (loc : Location) (before after oldOffset : Z) : Z :=
  match iterate (Z.to_pos (after - before + 1)) (transition_turn loc oldOffset) (before, after) with
  | inr high => high
  | inl (_, high) => high
  end.

(** The loop over the hours: the sample, the one before, its offset, and the
    signatures of the changes to less and to more. *)
Record stable_state := MkStable {
  st_sample : Z; st_previous : Z; st_offset : Z; st_less : option string; st_more : option string;
}.
Definition stable_turn (loc : Location) (end_ : Z) (s : stable_state) : stable_state + bool :=
  let sample := st_sample s in
  if end_ <? sample then inr true
  else
    let offset := offset_at loc (second * sample) in
    if offset =? st_offset s then inl (MkStable (sample + 3600) sample (st_offset s) (st_less s) (st_more s))
    else
      let transition := findTimezoneTransition loc (st_previous s) sample (st_offset s) in
      let wall := GTime (second * (transition + st_offset s)) UTC in
      let signature := fmt_int (cmonth (t_civil wall)) ++ "/" ++ byDayToken wall ++ "/" ++ fmt_int (st_offset s)
                       ++ "/" ++ fmt_int offset in
      let increase := st_offset s <? offset in
      let existing := if increase then st_more s else st_less s in
      if bool_decide (is_Some existing) && negb (bool_decide (existing = Some signature)) then inr false
      else inl (MkStable (sample + 3600) sample offset (if increase then st_less s else Some signature)
                  (if increase then Some signature else st_more s)).
(** [loc == time.UTC] is told by the name. *)
Definition is_utc (loc : Location) : bool := bool_decide (loc_name loc = "UTC").
(** The hours of six years bound the loop: its last case is not reached. *)
Definition recurringTimezoneStable (loc : option Location) (from : gtime) : bool :=
  match loc with
  | None => true
  | Some loc =>
      if is_utc loc then true
      else
        let utc := GTime (instant from) UTC in
        let start := unix (add_date (-1) 0 0 utc) in
        let end_ := unix (add_date 5 0 0 utc) in
        match iterate (Z.to_pos (Z.max 0 (end_ - start) + 2)) (stable_turn loc end_)
                (MkStable (start + 3600) start (offset_at loc (second * start)) None None) with
        | inr b => b
        | inl _ => true
        end
  end.

(** * Rules *)

(** The names [Frequency.String] gives. *)
Definition freq_name (f : Frequency) : string :=
  match f with
  | YEARLY => "YEARLY" | MONTHLY => "MONTHLY" | WEEKLY => "WEEKLY" | DAILY => "DAILY"
  | HOURLY => "HOURLY" | MINUTELY => "MINUTELY" | SECONDLY => "SECONDLY"
  end.

Section Rules.
Context `{RRuleLib} `{UnicodeTables}.

Definition invalid_rule {A} (r : result string A) : result error A :=
  match r with Ok a => Ok a | Err msg => Err (Wrapped "invalid RRULE: " (Plain msg)) end.
Definition has_bound (o : ROption) : bool := (0 <? Count o) || negb (is_zero (instant (Until o))).
Definition ordinal_days (o : ROption) : bool := existsb (λ s, negb (WdN s =? 0)) (Byweekday o).

Definition ValidateRRULE (rule : string) : result error unit :=
  let rule := trim_space rule in
  reject bool_decide (rule = "") with Plain "RRULE cannot be empty" ;;
  reject 1024 <? len rule with Plain "RRULE is too long (max 1024 UTF-8 bytes)" ;;
  reject has_prefix (to_upper rule) "RRULE:"
    with Plain "RRULE must not include the RRULE: prefix; pass only the value (e.g. FREQ=WEEKLY;COUNT=10)" ;;
  parsed ← invalid_rule (StrToROption (to_upper rule));
  let '(o, few) := normalizeRecurrenceSelectorLists parsed in
  reject negb few with Plain "RRULE has excessive selector cardinality" ;;
  reject negb (zlen (Byeaster o) =? 0) with Plain "RRULE BYEASTER is not supported" ;;
  reject ordinal_days o && negb (bool_decide (Freq o = YEARLY)) && negb (bool_decide (Freq o = MONTHLY))
    with Plain "RRULE ordinal BYDAY is supported only for MONTHLY or YEARLY frequency" ;;
  reject sub_daily (Freq o) && hasRecurrenceDateSelectors o
    with Plain "RRULE calendar selectors are not supported with sub-daily frequency" ;;
  _ ← invalid_rule (NewRRule o);
  reject (bool_decide (Freq o = SECONDLY) || bool_decide (Freq o = MINUTELY)) && negb (has_bound o)
    with Plain ("RRULE with FREQ=" ++ freq_name (Freq o)
                ++ " requires COUNT or UNTIL (unbounded high-frequency series rejected)") ;;
  reject bool_decide (Freq o = HOURLY) && negb (has_bound o)
    with Plain "RRULE with FREQ=HOURLY requires COUNT or UNTIL" ;;
  Ok tt.

(** [UNTIL] in UTC. *)
Definition until_text (t : gtime) : string :=
  let c := local_civil UTC (instant t) in
  let secs := local_secs UTC (instant t) mod day_secs in
  str (append_int (cyear c) 4 ++ append_int (cmonth c) 2 ++ append_int (cday c) 2 ++ ["T"%char]
       ++ append_int (secs / 3600) 2 ++ append_int (secs / 60 mod 60) 2 ++ append_int (secs mod 60) 2 ++ ["Z"%char])%list.
Definition week_days : list string := ["MO"; "TU"; "WE"; "TH"; "FR"; "SA"; "SU"].
Definition until_part (s : StructuredRecurrence) (defaultLoc : option Location) : result error (list string) :=
  if bool_decide (SrUntil s = "") then Ok []
  else match ParseDateTime "until" (SrUntil s) defaultLoc with
       | Ok t => Ok ["UNTIL=" ++ until_text t]
       | Err e => match parse_day (SrUntil s) with
                  | Some t => Ok ["UNTIL=" ++ until_text t]
                  | None => Err (Wrapped "invalid recurrence until: " e)
                  end
       end.
Definition exception_times (s : StructuredRecurrence) (defaultLoc : option Location) : result error (list gtime) :=
  fold_res (λ ex e, match ParseDateTime "exception" e defaultLoc with
                    | Ok t => Ok (ex ++ [t])%list
                    | Err e => Err (Wrapped "invalid recurrence exception: " e)
                    end) (SrExceptions s) [].
Definition structuredToRRULE (s : option StructuredRecurrence) (defaultLoc : option Location)
    : result error (string * list gtime) :=
  match s with
  | None => Ok ("", [])
  | Some s =>
      let freq := to_upper (trim_space (SrFrequency s)) in
      reject negb (bool_decide (freq ∈ ["DAILY"; "WEEKLY"; "MONTHLY"; "YEARLY"]))
        with Plain "recurrence frequency must be daily, weekly, monthly, or yearly" ;;
      reject SrInterval s <? 0 with Plain "recurrence interval cannot be negative" ;;
      let interval := if SrInterval s =? 0 then 1 else SrInterval s in
      reject 366 <? interval with Plain "recurrence interval too large (max 366)" ;;
      reject (0 <? SrCount s) && negb (bool_decide (SrUntil s = ""))
        with Plain "recurrence cannot set both count and until" ;;
      reject (SrCount s <? 0) || (2000 <? SrCount s) with Plain "recurrence count must be between 1 and 2000" ;;
      _ ← fold_res (λ _ d, reject negb (bool_decide (to_upper (trim_space d) ∈ week_days))
                             with Plain ("invalid by_day " ++ fmt_quote d) ;; Ok tt) (SrByDay s) tt;
      until ← until_part s defaultLoc;
      ex ← exception_times s defaultLoc;
      let parts := ([("FREQ=" ++ freq)%string]
        ++ (if (1 <? interval)%Z then [("INTERVAL=" ++ fmt_int interval)%string] else [])
        ++ (if (0 <? zlen (SrByDay s))%Z then [("BYDAY=" ++ to_upper (join (SrByDay s) ","))%string] else [])
        ++ (if (0 <? SrCount s)%Z then [("COUNT=" ++ fmt_int (SrCount s))%string] else [])
        ++ until)%list in
      let rule := join parts ";" in
      _ ← ValidateRRULE rule;
      Ok (rule, ex)
  end.

(** * Fields *)

Definition collectAlarms (i : EventInput) : list Z :=
  ((if (0 <? InAlarmMinutes i)%Z then [InAlarmMinutes i] else [])
   ++ map MinutesBefore (List.filter (λ a, negb (AlarmDisable a) && (0 <? MinutesBefore a)) (InAlarms i)))%list.
Definition validateEventURL (raw : string) : result error unit :=
  reject MaxURLLen <? len raw with Plain ("url too long (max " ++ fmt_int MaxURLLen ++ " UTF-8 bytes)") ;;
  match NetUrl.Parse raw with
  | None => Err (Plain "invalid url")
  | Some u =>
      let scheme := to_lower (NetUrl.Scheme u) in
      reject negb (bool_decide (scheme = "http")) && negb (bool_decide (scheme = "https"))
        with Plain "url scheme must be http or https" ;;
      reject bool_decide (NetUrl.UrlHost u = "") with Plain "url must include a host" ;;
      Ok tt
  end.
Definition ValidateEventUpdateFields (up : EventUpdate) : result error unit :=
  reject match UpStatus up with Some s => negb (AllowedStatus (to_upper (trim_space s))) | None => false end
    with Plain "status must be one of TENTATIVE, CONFIRMED, CANCELLED" ;;
  reject match UpTransparency up with Some s => negb (AllowedTransparency (to_upper (trim_space s))) | None => false end
    with Plain "transparency must be OPAQUE or TRANSPARENT" ;;
  match UpURL up with
  | Some u => if bool_decide (u = "") then Ok tt else validateEventURL u
  | None => Ok tt
  end.
Definition NormalizeEventUpdateFields (up : EventUpdate) : EventUpdate :=
  let upper := option_map (λ s, to_upper (trim_space s)) in
  MkEventUpdate (UpTitle up) (UpLocation up) (UpNotes up) (UpStartTime up) (UpEndTime up) (upper (UpStatus up))
    (upper (UpTransparency up)) (UpURL up) (UpScope up) (UpRecurrenceID up) (UpIfMatchETag up).

(** * Validation of an input *)

Definition err_texts {A} (r : result error A) : list string :=
  match r with Ok _ => [] | Err e => [error_text e] end.
Definition when_text (b : bool) (s : string) : list string := if b then [s] else [].

(** The rule to write, the errors and the warnings of the recurrence fields. *)
Definition recurrence_of (i : EventInput) (defaultLoc : option Location) : string * list string * list string :=
  let rrule := trim_space (InRecurrence i) in
  match InStructured i with
  | None => (rrule, [], [])
  | Some s =>
      match structuredToRRULE (Some s) defaultLoc with
      | Err e => (rrule, [error_text e], [])
      | Ok (built, ex) =>
          (built,
           when_text (negb (bool_decide (rrule = "")) && negb (bool_decide (rrule = built)))
             "cannot supply both rrule and structured recurrence with different values",
           when_text (0 <? zlen ex) (fmt_int (zlen ex) ++ " exception date(s) will be written as EXDATE"))
      end
  end.
Definition uid_errors (name uid : string) : list string :=
  if bool_decide (uid = "") then []
  else match ValidateUID uid with Ok _ => [] | Err e => [name ++ ": " ++ error_text e] end.
Definition alarm_errors (alarms : list Z) : list string :=
  (when_text (MaxAlarms <? zlen alarms)%Z ("at most " ++ fmt_int MaxAlarms ++ " alarms allowed")%string
   ++ concat (map (λ a, when_text ((a <? 0) || (maxAlarmMinutes <? a))%Z
        ("alarm minutes_before must be between 0 and " ++ fmt_int maxAlarmMinutes)%string) alarms))%list.

Section Input.
Context {W : Type} `{Ctx W}.
(** [time.LoadLocation]. *)
Context (load_location : string → option Location).

(** The safety check, with budgets of its own. *)
Definition selector_verdict (o : ROption) : M W error unit := λ w,
  let '((w, _), r) := checkRecurrenceSelectorSafety o (w, MkBudgets maxRecurrenceExpansionWork maxRecurrenceSearchWork) in
  (w, match r with
      | Ok _ => Ok tt
      | Err SelectorsCanceled => Err (Plain "RRULE selector validation was canceled")
      | Err SelectorsUnsupported => Err (Plain "RRULE uses an unsupported unsafe selector combination")
      | Err SelectorsUnreachable => Err (Plain "RRULE has selectors that INTERVAL can never reach from DTSTART")
      | Err SelectorsExcessive => Err (Plain "RRULE requires excessive internal selector work")
      end).
Definition validateRRULEForStartContext (rule : string) (start : gtime) : M W error unit :=
  lift (ValidateRRULE rule);;
  parsed ← lift (invalid_rule (StrToROption (to_upper (trim_space rule))));
  let '(o, few) := normalizeRecurrenceSelectorLists parsed in
  fail_if (negb few) (Plain "RRULE has excessive selector cardinality");;
  selector_verdict (set_dtstart start o).
(** The location recurring times are written in: [None] for an unknown name,
    [Some None] for no location. *)
Definition write_location (i : EventInput) (defaultLoc : option Location) : option (option Location) :=
  if bool_decide (InTimezone i = "") then Some defaultLoc else Some <$> load_location (InTimezone i).
Definition rule_errors (rrule : string) (i : EventInput) (defaultLoc : option Location) (w : W) : W * list string :=
  if bool_decide (rrule = "") then (w, [])
  else
    let '(w, r) := validateRRULEForStartContext rrule (InStartTime i) w in
    (w, (err_texts r ++ when_text (negb (InAllDay i)
           && negb (recurringTimezoneStable (default None (write_location i defaultLoc)) (InStartTime i)))
           "timezone does not have a stable annual transition rule for recurring writes")%list).
Definition field_errors (i : EventInput) : list string :=
  (err_texts (ValidateTextField "title" (InTitle i) MaxTitleLen)
   ++ when_text (bool_decide (trim_space (InTitle i) = "")) "title cannot be empty"
   ++ err_texts (ValidateTextField "location" (InLocation i) MaxLocationLen)
   ++ err_texts (ValidateTextField "notes" (InNotes i) MaxNotesLen)
   ++ (if is_zero (instant (InStartTime i)) || is_zero (instant (InEndTime i))
       then ["start and end are required"] else err_texts (ValidateRange (InStartTime i) (InEndTime i)))
   ++ when_text (negb (AllowedStatus (to_upper (trim_space (InStatus i)))))
        "status must be one of TENTATIVE, CONFIRMED, CANCELLED"
   ++ when_text (negb (AllowedTransparency (to_upper (trim_space (InTransparency i)))))
        "transparency must be OPAQUE or TRANSPARENT"
   ++ (if bool_decide (InURL i = "") then [] else err_texts (validateEventURL (InURL i))))%list.
Definition normalized (i : EventInput) (defaultLoc : option Location) (rrule : string) : NormalizedEvent :=
  let tz := if bool_decide (InTimezone i = "")
            then match defaultLoc with Some loc => loc_name loc | None => "" end else InTimezone i in
  let uid := if bool_decide (InClientUID i = "") then InIdempotencyKey i else InClientUID i in
  MkNormalized (InTitle i) (FormatEventTime (InStartTime i) (InAllDay i) defaultLoc)
    (FormatEventTime (InEndTime i) (InAllDay i) defaultLoc) (InAllDay i) tz (InLocation i) (InNotes i)
    (to_upper (trim_space (InStatus i))) (to_upper (trim_space (InTransparency i))) (InURL i) rrule (collectAlarms i) uid.

Definition ValidateEventInputContext (i : EventInput) (defaultLoc : option Location) (w : W) : W * ValidationResult :=
  let '(rrule, structured, warnings) := recurrence_of i defaultLoc in
  let '(w, rule) := rule_errors rrule i defaultLoc w in
  let errs := (field_errors i
    ++ when_text (negb (bool_decide (is_Some (write_location i defaultLoc)))) "invalid timezone"
    ++ structured ++ rule
    ++ uid_errors "client uid" (InClientUID i) ++ uid_errors "idempotency_key" (InIdempotencyKey i)
    ++ alarm_errors (collectAlarms i))%list in
  let dst := AmbiguousDSTWarning (InStartTime i) defaultLoc in
  let warnings := (warnings ++ when_text (negb (bool_decide (dst = ""))) dst)%list in
  let ok := zlen errs =? 0 in
  (w, MkValidation ok errs warnings (if ok then Some (normalized i defaultLoc rrule) else None)).
End Input.
End Rules.

(** * The search for a transition *)

(** The bisection ends on the first second with a new offset, when the
    interval starts with the old one and ends with another. *)
Lemma findTimezoneTransition_spec loc before after old :
  before < after → offset_at loc (second * before) = old → offset_at loc (second * after) ≠ old →
  let h := findTimezoneTransition loc before after old in
  before < h <= after ∧ offset_at loc (second * (h - 1)) = old ∧ offset_at loc (second * h) ≠ old.
Proof.
  intros Hba Hb Ha. cbv zeta. unfold findTimezoneTransition.
  pose (P := λ s : Z * Z, before <= s.1 < s.2 ∧ s.2 <= after ∧ offset_at loc (second * s.1) = old ∧ offset_at loc (second * s.2) ≠ old).
  pose (Q := λ h, before < h <= after ∧ offset_at loc (second * (h - 1)) = old ∧ offset_at loc (second * h) ≠ old).
  assert (∀ s, P s → match transition_turn loc old s with inl s' => P s' | inr h => Q h end) as Hstep.
  { intros [l h] (Hl & Hh & Hol & Hoh). cbn [fst snd] in *. unfold transition_turn. destruct (Z.ltb_spec 1 (h - l)) as [Hlt|Hge].
    - rewrite Z.quot_div_nonneg by lia. pose proof (Z.div_mod (h - l) 2). pose proof (Z.mod_pos_bound (h - l) 2).
      destruct (Z.eqb_spec (offset_at loc (second * (l + (h - l) / 2))) old); unfold P; cbn [fst snd]; split_and!; try done; lia.
    - assert (l = h - 1) as -> by lia. unfold Q. split_and!; try done; lia. }
  assert (P (before, after)) as H0 by (unfold P; cbn; split_and!; done || lia).
  pose proof (iterate_inv P Q (transition_turn loc old) (Z.to_pos (after - before + 1)) _ H0 Hstep) as Hit.
  destruct (iterate _ _ _) as [s|h] eqn:Hr; [exfalso|exact Hit].
  pose proof (iterate_measure (λ s : Z * Z, s.2 - s.1) (transition_turn loc old) (Z.to_pos (after - before + 1)) (before, after) s) as Hm.
  cbn [fst snd] in Hm. rewrite Z2Pos.id in Hm by lia. destruct Hit as (Hs & _).
  assert (s.2 - s.1 + (after - before + 1) <= after - before); [apply Hm; [|done]|lia].
  intros [l h] s'. unfold transition_turn. destruct (Z.ltb_spec 1 (h - l)) as [Hlt|]; [|done].
  rewrite Z.quot_div_nonneg by lia. pose proof (Z.div_mod (h - l) 2). pose proof (Z.mod_pos_bound (h - l) 2).
  intros [= <-]. destruct (_ =? _); cbn [fst snd]; lia.
Qed.
(** The hours bound the walk over the six years. *)
Lemma stable_loop_ends loc start end_ s :
  st_sample s = start + 3600 →
  ∃ b, iterate (Z.to_pos (Z.max 0 (end_ - start) + 2)) (stable_turn loc end_) s = inr b.
Proof.
  intros Hs. destruct (iterate _ _ _) as [s'|b] eqn:Hr; [exfalso|by eexists].
  assert (∀ s s', stable_turn loc end_ s = inl s' → st_sample s' = st_sample s + 3600 ∧ st_sample s <= end_) as Hstep.
  { intros t t'. unfold stable_turn. destruct (Z.ltb_spec end_ (st_sample t)); [done|]. cbv zeta.
    destruct (_ =? _); [by intros [= <-]|]. destruct (_ && _); [done|]. by intros [= <-]. }
  pose proof (iterate_measure (λ s, Z.max 0 (end_ + 3600 - st_sample s)) (stable_turn loc end_) _ _ _
    (λ s s' H, ltac:(apply Hstep in H; cbv beta; lia)) Hr) as Hm.
  cbv beta in Hm. rewrite Z2Pos.id in Hm by lia. lia.
Qed.

(** * Recurrence *)

Section RuleFacts.
Context `{RRuleLib} `{UnicodeTables}.

(** A structured recurrence that is accepted: bounded, with one exclusion per
    exception, and its rule is one [ValidateRRULE] accepts. *)
Lemma structured_rule_ok s defaultLoc rule ex :
  structuredToRRULE (Some s) defaultLoc = Ok (rule, ex) →
  ValidateRRULE rule = Ok tt ∧ 0 <= SrInterval s <= 366 ∧ 0 <= SrCount s <= 2000 ∧ (SrCount s = 0 ∨ SrUntil s = "") ∧
  Forall (λ d, to_upper (trim_space d) ∈ week_days) (SrByDay s) ∧ length ex = length (SrExceptions s).
Proof.
  unfold structuredToRRULE. cbv zeta. destruct (negb _); [done|]. destruct (Z.ltb_spec (SrInterval s) 0); [done|].
  destruct (Z.ltb_spec 366 (if SrInterval s =? 0 then 1 else SrInterval s)) as [|Hi]; [done|].
  destruct ((0 <? SrCount s) && _) eqn:Hcu; [done|].
  destruct ((SrCount s <? 0) || _) eqn:Hc; [done|]. apply orb_false_elim in Hc as [?%Z.ltb_ge ?%Z.ltb_ge].
  cbn [mbind result_bind]. destruct (fold_res _ (SrByDay s) tt) as [[]|e] eqn:Hdays; [|done]. cbn [mbind result_bind].
  destruct (until_part s defaultLoc) as [until|e]; [|done]. cbn [mbind result_bind].
  destruct (exception_times s defaultLoc) as [l|e] eqn:Hex; [|done]. cbn [mbind result_bind].
  destruct (ValidateRRULE _) as [[]|e] eqn:Hv; [|done]. intros [= <- <-]. split; [exact Hv|].
  split; [destruct (Z.eqb_spec (SrInterval s) 0); lia|]. split; [lia|]. split.
  { destruct (Z.ltb_spec 0 (SrCount s)); [right|left; lia]. cbn in Hcu. apply negb_false_iff in Hcu.
    by apply bool_decide_eq_true in Hcu. }
  split.
  - clear -Hdays. induction (SrByDay s) as [|d l IH]; [constructor|]. cbn [fold_res] in Hdays.
    destruct (bool_decide _) eqn:Hd; cbn in Hdays; [|done]. constructor; [by apply bool_decide_eq_true in Hd|by apply IH].
  - clear -Hex. unfold exception_times in Hex.
    assert (∀ l acc out, fold_res (λ ex e, match ParseDateTime "exception" e defaultLoc with
      | Ok t => Ok (ex ++ [t])%list | Err e => Err (Wrapped "invalid recurrence exception: " e) end) l acc = Ok out →
      length out = (length acc + length l)%nat) as Hgen.
    { clear. induction l as [|e l IH]; intros acc out; cbn [fold_res]; [intros [= <-]; simpl; lia|].
      destruct (ParseDateTime _ _ _); [|done]. cbn. intros Hr%IH. rewrite length_app in Hr. cbn in *. lia. }
    apply Hgen in Hex. by rewrite Hex.
Qed.
End RuleFacts.

(** Clearing an update's fields or setting them: after normalisation a status
    is one of the allowed words. *)
Lemma update_fields_ok `{UnicodeTables} up s : ValidateEventUpdateFields up = Ok tt →
  UpStatus (NormalizeEventUpdateFields up) = Some s → AllowedStatus s = true.
Proof.
  unfold ValidateEventUpdateFields, NormalizeEventUpdateFields. cbn [UpStatus]. destruct (UpStatus up) as [t|]; [|done].
  intros Hv [= <-]. destruct (AllowedStatus _); [done|]. done.
Qed.

(** * What a validated event is *)

Section InputFacts.
Context {W : Type} `{Ctx W} `{RRuleLib} `{UnicodeTables}.
Context (load_location : string → option Location).

Definition text_within (s : string) (max : Z) : Prop := len s <= max ∧ "000"%char ∉ bytes s.
Definition web_url (s : string) : Prop :=
  len s <= MaxURLLen ∧ ∃ u, NetUrl.Parse s = Some u ∧
    (to_lower (NetUrl.Scheme u) = "http" ∨ to_lower (NetUrl.Scheme u) = "https") ∧ NetUrl.UrlHost u ≠ "".
(** The rule, as the library parses it, with the start it will have. *)
Definition accepted_rule (rule : string) (start : gtime) : Prop :=
  ValidateRRULE rule = Ok tt ∧ ∃ parsed m, StrToROption (to_upper (trim_space rule)) = Ok parsed ∧
    rule_live (set_dtstart start (normalizeRecurrenceSelectorLists parsed).1) m.
Definition optional (P : string → Prop) (s : string) : Prop := s = "" ∨ P s.
Definition writable (i : EventInput) (n : NormalizedEvent) : Prop :=
  text_within (InTitle i) MaxTitleLen ∧ trim_space (InTitle i) ≠ "" ∧
  text_within (InLocation i) MaxLocationLen ∧ text_within (InNotes i) MaxNotesLen ∧
  instant (InStartTime i) < instant (InEndTime i) ∧
  instant (InEndTime i) - instant (InStartTime i) <= MaxRangeDays * 24 * hour ∧
  NoStatus n ∈ [""; "TENTATIVE"; "CONFIRMED"; "CANCELLED"] ∧ NoTransparency n ∈ [""; "OPAQUE"; "TRANSPARENT"] ∧
  optional web_url (InURL i) ∧ (InTimezone i = "" ∨ is_Some (load_location (InTimezone i))) ∧
  optional (λ r, accepted_rule r (InStartTime i)) (NoRecurrence n) ∧
  optional (λ u, ValidateUID u = Ok tt) (InClientUID i) ∧ optional (λ u, ValidateUID u = Ok tt) (InIdempotencyKey i) ∧
  zlen (NoAlarmMinutes n) <= MaxAlarms ∧ Forall (λ a, 0 < a <= maxAlarmMinutes) (NoAlarmMinutes n).

Lemma err_texts_nil {A} (r : result error A) : err_texts r = [] → ∃ a, r = Ok a.
Proof. destruct r; [by eexists|done]. Qed.
Lemma when_text_nil b s : when_text b s = [] → b = false.
Proof. by destruct b. Qed.
Lemma text_field_within name s max u : ValidateTextField name s max = Ok u → text_within s max.
Proof.
  unfold ValidateTextField. destruct (Z.ltb_spec max (len s)); [done|]. destruct (contains_any s _) eqn:Hc; [done|].
  intros _. split; [done|]. intros Hin. apply (proj1 (contains_any_false _ _) Hc _ Hin). by left.
Qed.
Lemma event_url_ok s u : validateEventURL s = Ok u → web_url s.
Proof.
  unfold validateEventURL. destruct (Z.ltb_spec MaxURLLen (len s)); [done|]. destruct (NetUrl.Parse s) as [v|] eqn:Hp; [|done].
  cbv zeta. destruct (bool_decide_reflect (to_lower (NetUrl.Scheme v) = "http")) as [Hs|Hs];
    destruct (bool_decide_reflect (to_lower (NetUrl.Scheme v) = "https")) as [Hs'|Hs']; cbn [negb andb]; try done;
    (case_bool_decide as Hh; [done|]); intros _; (split; [done|]); exists v; auto.
Qed.
Lemma range_ok s e u : ValidateRange s e = Ok u →
  instant s < instant e ∧ instant e - instant s <= MaxRangeDays * 24 * hour.
Proof.
  unfold ValidateRange. destruct (Z.ltb_spec (instant s) (instant e)); [|done]. cbn [negb].
  destruct (Z.ltb_spec (MaxRangeDays * 24 * hour) (time_sub (instant e) (instant s))) as [|Hle]; [done|]. intros _. split; [done|].
  unfold time_sub, MaxRangeDays, hour, minute, second, max_int64, min_int64 in *. lia.
Qed.
Lemma rule_accepted rule start (w w' : W) :
  validateRRULEForStartContext rule start w = (w', Ok tt) → accepted_rule rule start.
Proof.
  unfold validateRRULEForStartContext, mbind, M_bind. cbn [lift]. destruct (ValidateRRULE rule) as [[]|] eqn:Hv; [|done].
  destruct (StrToROption _) as [parsed|] eqn:Hp; [|done]. cbn [invalid_rule lift].
  destruct (normalizeRecurrenceSelectorLists parsed) as [o few] eqn:Ho. destruct few; [|done]. cbn [negb fail_if mret M_ret].
  unfold selector_verdict. destruct (checkRecurrenceSelectorSafety _ _) as [[w1 b] [[m c]|[]]] eqn:Hc; try done. intros _.
  split; [done|]. exists parsed, m. split; [done|]. rewrite Ho. eapply safe_rule_live; [|exact Hc].
  pose proof (normalized_sorted parsed) as Hs. rewrite Ho in Hs. exact Hs.
Qed.
Lemma rule_errors_nil rrule i defaultLoc (w w' : W) :
  rule_errors load_location rrule i defaultLoc w = (w', []) → optional (λ r, accepted_rule r (InStartTime i)) rrule.
Proof.
  unfold rule_errors. case_bool_decide as Hr; [by left|]. destruct (validateRRULEForStartContext _ _ w) as [w1 r] eqn:Hv.
  intros [= <- He%app_eq_nil]. destruct He as [He _]. apply err_texts_nil in He as [[] ->]. right. by eapply rule_accepted.
Qed.
Lemma uid_errors_nil name uid : uid_errors name uid = [] → optional (λ u, ValidateUID u = Ok tt) uid.
Proof. unfold uid_errors. case_bool_decide; [by left|]. destruct (ValidateUID uid) as [[]|] eqn:Hu; [by right|done]. Qed.
Lemma alarm_errors_nil i : alarm_errors (collectAlarms i) = [] →
  zlen (collectAlarms i) <= MaxAlarms ∧ Forall (λ a, 0 < a <= maxAlarmMinutes) (collectAlarms i).
Proof.
  unfold alarm_errors. intros [Hn%when_text_nil Ha]%app_eq_nil. split; [by apply Z.ltb_ge|].
  assert (Forall (λ a, 0 < a) (collectAlarms i)) as Hpos.
  { unfold collectAlarms. apply Forall_app. split; [destruct (Z.ltb_spec 0 (InAlarmMinutes i)); by repeat constructor|].
    apply Forall_forall. intros a (x & -> & [[_ Hx%Z.ltb_lt]%andb_prop _]%filter_elem)%map_elem. done. }
  induction (collectAlarms i) as [|a l IH]; [constructor|]. cbn in Ha, Hn. apply app_eq_nil in Ha as [Ha Hl].
  apply Forall_cons in Hpos as [Hp Hpos]. constructor; [|apply IH; [|done|done]].
  - apply when_text_nil, orb_false_elim in Ha as [_ ?%Z.ltb_ge]. lia.
  - apply Z.ltb_ge. apply Z.ltb_ge in Hn. unfold zlen in *. cbn [length] in Hn. lia.
Qed.
Lemma field_errors_nil i : field_errors i = [] →
  text_within (InTitle i) MaxTitleLen ∧ trim_space (InTitle i) ≠ "" ∧
  text_within (InLocation i) MaxLocationLen ∧ text_within (InNotes i) MaxNotesLen ∧
  (instant (InStartTime i) < instant (InEndTime i) ∧
   instant (InEndTime i) - instant (InStartTime i) <= MaxRangeDays * 24 * hour) ∧
  to_upper (trim_space (InStatus i)) ∈ [""; "TENTATIVE"; "CONFIRMED"; "CANCELLED"] ∧
  to_upper (trim_space (InTransparency i)) ∈ [""; "OPAQUE"; "TRANSPARENT"] ∧ optional web_url (InURL i).
Proof.
  unfold field_errors. intros [E1 [E2%when_text_nil [E3 [E4 [E5 [E6%when_text_nil [E7%when_text_nil E8]%app_eq_nil]%app_eq_nil]%app_eq_nil]%app_eq_nil]%app_eq_nil]%app_eq_nil]%app_eq_nil.
  apply err_texts_nil in E1 as [? E1%text_field_within], E3 as [? E3%text_field_within], E4 as [? E4%text_field_within].
  apply bool_decide_eq_false in E2. apply negb_false_iff, bool_decide_eq_true in E6, E7.
  destruct (is_zero _ || is_zero _); [done|]. apply err_texts_nil in E5 as [? E5%range_ok].
  split_and!; try done; [apply E5|apply E5|].
  case_bool_decide; [by left|]. right. apply err_texts_nil in E8 as [? E8]. by eapply event_url_ok.
Qed.

Lemma validated_writable i defaultLoc (w w' : W) res :
  ValidateEventInputContext load_location i defaultLoc w = (w', res) → VrOK res = true →
  VrErrors res = [] ∧ ∃ n, VrNormalized res = Some n ∧ writable i n.
Proof.
  unfold ValidateEventInputContext. destruct (recurrence_of i defaultLoc) as [[rrule structured] warnings].
  destruct (rule_errors load_location rrule i defaultLoc w) as [w1 rule] eqn:Hrule. intros [= <- <-]. cbn [VrOK VrErrors VrNormalized].
  set (errs := (field_errors i ++ _)%list). intros Hok. rewrite Hok.
  assert (errs = []) as He by (apply zlen_zero; apply Z.eqb_eq in Hok; lia).
  split; [done|]. eexists. split; [reflexivity|]. unfold errs in He.
  apply app_eq_nil in He as [(E1 & E2 & E3 & E4 & E5 & E6 & E7 & E8)%field_errors_nil He].
  apply app_eq_nil in He as [Htz%when_text_nil He]. apply app_eq_nil in He as [_ He]. apply app_eq_nil in He as [-> He].
  apply app_eq_nil in He as [Hc%uid_errors_nil He]. apply app_eq_nil in He as [Hi%uid_errors_nil Ha%alarm_errors_nil].
  apply rule_errors_nil in Hrule. unfold writable, normalized. cbn [NoStatus NoTransparency NoRecurrence NoAlarmMinutes].
  split_and!; try done; [apply E5|apply E5| |apply Ha|apply Ha].
  apply negb_false_iff, bool_decide_eq_true in Htz. unfold write_location in Htz. case_bool_decide; [by left|]. right.
  destruct (load_location _); [by eexists|by destruct Htz].
Qed.
(** (C11) What the validation promises.  When [ValidateEventInputContext]
    accepts an event, there is no error and a normalised event, and the input
    is writable: a title that is not blank and texts within their byte limits
    without NUL, an end after the start and within 366 days, a known status
    and transparency once trimmed and upper-cased, an http or https URL with a
    host, a time zone that loads, identifiers that are valid, at most
    five alarms, none earlier than four weeks; and the rule to be written, typed or built
    from structured fields, is one [ValidateRRULE] accepts.  Its selectors are
    not a trap for rrule-go ([rule_live]): those of an hourly, minutely or
    secondly rule have no date part and the clock meets them again and again
    from the start; the date selectors of any other rule are met again and
    again when the start is given in UTC (of a start in another zone nothing is
    claimed here). *)
Theorem validated_event_ok i defaultLoc (w w' : W) res :
  ValidateEventInputContext load_location i defaultLoc w = (w', res) → VrOK res = true →
  VrErrors res = [] ∧ ∃ n, VrNormalized res = Some n ∧ writable i n.
Proof. apply validated_writable. Qed.
End InputFacts.

Section InputDemo.
#[local] Existing Instance demo_rrule.
#[local] Existing Instance demo_poll.
#[local] Existing Instance demo_unicode.
Definition demo_input : EventInput :=
  MkInput "Stand-up" "Room 1" "" (demo_time 1 9) (demo_time 1 10) false "" "confirmed" " opaque " "https://example.com/a" ""
    (Some (MkStructured "daily" 1 [] 10 "" ["2024-01-03T09:00:00"])) [MkAlarmSpec 15 false] 0 "standup-1" "".
Lemma validated_event_ok_witness :
  ∃ w' res, ValidateEventInputContext (λ _, None) demo_input None tt = (w', res) ∧ VrOK res = true ∧
    (VrErrors res = [] ∧ ∃ n, VrNormalized res = Some n ∧ writable (λ _, None) demo_input n).
Proof.
  eexists tt, _. split; [vm_compute; reflexivity|]. split; [reflexivity|].
  eapply (validated_event_ok (λ _, None) demo_input None tt tt); [vm_compute; reflexivity|reflexivity].
Defined.
End InputDemo.
