(* ===== verification/CalendarTools.v ===== *)
(** The Calendar tool handlers that are not searches (src/internal/mcptools/
    create_event.go, update_event.go, delete_event.go, get_event.go,
    list_calendars.go, validate_event.go, calendar_capabilities.go), over the
    [Service] interface, the audit stream and the idempotency store. *)
From S2P Require Import Prelude GoStrings GoTime GoEncode GoJson NetUrl Redact CalErrors CalTypes TimePolicy Scopes Capability.
From S2P Require Import Validation Tools ContactsValidation Resources SearchEvents Idempotency ToolResults Recurrence EventInput.

Record CalendarDeps := MkCalendarDeps {
  DepRedactor : option Redactor;
  DepScopes : ResourceScopes;
  DefaultLocation : option Location;
  (** Whether there is an audit logger, and the key of its tokens. *)
  DepAudit : bool;
  DepTokenKey : list ascii;
  DepReadOnly : bool;
  DepHealthEnabled : bool;
  DepVersion : string;
}.

(** * Arguments *)

Definition maxAlarmMinutesBefore : Z := 40320.
(** Midnight UTC of a date, or of the date of a date and time. *)
Definition parseAllDayDate (name value : string) (defaultLoc : option Location) : result error gtime :=
  match parse_day value with
  | Some t => Ok t
  | None =>
      match ParseDateTime name value defaultLoc with
      | Err _ => Err (Plain ("invalid all-day " ++ name ++ ": use YYYY-MM-DD or a datetime"))
      | Ok t => let c := t_civil t in Ok (midnight (cyear c) (cmonth c) (cday c) UTC)
      end
  end.
Definition joinErrors (errs : list string) : string :=
  match errs with [] => "validation failed" | _ => join errs "; " end.
Definition add_alarm (out : list AlarmSpec) (part : string) : result error (list AlarmSpec) :=
  let part := trim_space part in
  if bool_decide (part = "") then Ok out
  else match parse_int64 part with
       | None => Err (Plain "invalid alarms_minutes entry")
       | Some n =>
           reject (n <? 0) || (maxAlarmMinutesBefore <? n)
             with Plain ("alarms_minutes entry " ++ fmt_int n ++ " out of range 0.." ++ fmt_int maxAlarmMinutesBefore) ;;
           if n =? 0 then Ok out
           else
             let out := (out ++ [MkAlarmSpec n false])%list in
             reject MaxAlarms <? zlen out with Plain ("at most " ++ fmt_int MaxAlarms ++ " alarms allowed") ;;
             Ok out
       end.
Definition parseAlarmsMinutesList (s : string) : result error (list AlarmSpec) :=
  let s := trim_space s in
  if bool_decide (s = "") then Ok [] else fold_res add_alarm (split s ","%char) [].
(** The parts of a list separated by commas, trimmed, without empty ones. *)
Definition comma_parts (s : string) : list string :=
  List.filter (λ p, negb (bool_decide (p = ""))) (map trim_space (split s ","%char)).

(** [RFC3339Nano], and [json.Marshal] of a [*time.Time], which fails outside
    years 0 to 9999 and for an offset of a day. *)
Fixpoint trim_zeros (l : list ascii) : list ascii :=
  match l with c :: l' => if bool_decide (c = "0"%char) then trim_zeros l' else l | [] => [] end.
Definition fraction_text (t : gtime) : list ascii :=
  match reverse (trim_zeros (reverse (digits 9 (instant t mod second)))) with [] => [] | ds => "."%char :: ds end.
Definition time_text (t : gtime) : string :=
  let off := offset_at (tzone t) (instant t) in
  str (format_wall (tzone t) (instant t) ++ fraction_text t ++ (if off =? 0 then ["Z"%char] else format_offset off)).
Definition time_json (t : gtime) : result error json :=
  let year := cyear (t_civil t) in
  let off := offset_at (tzone t) (instant t) in
  let failed msg := Plain ("json: error calling MarshalJSON for type *time.Time: Time.MarshalJSON: " ++ msg) in
  reject (year <? 0) || (9999 <? year) with failed "year outside of range [0,9999]" ;;
  reject 24 <=? Z.abs (Z.quot off 60) / 60 with failed "timezone hour outside of range [0,23]" ;;
  Ok (JString (time_text t)).

(** * Documents *)

Definition calendar_json (c : Calendar) : json :=
  JObject (field "path" (JString (CalPath c)) ++ field "name" (JString (CalName c))
           ++ text_field "description" (CalDescription c) ++ text_field "color" (CalColor c))%list.
Definition calendars_json (cals : list Calendar) : json :=
  JObject [("count", jint (zlen cals)); ("calendars", JArray (map calendar_json cals))].
Definition created_json (uid path : string) : json :=
  JObject [("success", JBool true); ("uid", JString uid); ("calendar", JString path)].
Definition scope_string (s : MutationScope) : string := match s with ScopeSeries => "series" | ScopeOccurrence => "occurrence" end.
Definition updated_json (uid : string) (scope : MutationScope) : json :=
  JObject (field "success" (JBool true) ++ field "uid" (JString uid) ++ text_field "scope" (scope_string scope))%list.
Definition deleted_json (uid : string) (r : DeleteResult) : json :=
  JObject (field "success" (JBool true) ++ field "uid" (JString uid) ++ text_field "deletedTitle" (DeletedTitle r)
           ++ flag_field "dryRun" (DeletedDryRun r) ++ text_field "scope" (DeletedScope r)
           ++ flag_field "wouldMutate" (WouldMutate r))%list.
Definition normalized_json (n : NormalizedEvent) : json :=
  JObject (field "title" (JString (NoTitle n)) ++ field "start" (JString (NoStart n)) ++ field "end" (JString (NoEnd n))
           ++ flag_field "allDay" (NoAllDay n) ++ text_field "timezone" (NoTimezone n) ++ text_field "location" (NoLocation n)
           ++ text_field "notes" (NoNotes n) ++ text_field "status" (NoStatus n)
           ++ text_field "transparency" (NoTransparency n) ++ text_field "url" (NoURL n)
           ++ text_field "recurrence" (NoRecurrence n) ++ list_field "alarmMinutes" jint (NoAlarmMinutes n)
           ++ text_field "uid" (NoUID n))%list.
Definition validation_json (r : ValidationResult) : json :=
  JObject (field "ok" (JBool (VrOK r)) ++ list_field "errors" JString (VrErrors r)
           ++ list_field "warnings" JString (VrWarnings r)
           ++ match VrNormalized r with Some n => field "normalized" (normalized_json n) | None => [] end)%list.

(** The parameters an update is remembered by, with sorted keys. *)
Definition pointer_json {A} (f : A → json) (p : option A) : json := match p with None => JNull | Some a => f a end.
Definition time_pointer (p : option gtime) : result error json := match p with None => Ok JNull | Some t => time_json t end.
Definition update_params (path uid : string) (up : EventUpdate) : result error json :=
  let text := pointer_json JString in
  end_ ← time_pointer (UpEndTime up);
  rid ← time_pointer (UpRecurrenceID up);
  start ← time_pointer (UpStartTime up);
  Ok (JObject [("calendar", JString path); ("end", end_); ("etag", JString (UpIfMatchETag up));
               ("location", text (UpLocation up)); ("notes", text (UpNotes up)); ("recurrence_id", rid);
               ("scope", JString (scope_string (UpScope up))); ("start", start); ("status", text (UpStatus up));
               ("title", text (UpTitle up)); ("tool", JString "update_event"); ("transparency", text (UpTransparency up));
               ("uid", JString uid); ("url", text (UpURL up))]).

(** ** One event, within the limit of a result *)

Definition occurrence_json (allDay : bool) (loc : option Location) (o : OccurrenceRef) : json :=
  JObject (field "recurrenceId" (JString (FormatEventTime (OrRecurrenceID o) allDay loc))
           ++ field "start" (JString (FormatEventTime (OrStartTime o) allDay loc))
           ++ field "end" (JString (FormatEventTime (OrEndTime o) allDay loc))
           ++ text_field "title" (OrTitle o) ++ field "isOverride" (JBool (OrIsOverride o)))%list.
Definition alarm_json (a : AlarmInfo) : json :=
  JObject (text_field "action" (AiAction a) ++ text_field "trigger" (AiTrigger a)
           ++ int_field "minutesBefore" (AiMinutesBefore a))%list.
Definition omitted_warning : string := "override summaries were omitted to fit the 256 KiB result limit".
(** [getEventDTO], with the overrides, the flag and the warnings shown. *)
Definition detail_json (d : EventDetail) (loc : option Location) (overrides : list OccurrenceRef) (truncated : bool)
    (warnings : list string) : json :=
  let e := DetailEvent d in
  let time t := FormatEventTime t (AllDay e) loc in
  JObject (field "uid" (JString (UID e)) ++ field "title" (JString (Title e)) ++ text_field "location" (EvLocation e)
           ++ text_field "notes" (Notes e) ++ field "start" (JString (time (StartTime e)))
           ++ field "end" (JString (time (EndTime e))) ++ flag_field "allDay" (AllDay e)
           ++ text_field "recurrence" (Recurrence e)
           ++ text_field "recurrenceId" (if is_zero (instant (RecurrenceID e)) then "" else time (RecurrenceID e))
           ++ flag_field "isOverride" (IsOverride e) ++ text_field "timezone" (Timezone e)
           ++ text_field "status" (EvStatus e) ++ text_field "transparency" (Transp e)
           ++ text_field "url" (CalTypes.URL e) ++ text_field "etag" (ETag e)
           ++ list_field "alarms" alarm_json (DetailAlarms d) ++ flag_field "isRecurring" (IsRecurring d)
           ++ int_field "overrideCount" (OverrideCount d)
           ++ list_field "overrides" (occurrence_json (AllDay e) loc) overrides
           ++ flag_field "overridesTruncated" truncated ++ list_field "warnings" JString warnings)%list.
(** How many overrides the budget takes. *)
Fixpoint take_overrides (red : option Redactor) (allDay : bool) (loc : option Location) (used : Z) (taken : nat)
    (overrides : list OccurrenceRef) : nat :=
  match overrides with
  | [] => taken
  | o :: rest =>
      let addition := len (redact red (marshal (occurrence_json allDay loc o))) + (if (taken =? 0)%nat then 0 else 1) in
      if maxCalendarResultBytes <? used + addition then taken
      else take_overrides red allDay loc (used + addition) (S taken) rest
  end.

Section Documents.
Context `{MapOrder}.
(** What is written with the first [n] overrides. *)
Definition with_overrides (d : EventDetail) (loc : option Location) (n : nat) : string :=
  let all := Overrides d in
  let cut := (n <? length all)%nat in
  marshal (detail_json d loc (take n all) cut (DetailWarnings d ++ if cut then [omitted_warning] else [])).
(** The last overrides are dropped until the document fits. *)
Fixpoint fit_overrides (red : option Redactor) (d : EventDetail) (loc : option Location) (n : nat) : string :=
  let encoded := with_overrides d loc n in
  if len (redact red encoded) <=? maxCalendarResultBytes then encoded
  else match n with O => encoded | S n => fit_overrides red d loc n end.
Definition writeGetEventJSON (red : option Redactor) (detail : option EventDetail) (loc : option Location) : CallToolResult :=
  match detail with
  | None => errResult red "formatting response" (Typed (NewError CodeInternal 0 "Calendar event detail is missing" None))
  | Some d =>
      let some := (0 <? length (Overrides d))%nat in
      let base := marshal (detail_json d loc [] some (DetailWarnings d ++ if some then [omitted_warning] else [])) in
      let used := len (redact red base) + 64 in
      if maxCalendarResultBytes <? used then writeCalendarEncoded red base
      else writeCalendarEncoded red
             (fit_overrides red d loc (take_overrides red (AllDay (DetailEvent d)) loc used 0 (Overrides d)))
  end.
End Documents.

(** * Handlers *)

(** Whether an update panics inside the service, with what text. *)
Class EventUpdatePanics (W : Type) := {
  update_panics (path uid : string) (up : EventUpdate) : W → option (W * string);
}.

Section Handlers.
Context {W R : Type} `{Service W, AuditStream W, IdemStore W, EventUpdatePanics W, Ctx W, ToolRequest R}.
Context `{RRuleLib, UnicodeTables, MapOrder}.
(** [time.LoadLocation]. *)
Variable load_location : string → option Location.
Variable deps : CalendarDeps.
Abbreviation red := (DepRedactor deps).
Abbreviation loc := (DefaultLocation deps).
Abbreviation H_ := (M W handler_end).

Definition audit (tool path uid status : string) : H_ unit :=
  if DepAudit deps
  then effect (audit_write (logCalendarMutation (DepTokenKey deps) tool path uid status))
  else mret tt.
Definition deny {A} (tool path uid context : string) (e : error) : H_ A :=
  audit tool path uid "denied";; reply (errResult red context e).
Definition or_deny {A} (tool path uid context : string) (r : result error A) : H_ A :=
  match r with Ok a => mret a | Err e => deny tool path uid context e end.
Definition or_invalid {A} (context : string) (r : result error A) : H_ A :=
  match r with Ok a => mret a | Err e => reply (errResult red context e) end.
(** A call to the service. *)
Definition call {A} (context : string) (f : W → W * (A * option error)) : H_ A :=
  λ w, let '(w, (a, e)) := f w in
       (w, match e with Some e => Err (Returns (errResult red context e)) | None => Ok a end).

(** A call that changes something: its failure is recorded. *)
Definition mutate {A} (tool path : string) (uid_of : error → string) (context : string) (f : W → W * (A * option error)) : H_ A :=
  λ w, let '(w, (a, e)) := f w in
       match e with
       | Some e => (audit tool path (uid_of e) (calendarMutationErrorStatus e);; reply (errResult red context e)) w
       | None => (w, Ok a)
       end.
Definition validate_input (i : EventInput) : H_ ValidationResult :=
  λ w, let '(w, res) := ValidateEventInputContext load_location i loc w in (w, Ok res).

(** ** Reads *)

Definition listCalendarsHandler : H_ CallToolResult :=
  cals ← call "listing calendars" ListCalendars;
  mret (writeCalendarJSON red (calendars_json (filterCalendarReads cals (DepScopes deps)))).
Definition getEventHandler (req : R) : H_ CallToolResult :=
  path ← or_invalid "calendar parameter" (RequireString req "calendar");
  uid ← or_invalid "uid parameter" (RequireString req "uid");
  or_invalid "validation" (ValidateCalendarPath path);;
  or_invalid "authorization" (authorizeCalendarRead (DepScopes deps) path);;
  or_invalid "validation" (ValidateUID uid);;
  detail ← call "getting event" (GetEvent path uid);
  mret (writeGetEventJSON red detail loc).

(** [defaultLocationName]. *)
Definition defaultLocationName (l : option Location) : string := match l with None => "UTC" | Some l => loc_name l end.
Definition calendarWriteToolNames : list string := ["create_event"; "update_event"; "delete_event"].
(** The tools calendar_capabilities reports. *)
Definition reported_tools : list string :=
  (calendarReadToolNames ++ (if DepReadOnly deps then [] else calendarWriteToolNames))%list.
(** Maps are written with sorted keys. *)
Definition capabilities_json : json :=
  JObject [("version", JString (if bool_decide (DepVersion deps = "") then "dev" else DepVersion deps));
    ("readOnly", JBool (DepReadOnly deps)); ("healthcheckActive", JBool (DepHealthEnabled deps));
    ("defaultTimezone", JString (defaultLocationName loc)); ("outputFormat", JString "RFC3339_with_offset");
    ("features", JObject (map (λ kv, (kv.1, JBool kv.2))
       [("attendees_invitations", false); ("client_uid_idempotent", true); ("etag_if_match", true); ("free_slots", true);
        ("recurrence_expansion", true); ("series_occurrence", true); ("structured_errors", true); ("this_and_future", false);
        ("update_idempotency_key", true); ("validate_event_local", true)]));
    ("limits", JObject (map (λ kv, (kv.1, jint kv.2))
       [("http_timeout_seconds", 30); ("max_alarms", MaxAlarms); ("max_location_len", MaxLocationLen);
        ("max_multi_search_materialized", MaxMultiSearchMaterialized); ("max_notes_len", MaxNotesLen); ("max_occurrences_series", 2000);
        ("max_range_days", MaxRangeDays); ("max_search_results", MaxResults); ("max_title_len", MaxTitleLen);
        ("read_rate_per_min", 60); ("tool_timeout_seconds", 25); ("write_rate_per_min", 20)]));
    ("tools", JArray (map JString reported_tools))].
Definition calendarCapabilitiesHandler : H_ CallToolResult := mret (writeJSON red capabilities_json).

(** ** Event fields *)

Definition parse_times (req : R) (allDay : bool) (startStr endStr : string) : result error (gtime * gtime) :=
  if allDay then
    start ← parseAllDayDate "start" startStr loc;
    end_ ← parseAllDayDate "end" endStr loc;
    Ok (start, if instant end_ =? instant start then GTime (instant start + 24 * hour) (tzone start) else end_)
  else
    start ← ParseDateTime "start" startStr loc;
    end_ ← ParseDateTime "end" endStr loc;
    Ok (start, end_).
Definition parseStructuredRecurrence (req : R) : result error (option StructuredRecurrence) :=
  freqValue ← optionalStringArg req "recurrence_frequency" "";
  let freq := trim_space freqValue in
  interval ← optionalIntArg req "recurrence_interval" 1;
  count ← optionalIntArg req "recurrence_count" 0;
  until ← optionalStringArg req "recurrence_until" "";
  byDay ← optionalStringArg req "recurrence_by_day" "";
  exceptions ← optionalStringArg req "recurrence_exceptions" "";
  if bool_decide (freq = "") then
    reject negb (bool_decide (until = "")) || negb (bool_decide (byDay = "")) || negb (bool_decide (exceptions = ""))
           || (0 <? count) || (1 <? interval)
      with Plain "recurrence_frequency is required when using structured recurrence fields" ;;
    Ok None
  else Ok (Some (MkStructured freq interval (comma_parts byDay) count until (comma_parts exceptions))).

Definition validateEventHandler (req : R) : H_ CallToolResult :=
  title ← or_invalid "title parameter" (RequireString req "title");
  startStr ← or_invalid "start parameter" (RequireString req "start");
  endStr ← or_invalid "end parameter" (RequireString req "end");
  allDay ← or_invalid "validation" (optionalBoolArg req "all_day" false);
  '(start, end_) ← or_invalid "validation" (parse_times req allDay startStr endStr);
  alarmList ← or_invalid "validation" (optionalStringArg req "alarms_minutes" "");
  alarms ← or_invalid "validation" (parseAlarmsMinutesList alarmList);
  structured ← or_invalid "validation" (parseStructuredRecurrence req);
  alarmMinutes ← or_invalid "validation" (optionalIntArg req "alarm_minutes_before" 0);
  let clientUID := GetString req "client_uid" "" in
  let clientUID := if bool_decide (clientUID = "") then GetString req "idempotency_key" "" else clientUID in
  let i := MkInput title (GetString req "location" "") (GetString req "notes" "") start end_ allDay
             (GetString req "timezone" "") (GetString req "status" "") (GetString req "transparency" "")
             (GetString req "url" "") (GetString req "rrule" "") structured alarms alarmMinutes clientUID "" in
  res ← validate_input i;
  mret (writeJSON red (validation_json res)).

(** ** create_event *)

(** The decoded arguments, before the checks: title, start, end, calendar
    apart. *)
Record create_args := MkCreateArgs {
  caLocation : string; caNotes : string; caAlarm : Z; caAllDay : bool; caRrule : string; caStatus : string;
  caTransp : string; caURL : string; caTimezone : string; caClientUID : string;
}.
Definition parse_create_args (req : R) : result error create_args :=
  location ← optionalStringArg req "location" "";
  notes ← optionalStringArg req "notes" "";
  alarm ← optionalIntArg req "alarm_minutes_before" 0;
  allDay ← optionalBoolArg req "all_day" false;
  rrule ← optionalStringArg req "rrule" "";
  status ← optionalStringArg req "status" "";
  transp ← optionalStringArg req "transparency" "";
  url ← optionalStringArg req "url" "";
  timezone ← optionalStringArg req "timezone" "";
  clientUID ← optionalStringArg req "client_uid" "";
  clientUID ← (if bool_decide (clientUID = "") then optionalStringArg req "idempotency_key" "" else Ok clientUID);
  Ok (MkCreateArgs location notes alarm allDay rrule status transp url timezone clientUID).
(** The uid to record when a creation fails. *)
Definition failed_uid (clientUID : string) (e : error) : string :=
  if bool_decide (clientUID = "") then
    match AsICloudError e with
    | Some typed => if decide (ErrCode typed = CodeOutcomeUnknown) then default "" (Details typed !! "uid") else ""
    | None => ""
    end
  else clientUID.
(** The rule, the exclusions and the zone of the event to create. *)
Definition final_rule (i : EventInput) (res : ValidationResult) : string * list gtime :=
  match InStructured i with
  | None => (InRecurrence i, [])
  | Some s =>
      match structuredToRRULE (Some s) loc with
      | Ok (built, ex) => (built, ex)
      | Err _ => (match VrNormalized res with Some n => NoRecurrence n | None => "" end, [])
      end
  end.
Definition new_event (i : EventInput) (res : ValidationResult) : NewEvent :=
  let '(rule, ex) := final_rule i res in
  let timezone :=
    if bool_decide (InTimezone i = "") && negb (bool_decide (rule = "")) && negb (InAllDay i) then
      match loc with Some l => if is_utc l then "" else loc_name l | None => "" end
    else InTimezone i in
  MkNewEvent (InTitle i) (InLocation i) (InNotes i) (InStartTime i) (InEndTime i) (InAlarmMinutes i) (InAllDay i) rule
    timezone (InStatus i) (InTransparency i) (InURL i) (InAlarms i) ex (InClientUID i).

Definition createEventHandler (req : R) : H_ CallToolResult :=
  let tool := "create_event" in
  title ← or_deny tool "" "" "title parameter" (RequireString req "title");
  startStr ← or_deny tool "" "" "start parameter" (RequireString req "start");
  endStr ← or_deny tool "" "" "end parameter" (RequireString req "end");
  path ← or_deny tool "" "" "calendar parameter" (RequireString req "calendar");
  a ← or_deny tool path "" "validation" (parse_create_args req);
  or_deny tool path "" "calendar parameter" (ValidateCalendarPath path);;
  or_deny tool path "" "authorization" (authorizeCalendarWrite (DepScopes deps) path);;
  or_deny tool path "" "title parameter" (ValidateTextField "title" title MaxTitleLen);;
  (if bool_decide (title = "") then deny tool path "" "title parameter" (Plain "title cannot be empty") else mret tt);;
  or_deny tool path "" "location parameter" (ValidateTextField "location" (caLocation a) MaxLocationLen);;
  or_deny tool path "" "notes parameter" (ValidateTextField "notes" (caNotes a) MaxNotesLen);;
  (if (caAlarm a <? 0) || (maxAlarmMinutesBefore <? caAlarm a)
   then deny tool path "" "alarm_minutes_before parameter"
          (Plain ("must be between 0 and " ++ fmt_int maxAlarmMinutesBefore ++ " (4 weeks)"))
   else mret tt);;
  alarmList ← or_deny tool path "" "validation" (optionalStringArg req "alarms_minutes" "");
  alarms ← or_deny tool path "" "alarms_minutes parameter" (parseAlarmsMinutesList alarmList);
  structured ← or_deny tool path "" "validation" (parseStructuredRecurrence req);
  (if bool_decide (caRrule a = "") then mret tt
   else or_deny tool path "" "rrule parameter" (ValidateRRULE (caRrule a)));;
  '(start, end_) ← or_deny tool path "" "validation" (parse_times req (caAllDay a) startStr endStr);
  or_deny tool path "" "validation" (ValidateRange start end_);;
  let i := MkInput title (caLocation a) (caNotes a) start end_ (caAllDay a) (caTimezone a) (caStatus a) (caTransp a)
             (caURL a) (caRrule a) structured alarms (caAlarm a) (caClientUID a) "" in
  res ← validate_input i;
  (if VrOK res then mret tt else deny tool path "" "validation" (Plain (joinErrors (VrErrors res))));;
  uid ← mutate tool path (failed_uid (caClientUID a)) "creating event" (CreateEvent path (new_event i res));
  audit tool path uid "success";;
  mret (writeCalendarJSON red (created_json uid path)).

(** ** Scopes of a change *)

(** The scope argument, with the occurrence it names. *)
Definition parse_scope (scope ridStr : string) : result error (MutationScope * option gtime) :=
  if bool_decide (scope = "") || bool_decide (scope = "series") then
    reject negb (bool_decide (ridStr = "")) with Plain "recurrence_id requires scope=occurrence" ;;
    Ok (ScopeSeries, None)
  else if bool_decide (scope = "occurrence") then
    reject bool_decide (ridStr = "") with Plain "recurrence_id is required when scope=occurrence" ;;
    rid ← ParseRecurrenceID "recurrence_id" ridStr loc;
    Ok (ScopeOccurrence, Some rid)
  else Err (Plain "scope must be series or occurrence").

(** ** delete_event *)

Definition deleteEventHandler (req : R) : H_ CallToolResult :=
  let tool := "delete_event" in
  uid ← or_deny tool "" "" "uid parameter" (RequireString req "uid");
  path ← or_deny tool "" uid "calendar parameter" (RequireString req "calendar");
  or_deny tool path uid "uid parameter" (ValidateUID uid);;
  or_deny tool path uid "calendar parameter" (ValidateCalendarPath path);;
  or_deny tool path uid "authorization" (authorizeCalendarDelete (DepScopes deps) path);;
  etag ← or_deny tool path uid "validation" (optionalStringArg req "etag" "");
  or_deny tool path uid "etag parameter" (ValidateIfMatchETag etag);;
  dryRun ← or_deny tool path uid "validation" (optionalBoolArg req "dry_run" false);
  scope ← or_deny tool path uid "validation" (optionalStringArg req "scope" "series");
  ridStr ← or_deny tool path uid "validation" (optionalStringArg req "recurrence_id" "");
  '(sc, rid) ← or_deny tool path uid "validation" (parse_scope scope ridStr);
  r ← mutate tool path (λ _, uid) "deleting event" (DeleteEvent path uid (Some (MkDeleteOptions sc rid etag dryRun)));
  audit tool path uid (if DeletedDryRun r then "dry_run" else "success");;
  mret (writeCalendarJSON red (deleted_json uid r)).

(** ** update_event *)

(** An argument that may be missing. *)
Definition optional_text (req : R) (key : string) : result error (option string) :=
  match GetArguments req !! key with
  | None => Ok None
  | Some (ArgString s) => Ok (Some s)
  | Some _ => Err (Plain (key ++ " must be a string"))
  end.
Definition bounded_text (tool path uid key : string) (max : Z) (req : R) : H_ (option string) :=
  let context := key ++ " parameter" in
  s ← or_deny tool path uid context (optional_text req key);
  (match s with Some s => or_deny tool path uid context (ValidateTextField key s max) | None => mret tt end);;
  mret s.
Definition optional_time (tool path uid key : string) (req : R) : H_ (option gtime) :=
  s ← or_deny tool path uid (key ++ " parameter") (optional_text req key);
  match s with
  | Some s => t ← or_deny tool path uid "validation" (ParseDateTime key s loc); mret (Some t)
  | None => mret None
  end.
Definition changes_nothing (up : EventUpdate) : bool :=
  bool_decide (UpTitle up = None) && bool_decide (UpLocation up = None) && bool_decide (UpNotes up = None)
  && match UpStartTime up with None => true | _ => false end && match UpEndTime up with None => true | _ => false end
  && bool_decide (UpStatus up = None) && bool_decide (UpTransparency up = None) && bool_decide (UpURL up = None).

(** The claim of an idempotency key: [Some (key, hash)] when this call owns
    it, [None] when no key was given. *)
Definition calendar_conflict (msg : string) : error := Typed (NewError CodeConflict 0 msg None).
Definition claim_key (path uid idemKey : string) (up : EventUpdate) : H_ (option (string * string)) :=
  let tool := "update_event" in
  if bool_decide (idemKey = "") then mret None
  else
    match update_params path uid up with
    | Err e => deny tool path uid "validation" e
    | Ok params =>
        let hash := hashIdempotencyParams params in
        let nsKey := namespacedIdempotencyKey tool idemKey in
        v ← (λ w, let '(w, v) := beginContext nsKey hash w in (w, Ok v));
        match v with
        | Conflict => deny tool path uid "validation"
                        (calendar_conflict "idempotency_key was reused with different update parameters")
        | Hit o =>
            let r := writeCalendarEncoded red (payload o) in
            reply (MkOutput (content r) (structured o) (out_isError r || isError o))
        | Ready => mret (Some (nsKey, hash))
        | Refused | Wait _ =>
            ended ← (λ w, let '(w, e) := ctx_Err w in (w, Ok e));
            if bool_decide (is_Some ended)
            then deny tool path uid "idempotency wait"
                   (Typed (NewError CodeTimeout 0 "tool deadline reached while waiting for the idempotency key" None))
            else deny tool path uid "validation"
                   (calendar_conflict "idempotency_key cache is full or the key is still pending; keep the key and retry later")
        end
    end.
Definition complete_claim (claim : option (string * string)) (result : option CallToolResult) (retain : bool) : H_ unit :=
  match claim with
  | None => mret tt
  | Some (key, hash) => effect (completeContext key hash result retain)
  end.
Definition uncertain (e : error) : bool :=
  match AsICloudError e with
  | None => true
  | Some typed => bool_decide (ErrCode typed = CodeOutcomeUnknown) || bool_decide (ErrCode typed = CodeInternal)
  end.
(** The update itself; a panic passes through the deferred completion. *)
Definition run_update (path uid : string) (claim : option (string * string)) (up : EventUpdate) : H_ CallToolResult := λ w,
  match update_panics path uid up w with
  | Some (w, text) => (complete_claim claim None true;; fail (Panics text)) w
  | None =>
      let '(w, e) := UpdateEvent path uid up w in
      match e with
      | Some e =>
          let out := errResult red "updating event" e in
          (audit "update_event" path uid (calendarMutationErrorStatus e);;
           complete_claim claim (Some out) (uncertain e);; reply out) w
      | None =>
          let out := writeCalendarJSON red (updated_json uid (UpScope up)) in
          (audit "update_event" path uid "success";; complete_claim claim (Some out) (out_isError out);; mret out) w
      end
  end.

Definition updateEventHandler (req : R) : H_ CallToolResult :=
  let tool := "update_event" in
  uid ← or_deny tool "" "" "uid parameter" (RequireString req "uid");
  path ← or_deny tool "" uid "calendar parameter" (RequireString req "calendar");
  or_deny tool path uid "uid parameter" (ValidateUID uid);;
  or_deny tool path uid "calendar parameter" (ValidateCalendarPath path);;
  or_deny tool path uid "authorization" (authorizeCalendarWrite (DepScopes deps) path);;
  etag ← or_deny tool path uid "validation" (optionalStringArg req "etag" "");
  or_deny tool path uid "etag parameter" (ValidateIfMatchETag etag);;
  title ← bounded_text tool path uid "title" MaxTitleLen req;
  location ← bounded_text tool path uid "location" MaxLocationLen req;
  notes ← bounded_text tool path uid "notes" MaxNotesLen req;
  start ← optional_time tool path uid "start" req;
  end_ ← optional_time tool path uid "end" req;
  (match start, end_ with Some s, Some e => or_deny tool path uid "validation" (ValidateRange s e) | _, _ => mret tt end);;
  status ← or_deny tool path uid "status parameter" (optional_text req "status");
  transparency ← or_deny tool path uid "transparency parameter" (optional_text req "transparency");
  url ← or_deny tool path uid "url parameter" (optional_text req "url");
  let up := MkEventUpdate title location notes start end_ status transparency url ScopeSeries None etag in
  or_deny tool path uid "validation" (ValidateEventUpdateFields up);;
  let up := NormalizeEventUpdateFields up in
  scope ← or_deny tool path uid "validation" (optionalStringArg req "scope" "series");
  ridStr ← or_deny tool path uid "validation" (optionalStringArg req "recurrence_id" "");
  '(sc, rid) ← or_deny tool path uid "validation" (parse_scope scope ridStr);
  let up := MkEventUpdate (UpTitle up) (UpLocation up) (UpNotes up) (UpStartTime up) (UpEndTime up) (UpStatus up)
              (UpTransparency up) (UpURL up) sc rid etag in
  (if changes_nothing up then deny tool path uid "validation" (Plain "no field to update was provided") else mret tt);;
  idemKey ← or_deny tool path uid "validation" (optionalStringArg req "idempotency_key" "");
  claim ← claim_key path uid idemKey up;
  run_update path uid claim up.

(** What the caller gets: the handler's result, or that of the recovery
    middleware around it. *)
Definition handle (h : H_ CallToolResult) (w : W) : W * CallToolResult :=
  let '(w, r) := h w in
  (w, RecoverRedactMiddleware red (match r with Ok out => Returns out | Err e => e end)).
End Handlers.

(** * What a handler does to the outside

    The services of a world, observed: every call to the Calendar service and
    the store, and every audit record, in order. *)

Inductive mutation :=
| MCreate (path : string) (ev : NewEvent)
| MUpdate (path uid : string) (up : EventUpdate)
| MDelete (path uid : string) (opts : option DeleteOptions).
Definition mutation_path (m : mutation) : string :=
  match m with MCreate path _ | MUpdate path _ _ | MDelete path _ _ => path end.
Inductive event :=
| EvRead
| EvMutation (m : mutation) (dryRun : bool) (e : option error)
| EvPanic (m : mutation)
| EvAudit (r : audit_record)
| EvBegin (key hash : string) (v : verdict (T:=json))
| EvComplete (key hash : string) (result : option CallToolResult) (retain : bool).

Section Observed.
Context {W R : Type} `{Service W, AuditStream W, IdemStore W, EventUpdatePanics W, Ctx W, ToolRequest R}.
Abbreviation OW := (W * list event)%type.

#[export] Instance observed_service : Service OW := {|
  ListCalendars := observe ListCalendars (λ _, EvRead);
  CalTypes.SearchEvents path s e opts := observe (CalTypes.SearchEvents path s e opts) (λ _, EvRead);
  GetEvent path uid := observe (GetEvent path uid) (λ _, EvRead);
  CreateEvent path ev := observe (CreateEvent path ev) (λ r, EvMutation (MCreate path ev) false r.2);
  UpdateEvent path uid up := observe (UpdateEvent path uid up) (λ e, EvMutation (MUpdate path uid up) false e);
  DeleteEvent path uid opts :=
    observe (DeleteEvent path uid opts) (λ r, EvMutation (MDelete path uid opts) (DeletedDryRun r.1) r.2);
|}.
#[export] Instance observed_audit : AuditStream OW :=
  {| audit_write r w := (audit_write r w.1, (w.2 ++ [EvAudit r])%list) |}.
#[export] Instance observed_store : IdemStore OW := {|
  beginContext key hash := observe (beginContext key hash) (EvBegin key hash);
  completeContext key hash result retain w :=
    (completeContext key hash result retain w.1, (w.2 ++ [EvComplete key hash result retain])%list);
|}.
#[export] Instance observed_panics : EventUpdatePanics OW :=
  {| update_panics path uid up w := match update_panics path uid up w.1 with
                                    | Some (w1, text) => Some ((w1, (w.2 ++ [EvPanic (MUpdate path uid up)])%list), text)
                                    | None => None
                                    end |}.
#[export] Instance observed_ctx : Ctx OW :=
  {| ctx_Err w := let '(w1, e) := ctx_Err w.1 in ((w1, w.2), e) |}.
Context `{RRuleLib, UnicodeTables, MapOrder}.
Variable load_location : string → option Location.
Variable deps : CalendarDeps.

(** The audit record of one outcome, if there is a logger. *)
Definition audited (tool path uid status : string) : list event :=
  if DepAudit deps then [EvAudit (logCalendarMutation (DepTokenKey deps) tool path uid status)] else [].
Definition error_end (r : result handler_end CallToolResult) : Prop :=
  ∃ out, r = Err (Returns out) ∧ out_isError out = true.
(** Refused: one record says so, and the caller gets an error. *)
Definition refused_call (tool : string) (l : list event) (r : result handler_end CallToolResult) : Prop :=
  (∃ path uid, l = audited tool path uid "denied") ∧ error_end r.
Definition refuses {A} (tool : string) (Q : list event → result handler_end A → Prop) : Prop :=
  ∀ path uid out, out_isError out = true → Q (audited tool path uid "denied") (Err (Returns out)).

Lemma event_emits_audit {A} tool path uid status (m : M OW handler_end A) (Q : list event → result handler_end A → Prop) :
  emits m (λ l r, Q (audited tool path uid status ++ l)%list r) →
  emits (audit deps tool path uid status;; m) Q.
Proof.
  intros Hm. eapply (emits_bind _ _ (λ l r, l = audited tool path uid status ∧ r = Ok tt)).
  - intros st. unfold audit, audited. destruct (DepAudit deps); [by eexists|].
    exists []. by rewrite app_nil_r.
  - by intros l e [_ ?].
  - by intros l [] [-> _].
Qed.
Lemma event_emits_deny {A} tool path uid context e (Q : list event → result handler_end A → Prop) :
  refuses tool Q → emits (deny (W:=OW) deps tool path uid context e) Q.
Proof. intros HQ. apply event_emits_audit, emits_reply. rewrite app_nil_r. apply HQ, errResult_bounded. Qed.
(** A step that refuses or goes on without a trace. *)
Lemma emits_gate {A B} tool (m : M OW handler_end A) (ok : A → Prop) (f : A → M OW handler_end B) (Q : list event → result handler_end B → Prop) :
  refuses tool Q →
  emits m (λ l r, match r with
                  | Ok a => l = [] ∧ ok a
                  | Err e => ∃ path uid out, out_isError out = true ∧ l = audited tool path uid "denied" ∧ e = Returns out
                  end) →
  (∀ a, ok a → emits (f a) Q) → emits (m ≫= f) Q.
Proof.
  intros HQ Hm Hf. eapply emits_bind; [exact Hm| |].
  - intros l e (path & uid & out & Hout & -> & ->). by apply HQ.
  - intros l a [-> Ha]. by apply Hf.
Qed.
Lemma gate_deny {A} tool path uid context e (ok : A → Prop) :
  emits (deny (W:=OW) deps tool path uid context e) (λ l r, match r with
    | Ok a => l = [] ∧ ok a
    | Err e => ∃ path uid out, out_isError out = true ∧ l = audited tool path uid "denied" ∧ e = Returns out
    end).
Proof. apply (event_emits_deny tool). intros p u out Hout. by exists p, u, out. Qed.
Lemma event_emits_or_deny {A B} tool path uid context (r : result error A) (f : A → M OW handler_end B) (Q : list event → result handler_end B → Prop) :
  refuses tool Q → (∀ a, r = Ok a → emits (f a) Q) → emits (or_deny deps tool path uid context r ≫= f) Q.
Proof.
  intros HQ Hf. apply (emits_gate tool _ (λ a, r = Ok a)); [done| |done].
  destruct r as [a|e]; [by apply emits_ret|apply gate_deny].
Qed.
Lemma emits_deny_if {B} tool path uid context (c : bool) e (f : unit → M OW handler_end B) (Q : list event → result handler_end B → Prop) :
  refuses tool Q → (c = false → emits (f tt) Q) →
  emits ((if c then deny deps tool path uid context e else mret tt) ≫= f) Q.
Proof.
  intros HQ Hf. apply (emits_gate tool _ (λ _, c = false)); [done| |by intros [] Hc; apply Hf].
  destruct c; [apply gate_deny|by apply emits_ret].
Qed.
Lemma emits_deny_else {B} tool path uid context (c : bool) e (f : unit → M OW handler_end B) (Q : list event → result handler_end B → Prop) :
  refuses tool Q → (c = true → emits (f tt) Q) →
  emits ((if c then mret tt else deny deps tool path uid context e) ≫= f) Q.
Proof.
  intros HQ Hf. apply (emits_gate tool _ (λ _, c = true)); [done| |by intros [] Hc; apply Hf].
  destruct c; [by apply emits_ret|apply gate_deny].
Qed.
Lemma emits_deny_unless {B} tool path uid context (c : bool) (r : result error unit) (f : unit → M OW handler_end B) (Q : list event → result handler_end B → Prop) :
  refuses tool Q → (c = true ∨ r = Ok tt → emits (f tt) Q) →
  emits ((if c then mret tt else or_deny deps tool path uid context r) ≫= f) Q.
Proof.
  intros HQ Hf. apply (emits_gate tool _ (λ _, c = true ∨ r = Ok tt)); [done| |by intros [] Hc; apply Hf].
  destruct c; [apply emits_ret; by split; [|left]|]. destruct r as [[]|e]; [apply emits_ret; by split; [|right]|apply gate_deny].
Qed.

(** A mutation reported as done. *)
Definition done_status (m : mutation) (dryRun : bool) (status : string) : Prop :=
  match m with MDelete _ _ _ => status = if dryRun then "dry_run" else "success" | _ => status = "success" end.
Definition audit_status (m : mutation) (dryRun : bool) (e : option error) (status : string) : Prop :=
  match e with Some err => status = calendarMutationErrorStatus err | None => done_status m dryRun status end.
(** The UID recorded; that of a creation may be one the service chose. *)
Definition audit_uid (m : mutation) (uid : string) : Prop :=
  match m with MDelete _ u _ | MUpdate _ u _ => uid = u | MCreate _ _ => True end.
(** What create and delete may do: refuse, or, once everything holds, call the
    service once and record the outcome. *)
Definition one_mutation (tool : string) (allowed : mutation → Prop) (l : list event) (r : result handler_end CallToolResult) : Prop :=
  refused_call tool l r ∨
  ∃ m dryRun e uid status, allowed m ∧ audit_status m dryRun e status ∧ audit_uid m uid ∧
    l = EvMutation m dryRun e :: audited tool (mutation_path m) uid status ∧
    match e with Some _ => error_end r | None => is_ok r = true end.
Lemma event_refuses_one tool allowed : refuses tool (one_mutation tool allowed).
Proof. intros path uid out Hout. left. split; [by exists path, uid|by exists out]. Qed.

(** The mutating call; [m] is what the observed call is. *)
Lemma event_emits_mutate {A} tool path uid_of context m (dry : A → bool) (allowed : mutation → Prop) (f : W → W * (A * option error))
    (k : A → M OW handler_end CallToolResult) :
  allowed m → mutation_path m = path → (∀ e, audit_uid m (uid_of e)) →
  (∀ a, ∃ uid status out, done_status m (dry a) status ∧ audit_uid m uid ∧
     emits (k a) (λ l r, l = audited tool path uid status ∧ r = Ok out)) →
  emits (mutate deps tool path uid_of context (observe f (λ r, EvMutation m (dry r.1) r.2)) ≫= k) (one_mutation tool allowed).
Proof.
  intros Hall Hpath Huid Hk.
  eapply (emits_bind _ _ (λ l x, match x with
    | Ok a => l = [EvMutation m (dry a) None]
    | Err e => ∃ d uid err out, audit_uid m uid ∧ l = EvMutation m d (Some err) :: audited tool path uid (calendarMutationErrorStatus err) ∧
                 e = Returns out ∧ out_isError out = true end)).
  - intros st. unfold mutate, observe. destruct (f st.1) as [w1 [a [err|]]]; cbn [fst snd].
    + unfold audit, audited, effect, reply, fail, mbind, M_bind, mret, M_ret.
      destruct (DepAudit deps); cbn [observed_audit audit_write the_log log_second fst snd]; eexists; rewrite <-?app_assoc; (split; [reflexivity|]);
        eexists (dry a), (uid_of err), err, _; (split; [apply Huid|]); (split; [reflexivity|]); (split; [reflexivity|apply errResult_bounded]).
    + by eexists.
  - intros l e (d & uid & err & out & Hu & -> & -> & Hout). right. exists m, d, (Some err), uid, (calendarMutationErrorStatus err).
    rewrite Hpath. split_and!; try done. by exists out.
  - intros l a ->. destruct (Hk a) as (uid & status & out & Hst & Hu & He).
    eapply emits_weaken; [exact He|]. intros l r [-> ->]. right.
    exists m, (dry a), None, uid, status. rewrite Hpath. by split_and!.
Qed.
Lemma event_emits_done {A} tool path uid status (out : A) :
  emits (audit (W:=OW) deps tool path uid status;; mret out) (λ l r, l = audited tool path uid status ∧ r = Ok out).
Proof. apply event_emits_audit, emits_ret. by rewrite app_nil_r. Qed.

(** Validation leaves no trace. *)
Lemma emits_validate {B} tool i (f : ValidationResult → M OW handler_end B) (Q : list event → result handler_end B → Prop) :
  refuses tool Q →
  (∀ res, (VrOK res = true → ∃ n, VrNormalized res = Some n ∧ writable load_location i n) → emits (f res) Q) →
  emits (validate_input load_location deps i ≫= f) Q.
Proof.
  intros HQ Hf. apply (emits_gate tool _ (λ res, VrOK res = true → ∃ n, VrNormalized res = Some n ∧ writable load_location i n));
    [done| |exact Hf].
  intros st. unfold validate_input.
  destruct (ValidateEventInputContext load_location i (DefaultLocation deps) st) as [st' res] eqn:Hv.
  exists []. rewrite app_nil_r. split; [|split; [done|]; intros Hok; by destruct (validated_writable load_location _ _ _ _ _ Hv Hok)].
  unfold ValidateEventInputContext in Hv. destruct (recurrence_of i _) as [[rrule structured] warnings].
  destruct (rule_errors load_location rrule i _ st) as [st1 rule] eqn:Hr. injection Hv as <- _.
  cbn [the_log log_second fst]. unfold rule_errors in Hr. case_bool_decide; [by injection Hr as <- _|].
  destruct (validateRRULEForStartContext rrule _ st) as [st2 r] eqn:Hs. injection Hr as <- _.
  unfold validateRRULEForStartContext, mbind, M_bind, lift in Hs. destruct (ValidateRRULE rrule) as [[]|]; [|by injection Hs as <- _].
  destruct (invalid_rule _) as [parsed|]; [|by injection Hs as <- _]. destruct (normalizeRecurrenceSelectorLists parsed) as [o few].
  unfold fail_if in Hs. destruct (negb few); [by injection Hs as <- _|]. cbn [mret M_ret] in Hs. unfold selector_verdict in Hs.
  pose (L := λ a b : OW * budgets, b.1.2 = a.1.2).
  assert (PreOrder L) as HL by (split; [done|]; intros a b c Hab Hbc; unfold L in *; congruence).
  pose proof (related_safety L) as Hsafe. specialize (Hsafe ltac:(intros [w l] b; unfold L; cbn; by destruct (ctx_Err w)) ltac:(done)).
  specialize (Hsafe (set_dtstart (InStartTime i) o) (st, MkBudgets maxRecurrenceExpansionWork maxRecurrenceSearchWork)).
  destruct (checkRecurrenceSelectorSafety _ _) as [[st3 b] v]. unfold L in Hsafe. cbn [fst] in Hsafe. by injection Hs as <- _.
Qed.

(** ** create_event and delete_event *)

(** The input the arguments of create_event decode to. *)
Definition decoded_create (req : R) (path : string) (i : EventInput) : Prop :=
  ∃ title startStr endStr a alarmList alarms structured start end_,
    RequireString req "title" = Ok title ∧ RequireString req "start" = Ok startStr ∧ RequireString req "end" = Ok endStr ∧
    RequireString req "calendar" = Ok path ∧ parse_create_args req = Ok a ∧
    optionalStringArg req "alarms_minutes" "" = Ok alarmList ∧ parseAlarmsMinutesList alarmList = Ok alarms ∧
    parseStructuredRecurrence req = Ok structured ∧ parse_times deps req (caAllDay a) startStr endStr = Ok (start, end_) ∧
    i = MkInput title (caLocation a) (caNotes a) start end_ (caAllDay a) (caTimezone a) (caStatus a) (caTransp a)
          (caURL a) (caRrule a) structured alarms (caAlarm a) (caClientUID a) "".
(** The event sent: built from the decoded input, which was validated, for the
    calendar named, which may be written. *)
Definition may_create (req : R) (m : mutation) : Prop :=
  ∃ path i res n, decoded_create req path i ∧ m = MCreate path (new_event deps i res) ∧
    ValidateCalendarPath path = Ok tt ∧ authorizeCalendarWrite (DepScopes deps) path = Ok tt ∧
    VrNormalized res = Some n ∧ writable load_location i n.
(** An occurrence is named exactly when the scope is one occurrence. *)
Definition coherent_scope (s : MutationScope) (rid : option gtime) : Prop := s = ScopeOccurrence ↔ is_Some rid.
(** The options the arguments of delete_event decode to. *)
Definition decoded_delete (req : R) (path uid : string) (opts : DeleteOptions) : Prop :=
  ∃ scope ridStr, RequireString req "uid" = Ok uid ∧ RequireString req "calendar" = Ok path ∧
    optionalStringArg req "etag" "" = Ok (DelIfMatchETag opts) ∧ optionalBoolArg req "dry_run" false = Ok (DryRun opts) ∧
    optionalStringArg req "scope" "series" = Ok scope ∧ optionalStringArg req "recurrence_id" "" = Ok ridStr ∧
    parse_scope deps scope ridStr = Ok (DelScope opts, DelRecurrenceID opts).
Definition may_delete (req : R) (m : mutation) : Prop :=
  ∃ path uid opts, decoded_delete req path uid opts ∧ m = MDelete path uid (Some opts) ∧
    ValidateCalendarPath path = Ok tt ∧ authorizeCalendarDelete (DepScopes deps) path = Ok tt ∧
    ValidateUID uid = Ok tt ∧ ValidateIfMatchETag (DelIfMatchETag opts) = Ok tt ∧
    coherent_scope (DelScope opts) (DelRecurrenceID opts).
Lemma parse_scope_coherent scope ridStr sc rid : parse_scope deps scope ridStr = Ok (sc, rid) → coherent_scope sc rid.
Proof.
  unfold parse_scope, coherent_scope. destruct (_ || _).
  - destruct (negb _); [done|]. intros [= <- <-]. split; [done|]. by intros [? ?].
  - case_bool_decide; [|done]. case_bool_decide; [done|]. destruct (ParseRecurrenceID _ _ _); [|done].
    cbn [mbind result_bind]. intros [= <- <-]. split; [by eexists|done].
Qed.
#[local] Hint Resolve event_refuses_one : core.
(** One refusing step. *)
Ltac gate := first [apply event_emits_or_deny; [done|] | apply emits_deny_if; [done|] | apply emits_deny_else; [done|]
                   | apply emits_deny_unless; [done|]].

Lemma event_create_once req :
  emits (createEventHandler (W:=OW) load_location deps req) (one_mutation "create_event" (may_create req)).
Proof.
  unfold createEventHandler. cbv zeta.
  gate; intros title Htitle. gate; intros startStr Hstart. gate; intros endStr Hend. gate; intros path Hcal. gate; intros a Ha.
  gate; intros [] Hpath. gate; intros [] Hauth.
  gate; intros [] _. gate; intros _. gate; intros [] _. gate; intros [] _. gate; intros _.
  gate; intros alarmList Hlist. gate; intros alarms Halarms. gate; intros structured Hstructured. gate; intros _.
  gate; intros [start end_] Htimes. gate; intros [] _. apply emits_validate with (tool := "create_event"); [done|].
  intros res Hres. gate; intros Hok. destruct (Hres Hok) as (n & Hn & Hw).
  apply (event_emits_mutate _ _ _ _ (MCreate path (new_event deps _ res)) (λ _, false)); [|done..|].
  - eexists path, _, res, n. split; [|done]. eexists title, startStr, endStr, a, alarmList, alarms, structured, start, end_. by split_and!.
  - intros uid. eexists _, _, _. split; [|split; [|apply event_emits_done]]; done.
Qed.
Lemma event_delete_once req :
  emits (deleteEventHandler (W:=OW) deps req) (one_mutation "delete_event" (may_delete req)).
Proof.
  unfold deleteEventHandler. cbv zeta.
  gate; intros uid Hu. gate; intros path Hp. gate; intros [] Huid. gate; intros [] Hpath. gate; intros [] Hauth.
  gate; intros etag He. gate; intros [] Hetag. gate; intros dry Hd. gate; intros scope Hs. gate; intros ridStr Hr. gate; intros [sc rid] Hscope.
  apply (event_emits_mutate _ _ _ _ (MDelete path uid _) DeletedDryRun); [|done|by intros|].
  - exists path, uid, (MkDeleteOptions sc rid etag dry). split; [exists scope, ridStr; by split_and!|]. split; [done|]. cbn. split_and!; try done. all: by eapply parse_scope_coherent in Hscope as [? ?].
  - intros r. eexists _, _, _. split; [|split; [|apply event_emits_done]]; done.
Qed.

(** ** update_event *)

Lemma emits_bounded_text {B} tool path uid key max req (f : option string → M OW handler_end B) (Q : list event → result handler_end B → Prop) :
  refuses tool Q → (∀ s, optional_text req key = Ok s ∧ (∀ t, s = Some t → text_within t max) → emits (f s) Q) →
  emits (bounded_text (W:=OW) deps tool path uid key max req ≫= f) Q.
Proof.
  intros HQ Hf. apply (emits_gate tool _ (λ s, optional_text req key = Ok s ∧ ∀ t, s = Some t → text_within t max)); [done| |exact Hf].
  unfold bounded_text. cbv zeta. apply event_emits_or_deny.
  { intros p u out Hout. by exists p, u, out. }
  intros [s|] Harg; [|apply emits_ret; by split]. apply event_emits_or_deny; [intros p u out Hout; by exists p, u, out|].
  intros [] Hs. apply emits_ret. split; [done|]. split; [done|]. intros t [= ->]. by eapply text_field_within.
Qed.
(** The time an argument gives, when it is there. *)
Definition time_arg (req : R) (key : string) (t : option gtime) : Prop :=
  ∃ s, optional_text req key = Ok s ∧
    match s with Some s => ∃ x, ParseDateTime key s (DefaultLocation deps) = Ok x ∧ t = Some x | None => t = None end.
Lemma emits_optional_time {B} tool path uid key req (f : option gtime → M OW handler_end B) (Q : list event → result handler_end B → Prop) :
  refuses tool Q → (∀ t, time_arg req key t → emits (f t) Q) → emits (optional_time (W:=OW) deps tool path uid key req ≫= f) Q.
Proof.
  intros HQ Hf. apply (emits_gate tool _ (time_arg req key)); [done| |exact Hf].
  unfold optional_time. apply event_emits_or_deny; [intros p u out Hout; by exists p, u, out|].
  intros [s|] Hs; [|apply emits_ret; split; [done|by exists None]].
  apply event_emits_or_deny; [intros p u out Hout; by exists p, u, out|].
  intros t Ht. apply emits_ret. split; [done|]. exists (Some s). split; [done|]. by exists t.
Qed.
Definition range_within (s e : option gtime) : Prop :=
  ∀ a b, s = Some a → e = Some b → instant a < instant b ∧ instant b - instant a <= MaxRangeDays * 24 * hour.
Lemma emits_range {B} tool path uid s e (f : unit → M OW handler_end B) (Q : list event → result handler_end B → Prop) :
  refuses tool Q → (range_within s e → emits (f tt) Q) →
  emits ((match s, e with Some a, Some b => or_deny deps tool path uid "validation" (ValidateRange a b) | _, _ => mret tt end) ≫= f) Q.
Proof.
  intros HQ Hf. apply (emits_gate tool _ (λ _, range_within s e)); [done| |by intros []].
  destruct s as [a|], e as [b|]; try (apply emits_ret; split; [done|]; by intros ? ?).
  unfold or_deny. destruct (ValidateRange a b) as [[]|err] eqn:Hr; [|apply gate_deny]. apply emits_ret. split; [done|].
  intros x y [= <-] [= <-]. by eapply range_ok.
Qed.

(** The update the arguments of update_event decode to, and the key. *)
Definition trimmed_upper (v : option string) : option string := option_map (λ s, to_upper (trim_space s)) v.
Definition decoded_update_call (req : R) (path uid : string) (up : EventUpdate) (idemKey : string) : Prop :=
  ∃ status transparency scope ridStr, RequireString req "uid" = Ok uid ∧ RequireString req "calendar" = Ok path ∧
    optionalStringArg req "etag" "" = Ok (UpIfMatchETag up) ∧ optional_text req "title" = Ok (UpTitle up) ∧
    optional_text req "location" = Ok (UpLocation up) ∧ optional_text req "notes" = Ok (UpNotes up) ∧
    time_arg req "start" (UpStartTime up) ∧ time_arg req "end" (UpEndTime up) ∧
    optional_text req "status" = Ok status ∧ UpStatus up = trimmed_upper status ∧
    optional_text req "transparency" = Ok transparency ∧ UpTransparency up = trimmed_upper transparency ∧
    optional_text req "url" = Ok (UpURL up) ∧
    optionalStringArg req "scope" "series" = Ok scope ∧ optionalStringArg req "recurrence_id" "" = Ok ridStr ∧
    parse_scope deps scope ridStr = Ok (UpScope up, UpRecurrenceID up) ∧
    optionalStringArg req "idempotency_key" "" = Ok idemKey.
(** The update sent. *)
Definition may_update (path uid : string) (up : EventUpdate) : Prop :=
  ValidateCalendarPath path = Ok tt ∧ authorizeCalendarWrite (DepScopes deps) path = Ok tt ∧
  ValidateUID uid = Ok tt ∧ ValidateIfMatchETag (UpIfMatchETag up) = Ok tt ∧
  coherent_scope (UpScope up) (UpRecurrenceID up) ∧ changes_nothing up = false ∧
  (∀ s, UpTitle up = Some s → text_within s MaxTitleLen) ∧ (∀ s, UpLocation up = Some s → text_within s MaxLocationLen) ∧
  (∀ s, UpNotes up = Some s → text_within s MaxNotesLen) ∧ range_within (UpStartTime up) (UpEndTime up) ∧
  (∀ s, UpStatus up = Some s → AllowedStatus s = true) ∧
  (∀ s, UpTransparency up = Some s → AllowedTransparency s = true) ∧ (∀ u, UpURL up = Some u → optional web_url u).
Lemma update_fields_valid up : ValidateEventUpdateFields up = Ok tt →
  let n := NormalizeEventUpdateFields up in
  (∀ s, UpStatus n = Some s → AllowedStatus s = true) ∧ (∀ s, UpTransparency n = Some s → AllowedTransparency s = true) ∧
  (∀ u, UpURL n = Some u → optional web_url u).
Proof.
  unfold ValidateEventUpdateFields, NormalizeEventUpdateFields. cbn [UpStatus UpTransparency UpURL].
  destruct (match UpStatus up with Some s => _ | None => _ end) eqn:Hs; [done|].
  destruct (match UpTransparency up with Some s => _ | None => _ end) eqn:Ht; [done|]. intros Hu. split_and!.
  - destruct (UpStatus up) as [x|]; [|done]. intros s [= <-]. by apply negb_false_iff in Hs.
  - destruct (UpTransparency up) as [x|]; [|done]. intros s [= <-]. by apply negb_false_iff in Ht.
  - destruct (UpURL up) as [u|]; [|done]. intros v [= <-]. case_bool_decide; [by left|]. right. by eapply event_url_ok.
Qed.

(** The key and the hash under which an update claims the store. *)
Definition update_claim (path uid idemKey : string) (up : EventUpdate) (claim : option (string * string)) : Prop :=
  if bool_decide (idemKey = "") then claim = None
  else ∃ params, update_params path uid up = Ok params ∧
         claim = Some (namespacedIdempotencyKey "update_event" idemKey, hashIdempotencyParams params).
Definition claimed (claim : option (string * string)) : list event :=
  match claim with Some (k, h) => [EvBegin k h Ready] | None => [] end.
Definition released (claim : option (string * string)) (result : option CallToolResult) (retain : bool) : list event :=
  match claim with Some (k, h) => [EvComplete k h result retain] | None => [] end.
(** The store did not grant the claim: nothing is updated. *)
Definition not_owner (claim : option (string * string)) (l : list event) (r : result handler_end CallToolResult) : Prop :=
  ∃ k h v, claim = Some (k, h) ∧ v ≠ Ready ∧
    match v with
    | Hit o => l = [EvBegin k h v] ∧ ∃ out, r = Err (Returns out) ∧ structured o = out_structured out ∧
                 (isError o = true → out_isError out = true)
    | _ => ∃ path uid, l = EvBegin k h v :: audited "update_event" path uid "denied" ∧ error_end r
    end.
(** One update, between the claim and its completion: the result is stored,
    and retained for good when what happened is uncertain. *)
Definition update_run (path uid : string) (up : EventUpdate) (claim : option (string * string))
    (l : list event) (r : result handler_end CallToolResult) : Prop :=
  let m := MUpdate path uid up in
  (∃ e status out, audit_status m false e status ∧
     l = (claimed claim ++ EvMutation m false e :: audited "update_event" path uid status
            ++ released claim (Some out) (match e with Some err => uncertain err | None => out_isError out end))%list ∧
     match e with Some _ => r = Err (Returns out) ∧ out_isError out = true | None => r = Ok out end) ∨
  (∃ text, l = (claimed claim ++ EvPanic m :: released claim None true)%list ∧ r = Err (Panics text)).
Definition one_update (req : R) (l : list event) (r : result handler_end CallToolResult) : Prop :=
  refused_call "update_event" l r ∨
  ∃ path uid up idemKey claim, decoded_update_call req path uid up idemKey ∧ may_update path uid up ∧ update_claim path uid idemKey up claim ∧
    (not_owner claim l r ∨ update_run path uid up claim l r).

Lemma event_emits_complete {A} claim result retain (m : M OW handler_end A) (Q : list event → _ → Prop) :
  emits m (λ l r, Q (released claim result retain ++ l)%list r) →
  emits (complete_claim claim result retain;; m) Q.
Proof.
  intros Hm. eapply (emits_bind _ _ (λ l r, l = released claim result retain ∧ r = Ok tt)).
  - intros st. destruct claim as [[k h]|]; [by eexists|]. exists []. by rewrite app_nil_r.
  - by intros l e [_ ?].
  - by intros l [] [-> _].
Qed.
Lemma event_run_update_once path uid claim up :
  emits (run_update (W:=OW) deps path uid claim up) (λ l r, update_run path uid up claim (claimed claim ++ l)%list r).
Proof.
  intros st. unfold run_update, observed_panics, observed_service, observe. cbn [update_panics UpdateEvent].
  destruct (update_panics path uid up st.1) as [[w1 text]|].
  - destruct (event_emits_complete (A:=CallToolResult) claim None true (fail (Panics text))
      (λ l r, l = released claim None true ∧ r = Err (Panics text)))
      with (st := (w1, (st.2 ++ [EvPanic (MUpdate path uid up)])%list)) as (l & Hl & -> & Hr).
    { apply emits_fail. by rewrite app_nil_r. }
    exists (EvPanic (MUpdate path uid up) :: released claim None true). split.
    + rewrite Hl. cbn [the_log log_second snd]. by rewrite <-app_assoc.
    + right. by exists text.
  - destruct (UpdateEvent path uid up st.1) as [w1 [err|]]; cbn [fst snd].
    + set (out := errResult (DepRedactor deps) "updating event" err).
      match goal with |- context [?f (w1, ?lg)] =>
        assert (emits f (λ l r, l = (audited "update_event" path uid (calendarMutationErrorStatus err) ++
          released claim (Some out) (uncertain err))%list ∧ r = Err (Returns out))) as He end.
      { apply event_emits_audit, event_emits_complete, emits_reply. by rewrite app_nil_r. }
      destruct (He (w1, (st.2 ++ [EvMutation (MUpdate path uid up) false (Some err)])%list)) as (l & Hl & -> & Hr).
      eexists (EvMutation (MUpdate path uid up) false (Some err) :: _). split.
      * rewrite Hl. cbn [the_log log_second snd]. by rewrite <-app_assoc.
      * left. exists (Some err), (calendarMutationErrorStatus err), out. rewrite Hr. split_and!; try done. apply errResult_bounded.
    + set (out := writeCalendarJSON (DepRedactor deps) (updated_json uid (UpScope up))).
      match goal with |- context [?f (w1, ?lg)] =>
        assert (emits f (λ l r, l = (audited "update_event" path uid "success" ++
          released claim (Some out) (out_isError out))%list ∧ r = Ok out)) as He end.
      { apply event_emits_audit, event_emits_complete, emits_ret. by rewrite app_nil_r. }
      destruct (He (w1, (st.2 ++ [EvMutation (MUpdate path uid up) false None])%list)) as (l & Hl & -> & Hr).
      eexists (EvMutation (MUpdate path uid up) false None :: _). split.
      * rewrite Hl. cbn [the_log log_second snd]. by rewrite <-app_assoc.
      * left. exists None, "success", out. by rewrite Hr.
Qed.
Lemma event_claim_key_log path uid idemKey up :
  emits (claim_key (W:=OW) deps path uid idemKey up) (λ l r,
    match r with
    | Ok claim => update_claim path uid idemKey up claim ∧ l = claimed claim
    | Err e => refused_call "update_event" l (Err e) ∨
               ∃ claim, update_claim path uid idemKey up claim ∧ not_owner claim l (Err e)
    end).
Proof.
  unfold claim_key, update_claim. cbv zeta. case_bool_decide as Hk; [by apply emits_ret|].
  destruct (update_params path uid up) as [params|err] eqn:Hp.
  2: { apply event_emits_deny. intros p u out Hout. left. split; [by exists p, u|by exists out]. }
  set (k := namespacedIdempotencyKey _ _). set (h := hashIdempotencyParams _).
  eapply (emits_bind _ _ (λ l r, ∃ v, l = [EvBegin k h v] ∧ r = Ok v)).
  { intros st. cbn [beginContext observed_store]. unfold observe. destruct (beginContext k h st.1) as [w1 v].
    exists [EvBegin k h v]. split; [done|]. by exists v. }
  { by intros l e (? & ? & ?). }
  intros l v (_ & -> & [= <-]).
  assert (∀ context e, v ≠ Ready → (∀ o, v ≠ Hit o) →
    emits (deny (W:=OW) (A:=option (string * string)) deps "update_event" path uid context e) (λ l r,
      match r with
      | Ok claim => (∃ params0, Ok (E:=error) params = Ok params0 ∧ claim = Some (k, hashIdempotencyParams params0))
                    ∧ EvBegin k h v :: l = claimed claim
      | Err e => refused_call "update_event" (EvBegin k h v :: l) (Err e) ∨
                 ∃ claim, (∃ params0, Ok (E:=error) params = Ok params0 ∧ claim = Some (k, hashIdempotencyParams params0))
                          ∧ not_owner claim (EvBegin k h v :: l) (Err e)
      end)) as Hno.
  { intros context e Hv Hh. apply event_emits_audit, emits_reply. rewrite app_nil_r. right. eexists. split; [by exists params|].
    exists k, h, v. split; [done|]. split; [done|]. destruct v; try done; try (by exfalso; eapply Hh);
      exists path, uid; (split; [done|]); eexists; (split; [done|apply errResult_bounded]). }
  assert (v = Refused ∨ (∃ id, v = Wait id) → v ≠ Ready ∧ ∀ o, v ≠ Hit o) as Hwait by (intros [->|[? ->]]; done).
  destruct v as [| |o| |id]; [| | |by apply emits_ret; split; [by exists params|]|].
  - eapply (emits_bind _ _ (λ l r, l = [] ∧ is_ok r = true)).
    + intros st. cbn [ctx_Err observed_ctx]. destruct (ctx_Err st.1) as [w1 e]. exists []. by rewrite app_nil_r.
    + by intros l e [_ ?].
    + intros l ended [-> _]. cbn [app]. destruct (bool_decide _); by apply Hno.
  - by apply Hno.
  - apply emits_reply. right. eexists. split; [by exists params|]. exists k, h, (Hit o). split; [done|]. split; [done|].
    split; [done|]. eexists. split; [done|]. split; [done|]. cbn [out_isError]. intros ->. apply orb_true_r.
  - eapply (emits_bind _ _ (λ l r, l = [] ∧ is_ok r = true)).
    + intros st. cbn [ctx_Err observed_ctx]. destruct (ctx_Err st.1) as [w1 e]. exists []. by rewrite app_nil_r.
    + by intros l e [_ ?].
    + intros l ended [-> _]. cbn [app]. destruct (bool_decide _); by apply Hno.
Qed.

Lemma event_update_once req : emits (updateEventHandler (W:=OW) deps req) (one_update req).
Proof.
  assert (refuses "update_event" (one_update req)) as Href.
  { intros path uid out Hout. left. split; [by exists path, uid|by exists out]. }
  unfold updateEventHandler. cbv zeta.
  gate; intros uid Hu. gate; intros path Hp. gate; intros [] Huid. gate; intros [] Hpath. gate; intros [] Hauth.
  gate; intros etag He. gate; intros [] Hetag.
  apply emits_bounded_text; [done|]; intros title [Ht Htitle]. apply emits_bounded_text; [done|]; intros location [Hl Hlocation].
  apply emits_bounded_text; [done|]; intros notes [Hn Hnotes]. apply emits_optional_time; [done|]; intros start Hstart.
  apply emits_optional_time; [done|]; intros end_ Hend. apply (emits_range "update_event"); [done|]; intros Hrange.
  gate; intros status Hstatus. gate; intros transparency Htransp. gate; intros url Hu'. gate; intros [] Hfields.
  apply update_fields_valid in Hfields. cbv zeta in Hfields. destruct Hfields as (Hst & Htr & Hurl).
  gate; intros scope Hsc. gate; intros ridStr Hrid. gate; intros [sc rid] Hscope.
  gate; intros Hchange. gate; intros idemKey Hkey.
  match goal with |- emits (claim_key _ _ _ _ ?u ≫= _) _ => set (up := u) in * end.
  assert (decoded_update_call req path uid up idemKey) as Hdec by (exists status, transparency, scope, ridStr; by split_and!).
  apply parse_scope_coherent in Hscope.
  assert (may_update path uid up) as Hup by (unfold may_update, up; cbn; split_and!; done).
  eapply emits_bind; [apply event_claim_key_log|cbn beta iota..].
  - intros l e [Hr|(claim & Hc & Hno)]; [by left|]. right. exists path, uid, up, idemKey, claim. auto.
  - intros l claim [Hc ->]. eapply emits_weaken; [apply event_run_update_once|].
    intros l r Hrun. right. exists path, uid, up, idemKey, claim. auto 10.
Qed.

(** ** get_event and list_calendars *)

(** A read: one call to the service for a calendar in scope, or a refusal. *)
Lemma get_event_reads req :
  emits (getEventHandler (W:=OW) deps req) (λ l r,
    (l = [] ∧ error_end r) ∨
    (l = [EvRead] ∧ ∃ path uid, RequireString req "calendar" = Ok path ∧ RequireString req "uid" = Ok uid ∧
       ValidateCalendarPath path = Ok tt ∧ authorizeCalendarRead (DepScopes deps) path = Ok tt ∧ ValidateUID uid = Ok tt)).
Proof.
  assert (∀ A B context (r : result error A) (f : A → M OW handler_end B) Q,
    (∀ out, out_isError out = true → Q [] (Err (Returns out))) → (∀ a, r = Ok a → emits (f a) Q) →
    emits (or_invalid deps context r ≫= f) Q) as Hgate.
  { intros A B context r f Q HQ Hf. destruct r as [a|e].
    - eapply (emits_bind _ _ (λ l x, l = [] ∧ x = Ok a)); [by apply emits_ret|by intros ? ? [_ ?]|].
      intros l a' [-> [= <-]]. by apply Hf.
    - eapply (emits_bind _ _ (λ l x, l = [] ∧ ∃ out, out_isError out = true ∧ x = Err (Returns out))).
      + apply emits_reply. split; [done|]. eexists. split; [|done]. apply errResult_bounded.
      + intros l e' [-> (out & Hout & [= ->])]. by apply HQ.
      + by intros l a [_ (? & _ & ?)]. }
  unfold getEventHandler.
  do 5 (apply Hgate; [intros out Hout; left; split; [done|by exists out]|]; intros ? ?).
  repeat match goal with x : unit |- _ => destruct x end.
  eapply (emits_bind _ _ (λ l x, l = [EvRead] ∧ match x with Ok _ => True | Err e => ∃ out, e = Returns out end)).
  - intros st. unfold call. cbn [GetEvent observed_service]. unfold observe. destruct (GetEvent _ _ st.1) as [w1 [d [e|]]];
      cbn [fst snd]; eexists; (split; [reflexivity|]); split; eauto.
  - intros l e [-> _]. right. split; [done|]. by eexists _, _.
  - intros l d [-> _]. apply emits_ret. right. split; [done|]. by eexists _, _.
Qed.

(** (C8) What the Calendar tools may change.  create_event and delete_event
    either refuse, with one audit record and an error, or call the service
    exactly once, with what the arguments of the call decode to, and record its
    outcome: a creation carries an event built from that input, validated
    ([writable]), into the named calendar, which the write scope holds; a
    deletion carries the named UID, entity tag, dry-run flag and scope, for the
    named calendar, which the delete scope holds, and one occurrence exactly
    when its scope is one occurrence.  update_event does the same for the
    decoded update, which changes something and whose texts, range, status and
    URL are valid; when the argument idempotency_key is not empty it first
    claims the store under that key and the hash of the update, and calls the
    service only when the claim is granted, and it always completes the claim -
    with the result, kept for good when the outcome is uncertain or the service
    panicked. *)
Theorem calendar_mutations_authorized req :
  emits (createEventHandler (W:=OW) load_location deps req) (one_mutation "create_event" (may_create req)) ∧
  emits (deleteEventHandler (W:=OW) deps req) (one_mutation "delete_event" (may_delete req)) ∧
  emits (updateEventHandler (W:=OW) deps req) (one_update req).
Proof. split_and!; [apply event_create_once|apply event_delete_once|apply event_update_once]. Qed.
End Observed.

(** * The document of one event *)

Lemma fit_overrides_spec `{MapOrder} red d loc n :
  ∃ m, (m <= n)%nat ∧ fit_overrides red d loc n = with_overrides d loc m ∧
    (len (redact red (with_overrides d loc m)) <= maxCalendarResultBytes ∨ m = 0%nat).
Proof.
  induction n as [|n IH]; cbn [fit_overrides].
  - exists 0%nat. split; [lia|]. split; [by destruct (_ <=? _)|by right].
  - destruct (Z.leb_spec (len (redact red (with_overrides d loc (S n)))) maxCalendarResultBytes).
    + exists (S n). auto.
    + destruct IH as (m & Hm & -> & Hf). exists m. split; [lia|auto].
Qed.
Lemma take_overrides_le red allDay loc overrides : ∀ used taken,
  (take_overrides red allDay loc used taken overrides <= taken + length overrides)%nat.
Proof.
  induction overrides as [|o rest IH]; intros used taken; cbn [take_overrides length]; [lia|].
  destruct (_ <? _); [lia|]. pose proof (IH (used + (len (redact red (marshal (occurrence_json allDay loc o))) + (if (taken =? 0)%nat then 0 else 1))) (S taken)). lia.
Qed.
(** What get_event writes about an event: the document with the first [n] of
    its overrides, flagged and with a warning exactly when some are left out;
    it is too large only when it is so without any override. *)
Theorem get_event_document `{MapOrder} red d loc :
  ∃ n, (n <= length (Overrides d))%nat ∧ writeGetEventJSON red (Some d) loc = writeCalendarEncoded red (with_overrides d loc n) ∧
    (len (redact red (with_overrides d loc n)) <= maxCalendarResultBytes ∨ n = 0%nat).
Proof.
  unfold writeGetEventJSON. cbv zeta. destruct (Z.ltb_spec maxCalendarResultBytes
    (len (redact red (marshal (detail_json d loc [] (0 <? length (Overrides d))%nat
       (DetailWarnings d ++ (if (0 <? length (Overrides d))%nat then [omitted_warning] else []))))) + 64)) as [Hlt|Hge].
  - exists 0%nat. split; [lia|]. split; [done|by right].
  - set (used := len _ + 64). destruct (fit_overrides_spec red d loc (take_overrides red (AllDay (DetailEvent d)) loc used 0 (Overrides d)))
      as (m & Hm & -> & Hf). pose proof (take_overrides_le red (AllDay (DetailEvent d)) loc (Overrides d) used 0).
    exists m. split; [lia|done].
Qed.

(** calendar_capabilities names the three mutating tools unless the global
    switch is on, also when the permissions registered none of them, as with a
    plan that may only read the Calendar. *)
Definition reading_plan : CapabilityPlan :=
  NewCapabilityPlanFromConfig false (MkCapabilitySet true false false false false false false false false false false).
Lemma capabilities_overstate deps :
  DepReadOnly deps = readOnly reading_plan →
  "delete_event" ∈ reported_tools deps ∧ "delete_event" ∉ RegisteredTools reading_plan.
Proof.
  intros H. split.
  - unfold reported_tools. rewrite H. apply elem_of_app. right. cbn. set_solver.
  - apply (bool_decide_unpack _). vm_compute. exact I.
Qed.
