(* ===== verification/ContactsTools.v ===== *)
(** The Contacts tools (src/internal/mcptools/contacts_common.go,
    contacts_read.go, contacts_write.go): decoding and bounding of arguments,
    authorization, the service call, its audit record and its answer. *)
From S2P Require Import Prelude GoStrings GoTime GoEncode GoJson Redact Scopes Tools ContactsTypes.
From S2P Require Import ContactsValidation Resources Idempotency ToolResults.
Import CT.

Definition contactsMaxAddressBooks : Z := 100.
Definition contactsDefaultSearchLimit : Z := 50.
Definition contactsMaxSearchLimit : Z := 100.
Definition contactsMaxQueryBytes : Z := 256.
Definition contactsMaxEmailBytes : Z := 320.
Definition contactsMaxPhoneBytes : Z := 64.
Definition contactsMaxDisplayBytes : Z := 500.
Definition contactsMaxTextBytes : Z := 500.
Definition contactsMaxNotesBytes : Z := 4000.
Definition contactsMaxURLBytes : Z := 2048.
Definition contactsMaxTypeBytes : Z := 64.
Definition contactsMaxUIDBytes : Z := 255.
Definition contactsMaxEmails : Z := 10.
Definition contactsMaxPhones : Z := 10.
Definition contactsMaxURLs : Z := 5.
Definition contactsMaxAddresses : Z := 5.
Definition contactsMaxResultBytes : Z := 256 * 1024.

(** * Arguments

    The errors of argument parsing are only ever shown, so they are texts. *)

(** [req.GetRawArguments()]: absent, bytes, or a Go value with what
    [json.Marshal] makes of it. *)
Inductive raw_arguments :=
| NoArguments
| RawBytes (data : list ascii)
| GoValue (marshalled : option (list ascii)).
Definition contactsRawArgs : Type := gmap string json.

Section Arguments.
Context `{UnicodeTables, MapOrder}.

(** The first key, in the order of the map, that is not allowed. *)
Definition unknown_key (args : contactsRawArgs) (allowed : list string) : option string :=
  head (map fst (List.filter (λ kv, negb (bool_decide (kv.1 ∈ allowed))) (map_order (map_to_list args)))).

Definition parseContactsArgs (raw : raw_arguments) (allowed : list string) : result string contactsRawArgs :=
  let parse data :=
    let trimmed := trim_space_b data in
    match trimmed with
    | "{"%char :: _ =>
        match json_parse trimmed ≫= as_object with
        | None => Err "arguments must be a valid JSON object"
        | Some args => match unknown_key args allowed with
                       | Some name => Err ("unknown parameter " ++ fmt_quote name)
                       | None => Ok args
                       end
        end
    | _ => Err "arguments must be a JSON object"
    end in
  match raw with
  | NoArguments => Ok ∅
  | RawBytes data => parse data
  | GoValue (Some data) => parse data
  | GoValue None => Err "arguments must be a JSON object"
  end.

Definition parseContactsObject (raw : json) (path : string) (allowed : list string) : result string contactsRawArgs :=
  if negb (is_object raw) then Err (path ++ " must be an object")
  else match as_object raw with
       | None => Err (path ++ " must be a valid object")
       | Some object => match unknown_key object allowed with
                        | Some name => Err ("unknown parameter " ++ fmt_quote name ++ " in " ++ path)
                        | None => Ok object
                        end
       end.

Definition control_rune (r : Z) : bool :=
  (r =? 0) || ((r <? 32) && negb (r =? 10) && negb (r =? 9)) || (r =? 127).
Definition line_breaks : string := str ["013"; "010"]%char.
(** The value and whether the key is there. *)
Definition contactsString (args : contactsRawArgs) (key : string) (required : bool) (maxBytes : Z) (singleLine : bool)
    : result string (string * bool) :=
  match args !! key with
  | None => if required then Err ("required parameter " ++ fmt_quote key ++ " not found") else Ok ("", false)
  | Some raw =>
      match as_string raw with
      | None => Err (key ++ " must be a string")
      | Some value =>
          if negb (valid_utf8 (bytes value)) then Err (key ++ " must be valid UTF-8")
          else if (0 <? maxBytes) && (maxBytes <? len value)
          then Err (key ++ " exceeds its " ++ fmt_int maxBytes ++ "-byte limit")
          else if existsb (λ rw, control_rune rw.1) (runes (bytes value))
          then Err (key ++ " contains a disallowed control character")
          else if singleLine && contains_any value line_breaks then Err (key ++ " must be a single line")
          else Ok (value, true)
      end
  end.

Definition book_rune (c : ascii) : bool :=
  let r := byte_val c in
  ((97 <=? r) && (r <=? 122)) || ((65 <=? r) && (r <=? 90)) || ((48 <=? r) && (r <=? 57)) || (r =? 45) || (r =? 95).
Definition validContactsAddressBook (value : string) : bool :=
  (len value =? len "book-" + 22) && has_prefix value "book-" && forallb book_rune (drop 5 (bytes value)).
Definition validContactsType (value : string) : bool := forallb book_rune (bytes value).
Definition errInvalidContactsAddressBook : string :=
  "address_book must be an identifier returned by list_address_books".

Definition contactsRequiredIdentifier (args : contactsRawArgs) (key : string) (addressBook : bool) : result string string :=
  '(value, _) ← contactsString args key true contactsMaxUIDBytes true;
  if bool_decide (trim_space value = "") then Err (key ++ " cannot be empty")
  else if addressBook && negb (validContactsAddressBook value) then Err errInvalidContactsAddressBook
  else Ok value.

Definition contactsOptionalBool (args : contactsRawArgs) (key : string) (fallback : bool) : result string bool :=
  match args !! key with
  | None => Ok fallback
  | Some raw => match as_bool raw with Some b => Ok b | None => Err (key ++ " must be a boolean") end
  end.
Definition contactsOptionalInt (args : contactsRawArgs) (key : string) (fallback lo hi : Z) : result string Z :=
  match args !! key with
  | None => Ok fallback
  | Some raw =>
      match as_int raw with
      | None => Err (key ++ " must be an integer")
      | Some value => if (value <? lo) || (hi <? value)
                      then Err (key ++ " must be between " ++ fmt_int lo ++ " and " ++ fmt_int hi)
                      else Ok value
      end
  end.

(** [None]: the key is absent. *)
Definition contactsArray (args : contactsRawArgs) (key : string) (maxItems : Z) : result string (option (list json)) :=
  match args !! key with
  | None => Ok None
  | Some raw =>
      if negb (is_array raw) then Err (key ++ " must be an array")
      else match as_array raw with
           | None => Err (key ++ " must be a valid array")
           | Some values => if maxItems <? zlen values
                            then Err (key ++ " may contain at most " ++ fmt_int maxItems ++ " items")
                            else Ok (Some values)
           end
  end.

(** * Structured values *)

Definition prefix_err {A} (path : string) (r : result string A) : result string A :=
  match r with Ok a => Ok a | Err e => Err (path ++ "." ++ e) end.
(** The texts of an object under the given keys and limits. *)
Definition read_field (path : string) (object : contactsRawArgs) (values : gmap string string) (kl : string * Z)
    : result string (gmap string string) :=
  '(value, present) ← prefix_err path (contactsString object kl.1 false kl.2 true);
  Ok (if present : bool then <[kl.1 := value]> values else values).
Definition text_of (values : gmap string string) (key : string) : string := default "" (values !! key).

Definition name_keys : list string :=
  ["familyName"; "givenName"; "additionalName"; "honorificPrefix"; "honorificSuffix"].
Definition parseContactsName (raw : json) (path : string) : result string StructuredName :=
  object ← parseContactsObject raw path name_keys;
  values ← fold_res (read_field path object) (map (λ k, (k, contactsMaxTextBytes)) name_keys) ∅;
  Ok (MkStructuredName (text_of values "familyName") (text_of values "givenName") (text_of values "additionalName")
        (text_of values "honorificPrefix") (text_of values "honorificSuffix")).
Definition contactsNameEmpty (name : StructuredName) : bool :=
  forallb (λ s, bool_decide (trim_space s = ""))
    [FamilyName name; GivenName name; AdditionalName name; HonorificPrefix name; HonorificSuffix name].

Definition item_path (key : string) (index : nat) : string := key ++ "[" ++ fmt_int (Z.of_nat index) ++ "]".
Definition parse_typed_value (path : string) (maxValueBytes : Z) (item : json) : result string TypedValue :=
  object ← parseContactsObject item path ["type"; "value"];
  '(kind, _) ← prefix_err path (contactsString object "type" false contactsMaxTypeBytes true);
  if negb (bool_decide (kind = "")) && negb (validContactsType kind)
  then Err (path ++ ".type contains an invalid character")
  else
    '(value, _) ← prefix_err path (contactsString object "value" true maxValueBytes true);
    if bool_decide (trim_space value = "") then Err (path ++ ".value cannot be empty")
    else Ok (MkTypedValue kind value).
(** The items in order, [parse] given each item's path. *)
Fixpoint parse_items_from {A} (parse : string → json → result string A) (key : string) (index : nat) (items : list json)
    : result string (list A) :=
  match items with
  | [] => Ok []
  | item :: items =>
      v ← parse (item_path key index) item;
      vs ← parse_items_from parse key (S index) items;
      Ok (v :: vs)
  end.
Definition parse_array {A} (parse : string → json → result string A) (args : contactsRawArgs) (key : string) (maxItems : Z)
    : result string (option (list A)) :=
  items ← contactsArray args key maxItems;
  match items with
  | None => Ok None
  | Some items => vs ← parse_items_from parse key 0 items; Ok (Some vs)
  end.
Definition parseContactsTypedValues (args : contactsRawArgs) (key : string) (maxItems maxValueBytes : Z)
    : result string (option (list TypedValue)) :=
  parse_array (λ path, parse_typed_value path maxValueBytes) args key maxItems.

Definition address_keys : list string :=
  ["type"; "postOfficeBox"; "extendedAddress"; "streetAddress"; "locality"; "region"; "postalCode"; "country"].
Definition parse_address (path : string) (item : json) : result string PostalAddress :=
  object ← parseContactsObject item path address_keys;
  parts ← fold_res (read_field path object)
    (map (λ k, (k, if bool_decide (k = "type") then contactsMaxTypeBytes else contactsMaxTextBytes)) address_keys) ∅;
  let p := text_of parts in
  if negb (bool_decide (p "type" = "")) && negb (validContactsType (p "type"))
  then Err (path ++ ".type contains an invalid character")
  else Ok (MkPostalAddress (p "type") (p "postOfficeBox") (p "extendedAddress") (p "streetAddress") (p "locality")
             (p "region") (p "postalCode") (p "country")).
Definition parseContactsAddresses (args : contactsRawArgs) (key : string) : result string (option (list PostalAddress)) :=
  parse_array parse_address args key contactsMaxAddresses.

Definition bad_etag : string := "etag must be a specific strong ETag".
(** A byte inside the quotes. *)
Definition etag_inner (c : ascii) : bool :=
  negb ((byte_val c <? 33) || bool_decide (c = dquote) || (byte_val c =? 127)).
Definition contactsValidateETag (value : string) : result string unit :=
  if bool_decide (value = "") then Ok tt
  else if 512 <? len value then Err bad_etag
  else
    let trimmed := bytes (trim value (str [" "; "009"]%char)) in
    if (zlen trimmed <? 2) || negb (bool_decide (head trimmed = Some dquote)) || negb (bool_decide (last trimmed = Some dquote))
    then Err bad_etag
    else if forallb etag_inner (take (length trimmed - 2) (drop 1 trimmed)) then Ok tt
    else Err bad_etag.

Definition contactsRawString (args : contactsRawArgs) (key : string) : string :=
  match contactsString args key false 0 false with Ok (value, _) => value | Err _ => "" end.

(** The loops over a map literal of fields: key, limit and single-line flag,
    in the order of the map; the values that are present. *)
Definition read_text (args : contactsRawArgs) (values : gmap string string) (f : string * (Z * bool))
    : result string (gmap string string) :=
  '(value, present) ← contactsString args f.1 false f.2.1 f.2.2;
  Ok (if present : bool then <[f.1 := value]> values else values).
Definition read_texts (args : contactsRawArgs) (fields : list (string * (Z * bool))) : result string (gmap string string) :=
  fold_res (read_text args) (map_order fields) ∅.

Definition create_texts : list (string * (Z * bool)) :=
  [("organization", (contactsMaxTextBytes, true)); ("title", (contactsMaxTextBytes, true));
   ("nickname", (contactsMaxTextBytes, true)); ("birthday", (10, true)); ("notes", (contactsMaxNotesBytes, false));
   ("client_uid", (contactsMaxUIDBytes, true))].
Definition parseCreateContactInput (args : contactsRawArgs) : result string CreateContactInput :=
  addressBook ← contactsRequiredIdentifier args "address_book" true;
  '(displayName, _) ← contactsString args "display_name" false contactsMaxDisplayBytes true;
  name ← match args !! "name" with
         | Some raw => parseContactsName raw "name"
         | None => Ok (MkStructuredName "" "" "" "" "")
         end;
  if bool_decide (trim_space displayName = "") && contactsNameEmpty name
  then Err "display_name or one structured name component is required"
  else
    values ← read_texts args create_texts;
    clientUID ← (if bool_decide (text_of values "client_uid" = "")
                 then '(alias, present) ← contactsString args "idempotency_key" false contactsMaxUIDBytes true;
                      Ok (if present : bool then alias else "")
                 else Ok (text_of values "client_uid"));
    if negb (bool_decide (clientUID = "")) && bool_decide (trim_space clientUID = "")
    then Err "client_uid cannot contain only whitespace"
    else
      emails ← parseContactsTypedValues args "emails" contactsMaxEmails contactsMaxEmailBytes;
      phones ← parseContactsTypedValues args "phones" contactsMaxPhones contactsMaxPhoneBytes;
      addresses ← parseContactsAddresses args "addresses";
      urls ← parseContactsTypedValues args "urls" contactsMaxURLs contactsMaxURLBytes;
      Ok (MkCreateContactInput addressBook displayName name (text_of values "organization") (text_of values "title")
            (text_of values "nickname") (text_of values "birthday") (text_of values "notes")
            (default [] emails) (default [] phones) (default [] addresses) (default [] urls) clientUID).

Definition editable : list string :=
  ["display_name"; "name"; "organization"; "title"; "nickname"; "birthday"; "notes"; "emails"; "phones"; "addresses"; "urls"].
Definition patch_texts : list (string * (Z * bool)) :=
  [("display_name", (contactsMaxDisplayBytes, true)); ("organization", (contactsMaxTextBytes, true));
   ("title", (contactsMaxTextBytes, true)); ("nickname", (contactsMaxTextBytes, true)); ("birthday", (10, true));
   ("notes", (contactsMaxNotesBytes, false))].
Definition parseUpdateContactInput (args : contactsRawArgs) : result string UpdateContactInput :=
  addressBook ← contactsRequiredIdentifier args "address_book" true;
  uid ← contactsRequiredIdentifier args "uid" false;
  '(etag, _) ← contactsString args "etag" false 0 true;
  contactsValidateETag etag;;
  if negb (existsb (λ key, bool_decide (is_Some (args !! key))) editable)
  then Err "at least one editable contact field is required"
  else
    values ← read_texts args patch_texts;
    name ← match args !! "name" with
           | Some raw => value ← parseContactsName raw "name"; Ok (Some value)
           | None => Ok None
           end;
    emails ← parseContactsTypedValues args "emails" contactsMaxEmails contactsMaxEmailBytes;
    phones ← parseContactsTypedValues args "phones" contactsMaxPhones contactsMaxPhoneBytes;
    addresses ← parseContactsAddresses args "addresses";
    urls ← parseContactsTypedValues args "urls" contactsMaxURLs contactsMaxURLBytes;
    Ok (MkUpdateContactInput addressBook uid etag
          (MkContactPatch (values !! "display_name") name (values !! "organization") (values !! "title")
             (values !! "nickname") (values !! "birthday") (values !! "notes") emails phones addresses urls)).

(** The arguments of [delete_contact], in the handler itself. *)
Definition parse_delete (args : contactsRawArgs) : result string DeleteContactInput :=
  addressBook ← contactsRequiredIdentifier args "address_book" true;
  uid ← contactsRequiredIdentifier args "uid" false;
  '(etag, _) ← contactsString args "etag" false 0 true;
  contactsValidateETag etag;;
  dryRun ← contactsOptionalBool args "dry_run" false;
  Ok (MkDeleteContactInput addressBook uid etag dryRun).

(** The arguments of [search_contacts]. *)
Definition parse_search (args : contactsRawArgs) : result string ContactSearch :=
  '(addressBook, present) ← contactsString args "address_book" false 27 true;
  if (present : bool) && negb (validContactsAddressBook addressBook) then Err errInvalidContactsAddressBook
  else
    '(query, _) ← contactsString args "query" false contactsMaxQueryBytes false;
    '(email, _) ← contactsString args "email" false contactsMaxEmailBytes true;
    '(phone, _) ← contactsString args "phone" false contactsMaxPhoneBytes true;
    includeGroups ← contactsOptionalBool args "include_groups" false;
    limit ← contactsOptionalInt args "limit" contactsDefaultSearchLimit 1 contactsMaxSearchLimit;
    Ok (MkContactSearch addressBook query email phone includeGroups limit).
End Arguments.

(** * Documents shown to the caller *)

Definition code_string (c : Code) : string :=
  match c with
  | CodeValidation => "validation"
  | CodeAuthentication => "authentication"
  | CodeAuthorization => "authorization"
  | CodeNotFound => "not_found"
  | CodeConflict => "conflict"
  | CodeConcurrentModification => "concurrent_modification"
  | CodeRateLimited => "rate_limited"
  | CodeTimeout => "timeout"
  | CodeUnavailable => "unavailable"
  | CodePartialFailure => "partial_failure"
  | CodeProtocolError => "protocol_error"
  | CodePayloadTooLarge => "payload_too_large"
  | CodeOutcomeUnknown => "outcome_unknown"
  | CodeInternalError => "internal_error"
  end.
(** [err.Error()]. *)
Fixpoint error_text (err : error) : string :=
  match err with
  | Plain msg => msg
  | Wrapped msg inner => msg ++ error_text inner
  | Typed e => code_string (ErrCode e) ++ ": " ++ Message e
  end.

Definition typed_value_json (v : TypedValue) : json :=
  JObject (text_field "type" (TvType v) ++ field "value" (JString (TvValue v)))%list.
Definition name_json (n : StructuredName) : json :=
  JObject (text_field "familyName" (FamilyName n) ++ text_field "givenName" (GivenName n)
    ++ text_field "additionalName" (AdditionalName n) ++ text_field "honorificPrefix" (HonorificPrefix n)
    ++ text_field "honorificSuffix" (HonorificSuffix n))%list.
Definition address_json (a : PostalAddress) : json :=
  JObject (text_field "type" (AdrType a) ++ text_field "postOfficeBox" (PostOfficeBox a)
    ++ text_field "extendedAddress" (ExtendedAddress a) ++ text_field "streetAddress" (StreetAddress a)
    ++ text_field "locality" (Locality a) ++ text_field "region" (Region a)
    ++ text_field "postalCode" (PostalCode a) ++ text_field "country" (Country a))%list.
Definition book_json (b : AddressBook) : json :=
  JObject (field "identifier" (JString (Identifier b)) ++ field "name" (JString (BookName b))
    ++ text_field "description" (BookDescription b) ++ list_field "supportedVersions" JString (SupportedVersions b)
    ++ text_field "writeVersion" (WriteVersion b) ++ int_field "maxResourceSize" (MaxResourceSize b))%list.
Definition books_json (books : list AddressBook) : json :=
  JObject [("count", jint (zlen books)); ("addressBooks", JArray (map book_json books))].
Definition summary_fields (s : ContactSummary) : list (string * json) :=
  (field "addressBook" (JString (SumAddressBook s)) ++ field "uid" (JString (SumUID s)) ++ text_field "etag" (SumETag s)
    ++ field "displayName" (JString (DisplayName s)) ++ text_field "organization" (Organization s)
    ++ list_field "emails" typed_value_json (Emails s) ++ list_field "phones" typed_value_json (Phones s)
    ++ flag_field "isGroup" (IsGroup s))%list.
Definition search_json (r : ContactResults) : json :=
  JObject (field "contacts" (JArray (map (λ s, JObject (summary_fields s)) (Contacts r)))
    ++ flag_field "truncated" (ResTruncated r) ++ flag_field "scanLimitReached" (ResScanLimitReached r))%list.
Definition contact_json (c : Contact) : json :=
  JObject (summary_fields (Summary c) ++ field "version" (JString (Version c))
    ++ match ConName c with Some n => field "name" (name_json n) | None => [] end
    ++ text_field "title" (ConTitle c) ++ text_field "nickname" (Nickname c) ++ text_field "birthday" (Birthday c)
    ++ list_field "addresses" address_json (Addresses c) ++ list_field "urls" typed_value_json (URLs c)
    ++ text_field "notes" (ConNotes c) ++ flag_field "hasPhoto" (HasPhoto c)
    ++ list_field "unsupportedFields" JString (UnsupportedFields c))%list.
Definition mutation_json (r : MutationResult) : json :=
  JObject (field "addressBook" (JString (MrAddressBook r)) ++ field "uid" (JString (MrUID r)) ++ text_field "etag" (MrETag r)
    ++ flag_field "resultIncomplete" (ResultIncomplete r) ++ text_field "warning" (MrWarning r))%list.
Definition deletion_json (r : ContactDeletion) : json :=
  JObject (field "addressBook" (JString (CdAddressBook r)) ++ field "uid" (JString (CdUID r))
    ++ flag_field "dryRun" (CdDryRun r) ++ flag_field "wouldDelete" (WouldDelete r))%list.

(** A pointer field with [omitempty]. *)
Definition ptr_field {A} (name : string) (f : A → json) (p : option A) : list (string * json) :=
  match p with Some a => [(name, f a)] | None => [] end.
Definition patch_json (p : ContactPatch) : json :=
  let values l := JArray (map typed_value_json l) in
  JObject (ptr_field "display_name" JString (PDisplayName p) ++ ptr_field "name" name_json (PName p)
    ++ ptr_field "organization" JString (POrganization p) ++ ptr_field "title" JString (PTitle p)
    ++ ptr_field "nickname" JString (PNickname p) ++ ptr_field "birthday" JString (PBirthday p)
    ++ ptr_field "notes" JString (PNotes p) ++ ptr_field "emails" values (PEmails p)
    ++ ptr_field "phones" values (PPhones p) ++ ptr_field "addresses" (λ l, JArray (map address_json l)) (PAddresses p)
    ++ ptr_field "urls" values (PURLs p))%list.
Definition update_json (i : UpdateContactInput) : json :=
  JObject (field "address_book" (JString (UcAddressBook i)) ++ field "uid" (JString (UcUID i))
    ++ text_field "etag" (UcETag i) ++ field "patch" (patch_json (Patch i)))%list.
(** [{"input": input, "tool": "update_contact"}]. *)
Definition update_params (i : UpdateContactInput) : json :=
  JObject [("input", update_json i); ("tool", JString "update_contact")].

(** * Results *)

(** [redactor == nil] is replaced by a redactor without secrets. *)
Definition contactsRedact (red : option Redactor) (text : string) : string :=
  Redact (match red with Some red => red | None => NewRedactor [] end) text.

Definition retry_seconds (retryAfter : Z) : Z :=
  if 0 <? retryAfter then Z.min 60 (Z.max 1 (retryAfter / second)) else 0.
Definition contacts_payload (red : option Redactor) (context : string) (err : option error) : toolErrorPayload :=
  let bounded limit text := boundedUTF8 (contactsRedact red text) limit in
  match err ≫= AsError with
  | None => MkPayload (code_string CodeInternalError)
              (bounded maxErrorMessageBytes (context ++ ": Contacts operation failed unexpectedly")) false 0
              (bounded maxErrorDetailBytes "") ∅
  | Some typed =>
      let message := if bool_decide (Message typed = "") then "Contacts operation failed" else Message typed in
      MkPayload (code_string (ErrCode typed)) (bounded maxErrorMessageBytes (context ++ ": " ++ message))
        (Retryable typed) (retry_seconds (RetryAfter typed))
        (bounded maxErrorDetailBytes (if bool_decide (ErrCode typed = CodeOutcomeUnknown) then Reconciliation typed else ""))
        ∅
  end.
Definition contactsErrorResult (red : option Redactor) (context : string) (err : option error) : CallToolResult :=
  ToolResultError (marshal (payload_json (contacts_payload red context err))).
Definition bare_error (code : Code) (message : string) : option error := Some (Typed (newError code 0 message)).
Definition contactsValidationResult (red : option Redactor) (message : string) : CallToolResult :=
  contactsErrorResult red "validation" (bare_error CodeValidation message).

Definition too_large_result (red : option Redactor) : CallToolResult :=
  contactsErrorResult red "formatting response" (bare_error CodePayloadTooLarge "Contacts result exceeds its byte limit").
Definition contactsWriteJSON (red : option Redactor) (payload : json) : CallToolResult :=
  let text := contactsRedact red (marshal_indent 0 payload) in
  if contactsMaxResultBytes <? len text then too_large_result red else structuredOrText text.
Definition contactsWriteCachedJSON (red : option Redactor) (payload : string) : CallToolResult :=
  let text := contactsRedact red payload in
  if contactsMaxResultBytes <? len text then too_large_result red else ToolResultText text.

Definition contactsAuditErrorStatus (err : error) : string :=
  match AsError err with
  | None => "error"
  | Some typed =>
      if decide (ErrCode typed = CodeValidation) then "denied"
      else if decide (ErrCode typed = CodeOutcomeUnknown) then "outcome_unknown" else "error"
  end.
(** [outcome.result(contactsWriteCachedJSON)] (idempotency.go). *)
Definition cached_result (red : option Redactor) (o : idempotencyOutcome (T:=json)) : CallToolResult :=
  let r := contactsWriteCachedJSON red (payload o) in
  MkOutput (content r) (structured o) (out_isError r || isError o).

(** * Handlers *)

Record ContactsDeps := MkContactsDeps {
  DepRedactor : option Redactor;
  DepScopes : ResourceScopes;
  (** Whether there is an audit logger, and the key of its tokens. *)
  DepAudit : bool;
  DepTokenKey : list ascii;
}.

(** Whether an update panics inside the service, with what text. *)
Class UpdatePanics (W : Type) := { update_panics (input : UpdateContactInput) : W → option (W * string) }.

Section Handlers.
Context {W : Type} `{ContactsService W, AuditStream W, IdemStore W, UpdatePanics W, Ctx W}.
Context `{UnicodeTables, MapOrder}.
Variable deps : ContactsDeps.
Abbreviation red := (DepRedactor deps).
Abbreviation H_ := (M W handler_end).

Definition or_invalid {A} (r : result string A) : H_ A :=
  match r with Ok a => mret a | Err msg => reply (contactsValidationResult red msg) end.
Definition call {A} (context : string) (m : M W error A) : H_ A :=
  map_err (λ e, Returns (contactsErrorResult red context (Some e))) m.
Definition contactsAudit (tool resource status : string) : H_ unit :=
  if DepAudit deps
  then effect (audit_write (LogDomainMutation (DepTokenKey deps) tool "contacts" "contact" resource status))
  else mret tt.
(** The [deny] closures. *)
Definition deny {A} (tool resource msg : string) : H_ A :=
  contactsAudit tool resource "denied";; reply (contactsValidationResult red msg).
Definition or_deny {A} (tool resource : string) (r : result string A) : H_ A :=
  match r with Ok a => mret a | Err msg => deny tool resource msg end.
Definition authorize_or_deny (tool resource action book : string) : H_ unit :=
  λ w, let '(w, r) := Contacts.authorizeContactBook (DepScopes deps) action book w in
       match r with Ok _ => (w, Ok tt) | Err e => deny tool resource (error_text e) w end.

Definition listAddressBooksHandler (req : raw_arguments) : H_ CallToolResult :=
  _ ← or_invalid (parseContactsArgs req []);
  books ← call "listing address books" (try ListAddressBooks);
  books ← call "listing address books" (Contacts.filterAddressBooks (DepScopes deps) books);
  if contactsMaxAddressBooks <? zlen books
  then reply (contactsErrorResult red "listing address books"
                (bare_error CodePayloadTooLarge "address-book result exceeds its item limit"))
  else mret (contactsWriteJSON red (books_json books)).

(** [jsonMarshalContactsResult]. *)
Definition encoded_results (r : ContactResults) : string := redact red (marshal_indent 0 (search_json r)).
Definition with_contacts (l : list ContactSummary) (r : ContactResults) : ContactResults :=
  MkContactResults l true (ResScanLimitReached r).
(** The [for] loop; every turn drops the last contact. *)
Fixpoint fit_results (fuel : nat) (r : ContactResults) : option ContactResults :=
  if len (encoded_results r) <=? contactsMaxResultBytes then Some r
  else match fuel, Contacts r with
       | S fuel, (_ :: _) as l => fit_results fuel (with_contacts (take (length l - 1) l) r)
       | _, _ => None
       end.
Definition searchContactsHandler (req : raw_arguments) : H_ CallToolResult :=
  args ← or_invalid (parseContactsArgs req ["address_book"; "query"; "email"; "phone"; "include_groups"; "limit"]);
  opts ← or_invalid (parse_search args);
  r ← call "searching contacts" (Contacts.searchScopedContacts (DepScopes deps) opts);
  let r := if OptLimit opts <? zlen (Contacts r)
           then with_contacts (take (Z.to_nat (OptLimit opts)) (Contacts r)) r else r in
  match fit_results (length (Contacts r)) r with
  | Some r => mret (contactsWriteJSON red (search_json r))
  | None => reply (contactsErrorResult red "searching contacts"
                     (bare_error CodePayloadTooLarge "contact search result exceeds its byte limit"))
  end.

Definition getContactHandler (req : raw_arguments) : H_ CallToolResult :=
  args ← or_invalid (parseContactsArgs req ["address_book"; "uid"]);
  addressBook ← or_invalid (contactsRequiredIdentifier args "address_book" true);
  uid ← or_invalid (contactsRequiredIdentifier args "uid" false);
  call "getting contact" (Contacts.authorizeContactBook (DepScopes deps) ResourceContactsRead addressBook);;
  contact ← call "getting contact" (try (GetContact addressBook uid));
  match contact with
  | None => reply (contactsErrorResult red "getting contact"
                     (bare_error CodeProtocolError "Contacts service returned no contact"))
  | Some contact => mret (contactsWriteJSON red (contact_json contact))
  end.

(** A service call whose failure is audited. *)
Definition mutate {A} (tool resource context : string) (m : W → W * (A * option error)) : H_ A :=
  λ w, let '(w, (a, e)) := m w in
       match e with
       | None => (w, Ok a)
       | Some e => (contactsAudit tool resource (contactsAuditErrorStatus e);;
                    reply (contactsErrorResult red context (Some e))) w
       end.

Definition args_of (r : result string contactsRawArgs) : contactsRawArgs :=
  match r with Ok args => args | Err _ => ∅ end.

Definition create_args : list string :=
  ["address_book"; "display_name"; "name"; "organization"; "title"; "nickname"; "birthday"; "notes"; "emails"; "phones";
   "addresses"; "urls"; "client_uid"; "idempotency_key"].
Definition createContactHandler (req : raw_arguments) : H_ CallToolResult :=
  let parsed := parseContactsArgs req create_args in
  let uid := contactsRawString (args_of parsed) "client_uid" in
  let resource := if bool_decide (uid = "") then contactsRawString (args_of parsed) "idempotency_key" else uid in
  args ← or_deny "create_contact" resource parsed;
  input ← or_deny "create_contact" resource (parseCreateContactInput args);
  authorize_or_deny "create_contact" resource ResourceContactsWrite (CcAddressBook input);;
  r ← mutate "create_contact" resource "creating contact" (CreateContact input);
  contactsAudit "create_contact" (MrUID r) "success";;
  mret (contactsWriteJSON red (mutation_json r)).

Definition delete_args : list string := ["address_book"; "uid"; "etag"; "dry_run"].
Definition deleteContactHandler (req : raw_arguments) : H_ CallToolResult :=
  let parsed := parseContactsArgs req delete_args in
  let resource := contactsRawString (args_of parsed) "uid" in
  args ← or_deny "delete_contact" resource parsed;
  input ← or_deny "delete_contact" resource (parse_delete args);
  authorize_or_deny "delete_contact" resource ResourceContactsDelete (DcAddressBook input);;
  r ← mutate "delete_contact" resource "deleting contact" (DeleteContact input);
  contactsAudit "delete_contact" (CdUID r) (if DcDryRun input || CdDryRun r then "dry_run" else "success");;
  mret (contactsWriteJSON red (deletion_json r)).

(** The claim of an idempotency key: [Some (key, hash)] when this call owns
    it, [None] when no key was given. *)
Definition claim_key (resource idemKey : string) (input : UpdateContactInput) : H_ (option (string * string)) :=
  if bool_decide (idemKey = "") then mret None
  else
    let hash := hashIdempotencyParams (update_params input) in
    let nsKey := namespacedIdempotencyKey "update_contact" idemKey in
    v ← (λ w, let '(w, v) := beginContext nsKey hash w in (w, Ok v));
    match v with
    | Conflict =>
        contactsAudit "update_contact" resource "denied";;
        reply (contactsErrorResult red "validation"
                 (bare_error CodeConflict "idempotency_key was reused with different update parameters"))
    | Hit o => reply (cached_result red o)
    | Ready => mret (Some (nsKey, hash))
    | Refused | Wait _ =>
        ended ← (λ w, let '(w, e) := ctx_Err w in (w, Ok e));
        if bool_decide (is_Some ended) then
          contactsAudit "update_contact" resource "error";;
          reply (contactsErrorResult red "idempotency wait"
                   (bare_error CodeTimeout "tool deadline reached while waiting for the idempotency key"))
        else
          contactsAudit "update_contact" resource "denied";;
          reply (contactsErrorResult red "validation"
                   (bare_error CodeConflict "idempotency_key cache is full or the key is still pending; keep the key and retry later"))
    end.
Definition complete_claim (claim : option (string * string)) (result : option CallToolResult) (retain : bool) : H_ unit :=
  match claim with
  | None => mret tt
  | Some (key, hash) => effect (completeContext key hash result retain)
  end.
Definition uncertain (err : error) : bool :=
  match AsError err with
  | None => true
  | Some typed => bool_decide (ErrCode typed = CodeOutcomeUnknown) || bool_decide (ErrCode typed = CodeInternalError)
  end.
(** The update itself; a panic passes through the deferred completion. *)
Definition run_update (resource : string) (claim : option (string * string)) (input : UpdateContactInput)
    : H_ CallToolResult :=
  λ w,
    match update_panics input w with
    | Some (w, text) => (complete_claim claim None true;; fail (Panics text)) w
    | None =>
        let '(w, (r, e)) := UpdateContact input w in
        match e with
        | Some e =>
            let out := contactsErrorResult red "updating contact" (Some e) in
            (contactsAudit "update_contact" resource (contactsAuditErrorStatus e);;
             complete_claim claim (Some out) (uncertain e);; reply out) w
        | None =>
            let out := contactsWriteJSON red (mutation_json r) in
            (contactsAudit "update_contact" (MrUID r) "success";;
             complete_claim claim (Some out) (out_isError out);; mret out) w
        end
    end.

Definition update_args : list string :=
  ["address_book"; "uid"; "etag"; "idempotency_key"; "display_name"; "name"; "organization"; "title"; "nickname";
   "birthday"; "notes"; "emails"; "phones"; "addresses"; "urls"].
Definition updateContactHandler (req : raw_arguments) : H_ CallToolResult :=
  let parsed := parseContactsArgs req update_args in
  let resource := contactsRawString (args_of parsed) "uid" in
  args ← or_deny "update_contact" resource parsed;
  input ← or_deny "update_contact" resource (parseUpdateContactInput args);
  authorize_or_deny "update_contact" resource ResourceContactsWrite (UcAddressBook input);;
  '(idemKey, _) ← or_deny "update_contact" resource (contactsString args "idempotency_key" false contactsMaxUIDBytes true);
  claim ← claim_key resource idemKey input;
  run_update resource claim input.

(** What the caller gets: the handler's result, or that of the recovery
    middleware around it. *)
Definition handle (h : H_ CallToolResult) (w : W) : W * CallToolResult :=
  let '(w, r) := h w in
  (w, RecoverRedactMiddleware red (match r with Ok out => Returns out | Err e => e end)).
End Handlers.

(** * What a handler does to the outside

    The services of a world, observed: every call to the Contacts service and
    the store, and every audit record, in order. *)

Inductive mutation := MCreate (i : CreateContactInput) | MUpdate (i : UpdateContactInput) | MDelete (i : DeleteContactInput).
Inductive event :=
| EvList (books : list AddressBook) (e : option error)
| EvRead
| EvMutation (m : mutation) (e : option error)
| EvPanic (m : mutation)
| EvAudit (r : audit_record)
| EvBegin (key hash : string) (v : verdict (T:=json))
| EvComplete (key hash : string) (result : option CallToolResult) (retain : bool).

Section Observed.
Context {W : Type} `{ContactsService W, AuditStream W, IdemStore W, UpdatePanics W, Ctx W}.
Abbreviation OW := (W * list event)%type.

#[export] Instance observed_service : ContactsService OW := {|
  ListAddressBooks := observe ListAddressBooks (λ r, EvList r.1 r.2);
  SearchContacts opts := observe (SearchContacts opts) (λ _, EvRead);
  GetContact book uid := observe (GetContact book uid) (λ _, EvRead);
  CreateContact i := observe (CreateContact i) (λ r, EvMutation (MCreate i) r.2);
  UpdateContact i := observe (UpdateContact i) (λ r, EvMutation (MUpdate i) r.2);
  DeleteContact i := observe (DeleteContact i) (λ r, EvMutation (MDelete i) r.2);
|}.
#[export] Instance observed_audit : AuditStream OW :=
  {| audit_write r w := (audit_write r w.1, (w.2 ++ [EvAudit r])%list) |}.
#[export] Instance observed_store : IdemStore OW := {|
  beginContext key hash := observe (beginContext key hash) (EvBegin key hash);
  completeContext key hash result retain w :=
    (completeContext key hash result retain w.1, (w.2 ++ [EvComplete key hash result retain])%list);
|}.
#[export] Instance observed_panics : UpdatePanics OW :=
  {| update_panics i w := match update_panics i w.1 with
                          | Some (w1, text) => Some ((w1, (w.2 ++ [EvPanic (MUpdate i)])%list), text)
                          | None => None
                          end |}.
#[export] Instance observed_ctx : Ctx OW :=
  {| ctx_Err w := let '(w1, e) := ctx_Err w.1 in ((w1, w.2), e) |}.
Context `{UnicodeTables, MapOrder}.
Variable deps : ContactsDeps.

(** The audit record of one outcome, if there is a logger. *)
Definition audited (tool resource status : string) : list event :=
  if DepAudit deps
  then [EvAudit (LogDomainMutation (DepTokenKey deps) tool "contacts" "contact" resource status)] else [].
(** The discovery that grants a book to an action. *)
Definition grants (action book : string) (l : list event) : Prop :=
  match Contacts_scope (DepScopes deps) action with
  | None => l = []
  | Some values => ∃ books, l = [EvList books None] ∧ granted books values book
  end.
Definition error_end (r : result handler_end CallToolResult) : Prop :=
  ∃ out, r = Err (Returns out) ∧ out_isError out = true.

(** Refused: nothing but the discovery was asked for, one record says so, and
    the caller gets an error. *)
Definition refused_call (tool resource : string) (l : list event) (r : result handler_end CallToolResult) : Prop :=
  (∃ pre, (pre = [] ∨ ∃ books e, pre = [EvList books e]) ∧ l = (pre ++ audited tool resource "denied")%list)
  ∧ error_end r.

Lemma emits_audit {A} tool resource status (m : M OW handler_end A) (Q : list event → result handler_end A → Prop) :
  emits m (λ l r, Q (audited tool resource status ++ l)%list r) →
  emits (contactsAudit deps tool resource status;; m) Q.
Proof.
  intros Hm. eapply (emits_bind _ _ (λ l r, l = audited tool resource status ∧ r = Ok tt)).
  - intros st. unfold contactsAudit, audited. destruct (DepAudit deps); [by eexists|].
    exists []. by rewrite app_nil_r.
  - by intros l e [_ ?].
  - by intros l [] [-> _].
Qed.
Lemma emits_deny {A} tool resource msg (Q : list event → result handler_end A → Prop) :
  (∀ out, out_isError out = true → Q (audited tool resource "denied") (Err (Returns out))) →
  emits (deny (W:=OW) deps tool resource msg) Q.
Proof. intros HQ. apply emits_audit, emits_reply. rewrite app_nil_r. by apply HQ. Qed.

(** The error of a refusal, whatever type was expected. *)
Definition refuses {A} (tool resource : string) (Q : list event → result handler_end A → Prop) : Prop :=
  ∀ pre out, (pre = [] ∨ ∃ books e, pre = [EvList books e]) → out_isError out = true →
    Q (pre ++ audited tool resource "denied")%list (Err (Returns out)).
Lemma refuses_here {A} tool resource (Q : list event → result handler_end A → Prop) :
  refuses tool resource Q → ∀ out, out_isError out = true → Q (audited tool resource "denied") (Err (Returns out)).
Proof. intros HQ out. apply (HQ []). by left. Qed.
Lemma emits_or_deny {A B} tool resource (r : result string A) (f : A → M OW handler_end B) (Q : list event → result handler_end B → Prop) :
  (∀ out, out_isError out = true → Q (audited tool resource "denied") (Err (Returns out))) → (∀ a, r = Ok a → emits (f a) Q) → emits (or_deny deps tool resource r ≫= f) Q.
Proof.
  intros Hr Hf. destruct r as [a|msg].
  - eapply (emits_bind _ _ (λ l x, l = [] ∧ x = Ok a)); [by apply emits_ret|by intros ? ? [_ ?]|].
    intros l a' [-> [= <-]]. by apply Hf.
  - eapply (emits_bind _ _ (λ l x, ∃ out, out_isError out = true ∧ l = audited tool resource "denied" ∧ x = Err (Returns out))).
    + apply emits_deny. eauto.
    + intros l e (out & Hout & -> & [= ->]). by apply Hr.
    + by intros l a (? & ? & ? & ?).
Qed.

(** Authorization asks for the address books at most once. *)
Lemma observed_authorization action book :
  emits (Contacts.authorizeContactBook (W:=OW) (DepScopes deps) action book) (λ l r,
    (l = [] ∨ ∃ books e, l = [EvList books e]) ∧ (is_ok r = true → grants action book l)).
Proof.
  intros st. unfold Contacts.authorizeContactBook, Contacts.contactScopeAllows, Contacts.allowedContactBooks, grants.
  destruct (Contacts_scope (DepScopes deps) action) as [values|].
  2: { exists []. rewrite app_nil_r. split; [done|]. split; [by left|done]. }
  unfold mbind, M_bind, try, observed_service, observe. cbn [ListAddressBooks].
  destruct (ListAddressBooks st.1) as [w1 [books [e|]]]; cbn -[granted].
  { exists [EvList books (Some e)]. split; [done|]. split; [eauto|done]. }
  exists [EvList books None].
  destruct (fold_res (Contacts.allow_value books) values ∅) as [allowed|e] eqn:Hf; cbn -[granted].
  2: { split; [done|]. split; [eauto|done]. }
  case_bool_decide as Hin; cbn -[granted]; (split; [done|]; split; [by eauto|]); [|done].
  intros _. exists books. split; [done|]. apply (allow_values_spec _ _ _ _ Hf) in Hin. set_solver.
Qed.
Lemma emits_authorize {B} tool resource action book (m : M OW handler_end B) (Q : list event → result handler_end B → Prop) :
  refuses tool resource Q → (∀ pre, grants action book pre → emits m (λ l, Q (pre ++ l)%list)) →
  emits (authorize_or_deny deps tool resource action book;; m) Q.
Proof.
  intros Hr Hm.
  eapply (emits_bind _ _ (λ l x, match x with
    | Ok _ => grants action book l
    | Err e => ∃ pre out, (pre = [] ∨ ∃ books e, pre = [EvList books e]) ∧ out_isError out = true ∧
                 l = (pre ++ audited tool resource "denied")%list ∧ e = Returns out end)).
  - intros st. unfold authorize_or_deny.
    destruct (observed_authorization action book st) as (pre & Hpre & Hsh & Hg).
    destruct (Contacts.authorizeContactBook _ _ _ st) as [st1 [[]|e]]; simpl in *.
    + exists pre. split; [done|]. by apply Hg.
    + destruct (emits_deny (A:=unit) tool resource (error_text e) (λ l x, ∃ out, out_isError out = true ∧
         l = audited tool resource "denied" ∧ x = Err (Returns out))) with (st := st1) as (l & Hl & Hx); [eauto|].
      destruct (deny _ _ _ _ _) as [st2 x]. simpl in *. destruct Hx as (out & Hout & -> & ->).
      exists (pre ++ audited tool resource "denied")%list. rewrite Hl, Hpre, app_assoc. split; [done|].
      exists pre, out. done.
  - intros l e (pre & out & Hsh & Hout & -> & ->). by apply Hr.
  - intros l [] Hg. by apply Hm.
Qed.

(** A mutation reported as done. *)
Definition done_status (m : mutation) (status : string) : Prop :=
  match m with
  | MDelete i => status = "dry_run" ∨ (status = "success" ∧ DcDryRun i = false)
  | _ => status = "success"
  end.
Definition audit_status (m : mutation) (e : option error) (status : string) : Prop :=
  match e with Some err => status = contactsAuditErrorStatus err | None => done_status m status end.

(** What create and delete may do: refuse, or, once the book is granted, call
    the service once with the decoded input and record the outcome. *)
Definition one_mutation (tool action : string) (decoded : option (mutation * string))
    (l : list event) (r : result handler_end CallToolResult) : Prop :=
  (∃ resource, refused_call tool resource l r) ∨
  ∃ m book pre e resource status, decoded = Some (m, book) ∧ grants action book pre ∧ audit_status m e status ∧
    l = (pre ++ EvMutation m e :: audited tool resource status)%list ∧
    match e with Some _ => error_end r | None => is_ok r = true end.

Lemma refuses_one tool resource action decoded : refuses tool resource (one_mutation tool action decoded).
Proof. intros pre out Hpre Hout. left. exists resource. split; [by exists pre|by exists out]. Qed.

(** The mutating call, its failure audited; [obs]: what the observed call is. *)
Lemma emits_mutate {A} tool action resource context m book pre (f : W → W * (A * option error))
    (k : A → M OW handler_end CallToolResult) :
  grants action book pre →
  (∀ a, ∃ resource' status out, done_status m status ∧
     emits (k a) (λ l r, l = audited tool resource' status ∧ r = Ok out)) →
  emits (mutate deps tool resource context (observe f (λ r, EvMutation m r.2)) ≫= k)
    (λ l, one_mutation tool action (Some (m, book)) (pre ++ l)%list).
Proof.
  intros Hg Hk.
  eapply (emits_bind _ _ (λ l x, match x with
    | Ok _ => l = [EvMutation m None]
    | Err e => ∃ err out, l = EvMutation m (Some err) :: audited tool resource (contactsAuditErrorStatus err) ∧
                 e = Returns out ∧ out_isError out = true end)).
  - intros st. unfold mutate, observe. destruct (f st.1) as [w1 [a [err|]]]; cbn [fst snd].
    + unfold contactsAudit, audited, effect, reply, fail, mbind, M_bind, mret, M_ret.
      destruct (DepAudit deps); cbn; eexists; rewrite <-?app_assoc; (split; [reflexivity|]); by eexists _, _.
    + by eexists.
  - intros l e (err & out & -> & -> & Hout). right. exists m, book, pre, (Some err), resource, (contactsAuditErrorStatus err).
    split_and!; try done. by exists out.
  - intros l a ->. destruct (Hk a) as (resource' & status & out & Hst & He).
    eapply emits_weaken; [exact He|]. intros l r [-> ->]. right.
    exists m, book, pre, None, resource', status. by split_and!.
Qed.
Lemma emits_done {A} tool resource status (out : A) :
  emits (contactsAudit (W:=OW) deps tool resource status;; mret out)
    (λ l r, l = audited tool resource status ∧ r = Ok out).
Proof. apply emits_audit, emits_ret. by rewrite app_nil_r. Qed.

Definition decoded_create (req : raw_arguments) : option (mutation * string) :=
  match (args ← parseContactsArgs req create_args; parseCreateContactInput args) with
  | Ok i => Some (MCreate i, CcAddressBook i) | Err _ => None
  end.
Definition decoded_delete (req : raw_arguments) : option (mutation * string) :=
  match (args ← parseContactsArgs req delete_args; parse_delete args) with
  | Ok i => Some (MDelete i, DcAddressBook i) | Err _ => None
  end.

Lemma create_once req :
  emits (createContactHandler (W:=OW) deps req)
    (one_mutation "create_contact" ResourceContactsWrite (decoded_create req)).
Proof.
  unfold createContactHandler, decoded_create.
  apply emits_or_deny; [apply refuses_here, refuses_one|]. intros args Hargs.
  apply emits_or_deny; [apply refuses_here, refuses_one|]. intros input Hinput.
  rewrite Hargs. cbn [mbind result_bind]. rewrite Hinput.
  apply emits_authorize; [apply refuses_one|]. intros pre Hpre.
  apply emits_mutate; [done|]. intros r. eexists _, _, _. split; [|apply emits_done]. done.
Qed.
Lemma delete_once req :
  emits (deleteContactHandler (W:=OW) deps req)
    (one_mutation "delete_contact" ResourceContactsDelete (decoded_delete req)).
Proof.
  unfold deleteContactHandler, decoded_delete.
  apply emits_or_deny; [apply refuses_here, refuses_one|]. intros args Hargs.
  apply emits_or_deny; [apply refuses_here, refuses_one|]. intros input Hinput.
  rewrite Hargs. cbn [mbind result_bind]. rewrite Hinput.
  apply emits_authorize; [apply refuses_one|]. intros pre Hpre.
  apply emits_mutate; [done|]. intros r. eexists _, _, _. split; [|apply emits_done].
  cbn [done_status]. destruct (DcDryRun input), (CdDryRun r); auto.
Qed.

(** ** Updates *)

(** The key and the hash under which an update claims the store. *)
Definition update_claim (idemKey : string) (input : UpdateContactInput) : option (string * string) :=
  if bool_decide (idemKey = "") then None
  else Some (namespacedIdempotencyKey "update_contact" idemKey, hashIdempotencyParams (update_params input)).
Definition claimed (claim : option (string * string)) : list event :=
  match claim with Some (k, h) => [EvBegin k h Ready] | None => [] end.
Definition released (claim : option (string * string)) (result : option CallToolResult) (retain : bool) : list event :=
  match claim with Some (k, h) => [EvComplete k h result retain] | None => [] end.

(** The store did not grant the claim: nothing is updated. *)
Definition not_owner (claim : option (string * string)) (l : list event) (r : result handler_end CallToolResult) : Prop :=
  ∃ k h v, claim = Some (k, h) ∧ v ≠ Ready ∧
    match v with
    | Hit o => l = [EvBegin k h v] ∧ r = Err (Returns (cached_result (DepRedactor deps) o))
    | _ => ∃ resource status, status ∈ ["denied"; "error"] ∧
             l = EvBegin k h v :: audited "update_contact" resource status ∧ error_end r
    end.
(** One update, between the claim and its completion: the result is stored,
    and retained for good when what happened is uncertain. *)
Definition update_run (claim : option (string * string)) (input : UpdateContactInput)
    (l : list event) (r : result handler_end CallToolResult) : Prop :=
  (∃ e resource status out, audit_status (MUpdate input) e status ∧
     l = (claimed claim ++ EvMutation (MUpdate input) e :: audited "update_contact" resource status
            ++ released claim (Some out) (match e with Some err => uncertain err | None => out_isError out end))%list ∧
     match e with Some _ => r = Err (Returns out) ∧ out_isError out = true | None => r = Ok out end) ∨
  (∃ text, l = (claimed claim ++ EvPanic (MUpdate input) :: released claim None true)%list ∧ r = Err (Panics text)).
Definition one_update (req : raw_arguments) (l : list event) (r : result handler_end CallToolResult) : Prop :=
  (∃ resource, refused_call "update_contact" resource l r) ∨
  ∃ args input idemKey present pre l', parseContactsArgs req update_args = Ok args ∧
    parseUpdateContactInput args = Ok input ∧
    contactsString args "idempotency_key" false contactsMaxUIDBytes true = Ok (idemKey, present) ∧
    grants ResourceContactsWrite (UcAddressBook input) pre ∧ l = (pre ++ l')%list ∧
    (not_owner (update_claim idemKey input) l' r ∨ update_run (update_claim idemKey input) input l' r).

Lemma emits_complete {A} claim result retain (m : M OW handler_end A) (Q : list event → _ → Prop) :
  emits m (λ l r, Q (released claim result retain ++ l)%list r) →
  emits (complete_claim claim result retain;; m) Q.
Proof.
  intros Hm. eapply (emits_bind _ _ (λ l r, l = released claim result retain ∧ r = Ok tt)).
  - intros st. destruct claim as [[k h]|]; [by eexists|]. exists []. by rewrite app_nil_r.
  - by intros l e [_ ?].
  - by intros l [] [-> _].
Qed.

Lemma run_update_once resource claim input :
  emits (run_update (W:=OW) deps resource claim input)
    (λ l r, update_run claim input (claimed claim ++ l)%list r).
Proof.
  intros st. unfold run_update, observed_panics, observed_service, observe. cbn [update_panics UpdateContact].
  destruct (update_panics input st.1) as [[w1 text]|].
  - destruct (emits_complete (A:=CallToolResult) claim None true (fail (Panics text))
      (λ l r, l = released claim None true ∧ r = Err (Panics text))) with (st := (w1, (st.2 ++ [EvPanic (MUpdate input)])%list))
      as (l & Hl & -> & Hr).
    { apply emits_fail. by rewrite app_nil_r. }
    exists (EvPanic (MUpdate input) :: released claim None true). split.
    + rewrite Hl. cbn [the_log log_second snd]. by rewrite <-app_assoc.
    + right. by exists text.
  - destruct (UpdateContact input st.1) as [w1 [res [err|]]]; cbn [fst snd].
    + set (out := contactsErrorResult (DepRedactor deps) "updating contact" (Some err)).
      match goal with |- context [?f (w1, ?lg)] =>
        assert (emits f (λ l r, l = (audited "update_contact" resource (contactsAuditErrorStatus err) ++
          released claim (Some out) (uncertain err))%list ∧ r = Err (Returns out))) as He end.
      { apply emits_audit, emits_complete, emits_reply. by rewrite app_nil_r. }
      destruct (He (w1, (st.2 ++ [EvMutation (MUpdate input) (Some err)])%list)) as (l & Hl & -> & Hr).
      eexists (EvMutation (MUpdate input) (Some err) :: _). split.
      * rewrite Hl. cbn [the_log log_second snd]. by rewrite <-app_assoc.
      * left. exists (Some err), resource, (contactsAuditErrorStatus err), out. by rewrite Hr.
    + set (out := contactsWriteJSON (DepRedactor deps) (mutation_json res)).
      match goal with |- context [?f (w1, ?lg)] =>
        assert (emits f (λ l r, l = (audited "update_contact" (MrUID res) "success" ++
          released claim (Some out) (out_isError out))%list ∧ r = Ok out)) as He end.
      { apply emits_audit, emits_complete, emits_ret. by rewrite app_nil_r. }
      destruct (He (w1, (st.2 ++ [EvMutation (MUpdate input) None])%list)) as (l & Hl & -> & Hr).
      eexists (EvMutation (MUpdate input) None :: _). split.
      * rewrite Hl. cbn [the_log log_second snd]. by rewrite <-app_assoc.
      * left. exists None, (MrUID res), "success", out. by rewrite Hr.
Qed.

Lemma claim_key_log resource idemKey input :
  emits (claim_key (W:=OW) deps resource idemKey input) (λ l r,
    match r with
    | Ok claim => claim = update_claim idemKey input ∧ l = claimed claim
    | Err e => not_owner (update_claim idemKey input) l (Err e)
    end).
Proof.
  unfold claim_key, update_claim. case_bool_decide as Hk; [by apply emits_ret|].
  set (k := namespacedIdempotencyKey _ _). set (h := hashIdempotencyParams _).
  eapply (emits_bind _ _ (λ l r, ∃ v, l = [EvBegin k h v] ∧ r = Ok v)).
  { intros st. cbn [beginContext observed_store]. unfold observe. destruct (beginContext k h st.1) as [w1 v].
    exists [EvBegin k h v]. split; [done|]. by exists v. }
  { by intros l e (? & ? & ?). }
  intros l v (_ & -> & [= <-]).
  assert (∀ status context e, v ≠ Ready → (∀ o, v ≠ Hit o) → status ∈ ["denied"; "error"] →
    emits (contactsAudit deps "update_contact" resource status;; reply (contactsErrorResult (DepRedactor deps) context e))
      (λ l r, match r with Ok claim => claim = Some (k, h) ∧ [EvBegin k h v] ++ l = claimed claim
              | Err e => not_owner (Some (k, h)) ([EvBegin k h v] ++ l) (Err e) end)%list) as Hno.
  { intros status context e Hv Hh Hs. apply emits_audit, emits_reply. rewrite app_nil_r.
    exists k, h, v. split; [done|]. split; [done|]. destruct v; try done; try (by exfalso; eapply Hh);
      exists resource, status; (split_and!; [done..|]); by eexists. }
  assert (v = Refused ∨ (∃ id, v = Wait id) → emits
    (ended ← (λ w, let '(w, e) := ctx_Err w in (w, Ok e));
     if bool_decide (is_Some ended)
     then contactsAudit deps "update_contact" resource "error";; reply (contactsErrorResult (DepRedactor deps) "idempotency wait"
            (bare_error CodeTimeout "tool deadline reached while waiting for the idempotency key"))
     else contactsAudit deps "update_contact" resource "denied";; reply (contactsErrorResult (DepRedactor deps) "validation"
            (bare_error CodeConflict "idempotency_key cache is full or the key is still pending; keep the key and retry later")))
      (λ l r, match r with Ok claim => claim = Some (k, h) ∧ [EvBegin k h v] ++ l = claimed claim
              | Err e => not_owner (Some (k, h)) ([EvBegin k h v] ++ l) (Err e) end)%list) as Hwait.
  { intros Hv. eapply (emits_bind _ _ (λ l r, l = [] ∧ is_ok r = true)).
    - intros st. cbn [ctx_Err observed_ctx]. destruct (ctx_Err st.1) as [w1 e]. exists []. by rewrite app_nil_r.
    - by intros l e [_ ?].
    - intros l ended [-> _]. cbn [app].
      assert (v ≠ Ready ∧ ∀ o, v ≠ Hit o) as [Hr Hh] by (destruct Hv as [->|[? ->]]; done).
      destruct (bool_decide _); (apply Hno; [done..|]); [by right; left|by left]. }
  destruct v as [| |o| |id]; [apply Hwait; by left|apply Hno; [done..|by left]| |by apply emits_ret|apply Hwait; eauto].
  apply emits_reply. exists k, h, (Hit o). done.
Qed.

Lemma update_once req : emits (updateContactHandler (W:=OW) deps req) (one_update req).
Proof.
  assert (∀ resource, refuses "update_contact" resource (one_update req)) as Href.
  { intros resource pre out Hpre Hout. left. exists resource. split; [by exists pre|by exists out]. }
  unfold updateContactHandler.
  apply emits_or_deny; [apply refuses_here, Href|]. intros args Hargs.
  apply emits_or_deny; [apply refuses_here, Href|]. intros input Hinput.
  apply emits_authorize; [done|]. intros pre Hpre.
  apply emits_or_deny.
  { intros out Hout. apply Href; [|done]. revert Hpre. unfold grants. destruct (Contacts_scope _ _); [|by left].
    intros (books & -> & _). eauto. }
  intros [idemKey present] Hkey.
  eapply emits_bind; [apply claim_key_log|cbn beta iota..].
  - intros l e Hno. right. exists args, input, idemKey, present, pre, l. auto 10.
  - intros l claim [-> ->]. eapply emits_weaken; [apply run_update_once|].
    intros l r Hrun. right. exists args, input, idemKey, present, pre, (claimed (update_claim idemKey input) ++ l)%list. auto 10.
Qed.

(** ** Reads *)

(** A result is one text, within the limit unless it is an error. *)
Definition within_limit (out : CallToolResult) : Prop :=
  ∃ text, content out = [Some text] ∧ (out_isError out = true ∨ len text <= contactsMaxResultBytes).
Lemma structured_within text : len text <= contactsMaxResultBytes → within_limit (structuredOrText text).
Proof.
  intros Hl. unfold structuredOrText. exists text.
  destruct (json_parse _) as [v|]; [destruct v; try destruct (numbers_fit _)|]; cbn; auto.
Qed.
Lemma write_json_within red v : within_limit (contactsWriteJSON red v).
Proof.
  unfold contactsWriteJSON. destruct (contactsMaxResultBytes <? _) eqn:Hl.
  - eexists. split; [reflexivity|by left].
  - by apply structured_within, Z.ltb_ge.
Qed.

Definition is_query (ev : event) : Prop := match ev with EvList _ _ | EvRead => True | _ => False end.
(** A read changes nothing and answers within the limit, or with an error. *)
Definition read_only (l : list event) (r : result handler_end CallToolResult) : Prop :=
  Forall is_query l ∧ match r with Ok out => within_limit out | Err e => error_end (Err e) end.

Lemma emits_or_invalid {A B} (r : result string A) (f : A → M OW handler_end B) (Q : list event → result handler_end B → Prop) :
  (∀ out, out_isError out = true → Q [] (Err (Returns out))) → (∀ a, r = Ok a → emits (f a) Q) →
  emits (or_invalid deps r ≫= f) Q.
Proof.
  intros Hr Hf. destruct r as [a|msg].
  - eapply (emits_bind _ _ (λ l x, l = [] ∧ x = Ok a)); [by apply emits_ret|by intros ? ? [_ ?]|].
    intros l a' [-> [= <-]]. by apply Hf.
  - eapply (emits_bind _ _ (λ l x, l = [] ∧ ∃ out, out_isError out = true ∧ x = Err (Returns out))).
    + apply emits_reply. split; [done|]. eexists. by split; [|reflexivity].
    + intros l e (-> & out & Hout & [= ->]). by apply Hr.
    + by intros l a (? & ? & ? & ?).
Qed.
(** A call to the service, its failure shown to the caller. *)
Lemma emits_call {A B} context (m : M OW error A) (P : list event → result error A → Prop) (f : A → M OW handler_end B)
    (Q : list event → result handler_end B → Prop) :
  emits m P →
  (∀ l e out, P l (Err e) → out_isError out = true → Q l (Err (Returns out))) →
  (∀ l a, P l (Ok a) → emits (f a) (λ l', Q (l ++ l')%list)) →
  emits (call deps context m ≫= f) Q.
Proof.
  intros Hm He Hf.
  eapply (emits_bind _ _ (λ l x, match x with Ok a => P l (Ok a)
     | Err x => ∃ e out, P l (Err e) ∧ out_isError out = true ∧ x = Returns out end)).
  - intros st. destruct (Hm st) as (l & Hl & HP). unfold call, map_err.
    destruct (m st) as [st1 [a|e]]; exists l; (split; [done|]); [done|].
    eexists e, _. split; [exact HP|]. by split; [|reflexivity].
  - intros l x (e & out & HP & Hout & ->). by eapply He.
  - intros l a HP. by apply Hf.
Qed.
Lemma emits_observed {A} (f : W → W * (A * option error)) (ev : A * option error → event) :
  (∀ r, is_query (ev r)) →
  emits (try (observe f ev)) (λ l _, Forall is_query l ∧ ∃ r, l = [ev r]).
Proof.
  intros Hev st. unfold try, observe. destruct (f st.1) as [w1 [a e]]. exists [ev (a, e)].
  split; [done|]. split; [by apply Forall_singleton|eauto].
Qed.

Lemma allowed_books_queries action :
  emits (Contacts.allowedContactBooks (W:=OW) (DepScopes deps) action) (λ l _, Forall is_query l).
Proof.
  intros st. unfold Contacts.allowedContactBooks.
  destruct (Contacts_scope (DepScopes deps) action) as [values|]; [|by exists []; rewrite app_nil_r].
  unfold mbind, M_bind, try, observed_service, observe. cbn [ListAddressBooks].
  destruct (ListAddressBooks st.1) as [w1 [books [e|]]]; cbn.
  - exists [EvList books (Some e)]. split; [done|]. by apply Forall_singleton.
  - exists [EvList books None]. split; [by destruct (fold_res _ values ∅)|]. by apply Forall_singleton.
Qed.
Lemma emits_queries {A B} (m : M OW error A) (f : A → M OW error B) :
  emits m (λ l _, Forall is_query l) → (∀ a, emits (f a) (λ l _, Forall is_query l)) →
  emits (m ≫= f) (λ l _, Forall is_query l).
Proof.
  intros Hm Hf. eapply emits_bind; [exact Hm|done|]. intros l a Hl. eapply emits_weaken; [apply Hf|].
  intros l' r Hl'. by apply Forall_app.
Qed.
Lemma search_queries opts :
  emits (Contacts.searchScopedContacts (W:=OW) (DepScopes deps) opts) (λ l _, Forall is_query l).
Proof.
  assert (∀ o, emits (try (SearchContacts (W:=OW) o)) (λ l _, Forall is_query l)) as Hs.
  { intros o. eapply emits_weaken; [by apply (emits_observed _ (λ _, EvRead))|]. by intros l r [? _]. }
  unfold Contacts.searchScopedContacts. destruct (decide _).
  - apply emits_queries; [eapply emits_weaken; [apply observed_authorization|]|].
    + intros l r [[->|(books & e & ->)] _]; [done|by apply Forall_singleton].
    + intros []. apply emits_queries; [done|]. intros r. by apply emits_ret.
  - apply emits_queries; [apply allowed_books_queries|]. intros [allowed|]; [|done].
    apply emits_queries; [|intros; by apply emits_ret].
    eapply emits_weaken; [apply (emits_foldM _ is_query (λ _, True)); [done|]|by intros l r [? _]].
    intros c id _ _. unfold Contacts.search_book.
    eapply emits_weaken; [apply emits_queries; [done|]|intros l [] Hl; by split].
    intros part. by apply emits_ret.
Qed.

Lemma read_error l out : Forall is_query l → out_isError out = true → read_only l (Err (Returns out)).
Proof. intros Hl Hout. split; [done|]. by exists out. Qed.

Lemma list_reads req : emits (listAddressBooksHandler (W:=OW) deps req) read_only.
Proof.
  unfold listAddressBooksHandler.
  apply emits_or_invalid; [intros; by apply read_error|]. intros _ _.
  eapply (emits_call _ _ (λ l _, Forall is_query l)).
  { eapply emits_weaken; [by apply (emits_observed _ (λ r, EvList r.1 r.2))|]. by intros l r [? _]. }
  { intros; by apply read_error. }
  intros l books Hl. eapply (emits_call _ _ (λ l _, Forall is_query l)).
  { unfold Contacts.filterAddressBooks. apply emits_queries; [apply allowed_books_queries|].
    intros a. by apply emits_ret. }
  { intros l' e out Hl' Hout. apply read_error; [by apply Forall_app|done]. }
  intros l' books' Hl'. destruct (_ <? _).
  - apply emits_reply. apply read_error; [rewrite app_nil_r; by apply Forall_app|done].
  - apply emits_ret. split; [rewrite app_nil_r; by apply Forall_app|apply write_json_within].
Qed.
Lemma search_reads req : emits (searchContactsHandler (W:=OW) deps req) read_only.
Proof.
  unfold searchContactsHandler.
  apply emits_or_invalid; [intros; by apply read_error|]. intros args _.
  apply emits_or_invalid; [intros; by apply read_error|]. intros opts _.
  eapply (emits_call _ _ (λ l _, Forall is_query l)); [apply search_queries|intros; by apply read_error|].
  intros l r Hl. destruct (fit_results _ _ _) as [r'|].
  - apply emits_ret. split; [by rewrite app_nil_r|apply write_json_within].
  - apply emits_reply. apply read_error; [by rewrite app_nil_r|done].
Qed.

(** One contact is only read from a book in the scope. *)
Definition granted_read (l : list event) : Prop :=
  EvRead ∈ l → ∃ pre book, grants ResourceContactsRead book pre ∧ l = (pre ++ [EvRead])%list.
Lemma no_read l : (l = [] ∨ ∃ books e, l = [EvList books e]) → Forall is_query l ∧ granted_read l.
Proof.
  intros [->|(books & e & ->)]; (split; [done || by apply Forall_singleton|]).
  - by intros ?%not_elem_of_nil.
  - by intros ?%list_elem_of_singleton.
Qed.
Lemma get_reads req :
  emits (getContactHandler (W:=OW) deps req) (λ l r, read_only l r ∧ granted_read l).
Proof.
  unfold getContactHandler.
  assert (∀ l out, (l = [] ∨ ∃ books e, l = [EvList books e]) → out_isError out = true →
    read_only l (Err (Returns out)) ∧ granted_read l) as Hinv.
  { intros l out [Hq Hg]%no_read Hout. split; [by apply read_error|done]. }
  apply emits_or_invalid; [intros; apply Hinv; auto|]. intros args _.
  apply emits_or_invalid; [intros; apply Hinv; auto|]. intros book _.
  apply emits_or_invalid; [intros; apply Hinv; auto|]. intros uid _.
  eapply emits_call; [apply (observed_authorization ResourceContactsRead book)|intros l e out [Hl _]; by apply Hinv|].
  intros pre [] [Hpre Hg]. specialize (Hg eq_refl). apply no_read in Hpre as [Hq _].
  assert (∀ r, match r with Ok out => within_limit out | Err e => error_end (Err e) end →
    read_only (pre ++ [EvRead])%list r ∧ granted_read (pre ++ [EvRead])%list) as Hread.
  { intros r Hr. split; [split; [|done]|].
    - apply Forall_app. split; [done|]. by apply Forall_singleton.
    - intros _. by exists pre, book. }
  eapply emits_call; [by apply (emits_observed _ (λ _, EvRead))| |].
  { intros l e out (_ & r & ->) Hout. apply Hread. by exists out. }
  intros l [contact|] (_ & r & ->).
  - apply emits_ret. apply Hread, write_json_within.
  - apply emits_reply. apply Hread. eexists. by split; [reflexivity|].
Qed.
End Observed.

(** (C6) What the Contacts tools may do, whatever the service, the store and
    the request are.  Creating and deleting either refuse (after at most one
    discovery, with a record of the denial and an error for the caller), or
    call the service exactly once, with the input the arguments spell, for an
    address book that the configured scope grants to that action, and record
    the outcome.  Updating moreover goes through the idempotency store when a
    key is given: without the claim nothing is written, and with it the claim
    is always completed with the result the caller gets - for good when the
    outcome is uncertain, even if the service panics. *)
Theorem contact_mutations_authorized {W} `{ContactsService W, AuditStream W, IdemStore W, UpdatePanics W, Ctx W}
    `{UnicodeTables, MapOrder} (deps : ContactsDeps) (req : raw_arguments) :
  emits (createContactHandler (W:=W * list event) deps req)
    (one_mutation deps "create_contact" ResourceContactsWrite (decoded_create req)) ∧
  emits (deleteContactHandler (W:=W * list event) deps req)
    (one_mutation deps "delete_contact" ResourceContactsDelete (decoded_delete req)) ∧
  emits (updateContactHandler (W:=W * list event) deps req) (one_update deps req).
Proof. split_and!; [apply create_once|apply delete_once|apply update_once]. Qed.

(** A mutation whose authorization fails, for whatever reason (a book outside
    the scope, or a discovery that was rate limited), is reported as a
    validation error that must not be retried. *)
Lemma denied_as_validation {W} `{ContactsService W, AuditStream W} deps tool resource action book (w w1 : W) e :
  Contacts.authorizeContactBook (DepScopes deps) action book w = (w1, Err e) →
  (∃ w2, authorize_or_deny deps tool resource action book w
     = (w2, Err (Returns (contactsValidationResult (DepRedactor deps) (error_text e))))) ∧
  PlCode (contacts_payload (DepRedactor deps) "validation" (bare_error CodeValidation (error_text e))) = "validation" ∧
  PlRetryable (contacts_payload (DepRedactor deps) "validation" (bare_error CodeValidation (error_text e))) = false.
Proof.
  intros Hauth. split; [|done]. unfold authorize_or_deny. rewrite Hauth.
  unfold deny, contactsAudit, effect, reply, fail, mbind, M_bind, mret, M_ret. destruct (DepAudit deps); by eexists.
Qed.

(** * What decoding lets through *)

Section Decoded.
Context `{UnicodeTables, MapOrder}.

(** A text within its limit (0: none), without control characters, on one
    line where asked. *)
Definition text_ok (maxBytes : Z) (singleLine : bool) (s : string) : Prop :=
  valid_utf8 (bytes s) = true ∧ (0 < maxBytes → len s <= maxBytes) ∧
  (∀ rw, rw ∈ runes (bytes s) → control_rune rw.1 = false) ∧
  (singleLine = true → contains_any s line_breaks = false).
Lemma text_ok_empty maxBytes singleLine : text_ok maxBytes singleLine "".
Proof. split_and!; [done|intros; change (len "") with 0; lia|by intros rw ?%not_elem_of_nil|done]. Qed.
Lemma contactsString_ok args key required maxBytes singleLine v p :
  contactsString args key required maxBytes singleLine = Ok (v, p) → text_ok maxBytes singleLine v.
Proof.
  unfold contactsString. destruct (args !! key) as [raw|].
  2: { destruct required; [done|]. intros [= <- <-]. apply text_ok_empty. }
  destruct (as_string raw) as [value|]; [|done]. destruct (valid_utf8 _) eqn:Hv; [|done]. cbn [negb].
  destruct ((0 <? maxBytes) && _) eqn:Hm; [done|]. destruct (existsb _ _) eqn:Hc; [done|].
  destruct (singleLine && _) eqn:Hs; [done|]. intros [= <- <-]. split_and!.
  - done.
  - intros Hpos. apply andb_false_iff in Hm as [Hm|Hm]; bool_to_prop; lia.
  - intros rw Hrw. destruct (control_rune rw.1) eqn:Hr; [|done].
    assert (existsb (λ rw, control_rune rw.1) (runes (bytes value)) = true); [|congruence].
    apply List.existsb_exists. exists rw. split; [by apply list_elem_of_In|done].
  - intros ->. done.
Qed.

(** The values a loop over fields collects. *)
Definition texts_ok (fields : list (string * (Z * bool))) (values : gmap string string) : Prop :=
  ∀ k v, values !! k = Some v → ∃ f, f ∈ fields ∧ f.1 = k ∧ text_ok f.2.1 f.2.2 v.
Lemma read_texts_ok args fields values : read_texts args fields = Ok values → texts_ok fields values.
Proof.
  unfold read_texts. pose proof (map_order_perm fields) as Hperm.
  assert (∀ l vs vs', (∀ f, f ∈ l → f ∈ fields) → texts_ok fields vs → fold_res (read_text args) l vs = Ok vs' →
    texts_ok fields vs') as Hgen.
  { induction l as [|f l IH]; intros vs vs' Hl Hvs; cbn [fold_res]; [by intros [= <-]|].
    unfold read_text at 1. destruct (contactsString args f.1 false f.2.1 f.2.2) as [[v p]|e] eqn:Hs; [|done].
    apply IH; [intros; apply Hl; by right|]. destruct p; [|done].
    intros k w. destruct (decide (f.1 = k)) as [<-|Hk].
    - rewrite lookup_insert_eq. intros [= <-]. exists f. split; [apply Hl; by left|].
      split; [done|by eapply contactsString_ok].
    - rewrite lookup_insert_ne by done. apply Hvs. }
  apply Hgen; [intros f; by rewrite Hperm|]. by intros k v Hk.
Qed.
Lemma text_of_ok fields values k m s :
  texts_ok fields values → (∀ f, f ∈ fields → f.1 = k → f.2 = (m, s)) → text_ok m s (text_of values k).
Proof.
  intros Hv Hf. unfold text_of. destruct (values !! k) as [v|] eqn:Hk; [|apply text_ok_empty].
  destruct (Hv k v Hk) as (f & Hin & Hk' & Hok). by rewrite (Hf f Hin Hk') in Hok.
Qed.

Definition typed_ok (maxItems maxValueBytes : Z) (l : list TypedValue) : Prop :=
  zlen l <= maxItems ∧ ∀ v, v ∈ l →
    text_ok contactsMaxTypeBytes true (TvType v) ∧ validContactsType (TvType v) = true ∧
    text_ok maxValueBytes true (TvValue v) ∧ trim_space (TvValue v) ≠ "".
Definition addresses_ok (l : list PostalAddress) : Prop :=
  zlen l <= contactsMaxAddresses ∧ ∀ a, a ∈ l →
    text_ok contactsMaxTypeBytes true (AdrType a) ∧ validContactsType (AdrType a) = true ∧
    ∀ s, s ∈ [PostOfficeBox a; ExtendedAddress a; StreetAddress a; Locality a; Region a; PostalCode a; Country a] →
      text_ok contactsMaxTextBytes true s.
Definition name_ok (n : StructuredName) : Prop :=
  ∀ s, s ∈ [FamilyName n; GivenName n; AdditionalName n; HonorificPrefix n; HonorificSuffix n] →
    text_ok contactsMaxTextBytes true s.

Lemma prefix_err_ok {A} path (r : result string A) a : prefix_err path r = Ok a → r = Ok a.
Proof. by destruct r. Qed.
Lemma read_fields_ok path object (fields : list (string * Z)) values :
  fold_res (read_field path object) fields ∅ = Ok values → texts_ok (map (λ kl, (kl.1, (kl.2, true))) fields) values.
Proof.
  assert (∀ l vs vs', (∀ f, f ∈ l → f ∈ fields) → texts_ok (map (λ kl, (kl.1, (kl.2, true))) fields) vs →
    fold_res (read_field path object) l vs = Ok vs' → texts_ok (map (λ kl, (kl.1, (kl.2, true))) fields) vs') as Hgen.
  { induction l as [|f l IH]; intros vs vs' Hl Hvs; cbn [fold_res]; [by intros [= <-]|].
    unfold read_field at 1. destruct (prefix_err _ _) as [[v p]|e] eqn:Hs; [|done]. apply prefix_err_ok in Hs.
    apply IH; [intros; apply Hl; by right|]. destruct p; [|done].
    intros k w. destruct (decide (f.1 = k)) as [<-|Hk].
    - rewrite lookup_insert_eq. intros [= <-]. exists (f.1, (f.2, true)). split; [|split; [done|by eapply contactsString_ok]].
      apply list_elem_of_fmap. exists f. split; [done|apply Hl; by left].
    - rewrite lookup_insert_ne by done. apply Hvs. }
  apply Hgen; [done|]. by intros k v Hk.
Qed.
(** Every field of the table named [k] has the limits given. *)
Ltac find_field := intros f Hf Hk; repeat (apply elem_of_cons in Hf as [->|Hf]; [try done; simpl in *; congruence|]);
  by apply not_elem_of_nil in Hf.

Lemma parseContactsName_ok raw path n : parseContactsName raw path = Ok n → name_ok n.
Proof.
  unfold parseContactsName. destruct (parseContactsObject _ _ _) as [object|]; [|done]. cbn [mbind result_bind].
  destruct (fold_res _ _ ∅) as [values|] eqn:Hv; [|done]. intros [= <-]. apply read_fields_ok in Hv.
  intros s Hs. repeat (apply elem_of_cons in Hs as [->|Hs]; [eapply text_of_ok; [exact Hv|cbn; find_field]|]).
  by apply not_elem_of_nil in Hs.
Qed.
Lemma parse_items_ok {A} (parse : string → json → result string A) (P : A → Prop) key index items vs :
  (∀ path item v, parse path item = Ok v → P v) → parse_items_from parse key index items = Ok vs →
  zlen vs = zlen items ∧ ∀ v, v ∈ vs → P v.
Proof.
  intros HP. revert index vs. induction items as [|item items IH]; intros index vs; cbn.
  { intros [= <-]. split; [done|by intros v ?%not_elem_of_nil]. }
  destruct (parse _ item) as [v|] eqn:Hv; [|done]. cbn.
  destruct (parse_items_from parse key (S index) items) as [vs1|] eqn:Hvs; [|done]. intros [= <-].
  destruct (IH _ _ Hvs) as [Hl Hin]. split; [unfold zlen in *; simpl; lia|].
  intros w [->|Hw]%elem_of_cons; [by eapply HP|by apply Hin].
Qed.
Lemma parse_array_ok {A} (parse : string → json → result string A) (P : A → Prop) args key maxItems o :
  0 <= maxItems → (∀ path item v, parse path item = Ok v → P v) → parse_array parse args key maxItems = Ok o →
  zlen (default [] o) <= maxItems ∧ ∀ v, v ∈ default [] o → P v.
Proof.
  intros Hmax HP. unfold parse_array, contactsArray. destruct (args !! key) as [raw|].
  2: { intros [= <-]. split; [done|by intros v ?%not_elem_of_nil]. }
  destruct (negb (is_array raw)); [done|]. destruct (as_array raw) as [items|]; [|done].
  destruct (maxItems <? zlen items) eqn:Hlen; [done|]. cbn.
  destruct (parse_items_from parse key 0 items) as [vs|] eqn:Hvs; [|done]. intros [= <-]. cbn.
  destruct (parse_items_ok _ P _ _ _ _ HP Hvs) as [Hl Hin]. split; [|done]. bool_to_prop. lia.
Qed.
Lemma parseContactsTypedValues_ok args key maxItems maxValueBytes o :
  0 <= maxItems → parseContactsTypedValues args key maxItems maxValueBytes = Ok o →
  typed_ok maxItems maxValueBytes (default [] o).
Proof.
  intros Hmax Ho. eapply (parse_array_ok _ (λ v, text_ok contactsMaxTypeBytes true (TvType v) ∧
    validContactsType (TvType v) = true ∧ text_ok maxValueBytes true (TvValue v) ∧ trim_space (TvValue v) ≠ "")); [done| |exact Ho].
  intros path item v. unfold parse_typed_value. destruct (parseContactsObject _ _ _) as [object|]; [|done]. cbn.
  destruct (prefix_err path (contactsString object "type" _ _ _)) as [[kind p]|] eqn:Hk; [apply prefix_err_ok in Hk; cbn|done].
  destruct (negb _ && _) eqn:Ht; [done|].
  destruct (prefix_err path (contactsString object "value" _ _ _)) as [[value q]|] eqn:Hv; [apply prefix_err_ok in Hv; cbn|done].
  destruct (bool_decide (trim_space value = "")) eqn:Hblank; [done|]. apply bool_decide_eq_false in Hblank.
  intros [= <-]. cbn [TvType TvValue].
  split_and!; [by eapply contactsString_ok| |by eapply contactsString_ok|done].
  destruct (decide (kind = "")) as [->|Hne]; [done|]. rewrite bool_decide_false in Ht by done.
  by destruct (validContactsType kind).
Qed.
Lemma parseContactsAddresses_ok args key o :
  parseContactsAddresses args key = Ok o → addresses_ok (default [] o).
Proof.
  intros Ho. eapply parse_array_ok; [done| |exact Ho]. intros path item a. unfold parse_address.
  destruct (parseContactsObject _ _ _) as [object|]; [|done]. cbn [mbind result_bind].
  destruct (fold_res _ _ ∅) as [parts|] eqn:Hp; [|done]. apply read_fields_ok in Hp. cbn [mbind result_bind]. cbv zeta.
  destruct (negb _ && _) eqn:Ht; [done|]. intros [= <-]. cbn [AdrType PostOfficeBox ExtendedAddress StreetAddress Locality Region PostalCode Country].
  split_and!.
  - eapply text_of_ok; [exact Hp|cbn; find_field].
  - destruct (decide (text_of parts "type" = "")) as [->|Hne]; [done|]. rewrite bool_decide_false in Ht by done.
    by destruct (validContactsType _).
  - intros s Hs. repeat (apply elem_of_cons in Hs as [->|Hs]; [eapply text_of_ok; [exact Hp|cbn; find_field]|]).
    by apply not_elem_of_nil in Hs.
Qed.

Definition create_ok (i : CreateContactInput) : Prop :=
  validContactsAddressBook (CcAddressBook i) = true ∧
  (trim_space (CcDisplayName i) ≠ "" ∨ contactsNameEmpty (CcName i) = false) ∧
  text_ok contactsMaxDisplayBytes true (CcDisplayName i) ∧ name_ok (CcName i) ∧
  text_ok contactsMaxTextBytes true (CcOrganization i) ∧ text_ok contactsMaxTextBytes true (CcTitle i) ∧
  text_ok contactsMaxTextBytes true (CcNickname i) ∧ text_ok 10 true (CcBirthday i) ∧
  text_ok contactsMaxNotesBytes false (CcNotes i) ∧ text_ok contactsMaxUIDBytes true (CcClientUID i) ∧
  typed_ok contactsMaxEmails contactsMaxEmailBytes (CcEmails i) ∧
  typed_ok contactsMaxPhones contactsMaxPhoneBytes (CcPhones i) ∧
  typed_ok contactsMaxURLs contactsMaxURLBytes (CcURLs i) ∧ addresses_ok (CcAddresses i).
Definition opt_ok {A} (P : A → Prop) (o : option A) : Prop := ∀ a, o = Some a → P a.
Definition update_ok (i : UpdateContactInput) : Prop :=
  validContactsAddressBook (UcAddressBook i) = true ∧
  text_ok contactsMaxUIDBytes true (UcUID i) ∧ trim_space (UcUID i) ≠ "" ∧ contactsValidateETag (UcETag i) = Ok tt ∧
  let p := Patch i in
  opt_ok (text_ok contactsMaxDisplayBytes true) (PDisplayName p) ∧ opt_ok name_ok (PName p) ∧
  opt_ok (text_ok contactsMaxTextBytes true) (POrganization p) ∧ opt_ok (text_ok contactsMaxTextBytes true) (PTitle p) ∧
  opt_ok (text_ok contactsMaxTextBytes true) (PNickname p) ∧ opt_ok (text_ok 10 true) (PBirthday p) ∧
  opt_ok (text_ok contactsMaxNotesBytes false) (PNotes p) ∧
  opt_ok (typed_ok contactsMaxEmails contactsMaxEmailBytes) (PEmails p) ∧
  opt_ok (typed_ok contactsMaxPhones contactsMaxPhoneBytes) (PPhones p) ∧
  opt_ok (typed_ok contactsMaxURLs contactsMaxURLBytes) (PURLs p) ∧ opt_ok addresses_ok (PAddresses p).

Lemma identifier_ok args key book v :
  contactsRequiredIdentifier args key book = Ok v →
  text_ok contactsMaxUIDBytes true v ∧ trim_space v ≠ "" ∧ (book = true → validContactsAddressBook v = true).
Proof.
  unfold contactsRequiredIdentifier. destruct (contactsString _ _ _ _ _) as [[w p]|] eqn:Hs; [|done].
  cbn [mbind result_bind]. destruct (bool_decide (trim_space w = "")) eqn:Hb; [done|].
  apply bool_decide_eq_false in Hb. destruct (book && _) eqn:Hv; [done|]. intros [= <-].
  split_and!; [by eapply contactsString_ok|done|]. intros ->. by destruct (validContactsAddressBook w).
Qed.
(** The next value a decoder reads. *)
Ltac decode_step Hx :=
  match goal with
  | |- context [mbind _ ?r] =>
      lazymatch r with
      | context [mbind] => fail
      | context [match _ with _ => _ end] => fail
      | _ => let x := fresh "x" in destruct r as [x|] eqn:Hx; [cbn [mbind result_bind]|done]
      end
  end.
Lemma absent_name (args : contactsRawArgs) n :
  match args !! "name" with
  | Some raw => parseContactsName raw "name"
  | None => Ok (MkStructuredName "" "" "" "" "")
  end = Ok n → name_ok n.
Proof.
  destruct (args !! "name") as [raw|]; [apply parseContactsName_ok|]. intros [= <-] s Hs.
  repeat (apply elem_of_cons in Hs as [->|Hs]; [apply text_ok_empty|]). by apply not_elem_of_nil in Hs.
Qed.
Lemma decoded_create_ok args i : parseCreateContactInput args = Ok i → create_ok i.
Proof.
  unfold parseCreateContactInput.
  decode_step Hbook. apply identifier_ok in Hbook as (_ & _ & Hbook).
  decode_step Hname. destruct x0 as [displayName p]. apply contactsString_ok in Hname.
  match goal with |- context [mbind _ ?r] => destruct r as [name|] eqn:Hn; [|done] end.
  apply absent_name in Hn. cbn [mbind result_bind].
  destruct (bool_decide (trim_space displayName = "") && contactsNameEmpty name) eqn:Hdn; [done|].
  decode_step Hvalues. apply read_texts_ok in Hvalues. rename x0 into values.
  match goal with |- context [mbind _ (if ?b then ?r1 else ?r2)] =>
    destruct (if b then r1 else r2) as [uid|] eqn:Huid; [|done] end.
  assert (text_ok contactsMaxUIDBytes true uid) as Huid_ok.
  { revert Huid. destruct (bool_decide (text_of values "client_uid" = "")).
    - destruct (contactsString _ _ _ _ _) as [[alias q]|] eqn:Ha; [|done]. intros [= <-].
      destruct q; [by eapply contactsString_ok|apply text_ok_empty].
    - intros [= <-]. eapply text_of_ok; [exact Hvalues|find_field]. }
  cbn [mbind result_bind]. destruct (negb _ && _); [done|].
  decode_step Hemails. decode_step Hphones. decode_step Haddr. decode_step Hurls. intros [= <-].
  apply parseContactsTypedValues_ok in Hemails, Hphones, Hurls; [|done..]. apply parseContactsAddresses_ok in Haddr.
  unfold create_ok; cbn [CcAddressBook CcDisplayName CcName CcOrganization CcTitle CcNickname CcBirthday CcNotes
    CcEmails CcPhones CcAddresses CcURLs CcClientUID].
  split_and!; try done; try (eapply text_of_ok; [exact Hvalues|find_field]); [by apply Hbook|].
  apply andb_false_iff in Hdn as [Hdn|Hdn]; [left; by apply bool_decide_eq_false in Hdn|by right].
Qed.

Lemma lookup_ok fields values k m s :
  texts_ok fields values → (∀ f, f ∈ fields → f.1 = k → f.2 = (m, s)) → opt_ok (text_ok m s) (values !! k).
Proof. intros Hv Hf v Hk. destruct (Hv k v Hk) as (f & Hin & Hk' & Hok). by rewrite (Hf f Hin Hk') in Hok. Qed.
Lemma default_ok {A} (P : list A → Prop) o : P (default [] o) → opt_ok P o.
Proof. by intros HP a ->. Qed.
Lemma decoded_update_ok args i : parseUpdateContactInput args = Ok i → update_ok i.
Proof.
  unfold parseUpdateContactInput.
  decode_step Hbook. apply identifier_ok in Hbook as (_ & _ & Hbook).
  decode_step Huid. apply identifier_ok in Huid as (Huid & Hblank & _).
  decode_step Hetag. destruct x1 as [etag p]. decode_step Het. destruct (negb (existsb _ _)); [done|].
  decode_step Hvalues. apply read_texts_ok in Hvalues.
  match goal with |- context [mbind _ ?r] => destruct r as [name|] eqn:Hn; [|done] end.
  assert (opt_ok name_ok name) as Hname.
  { revert Hn. destruct (args !! "name") as [raw|]; [|by intros [= <-]].
    destruct (parseContactsName raw "name") eqn:Hr; [|done]. intros [= <-] n [= <-]. by eapply parseContactsName_ok. }
  cbn [mbind result_bind].
  decode_step Hemails. decode_step Hphones. decode_step Haddr. decode_step Hurls. intros [= <-].
  apply parseContactsTypedValues_ok in Hemails, Hphones, Hurls; [|done..]. apply parseContactsAddresses_ok in Haddr.
  unfold update_ok. cbn [UcAddressBook UcUID UcETag Patch PDisplayName PName POrganization PTitle PNickname PBirthday
    PNotes PEmails PPhones PAddresses PURLs].
  split_and!; try done; try (by apply default_ok); try (eapply lookup_ok; [exact Hvalues|find_field]); [by apply Hbook|].
  by destruct x1.
Qed.
End Decoded.

(** What decoding lets through to the service.  Whatever JSON the
    arguments are, a create input names a well-formed address book and a
    non-blank name, and an update input a book, a non-blank UID and no weak or
    wildcard entity tag; every text of either is valid UTF-8 within its byte
    limit, without control characters and (notes excepted) on one line; there
    are at most ten emails and phones and five addresses and URLs, with labels
    of letters, digits, hyphens and underscores. *)
Theorem decoded_inputs_ok `{UnicodeTables, MapOrder} (args : contactsRawArgs) :
  (∀ i, parseCreateContactInput args = Ok i → create_ok i) ∧
  (∀ i, parseUpdateContactInput args = Ok i → update_ok i).
Proof. split; [apply decoded_create_ok|apply decoded_update_ok]. Qed.

(** Reading contacts changes nothing: [list_address_books],
    [search_contacts] and [get_contact] only query the service, write no audit
    record and never touch the idempotency store; one contact is only fetched
    from a book the scope grants; and what they answer is one text of at most
    256 KiB after redaction, or an error. *)
Theorem contact_reads_bounded {W} `{ContactsService W, AuditStream W, IdemStore W, UpdatePanics W, Ctx W}
    `{UnicodeTables, MapOrder} (deps : ContactsDeps) (req : raw_arguments) :
  emits (listAddressBooksHandler (W:=W * list event) deps req) read_only ∧
  emits (searchContactsHandler (W:=W * list event) deps req) read_only ∧
  emits (getContactHandler (W:=W * list event) deps req) (λ l r, read_only l r ∧ granted_read deps l).
Proof. split_and!; [apply list_reads|apply search_reads|apply get_reads]. Qed.

(** * Witnesses *)

#[local] Existing Instance ascii_tables.
#[local] Existing Instance declared_order.

(** A service that knows one book and accepts everything. *)
Definition demo_book : string := "book-AAAAAAAAAAAAAAAAAAAAAA".
Definition demo_service : ContactsService unit := {|
  ListAddressBooks w := (w, ([MkAddressBook demo_book "Home" "" [] "" 0], None));
  SearchContacts _ w := (w, (no_contacts, None));
  GetContact _ _ w := (w, (None, None));
  CreateContact i w := (w, (MkMutationResult (CcAddressBook i) "u1" "" false "", None));
  UpdateContact i w := (w, (MkMutationResult (UcAddressBook i) (UcUID i) "" false "", None));
  DeleteContact i w := (w, (MkContactDeletion (DcAddressBook i) (DcUID i) (DcDryRun i) (DcDryRun i), None));
|}.
#[local] Existing Instance demo_service.
#[local] Instance demo_audit : AuditStream unit := {| audit_write _ w := w |}.
#[local] Instance demo_store : IdemStore unit :=
  {| beginContext _ _ w := (w, Ready); completeContext _ _ _ _ w := w |}.
#[local] Instance demo_panics : UpdatePanics unit := {| update_panics _ _ := None |}.
#[local] Instance demo_ctx : Ctx unit := {| ctx_Err w := (w, None) |}.
Definition demo_scopes : ResourceScopes := MkScopes true {[ResourceContactsWrite := ["Home"]]}.
Definition demo_deps : ContactsDeps := MkContactsDeps None demo_scopes true [].
Definition demo_create : raw_arguments :=
  RawBytes (apostrophes "{'address_book': 'book-AAAAAAAAAAAAAAAAAAAAAA', 'display_name': 'Ann', 'emails': [{'value': 'a@b.c'}]}").
Definition demo_args : contactsRawArgs := args_of (parseContactsArgs demo_create create_args).

Example demo_create_call :
  let '((_, log), out) := handle (W:=unit * list event) demo_deps (createContactHandler (W:=unit * list event) demo_deps demo_create) (tt, []) in
  length log = 3%nat ∧ out_isError out = false ∧
  head (omap (λ ev, match ev with EvMutation (MCreate i) e => Some (CcDisplayName i, CcEmails i, e) | _ => None end) log)
    = Some ("Ann", [MkTypedValue "" "a@b.c"], None).
Proof. vm_compute. done. Qed.

Lemma decoded_inputs_ok_witness :
  ∃ i, parseCreateContactInput demo_args = Ok i ∧ CcDisplayName i = "Ann" ∧ create_ok i.
Proof.
  destruct (parseCreateContactInput demo_args) as [i|e] eqn:Hi; [|vm_compute in Hi; discriminate Hi].
  exists i. split; [reflexivity|]. split.
  - vm_compute in Hi. injection Hi as <-. reflexivity.
  - exact (proj1 (decoded_inputs_ok demo_args) i Hi).
Defined.
