(* ===== verification/MailTools.v ===== *)
(** The Mail tools (src/internal/mcptools/mail_handlers.go): decoding and
    bounding of arguments, authorization, the service call, its audit record
    and its answer. *)
From S2P Require Import Prelude GoStrings GoTime GoEncode GoJson NetMail TimePolicy Redact Scopes CalErrors Tools.
From S2P Require Import ContactsValidation MailTypes MailValidation MailSend Resources Idempotency ToolResults.
Import MT.

(** * Arguments

    The errors of argument parsing are only ever shown, so they are texts. *)

(** A value of [map[string]any]: a scalar, a [[]string] or a [[]any]. *)
Inductive value :=
| Scalar (a : arg)
| Strings (l : list string)
| Values (l : list arg).
(** What [any] receives from a JSON value under [UseNumber]. *)
Definition scalar_of (v : json) : arg :=
  match v with
  | JString s => ArgString s
  | JBool b => ArgBool b
  | JNumber n => ArgNumber n
  | _ => ArgOther
  end.
Definition value_of (v : json) : value :=
  match v with JArray l => Values (map scalar_of l) | _ => Scalar (scalar_of v) end.

Definition mail_args : Type := gmap string value.
(** [req.GetRawArguments()]: nil, bytes, a map (possibly nil), or another
    value. *)
Inductive raw_mail_args :=
| RawNil
| RawText (data : list ascii)
| RawMap (m : option mail_args)
| RawOther.

(** A JSON value the decoder accepts for the target: an object, or null,
    which leaves the map nil.  [rest] follows it; a literal must be ended by
    a space. *)
Definition object_target (v : json) (rest : list ascii) : option (option mail_args) :=
  match v with
  | JObject fields => Some (Some (value_of <$> (list_to_map (reverse fields) : gmap string json)))
  | JNull => if forallb json_space (take 1 rest) then Some None else None
  | _ => None
  end.
Definition mailDecodeJSONArguments (data : list ascii) : result string (option mail_args) :=
  match parse_value (parse_fuel data) 0 data ≫= (λ vr, (λ t, (t, vr.2)) <$> object_target vr.1 vr.2) with
  | None => Err "arguments must be a valid JSON object"
  | Some (target, rest) =>
      if bool_decide (skip_space rest = []) then Ok target else Err "arguments must contain one JSON object"
  end.

Definition mailArguments (raw : raw_mail_args) (allowed : list string) : result string mail_args :=
  args ← match raw with
         | RawText data => mailDecodeJSONArguments data
         | RawMap m => Ok m
         | RawNil => Ok (Some ∅)
         | RawOther => Err "arguments must be a JSON object"
         end;
  match args with
  | None => Err "arguments must be a JSON object"
  | Some args =>
      reject negb (forallb (λ kv, bool_decide (kv.1 ∈ allowed)) (map_to_list args)) with "unsupported argument" ;;
      Ok args
  end.

(** The value and whether the key is there. *)
Definition mailOptionalString (args : mail_args) (name : string) : result string (string * bool) :=
  match args !! name with
  | None => Ok ("", false)
  | Some (Scalar (ArgString text)) => Ok (text, true)
  | Some _ => Err (name ++ " must be a string")
  end.
Definition mailRequiredString (args : mail_args) (name : string) : result string string :=
  match args !! name with
  | None => Err (name ++ " is required")
  | Some (Scalar (ArgString text)) => Ok text
  | Some _ => Err (name ++ " must be a string")
  end.
Definition mailOptionalBool (args : mail_args) (name : string) : result string (bool * bool) :=
  match args !! name with
  | None => Ok (false, false)
  | Some (Scalar (ArgBool b)) => Ok (b, true)
  | Some _ => Err (name ++ " must be a boolean")
  end.

(** [strconv.ParseUint(s, 10, bits)]. *)
Definition parse_uint (s : string) (bits : Z) : option Z :=
  z ← parse_digits (bytes s); if z <? 2 ^ bits then Some z else None.
Definition mailUnsigned (raw : value) (bits : Z) : option Z :=
  let fits z := if (bits =? 32) && (2 ^ 32 - 1 <? z) then None else Some z in
  match raw with
  | Scalar (ArgNumber s) => parse_uint s bits
  | Scalar (ArgUint z) => fits z
  | Scalar (ArgInt z) => if z <? 0 then None else fits z
  | Scalar (ArgFloat f) => z ← integral_float f; if (z <? 0) || (2 ^ 53 <? z) then None else fits z
  | _ => None
  end.
Definition mailOptionalUnsigned (args : mail_args) (name : string) (bits : Z) : result string (Z * bool) :=
  match args !! name with
  | None => Ok (0, false)
  | Some raw => match mailUnsigned raw bits with
                | Some z => Ok (z, true)
                | None => Err (name ++ " must be an unsigned " ++ fmt_int bits ++ "-bit integer")
                end
  end.
Definition mailRequiredUint32 (args : mail_args) (name : string) : result string Z :=
  '(z, present) ← mailOptionalUnsigned args name 32;
  reject negb present with name ++ " is required" ;;
  reject z =? 0 with name ++ " must be non-zero" ;;
  Ok z.

Fixpoint string_items (name : string) (index : nat) (l : list arg) : result string (list string) :=
  match l with
  | [] => Ok []
  | ArgString s :: l => rest ← string_items name (S index) l; Ok (s :: rest)
  | _ :: _ => Err (name ++ " item " ++ fmt_int (Z.of_nat index) ++ " must be a string")
  end.
Definition mailStringArray (args : mail_args) (name : string) (required : bool) : result string (list string) :=
  match args !! name with
  | None => reject required with name ++ " is required" ;; Ok []
  | Some (Strings l) => Ok l
  | Some (Values l) => string_items name 0 l
  | Some _ => Err (name ++ " must be an array of strings")
  end.
Definition no_time : gtime := GTime zero_time UTC.
Definition mailOptionalDate (args : mail_args) (name : string) : result string gtime :=
  '(text, present) ← mailOptionalString args name;
  if negb present then Ok no_time
  else match parse_day text with
       | Some t => Ok t
       | None => Err (name ++ " must be a valid YYYY-MM-DD date")
       end.

Definition mailHasDisallowedControl (text : string) (allowTab : bool) : bool :=
  existsb (λ rw, (rw.1 =? 127) || ((rw.1 <? 32) && (negb (rw.1 =? 9) || negb allowTab))) (runes (bytes text)).
Definition mailValidateSearchValue (name text : string) : result string unit :=
  reject (MaxSearchValue <? len text) || negb (valid_utf8 (bytes text)) || mailHasDisallowedControl text false
    with name ++ " contains invalid or excessive data" ;;
  Ok tt.
Definition mailRequiredMailbox (args : mail_args) (name : string) : result string string :=
  text ← mailRequiredString args name;
  reject bool_decide (text = "") with name ++ " cannot be empty" ;;
  reject (MaxMetadataString <? len text) || negb (valid_utf8 (bytes text)) || mailHasDisallowedControl text true
    with name ++ " contains invalid or excessive data" ;;
  Ok text.

(** * Inputs *)

Record mailIdentity := MkIdentity { IdMailbox : string; IdUIDValidity : Z; IdUID : Z }.
Definition mailParseIdentity (args : mail_args) : result string mailIdentity :=
  mailbox ← mailRequiredMailbox args "mailbox";
  uidValidity ← mailRequiredUint32 args "uid_validity";
  uid ← mailRequiredUint32 args "uid";
  Ok (MkIdentity mailbox uidValidity uid).
Definition nul : string := str ["000"%char].
Definition mailIdentityResource (i : mailIdentity) : string :=
  IdMailbox i ++ nul ++ fmt_int (IdUIDValidity i) ++ nul ++ fmt_int (IdUID i).
Definition mailAuditResource (args : mail_args) : string :=
  match args !! "mailbox" with Some (Scalar (ArgString s)) => s | _ => "" end ++ nul ++ "invalid".

(** One turn of the loop over the text criteria. *)
Definition search_text (args : mail_args) (name : string) : result string string :=
  '(text, present) ← mailOptionalString args name;
  (if present : bool then mailValidateSearchValue name text else Ok tt);;
  Ok text.
Definition mailSearchInput (args : mail_args) : result string SearchInput :=
  mailbox ← mailRequiredMailbox args "mailbox";
  query ← search_text args "query";
  from ← search_text args "from";
  to ← search_text args "to";
  subject ← search_text args "subject";
  since ← mailOptionalDate args "since";
  before ← mailOptionalDate args "before";
  reject negb (is_zero (instant since)) && negb (is_zero (instant before)) && negb (instant since <? instant before)
    with "before must be after since" ;;
  '(unseenOnly, _) ← mailOptionalBool args "unseen_only";
  '(flaggedOnly, _) ← mailOptionalBool args "flagged_only";
  '(beforeUID, beforePresent) ← mailOptionalUnsigned args "before_uid" 32;
  '(uidValidity, uidValidityPresent) ← mailOptionalUnsigned args "uid_validity" 32;
  reject beforePresent && (beforeUID =? 0) with "before_uid must be non-zero when provided" ;;
  reject uidValidityPresent && (uidValidity =? 0) with "uid_validity must be non-zero when provided" ;;
  reject beforePresent && negb uidValidityPresent with "uid_validity is required with before_uid" ;;
  '(limit, limitPresent) ← mailOptionalUnsigned args "limit" 32;
  reject limitPresent && ((limit <? 1) || (MaxSearchResults <? limit))
    with "limit must be between 1 and " ++ fmt_int MaxSearchResults ;;
  Ok (MkSearchInput mailbox query from to subject since before unseenOnly flaggedOnly beforeUID uidValidity
        (if limitPresent : bool then limit else 20)).

Definition parse_get (args : mail_args) : result string GetMessageInput :=
  identity ← mailParseIdentity args;
  '(maxBody, present) ← mailOptionalUnsigned args "max_body_bytes" 32;
  let maxBody := if present : bool then maxBody else DefaultBodyBytes in
  reject (maxBody <? 1) || (MaxBodyBytes <? maxBody)
    with "max_body_bytes must be between 1 and " ++ fmt_int MaxBodyBytes ;;
  '(allowHTMLFallback, _) ← mailOptionalBool args "allow_html_fallback";
  Ok (MkGetMessageInput (IdMailbox identity) (IdUIDValidity identity) (IdUID identity) maxBody allowHTMLFallback).

Definition flag_of (s : string) : option MessageFlag :=
  if bool_decide (s = "seen") then Some FlagSeen
  else if bool_decide (s = "flagged") then Some FlagFlagged
  else if bool_decide (s = "answered") then Some FlagAnswered else None.
Definition add_flag (flags : list MessageFlag) (s : string) : result string (list MessageFlag) :=
  match flag_of s with
  | None => Err "flags may contain only seen, flagged, or answered"
  | Some flag =>
      reject bool_decide (flag ∈ flags) with "flags must not contain duplicate values" ;;
      Ok (flags ++ [flag])%list
  end.
Definition mailFlags (texts : list string) : result string (list MessageFlag) :=
  reject (zlen texts <? 1) || (3 <? zlen texts) with "flags must contain between 1 and 3 values" ;;
  fold_res add_flag texts [].
Definition operation_of (args : mail_args) : result string FlagOperation :=
  text ← mailRequiredString args "operation";
  if bool_decide (text = "add") then Ok FlagOperationAdd
  else if bool_decide (text = "remove") then Ok FlagOperationRemove
  else Err "operation must be add or remove".
(** What [set_message_flags] reads after the identity. *)
Definition parse_flags (args : mail_args) (identity : mailIdentity) : result string SetFlagsInput :=
  operation ← operation_of args;
  texts ← mailStringArray args "flags" true;
  flags ← mailFlags texts;
  '(expectedModSeq, present) ← mailOptionalUnsigned args "expected_modseq" 64;
  reject present && (expectedModSeq =? 0) with "expected_modseq must be non-zero when provided" ;;
  Ok (MkSetFlagsInput (IdMailbox identity) (IdUIDValidity identity) (IdUID identity) operation flags expectedModSeq).
Definition parse_move (args : mail_args) (identity : mailIdentity) : result string MoveInput :=
  destination ← mailRequiredMailbox args "destination";
  reject bool_decide (destination = IdMailbox identity) with "destination must differ from mailbox" ;;
  Ok (MkMoveInput (IdMailbox identity) (IdUIDValidity identity) (IdUID identity) destination).

Definition mailASCIILower (text : string) : string := str (map lower_byte (bytes text)).
Definition bad_recipient : string := "recipients must be valid plain addr-specs".
Definition mailValidateAddress (text : string) : result string unit :=
  reject bool_decide (text = "") || (320 <? len text) || negb (bool_decide (trim_space text = text))
         || contains_any text cr_lf_nul || negb (valid_utf8 (bytes text)) with bad_recipient ;;
  reject negb (parsed_plainly text) || negb (contains text "@") with bad_recipient ;;
  Ok tt.
Definition recipient_group (args : mail_args) (name : string) : result string (list string) :=
  texts ← mailStringArray args name false;
  reject MaxRecipients <? zlen texts
    with name ++ " must contain at most " ++ fmt_int MaxRecipients ++ " recipients" ;;
  Ok texts.
Definition add_recipient (seen : list string) (address : string) : result string (list string) :=
  mailValidateAddress address;;
  reject bool_decide (mailASCIILower address ∈ seen) with "recipient addresses must be unique" ;;
  Ok (seen ++ [mailASCIILower address])%list.
Definition valid_body (body : string) : bool :=
  (len body <=? MaxSendBodyBytes) && valid_utf8 (bytes body) && negb (contains body nul).
Definition valid_key (key : string) : bool := (len key <=? 255) && negb (contains_any key cr_lf_nul).
Definition parse_body (args : mail_args) : result string string :=
  body ← mailRequiredString args "body";
  reject negb (valid_body body) with "body contains invalid or excessive data" ;;
  Ok body.
Definition parse_key (args : mail_args) : result string string :=
  '(key, _) ← mailOptionalString args "idempotency_key";
  reject negb (valid_key key) with "idempotency_key contains invalid or excessive data" ;;
  Ok key.
Definition mailSendInput (args : mail_args) : result string SendInput :=
  to ← recipient_group args "to";
  cc ← recipient_group args "cc";
  bcc ← recipient_group args "bcc";
  let n := zlen to + zlen cc + zlen bcc in
  reject n =? 0 with "at least one recipient is required across to, cc, and bcc" ;;
  reject MaxRecipients <? n with "recipient count must not exceed " ++ fmt_int MaxRecipients ;;
  fold_res add_recipient (to ++ cc ++ bcc)%list [];;
  '(subject, _) ← mailOptionalString args "subject";
  reject (MaxSubjectBytes <? len subject) || negb (valid_utf8 (bytes subject)) || mailHasDisallowedControl subject false
    with "subject contains invalid or excessive data" ;;
  body ← parse_body args;
  key ← parse_key args;
  Ok (MkSendInput to cc bcc subject body key false "" []).
(** What [reply_message] reads after the identity. *)
Definition parse_reply (args : mail_args) (identity : mailIdentity) : result string ReplyInput :=
  '(mode, _) ← mailOptionalString args "mode";
  body ← parse_body args;
  key ← parse_key args;
  Ok (MkReplyInput (IdMailbox identity) (IdUIDValidity identity) (IdUID identity) mode "" body key).

(** * Documents shown to the caller *)

(** [Error()]. *)
Definition error_text (e : Error) : string := code_string (ErrCode e) ++ ": " ++ Message e.

(** [time.Time.MarshalJSON]: RFC 3339 with the fraction of the second without
    its trailing zeros; [type] is the Go type named in the error. *)
Fixpoint drop_zeros (l : list ascii) : list ascii :=
  match l with c :: l' => if bool_decide (c = "0"%char) then drop_zeros l' else l | [] => [] end.
Definition format_fraction (nanos : Z) : list ascii :=
  match reverse (drop_zeros (reverse (digits 9 nanos))) with [] => [] | ds => "."%char :: ds end.
Definition format_rfc3339_nano (t : gtime) : string :=
  let off := offset_at (tzone t) (instant t) in
  str (format_wall (tzone t) (instant t) ++ format_fraction (instant t mod second)
       ++ (if off =? 0 then ["Z"%char] else format_offset off))%list.
Definition time_json (type : string) (t : gtime) : result string json :=
  let year := cyear (local_civil (tzone t) (instant t)) in
  let failure msg := Err ("json: error calling MarshalJSON for type " ++ type ++ ": Time.MarshalJSON: " ++ msg) in
  if (year <? 0) || (9999 <? year) then failure "year outside of range [0,9999]"
  else if 24 <=? Z.abs (Z.quot (offset_at (tzone t) (instant t)) 60) / 60
  then failure "timezone hour outside of range [0,23]"
  else Ok (JString (format_rfc3339_nano t)).

Definition flag_string (f : MessageFlag) : string :=
  match f with FlagSeen => "seen" | FlagFlagged => "flagged" | FlagAnswered => "answered" end.
Definition flag_json (f : MessageFlag) : json := JString (flag_string f).
Definition status_string (s : SendStatus) : string :=
  match s with
  | SendNone => ""
  | SendAccepted => "accepted"
  | SendRejected => "rejected"
  | SendOutcomeUnknown => "outcome_unknown"
  end.
Definition mailbox_json (m : Mailbox) : json :=
  JObject (field "name" (JString (MbName m)) ++ text_field "delimiter" (Delimiter m)
    ++ list_field "attributes" JString (Attributes m))%list.
Definition mailboxes_json (r : ListMailboxesResult) : json :=
  JObject (field "mailboxes" (JArray (map mailbox_json (Mailboxes r))) ++ flag_field "truncated" (MbTruncated r))%list.
Definition mail_address_json (a : Address) : json :=
  JObject (text_field "name" (AdName a) ++ field "address" (JString (AdAddress a)))%list.
Definition message_fields (m : MessageSummary) : result string (list (string * json)) :=
  internal ← time_json "time.Time" (InternalDate m);
  header ← match HeaderDate m with
           | None => Ok []
           | Some t => v ← time_json "*time.Time" t; Ok (field "headerDate" v)
           end;
  Ok (field "mailbox" (JString (MsMailbox m)) ++ field "uidValidity" (jint (MsUIDValidity m))
    ++ field "uid" (jint (MsUID m)) ++ list_field "flags" flag_json (MsFlags m)
    ++ list_field "from" mail_address_json (MsFrom m) ++ list_field "to" mail_address_json (MsTo m)
    ++ list_field "cc" mail_address_json (MsCc m) ++ text_field "subject" (MsSubject m)
    ++ field "internalDate" internal ++ header ++ int_field "size" (MsSize m)
    ++ text_field "messageId" (MessageID m) ++ int_field "modSeq" (ModSeq m))%list.
Definition add_message (done : list json) (m : MessageSummary) : result string (list json) :=
  fields ← message_fields m; Ok (done ++ [JObject fields])%list.
Definition search_result_json (r : MailSearchResult) : result string json :=
  messages ← fold_res add_message (Messages r) [];
  Ok (JObject (field "messages" (JArray messages) ++ field "uidValidity" (jint (SrUIDValidity r))
    ++ int_field "nextBeforeUid" (NextBeforeUID r) ++ flag_field "scanLimitReached" (SrScanLimitReached r)
    ++ flag_field "truncated" (SrTruncated r)))%list.
Definition attachment_json (a : Attachment) : json :=
  JObject (field "partId" (JString (PartID a)) ++ text_field "filename" (Filename a)
    ++ field "contentType" (JString (ContentType a)) ++ int_field "size" (AttSize a)
    ++ text_field "contentId" (ContentID a))%list.
Definition warning_json (w : Warning) : json :=
  JObject (field "code" (JString (WarnCode w)) ++ field "message" (JString (WarnMessage w)))%list.
Definition message_json (m : MailMessage) : result string json :=
  fields ← message_fields (MmSummary m);
  Ok (JObject (fields ++ list_field "replyTo" mail_address_json (ReplyTo m)
    ++ list_field "inReplyTo" JString (InReplyTo m) ++ list_field "references" JString (References m)
    ++ text_field "body" (Body m) ++ text_field "bodySource" (BodySource m)
    ++ flag_field "bodyOmitted" (BodyOmitted m) ++ text_field "bodyUnavailableReason" (BodyUnavailableReason m)
    ++ list_field "attachments" attachment_json (Attachments m) ++ list_field "warnings" warning_json (Warnings m)))%list.
Definition set_flags_json (r : SetFlagsResult) : json :=
  JObject (field "mailbox" (JString (SfrMailbox r)) ++ field "uidValidity" (jint (SfrUIDValidity r))
    ++ field "uid" (jint (SfrUID r)) ++ list_field "flags" flag_json (SfrFlags r) ++ int_field "modSeq" (SfrModSeq r)
    ++ field "conditionalUpdate" (JBool (ConditionalUpdate r)) ++ flag_field "resultIncomplete" (SfrResultIncomplete r))%list.
Definition move_json (r : MoveResult) : json :=
  JObject (field "mailbox" (JString (MoMailbox r)) ++ field "uidValidity" (jint (MoUIDValidity r))
    ++ field "uid" (jint (MoUID r)) ++ field "destination" (JString (MoDestination r))
    ++ int_field "destinationUidValidity" (DestinationUIDValidity r) ++ int_field "destinationUid" (DestinationUID r)
    ++ field "method" (JString (MoMethod r)))%list.
Definition recipient_json (r : RecipientStatus) : json :=
  JObject (field "index" (jint (RsIndex r)) ++ field "accepted" (JBool (RsAccepted r))
    ++ text_field "category" (RsCategory r))%list.
Definition send_json (r : SendResult) : json :=
  JObject (field "status" (JString (status_string (SendResStatus r))) ++ field "messageId" (JString (SendMessageID r))
    ++ list_field "recipients" recipient_json (SendRecipients r) ++ text_field "archivalStatus" (ArchivalStatus r)
    ++ text_field "sentDestination" (SentDestination r) ++ text_field "archivalError" (ArchivalError r)
    ++ flag_field "sentCopyUnavailable" (SentCopyUnavailable r) ++ text_field "reconciliation" (SendReconciliation r))%list.

(** * Errors *)

Record mailErrorPayload := MkMailPayload {
  MpCode : Code; MpMessage : string; MpRetryable : bool; MpRetryAfter : Z; MpReconciliation : string;
  MpStatus : SendStatus; MpMessageID : string; MpRecipients : list RecipientStatus;
}.
Definition mail_payload_json (p : mailErrorPayload) : json :=
  JObject (field "code" (JString (code_string (MpCode p))) ++ field "message" (JString (MpMessage p))
    ++ flag_field "retryable" (MpRetryable p) ++ int_field "retry_after_seconds" (MpRetryAfter p)
    ++ text_field "reconciliation" (MpReconciliation p) ++ text_field "status" (status_string (MpStatus p))
    ++ text_field "messageId" (MpMessageID p) ++ list_field "recipients" recipient_json (MpRecipients p))%list.
(** Clamped to a minute, at least a second; so [float64] loses nothing. *)
Definition mailRetryAfterSeconds (e : Error) : Z :=
  if RetryAfter e <=? 0 then 0
  else let sec := RetryAfter e / second in
       if sec <? 1 then 1 else if 60 <? sec then 60 else sec.
Definition service_payload (operation : string) (err : option Error) : mailErrorPayload :=
  match err with
  | None => MkMailPayload CodeInternalError (operation ++ ": mail operation failed") false 0 "" SendNone "" []
  | Some e => MkMailPayload (ErrCode e) (operation ++ ": " ++ Message e) (Retryable e) (mailRetryAfterSeconds e)
                (Reconciliation e)
                (if bool_decide (ErrCode e = CodeOutcomeUnknown) then SendOutcomeUnknown else SendNone) "" []
  end.
Definition send_payload (operation : string) (send : SendResult) (err : option Error) : mailErrorPayload :=
  let status := SendResStatus send in
  match err with
  | None => MkMailPayload CodeInternalError (operation ++ ": mail operation failed") false 0 "" status
              (SendMessageID send) (SendRecipients send)
  | Some e => MkMailPayload (ErrCode e) (operation ++ ": " ++ Message e) (Retryable e) (mailRetryAfterSeconds e)
                (Reconciliation e)
                (if bool_decide (ErrCode e = CodeOutcomeUnknown) then SendOutcomeUnknown
                 else if bool_decide (status = SendNone) then SendRejected else status)
                (SendMessageID send) (SendRecipients send)
  end.
(** [status] is what a tool that submits adds. *)
Definition invalid_payload (status : SendStatus) (msg : string) : mailErrorPayload :=
  MkMailPayload CodeValidation ("validation: " ++ msg) false 0 "" status "" [].
Definition mailAuditErrorStatus (err : option Error) : string :=
  match err with
  | None => "error"
  | Some e => if bool_decide (ErrCode e = CodeOutcomeUnknown) then "outcome_unknown"
              else if bool_decide (ErrCode e = CodeValidation) then "denied" else "error"
  end.

(** * Handlers

    Every error of a [MailService] is a typed one, so [AsError] finds it. *)

Record MailDeps := MkMailDeps {
  MdRedactor : option Redactor;
  MdScopes : ResourceScopes;
  (** Whether there is an audit logger, and the key of its tokens. *)
  MdAudit : bool;
  MdTokenKey : list ascii;
}.

Section Handlers.
Context {W : Type} `{MailService W, AuditStream W} `{MapOrder}.
Variable deps : MailDeps.
Abbreviation H_ := (M W handler_end).

Definition no_redactor : string := "mcptools: Mail handler missing redactor".
Definition mailRedactor : H_ Redactor :=
  match MdRedactor deps with Some red => mret red | None => fail (Panics no_redactor) end.
(** [writeJSON] of a value that may not marshal. *)
Definition write_value (v : result string json) : H_ CallToolResult :=
  red ← mailRedactor;
  mret (match v with
        | Ok v => writeJSON (Some red) v
        | Err msg => errResult (Some red) "formatting response" (Plain msg)
        end).
Definition as_error (r : CallToolResult) : CallToolResult := MkOutput (content r) (out_structured r) true.
Definition error_result {A} (p : mailErrorPayload) : H_ A :=
  red ← mailRedactor; reply (as_error (writeJSON (Some red) (mail_payload_json p))).
Definition mailServiceErrorResult {A} (operation : string) (e : Error) : H_ A :=
  error_result (service_payload operation (Some e)).
Definition mailSendErrorResult {A} (operation : string) (send : SendResult) (e : Error) : H_ A :=
  error_result (send_payload operation send (Some e)).
Definition mailValidationResult {A} (msg : string) : H_ A := error_result (invalid_payload SendNone msg).
Definition mailSendValidationResult {A} (msg : string) : H_ A := error_result (invalid_payload SendRejected msg).
Definition mailAudit (tool resourceType resource status : string) : H_ unit :=
  if MdAudit deps
  then effect (audit_write (LogDomainMutation (MdTokenKey deps) tool "mail" resourceType resource status))
  else mret tt.

Definition or_invalid {A} (r : result string A) : H_ A :=
  match r with Ok a => mret a | Err msg => mailValidationResult msg end.
Definition show_error {A} (r : result Error A) : result string A :=
  match r with Ok a => Ok a | Err e => Err (error_text e) end.
Definition authorize (action mailbox : string) : result string unit :=
  show_error (Mail.authorizeMailbox (MdScopes deps) action mailbox).
Definition call {A} (operation : string) (m : W → W * (A * option Error)) : H_ A :=
  λ w, let '(w, (a, e)) := m w in
       match e with None => (w, Ok a) | Some e => mailServiceErrorResult operation e w end.

Definition listMailboxesHandler (req : raw_mail_args) : H_ CallToolResult :=
  _ ← or_invalid (mailArguments req []);
  r ← call "listing mailboxes" ListMailboxes;
  let kept := Mail.filterMailboxes (Mailboxes r) (MdScopes deps) in
  write_value (Ok (mailboxes_json (MkListMailboxesResult kept (MbTruncated r || (zlen kept <? zlen (Mailboxes r)))))).

Definition search_args : list string :=
  ["mailbox"; "query"; "from"; "to"; "subject"; "since"; "before"; "unseen_only"; "flagged_only"; "before_uid";
   "uid_validity"; "limit"].
Definition searchMessagesHandler (req : raw_mail_args) : H_ CallToolResult :=
  args ← or_invalid (mailArguments req search_args);
  input ← or_invalid (mailSearchInput args);
  or_invalid (authorize ResourceMailRead (SiMailbox input));;
  r ← call "searching messages" (SearchMessages input);
  write_value (search_result_json r).

Definition get_args : list string := ["mailbox"; "uid_validity"; "uid"; "max_body_bytes"; "allow_html_fallback"].
Definition getMessageHandler (req : raw_mail_args) : H_ CallToolResult :=
  args ← or_invalid (mailArguments req get_args);
  input ← or_invalid (parse_get args);
  or_invalid (authorize ResourceMailRead (GmMailbox input));;
  r ← call "getting message" (GetMessage input);
  write_value (message_json r).

(** A refusal: audited as denied, then answered; [status] as in
    [invalid_payload]. *)
Definition deny {A} (status : SendStatus) (tool rtype resource msg : string) : H_ A :=
  mailAudit tool rtype resource "denied";; error_result (invalid_payload status msg).
Definition or_deny {A} (status : SendStatus) (tool rtype resource : string) (r : result string A) : H_ A :=
  match r with Ok a => mret a | Err msg => deny status tool rtype resource msg end.
(** A service call whose failure is audited. *)
Definition mutate {A} (tool resource operation : string) (m : W → W * (A * option Error)) : H_ A :=
  λ w, let '(w, (a, e)) := m w in
       match e with
       | None => (w, Ok a)
       | Some e => (mailAudit tool "message" resource (mailAuditErrorStatus (Some e));;
                    mailServiceErrorResult operation e) w
       end.
Definition succeed (tool resource : string) (v : json) : H_ CallToolResult :=
  mailAudit tool "message" resource "success";; write_value (Ok v).

Definition set_flags_args : list string := ["mailbox"; "uid_validity"; "uid"; "operation"; "flags"; "expected_modseq"].
Definition setMessageFlagsHandler (req : raw_mail_args) : H_ CallToolResult :=
  let tool := "set_message_flags" in
  args ← or_deny SendNone tool "message" "invalid" (mailArguments req set_flags_args);
  identity ← or_deny SendNone tool "message" (mailAuditResource args) (mailParseIdentity args);
  let resource := mailIdentityResource identity in
  input ← or_deny SendNone tool "message" resource (parse_flags args identity);
  or_deny SendNone tool "message" resource (authorize ResourceMailMutate (SfMailbox input));;
  r ← mutate tool resource "setting message flags" (SetMessageFlags input);
  succeed tool resource (set_flags_json r).

Definition move_args : list string := ["mailbox"; "uid_validity"; "uid"; "destination"].
Definition moveMessageHandler (req : raw_mail_args) : H_ CallToolResult :=
  let tool := "move_message" in
  args ← or_deny SendNone tool "message" "invalid" (mailArguments req move_args);
  identity ← or_deny SendNone tool "message" (mailAuditResource args) (mailParseIdentity args);
  let resource := mailIdentityResource identity in
  input ← or_deny SendNone tool "message" resource (parse_move args identity);
  or_deny SendNone tool "message" resource (authorize ResourceMailMutate (MvMailbox input));;
  or_deny SendNone tool "message" resource (authorize ResourceMailMutate (MvDestination input));;
  r ← mutate tool resource "moving message" (MoveMessage input);
  succeed tool resource (move_json r).

(** With a restricted scope the Trash is looked up, and must be in it. *)
Definition authorize_trash (tool resource : string) : H_ unit :=
  match Mail_scope (MdScopes deps) ResourceMailMutate with
  | None => mret tt
  | Some _ =>
      listed ← mutate tool resource "resolving Trash mailbox" ListMailboxes;
      match Mail.uniqueTrashMailbox (Mailboxes listed) with
      | Err e =>
          mailAudit tool "message" resource "denied";;
          mailServiceErrorResult "resolving Trash mailbox" e
      | Ok trash => or_deny SendNone tool "message" resource (authorize ResourceMailMutate trash)
      end
  end.
Definition trash_args : list string := ["mailbox"; "uid_validity"; "uid"].
Definition trashMessageHandler (req : raw_mail_args) : H_ CallToolResult :=
  let tool := "trash_message" in
  args ← or_deny SendNone tool "message" "invalid" (mailArguments req trash_args);
  identity ← or_deny SendNone tool "message" (mailAuditResource args) (mailParseIdentity args);
  let resource := mailIdentityResource identity in
  or_deny SendNone tool "message" resource (authorize ResourceMailMutate (IdMailbox identity));;
  authorize_trash tool resource;;
  r ← mutate tool resource "trashing message"
        (TrashMessage (MkTrashInput (IdMailbox identity) (IdUIDValidity identity) (IdUID identity)));
  succeed tool resource (move_json r).

Definition submission_status (r : SendResult) : string :=
  match SendResStatus r with
  | SendAccepted => "success"
  | SendOutcomeUnknown => "outcome_unknown"
  | _ => "error"
  end.
(** A submission, audited under its Message-ID, or [fallback] without one. *)
Definition submit (tool fallback operation : string) (m : W → W * (SendResult * option Error)) : H_ CallToolResult :=
  λ w, let '(w, (r, e)) := m w in
       let resource := if bool_decide (SendMessageID r = "") then fallback else SendMessageID r in
       match e with
       | Some e => (mailAudit tool "submission" resource (mailAuditErrorStatus (Some e));;
                    mailSendErrorResult operation r e) w
       | None => (mailAudit tool "submission" resource (submission_status r);; write_value (Ok (send_json r))) w
       end.
Definition send_args : list string := ["to"; "cc"; "bcc"; "subject"; "body"; "idempotency_key"].
Definition sendMessageHandler (req : raw_mail_args) : H_ CallToolResult :=
  let tool := "send_message" in
  args ← or_deny SendRejected tool "submission" "invalid" (mailArguments req send_args);
  input ← or_deny SendRejected tool "submission" "invalid" (mailSendInput args);
  submit tool "submission" "sending message" (SendMessage input).

Definition reply_args : list string := ["mailbox"; "uid_validity"; "uid"; "mode"; "body"; "idempotency_key"].
Definition replyMessageHandler (req : raw_mail_args) : H_ CallToolResult :=
  let tool := "reply_message" in
  args ← or_deny SendRejected tool "submission" "invalid" (mailArguments req reply_args);
  identity ← or_deny SendRejected tool "submission" (mailAuditResource args) (mailParseIdentity args);
  let resource := mailIdentityResource identity in
  input ← or_deny SendRejected tool "submission" resource (parse_reply args identity);
  submit tool resource "replying to message" (ReplyMessage input).
End Handlers.

(** * What a handler does to the outside

    The services of a world, observed: every call to the Mail service and
    every audit record, in order. *)

Inductive mail_mutation :=
| MFlags (i : SetFlagsInput) | MMove (i : MoveInput) | MTrash (i : TrashInput)
| MSend (i : SendInput) | MReply (i : ReplyInput).
(** The result of a submission is kept. *)
Inductive mail_event :=
| EvMailboxes (r : ListMailboxesResult) (e : option Error)
| EvMailRead (mailbox : string)
| EvMail (m : mail_mutation) (sent : option SendResult) (e : option Error)
| EvMailAudit (r : audit_record).

Section Observed.
Context {W : Type} `{MailService W, AuditStream W} `{MapOrder}.
Abbreviation OW := (W * list mail_event)%type.

#[export] Instance observed_mail : MailService OW := {|
  ListMailboxes := observe ListMailboxes (λ r, EvMailboxes r.1 r.2);
  SearchMessages i := observe (SearchMessages i) (λ _, EvMailRead (SiMailbox i));
  GetMessage i := observe (GetMessage i) (λ _, EvMailRead (GmMailbox i));
  SetMessageFlags i := observe (SetMessageFlags i) (λ r, EvMail (MFlags i) None r.2);
  MoveMessage i := observe (MoveMessage i) (λ r, EvMail (MMove i) None r.2);
  TrashMessage i := observe (TrashMessage i) (λ r, EvMail (MTrash i) None r.2);
  SendMessage i := observe (SendMessage i) (λ r, EvMail (MSend i) (Some r.1) r.2);
  ReplyMessage i := observe (ReplyMessage i) (λ r, EvMail (MReply i) (Some r.1) r.2);
|}.
#[export] Instance observed_mail_audit : AuditStream OW :=
  {| audit_write r w := (audit_write r w.1, (w.2 ++ [EvMailAudit r])%list) |}.
Variable deps : MailDeps.

(** The audit record of one outcome, if there is a logger. *)
Definition mail_audited (tool rtype resource status : string) : list mail_event :=
  if MdAudit deps
  then [EvMailAudit (LogDomainMutation (MdTokenKey deps) tool "mail" rtype resource status)] else [].
(** The call ends with an error; without a redactor, with the panic of its
    wiring. *)
Definition mail_error_end {A} (r : result handler_end A) : Prop :=
  match MdRedactor deps with
  | Some _ => ∃ out, r = Err (Returns out) ∧ out_isError out = true
  | None => r = Err (Panics no_redactor)
  end.
Definition mail_answered (r : result handler_end CallToolResult) : Prop :=
  match MdRedactor deps with
  | Some _ => ∃ out, r = Ok out ∧ one_text out
  | None => r = Err (Panics no_redactor)
  end.

(** The mailboxes the scope grants to a mutation, and how that was learned. *)
Definition may_mutate (mailbox : string) : Prop := in_scope (Mail_scope (MdScopes deps) ResourceMailMutate) mailbox = true.
Definition trash_granted (pre : list mail_event) : Prop :=
  match Mail_scope (MdScopes deps) ResourceMailMutate with
  | None => pre = []
  | Some _ => ∃ listed trash, pre = [EvMailboxes listed None] ∧
      Mail.uniqueTrashMailbox (Mailboxes listed) = Ok trash ∧ may_mutate trash
  end.
Definition mail_granted (m : mail_mutation) (pre : list mail_event) : Prop :=
  match m with
  | MFlags i => may_mutate (SfMailbox i) ∧ pre = []
  | MMove i => may_mutate (MvMailbox i) ∧ may_mutate (MvDestination i) ∧ MvDestination i ≠ MvMailbox i ∧ pre = []
  | MTrash i => may_mutate (TrMailbox i) ∧ trash_granted pre
  | MSend _ | MReply _ => pre = []
  end.

(** Refused: at most the mailboxes were listed, one record says why, and the
    caller gets an error. *)
Definition mail_refused {A} (tool rtype resource : string) (l : list mail_event) (r : result handler_end A) : Prop :=
  (∃ pre status, l = (pre ++ mail_audited tool rtype resource status)%list ∧
     ((status = "denied" ∧ (pre = [] ∨ ∃ listed, pre = [EvMailboxes listed None])) ∨
      ∃ listed e, pre = [EvMailboxes listed (Some e)] ∧ status = mailAuditErrorStatus (Some e))) ∧
  mail_error_end r.
Definition outcome_status (sent : option SendResult) (e : option Error) : string :=
  match e, sent with
  | Some e, _ => mailAuditErrorStatus (Some e)
  | None, Some r => submission_status r
  | None, None => "success"
  end.
(** One mutation: refused, or granted and then asked of the service once, with
    the decoded input, and recorded with its outcome. *)
Definition one_mail_mutation (tool rtype : string) (decoded : result string mail_mutation)
    (l : list mail_event) (r : result handler_end CallToolResult) : Prop :=
  (∃ resource, mail_refused tool rtype resource l r) ∨
  ∃ m pre sent e resource, decoded = Ok m ∧ mail_granted m pre ∧
    l = (pre ++ EvMail m sent e :: mail_audited tool rtype resource (outcome_status sent e))%list ∧
    match e with Some _ => mail_error_end r | None => mail_answered r end.

Lemma emits_mail_audit {A} tool rtype resource status (m : M OW handler_end A)
    (Q : list mail_event → result handler_end A → Prop) :
  emits m (λ l r, Q (mail_audited tool rtype resource status ++ l)%list r) →
  emits (mailAudit deps tool rtype resource status;; m) Q.
Proof.
  intros Hm. eapply (emits_bind _ _ (λ l r, l = mail_audited tool rtype resource status ∧ r = Ok tt)).
  - intros st. unfold mailAudit, mail_audited. destruct (MdAudit deps); [by eexists|].
    exists []. by rewrite app_nil_r.
  - by intros l e [_ ?].
  - by intros l [] [-> _].
Qed.
Lemma emits_error_result {A} p (Q : list mail_event → result handler_end A → Prop) :
  (∀ r, mail_error_end r → Q [] r) → emits (error_result (W:=OW) deps p) Q.
Proof.
  intros HQ st. exists []. rewrite app_nil_r. unfold error_result, mailRedactor, mail_error_end in *.
  destruct (MdRedactor deps) as [red|]; cbn; (split; [done|]); apply HQ; [|done]. by eexists.
Qed.
Lemma emits_write v (Q : list mail_event → result handler_end CallToolResult → Prop) :
  (∀ r, mail_answered r → Q [] r) → emits (write_value (W:=OW) deps v) Q.
Proof.
  intros HQ st. exists []. rewrite app_nil_r. unfold write_value, mailRedactor, mail_answered in *.
  destruct (MdRedactor deps) as [red|]; cbn; (split; [done|]); apply HQ; [|done].
  eexists. split; [done|]. destruct v; [apply writeEncoded_bounded|apply errResult_bounded].
Qed.
Lemma refused_now {A} tool rtype resource (r : result handler_end A) :
  mail_error_end r → mail_refused tool rtype resource (mail_audited tool rtype resource "denied") r.
Proof. intros Hr. split; [|done]. exists [], "denied". split; [done|]. left. split; [done|by left]. Qed.
(** An error of one step is an error of the whole. *)
Lemma error_end_step {A B} (e : handler_end) :
  mail_error_end (Err e : result handler_end A) → mail_error_end (Err e : result handler_end B).
Proof.
  unfold mail_error_end. destruct (MdRedactor deps); [intros (out & [= ->] & ?); eauto|by intros [= ->]].
Qed.
Lemma no_error_end {A} (a : A) : ~ mail_error_end (Ok a).
Proof. unfold mail_error_end. destruct (MdRedactor deps); [by intros (? & ? & _)|done]. Qed.
Lemma emits_mail_deny {A} status tool rtype resource msg (Q : list mail_event → result handler_end A → Prop) :
  (∀ r, mail_error_end r → Q (mail_audited tool rtype resource "denied") r) →
  emits (deny (W:=OW) deps status tool rtype resource msg) Q.
Proof. intros HQ. apply emits_mail_audit, emits_error_result. intros r Hr. rewrite app_nil_r. by apply HQ. Qed.
Lemma emits_or_refuse {A B} status tool rtype resource (r : result string A) (f : A → M OW handler_end B)
    (Q : list mail_event → result handler_end B → Prop) :
  (∀ r, mail_error_end r → Q (mail_audited tool rtype resource "denied") r) → (∀ a, r = Ok a → emits (f a) Q) →
  emits (or_deny deps status tool rtype resource r ≫= f) Q.
Proof.
  intros HQ Hf. destruct r as [a|msg].
  - eapply (emits_bind _ _ (λ l x, l = [] ∧ x = Ok a)); [by apply emits_ret|by intros ? ? [_ ?]|].
    intros l a' [-> [= <-]]. by apply Hf.
  - eapply (emits_bind _ _ (λ l x, l = mail_audited tool rtype resource "denied" ∧ mail_error_end x)).
    + by apply emits_mail_deny.
    + intros l e [-> He]. by apply HQ, (error_end_step (A:=A)).
    + by intros l a [_ ?%no_error_end].
Qed.
Lemma emits_mutation {A B} tool resource operation (f : W → W * (A * option Error)) (ev : A * option Error → mail_event)
    (k : A → M OW handler_end B) (Q : list mail_event → result handler_end B → Prop) :
  (∀ a e r, mail_error_end r → Q (ev (a, Some e) :: mail_audited tool "message" resource (mailAuditErrorStatus (Some e))) r) →
  (∀ a, emits (k a) (λ l, Q (ev (a, None) :: l))) →
  emits (mutate deps tool resource operation (observe f ev) ≫= k) Q.
Proof.
  intros He Hk.
  eapply (emits_bind _ _ (λ l x, ∃ a e, l = ev (a, e) :: match e with None => [] | Some e =>
      mail_audited tool "message" resource (mailAuditErrorStatus (Some e)) end ∧
    match e with None => x = Ok a | Some _ => mail_error_end x end)).
  - intros st. unfold mutate, observe. destruct (f st.1) as [w1 [a [e|]]]; cbn [fst snd].
    + destruct (emits_mail_audit (A:=A) tool "message" resource (mailAuditErrorStatus (Some e))
        (mailServiceErrorResult deps operation e) (λ l x, l = mail_audited tool "message" resource (mailAuditErrorStatus (Some e))
          ∧ mail_error_end x)) with (st := (w1, (st.2 ++ [ev (a, Some e)])%list)) as (l & Hl & -> & Hx).
      { apply emits_error_result. intros x Hx. by rewrite app_nil_r. }
      eexists. split; [rewrite Hl; cbn [the_log log_second snd]; by rewrite <-app_assoc|].
      exists a, (Some e). done.
    + exists [ev (a, None)]. split; [done|]. by exists a, None.
  - intros l x (a & [e|] & -> & Hx); [|done]. by apply (He a e), (error_end_step (A:=A)).
  - intros l a (a' & [e|] & -> & Hx); [|injection Hx as <-; apply Hk]. by apply no_error_end in Hx.
Qed.
Lemma emits_succeed tool resource v (Q : list mail_event → result handler_end CallToolResult → Prop) :
  (∀ r, mail_answered r → Q (mail_audited tool "message" resource "success") r) →
  emits (succeed (W:=OW) deps tool resource v) Q.
Proof. intros HQ. apply emits_mail_audit, emits_write. intros r Hr. rewrite app_nil_r. by apply HQ. Qed.

Lemma authorize_ok action mailbox u :
  authorize deps action mailbox = Ok u → in_scope (Mail_scope (MdScopes deps) action) mailbox = true.
Proof. unfold authorize, Mail.authorizeMailbox. by destruct (in_scope _ mailbox). Qed.

(** What the arguments of each mutation decode to. *)
Definition decoded_mutation {I} (req : raw_mail_args) (keys : list string) (parse : mail_args → mailIdentity → result string I)
    (make : I → mail_mutation) : result string mail_mutation :=
  args ← mailArguments req keys;
  identity ← mailParseIdentity args;
  input ← parse args identity;
  Ok (make input).
Definition trash_input (args : mail_args) (identity : mailIdentity) : result string TrashInput :=
  Ok (MkTrashInput (IdMailbox identity) (IdUIDValidity identity) (IdUID identity)).
Definition decoded_send (req : raw_mail_args) : result string mail_mutation :=
  args ← mailArguments req send_args;
  input ← mailSendInput args;
  Ok (MSend input).

(** The next argument is read, or the call refused. *)
Tactic Notation "decode_or_refuse" simple_intropattern(pat) :=
  apply emits_or_refuse; [intros r Hr; left; eexists; by apply refused_now|intros ? pat].
(** The call itself, granted by [pre]. *)
Lemma emits_granted tool resource operation decoded m pre {A} (f : W → W * (A * option Error)) (v : A → json) :
  decoded = Ok m → mail_granted m pre →
  emits (mutate deps tool resource operation (observe f (λ r, EvMail m None r.2)) ≫=
           λ r, succeed deps tool resource (v r))
    (λ l, one_mail_mutation tool "message" decoded (pre ++ l)%list).
Proof.
  intros Hd Hg. apply emits_mutation.
  - intros a e r Hr. right. exists m, pre, None, (Some e), resource. by split_and!.
  - intros a. apply emits_succeed. intros r Hr. right. exists m, pre, None, None, resource. by split_and!.
Qed.

Lemma flags_once req :
  emits (setMessageFlagsHandler (W:=OW) deps req)
    (one_mail_mutation "set_message_flags" "message" (decoded_mutation req set_flags_args parse_flags MFlags)).
Proof.
  unfold setMessageFlagsHandler.
  decode_or_refuse Hargs. decode_or_refuse Hid. decode_or_refuse Hi. decode_or_refuse Ha%authorize_ok.
  eapply (emits_granted _ _ _ _ (MFlags _) []); [|done].
  unfold decoded_mutation. rewrite Hargs. cbn. rewrite Hid. cbn. by rewrite Hi.
Qed.
Lemma parse_move_differs args identity i : parse_move args identity = Ok i → MvDestination i ≠ MvMailbox i.
Proof.
  unfold parse_move. destruct (mailRequiredMailbox _ _) as [d|]; [|done]. cbn [mbind result_bind].
  case_bool_decide; [done|]. by intros [= <-].
Qed.
Lemma move_once req :
  emits (moveMessageHandler (W:=OW) deps req)
    (one_mail_mutation "move_message" "message" (decoded_mutation req move_args parse_move MMove)).
Proof.
  unfold moveMessageHandler.
  decode_or_refuse Hargs. decode_or_refuse Hid. decode_or_refuse Hi. decode_or_refuse Ha%authorize_ok.
  decode_or_refuse Hb%authorize_ok.
  eapply (emits_granted _ _ _ _ (MMove _) []); [|split_and!; [done..|by eapply parse_move_differs|done]].
  unfold decoded_mutation. rewrite Hargs. cbn. rewrite Hid. cbn. by rewrite Hi.
Qed.

Lemma emits_assoc {A B C} (m : M OW handler_end A) (f : A → M OW handler_end B) (g : M OW handler_end C)
    (Q : list mail_event → result handler_end C → Prop) :
  emits (m ≫= λ a, (f a;; g)) Q → emits ((m ≫= f);; g) Q.
Proof.
  intros Hm st. destruct (Hm st) as (l & Hl & Hx). revert Hl Hx. unfold mbind, M_bind.
  destruct (m st) as [st1 [a|e]]; intros; eauto.
Qed.
(** Looking up the Trash: refused, or the grant it found. *)
Lemma emits_trash tool resource (k : M OW handler_end CallToolResult)
    (Q : list mail_event → result handler_end CallToolResult → Prop) :
  (∀ l r, mail_refused tool "message" resource l r → Q l r) →
  (∀ pre, trash_granted pre → emits k (λ l, Q (pre ++ l)%list)) →
  emits (authorize_trash deps tool resource;; k) Q.
Proof.
  intros HQ Hk. unfold authorize_trash, trash_granted in *.
  destruct (Mail_scope (MdScopes deps) ResourceMailMutate) as [values|] eqn:Hs.
  2: { eapply (emits_bind _ _ (λ l x, l = [] ∧ x = Ok tt)); [by apply emits_ret|by intros ? ? [_ ?]|].
       intros l [] [-> _]. by apply Hk. }
  assert (∀ listed r, mail_error_end r →
    Q (EvMailboxes listed None :: mail_audited tool "message" resource "denied") r) as Hno.
  { intros listed r Hr. apply HQ. split; [|done]. exists [EvMailboxes listed None], "denied". split; [done|].
    left. eauto. }
  apply emits_assoc, emits_mutation.
  - intros listed e r Hr. apply HQ. split; [|done]. exists [EvMailboxes listed (Some e)], (mailAuditErrorStatus (Some e)).
    split; [done|]. right. eauto.
  - intros listed. cbn [fst snd]. destruct (Mail.uniqueTrashMailbox (Mailboxes listed)) as [trash|e] eqn:Ht.
    + apply emits_or_refuse; [apply Hno|]. intros [] Ha%authorize_ok. apply (Hk [EvMailboxes listed None]). eauto.
    + apply emits_assoc, emits_mail_audit.
      eapply (emits_bind _ _ (λ l x, l = [] ∧ mail_error_end x)).
      * apply emits_error_result. by split.
      * intros l x [-> Hx]. rewrite app_nil_r. by apply Hno, (error_end_step (A:=unit)).
      * by intros l a [_ ?%no_error_end].
Qed.
Lemma trash_once req :
  emits (trashMessageHandler (W:=OW) deps req)
    (one_mail_mutation "trash_message" "message" (decoded_mutation req trash_args trash_input MTrash)).
Proof.
  unfold trashMessageHandler.
  decode_or_refuse Hargs. decode_or_refuse Hid. decode_or_refuse Ha%authorize_ok.
  apply emits_trash; [intros l r Hr; left; eauto|]. intros pre Hpre.
  eapply (emits_granted _ _ _ _ (MTrash _) pre); [|by split].
  unfold decoded_mutation. rewrite Hargs. cbn. by rewrite Hid.
Qed.

Lemma emits_submit tool fallback operation decoded m (f : W → W * (SendResult * option Error)) :
  decoded = Ok m → mail_granted m [] →
  emits (submit deps tool fallback operation (observe f (λ r, EvMail m (Some r.1) r.2)))
    (one_mail_mutation tool "submission" decoded).
Proof.
  intros Hd Hg st. unfold submit, observe. destruct (f st.1) as [w1 [r e]]. cbn [fst snd].
  set (resource := if bool_decide _ then _ else _). set (st1 := (w1, _)).
  assert (∀ (h : M OW handler_end CallToolResult),
    emits h (λ l x, l = mail_audited tool "submission" resource (outcome_status (Some r) e) ∧
      match e with Some _ => mail_error_end x | None => mail_answered x end) →
    ∃ l, the_log (h st1).1 = (the_log st ++ l)%list ∧ one_mail_mutation tool "submission" decoded l (h st1).2) as Hend.
  { intros h Hh. destruct (Hh st1) as (l & Hl & -> & Hx). eexists. split.
    - rewrite Hl. unfold st1. cbn [the_log log_second snd]. by rewrite <-app_assoc.
    - right. exists m, [], (Some r), e, resource. by split_and!. }
  destruct e as [e|]; apply Hend, emits_mail_audit.
  - apply emits_error_result. intros x Hx. by rewrite app_nil_r.
  - apply emits_write. intros x Hx. by rewrite app_nil_r.
Qed.
Lemma send_once req :
  emits (sendMessageHandler (W:=OW) deps req) (one_mail_mutation "send_message" "submission" (decoded_send req)).
Proof.
  unfold sendMessageHandler. decode_or_refuse Hargs. decode_or_refuse Hi.
  eapply emits_submit with (m := MSend _); [|done]. unfold decoded_send. rewrite Hargs. cbn. by rewrite Hi.
Qed.
Lemma reply_once req :
  emits (replyMessageHandler (W:=OW) deps req)
    (one_mail_mutation "reply_message" "submission" (decoded_mutation req reply_args parse_reply MReply)).
Proof.
  unfold replyMessageHandler. decode_or_refuse Hargs. decode_or_refuse Hid. decode_or_refuse Hi.
  eapply emits_submit with (m := MReply _); [|done].
  unfold decoded_mutation. rewrite Hargs. cbn. rewrite Hid. cbn. by rewrite Hi.
Qed.
End Observed.

(** * What decoding lets through is what the service accepts *)

(** The ranges of Go's integer types. *)
Definition wf_arg (a : arg) : Prop :=
  match a with
  | ArgInt z => min_int64 <= z <= max_int64
  | ArgUint z => 0 <= z < 2 ^ 64
  | _ => True
  end.
Definition wf_args (args : mail_args) : Prop := ∀ k a, args !! k = Some (Scalar a) → wf_arg a.
(** JSON arguments have them. *)
Lemma decoded_json_wf data args : mailDecodeJSONArguments data = Ok (Some args) → wf_args args.
Proof.
  unfold mailDecodeJSONArguments. destruct (parse_value _ 0 data) as [[v rest]|]; [|done]. cbn [mbind option_bind fst snd].
  destruct (object_target v rest) as [target|] eqn:Ht; [|done]. cbn [fmap option_fmap option_map].
  case_bool_decide; [|done]. intros [= ->]. destruct v as [| | | | |fields]; try done.
  { cbn in Ht. by destruct (forallb json_space (take 1 rest)). }
  assert (value_of <$> (list_to_map (reverse fields) : gmap string json) = args) as <- by (unfold object_target in Ht; congruence).
  intros k a Hk. unfold mail_args in Hk. rewrite lookup_fmap in Hk.
  destruct ((list_to_map (reverse fields) : gmap string json) !! k) as [v|]; [|done]. injection Hk as Hv.
  destruct v; try done; injection Hv as <-; exact I.
Qed.

Lemma parse_digits_nonneg l z : parse_digits l = Some z → 0 <= z.
Proof.
  unfold parse_digits. destruct l as [|c l]; [done|]. destruct (forallb is_digit (c :: l)) eqn:Hd; [|done].
  intros [= <-]. assert (∀ l n, forallb is_digit l = true → 0 <= n → 0 <= fold_left (λ n c, n * 10 + digit_val c) l n) as Hgen.
  { clear. induction l as [|c l IH]; intros n; simpl; [done|]. intros [Hc Hl]%andb_prop Hn. apply IH; [done|].
    unfold is_digit, digit_val in *. bool_to_prop. lia. }
  by apply (Hgen (c :: l)).
Qed.
Lemma unsigned_range raw bits z :
  (∀ a, raw = Scalar a → wf_arg a) → bits = 32 ∨ bits = 64 → mailUnsigned raw bits = Some z → 0 <= z < 2 ^ bits.
Proof.
  intros Hwf Hbits. unfold mailUnsigned.
  assert (∀ y, 0 <= y < 2 ^ 64 → (if (bits =? 32) && (2 ^ 32 - 1 <? y) then None else Some y) = Some z → 0 <= z < 2 ^ bits) as Hfits.
  { intros y Hy. destruct Hbits as [->| ->]; cbn -[Z.pow Z.ltb]; [|intros [= <-]; done].
    destruct (Z.ltb_spec (2 ^ 32 - 1) y); [done|]. intros [= <-]. lia. }
  destruct raw as [a| |]; try done. specialize (Hwf a eq_refl). destruct a as [s|b|y|y|f|s|]; try done.
  - cbn in Hwf. destruct (Z.ltb_spec y 0); [done|]. apply Hfits. unfold max_int64 in Hwf. lia.
  - by apply Hfits.
  - destruct (integral_float f) as [y|]; [|done]. cbn [mbind option_bind].
    destruct ((y <? 0) || (2 ^ 53 <? y)) eqn:Hy; [done|]. apply Hfits. apply orb_false_iff in Hy as [H1 H2].
    apply Z.ltb_ge in H1, H2. lia.
  - unfold parse_uint. destruct (parse_digits _) as [y|] eqn:Hy; [|done]. apply parse_digits_nonneg in Hy. cbn [mbind option_bind].
    destruct (Z.ltb_spec y (2 ^ bits)); [|done]. intros [= <-]. done.
Qed.

Section Accepted.
Context (args : mail_args) (Hwf : wf_args args).

Lemma optional_unsigned name bits z present :
  bits = 32 ∨ bits = 64 → mailOptionalUnsigned args name bits = Ok (z, present) →
  0 <= z < 2 ^ bits ∧ (present = false → z = 0).
Proof.
  intros Hbits. unfold mailOptionalUnsigned. destruct (args !! name) as [raw|] eqn:Hraw.
  - destruct (mailUnsigned raw bits) as [y|] eqn:Hy; [|done]. intros [= <- <-]. split; [|done].
    eapply unsigned_range; [|done..]. intros a ->. by eapply Hwf.
  - intros [= <- <-]. split; [|done]. destruct Hbits as [-> | ->]; done.
Qed.
Lemma required_uint32 name z : mailRequiredUint32 args name = Ok z → 0 < z < 2 ^ 32.
Proof.
  unfold mailRequiredUint32. destruct (mailOptionalUnsigned args name 32) as [[y present]|] eqn:Hy; [|done].
  apply optional_unsigned in Hy as [Hr _]; [|by left]. cbn [mbind result_bind].
  destruct (negb present); [done|]. destruct (Z.eqb_spec y 0); [done|]. intros [= <-]. lia.
Qed.
Lemma control_agrees s tab : mailHasDisallowedControl s tab = false → hasDisallowedControl s tab = false.
Proof.
  intros Hm. destruct (hasDisallowedControl s tab) eqn:Hd; [|done]. exfalso. revert Hm. apply not_false_iff_true.
  unfold hasDisallowedControl in Hd. apply existsb_exists in Hd as (c & Hc%list_elem_of_In & Hb).
  assert (byte_val c < 128) as Hlow.
  { apply orb_true_iff in Hb as [Hb|Hb]; [apply Z.eqb_eq in Hb; lia|].
    apply andb_true_iff in Hb as [Hb _]. apply Z.ltb_lt in Hb. lia. }
  pose proof (runes_low _ _ Hc Hlow) as (rw & Heq & Hrw)%list_elem_of_In%in_map_iff.
  unfold mailHasDisallowedControl. apply existsb_exists. exists rw. by rewrite Heq.
Qed.
Lemma mailbox_accepted name v : mailRequiredMailbox args name = Ok v → validateMailbox v = Ok tt.
Proof.
  unfold mailRequiredMailbox, validateMailbox. destruct (mailRequiredString args name) as [s|]; [|done]. cbn [mbind result_bind].
  destruct (bool_decide (s = "")) eqn:He; [done|]. destruct (_ || mailHasDisallowedControl s true) eqn:Hb; [done|].
  intros [= <-]. rewrite He. apply orb_false_iff in Hb as [Hl Hc]. by rewrite Hl, (control_agrees _ _ Hc).
Qed.
Lemma identity_accepted id :
  mailParseIdentity args = Ok id →
  validateIdentity (IdMailbox id) (IdUIDValidity id) (IdUID id) = Ok tt ∧ IdUIDValidity id < 2 ^ 32 ∧ IdUID id < 2 ^ 32.
Proof.
  unfold mailParseIdentity. destruct (mailRequiredMailbox args _) as [m|] eqn:Hm; [|done]. cbn [mbind result_bind].
  destruct (mailRequiredUint32 args "uid_validity") as [v|] eqn:Hv; [|done]. cbn [mbind result_bind].
  destruct (mailRequiredUint32 args "uid") as [u|] eqn:Hu; [|done]. intros [= <-]. cbn [IdMailbox IdUIDValidity IdUID].
  apply required_uint32 in Hv, Hu. split; [|lia]. unfold validateIdentity. rewrite (mailbox_accepted _ _ Hm). cbn [mbind result_bind].
  destruct (Z.eqb_spec v 0); [lia|]. by destruct (Z.eqb_spec u 0); [lia|].
Qed.

Lemma search_text_accepted name s : search_text args name = Ok s → validateSearchValue name s = Ok tt.
Proof.
  unfold search_text, mailOptionalString. destruct (args !! name) as [[[]| |]|]; try done; cbn [mbind result_bind].
  - unfold mailValidateSearchValue, validateSearchValue. destruct (_ || mailHasDisallowedControl _ false) eqn:Hb; [done|].
    intros [= <-]. apply orb_false_iff in Hb as [Hl Hc]. by rewrite Hl, (control_agrees _ _ Hc).
  - by intros [= <-].
Qed.
Lemma search_accepted i :
  mailSearchInput args = Ok i →
  validateSearchInput i = Ok tt ∧ 1 <= SiLimit i <= MaxSearchResults ∧ 0 <= BeforeUID i < 2 ^ 32 ∧ 0 <= SiUIDValidity i < 2 ^ 32.
Proof.
  unfold mailSearchInput. destruct (mailRequiredMailbox args _) as [m|] eqn:Hm; [|done]. cbn [mbind result_bind].
  destruct (search_text args "query") as [query|] eqn:Hq; [|done]. cbn [mbind result_bind].
  destruct (search_text args "from") as [from|] eqn:Hf; [|done]. cbn [mbind result_bind].
  destruct (search_text args "to") as [to|] eqn:Hto; [|done]. cbn [mbind result_bind].
  destruct (search_text args "subject") as [subject|] eqn:Hs; [|done]. cbn [mbind result_bind].
  destruct (mailOptionalDate args "since") as [since|]; [|done]. cbn [mbind result_bind].
  destruct (mailOptionalDate args "before") as [before|]; [|done]. cbn [mbind result_bind].
  match goal with |- (if ?c then _ else _) = _ → _ => destruct c eqn:Hdates; [done|] end.
  destruct (mailOptionalBool args "unseen_only") as [[unseen ?]|]; [|done]. cbn [mbind result_bind].
  destruct (mailOptionalBool args "flagged_only") as [[flagged ?]|]; [|done]. cbn [mbind result_bind].
  destruct (mailOptionalUnsigned args "before_uid" 32) as [[buid bp]|] eqn:Hb; [|done]. cbn [mbind result_bind].
  destruct (mailOptionalUnsigned args "uid_validity" 32) as [[uv up]|] eqn:Hu; [|done]. cbn [mbind result_bind].
  apply optional_unsigned in Hb as [Hbr Hb0], Hu as [Hur Hu0]; [|by left..].
  destruct (bp && (buid =? 0)) eqn:H1; [done|]. destruct (up && (uv =? 0)) eqn:H2; [done|].
  destruct (bp && negb up) eqn:H3; [done|].
  destruct (mailOptionalUnsigned args "limit" 32) as [[limit lp]|] eqn:Hl; [|done]. cbn [mbind result_bind].
  destruct (lp && _) eqn:H4; [done|]. intros [= <-]. cbn [SiLimit BeforeUID SiUIDValidity].
  assert (1 <= (if lp then limit else 20) <= MaxSearchResults) as Hlim.
  { destruct lp; [|unfold MaxSearchResults; lia]. simpl in H4. apply orb_false_iff in H4 as [? ?]. bool_to_prop. lia. }
  split; [|done]. unfold validateSearchInput, search_fields.
  cbn [SiMailbox SiQuery SiFrom SiTo SiSubject Since Before BeforeUID SiUIDValidity SiLimit].
  rewrite (mailbox_accepted _ _ Hm). cbn [mbind result_bind fold_res fst snd].
  apply search_text_accepted in Hq, Hf, Hto, Hs. rewrite Hq. cbn. rewrite Hf. cbn. rewrite Hto. cbn. rewrite Hs. cbn.
  rewrite Hdates.
  assert (negb (buid =? 0) && (uv =? 0) = false) as ->.
  { destruct (Z.eqb_spec buid 0); [done|]. destruct bp; [|by rewrite Hb0 in *]. destruct up; [|done]. by destruct (uv =? 0). }
  assert (((if lp then limit else 20) <? 0) || (MaxSearchResults <? (if lp then limit else 20)) = false) as ->; [|done].
  apply orb_false_iff. split; apply Z.ltb_ge; lia.
Qed.
Lemma get_accepted i :
  parse_get args = Ok i →
  validateIdentity (GmMailbox i) (GmUIDValidity i) (GmUID i) = Ok tt ∧ 1 <= GmMaxBodyBytes i <= MaxBodyBytes.
Proof.
  unfold parse_get. destruct (mailParseIdentity args) as [id|] eqn:Hid; [|done]. cbn [mbind result_bind].
  destruct (mailOptionalUnsigned args "max_body_bytes" 32) as [[z p]|]; [|done]. cbn [mbind result_bind].
  match goal with |- context [if ?c then Err _ else _] => destruct c eqn:Hr; [done|] end.
  destruct (mailOptionalBool args _) as [[b ?]|]; [|done]. intros [= <-]. cbn [GmMailbox GmUIDValidity GmUID GmMaxBodyBytes].
  split; [by apply identity_accepted|]. apply orb_false_iff in Hr as [? ?]. bool_to_prop. lia.
Qed.

Lemma flag_seen_add flags s flags' : add_flag flags s = Ok flags' → ∃ f, flags' = (flags ++ [f])%list ∧ flag_seen flags f = Ok flags'.
Proof.
  unfold add_flag, flag_seen. destruct (flag_of s) as [f|]; [|done]. destruct (bool_decide (f ∈ flags)) eqn:Hf; [done|].
  intros [= <-]. exists f. by rewrite Hf.
Qed.
Lemma flags_seen texts : ∀ flags out, fold_res add_flag texts flags = Ok out →
  ∃ l, out = (flags ++ l)%list ∧ length l = length texts ∧ fold_res flag_seen l flags = Ok out.
Proof.
  induction texts as [|s texts IH]; intros flags out; cbn [fold_res].
  { intros [= <-]. exists []. by rewrite app_nil_r. }
  destruct (add_flag flags s) as [flags1|] eqn:Hs; [|done]. cbn [mbind result_bind]. intros Hf.
  destruct (flag_seen_add _ _ _ Hs) as (f & -> & Hseen). destruct (IH _ _ Hf) as (l & -> & Hl & Hfold).
  exists (f :: l). rewrite <-app_assoc. split_and!; [done|by simpl; rewrite Hl|]. cbn [fold_res]. rewrite Hseen. cbn [mbind result_bind].
  by rewrite <-app_assoc in Hfold.
Qed.
Lemma flags_accepted id i :
  mailParseIdentity args = Ok id → parse_flags args id = Ok i → validateFlags i = Ok tt ∧ 0 <= ExpectedModSeq i < 2 ^ 64.
Proof.
  intros Hid%identity_accepted. destruct Hid as [Hid _]. unfold parse_flags, operation_of.
  destruct (mailRequiredString args "operation") as [op|]; [|done]. cbn [mbind result_bind].
  destruct (if bool_decide (op = "add") then Ok FlagOperationAdd else _) as [operation|] eqn:Hop; [|done]. cbn [mbind result_bind].
  destruct (mailStringArray args "flags" true) as [texts|]; [|done]. cbn [mbind result_bind].
  destruct (mailFlags texts) as [flags|] eqn:Hf; [|done]. cbn [mbind result_bind].
  destruct (mailOptionalUnsigned args "expected_modseq" 64) as [[z p]|] eqn:Hz; [|done]. cbn [mbind result_bind].
  destruct (p && (z =? 0)); [done|]. intros [= <-]. apply optional_unsigned in Hz as [Hz _]; [|by right].
  split; [|done]. unfold validateFlags. cbn [SfMailbox SfUIDValidity SfUID Operation SfFlags]. rewrite Hid. cbn [mbind result_bind].
  assert (negb (bool_decide (operation = FlagOperationAdd)) && negb (bool_decide (operation = FlagOperationRemove)) = false) as ->.
  { revert Hop. destruct (bool_decide (op = "add")); [by intros [= <-]|]. destruct (bool_decide (op = "remove")); [by intros [= <-]|done]. }
  unfold mailFlags in Hf. destruct (_ || _) eqn:Hl; [done|]. destruct (flags_seen _ _ _ Hf) as (l & -> & Hlen & Hfold).
  cbn [app] in *. apply orb_false_iff in Hl as [Hl1 Hl2]. apply Z.ltb_ge in Hl1, Hl2.
  assert ((zlen l =? 0) || (3 <? zlen l) = false) as ->.
  { unfold zlen in *. rewrite Hlen. apply orb_false_iff. split; [apply Z.eqb_neq|apply Z.ltb_ge]; lia. }
  by rewrite Hfold.
Qed.
Lemma move_accepted id i :
  mailParseIdentity args = Ok id → parse_move args id = Ok i →
  validateIdentity (MvMailbox i) (MvUIDValidity i) (MvUID i) = Ok tt ∧ validateMailbox (MvDestination i) = Ok tt.
Proof.
  intros Hid%identity_accepted. unfold parse_move. destruct (mailRequiredMailbox args _) as [d|] eqn:Hd; [|done].
  cbn [mbind result_bind]. case_bool_decide; [done|]. intros [= <-]. split; [by apply Hid|by eapply mailbox_accepted].
Qed.

Lemma address_accepted s : mailValidateAddress s = Ok tt → validateAddrSpec s = Ok s.
Proof.
  unfold mailValidateAddress, validateAddrSpec.
  destruct (bool_decide (s = "")), (320 <? len s), (bool_decide (trim_space s = s)), (contains_any s cr_lf_nul),
    (valid_utf8 (bytes s)), (parsed_plainly s), (contains s "@"); done.
Qed.
(** The recipients seen, and the set the service keeps of them. *)
Definition seen_as (seen : list string) (set : gset string) : Prop := ∀ k, k ∈ set ↔ k ∈ seen.
Lemma group_accepted policy name values : ∀ seen out done set,
  (∀ a, a ∈ values → allows policy a = true) → seen_as seen set → fold_res add_recipient values seen = Ok out →
  ∃ set', validateRecipientGroup policy name values (done, set) = Ok ((done ++ values)%list, set') ∧ seen_as out set'.
Proof.
  unfold validateRecipientGroup.
  induction values as [|a values IH]; intros seen out done set Hall Hset; cbn [fold_res].
  { intros [= <-]. exists set. by rewrite app_nil_r. }
  unfold add_recipient at 1. destruct (mailValidateAddress a) as [[]|] eqn:Ha; [|by intros ?]. cbn [mbind result_bind].
  case_bool_decide as Hnew; [by intros ?|]. cbn [mbind result_bind]. intros Hf.
  unfold group_member at 1. rewrite (address_accepted _ Ha). cbv zeta. cbn [fst snd].
  change (asciiLower a) with (mailASCIILower a).
  rewrite bool_decide_false by (by intros ?%Hset). rewrite (Hall a) by left. cbn [negb mbind result_bind].
  destruct (IH (seen ++ [mailASCIILower a])%list out (done ++ [a])%list ({[mailASCIILower a]} ∪ set))
    as (set' & Hg & Hset'); [intros b Hb; apply Hall; by right| |done|].
  { intros k. rewrite elem_of_union, elem_of_singleton, elem_of_app, list_elem_of_singleton, (Hset k). tauto. }
  exists set'. rewrite Hg. split; [|done]. by rewrite <-app_assoc.
Qed.
Lemma fold_res_split {E S A} (f : S → A → result E S) l1 l2 s out :
  fold_res f (l1 ++ l2)%list s = Ok out → ∃ mid, fold_res f l1 s = Ok mid ∧ fold_res f l2 mid = Ok out.
Proof. rewrite fold_res_app. apply bind_ok. Qed.
Definition recipients_of (i : SendInput) : list string := (SendTo i ++ SendCc i ++ SendBcc i)%list.

Lemma contains_nul s : contains s nul = has_nul s.
Proof.
  unfold has_nul, nul. destruct (contains s (str ["000"%char])) eqn:Hc.
  - symmetry. apply bool_decide_eq_true. destruct (decide ("000"%char ∈ bytes s)) as [|Hn]; [done|].
    apply contains_byte_false in Hn. congruence.
  - symmetry. apply bool_decide_eq_false. by apply contains_byte_false.
Qed.
Lemma body_accepted body : parse_body args = Ok body → (MaxSendBodyBytes <? len body) || negb (valid_utf8 (bytes body)) || has_nul body = false.
Proof.
  unfold parse_body. destruct (mailRequiredString args "body") as [s|]; [|done]. cbn [mbind result_bind].
  unfold valid_body. destruct (negb _) eqn:Hb; [done|]. intros [= <-]. rewrite contains_nul in Hb.
  apply negb_false_iff in Hb. apply andb_prop in Hb as [[Hl Hv]%andb_prop Hn%negb_true_iff]. apply Z.leb_le in Hl.
  rewrite Hv, Hn. destruct (Z.ltb_spec MaxSendBodyBytes (len s)); [lia|done].
Qed.
Lemma key_accepted key : parse_key args = Ok key → validateSendIdempotencyKey key = Ok tt.
Proof.
  unfold parse_key. destruct (mailOptionalString args "idempotency_key") as [[s p]|]; [|done]. cbn [mbind result_bind].
  unfold valid_key. destruct (negb _) eqn:Hk; [done|]. intros [= <-].
  apply negb_false_iff in Hk. apply andb_prop in Hk as [Hl Hc]. apply Z.leb_le in Hl. apply negb_true_iff in Hc.
  unfold validateSendIdempotencyKey. destruct (decide _); [done|]. rewrite Hc.
  destruct (Z.ltb_spec maxSendIdempotencyKey (len s)); [unfold maxSendIdempotencyKey in *; lia|done].
Qed.
Lemma send_accepted i :
  mailSendInput args = Ok i →
  validate_content i = Ok tt ∧ validateSendIdempotencyKey (SendIdempotencyKey i) = Ok tt ∧
  ∀ policy, (∀ a, a ∈ recipients_of i → allows policy a = true) → validate_recipients policy i = Ok (recipients_of i).
Proof.
  unfold mailSendInput, recipients_of.
  destruct (recipient_group args "to") as [to|]; [|done]. cbn [mbind result_bind].
  destruct (recipient_group args "cc") as [cc|]; [|done]. cbn [mbind result_bind].
  destruct (recipient_group args "bcc") as [bcc|]; [|done]. cbn [mbind result_bind].
  destruct (_ =? 0) eqn:H0; [done|]. destruct (MaxRecipients <? _) eqn:Hmax; [done|].
  destruct (fold_res add_recipient _ []) as [seen|] eqn:Hseen; [|done]. cbn [mbind result_bind].
  destruct (mailOptionalString args "subject") as [[subject ?]|]; [|done]. cbn [mbind result_bind].
  destruct (_ || mailHasDisallowedControl subject false) eqn:Hsub; [done|].
  destruct (parse_body args) as [body|] eqn:Hbody; [|done]. cbn [mbind result_bind].
  destruct (parse_key args) as [key|] eqn:Hkey; [|done]. intros [= <-].
  cbn [SendTo SendCc SendBcc SendIdempotencyKey]. split_and!; [|by apply key_accepted|].
  - unfold validate_content. cbn [SendSubject SendBody SendInReplyTo SendReferences].
    apply orb_false_iff in Hsub as [Hs Hc]. rewrite Hs, (control_agrees _ _ Hc). cbn [orb].
    by rewrite (body_accepted _ Hbody).
  - intros policy Hall. unfold validate_recipients. cbn [SendTo SendCc SendBcc].
    apply fold_res_split in Hseen as (s1 & H1 & (s2 & H2 & H3)%fold_res_split).
    destruct (group_accepted policy "to" to [] s1 [] ∅) as (t1 & -> & Ht1); [set_solver| |done|].
    { intros k. split; [by intros ?%not_elem_of_empty|by intros ?%not_elem_of_nil]. }
    cbn [mbind result_bind app].
    destruct (group_accepted policy "cc" cc s1 s2 to t1) as (t2 & -> & Ht2); [set_solver|done..|]. cbn [mbind result_bind].
    destruct (group_accepted policy "bcc" bcc s2 seen (to ++ cc)%list t2) as (t3 & -> & Ht3); [set_solver|done..|].
    cbn [mbind result_bind fst]. rewrite <-app_assoc, !zlen_app. rewrite !Z.add_assoc, H0, Hmax. done.
Qed.
Lemma reply_accepted id i :
  parse_reply args id = Ok i →
  (MaxSendBodyBytes <? len (RiBody i)) || negb (valid_utf8 (bytes (RiBody i))) || has_nul (RiBody i) = false ∧
  validateSendIdempotencyKey (RiIdempotencyKey i) = Ok tt.
Proof.
  unfold parse_reply. destruct (mailOptionalString args "mode") as [[mode ?]|]; [|done]. cbn [mbind result_bind].
  destruct (parse_body args) as [body|] eqn:Hbody; [|done]. cbn [mbind result_bind].
  destruct (parse_key args) as [key|] eqn:Hkey; [|done]. intros [= <-].
  split; [by apply body_accepted|by apply key_accepted].
Qed.
End Accepted.

(** (C37) What the Mail tools decode passes the service's own validation.  For
    arguments of Go's integer ranges (JSON always gives them): search criteria,
    message identities, flags, the destination of a move (which differs from
    the source), the subject and body of a message, the body of a reply and the
    idempotency keys are accepted by the checks the service makes of them, and
    the recipients of a message are accepted, all of them and in order, as soon
    as the policy allows each one; identifiers and cursors fit 32 bits,
    and limits lie in their documented ranges.  The mode of a reply is not
    among them: the tool passes on whatever text it was given. *)
Theorem mail_inputs_accepted (args : mail_args) (Hwf : wf_args args) :
  (∀ i, mailSearchInput args = Ok i →
     validateSearchInput i = Ok tt ∧ 1 <= SiLimit i <= MaxSearchResults ∧
     0 <= BeforeUID i < 2 ^ 32 ∧ 0 <= SiUIDValidity i < 2 ^ 32) ∧
  (∀ i, parse_get args = Ok i →
     validateIdentity (GmMailbox i) (GmUIDValidity i) (GmUID i) = Ok tt ∧ 1 <= GmMaxBodyBytes i <= MaxBodyBytes) ∧
  (∀ id, mailParseIdentity args = Ok id →
     (validateIdentity (IdMailbox id) (IdUIDValidity id) (IdUID id) = Ok tt ∧ IdUIDValidity id < 2 ^ 32 ∧ IdUID id < 2 ^ 32) ∧
     (∀ i, parse_flags args id = Ok i → validateFlags i = Ok tt ∧ 0 <= ExpectedModSeq i < 2 ^ 64) ∧
     (∀ i, parse_move args id = Ok i → validateMailbox (MvDestination i) = Ok tt ∧ MvDestination i ≠ MvMailbox i) ∧
     (∀ i, parse_reply args id = Ok i →
        (MaxSendBodyBytes <? len (RiBody i)) || negb (valid_utf8 (bytes (RiBody i))) || has_nul (RiBody i) = false ∧
        validateSendIdempotencyKey (RiIdempotencyKey i) = Ok tt)) ∧
  (∀ i, mailSendInput args = Ok i →
     validate_content i = Ok tt ∧ validateSendIdempotencyKey (SendIdempotencyKey i) = Ok tt ∧
     ∀ policy, (∀ a, a ∈ recipients_of i → allows policy a = true) →
       validate_recipients policy i = Ok (recipients_of i)).
Proof.
  split; [by apply search_accepted|]. split; [by apply get_accepted|]. split; [|by apply send_accepted].
  intros id Hid. split; [by apply (identity_accepted args)|].
  split; [by intros; apply (flags_accepted args Hwf id)|]. split; [|by apply reply_accepted].
  intros i Hi. split; [by eapply move_accepted|by eapply parse_move_differs].
Qed.

(** (C7) What a Mail tool that changes something may do.  Each of the five
    handlers either refuses, with one audit record and at most a listing of the
    mailboxes, or, after the mailboxes it changes (both ends of a move, and the
    Trash) were found in the [mail.mutate] scope, calls the service exactly
    once with the decoded input and records the outcome, success only when
    the service reported it; the answer is an error unless the call succeeded. *)
Theorem mail_mutations_authorized {W} `{MailService W, AuditStream W, MapOrder} (deps : MailDeps) (req : raw_mail_args) :
  emits (setMessageFlagsHandler (W:=W * list mail_event) deps req) (one_mail_mutation deps "set_message_flags" "message"
    (decoded_mutation req set_flags_args parse_flags MFlags)) ∧
  emits (moveMessageHandler (W:=W * list mail_event) deps req) (one_mail_mutation deps "move_message" "message"
    (decoded_mutation req move_args parse_move MMove)) ∧
  emits (trashMessageHandler (W:=W * list mail_event) deps req) (one_mail_mutation deps "trash_message" "message"
    (decoded_mutation req trash_args trash_input MTrash)) ∧
  emits (sendMessageHandler (W:=W * list mail_event) deps req) (one_mail_mutation deps "send_message" "submission"
    (decoded_send req)) ∧
  emits (replyMessageHandler (W:=W * list mail_event) deps req) (one_mail_mutation deps "reply_message" "submission"
    (decoded_mutation req reply_args parse_reply MReply)).
Proof. split_and!; [apply flags_once|apply move_once|apply trash_once|apply send_once|apply reply_once]. Qed.

(** * Witnesses *)

#[local] Existing Instance declared_order.

(** A service that accepts everything. *)
Definition demo_summary : MessageSummary :=
  MkMessageSummary "INBOX" 1 2 [] [] [] [] "" no_time None 0 "" 0.
Definition demo_sent : SendResult := MkSendResult SendAccepted "id@b.c" [MkRecipientStatus 0 true ""] "" "" "" true "".
Definition demo_mail : MailService unit := {|
  ListMailboxes w := (w, (MkListMailboxesResult [MkMailbox "INBOX" "/" []; MkMailbox "Bin" "/" ["\Trash"]] false, None));
  SearchMessages i w := (w, (MkMailSearchResult [demo_summary] 1 0 false false, None));
  GetMessage i w := (w, (MkMailMessage demo_summary [] [] [] "" "" false "" [] [], None));
  SetMessageFlags i w := (w, (MkSetFlagsResult (SfMailbox i) (SfUIDValidity i) (SfUID i) (SfFlags i) 0 false false, None));
  MoveMessage i w := (w, (MkMoveResult (MvMailbox i) (MvUIDValidity i) (MvUID i) (MvDestination i) 0 0 "MOVE", None));
  TrashMessage i w := (w, (MkMoveResult (TrMailbox i) (TrUIDValidity i) (TrUID i) "Bin" 0 0 "MOVE", None));
  SendMessage i w := (w, (demo_sent, None));
  ReplyMessage i w := (w, (demo_sent, None));
|}.
#[local] Existing Instance demo_mail.
#[local] Instance demo_mail_audit : AuditStream unit := {| audit_write _ w := w |}.
(** Everything is confined to INBOX. *)
Definition demo_mail_deps : MailDeps :=
  MkMailDeps (Some (NewRedactor [])) (MkScopes true {[ResourceMailRead := ["INBOX"]]}) true [].
Definition mutations_of (log : list mail_event) : list mail_mutation :=
  omap (λ ev, match ev with EvMail m _ _ => Some m | _ => None end) log.

Definition demo_flags : raw_mail_args := RawText (apostrophes
  "{'mailbox': 'INBOX', 'uid_validity': 1, 'uid': 2, 'operation': 'add', 'flags': ['seen']}").
Example demo_flags_call :
  let '((_, log), out) := setMessageFlagsHandler (W:=unit * list mail_event) demo_mail_deps demo_flags (tt, []) in
  is_ok out = true ∧ mutations_of log = [MFlags (MkSetFlagsInput "INBOX" 1 2 FlagOperationAdd [FlagSeen] 0)] ∧
  length log = 2%nat.
Proof. vm_compute. done. Qed.
(** The Trash lies outside the scope: listed, then denied. *)
Example demo_trash_denied :
  let '((_, log), out) := trashMessageHandler (W:=unit * list mail_event) demo_mail_deps
    (RawText (apostrophes "{'mailbox': 'INBOX', 'uid_validity': 1, 'uid': 2}")) (tt, []) in
  is_ok out = false ∧ mutations_of log = [] ∧ length log = 2%nat.
Proof. vm_compute. done. Qed.
(** A reply to a message of a mailbox no scope grants. *)
Example demo_reply_unscoped :
  let '((_, log), out) := replyMessageHandler (W:=unit * list mail_event) demo_mail_deps
    (RawText (apostrophes "{'mailbox': 'Private', 'uid_validity': 1, 'uid': 2, 'body': 'Hi'}")) (tt, []) in
  is_ok out = true ∧ mutations_of log = [MReply (MkReplyInput "Private" 1 2 "" "" "Hi" "")].
Proof. vm_compute. done. Qed.

Definition demo_send_args : mail_args :=
  match mailDecodeJSONArguments (apostrophes "{'to': ['ann@b.c'], 'bcc': ['bob@b.c'], 'subject': 'Hello', 'body': 'Hi'}")
  with Ok (Some args) => args | _ => ∅ end.
Lemma demo_send_wf : wf_args demo_send_args.
Proof.
  unfold demo_send_args. destruct (mailDecodeJSONArguments _) as [[args|]|] eqn:Hd; [by eapply decoded_json_wf| |];
    intros k a Hk; unfold mail_args in Hk; by rewrite lookup_empty in Hk.
Qed.
Lemma mail_inputs_accepted_witness :
  ∃ i, mailSendInput demo_send_args = Ok i ∧ recipients_of i = ["ann@b.c"; "bob@b.c"] ∧ validate_content i = Ok tt.
Proof.
  destruct (mailSendInput demo_send_args) as [i|e] eqn:Hi; [|vm_compute in Hi; discriminate Hi].
  exists i. split; [reflexivity|]. split.
  - vm_compute in Hi. injection Hi as <-. reflexivity.
  - exact (proj1 (proj2 (proj2 (proj2 (mail_inputs_accepted demo_send_args demo_send_wf))) i Hi)).
Defined.
