(* ===== verification/Stdio.v ===== *)
(** The bounded stdio transport (src/cmd/icloud-mcp/bounded_stdio.go): the
    reader that withholds a frame until it is complete, the writer that bounds
    and redacts every frame, and the end of a session. *)
From S2P Require Import Prelude GoStrings GoEncode GoJson Redact.

Definition maxStdioFrameBytes : Z := 1048576.
Definition maxMCPErrorFrameBytes : Z := 256 * 1024.
Definition maxReflectedProtocolErrorBytes : Z := 64 * 1024.
Definition maxJSONRPCIDBytes : Z := 512.

(** * Reading *)

Inductive read_error := EOF | FrameTooLarge | OtherError (msg : string).
#[export] Instance read_error_eq_dec : EqDecision read_error.
Proof. solve_decision. Defined.

(** The input: the bytes still to come, and how it ends.  [bufio.Reader] over
    it, with a buffer of [size] bytes: what [ReadSlice] returns does not depend on
    the pieces the bytes arrive in. *)
Record source := MkSource { src_data : list ascii; src_ending : read_error }.
Inductive slice_end := Delimiter | BufferFull | Ended (e : read_error).
Definition ReadSlice (size : nat) (s : source) : list ascii * slice_end * source :=
  match index_byte newline (take size (src_data s)) with
  | Some i => (take (S i) (src_data s), Delimiter, MkSource (drop (S i) (src_data s)) (src_ending s))
  | None =>
      if (size <=? length (src_data s))%nat
      then (take size (src_data s), BufferFull, MkSource (drop size (src_data s)) (src_ending s))
      else (src_data s, Ended (src_ending s), MkSource [] (src_ending s))
  end.

Record boundedFrameReader := MkReader {
  fr_reader : source;
  fr_pending : list ascii;
  fr_nextErr : option read_error;
}.
Definition newBoundedFrameReader (s : source) : boundedFrameReader := MkReader s [] None.

(** The bytes of a fragment before its delimiter. *)
Definition fragment_content (fragment : list ascii) : Z :=
  match last fragment with
  | Some c => if bool_decide (c = newline) then zlen fragment - 1 else zlen fragment
  | None => 0
  end.
(** The frame and the error to report after it, or the error.  Every turn but
    the last consumes a full buffer. *)
Fixpoint readFrame_loop (size fuel : nat) (frame : list ascii) (contentBytes : Z) (s : source)
    : source * result read_error (list ascii * option read_error) :=
  match fuel with
  | O => (s, Err EOF)
  | S fuel =>
      let '(fragment, e, s) := ReadSlice size s in
      let fragmentContent := fragment_content fragment in
      if maxStdioFrameBytes - fragmentContent <? contentBytes then (s, Err FrameTooLarge)
      else
        let frame := (frame ++ fragment)%list in
        match e with
        | Delimiter => (s, Ok (frame, None))
        | BufferFull => readFrame_loop size fuel frame (contentBytes + fragmentContent) s
        | Ended e => if bool_decide (e = EOF) && negb (bool_decide (frame = []))
                     then (s, Ok (frame, Some EOF)) else (s, Err e)
        end
  end.
(** The buffer of [newBoundedFrameReader]: 32 KiB. *)
Definition buffer_size : nat := Z.to_nat 32768.
Definition readFrame (s : source) : source * result read_error (list ascii * option read_error) :=
  readFrame_loop buffer_size (S (length (src_data s))) [] 0 s.

(** [Read] into a slice of [n] bytes: the bytes, or the error. *)
Definition give (n : nat) (r : boundedFrameReader) : boundedFrameReader * result read_error (list ascii) :=
  (MkReader (fr_reader r) (drop n (fr_pending r)) (fr_nextErr r), Ok (take n (fr_pending r))).
Definition Read (n : nat) (r : boundedFrameReader) : boundedFrameReader * result read_error (list ascii) :=
  if (n =? 0)%nat then (r, Ok [])
  else
    match fr_pending r with
    | _ :: _ => give n r
    | [] =>
        match fr_nextErr r with
        | Some e => (MkReader (fr_reader r) [] None, Err e)
        | None =>
            match readFrame (fr_reader r) with
            | (s, Err e) => (MkReader s [] None, Err e)
            | (s, Ok (frame, next)) => give n (MkReader s frame next)
            end
        end
    end.

(** [cancelOnReadError]: the first terminal error is kept, and the session
    cancelled. *)
Record cancelOnReadError := MkCancel { terminal : option read_error; cancelled : bool }.
Definition cancel_Read (c : cancelOnReadError) (e : option read_error) : cancelOnReadError :=
  match e with
  | None => c
  | Some e => MkCancel (match terminal c with None => Some e | Some t => Some t end) true
  end.

(** How [listenBoundedStdio] ends, given the error of [Listen]. *)
Inductive session_error := InputFailed (e : read_error) | ContextCanceled | ListenError (msg : string).
Definition listen_result (c : cancelOnReadError) (err : option session_error) : option session_error :=
  match terminal c with
  | Some e => if bool_decide (e = EOF) then
                match err with Some ContextCanceled => None | err => err end
              else Some (InputFailed e)
  | None => match err with Some ContextCanceled => None | err => err end
  end.

(** * Frames *)

(** The fields of an object with their raw text, in order. *)
Fixpoint raw_fields (fuel : nat) (l : list ascii) : option (list (string * list ascii)) :=
  match fuel with
  | O => None
  | S fuel =>
      r ← next dquote l;
      '(us, r) ← scan_string r;
      r ← next ":" r;
      let start := skip_space r in
      '(_, r) ← parse_value (parse_fuel start) 0 start;
      let f := (unquote us, take (length start - length r) start) in
      match next "," r with
      | Some r => fs ← raw_fields fuel r; Some (f :: fs)
      | None => _ ← next "}" r; Some [f]
      end
  end.
Definition raw_object (l : list ascii) : option (list (string * list ascii)) :=
  r ← next "{" l;
  match next "}" r with Some _ => Some [] | None => raw_fields (length r) r end.

(** The struct field a key decodes into: the exact name, or the name up to
    case. *)
Definition field_of (names : list string) (key : string) : option string :=
  if bool_decide (key ∈ names) then Some key else head (List.filter (equal_fold key) names).

Record envelope := MkEnvelope { env_id : list ascii; env_error : list ascii; env_result : list ascii }.
(** Fields are assigned in order; [jsonrpc] must be a string or [null]. *)
Definition add_field (env : envelope) (kv : string * list ascii) : option envelope :=
  let '(key, raw) := kv in
  let f := field_of ["jsonrpc"; "id"; "error"; "result"] key in
  if bool_decide (f = Some "jsonrpc") then
    match json_parse raw ≫= as_string with Some _ => Some env | None => None end
  else if bool_decide (f = Some "id") then Some (MkEnvelope raw (env_error env) (env_result env))
  else if bool_decide (f = Some "error") then Some (MkEnvelope (env_id env) raw (env_result env))
  else if bool_decide (f = Some "result") then Some (MkEnvelope (env_id env) (env_error env) raw)
  else Some env.
Fixpoint add_fields (fs : list (string * list ascii)) (env : envelope) : option envelope :=
  match fs with
  | [] => Some env
  | f :: fs => env ← add_field env f; add_fields fs env
  end.
(** [json.Unmarshal(bytes.TrimSpace(frame), &message)]. *)
Definition decode_envelope (frame : list ascii) : option envelope :=
  let trimmed := trim_space_b frame in
  v ← json_parse trimmed;
  match v with
  | JNull => Some (MkEnvelope [] [] [])
  | JObject _ => fs ← raw_object trimmed; add_fields fs (MkEnvelope [] [] [])
  | _ => None
  end.

(** [json.Unmarshal] of the result into the struct with [isError]. *)
Definition add_flag (acc : option bool) (kv : string * json) : option bool :=
  b ← acc;
  if bool_decide (field_of ["isError"] kv.1 = Some "isError") then
    match kv.2 with JBool b' => Some b' | JNull => Some b | _ => None end
  else Some b.
Definition result_is_error (raw : list ascii) : bool :=
  match json_parse raw with
  | Some (JObject fs) => default false (fold_left add_flag fs (Some false))
  | _ => false
  end.

Definition null_id : list ascii := bytes "null".
Definition id_start (c : ascii) : bool := bool_decide (c = dquote) || bool_decide (c = "-"%char) || is_digit c.
Definition boundJSONRPCID (id : list ascii) : list ascii :=
  if bool_decide (id = []) then null_id
  else if maxJSONRPCIDBytes <? zlen id then null_id
  else match trim_space_b id with
       | (c :: _) as trimmed => if id_start c then trimmed else null_id
       | [] => null_id
       end.

(** A raw message inside [json.Marshal]: compacted, HTML characters escaped.
    Inside a string or a number there is no white space to remove. *)
Fixpoint escape_raw (l : list ascii) : list ascii :=
  match l with
  | [] => []
  | c :: l1 =>
      if bool_decide (c ∈ ["<"; ">"; "&"]%char) then (bytes "\u00" ++ hex_digits 2 (byte_val c) ++ escape_raw l1)%list
      else match l1 with
           | c1 :: c2 :: l2 =>
               if (byte_val c =? 226) && (byte_val c1 =? 128) && ((byte_val c2 =? 168) || (byte_val c2 =? 169))
               then (bytes "\u202" ++ [hex_digit (byte_val c2 - 160)] ++ escape_raw l2)%list
               else c :: escape_raw l1
           | _ => c :: escape_raw l1
           end
  end.
(** The object with the raw [id] between the version and the last field. *)
Definition frame_of (id : list ascii) (name : string) (v : json) : list ascii :=
  (apostrophes "{'jsonrpc':'2.0','id':" ++ id ++ apostrophes ",'" ++ bytes name ++ apostrophes "':"
     ++ bytes (marshal v) ++ bytes "}" ++ [newline])%list.
Definition protocol_error (message : string) : json :=
  JObject [("code", JNumber "-32603"); ("message", JString message)].
Definition oversizedProtocolErrorFrame (id : list ascii) (message : string) : list ascii :=
  let frame := frame_of (escape_raw (boundJSONRPCID id)) "error" (protocol_error message) in
  if maxMCPErrorFrameBytes <? zlen frame - 1 then frame_of null_id "error" (protocol_error message) else frame.
Definition oversizedToolErrorFrame (id : list ascii) : list ascii :=
  frame_of (escape_raw (boundJSONRPCID id)) "result" (JObject [
    ("content", JArray [JObject [("text", JString (marshal (JObject [("code", JString "payload_too_large");
        ("message", JString "MCP error result exceeded its safe byte limit")]))); ("type", JString "text")]]);
    ("isError", JBool true)]).

Definition safe_limit : string := "MCP response exceeded its safe byte limit".
Definition sanitizeOutputFrame (frame : list ascii) : list ascii :=
  if zlen frame <=? maxReflectedProtocolErrorBytes then frame
  else
    match decode_envelope frame with
    | None => if maxMCPErrorFrameBytes <? zlen frame then oversizedProtocolErrorFrame null_id safe_limit else frame
    | Some message =>
        let id := boundJSONRPCID (env_id message) in
        if negb (bool_decide (env_error message = [])) && negb (bool_decide (env_error message = null_id))
        then oversizedProtocolErrorFrame id "MCP error response exceeded its safe byte limit"
        else if negb (bool_decide (env_result message = [])) && result_is_error (env_result message)
        then oversizedToolErrorFrame id
        else if maxMCPErrorFrameBytes <? zlen frame then oversizedProtocolErrorFrame id safe_limit
        else frame
    end.

(** * Writing *)

Record boundedErrorWriter (W : Type) := MkBoundedWriter { bw_writer : W; bw_pending : list ascii }.
Arguments MkBoundedWriter {W}. Arguments bw_writer {W}. Arguments bw_pending {W}.

Section Writer.
Context {W : Type} `{Sink W} (red : Redactor).

Definition redact_frame (frame : list ascii) : list ascii := bytes (Redact red (str frame)).
(** What is written for one complete frame. *)
Definition output_frame (frame : list ascii) : list ascii :=
  redact_frame (sanitizeOutputFrame (redact_frame (sanitizeOutputFrame frame))).

(** The inner loop: every turn writes at least one byte or fails. *)
Fixpoint write_frame (fuel : nat) (frame : list ascii) (w : W) : W * option string :=
  match frame, fuel with
  | [], _ => (w, None)
  | _, O => (w, None)
  | _, S fuel =>
      let '(w, (written, err)) := sink_Write frame w in
      match err with
      | Some e => (w, Some e)
      | None => if written <=? 0 then (w, Some "short write")
                else write_frame fuel (drop (Z.to_nat written) frame) w
      end
  end.
(** The outer loop: every turn takes a frame off the pending bytes. *)
Fixpoint write_frames (fuel : nat) (bw : boundedErrorWriter W) : boundedErrorWriter W * option string :=
  match fuel with
  | O => (bw, None)
  | S fuel =>
      match index_byte newline (bw_pending bw) with
      | None => (bw, None)
      | Some i =>
          let frame := output_frame (take (S i) (bw_pending bw)) in
          let '(w, err) := write_frame (length frame) frame (bw_writer bw) in
          let bw := MkBoundedWriter w (drop (S i) (bw_pending bw)) in
          match err with Some e => (bw, Some e) | None => write_frames fuel bw end
      end
  end.
Definition Write (p : list ascii) (bw : boundedErrorWriter W) : boundedErrorWriter W * option string :=
  if maxStdioFrameBytes + 1 <? zlen (bw_pending bw) + zlen p then
    let '(w, (_, err)) := sink_Write (redact_frame (oversizedProtocolErrorFrame null_id safe_limit)) (bw_writer bw) in
    (MkBoundedWriter w [], err)
  else
    let pending := (bw_pending bw ++ p)%list in
    write_frames (length pending) (MkBoundedWriter (bw_writer bw) pending).
End Writer.

(** * Frames stay within their limits *)

Lemma escape_raw_length l : (length (escape_raw l) <= 6 * length l)%nat.
Proof.
  induction l as [l IH] using (induction_ltof1 _ (@length ascii)). unfold ltof in IH.
  destruct l as [|c l1]; cbn [escape_raw]; [done|].
  assert (length (escape_raw l1) <= 6 * length l1)%nat as H1 by (apply IH; simpl; lia).
  destruct (bool_decide _).
  - rewrite !length_app, hex_digits_length. simpl. lia.
  - destruct l1 as [|c1 [|c2 l2]]; [simpl in *; lia..|].
    destruct (_ && _ && _); [|simpl in *; lia].
    assert (length (escape_raw l2) <= 6 * length l2)%nat by (apply IH; simpl; lia).
    rewrite !length_app. simpl. lia.
Qed.
Lemma trim_space_b_length l : zlen (trim_space_b l) <= zlen l.
Proof.
  destruct (trim_both_infix spaces l) as (k1 & k2 & Hl). unfold trim_space_b. set (t := trim_both spaces l) in *. clearbody t.
  subst l. unfold zlen. rewrite !length_app. lia.
Qed.
Lemma boundJSONRPCID_length id : zlen (boundJSONRPCID id) <= maxJSONRPCIDBytes.
Proof.
  unfold boundJSONRPCID. case_bool_decide; [done|]. destruct (maxJSONRPCIDBytes <? zlen id) eqn:Hl; [done|].
  apply Z.ltb_ge in Hl. pose proof (trim_space_b_length id) as Ht. destruct (trim_space_b id) as [|c l]; [done|].
  destruct (id_start c); [lia|done].
Qed.

(** Trimming again changes nothing. *)
Lemma strip_one_none pats l : strip_one pats l = None ↔ Forall (λ p, has_prefix_b p l = false) pats.
Proof.
  induction pats as [|p pats IH]; cbn [strip_one]; [by split|]. rewrite Forall_cons.
  destruct (has_prefix_b p l); [split; [done|by intros [? _]]|]. rewrite IH. naive_solver.
Qed.
Lemma strip_one_prefix pats l l' : l' `prefix_of` l → strip_one pats l = None → strip_one pats l' = None.
Proof.
  rewrite !strip_one_none. intros Hl Hall. eapply Forall_impl; [exact Hall|]. intros p Hp.
  destruct (has_prefix_b p l') eqn:E; [|done]. apply has_prefix_b_spec in E as [k ->]. destruct Hl as [k' ->].
  assert (has_prefix_b p ((p ++ k) ++ k')%list = true) as E; [|by rewrite E in Hp].
  apply has_prefix_b_spec. exists (k ++ k')%list. by rewrite <-app_assoc.
Qed.
Lemma trim_left_none pats l : Forall (λ p, p ≠ []) pats → strip_one pats (trim_left pats l) = None.
Proof.
  intros Hp. unfold trim_left. assert (length l <= length l)%nat as Hn by lia. revert Hn. generalize (length l) at 2 3. intros n.
  revert l; induction n as [|n IH]; intros l Hn; cbn [trim_left_fuel].
  - destruct l; [|simpl in Hn; lia]. apply strip_one_none. eapply Forall_impl; [exact Hp|]. by intros [|c p].
  - destruct (strip_one pats l) as [l'|] eqn:E; [|done]. apply IH. revert E Hn. clear IH. induction Hp as [|p pats Hp Hps IH]; cbn [strip_one]; [done|].
    destruct (has_prefix_b p l) eqn:Hpre; [|done]. intros [= <-]. rewrite length_drop. destruct p; [done|]. simpl. lia.
Qed.
Lemma trim_left_fixed pats l : strip_one pats l = None → trim_left pats l = l.
Proof. intros Hl. unfold trim_left. destruct (length l); cbn [trim_left_fuel]; [done|]. by rewrite Hl. Qed.
Lemma trim_space_b_idem l : trim_space_b (trim_space_b l) = trim_space_b l.
Proof.
  assert (Forall (λ p, p ≠ []) spaces ∧ Forall (λ p, p ≠ []) (map reverse spaces)) as [Hs Hr]
    by (split; apply (bool_decide_unpack _); vm_compute; exact I).
  unfold trim_space_b, trim_both. set (m := trim_left (map reverse spaces) (reverse (trim_left spaces l))).
  assert (strip_one spaces (reverse m) = None) as Hleft.
  { apply (strip_one_prefix spaces (trim_left spaces l)); [|by apply trim_left_none].
    destruct (trim_left_suffix (map reverse spaces) (reverse (trim_left spaces l))) as [k Hk]. fold m in Hk.
    exists (reverse k). by rewrite <-reverse_app, <-Hk, reverse_involutive. }
  rewrite (trim_left_fixed _ _ Hleft), reverse_involutive.
  rewrite (trim_left_fixed (map reverse spaces) m); [done|]. by apply trim_left_none.
Qed.
Lemma boundJSONRPCID_idem id : boundJSONRPCID (boundJSONRPCID id) = boundJSONRPCID id.
Proof.
  assert (boundJSONRPCID null_id = null_id) as Hnull by (vm_compute; reflexivity).
  unfold boundJSONRPCID at 2 3. case_bool_decide; [done|]. destruct (maxJSONRPCIDBytes <? zlen id) eqn:Hl; [done|].
  destruct (trim_space_b id) as [|c l] eqn:Ht; [done|]. destruct (id_start c) eqn:Hc; [|done].
  pose proof (trim_space_b_length id) as Hlen. rewrite Ht in Hlen. apply Z.ltb_ge in Hl.
  unfold boundJSONRPCID. rewrite bool_decide_false by done. destruct (Z.ltb_spec maxJSONRPCIDBytes (zlen (c :: l))); [lia|].
  rewrite <-Ht, trim_space_b_idem, Ht, Hc. done.
Qed.

(** What replaces an oversized frame: one line of at most 4 KiB. *)
Definition replacement_frame (frame : list ascii) : Prop :=
  zlen frame <= 4096 ∧ ∃ l, frame = (l ++ [newline])%list.
Lemma frame_of_replacement id name v :
  zlen (frame_of [] name v) <= 1000 → zlen id <= maxJSONRPCIDBytes → replacement_frame (frame_of (escape_raw id) name v).
Proof.
  intros Hv Hid. pose proof (escape_raw_length id) as He. unfold frame_of, maxJSONRPCIDBytes in *.
  split; [|eexists; rewrite !app_assoc; reflexivity].
  rewrite !zlen_app in *. unfold zlen in *. simpl (length []) in Hv. lia.
Qed.
Lemma null_frame_replacement message :
  zlen (frame_of [] "error" (protocol_error message)) <= 1000 →
  replacement_frame (frame_of null_id "error" (protocol_error message)).
Proof. intros Hm. apply (frame_of_replacement null_id); [done|]. by vm_compute. Qed.
Lemma protocol_frame id message :
  zlen (frame_of [] "error" (protocol_error message)) <= 1000 →
  replacement_frame (oversizedProtocolErrorFrame id message).
Proof.
  intros Hm. unfold oversizedProtocolErrorFrame. destruct (_ <? _); [by apply null_frame_replacement|].
  apply frame_of_replacement; [done|apply boundJSONRPCID_length].
Qed.
Lemma tool_frame id : replacement_frame (oversizedToolErrorFrame id).
Proof. apply frame_of_replacement; [by vm_compute|apply boundJSONRPCID_length]. Qed.

(** A frame the writer may pass on as it is: small, or within the absolute
    limit and not an error. *)
Definition is_error_frame (frame : list ascii) : Prop :=
  ∃ m, decode_envelope frame = Some m ∧
    ((env_error m ≠ [] ∧ env_error m ≠ null_id) ∨ (env_result m ≠ [] ∧ result_is_error (env_result m) = true)).
Definition passable (frame : list ascii) : Prop :=
  zlen frame <= maxReflectedProtocolErrorBytes ∨ (zlen frame <= maxMCPErrorFrameBytes ∧ ¬ is_error_frame frame).

Lemma sanitize_cases frame :
  (sanitizeOutputFrame frame = frame ∧ passable frame) ∨
  (replacement_frame (sanitizeOutputFrame frame) ∧ ¬ passable frame).
Proof.
  unfold sanitizeOutputFrame, passable. destruct (zlen frame <=? _) eqn:Hsmall; [apply Z.leb_le in Hsmall; auto|].
  apply Z.leb_gt in Hsmall. unfold is_error_frame.
  assert (∀ id m, m ∈ [safe_limit; "MCP error response exceeded its safe byte limit"] →
    replacement_frame (oversizedProtocolErrorFrame id m)) as Hp.
  { intros id m Hm. apply protocol_frame.
    repeat (apply elem_of_cons in Hm as [->|Hm]; [by vm_compute|]). by apply not_elem_of_nil in Hm. }
  destruct (decode_envelope frame) as [m|] eqn:Hd.
  2: { destruct (_ <? _) eqn:Hbig; bool_to_prop.
       - right. split; [apply Hp; by left|]. lia.
       - left. split; [done|]. right. split; [lia|]. by intros (? & ? & _). }
  destruct (negb (bool_decide (env_error m = [])) && _) eqn:He.
  { right. split; [apply Hp; right; by left|]. apply andb_true_iff in He as [E1 E2].
    apply negb_true_iff, bool_decide_eq_false in E1, E2.
    intros [?|[_ Hn]]; [lia|]. apply Hn. exists m. auto. }
  destruct (negb (bool_decide (env_result m = [])) && _) eqn:Hr.
  { right. split; [apply tool_frame|]. apply andb_true_iff in Hr as [R1 R2].
    apply negb_true_iff, bool_decide_eq_false in R1. intros [?|[_ Hn]]; [lia|]. apply Hn. exists m. auto. }
  destruct (maxMCPErrorFrameBytes <? zlen frame) eqn:Hbig; bool_to_prop.
  - right. split; [apply Hp; by left|]. lia.
  - left. split; [done|]. right. split; [lia|]. intros (m' & [= <-] & Herr).
    apply andb_false_iff in He, Hr. rewrite !negb_false_iff, !bool_decide_eq_true in He.
    rewrite negb_false_iff, bool_decide_eq_true in Hr.
    destruct Herr as [[]|[]]; [by destruct He|]. destruct Hr; [done|congruence].
Qed.

(** * What reaches the output *)

#[local] Existing Instance collect.

(** A complete line. *)
Definition line (f : list ascii) : Prop := ∃ l, newline ∉ l ∧ f = (l ++ [newline])%list.

Lemma write_frame_collect fuel frame w :
  (length frame <= fuel)%nat → write_frame fuel frame w = ((w ++ frame)%list, None).
Proof.
  destruct frame as [|c frame], fuel as [|fuel]; cbn -[sink_Write drop zlen]; intros Hf;
    [by rewrite app_nil_r..|simpl in Hf; lia|].
  cbn [sink_Write collect]. destruct (zlen (c :: frame) <=? 0) eqn:Hz.
  { apply Z.leb_le in Hz. unfold zlen in Hz. simpl in Hz. lia. }
  rewrite drop_ge by (unfold zlen; lia). by destruct fuel.
Qed.

Lemma write_frames_collect red fuel w pending :
  (length pending <= fuel)%nat →
  ∃ fs rest, pending = (concat fs ++ rest)%list ∧ Forall line fs ∧ newline ∉ rest ∧
    write_frames red fuel (MkBoundedWriter w pending)
    = (MkBoundedWriter (w ++ concat (map (output_frame red) fs))%list rest, None).
Proof.
  revert w pending. induction fuel as [|fuel IH]; intros w pending Hf.
  { exists [], []. destruct pending; [|simpl in Hf; lia]. cbn. rewrite app_nil_r.
    split_and!; [done|constructor|by apply not_elem_of_nil|done]. }
  cbn [write_frames bw_pending bw_writer]. destruct (index_byte newline pending) as [i|] eqn:Hi.
  2: { apply index_byte_None in Hi. exists [], pending. cbn. rewrite app_nil_r. split_and!; [done|constructor|done|done]. }
  apply index_byte_Some in Hi as (Hlook & Hno & Heq). apply lookup_lt_Some in Hlook as Hlt.
  rewrite write_frame_collect by done.
  destruct (IH (w ++ output_frame red (take (S i) pending))%list (drop (S i) pending)) as (fs & rest & Hp & Hl & Hr & Hw).
  { rewrite length_drop. lia. }
  exists (take (S i) pending :: fs), rest. cbn [concat map]. split_and!; [|constructor| |].
  - by rewrite <-app_assoc, <-Hp, take_drop.
  - exists (take i pending). split; [done|]. by apply take_S_r.
  - done.
  - done.
  - by rewrite Hw, <-app_assoc.
Qed.

(** One call: the frames completed by it are written, redacted and bounded;
    the rest waits.  A call that would let more than a frame wait drops what
    waits and says so. *)
Lemma Write_collect red p w pending :
  if maxStdioFrameBytes + 1 <? zlen pending + zlen p
  then Write red p (MkBoundedWriter w pending)
       = (MkBoundedWriter (w ++ redact_frame red (oversizedProtocolErrorFrame null_id safe_limit))%list [], None)
  else ∃ fs rest, (pending ++ p)%list = (concat fs ++ rest)%list ∧ Forall line fs ∧ newline ∉ rest ∧
       Write red p (MkBoundedWriter w pending)
       = (MkBoundedWriter (w ++ concat (map (output_frame red) fs))%list rest, None).
Proof.
  unfold Write. cbn [bw_pending bw_writer]. destruct (_ <? _); [done|]. by apply write_frames_collect.
Qed.

(** The id a frame may be answered under: its own when that is a string or a
    number of at most [maxJSONRPCIDBytes], else null. *)
Definition answer_id (frame : list ascii) : list ascii :=
  match decode_envelope frame with Some m => boundJSONRPCID (env_id m) | None => null_id end.
(** The fixed documents an unpassable frame is replaced by. *)
Definition fixed_answer (name : string) (v : json) : Prop :=
  (name = "error" ∧ v ∈ [protocol_error safe_limit; protocol_error "MCP error response exceeded its safe byte limit"]) ∨
  (name = "result" ∧ v = JObject [
    ("content", JArray [JObject [("text", JString (marshal (JObject [("code", JString "payload_too_large");
        ("message", JString "MCP error result exceeded its safe byte limit")]))); ("type", JString "text")]]);
    ("isError", JBool true)]).
Definition replaces (frame l : list ascii) : Prop :=
  zlen l <= 4096 ∧ ∃ name v, fixed_answer name v ∧ l = frame_of (escape_raw (answer_id frame)) name v.
Lemma protocol_answer id m :
  m ∈ [safe_limit; "MCP error response exceeded its safe byte limit"] →
  oversizedProtocolErrorFrame (boundJSONRPCID id) m = frame_of (escape_raw (boundJSONRPCID id)) "error" (protocol_error m) ∧
  zlen (frame_of (escape_raw (boundJSONRPCID id)) "error" (protocol_error m)) <= 4096.
Proof.
  intros Hm. assert (zlen (frame_of [] "error" (protocol_error m)) <= 1000) as Hv.
  { repeat (apply elem_of_cons in Hm as [->|Hm]; [by vm_compute|]). by apply not_elem_of_nil in Hm. }
  destruct (frame_of_replacement (boundJSONRPCID id) "error" (protocol_error m) Hv (boundJSONRPCID_length id)) as [Hlen _].
  unfold oversizedProtocolErrorFrame. rewrite boundJSONRPCID_idem. split; [|done].
  destruct (Z.ltb_spec maxMCPErrorFrameBytes (zlen (frame_of (escape_raw (boundJSONRPCID id)) "error" (protocol_error m)) - 1)) as [Hl|]; [|done].
  unfold maxMCPErrorFrameBytes in Hl. lia.
Qed.
Lemma sanitize_replaces frame : sanitizeOutputFrame frame = frame ∨ replaces frame (sanitizeOutputFrame frame).
Proof.
  unfold sanitizeOutputFrame, replaces, answer_id. destruct (_ <=? _); [by left|].
  assert (safe_limit ∈ [safe_limit; "MCP error response exceeded its safe byte limit"]) as H1 by left.
  assert ("MCP error response exceeded its safe byte limit" ∈ [safe_limit; "MCP error response exceeded its safe byte limit"]) as H2 by (right; left).
  assert (∀ m, m ∈ [safe_limit; "MCP error response exceeded its safe byte limit"] → fixed_answer "error" (protocol_error m)) as Hf.
  { intros m Hm. left. split; [done|]. repeat (apply elem_of_cons in Hm as [->|Hm]; [set_solver|]). by apply not_elem_of_nil in Hm. }
  destruct (decode_envelope frame) as [m|].
  - cbv zeta. destruct (protocol_answer (env_id m) _ H1) as [-> L1]. destruct (protocol_answer (env_id m) _ H2) as [-> L2].
    destruct (negb _ && _); [right; split; [done|]; eexists _, _; split; [exact (Hf _ H2)|done]|].
    destruct (negb _ && _); [|destruct (_ <? _); [right; split; [done|]; eexists _, _; split; [exact (Hf _ H1)|done]|by left]].
    right. pose proof (tool_frame (boundJSONRPCID (env_id m))) as [Ht _]. split; [done|]. eexists _, _. split; [right; by split|].
    unfold oversizedToolErrorFrame. by rewrite boundJSONRPCID_idem.
  - destruct (_ <? _); [|by left]. right. change null_id with (boundJSONRPCID []).
    destruct (protocol_answer [] _ H1) as [-> L1]. split; [done|]. eexists _, _. split; [exact (Hf _ H1)|done].
Qed.

(** A line that may pass is kept, any other gets its fixed answer. *)
Definition sanitized (g l : list ascii) : Prop := (passable g ∧ l = g) ∨ (¬ passable g ∧ replaces g l).
(** What may be written as one frame: for a line [g] handed to the writer, its
    sanitized form, redacted, sanitized again since redaction may lengthen it,
    and redacted again; or the notice that too much was pending. *)
Definition safe_frame (red : Redactor) (f : list ascii) : Prop :=
  (∃ g g1 l, line g ∧ sanitized g g1 ∧ sanitized (redact_frame red g1) l ∧ f = redact_frame red l) ∨
  f = redact_frame red (frame_of null_id "error" (protocol_error safe_limit)).

Lemma sanitize_spec frame : sanitized frame (sanitizeOutputFrame frame).
Proof.
  destruct (sanitize_cases frame) as [[Heq Hp]|[[Hlen _] Hp]]; [by left|right]. split; [done|].
  destruct (sanitize_replaces frame) as [Heq|Hrep]; [|done]. exfalso. apply Hp. rewrite Heq in Hlen. left.
  unfold maxReflectedProtocolErrorBytes. lia.
Qed.
(** Sanitized lines are lines, and so are redacted ones. *)
Lemma sanitized_line g l : (∃ k, g = (k ++ [newline])%list) → sanitized g l → ∃ k, l = (k ++ [newline])%list.
Proof.
  intros Hg [[_ ->]|[_ (_ & name & v & _ & ->)]]; [done|]. unfold frame_of. eexists. by rewrite !app_assoc.
Qed.
Lemma safe_frame_line red f : (∀ s, s ∈ secrets red → newline ∉ bytes s) → safe_frame red f →
  ∃ k, f = redact_frame red (k ++ [newline]).
Proof.
  intros Hs [(g & g1 & l & (k & _ & ->) & H1 & H2 & ->)| -> ].
  - destruct (sanitized_line _ _ (ex_intro _ k eq_refl) H1) as [k1 ->].
    unfold redact_frame at 1 in H2. rewrite Redact_line, bytes_str in H2 by done.
    destruct (sanitized_line _ _ (ex_intro _ _ eq_refl) H2) as [k2 ->]. by exists k2.
  - unfold frame_of. eexists. by rewrite !app_assoc.
Qed.
Lemma output_frame_safe red f : line f → safe_frame red (output_frame red f).
Proof. intros Hf. left. eexists f, _, _. split; [done|]. split; [apply sanitize_spec|]. split; [apply sanitize_spec|done]. Qed.
Lemma safe_frames_clean red secret out fs :
  (∀ s, s ∈ secrets red → newline ∉ bytes s) → secret ∈ secrets red → inert_bytes (bytes secret) →
  Forall (safe_frame red) fs → clean_output (bytes secret) out → clean_output (bytes secret) (out ++ concat fs)%list.
Proof.
  intros Hss Hin Hi. revert out. induction fs as [|f fs IH]; intros out Hf Hout; cbn; [by rewrite app_nil_r|].
  apply Forall_cons in Hf as [(l & ->)%safe_frame_line Hf]; [|done]. rewrite app_assoc. apply IH; [done|]. by apply clean_append.
Qed.

(** Writes in sequence. *)
Definition write_calls (red : Redactor) (chunks : list (list ascii)) (bw : boundedErrorWriter (list ascii))
    : boundedErrorWriter (list ascii) :=
  fold_left (λ bw p, (Write red p bw).1) chunks bw.

Lemma write_calls_frames red chunks w pending :
  (∀ s, s ∈ secrets red → newline ∉ bytes s) →
  ∃ fs, bw_writer (write_calls red chunks (MkBoundedWriter w pending)) = (w ++ concat fs)%list ∧
    Forall (safe_frame red) fs.
Proof.
  intros Hs. revert w pending. induction chunks as [|p chunks IH]; intros w pending; cbn.
  { exists []. by rewrite app_nil_r. }
  pose proof (Write_collect red p w pending) as Hw. destruct (_ <? _).
  - rewrite Hw. cbn [fst]. destruct (IH (w ++ redact_frame red (oversizedProtocolErrorFrame null_id safe_limit))%list [])
      as (fs & Hfs & Hsafe). exists (redact_frame red (oversizedProtocolErrorFrame null_id safe_limit) :: fs).
    split; [unfold write_calls in Hfs; rewrite Hfs; cbn [concat]; by rewrite <-app_assoc|]. apply Forall_cons. split; [|done].
    right. f_equal.
  - destruct Hw as (fs0 & rest & _ & Hlines & _ & ->). cbn [fst].
    destruct (IH (w ++ concat (map (output_frame red) fs0))%list rest) as (fs & Hfs & Hsafe).
    exists (map (output_frame red) fs0 ++ fs)%list. split; [unfold write_calls in Hfs; rewrite Hfs, concat_app; by rewrite <-app_assoc|].
    apply Forall_app. split; [|done]. apply Forall_map. eapply Forall_impl; [exact Hlines|].
    intros f. by apply output_frame_safe.
Qed.


(** * What the server reads *)

Lemma index_byte_app c l1 l2 :
  index_byte c (l1 ++ l2) = match index_byte c l1 with
                            | Some i => Some i
                            | None => (λ i, (length l1 + i)%nat) <$> index_byte c l2
                            end.
Proof.
  induction l1 as [|x l1 IH]; simpl; [by destruct (index_byte c l2)|].
  destruct (decide (x = c)); [done|]. rewrite IH. destruct (index_byte c l1); [done|]. by destruct (index_byte c l2).
Qed.
Lemma content_plain l : newline ∉ l → fragment_content l = zlen l.
Proof.
  intros Hl. unfold fragment_content. destruct (last l) as [c|] eqn:Hc.
  - rewrite bool_decide_false; [done|]. intros ->. apply Hl. apply last_Some in Hc as [l' ->]. apply elem_of_app. right; left.
  - apply last_None in Hc. by subst.
Qed.
Lemma content_line l : fragment_content (l ++ [newline]) = zlen l.
Proof. unfold fragment_content. rewrite last_snoc, bool_decide_true, zlen_app by done. unfold zlen. simpl. lia. Qed.

(** One frame, [frame] of it read already. *)
Lemma readFrame_loop_spec size fuel frame data ending :
  (0 < size)%nat → (length data < fuel)%nat → zlen frame <= maxStdioFrameBytes →
  let '(s, r) := readFrame_loop size fuel frame (zlen frame) (MkSource data ending) in
  match index_byte newline data with
  | Some i => if maxStdioFrameBytes <? zlen frame + Z.of_nat i then r = Err FrameTooLarge
              else r = Ok ((frame ++ take (S i) data)%list, None) ∧ s = MkSource (drop (S i) data) ending
  | None => if maxStdioFrameBytes <? zlen frame + zlen data then r = Err FrameTooLarge
            else if bool_decide (ending = EOF) && negb (bool_decide ((frame ++ data)%list = []))
                 then r = Ok ((frame ++ data)%list, Some EOF) ∧ s = MkSource [] ending
                 else r = Err ending
  end.
Proof.
  intros Hbs. revert frame data. induction fuel as [|fuel IH]; intros frame data Hf Hframe; [lia|].
  cbn [readFrame_loop]. unfold ReadSlice. cbn [src_data src_ending].
  pose proof (take_drop size data) as Hsplit.
  destruct (index_byte newline (take size data)) as [i|] eqn:Hi.
  - assert (index_byte newline data = Some i) as Hi2 by (rewrite <-Hsplit, index_byte_app; by rewrite Hi).
    rewrite Hi2. apply index_byte_Some in Hi2 as (Hlook & _ & _).
    rewrite (take_S_r _ _ _ Hlook), content_line. apply lookup_lt_Some in Hlook.
    assert (zlen (take i data) = Z.of_nat i) as Hlen by (unfold zlen; rewrite length_take; lia). rewrite Hlen.
    destruct (maxStdioFrameBytes - Z.of_nat i <? zlen frame) eqn:Hb, (maxStdioFrameBytes <? zlen frame + Z.of_nat i) eqn:Hb2;
      bool_to_prop; try lia; done.
  - apply index_byte_None in Hi as Hno.
    destruct (size <=? length data)%nat eqn:Hfull.
    + apply Nat.leb_le in Hfull. rewrite content_plain by done.
      assert (length (take size data) = size) as Htl by (rewrite length_take; lia).
      assert (index_byte newline data = (λ i, (size + i)%nat) <$> index_byte newline (drop size data)) as Hi2.
      { rewrite <-Hsplit at 1. by rewrite index_byte_app, Hi, Htl. }
      assert (zlen (take size data) = Z.of_nat size) as Hz by (unfold zlen; by rewrite Htl). rewrite Hz.
      assert (zlen data = Z.of_nat size + zlen (drop size data)) as Hzd
        by (rewrite <-Hsplit at 1; by rewrite zlen_app, Hz).
      destruct (maxStdioFrameBytes - Z.of_nat size <? zlen frame) eqn:Hb; bool_to_prop.
      * rewrite Hi2. destruct (index_byte newline (drop size data)) as [j|]; cbn [fmap option_fmap option_map];
          rewrite (proj2 (Z.ltb_lt _ _)); unfold zlen in *; lia || done.
      * assert (zlen (frame ++ take size data) = zlen frame + Z.of_nat size) as Hnew by (by rewrite zlen_app, Hz).
        specialize (IH (frame ++ take size data)%list (drop size data)).
        rewrite Hnew in IH.
        specialize (IH ltac:(rewrite length_drop; lia) ltac:(lia)).
        destruct (readFrame_loop size fuel _ _ _) as [s r]. rewrite Hi2, Hzd.
        destruct (index_byte newline (drop size data)) as [j|]; cbn [fmap option_fmap option_map].
        -- rewrite Nat2Z.inj_add, Z.add_assoc. rewrite <-app_assoc in IH.
           destruct (maxStdioFrameBytes <? _); [done|]. destruct IH as [-> ->]. split.
           ++ by rewrite take_take_drop, Nat.add_succ_r.
           ++ by rewrite drop_drop, Nat.add_succ_r.
        -- rewrite Z.add_assoc. rewrite <-app_assoc, Hsplit in IH. done.
    + apply Nat.leb_gt in Hfull. rewrite take_ge in Hi, Hno by lia. rewrite Hi, content_plain by done.
      destruct (maxStdioFrameBytes - zlen data <? zlen frame) eqn:Hb, (maxStdioFrameBytes <? zlen frame + zlen data) eqn:Hb2;
        bool_to_prop; try lia; [done|]. by destruct (_ && _).
Qed.

Lemma readFrame_spec data ending :
  let '(s, r) := readFrame (MkSource data ending) in
  match index_byte newline data with
  | Some i => if maxStdioFrameBytes <? Z.of_nat i then r = Err FrameTooLarge
              else r = Ok (take (S i) data, None) ∧ s = MkSource (drop (S i) data) ending
  | None => if maxStdioFrameBytes <? zlen data then r = Err FrameTooLarge
            else if bool_decide (ending = EOF) && negb (bool_decide (data = []))
                 then r = Ok (data, Some EOF) ∧ s = MkSource [] ending
                 else r = Err ending
  end.
Proof. apply (readFrame_loop_spec buffer_size (S (length data)) [] data ending); [unfold buffer_size; lia|lia|done]. Qed.

(** What the server is given of an input: its lines of at most 1 MiB, in
    order, up to the first longer one; a last line without delimiter only at
    the end of the file; then the error that stops it. *)
Inductive accepted (ending : read_error) : list ascii → list ascii → read_error → Prop :=
| accepted_line l data out e : newline ∉ l → zlen l <= maxStdioFrameBytes → accepted ending data out e →
    accepted ending (l ++ newline :: data) (l ++ newline :: out) e
| accepted_long l data : newline ∉ l → maxStdioFrameBytes < zlen l →
    accepted ending (l ++ newline :: data) [] FrameTooLarge
| accepted_long_end l : newline ∉ l → maxStdioFrameBytes < zlen l → accepted ending l [] FrameTooLarge
| accepted_last l : newline ∉ l → l ≠ [] → zlen l <= maxStdioFrameBytes → ending = EOF → accepted ending l l EOF
| accepted_end l : newline ∉ l → zlen l <= maxStdioFrameBytes → (l = [] ∨ ending ≠ EOF) → accepted ending l [] ending.

Lemma accepted_total ending data : ∃ out e, accepted ending data out e.
Proof.
  induction data as [data IH] using (induction_ltof1 _ (@length ascii)). unfold ltof in IH.
  destruct (index_byte newline data) as [i|] eqn:Hi.
  - apply index_byte_Some in Hi as (Hlook & Hno & Heq). apply lookup_lt_Some in Hlook.
    destruct (decide (zlen (take i data) <= maxStdioFrameBytes)).
    + destruct (IH (drop (S i) data)) as (out & e & Ha); [rewrite length_drop; lia|].
      rewrite Heq. eexists _, _. by apply accepted_line.
    + rewrite Heq. eexists _, _. apply accepted_long; [done|lia].
  - apply index_byte_None in Hi. destruct (decide (zlen data <= maxStdioFrameBytes)).
    + destruct (decide (ending = EOF ∧ data ≠ [])) as [[He Hd]|Hn].
      * eexists _, _. by apply accepted_last.
      * eexists _, _. apply accepted_end; [done|done|]. destruct (decide (data = [])); [by left|right; naive_solver].
    + eexists _, _. apply accepted_long_end; [done|lia].
Qed.

(** What a reader in use will still deliver. *)
Definition delivers (r : boundedFrameReader) (out : list ascii) (e : read_error) : Prop :=
  ∃ out', out = (fr_pending r ++ out')%list ∧
    match fr_nextErr r with
    | Some x => out' = [] ∧ e = x
    | None => accepted (src_ending (fr_reader r)) (src_data (fr_reader r)) out' e
    end.

Lemma index_byte_line l data : newline ∉ l → index_byte newline (l ++ newline :: data) = Some (length l).
Proof.
  intros Hl. rewrite index_byte_app. apply index_byte_None in Hl as ->. cbn [index_byte]. rewrite decide_True by done.
  cbn. by rewrite Nat.add_0_r.
Qed.
Lemma take_line l data : take (S (length l)) (l ++ newline :: data) = (l ++ [newline])%list.
Proof. rewrite cons_middle, app_assoc. apply take_app_length'. rewrite length_app. simpl. lia. Qed.
Lemma drop_line l data : drop (S (length l)) (l ++ newline :: data) = data.
Proof. rewrite cons_middle, app_assoc. apply drop_app_length'. rewrite length_app. simpl. lia. Qed.
Lemma give_delivers n r out e :
  (0 < n)%nat → fr_pending r ≠ [] → delivers r out e →
  ∃ out2, out = (take n (fr_pending r) ++ out2)%list ∧ take n (fr_pending r) ≠ [] ∧ delivers (give n r).1 out2 e.
Proof.
  intros Hn Hp (out' & -> & He). exists (drop n (fr_pending r) ++ out')%list.
  split_and!; [by rewrite app_assoc, take_drop| |by exists out'].
  destruct n, (fr_pending r); done || lia.
Qed.
Lemma Read_delivers n r out e :
  (0 < n)%nat → delivers r out e →
  match Read n r with
  | (r', Ok b) => ∃ out2, out = (b ++ out2)%list ∧ b ≠ [] ∧ delivers r' out2 e
  | (_, Err x) => out = [] ∧ x = e
  end.
Proof.
  intros Hn Hd. unfold Read. rewrite (proj2 (Nat.eqb_neq n 0)) by lia.
  destruct (fr_pending r) as [|c p] eqn:Hp.
  2: { pose proof (give_delivers n r out e Hn ltac:(by rewrite Hp) Hd) as Hg. unfold give in *. exact Hg. }
  destruct Hd as (out' & -> & He). rewrite Hp. cbn [app].
  destruct (fr_nextErr r) as [x|]; [by destruct He as [-> ->]|].
  destruct (fr_reader r) as [data ending]. cbn [src_data src_ending] in He.
  pose proof (readFrame_spec data ending) as Hs. destruct (readFrame (MkSource data ending)) as [s res].
  inversion He as [l data' out1 e1 Hno Hlen Hacc|l data' Hno Hlen|l Hno Hlen|l Hno Hne Hlen Hend|l Hno Hlen Hend]; subst.
  - rewrite (index_byte_line l data' Hno) in Hs.
    rewrite (proj2 (Z.ltb_ge _ _)) in Hs by (unfold zlen in Hlen; lia). destruct Hs as [Hres ->].
    rewrite Hres, take_line, drop_line.
    apply (give_delivers n (MkReader _ (l ++ [newline])%list None)); [done|by destruct l|].
    exists out1. cbn. by rewrite <-app_assoc.
  - rewrite (index_byte_line l data' Hno) in Hs.
    rewrite (proj2 (Z.ltb_lt _ _)) in Hs by (unfold zlen in Hlen; lia). by rewrite Hs.
  - rewrite (proj2 (index_byte_None _ _) Hno), (proj2 (Z.ltb_lt _ _)) in Hs by done. by rewrite Hs.
  - rewrite (proj2 (index_byte_None _ _) Hno), (proj2 (Z.ltb_ge _ _)) in Hs by done.
    rewrite bool_decide_true, bool_decide_false in Hs by done. destruct Hs as [Hres ->].
    rewrite Hres. apply (give_delivers n (MkReader _ _ (Some EOF))); [done|done|]. exists []. by rewrite app_nil_r.
  - rewrite (proj2 (index_byte_None _ _) Hno), (proj2 (Z.ltb_ge _ _)) in Hs by done.
    destruct (bool_decide _ && _) eqn:Hb; [|by rewrite Hs].
    apply andb_true_iff in Hb as [Hb1 Hb2]. apply bool_decide_eq_true in Hb1.
    apply negb_true_iff, bool_decide_eq_false in Hb2. by destruct Hend.
Qed.

(** Reads in sequence, into slices of the given sizes, up to the first error. *)
Fixpoint run_reads (sizes : list nat) (r : boundedFrameReader) : list ascii * option read_error :=
  match sizes with
  | [] => ([], None)
  | n :: sizes =>
      match Read n r with
      | (r, Ok b) => let '(out, e) := run_reads sizes r in ((b ++ out)%list, e)
      | (_, Err e) => ([], Some e)
      end
  end.
Lemma run_reads_delivers sizes r out e :
  Forall (λ n, 0 < n)%nat sizes → delivers r out e →
  let '(got, err) := run_reads sizes r in
  got `prefix_of` out ∧ (∀ x, err = Some x → got = out ∧ x = e) ∧ ((length out < length sizes)%nat → err = Some e).
Proof.
  intros Hs. revert r out. induction Hs as [|n sizes Hn _ IH]; intros r out Hd; cbn [run_reads].
  { split_and!; [apply prefix_nil|done|simpl; lia]. }
  pose proof (Read_delivers n r out e Hn Hd) as HR. destruct (Read n r) as [r' [b|x]].
  - destruct HR as (out2 & -> & Hb & Hd2). specialize (IH r' out2 Hd2).
    destruct (run_reads sizes r') as [got err]. destruct IH as (Hp & Herr & Hlen). split_and!.
    + by apply prefix_app.
    + intros x Hx. destruct (Herr x Hx) as [-> ->]. done.
    + rewrite length_app. intros Hl. apply Hlen. destruct b; [done|]. simpl in *. lia.
  - destruct HR as [-> ->]. split_and!; [apply prefix_nil|by intros x [= <-]|done].
Qed.

(** (C16) Input frames arrive whole or not at all.  Whatever the input is, and
    into slices of whatever sizes it is read, there is one text the server may
    see: the lines of at most 1 MiB before the first longer one, and a last
    line without delimiter only when the input ended normally.  What was read
    is a prefix of it; an error is only reported when all of it was read, and
    it is the right one (a frame too large, or how the input ended); and
    reading on always gets there. *)
Theorem frames_read_whole ending data :
  ∃ out e, accepted ending data out e ∧ ∀ sizes, Forall (λ n, 0 < n)%nat sizes →
    let '(got, err) := run_reads sizes (newBoundedFrameReader (MkSource data ending)) in
    got `prefix_of` out ∧ (∀ x, err = Some x → got = out ∧ x = e) ∧ ((length out < length sizes)%nat → err = Some e).
Proof.
  destruct (accepted_total ending data) as (out & e & Ha). exists out, e. split; [done|].
  intros sizes Hs. apply run_reads_delivers; [done|]. by exists out.
Qed.
Lemma frames_read_whole_witness :
  let data := (bytes "{}" ++ newline :: bytes "[1]")%list in
  accepted EOF data data EOF ∧ run_reads [2; 2; 2; 2; 2]%nat (newBoundedFrameReader (MkSource data EOF)) = (data, Some EOF).
Proof.
  cbv zeta. destruct (frames_read_whole EOF (bytes "{}" ++ newline :: bytes "[1]")) as (out & e & Ha & Hr).
  specialize (Hr [2; 2; 2; 2; 2]%nat). 
  assert (run_reads [2; 2; 2; 2; 2]%nat (newBoundedFrameReader (MkSource (bytes "{}" ++ newline :: bytes "[1]") EOF))
    = ((bytes "{}" ++ newline :: bytes "[1]")%list, Some EOF)) as Hrun by (vm_compute; reflexivity).
  rewrite Hrun in Hr. destruct Hr as (_ & Hx & _); [repeat constructor|].
  destruct (Hx EOF eq_refl) as [<- <-]. split; [exact Ha|exact Hrun].
Defined.
