(* ===== verification/Allowlist.v ===== *)
(** The network allowlist (src/internal/security/allowlist.go, mail_dial.go):
    which hosts and ports may be reached, the transport that refuses the rest
    before anything is sent, and the dialers of the two mail endpoints. *)
From S2P Require Import Prelude GoStrings GoTime NetUrl.

Definition ICloudBaseURL : string := "https://caldav.icloud.com".
Definition ContactsBaseURL : string := "https://contacts.icloud.com".

(** [^p\d{1,3}-service\.icloud\.com$]. *)
Definition shard_host (service : string) (host : string) : bool :=
  match bytes host with
  | p :: l =>
      let digits := (length l - length (bytes ("-" ++ service ++ ".icloud.com")))%nat in
      bool_decide (p = "p"%char) && (1 <=? digits)%nat && (digits <=? 3)%nat && forallb is_digit (take digits l)
      && bool_decide (drop digits l = bytes ("-" ++ service ++ ".icloud.com"))
  | [] => false
  end.
Definition IsICloudHost (host : string) : bool := bool_decide (host = "caldav.icloud.com") || shard_host "caldav" host.
Definition IsContactsHost (host : string) : bool := bool_decide (host = "contacts.icloud.com") || shard_host "contacts" host.
Definition PortAllowed (port : string) : bool := bool_decide (port = "") || bool_decide (port = "443").

(** * The transport *)

(** [AllowlistTransport.RoundTrip] around an inner transport: the error is the
    message of the refusal. *)
Section RoundTrip.
Context {W Resp : Type} `{UnicodeTables}.
Definition RoundTrip (allowed : string → bool) (inner : URL → W → W * (Resp + string)) (target : URL) (w : W)
    : W * (Resp + string) :=
  if negb (bool_decide (Scheme target = "https"))
  then (w, inr ("network allowlist: scheme " ++ fmt_quote (Scheme target) ++ " rejected (https only)"))
  else if negb (PortAllowed (Port target))
  then (w, inr ("network allowlist: port " ++ fmt_quote (Port target) ++ " rejected (443 only)"))
  else if negb (allowed (Hostname target))
  then (w, inr ("network allowlist: host " ++ fmt_quote (Hostname target) ++ " rejected"))
  else inner target w.
End RoundTrip.

(** * The mail dialers *)

Definition IMAPAddress : string := "imap.mail.me.com:993".
Definition SMTPAddress : string := "smtp.mail.me.com:587".
Definition imapServerName : string := "imap.mail.me.com".

(** The configuration of the TLS client; [versionTLS12] is 0x0303. *)
Definition versionTLS12 : Z := 771.
Record tlsConfig := MkTLS { MinVersion : Z; ServerName : string; InsecureSkipVerify : bool; RootCAs : option nat; TLSTime : option nat }.

Class Dialer (W Conn : Type) := {
  dial : string → string → W → W * (Conn + string);
  (** [tls.Client] and its handshake, which verifies the server name. *)
  tls_handshake : Conn → tlsConfig → W → W * (Conn + string);
  conn_close : Conn → W → W;
}.
Inductive dial_action := Dialed (network address : string) | Handshake (config : tlsConfig) | ClosedConn.

Section Dialers.
Context {W Conn : Type} `{Dialer W Conn}.
(** [hasDialer] is false for a nil dialer; the overrides are those of tests. *)
Definition newIMAPDialer (hasDialer : bool) (overrides : option (option nat * option nat)) (network address : string)
    (st : W * list dial_action) : (W * list dial_action) * (Conn + string) :=
  let '(w, log) := st in
  if negb (bool_decide (network = "tcp")) || negb (bool_decide (address = IMAPAddress))
  then (st, inr "network allowlist: IMAP destination rejected")
  else if negb hasDialer then (st, inr "network allowlist: IMAP dialer is unavailable")
  else
    let '(w, r) := dial "tcp" IMAPAddress w in
    let log := (log ++ [Dialed "tcp" IMAPAddress])%list in
    match r with
    | inr e => ((w, log), inr ("IMAP connection failed: " ++ e))
    | inl raw =>
        let '(roots, time) := default (None, None) overrides in
        let config := MkTLS versionTLS12 imapServerName false roots time in
        let '(w, r) := tls_handshake raw config w in
        let log := (log ++ [Handshake config])%list in
        match r with
        | inr e => ((conn_close raw w, log ++ [ClosedConn])%list, inr ("IMAP TLS handshake failed: " ++ e))
        | inl conn => ((w, log), inl conn)
        end
    end.
Definition NewSMTPDialer (hasDialer : bool) (network address : string) (st : W * list dial_action)
    : (W * list dial_action) * (Conn + string) :=
  let '(w, log) := st in
  if negb (bool_decide (network = "tcp")) || negb (bool_decide (address = SMTPAddress))
  then (st, inr "network allowlist: SMTP destination rejected")
  else if negb hasDialer then (st, inr "network allowlist: SMTP dialer is unavailable")
  else let '(w, r) := dial "tcp" SMTPAddress w in ((w, log ++ [Dialed "tcp" SMTPAddress])%list, r).
End Dialers.

(** * Hosts *)

(** The hosts of a service: its own name, or [p], one to three digits and the
    service's suffix. *)
Definition service_host (service host : string) : Prop :=
  host = service ++ ".icloud.com" ∨
  ∃ ds, (1 <= length ds <= 3)%nat ∧ forallb is_digit ds = true ∧ bytes host = ("p"%char :: ds ++ bytes ("-" ++ service ++ ".icloud.com"))%list.
Lemma shard_host_spec service host :
  shard_host service host = true ↔
  ∃ ds, (1 <= length ds <= 3)%nat ∧ forallb is_digit ds = true ∧ bytes host = ("p"%char :: ds ++ bytes ("-" ++ service ++ ".icloud.com"))%list.
Proof.
  unfold shard_host. set (suffix := bytes ("-" ++ service ++ ".icloud.com")). split.
  - destruct (bytes host) as [|p l]; [done|]. cbv zeta. set (n := (length l - length suffix)%nat).
    intros [[[[->%bool_decide_eq_true ?%Nat.leb_le]%andb_prop ?%Nat.leb_le]%andb_prop Hd]%andb_prop Hs%bool_decide_eq_true]%andb_prop.
    exists (take n l). split; [|split; [exact Hd|]].
    + rewrite length_take. lia.
    + by rewrite <-Hs, take_drop.
  - intros (ds & Hlen & Hd & ->). cbv zeta. rewrite length_app. replace (length ds + length suffix - length suffix)%nat with (length ds) by lia.
    rewrite take_app_length, drop_app_length, Hd, !bool_decide_true by done. cbn [andb].
    destruct Hlen. rewrite !(proj2 (Nat.leb_le _ _)) by done. done.
Qed.
Lemma ICloudHost_spec host : IsICloudHost host = true ↔ service_host "caldav" host.
Proof. unfold IsICloudHost, service_host. rewrite orb_true_iff, bool_decide_eq_true, shard_host_spec. done. Qed.
Lemma ContactsHost_spec host : IsContactsHost host = true ↔ service_host "contacts" host.
Proof. unfold IsContactsHost, service_host. rewrite orb_true_iff, bool_decide_eq_true, shard_host_spec. done. Qed.
(** No host serves both services: a credential of one cannot reach the other. *)
Lemma hosts_disjoint host : IsICloudHost host = true → IsContactsHost host = false.
Proof.
  intros Hi. destruct (IsContactsHost host) eqn:Hc; [exfalso|done].
  apply ICloudHost_spec in Hi. apply ContactsHost_spec in Hc.
  destruct Hi as [->|(ds & _ & _ & Hh)], Hc as [Hc|(ds' & _ & _ & Hh')].
  - vm_compute in Hc. discriminate Hc.
  - vm_compute in Hh'. discriminate Hh'.
  - subst host. vm_compute in Hh. discriminate Hh.
  - rewrite Hh in Hh'. injection Hh' as Hh'. apply (f_equal reverse) in Hh'. rewrite !reverse_app in Hh'.
    revert Hh'. generalize (reverse ds) (reverse ds'). intros l l' Hh'. vm_compute in Hh'. discriminate Hh'.
Qed.

(** * What is dialed *)

Section DialFacts.
Context {W Conn : Type} `{Dialer W Conn}.

(** Everything an IMAP dial does: nothing for another destination; the fixed
    endpoint, then a TLS handshake of at least version 1.2 that verifies the
    fixed server name, and the connection closed when it fails. *)
Lemma imap_dial_fixed hasDialer overrides network address (w w' : W) log log' r :
  newIMAPDialer (Conn:=Conn) hasDialer overrides network address (w, log) = ((w', log'), r) →
  (log' = log ∧ w' = w ∧ (∃ e, r = inr e)) ∨
  (network = "tcp" ∧ address = IMAPAddress ∧ ∃ rest, log' = (log ++ Dialed "tcp" IMAPAddress :: rest)%list ∧
    ((rest = [] ∧ ∃ e, r = inr e) ∨ ∃ config, MinVersion config = versionTLS12 ∧ ServerName config = imapServerName ∧
       InsecureSkipVerify config = false ∧
       ((rest = [Handshake config] ∧ ∃ conn, r = inl conn) ∨ (rest = [Handshake config; ClosedConn] ∧ ∃ e, r = inr e)))).
Proof.
  unfold newIMAPDialer. destruct (negb _ || negb _) eqn:Hdest; [intros [= <- <- <-]; left; eauto|].
  apply orb_false_elim in Hdest as [->%negb_false_iff%bool_decide_eq_true ->%negb_false_iff%bool_decide_eq_true].
  destruct hasDialer; cbn [negb]; [|intros [= <- <- <-]; left; eauto].
  destruct (dial "tcp" IMAPAddress w) as [w1 [raw|e]].
  2:{ intros [= <- <- <-]. right. split_and!; [done..|]. exists []. eauto. }
  destruct (default (None, None) overrides) as [roots time]. destruct (tls_handshake raw _ w1) as [w2 [conn|e]];
    intros [= <- <- <-]; right; (split_and!; [done..|]); eexists; rewrite <-?app_assoc; (split; [reflexivity|]); right;
    exists (MkTLS versionTLS12 imapServerName false roots time); (split_and!; [done..|]); eauto.
Qed.
End DialFacts.
