(* ===== verification/CalXml.v ===== *)
(** DAV multistatus documents of the Calendar client
    (src/internal/icloud/webdav_xml.go, and the entity tag of a response from
    etag.go).

    Tokens, trees of elements and the tokenizer [XMLTokens] are those of
    ContactsXml. *)
From S2P Require Import Prelude GoStrings GoTime NetUrl CalErrors Validation ContactsXml.

Definition davXMLNamespace : string := "DAV:".
Definition caldavNamespace : string := "urn:ietf:params:xml:ns:caldav".
Definition appleNamespace : string := "http://apple.com/ns/ical/".
Definition maxReportXMLDepth : Z := 32.
Definition maxReportXMLTokens : Z := 262144.
Definition maxReportResponses : Z := 4096.
Definition maxReportPropstats : Z := 16384.
Definition maxReportPropertyCount : Z := 32768.

Definition davLimitError (status : Z) (operation kind : string) : error :=
  Typed (NewError CodePayloadTooLarge status ("Calendar " ++ operation ++ " XML exceeded its " ++ kind ++ " limit") None).
Definition malformedDAVError (status : Z) (operation : string) : error :=
  Typed (NewError CodeProtocolError status ("Calendar " ++ operation ++ " response is malformed") None).
Definition malformedReportError (status : Z) : error := malformedDAVError status "REPORT".

(** * The bounds on the structure *)

Section Shape.
Context (status : Z) (operation : string).
Abbreviation limit := (davLimitError status operation).
Abbreviation malformed := (malformedDAVError status operation).

(** A start tag, after its token was counted. *)
Definition dav_start (n : xname) (s : shape) : result error shape :=
  let depth := sh_depth s + 1 in
  reject maxReportXMLDepth <? depth with limit "depth" ;;
  reject rootClosed s with malformed ;;
  if negb (rootSeen s) then
    reject negb (dav_named "multistatus" n) with malformed ;;
    Ok (MkShape depth (sh_tokens s) (sh_responses s) (sh_propstats s) (sh_properties s) (sh_propDepth s) true (rootClosed s))
  else
    let responses := sh_responses s + (if dav_named "response" n then 1 else 0) in
    reject dav_named "response" n && (maxReportResponses <? responses) with limit "object" ;;
    let propstats := sh_propstats s + (if dav_named "propstat" n then 1 else 0) in
    reject dav_named "propstat" n && (maxReportPropstats <? propstats) with limit "propstat" ;;
    let inner := negb (sh_propDepth s =? 0) && (depth =? sh_propDepth s + 1) in
    let properties := sh_properties s + (if inner then 1 else 0) in
    reject inner && (maxReportPropertyCount <? properties) with limit "property" ;;
    let propDepth := if dav_named "prop" n && (sh_propDepth s =? 0) then depth else sh_propDepth s in
    Ok (MkShape depth (sh_tokens s) responses propstats properties propDepth (rootSeen s) (rootClosed s)).
Definition dav_text (text : list ascii) (s : shape) : result error shape :=
  reject (negb (rootSeen s) || rootClosed s) && negb (bool_decide (trim_space_b text = [])) with malformed ;;
  Ok s.
Definition dav_token (s : shape) (t : token) : result error shape :=
  let s := MkShape (sh_depth s) (sh_tokens s + 1) (sh_responses s) (sh_propstats s) (sh_properties s) (sh_propDepth s)
                   (rootSeen s) (rootClosed s) in
  reject maxReportXMLTokens <? sh_tokens s with limit "token" ;;
  match t with
  | StartElement n _ => dav_start n s
  | EndElement n => Ok (shape_end n s)
  | CharData text => dav_text text s
  | OtherToken => Ok s
  end.
End Shape.

Section Validation.
Context `{XMLTokens}.
Definition validateDAVMultiStatus (data : list ascii) (status : Z) (operation : string) : result error unit :=
  let '(ts, at_eof) := xml_tokens data in
  s ← fold_res (dav_token status operation) ts no_shape;
  reject negb at_eof with malformedDAVError status operation ;;
  reject negb (rootSeen s) || negb (rootClosed s) || negb (sh_depth s =? 0) with malformedDAVError status operation ;;
  Ok tt.
Definition validateReportMultiStatus (data : list ascii) (status : Z) : result error unit :=
  validateDAVMultiStatus data status "REPORT".
Definition validatePropfindMultiStatus (data : list ascii) (status : Z) : result error unit :=
  validateDAVMultiStatus data status "PROPFIND".
End Validation.

(** * Decoding *)

Record msHref := MkMsHref { MsHrefs : list string }.
Record msResourceType := MkMsResourceType { RtCalendar : bool; RtScheduleInbox : bool; RtScheduleOutbox : bool }.
(** The names of the components. *)
Record msSupportedSet := MkMsSupported { Comps : list string }.
Record msProp := MkMsProp {
  MpPrincipal : list msHref;
  MpHomeSet : list msHref;
  MpDisplayName : string;
  MpDescription : string;
  MpColor : string;
  MpResourceType : option msResourceType;
  MpSupportedComps : option msSupportedSet;
  MpCalendarData : string;
  MpETags : list string;
}.
Definition no_ms_prop : msProp := MkMsProp [] [] "" "" "" None None "" [].
Record msPropstat := MkMsPropstat { MsStatus : string; MsProp : msProp }.
Record msResponse := MkMsResponse { MsHref : string; MsPropstats : list msPropstat }.

Definition caldav (local : string) (n : xname) : bool := bool_decide (n = MkName caldavNamespace local).
Definition has_child (name : xname → bool) (children : list node) : bool :=
  existsb (λ c, match c with Elem n _ _ => name n | Text _ => false end) children.
Definition comp_names (children : list node) : list string :=
  omap (λ c, match c with
             | Elem n attrs _ => if caldav "comp" n then Some (attr_value "name" attrs) else None
             | Text _ => None
             end) children.
(** A repeated element adds to a slice, is decoded into the same struct, or
    replaces a string. *)
Definition ms_prop_child (p : msProp) (c : node) : msProp :=
  match c with
  | Text _ => p
  | Elem n _ cs =>
      if any_ns "current-user-principal" n then
        MkMsProp (MpPrincipal p ++ [MkMsHref (hrefs_of cs)])%list (MpHomeSet p) (MpDisplayName p) (MpDescription p) (MpColor p)
          (MpResourceType p) (MpSupportedComps p) (MpCalendarData p) (MpETags p)
      else if caldav "calendar-home-set" n then
        MkMsProp (MpPrincipal p) (MpHomeSet p ++ [MkMsHref (hrefs_of cs)])%list (MpDisplayName p) (MpDescription p) (MpColor p)
          (MpResourceType p) (MpSupportedComps p) (MpCalendarData p) (MpETags p)
      else if any_ns "displayname" n then
        MkMsProp (MpPrincipal p) (MpHomeSet p) (direct_text cs) (MpDescription p) (MpColor p)
          (MpResourceType p) (MpSupportedComps p) (MpCalendarData p) (MpETags p)
      else if caldav "calendar-description" n then
        MkMsProp (MpPrincipal p) (MpHomeSet p) (MpDisplayName p) (direct_text cs) (MpColor p)
          (MpResourceType p) (MpSupportedComps p) (MpCalendarData p) (MpETags p)
      else if bool_decide (n = MkName appleNamespace "calendar-color") then
        MkMsProp (MpPrincipal p) (MpHomeSet p) (MpDisplayName p) (MpDescription p) (direct_text cs)
          (MpResourceType p) (MpSupportedComps p) (MpCalendarData p) (MpETags p)
      else if any_ns "resourcetype" n then
        let old := default (MkMsResourceType false false false) (MpResourceType p) in
        MkMsProp (MpPrincipal p) (MpHomeSet p) (MpDisplayName p) (MpDescription p) (MpColor p)
          (Some (MkMsResourceType (RtCalendar old || has_child (caldav "calendar") cs)
                   (RtScheduleInbox old || has_child (caldav "schedule-inbox") cs)
                   (RtScheduleOutbox old || has_child (caldav "schedule-outbox") cs)))
          (MpSupportedComps p) (MpCalendarData p) (MpETags p)
      else if caldav "supported-calendar-component-set" n then
        let old := match MpSupportedComps p with Some s => Comps s | None => [] end in
        MkMsProp (MpPrincipal p) (MpHomeSet p) (MpDisplayName p) (MpDescription p) (MpColor p)
          (MpResourceType p) (Some (MkMsSupported (old ++ comp_names cs)%list)) (MpCalendarData p) (MpETags p)
      else if caldav "calendar-data" n then
        MkMsProp (MpPrincipal p) (MpHomeSet p) (MpDisplayName p) (MpDescription p) (MpColor p)
          (MpResourceType p) (MpSupportedComps p) (direct_text cs) (MpETags p)
      else if any_ns "getetag" n then
        MkMsProp (MpPrincipal p) (MpHomeSet p) (MpDisplayName p) (MpDescription p) (MpColor p)
          (MpResourceType p) (MpSupportedComps p) (MpCalendarData p) (MpETags p ++ [direct_text cs])%list
      else p
  end.
Definition ms_propstat_child (ps : msPropstat) (c : node) : msPropstat :=
  match c with
  | Text _ => ps
  | Elem n _ cs =>
      if any_ns "status" n then MkMsPropstat (direct_text cs) (MsProp ps)
      else if any_ns "prop" n then MkMsPropstat (MsStatus ps) (fold_left ms_prop_child cs (MsProp ps))
      else ps
  end.
Definition ms_response_child (r : msResponse) (c : node) : msResponse :=
  match c with
  | Text _ => r
  | Elem n _ cs =>
      if any_ns "href" n then MkMsResponse (direct_text cs) (MsPropstats r)
      else if any_ns "propstat" n then
        MkMsResponse (MsHref r) (MsPropstats r ++ [fold_left ms_propstat_child cs (MkMsPropstat "" no_ms_prop)])%list
      else r
  end.
Definition ms_response (children : list node) : msResponse := fold_left ms_response_child children (MkMsResponse "" []).

(** The loop of [decodeReportMultiStatus]: the responses directly below the
    root. *)
Fixpoint report_loop (fuel : nat) (status : Z) (at_eof : bool) (depth : Z) (ts : list token)
    (responses : list msResponse) : result error (list msResponse) :=
  match fuel with
  | O => Err (malformedReportError status)
  | S fuel =>
      match ts with
      | [] => if at_eof then Ok responses else Err (malformedReportError status)
      | StartElement n _ :: ts =>
          if (depth + 1 =? 2) && dav_named "response" n then
            match read_children (S (length ts)) ts with
            | None => Err (malformedReportError status)
            | Some (children, ts) => report_loop fuel status at_eof depth ts (responses ++ [ms_response children])%list
            end
          else report_loop fuel status at_eof (depth + 1) ts responses
      | EndElement _ :: ts => report_loop fuel status at_eof (depth - 1) ts responses
      | _ :: ts => report_loop fuel status at_eof depth ts responses
      end
  end.
Definition responses_of (children : list node) : list msResponse :=
  omap (λ c, match c with
             | Elem n _ cs => if any_ns "response" n then Some (ms_response cs) else None
             | Text _ => None
             end) children.
(** [xml.Unmarshal] into [msMultistatus]: the first element of the document. *)
Fixpoint unmarshal_multistatus (ts : list token) : option (list msResponse) :=
  match ts with
  | StartElement n _ :: ts =>
      if dav_named "multistatus" n then
        match read_children (S (length ts)) ts with
        | Some (children, _) => Some (responses_of children)
        | None => None
        end
      else None
  | (CharData _ | OtherToken) :: ts => unmarshal_multistatus ts
  | _ => None
  end.

Section Decoding.
Context `{XMLTokens}.
Definition decodeReportMultiStatus (data : list ascii) (status : Z) : result error (list msResponse) :=
  validateReportMultiStatus data status;;
  let '(ts, at_eof) := xml_tokens data in
  report_loop (S (length ts)) status at_eof 0 ts [].
End Decoding.

(** * Statuses and merged properties *)

Definition reason_control (c : ascii) : bool :=
  ((byte_val c <? 32) && negb (byte_val c =? 9)) || (byte_val c =? 127).
Definition parseDAVStatus (status : string) : option Z :=
  let status := trim_space status in
  if bool_decide (status = "") || contains_any status (str ["013"; "010"]%char) then None
  else
    let '(version, rest, ok) := cut status " "%char in
    if negb ok || negb (bool_decide (is_Some (http_major (bytes version)))) then None
    else
      let '(codeText, reason, ok) := cut rest " "%char in
      if negb ok || negb (len codeText =? 3) || bool_decide (reason = "") then None
      else if existsb (λ c, negb (is_digit c)) (bytes codeText) || existsb reason_control (bytes reason) then None
      else parse_int64 codeText.
Definition isOKStatus (status : string) : bool := bool_decide (parseDAVStatus status = Some 200).
(** The propstats with status 200, in order. *)
Definition ok_props (r : msResponse) : list msProp :=
  omap (λ ps, if isOKStatus (MsStatus ps) then Some (MsProp ps) else None) (MsPropstats r).

Definition later_text (old new : string) : string := if bool_decide (new = "") then old else new.
Definition later {A} (old new : option A) : option A := match new with Some _ => new | None => old end.
Definition merge_prop (m p : msProp) : msProp :=
  MkMsProp (MpPrincipal m ++ MpPrincipal p)%list (MpHomeSet m ++ MpHomeSet p)%list
    (later_text (MpDisplayName m) (MpDisplayName p)) (later_text (MpDescription m) (MpDescription p))
    (later_text (MpColor m) (MpColor p)) (later (MpResourceType m) (MpResourceType p))
    (later (MpSupportedComps m) (MpSupportedComps p)) (later_text (MpCalendarData m) (MpCalendarData p))
    (MpETags m ++ MpETags p)%list.
Definition mergedOKProp (r : msResponse) : option msProp :=
  match ok_props r with [] => None | ps => Some (fold_left merge_prop ps no_ms_prop) end.

(** A property without an href counts as an empty one. *)
Definition property_hrefs (l : list msHref) : list string :=
  concat (map (λ h, match MsHrefs h with [] => [""] | hs => hs end) l).
Definition principalHrefsFromMultistatus (responses : list msResponse) : list string :=
  concat (map (λ r, concat (map (λ p, property_hrefs (MpPrincipal p)) (ok_props r))) responses).
Definition homeSetHrefsFromMultistatus (responses : list msResponse) : list string :=
  concat (map (λ r, concat (map (λ p, property_hrefs (MpHomeSet p)) (ok_props r))) responses).

Definition strongETagFromResponse (r : msResponse) : result error string :=
  match concat (map MpETags (ok_props r)) with
  | [] => Ok ""
  | [v] => parseStrongETag v
  | _ => Err (Plain "invalid entity-tag property count")
  end.
