(* ===== verification/ICal.v ===== *)
(** Reading iCalendar data (src/internal/icloud/ical.go, and the structural
    checks of dav.go): durations, date values, the limits on what a server may
    send, and the events of an object.

    go-ical is the class [ICalLib] on its data types, whose fields the code
    reads and writes directly: a component has a name, properties by name and
    children; a property has a name, parameters and a value. *)
From S2P Require Import Prelude GoStrings GoTime CalErrors CalTypes TimePolicy Validation Tools ContactsValidation Recurrence EventInput.

(** * The data of go-ical *)

Record ICalProp := MkICalProp {
  PropName : string; PropParams : gmap string (list string); PropValue : string;
}.
Abbreviation Props := (gmap string (list ICalProp)).
Inductive Component := MkComponent (name : string) (props : Props) (children : list Component).
Definition CompName (c : Component) : string := let '(MkComponent n _ _) := c in n.
Definition CompProps (c : Component) : Props := let '(MkComponent _ p _) := c in p.
Definition CompChildren (c : Component) : list Component := let '(MkComponent _ _ l) := c in l.
Definition with_props (p : Props) (c : Component) : Component := MkComponent (CompName c) p (CompChildren c).
Definition with_children (l : list Component) (c : Component) : Component := MkComponent (CompName c) (CompProps c) l.

(** The methods the code calls. *)
Class ICalLib := {
  NewProp : string → ICalProp;
  NewComponent : string → Component;
  NewEventComponent : Component;
  NewCalendar : Component;
  (** [Prop.DateTime(time.UTC)]; [ValueType() == ValueDate]. *)
  prop_DateTime : ICalProp → result string gtime;
  prop_is_date : ICalProp → bool;
  prop_SetDate : ICalProp → gtime → ICalProp;
  prop_SetDateTime : ICalProp → gtime → ICalProp;
  props_Get : Props → string → option ICalProp;
  props_Set : Props → ICalProp → Props;
  props_Add : Props → ICalProp → Props;
  props_Del : Props → string → Props;
  props_SetText : Props → string → string → Props;
  props_SetDate : Props → string → gtime → Props;
  props_SetDateTime : Props → string → gtime → Props;
  params_Get : gmap string (list string) → string → string;
  params_Del : gmap string (list string) → string → gmap string (list string);
  (** The decoder, which may panic ([None]), and the encoder. *)
  ical_decode : list ascii → option (result string Component);
  ical_encode : Component → result string (list ascii);
}.
Definition values_of (p : Props) (name : string) : list ICalProp := default [] (p !! name).

Definition protocol (msg : string) : error := Typed (NewError CodeProtocolError 0 msg None).
Definition too_big (msg : string) : error := Typed (NewError CodePayloadTooLarge 0 msg None).
Definition malformed_data : error := protocol "Calendar event data is malformed".

Definition maxRemoteComponents : Z := 1024.
Definition maxRemoteComponentDepth : Z := 32.
Definition maxRemoteProperties : Z := 10000.
Definition maxRemotePropertiesPerComponent : Z := 1024.
Definition maxRemoteLogicalLines : Z := 16384.
Definition maxRemotePhysicalLines : Z := 131072.
Definition maxRemoteLogicalLineBytes : Z := 1048576.
Definition maxRemotePropertyValueBytes : Z := 1048576.
Definition maxRemotePropertyNameBytes : Z := 128.
Definition maxRemoteParamsPerProperty : Z := 64.
Definition maxRemoteParamBytes : Z := 1024.
Definition maxRemoteAlarms : Z := 64.
Definition maxRemoteAlarmFieldBytes : Z := 512.
Definition maxRemoteExDates : Z := 2000.
Definition maxGetBodySize : Z := 8388608.

(** * The raw text *)

(** The components that are open, the innermost first, with the number of
    their properties. *)
Record raw_state := MkRaw {
  rw_stack : list (string * Z); rw_logical : Z; rw_components : Z; rw_properties : Z;
}.
Definition no_raw : raw_state := MkRaw [] 0 0 0.
Section Raw.
Context `{UnicodeTables}.
(** [flush]: one logical line. *)
Definition raw_line (s : raw_state) (logical : list ascii) : result error raw_state :=
  let lines := rw_logical s + 1 in
  reject maxRemoteLogicalLines <? lines with too_big "Calendar event data exceeded its logical-line limit" ;;
  let s := MkRaw (rw_stack s) lines (rw_components s) (rw_properties s) in
  match index_byte ":"%char logical with
  | None | Some O => Ok s
  | Some colon =>
      let head := take colon logical in
      let head := match index_byte ";"%char head with Some semicolon => take semicolon head | None => head end in
      let value := drop (S colon) logical in
      if equal_fold (str head) "BEGIN" then
        reject bool_decide (value = []) with malformed_data ;;
        let components := rw_components s + 1 in
        reject maxRemoteComponents <? components with too_big "Calendar event data exceeded its component limit" ;;
        reject maxRemoteComponentDepth <=? zlen (rw_stack s)
          with too_big "Calendar event data exceeded its component-depth limit" ;;
        Ok (MkRaw ((str value, 0) :: rw_stack s) lines components (rw_properties s))
      else if equal_fold (str head) "END" then
        match rw_stack s with
        | (name, _) :: rest =>
            reject negb (equal_fold_runes name (str value)) with malformed_data ;;
            Ok (MkRaw rest lines (rw_components s) (rw_properties s))
        | [] => Err malformed_data
        end
      else
        let properties := rw_properties s + 1 in
        reject maxRemoteProperties <? properties with too_big "Calendar event data exceeded its property limit" ;;
        match rw_stack s with
        | (name, n) :: rest =>
            reject maxRemotePropertiesPerComponent <? n + 1
              with too_big "Calendar event data exceeded its component property limit" ;;
            Ok (MkRaw ((name, n + 1) :: rest) lines (rw_components s) properties)
        | [] => Ok (MkRaw [] lines (rw_components s) properties)
        end
  end.

(** A physical line: a continuation adds to the logical line, any other line
    ends it. *)
Record text_state := MkText { tx_raw : raw_state; tx_logical : option (list ascii); tx_lines : Z }.
Definition strip_cr (line : list ascii) : list ascii :=
  match reverse line with c :: l => if bool_decide (c = "013"%char) then reverse l else line | [] => line end.
Definition is_fold (line : list ascii) : bool :=
  match line with c :: _ => bool_decide (c = " "%char) || bool_decide (c = "009"%char) | [] => false end.
Definition flush_logical (raw : raw_state) (logical : option (list ascii)) : result error raw_state :=
  match logical with Some l => raw_line raw l | None => Ok raw end.
Definition physical_line (s : text_state) (line : list ascii) : result error text_state :=
  let line := strip_cr line in
  let lines := tx_lines s + 1 in
  reject maxRemotePhysicalLines <? lines with too_big "Calendar event data exceeded its physical-line limit" ;;
  '(raw, logical) ← (if is_fold line
    then match tx_logical s with
         | None => Err malformed_data
         | Some l => Ok (tx_raw s, (l ++ drop 1 line)%list)
         end
    else raw ← flush_logical (tx_raw s) (tx_logical s); Ok (raw, line));
  reject maxRemoteLogicalLineBytes <? zlen logical
    with too_big "Calendar event data exceeded its logical-line byte limit" ;;
  Ok (MkText raw (Some logical) lines).
(** The lines ended by a line feed, and the rest when there is some. *)
Definition physical_lines (data : list ascii) : list (list ascii) :=
  let l := split_b "010"%char data in
  match reverse l with [] :: rest => reverse rest | _ => l end.
Definition validateRawICalendar (data : list ascii) : result error unit :=
  s ← fold_res physical_line (physical_lines data) (MkText no_raw None 0);
  raw ← flush_logical (tx_raw s) (tx_logical s);
  reject negb (bool_decide (rw_stack raw = [])) with malformed_data ;;
  Ok tt.
End Raw.

(** * Durations *)

Definition invalid_duration : error := Plain "invalid iCalendar duration".
Definition overflow_duration : error := Plain "iCalendar duration overflows its runtime representation".
Definition maxDurationMagnitude : Z := max_int64.
(** [strconv.ParseUint(s, 10, 64)] on digits. *)
Definition parse_uint64 (l : list ascii) : option Z :=
  match parse_digits l with Some n => if n <? 2 ^ 64 then Some n else None | None => None end.
Definition whole_day : Z := 24 * hour.
Definition checkedICalDuration (count unit : Z) (negative : bool) : result error Z :=
  reject maxDurationMagnitude / unit <? count with overflow_duration ;;
  Ok (if negative then - (count * unit) else count * unit).

Record duration_state := MkDuration {
  du_inTime : bool; du_seenDay : bool; du_seenPart : bool; du_lastPart : Z; du_total : Z;
}.
(** The unit a designator names, and the state after it. *)
Definition designator (c : ascii) (s : duration_state) : option (Z * duration_state) :=
  let part (n unit : Z) :=
    if negb (du_inTime s) || (n <=? du_lastPart s) then None
    else Some (unit, MkDuration (du_inTime s) (du_seenDay s) true n (du_total s)) in
  if bool_decide (c = "D"%char) then
    if du_inTime s || du_seenDay s then None
    else Some (whole_day, MkDuration (du_inTime s) true (du_seenPart s) (du_lastPart s) (du_total s))
  else if bool_decide (c = "H"%char) then part 1 hour
  else if bool_decide (c = "M"%char) then part 2 minute
  else if bool_decide (c = "S"%char) then part 3 second
  else None.
Fixpoint duration_loop (fuel : nat) (value : list ascii) (s : duration_state) : result error duration_state :=
  match fuel, value with
  | _, [] => Ok s
  | O, _ => Err invalid_duration
  | S fuel, c :: rest =>
      if bool_decide (c = "T"%char) then
        reject du_inTime s with invalid_duration ;;
        duration_loop fuel rest (MkDuration true (du_seenDay s) (du_seenPart s) (du_lastPart s) (du_total s))
      else
        match take_digits value with
        | ([], _) | (_, []) => Err invalid_duration
        | (digits, d :: rest) =>
            match parse_uint64 digits, designator d s with
            | Some count, Some (unit, s) =>
                reject maxDurationMagnitude / unit <? count with overflow_duration ;;
                let part := count * unit in
                reject maxDurationMagnitude - part <? du_total s with overflow_duration ;;
                duration_loop fuel rest
                  (MkDuration (du_inTime s) (du_seenDay s) (du_seenPart s) (du_lastPart s) (du_total s + part))
            | _, _ => Err invalid_duration
            end
        end
  end.
Definition parse_sign (l : list ascii) : bool * list ascii :=
  match l with
  | c :: rest => if bool_decide (c = "-"%char) then (true, rest) else if bool_decide (c = "+"%char) then (false, rest) else (false, l)
  | [] => (false, [])
  end.
Definition parseICalDuration (value : string) : result error Z :=
  reject bool_decide (value = "") || negb (bool_decide (value = trim_space value)) with invalid_duration ;;
  let '(negative, l) := parse_sign (bytes value) in
  match l with
  | p :: ((_ :: _) as l) =>
      reject negb (bool_decide (p = "P"%char)) with invalid_duration ;;
      match reverse l with
      | last :: ((_ :: _) as digits) =>
          if bool_decide (last = "W"%char) then
            match parse_uint64 (reverse digits) with
            | Some count => checkedICalDuration count (7 * whole_day) negative
            | None => Err invalid_duration
            end
          else
            s ← duration_loop (length l) l (MkDuration false false false 0 0);
            reject negb (du_seenDay s) && negb (du_seenPart s) || du_inTime s && negb (du_seenPart s) with invalid_duration ;;
            Ok (if negative then - du_total s else du_total s)
      | _ => Err invalid_duration
      end
  | _ => Err invalid_duration
  end.

Definition maxInt : Z := max_int64.
Definition invalid_nominal : error := Plain "invalid nominal iCalendar duration".
(** Digits that do not fit 64 bits are read as the largest number, with an
    error. *)
Definition nominal_count (l : list ascii) : result error Z :=
  match parse_digits l with
  | Some n => if n <? 2 ^ 64 then Ok n else Err (Plain "nominal iCalendar duration overflows")
  | None => Err invalid_nominal
  end.
Definition nominalICalDurationParts (value : string) (total : Z) : result error (Z * Z) :=
  let unsigned := trim_prefix value "+" in
  reject has_prefix unsigned "-" || negb (has_prefix unsigned "P") with invalid_nominal ;;
  let l := bytes unsigned in
  dayCount ← (if has_suffix unsigned "W" then
      n ← nominal_count (take (length l - 2) (drop 1 l));
      reject maxInt / 7 <? n with Plain "nominal iCalendar duration overflows" ;;
      Ok (n * 7)
    else match index_byte "D"%char l with
         | Some dayEnd => match nominal_count (take (dayEnd - 1) (drop 1 l)) with Ok n => Ok n | Err _ => Err invalid_nominal end
         | None => Ok 0
         end);
  reject maxInt <? dayCount with invalid_nominal ;;
  Ok (dayCount, wrap64 (total - wrap64 (dayCount * whole_day))).
(** [parseTriggerMinutesBefore]: the minutes before the start. *)
Definition parseTriggerMinutesBefore (v : string) : Z :=
  match parseICalDuration v with
  | Err _ => 0
  | Ok d => if (0 <=? d) || negb (Z.rem d minute =? 0) then 0 else - Z.quot d minute
  end.

(** * Date values *)

(** ["20060102"]. *)
Definition parse_basic_date (l : list ascii) : option (civil * list ascii) :=
  match l with
  | y1 :: y2 :: y3 :: y4 :: l =>
      y ← parse_digits [y1; y2; y3; y4];
      '(m, l) ← getnum true l;
      in_range 1 12 m;;
      '(d, l) ← getnum true l;
      in_range 1 (days_in m y) d;;
      Some (Civil y m d, l)
  | _ => None
  end.
(** ["20060102T150405"], with the fraction Go lets through: the civil date,
    the seconds since midnight and the nanoseconds. *)
Definition parse_basic_datetime (l : list ascii) : option (civil * Z * Z * list ascii) :=
  '(c, l) ← parse_basic_date l;
  l ← expect "T" l;
  '(h, l) ← getnum false l;
  in_range 0 23 h;;
  '(mi, l) ← getnum true l;
  in_range 0 59 mi;;
  '(s, l) ← getnum true l;
  in_range 0 59 s;;
  let '(ns, l) := parse_fraction l in
  Some (c, h * 3600 + mi * 60 + s, ns, l).
Definition date_time (c : civil) (secs ns : Z) (loc : Location) : gtime :=
  GTime (go_date (cyear c) (cmonth c) (cday c) 0 0 secs loc + ns) loc.

Section Reading.
Context `{ICalLib} `{UnicodeTables}.
(** [time.LoadLocation]. *)
Context (load_location : string → option Location).

Definition parseICalDateTimeValue (value tzid : string) : result error gtime :=
  let bad := Plain ("parsing time " ++ fmt_quote value) in
  if len value =? 8 then
    match parse_basic_date (bytes value) with
    | Some (c, []) => Ok (date_time c 0 0 UTC)
    | _ => Err bad
    end
  else if has_suffix value "Z" then
    match parse_basic_datetime (bytes value) with
    | Some (c, secs, ns, ["Z"%char]) => Ok (date_time c secs ns UTC)
    | _ => Err bad
    end
  else
    loc ← (if bool_decide (tzid = "") then Ok UTC
           else match load_location tzid with Some l => Ok l | None => Err (Plain ("unknown TZID " ++ fmt_quote tzid)) end);
    match parse_basic_datetime (bytes value) with
    | Some (c, secs, ns, []) => Ok (date_time c secs ns loc)
    | _ => Err bad
    end.
(** In UTC. *)
Definition in_utc (t : gtime) : gtime := GTime (instant t) UTC.
Definition parseExDateProp (p : ICalProp) : result error (list gtime) :=
  fold_res (λ out part,
    let part := trim_space part in
    if bool_decide (part = "") then Ok out
    else t ← parseICalDateTimeValue part (params_Get (PropParams p) "TZID"); Ok (out ++ [in_utc t])%list)
    (split (PropValue p) ","%char) [].

Definition isDateOnlyProp (p : option ICalProp) : bool :=
  match p with
  | None => false
  | Some p => if prop_is_date p then true else (len (PropValue p) =? 8) && negb (contains (PropValue p) "T")
  end.

(** * Limits on the decoded shape *)

Definition remoteEventFieldLimit (name : string) : Z :=
  if bool_decide (name = "UID") then MaxUIDLen
  else if bool_decide (name = "SUMMARY") then MaxTitleLen
  else if bool_decide (name = "LOCATION") then MaxLocationLen
  else if bool_decide (name = "DESCRIPTION") then MaxNotesLen
  else if bool_decide (name = "URL") then MaxURLLen
  else if bool_decide (name = "RRULE") then 1024
  else if bool_decide (name ∈ ["STATUS"; "TRANSP"]) then 64
  else if bool_decide (name ∈ ["ACTION"; "TRIGGER"]) then maxRemoteAlarmFieldBytes
  else 0.
(** What is counted; [rc_pending] is the length of the stack. *)
Record remote_counts := MkRemote {
  rc_pending : Z; rc_components : Z; rc_properties : Z; rc_overrides : Z; rc_events : Z; rc_alarms : Z; rc_exDates : Z;
}.
Definition add_properties (n : Z) (s : remote_counts) : remote_counts :=
  MkRemote (rc_pending s) (rc_components s) (rc_properties s + n) (rc_overrides s) (rc_events s) (rc_alarms s) (rc_exDates s).
Definition param_values (paramCount : Z) (kv : string * list string) : result error Z :=
  let '(paramName, values) := kv in
  let paramCount := paramCount + zlen values in
  reject (maxRemotePropertyNameBytes <? len paramName) || (maxRemoteParamsPerProperty <? paramCount)
    with too_big "Calendar event data exceeded its property-parameter limit" ;;
  fold_res (λ n value,
    reject maxRemoteParamBytes <? len value with too_big "Calendar event data exceeded its property-parameter limit" ;;
    reject bool_decide (paramName = "TZID") && (MaxUIDLen <? len value)
      with too_big "Calendar timezone identifier exceeded its byte limit" ;;
    Ok n) values paramCount.
(** A trigger that is written as a duration. *)
Definition trigger_ok (value : string) : bool :=
  let trigger := to_upper (trim_space value) in
  if has_prefix trigger "P" || has_prefix trigger "+P" || has_prefix trigger "-P"
  then is_ok (parseICalDuration trigger) else true.
Definition count_commas (s : string) : Z := zlen (List.filter (λ c, bool_decide (c = ","%char)) (bytes s)).
Definition remote_property `{MapOrder} (name : string) (s : remote_counts) (prop : ICalProp) : result error remote_counts :=
  reject maxRemotePropertyNameBytes <? len (PropName prop)
    with too_big "Calendar event data exceeded its property-name limit" ;;
  reject maxRemotePropertyValueBytes <? len (PropValue prop)
    with too_big "Calendar event data exceeded its property-value limit" ;;
  _ ← fold_res param_values (map_order (map_to_list (PropParams prop))) 0;
  let limit := remoteEventFieldLimit name in
  reject (0 <? limit) && (limit <? len (PropValue prop)) with too_big "Calendar event field exceeded its byte limit" ;;
  reject bool_decide (name = "DURATION") && negb (is_ok (parseICalDuration (PropValue prop)))
    with protocol "Calendar event duration is invalid" ;;
  reject bool_decide (name = "TRIGGER") && negb (trigger_ok (PropValue prop))
    with protocol "Calendar alarm trigger is invalid" ;;
  if bool_decide (name = "EXDATE") then
    let exDates := rc_exDates s + count_commas (PropValue prop) + 1 in
    reject (65536 <? len (PropValue prop)) || (maxRemoteExDates <? exDates)
      with too_big "Calendar event data exceeded its exception-date limit" ;;
    Ok (MkRemote (rc_pending s) (rc_components s) (rc_properties s) (rc_overrides s) (rc_events s) (rc_alarms s) exDates)
  else Ok s.
(** The properties of one name; [n] is the number of those of the component
    so far. *)
Definition remote_properties `{MapOrder} (s : remote_counts * Z) (kv : string * list ICalProp)
    : result error (remote_counts * Z) :=
  let '(s, n) := s in
  let '(name, props) := kv in
  reject maxRemotePropertyNameBytes <? len name with too_big "Calendar event data exceeded its property-name limit" ;;
  let n := n + zlen props in
  let s := add_properties (zlen props) s in
  reject (maxRemotePropertiesPerComponent <? n) || (maxRemoteProperties <? rc_properties s)
    with too_big "Calendar event data exceeded its property limit" ;;
  s ← fold_res (remote_property name) props s;
  Ok (s, n).
Definition conflicting_ends (p : Props) : bool :=
  let durations := values_of p "DURATION" in
  let ends := values_of p "DTEND" in
  (1 <? zlen durations) || (1 <? zlen ends) || ((0 <? zlen durations) && (0 <? zlen ends)).
Definition remote_event (p : Props) (s : remote_counts) : result error remote_counts :=
  reject 0 <? zlen (values_of p "RDATE") with protocol "Calendar event uses unsupported RDATE recurrence data" ;;
  reject existsb (λ r, negb (bool_decide (params_Get (PropParams r) "RANGE" = ""))) (values_of p "RECURRENCE-ID")
    with protocol "Calendar event uses unsupported ranged recurrence data" ;;
  reject conflicting_ends p with protocol "Calendar event has conflicting end-time properties" ;;
  _ ← match values_of p "DURATION" with
      | [d] =>
          reject match parseICalDuration (PropValue d) with Ok n => n <=? 0 | Err _ => true end
            with protocol "Calendar event duration is invalid" ;;
          reject isDateOnlyProp (props_Get p "DTSTART") && contains (PropValue d) "T"
            with protocol "Calendar all-day event duration is invalid" ;;
          Ok tt
      | _ => Ok tt
      end;
  let events := rc_events s + 1 in
  reject maxRemoteOverrides + 1 <? events with too_big "Calendar event data exceeded its event-component limit" ;;
  let overrides := rc_overrides s + (if bool_decide (is_Some (props_Get p "RECURRENCE-ID")) then 1 else 0) in
  reject maxRemoteOverrides <? overrides with too_big "Calendar event data exceeded its override limit" ;;
  Ok (MkRemote (rc_pending s) (rc_components s) (rc_properties s) overrides events (rc_alarms s) (rc_exDates s)).
(** One component popped from the stack, its children pushed. *)
Definition remote_component `{MapOrder} (s : remote_counts) (c : Component) : result error remote_counts :=
  reject maxRemotePropertyNameBytes <? len (CompName c)
    with too_big "Calendar event data exceeded its component-name limit" ;;
  let total := rc_components s + 1 in
  let pending := rc_pending s - 1 in
  let children := zlen (CompChildren c) in
  reject (maxRemoteComponents <? total) || (maxRemoteComponents <? total + pending + children)
    with too_big "Calendar event data exceeded its component limit" ;;
  let s := MkRemote (pending + children) total (rc_properties s) (rc_overrides s) (rc_events s) (rc_alarms s) (rc_exDates s) in
  '(s, _) ← fold_res remote_properties (map_order (map_to_list (CompProps c))) (s, 0);
  s ← (if bool_decide (CompName c = "VEVENT") then remote_event (CompProps c) s else Ok s);
  if bool_decide (CompName c = "VALARM") then
    let alarms := rc_alarms s + 1 in
    reject maxRemoteAlarms <? alarms with too_big "Calendar event data exceeded its alarm limit" ;;
    Ok (MkRemote (rc_pending s) (rc_components s) (rc_properties s) (rc_overrides s) (rc_events s) alarms (rc_exDates s))
  else Ok s.
End Reading.

(** The components in the order a stack gives them: the last child first. *)
Fixpoint stack_order (c : Component) : list Component :=
  match c with MkComponent _ _ children => c :: concat (rev (map stack_order children)) end.

(** * Reading an object *)

Record CalendarObject := MkObject { ObjPath : string; ObjData : Component; ObjETag : string }.

Section Objects.
Context `{ICalLib} `{UnicodeTables} `{MapOrder}.
Context (load_location : string → option Location).

(** go-ical's decoder never gives a nil component, so the nil checks of the
    code have no counterpart. *)
Definition validateRemoteCalendar (cal : Component) : result error unit :=
  fold_res remote_component (stack_order cal) (MkRemote 1 0 0 0 0 0 0);;
  Ok tt.

Definition bad_identity : error := protocol "Calendar event data has an invalid VEVENT identity".
Record identity := MkIdentity {
  id_events : Z; id_masters : Z; id_overrides : Z; id_uid : string; id_recurring : bool; id_seen : list Z;
}.
(** One component popped from the stack, and whether it is a child of the
    object itself. *)
Definition identity_step (s : identity) (position : Component * bool) : result error identity :=
  let '(child, direct) := position in
  if negb (bool_decide (CompName child = "VEVENT")) then Ok s
  else
    let p := CompProps child in
    reject negb direct with bad_identity ;;
    match values_of p "UID" with
    | [uidProp] =>
        let value := PropValue uidProp in
        reject bool_decide (value = "") with bad_identity ;;
        reject negb (bool_decide (id_uid s = "")) && negb (bool_decide (value = id_uid s)) with bad_identity ;;
        let ids := values_of p "RECURRENCE-ID" in
        let rules := values_of p "RRULE" in
        reject 1 <? zlen ids with bad_identity ;;
        reject (1 <? zlen rules) || ((zlen ids =? 1) && negb (zlen rules =? 0)) with bad_identity ;;
        match ids with
        | [] => Ok (MkIdentity (id_events s + 1) (id_masters s + 1) (id_overrides s) value (zlen rules =? 1) (id_seen s))
        | rid :: _ =>
            match prop_DateTime rid with
            | Err _ => Err bad_identity
            | Ok t =>
                reject bool_decide (unix t ∈ id_seen s) with bad_identity ;;
                Ok (MkIdentity (id_events s + 1) (id_masters s) (id_overrides s + 1) value (id_recurring s) (unix t :: id_seen s))
            end
        end
    | _ => Err bad_identity
    end.
(** The children of the object are direct, those below are not. *)
Definition positions (cal : Component) : list (Component * bool) :=
  concat (rev (map (λ c, match stack_order c with
                         | c :: below => (c, true) :: map (λ c, (c, false)) below
                         | [] => []
                         end) (CompChildren cal))).
Definition validateCalendarObjectIdentity (cal : Component) (expectedUID : string) : result error unit :=
  s ← fold_res identity_step (positions cal) (MkIdentity 0 0 0 "" false []);
  reject (id_events s =? 0) || negb (id_masters s =? 1) || (negb (id_overrides s =? 0) && negb (id_recurring s))
         || (negb (bool_decide (expectedUID = "")) && negb (bool_decide (id_uid s = expectedUID))) with bad_identity ;;
  Ok tt.

(** [findMasterVEvent]: the first event without a RECURRENCE-ID, with its
    place among the children. *)
Definition is_event (c : Component) : bool := bool_decide (CompName c = "VEVENT").
Definition is_master (c : Component) : bool :=
  is_event c && negb (bool_decide (is_Some (props_Get (CompProps c) "RECURRENCE-ID"))).
Fixpoint find_index {A} (f : A → bool) (l : list A) : option (nat * A) :=
  match l with
  | [] => None
  | a :: l => if f a then Some (O, a) else match find_index f l with Some (i, b) => Some (S i, b) | None => None end
  end.
Definition findMasterVEvent (cal : Component) : result error (nat * Component) :=
  match find_index is_master (CompChildren cal) with
  | Some m => Ok m
  | None => Err (Plain "no master VEVENT found in object")
  end.
Definition calendarHasUID (cal : Component) (uid : string) : bool :=
  existsb (λ c, is_event c && match props_Get (CompProps c) "UID" with
                              | Some p => bool_decide (PropValue p = uid)
                              | None => false
                              end) (CompChildren cal).

(** ** Events *)

Definition text_of (p : Props) (name : string) : string := match props_Get p name with Some v => PropValue v | None => "" end.
Definition date_of (p : Props) (name msg : string) : result error (option gtime) :=
  match props_Get p name with
  | None => Ok None
  | Some v => match prop_DateTime v with Ok t => Ok (Some t) | Err _ => Err (protocol msg) end
  end.
Definition no_time : gtime := GTime zero_time UTC.
(** The end of the event, and how it was given: nominal days and the rest. *)
Definition event_end (p : Props) (start : gtime) (allDay : bool) (end_ : option gtime)
    : result error (gtime * option (Z * Z)) :=
  match end_, props_Get p "DURATION" with
  | Some t, _ => Ok (t, None)
  | None, Some d =>
      match parseICalDuration (PropValue d) with
      | Err _ => Err (protocol "Calendar event duration is invalid")
      | Ok dur =>
          reject dur <=? 0 with protocol "Calendar event duration is invalid" ;;
          match nominalICalDurationParts (PropValue d) dur with
          | Err _ => Err (protocol "Calendar event duration is invalid")
          | Ok (days, remainder) =>
              if days =? 0 then Ok (GTime (instant start + dur) (tzone start), Some (0, remainder))
              else let t := add_date 0 0 days start in Ok (GTime (instant t + remainder) (tzone t), Some (days, remainder))
          end
      end
  | None, None => if allDay then Ok (add_date 0 0 1 start, Some (1, 0)) else Ok (start, None)
  end.
(** The event, and its exception dates. *)
Definition parseVEvent (vevent : Component) (path : string) : result error (Event * list gtime) :=
  let p := CompProps vevent in
  start ← date_of p "DTSTART" "Calendar event start time is invalid";
  let allDay := match props_Get p "DTSTART" with Some v => len (PropValue v) =? 8 | None => false end in
  let timezone := match props_Get p "DTSTART" with Some v => params_Get (PropParams v) "TZID" | None => "" end in
  let startTime := default no_time start in
  end_ ← date_of p "DTEND" "Calendar event end time is invalid";
  '(endTime, nominal) ← event_end p startTime allDay end_;
  rid ← date_of p "RECURRENCE-ID" "Calendar recurrence identifier is invalid";
  exDates ← fold_res (λ out prop, match parseExDateProp load_location prop with
                                 | Ok dates => Ok (out ++ dates)%list
                                 | Err _ => Err (protocol "Calendar exception date is invalid")
                                 end) (values_of p "EXDATE") [];
  let days := match nominal with Some (d, _) => d | None => 0 end in
  let remainder := match nominal with Some (_, r) => r | None => 0 end in
  Ok (MkEvent (text_of p "UID") path "" (text_of p "SUMMARY") (text_of p "LOCATION") (text_of p "DESCRIPTION")
        startTime endTime allDay (text_of p "RRULE") timezone (text_of p "STATUS") (text_of p "TRANSP") (text_of p "URL") ""
        (default no_time rid) (bool_decide (is_Some rid)) [] (negb (days =? 0)) days remainder, exDates).
Definition with_exDates (e : Event) (ex : list gtime) : Event :=
  MkEvent (UID e) (Path e) (EvCalendar e) (Title e) (EvLocation e) (Notes e) (StartTime e) (EndTime e) (AllDay e)
    (Recurrence e) (Timezone e) (EvStatus e) (Transp e) (URL e) (ETag e) (RecurrenceID e) (IsOverride e) ex
    (hasNominalDuration e) (nominalDurationDays e) (nominalDurationRemainder e).
Definition with_etag (e : Event) (etag : string) : Event :=
  MkEvent (UID e) (Path e) (EvCalendar e) (Title e) (EvLocation e) (Notes e) (StartTime e) (EndTime e) (AllDay e)
    (Recurrence e) (Timezone e) (EvStatus e) (Transp e) (URL e) etag (RecurrenceID e) (IsOverride e) (exDates e)
    (hasNominalDuration e) (nominalDurationDays e) (nominalDurationRemainder e).
(** The last event without a RECURRENCE-ID, and the overrides. *)
Definition parse_child (path : string) (s : option Event * list Event) (child : Component) : result error (option Event * list Event) :=
  if is_event child then
    '(e, ex) ← parseVEvent child path;
    Ok (if IsOverride e then (s.1, s.2 ++ [e])%list else (Some (with_exDates e ex), s.2))
  else Ok s.
Definition parseCalendarObject (obj : CalendarObject) : result error (Event * list Event) :=
  validateRemoteCalendar (ObjData obj);;
  validateCalendarObjectIdentity (ObjData obj) "";;
  '(master, overrides) ← fold_res (parse_child (ObjPath obj)) (CompChildren (ObjData obj)) (None, []);
  match master with
  | None => Err (protocol "Calendar event data has no master event")
  | Some m => Ok (m, overrides)
  end.
(** The alarms of the master, at most sixty-four. *)
Definition alarm_info (c : Component) : AlarmInfo :=
  MkAlarmInfo (text_of (CompProps c) "ACTION") (text_of (CompProps c) "TRIGGER")
    (match props_Get (CompProps c) "TRIGGER" with Some p => parseTriggerMinutesBefore (PropValue p) | None => 0 end).
Definition parseAlarms (cal : Component) : list AlarmInfo :=
  match findMasterVEvent cal with
  | Err _ => []
  | Ok (_, master) =>
      take (Z.to_nat maxRemoteAlarms)
        (map alarm_info (List.filter (λ c, bool_decide (CompName c = "VALARM")) (CompChildren master)))
  end.

(** [decodeRemoteCalendar]: the limits come before the decoder. *)
Definition decodeRemoteCalendar (data : list ascii) : result error Component :=
  reject maxGetBodySize <? zlen data with too_big "Calendar event data exceeded its byte limit" ;;
  validateRawICalendar data;;
  match ical_decode data with
  | Some (Ok cal) => Ok cal
  | _ => Err malformed_data
  end.
End Objects.
