(* ===== verification/ICalFacts.v ===== *)
(** What the reader of iCalendar data promises: the text handed to go-ical is
    a bounded, properly nested sequence of lines, and durations are read as
    they are written. *)

From S2P Require Import Prelude GoStrings GoTime CalErrors CalTypes TimePolicy Validation Tools ContactsValidation Recurrence EventInput ICal.

(** * Lines and nesting *)

Section RawFacts.
Context `{UnicodeTables}.

(** The logical lines of a text: a continuation is joined, without its blank,
    to the line it continues. *)
Inductive unfolds : list (list ascii) → list (list ascii) → Prop :=
| unfolds_nil : unfolds [] []
| unfolds_line phys logical line :
    unfolds phys logical → is_fold (strip_cr line) = false → unfolds (phys ++ [line])%list (logical ++ [strip_cr line])%list
| unfolds_fold phys logical last line :
    unfolds phys (logical ++ [last])%list → is_fold (strip_cr line) = true →
    unfolds (phys ++ [line])%list (logical ++ [last ++ drop 1 (strip_cr line)])%list.

(** What a logical line is. *)
Inductive raw_token := TBegin (name : string) | TEnd (name : string) | TProperty | TOther.
Definition raw_token_of (logical : list ascii) : raw_token :=
  match index_byte ":"%char logical with
  | None | Some O => TOther
  | Some colon =>
      let head := take colon logical in
      let head := match index_byte ";"%char head with Some semicolon => take semicolon head | None => head end in
      let value := drop (S colon) logical in
      if equal_fold (str head) "BEGIN" then TBegin (str value)
      else if equal_fold (str head) "END" then TEnd (str value)
      else TProperty
  end.
(** A sequence of components whose nesting is at most [depth]; an end names
    its component, up to the case of letters. *)
Inductive nested : nat → list raw_token → Prop :=
| nested_nil depth : nested depth []
| nested_skip depth t l : (t = TProperty ∨ t = TOther) → nested depth l → nested depth (t :: l)
| nested_component depth name name' inner l :
    nested depth inner → equal_fold_runes name name' = true → nested (S depth) l →
    nested (S depth) (TBegin name :: inner ++ TEnd name' :: l)%list.
Definition begins (l : list raw_token) : Z := zlen (List.filter (λ t, match t with TBegin _ => true | _ => false end) l).
Definition properties (l : list raw_token) : Z := zlen (List.filter (λ t, match t with TProperty => true | _ => false end) l).

Abbreviation names s := (rw_stack s).*1.
Definition raw_limits (s : raw_state) : Prop :=
  rw_logical s <= maxRemoteLogicalLines ∧ rw_components s <= maxRemoteComponents ∧ rw_properties s <= maxRemoteProperties ∧
  zlen (rw_stack s) <= maxRemoteComponentDepth.
(** One line: the stack and the counters. *)
Lemma raw_line_step s line s' : raw_line s line = Ok s' → raw_limits s →
  raw_limits s' ∧ rw_logical s' = rw_logical s + 1 ∧
  match raw_token_of line with
  | TBegin n => names s' = n :: names s ∧ rw_components s' = rw_components s + 1 ∧ rw_properties s' = rw_properties s
  | TEnd n => ∃ m, names s = m :: names s' ∧ equal_fold_runes m n = true ∧ rw_components s' = rw_components s ∧ rw_properties s' = rw_properties s
  | TProperty => names s' = names s ∧ rw_components s' = rw_components s ∧ rw_properties s' = rw_properties s + 1
  | TOther => names s' = names s ∧ rw_components s' = rw_components s ∧ rw_properties s' = rw_properties s
  end.
Proof.
  intros (Hl & Hr)%reject_ok (B1 & B2 & B3 & B4). cbv zeta in Hr. cbn [rw_stack rw_logical rw_components rw_properties] in Hr.
  apply Z.ltb_ge in Hl. unfold raw_token_of, raw_limits, zlen in *.
  destruct (index_byte ":"%char line) as [[|colon]|]; [by injection Hr as <-| |by injection Hr as <-].
  cbv zeta. destruct (equal_fold _ "BEGIN").
  { apply reject_ok in Hr as [_ Hr]. apply reject_ok in Hr as [Hc%Z.ltb_ge Hr]. apply reject_ok in Hr as [Hd%Z.leb_gt [= <-]].
    cbn -[maxRemoteLogicalLines maxRemoteComponents maxRemoteProperties maxRemoteComponentDepth] in *. split_and!; try done; lia. }
  destruct (equal_fold _ "END").
  { destruct (rw_stack s) as [|[m k] rest]; [done|]. apply reject_ok in Hr as [He%negb_false_iff [= <-]].
    cbn -[maxRemoteLogicalLines maxRemoteComponents maxRemoteProperties maxRemoteComponentDepth] in *. split_and!; try done; try lia. by exists m. }
  apply reject_ok in Hr as [Hp%Z.ltb_ge Hr]. destruct (rw_stack s) as [|[m k] rest].
  - injection Hr as <-. cbn -[maxRemoteLogicalLines maxRemoteComponents maxRemoteProperties maxRemoteComponentDepth] in *. split_and!; try done; lia.
  - apply reject_ok in Hr as [_ [= <-]]. cbn -[maxRemoteLogicalLines maxRemoteComponents maxRemoteProperties maxRemoteComponentDepth] in *. split_and!; try done; lia.
Qed.

(** The tokens that close the components of a stack, innermost first. *)
Fixpoint closes (stack : list string) (l : list raw_token) : Prop :=
  match stack with
  | [] => nested (Z.to_nat maxRemoteComponentDepth) l
  | n :: rest =>
      ∃ inner n' l', l = (inner ++ TEnd n' :: l')%list ∧ equal_fold_runes n n' = true ∧
        nested (Z.to_nat maxRemoteComponentDepth - length stack) inner ∧ closes rest l'
  end.
Lemma closes_skip stack t l : (t = TProperty ∨ t = TOther) → closes stack l → closes stack (t :: l).
Proof.
  intros Ht. destruct stack as [|n rest]; cbn [closes]; [by constructor|].
  intros (inner & n' & l' & -> & Hn & Hi & Hc). exists (t :: inner), n', l'. split; [done|]. split; [done|]. split; [by constructor|done].
Qed.
Lemma closes_component stack n l : (length stack < Z.to_nat maxRemoteComponentDepth)%nat →
  closes (n :: stack) l → closes stack (TBegin n :: l).
Proof.
  intros Hd (inner & n' & l' & -> & Hn & Hi & Hc). cbn [length] in Hi. destruct stack as [|m rest]; cbn [closes] in *.
  - replace (Z.to_nat maxRemoteComponentDepth) with (S (Z.to_nat maxRemoteComponentDepth - 1)) in * by lia. cbn [length] in Hi. by constructor.
  - destruct Hc as (inner2 & m' & l2 & -> & Hm & Hi2 & Hc). exists (TBegin n :: inner ++ TEnd n' :: inner2)%list, m', l2.
    split; [by cbn; rewrite <-app_assoc|]. split; [done|]. split; [|done]. cbn [length] in *.
    replace (Z.to_nat maxRemoteComponentDepth - S (length rest))%nat with (S (Z.to_nat maxRemoteComponentDepth - S (S (length rest)))) in * by lia.
    by constructor.
Qed.
Lemma raw_lines_nested lines : ∀ s s', fold_res raw_line lines s = Ok s' → rw_stack s' = [] → raw_limits s →
  closes (names s) (map raw_token_of lines) ∧ raw_limits s' ∧ rw_logical s' = rw_logical s + zlen lines ∧
  rw_components s' = rw_components s + begins (map raw_token_of lines) ∧
  rw_properties s' = rw_properties s + properties (map raw_token_of lines).
Proof.
  induction lines as [|line lines IH]; intros s s'; cbn [fold_res map].
  - intros [= ->] Hs Hb. rewrite Hs. unfold begins, properties, zlen. cbn. split; [constructor|]. split; [done|]. lia.
  - intros (s1 & H1 & H2)%bind_ok Hs Hb. destruct (raw_line_step _ _ _ H1 Hb) as (Hb1 & Hl & Ht).
    destruct (IH _ _ H2 Hs Hb1) as (Hc & Hb' & Hl' & Hn & Hp). rewrite Hn, Hp, Hl', Hl. unfold begins, properties, zlen in *.
    destruct (raw_token_of line); cbn [List.filter length].
    + destruct Ht as (Ht & -> & ->). rewrite Ht in Hc. split_and!; [|apply Hb'|lia..]. apply closes_component; [|done].
      destruct Hb1 as (_ & _ & _ & B). assert (length (names s1) = S (length (names s))) as Hlen by by rewrite Ht. rewrite !length_fmap in *.
      unfold zlen in B. lia.
    + destruct Ht as (m & -> & Hm & -> & ->). split_and!; [|apply Hb'|lia..]. exists [], name, (map raw_token_of lines). split; [done|]. split; [done|].
      split; [constructor|done].
    + destruct Ht as (Ht & -> & ->). rewrite Ht in Hc. split_and!; [|apply Hb'|lia..]. apply closes_skip; [by left|done].
    + destruct Ht as (Ht & -> & ->). rewrite Ht in Hc. split_and!; [|apply Hb'|lia..]. apply closes_skip; [by right|done].
Qed.

(** The text is read as its logical lines; the last one waits for what may
    continue it. *)
Definition reading_text (phys : list (list ascii)) (s : text_state) : Prop :=
  zlen phys = tx_lines s ∧ tx_lines s <= maxRemotePhysicalLines ∧
  match tx_logical s with
  | None => phys = [] ∧ tx_raw s = no_raw
  | Some last_ => ∃ init, unfolds phys (init ++ [last_]) ∧ fold_res raw_line init no_raw = Ok (tx_raw s) ∧
      Forall (λ l, zlen l <= maxRemoteLogicalLineBytes) (init ++ [last_])
  end%list.
Lemma physical_line_reads phys s line s' :
  reading_text phys s → physical_line s line = Ok s' → reading_text (phys ++ [line])%list s'.
Proof.
  intros (Hn & _ & Hs). unfold physical_line. cbv zeta. intros (Hmax%Z.ltb_ge & H1)%reject_ok.
  apply bind_ok in H1 as ([raw l] & H1 & H3). apply reject_ok in H3 as [Hlen%Z.ltb_ge [= <-]].
  unfold reading_text. cbn [tx_lines tx_logical tx_raw]. split; [rewrite <-Hn; unfold zlen; rewrite length_app; cbn; lia|].
  split; [done|]. destruct (is_fold (strip_cr line)) eqn:Hfold.
  - destruct (tx_logical s) as [last_|]; [|done]. injection H1 as <- <-. destruct Hs as (init & Hu & Hr & Hf).
    exists init. split; [by constructor|]. split; [done|]. apply Forall_app in Hf as [Hf _]. apply Forall_app. split; [done|]. by constructor.
  - apply bind_ok in H1 as (raw1 & H1 & [= <- <-]). unfold flush_logical in H1. destruct (tx_logical s) as [last_|].
    + destruct Hs as (init & Hu & Hr & Hf). exists (init ++ [last_])%list. split; [by constructor|].
      split; [rewrite fold_res_app, Hr; cbn; by rewrite H1|]. apply Forall_app. split; [done|]. by constructor.
    + destruct Hs as [-> Hraw]. injection H1 as <-. exists []. split; [apply (unfolds_line [] []); [constructor|done]|].
      split; [cbn; by rewrite Hraw|]. by constructor.
Qed.
Lemma physical_lines_read lines : ∀ phys s s', reading_text phys s → fold_res physical_line lines s = Ok s' →
  reading_text (phys ++ lines)%list s'.
Proof.
  induction lines as [|line lines IH]; intros phys s s' Hs; cbn [fold_res].
  - intros [= <-]. by rewrite app_nil_r.
  - intros (s1 & H1 & H2)%bind_ok. rewrite (cons_middle line), app_assoc. eapply IH; [|exact H2]. by eapply physical_line_reads.
Qed.

(** (C0) The text a server sends reaches go-ical only when its logical lines,
    the folded ones joined, are at most 16384 lines of at most a mebibyte, and
    are properly nested components: every BEGIN is closed by the END of its
    name and nothing is left open, no deeper than 32, at most 1024 components
    and 10000 properties in all. *)
Theorem raw_text_nested data : validateRawICalendar data = Ok tt →
  ∃ logical, unfolds (physical_lines data) logical ∧
    zlen (physical_lines data) <= maxRemotePhysicalLines ∧ zlen logical <= maxRemoteLogicalLines ∧
    Forall (λ l, zlen l <= maxRemoteLogicalLineBytes) logical ∧
    nested (Z.to_nat maxRemoteComponentDepth) (map raw_token_of logical) ∧
    begins (map raw_token_of logical) <= maxRemoteComponents ∧ properties (map raw_token_of logical) <= maxRemoteProperties.
Proof.
  intros (s & H1 & H2)%bind_ok. apply bind_ok in H2 as (raw & H2 & H3). apply reject_ok in H3 as [Hend%negb_false_iff%bool_decide_eq_true _].
  apply (physical_lines_read _ [] _ _) in H1; [|done]. destruct H1 as (Hn & Hmax & Hs). cbn [app] in *.
  assert (raw_limits no_raw) as H0 by done. unfold flush_logical in H2. destruct (tx_logical s) as [last_|].
  - destruct Hs as (init & Hu & Hr & Hf). exists (init ++ [last_])%list.
    assert (fold_res raw_line (init ++ [last_])%list no_raw = Ok raw) as Hall by (rewrite fold_res_app, Hr; cbn; by rewrite H2).
    destruct (raw_lines_nested _ _ _ Hall Hend H0) as (Hc & (B1 & B2 & B3 & _) & E1 & E2 & E3). cbn [rw_logical rw_components rw_properties no_raw] in *.
    split_and!; [done|by rewrite Hn|lia|done|exact Hc|lia|lia].
  - destruct Hs as [Hp _]. exists []. rewrite Hp. split_and!; try done; constructor.
Qed.
End RawFacts.
