(* ===== verification/ICalWrite.v ===== *)
(** Writing iCalendar data (src/internal/icloud/ical.go, and the updates of
    client.go): the object of a new event with its time zone, the changes of
    the master of a series or of one occurrence, exceptions, sequence numbers.

    Properties are values here.  In Go a copied property shares its map of
    parameters with the original; the setters give both the same form (a date
    stays a date, a zone stays that zone), so the sharing changes no value. *)
From S2P Require Import Prelude GoStrings GoTime GoEncode CalErrors CalTypes TimePolicy Validation Tools ContactsValidation Recurrence EventInput ICal.

(** The abbreviation of the zone in force. *)
Class ZoneNames := { zone_name : Location → Z → string }.

(** ["20060102T150405"] of a time, in its own zone. *)
Definition format_basic (t : gtime) : string :=
  let c := t_civil t in
  let secs := t_clock t in
  str (append_int (cyear c) 4 ++ append_int (cmonth c) 2 ++ append_int (cday c) 2 ++ ["T"%char]
       ++ append_int (secs / 3600) 2 ++ append_int (secs / 60 mod 60) 2 ++ append_int (secs mod 60) 2)%list.
Definition utc_day (t : gtime) : gtime := let c := t_civil t in midnight (cyear c) (cmonth c) (cday c) UTC.
Definition in_zone (t : gtime) (loc : Location) : gtime := GTime (instant t) loc.
Definition with_name (name : string) (p : ICalProp) : ICalProp := MkICalProp name (PropParams p) (PropValue p).
Definition with_value (v : string) (p : ICalProp) : ICalProp := MkICalProp (PropName p) (PropParams p) v.

(** [newUID]: sixteen random bytes. *)
Definition newUID_of (nonce : list ascii) : string := hex_encode nonce ++ "@icloud-mcp".

(** * Time zones *)

Definition formatUTCOffset (seconds : Z) : string :=
  let s := Z.abs seconds in
  (if seconds <? 0 then "-" else "+") ++ str (append_int (s / 3600) 2 ++ append_int (s mod 3600 / 60) 2)%list.

Record transition := MkTransition { tr_at : Z; tr_from : Z; tr_to : Z }.
(** The loop over the hours: the sample, the one before, its offset, and the
    changes found; seconds. *)
Record zone_scan := MkScan { sc_sample : Z; sc_previous : Z; sc_offset : Z; sc_found : list transition }.
Definition scan_turn (loc : Location) (end_ : Z) (s : zone_scan) : zone_scan + list transition :=
  let sample := sc_sample s in
  if end_ <? sample then inr (sc_found s)
  else
    let off := offset_at loc (second * sample) in
    if off =? sc_offset s then inl (MkScan (sample + 3600) sample (sc_offset s) (sc_found s))
    else
      let at_ := findTimezoneTransition loc (sc_previous s) sample (sc_offset s) in
      let exact := offset_at loc (second * at_) in
      inl (MkScan (sample + 3600) sample exact (sc_found s ++ [MkTransition at_ (sc_offset s) exact])%list).
(** The hours of the window bound the loop. *)
Definition zone_transitions (loc : Location) (start end_ : Z) : list transition :=
  match iterate (Z.to_pos (Z.max 0 (end_ - start) + 2)) (scan_turn loc end_)
          (MkScan (start + 3600) start (offset_at loc (second * start)) []) with
  | inr found => found
  | inl s => sc_found s
  end.

Section Writing.
Context `{ICalLib} `{UnicodeTables} `{ZoneNames}.
(** [time.LoadLocation]. *)
Context (load_location : string → option Location).

Definition setFloatingDateTime (component : Component) (value : gtime) : Component :=
  with_props (props_Set (CompProps component) (with_value (format_basic value) (NewProp "DTSTART"))) component.
Definition set_text (name value : string) (c : Component) : Component :=
  with_props (props_SetText (CompProps c) name value) c.
Definition set_prop (p : ICalProp) (c : Component) : Component := with_props (props_Set (CompProps c) p) c.
(** An observance: its start, its offsets, its name when it has one. *)
Definition observance (kind : string) (start : gtime) (from to : Z) (name : string) : Component :=
  let c := setFloatingDateTime (NewComponent kind) start in
  let c := set_text "TZOFFSETTO" (formatUTCOffset to) (set_text "TZOFFSETFROM" (formatUTCOffset from) c) in
  if bool_decide (name = "") then c else set_text "TZNAME" name c.
Definition annual_observance (loc : Location) (tr : transition) : Component :=
  let kind := if tr_from tr <? tr_to tr then "DAYLIGHT" else "STANDARD" in
  let wall := GTime (second * (tr_at tr + tr_from tr)) UTC in
  let rule := "FREQ=YEARLY;BYMONTH=" ++ fmt_int (cmonth (t_civil wall)) ++ ";BYDAY=" ++ byDayToken wall in
  set_prop (with_value rule (NewProp "RRULE"))
    (observance kind wall (tr_from tr) (tr_to tr) (zone_name loc (second * tr_at tr))).
Definition last_of {A} (f : A → bool) (l : list A) : option A :=
  fold_left (λ found a, if f a then Some a else found) l None.
(** The most recent change to more and to less at the start of the event. *)
Definition buildVTimezone (loc : Location) (from to : gtime) : option Component :=
  if is_utc loc then None
  else
    let start := unix (add_date (-1) 0 0 (in_utc from)) in
    let end_ := unix (add_date 2 0 0 (in_utc to)) in
    let end_ := if start <? end_ then end_ else unix (add_date 2 0 0 (GTime (second * start) UTC)) in
    let vtz := set_text "TZID" (loc_name loc) (NewComponent "VTIMEZONE") in
    match zone_transitions loc start end_ with
    | [] =>
        let off := offset_at loc (instant from) in
        Some (with_children (CompChildren vtz ++ [observance "STANDARD" (GTime (second * start) loc) off off
                                                    (zone_name loc (instant from))])%list vtz)
    | transitions =>
        let past := List.filter (λ tr, second * tr_at tr <=? instant from) transitions in
        let daylight := last_of (λ tr, tr_from tr <? tr_to tr) past in
        let standard := last_of (λ tr, negb (tr_from tr <? tr_to tr)) past in
        let children := (match daylight with Some tr => [annual_observance loc tr] | None => [] end
                         ++ match standard with Some tr => [annual_observance loc tr] | None => [] end)%list in
        match (CompChildren vtz ++ children)%list with
        | [] => None
        | l => Some (with_children l vtz)
        end
    end.

Definition resolveWriteLocation (ne : NewEvent) : Location :=
  if NewAllDay ne then UTC
  else
    let tz := trim_space (NewTimezone ne) in
    match (if bool_decide (tz = "") then None else load_location tz) with
    | Some loc => loc
    | None =>
        if negb (bool_decide (NewRecurrence ne = "")) && negb (is_utc (tzone (NewStartTime ne)))
        then tzone (NewStartTime ne) else UTC
    end.

(** * A new event *)

Definition normalizeAllDayUntil (rule : string) : string :=
  join (map (λ part,
    match index_byte "="%char (bytes part) with
    | None => part
    | Some i =>
        let key := str (take i (bytes part)) in
        let value := drop (S i) (bytes part) in
        if negb (equal_fold key "UNTIL") || (zlen value <? 8) then part
        else match parse_basic_date (take 8 value) with
             | Some (_, []) => key ++ "=" ++ str (take 8 value)
             | _ => part
             end
    end) (split rule ";"%char)) ";".
Definition alarm_in_range (a : AlarmSpec) : bool :=
  negb (AlarmDisable a) && (0 <? MinutesBefore a) && (MinutesBefore a <=? maxAlarmMinutes).
(** The loop stops after an alarm that fills the list, so the first alarm of a
    full list is still taken. *)
Fixpoint take_alarms (out : list Z) (alarms : list AlarmSpec) : list Z :=
  match alarms with
  | [] => out
  | a :: rest =>
      if alarm_in_range a then
        let out := (out ++ [MinutesBefore a])%list in
        if MaxAlarms <=? zlen out then out else take_alarms out rest
      else take_alarms out rest
  end.
Definition collectCreateAlarms (ne : NewEvent) : list Z :=
  take_alarms (if (0 <? AlarmMinutesBefore ne) && (AlarmMinutesBefore ne <=? maxAlarmMinutes) then [AlarmMinutesBefore ne] else [])
    (NewAlarms ne).
Definition alarm_component (mins : Z) : Component :=
  set_prop (with_value ("-PT" ++ fmt_int mins ++ "M") (NewProp "TRIGGER"))
    (set_text "DESCRIPTION" "Reminder" (set_text "ACTION" "DISPLAY" (NewComponent "VALARM"))).
Definition exdate_prop (ne : NewEvent) (loc : Location) (ex : gtime) : ICalProp :=
  let p := NewProp "EXDATE" in
  if NewAllDay ne then prop_SetDate p (utc_day ex)
  else if negb (is_utc loc) then prop_SetDateTime p (in_zone ex loc)
  else with_value (format_basic (in_utc ex) ++ "Z") p.
Definition set_nonempty (name value : string) (p : Props) : Props :=
  if bool_decide (value = "") then p else props_SetText p name value.

Definition event_dates (ne : NewEvent) (loc : Location) (p : Props) : Props :=
  if NewAllDay ne then
    let startDay := utc_day (NewStartTime ne) in
    let endDay := utc_day (NewEndTime ne) in
    let endDay := if before startDay endDay then endDay else GTime (instant startDay + 24 * hour) UTC in
    props_SetDate (props_SetDate p "DTSTART" startDay) "DTEND" endDay
  else
    let zone := if is_utc loc then UTC else loc in
    props_SetDateTime (props_SetDateTime p "DTSTART" (in_zone (NewStartTime ne) zone)) "DTEND" (in_zone (NewEndTime ne) zone).
Definition rule_prop (ne : NewEvent) (p : Props) : Props :=
  if bool_decide (NewRecurrence ne = "") then p
  else props_Set p (with_value (if NewAllDay ne then normalizeAllDayUntil (NewRecurrence ne) else NewRecurrence ne) (NewProp "RRULE")).
Definition buildEventCalendar (now : gtime) (uid : string) (ne : NewEvent) : Component :=
  let cal := set_text "PRODID" "-//icloud-mcp//EN" (set_text "VERSION" "2.0" NewCalendar) in
  let ev := NewEventComponent in
  let p := props_SetText (props_SetText (CompProps ev) "UID" uid) "SUMMARY" (NewTitle ne) in
  let p := set_nonempty "DESCRIPTION" (NewNotes ne) (set_nonempty "LOCATION" (NewLocation ne) p) in
  let loc := resolveWriteLocation ne in
  let zone := if negb (NewAllDay ne) && negb (is_utc loc)
              then match buildVTimezone loc (NewStartTime ne) (NewEndTime ne) with Some z => [z] | None => [] end else [] in
  let p := props_SetDateTime (event_dates ne loc p) "DTSTAMP" (in_utc now) in
  let p := fold_left (λ p ex, props_Add p (exdate_prop ne loc ex)) (NewExDates ne) (rule_prop ne p) in
  let p := set_nonempty "STATUS" (to_upper (trim_space (NewStatus ne))) p in
  let p := set_nonempty "TRANSP" (to_upper (trim_space (NewTransparency ne))) p in
  let p := set_nonempty "URL" (NewURL ne) p in
  let ev := MkComponent (CompName ev) p (CompChildren ev ++ map alarm_component (collectCreateAlarms ne))%list in
  with_children (CompChildren cal ++ zone ++ [ev])%list cal.

(** * Changing an event *)

(** [setSequence], [incrementSequence]. *)
Definition setSequence (p : Props) (n : Z) : Props := props_Set p (with_value (fmt_int n) (NewProp "SEQUENCE")).
Definition maxSequence : Z := 2147483647.
Definition incrementSequence (p : Props) : result error Props :=
  sequence ← match props_Get p "SEQUENCE" with
             | None => Ok 0
             | Some v =>
                 match parse_int64 (trim_space (PropValue v)) with
                 | Some n => if (n <? 0) || (maxSequence <? n) then Err (protocol "Calendar event sequence is invalid") else Ok n
                 | None => Err (protocol "Calendar event sequence is invalid")
                 end
             end;
  reject maxSequence <=? sequence with protocol "Calendar event sequence cannot be incremented safely" ;;
  Ok (setSequence p (sequence + 1)).

(** The property [name] changed in place: the pointer [Get] gives. *)
Definition put_first (p : Props) (name : string) (v : ICalProp) : Props :=
  match p !! name with
  | Some (_ :: rest) => <[name := v :: rest]> p
  | _ => p
  end.
Definition setDatePropLike (prop reference : ICalProp) (t : gtime) : result error ICalProp :=
  if isDateOnlyProp (Some reference) then Ok (prop_SetDate prop (utc_day t))
  else
    let tzid := params_Get (PropParams reference) "TZID" in
    if negb (bool_decide (tzid = "")) then
      match load_location tzid with
      | None => Err (protocol "Calendar event uses an unknown TZID")
      | Some loc => Ok (prop_SetDateTime prop (in_zone t loc))
      end
    else
      let plain := MkICalProp (PropName prop) (params_Del (PropParams prop) "TZID") (PropValue prop) in
      if has_suffix (PropValue reference) "Z" then Ok (prop_SetDateTime plain (in_utc t))
      else Ok (with_value (format_basic t) plain).
Definition setEventDatePropWithForm (p : Props) (name : string) (t : gtime) (form : option ICalProp) : result error Props :=
  match props_Get p name with
  | Some existing => v ← setDatePropLike existing existing t; Ok (put_first p name v)
  | None =>
      let form := match form with
                  | Some f => Some f
                  | None => if bool_decide (name = "DTEND") then props_Get p "DTSTART" else None
                  end in
      match form with
      | None => Ok (props_SetDateTime p name (in_utc t))
      | Some f => v ← setDatePropLike (with_name name f) f t; Ok (props_Set p v)
      end
  end.
Definition setEventDateProp (p : Props) (name : string) (t : gtime) : result error Props := setEventDatePropWithForm p name t None.
Definition setRecurrenceInstantProp (name : string) (master : Props) (instant_ : gtime) : result error ICalProp :=
  let p := NewProp name in
  match props_Get master "DTSTART" with
  | None => Ok (prop_SetDateTime p (in_utc instant_))
  | Some dtstart =>
      if isDateOnlyProp (Some dtstart) then Ok (prop_SetDate p (utc_day instant_))
      else
        let tzid := params_Get (PropParams dtstart) "TZID" in
        if negb (bool_decide (tzid = "")) then
          match load_location tzid with
          | None => Err (protocol "Calendar event uses an unknown TZID")
          | Some loc => Ok (prop_SetDateTime p (in_zone instant_ loc))
          end
        else if negb (has_suffix (PropValue dtstart) "Z") then Ok (with_value (format_basic instant_) p)
        else Ok (prop_SetDateTime p (in_utc instant_))
  end.

(** ** Durations of an occurrence *)

Inductive eventDurationSpec :=
| eventDurationNone
| eventDurationEnd (allDay : bool) (days elapsed : Z)
| eventDurationDuration (value : string)
| eventDurationImplicitAllDay.
Definition spec_of_end (p : Props) (stProp : ICalProp) (st : gtime) : option eventDurationSpec :=
  match props_Get p "DTEND" with
  | None => None
  | Some ep =>
      match prop_DateTime ep with
      | Err _ => None
      | Ok en =>
          if before st en then
            let elapsed := time_sub (instant en) (instant st) in
            Some (if isDateOnlyProp (Some stProp) && isDateOnlyProp (Some ep)
                  then eventDurationEnd true (Z.quot elapsed (24 * hour)) elapsed
                  else eventDurationEnd false 0 elapsed)
          else None
      end
  end.
Definition spec_of_duration (p : Props) : option eventDurationSpec :=
  match props_Get p "DURATION" with
  | None => None
  | Some dp =>
      match parseICalDuration (PropValue dp) with
      | Err _ => None
      | Ok d =>
          if d <=? 0 then None
          else match nominalICalDurationParts (PropValue dp) d with
               | Ok _ => Some (eventDurationDuration (PropValue dp))
               | Err _ => None
               end
      end
  end.
Definition eventDurationFromEvent (p : Props) : eventDurationSpec :=
  match props_Get p "DTSTART" with
  | None => eventDurationNone
  | Some stProp =>
      match prop_DateTime stProp with
      | Err _ => eventDurationNone
      | Ok st =>
          match spec_of_end p stProp st with
          | Some s => s
          | None =>
              match spec_of_duration p with
              | Some s => s
              | None => if isDateOnlyProp (Some stProp) then eventDurationImplicitAllDay else eventDurationNone
              end
          end
      end
  end.
Definition spec_end (s : eventDurationSpec) (start : gtime) : gtime :=
  match s with
  | eventDurationEnd true days _ => add_date 0 0 days start
  | eventDurationEnd false _ elapsed => GTime (instant start + elapsed) (tzone start)
  | eventDurationImplicitAllDay => add_date 0 0 1 start
  | _ => no_time
  end.
Definition applyOccurrenceDuration (p : Props) (spec : eventDurationSpec) (start : gtime) (startForm endForm : option ICalProp)
    : result error Props :=
  match spec with
  | eventDurationEnd _ _ _ => setEventDatePropWithForm (props_Del p "DURATION") "DTEND" (spec_end spec start) endForm
  | eventDurationDuration value => Ok (props_Set (props_Del p "DTEND") (with_value value (NewProp "DURATION")))
  | eventDurationImplicitAllDay => setEventDatePropWithForm (props_Del p "DURATION") "DTEND" (spec_end spec start) startForm
  | eventDurationNone => Ok (props_Del (props_Del p "DTEND") "DURATION")
  end.

(** ** Fields *)

(** A field that may be left, cleared or set. *)
Definition patch_text (name : string) (value : option string) (p : Props) : Props :=
  match value with
  | None => p
  | Some v => if bool_decide (v = "") then props_Del p name else props_SetText p name v
  end.
Definition upper_text (v : option string) : option string := option_map (λ s, to_upper (trim_space s)) v.
Definition applyFieldUpdate (p : Props) (up : EventUpdate) : result error Props :=
  let p := patch_text "DESCRIPTION" (UpNotes up) (patch_text "LOCATION" (UpLocation up) (patch_text "SUMMARY" (UpTitle up) p)) in
  p ← match UpStartTime up with Some t => setEventDateProp p "DTSTART" t | None => Ok p end;
  p ← match UpEndTime up with
      | Some t => p ← setEventDateProp p "DTEND" t; Ok (props_Del p "DURATION")
      | None => Ok p
      end;
  let p := patch_text "TRANSP" (upper_text (UpTransparency up)) (patch_text "STATUS" (upper_text (UpStatus up)) p) in
  Ok (patch_text "URL" (UpURL up) p).
(** The end of the event comes after its start. *)
Definition ordered_dates (p : Props) : result error unit :=
  match props_Get p "DTSTART", props_Get p "DTEND" with
  | Some s, Some e =>
      match prop_DateTime s, prop_DateTime e with
      | Ok newStart, Ok newEnd =>
          reject negb (before newStart newEnd)
            with Plain ("invalid update: end (" ++ format_rfc3339 newEnd ++ ") must be after start (" ++ format_rfc3339 newStart ++ ")") ;;
          Ok tt
      | _, _ => Ok tt
      end
  | _, _ => Ok tt
  end.

(** ** One occurrence *)

Definition occurrenceCopyProps : list string :=
  ["UID"; "SUMMARY"; "DESCRIPTION"; "LOCATION"; "DTSTART"; "DTEND"; "DURATION"; "STATUS"; "TRANSP"; "URL"; "CLASS";
   "CATEGORIES"; "DTSTAMP"; "CREATED"; "LAST-MODIFIED"; "SEQUENCE"].
(** The instant a component is an override of. *)
Definition override_of (recID : gtime) (c : Component) : bool :=
  is_event c && match props_Get (CompProps c) "RECURRENCE-ID" with
                | Some p => match prop_DateTime p with Ok t => unix t =? unix recID | Err _ => false end
                | None => false
                end.
(** A new override carries the properties of the master that are safe to
    copy. *)
Definition new_override (master : Props) (recID : gtime) : result error Component :=
  let copied := fold_left (λ p name, fold_left props_Add (values_of master name) p) occurrenceCopyProps (CompProps NewEventComponent) in
  rid ← setRecurrenceInstantProp "RECURRENCE-ID" master recID;
  Ok (with_props (props_Set copied rid) NewEventComponent).
Definition patch_override (created : bool) (recID : gtime) (up : EventUpdate) (p : Props) : result error Props :=
  let spec := eventDurationFromEvent p in
  let startForm := props_Get p "DTSTART" in
  let endForm := props_Get p "DTEND" in
  let start := match UpStartTime up with Some t => Some t | None => if created then Some recID else None end in
  p ← (if created && bool_decide (UpStartTime up = None) then setEventDatePropWithForm p "DTSTART" recID startForm else Ok p);
  p ← applyFieldUpdate p up;
  p ← match start, UpEndTime up with
      | Some t, None => applyOccurrenceDuration p spec t startForm endForm
      | _, _ => Ok p
      end;
  ordered_dates p;;
  Ok p.
(** The children of the object, with the override changed or added. *)
Definition applyOccurrenceUpdate (children : list Component) (master : Props) (recID : gtime) (up : EventUpdate)
    : result error (list Component) :=
  match find_index (override_of recID) children with
  | Some (i, c) => p ← patch_override false recID up (CompProps c); Ok (<[i := with_props p c]> children)
  | None =>
      c ← new_override master recID;
      p ← patch_override true recID up (CompProps c);
      Ok (children ++ [with_props p c])%list
  end.

(** An exception of the series, and the override of that instant dropped;
    [None] when nothing is left to do. *)
Definition excluded (master : Props) (recID : gtime) : bool :=
  existsb (λ p, match parseExDateProp load_location p with
                | Ok dates => existsb (λ d, unix d =? unix recID) dates
                | Err _ => false
                end) (values_of master "EXDATE").
Definition exclude_occurrence (children : list Component) (index : nat) (master : Component) (recID : gtime)
    : result error (option (list Component * nat * Component)) :=
  let already := excluded (CompProps master) recID in
  let removed := existsb (override_of recID) children in
  if already && negb removed then Ok None
  else
    p ← (if already then Ok (CompProps master)
         else ex ← setRecurrenceInstantProp "EXDATE" (CompProps master) recID; Ok (props_Add (CompProps master) ex));
    let keep c := negb (override_of recID c) in
    Ok (Some (List.filter keep children, length (List.filter keep (take index children)), with_props p master)).
End Writing.
