(* ===== verification/CalDav.v ===== *)
(** CalDAV requests (src/internal/icloud/dav.go, discovery.go, calendars.go,
    and the requests of client.go): redirects, the checks of every URL, the
    classification of failures, discovery of the account's shard, listing,
    reading, conditional writing and deleting.

    One HTTP exchange is the class [CalNet] on the outside state; the log
    holds every request handed to it, in order.  The closing of response
    bodies is not recorded. *)
From S2P Require Import Prelude GoStrings GoTime NetUrl CalErrors CalTypes Validation Retry Tools ContactsValidation ContactsXml EventInput Allowlist CalXml ICal.

Definition maxCalendarRedirects : nat := 3.
Definition maxPropfindBodySize : Z := 8388608.
Definition maxReportBodySize : Z := 33554432.

Record HttpRequest := MkHttpRequest {
  hq_method : string; hq_url : string; hq_header : list (string * string); hq_body : option (list ascii);
}.
(** [Header.Values]; the URL and the method of [resp.Request]; the bytes of the
    body and whether reading them ends in an error. *)
Record HttpResponse := MkHttpResponse {
  hp_status : Z; hp_header : string → list string; hp_request : option (option NetUrl.URL * string);
  hp_body : list ascii * bool; ContentLength : Z;
}.
Definition header_get (h : string → list string) (key : string) : string :=
  match h key with v :: _ => v | [] => "" end.

Class CalNet (W : Type) := {
  cal_do : HttpRequest → W → W * (option HttpResponse * option error);
  cal_now : W → W * gtime;
  (** [rand.Read] of sixteen bytes. *)
  cal_random : W → W * result error (list ascii);
}.
(** [mime.ParseMediaType]; whether [http.ParseTime] accepts a date. *)
Class CalHeaders := { media_type_of : string → option string; http_time_ok : string → bool }.

(** The fields of [Client] that change: the result of the discovery, and the
    object locations. *)
Record discoveryResult := MkDiscovery { shardBase : string; homeSetPath : string }.
Record client := MkClient { cl_discovered : option discoveryResult; cl_locations : eventLocationCache }.
Definition new_client : client := MkClient None newEventLocationCache.

Definition outcome_unknown (status : Z) : error := Typed (outcomeUnknownError status).
Definition mutating (method : string) : bool := isCalendarMutationMethod method.

Section Urls.
(** [c.allowHost]. *)
Context `{UnicodeTables} (allowHost : option (string → bool)).

(** The default port is that of https. *)
Definition origin_port (u : NetUrl.URL) : string :=
  if negb (bool_decide (Port u = "")) then Port u else if bool_decide (Scheme u = "https") then "443" else "".
Definition sameDAVOrigin (a b : NetUrl.URL) : bool :=
  equal_fold_runes (Scheme a) (Scheme b) && equal_fold_runes (Hostname a) (Hostname b)
  && bool_decide (origin_port a = origin_port b).
Definition davOrigin (u : NetUrl.URL) : string := Scheme u ++ "://" ++ UrlHost u.
Definition plain_https (u : NetUrl.URL) : bool :=
  bool_decide (Scheme u = "https") && negb (bool_decide (UrlHost u = "")) && bool_decide (Opaque u = "")
  && bool_decide (User u = None) && bool_decide (RawQuery u = "") && bool_decide (Fragment u = "").
Definition host_allowed (u : NetUrl.URL) : bool := match allowHost with Some allow => allow (Hostname u) | None => false end.

Definition validateCalendarRequestURL (shard : string) (target : NetUrl.URL) (scopePath : string) : result error unit :=
  reject negb (plain_https target) || ForceQuery target with protocol "Calendar DAV URL failed scheme or authority validation" ;;
  reject negb (host_allowed target) with protocol "Calendar DAV URL is outside the domain allowlist" ;;
  reject IsICloudHost (Hostname target) && negb (PortAllowed (Port target)) with protocol "Calendar DAV URL uses a disallowed port" ;;
  let escapedPath := EscapedPath target in
  reject negb (is_ok (ValidateCalendarPath escapedPath)) with protocol "Calendar DAV URL path is invalid" ;;
  if bool_decide (scopePath = "") then Ok tt
  else
    reject match Parse shard with Some s => negb (sameDAVOrigin target s) | None => true end
      with protocol "Calendar DAV request left the discovered shard" ;;
    reject negb (pathUnderHomeSet escapedPath scopePath)
      with protocol "Calendar DAV request left the selected calendar collection" ;;
    Ok tt.
Definition bad_href (href : string) (ref : NetUrl.URL) : bool :=
  negb (bool_decide (Opaque ref = "")) || negb (bool_decide (User ref = None)) || negb (bool_decide (RawQuery ref = ""))
  || negb (bool_decide (Fragment ref = "")) || ForceQuery ref || contains_any href "?#".
Definition resolveDAVHref (shard : string) (base : NetUrl.URL) (href scopePath : string) : result error NetUrl.URL :=
  let invalid := protocol "Calendar DAV response contains an invalid href" in
  reject bool_decide (href = "") || (4096 <? len href) with invalid ;;
  match Parse href with
  | None => Err invalid
  | Some ref =>
      reject bad_href href ref with invalid ;;
      let resolved := ResolveReference base ref in
      reject negb (sameDAVOrigin resolved base) with protocol "Calendar DAV href changed origin" ;;
      validateCalendarRequestURL shard resolved scopePath;;
      Ok resolved
  end.
Definition validateDiscoveryURL (u : NetUrl.URL) (kind : string) : result error unit :=
  reject negb (plain_https u) || negb (host_allowed u)
    with Plain ("iCloud discovery: " ++ kind ++ " outside allowlist (" ++ Hostname u ++ ")") ;;
  reject IsICloudHost (Hostname u) && negb (PortAllowed (Port u))
    with Plain ("iCloud discovery: " ++ kind ++ " port " ++ fmt_quote (Port u) ++ " rejected (443 only)") ;;
  reject negb (is_ok (ValidateCalendarPath (EscapedPath u))) with protocol ("iCloud discovery returned an invalid " ++ kind ++ " path") ;;
  Ok tt.
Definition resolveDiscoveryHref (base : NetUrl.URL) (href kind : string) : result error NetUrl.URL :=
  let invalid := protocol ("iCloud discovery returned an invalid " ++ kind ++ " href") in
  reject bool_decide (href = "") || (4096 <? len href) with invalid ;;
  match Parse href with
  | None => Err invalid
  | Some ref =>
      reject bad_href href ref with invalid ;;
      let resolved := ResolveReference base ref in
      validateDiscoveryURL resolved kind;;
      Ok resolved
  end.
Definition resolvePathOnBase (base path : string) : result error string :=
  ValidateCalendarPath path;;
  match Parse base with
  | None => Err (Plain "invalid base")
  | Some b =>
      reject negb (plain_https b) with Plain "invalid Calendar base URL" ;;
      match Parse path with
      | None => Err (Plain "invalid path")
      | Some r =>
          reject negb (bool_decide (Scheme r = "")) || negb (bool_decide (UrlHost r = "")) || negb (bool_decide (User r = None))
                 || negb (bool_decide (RawQuery r = "")) || negb (bool_decide (Fragment r = "")) || negb (bool_decide (Opaque r = ""))
            with Plain "calendar path must not include a host or scheme" ;;
          let out := ResolveReference b r in
          reject negb (sameDAVOrigin out b) with Plain "calendar path resolves outside base host" ;;
          Ok (url_string out)
      end
  end.
End Urls.

(** [readBoundedCalendarBody]. *)
Definition readBoundedCalendarBody (body : list ascii * bool) (limit : Z) (message : string) : result error (list ascii) :=
  if limit <? zlen body.1 then Err (too_big message)
  else if body.2 then Err (protocol "failed to read a Calendar DAV response")
  else Ok body.1.

(** The texts of the requests. *)
Definition quoted (s : string) : string := str [quote_byte] ++ s ++ str [quote_byte].
Definition lines (l : list string) : string := join l (str ["010"%char]).
Definition propfind_body (namespaces : string) (props : list string) : string :=
  let head := "<?xml version=" ++ quoted "1.0" ++ " encoding=" ++ quoted "UTF-8" ++ "?>" in
  let root := "<A:propfind xmlns:A=" ++ quoted "DAV:" ++ namespaces ++ ">" in
  lines ([head; root; "  <A:prop>"] ++ map (λ p, "    <" ++ p ++ "/>")%string props ++ ["  </A:prop>"; "</A:propfind>"])%list.
Definition caldav_ns : string := " xmlns:C=" ++ quoted "urn:ietf:params:xml:ns:caldav".
Definition propfindPrincipalBody : string := propfind_body "" ["A:current-user-principal"].
Definition propfindHomeSetBody : string := propfind_body caldav_ns ["C:calendar-home-set"].
Definition propfindCalendarsBody : string :=
  propfind_body (caldav_ns ++ " xmlns:IC=" ++ quoted "http://apple.com/ns/ical/")
    ["A:resourcetype"; "A:displayname"; "C:calendar-description"; "C:supported-calendar-component-set"; "IC:calendar-color"].
(** ["20060102T150405Z"] of an instant, in UTC. *)
Definition time_range_filter (start end_ : gtime) : string :=
  "<C:filter><C:comp-filter name=" ++ quoted "VCALENDAR" ++ "><C:comp-filter name=" ++ quoted "VEVENT" ++ ">"
  ++ "<C:time-range start=" ++ quoted (until_text start) ++ " end=" ++ quoted (until_text end_) ++ "/>"
  ++ "</C:comp-filter></C:comp-filter></C:filter>".
Definition report_body (filterXML : string) : string :=
  "<?xml version=" ++ quoted "1.0" ++ " encoding=" ++ quoted "utf-8" ++ "?>"
  ++ "<C:calendar-query xmlns:D=" ++ quoted "DAV:" ++ caldav_ns ++ ">"
  ++ "<D:prop><D:getetag/><C:calendar-data/></D:prop>" ++ filterXML ++ "</C:calendar-query>".

Section Dav.
Context {W : Type} `{CalNet W} `{Ctx W} `{CalHeaders} `{XMLTokens} `{ICalLib} `{UnicodeTables} `{MapOrder}.
Context (allowHost : option (string → bool)) (http_configured : bool).
(** [c.baseURL], without a trailing slash. *)
Context (baseURL : string).

Abbreviation St := ((W * client) * list HttpRequest)%type.
Abbreviation D := (M St error).
Definition log (r : HttpRequest) : D unit := λ st, ((st.1, st.2 ++ [r])%list, Ok tt).
Definition world {A} (f : W → W * A) : D A := λ st, let '(w, a) := f st.1.1 in (((w, st.1.2), st.2), Ok a).
Definition on_client {A} (f : client → client * A) : D A := λ st, let '(c, a) := f st.1.2 in (((st.1.1, c), st.2), Ok a).

(** ** One request, with its redirects *)

(** What a failed [Do] means. *)
Definition do_error (method : string) (e : error) : error :=
  if mutating method && match AsICloudError e with None => true | Some _ => false end then outcome_unknown 0
  else if is_context_error e then Typed (calendarContextError e)
  else e.
Definition is_redirect (status : Z) : bool := (status =? 301) || (status =? 302) || (status =? 307) || (status =? 308).
Definition status_error (status : Z) (msg : string) : error := Typed (NewError CodeProtocolError status msg None).
Definition bad_redirect (status : Z) : error := status_error status "Calendar redirect limit exceeded or Location was invalid".
(** The response, with the URL it came from, or the status of a redirect and
    its Location. *)
Definition on_response (method : string) (current : NetUrl.URL) (resp : HttpResponse)
    : result error ((HttpResponse * NetUrl.URL) + (Z * string)) :=
  let status := hp_status resp in
  let moved := match hp_request resp with
               | Some (Some u, m) => negb (bool_decide (url_string u = url_string current)) || negb (bool_decide (m = method))
               | Some (None, _) => true
               | None => false
               end in
  let responseURL := match hp_request resp with Some (Some u, _) => u | _ => current end in
  reject moved with (if mutating method then outcome_unknown 0
                     else protocol "the Calendar HTTP client followed an automatic redirect") ;;
  reject mutating method && (status =? 429) with Typed (classifyStatus status) ;;
  reject mutating method && ((status =? 408) || (500 <=? status) || ((300 <=? status) && (status <? 400)))
    with outcome_unknown status ;;
  if is_redirect status then Ok (inr (status, header_get (hp_header resp) "Location"))
  else
    reject status =? 303 with status_error status "Calendar DAV does not allow 303 redirects" ;;
    reject (300 <=? status) && (status <? 400) with status_error status "Calendar DAV received an unsupported redirect status" ;;
    Ok (inl (resp, responseURL)).
(** One exchange. *)
Definition exchange (shard method : string) (current : NetUrl.URL) (headers : list (string * string)) (body : option (list ascii))
    (scopePath : string) : D ((HttpResponse * NetUrl.URL) + (Z * string)) :=
  ended ← world ctx_Err;
  match ended with Some e => fail (Typed (calendarContextError e)) | None => mret tt end;;
  lift (validateCalendarRequestURL allowHost shard current scopePath);;
  fail_if (negb (bool_decide (is_Some (Parse (url_string current)))))
    (Typed (NewError CodeInternal 0 "failed to build a Calendar DAV request" None));;
  let req := MkHttpRequest method (url_string current) headers body in
  log req;;
  '(resp, err) ← world (cal_do req);
  match err with
  | Some e => fail (do_error method e)
  | None =>
      match resp with
      | None => fail (if mutating method then outcome_unknown 0 else protocol "Calendar HTTP client returned no response")
      | Some resp => lift (on_response method current resp)
      end
  end.
Definition next_hop (shard : string) (current : NetUrl.URL) (status : Z) (location scopePath : string) : result error NetUrl.URL :=
  match Parse location with
  | None => Err (status_error status "Calendar redirect Location was invalid")
  | Some next =>
      let resolved := ResolveReference current next in
      validateCalendarRequestURL allowHost shard resolved scopePath;;
      Ok resolved
  end.
(** [hops] redirects may still be followed. *)
Fixpoint request_loop (hops : nat) (shard method : string) (current : NetUrl.URL) (headers : list (string * string))
    (body : option (list ascii)) (scopePath : string) : D (HttpResponse * NetUrl.URL) :=
  answer ← exchange shard method current headers body scopePath;
  match answer with
  | inl r => mret r
  | inr (status, location) =>
      match hops with
      | O => fail (bad_redirect status)
      | S hops =>
          fail_if (bool_decide (location = "") || (4096 <? len location)) (bad_redirect status);;
          next ← lift (next_hop shard current status location scopePath);
          request_loop hops shard method next headers body scopePath
      end
  end.
Definition doCalendarRequest (shard method target : string) (headers : list (string * string)) (body : option (list ascii))
    (scopePath : string) : D (HttpResponse * NetUrl.URL) :=
  fail_if (negb http_configured) (Typed (NewError CodeInternal 0 "Calendar HTTP client is not configured" None));;
  match Parse target with
  | None => fail (protocol "Calendar DAV target is invalid")
  | Some current => request_loop maxCalendarRedirects shard method current headers body scopePath
  end.

(** ** Discovery *)

Definition propfind (shard target depth body scopePath : string) : D (list msResponse * NetUrl.URL) :=
  '(resp, url) ← map_err (Wrapped "Calendar PROPFIND request failed: ")
    (doCalendarRequest shard "PROPFIND" target
       [("Content-Type", "text/xml; charset=" ++ quoted "utf-8"); ("Depth", depth)] (Some (bytes body)) scopePath);
  fail_if (negb (hp_status resp =? 207)) (Typed (classifyStatus (hp_status resp)));;
  data ← lift (readBoundedCalendarBody (hp_body resp) maxPropfindBodySize "Calendar PROPFIND response is too large");
  lift (validatePropfindMultiStatus data (hp_status resp));;
  match unmarshal_multistatus (xml_tokens data).1 with
  | None => fail (status_error (hp_status resp) "Calendar PROPFIND response is malformed")
  | Some responses => mret (responses, url)
  end.
Definition only_href (what : string) (hrefs : list string) : result error string :=
  match hrefs with
  | [h] => if bool_decide (h = "") then Err (protocol ("iCloud discovery did not return exactly one " ++ what)) else Ok h
  | _ => Err (protocol ("iCloud discovery did not return exactly one " ++ what))
  end.
Definition doDiscover : D discoveryResult :=
  '(responses, url) ← propfind "" (baseURL ++ "/") "0" propfindPrincipalBody "";
  principal ← lift (only_href "current-user-principal" (principalHrefsFromMultistatus responses));
  principalURL ← lift (resolveDiscoveryHref allowHost url principal "principal");
  '(responses2, url2) ← propfind "" (url_string principalURL) "0" propfindHomeSetBody "";
  homeSet ← lift (only_href "calendar-home-set" (homeSetHrefsFromMultistatus responses2));
  homeSetURL ← lift (resolveDiscoveryHref allowHost url2 homeSet "home-set");
  mret (MkDiscovery (davOrigin homeSetURL) (EscapedPath homeSetURL)).
(** A caller for whom no other discovery is in progress. *)
Definition discover : D discoveryResult :=
  known ← on_client (λ c, (c, cl_discovered c));
  match known with
  | Some d => mret d
  | None =>
      d ← doDiscover;
      on_client (λ c, (MkClient (Some d) (cl_locations c), tt));;
      mret d
  end.

(** ** Calendars *)

Definition pathHasSegment (path segment : string) : bool :=
  if bool_decide (path = "") || bool_decide (segment = "") then false else bool_decide (segment ∈ split path "/"%char).
Definition supportsVEvent (comps : list string) : bool :=
  match comps with [] => true | _ => bool_decide ("VEVENT" ∈ comps) end.
Definition technical (path : string) : bool :=
  pathHasSegment path "inbox" || pathHasSegment path "outbox" || pathHasSegment path "notification".
Definition calendar_collection (p : msProp) : bool :=
  match MpResourceType p with
  | Some t => RtCalendar t && negb (RtScheduleInbox t) && negb (RtScheduleOutbox t)
  | None => false
  end.
Definition list_response (d : discoveryResult) (url : NetUrl.URL) (out : list Calendar) (r : msResponse) : result error (list Calendar) :=
  match mergedOKProp r with
  | None => Ok out
  | Some p =>
      if negb (calendar_collection p) then Ok out
      else
        resolved ← resolveDAVHref allowHost (shardBase d) url (MsHref r) (homeSetPath d);
        let path := EscapedPath resolved in
        if technical path || match MpSupportedComps p with Some s => negb (supportsVEvent (Comps s)) | None => false end then Ok out
        else Ok (out ++ [MkCalendar path (MpDisplayName p) (MpDescription p) (MpColor p)])%list
  end.
Definition listCalendars : D (list Calendar) :=
  d ← discover;
  target ← (match resolvePathOnBase (shardBase d) (homeSetPath d) with
            | Ok t => mret t
            | Err _ => fail (protocol "discovered Calendar home-set URL is invalid")
            end);
  '(responses, url) ← map_err (Wrapped "listing calendars: ")
                        (propfind (shardBase d) target "1" propfindCalendarsBody (homeSetPath d));
  lift (fold_res (list_response d url) responses []).

(** ** Objects *)

Definition bad_content_type (h : string → list string) : bool :=
  match media_type_of (header_get h "Content-Type") with
  | Some t => negb (equal_fold t "text/calendar")
  | None => true
  end.
Definition getCalendarObject (shard calendarPath objectPath : string) : D CalendarObject :=
  target ← (match resolvePathOnBase shard objectPath with
            | Ok t => mret t
            | Err _ => fail (protocol "Calendar object path is invalid")
            end);
  '(resp, url) ← doCalendarRequest shard "GET" target [("Accept", "text/calendar")] None calendarPath;
  let status := hp_status resp in
  fail_if (negb (Z.quot status 100 =? 2)) (Typed (classifyStatus status));;
  let large := "Calendar GET response exceeded its byte limit" in
  fail_if (maxGetBodySize <? ContentLength resp) (Typed (NewError CodePayloadTooLarge status large None));;
  data ← lift (readBoundedCalendarBody (hp_body resp) maxGetBodySize large);
  fail_if (bad_content_type (hp_header resp)) (status_error status "Calendar GET response has an invalid content type");;
  cal ← lift (decodeRemoteCalendar data);
  lift (validateRemoteCalendar cal);;
  lift (validateCalendarObjectIdentity cal "");;
  fail_if (existsb (λ t, maxETagBytes <? len t) (hp_header resp "ETag"))
    (Typed (NewError CodePayloadTooLarge status "Calendar ETag exceeded its byte limit" None));;
  etag ← (match Validation.strongETagFromHeader (hp_header resp "ETag") with
          | Ok t => mret t
          | Err _ => fail (status_error status "Calendar GET response has an invalid ETag")
          end);
  let modified := header_get (hp_header resp) "Last-Modified" in
  fail_if (negb (bool_decide (modified = "")) && negb (http_time_ok modified))
    (status_error status "Calendar GET response has invalid metadata");;
  mret (MkObject (EscapedPath url) cal etag).

(** A row of a report, as an object. *)
Definition report_object (shard : string) (url : NetUrl.URL) (calendarPath : string) (status : Z) (objs : list CalendarObject)
    (r : msResponse) : result error (list CalendarObject) :=
  match mergedOKProp r with
  | None => Ok objs
  | Some p =>
      if bool_decide (MpCalendarData p = "") then Ok objs
      else
        cal ← decodeRemoteCalendar (bytes (MpCalendarData p));
        validateRemoteCalendar cal;;
        validateCalendarObjectIdentity cal "";;
        match strongETagFromResponse r with
        | Err _ => Err (status_error status "Calendar REPORT response has an invalid ETag")
        | Ok etag =>
            reject maxETagBytes <? len etag with Typed (NewError CodePayloadTooLarge status "Calendar ETag exceeded its byte limit" None) ;;
            resolved ← resolveDAVHref allowHost shard url (MsHref r) calendarPath;
            Ok (objs ++ [MkObject (EscapedPath resolved) cal etag])%list
        end
  end.
Definition reportCalendarQuery (shard calendarPath filterXML : string) : D (list CalendarObject) :=
  target ← (match resolvePathOnBase shard calendarPath with
            | Ok t => mret t
            | Err e => fail (Wrapped "invalid calendar URL: " e)
            end);
  '(resp, url) ← map_err (Wrapped "REPORT request failed: ")
    (doCalendarRequest shard "REPORT" target
       [("Content-Type", "application/xml; charset=" ++ quoted "utf-8"); ("Depth", "1")] (Some (bytes (report_body filterXML))) calendarPath);
  let status := hp_status resp in
  fail_if (negb (status =? 207)) (Typed (classifyStatus status));;
  data ← lift (readBoundedCalendarBody (hp_body resp) maxReportBodySize "Calendar REPORT response exceeded its byte limit");
  responses ← lift (decodeReportMultiStatus data status);
  lift (fold_res (report_object shard url calendarPath status) responses []).

(** ** Conditional writes *)

(** A tag the caller or the server gave, in its wire form. *)
Definition match_tag (etag : string) : result error string :=
  match Validation.parseStrongETag etag with Ok t => Ok t | Err _ => Err (protocol "Calendar mutation has an invalid ETag") end.
Definition putCalendarObjectIfMatch (calendarPath path etag : string) (cal : Component) (ifNoneMatch : string) : D unit :=
  d ← discover;
  data ← (match ical_encode cal with
          | Ok data => mret data
          | Err msg => fail (Wrapped "encoding event for update: " (Plain msg))
          end);
  target ← (match resolvePathOnBase (shardBase d) path with
            | Ok t => mret t
            | Err e => fail (Wrapped "invalid event URL: " e)
            end);
  precondition ← (if bool_decide (etag = "") then mret []
                  else t ← lift (match_tag etag); mret [("If-Match", t)]);
  let headers := ([("Content-Type", "text/calendar; charset=utf-8")] ++ precondition
                  ++ (if bool_decide (ifNoneMatch = "") then [] else [("If-None-Match", ifNoneMatch)]))%list in
  '(resp, _) ← doCalendarRequest (shardBase d) "PUT" target headers (Some data) calendarPath;
  let status := hp_status resp in
  if status =? 412 then
    fail (if negb (bool_decide (ifNoneMatch = "")) && bool_decide (etag = "")
          then Typed (NewError CodeConflict status "event already exists; not overwriting" None)
          else Typed (classifyStatus status))
  else if Z.quot status 100 =? 2 then mret tt
  else fail (Typed (classifyStatus status)).
Definition etag_unavailable (what : string) : error :=
  Typed (NewError CodeConcurrentModification 412
    ("etag unavailable for conditional " ++ what ++ "; re-read with get_event and pass etag") None).
Definition deleteCalendarObjectIfMatch (calendarPath path etag : string) : D unit :=
  d ← discover;
  fail_if (bool_decide (etag = "")) (etag_unavailable "delete");;
  target ← (match resolvePathOnBase (shardBase d) path with
            | Ok t => mret t
            | Err e => fail (Wrapped "invalid event URL: " e)
            end);
  t ← lift (match_tag etag);
  '(resp, _) ← doCalendarRequest (shardBase d) "DELETE" target [("If-Match", t)] None calendarPath;
  let status := hp_status resp in
  if status =? 412 then fail (Typed (classifyStatus status))
  else if (status =? 404) || (Z.quot status 100 =? 2) then mret tt
  else fail (Typed (classifyStatus status)).
End Dav.
