(* ===== verification/CalClient.v ===== *)
(** The CalDAV client (src/internal/icloud/client.go): the six operations of
    the [Service] interface, over the requests of CalDav and the objects of
    ICal and ICalWrite. *)
From S2P Require Import Prelude GoStrings GoTime NetUrl CalErrors CalTypes TimePolicy Validation Retry Tools ContactsValidation ContactsXml Recurrence EventInput Allowlist CalXml ICal ICalWrite CalDav.

Definition maxEventsPerCalendarSearch : Z := 2500.
(** [50 * 365 * 24 * time.Hour]. *)
Definition uidLookupWindow : Z := 438000 * hour.

Section Client.
Context {W : Type} `{CalNet W} `{Ctx W} `{CalHeaders} `{XMLTokens} `{ICalLib} `{ZoneNames} `{RRuleLib} `{UnicodeTables} `{MapOrder}.
Context (allowHost : option (string → bool)) (http_configured : bool) (baseURL : string).
Context (load_location : string → option Location).

Abbreviation St := ((W * client) * list HttpRequest)%type.
Abbreviation D := (M St error).
Abbreviation discover_ := (discover allowHost http_configured baseURL).
Abbreviation get_object := (getCalendarObject allowHost http_configured).
Abbreviation report := (reportCalendarQuery allowHost http_configured).
Abbreviation put_object := (putCalendarObjectIfMatch allowHost http_configured baseURL).
Abbreviation delete_object := (deleteCalendarObjectIfMatch allowHost http_configured baseURL).

Definition code_of (e : error) : option Code := match AsICloudError e with Some t => Some (ErrCode t) | None => None end.
Definition not_found (e : error) : bool := bool_decide (code_of e = Some CodeNotFound).
(** A call whose error is looked at. *)
Definition attempt {A} (m : D A) : D (result error A) := λ st, let '(st, r) := m st in (st, Ok r).
Definition locations {A} (f : eventLocationCache → eventLocationCache * A) : D A :=
  on_client (λ c, let '(l, a) := f (cl_locations c) in (MkClient (cl_discovered c) l, a)).
Definition put_location (calendarPath uid path : string) : D unit := locations (λ l, (cache_put l calendarPath uid path, tt)).
Definition evict_location (calendarPath uid : string) : D unit := locations (λ l, (cache_evict l calendarPath uid, tt)).
(** [c.discover], then the check of the calendar's path. *)
Definition enter (calendarPath : string) : D discoveryResult :=
  d ← discover_;
  lift (validateAgentCalendarPath (homeSetPath d) calendarPath);;
  mret d.

(** * Search *)

Definition parse_failure (e : error) : error :=
  match AsICloudError e with
  | Some ie => if bool_decide (ErrCode ie = CodePayloadTooLarge) || bool_decide (ErrCode ie = CodeProtocolError)
               then Typed ie else malformed_data
  | None => malformed_data
  end.
Definition expand_failure (e : error) : error :=
  match AsICloudError e with Some ie => Typed ie | None => protocol "Calendar recurrence data is malformed" end.
Definition expanded (master : Event) (overrides : list Event) (start end_ : gtime) (remaining : Z)
    : D (list Event * bool * Z) :=
  λ st, let '((w, remaining), r) := expandOccurrencesContext master overrides start end_ 0 (st.1.1, remaining) in
        (((w, st.1.2), st.2), match r with Ok rows => Ok (rows, remaining) | Err e => Err (expand_failure e) end).
Record search_state := MkSearch { se_events : list Event; se_truncated : bool; se_remaining : Z }.
Definition event_limit : error := too_big "Calendar search exceeded its event limit".
Definition search_object (calendarPath : string) (start end_ : gtime) (expand : bool) (s : search_state) (obj : CalendarObject)
    : D search_state :=
  '(master, overrides) ← map_err parse_failure (lift (parseCalendarObject load_location obj));
  let master := with_etag master (ObjETag obj) in
  put_location calendarPath (UID master) (ObjPath obj);;
  if expand then
    '(occs, t, remaining) ← expanded master overrides start end_ (se_remaining s);
    fail_if (maxEventsPerCalendarSearch - zlen (se_events s) <? zlen occs) event_limit;;
    mret (MkSearch (se_events s ++ map (λ e, with_etag e (ObjETag obj)) occs)%list (se_truncated s || t) remaining)
  else if negb (bool_decide (Recurrence master = "")) || eventOverlaps master start end_ then
    fail_if (maxEventsPerCalendarSearch <=? zlen (se_events s)) event_limit;;
    mret (MkSearch (se_events s ++ [master])%list (se_truncated s) (se_remaining s))
  else mret s.
Definition searchEvents (calendarPath : string) (start end_ : gtime) (opts : option SearchOptions) : D SearchResult :=
  lift (ValidateRange start end_);;
  d ← enter calendarPath;
  let expand := match opts with Some o => ExpandRecurrence o | None => true end in
  objs ← map_err (Wrapped "searching events: ") (report (shardBase d) calendarPath (time_range_filter start end_));
  s ← foldM (search_object calendarPath start end_ expand) objs (MkSearch [] false maxRecurrenceSearchWork);
  mret (MkSearchResult (se_events s) (se_truncated s)).

(** * Finding one event *)

Definition check_identity (obj : CalendarObject) (uid : string) : result error unit :=
  validateCalendarObjectIdentity (ObjData obj) uid.
(** The remembered location: a miss is forgotten and the search goes on. *)
Definition find_cached (shard calendarPath uid : string) : D (option CalendarObject) :=
  cached ← locations (λ l, (l, cache_get l calendarPath uid));
  match cached with
  | None => mret None
  | Some path =>
      r ← attempt (get_object shard calendarPath path);
      match r with
      | Ok obj =>
          match check_identity obj uid with
          | Ok _ => mret (Some obj)
          | Err e => evict_location calendarPath uid;; fail e
          end
      | Err e => if not_found e then evict_location calendarPath uid;; mret None else fail e
      end
  end.
Definition find_direct (shard calendarPath uid : string) : D (option CalendarObject) :=
  let directPath := object_path calendarPath uid in
  r ← attempt (get_object shard calendarPath directPath);
  match r with
  | Ok obj => lift (check_identity obj uid);; put_location calendarPath uid directPath;; mret (Some obj)
  | Err e => if not_found e then mret None else fail e
  end.
Definition missing_event : error :=
  Typed (NewError CodeNotFound 404
    "event not found (direct <uid>.ics miss; imported-UID REPORT fallback covers +/-50 years around now)" None).
Definition find_reported (shard calendarPath uid : string) : D CalendarObject :=
  now ← world cal_now;
  let at_ d := GTime (instant now + d) UTC in
  objs ← map_err (Wrapped "finding event: ")
           (report shard calendarPath (time_range_filter (at_ (- uidLookupWindow)) (at_ uidLookupWindow)));
  match List.find (λ o, calendarHasUID (ObjData o) uid) objs with
  | None => fail missing_event
  | Some o =>
      let href := ObjPath o in
      fail_if (bool_decide (href = "")) (protocol "REPORT match has empty path");;
      obj ← map_err (Wrapped "re-fetching event after REPORT: ") (get_object shard calendarPath href);
      lift (check_identity obj uid);;
      put_location calendarPath uid href;;
      mret obj
  end.
Definition findEventByUID (shard calendarPath uid : string) : D CalendarObject :=
  cached ← find_cached shard calendarPath uid;
  match cached with
  | Some obj => mret obj
  | None =>
      direct ← find_direct shard calendarPath uid;
      match direct with Some obj => mret obj | None => find_reported shard calendarPath uid end
  end.

Definition occurrence_ref (o : Event) : OccurrenceRef := MkOccurrenceRef (RecurrenceID o) (StartTime o) (EndTime o) (Title o) true.
(** Without the internal path. *)
Definition without_path (e : Event) : Event :=
  MkEvent (UID e) "" (EvCalendar e) (Title e) (EvLocation e) (Notes e) (StartTime e) (EndTime e) (AllDay e)
    (Recurrence e) (Timezone e) (EvStatus e) (Transp e) (URL e) (ETag e) (RecurrenceID e) (IsOverride e) (exDates e)
    (hasNominalDuration e) (nominalDurationDays e) (nominalDurationRemainder e).
Definition getEvent (calendarPath uid : string) : D EventDetail :=
  lift (ValidateUID uid);;
  d ← enter calendarPath;
  obj ← findEventByUID (shardBase d) calendarPath uid;
  '(master, overrides) ← map_err (λ e, match AsICloudError e with Some _ => e | None => malformed_data end)
                           (lift (parseCalendarObject load_location obj));
  mret (MkEventDetail (without_path (with_etag master (ObjETag obj))) (parseAlarms (ObjData obj))
          (negb (bool_decide (Recurrence master = ""))) (zlen overrides) (map occurrence_ref overrides) false []).

(** * Create *)

Definition check_rule (ne : NewEvent) : D unit :=
  if bool_decide (NewRecurrence ne = "") then mret tt
  else
    (λ st, let '(w, r) := validateRRULEForStartContext (NewRecurrence ne) (NewStartTime ne) st.1.1 in (((w, st.1.2), st.2), r));;
    let loc := resolveWriteLocation load_location ne in
    fail_if (negb (is_utc loc) && negb (recurringTimezoneStable (Some loc) (NewStartTime ne)))
      (Typed (NewValidationError "timezone does not have a stable annual transition rule for recurring writes")).
Definition check_new_texts (ne : NewEvent) : result error unit :=
  reject maxRemoteExDates <? zlen (NewExDates ne)
    with Typed (NewValidationError ("at most " ++ fmt_int maxRemoteExDates ++ " recurrence exceptions allowed")) ;;
  ValidateTextField "title" (NewTitle ne) MaxTitleLen;;
  reject bool_decide (NewTitle ne = "") with Plain "title cannot be empty" ;;
  ValidateTextField "location" (NewLocation ne) MaxLocationLen;;
  ValidateTextField "notes" (NewNotes ne) MaxNotesLen;;
  ValidateRange (NewStartTime ne) (NewEndTime ne).
Definition check_new_fields (ne : NewEvent) : result error unit :=
  (if bool_decide (ClientUID ne = "") then Ok tt else ValidateUID (ClientUID ne));;
  reject negb (AllowedStatus (to_upper (trim_space (NewStatus ne)))) with Plain ("invalid status " ++ fmt_quote (NewStatus ne)) ;;
  reject negb (AllowedTransparency (to_upper (trim_space (NewTransparency ne))))
    with Plain ("invalid transparency " ++ fmt_quote (NewTransparency ne)) ;;
  (if bool_decide (NewURL ne = "") then Ok tt else validateEventURL (NewURL ne));;
  reject negb (bool_decide (NewTimezone ne = "")) && bool_decide (load_location (NewTimezone ne) = None)
    with Plain ("invalid timezone " ++ fmt_quote (NewTimezone ne)) ;;
  Ok tt.
(** A UID the caller chose must not exist yet. *)
Definition refuse_existing (shard calendarPath path : string) : D unit :=
  r ← attempt (get_object shard calendarPath path);
  match r with
  | Ok _ => fail (Typed (NewError CodeConflict 409 "event already exists for client UID; not overwriting" None))
  | Err e => if not_found e then mret tt else fail e
  end.
Definition newUID : D string :=
  r ← world cal_random;
  match r with Ok nonce => mret (newUID_of nonce) | Err e => fail (Wrapped "UID generation: " e) end.
Definition reconciled {A} (uid advice context : string) (m : D A) : D A :=
  map_err (λ e, Wrapped context (withOutcomeReconciliation e uid advice)) m.
Definition createEvent (calendarPath : string) (ne : NewEvent) : D string :=
  lift (check_new_texts ne);;
  check_rule ne;;
  lift (check_new_fields ne);;
  d ← enter calendarPath;
  uid ← (if bool_decide (ClientUID ne = "") then newUID else mret (ClientUID ne));
  let path := object_path calendarPath uid in
  (if bool_decide (ClientUID ne = "") then mret tt else refuse_existing (shardBase d) calendarPath path);;
  now ← world cal_now;
  reconciled uid "Call get_event with this UID. If it exists, do not create it again; if it is not found, retry with the same client UID."
    "creating event: " (put_object calendarPath path "" (buildEventCalendar load_location now uid ne) "*");;
  mret uid.

(** * Update *)

Definition no_recurrence_id (rid : option gtime) : bool := match rid with Some t => is_zero (instant t) | None => true end.
Definition check_text (name : string) (value : option string) (max : Z) : result error unit :=
  match value with Some v => ValidateTextField name v max | None => Ok tt end.
Definition check_update (up : EventUpdate) : result error unit :=
  ValidateIfMatchETag (UpIfMatchETag up);;
  check_text "title" (UpTitle up) MaxTitleLen;;
  check_text "location" (UpLocation up) MaxLocationLen;;
  check_text "notes" (UpNotes up) MaxNotesLen;;
  ValidateEventUpdateFields up;;
  reject bool_decide (UpScope up = ScopeOccurrence) && no_recurrence_id (UpRecurrenceID up)
    with Typed (NewValidationError "recurrence_id is required when scope=occurrence") ;;
  Ok tt.
Definition has_rule (p : Props) : bool := bool_decide (is_Some (props_Get p "RRULE")).
Definition needs_rule : error := Typed (NewValidationError "scope=occurrence requires a recurring master (RRULE)").
(** The children after the change, and the properties of the master. *)
Definition apply_update (children : list Component) (master : Component) (up : EventUpdate) : result error (list Component * Props) :=
  match UpScope up with
  | ScopeOccurrence =>
      reject negb (has_rule (CompProps master)) with needs_rule ;;
      children ← applyOccurrenceUpdate load_location children (CompProps master) (default no_time (UpRecurrenceID up)) up;
      Ok (children, CompProps master)
  | ScopeSeries =>
      p ← applyFieldUpdate load_location (CompProps master) up;
      ordered_dates p;;
      Ok (children, p)
  end.
Definition stamped (p : Props) (now : gtime) : Props := props_SetDateTime p "DTSTAMP" (in_utc now).
Definition replace_master (cal : Component) (children : list Component) (i : nat) (master : Component) (p : Props) : Component :=
  with_children (<[i := with_props p master]> children) cal.
Definition updateEvent (calendarPath uid : string) (up : EventUpdate) : D unit :=
  lift (ValidateUID uid);;
  lift (check_update up);;
  let up := NormalizeEventUpdateFields up in
  d ← enter calendarPath;
  found ← findEventByUID (shardBase d) calendarPath uid;
  '(i, master) ← lift (findMasterVEvent (ObjData found));
  '(children, p) ← lift (apply_update (CompChildren (ObjData found)) master up);
  p ← lift (incrementSequence p);
  now ← world cal_now;
  let p := stamped p now in
  let etag := if bool_decide (UpIfMatchETag up = "") then ObjETag found else UpIfMatchETag up in
  fail_if (bool_decide (etag = "")) (etag_unavailable "update");;
  reconciled uid "Call get_event with this UID and compare the intended fields before deciding whether to retry the update."
    "updating event: " (put_object calendarPath (ObjPath found) etag (replace_master (ObjData found) children i master p) "").

(** * Delete *)

Definition delete_options (opts : option DeleteOptions) : DeleteOptions := default (MkDeleteOptions ScopeSeries None "" false) opts.
Definition check_delete (o : DeleteOptions) : result error unit :=
  ValidateIfMatchETag (DelIfMatchETag o);;
  reject bool_decide (DelScope o = ScopeOccurrence) && no_recurrence_id (DelRecurrenceID o)
    with Typed (NewValidationError "recurrence_id is required when scope=occurrence") ;;
  Ok tt.
Definition scope_name (s : MutationScope) : string := match s with ScopeSeries => "series" | ScopeOccurrence => "occurrence" end.
Definition chosen_etag (o : DeleteOptions) (obj : CalendarObject) : string :=
  if bool_decide (DelIfMatchETag o = "") then ObjETag obj else DelIfMatchETag o.
Definition deleteOccurrence (calendarPath : string) (obj : CalendarObject) (recID : gtime) (etag : string) : D unit :=
  '(i, master) ← lift (findMasterVEvent (ObjData obj));
  change ← lift (exclude_occurrence load_location (CompChildren (ObjData obj)) i master recID);
  match change with
  | None => mret tt
  | Some (children, i, master) =>
      p ← lift (incrementSequence (CompProps master));
      now ← world cal_now;
      let p := stamped p now in
      fail_if (bool_decide (etag = "")) (etag_unavailable "update");;
      put_object calendarPath (ObjPath obj) etag (replace_master (ObjData obj) children i master p) ""
  end.
Definition deleteEvent (calendarPath uid : string) (opts : option DeleteOptions) : D DeleteResult :=
  let o := delete_options opts in
  lift (ValidateUID uid);;
  lift (check_delete o);;
  d ← enter calendarPath;
  obj ← findEventByUID (shardBase d) calendarPath uid;
  '(_, master) ← lift (findMasterVEvent (ObjData obj));
  fail_if (bool_decide (DelScope o = ScopeOccurrence) && negb (has_rule (CompProps master))) needs_rule;;
  let etag := chosen_etag o obj in
  let result dryRun := MkDeleteResult (text_of (CompProps master) "SUMMARY") dryRun uid (scope_name (DelScope o)) true in
  if DryRun o then
    fail_if (bool_decide (etag = "")) (etag_unavailable "delete");;
    fail_if (negb (is_ok (Validation.parseStrongETag etag))) (Typed (NewValidationError "etag must be a strong entity-tag"));;
    mret (result true)
  else
    match DelScope o with
    | ScopeOccurrence =>
        reconciled uid "Call get_event with this UID and inspect the occurrence. If it is absent, do not repeat the delete; otherwise compare the current ETag before retrying."
          "deleting occurrence: " (deleteOccurrence calendarPath obj (default no_time (DelRecurrenceID o)) etag);;
        mret (result false)
    | ScopeSeries =>
        reconciled uid "Call get_event with this UID. A not_found result confirms deletion; if it still exists, compare its ETag before deciding whether to retry."
          "deleting event: " (delete_object calendarPath (ObjPath obj) etag);;
        evict_location calendarPath uid;;
        mret (result false)
    end.

(** * The interface *)

(** Go's pair of a value and an error. *)
Definition returns {A} (none : A) (m : D A) : St → St * (A * option error) :=
  λ st, let '(st, r) := m st in (st, match r with Ok a => (a, None) | Err e => (none, Some e) end).
Definition caldav_service : Service St := {|
  ListCalendars := returns [] (listCalendars allowHost http_configured baseURL);
  CalTypes.SearchEvents path s e opts := returns no_results (searchEvents path s e opts);
  GetEvent path uid := λ st, let '(st, r) := getEvent path uid st in
    (st, match r with Ok d => (Some d, None) | Err e => (None, Some e) end);
  CreateEvent path ev := returns "" (createEvent path ev);
  UpdateEvent path uid up := λ st, let '(st, r) := updateEvent path uid up st in (st, err_of r);
  DeleteEvent path uid opts := returns no_deletion (deleteEvent path uid opts);
|}.
End Client.
