(* ===== verification/CalWrites.v ===== *)
(** What the CalDAV client sends: which URLs, and when it writes. *)
From S2P Require Import Prelude GoStrings GoTime NetUrl CalErrors CalTypes TimePolicy Validation Retry Tools ContactsValidation ContactsXml Recurrence EventInput Allowlist CalXml ICal ICalWrite CalDav CalClient.

Section Requests.
Context {W : Type} `{CalNet W} `{Ctx W} `{CalHeaders} `{XMLTokens} `{ICalLib} `{ZoneNames} `{RRuleLib} `{UnicodeTables} `{MapOrder}.
Context (allowHost : option (string → bool)) (http_configured : bool) (baseURL : string).
Context (load_location : string → option Location).
Abbreviation St := ((W * client) * list HttpRequest)%type.
Abbreviation D := (M St error).

(** * A logic of the log *)

(** Where a request goes: https, an allowed host and port, a valid path, no
    query, fragment or credentials. *)
Definition allowed_url (u : NetUrl.URL) : Prop :=
  plain_https u = true ∧ ForceQuery u = false ∧ host_allowed allowHost u = true ∧
  (IsICloudHost (Hostname u) = true → PortAllowed (Port u) = true) ∧ ValidateCalendarPath (EscapedPath u) = Ok tt.
Definition sent_to (P : NetUrl.URL → Prop) (r : HttpRequest) : Prop := ∃ u, hq_url r = url_string u ∧ allowed_url u ∧ P u.
Definition read_ok (r : HttpRequest) : Prop := mutating (hq_method r) = false ∧ sent_to (λ _, True) r.

(** The computation only reads; its value satisfies [Q]. *)
Definition reading {A} (m : D A) (Q : A → Prop) : Prop :=
  emits m (λ l r, Forall read_ok l ∧ match r with Ok a => Q a | Err _ => True end).
(** Reads, then at most one write, which satisfies [P]; a success has written
    when [must]. *)
Definition session {A} (must : bool) (P : HttpRequest → Prop) (l : list HttpRequest) (r : result error A) : Prop :=
  ∃ reads w, l = (reads ++ w)%list ∧ Forall read_ok reads ∧
    ((w = [] ∧ (must = true → is_ok r = false)) ∨ ∃ x, w = [x] ∧ sent_to (λ _, True) x ∧ P x).
Definition writing {A} (must : bool) (P : HttpRequest → Prop) (m : D A) : Prop := emits m (session must P).
(** The same of one run. *)
Definition writing_at {A} (st : St) (must : bool) (P : HttpRequest → Prop) (m : D A) : Prop :=
  ∃ l, the_log (m st).1 = (the_log st ++ l)%list ∧ session must P l (m st).2.

Lemma reading_ret {A} (a : A) (Q : A → Prop) : Q a → reading (mret a : D A) Q.
Proof. intros HQ. apply emits_ret. by split. Qed.
Lemma reading_fail {A} e (Q : A → Prop) : reading (fail e : D A) Q.
Proof. apply emits_fail. by split. Qed.
Lemma reading_lift {A} (r : result error A) (Q : A → Prop) : (∀ a, r = Ok a → Q a) → reading (lift r : D A) Q.
Proof. intros HQ. apply emits_lift. split; [done|]. destruct r; [by apply HQ|done]. Qed.
Lemma reading_fail_if c e : reading (fail_if c e : D unit) (λ _, c = false).
Proof. destruct c; [apply reading_fail|by apply reading_ret]. Qed.
Lemma reading_bind {A B} (m : D A) (f : A → D B) Q R :
  reading m Q → (∀ a, Q a → reading (f a) R) → reading (m ≫= f) R.
Proof. intros Hm Hf. apply (emits_all _ _ _ Q); [exact Hm|exact Hf]. Qed.
Lemma reading_weaken {A} (m : D A) (Q R : A → Prop) : reading m Q → (∀ a, Q a → R a) → reading m R.
Proof. intros Hm HQR. eapply emits_weaken; [exact Hm|]. intros l [a|e] [? ?]; split; auto. Qed.
Lemma reading_world {A} (f : W → W * A) : reading (world f : D A) (λ _, True).
Proof. intros st. unfold world. destruct (f st.1.1) as [w a]. exists []. split; [by rewrite app_nil_r|by split]. Qed.
Lemma reading_client {A} (f : client → client * A) : reading (on_client f : D A) (λ _, True).
Proof. intros st. unfold on_client. destruct (f st.1.2) as [c a]. exists []. split; [by rewrite app_nil_r|by split]. Qed.
Lemma reading_map_err {A} f (m : D A) Q : reading m Q → reading (map_err f m) Q.
Proof. intros Hm st. destruct (Hm st) as (l & Hl & ? & HQ). unfold map_err. destruct (m st) as [st1 [a|e]]; exists l; by split. Qed.
Lemma reading_attempt {A} (m : D A) Q : reading m Q → reading (attempt m) (λ r, match r with Ok a => Q a | Err _ => True end).
Proof. intros Hm st. destruct (Hm st) as (l & Hl & ? & HQ). unfold attempt. destruct (m st) as [st1 [a|e]]; exists l; by split. Qed.
Lemma reading_fold {A X} (f : X → A → D X) l x : (∀ x a, reading (f x a) (λ _, True)) → reading (foldM f l x) (λ _, True).
Proof.
  intros Hf. eapply (emits_foldM _ read_ok (λ _, True)); [done|]. intros t a _ _.
  eapply emits_weaken; [apply Hf|]. intros lg [?|?] [? ?]; by split.
Qed.

Lemma writing_bind {A B} must P (m : D A) (f : A → D B) Q :
  reading m Q → (∀ a, Q a → writing must P (f a)) → writing must P (m ≫= f).
Proof.
  intros Hm Hf. eapply (emits_bind _ _ (λ l r, Forall read_ok l ∧ match r with Ok a => Q a | Err _ => True end)); [exact Hm| |].
  - intros l e [Hl _]. exists l, []. rewrite app_nil_r. split; [done|]. split; [done|]. left. by split.
  - intros l a [Hl Ha]. eapply emits_weaken; [by apply Hf|]. intros l' r (reads & w & -> & Hr & Hw).
    exists (l ++ reads)%list, w. rewrite app_assoc. split; [done|]. split; [by apply Forall_app|done].
Qed.
(** Silent steps after the write. *)
Lemma writing_then {A B} must P (m : D A) (f : A → D B) :
  writing must P m → (∀ a, emits (f a) (λ l _, l = [])) → writing must P (m ≫= f).
Proof.
  intros Hm Hf. eapply (emits_bind _ _ (session must P)); [exact Hm| |].
  - intros l e (reads & w & -> & Hr & Hw). exists reads, w. split; [done|]. split; [done|]. destruct Hw as [[-> Hw]|Hw]; [left|by right]. by split.
  - intros l a (reads & w & -> & Hr & Hw). eapply emits_weaken; [apply Hf|]. intros l' r ->. rewrite app_nil_r.
    exists reads, w. split; [done|]. split; [done|]. destruct Hw as [[-> Hw]|Hw]; [|by right].
    left. split; [done|]. intros Hm'. specialize (Hw Hm'). done.
Qed.
Lemma writing_map_err {A} must P f (m : D A) : writing must P m → writing must P (map_err f m).
Proof.
  intros Hm st. destruct (Hm st) as (l & Hl & reads & w & -> & Hr & Hw). unfold map_err. destruct (m st) as [st1 [a|e]].
  - exists (reads ++ w)%list. split; [done|]. by exists reads, w.
  - exists (reads ++ w)%list. split; [done|]. exists reads, w. split; [done|]. split; [done|].
    destruct Hw as [[-> _]|Hw]; [left; by split|by right].
Qed.
Lemma writing_weaken {A} must (P Q : HttpRequest → Prop) (m : D A) :
  (∀ x, P x → Q x) → writing must P m → writing must Q m.
Proof.
  intros HPQ Hm. eapply emits_weaken; [exact Hm|]. intros l r (reads & w & -> & Hr & Hw).
  exists reads, w. split; [done|]. split; [done|]. destruct Hw as [Hw|(x & -> & ? & ?)]; [by left|right]. exists x. auto.
Qed.
Lemma writing_fail {A} must P e : writing must P (fail e : D A).
Proof. apply emits_fail. exists [], []. split; [done|]. split; [done|]. by left. Qed.
Lemma writing_ret {A} P (a : A) : writing false P (mret a : D A).
Proof. apply emits_ret. exists [], []. split; [done|]. split; [done|]. by left. Qed.


Lemma session_reads {A} must P l reads (r : result error A) :
  Forall read_ok reads → session must P l r → session must P (reads ++ l)%list r.
Proof.
  intros Hl (l1 & w & -> & Hr & Hw). exists (reads ++ l1)%list, w. rewrite app_assoc. split; [done|]. split; [by apply Forall_app|done].
Qed.
Lemma writing_all {A} must P (m : D A) st : writing must P m → writing_at st must P m.
Proof. intros Hm. exact (Hm st). Qed.
Lemma writing_bind_at {A B} must P (m : D A) (f : A → D B) Q st :
  reading m Q → (∀ st1 a, m st = (st1, Ok a) → Q a → writing_at st1 must P (f a)) → writing_at st must P (m ≫= f).
Proof.
  intros Hm Hf. destruct (Hm st) as (l & Hl & Hr & HQ). unfold writing_at, mbind, M_bind in *.
  destruct (m st) as [st1 [a|e]] eqn:Hrun; cbn [fst snd] in *.
  - destruct (Hf st1 a eq_refl HQ) as (l' & Hl' & Hs). exists (l ++ l')%list. rewrite Hl', Hl, <-app_assoc. split; [done|].
    by apply session_reads.
  - exists l. split; [done|]. exists l, []. rewrite app_nil_r. split; [done|]. split; [done|]. left. by split.
Qed.
Lemma writing_lift_at {A B} must P (r : result error A) (f : A → D B) st :
  (∀ a, r = Ok a → writing_at st must P (f a)) → writing_at st must P (lift r ≫= f).
Proof.
  intros Hf. eapply (writing_bind_at _ _ _ _ (λ a, r = Ok a)); [by apply reading_lift|]. intros st1 a Hrun Ha.
  unfold lift in Hrun. injection Hrun as <- _. by apply Hf.
Qed.

(** * One request *)

Lemma request_url shard u scope : validateCalendarRequestURL allowHost shard u scope = Ok tt → allowed_url u.
Proof.
  unfold validateCalendarRequestURL, allowed_url. intros (E1 & E2)%reject_ok. apply orb_false_elim in E1 as [E1%negb_false_iff Hf].
  apply reject_ok in E2 as [E2%negb_false_iff E3]. apply reject_ok in E3 as [E3 E4]. cbv zeta in E4. apply reject_ok in E4 as [E4 _].
  split; [done|]. split; [done|]. split; [done|]. split.
  - intros Hi. rewrite Hi in E3. by apply negb_false_iff in E3.
  - destruct (ValidateCalendarPath (EscapedPath u)) as [[]|]; done.
Qed.
(** The redirects of a request inside a collection stay inside it. *)
Lemma request_scope shard u scope : validateCalendarRequestURL allowHost shard u scope = Ok tt → scope ≠ "" →
  pathUnderHomeSet (EscapedPath u) scope = true ∧ ∃ s, Parse shard = Some s ∧ sameDAVOrigin u s = true.
Proof.
  unfold validateCalendarRequestURL. intros (_ & E2)%reject_ok Hs. apply reject_ok in E2 as [_ E3]. apply reject_ok in E3 as [_ E4].
  cbv zeta in E4. apply reject_ok in E4 as [_ E5]. rewrite bool_decide_false in E5 by done.
  apply reject_ok in E5 as [E5 E6]. apply reject_ok in E6 as [E6%negb_false_iff _]. split; [done|].
  destruct (Parse shard) as [s|]; [|done]. exists s. split; [done|]. by apply negb_false_iff in E5.
Qed.

(** The answer of a write is never a redirect to follow. *)
Lemma on_response_write method current resp status location :
  mutating method = true → on_response method current resp ≠ Ok (inr (status, location)).
Proof.
  unfold on_response. intros -> Hr. cbv zeta in Hr. apply reject_ok in Hr as [_ Hr]. cbn [andb] in Hr.
  apply reject_ok in Hr as [_ Hr]. apply reject_ok in Hr as [E3 Hr]. apply orb_false_elim in E3 as [E3 E4].
  destruct (is_redirect (hp_status resp)) eqn:Hi.
  - unfold is_redirect in Hi. apply andb_false_elim in E4.
    repeat (apply orb_prop in Hi as [Hi|Hi]); apply Z.eqb_eq in Hi; rewrite Hi in E4; destruct E4 as [E4|E4]; vm_compute in E4; discriminate E4.
  - apply reject_ok in Hr as [_ Hr]. apply reject_ok in Hr as [_ Hr]. done.
Qed.
Lemma exchange_emits shard method current headers body scope :
  emits (exchange allowHost shard method current headers body scope : D _) (λ l r,
    (l = [] ∧ is_ok r = false) ∨
    (l = [MkHttpRequest method (url_string current) headers body] ∧
     validateCalendarRequestURL allowHost shard current scope = Ok tt ∧
     (mutating method = true → ∀ x, r ≠ Ok (inr x)))).
Proof.
  unfold exchange. set (Q := λ l r, _ ∨ _).
  eapply (emits_silent _ _ (λ r, is_ok r = true)).
  { intros st. unfold world. destruct (ctx_Err st.1.1) as [w e]. exists []. split; [by rewrite app_nil_r|by split]. }
  { done. }
  intros ended _. eapply (emits_silent _ _ (λ _, True)).
  { destruct ended; [by apply emits_fail|by apply emits_ret]. }
  { intros e _. by left. }
  intros [] _. eapply (emits_silent _ _ (λ r, r = validateCalendarRequestURL allowHost shard current scope)).
  { by apply emits_lift. }
  { intros e _. by left. }
  intros [] Hv. eapply (emits_silent _ _ (λ _, True)); [by apply emits_fail_if|by left|]. intros [] _. cbv zeta.
  set (req := MkHttpRequest _ _ _ _).
  eapply (emits_bind _ _ (λ l r, l = [req] ∧ r = Ok tt)).
  { intros st. exists [req]. by split. }
  { by intros ? ? [_ [=]]. }
  intros l [] [-> _]. eapply (emits_silent _ _ (λ r, is_ok r = true)).
  { intros st. unfold world. destruct (cal_do req st.1.1) as [w e]. exists []. split; [by rewrite app_nil_r|by split]. }
  { done. }
  intros [resp err] _.
  assert (∀ r : result error ((HttpResponse * NetUrl.URL) + (Z * string)), (mutating method = true → ∀ x, r ≠ Ok (inr x)) → Q [req] r) as HQ.
  { intros r Hr. right. auto. }
  destruct err as [e|]; [by apply emits_fail, HQ|]. destruct resp as [resp|]; [|by apply emits_fail, HQ].
  apply emits_lift, HQ. intros Hm [status location]. by apply on_response_write.
Qed.
Lemma request_reads shard method headers body scope hops : mutating method = false → ∀ current,
  reading (request_loop allowHost hops shard method current headers body scope : D _) (λ _, True).
Proof.
  intros Hm. induction hops as [|hops IH]; intros current; cbn [request_loop].
  all: eapply (reading_bind _ _ (λ _, True)).
  1,3: eapply emits_weaken; [apply exchange_emits|]; intros l r [[-> _]|(-> & Hv & _)]; (split; [|by destruct r]);
    [constructor|constructor; [|constructor]; split; [done|]; exists current; split; [done|]; split; [by eapply request_url|done]].
  all: intros [[resp url]|[status location]] _; [by apply reading_ret|]; try apply reading_fail.
  eapply reading_bind; [apply reading_fail_if|]. intros [] _. eapply (reading_bind _ _ (λ _, True)); [by apply reading_lift|].
  intros next _. apply IH.
Qed.
(** A write is one exchange: it is never sent again, and a redirect is not
    followed. *)
Lemma request_writes shard method headers body scope hops current : mutating method = true →
  emits (request_loop allowHost hops shard method current headers body scope : D _) (λ l r,
    (l = [] ∧ is_ok r = false) ∨
    (l = [MkHttpRequest method (url_string current) headers body] ∧
     validateCalendarRequestURL allowHost shard current scope = Ok tt)).
Proof.
  intros Hm. destruct hops as [|hops]; cbn [request_loop];
    (eapply emits_bind; [apply exchange_emits| |]).
  1,3: intros l e [[-> _]|(-> & Hv & _)]; [by left|by right].
  all: intros l [[resp url]|[status location]] [[-> Hr]|(-> & Hv & Hr)]; try done; try (by specialize (Hr Hm (status, location))).
  all: apply emits_ret; right; done.
Qed.
Lemma do_reads shard method target headers body scope : mutating method = false →
  reading (doCalendarRequest allowHost http_configured shard method target headers body scope : D _) (λ _, True).
Proof.
  intros Hm. unfold doCalendarRequest. eapply reading_bind; [apply reading_fail_if|]. intros [] _.
  destruct (Parse target); [by apply request_reads|apply reading_fail].
Qed.
(** What a write is sent to. *)
Definition inside (calendarPath : string) (u : NetUrl.URL) : Prop := calendarPath ≠ "" → pathUnderHomeSet (EscapedPath u) calendarPath = true.
Lemma do_writes shard method target headers body scope : mutating method = true →
  emits (doCalendarRequest allowHost http_configured shard method target headers body scope : D _)
    (λ l r, (l = [] ∧ is_ok r = false) ∨ ∃ x, l = [x] ∧ hq_method x = method ∧ hq_header x = headers ∧ hq_body x = body ∧
      sent_to (λ u, Parse target = Some u ∧ inside scope u) x).
Proof.
  intros Hm. unfold doCalendarRequest. eapply (emits_silent _ _ (λ _, True)); [by apply emits_fail_if|by left|]. intros [] _.
  destruct (Parse target) as [u|] eqn:Hu; [|apply emits_fail; by left].
  eapply emits_weaken; [by apply request_writes|]. intros l r [[-> Hr]|(-> & Hv)]; [by left|right].
  eexists. split; [reflexivity|]. split; [done|]. split; [done|]. split; [done|]. exists u. split; [done|].
  split; [by eapply request_url|]. split; [done|]. intros Hs. by eapply request_scope.
Qed.

(** * Reads *)

Lemma cal_propfind_reads shard target depth body scope :
  reading (propfind allowHost http_configured shard target depth body scope : D _) (λ _, True).
Proof.
  unfold propfind. eapply reading_bind; [by apply reading_map_err, do_reads|]. intros [resp url] _.
  eapply reading_bind; [apply reading_fail_if|]. intros [] _. eapply (reading_bind _ _ (λ _, True)); [by apply reading_lift|]. intros data _.
  eapply (reading_bind _ _ (λ _, True)); [by apply reading_lift|]. intros [] _.
  destruct (unmarshal_multistatus _); [by apply reading_ret|apply reading_fail].
Qed.
Lemma cal_discover_reads : reading (discover allowHost http_configured baseURL : D _) (λ _, True).
Proof.
  unfold discover. eapply reading_bind; [apply reading_client|]. intros [d|] _; [by apply reading_ret|].
  eapply (reading_bind _ _ (λ _, True)).
  - unfold doDiscover. eapply reading_bind; [apply cal_propfind_reads|]. intros [responses url] _.
    eapply (reading_bind _ _ (λ _, True)); [by apply reading_lift|]. intros principal _.
    eapply (reading_bind _ _ (λ _, True)); [by apply reading_lift|]. intros principalURL _.
    eapply reading_bind; [apply cal_propfind_reads|]. intros [responses2 url2] _.
    eapply (reading_bind _ _ (λ _, True)); [by apply reading_lift|]. intros homeSet _.
    eapply (reading_bind _ _ (λ _, True)); [by apply reading_lift|]. intros u _. by apply reading_ret.
  - intros d _. eapply reading_bind; [apply reading_client|]. intros [] _. by apply reading_ret.
Qed.
Lemma cal_list_reads : reading (listCalendars allowHost http_configured baseURL : D _) (λ _, True).
Proof.
  unfold listCalendars. eapply reading_bind; [apply cal_discover_reads|]. intros d _.
  eapply (reading_bind _ _ (λ _, True)); [destruct (resolvePathOnBase _ _); [by apply reading_ret|apply reading_fail]|]. intros target _.
  eapply reading_bind; [apply reading_map_err, cal_propfind_reads|]. intros [responses url] _. by apply reading_lift.
Qed.
Lemma cal_get_reads shard calendarPath path :
  reading (getCalendarObject allowHost http_configured shard calendarPath path : D _) (λ _, True).
Proof.
  unfold getCalendarObject.
  eapply (reading_bind _ _ (λ _, True)); [destruct (resolvePathOnBase _ _); [by apply reading_ret|apply reading_fail]|]. intros target _.
  eapply reading_bind; [by apply do_reads|]. intros [resp url] _. cbv zeta.
  eapply reading_bind; [apply reading_fail_if|]. intros [] _. eapply reading_bind; [apply reading_fail_if|]. intros [] _.
  eapply (reading_bind _ _ (λ _, True)); [by apply reading_lift|]. intros data _. eapply reading_bind; [apply reading_fail_if|]. intros [] _.
  eapply (reading_bind _ _ (λ _, True)); [by apply reading_lift|]. intros cal _.
  eapply (reading_bind _ _ (λ _, True)); [by apply reading_lift|]. intros [] _.
  eapply (reading_bind _ _ (λ _, True)); [by apply reading_lift|]. intros [] _. eapply reading_bind; [apply reading_fail_if|]. intros [] _.
  eapply (reading_bind _ _ (λ _, True)); [destruct (Validation.strongETagFromHeader _); [by apply reading_ret|apply reading_fail]|]. intros etag _.
  eapply reading_bind; [apply reading_fail_if|]. intros [] _. by apply reading_ret.
Qed.
Lemma cal_report_reads shard calendarPath filterXML :
  reading (reportCalendarQuery allowHost http_configured shard calendarPath filterXML : D _) (λ _, True).
Proof.
  unfold reportCalendarQuery.
  eapply (reading_bind _ _ (λ _, True)); [destruct (resolvePathOnBase _ _); [by apply reading_ret|apply reading_fail]|]. intros target _.
  eapply reading_bind; [by apply reading_map_err, do_reads|]. intros [resp url] _. cbv zeta.
  eapply reading_bind; [apply reading_fail_if|]. intros [] _. eapply (reading_bind _ _ (λ _, True)); [by apply reading_lift|]. intros data _.
  eapply (reading_bind _ _ (λ _, True)); [by apply reading_lift|]. intros responses _. by apply reading_lift.
Qed.
Lemma enter_reads calendarPath :
  reading (enter allowHost http_configured baseURL calendarPath : D _) (λ d, validateAgentCalendarPath (homeSetPath d) calendarPath = Ok tt).
Proof.
  unfold enter. eapply reading_bind; [apply cal_discover_reads|]. intros d _.
  eapply reading_bind; [apply (reading_lift _ (λ _, validateAgentCalendarPath (homeSetPath d) calendarPath = Ok tt)); by intros []|].
  intros [] Hd. by apply reading_ret.
Qed.

(** ** Finding an event *)

(** The object was read, and all its events have the UID. *)
Definition verified (uid : string) (obj : CalendarObject) : Prop := validateCalendarObjectIdentity (ObjData obj) uid = Ok tt.
Lemma check_verified obj uid : reading (lift (check_identity obj uid) : D unit) (λ _, verified uid obj).
Proof. apply reading_lift. by intros []. Qed.
Lemma find_reads shard calendarPath uid :
  reading (findEventByUID allowHost http_configured shard calendarPath uid : D _) (verified uid).
Proof.
  assert (∀ A (f : eventLocationCache → eventLocationCache * A), reading (locations f : D A) (λ _, True)) as Hloc
    by (intros; apply reading_client).
  unfold findEventByUID. eapply (reading_bind _ _ (λ o, match o with Some obj => verified uid obj | None => True end)).
  { unfold find_cached. eapply reading_bind; [apply Hloc|]. intros [path|] _; [|by apply reading_ret].
    eapply reading_bind; [apply reading_attempt, cal_get_reads|]. intros [obj|e] _.
    - destruct (check_identity obj uid) as [[]|e] eqn:Hc; [by apply reading_ret|].
      eapply reading_bind; [apply Hloc|]. intros [] _. apply reading_fail.
    - destruct (not_found e); [|apply reading_fail]. eapply reading_bind; [apply Hloc|]. intros [] _. by apply reading_ret. }
  intros [obj|] Hobj; [by apply reading_ret|].
  eapply (reading_bind _ _ (λ o, match o with Some obj => verified uid obj | None => True end)).
  { unfold find_direct. eapply reading_bind; [apply reading_attempt, cal_get_reads|]. intros [obj|e] _.
    - eapply reading_bind; [apply check_verified|]. intros [] Hv. eapply reading_bind; [apply Hloc|]. intros [] _. by apply reading_ret.
    - destruct (not_found e); [by apply reading_ret|apply reading_fail]. }
  intros [obj|] Hobj'; [by apply reading_ret|]. unfold find_reported. eapply reading_bind; [apply reading_world|]. intros now _.
  eapply reading_bind; [apply reading_map_err, cal_report_reads|]. intros objs _. destruct (List.find _ objs) as [o|]; [|apply reading_fail].
  eapply reading_bind; [apply reading_fail_if|]. intros [] _. eapply reading_bind; [apply reading_map_err, cal_get_reads|]. intros obj _.
  eapply reading_bind; [apply check_verified|]. intros [] Hv. eapply reading_bind; [apply Hloc|]. intros [] _. by apply reading_ret.
Qed.
Lemma search_object_reads calendarPath start end_ expand s obj :
  reading (search_object load_location calendarPath start end_ expand s obj : D _) (λ _, True).
Proof.
  unfold search_object. eapply (reading_bind _ _ (λ _, True)); [by apply reading_map_err, reading_lift|]. intros [master overrides] _. cbv zeta.
  eapply reading_bind; [apply reading_client|]. intros [] _. destruct expand.
  - eapply (reading_bind _ _ (λ _, True)).
    { intros st. unfold expanded. destruct (expandOccurrencesContext _ _ _ _ _ _) as [[w remaining] [rows|e]];
        exists []; (split; [by rewrite app_nil_r|by split]). }
    intros [[occs t] remaining] _. eapply reading_bind; [apply reading_fail_if|]. intros [] _. by apply reading_ret.
  - destruct (_ || _); [|by apply reading_ret]. eapply reading_bind; [apply reading_fail_if|]. intros [] _. by apply reading_ret.
Qed.
Lemma cal_search_reads calendarPath start end_ opts :
  reading (searchEvents allowHost http_configured baseURL load_location calendarPath start end_ opts : D _) (λ _, True).
Proof.
  unfold searchEvents. eapply (reading_bind _ _ (λ _, True)); [by apply reading_lift|]. intros [] _.
  eapply reading_bind; [apply enter_reads|]. intros d _. cbv zeta. eapply reading_bind; [apply reading_map_err, cal_report_reads|]. intros objs _.
  eapply reading_bind; [apply reading_fold; intros; apply search_object_reads|]. intros s _. by apply reading_ret.
Qed.
Lemma get_event_sends calendarPath uid :
  reading (getEvent allowHost http_configured baseURL load_location calendarPath uid : D _) (λ _, True).
Proof.
  unfold getEvent. eapply (reading_bind _ _ (λ _, True)); [by apply reading_lift|]. intros [] _.
  eapply reading_bind; [apply enter_reads|]. intros d _. eapply reading_bind; [apply find_reads|]. intros obj _.
  eapply (reading_bind _ _ (λ _, True)); [by apply reading_map_err, reading_lift|]. intros [master overrides] _. by apply reading_ret.
Qed.
(** * Writes *)

(** Addressed to a path of the shard, inside the calendar. *)
Definition addressed (calendarPath path : string) (x : HttpRequest) : Prop :=
  ∃ shard target u, resolvePathOnBase shard path = Ok target ∧ Parse target = Some u ∧ hq_url x = url_string u ∧
    allowed_url u ∧ inside calendarPath u.
Definition calendar_type : string * string := ("Content-Type", "text/calendar; charset=utf-8").
(** The condition of a write: the object does not exist yet, or it still has
    the tag. *)
Inductive condition := Absent | Unchanged (etag : string).
Definition condition_header (c : condition) (h : string * string) : Prop :=
  match c with
  | Absent => h = ("If-None-Match", "*")
  | Unchanged etag => ∃ t, Validation.parseStrongETag etag = Ok t ∧ h = ("If-Match", t)
  end.
Definition put_write (calendarPath path : string) (c : condition) (body : list ascii → Prop) (x : HttpRequest) : Prop :=
  hq_method x = "PUT" ∧ (∃ h, hq_header x = [calendar_type; h] ∧ condition_header c h) ∧
  (∃ data, hq_body x = Some data ∧ body data) ∧ addressed calendarPath path x.
Definition delete_write (calendarPath path etag : string) (x : HttpRequest) : Prop :=
  hq_method x = "DELETE" ∧ (∃ h, hq_header x = [h] ∧ condition_header (Unchanged etag) h) ∧ hq_body x = None ∧
  addressed calendarPath path x.

Lemma addressed_to scope target shard path x : resolvePathOnBase shard path = Ok target →
  sent_to (λ u, Parse target = Some u ∧ inside scope u) x → addressed scope path x.
Proof. intros Ht (u & ? & ? & ? & ?). by exists shard, target, u. Qed.
Lemma addressed_sent scope path x : addressed scope path x → sent_to (λ _, True) x.
Proof. intros (shard & target & u & _ & _ & ? & ? & _). by exists u. Qed.
(** One write, then silent steps. *)
Lemma do_writing {A} shard method target headers body scope path (f : HttpResponse * NetUrl.URL → D A) (P : HttpRequest → Prop) :
  mutating method = true → resolvePathOnBase shard path = Ok target →
  (∀ x, hq_method x = method → hq_header x = headers → hq_body x = body → addressed scope path x → P x) →
  (∀ a, emits (f a) (λ l _, l = [])) →
  writing true P (doCalendarRequest allowHost http_configured shard method target headers body scope ≫= f).
Proof.
  intros Hm Ht HP Hf. apply writing_then; [|done]. eapply emits_weaken; [by apply do_writes|].
  intros l r [[-> Hr]|(x & -> & E1 & E2 & E3 & E4)].
  - exists [], []. split; [done|]. split; [done|]. left. done.
  - exists [], [x]. split; [done|]. split; [done|]. right. exists x. split; [done|].
    assert (addressed scope path x) as Ha by by eapply addressed_to. split; [by eapply addressed_sent|by apply HP].
Qed.
Lemma resolve_silent {A} (r : result error A) (e : error → error) :
  reading (match r with Ok t => mret t | Err err => fail (e err) end : D A) (λ t, r = Ok t).
Proof. destruct r; [by apply reading_ret|apply reading_fail]. Qed.
Lemma tag_reading etag : reading (lift (match_tag etag) : D string) (λ t, Validation.parseStrongETag etag = Ok t).
Proof. apply reading_lift. unfold match_tag. destruct (Validation.parseStrongETag etag); [by intros ? [= ->]|done]. Qed.

Lemma put_writes calendarPath path etag cal ifNoneMatch c :
  match c with Absent => etag = "" ∧ ifNoneMatch = "*" | Unchanged t => etag = t ∧ t ≠ "" ∧ ifNoneMatch = "" end →
  writing true (put_write calendarPath path c (λ data, ical_encode cal = Ok data))
    (putCalendarObjectIfMatch allowHost http_configured baseURL calendarPath path etag cal ifNoneMatch : D unit).
Proof.
  intros Hc. unfold putCalendarObjectIfMatch. eapply writing_bind; [apply cal_discover_reads|]. intros d _.
  eapply (writing_bind _ _ _ _ (λ data, ical_encode cal = Ok data)).
  { destruct (ical_encode cal); [by apply reading_ret|apply reading_fail]. }
  intros data Hdata. eapply writing_bind; [apply (resolve_silent _ (Wrapped "invalid event URL: "))|]. intros target Ht.
  eapply (writing_bind _ _ _ _ (λ pre, ∃ h, condition_header c h ∧
    (pre ++ (if bool_decide (ifNoneMatch = "") then [] else [("If-None-Match", ifNoneMatch)]))%list = [h])).
  { destruct c as [|t].
    - destruct Hc as [-> ->]. apply reading_ret. by exists ("If-None-Match", "*").
    - destruct Hc as (-> & Hne & ->). rewrite bool_decide_false by done. eapply reading_bind; [apply tag_reading|]. intros t' Ht'.
      apply reading_ret. exists ("If-Match", t'). split; [by exists t'|done]. }
  intros pre (h & Hh & Hpre). cbv zeta. rewrite Hpre. eapply do_writing; [done|exact Ht| |].
  - intros x E1 E2 E3 E4. split; [done|]. split; [by exists h|]. split; [by exists data|done].
  - intros [resp url]. cbv zeta. destruct (_ =? 412); [by apply emits_fail|].
    destruct (Z.quot _ _ =? 2); [by apply emits_ret|by apply emits_fail].
Qed.
Lemma cal_delete_writes calendarPath path etag :
  writing true (delete_write calendarPath path etag)
    (deleteCalendarObjectIfMatch allowHost http_configured baseURL calendarPath path etag : D unit).
Proof.
  unfold deleteCalendarObjectIfMatch. eapply writing_bind; [apply cal_discover_reads|]. intros d _.
  eapply writing_bind; [apply reading_fail_if|]. intros [] _.
  eapply writing_bind; [apply (resolve_silent _ (Wrapped "invalid event URL: "))|]. intros target Ht.
  eapply writing_bind; [apply tag_reading|]. intros t Htag. eapply do_writing; [done|exact Ht| |].
  - intros x E1 E2 E3 E4. split; [done|]. split; [|done]. exists ("If-Match", t). split; [done|]. by exists t.
  - intros [resp url]. cbv zeta. destruct (_ =? 412); [by apply emits_fail|].
    destruct (_ || _); [by apply emits_ret|by apply emits_fail].
Qed.
(** ** The three mutations *)

Lemma reading_guard {A} (b : bool) (m : D unit) (k : D A) must P :
  reading m (λ _, True) → writing must P k → writing must P ((if b then mret tt else m) ;; k).
Proof. intros Hm Hk. eapply (writing_bind _ _ _ _ (λ _, True)); [destruct b; [by apply reading_ret|done]|done]. Qed.
Lemma check_rule_reads ne : reading (check_rule load_location ne : D unit) (λ _, True).
Proof.
  unfold check_rule. case_bool_decide; [by apply reading_ret|]. eapply (reading_bind _ _ (λ _, True)).
  - intros st. destruct (validateRRULEForStartContext _ _ st.1.1) as [w r]. exists []. split; [by rewrite app_nil_r|].
    split; [constructor|by destruct r].
  - intros [] _. eapply reading_weaken; [apply reading_fail_if|done].
Qed.
Lemma refuse_reads shard calendarPath path :
  reading (refuse_existing allowHost http_configured shard calendarPath path : D unit) (λ _, True).
Proof.
  unfold refuse_existing. eapply reading_bind; [apply reading_attempt, cal_get_reads|]. intros [obj|e] _; [apply reading_fail|].
  destruct (not_found e); [by apply reading_ret|apply reading_fail].
Qed.
(** The object an operation that starts in [st] found. *)
Definition found_by (calendarPath uid : string) (st : St) (obj : CalendarObject) : Prop :=
  verified uid obj ∧ ∃ d st0 st1, enter allowHost http_configured baseURL calendarPath st = (st0, Ok d) ∧
    findEventByUID allowHost http_configured (shardBase d) calendarPath uid st0 = (st1, Ok obj).
Lemma enter_discovers calendarPath : reading (enter allowHost http_configured baseURL calendarPath : D _) (λ _, True).
Proof. eapply reading_weaken; [apply enter_reads|done]. Qed.

Lemma found_writes {A} calendarPath uid must P (k : CalendarObject → D A) st :
  (∀ obj, found_by calendarPath uid st obj → writing must P (k obj)) →
  writing_at st must P (
    d ← enter allowHost http_configured baseURL calendarPath;
    obj ← findEventByUID allowHost http_configured (shardBase d) calendarPath uid;
    k obj).
Proof.
  intros Hk. eapply writing_bind_at; [apply enter_discovers|]. intros st0 d Hd _.
  eapply writing_bind_at; [apply find_reads|]. intros st1 obj Ho Hv. apply writing_all, Hk. split; [done|]. by exists d, st0, st1.
Qed.

(** The object a new event is written as. *)
Definition new_object (ne : NewEvent) (uid : string) (data : list ascii) : Prop :=
  ∃ now, ical_encode (buildEventCalendar load_location now uid ne) = Ok data.
Definition create_write (calendarPath : string) (ne : NewEvent) (uid : string) (x : HttpRequest) : Prop :=
  put_write calendarPath (object_path calendarPath uid) Absent (new_object ne uid) x.
(** The caller's UID, else a fresh one; a success returns it. *)
Definition new_uid (ne : NewEvent) (uid : string) : Prop :=
  if bool_decide (ClientUID ne = "") then ∃ nonce, uid = newUID_of nonce else uid = ClientUID ne.
Definition creation (calendarPath : string) (ne : NewEvent) (l : list HttpRequest) (r : result error string) : Prop :=
  (Forall read_ok l ∧ is_ok r = false) ∨
  ∃ uid, new_uid ne uid ∧ match r with Ok v => v = uid | Err _ => True end ∧ session true (create_write calendarPath ne uid) l r.
Lemma creation_bind {A} calendarPath ne (m : D A) (f : A → D string) Q :
  reading m Q → (∀ a, Q a → emits (f a) (creation calendarPath ne)) → emits (m ≫= f) (creation calendarPath ne).
Proof.
  intros Hm Hf. eapply (emits_bind _ _ (λ l r, Forall read_ok l ∧ match r with Ok a => Q a | Err _ => True end)); [exact Hm| |].
  - intros l e [Hl _]. by left.
  - intros l a [Hl Ha]. eapply emits_weaken; [by apply Hf|]. intros l' r [[Hr He]|(uid & Hu & Hv & Hs)].
    + left. split; [by apply Forall_app|done].
    + right. exists uid. split; [done|]. split; [done|]. by apply session_reads.
Qed.
Lemma create_sends calendarPath ne :
  emits (createEvent allowHost http_configured baseURL load_location calendarPath ne : D string) (creation calendarPath ne).
Proof.
  unfold createEvent. eapply (creation_bind _ _ _ _ (λ _, True)); [by apply reading_lift|]. intros [] _.
  eapply creation_bind; [apply check_rule_reads|]. intros [] _.
  eapply (creation_bind _ _ _ _ (λ _, True)); [by apply reading_lift|]. intros [] _.
  eapply creation_bind; [apply enter_discovers|]. intros d _.
  eapply (creation_bind _ _ _ _ (new_uid ne)).
  { unfold new_uid. case_bool_decide as Hc; [|by apply reading_ret]. unfold newUID. eapply reading_bind; [apply reading_world|].
    intros [nonce|e] _; [apply reading_ret; by exists nonce|apply reading_fail]. }
  intros uid Huid. cbv zeta. eapply (creation_bind _ _ _ _ (λ _, True)).
  { destruct (bool_decide _); [by apply reading_ret|apply refuse_reads]. }
  intros [] _. eapply creation_bind; [apply reading_world|]. intros now _.
  eapply (emits_bind _ _ (session true (create_write calendarPath ne uid))).
  - apply writing_map_err. eapply writing_weaken; [|by apply (put_writes _ _ _ _ _ Absent)].
    intros x (E1 & E2 & (data & E3 & E4) & E5). split; [done|]. split; [done|]. split; [|done]. exists data. split; [done|]. by exists now.
  - intros l e (reads & w & -> & Hr & Hw). right. exists uid. split; [done|]. split; [done|]. exists reads, w.
    split; [done|]. split; [done|]. destruct Hw as [[-> _]|Hw]; [left; by split|by right].
  - intros l [] (reads & w & -> & Hr & Hw). apply emits_ret. right. exists uid. split; [done|]. split; [done|]. rewrite app_nil_r.
    exists reads, w. split; [done|]. split; [done|]. destruct Hw as [[_ Hw]|Hw]; [by specialize (Hw eq_refl)|by right].
Qed.

(** What an update of the object [cal] writes: for the whole series only the
    properties of the master change; for one occurrence its override is
    changed, or one override is added, and the master is renewed (its sequence
    number and stamp).  Every other component is the one that was read. *)
Definition renewed (p p' : Props) : Prop := ∃ q now, incrementSequence p = Ok q ∧ p' = stamped q now.
Definition series_patch (up : EventUpdate) (cal cal' : Component) : Prop :=
  ∃ i master p p', findMasterVEvent cal = Ok (i, master) ∧ applyFieldUpdate load_location (CompProps master) up = Ok p ∧
    renewed p p' ∧ cal' = replace_master cal (CompChildren cal) i master p'.
Definition occurrence_patch (recID : gtime) (up : EventUpdate) (cal cal' : Component) : Prop :=
  ∃ i master p' children, findMasterVEvent cal = Ok (i, master) ∧ has_rule (CompProps master) = true ∧
    renewed (CompProps master) p' ∧ cal' = replace_master cal children i master p' ∧
    ((∃ k c p, CompChildren cal !! k = Some c ∧ override_of recID c = true ∧ k ≠ i ∧
        patch_override load_location false recID up (CompProps c) = Ok p ∧ children = <[k := with_props p c]> (CompChildren cal)) ∨
     (Forall (λ c, override_of recID c = false) (CompChildren cal) ∧ ∃ c p, new_override load_location (CompProps master) recID = Ok c ∧
        patch_override load_location true recID up (CompProps c) = Ok p ∧ children = (CompChildren cal ++ [with_props p c])%list)).
Definition update_patch (up : EventUpdate) (cal cal' : Component) : Prop :=
  match UpScope up with
  | ScopeSeries => series_patch up cal cal'
  | ScopeOccurrence => occurrence_patch (default no_time (UpRecurrenceID up)) up cal cal'
  end.
Lemma find_index_spec {A} (f : A → bool) l :
  match find_index f l with
  | Some (i, a) => l !! i = Some a ∧ f a = true
  | None => Forall (λ a, f a = false) l
  end.
Proof.
  induction l as [|a l IH]; cbn [find_index]; [constructor|]. destruct (f a) eqn:Hf; [by split|].
  destruct (find_index f l) as [[i b]|]; [done|by constructor].
Qed.
Lemma findMaster_spec cal i master : findMasterVEvent cal = Ok (i, master) → CompChildren cal !! i = Some master ∧ is_master master = true.
Proof.
  unfold findMasterVEvent. pose proof (find_index_spec is_master (CompChildren cal)) as Hs.
  destruct (find_index _ _) as [[j m]|]; [|done]. by intros [= <- <-].
Qed.
Lemma override_not_master recID c : override_of recID c = true → is_master c = false.
Proof.
  unfold override_of, is_master. intros [-> Ho]%andb_prop. destruct (props_Get _ _); [|done].
  by rewrite bool_decide_true.
Qed.
Lemma update_patch_spec up cal i master children p now p' :
  findMasterVEvent cal = Ok (i, master) → apply_update load_location (CompChildren cal) master up = Ok (children, p) →
  incrementSequence p = Ok p' → update_patch up cal (replace_master cal children i master (stamped p' now)).
Proof.
  intros Hm Ha Hs. destruct (findMaster_spec _ _ _ Hm) as [Hi Hmaster]. revert Ha. unfold apply_update, update_patch.
  destruct (UpScope up).
  - intros (p1 & E1 & Ha)%bind_ok. apply bind_ok in Ha as ([] & _ & [= <- <-]).
    exists i, master, p1, (stamped p' now). split; [done|]. split; [done|]. split; [by exists p', now|done].
  - intros [Hr%negb_false_iff Ha]%reject_ok. apply bind_ok in Ha as (children1 & Ha & [= <- <-]).
    exists i, master, (stamped p' now), children1. split; [done|]. split; [done|]. split; [by exists p', now|]. split; [done|].
    revert Ha. unfold applyOccurrenceUpdate. set (recID := default no_time (UpRecurrenceID up)).
    pose proof (find_index_spec (override_of recID) (CompChildren cal)) as Hf.
    destruct (find_index _ _) as [[k c]|].
    + destruct Hf as [Hk Ho]. intros (p & Hp & [= <-])%bind_ok. left. exists k, c, p. split_and!; try done.
      intros ->. rewrite Hi in Hk. injection Hk as ->. by rewrite (override_not_master _ _ Ho) in Hmaster.
    + intros (c & Hc & Ha)%bind_ok. apply bind_ok in Ha as (p & Hp & [= <-]). right. split; [done|]. by exists c, p.
Qed.
Definition caller_or (etag : string) (obj : CalendarObject) : string := if bool_decide (etag = "") then ObjETag obj else etag.
Definition update_write (st : St) (calendarPath uid : string) (up : EventUpdate) (x : HttpRequest) : Prop :=
  ∃ obj, found_by calendarPath uid st obj ∧
    put_write calendarPath (ObjPath obj) (Unchanged (caller_or (UpIfMatchETag up) obj))
      (λ data, ∃ cal', update_patch (NormalizeEventUpdateFields up) (ObjData obj) cal' ∧ ical_encode cal' = Ok data) x.
Lemma update_sends st calendarPath uid up :
  writing_at st true (update_write st calendarPath uid up) (updateEvent allowHost http_configured baseURL load_location calendarPath uid up : D unit).
Proof.
  unfold updateEvent. do 2 (apply writing_lift_at; intros [] _). cbv zeta. apply found_writes. intros obj Hv.
  set (up' := NormalizeEventUpdateFields up).
  eapply (writing_bind _ _ _ _ (λ m, findMasterVEvent (ObjData obj) = Ok m)); [by apply reading_lift|]. intros [i master] Hm.
  eapply (writing_bind _ _ _ _ (λ m, apply_update load_location (CompChildren (ObjData obj)) master up' = Ok m)); [by apply reading_lift|].
  intros [children p] Ha. eapply (writing_bind _ _ _ _ (λ p', incrementSequence p = Ok p')); [by apply reading_lift|].
  intros p' Hs. eapply writing_bind; [apply reading_world|]. intros now _. cbv zeta.
  eapply writing_bind; [apply reading_fail_if|]. intros [] Hne%bool_decide_eq_false. apply writing_map_err.
  eapply writing_weaken; [|by apply (put_writes _ _ _ _ _ (Unchanged (caller_or (UpIfMatchETag up) obj)))].
  intros x (E1 & E2 & (data & E3 & E4) & E5). exists obj. split; [done|]. split; [done|]. split; [done|]. split; [|done].
  exists data. split; [done|]. eexists. split; [by eapply update_patch_spec|exact E4].
Qed.
(** What the deletion of one occurrence writes: the series with one more
    exception (unless it is there already), without the override of that
    instant, and with its master renewed. *)
Definition exception_patch (recID : gtime) (cal cal' : Component) : Prop :=
  ∃ i master p p', findMasterVEvent cal = Ok (i, master) ∧ renewed p p' ∧
    cal' = replace_master cal (List.filter (λ c, negb (override_of recID c)) (CompChildren cal))
             (length (List.filter (λ c, negb (override_of recID c)) (take i (CompChildren cal)))) (with_props p master) p' ∧
    ((excluded load_location (CompProps master) recID = true ∧ p = CompProps master) ∨
     ∃ ex, setRecurrenceInstantProp load_location "EXDATE" (CompProps master) recID = Ok ex ∧ p = props_Add (CompProps master) ex).
Lemma exclude_spec recID cal i master children j master' p' now :
  findMasterVEvent cal = Ok (i, master) →
  exclude_occurrence load_location (CompChildren cal) i master recID = Ok (Some (children, j, master')) →
  incrementSequence (CompProps master') = Ok p' → exception_patch recID cal (replace_master cal children j master' (stamped p' now)).
Proof.
  intros Hm He Hs. revert He. unfold exclude_occurrence. set (already := excluded _ _ _). destruct (already && _); [done|].
  intros (p & Hp & [= <- <- <-])%bind_ok. exists i, master, p, (stamped p' now). split; [done|]. split; [by exists p', now|]. split; [done|].
  destruct already eqn:Ha; [left; split; [done|congruence]|right]. apply bind_ok in Hp as (ex & Hex & [= <-]). by exists ex.
Qed.
Definition occurrence_write (st : St) (calendarPath uid : string) (o : DeleteOptions) (x : HttpRequest) : Prop :=
  ∃ obj, found_by calendarPath uid st obj ∧
    put_write calendarPath (ObjPath obj) (Unchanged (caller_or (DelIfMatchETag o) obj))
      (λ data, ∃ cal', exception_patch (default no_time (DelRecurrenceID o)) (ObjData obj) cal' ∧ ical_encode cal' = Ok data) x.
Definition series_write (st : St) (calendarPath uid : string) (o : DeleteOptions) (x : HttpRequest) : Prop :=
  ∃ obj, found_by calendarPath uid st obj ∧ delete_write calendarPath (ObjPath obj) (caller_or (DelIfMatchETag o) obj) x.
Lemma writing_may {A} (P : HttpRequest → Prop) (m : D A) : writing true P m → writing false P m.
Proof.
  intros Hm. eapply emits_weaken; [exact Hm|]. intros l r (reads & w & -> & Hr & Hw). exists reads, w. split; [done|]. split; [done|].
  destruct Hw as [[-> _]|Hw]; [by left|by right].
Qed.
Lemma occurrence_sends st calendarPath uid obj o : found_by calendarPath uid st obj →
  writing false (occurrence_write st calendarPath uid o)
    (deleteOccurrence allowHost http_configured baseURL load_location calendarPath obj (default no_time (DelRecurrenceID o)) (chosen_etag o obj) : D unit).
Proof.
  intros Hv. unfold deleteOccurrence. set (recID := default no_time (DelRecurrenceID o)).
  eapply (writing_bind _ _ _ _ (λ m, findMasterVEvent (ObjData obj) = Ok m)); [by apply reading_lift|]. intros [i master] Hm.
  eapply (writing_bind _ _ _ _ (λ c, exclude_occurrence load_location (CompChildren (ObjData obj)) i master recID = Ok c)); [by apply reading_lift|].
  intros [[[children j] master']|] He; [|by apply writing_ret].
  eapply (writing_bind _ _ _ _ (λ p', incrementSequence (CompProps master') = Ok p')); [by apply reading_lift|].
  intros p' Hs. eapply writing_bind; [apply reading_world|]. intros now _. cbv zeta.
  eapply writing_bind; [apply reading_fail_if|]. intros [] Hne%bool_decide_eq_false. apply writing_may.
  eapply writing_weaken; [|by apply (put_writes _ _ _ _ _ (Unchanged (chosen_etag o obj)))].
  intros x (E1 & E2 & (data & E3 & E4) & E5). exists obj. split; [done|]. split; [done|]. split; [done|]. split; [|done].
  exists data. split; [done|]. eexists. split; [by eapply exclude_spec|exact E4].
Qed.
Abbreviation delete_event := (deleteEvent allowHost http_configured baseURL).
(** The object, and what the deletion does next. *)
Lemma delete_found {A} st calendarPath uid opts must P (k : CalendarObject → Component → D A) :
  (∀ obj master, found_by calendarPath uid st obj → writing must P (k obj master)) →
  writing_at st must P (
    lift (ValidateUID uid);;
    lift (check_delete (delete_options opts));;
    d ← enter allowHost http_configured baseURL calendarPath;
    obj ← findEventByUID allowHost http_configured (shardBase d) calendarPath uid;
    '(_, master) ← lift (findMasterVEvent (ObjData obj));
    k obj master).
Proof.
  intros Hk. do 2 (apply writing_lift_at; intros [] _). apply found_writes. intros obj Hf.
  eapply (writing_bind _ _ _ _ (λ _, True)); [by apply reading_lift|]. intros [i master] _. by apply Hk.
Qed.
(** What a deletion sends. *)
Definition delete_sent (st : St) (calendarPath uid : string) (o : DeleteOptions) (x : HttpRequest) : Prop :=
  match DryRun o, DelScope o with
  | true, _ => False
  | false, ScopeOccurrence => occurrence_write st calendarPath uid o x
  | false, ScopeSeries => series_write st calendarPath uid o x
  end.
(** A success has written, except a dry run, and the deletion of an occurrence
    that is excluded already. *)
Definition deletes (o : DeleteOptions) : bool := negb (DryRun o) && match DelScope o with ScopeSeries => true | ScopeOccurrence => false end.
Lemma delete_sends st calendarPath uid opts :
  writing_at st (deletes (delete_options opts)) (delete_sent st calendarPath uid (delete_options opts))
    (deleteEvent allowHost http_configured baseURL load_location calendarPath uid opts : D _).
Proof.
  unfold deleteEvent. cbv zeta. apply delete_found. intros obj master Hf.
  eapply writing_bind; [apply reading_fail_if|]. intros [] _. unfold deletes, delete_sent. destruct (DryRun (delete_options opts)).
  { do 2 (eapply writing_bind; [apply reading_fail_if|]; intros [] _). apply writing_ret. }
  destruct (DelScope (delete_options opts)); cbn [negb andb]; apply writing_then.
  - apply writing_map_err. eapply writing_weaken; [|apply cal_delete_writes]. intros x Hx. by exists obj.
  - intros [] st1. exists []. unfold evict_location, locations, on_client, mbind, M_bind, mret, M_ret. cbn. by rewrite app_nil_r.
  - by apply writing_map_err, occurrence_sends.
  - intros []. by apply emits_ret.
Qed.

(** * What the client sends *)

(** (C0) placeholder *)
Theorem calendar_client_requests :
  (reading (listCalendars allowHost http_configured baseURL : D _) (λ _, True)) ∧
  (∀ path start end_ opts, reading (searchEvents allowHost http_configured baseURL load_location path start end_ opts : D _) (λ _, True)) ∧
  (∀ path uid, reading (getEvent allowHost http_configured baseURL load_location path uid : D _) (λ _, True)) ∧
  (∀ path ne, emits (createEvent allowHost http_configured baseURL load_location path ne : D _) (creation path ne)) ∧
  (∀ st path uid up, writing_at st true (update_write st path uid up)
     (updateEvent allowHost http_configured baseURL load_location path uid up : D _)) ∧
  (∀ st path uid opts, let o := delete_options opts in
     writing_at st (deletes o) (delete_sent st path uid o)
       (deleteEvent allowHost http_configured baseURL load_location path uid opts : D _)).
Proof.
  split; [apply cal_list_reads|]. split; [intros; apply cal_search_reads|]. split; [intros; apply get_event_sends|].
  split; [intros; apply create_sends|]. split; [intros; apply update_sends|intros; apply delete_sends].
Qed.
End Requests.
